(* ===== verification/_CoqProject ===== *)
-Q . S2P
Prelude.v
Buffers.v
Results.v
Integers.v
Bits.v
Leb.v
DyldInfo.v
ExportTrie.v
Layout.v
Enums.v
ElfConst.v
ElfTypes.v
MachoTypes.v
DeadStrip.v
A64.v
Link.v
Arm64.v
Thunks.v
Calls.v
Segments.v
Glob.v
MultiGlob.v
Relr.v
HashTable.v
GcSections.v
Resolve.v
Got.v
InputSections.v
ElfLayout.v
ConcurrentMap.v
MergedSections.v
Leaders.v
IcfRounds.v
Icf.v
IcfMerge.v
FileType.v
Archive.v
Dynstr.v
VersionSections.v
RiscvIsa.v
Riscv.v
RiscvReloc.v
RiscvData.v
Plt.v
RiscvPlt.v
RiscvScan.v
