(* ===== verification/Prelude.v ===== *)
(** * Verification of the forged linker

    The program is a linker (a fork of mold and sold) with two back ends: an ELF linker
    under src/elf and a Mach-O linker under src/macho, over shared code under src/common.
    Each reads object files and libraries, resolves their symbols, drops what is not
    needed, lays out segments and sections, applies relocations, and writes the tables
    that the dynamic loader reads. This development models the parts listed below as
    executable functions, translated from the C++ sources, and proves what they are for.

    ** Conventions

    Machine integers are [Z] with the wrap-around written out ([u8] .. [i64] of this
    file); bytes are integers in [0, 256) and buffers are lists of them. Code that can
    fail, read outside a buffer or call Fatal returns an [option] (or an error type of
    its own). Loops that are not structural take fuel; where a result is claimed, enough
    fuel is part of the theorem. Pointers to symbols, sections and files are identifiers,
    and shared objects are entries of a map or list that the state carries. Work that the
    program gives to several threads is a transition system or an arbitrary
    interleaving of atomic steps, and the theorem holds for every schedule.

    ** Files, and the code they model

    Shared code (src/common):
    - Prelude: notations, tactics, widths, little- and big-endian loads and stores,
      stable sorting, byte strings; the lemmas and hints that the other files share.
    - Integers: LittleEndian and BigEndian of integers.h, with the byte order of the
      host as an argument.
    - ConcurrentMap: the hash map of common.h that threads fill at the same time.
    - Bits: align_to, align_down, bit_ceil, bits, bit, sign_extend of common.h.
    - Leb: the LEB128 writers and readers of common.h.
    - Glob, MultiGlob: glob.cc and multi-glob.cc.
    - Results: a monad with fatal errors, exceptions and undefined accesses, and its loops;
      FileType: filetype.h; Archive: the readers of archive-file.h.
    - Buffers: reads, writes and read-modify-writes of an output buffer in the byte order
      of the target, with what they keep; the parts that write code and tables use it.

    Descriptions of file formats:
    - Layout: how a C++ struct with bit-fields lies in memory; Enums: enumerations.
    - ElfConst, ElfTypes: elf.h and elf.cc. MachoTypes: macho.h.

    The ELF linker (src/elf):
    - Resolve: do_resolve_symbols (passes.cc) with resolve_symbols, mark_live_objects,
      clear_symbols and get_rank of input-files.cc.
    - GcSections: gc-sections.cc.
    - Relr: encode_relr, construct_relr and RelrDynSection of output-chunks.cc.
    - HashTable: DynsymSection::finalize, HashSection, GnuHashSection of output-chunks.cc.
    - Got: GotSection of output-chunks.cc and Symbol::get_addr of mold.h, for every target.
    - InputSections: the tables of actions, scan_rel and apply_absrel of input-sections.cc,
      with .rel.dyn (RelDynSection) and the packed words of relocated sections.
    - ElfLayout: section order, set_osec_offsets and create_phdr (passes.cc and
      output-chunks.cc), and tls.cc.
    - Plt: .plt, .plt.got, .got.plt and .rela.plt (output-chunks.cc, mold.h), with the code
      of the architectures as an interface.
    - MergedSections: mergeable sections, from split_section of input-files.cc to
      MergedSection of output-chunks.cc; their pieces are inserted into a ConcurrentMap.
    - Icf: icf.cc, with the hash function as an argument; its election of leaders by many
      threads is Leaders, its rounds of propagation IcfRounds; IcfMerge specifies which
      sections are merged.
    - Dynstr, VersionSections: .dynstr and the three sections of symbol versions
      (output-chunks.cc).
    - RiscvIsa: a specification of the RISC-V instructions that the linker writes (not code
      of the program). Riscv: immediates and relaxation; RiscvScan: scan_relocations;
      RiscvReloc: apply_reloc_alloc; RiscvData: relocations of data, .eh_frame and sections
      that are not loaded; RiscvPlt: the PLT, which implements the interface of Plt; all of
      arch-riscv.cc.

    The Mach-O linker (src/macho):
    - DeadStrip: dead-strip.cc.
    - Link: symbols, subsections, relocations and thunks of mold.h with their addresses.
    - Segments: OutputSegment::set_offset (output-chunks.cc) and assign_offsets (main.cc).
    - Thunks: thunks.cc. A64: a specification of the ARM64 instructions that the linker
      writes (not code of the program). Arm64: arch-arm64.cc. Calls: Thunks and Arm64
      together.
    - DyldInfo: the rebase, bind and lazy-bind programs of output-chunks.cc.
    - ExportTrie: ExportEncoder of output-chunks.cc and the trie reader of input-files.cc.

    ** How the parts interact

    FileType and Archive find the object files in what the user names. In the ELF linker
    Resolve decides which files take part and who owns a symbol; MergedSections splits their
    strings and merges equal ones; GcSections starts from the sections of those files and
    marks what they reach, and Icf replaces equal sections by one; RiscvScan and InputSections scan the
    relocations of what is left, which requests slots of Got and Plt and counts dynamic
    relocations; HashTable orders and indexes the dynamic symbols, whose names and versions
    Dynstr and VersionSections store; Riscv shortens the code; ElfLayout gives sections
    addresses and offsets; then InputSections, RiscvReloc, Got and Plt write the words and
    instructions for these addresses, and Relr compresses the relative relocations. In the
    Mach-O linker DeadStrip removes subsections, Thunks assigns them offsets and adds range extension thunks,
    Segments assigns addresses to chunks, Arm64 writes the code, and DyldInfo and ExportTrie
    write what dyld reads. Glob and MultiGlob serve version scripts and section filters,
    Leb and Integers serve all of them.

    ** What the theorems show

    - Files that the loader reads: what is written is decoded by a reference reader to what
      was meant (DyldInfo, ExportTrie, Relr, HashTable), the structures hold the same bytes on
      every host (ElfTypes) or, where they do not, what they hold (MachoTypes).
    - What is kept: exactly the reachable sections, subsections and files, whatever the
      schedule of the threads (Resolve, GcSections, DeadStrip).
    - Symbols: every symbol belongs to its strongest definition (Resolve).
    - Layout: no overlaps, alignment, offsets congruent to addresses (Segments, Thunks);
      for ELF a loader that maps whole pages finds every section at its address with its
      contents and permissions (ElfLayout).
    - Dynamic linking: words, .got slots and PLT entries hold, after a reference loader has
      processed .rel.dyn and the packed relocations, what their users expect, and no slot
      or counted relocation is missing (InputSections, Got, RiscvPlt); the loader finds every
      symbol's version (VersionSections).
    - Inputs: archives that ar wrote are read back; on any bytes the readers of regular
      archives end without leaving the file (Archive).
    - Folding: whatever the schedule, sections get the same leader exactly if they are equal
      up to folded callees, and a leader can replace its section if the values of imported
      symbols are distinct (IcfMerge).
    - Merging: under any interleaving of the threads the merged section is the same, and
      every byte of an input section is found in it (ConcurrentMap, MergedSections).
    - RISC-V: the instructions of the output, executed by the specification, compute the
      addresses of their symbols, before and after relaxation, which keeps all other code;
      what scanning accepts can be relocated (Riscv, RiscvReloc, RiscvData, RiscvScan).
    - Code: every Mach-O call lands at its target, directly or through a thunk; stubs jump where
      their pointers say; relocations touch only their field (Thunks, Calls, Arm64).
    - Patterns: Glob decides its language; the automaton of MultiGlob agrees with it.
    - Helpers: round trips and bounds of integers, LEB128 and alignment.

    The list of findings that the proofs led to is part of the manifest; a theorem states
    what the code does, and hypotheses exclude the inputs on which it fails.

    ** Bounds and fuel

    A LEB128 number of 64 bits has at most ten bytes, so the loops of Leb get ten rounds.
    The trie is built with fuel one more than the number of entries, since a group
    loses an entry or a character in every call. The depth of DeadStrip.visit is bounded by
    the number of subsections, since every call marks one; GcSections.visit recurses at
    most three deep as in the source, and its worklist, like that of Resolve, gets each
    section or file at most once. Readers get as much fuel as the buffer has bytes.
    The thunk pass does at most one round per member; its theorem assumes members and
    groups within the reach of a branch (32 MiB of code per member, 1 GiB in all, 8533
    symbols per group), which the header of Thunks explains. A glob needs as much fuel
    as the pattern is long, a star one round per character; the breadth-first search of
    MultiGlob visits every node once; RELR consumes a word in every round; chains of the
    hash table are shorter than the table. ElfLayout repeats file offsets and addresses
    until the number of program headers is stable: two rounds, since they depend on the
    order and flags of the sections only. The loops over chunks that group TLS or
    adjacent sections get one round per chunk. The loaders of VersionSections follow links,
    at most one per byte of the section. A search in the ConcurrentMap gives up after
    MAX_RETRY buckets, as in the source; it is proved not to while a shard has at most as
    many keys. The two loops of Icf need at most n + 2 iterations each for n
    vertices, since the number of changed digests falls and the number of classes grows; the
    hash function must have no collision in the 11 n + 22 rounds that this makes. The loops
    over archives advance in every round, so the size of the file bounds them.

    ** Not modelled

    Input and output, the command line, demangling, compression, tracing and statistics
    are calls of libraries or text for users. Link-time optimization runs compiler plugins
    whose code is not in the repository. Vendored code under src/third-party is not
    modelled. Of the ELF linker the following is left out: the symbol and section header
    tables, .dynamic, .eh_frame and copy relocations, the readers of
    object files and the passes that create synthetic symbols and sort sections, since they
    work on data of whole object files, which the parts above take as records of what they
    use; range extension thunks, which resemble those of the Mach-O linker; the architectures
    other than RISC-V, each of which needs a specification of its instructions; and the
    parsers of linker scripts. Of the Mach-O linker unwind information, the reading of object
    files and x86-64 are left out for the same reasons. The code also leaves out-of-range
    reads undefined; the models either return [None] there or say in a comment what they
    return. *)

From stdpp Require Export base list gmap strings numbers sorting.
From Stdlib Require Export ZArith Lia.
From coqutil Require Export Z.bitblast.

#[export] Set Default Goal Selector "!".

(** ** Scope and notations of the development *)

Declare Scope linker_scope.
Delimit Scope linker_scope with linker.
Open Scope Z_scope.
Open Scope linker_scope.

(** Bytes are integers in [0, 256); a buffer, a C++ [std::string_view] or a
    [std::vector<u8>] is a list of bytes. *)
Abbreviation byte := Z (only parsing).
Abbreviation bytes := (list Z) (only parsing).

(** The bytes of a string literal of the source. *)
Definition bs (s : string) : bytes :=
  map (fun c => Z.of_N (Ascii.N_of_ascii c)) (String.list_ascii_of_string s).

(** ** Machine integers

    A w-bit unsigned integer is a [Z] in [0, 2^w); conversions wrap. *)

Definition wrap (w : Z) (x : Z) : Z := x mod 2 ^ w.

(** The signed reading of a w-bit pattern (two's complement). *)
Definition swrap (w : Z) (x : Z) : Z :=
  let y := x mod 2 ^ w in if y <? 2 ^ (w - 1) then y else y - 2 ^ w.

Definition u8 := wrap 8.
Definition u16 := wrap 16.
Definition u32 := wrap 32.
Definition u64 := wrap 64.
Definition i8 := swrap 8.
Definition i16 := swrap 16.
Definition i32 := swrap 32.
Definition i64 := swrap 64.

Definition UINT64_MAX : Z := 2 ^ 64 - 1.
Definition UINT32_MAX : Z := 2 ^ 32 - 1.

Definition is_u (w : Z) (x : Z) : Prop := 0 <= x < 2 ^ w.
Definition is_s (w : Z) (x : Z) : Prop := - 2 ^ (w - 1) <= x < 2 ^ (w - 1).
Definition is_byte (x : Z) : Prop := is_u 8 x.
Abbreviation all_bytes := (Forall is_byte).

#[export] Instance is_u_dec w x : Decision (is_u w x).
Proof. unfold is_u. apply _. Defined.
#[export] Instance is_s_dec w x : Decision (is_s w x).
Proof. unfold is_s. apply _. Defined.
#[export] Instance is_byte_dec x : Decision (is_byte x).
Proof. unfold is_byte. apply _. Defined.

(** ** Tactics *)

(** Unfold the width predicates and evaluate the powers of two with a
    literal exponent, then call [lia]. *)
Ltac pow2s :=
  repeat match goal with
  | |- context [2 ^ ?n] => let v := eval compute in (2 ^ n) in
      lazymatch v with Zpos _ => change (2 ^ n) with v end
  | H : context [2 ^ ?n] |- _ => let v := eval compute in (2 ^ n) in
      lazymatch v with Zpos _ => change (2 ^ n) with v in H end
  end.
Ltac width := unfold u8, u16, u32, u64, i8, i16, i32, i64, wrap, swrap, is_byte, is_u, is_s, UINT64_MAX, UINT32_MAX in *.
Ltac wnorm := width; simpl Z.sub in *; pow2s.
Ltac warith := wnorm; lia.
(** As [warith], with division and remainder by constants. *)
Ltac dlia := wnorm; Z.div_mod_to_equations; lia.

(** Case analysis on the boolean comparisons of the goal or a hypothesis. *)
Ltac destruct_bool b :=
  lazymatch b with
  | ?x <? ?y => destruct (Z.ltb_spec x y)
  | ?x <=? ?y => destruct (Z.leb_spec x y)
  | ?x =? ?y => destruct (Z.eqb_spec x y)
  | _ => let E := fresh "E" in destruct b eqn:E
  end.
Ltac case_bool :=
  match goal with
  | |- context [if ?b then _ else _] => destruct_bool b
  | H : context [if ?b then _ else _] |- _ => destruct_bool b
  end.

(** A decidable closed proposition, by evaluation. *)
Ltac decided := apply (bool_decide_unpack _); vm_compute; exact I.

Create HintDb linker.
Create Rewrite HintDb linker.

(** ** Wrapping *)

Lemma wrap_range w x : 0 <= w -> is_u w (wrap w x).
Proof. intros. unfold is_u, wrap. apply Z.mod_pos_bound. apply Z.pow_pos_nonneg; lia. Qed.

Lemma wrap_small w x : is_u w x -> wrap w x = x.
Proof. intros. apply Z.mod_small. done. Qed.

Lemma wrap_land w x : 0 <= w -> wrap w x = Z.land x (Z.ones w).
Proof. intros. unfold wrap. rewrite Z.land_ones by lia. done. Qed.

Lemma wrap_testbit w x i :
  0 <= w -> Z.testbit (wrap w x) i = (i <? w) && Z.testbit x i.
Proof.
  intros. rewrite wrap_land, Z.land_spec, Z.testbit_ones by lia.
  destruct (Z.leb_spec 0 i); simpl; [apply Bool.andb_comm|].
  rewrite Z.testbit_neg_r by lia. by rewrite !Bool.andb_false_r.
Qed.

Lemma wrap_wrap w v x : 0 <= w <= v -> wrap w (wrap v x) = wrap w x.
Proof.
  intros. apply Z.bits_inj'. intros i Hi. rewrite !wrap_testbit by lia.
  destruct (Z.ltb_spec i w), (Z.ltb_spec i v); simpl; lia || done.
Qed.

Lemma is_u_mono w v x : 0 <= w <= v -> is_u w x -> is_u v x.
Proof.
  unfold is_u. intros. assert (2 ^ w <= 2 ^ v) by (apply Z.pow_le_mono_r; lia). lia.
Qed.

Lemma is_u_testbit w x i : 0 <= w <= i -> is_u w x -> Z.testbit x i = false.
Proof.
  intros ? Hx. rewrite <- (wrap_small w x Hx), wrap_testbit by lia.
  by destruct (Z.ltb_spec i w); [lia|].
Qed.

Lemma swrap_range w x : 0 < w -> is_s w (swrap w x).
Proof.
  intros. unfold is_s, swrap.
  assert (2 ^ w = 2 * 2 ^ (w - 1)) by (rewrite <- Z.pow_succ_r by lia; f_equal; lia).
  assert (0 < 2 ^ (w - 1)) by (apply Z.pow_pos_nonneg; lia).
  pose proof (Z.mod_pos_bound x (2 ^ w)). case_bool; lia.
Qed.

Lemma swrap_small w x : 0 < w -> is_s w x -> swrap w x = x.
Proof.
  intros ? [Hl Hu]. unfold swrap.
  assert (2 ^ w = 2 * 2 ^ (w - 1)) by (rewrite <- Z.pow_succ_r by lia; f_equal; lia).
  assert (0 < 2 ^ (w - 1)) by (apply Z.pow_pos_nonneg; lia).
  destruct (Z.le_gt_cases 0 x).
  - rewrite Z.mod_small by lia. case_bool; lia.
  - replace (x mod 2 ^ w) with (x + 2 ^ w); [case_bool; lia|].
    rewrite <- (Z.mod_small (x + 2 ^ w) (2 ^ w)) by lia.
    rewrite <- (Z.mul_1_l (2 ^ w)) at 1. by rewrite Z_mod_plus_full.
Qed.

(** Signed and unsigned readings of the same bits. *)
Lemma swrap_wrap w x : 0 <= w -> swrap w (wrap w x) = swrap w x.
Proof. intros. unfold swrap, wrap. by rewrite Zmod_mod. Qed.

Lemma wrap_swrap w x : 0 <= w -> wrap w (swrap w x) = wrap w x.
Proof.
  intros. unfold swrap, wrap. case_bool; [by rewrite Zmod_mod|].
  replace (x mod 2 ^ w - 2 ^ w) with (x mod 2 ^ w + (-1) * 2 ^ w) by lia.
  by rewrite Z_mod_plus_full, Zmod_mod.
Qed.

#[export] Hint Resolve wrap_range swrap_range : linker.
#[export] Hint Extern 1 (is_u _ _) => solve [warith] : linker.
#[export] Hint Extern 1 (is_byte _) => solve [warith] : linker.
#[export] Hint Rewrite wrap_testbit using lia : linker.

(** ** Lists of bytes *)

Lemma all_bytes_app l1 l2 : all_bytes (l1 ++ l2) <-> all_bytes l1 /\ all_bytes l2.
Proof. apply Forall_app. Qed.

Lemma bs_all_bytes s : all_bytes (bs s).
Proof.
  unfold bs. apply Forall_forall. intros x Hx%list_elem_of_In%in_map_iff.
  destruct Hx as (c & <- & _). pose proof (Ascii.N_ascii_bounded c). warith.
Qed.

#[export] Hint Resolve bs_all_bytes : linker.

(** ** Integers as byte sequences

    [le_load] and [le_store] are what a little-endian host does when it
    copies between memory and an integer register; a big-endian host sees
    the bytes in reverse order. *)

Fixpoint le_load (l : bytes) : Z :=
  match l with
  | [] => 0
  | b :: l' => b + 256 * le_load l'
  end.

Fixpoint le_store (n : nat) (x : Z) : bytes :=
  match n with
  | O => []
  | S n' => x mod 256 :: le_store n' (x / 256)
  end.

Definition be_load (l : bytes) : Z := le_load (reverse l).
Definition be_store (n : nat) (x : Z) : bytes := reverse (le_store n x).

Lemma length_le_store n x : length (le_store n x) = n.
Proof. revert x. induction n; intros; simpl; auto. Qed.

Lemma length_be_store n x : length (be_store n x) = n.
Proof. unfold be_store. by rewrite length_reverse, length_le_store. Qed.

Lemma le_store_bytes n x : all_bytes (le_store n x).
Proof. revert x. induction n; intros; simpl; constructor; [dlia|auto]. Qed.

Lemma pow256_S n : 2 ^ (8 * Z.of_nat (S n)) = 256 * 2 ^ (8 * Z.of_nat n).
Proof.
  rewrite Nat2Z.inj_succ. replace (8 * Z.succ (Z.of_nat n)) with (8 + 8 * Z.of_nat n) by lia.
  rewrite Z.pow_add_r by lia. done.
Qed.

Lemma pow256_pos n : 0 < 2 ^ (8 * Z.of_nat n).
Proof. apply Z.pow_pos_nonneg; lia. Qed.

Lemma le_load_store n x : le_load (le_store n x) = wrap (8 * Z.of_nat n) x.
Proof.
  revert x. induction n as [|n IH]; intros x; simpl le_load.
  - unfold wrap. rewrite Z.mod_1_r. done.
  - rewrite IH. unfold wrap. rewrite pow256_S. pose proof (pow256_pos n).
    rewrite (Z.rem_mul_r x 256) by lia. lia.
Qed.

Lemma le_load_range l : all_bytes l -> is_u (8 * Z.of_nat (length l)) (le_load l).
Proof.
  induction 1 as [|b l Hb Hl IH]; [done|].
  unfold is_u in *. simpl length. rewrite pow256_S. simpl le_load. warith.
Qed.

Lemma le_store_load l n : all_bytes l -> length l = n -> le_store n (le_load l) = l.
Proof.
  intros Hl <-. induction Hl as [|b l Hb Hl IH]; [done|]. cbn [le_load le_store length].
  rewrite (Z.mul_comm 256), Z_mod_plus_full, Z.div_add by lia.
  rewrite (Z.mod_small b), (Z.div_small b) by warith. rewrite Z.add_0_l, IH. done.
Qed.

Lemma le_store_wrap n w x : 8 * Z.of_nat n <= w -> le_store n (wrap w x) = le_store n x.
Proof.
  intros. rewrite <- (le_store_load (le_store n x) n), le_load_store;
    [|apply le_store_bytes|apply length_le_store].
  rewrite <- (le_store_load (le_store n (wrap w x)) n), le_load_store;
    [|apply le_store_bytes|apply length_le_store].
  f_equal. apply wrap_wrap. lia.
Qed.

Lemma reverse_bytes l : all_bytes l -> all_bytes (reverse l).
Proof. apply Forall_reverse. Qed.

#[export] Hint Resolve le_store_bytes reverse_bytes : linker.
#[export] Hint Rewrite length_le_store length_be_store : linker.

(** ** Bit fields *)

(** Disjoint fields: [or] is addition. *)
Lemma lor_shiftl k a b : 0 <= k -> is_u k a -> Z.lor (Z.shiftl b k) a = a + b * 2 ^ k.
Proof.
  intros Hk Ha. rewrite <- Z.shiftl_mul_pow2 by lia.
  assert (D : Z.land (Z.shiftl b k) a = 0).
  { apply Z.bits_inj'. intros i Hi. rewrite Z.land_spec, Z.bits_0, Z.shiftl_spec by lia.
    destruct (Z.lt_ge_cases i k).
    - rewrite (Z.testbit_neg_r b) by lia. done.
    - rewrite (is_u_testbit k a) by (auto; lia). apply Bool.andb_false_r. }
  pose proof (Z.add_lor_land (Z.shiftl b k) a). lia.
Qed.

Lemma lor_shiftl_r k a b : 0 <= k -> is_u k a -> Z.lor a (Z.shiftl b k) = a + b * 2 ^ k.
Proof. intros. rewrite Z.lor_comm. by apply lor_shiftl. Qed.

(** Setting bits below a multiple of a power of two. *)
Lemma lor_low k a m : 0 <= k -> is_u k a -> Z.lor (m * 2 ^ k) a = m * 2 ^ k + a.
Proof. intros. rewrite <- Z.shiftl_mul_pow2, lor_shiftl, Z.shiftl_mul_pow2 by auto. lia. Qed.

Lemma is_u_lor k a b : 0 <= k -> is_u k a -> is_u k b -> is_u k (Z.lor a b).
Proof.
  intros Hk Ha Hb. replace (Z.lor a b) with (wrap k (Z.lor a b)); [by apply wrap_range|].
  apply Z.bits_inj'. intros i Hi. rewrite wrap_testbit by done. destruct (Z.ltb_spec i k); [done|].
  by rewrite Z.lor_spec, !(is_u_testbit k) by (done || lia).
Qed.

(** ** Sorting

    [std::stable_sort] and, for orders that identify no two distinct elements,
    [tbb::parallel_sort]: the result they document does not depend on the
    algorithm, so insertion from the right stands for both. *)

Section StableSort.
Context {A : Type} (less : A -> A -> bool).

Fixpoint insert_sorted (x : A) (l : list A) : list A :=
  match l with
  | [] => [x]
  | y :: l' => if less y x then y :: insert_sorted x l' else x :: y :: l'
  end.

Definition stable_sort (l : list A) : list A := foldr insert_sorted [] l.

Lemma insert_sorted_perm x l : insert_sorted x l ≡ₚ x :: l.
Proof.
  induction l as [|y l IH]; simpl; [done|]. destruct (less y x); [|done].
  rewrite IH. apply Permutation_swap.
Qed.

Lemma stable_sort_perm l : stable_sort l ≡ₚ l.
Proof. induction l as [|x l IH]; simpl; [done|]. by rewrite insert_sorted_perm, IH. Qed.

(** Sortedness needs [less] to be a strict weak order; totality of its
    negation is the part the insertion uses. *)
Hypothesis less_asym : forall x y, less x y = true -> less y x = false.
Hypothesis nless_trans : forall x y z, less y x = false -> less z y = false -> less z x = false.

Lemma insert_sorted_sorted x l :
  StronglySorted (fun a b => less b a = false) l ->
  StronglySorted (fun a b => less b a = false) (insert_sorted x l).
Proof.
  induction 1 as [|y l Hs IH Hy]; simpl; [repeat constructor|].
  destruct (less y x) eqn:E.
  - constructor; [done|]. rewrite insert_sorted_perm. constructor; [by apply less_asym|done].
  - constructor; [by constructor|]. constructor; [done|].
    eapply Forall_impl; [exact Hy|]. intros z Hz. simpl in Hz. by apply (nless_trans x y z).
Qed.

Lemma stable_sort_sorted l : StronglySorted (fun a b => less b a = false) (stable_sort l).
Proof. induction l; simpl; [constructor|by apply insert_sorted_sorted]. Qed.
End StableSort.

(** Lexicographic order of byte strings ([std::string_view::operator<]). *)
Fixpoint str_ltb (a b : bytes) : bool :=
  match a, b with
  | [], [] => false
  | [], _ :: _ => true
  | _ :: _, [] => false
  | x :: a', y :: b' => if x <? y then true else if y <? x then false else str_ltb a' b'
  end.

Lemma str_ltb_irrefl a : str_ltb a a = false.
Proof. induction a as [|x a IH]; simpl; [done|]. by rewrite Z.ltb_irrefl. Qed.

Lemma str_ltb_asym a b : str_ltb a b = true -> str_ltb b a = false.
Proof.
  revert b. induction a as [|x a IH]; intros [|y b]; simpl; try done.
  destruct (Z.ltb_spec x y), (Z.ltb_spec y x); try done; try lia. apply IH.
Qed.

Lemma str_ltb_trans a b c : str_ltb a b = true -> str_ltb b c = true -> str_ltb a c = true.
Proof.
  revert b c. induction a as [|x a IH]; intros [|y b] [|z c]; simpl; try done.
  destruct (Z.ltb_spec x y), (Z.ltb_spec y x), (Z.ltb_spec y z), (Z.ltb_spec z y),
    (Z.ltb_spec x z), (Z.ltb_spec z x); try done; try lia. apply IH.
Qed.

Lemma str_ltb_total a b : str_ltb a b = false -> str_ltb b a = false -> a = b.
Proof.
  revert b. induction a as [|x a IH]; intros [|y b]; simpl; try done.
  destruct (Z.ltb_spec x y), (Z.ltb_spec y x); try done; try lia.
  intros. assert (x = y) as -> by lia. f_equal. auto.
Qed.

Lemma str_nltb_trans a b c : str_ltb b a = false -> str_ltb c b = false -> str_ltb c a = false.
Proof.
  intros H1 H2. destruct (str_ltb c a) eqn:E; [|done].
  destruct (str_ltb a b) eqn:E2.
  - by rewrite (str_ltb_trans c a b) in H2.
  - rewrite (str_ltb_total a b) in E by done. by rewrite E in H2.
Qed.

(** ** NUL-terminated strings *)

Fixpoint take_cstr (l : bytes) : option (bytes * bytes) :=
  match l with
  | [] => None
  | b :: l' => if b =? 0 then Some ([], l') else '(s, rest) ← take_cstr l'; Some (b :: s, rest)
  end.

Lemma take_cstr_app s rest : Forall (fun c => c ≠ 0) s -> take_cstr (s ++ 0 :: rest) = Some (s, rest).
Proof.
  induction 1 as [|c s Hc Hs IH]; simpl; [done|]. destruct (Z.eqb_spec c 0); [done|]. by rewrite IH.
Qed.

Lemma take_cstr_rest l d rest : take_cstr l = Some (d, rest) -> (length rest <= length l)%nat.
Proof.
  revert d. induction l as [|b l IH]; simpl; intros d E; [done|].
  case_bool; [injection E as <- <-; lia|].
  destruct (take_cstr l) as [[d' r']|]; [|done]. injection E as <- <-. specialize (IH d' eq_refl). lia.
Qed.

(** ** Vectors *)

(** [buf.resize(n)] for [n >= buf.size()]: pad with zeros. *)
Definition resize (buf : bytes) (n : Z) : bytes :=
  take (Z.to_nat n) buf ++ replicate (Z.to_nat n - length buf) 0.

Definition zlen {A} (l : list A) : Z := Z.of_nat (length l).

Lemma zlen_nonneg {A} (l : list A) : 0 <= zlen l.
Proof. unfold zlen. lia. Qed.

Lemma zlen_app {A} (l1 l2 : list A) : zlen (l1 ++ l2) = zlen l1 + zlen l2.
Proof. unfold zlen. rewrite length_app. lia. Qed.

Lemma resize_grow buf n : zlen buf <= n ->
  resize buf n = buf ++ replicate (Z.to_nat n - length buf) 0.
Proof. unfold resize, zlen. intros. rewrite take_ge by lia. done. Qed.

Lemma zlen_resize buf n : 0 <= n -> zlen (resize buf n) = n.
Proof.
  unfold resize, zlen. intros. rewrite length_app, length_take, length_replicate. lia.
Qed.

(** ** Finite checks *)

Lemma forall_range (P : Z -> bool) n :
  forallb P (seqZ 0 n) = true -> forall x, 0 <= x < n -> P x = true.
Proof. rewrite forallb_forall. intros H x Hx. apply H, list_elem_of_In, elem_of_seqZ. lia. Qed.
