(* ===== verification/Buffers.v ===== *)
(** * Buffers

    Reads and writes of memory that C++ accesses through a cast pointer, [*(ul32 * )loc] or
    [*(U32<E> * )loc], and memcpy, on lists of bytes; [None] outside of the buffer. *)

From S2P Require Import Prelude.
Local Open Scope list_scope.
Local Open Scope Z_scope.

(** ** Reads *)

Definition in_buf (n : nat) (buf : bytes) (off : Z) : bool := (0 <=? off) && (off + Z.of_nat n <=? zlen buf).
Definition read_le (n : nat) (buf : bytes) (off : Z) : option Z :=
  if in_buf n buf off then Some (le_load (take n (drop (Z.to_nat off) buf))) else None.

(** The bytes in [from, to). *)
Definition slice (contents : bytes) (from to : Z) : option bytes :=
  if (0 <=? from) && (from <=? to) && (to <=? zlen contents)
  then Some (take (Z.to_nat (to - from)) (drop (Z.to_nat from) contents)) else None.

(** ** Writes

    [memcpy], and the integers of [n] bytes in the order of the target. *)

Definition poke (off : Z) (new buf : bytes) : option bytes :=
  if in_buf (length new) buf off
  then Some (take (Z.to_nat off) buf ++ new ++ drop (Z.to_nat off + length new) buf) else None.

Definition host (big : bool) (l : bytes) : bytes := if big then reverse l else l.
Definition modify (big : bool) (n : nat) (f : Z -> Z) (off : Z) (buf : bytes) : option bytes :=
  if in_buf n buf off
  then poke off (host big (le_store n (f (le_load (host big (take n (drop (Z.to_nat off) buf))))))) buf else None.
Definition assign (big : bool) (n : nat) (x off : Z) (buf : bytes) : option bytes := modify big n (fun _ => x) off buf.

(** ** What a write leaves alone *)

Definition window (buf : bytes) (lo hi : Z) : bytes := take (Z.to_nat (hi - lo)) (drop (Z.to_nat lo) buf).

(** Nothing is written to [lo, hi) by a write of [w] bytes at [off]. *)
Definition clear (lo hi off w : Z) : Prop := w <= 0 \/ hi <= off \/ off + w <= lo.

Record keeps (lo hi : Z) (buf buf' : bytes) : Prop := {
  kp_length : zlen buf' = zlen buf;
  kp_window : window buf' lo hi = window buf lo hi }.

Lemma keeps_refl lo hi buf : keeps lo hi buf buf.
Proof. done. Qed.

Lemma keeps_trans lo hi buf1 buf2 buf3 : keeps lo hi buf1 buf2 -> keeps lo hi buf2 buf3 -> keeps lo hi buf1 buf3.
Proof. intros [H1 H2] [H3 H4]. split; congruence. Qed.

Lemma in_buf_true n buf off : in_buf n buf off = true <-> 0 <= off /\ off + Z.of_nat n <= zlen buf.
Proof. unfold in_buf. rewrite andb_true_iff, !Z.leb_le. done. Qed.

Lemma poke_ok off new buf buf' : poke off new buf = Some buf' ->
  0 <= off /\ off + zlen new <= zlen buf /\ zlen buf' = zlen buf /\
  forall i, buf' !! i = if decide (Z.to_nat off <= i < Z.to_nat off + length new)%nat then new !! (i - Z.to_nat off)%nat else buf !! i.
Proof.
  unfold poke. destruct (in_buf _ _ _) eqn:E; [|done]. intros [= <-]. apply in_buf_true in E as [H1 H2]. unfold zlen in *.
  split; [done|]. split; [lia|]. assert (Hlen : length (take (Z.to_nat off) buf) = Z.to_nat off) by (rewrite length_take; lia). split.
  { rewrite !length_app, Hlen, length_drop. lia. }
  intros i. case_decide as Hi.
  - rewrite lookup_app_r, Hlen, lookup_app_l by lia. done.
  - destruct (Nat.lt_ge_cases i (Z.to_nat off)).
    + rewrite lookup_app_l by lia. by apply lookup_take_lt.
    + rewrite lookup_app_r, Hlen, lookup_app_r by lia. rewrite lookup_drop. f_equal. lia.
Qed.

Lemma poke_keeps lo hi off new buf buf' : poke off new buf = Some buf' -> 0 <= lo -> clear lo hi off (zlen new) -> keeps lo hi buf buf'.
Proof.
  intros (H1 & H2 & H3 & H4)%poke_ok Hlo Hc. split; [done|]. unfold window. apply list_eq. intros i.
  destruct (Nat.lt_ge_cases i (Z.to_nat (hi - lo))); [|by rewrite !lookup_take_ge].
  rewrite !lookup_take_lt, !lookup_drop, H4 by done. case_decide; [|done]. unfold clear, zlen in *. lia.
Qed.

Lemma length_host big l : length (host big l) = length l.
Proof. destruct big; [apply length_reverse|done]. Qed.

Lemma modify_poke big n f off buf buf' : modify big n f off buf = Some buf' ->
  poke off (host big (le_store n (f (le_load (host big (window buf off (off + Z.of_nat n))))))) buf = Some buf'.
Proof.
  unfold modify, window. destruct (in_buf _ _ _); [|done]. intros <-. do 7 f_equal. lia.
Qed.

Lemma modify_keeps lo hi big n f off buf buf' : modify big n f off buf = Some buf' -> 0 <= lo -> clear lo hi off (Z.of_nat n) -> keeps lo hi buf buf'.
Proof.
  intros H%modify_poke Hlo Hc. apply (poke_keeps _ _ _ _ _ _ H Hlo). unfold zlen. by rewrite length_host, length_le_store.
Qed.

Lemma modify_some big n f off buf : 0 <= off -> off + Z.of_nat n <= zlen buf -> exists buf', modify big n f off buf = Some buf' /\ zlen buf' = zlen buf.
Proof.
  intros H1 H2. assert (E : in_buf n buf off = true) by (by apply in_buf_true).
  assert (is_Some (modify big n f off buf)) as [buf' Eb].
  { unfold modify. rewrite E. unfold poke. rewrite length_host, length_le_store, E. by eexists. }
  exists buf'. split; [done|]. apply modify_poke, poke_ok in Eb. tauto.
Qed.

Lemma clear_part lo hi off w off' w' : clear lo hi off w -> off <= off' -> off' + w' <= off + w -> clear lo hi off' w'.
Proof. unfold clear. lia. Qed.

Lemma host_host big (l : bytes) : host big (host big l) = l.
Proof. unfold host. destruct big; [apply reverse_involutive|done]. Qed.

Lemma window_poke off new buf buf' : poke off new buf = Some buf' -> window buf' off (off + zlen new) = new.
Proof.
  intros (H1 & H2 & H3 & H4)%poke_ok. unfold window. apply list_eq. intros i. unfold zlen in *.
  destruct (Nat.lt_ge_cases i (length new)) as [Hi|Hi].
  - rewrite lookup_take_lt, lookup_drop, H4 by lia. rewrite decide_True by lia. f_equal. lia.
  - rewrite lookup_take_ge by lia. by rewrite lookup_ge_None_2.
Qed.

Lemma window_modify n f off buf buf' : modify false n f off buf = Some buf' ->
  window buf' off (off + Z.of_nat n) = le_store n (f (le_load (window buf off (off + Z.of_nat n)))).
Proof. intros H%modify_poke. apply window_poke in H. unfold zlen in H. by rewrite length_host, length_le_store in H. Qed.

Lemma window_join buf a b c : 0 <= a <= b -> b <= c -> window buf a c = window buf a b ++ window buf b c.
Proof.
  intros H1 H2. unfold window. replace (Z.to_nat (c - a)) with (Z.to_nat (b - a) + Z.to_nat (c - b))%nat by lia.
  rewrite <- take_take_drop, drop_drop. do 3 f_equal. lia.
Qed.

(** ** Writes at a place of a list *)

Lemma poke_list a x new c : length new = length x -> poke (zlen a) new (a ++ x ++ c) = Some (a ++ new ++ c).
Proof.
  intros Hl. unfold poke. replace (in_buf (length new) (a ++ x ++ c) (zlen a)) with true.
  2:{ symmetry. apply in_buf_true. rewrite !zlen_app. unfold zlen. lia. }
  unfold zlen. rewrite Nat2Z.id. rewrite take_app_length. rewrite Hl, (app_assoc a x c), <- length_app, drop_app_length. done.
Qed.

Lemma modify_list n f a x c : length x = n -> modify false n f (zlen a) (a ++ x ++ c) = Some (a ++ le_store n (f (le_load x)) ++ c).
Proof.
  intros <-. unfold modify. replace (in_buf (length x) (a ++ x ++ c) (zlen a)) with true.
  2:{ symmetry. apply in_buf_true. rewrite !zlen_app. unfold zlen. lia. }
  unfold zlen at 2. rewrite Nat2Z.id, drop_app_length, take_app_length. apply poke_list. by rewrite length_le_store.
Qed.

(** Code at a place of a buffer. *)
Definition has_code (buf : bytes) (off : Z) (code : bytes) : Prop := 0 <= off /\ off + zlen code <= zlen buf /\ window buf off (off + zlen code) = code.

Lemma poke_some off code buf : 0 <= off -> off + zlen code <= zlen buf -> exists buf', poke off code buf = Some buf' /\ zlen buf' = zlen buf /\
  has_code buf' off code /\ forall lo code', clear lo (lo + zlen code') off (zlen code) -> has_code buf lo code' -> has_code buf' lo code'.
Proof.
  intros H1 H2. unfold poke. replace (in_buf (length code) buf off) with true by (symmetry; by apply in_buf_true). eexists. split; [reflexivity|].
  set (buf' := take _ buf ++ code ++ drop _ buf). assert (E : poke off code buf = Some buf').
  { unfold poke. replace (in_buf (length code) buf off) with true by (symmetry; by apply in_buf_true). done. }
  pose proof (poke_ok _ _ _ _ E) as (_ & _ & L & _). split; [done|]. split.
  - split; [done|]. split; [lia|]. by apply (window_poke _ _ buf).
  - intros lo code' Hc (A1 & A2 & A3). split; [done|]. split; [lia|]. destruct (poke_keeps lo (lo + zlen code') _ _ _ _ E A1 Hc) as [_ K]. by rewrite K.
Qed.

Lemma has_code_at buf off code x : has_code buf off code -> 0 <= x < zlen code -> buf !! Z.to_nat (off + x) = code !! Z.to_nat x.
Proof.
  intros (H1 & H2 & H3) Hx. rewrite <- H3. unfold window. rewrite lookup_take_lt by (unfold zlen in *; lia). rewrite lookup_drop. f_equal. lia.
Qed.

Lemma has_code_byte buf x c : 0 <= x -> buf !! Z.to_nat x = Some c <-> has_code buf x [c].
Proof.
  intros Hx. split.
  - intros Hc. apply lookup_lt_Some in Hc as Hlt. split; [done|]. split; [unfold zlen; simpl; lia|]. unfold window. replace (Z.to_nat (x + zlen [c] - x)) with 1%nat by (unfold zlen; simpl; lia).
    rewrite (drop_S buf c (Z.to_nat x) Hc). done.
  - intros H. pose proof (has_code_at buf x [c] 0 H) as E. rewrite Z.add_0_r in E. apply E. by unfold zlen.
Qed.

(** ** Lists *)

Lemma lookup_snoc {A} (l : list A) x i y : (l ++ [x]) !! i = Some y -> l !! i = Some y \/ i = length l /\ y = x.
Proof.
  destruct (Nat.lt_ge_cases i (length l)) as [Hi|Hi]; [rewrite lookup_app_l by done; by left|].
  rewrite lookup_app_r by done. intros H. right. destruct (i - length l)%nat eqn:E; [|done]. injection H as ->. split; [lia|done].
Qed.
