(* ===== verification/Results.v ===== *)
(** * Results of readers

    What a function that reads a file does: it returns, it ends the program with [Fatal],
    or it accesses bytes that do not belong to the file, which C++ leaves undefined; and
    loops over such functions. *)

From S2P Require Import Prelude Buffers.
Local Open Scope list_scope.
Local Open Scope Z_scope.

Inductive result (A : Type) := Returns (a : A) | Fatal | Undefined.
Arguments Returns {A} a.
Arguments Fatal {A}.
Arguments Undefined {A}.

#[export] Instance result_bind : MBind result := fun A B f r =>
  match r with Returns a => f a | Fatal => Fatal | Undefined => Undefined end.

(** [if (!x) Fatal(ctx) << ...;], and an access that is only defined inside of the file. *)
Definition required {A} (x : option A) : result A := match x with Some a => Returns a | None => Fatal end.
Definition accessed {A} (x : option A) : result A := match x with Some a => Returns a | None => Undefined end.
Definition check (b : bool) : result unit := if b then Returns tt else Fatal.

(** A loop whose body goes on with a new state or leaves with a value. *)
Fixpoint loop {S R} (body : S -> result (S + R)) (fuel : nat) (s : S) : option (result R) :=
  match fuel with
  | O => None
  | Datatypes.S n =>
      match body s with
      | Returns (inl s') => loop body n s'
      | Returns (inr r) => Some (Returns r)
      | Fatal => Some Fatal
      | Undefined => Some Undefined
      end
  end.

(** ** Outcomes

    What holds of the value, and whether [Fatal] is possible ([f]). *)

Definition outcome {A} (f : Prop) (P : A -> Prop) (r : result A) : Prop := match r with Returns a => P a | Fatal => f | Undefined => False end.
Abbreviation defined := (outcome True).
Abbreviation succeeds := (outcome False).

Lemma outcome_bind {A B} f (P : A -> Prop) (Q : B -> Prop) (r : result A) (g : A -> result B) :
  outcome f P r -> (forall a, P a -> outcome f Q (g a)) -> outcome f Q (r ≫= g).
Proof. destruct r; simpl; auto. Qed.

Lemma outcome_impl {A} f (P Q : A -> Prop) (r : result A) : outcome f P r -> (forall a, P a -> Q a) -> outcome f Q r.
Proof. destruct r; simpl; auto. Qed.

Lemma defined_required {A} (P : A -> Prop) (x : option A) : (forall a, x = Some a -> P a) -> defined P (required x).
Proof. destruct x; simpl; auto. Qed.

Lemma defined_check b : defined (fun _ => b = true) (check b).
Proof. by destruct b. Qed.

(** A loop whose invariant [I] is kept by a body that stays defined and lets a measure
    decrease ends within as many rounds as the measure and leaves with [Q]. *)
Lemma loop_defined {S R} (body : S -> result (S + R)) (I : S -> Prop) (Q : R -> Prop) (m : S -> nat) :
  (forall s, I s -> defined (fun r => match r with inl s' => I s' /\ (m s' < m s)%nat | inr r => Q r end) (body s)) ->
  forall n s, I s -> (m s < n)%nat -> exists r, loop body n s = Some r /\ defined Q r.
Proof.
  intros Hb. induction n as [|n IH]; intros s Hs Hm; [lia|]. simpl. specialize (Hb s Hs).
  destruct (body s) as [[s'|r]| |]; simpl in Hb; try done.
  - destruct Hb as [Hi Hl]. apply IH; [done|lia].
  - by exists (Returns r).
  - by exists Fatal.
Qed.

Lemma loop_more {S R} (body : S -> result (S + R)) n m s r : loop body n s = Some r -> (n <= m)%nat -> loop body m s = Some r.
Proof.
  revert m s. induction n as [|n IH]; intros m s; [done|]. destruct m as [|m]; [lia|]. simpl. intros E Hm.
  destruct (body s) as [[s'|r']| |]; [apply IH; [done|lia]|done..].
Qed.

(** ** Structures over the file *)

Lemma slice_some contents from to : 0 <= from -> from <= to -> to <= zlen contents ->
  slice contents from to = Some (window contents from to).
Proof. intros. unfold slice. by rewrite !(proj2 (Z.leb_le _ _)) by done. Qed.

Lemma window_all contents from to : all_bytes contents -> all_bytes (window contents from to).
Proof. intros H. unfold window. by apply Forall_take, Forall_drop. Qed.

Lemma length_window contents from to : 0 <= from -> from <= to -> to <= zlen contents -> zlen (window contents from to) = to - from.
Proof. intros. unfold window, zlen in *. rewrite length_take, length_drop. lia. Qed.
