(* ===== verification/Integers.v ===== *)
(** * Integers of fixed size and byte order (src/common/integers.h)

    The template classes [LittleEndian<T, SIZE>] and [BigEndian<T, SIZE>] keep
    [SIZE] bytes in a fixed order whatever the host. The model keeps the host's
    byte order as an argument, so that the file states, and proves, that the
    stored bytes and the values read back do not depend on it. *)

From S2P Require Import Prelude.

(** The byte order of the machine the linker runs on ([std::endian::native]). *)
Inductive endian := little | big.

#[export] Instance endian_eq_dec : EqDecision endian.
Proof. solve_decision. Defined.

(** The integral types [T] of the typedefs: their size in bytes and sign. *)
Record int_type := IntType { it_size : nat; it_signed : bool }.

Definition T_u8  := IntType 1 false.
Definition T_u16 := IntType 2 false.
Definition T_u32 := IntType 4 false.
Definition T_u64 := IntType 8 false.
Definition T_i16 := IntType 2 true.
Definition T_i32 := IntType 4 true.
Definition T_i64 := IntType 8 true.

Definition it_bits (t : int_type) : Z := 8 * Z.of_nat (it_size t).

(** Conversion of an integer to the type (modulo 2^w, as C++20 has it). *)
Definition it_conv (t : int_type) (x : Z) : Z :=
  if it_signed t then swrap (it_bits t) x else wrap (it_bits t) x.

Definition in_type (t : int_type) (x : Z) : Prop :=
  if it_signed t then is_s (it_bits t) x else is_u (it_bits t) x.

(** [memcpy] between an integer variable and memory, as the host lays it out. *)
Definition host_load (h : endian) (l : bytes) : Z :=
  match h with little => le_load l | big => be_load l end.
Definition host_store (h : endian) (n : nat) (x : Z) : bytes :=
  match h with little => le_store n x | big => be_store n x end.

(** [bswap]: defined for the sizes 2, 4 and 8, unreachable otherwise. *)
Definition bswap (n : nat) (x : Z) : option Z :=
  match n with
  | 2%nat | 4%nat | 8%nat => Some (le_load (reverse (le_store n x)))
  | _ => None
  end.

(** ** LittleEndian *)
Module LittleEndian.

(** [operator T() const] *)
Definition get (h : endian) (t : int_type) (SIZE : nat) (val : bytes) : option Z :=
  if decide (it_size t = SIZE) then
    let x := host_load h val in
    x' ← (if decide (h = big) then bswap (it_size t) x else Some x);
    Some (it_conv t x')
  else
    match SIZE, val with
    | 3%nat, [v0; v1; v2] =>
        Some (it_conv t (Z.lor (Z.lor (Z.shiftl v2 16) (Z.shiftl v1 8)) v0))
    | _, _ => None
    end.

(** [operator=(T x)] *)
Definition set (h : endian) (t : int_type) (SIZE : nat) (x : Z) : option bytes :=
  if decide (it_size t = SIZE) then
    x' ← (if decide (h = big) then bswap (it_size t) x else Some x);
    Some (host_store h (it_size t) x')
  else
    match SIZE with
    | 3%nat => Some [u8 x; u8 (Z.shiftr x 8); u8 (Z.shiftr x 16)]
    | _ => None
    end.

(** [operator+=], [operator-=], [operator&=], [operator|=]: read the value,
    combine, write it back; [operator++] is [+= 1] and [operator--] is [-= 1]. *)
Definition update (f : Z -> Z) (h : endian) (t : int_type) (SIZE : nat) (val : bytes) : option bytes :=
  x ← get h t SIZE val; set h t SIZE (it_conv t (f x)).

Definition add_assign h t SIZE val x := update (fun v => v + x) h t SIZE val.
Definition sub_assign h t SIZE val x := update (fun v => v - x) h t SIZE val.
Definition and_assign h t SIZE val x := update (fun v => Z.land v x) h t SIZE val.
Definition or_assign h t SIZE val x := update (fun v => Z.lor v x) h t SIZE val.
Definition pre_inc h t SIZE val := add_assign h t SIZE val 1.
Definition pre_dec h t SIZE val := sub_assign h t SIZE val 1.

(** The postfix forms return the value before the update. *)
Definition post_inc h t SIZE val : option (Z * bytes) :=
  ret ← get h t SIZE val; val' ← pre_inc h t SIZE val; Some (ret, val').
Definition post_dec h t SIZE val : option (Z * bytes) :=
  ret ← get h t SIZE val; val' ← pre_dec h t SIZE val; Some (ret, val').

End LittleEndian.

(** ** BigEndian *)
Module BigEndian.

Definition get (h : endian) (t : int_type) (SIZE : nat) (val : bytes) : option Z :=
  if decide (it_size t = SIZE) then
    let x := host_load h val in
    x' ← (if decide (h = little) then bswap (it_size t) x else Some x);
    Some (it_conv t x')
  else
    match SIZE, val with
    | 3%nat, [v0; v1; v2] =>
        Some (it_conv t (Z.lor (Z.lor (Z.shiftl v0 16) (Z.shiftl v1 8)) v2))
    | _, _ => None
    end.

Definition set (h : endian) (t : int_type) (SIZE : nat) (x : Z) : option bytes :=
  if decide (it_size t = SIZE) then
    x' ← (if decide (h = little) then bswap (it_size t) x else Some x);
    Some (host_store h (it_size t) x')
  else
    match SIZE with
    | 3%nat => Some [u8 (Z.shiftr x 16); u8 (Z.shiftr x 8); u8 x]
    | _ => None
    end.

Definition update (f : Z -> Z) (h : endian) (t : int_type) (SIZE : nat) (val : bytes) : option bytes :=
  x ← get h t SIZE val; set h t SIZE (it_conv t (f x)).

Definition add_assign h t SIZE val x := update (fun v => v + x) h t SIZE val.
Definition sub_assign h t SIZE val x := update (fun v => v - x) h t SIZE val.
Definition and_assign h t SIZE val x := update (fun v => Z.land v x) h t SIZE val.
Definition or_assign h t SIZE val x := update (fun v => Z.lor v x) h t SIZE val.
Definition pre_inc h t SIZE val := add_assign h t SIZE val 1.
Definition pre_dec h t SIZE val := sub_assign h t SIZE val 1.

Definition post_inc h t SIZE val : option (Z * bytes) :=
  ret ← get h t SIZE val; val' ← pre_inc h t SIZE val; Some (ret, val').
Definition post_dec h t SIZE val : option (Z * bytes) :=
  ret ← get h t SIZE val; val' ← pre_dec h t SIZE val; Some (ret, val').

End BigEndian.

(** ** The typedefs *)

Inductive order := LE | BE.

#[export] Instance order_eq_dec : EqDecision order.
Proof. solve_decision. Defined.

(** A typedef such as [ul32]: byte order, value type and stored size. *)
Record int_field := IntField { if_order : order; if_type : int_type; if_size : nat }.

Definition il16 := IntField LE T_i16 2.
Definition il32 := IntField LE T_i32 4.
Definition il64 := IntField LE T_i64 8.
Definition ul16 := IntField LE T_u16 2.
Definition ul24 := IntField LE T_u32 3.
Definition ul32 := IntField LE T_u32 4.
Definition ul64 := IntField LE T_u64 8.
Definition ib16 := IntField BE T_i16 2.
Definition ib32 := IntField BE T_i32 4.
Definition ib64 := IntField BE T_i64 8.
Definition ub16 := IntField BE T_u16 2.
Definition ub24 := IntField BE T_u32 3.
Definition ub32 := IntField BE T_u32 4.
Definition ub64 := IntField BE T_u64 8.

Definition typedefs : list int_field :=
  [il16; il32; il64; ul16; ul24; ul32; ul64; ib16; ib32; ib64; ub16; ub24; ub32; ub64].

Definition read_int (h : endian) (f : int_field) (l : bytes) : option Z :=
  match if_order f with
  | LE => LittleEndian.get h (if_type f) (if_size f) l
  | BE => BigEndian.get h (if_type f) (if_size f) l
  end.

Definition write_int (h : endian) (f : int_field) (x : Z) : option bytes :=
  match if_order f with
  | LE => LittleEndian.set h (if_type f) (if_size f) x
  | BE => BigEndian.set h (if_type f) (if_size f) x
  end.

(** ** The host-independent reading

    [spec_read] and [spec_write] say what a field means without a host. *)

Definition in_order (o : order) (l : bytes) : bytes :=
  match o with LE => l | BE => reverse l end.

Definition spec_read (f : int_field) (l : bytes) : Z :=
  it_conv (if_type f) (le_load (in_order (if_order f) l)).
Definition spec_write (f : int_field) (x : Z) : bytes :=
  in_order (if_order f) (le_store (if_size f) x).

(** The values a field can hold: those of its type that fit its bytes. *)
Definition field_holds (f : int_field) (x : Z) : Prop :=
  in_type (if_type f) x /\ (if_size f = it_size (if_type f) \/ is_u (8 * Z.of_nat (if_size f)) x).

#[export] Instance in_type_dec t x : Decision (in_type t x).
Proof. unfold in_type. destruct (it_signed t); apply _. Defined.
#[export] Instance field_holds_dec f x : Decision (field_holds f x).
Proof. unfold field_holds. apply _. Defined.

Lemma it_conv_small t x : (0 < it_size t)%nat -> in_type t x -> it_conv t x = x.
Proof.
  unfold it_conv, in_type, it_bits. intros.
  destruct (it_signed t); [apply swrap_small|apply wrap_small]; auto. lia.
Qed.

Lemma it_conv_range t x : (0 < it_size t)%nat -> in_type t (it_conv t x).
Proof.
  unfold it_conv, in_type, it_bits. intros.
  destruct (it_signed t); auto with linker lia.
Qed.

Lemma it_conv_wrap t w x : it_bits t <= w -> it_conv t (wrap w x) = it_conv t x.
Proof.
  unfold it_conv, it_bits. intros. destruct (it_signed t).
  - rewrite <- (swrap_wrap _ (wrap w x)), wrap_wrap, swrap_wrap by lia. done.
  - apply wrap_wrap. lia.
Qed.

Lemma le_store_conv t x n : (n <= it_size t)%nat -> le_store n (it_conv t x) = le_store n x.
Proof.
  unfold it_conv, it_bits. intros.
  rewrite <- (le_store_wrap n (8 * Z.of_nat (it_size t)) (if it_signed t then _ else _)) by lia.
  destruct (it_signed t).
  - rewrite wrap_swrap by lia. apply le_store_wrap. lia.
  - rewrite wrap_wrap by lia. apply le_store_wrap. lia.
Qed.

Lemma bswap_load n l :
  (n = 2 \/ n = 4 \/ n = 8)%nat -> all_bytes l -> length l = n ->
  bswap n (le_load l) = Some (le_load (reverse l)).
Proof.
  intros Hn Hl Hlen. rewrite <- (le_store_load l n) at 2 by done.
  unfold bswap. destruct Hn as [->|[->| ->]]; done.
Qed.

Lemma bswap_store n x :
  (n = 2 \/ n = 4 \/ n = 8)%nat -> exists y, bswap n x = Some y /\ le_store n y = reverse (le_store n x).
Proof.
  intros Hn. exists (le_load (reverse (le_store n x))). split.
  - unfold bswap. destruct Hn as [->|[->| ->]]; done.
  - apply le_store_load; auto with linker. by rewrite length_reverse, length_le_store.
Qed.

Lemma typedef_shape f : f ∈ typedefs ->
  (if_size f = it_size (if_type f) /\ (if_size f = 2 \/ if_size f = 4 \/ if_size f = 8)%nat)
  \/ (if_size f = 3%nat /\ if_type f = T_u32).
Proof.
  unfold typedefs. rewrite !elem_of_cons. intros H.
  repeat destruct H as [->|H]; try (inversion H); simpl; tauto.
Qed.

Lemma list3_inv {A} (l : list A) : length l = 3%nat -> exists a b c, l = [a; b; c].
Proof. destruct l as [|a [|b [|c [|]]]]; simpl; intros; try lia. eauto. Qed.

Lemma lor3 a b c : is_byte a -> is_byte b -> is_byte c ->
  Z.lor (Z.lor (Z.shiftl c 16) (Z.shiftl b 8)) a = le_load [a; b; c].
Proof.
  intros Ha Hb Hc. rewrite <- Z.lor_assoc, (lor_shiftl 8 a b) by (auto; lia).
  rewrite lor_shiftl by warith. cbn [le_load]. lia.
Qed.

Lemma read_int_spec h f l :
  f ∈ typedefs -> all_bytes l -> length l = if_size f -> read_int h f l = Some (spec_read f l).
Proof.
  intros Hf Hl Hlen. unfold read_int, spec_read.
  destruct (typedef_shape f Hf) as [[Hs Hn]|[Hs Ht]].
  - destruct (if_order f); [unfold LittleEndian.get|unfold BigEndian.get];
      rewrite decide_True by done; destruct h; simpl; try done;
      unfold be_load; rewrite bswap_load by
        (rewrite ?length_reverse, <- ?Hs; auto with linker); simpl;
      by rewrite ?reverse_involutive.
  - rewrite Ht in *. rewrite Hs in Hlen.
    destruct (list3_inv l Hlen) as (a & b & c & ->).
    inversion Hl as [|?? Ha Hl1]; subst. inversion Hl1 as [|?? Hb Hl2]; subst.
    inversion Hl2 as [|?? Hc _]; subst. rewrite Hs.
    destruct (if_order f); [unfold LittleEndian.get|unfold BigEndian.get];
      rewrite decide_False by done; rewrite lor3 by auto; done.
Qed.

Lemma write_int_spec h f x : f ∈ typedefs -> write_int h f x = Some (spec_write f x).
Proof.
  intros Hf. unfold write_int, spec_write.
  destruct (typedef_shape f Hf) as [[Hs Hn]|[Hs Ht]].
  - destruct (bswap_store (if_size f) x Hn) as (y & Hy & Hl).
    rewrite Hs in *.
    destruct (if_order f); [unfold LittleEndian.set|unfold BigEndian.set];
      rewrite decide_True by done; destruct h; simpl; rewrite ?Hy; simpl; try done;
      unfold be_store; by rewrite ?Hl, ?reverse_involutive.
  - rewrite Ht, Hs. unfold LittleEndian.set, BigEndian.set.
    assert (E : [u8 x; u8 (Z.shiftr x 8); u8 (Z.shiftr x 16)] = le_store 3 x).
    { simpl. rewrite !Z.shiftr_div_pow2, Z.div_div by lia. done. }
    destruct (if_order f); rewrite decide_False by done.
    + by rewrite E.
    + cbn [in_order]. rewrite <- E. done.
Qed.

Lemma spec_write_bytes f x : all_bytes (spec_write f x).
Proof. unfold spec_write. destruct (if_order f); simpl; auto with linker. Qed.

Lemma length_spec_write f x : length (spec_write f x) = if_size f.
Proof.
  unfold spec_write. destruct (if_order f); simpl; rewrite ?length_reverse; apply length_le_store.
Qed.

Lemma in_order_invol o l : in_order o (in_order o l) = l.
Proof. destruct o; simpl; [done|apply reverse_involutive]. Qed.

Lemma typedef_size f : f ∈ typedefs -> (0 < if_size f <= it_size (if_type f))%nat.
Proof. intros Hf. destruct (typedef_shape f Hf) as [[-> H]|[-> ->]]; simpl; lia. Qed.

Lemma spec_read_write f x :
  f ∈ typedefs -> field_holds f x -> spec_read f (spec_write f x) = x.
Proof.
  intros Hf [Ht Hx]. pose proof (typedef_size f Hf) as Hsz.
  unfold spec_read, spec_write. rewrite in_order_invol, le_load_store.
  destruct Hx as [-> |Hx].
  - rewrite it_conv_wrap by (unfold it_bits; lia). apply it_conv_small; [lia|done].
  - rewrite wrap_small by done. apply it_conv_small; [lia|done].
Qed.

Lemma spec_write_read f l :
  f ∈ typedefs -> all_bytes l -> length l = if_size f -> spec_write f (spec_read f l) = l.
Proof.
  intros Hf Hl Hlen. pose proof (typedef_size f Hf). unfold spec_read, spec_write.
  rewrite le_store_conv by lia.
  rewrite le_store_load, in_order_invol; [done| |].
  - destruct (if_order f); simpl; auto with linker.
  - destruct (if_order f); simpl; by rewrite ?length_reverse.
Qed.

Lemma spec_read_holds f l :
  f ∈ typedefs -> all_bytes l -> length l = if_size f -> field_holds f (spec_read f l).
Proof.
  intros Hf Hl Hlen. pose proof (typedef_size f Hf) as Hsz.
  split; [apply it_conv_range; lia|].
  destruct (typedef_shape f Hf) as [[Hs _]|[Hs Ht]]; [by left|right].
  unfold spec_read. rewrite Ht. unfold it_conv. simpl it_signed. cbn iota.
  assert (is_u (8 * Z.of_nat (if_size f)) (le_load (in_order (if_order f) l))) as Hr.
  { replace (if_size f) with (length (in_order (if_order f) l)) by
      (destruct (if_order f); simpl; by rewrite ?length_reverse).
    apply le_load_range. destruct (if_order f); simpl; auto with linker. }
  rewrite wrap_small; [done|]. eapply is_u_mono; [|exact Hr]. rewrite Hs. vm_compute. split; congruence.
Qed.

(** The compound assignments, on whichever of the two classes. *)
Definition update_int (f : Z -> Z) (h : endian) (fld : int_field) (l : bytes) : option bytes :=
  match if_order fld with
  | LE => LittleEndian.update f h (if_type fld) (if_size fld) l
  | BE => BigEndian.update f h (if_type fld) (if_size fld) l
  end.

Lemma update_int_spec f h fld l :
  fld ∈ typedefs -> all_bytes l -> length l = if_size fld ->
  update_int f h fld l = Some (spec_write fld (it_conv (if_type fld) (f (spec_read fld l)))).
Proof.
  intros Hf Hl Hlen.
  pose proof (read_int_spec h fld l Hf Hl Hlen) as Hr.
  pose proof (write_int_spec h fld (it_conv (if_type fld) (f (spec_read fld l))) Hf) as Hw.
  unfold update_int, read_int, write_int in *.
  destruct (if_order fld); [unfold LittleEndian.update|unfold BigEndian.update]; by rewrite Hr.
Qed.

(** ** Properties *)

(** the bytes written and the value read back do not depend on the byte
    order of the host, and a value that fits the field survives the round trip
    even when the writing and the reading machine differ (cross linking). *)
Theorem int_field_roundtrip (f : int_field) (x : Z) (writer reader : endian) :
  f ∈ typedefs -> field_holds f x ->
  exists l, write_int writer f x = Some l /\ write_int reader f x = Some l /\
            length l = if_size f /\ all_bytes l /\ read_int reader f l = Some x.
Proof.
  intros Hf Hx. exists (spec_write f x). rewrite !write_int_spec, read_int_spec by
    (auto using spec_write_bytes, length_spec_write).
  rewrite spec_read_write by done. auto using spec_write_bytes, length_spec_write.
Qed.

Lemma int_field_roundtrip_witness :
  exists l, write_int little ul24 0x123456 = Some l /\ write_int big ul24 0x123456 = Some l /\
            length l = if_size ul24 /\ all_bytes l /\ read_int big ul24 l = Some 0x123456.
Proof.
  apply (int_field_roundtrip ul24 0x123456 little big).
  - unfold typedefs. set_solver.
  - vm_compute. split; [split; congruence|right; split; congruence].
Defined.

(** the compound assignment operators ([+=], [++], [-=], [&=], [|=])
    compute in the value type and store the result modulo the size of the
    field, on either host; the 24-bit fields keep the low three bytes of a
    32-bit result. *)
Theorem update_int_value (g : Z -> Z) (h h' : endian) (f : int_field) (l : bytes) (x : Z) :
  f ∈ typedefs -> all_bytes l -> length l = if_size f -> read_int h f l = Some x ->
  exists l', update_int g h f l = Some l' /\ length l' = if_size f /\ all_bytes l' /\
             read_int h' f l' =
               Some (if decide (if_size f = it_size (if_type f)) then it_conv (if_type f) (g x)
                     else wrap (8 * Z.of_nat (if_size f)) (g x)).
Proof.
  intros Hf Hl Hlen Hx. rewrite read_int_spec in Hx by done. injection Hx as <-.
  eexists. rewrite update_int_spec by done. split; [done|].
  rewrite read_int_spec by auto using spec_write_bytes, length_spec_write.
  split; [apply length_spec_write|]. split; [apply spec_write_bytes|]. f_equal.
  unfold spec_read at 1, spec_write. rewrite in_order_invol, le_load_store.
  pose proof (typedef_size f Hf).
  case_decide as Hs.
  - rewrite Hs, it_conv_wrap by (unfold it_bits; lia). apply it_conv_small; [lia|].
    apply it_conv_range. lia.
  - destruct (typedef_shape f Hf) as [[? _]|[Hs' Ht]]; [done|].
    rewrite Hs', Ht. unfold it_conv; simpl it_signed; cbn iota.
    change (it_bits T_u32) with 32. change (8 * Z.of_nat 3) with 24.
    rewrite (wrap_wrap 24 32) by lia. apply wrap_small. eapply is_u_mono; [|apply wrap_range]; lia.
Qed.

Lemma update_int_value_witness :
  exists l', update_int (fun v => v + 1) little ul24 [255; 255; 255] = Some l' /\
             length l' = if_size ul24 /\ all_bytes l' /\ read_int big ul24 l' = Some 0.
Proof.
  apply (update_int_value (fun v => v + 1) little big ul24 [255; 255; 255] 0xffffff).
  - unfold typedefs. set_solver.
  - repeat constructor; vm_compute; congruence.
  - done.
  - done.
Defined.
