(* ===== verification/Bits.v ===== *)
(** * Bit and alignment helpers (src/common/common.h, lines 266-301)

    [has_single_bit], [bit_ceil], [align_to], [align_down], [bit], [bits] and
    [sign_extend] on 64-bit values, and what each computes as arithmetic. *)

From S2P Require Import Prelude.

(** [std::popcount] and [std::countl_zero] on 64 bits. *)
Definition popcount (val : Z) : Z :=
  Z.of_nat (length (filter (fun i => Z.testbit val i = true) (seqZ 0 64))).
Definition countl_zero (val : Z) : Z := if val =? 0 then 64 else 63 - Z.log2 val.

Definition has_single_bit (val : Z) : bool := popcount val =? 1.

(** [1LL << n], undefined from 64 on. *)
Definition shl_1LL (n : Z) : option Z :=
  if decide (0 <= n < 64) then Some (u64 (Z.shiftl 1 n)) else None.

Definition bit_ceil (val : Z) : option Z :=
  if has_single_bit val then Some val else shl_1LL (64 - countl_zero val).

(** The [assert(has_single_bit(align))] is a debug check: it is the
    hypothesis of the theorems below, not a branch. *)
Definition align_to (val align : Z) : Z :=
  if align =? 0 then val
  else Z.land (u64 (val + align - 1)) (u64 (Z.lnot (u64 (align - 1)))).

Definition align_down (val align : Z) : Z :=
  Z.land val (u64 (Z.lnot (u64 (align - 1)))).

Definition bit (val pos : Z) : Z := Z.land (Z.shiftr val pos) 1.

(** Bits [hi:lo]; the shift [1LL << (hi - lo + 1)] is defined below 63. *)
Definition bits (val hi lo : Z) : Z :=
  Z.land (Z.shiftr val lo) (Z.shiftl 1 (hi - lo + 1) - 1).

(** [(i64)(val << (63 - size)) >> (63 - size)], an arithmetic shift. *)
Definition sign_extend (val size : Z) : Z :=
  Z.shiftr (i64 (u64 (Z.shiftl val (63 - size)))) (63 - size).

(** ** Masks *)

Lemma pow2_pos k : 0 <= k -> 0 < 2 ^ k.
Proof. intros. apply Z.pow_pos_nonneg; lia. Qed.

Lemma pow2_lt_64 k : 0 <= k < 64 -> 2 ^ k < 2 ^ 64.
Proof. intros. apply Z.pow_lt_mono_r; lia. Qed.

Lemma mask_not k : 0 <= k < 64 -> u64 (Z.lnot (u64 (2 ^ k - 1))) = Z.shiftl (Z.ones (64 - k)) k.
Proof.
  intros. pose proof (pow2_lt_64 k ltac:(lia)). pose proof (pow2_pos k ltac:(lia)).
  unfold u64. rewrite (wrap_small 64 (2 ^ k - 1)) by (unfold is_u; lia).
  replace (2 ^ k - 1) with (Z.ones k) by (rewrite Z.ones_equiv; lia).
  apply Z.bits_inj'. intros i Hi.
  rewrite wrap_testbit, Z.lnot_spec, Z.testbit_ones, Z.shiftl_spec, Z.testbit_ones by lia.
  destruct (Z.ltb_spec i 64), (Z.leb_spec 0 i), (Z.ltb_spec i k),
    (Z.leb_spec 0 (i - k)), (Z.ltb_spec (i - k) (64 - k)); simpl; lia || done.
Qed.

(** Clearing the low bits rounds down. *)
Lemma land_mask x k : is_u 64 x -> 0 <= k < 64 ->
  Z.land x (Z.shiftl (Z.ones (64 - k)) k) = 2 ^ k * (x / 2 ^ k).
Proof.
  intros Hx Hk. rewrite Z.mul_comm, <- Z.shiftl_mul_pow2, <- Z.shiftr_div_pow2 by lia.
  apply Z.bits_inj'. intros i Hi.
  rewrite Z.land_spec, !Z.shiftl_spec, Z.testbit_ones by lia.
  destruct (Z.lt_ge_cases i k).
  - rewrite (Z.testbit_neg_r (Z.shiftr x k)) by lia.
    destruct (Z.leb_spec 0 (i - k)); [lia|]. apply Bool.andb_false_r.
  - rewrite Z.shiftr_spec by lia. replace (i - k + k) with i by lia.
    destruct (Z.leb_spec 0 (i - k)), (Z.ltb_spec (i - k) (64 - k)); try lia; simpl.
    + apply Bool.andb_true_r.
    + rewrite (is_u_testbit 64 x) by (auto; lia). done.
Qed.

Lemma round_down_u64 x k : is_u 64 x -> 0 <= k < 64 -> is_u 64 (2 ^ k * (x / 2 ^ k)).
Proof.
  intros Hx ?. pose proof (pow2_pos k ltac:(lia)). unfold is_u in *.
  pose proof (Z.mul_div_le x (2 ^ k) ltac:(lia)). pose proof (Z.div_pos x (2 ^ k)). nia.
Qed.

Lemma align_down_spec val k : is_u 64 val -> 0 <= k < 64 ->
  align_down val (2 ^ k) = 2 ^ k * (val / 2 ^ k).
Proof. intros. unfold align_down. rewrite mask_not by lia. by apply land_mask. Qed.

Lemma multiple_le p a m : 0 < p -> a mod p = 0 -> m mod p = 0 -> a < m + p -> a <= m.
Proof.
  intros Hp Ha Hm Hlt.
  pose proof (Z.div_mod a p ltac:(lia)) as Ea. pose proof (Z.div_mod m p ltac:(lia)) as Em.
  rewrite Ha in Ea. rewrite Hm in Em. assert (a / p <= m / p) by nia. nia.
Qed.

(** Rounding up, modulo 2^64. *)
Lemma align_to_wrap val k : is_u 64 val -> 0 <= k < 64 ->
  align_to val (2 ^ k) = 2 ^ k * (u64 (val + 2 ^ k - 1) / 2 ^ k).
Proof.
  intros Hv Hk. unfold align_to. pose proof (pow2_pos k ltac:(lia)).
  destruct (Z.eqb_spec (2 ^ k) 0); [lia|]. rewrite mask_not by lia.
  apply land_mask; [|lia]. apply wrap_range. lia.
Qed.

Lemma align_to_fits val k :
  is_u 64 val -> 0 <= k < 64 -> val + 2 ^ k - 1 < 2 ^ 64 ->
  val <= align_to val (2 ^ k) < val + 2 ^ k /\ align_to val (2 ^ k) mod 2 ^ k = 0.
Proof.
  intros Hv Hk Hf. pose proof (pow2_pos k ltac:(lia)). rewrite align_to_wrap by done.
  unfold u64. rewrite wrap_small by (unfold is_u in *; lia).
  split; [|rewrite Z.mul_comm; apply Z_mod_mult].
  pose proof (Z.div_mod (val + 2 ^ k - 1) (2 ^ k) ltac:(lia)).
  pose proof (Z.mod_pos_bound (val + 2 ^ k - 1) (2 ^ k) ltac:(lia)). lia.
Qed.

(** Values small enough not to overflow, the form the layout code uses. *)
Lemma align_to_bounds val k B :
  0 <= val <= B -> 0 <= k < 64 -> B + 2 ^ k <= 2 ^ 64 ->
  val <= align_to val (2 ^ k) < val + 2 ^ k /\ align_to val (2 ^ k) mod 2 ^ k = 0.
Proof.
  intros. pose proof (pow2_pos k ltac:(lia)).
  apply align_to_fits; [unfold is_u; lia|lia|lia].
Qed.

Lemma align_to_multiple val k : is_u 64 val -> 0 <= k < 64 ->
  val mod 2 ^ k = 0 -> val + 2 ^ k - 1 < 2 ^ 64 -> align_to val (2 ^ k) = val.
Proof.
  intros Hv Hk Hm Hf. destruct (align_to_fits val k Hv Hk Hf) as [Hb Hm'].
  pose proof (pow2_pos k ltac:(lia)) as Hp.
  pose proof (Z.div_mod val (2 ^ k) ltac:(lia)) as E1.
  pose proof (Z.div_mod (align_to val (2 ^ k)) (2 ^ k) ltac:(lia)) as E2.
  rewrite Hm in E1. rewrite Hm' in E2.
  assert (align_to val (2 ^ k) / 2 ^ k = val / 2 ^ k) by nia. nia.
Qed.

(** for a power-of-two alignment, [align_to] returns the least multiple of
    the alignment that is not below the value, as long as that multiple is
    representable; when it is not, the 64-bit sum wraps and the result is 0.
    An alignment of 0 leaves the value alone. *)
Theorem align_to_least_multiple (val k : Z) :
  is_u 64 val -> 0 <= k < 64 ->
  let a := align_to val (2 ^ k) in
  (val + 2 ^ k <= 2 ^ 64 ->
     val <= a /\ a mod 2 ^ k = 0 /\ forall m, val <= m -> m mod 2 ^ k = 0 -> a <= m)
  /\ (2 ^ 64 < val + 2 ^ k -> a = 0)
  /\ align_to val 0 = val.
Proof.
  intros Hv Hk a. pose proof (pow2_pos k ltac:(lia)) as Hp. split; [|split; [|done]].
  - intros Hf. destruct (align_to_fits val k Hv Hk ltac:(lia)) as [Hb Hm].
    split; [lia|]. split; [done|]. intros m Hm1 Hm2.
    apply (multiple_le (2 ^ k)); [done..|]. unfold a. lia.
  - intros Ho. unfold a. rewrite align_to_wrap by done. unfold u64.
    pose proof (pow2_lt_64 k Hk). unfold is_u in Hv.
    assert (wrap 64 (val + 2 ^ k - 1) = val + 2 ^ k - 1 - 2 ^ 64) as ->.
    { unfold wrap. symmetry. apply Z.mod_unique_pos with 1; lia. }
    rewrite Z.div_small by lia. lia.
Qed.

Lemma align_to_least_multiple_witness :
  let a := align_to 4097 (2 ^ 12) in
  (4097 + 2 ^ 12 <= 2 ^ 64 ->
     4097 <= a /\ a mod 2 ^ 12 = 0 /\ forall m, 4097 <= m -> m mod 2 ^ 12 = 0 -> a <= m)
  /\ (2 ^ 64 < 4097 + 2 ^ 12 -> a = 0) /\ align_to 4097 0 = 4097.
Proof. apply (align_to_least_multiple 4097 12); [vm_compute; split; congruence|lia]. Defined.

(** ** Bit fields *)

Lemma bits_spec val hi lo : 0 <= lo <= hi ->
  bits val hi lo = (val / 2 ^ lo) mod 2 ^ (hi - lo + 1).
Proof.
  intros. unfold bits.
  replace (Z.shiftl 1 (hi - lo + 1) - 1) with (Z.ones (hi - lo + 1))
    by (rewrite Z.ones_equiv, Z.shiftl_1_l; lia).
  rewrite Z.land_ones, Z.shiftr_div_pow2 by lia. done.
Qed.

Lemma bits_testbit val hi lo i : 0 <= lo <= hi -> 0 <= i ->
  Z.testbit (bits val hi lo) i = (i <=? hi - lo) && Z.testbit val (i + lo).
Proof.
  intros. rewrite bits_spec, <- Z.shiftr_div_pow2 by lia.
  change (?x mod 2 ^ ?w) with (wrap w x). rewrite wrap_testbit, Z.shiftr_spec by lia.
  destruct (Z.ltb_spec i (hi - lo + 1)), (Z.leb_spec i (hi - lo)); lia || done.
Qed.

Lemma bits_range val hi lo : 0 <= lo <= hi -> is_u (hi - lo + 1) (bits val hi lo).
Proof. intros. rewrite bits_spec by lia. apply Z.mod_pos_bound, Z.pow_pos_nonneg; lia. Qed.

(** Fields of a word assembled with [|] and [<<]. *)
Lemma bits_lor a b hi lo : 0 <= lo <= hi -> bits (Z.lor a b) hi lo = Z.lor (bits a hi lo) (bits b hi lo).
Proof.
  intros. apply Z.bits_inj'. intros i Hi. rewrite Z.lor_spec, !bits_testbit, Z.lor_spec by lia.
  by destruct (i <=? hi - lo).
Qed.

Lemma bits_wrap w a hi lo : 0 <= lo <= hi -> hi < w -> bits (wrap w a) hi lo = bits a hi lo.
Proof.
  intros. apply Z.bits_inj'. intros i Hi. rewrite !bits_testbit, wrap_testbit by lia.
  destruct (Z.leb_spec i (hi - lo)), (Z.ltb_spec (i + lo) w); simpl; lia || done.
Qed.

Lemma bits_shiftl_in x n k hi lo : is_u n x -> 0 <= n -> 0 <= lo <= hi -> lo <= k -> k + n <= hi + 1 ->
  bits (Z.shiftl x k) hi lo = Z.shiftl x (k - lo).
Proof.
  intros. apply Z.bits_inj'. intros i Hi. rewrite bits_testbit, !Z.shiftl_spec by lia.
  replace (i + lo - k) with (i - (k - lo)) by lia.
  destruct (Z.leb_spec i (hi - lo)); [done|]. symmetry. apply (is_u_testbit n); [lia|done].
Qed.

Lemma bits_shiftl_out x n k hi lo : is_u n x -> 0 <= n -> 0 <= lo <= hi -> 0 <= k -> hi < k \/ k + n <= lo ->
  bits (Z.shiftl x k) hi lo = 0.
Proof.
  intros Hx ? ? ? Hd. apply Z.bits_inj'. intros i Hi. rewrite bits_testbit, Z.shiftl_spec, Z.bits_0 by lia.
  destruct (Z.leb_spec i (hi - lo)); [simpl|done]. destruct (Z.lt_ge_cases (i + lo - k) 0).
  - by rewrite Z.testbit_neg_r.
  - apply (is_u_testbit n); [lia|done].
Qed.

(** A field of a field. *)
Lemma bits_sub w hi lo h l : 0 <= lo <= hi -> 0 <= l <= h -> lo + h <= hi ->
  bits (bits w hi lo) h l = bits w (lo + h) (lo + l).
Proof.
  intros. apply Z.bits_inj'. intros i Hi. rewrite !bits_testbit by lia.
  replace (i + l + lo) with (i + (lo + l)) by lia.
  destruct (Z.leb_spec i (h - l)), (Z.leb_spec i (lo + h - (lo + l))), (Z.leb_spec (i + l) (hi - lo)); try lia; done.
Qed.

(** The field tactic: evaluate [bits] of a word built from a constant and
    shifted fields. *)
Lemma bits_field_in v h l k hi lo : 0 <= l <= h -> 0 <= k -> lo = k -> hi = k + (h - l) ->
  bits (Z.shiftl (bits v h l) k) hi lo = bits v h l.
Proof.
  intros ? ? -> ->. rewrite (bits_shiftl_in _ (h - l + 1)); [|by apply bits_range|lia..].
  by rewrite Z.sub_diag, Z.shiftl_0_r.
Qed.

Lemma bits_field_out v h l k hi lo : 0 <= l <= h -> 0 <= k -> 0 <= lo <= hi -> hi < k \/ k + (h - l + 1) <= lo ->
  bits (Z.shiftl (bits v h l) k) hi lo = 0.
Proof. intros. apply (bits_shiftl_out _ (h - l + 1)); auto using bits_range; lia. Qed.

Lemma bits_small v h l hi lo : 0 <= l <= h -> 0 <= lo <= hi -> h - l < lo -> bits (bits v h l) hi lo = 0.
Proof. intros. rewrite <- (Z.shiftl_0_r (bits v h l)). apply bits_field_out; lia. Qed.

Lemma bits_full v h l hi : 0 <= l <= h -> h - l <= hi -> bits (bits v h l) hi 0 = bits v h l.
Proof.
  intros. rewrite <- (Z.shiftl_0_r (bits v h l)) at 1.
  rewrite (bits_shiftl_in _ (h - l + 1)); [by rewrite Z.shiftl_0_r|by apply bits_range|lia..].
Qed.

Ltac fields :=
  unfold u32, u64; rewrite ?bits_wrap by lia; rewrite ?bits_lor by lia;
  repeat first
    [ rewrite bits_field_in by lia
    | rewrite bits_field_out by lia
    | rewrite bits_small by lia
    | rewrite bits_full by lia ];
  rewrite ?Z.lor_0_r, ?Z.lor_0_l.

Lemma bit_testbit val pos : 0 <= pos -> bit val pos = Z.b2z (Z.testbit val pos).
Proof.
  intros. unfold bit. change 1 with (Z.ones 1). rewrite Z.land_ones, Z.testbit_spec' by lia.
  rewrite Z.shiftr_div_pow2 by lia. done.
Qed.

(** [sign_extend(val, size)] reads the low [size + 1] bits of a value as a
    two's complement number: bit [size] is the sign. *)
Theorem sign_extend_spec (val size : Z) :
  0 <= val < 2 ^ 64 -> 0 <= size <= 63 -> sign_extend val size = swrap (size + 1) val.
Proof.
  intros Hv Hs. unfold sign_extend, i64, u64. rewrite swrap_wrap by lia.
  rewrite Z.shiftl_mul_pow2, Z.shiftr_div_pow2 by lia.
  set (s := 63 - size). replace (size + 1) with (64 - s) by lia.
  assert (Hp : 2 ^ 64 = 2 ^ (64 - s) * 2 ^ s) by (rewrite <- Z.pow_add_r by lia; f_equal; lia).
  assert (Hh : 2 ^ 63 = 2 ^ (64 - s - 1) * 2 ^ s) by (rewrite <- Z.pow_add_r by lia; f_equal; lia).
  pose proof (pow2_pos s ltac:(lia)). pose proof (pow2_pos (64 - s) ltac:(lia)).
  unfold swrap. change (64 - 1) with 63. rewrite Hp, Hh, Z.mul_mod_distr_r by lia.
  set (y := val mod 2 ^ (64 - s)).
  destruct (Z.ltb_spec (y * 2 ^ s) (2 ^ (64 - s - 1) * 2 ^ s)), (Z.ltb_spec y (2 ^ (64 - s - 1)));
    try nia.
  - apply Z.div_mul. lia.
  - rewrite <- Z.mul_sub_distr_r. apply Z.div_mul. lia.
Qed.

Lemma sign_extend_spec_witness : sign_extend 0xffffff 23 = swrap (23 + 1) 0xffffff.
Proof. apply (sign_extend_spec 0xffffff 23); lia. Defined.

(** ** bit_ceil *)

Lemma popcount_pow2 k : 0 <= k < 64 -> popcount (2 ^ k) = 1.
Proof.
  intros. unfold popcount.
  assert (filter (fun i => Z.testbit (2 ^ k) i = true) (seqZ 0 64) = [k]) as ->; [|done].
  replace (seqZ 0 64) with (seqZ 0 k ++ [k] ++ seqZ (k + 1) (63 - k)).
  2:{ replace 64 with (k + (64 - k)) by lia. rewrite seqZ_app by lia. f_equal.
      rewrite (seqZ_cons (0 + k)) by lia. rewrite Z.add_0_l. simpl. repeat f_equal; lia. }
  rewrite !filter_app.
  assert (forall l, Forall (fun i => i ≠ k) l -> filter (fun i => Z.testbit (2 ^ k) i = true) l = []) as Hn.
  { induction 1 as [|i l Hi Hl IH]; [done|]. rewrite filter_cons_False; [done|].
    rewrite Z.pow2_bits_false by lia. done. }
  rewrite (Hn (seqZ 0 k)), (Hn (seqZ (k + 1) (63 - k))).
  - rewrite filter_cons_True by (apply Z.pow2_bits_true; lia). done.
  - apply Forall_forall. intros i Hi%elem_of_seqZ. lia.
  - apply Forall_forall. intros i Hi%elem_of_seqZ. lia.
Qed.

Lemma popcount_1 val : is_u 64 val -> popcount val = 1 -> exists k, 0 <= k < 64 /\ val = 2 ^ k.
Proof.
  intros Hv Hp. unfold popcount in Hp.
  destruct (filter (fun i => Z.testbit val i = true) (seqZ 0 64)) as [|k [|]] eqn:E; simpl in Hp; try lia.
  assert (Hin : forall i, 0 <= i < 64 /\ Z.testbit val i = true <-> i = k).
  { intros i. pose proof (list_elem_of_filter (fun i => Z.testbit val i = true) (seqZ 0 64) i) as F.
    rewrite E, list_elem_of_singleton, elem_of_seqZ in F. rewrite F. split; intros []; split; auto; lia. }
  destruct (proj2 (Hin k) eq_refl) as [Hk Hb]. exists k. split; [done|].
  apply Z.bits_inj'. intros i Hi.
  destruct (decide (i = k)) as [->|Hne]; [by rewrite Hb, Z.pow2_bits_true by lia|].
  rewrite Z.pow2_bits_false by lia. destruct (Z.lt_ge_cases i 64).
  - destruct (Z.testbit val i) eqn:Eb; [|done]. exfalso. apply Hne, Hin. split; [lia|done].
  - apply (is_u_testbit 64); auto; lia.
Qed.

Lemma has_single_bit_spec val : is_u 64 val ->
  has_single_bit val = true <-> exists k, 0 <= k < 64 /\ val = 2 ^ k.
Proof.
  intros Hv. unfold has_single_bit. rewrite Z.eqb_eq. split; [by apply popcount_1|].
  intros (k & ? & ->). by apply popcount_pow2.
Qed.

(** [bit_ceil] returns the least power of two that is not below the value;
    the shift is undefined exactly for values above 2^63. *)
Theorem bit_ceil_spec (val : Z) :
  is_u 64 val ->
  match bit_ceil val with
  | Some r => exists k, 0 <= k < 64 /\ r = 2 ^ k /\ val <= r /\ (1 < r -> r < 2 * val)
  | None => 2 ^ 63 < val
  end.
Proof.
  intros Hv. unfold bit_ceil. destruct (has_single_bit val) eqn:E.
  - apply has_single_bit_spec in E as (k & Hk & ->); [|done]. pose proof (pow2_pos k ltac:(lia)).
    exists k. repeat split; lia.
  - assert (Hnp : forall k, 0 <= k < 64 -> val ≠ 2 ^ k).
    { intros k Hk ->. rewrite (proj2 (has_single_bit_spec _ Hv)) in E; [done|eauto]. }
    unfold countl_zero. destruct (Z.eqb_spec val 0) as [->|Hz].
    { exists 0. vm_compute. repeat split; congruence. }
    unfold is_u in Hv. pose proof (Z.log2_spec val ltac:(lia)) as Hl.
    pose proof (Z.log2_nonneg val).
    assert (Z.log2 val < 64) by (apply Z.log2_lt_pow2; lia).
    assert (val ≠ 2 ^ Z.log2 val) by (apply Hnp; lia).
    unfold shl_1LL. replace (64 - (63 - Z.log2 val)) with (Z.succ (Z.log2 val)) by lia.
    case_decide.
    + exists (Z.succ (Z.log2 val)). rewrite Z.shiftl_1_l. unfold u64.
      pose proof (pow2_lt_64 (Z.succ (Z.log2 val)) ltac:(lia)).
      rewrite wrap_small by (unfold is_u; lia). repeat split; try lia.
      intros _. rewrite Z.pow_succ_r by lia. lia.
    + assert (Z.log2 val = 63) as Hl2 by lia. rewrite Hl2 in *. lia.
Qed.

Lemma bit_ceil_spec_witness :
  match bit_ceil 1000 with
  | Some r => exists k, 0 <= k < 64 /\ r = 2 ^ k /\ 1000 <= r /\ (1 < r -> r < 2 * 1000)
  | None => 2 ^ 63 < 1000
  end.
Proof. apply (bit_ceil_spec 1000). vm_compute. split; congruence. Defined.
