(* ===== verification/Leb.v ===== *)
(** * LEB128 integers (src/common/common.h, lines 365-460)

    The writers [encode_uleb], [encode_sleb] and [write_uleb], the readers
    [read_uleb] (unchecked, bounded, and on a string view) and [uleb_size].
    The [do]/[for (;;)] loops run on fuel; ten rounds are enough for a 64-bit
    value, which the theorems prove. *)

From S2P Require Import Prelude.

(** ** Writers *)

(** [do { byte = val & 0x7f; val >>= 7; push(val ? byte | 0x80 : byte) } while (val)] *)
Fixpoint encode_uleb_loop (fuel : nat) (vec : bytes) (val : Z) : option bytes :=
  match fuel with
  | O => None
  | S fuel' =>
      let byte := Z.land val 0x7f in
      let val' := Z.shiftr val 7 in
      let vec' := vec ++ [if val' =? 0 then byte else Z.lor byte 0x80] in
      if val' =? 0 then Some vec' else encode_uleb_loop fuel' vec' val'
  end.

Definition leb_fuel : nat := 10.

Definition encode_uleb (vec : bytes) (val : Z) : option bytes := encode_uleb_loop leb_fuel vec val.

(** The signed writer; [val >>= 7] is an arithmetic shift. *)
Fixpoint encode_sleb_loop (fuel : nat) (vec : bytes) (val : Z) : option bytes :=
  match fuel with
  | O => None
  | S fuel' =>
      let byte := Z.land val 0x7f in
      let val' := Z.shiftr val 7 in
      let neg := negb (Z.land byte 0x40 =? 0) in
      if ((val' =? 0) && negb neg) || ((val' =? -1) && neg) then Some (vec ++ [byte])
      else encode_sleb_loop fuel' (vec ++ [Z.lor byte 0x80]) val'
  end.

Definition encode_sleb (vec : bytes) (val : Z) : option bytes := encode_sleb_loop leb_fuel vec val.

(** [write_uleb(u8 *buf, u64 val)] stores into [buf] from its start and
    returns the number of bytes; a store past the end is undefined. *)
Definition store_byte (buf : bytes) (i : nat) (b : Z) : option bytes :=
  if decide (i < length buf)%nat then Some (<[i := b]> buf) else None.

Fixpoint write_uleb_loop (fuel : nat) (buf : bytes) (i : nat) (val : Z) : option (bytes * nat) :=
  match fuel with
  | O => None
  | S fuel' =>
      let byte := Z.land val 0x7f in
      let val' := Z.shiftr val 7 in
      buf' ← store_byte buf i (if val' =? 0 then byte else Z.lor byte 0x80);
      if val' =? 0 then Some (buf', S i) else write_uleb_loop fuel' buf' (S i) val'
  end.

Definition write_uleb (buf : bytes) (val : Z) : option (bytes * nat) :=
  write_uleb_loop leb_fuel buf 0 val.

(** ** Readers *)

(** [(byte & 0x7f) << shift] is computed in [int]: the shift is undefined from
    32 on, and the 32-bit result is sign-extended when it joins the [u64]. *)
Definition shl_int (x s : Z) : option Z :=
  if decide (0 <= s < 32) then Some (i32 (Z.shiftl x s)) else None.

(** [read_uleb(u8 *&buf)]; [shift] is a [u8]. [None]: a read past the buffer or
    an undefined shift. *)
Fixpoint read_uleb_loop (buf : bytes) (val shift : Z) : option (Z * bytes) :=
  match buf with
  | [] => None
  | byte :: buf' =>
      x ← shl_int (Z.land byte 0x7f) shift;
      let val' := Z.lor val (u64 x) in
      let shift' := u8 (shift + 7) in
      if Z.land byte 0x80 =? 0 then Some (val', buf') else read_uleb_loop buf' val' shift'
  end.

Definition read_uleb (buf : bytes) : option (Z * bytes) := read_uleb_loop buf 0 0.

(** [read_uleb(u8 *&buf, u8 *end, u64 &val)]: at most ten bytes, the tenth may
    only hold one bit. The result is the success flag, the value so far and
    where the pointer was left. *)
Fixpoint read_uleb_bounded_loop (n : nat) (i : Z) (buf : bytes) (val : Z) : bool * Z * bytes :=
  match n, buf with
  | S n', byte :: buf' =>
      if (i =? 9) && negb (Z.land byte 0xfe =? 0) then (false, val, buf')
      else
        let val' := Z.lor val (u64 (Z.shiftl (Z.land byte 0x7f) (i * 7))) in
        if Z.land byte 0x80 =? 0 then (true, val', buf')
        else read_uleb_bounded_loop n' (i + 1) buf' val'
  | _, _ => (false, val, buf)
  end.

Definition read_uleb_bounded (buf : bytes) : bool * Z * bytes := read_uleb_bounded_loop 10 0 buf 0.

(** [read_uleb(std::string_view &str, u64 &val)]: the view only advances on
    success. *)
Definition read_uleb_view (str : bytes) : option (Z * bytes) :=
  match read_uleb_bounded str with
  | (true, val, rest) => Some (val, rest)
  | (false, _, _) => None
  end.

(** [uleb_size]: the loop [for (i = 1; i < 9; i++) if (val < 1LL << 7*i) return i]. *)
Definition uleb_size (val : Z) : Z :=
  match list_find (fun i => val < Z.shiftl 1 (7 * i)) (seqZ 1 8) with
  | Some (_, i) => i
  | None => 9
  end.

(** ** The encoding as a function

    [uleb v] is the shortest unsigned LEB128 form; [n] bounds the digits. *)

Fixpoint uleb_digits (n : nat) (v : Z) : bytes :=
  match n with
  | O => []
  | S n' => if v <? 128 then [v] else (v mod 128 + 128) :: uleb_digits n' (v / 128)
  end.

Definition uleb (v : Z) : bytes := uleb_digits leb_fuel v.

(** The value a byte sequence denotes. *)
Fixpoint uleb_value (l : bytes) : Z :=
  match l with
  | [] => 0
  | b :: l' => b mod 128 + 128 * uleb_value l'
  end.

Lemma land_7f x : Z.land x 0x7f = x mod 128.
Proof. change 0x7f with (Z.ones 7). by rewrite Z.land_ones by lia. Qed.

Lemma shiftr_7 x : Z.shiftr x 7 = x / 128.
Proof. by rewrite Z.shiftr_div_pow2 by lia. Qed.

Lemma lor_80 x : 0 <= x < 128 -> Z.lor x 0x80 = x + 128.
Proof. intros. change (Z.lor x 0x80) with (Z.lor x (Z.shiftl 1 7)). rewrite (lor_shiftl_r 7) by warith. lia. Qed.

Lemma land_80 x : is_byte x -> (Z.land x 0x80 =? 0) = (x <? 128).
Proof.
  intros. apply eqb_prop.
  by apply (forall_range (fun b => Bool.eqb (Z.land b 0x80 =? 0) (b <? 128)) 256 eq_refl); warith.
Qed.

Lemma div128_eqb v : 0 <= v -> (v / 128 =? 0) = (v <? 128).
Proof. intros. destruct (Z.eqb_spec (v / 128) 0), (Z.ltb_spec v 128); try done; dlia. Qed.

(** A value of at most 7n bits needs at most n digits. *)
Definition uleb_fits (n : nat) (v : Z) : Prop := 0 <= v < 128 ^ Z.of_nat n /\ (0 < n)%nat.

Lemma uleb_fits_step n v : uleb_fits (S n) v -> 128 <= v -> uleb_fits n (v / 128).
Proof.
  unfold uleb_fits. rewrite Nat2Z.inj_succ, Z.pow_succ_r by lia. intros [[? ?] _] ?.
  split; [|destruct n; [simpl in *; lia|lia]].
  split; [apply Z.div_pos; lia|]. apply Z.div_lt_upper_bound; lia.
Qed.

Lemma uleb_fits_u64 v : is_u 64 v -> uleb_fits leb_fuel v.
Proof. intros. unfold uleb_fits, leb_fuel. change (128 ^ Z.of_nat 10) with (2 ^ 70). warith. Qed.

Lemma encode_uleb_loop_spec n vec v :
  uleb_fits n v -> encode_uleb_loop n vec v = Some (vec ++ uleb_digits n v).
Proof.
  revert vec v. induction n as [|n IH]; intros vec v Hf; [destruct Hf; lia|].
  assert (0 <= v) by (destruct Hf; lia).
  cbn [encode_uleb_loop uleb_digits]. rewrite land_7f, shiftr_7, div128_eqb by done.
  destruct (Z.ltb_spec v 128).
  - by rewrite Z.mod_small by lia.
  - rewrite lor_80 by (apply Z.mod_pos_bound; lia).
    rewrite IH, <- app_assoc by (by apply uleb_fits_step). done.
Qed.

Lemma uleb_value_digits n v : uleb_fits n v -> uleb_value (uleb_digits n v) = v.
Proof.
  revert v. induction n as [|n IH]; intros v Hf; [destruct Hf; lia|].
  cbn [uleb_digits]. destruct (Z.ltb_spec v 128); cbn [uleb_value].
  - destruct Hf. rewrite Z.mod_small; lia.
  - rewrite IH by (by apply uleb_fits_step). dlia.
Qed.

(** What every reader relies on: bytes, continuation bit set on all but the
    last. *)
Fixpoint uleb_wf (l : bytes) : Prop :=
  match l with
  | [] => False
  | [b] => 0 <= b < 128
  | b :: l' => 128 <= b < 256 /\ uleb_wf l'
  end.

Lemma uleb_digits_wf n v : uleb_fits n v -> uleb_wf (uleb_digits n v).
Proof.
  revert v. induction n as [|n IH]; intros v Hf; [destruct Hf; lia|].
  cbn [uleb_digits]. destruct (Z.ltb_spec v 128).
  - destruct Hf. simpl. lia.
  - pose proof (IH (v / 128) (uleb_fits_step _ _ Hf ltac:(lia))) as Hw.
    destruct (uleb_digits n (v / 128)) as [|b l]; [done|].
    split; [|done]. pose proof (Z.mod_pos_bound v 128). lia.
Qed.

Lemma uleb_wf_bytes l : uleb_wf l -> all_bytes l.
Proof.
  induction l as [|b [|c l] IH]; [done| |]; intros H.
  - repeat constructor; simpl in H; warith.
  - destruct H. constructor; [warith|auto].
Qed.

Lemma length_uleb_digits n v : (length (uleb_digits n v) <= n)%nat.
Proof.
  revert v. induction n as [|n IH]; intros v; simpl; [lia|].
  case_bool; simpl; [lia|]. specialize (IH (v / 128)). lia.
Qed.

(** ** The bounded reader *)

Lemma byte_split b : is_byte b -> Z.land b 0x7f = b mod 128 /\ (Z.land b 0x80 =? 0) = (b <? 128).
Proof. intros. split; [apply land_7f|by apply land_80]. Qed.

Lemma land_fe b : is_byte b -> (Z.land b 0xfe =? 0) = (b <? 2).
Proof.
  intros. apply eqb_prop.
  by apply (forall_range (fun b => Bool.eqb (Z.land b 0xfe =? 0) (b <? 2)) 256 eq_refl); warith.
Qed.

Lemma uleb_value_nonneg l : 0 <= uleb_value l.
Proof.
  induction l as [|b l IH]; simpl; [lia|]. pose proof (Z.mod_pos_bound b 128 ltac:(lia)). lia.
Qed.

Lemma pow_7 i : 0 <= i -> 2 ^ ((i + 1) * 7) = 128 * 2 ^ (i * 7).
Proof. intros. rewrite Z.mul_add_distr_r, Z.pow_add_r by lia. simpl. lia. Qed.

(** One round: the digit is added at its position. *)
Lemma bounded_digit b i val : is_byte b -> 0 <= i -> is_u (i * 7) val ->
  b mod 128 * 2 ^ (i * 7) < 2 ^ 64 ->
  Z.lor val (u64 (Z.shiftl (Z.land b 0x7f) (i * 7))) = val + b mod 128 * 2 ^ (i * 7).
Proof.
  intros Hb Hi Hv Hlt. rewrite land_7f. unfold u64.
  pose proof (Z.mod_pos_bound b 128 ltac:(lia)). pose proof (Z.pow_pos_nonneg 2 (i * 7)).
  rewrite wrap_small by (rewrite Z.shiftl_mul_pow2 by lia; unfold is_u; nia).
  apply lor_shiftl_r; [lia|done].
Qed.

Lemma bounded_next b i val : is_byte b -> 0 <= i -> is_u (i * 7) val ->
  is_u ((i + 1) * 7) (val + b mod 128 * 2 ^ (i * 7)).
Proof.
  unfold is_u. intros ? ? ?. rewrite pow_7 by done.
  pose proof (Z.mod_pos_bound b 128 ltac:(lia)). pose proof (Z.pow_pos_nonneg 2 (i * 7)). nia.
Qed.

Lemma read_bounded_complete n i l rest val :
  uleb_wf l -> (length l <= n)%nat -> Z.of_nat n = 10 - i -> 0 <= i ->
  is_u (i * 7) val -> uleb_value l * 2 ^ (i * 7) < 2 ^ 64 ->
  read_uleb_bounded_loop n i (l ++ rest) val = (true, val + uleb_value l * 2 ^ (i * 7), rest).
Proof.
  revert n i val. induction l as [|b l IH]; intros n i val Hw Hn Hi Hi0 Hv Hval; [done|].
  destruct n as [|n]; [simpl in Hn; lia|].
  assert (Hb : is_byte b) by (apply uleb_wf_bytes in Hw; by inversion Hw).
  destruct (byte_split b Hb) as [E7 E8].
  assert (Hd : b mod 128 * 2 ^ (i * 7) < 2 ^ 64).
  { pose proof (uleb_value_nonneg l). simpl uleb_value in Hval.
    pose proof (Z.pow_pos_nonneg 2 (i * 7) ltac:(lia) ltac:(lia)). nia. }
  cbn [read_uleb_bounded_loop app]. rewrite bounded_digit, E8, land_fe by done.
  assert ((i =? 9) && negb (b <? 2) = false) as ->.
  { destruct (Z.eqb_spec i 9) as [->|]; [|done]. simpl.
    destruct (Z.ltb_spec b 2); [done|]. exfalso.
    destruct l as [|c l]; [|simpl in Hn; lia]. simpl in Hw.
    rewrite Z.mod_small in Hd by lia. change (9 * 7) with 63 in Hd. warith. }
  destruct l as [|c l].
  - simpl in Hw. destruct (Z.ltb_spec b 128); [|lia]. simpl.
    do 2 f_equal. f_equal. lia.
  - destruct Hw as [Hb2 Hw]. destruct (Z.ltb_spec b 128); [lia|].
    rewrite IH; [|done|simpl in *; lia|lia|lia|by apply bounded_next|].
    + do 2 f_equal. rewrite pow_7 by done. cbn [uleb_value]. lia.
    + rewrite pow_7 by done. cbn [uleb_value] in Hval.
      pose proof (Z.pow_pos_nonneg 2 (i * 7) ltac:(lia) ltac:(lia)).
      pose proof (Z.mod_pos_bound b 128 ltac:(lia)). cbn [uleb_value]. nia.
Qed.

Lemma read_bounded_sound n i buf val v rest :
  all_bytes buf -> Z.of_nat n = 10 - i -> 0 <= i -> is_u (i * 7) val -> val < 2 ^ 64 ->
  read_uleb_bounded_loop n i buf val = (true, v, rest) ->
  exists l, buf = l ++ rest /\ uleb_wf l /\ (length l <= n)%nat /\
            v = val + uleb_value l * 2 ^ (i * 7) /\ v < 2 ^ 64.
Proof.
  revert i buf val. induction n as [|n IH]; intros i buf val Hall Hi Hi0 Hv Hv64 E; [done|].
  destruct buf as [|b buf]; [done|]. inversion Hall as [|?? Hb Hall']; subst.
  destruct (byte_split b Hb) as [E7 E8]. cbn [read_uleb_bounded_loop] in E.
  rewrite E8, land_fe in E by done.
  destruct ((i =? 9) && negb (b <? 2)) eqn:E9; [done|].
  assert (Hd : val + b mod 128 * 2 ^ (i * 7) < 2 ^ 64).
  { unfold is_u in Hv. destruct (Z.eqb_spec i 9) as [->|].
    - simpl in E9. destruct (Z.ltb_spec b 2); [|done]. unfold is_byte, is_u in Hb.
      rewrite Z.mod_small by lia. change (9 * 7) with 63 in *. warith.
    - assert (2 ^ ((i + 1) * 7) <= 2 ^ 63) by (apply Z.pow_le_mono_r; lia).
      pose proof (bounded_next b i val Hb Hi0 Hv) as Hn. unfold is_u in Hn. warith. }
  rewrite bounded_digit in E by (auto; unfold is_u in Hv; lia).
  destruct (Z.ltb_spec b 128).
  - injection E as <- <-. exists [b]. unfold is_byte, is_u in Hb.
    repeat split; simpl; try lia.
  - destruct (IH (i + 1) buf _ Hall' ltac:(lia) ltac:(lia) (bounded_next b i val Hb Hi0 Hv) Hd E)
      as (l & -> & Hw & Hlen & -> & Hlt).
    exists (b :: l). unfold is_byte, is_u in Hb. rewrite pow_7 in * by done.
    split; [done|]. split; [|split; [simpl; lia|split; [cbn [uleb_value]; lia|done]]].
    destruct l; [done|]. split; [lia|done].
Qed.

(** ** Properties *)

(** [read_uleb(view, val)] accepts exactly the LEB128 sequences of at most
    ten bytes whose value fits 64 bits, returns that value, and leaves the view
    after the sequence; in particular it inverts [encode_uleb]. *)
Theorem read_uleb_view_exact (str rest : bytes) (v : Z) :
  all_bytes str ->
  (read_uleb_view str = Some (v, rest) <->
   exists l, str = l ++ rest /\ uleb_wf l /\ (length l <= 10)%nat /\ uleb_value l = v /\ v < 2 ^ 64).
Proof.
  intros Hall. unfold read_uleb_view, read_uleb_bounded. split.
  - intros E. destruct (read_uleb_bounded_loop 10 0 str 0) as [[[|] w] r] eqn:E'; [|done].
    injection E as -> ->.
    apply read_bounded_sound in E' as (l & -> & Hw & Hlen & -> & Hlt); [|done|lia|lia|vm_compute; intuition congruence|lia].
    exists l. repeat split; auto. simpl. lia.
  - intros (l & -> & Hw & Hlen & <- & Hlt).
    rewrite (read_bounded_complete 10 0 l rest 0); [|done|done|lia|lia|vm_compute; intuition congruence|simpl; lia].
    simpl. repeat f_equal. lia.
Qed.

Lemma read_uleb_view_exact_witness :
  read_uleb_view [0xe5; 0x8e; 0x26; 7] = Some (624485, [7]) <->
  exists l, [0xe5; 0x8e; 0x26; 7] = l ++ [7] /\ uleb_wf l /\ (length l <= 10)%nat /\
            uleb_value l = 624485 /\ 624485 < 2 ^ 64.
Proof.
  apply (read_uleb_view_exact [0xe5; 0x8e; 0x26; 7] [7] 624485).
  repeat constructor; vm_compute; congruence.
Defined.

Lemma encode_uleb_uleb vec v : is_u 64 v -> encode_uleb vec v = Some (vec ++ uleb v).
Proof. intros. by apply encode_uleb_loop_spec, uleb_fits_u64. Qed.

Lemma uleb_wf_uleb v : is_u 64 v -> uleb_wf (uleb v).
Proof. intros. by apply uleb_digits_wf, uleb_fits_u64. Qed.

Lemma uleb_value_uleb v : is_u 64 v -> uleb_value (uleb v) = v.
Proof. intros. by apply uleb_value_digits, uleb_fits_u64. Qed.

Lemma uleb_bytes v : is_u 64 v -> all_bytes (uleb v).
Proof. intros. by apply uleb_wf_bytes, uleb_wf_uleb. Qed.

(** encoding a 64-bit value always finishes within ten bytes and the checked
    reader gets the value back, whatever follows it. *)
Theorem encode_read_uleb (vec rest : bytes) (v : Z) :
  is_u 64 v -> all_bytes rest ->
  exists l, encode_uleb vec v = Some (vec ++ l) /\ (1 <= length l <= 10)%nat /\
            read_uleb_view (l ++ rest) = Some (v, rest).
Proof.
  intros Hv Hr. exists (uleb v). rewrite encode_uleb_uleb by done.
  pose proof (uleb_wf_uleb v Hv) as Hw.
  split; [done|]. split.
  - split; [destruct (uleb v); [done|simpl; lia]|apply length_uleb_digits].
  - unfold read_uleb_view, read_uleb_bounded.
    rewrite (read_bounded_complete 10 0 (uleb v) rest 0);
      [|done|apply length_uleb_digits|lia|lia|vm_compute; intuition congruence|].
    + rewrite uleb_value_uleb by done. repeat f_equal. simpl. lia.
    + rewrite uleb_value_uleb by done. unfold is_u in Hv. simpl. lia.
Qed.

Lemma encode_read_uleb_witness :
  exists l, encode_uleb [1] (2 ^ 64 - 1) = Some ([1] ++ l) /\ (1 <= length l <= 10)%nat /\
            read_uleb_view (l ++ [9]) = Some (2 ^ 64 - 1, [9]).
Proof.
  apply (encode_read_uleb [1] [9] (2 ^ 64 - 1)).
  - vm_compute. split; congruence.
  - repeat constructor; vm_compute; congruence.
Defined.

(** ** The unchecked reader *)

Lemma shl_int_small x s : 0 <= x -> 0 <= s < 32 -> x * 2 ^ s < 2 ^ 31 ->
  shl_int x s = Some (x * 2 ^ s).
Proof.
  intros. unfold shl_int. rewrite decide_True by lia. f_equal. rewrite Z.shiftl_mul_pow2 by lia.
  apply swrap_small; [lia|]. pose proof (Z.pow_pos_nonneg 2 s).
  unfold is_s. change (32 - 1) with 31. nia.
Qed.

(** One round of the loop on a byte whose digit stays below bit 31. *)
Lemma read_uleb_round b buf val s :
  is_byte b -> 0 <= s < 32 -> is_u s val -> (b mod 128) * 2 ^ s < 2 ^ 31 ->
  read_uleb_loop (b :: buf) val s =
    if b <? 128 then Some (val + (b mod 128) * 2 ^ s, buf)
    else read_uleb_loop buf (val + (b mod 128) * 2 ^ s) (s + 7).
Proof.
  intros Hb Hs Hv Hlt. cbn [read_uleb_loop]. destruct (byte_split b Hb) as [-> ->].
  pose proof (Z.mod_pos_bound b 128 ltac:(lia)). pose proof (Z.pow_pos_nonneg 2 s).
  rewrite shl_int_small by lia. cbn [mbind option_bind].
  unfold u64. rewrite wrap_small by (unfold is_u; warith || nia).
  rewrite <- Z.shiftl_mul_pow2, lor_shiftl_r, Z.shiftl_mul_pow2 by (auto; lia).
  unfold u8. rewrite wrap_small by warith. done.
Qed.

Lemma is_u_digit b s val : is_byte b -> 0 <= s -> is_u s val ->
  is_u (s + 7) (val + b mod 128 * 2 ^ s).
Proof.
  intros Hb Hs Hv. unfold is_u in *. rewrite Z.pow_add_r by lia.
  pose proof (Z.mod_pos_bound b 128 ltac:(lia)). pose proof (Z.pow_pos_nonneg 2 s). nia.
Qed.

Lemma read_uleb_small n v val s rest :
  uleb_fits n v -> 0 <= s < 32 -> is_u s val -> v * 2 ^ s < 2 ^ 31 ->
  read_uleb_loop (uleb_digits n v ++ rest) val s = Some (val + v * 2 ^ s, rest).
Proof.
  revert v val s. induction n as [|n IH]; intros v val s Hf Hs Hv Hlt; [destruct Hf; lia|].
  assert (0 <= v) by (destruct Hf; lia). cbn [uleb_digits].
  pose proof (Z.pow_pos_nonneg 2 s ltac:(lia) ltac:(lia)).
  destruct (Z.ltb_spec v 128); cbn [app].
  - rewrite read_uleb_round by (warith || (rewrite ?Z.mod_small by lia; lia) || done).
    rewrite Z.mod_small by lia. destruct (Z.ltb_spec v 128); [done|lia].
  - pose proof (Z.mod_pos_bound v 128 ltac:(lia)) as Hm.
    assert (Hmm : (v mod 128 + 128) mod 128 = v mod 128) by dlia.
    assert (Hvd : v = 128 * (v / 128) + v mod 128) by dlia.
    assert (v / 128 * 2 ^ (s + 7) < 2 ^ 31) by (rewrite Z.pow_add_r by lia; nia).
    assert (s < 25).
    { destruct (Z.le_gt_cases 25 s); [|lia]. exfalso.
      assert (2 ^ 25 <= 2 ^ s) by (apply Z.pow_le_mono_r; lia). warith || nia. }
    rewrite read_uleb_round by (warith || (rewrite Hmm; nia) || done).
    destruct (Z.ltb_spec (v mod 128 + 128) 128); [lia|].
    rewrite IH; [|by apply uleb_fits_step|lia|apply is_u_digit; [warith|lia|done]|done].
    rewrite Hmm. f_equal. f_equal. rewrite Z.pow_add_r by lia. nia.
Qed.

(** The digits after the first four of a value of at least 2^28. *)
Lemma read_uleb_four v rest : is_u 64 v -> 2 ^ 28 <= v ->
  read_uleb (uleb v ++ rest) = read_uleb_loop (uleb_digits 6 (v / 2 ^ 28) ++ rest) (v mod 2 ^ 28) 28.
Proof.
  intros Hv Hlt. unfold read_uleb, uleb, leb_fuel. unfold is_u in Hv. change (2 ^ 28) with 268435456 in *.
  cbn [uleb_digits]. do 4 (case_bool; [exfalso; dlia|]). cbn [app].
  assert (Hb : forall x, is_byte (x mod 128 + 128)) by (intros; dlia).
  assert (Hmm : forall x, (x mod 128 + 128) mod 128 = x mod 128) by (intros; dlia).
  assert (Hge : forall x, (x mod 128 + 128 <? 128) = false).
  { intros x. apply Z.ltb_ge. dlia. }
  rewrite read_uleb_round, Hge, Hmm by (auto; rewrite ?Hmm; dlia).
  rewrite read_uleb_round, Hge, Hmm by (auto; rewrite ?Hmm; simpl Z.add; dlia).
  rewrite read_uleb_round, Hge, Hmm by (auto; rewrite ?Hmm; simpl Z.add; dlia).
  rewrite read_uleb_round, Hge, Hmm by (auto; rewrite ?Hmm; simpl Z.add; dlia).
  rewrite !Z.div_div by lia. simpl Z.mul. simpl Z.add.
  f_equal. simpl Z.pow. dlia.
Qed.

Lemma read_uleb_fifth b buf val : is_byte b -> 0 <= val < 2 ^ 28 -> 8 <= b mod 128 ->
  forall r, read_uleb_loop (b :: buf) val 28 = Some r -> b < 128 /\ r.1 ≠ val + b * 2 ^ 28.
Proof.
  intros Hb Hv Hge r E. cbn [read_uleb_loop] in E. destruct (byte_split b Hb) as [E7 E8].
  rewrite E7, E8 in E. unfold shl_int in E. rewrite decide_True in E by lia.
  cbn [mbind option_bind] in E. destruct (Z.ltb_spec b 128).
  - split; [done|]. injection E as <-. cbn [fst]. rewrite Z.mod_small in * by warith.
    intros EE. assert (Hbits : Z.testbit (Z.lor val (u64 (i32 (Z.shiftl b 28)))) 63 = false
                        /\ Z.lor val (u64 (i32 (Z.shiftl b 28))) < 2 ^ 64).
    { rewrite EE. split; [|warith]. apply (is_u_testbit 40); [lia|warith]. }
    destruct Hbits as [Hbits _]. rewrite Z.lor_spec, (is_u_testbit 28 val) in Hbits by (auto; warith).
    unfold u64 in *. rewrite wrap_testbit in Hbits by lia.
    change (63 <? 64) with true in Hbits. rewrite Bool.andb_true_l, Bool.orb_false_l in Hbits.
    rewrite Z.shiftl_mul_pow2 in * by lia.
    assert (Hcase : i32 (b * 2 ^ 28) < 0 \/ 0 <= i32 (b * 2 ^ 28) < 2 ^ 28 * (b - 7)).
    { unfold i32, swrap. change (32 - 1) with 31. case_bool; dlia. }
    destruct Hcase as [Hneg|Hpos].
    + assert (is_s 32 (i32 (b * 2 ^ 28))) by (apply swrap_range; lia).
      replace (i32 (b * 2 ^ 28)) with (Z.lnot (Z.lnot (i32 (b * 2 ^ 28)))) in Hbits by apply Z.lnot_involutive.
      rewrite Z.lnot_spec, (is_u_testbit 32) in Hbits; [done|lia|unfold Z.lnot; warith|lia].
    + rewrite wrap_small in EE by warith.
      assert (Z.lor val (i32 (b * 2 ^ 28)) <= val + i32 (b * 2 ^ 28)).
      { pose proof (Z.add_lor_land val (i32 (b * 2 ^ 28))).
        pose proof (proj2 (Z.land_nonneg val (i32 (b * 2 ^ 28))) ltac:(lia)). lia. }
      warith.
  - exfalso. destruct buf as [|c buf]; [done|]. cbn [read_uleb_loop] in E.
    assert (u8 (28 + 7) = 35) as Hs by done. rewrite Hs in E.
    unfold shl_int in E. by rewrite decide_False in E by lia.
Qed.

(** The unbounded reader on small values. *)
Lemma read_uleb_uleb v rest : 0 <= v < 2 ^ 31 -> read_uleb (uleb v ++ rest) = Some (v, rest).
Proof.
  intros Hv. unfold read_uleb, uleb.
  rewrite read_uleb_small; [|apply uleb_fits_u64; warith|lia|vm_compute; intuition congruence|simpl; lia].
  do 2 f_equal. simpl. lia.
Qed.

(** the reader without bounds gets back exactly the values below 2^31: from
    there on the five-byte form either loses or sign-extends its top digit
    (the shift is done in [int]), and longer forms shift by 35 or more. *)
Theorem read_uleb_exact (v : Z) (rest : bytes) :
  is_u 64 v -> (read_uleb (uleb v ++ rest) = Some (v, rest) <-> v < 2 ^ 31).
Proof.
  intros Hv. split.
  - intros E. destruct (Z.lt_ge_cases v (2 ^ 31)) as [|Hge]; [done|exfalso].
    rewrite read_uleb_four in E by (auto; warith).
    assert (0 <= v mod 2 ^ 28 < 2 ^ 28) as Hm by (apply Z.mod_pos_bound; lia).
    assert (8 <= v / 2 ^ 28) by dlia. cbn [uleb_digits] in E.
    destruct (Z.ltb_spec (v / 2 ^ 28) 128); cbn [app] in E.
    + apply read_uleb_fifth in E as [_ E]; [|warith|done|rewrite Z.mod_small; lia].
      cbn [fst] in E. dlia.
    + cbn [read_uleb_loop] in E.
      assert (is_byte ((v / 2 ^ 28) mod 128 + 128)) as Hb by dlia.
      destruct (byte_split _ Hb) as [E7 E8]. rewrite E7, E8 in E.
      destruct (Z.ltb_spec ((v / 2 ^ 28) mod 128 + 128) 128); [dlia|].
      unfold shl_int in E at 1. rewrite decide_True in E by lia. cbn [mbind option_bind] in E.
      change (u8 (28 + 7)) with 35 in E.
      assert (Hn : forall l val, read_uleb_loop l val 35 = None).
      { intros [|c l] w; [done|]. cbn [read_uleb_loop]. unfold shl_int.
        by rewrite decide_False by lia. }
      by rewrite Hn in E.
  - intros Hlt. apply read_uleb_uleb. split; [apply Hv|done].
Qed.

Lemma read_uleb_exact_witness :
  read_uleb (uleb 0x80000000 ++ [1]) = Some (0x80000000, [1]) <-> 0x80000000 < 2 ^ 31.
Proof. apply (read_uleb_exact 0x80000000 [1]). vm_compute. split; congruence. Defined.

(** ** Sizes and writing in place *)

Lemma length_uleb_digits_le n v k :
  uleb_fits n v -> (1 <= k <= n)%nat -> (length (uleb_digits n v) <= k)%nat <-> v < 128 ^ Z.of_nat k.
Proof.
  revert v k. induction n as [|n IH]; intros v k Hf Hk; [lia|].
  cbn [uleb_digits]. destruct k as [|k]; [lia|].
  rewrite Nat2Z.inj_succ, Z.pow_succ_r by lia.
  assert (0 < 128 ^ Z.of_nat k) by (apply Z.pow_pos_nonneg; lia).
  destruct (Z.ltb_spec v 128); cbn [length]; [split; nia|].
  destruct k as [|k]; [|].
  - simpl. split; [|lia]. pose proof (uleb_digits_wf n (v / 128) (uleb_fits_step _ _ Hf ltac:(lia))).
    destruct (uleb_digits n (v / 128)); simpl in *; [done|lia].
  - rewrite <- Nat.succ_le_mono, IH by (try apply uleb_fits_step; auto; lia).
    split; intros; [|apply Z.div_lt_upper_bound; lia].
    pose proof (Z.mul_succ_div_gt v 128 ltac:(lia)). lia.
Qed.

Lemma length_uleb_le v k : is_u 64 v -> (1 <= k <= 10)%nat ->
  (length (uleb v) <= k)%nat <-> v < 2 ^ (7 * Z.of_nat k).
Proof.
  intros. unfold uleb. rewrite length_uleb_digits_le by (auto using uleb_fits_u64).
  rewrite Z.pow_mul_r by lia. done.
Qed.

Lemma length_uleb_pos v : is_u 64 v -> (1 <= length (uleb v) <= 10)%nat.
Proof.
  intros Hv. pose proof (uleb_wf_uleb v Hv). split; [|apply length_uleb_digits].
  destruct (uleb v); [done|simpl; lia].
Qed.

Lemma list_find_seqZ_ext (P Q : Z -> Prop) `{!forall x, Decision (P x), !forall x, Decision (Q x)} l :
  Forall (fun x => P x <-> Q x) l -> list_find P l = list_find Q l.
Proof.
  induction 1 as [|x l Hx Hl IH]; [done|]. simpl.
  do 2 case_decide; [done|tauto|tauto|]. by rewrite IH.
Qed.

(** [uleb_size] is the length of the encoding, cut at nine. *)
Lemma uleb_size_min (v : Z) : is_u 64 v -> uleb_size v = Z.min 9 (Z.of_nat (length (uleb v))).
Proof.
  intros Hv. pose proof (length_uleb_pos v Hv) as HL. unfold uleb_size.
  rewrite (list_find_seqZ_ext _ (fun i => Z.of_nat (length (uleb v)) <= i)).
  - assert (HD : forall L, (1 <= L <= 10)%nat ->
      match list_find (fun i => Z.of_nat L <= i) (seqZ 1 8) with Some (_, i) => i | None => 9 end
      = Z.min 9 (Z.of_nat L)); [|by apply HD].
    intros L HLL. do 11 (destruct L as [|L]; [first [lia|vm_compute; reflexivity]|]). lia.
  - apply Forall_forall. intros i Hi%elem_of_seqZ.
    pose proof (length_uleb_le v (Z.to_nat i) Hv ltac:(lia)) as Hle.
    rewrite Z2Nat.id in Hle by lia. rewrite Z.shiftl_1_l. lia.
Qed.

Lemma uleb_size_zlen (v : Z) : 0 <= v < 2 ^ 63 -> uleb_size v = zlen (uleb v).
Proof.
  intros Hv. rewrite uleb_size_min by warith. unfold zlen.
  pose proof (length_uleb_le v 9 ltac:(warith) ltac:(lia)) as Hle. simpl Z.mul in Hle. lia.
Qed.

Lemma zlen_uleb v : is_u 64 v -> 1 <= zlen (uleb v) <= 10.
Proof. intros Hv. pose proof (length_uleb_pos v Hv). unfold zlen. lia. Qed.

(** Smaller values have no longer encodings. *)
Lemma zlen_uleb_mono v w : 0 <= v <= w -> is_u 64 w -> zlen (uleb v) <= zlen (uleb w).
Proof.
  intros Hv Hw. pose proof (length_uleb_pos w Hw) as HL. unfold zlen. apply Nat2Z.inj_le.
  apply length_uleb_le; [warith|lia|].
  pose proof (proj1 (length_uleb_le w (length (uleb w)) Hw HL) ltac:(lia)). lia.
Qed.

(** [uleb_size] is the number of bytes [encode_uleb] emits for every value
    below 2^63; the values from 2^63 on take ten bytes but [uleb_size] still
    answers nine. *)
Theorem uleb_size_exact (v : Z) :
  is_u 64 v ->
  uleb_size v = Z.min 9 (Z.of_nat (length (uleb v))) /\
  (uleb_size v = Z.of_nat (length (uleb v)) <-> v < 2 ^ 63).
Proof.
  intros Hv. pose proof (length_uleb_pos v Hv) as HL. pose proof (uleb_size_min v Hv) as E.
  split; [done|]. rewrite E.
  pose proof (length_uleb_le v 9 Hv ltac:(lia)) as Hle. simpl Z.mul in Hle. lia.
Qed.

Lemma uleb_size_exact_witness :
  uleb_size (2 ^ 63) = Z.min 9 (Z.of_nat (length (uleb (2 ^ 63)))) /\
  (uleb_size (2 ^ 63) = Z.of_nat (length (uleb (2 ^ 63))) <-> 2 ^ 63 < 2 ^ 63).
Proof. apply (uleb_size_exact (2 ^ 63)). vm_compute. split; congruence. Defined.

(** Overwriting part of a buffer. *)
Definition overwrite (buf : bytes) (off : nat) (l : bytes) : bytes :=
  take off buf ++ l ++ drop (off + length l) buf.

Lemma overwrite_nil buf off : overwrite buf off [] = buf.
Proof. unfold overwrite. simpl. rewrite Nat.add_0_r. apply take_drop. Qed.

Lemma overwrite_store buf off b l : (off < length buf)%nat ->
  overwrite (<[off := b]> buf) (S off) l = overwrite buf off (b :: l).
Proof.
  intros. unfold overwrite.
  rewrite (take_S_r (<[off:=b]> buf) off b) by (apply list_lookup_insert_eq; lia).
  rewrite take_insert_ge by lia. rewrite <- app_assoc. simpl. f_equal. f_equal. f_equal.
  rewrite drop_insert_lt by lia. f_equal. lia.
Qed.

Lemma write_uleb_loop_spec n buf i v :
  uleb_fits n v -> (i + length (uleb_digits n v) <= length buf)%nat ->
  write_uleb_loop n buf i v =
    Some (overwrite buf i (uleb_digits n v), (i + length (uleb_digits n v))%nat).
Proof.
  revert buf i v. induction n as [|n IH]; intros buf i v Hf Hlen; [destruct Hf; lia|].
  assert (0 <= v) by (destruct Hf; lia).
  cbn [write_uleb_loop uleb_digits] in *. rewrite land_7f, shiftr_7, div128_eqb by done.
  unfold store_byte. destruct (Z.ltb_spec v 128); cbn [length] in *; rewrite decide_True by lia;
    cbn [mbind option_bind].
  - rewrite Z.mod_small by lia. rewrite <- overwrite_store, overwrite_nil by lia.
    f_equal. f_equal. lia.
  - rewrite lor_80 by (apply Z.mod_pos_bound; lia).
    rewrite IH by (try apply uleb_fits_step; auto; rewrite ?length_insert; lia).
    rewrite overwrite_store by lia. f_equal. f_equal. lia.
Qed.

(** [write_uleb] puts the bytes of [encode_uleb] at the start of the buffer. *)
Lemma write_uleb_spec buf v : is_u 64 v -> (length (uleb v) <= length buf)%nat ->
  write_uleb buf v = Some (overwrite buf 0 (uleb v), length (uleb v)).
Proof. intros. unfold write_uleb. rewrite write_uleb_loop_spec by (auto using uleb_fits_u64). done. Qed.

(** ** Signed LEB128 *)

(** The value denoted by a signed sequence: the last digit is sign-extended. *)
Fixpoint sleb_value (l : bytes) : Z :=
  match l with
  | [] => 0
  | [b] => if b mod 128 <? 64 then b mod 128 else b mod 128 - 128
  | b :: l' => b mod 128 + 128 * sleb_value l'
  end.

Definition sleb_fits (n : nat) (v : Z) : Prop :=
  (0 < n)%nat /\ - 64 * 128 ^ (Z.of_nat n - 1) <= v < 64 * 128 ^ (Z.of_nat n - 1).

Lemma land_40 x : 0 <= x < 128 -> negb (Z.land x 0x40 =? 0) = (64 <=? x).
Proof.
  intros. apply eqb_prop.
  by apply (forall_range (fun b => Bool.eqb (negb (Z.land b 0x40 =? 0)) (64 <=? b)) 128 eq_refl); warith.
Qed.

(** The loop's exit test: what is left is the sign of the digit just taken. *)
Lemma sleb_last v : let x := v mod 128 in let q := v / 128 in
  ((q =? 0) && negb (64 <=? x)) || ((q =? -1) && (64 <=? x)) = (- 64 <=? v) && (v <? 64).
Proof.
  intros x q. assert (v = 128 * q + x /\ 0 <= x < 128) as [Hv Hx] by (unfold x, q; dlia).
  clearbody x q. subst v.
  destruct (Z.eqb_spec q 0), (Z.leb_spec 64 x), (Z.eqb_spec q (-1)), (Z.leb_spec (-64) (128 * q + x)),
    (Z.ltb_spec (128 * q + x) 64); simpl; try done; lia.
Qed.

Lemma encode_sleb_loop_spec n vec v :
  sleb_fits n v ->
  exists l, encode_sleb_loop n vec v = Some (vec ++ l) /\ uleb_wf l /\ (length l <= n)%nat /\ sleb_value l = v.
Proof.
  revert vec v. induction n as [|n IH]; intros vec v Hf; [destruct Hf; lia|].
  cbn [encode_sleb_loop]. rewrite land_7f, shiftr_7.
  pose proof (Z.mod_pos_bound v 128 ltac:(lia)) as Hm.
  rewrite land_40 by done. pose proof (sleb_last v) as Hl. cbv zeta in Hl. rewrite Hl.
  assert (Hvd : v = 128 * (v / 128) + v mod 128) by dlia.
  destruct (Z.leb_spec (-64) v), (Z.ltb_spec v 64); simpl.
  { exists [v mod 128]. split; [done|]. split; [simpl; lia|]. split; [simpl; lia|].
    simpl. rewrite Z.mod_mod by lia. case_bool; dlia. }
  all: destruct (IH (vec ++ [Z.lor (v mod 128) 128]) (v / 128)) as (l & -> & Hw & Hlen & Hval);
    [destruct n as [|n]; [destruct Hf as [_ Hf]; simpl in Hf; lia|];
     destruct Hf as [_ Hf]; split; [lia|];
     replace (Z.of_nat (S (S n)) - 1) with (Z.succ (Z.of_nat (S n) - 1)) in Hf by lia;
     rewrite Z.pow_succ_r in Hf by lia; dlia|];
    (exists (Z.lor (v mod 128) 128 :: l); rewrite lor_80 by done;
     split; [by rewrite <- app_assoc|]; split; [destruct l; [done|split; [lia|done]]|];
     split; [simpl; lia|]; destruct l as [|c l]; [done|];
     change (sleb_value (?b :: c :: l)) with (b mod 128 + 128 * sleb_value (c :: l));
     rewrite Hval; dlia).
Qed.

(** [encode_sleb] terminates within ten bytes for every 64-bit signed
    value, and the sequence it appends denotes that value. *)
Theorem encode_sleb_value (vec : bytes) (v : Z) :
  is_s 64 v ->
  exists l, encode_sleb vec v = Some (vec ++ l) /\ uleb_wf l /\ (length l <= 10)%nat /\ sleb_value l = v.
Proof.
  intros Hv. apply encode_sleb_loop_spec. unfold sleb_fits, leb_fuel.
  split; [lia|]. change (128 ^ (Z.of_nat 10 - 1)) with (2 ^ 63). unfold is_s in Hv.
  change (64 - 1) with 63 in Hv. warith.
Qed.

Lemma encode_sleb_value_witness :
  exists l, encode_sleb [] (-129) = Some ([] ++ l) /\ uleb_wf l /\ (length l <= 10)%nat /\ sleb_value l = -129.
Proof. apply (encode_sleb_value [] (-129)). vm_compute. split; congruence. Defined.
