(* ===== verification/DyldInfo.v ===== *)
(** * Rebase and bind opcode streams (src/macho/output-chunks.cc, lines 664-968)

    [encode_rebase_entries], [encode_bind_entries] and [LazyBindSection]
    compress tables of pointers into byte-coded programs that dyld runs at load
    time. The encoders are modelled as written; [Rebase.decode] and
    [Bind.decode] are the interpreters the opcode definitions of
    src/macho/macho.h describe, and the theorems say that running an encoded
    program restores the table. *)

From S2P Require Import Prelude Bits Leb.

(** ** Byte-code machines

    A step consumes an opcode and possibly more bytes; it yields what it
    outputs, the next state, and the rest of the program, or stops. *)

Section Machine.
Context {St Out : Type} (step : St -> Z -> bytes -> option (St * list Out * option bytes)).

Fixpoint run (fuel : nat) (s : St) (prog : bytes) : option (list Out) :=
  match fuel, prog with
  | O, _ => None
  | S _, [] => Some []
  | S f, b :: prog' =>
      match step s b prog' with
      | None => None
      | Some (_, o, None) => Some o
      | Some (s', o, Some rest) => o' ← run f s' rest; Some (o ++ o')
      end
  end.

Definition exec (s : St) (prog : bytes) : option (list Out) := run (S (length prog)) s prog.

Lemma run_S f s b prog :
  run (S f) s (b :: prog) =
    match step s b prog with
    | None => None
    | Some (_, o, None) => Some o
    | Some (s', o, Some rest) => o' ← run f s' rest; Some (o ++ o')
    end.
Proof using Type. done. Qed.

Hypothesis step_rest : forall s b prog s' o rest,
  step s b prog = Some (s', o, Some rest) -> (length rest <= length prog)%nat.

Lemma run_fuel f g s prog :
  (length prog < f)%nat -> (length prog < g)%nat -> run f s prog = run g s prog.
Proof using step_rest.
  revert g s prog. induction f as [|f IH]; intros g s prog Hf Hg; [lia|].
  destruct g as [|g]; [lia|]. destruct prog as [|b prog]; [done|]. simpl in *.
  destruct (step s b prog) as [[[s' o] [rest|]]|] eqn:E; try done.
  apply step_rest in E. rewrite (IH g s' rest) by lia. done.
Qed.

Lemma exec_cons s b prog :
  exec s (b :: prog) =
    match step s b prog with
    | None => None
    | Some (_, o, None) => Some o
    | Some (s', o, Some rest) => o' ← exec s' rest; Some (o ++ o')
    end.
Proof using step_rest.
  unfold exec. change (length (b :: prog)) with (S (length prog)). rewrite run_S.
  destruct (step s b prog) as [[[s' o] [rest|]]|] eqn:E; try done.
  apply step_rest in E. rewrite (run_fuel _ (S (length rest))) by lia. done.
Qed.
End Machine.

(** LEB128 operands. *)
Fixpoint take_leb (l : bytes) : option (bytes * bytes) :=
  match l with
  | [] => None
  | b :: l' => if b <? 128 then Some ([b], l') else '(d, rest) ← take_leb l'; Some (b :: d, rest)
  end.

Lemma take_leb_wf l rest : uleb_wf l -> take_leb (l ++ rest) = Some (l, rest).
Proof.
  induction l as [|b [|c l] IH]; intros H; [done| |]; simpl in *.
  - destruct (Z.ltb_spec b 128); [done|lia].
  - destruct H as [Hb H]. destruct (Z.ltb_spec b 128); [lia|].
    rewrite IH by done. done.
Qed.

Lemma take_leb_rest l d rest : take_leb l = Some (d, rest) -> (length rest <= length l)%nat.
Proof.
  revert d. induction l as [|b l IH]; simpl; intros d E; [done|].
  case_bool; [injection E as <- <-; lia|].
  destruct (take_leb l) as [[d' r']|]; [|done]. injection E as <- <-. specialize (IH d' eq_refl). lia.
Qed.

(** An opcode byte: the operation in the high nibble, an immediate below. *)
Lemma opcode_split op imm : 0 <= op < 16 -> 0 <= imm < 16 ->
  u8 (Z.lor (16 * op) imm) = 16 * op + imm /\
  Z.land (16 * op + imm) 0xf0 = 16 * op /\ Z.land (16 * op + imm) 0x0f = imm.
Proof.
  intros Ho Hi.
  assert (Z.lor (16 * op) imm = 16 * op + imm) as ->.
  { replace (16 * op) with (Z.shiftl op 4) by (rewrite Z.shiftl_mul_pow2; lia).
    rewrite lor_shiftl by warith. rewrite Z.shiftl_mul_pow2 by lia. lia. }
  split; [unfold u8; rewrite wrap_small by warith; lia|].
  pose proof (forall_range (fun x => (Z.land x 0xf0 =? 16 * (x / 16)) && (Z.land x 0x0f =? x mod 16))
    256 eq_refl (16 * op + imm) ltac:(lia)) as [H1%Z.eqb_eq H2%Z.eqb_eq]%andb_prop.
  rewrite H1, H2. dlia.
Qed.

(** ** Rebasing *)
Module Rebase.

(** The constants of macho.h. *)
Definition REBASE_TYPE_POINTER := 1.
Definition REBASE_OPCODE_MASK := 0xf0.
Definition REBASE_IMMEDIATE_MASK := 0x0f.
Definition REBASE_OPCODE_DONE := 0x00.
Definition REBASE_OPCODE_SET_TYPE_IMM := 0x10.
Definition REBASE_OPCODE_SET_SEGMENT_AND_OFFSET_ULEB := 0x20.
Definition REBASE_OPCODE_ADD_ADDR_ULEB := 0x30.
Definition REBASE_OPCODE_ADD_ADDR_IMM_SCALED := 0x40.
Definition REBASE_OPCODE_DO_REBASE_IMM_TIMES := 0x50.
Definition REBASE_OPCODE_DO_REBASE_ULEB_TIMES := 0x60.

(** [struct RebaseEntry]; the defaulted [<=>] compares the fields in order. *)
Record RebaseEntry := mkRebaseEntry { seg_idx : Z; offset : Z }.

Definition entry_ltb (a b : RebaseEntry) : bool :=
  if seg_idx a <? seg_idx b then true
  else if seg_idx b <? seg_idx a then false
  else offset a <? offset b.

(** The address part of a record: a segment and an offset, or an increment. *)
Definition emit_address (last : option RebaseEntry) (cur : RebaseEntry) (buf : bytes) : option bytes :=
  let set_segment :=
    encode_uleb (buf ++ [u8 (Z.lor REBASE_OPCODE_SET_SEGMENT_AND_OFFSET_ULEB (seg_idx cur))])
                (u64 (offset cur)) in
  match last with
  | None => set_segment
  | Some last =>
      if negb (seg_idx last =? seg_idx cur) || (i32 (offset cur - offset last - 8) <? 0)
      then set_segment
      else
        let dist := i32 (offset cur - offset last - 8) in
        if (Z.rem dist 8 =? 0) && (dist <? 128)
        then Some (buf ++ [u8 (Z.lor REBASE_OPCODE_ADD_ADDR_IMM_SCALED (Z.shiftr dist 3))])
        else encode_uleb (buf ++ [REBASE_OPCODE_ADD_ADDR_ULEB]) (u64 dist)
  end.

(** How far [j] advances past [i + 1]: the following entries that are each
    eight bytes after the one before. *)
Fixpoint consecutive (prev : RebaseEntry) (l : list RebaseEntry) : nat :=
  match l with
  | e :: l' =>
      if (seg_idx prev =? seg_idx e) && (i32 (offset prev + 8) =? offset e)
      then S (consecutive e l') else O
  | [] => O
  end.

Definition emit_times (times : Z) (buf : bytes) : option bytes :=
  if times <? 16 then Some (buf ++ [u8 (Z.lor REBASE_OPCODE_DO_REBASE_IMM_TIMES times)])
  else encode_uleb (buf ++ [REBASE_OPCODE_DO_REBASE_ULEB_TIMES]) times.

(** [for (i64 i = 0; i < rebases.size();)]: [last] is [rebases[i - 1]] and [l]
    the entries from [i] on. *)
Fixpoint emit_records (fuel : nat) (last : option RebaseEntry) (l : list RebaseEntry) (buf : bytes)
  : option bytes :=
  match l with
  | [] => Some buf
  | cur :: rest =>
      match fuel with
      | O => None
      | S fuel' =>
          buf1 ← emit_address last cur buf;
          let n := consecutive cur rest in
          buf2 ← emit_times (Z.of_nat (S n)) buf1;
          emit_records fuel' ((cur :: rest) !! n) (drop n rest) buf2
      end
  end.

Definition encode_rebase_entries (rebases : list RebaseEntry) : option bytes :=
  let buf := [Z.lor REBASE_OPCODE_SET_TYPE_IMM REBASE_TYPE_POINTER] in
  let sorted := stable_sort entry_ltb rebases in
  buf1 ← emit_records (length sorted) None sorted buf;
  let buf2 := buf1 ++ [REBASE_OPCODE_DONE] in
  Some (resize buf2 (align_to (zlen buf2) 8)).

(** *** The interpreter: segment, offset; it outputs the rebased locations. A pointer of the
    target has [ptr] bytes. *)
Record state := mkState { st_seg : Z; st_off : Z }.

Definition locations_at (ptr : Z) (s : state) (times : Z) : list RebaseEntry :=
  map (fun k => mkRebaseEntry (st_seg s) (st_off s + ptr * k)) (seqZ 0 times).

Definition rebase_times_at (ptr : Z) (s : state) (times : Z) (rest : bytes)
  : state * list RebaseEntry * option bytes :=
  (mkState (st_seg s) (st_off s + ptr * times), locations_at ptr s times, Some rest).

Definition step_at (ptr : Z) (s : state) (b : Z) (prog : bytes) : option (state * list RebaseEntry * option bytes) :=
  let op := Z.land b REBASE_OPCODE_MASK in
  let imm := Z.land b REBASE_IMMEDIATE_MASK in
  if op =? REBASE_OPCODE_DONE then Some (s, [], None)
  else if op =? REBASE_OPCODE_SET_TYPE_IMM then
    if imm =? REBASE_TYPE_POINTER then Some (s, [], Some prog) else None
  else if op =? REBASE_OPCODE_SET_SEGMENT_AND_OFFSET_ULEB then
    '(d, rest) ← take_leb prog; Some (mkState imm (uleb_value d), [], Some rest)
  else if op =? REBASE_OPCODE_ADD_ADDR_ULEB then
    '(d, rest) ← take_leb prog; Some (mkState (st_seg s) (st_off s + uleb_value d), [], Some rest)
  else if op =? REBASE_OPCODE_ADD_ADDR_IMM_SCALED then
    Some (mkState (st_seg s) (st_off s + ptr * imm), [], Some prog)
  else if op =? REBASE_OPCODE_DO_REBASE_IMM_TIMES then Some (rebase_times_at ptr s imm prog)
  else if op =? REBASE_OPCODE_DO_REBASE_ULEB_TIMES then
    '(d, rest) ← take_leb prog; Some (rebase_times_at ptr s (uleb_value d) rest)
  else None.

Definition decode_at (ptr : Z) (prog : bytes) : option (list RebaseEntry) := exec (step_at ptr) (mkState 0 0) prog.

Abbreviation locations := (locations_at 8).
Abbreviation rebase_times := (rebase_times_at 8).
Abbreviation step := (step_at 8).
Abbreviation decode := (decode_at 8).

(** *** Correctness *)

(** Entries the opcodes can express: four bits of segment index, and a
    non-negative 32-bit offset with room for the increment. *)
Definition entry_ok (e : RebaseEntry) : Prop :=
  0 <= seg_idx e < 16 /\ 0 <= offset e < 2 ^ 31 - 8.

Lemma rebase_step_rest s b prog s' o rest :
  step s b prog = Some (s', o, Some rest) -> (length rest <= length prog)%nat.
Proof.
  unfold step_at. intros E. repeat (case_bool; try done); try (injection E as <- <- <-; done).
  all: destruct (take_leb prog) as [[d r]|] eqn:Et; [|done]; injection E as <- <- <-;
    by eapply take_leb_rest.
Qed.

Lemma rebase_step_op op imm s prog : 0 <= op < 16 -> 0 <= imm < 16 ->
  exec step s (16 * op + imm :: prog) =
  match (
    if op =? 0 then Some (s, [], None)
    else if op =? 1 then if imm =? 1 then Some (s, [], Some prog) else None
    else if op =? 2 then '(d, rest) ← take_leb prog; Some (mkState imm (uleb_value d), [], Some rest)
    else if op =? 3 then '(d, rest) ← take_leb prog; Some (mkState (st_seg s) (st_off s + uleb_value d), [], Some rest)
    else if op =? 4 then Some (mkState (st_seg s) (st_off s + 8 * imm), [], Some prog)
    else if op =? 5 then Some (rebase_times s imm prog)
    else if op =? 6 then '(d, rest) ← take_leb prog; Some (rebase_times s (uleb_value d) rest)
    else None) with
  | None => None
  | Some (_, o, None) => Some o
  | Some (s', o, Some rest) => o' ← exec step s' rest; Some (o ++ o')
  end.
Proof.
  intros Ho Hi. rewrite exec_cons by apply rebase_step_rest. f_equal. unfold step_at.
  destruct (opcode_split op imm Ho Hi) as (_ & E1 & E2).
  unfold REBASE_OPCODE_MASK, REBASE_IMMEDIATE_MASK. rewrite E1, E2.
  assert (Hc : forall k, (16 * op =? 16 * k) = (op =? k)).
  { intros k. destruct (Z.eqb_spec (16 * op) (16 * k)), (Z.eqb_spec op k); lia || done. }
  rewrite <- (Hc 0), <- (Hc 1), <- (Hc 2), <- (Hc 3), <- (Hc 4), <- (Hc 5), <- (Hc 6). done.
Qed.

Ltac run_op op imm :=
  rewrite (rebase_step_op op imm) by lia; simpl Z.eqb; cbn match; cbn [mbind option_bind].

Lemma exec_set_segment s seg v prog : 0 <= seg < 16 -> is_u 64 v ->
  exec step s (u8 (Z.lor REBASE_OPCODE_SET_SEGMENT_AND_OFFSET_ULEB seg) :: uleb v ++ prog)
  = exec step (mkState seg v) prog.
Proof.
  intros Hs Hv. change REBASE_OPCODE_SET_SEGMENT_AND_OFFSET_ULEB with (16 * 2).
  destruct (opcode_split 2 seg) as [-> _]; [lia..|]. run_op 2 seg.
  rewrite take_leb_wf by (by apply uleb_wf_uleb). cbn [mbind option_bind].
  rewrite uleb_value_uleb by done. by destruct (exec _ _ _).
Qed.

Lemma exec_add_uleb s v prog : is_u 64 v ->
  exec step s (REBASE_OPCODE_ADD_ADDR_ULEB :: uleb v ++ prog)
  = exec step (mkState (st_seg s) (st_off s + v)) prog.
Proof.
  intros Hv. change REBASE_OPCODE_ADD_ADDR_ULEB with (16 * 3 + 0). run_op 3 0.
  rewrite take_leb_wf by (by apply uleb_wf_uleb). cbn [mbind option_bind].
  rewrite uleb_value_uleb by done. by destruct (exec _ _ _).
Qed.

Lemma exec_add_scaled s imm prog : 0 <= imm < 16 ->
  exec step s (u8 (Z.lor REBASE_OPCODE_ADD_ADDR_IMM_SCALED imm) :: prog)
  = exec step (mkState (st_seg s) (st_off s + 8 * imm)) prog.
Proof.
  intros Hi. change REBASE_OPCODE_ADD_ADDR_IMM_SCALED with (16 * 4).
  destruct (opcode_split 4 imm) as [-> _]; [lia..|]. run_op 4 imm. by destruct (exec _ _ _).
Qed.

(** What [emit_address] appends moves the machine to the entry. *)
Lemma emit_address_correct last cur buf :
  entry_ok cur -> (forall e, last = Some e -> entry_ok e) ->
  exists body, emit_address last cur buf = Some (buf ++ body) /\ (length body <= 11)%nat /\
    forall s prog, (forall e, last = Some e -> st_seg s = seg_idx e /\ st_off s = offset e + 8) ->
      exec step s (body ++ prog) = exec step (mkState (seg_idx cur) (offset cur)) prog.
Proof.
  intros [Hs Ho] Hlast.
  assert (Hu : is_u 64 (offset cur)) by warith.
  assert (Huu : u64 (offset cur) = offset cur) by (apply wrap_small; done).
  unfold emit_address. rewrite Huu.
  assert (Hset : exists body,
    encode_uleb (buf ++ [u8 (Z.lor REBASE_OPCODE_SET_SEGMENT_AND_OFFSET_ULEB (seg_idx cur))]) (offset cur)
      = Some (buf ++ body) /\ (length body <= 11)%nat /\
    forall s prog, exec step s (body ++ prog) = exec step (mkState (seg_idx cur) (offset cur)) prog).
  { eexists. rewrite encode_uleb_uleb, <- app_assoc by done. split; [done|].
    pose proof (length_uleb_pos (offset cur) Hu). split; [simpl; lia|]. intros s prog.
    by apply exec_set_segment. }
  destruct Hset as (sb & Es & Hsl & Hsb). rewrite Es.
  destruct last as [last|]; [|eauto].
  destruct (Hlast last eq_refl) as [Hls Hlo]. unfold i32. rewrite swrap_small by (unfold is_s; simpl; warith).
  set (dist := offset cur - offset last - 8).
  destruct (negb (seg_idx last =? seg_idx cur) || (dist <? 0)) eqn:Ec; [eauto|].
  apply orb_false_elim in Ec as [E1%negb_false_iff%Z.eqb_eq E2%Z.ltb_ge].
  destruct ((Z.rem dist 8 =? 0) && (dist <? 128)) eqn:Ed.
  - apply andb_prop in Ed as [E3%Z.eqb_eq E4%Z.ltb_lt]. eexists. split; [done|].
    split; [simpl; lia|]. intros s prog Hst. destruct (Hst last eq_refl) as [S1 S2].
    rewrite Z.rem_mod_nonneg in E3 by lia. rewrite Z.shiftr_div_pow2 by lia. change (2 ^ 3) with 8.
    cbn [app]. rewrite exec_add_scaled by dlia. do 2 f_equal; [lia|]. unfold dist in *. dlia.
  - rewrite encode_uleb_uleb by (unfold u64; apply wrap_range; lia).
    eexists. rewrite <- app_assoc. split; [done|].
    split; [pose proof (length_uleb_pos (u64 dist) ltac:(unfold u64; apply wrap_range; lia)); simpl; lia|].
    intros s prog Hst. destruct (Hst last eq_refl) as [S1 S2].
    unfold u64. rewrite wrap_small by (unfold dist in *; warith).
    cbn [app]. rewrite exec_add_uleb by (unfold dist in *; warith).
    do 2 f_equal; unfold dist; lia.
Qed.

Lemma emit_times_correct times buf : 1 <= times < 2 ^ 64 ->
  exists body, emit_times times buf = Some (buf ++ body) /\ (length body <= 11)%nat /\
    forall s prog, exec step s (body ++ prog) =
      (o ← exec step (mkState (st_seg s) (st_off s + 8 * times)) prog; Some (locations s times ++ o)).
Proof.
  intros Ht. assert (Hu : is_u 64 times) by (unfold is_u; lia).
  unfold emit_times. destruct (Z.ltb_spec times 16).
  - eexists. split; [done|]. split; [simpl; lia|]. intros s prog.
    change REBASE_OPCODE_DO_REBASE_IMM_TIMES with (16 * 5).
    destruct (opcode_split 5 times) as [-> _]; [lia..|]. cbn [app]. run_op 5 times. done.
  - rewrite encode_uleb_uleb by done. eexists. rewrite <- app_assoc. split; [done|].
    split; [pose proof (length_uleb_pos times Hu); simpl; lia|]. intros s prog.
    change REBASE_OPCODE_DO_REBASE_ULEB_TIMES with (16 * 6 + 0). cbn [app]. run_op 6 0.
    rewrite take_leb_wf by (by apply uleb_wf_uleb). cbn [mbind option_bind].
    rewrite uleb_value_uleb by done. done.
Qed.

Lemma locations_0 s : locations s 0 = [].
Proof. done. Qed.

Lemma locations_S s n : 0 <= n ->
  locations s (Z.succ n) = mkRebaseEntry (st_seg s) (st_off s) :: locations (mkState (st_seg s) (st_off s + 8)) n.
Proof.
  intros. unfold locations_at. rewrite seqZ_cons, Z.pred_succ by lia. cbn [map st_seg st_off].
  f_equal; [f_equal; lia|]. change (Z.succ 0) with (1 + 0). rewrite <- fmap_add_seqZ.
  change (fmap (M:=list)) with (@map Z Z). rewrite map_map. apply map_ext. intros. f_equal. lia.
Qed.

(** The run the encoder collapses is the run the machine expands. *)
Lemma consecutive_spec cur rest : entry_ok cur -> Forall entry_ok rest ->
  let n := consecutive cur rest in
  exists e, (cur :: rest) !! n = Some e /\ entry_ok e /\
    seg_idx e = seg_idx cur /\ offset e = offset cur + 8 * Z.of_nat n /\
    locations (mkState (seg_idx cur) (offset cur)) (Z.of_nat (S n)) ++ drop n rest = cur :: rest.
Proof.
  revert cur. induction rest as [|x rest IH]; intros cur Hc Hr n; rewrite Nat2Z.inj_succ, locations_S by lia;
    cbn [st_seg st_off]; (assert (mkRebaseEntry (seg_idx cur) (offset cur) = cur) as -> by by destruct cur).
  { subst n. exists cur. repeat split; simpl; try lia; try apply Hc. }
  inversion Hr as [|?? Hx Hr']; subst.
  assert (Hstop : n = O -> exists e, (cur :: x :: rest) !! n = Some e /\ entry_ok e /\
    seg_idx e = seg_idx cur /\ offset e = offset cur + 8 * Z.of_nat n /\
    (cur :: locations (mkState (seg_idx cur) (offset cur + 8)) (Z.of_nat n)) ++ drop n (x :: rest) = cur :: x :: rest).
  { intros ->. exists cur. repeat split; simpl; try lia; try apply Hc. }
  unfold n in *. cbn [consecutive] in *. clear n. destruct Hc as [Hc1 Hc2].
  unfold i32 in *. rewrite swrap_small in * by (unfold is_s; simpl; warith).
  destruct (Z.eqb_spec (seg_idx cur) (seg_idx x)) as [E1|]; [|by apply Hstop]. simpl andb in *.
  destruct (Z.eqb_spec (offset cur + 8) (offset x)) as [E2|]; [|by apply Hstop].
  destruct (IH x Hx Hr') as (e & He & Hok & S1 & S2 & Hl).
  exists e. split; [done|]. split; [done|]. split; [congruence|]. split; [lia|].
  rewrite E1, E2. cbn [drop app]. by rewrite Hl.
Qed.

Lemma emit_records_correct fuel last l buf :
  (length l <= fuel)%nat -> Forall entry_ok l -> zlen l < 2 ^ 64 ->
  (forall e, last = Some e -> entry_ok e) ->
  exists body, emit_records fuel last l buf = Some (buf ++ body) /\ (length body <= 22 * length l)%nat /\
    forall s prog, (forall e, last = Some e -> st_seg s = seg_idx e /\ st_off s = offset e + 8) ->
      exists s', exec step s (body ++ prog) = (o ← exec step s' prog; Some (l ++ o)).
Proof.
  revert last l buf. induction fuel as [|fuel IH]; intros last l buf Hf Hl Hn Hlast.
  - destruct l; [|simpl in Hf; lia]. exists []. rewrite app_nil_r. split; [done|]. split; [simpl; lia|].
    intros s prog _. exists s. simpl. by destruct (exec _ _ _).
  - destruct l as [|cur rest].
    { exists []. rewrite app_nil_r. split; [done|]. split; [simpl; lia|]. intros s prog _. exists s. simpl. by destruct (exec _ _ _). }
    inversion Hl as [|?? Hc Hr]; subst. cbn [emit_records].
    destruct (emit_address_correct last cur buf Hc Hlast) as (b1 & -> & L1 & H1). cbn [mbind option_bind].
    destruct (consecutive_spec cur rest Hc Hr) as (e & He & Hok & S1 & S2 & Hloc).
    set (n := consecutive cur rest) in *.
    assert (Hnl : (n < length (cur :: rest))%nat) by (by eapply lookup_lt_Some).
    unfold zlen in Hn. cbn [length] in *.
    destruct (emit_times_correct (Z.of_nat (S n)) (buf ++ b1) ltac:(lia)) as (b2 & -> & L2 & H2).
    cbn [mbind option_bind]. rewrite He.
    destruct (IH (Some e) (drop n rest) ((buf ++ b1) ++ b2)) as (b3 & -> & L3 & H3).
    { rewrite length_drop. lia. }
    { by apply Forall_drop. }
    { unfold zlen. rewrite length_drop. lia. }
    { by intros ? [= ->]. }
    exists (b1 ++ b2 ++ b3). rewrite !app_assoc. split; [done|].
    split; [rewrite !length_app, length_drop in *; simpl; lia|]. intros s prog Hs.
    rewrite <- !app_assoc, H1, H2 by done. cbn [st_seg st_off].
    destruct (H3 (mkState (seg_idx cur) (offset cur + 8 * Z.of_nat (S n))) prog) as [s' ->].
    { intros ? [= <-]. cbn [st_seg st_off]. lia. }
    exists s'. destruct (exec step s' prog); [|done]. cbn [mbind option_bind].
    rewrite app_assoc, Hloc. done.
Qed.

Lemma rebase_entry_ltb_asym a b : entry_ltb a b = true -> entry_ltb b a = false.
Proof. unfold entry_ltb. intros. repeat (case_bool; try done; try lia). Qed.

Lemma rebase_entry_nltb_trans a b c : entry_ltb b a = false -> entry_ltb c b = false -> entry_ltb c a = false.
Proof. unfold entry_ltb. intros. repeat (case_bool; try done; try lia). Qed.

(** Padding to a multiple of eight. *)
Lemma pad8 buf : zlen buf < 2 ^ 63 ->
  exists n, resize buf (align_to (zlen buf) 8) = buf ++ replicate n 0 /\
            zlen (resize buf (align_to (zlen buf) 8)) mod 8 = 0.
Proof.
  intros Hb. pose proof (zlen_nonneg buf).
  destruct (align_to_bounds (zlen buf) 3 (2 ^ 63)) as [Hge Hm]; [lia|lia|warith|].
  change (2 ^ 3) with 8 in *. eexists. rewrite zlen_resize by lia. split; [|done].
  apply resize_grow. lia.
Qed.

(** C36: for every table of pointer locations (segment below 16, offset below
    2^31 - 8), the rebase program terminates in a stream whose size is a multiple
    of eight and which, interpreted by the opcode definitions with pointers of eight
    bytes (ARM64 and x86-64; see [rebase_four_bytes] for ARM64_32), rebases exactly
    the sorted locations of the table, each once per occurrence. *)
Theorem rebase_program_correct (rebases : list RebaseEntry) :
  Forall entry_ok rebases -> zlen rebases < 2 ^ 32 ->
  exists prog, encode_rebase_entries rebases = Some prog /\
    decode prog = Some (stable_sort entry_ltb rebases) /\
    stable_sort entry_ltb rebases ≡ₚ rebases /\
    StronglySorted (fun a b => entry_ltb b a = false) (stable_sort entry_ltb rebases) /\
    zlen prog mod 8 = 0.
Proof.
  intros Hok Hn. pose proof (stable_sort_perm entry_ltb rebases) as Hp.
  pose proof (stable_sort_sorted entry_ltb rebase_entry_ltb_asym rebase_entry_nltb_trans rebases) as Hss.
  unfold encode_rebase_entries.
  set (sorted := stable_sort entry_ltb rebases) in *.
  assert (Hsok : Forall entry_ok sorted) by by rewrite Hp.
  assert (Hsn : zlen sorted < 2 ^ 32) by (unfold zlen in *; by rewrite Hp).
  destruct (emit_records_correct (length sorted) None sorted
              [Z.lor REBASE_OPCODE_SET_TYPE_IMM REBASE_TYPE_POINTER] ltac:(lia) Hsok ltac:(lia) ltac:(done))
    as (body & -> & Hlen & Hrun). cbn [mbind option_bind].
  destruct (pad8 (([Z.lor REBASE_OPCODE_SET_TYPE_IMM REBASE_TYPE_POINTER] ++ body) ++ [REBASE_OPCODE_DONE]))
    as (n & Hpad & Hm).
  { unfold zlen in *. rewrite !length_app. simpl. warith. }
  eexists. split; [done|]. rewrite Hpad in *. split; [|done].
  rewrite <- !app_assoc. cbn [app].
  change (Z.lor REBASE_OPCODE_SET_TYPE_IMM REBASE_TYPE_POINTER) with (16 * 1 + 1). unfold decode_at.
  run_op 1 1. destruct (Hrun (mkState 0 0) (REBASE_OPCODE_DONE :: replicate n 0) ltac:(done)) as [s' ->].
  change (REBASE_OPCODE_DONE) with (16 * 0 + 0). run_op 0 0. by rewrite app_nil_r.
Qed.

Lemma rebase_program_correct_witness :
  exists prog, encode_rebase_entries [mkRebaseEntry 2 24; mkRebaseEntry 2 8; mkRebaseEntry 2 16] = Some prog /\
    decode prog = Some (stable_sort entry_ltb [mkRebaseEntry 2 24; mkRebaseEntry 2 8; mkRebaseEntry 2 16]) /\
    stable_sort entry_ltb [mkRebaseEntry 2 24; mkRebaseEntry 2 8; mkRebaseEntry 2 16]
      ≡ₚ [mkRebaseEntry 2 24; mkRebaseEntry 2 8; mkRebaseEntry 2 16] /\
    StronglySorted (fun a b => entry_ltb b a = false)
      (stable_sort entry_ltb [mkRebaseEntry 2 24; mkRebaseEntry 2 8; mkRebaseEntry 2 16]) /\
    zlen prog mod 8 = 0.
Proof.
  apply (rebase_program_correct [mkRebaseEntry 2 24; mkRebaseEntry 2 8; mkRebaseEntry 2 16]).
  - repeat constructor; vm_compute; congruence.
  - vm_compute; congruence.
Defined.

(** A target with pointers of four bytes rebases other locations: the encoder counts in
    steps of eight for every target. *)
Example rebase_four_bytes :
  (prog ← encode_rebase_entries [mkRebaseEntry 2 8; mkRebaseEntry 2 16]; decode_at 4 prog) = Some [mkRebaseEntry 2 8; mkRebaseEntry 2 12].
Proof. vm_compute. reflexivity. Qed.
End Rebase.

(** ** Binding *)
Module Bind.

Definition BIND_SPECIAL_DYLIB_FLAT_LOOKUP := 2 ^ 32 - 2.
Definition BIND_TYPE_POINTER := 1.
Definition BIND_SYMBOL_FLAGS_WEAK_IMPORT := 1.
Definition BIND_OPCODE_MASK := 0xF0.
Definition BIND_IMMEDIATE_MASK := 0x0F.
Definition BIND_OPCODE_DONE := 0x00.
Definition BIND_OPCODE_SET_DYLIB_ORDINAL_IMM := 0x10.
Definition BIND_OPCODE_SET_DYLIB_ORDINAL_ULEB := 0x20.
Definition BIND_OPCODE_SET_DYLIB_SPECIAL_IMM := 0x30.
Definition BIND_OPCODE_SET_SYMBOL_TRAILING_FLAGS_IMM := 0x40.
Definition BIND_OPCODE_SET_TYPE_IMM := 0x50.
Definition BIND_OPCODE_SET_ADDEND_SLEB := 0x60.
Definition BIND_OPCODE_SET_SEGMENT_AND_OFFSET_ULEB := 0x70.
Definition BIND_OPCODE_DO_BIND := 0x90.

(** What the encoder reads of an input file and of a symbol. [file_id] is the
    file's identity: the encoder compares [file] pointers. *)
Record InputFile := mkInputFile { file_id : Z; is_dylib : bool; dylib_idx : Z }.
Record Symbol := mkSymbol { name : bytes; file : InputFile; is_weak : bool; is_imported : bool }.

(** [struct BindEntry] *)
Record BindEntry := mkBindEntry { sym : Symbol; seg_idx : Z; offset : Z; addend : Z }.

(** [get_dylib_idx]; its assertions are hypotheses of the theorems. *)
Definition get_dylib_idx (flat_namespace : bool) (s : Symbol) : Z :=
  if flat_namespace then i32 BIND_SPECIAL_DYLIB_FLAT_LOOKUP
  else if is_dylib (file s) then dylib_idx (file s)
  else i32 BIND_SPECIAL_DYLIB_FLAT_LOOKUP.

(** [std::tuple(name, seg_idx, offset, addend)], compared lexicographically. *)
Definition entry_ltb (a b : BindEntry) : bool :=
  if str_ltb (name (sym a)) (name (sym b)) then true
  else if str_ltb (name (sym b)) (name (sym a)) then false
  else if seg_idx a <? seg_idx b then true
  else if seg_idx b <? seg_idx a then false
  else if offset a <? offset b then true
  else if offset b <? offset a then false
  else addend a <? addend b.

(** The library ordinal, shared by the eager and the lazy encoder. *)
Definition emit_dylib (idx : Z) (buf : bytes) : option bytes :=
  if idx <? 0 then
    Some (buf ++ [u8 (Z.lor BIND_OPCODE_SET_DYLIB_SPECIAL_IMM (Z.land idx BIND_IMMEDIATE_MASK))])
  else if idx <? 16 then Some (buf ++ [u8 (Z.lor BIND_OPCODE_SET_DYLIB_ORDINAL_IMM idx)])
  else encode_uleb (buf ++ [BIND_OPCODE_SET_DYLIB_ORDINAL_ULEB]) (u64 idx).

Definition emit_symbol (s : Symbol) (buf : bytes) : bytes :=
  let flags := if is_weak s then BIND_SYMBOL_FLAGS_WEAK_IMPORT else 0 in
  buf ++ [u8 (Z.lor BIND_OPCODE_SET_SYMBOL_TRAILING_FLAGS_IMM flags)] ++ name s ++ [0].

(** One iteration of the encoding loop; [last] is the entry before. *)
Definition emit_entry (flat : bool) (last : option BindEntry) (b : BindEntry) (buf : bytes) : option bytes :=
  let changed {A} `{EqDecision A} (f : BindEntry -> A) : bool :=
    match last with None => true | Some l => negb (bool_decide (f l = f b)) end in
  buf1 ← (if changed (fun e => file_id (file (sym e)))
          then emit_dylib (get_dylib_idx flat (sym b)) buf else Some buf);
  let buf2 := if changed (fun e => name (sym e)) || changed (fun e => is_weak (sym e))
              then emit_symbol (sym b) buf1 else buf1 in
  buf3 ← (if changed seg_idx || changed offset
          then encode_uleb (buf2 ++ [u8 (Z.lor BIND_OPCODE_SET_SEGMENT_AND_OFFSET_ULEB (seg_idx b))])
                           (u64 (offset b))
          else Some buf2);
  buf4 ← (if changed addend
          then encode_sleb (buf3 ++ [BIND_OPCODE_SET_ADDEND_SLEB]) (addend b) else Some buf3);
  Some (buf4 ++ [BIND_OPCODE_DO_BIND]).

Fixpoint emit_entries (flat : bool) (last : option BindEntry) (l : list BindEntry) (buf : bytes) : option bytes :=
  match l with
  | [] => Some buf
  | b :: l' => buf' ← emit_entry flat last b buf; emit_entries flat (Some b) l' buf'
  end.

Definition encode_bind_entries (flat : bool) (bindings : list BindEntry) : option bytes :=
  let buf := [Z.lor BIND_OPCODE_SET_TYPE_IMM BIND_TYPE_POINTER] in
  buf1 ← emit_entries flat None (stable_sort entry_ltb bindings) buf;
  let buf2 := buf1 ++ [BIND_OPCODE_DONE] in
  Some (resize buf2 (align_to (zlen buf2) 8)).

(** [LazyBindSection::add] for the [idx]-th stub: [ptr_addr] is the address of
    [__la_symbol_ptr], [vmaddr] and [seg] those of the data segment, [word] the
    pointer size. *)
Section Lazy.
Context (flat : bool) (ptr_addr vmaddr word seg : Z).

Definition lazy_offset (idx : Z) : Z := u64 (ptr_addr + idx * word - vmaddr).

Definition lazy_add (contents : bytes) (s : Symbol) (idx : Z) : option bytes :=
  c1 ← emit_dylib (get_dylib_idx flat s) contents;
  let c2 := emit_symbol s c1 in
  c3 ← encode_uleb (c2 ++ [u8 (Z.lor BIND_OPCODE_SET_SEGMENT_AND_OFFSET_ULEB seg)]) (lazy_offset idx);
  Some (c3 ++ [BIND_OPCODE_DO_BIND; BIND_OPCODE_DONE]).

(** The loop of [compute_size]: it records where each stub's program starts. *)
Fixpoint lazy_loop (contents : bytes) (offsets : list Z) (idx : Z) (syms : list Symbol)
  : option (bytes * list Z) :=
  match syms with
  | [] => Some (contents, offsets)
  | s :: syms' =>
      c ← lazy_add contents s idx;
      lazy_loop c (offsets ++ [zlen contents]) (idx + 1) syms'
  end.

Definition lazy_compute_size (p2align : Z) (syms : list Symbol) : option (bytes * list Z) :=
  '(c, offs) ← lazy_loop [] [] 0 syms;
  Some (resize c (align_to (zlen c) (Z.shiftl 1 p2align)), offs).
End Lazy.

(** *** The interpreter *)

(** A binding that dyld performs. *)
Record binding := mkBinding
  { b_seg : Z; b_off : Z; b_ordinal : Z; b_name : bytes; b_weak : bool; b_addend : Z }.

(** The registers are those of a binding; [DO_BIND] advances the offset by a
    pointer. A special ordinal is a negative 4-bit number, 0 standing for 0. *)
Definition step (s : binding) (b : Z) (prog : bytes) : option (binding * list binding * option bytes) :=
  let op := Z.land b BIND_OPCODE_MASK in
  let imm := Z.land b BIND_IMMEDIATE_MASK in
  let '(mkBinding seg off ord nm wk add) := s in
  if op =? BIND_OPCODE_DONE then Some (s, [], None)
  else if op =? BIND_OPCODE_SET_DYLIB_ORDINAL_IMM then Some (mkBinding seg off imm nm wk add, [], Some prog)
  else if op =? BIND_OPCODE_SET_DYLIB_ORDINAL_ULEB then
    '(d, rest) ← take_leb prog; Some (mkBinding seg off (uleb_value d) nm wk add, [], Some rest)
  else if op =? BIND_OPCODE_SET_DYLIB_SPECIAL_IMM then
    Some (mkBinding seg off (if imm =? 0 then 0 else imm - 16) nm wk add, [], Some prog)
  else if op =? BIND_OPCODE_SET_SYMBOL_TRAILING_FLAGS_IMM then
    '(n, rest) ← take_cstr prog;
    Some (mkBinding seg off ord n (negb (Z.land imm BIND_SYMBOL_FLAGS_WEAK_IMPORT =? 0)) add, [], Some rest)
  else if op =? BIND_OPCODE_SET_TYPE_IMM then
    if imm =? BIND_TYPE_POINTER then Some (s, [], Some prog) else None
  else if op =? BIND_OPCODE_SET_ADDEND_SLEB then
    '(d, rest) ← take_leb prog; Some (mkBinding seg off ord nm wk (sleb_value d), [], Some rest)
  else if op =? BIND_OPCODE_SET_SEGMENT_AND_OFFSET_ULEB then
    '(d, rest) ← take_leb prog; Some (mkBinding imm (uleb_value d) ord nm wk add, [], Some rest)
  else if op =? BIND_OPCODE_DO_BIND then
    Some (mkBinding seg (off + 8) ord nm wk add, [s], Some prog)
  else None.

Definition init : binding := mkBinding 0 0 0 [] false 0.
Definition decode (prog : bytes) : option (list binding) := exec step init prog.

(** The binding an entry asks for. *)
Definition binding_of (flat : bool) (e : BindEntry) : binding :=
  mkBinding (seg_idx e) (offset e) (get_dylib_idx flat (sym e)) (name (sym e)) (is_weak (sym e)) (addend e).

(** *** Correctness *)

Lemma bind_step_rest s b prog s' o rest :
  step s b prog = Some (s', o, Some rest) -> (length rest <= length prog)%nat.
Proof.
  unfold step. destruct s as [seg off ord nm wk add]. intros E.
  repeat (case_bool; try done); try (injection E as <- <- <-; done).
  all: try (destruct (take_leb prog) as [[d r]|] eqn:Et; [|done]; injection E as <- <- <-;
    by eapply take_leb_rest).
  all: destruct (take_cstr prog) as [[d r]|] eqn:Et; [|done]; injection E as <- <- <-;
    by eapply take_cstr_rest.
Qed.

(** The machine's step on an opcode byte given by its two nibbles. *)
Lemma bind_step_op op imm s prog : 0 <= op < 16 -> 0 <= imm < 16 ->
  exec step s (16 * op + imm :: prog) =
  let '(mkBinding seg off ord nm wk add) := s in
  match (
    if op =? 0 then Some (s, [], None)
    else if op =? 1 then Some (mkBinding seg off imm nm wk add, [], Some prog)
    else if op =? 2 then
      '(d, rest) ← take_leb prog; Some (mkBinding seg off (uleb_value d) nm wk add, [], Some rest)
    else if op =? 3 then
      Some (mkBinding seg off (if imm =? 0 then 0 else imm - 16) nm wk add, [], Some prog)
    else if op =? 4 then
      '(n, rest) ← take_cstr prog;
      Some (mkBinding seg off ord n (negb (Z.land imm 1 =? 0)) add, [], Some rest)
    else if op =? 5 then if imm =? 1 then Some (s, [], Some prog) else None
    else if op =? 6 then
      '(d, rest) ← take_leb prog; Some (mkBinding seg off ord nm wk (sleb_value d), [], Some rest)
    else if op =? 7 then
      '(d, rest) ← take_leb prog; Some (mkBinding imm (uleb_value d) ord nm wk add, [], Some rest)
    else if op =? 9 then Some (mkBinding seg (off + 8) ord nm wk add, [s], Some prog)
    else None) with
  | None => None
  | Some (_, o, None) => Some o
  | Some (s', o, Some rest) => o' ← exec step s' rest; Some (o ++ o')
  end.
Proof.
  intros Ho Hi. rewrite exec_cons by apply bind_step_rest. unfold step at 1.
  destruct (opcode_split op imm Ho Hi) as (_ & E1 & E2).
  unfold BIND_OPCODE_MASK, BIND_IMMEDIATE_MASK. rewrite E1, E2. destruct s as [seg off ord nm wk add].
  assert (Hc : forall k, (16 * op =? 16 * k) = (op =? k)).
  { intros k. destruct (Z.eqb_spec (16 * op) (16 * k)), (Z.eqb_spec op k); lia || done. }
  rewrite <- (Hc 0), <- (Hc 1), <- (Hc 2), <- (Hc 3), <- (Hc 4), <- (Hc 5), <- (Hc 6), <- (Hc 7), <- (Hc 9).
  done.
Qed.

Ltac run_op op imm :=
  rewrite (bind_step_op op imm) by lia; simpl Z.eqb; cbn match; cbn [mbind option_bind].

(** Emitter [f] appends at most [n] bytes; running them takes the machine from
    [s] to [s'] and performs the bindings [o]. *)
Definition emits (f : bytes -> option bytes) (n : Z) (s s' : binding) (o : list binding) : Prop :=
  forall buf, exists body, f buf = Some (buf ++ body) /\ zlen body <= n /\
    forall prog, exec step s (body ++ prog) = o' ← exec step s' prog; Some (o ++ o').

Lemma emits_skip n s : 0 <= n -> emits Some n s s [].
Proof.
  intros Hn buf. exists []. rewrite app_nil_r. split; [done|]. split; [done|].
  intros prog. simpl. by destruct (exec _ _ _).
Qed.

Lemma emits_if (c : bool) f n s s' : 0 <= n ->
  emits f n s s' [] -> (c = false -> s = s') -> emits (fun buf => if c then f buf else Some buf) n s s' [].
Proof. destruct c; intros Hn Hf Hs; [done|]. rewrite Hs by done. by apply emits_skip. Qed.

Lemma emits_bind f g n m s s' s'' o o' :
  emits f n s s' o -> emits g m s' s'' o' -> emits (fun buf => buf' ← f buf; g buf') (n + m) s s'' (o ++ o').
Proof.
  intros Hf Hg buf. destruct (Hf buf) as (b1 & E1 & L1 & H1).
  destruct (Hg (buf ++ b1)) as (b2 & E2 & L2 & H2). exists (b1 ++ b2).
  rewrite E1. cbn [mbind option_bind]. rewrite E2, <- app_assoc. split; [done|].
  split; [rewrite zlen_app; lia|]. intros prog. rewrite <- app_assoc, H1, H2.
  destruct (exec _ s'' prog); [|done]. simpl. by rewrite app_assoc.
Qed.

(** The same for an emitter that cannot fail. *)
Lemma emits_let h g n m s s' s'' o :
  emits (fun buf => Some (h buf)) n s s' [] -> emits g m s' s'' o ->
  emits (fun buf => g (h buf)) (n + m) s s'' o.
Proof. exact (emits_bind (fun buf => Some (h buf)) g n m s s' s'' [] o). Qed.

Lemma emits_mono f n m s s' o : n <= m -> emits f n s s' o -> emits f m s s' o.
Proof. intros Hn Hf buf. destruct (Hf buf) as (b & E & L & H). exists b. split; [done|]. split; [lia|done]. Qed.

(** An opcode followed by its operand bytes. *)
Lemma emits_intro f n s s' o body :
  (forall buf, f buf = Some (buf ++ body)) -> zlen body <= n ->
  (forall prog, exec step s (body ++ prog) = o' ← exec step s' prog; Some (o ++ o')) -> emits f n s s' o.
Proof. intros ?? H buf. exists body. auto. Qed.

Lemma emits_dylib idx seg off ord nm wk add : - 16 < idx < 2 ^ 63 ->
  emits (emit_dylib idx) 11 (mkBinding seg off ord nm wk add) (mkBinding seg off idx nm wk add) [].
Proof.
  intros Hi. unfold emit_dylib. destruct (Z.ltb_spec idx 0); [|destruct (Z.ltb_spec idx 16)].
  - eapply emits_intro; [done|done|]. intros prog. cbn [app].
    assert (Z.land idx BIND_IMMEDIATE_MASK = idx + 16) as ->.
    { change BIND_IMMEDIATE_MASK with (Z.ones 4). rewrite Z.land_ones by lia. dlia. }
    change BIND_OPCODE_SET_DYLIB_SPECIAL_IMM with (16 * 3).
    destruct (opcode_split 3 (idx + 16)) as [-> _]; [lia..|]. run_op 3 (idx + 16).
    destruct (Z.eqb_spec (idx + 16) 0); [lia|]. by replace (idx + 16 - 16) with idx by lia.
  - eapply emits_intro; [done|done|]. intros prog. cbn [app].
    change BIND_OPCODE_SET_DYLIB_ORDINAL_IMM with (16 * 1).
    destruct (opcode_split 1 idx) as [-> _]; [lia..|]. by run_op 1 idx.
  - assert (Hu : is_u 64 idx) by warith. unfold u64. rewrite wrap_small by done.
    eapply (emits_intro _ _ _ _ _ (_ :: uleb idx)).
    + intros buf. rewrite encode_uleb_uleb, <- app_assoc by done. done.
    + pose proof (zlen_uleb idx Hu). unfold zlen in *. simpl. lia.
    + intros prog. cbn [app]. change BIND_OPCODE_SET_DYLIB_ORDINAL_ULEB with (16 * 2 + 0). run_op 2 0.
      rewrite take_leb_wf by (by apply uleb_wf_uleb). cbn [mbind option_bind]. by rewrite uleb_value_uleb.
Qed.

Lemma emits_symbol y seg off ord nm wk add : Forall (fun c => c ≠ 0) (name y) ->
  emits (fun buf => Some (emit_symbol y buf)) (zlen (name y) + 2)
    (mkBinding seg off ord nm wk add) (mkBinding seg off ord (name y) (is_weak y) add) [].
Proof.
  intros Hn. eapply emits_intro; [done|unfold zlen; simpl; rewrite length_app; simpl; lia|].
  intros prog. change BIND_OPCODE_SET_SYMBOL_TRAILING_FLAGS_IMM with (16 * 4).
  set (fl := if is_weak y then BIND_SYMBOL_FLAGS_WEAK_IMPORT else 0).
  assert (Hf : 0 <= fl < 16) by (unfold fl, BIND_SYMBOL_FLAGS_WEAK_IMPORT; destruct (is_weak y); lia).
  destruct (opcode_split 4 fl) as [-> _]; [lia..|]. rewrite <- !app_assoc. cbn [app]. run_op 4 fl.
  rewrite take_cstr_app by done. cbn [mbind option_bind].
  unfold fl. by destruct (is_weak y).
Qed.

Lemma emits_segment op_seg op_off seg off ord nm wk add : 0 <= op_seg < 16 -> is_u 64 op_off ->
  emits (fun buf => encode_uleb (buf ++ [u8 (Z.lor BIND_OPCODE_SET_SEGMENT_AND_OFFSET_ULEB op_seg)]) op_off) 11
    (mkBinding seg off ord nm wk add) (mkBinding op_seg op_off ord nm wk add) [].
Proof.
  intros Hs Hu. eapply (emits_intro _ _ _ _ _ (_ :: uleb op_off)).
  - intros buf. rewrite encode_uleb_uleb, <- app_assoc by done. done.
  - pose proof (zlen_uleb op_off Hu). unfold zlen in *. simpl. lia.
  - intros prog. cbn [app]. change BIND_OPCODE_SET_SEGMENT_AND_OFFSET_ULEB with (16 * 7).
    destruct (opcode_split 7 op_seg) as [-> _]; [lia..|]. run_op 7 op_seg.
    rewrite take_leb_wf by (by apply uleb_wf_uleb). cbn [mbind option_bind]. by rewrite uleb_value_uleb.
Qed.

Lemma emits_addend v seg off ord nm wk add : is_s 64 v ->
  emits (fun buf => encode_sleb (buf ++ [BIND_OPCODE_SET_ADDEND_SLEB]) v) 11
    (mkBinding seg off ord nm wk add) (mkBinding seg off ord nm wk v) [].
Proof.
  intros Hv buf. unfold encode_sleb.
  destruct (encode_sleb_loop_spec leb_fuel (buf ++ [BIND_OPCODE_SET_ADDEND_SLEB]) v) as (l & -> & Hw & Hlen & Hval).
  { unfold sleb_fits, leb_fuel. split; [lia|]. change (128 ^ (Z.of_nat 10 - 1)) with (2 ^ 63).
    unfold is_s in Hv. change (64 - 1) with 63 in Hv. warith. }
  exists (BIND_OPCODE_SET_ADDEND_SLEB :: l). rewrite <- app_assoc. split; [done|].
  split; [unfold zlen, leb_fuel in *; simpl; lia|]. intros prog. cbn [app].
  change BIND_OPCODE_SET_ADDEND_SLEB with (16 * 6 + 0). run_op 6 0.
  rewrite take_leb_wf by done. cbn [mbind option_bind]. by rewrite Hval.
Qed.

Lemma emits_do_bind seg off ord nm wk add :
  emits (fun buf => Some (buf ++ [BIND_OPCODE_DO_BIND])) 1
    (mkBinding seg off ord nm wk add) (mkBinding seg (off + 8) ord nm wk add) [mkBinding seg off ord nm wk add].
Proof.
  eapply emits_intro; [done|done|]. intros prog. cbn [app].
  change BIND_OPCODE_DO_BIND with (16 * 9 + 0). by run_op 9 0.
Qed.

(** What the bytes can express of an entry: four bits of segment, a 31-bit
    offset, a name without NUL, a 64-bit addend, and an ordinal that is either
    special or a library index. *)
Definition symbol_ok (flat : bool) (y : Symbol) : Prop :=
  Forall (fun c => c ≠ 0) (name y) /\ zlen (name y) < 2 ^ 20 /\ - 16 < get_dylib_idx flat y < 2 ^ 63.

Definition entry_ok (flat : bool) (e : BindEntry) : Prop :=
  symbol_ok flat (sym e) /\ 0 <= seg_idx e < 16 /\ 0 <= offset e < 2 ^ 31 /\ is_s 64 (addend e).

(** The registers after the entry was bound. *)
Definition after (flat : bool) (e : BindEntry) : binding :=
  mkBinding (seg_idx e) (offset e + 8) (get_dylib_idx flat (sym e)) (name (sym e)) (is_weak (sym e)) (addend e).

(** Two entries of one table: file identities determine the file, and the
    locations differ. *)
Definition compatible (a b : BindEntry) : Prop :=
  (file_id (file (sym a)) = file_id (file (sym b)) -> file (sym a) = file (sym b)) /\
  (seg_idx a, offset a) ≠ (seg_idx b, offset b).

Lemma emits_entry flat last b s : entry_ok flat b ->
  (forall e, last = Some e -> s = after flat e /\ compatible e b) ->
  emits (emit_entry flat last b) (zlen (name (sym b)) + 36) s (after flat b) [binding_of flat b].
Proof.
  intros ((Hn & Hnl & Hi) & Hs & Ho & Ha) Hlast. unfold emit_entry. cbv zeta beta.
  unfold u64. rewrite wrap_small by warith.
  set (c1 := match last with None => true | Some l => negb (bool_decide (file_id (file (sym l)) = _)) end).
  set (c2 := match last with None => true | Some l => negb (bool_decide (name (sym l) = _)) end || _).
  set (c3 := match last with None => true | Some l => negb (bool_decide (seg_idx l = _)) end || _).
  set (c4 := match last with None => true | Some l => negb (bool_decide (addend l = _)) end).
  destruct s as [seg off ord nm wk add].
  assert (S1 : c1 = false -> ord = get_dylib_idx flat (sym b)).
  { unfold c1. destruct last as [l|]; [|done]. intros E%negb_false_iff%bool_decide_eq_true.
    destruct (Hlast l eq_refl) as [[= -> -> -> -> -> ->] [Hf _]].
    unfold get_dylib_idx. by rewrite (Hf E). }
  assert (S2 : c2 = false -> nm = name (sym b) /\ wk = is_weak (sym b)).
  { unfold c2. destruct last as [l|]; [|done].
    intros [E1%negb_false_iff%bool_decide_eq_true E2%negb_false_iff%bool_decide_eq_true]%orb_false_elim.
    by destruct (Hlast l eq_refl) as [[= -> -> -> -> -> ->] _]. }
  assert (S3 : c3 = false -> False).
  { unfold c3. destruct last as [l|]; [|done].
    intros [E1%negb_false_iff%bool_decide_eq_true E2%negb_false_iff%bool_decide_eq_true]%orb_false_elim.
    destruct (Hlast l eq_refl) as [_ [_ Hl]]. apply Hl. by rewrite E1, E2. }
  assert (S4 : c4 = false -> add = addend b).
  { unfold c4. destruct last as [l|]; [|done]. intros E%negb_false_iff%bool_decide_eq_true.
    by destruct (Hlast l eq_refl) as [[= -> -> -> -> -> ->] _]. }
  clearbody c1 c2 c3 c4. unfold after, binding_of.
  eapply (emits_mono _ (11 + (zlen (name (sym b)) + 2 + (11 + (11 + 1))))); [lia|].
  eapply (emits_bind _ _ _ _ _ _ _ []).
  { apply emits_if; [lia|by apply emits_dylib|]. intros E. by rewrite (S1 E). }
  apply (emits_let (fun buf => if c2 then emit_symbol (sym b) buf else buf)
    (fun buf => buf3 ← (if c3 then encode_uleb (buf ++ [u8 (Z.lor BIND_OPCODE_SET_SEGMENT_AND_OFFSET_ULEB (seg_idx b))]) (offset b) else Some buf);
       buf4 ← (if c4 then encode_sleb (buf3 ++ [BIND_OPCODE_SET_ADDEND_SLEB]) (addend b) else Some buf3);
       Some (buf4 ++ [BIND_OPCODE_DO_BIND])) _ _ _
     (mkBinding seg off (get_dylib_idx flat (sym b)) (name (sym b)) (is_weak (sym b)) add)).
  { destruct c2; [by apply emits_symbol|]. destruct (S2 eq_refl) as [-> ->].
    apply emits_skip. pose proof (zlen_nonneg (name (sym b))). lia. }
  eapply (emits_bind _ _ _ _ _ _ _ []).
  { apply emits_if; [lia|by apply emits_segment; warith|]. done. }
  eapply (emits_bind _ _ _ _ _ _ _ []).
  { apply emits_if; [lia|by apply emits_addend|]. intros E. by rewrite (S4 E). }
  apply emits_do_bind.
Qed.

Lemma emits_entries flat l last s : Forall (entry_ok flat) l ->
  (forall e, last = Some e -> s = after flat e /\ Forall (compatible e) l) ->
  ForallOrdPairs compatible l ->
  exists s', emits (emit_entries flat last l) (zlen l * 2 ^ 21) s s' (map (binding_of flat) l).
Proof.
  intros Hl. revert last s. induction Hl as [|b l Hb Hl IH]; intros last s Hlast Hc.
  - exists s. by apply emits_skip.
  - inversion Hc as [|?? Hcb Hcl]; subst.
    destruct (IH (Some b) (after flat b)) as [s' Hs']; [by intros ? [= <-]|done|].
    exists s'. cbn [emit_entries map].
    change (binding_of flat b :: map (binding_of flat) l) with ([binding_of flat b] ++ map (binding_of flat) l).
    eapply emits_mono; [|eapply emits_bind; [apply emits_entry; [done|]|exact Hs']].
    + destruct Hb as ((_ & ? & _) & _). unfold zlen in *. simpl length. lia.
    + intros e ->. destruct (Hlast e eq_refl) as [? Hf]. by inversion Hf.
Qed.

Lemma bind_entry_ltb_asym a b : entry_ltb a b = true -> entry_ltb b a = false.
Proof.
  unfold entry_ltb. pose proof (str_ltb_asym (name (sym a)) (name (sym b))).
  intros. repeat (case_bool; try done; try lia); by intuition.
Qed.

Lemma bind_entry_nltb_trans a b c : entry_ltb b a = false -> entry_ltb c b = false -> entry_ltb c a = false.
Proof.
  unfold entry_ltb. intros.
  destruct (str_ltb (name (sym b)) (name (sym a))) eqn:E1; [done|].
  destruct (str_ltb (name (sym c)) (name (sym b))) eqn:E2; [done|].
  rewrite (str_nltb_trans _ _ _ E1 E2).
  destruct (str_ltb (name (sym a)) (name (sym c))) eqn:E3; [done|].
  destruct (str_ltb (name (sym a)) (name (sym b))) eqn:E4.
  { destruct (str_ltb (name (sym b)) (name (sym c))) eqn:E5.
    - by rewrite (str_ltb_trans _ _ _ E4 E5) in E3.
    - rewrite <- (str_ltb_total _ _ E5 E2) in E3. congruence. }
  rewrite (str_ltb_total _ _ E4 E1) in *. rewrite E3 in *.
  repeat (case_bool; try done; try lia).
Qed.

Lemma compatible_pairs l :
  (forall a b, a ∈ l -> b ∈ l -> file_id (file (sym a)) = file_id (file (sym b)) -> file (sym a) = file (sym b)) ->
  NoDup (map (fun e => (seg_idx e, offset e)) l) -> ForallOrdPairs compatible l.
Proof.
  intros Hf. induction l as [|a l IH]; intros Hd; [constructor|].
  inversion Hd as [|?? Hn Hd']; subst. constructor.
  - apply Forall_forall. intros b Hb. split; [apply Hf; set_solver|].
    intros E. apply Hn. rewrite E. by apply (list_elem_of_fmap_2 (fun e => (seg_idx e, offset e))).
  - apply IH; [|done]. intros; apply Hf; set_solver.
Qed.

(** C35: for every table of bindings to distinct locations, the bind program
    terminates in a stream whose size is a multiple of eight; interpreted by the
    opcode definitions, it performs exactly the bindings of the table, each with
    its own library ordinal, symbol, weak flag and addend, although the encoder
    only emits the registers that differ from the entry before. *)
Theorem bind_program_correct (flat : bool) (bindings : list BindEntry) :
  Forall (entry_ok flat) bindings -> zlen bindings < 2 ^ 32 ->
  (forall a b, a ∈ bindings -> b ∈ bindings ->
     file_id (file (sym a)) = file_id (file (sym b)) -> file (sym a) = file (sym b)) ->
  NoDup (map (fun e => (seg_idx e, offset e)) bindings) ->
  exists prog, encode_bind_entries flat bindings = Some prog /\
    decode prog = Some (map (binding_of flat) (stable_sort entry_ltb bindings)) /\
    stable_sort entry_ltb bindings ≡ₚ bindings /\
    StronglySorted (fun a b => entry_ltb b a = false) (stable_sort entry_ltb bindings) /\
    zlen prog mod 8 = 0.
Proof.
  intros Hok Hn Hf Hd. pose proof (stable_sort_sorted entry_ltb bind_entry_ltb_asym bind_entry_nltb_trans bindings) as Hss.
  pose proof (stable_sort_perm entry_ltb bindings) as Hp.
  unfold encode_bind_entries. set (sorted := stable_sort entry_ltb bindings) in *.
  assert (Hsn : zlen sorted < 2 ^ 32) by (unfold zlen in *; by rewrite Hp).
  destruct (emits_entries flat sorted None init) as [s' Hem]; [by rewrite Hp|done| |].
  { apply compatible_pairs; [intros a b; rewrite !Hp; apply Hf|by rewrite Hp]. }
  destruct (Hem [Z.lor BIND_OPCODE_SET_TYPE_IMM BIND_TYPE_POINTER]) as (body & -> & Hlen & Hrun).
  cbn [mbind option_bind].
  destruct (Rebase.pad8 (([Z.lor BIND_OPCODE_SET_TYPE_IMM BIND_TYPE_POINTER] ++ body) ++ [BIND_OPCODE_DONE]))
    as (n & Hpad & Hm).
  { rewrite !zlen_app. change (zlen [_]) with 1. change (zlen [BIND_OPCODE_DONE]) with 1. warith. }
  eexists. split; [done|]. rewrite Hpad in *. split; [|done]. rewrite <- !app_assoc. cbn [app].
  change (Z.lor BIND_OPCODE_SET_TYPE_IMM BIND_TYPE_POINTER) with (16 * 5 + 1). unfold decode.
  rewrite (bind_step_op 5 1) by lia. simpl Z.eqb. unfold init at 1. cbn match. cbn [mbind option_bind].
  fold init. rewrite (Hrun (BIND_OPCODE_DONE :: replicate n 0)).
  change (BIND_OPCODE_DONE) with (16 * 0 + 0). destruct s'. run_op 0 0. by rewrite app_nil_r.
Qed.

(** A table with two libraries, a weak symbol and an addend. *)
Definition sample_lib n := mkInputFile n true n.
Definition sample : list BindEntry :=
  [mkBindEntry (mkSymbol (bs "_puts") (sample_lib 1) false true) 2 24 0;
   mkBindEntry (mkSymbol (bs "_exit") (sample_lib 1) false true) 2 8 0;
   mkBindEntry (mkSymbol (bs "_zlib") (sample_lib 20) true true) 2 16 (-130);
   mkBindEntry (mkSymbol (bs "_exit") (sample_lib 1) false true) 2 32 0].

Lemma bind_program_correct_witness :
  exists prog, encode_bind_entries false sample = Some prog /\
    decode prog = Some (map (binding_of false) (stable_sort entry_ltb sample)) /\
    stable_sort entry_ltb sample ≡ₚ sample /\
    StronglySorted (fun a b => entry_ltb b a = false) (stable_sort entry_ltb sample) /\
    zlen prog mod 8 = 0.
Proof.
  apply (bind_program_correct false sample).
  - unfold sample. repeat constructor; vm_compute; congruence.
  - vm_compute; congruence.
  - intros a b Ha Hb. unfold sample in *. set_unfold.
    destruct Ha as [->|[->|[->|[->|[]]]]], Hb as [->|[->|[->|[->|[]]]]]; simpl; congruence.
  - decided.
Defined.

(** *** Lazy binding *)
Section LazyCorrect.
Context (flat : bool) (ptr_addr vmaddr word seg : Z).
Hypothesis seg_ok : 0 <= seg < 16.

(** What dyld binds for the [idx]-th stub. *)
Definition lazy_binding (idx : Z) (y : Symbol) : binding :=
  mkBinding seg (lazy_offset ptr_addr vmaddr word idx) (get_dylib_idx flat y) (name y) (is_weak y) 0.

Lemma lazy_add_correct contents y idx : symbol_ok flat y ->
  exists body, lazy_add flat ptr_addr vmaddr word seg contents y idx = Some (contents ++ body) /\
    zlen body <= zlen (name y) + 30 /\
    forall rest, decode (body ++ rest) = Some [lazy_binding idx y].
Proof using seg_ok.
  intros (Hn & Hnl & Hi). unfold lazy_add, decode, init.
  set (off := lazy_offset ptr_addr vmaddr word idx).
  assert (Hoff : is_u 64 off) by (apply wrap_range; lia).
  destruct (emits_bind _ (fun c1 => c3 ← encode_uleb (emit_symbol y c1 ++
      [u8 (Z.lor BIND_OPCODE_SET_SEGMENT_AND_OFFSET_ULEB seg)]) off; Some (c3 ++ [BIND_OPCODE_DO_BIND])) _ _ _ _ _ _ _
    (emits_dylib (get_dylib_idx flat y) 0 0 0 [] false 0 Hi)
    (emits_let (emit_symbol y) (fun c2 => c3 ← encode_uleb (c2 ++ [u8 (Z.lor BIND_OPCODE_SET_SEGMENT_AND_OFFSET_ULEB seg)]) off;
        Some (c3 ++ [BIND_OPCODE_DO_BIND])) _ _ _ _ _ _ (emits_symbol y _ _ _ _ _ _ Hn)
      (emits_bind _ (fun c3 => Some (c3 ++ [BIND_OPCODE_DO_BIND])) _ _ _ _ _ _ _
        (emits_segment seg off _ _ _ _ _ _ seg_ok Hoff) (emits_do_bind _ _ _ _ _ _))) contents)
    as (body & E & HL & H).
  exists (body ++ [BIND_OPCODE_DONE]).
  destruct (emit_dylib _ contents) as [c1|]; [|done]. cbn [mbind option_bind] in *.
  destruct (encode_uleb _ off) as [c3|]; [|done]. cbn [mbind option_bind] in *.
  injection E as E. split; [|split].
  - f_equal. rewrite app_assoc, <- E, <- app_assoc. done.
  - rewrite zlen_app. change (zlen [BIND_OPCODE_DONE]) with 1. lia.
  - intros rest. rewrite <- app_assoc, H. cbn [app].
    change (BIND_OPCODE_DONE) with (16 * 0 + 0). by run_op 0 0.
Qed.

Lemma lazy_loop_correct syms contents offsets idx : Forall (symbol_ok flat) syms ->
  exists tail offs, lazy_loop flat ptr_addr vmaddr word seg contents offsets idx syms
      = Some (contents ++ tail, offsets ++ offs) /\
    length offs = length syms /\ zlen tail <= zlen syms * 2 ^ 21 /\
    forall k y, syms !! k = Some y ->
      exists off, offs !! k = Some off /\ 0 <= off /\
        forall pad, decode (drop (Z.to_nat off) (contents ++ tail ++ pad)) = Some [lazy_binding (idx + Z.of_nat k) y].
Proof using seg_ok.
  intros Hs. revert contents offsets idx. induction Hs as [|y syms Hy Hs IH]; intros contents offsets idx.
  - exists [], []. rewrite !app_nil_r. split; [done|]. split; [done|]. split; [done|]. intros k z Hk.
    by rewrite lookup_nil in Hk.
  - cbn [lazy_loop]. destruct (lazy_add_correct contents y idx Hy) as (body & -> & HL & Hb).
    cbn [mbind option_bind].
    destruct (IH (contents ++ body) (offsets ++ [zlen contents]) (idx + 1)) as (tail & offs & -> & Ho & Ht & Hk).
    exists (body ++ tail), (zlen contents :: offs). rewrite <- !app_assoc. cbn [app].
    split; [done|]. split; [simpl; lia|]. split.
    { destruct Hy as (_ & ? & _). rewrite zlen_app. unfold zlen in *. simpl length. lia. }
    intros [|k] z Hz; simpl in Hz.
    + injection Hz as ->. exists (zlen contents). split; [done|]. split; [apply zlen_nonneg|]. intros pad.
      unfold zlen. rewrite Nat2Z.id, drop_app_length, <- app_assoc, Hb. by rewrite Z.add_0_r.
    + destruct (Hk k z Hz) as (off & E & Hoff & H). exists off. split; [done|]. split; [done|]. intros pad.
      specialize (H pad). rewrite <- !app_assoc in *. rewrite H. do 2 f_equal. f_equal. lia.
Qed.
End LazyCorrect.

(** [LazyBindSection::compute_size] succeeds for every list of stubs, records
    one offset per stub, and running the section's bytes from the offset of a
    stub, as the stub helper makes dyld do, performs the binding of that stub's
    lazy pointer to its symbol and nothing else. *)
Theorem lazy_bind_correct (flat : bool) (ptr_addr vmaddr word seg p2align : Z) (syms : list Symbol) :
  0 <= seg < 16 -> 0 <= p2align < 32 -> zlen syms < 2 ^ 32 -> Forall (symbol_ok flat) syms ->
  exists contents offs, lazy_compute_size flat ptr_addr vmaddr word seg p2align syms = Some (contents, offs) /\
    length offs = length syms /\ zlen contents mod 2 ^ p2align = 0 /\
    forall k y, syms !! k = Some y -> exists off, offs !! k = Some off /\
      decode (drop (Z.to_nat off) contents) = Some [lazy_binding flat ptr_addr vmaddr word seg (Z.of_nat k) y].
Proof.
  intros Hseg Hp Hn Hs. unfold lazy_compute_size.
  destruct (lazy_loop_correct flat ptr_addr vmaddr word seg Hseg syms [] [] 0 Hs)
    as (tail & offs & -> & Hlen & Ht & Hk). cbn [mbind option_bind app].
  rewrite Z.shiftl_1_l. pose proof (zlen_nonneg tail).
  destruct (align_to_bounds (zlen tail) p2align (2 ^ 63)) as [Hge Hm];
    [lia|lia| |].
  { assert (2 ^ p2align <= 2 ^ 31) by (apply Z.pow_le_mono_r; lia). warith. }
  exists (resize tail (align_to (zlen tail) (2 ^ p2align))), offs. split; [done|]. split; [done|].
  rewrite zlen_resize by lia. split; [done|].
  intros k y Hy. destruct (Hk k y Hy) as (off & E & Hoff & Hdec). exists off. split; [done|].
  rewrite resize_grow by lia. apply Hdec.
Qed.

Lemma lazy_bind_correct_witness :
  exists contents offs, lazy_compute_size false 4096 0 8 1 3 (map sym sample) = Some (contents, offs) /\
    length offs = length (map sym sample) /\ zlen contents mod 2 ^ 3 = 0 /\
    forall k y, map sym sample !! k = Some y -> exists off, offs !! k = Some off /\
      decode (drop (Z.to_nat off) contents) = Some [lazy_binding false 4096 0 8 1 (Z.of_nat k) y].
Proof.
  apply (lazy_bind_correct false 4096 0 8 1 3 (map sym sample)); [lia|lia|vm_compute; congruence|].
  unfold sample. repeat constructor; vm_compute; congruence.
Defined.
End Bind.
