(* ===== verification/ExportTrie.v ===== *)
(** * The export trie (src/macho/output-chunks.cc, lines 974-1123)

    [ExportEncoder] turns the exported symbols into a prefix tree, gives every
    node a file offset and writes the nodes; [DylibFile::read_trie]
    (src/macho/input-files.cc, 1868-1925) reads such a tree back. The theorems:
    the tree contains exactly the entries, its nodes are laid out without
    overlap although their sizes depend on the offsets being computed, and the
    reader gets back every exported name with its flags. *)

From S2P Require Import Prelude Bits Leb.

(** ** Data *)

(** [ExportEncoder::Entry] and [ExportEncoder::TrieNode] (macho/mold.h) *)
Record Entry := mkEntry { name : bytes; e_flags : Z; e_addr : Z }.

#[warning="-register-all"]
Inductive TrieNode :=
  mkTrieNode (prefix : bytes) (children : list TrieNode) (addr flags offset : Z) (is_leaf : bool).

Definition prefix (t : TrieNode) := let '(mkTrieNode p _ _ _ _ _) := t in p.
Definition children (t : TrieNode) := let '(mkTrieNode _ c _ _ _ _) := t in c.
Definition addr (t : TrieNode) := let '(mkTrieNode _ _ a _ _ _) := t in a.
Definition flags (t : TrieNode) := let '(mkTrieNode _ _ _ f _ _) := t in f.
Definition offset (t : TrieNode) := let '(mkTrieNode _ _ _ _ o _) := t in o.
Definition is_leaf (t : TrieNode) := let '(mkTrieNode _ _ _ _ _ l) := t in l.

(** [TrieNode node;]: the [u32] offset starts at -1. *)
Definition empty_offset : Z := u32 (-1).


(** ** Construction *)

Fixpoint common_prefix_len (x y : bytes) : nat :=
  match x, y with
  | a :: x', b :: y' => if a =? b then S (common_prefix_len x' y') else O
  | _, _ => O
  end.

(** [std::partition_point]: the entries whose character at [pos] is [c] come
    first. [None]: an access beyond the end of a name. *)
Fixpoint partition_point (c : Z) (pos : nat) (l : list Entry) : option (list Entry * list Entry) :=
  match l with
  | [] => Some ([], [])
  | e :: l' =>
      d ← name e !! pos;
      if d =? c then '(g, r) ← partition_point c pos l'; Some (e :: g, r) else Some ([], l)
  end.

(** The loop over the groups of entries with the same next character; [rec]
    builds a child. The subtasks of [tbb::task_group] write to distinct
    children, so their order does not matter. *)
Fixpoint construct_children (rec : list Entry -> option TrieNode) (fuel : nat) (pos : nat)
  (entries : list Entry) : option (list TrieNode) :=
  match entries with
  | [] => Some []
  | e :: rest =>
      match fuel with
      | O => None
      | S fuel' =>
          c ← name e !! pos;
          '(g, r) ← partition_point c pos rest;
          child ← rec (e :: g);
          cs ← construct_children rec fuel' pos r;
          Some (child :: cs)
      end
  end.

(** [construct_trie(node, entries, len)]; [entries] is not empty. *)
Fixpoint construct_trie (fuel : nat) (entries : list Entry) (len : nat) : option TrieNode :=
  match fuel, entries with
  | S fuel', e0 :: rest =>
      let new_len := common_prefix_len (name e0) (name (List.last entries e0)) in
      let grow := (len <? new_len)%nat in
      let leaf := grow && (length (name e0) =? new_len)%nat in
      let entries' := if leaf then rest else entries in
      cs ← construct_children (fun sub => construct_trie fuel' sub new_len) (length entries') new_len entries';
      Some (mkTrieNode (if grow then take (new_len - len) (drop len (name e0)) else []) cs
              (if leaf then e_addr e0 else 0) (if leaf then e_flags e0 else 0) empty_offset leaf)
  | _, _ => None
  end.

(** ** Layout *)

(** The bytes of the node itself, with the offsets known so far. *)
Definition node_size (t : TrieNode) : Z :=
  (if is_leaf t then
     let size := uleb_size (flags t) + uleb_size (addr t) in size + uleb_size size
   else 1)
  + 1
  + foldr (fun c s => zlen (prefix c) + 1 + uleb_size (offset c) + s) 0 (children t).

(** [set_offset]: the node with new offsets, and the size of its subtree. *)
Fixpoint set_offset (t : TrieNode) (off : Z) : TrieNode * Z :=
  match t with
  | mkTrieNode p cs a f _ l =>
      let fix loop (cs : list TrieNode) (size : Z) : list TrieNode * Z :=
        match cs with
        | [] => ([], size)
        | c :: cs' =>
            let '(c', s) := set_offset c (off + size) in
            let '(cs'', size') := loop cs' (size + s) in
            (c' :: cs'', size')
        end in
      let '(cs', size) := loop cs (node_size t) in
      (mkTrieNode p cs' a f (u32 off) l, size)
  end.

Definition entry_ltb (a b : Entry) : bool := str_ltb (name a) (name b).

(** [ExportEncoder::finish]: the tree and its size. *)
Definition make_root (node : TrieNode) : TrieNode :=
  if bool_decide (prefix node = []) then node
  else mkTrieNode [] [node] 0 0 empty_offset false.

(** The tree after the first [set_offset(root, 0)]; offsets converge in later
    rounds, and the code stops after the second. *)
Definition first_layout (entries : list Entry) : option (TrieNode * Z) :=
  let sorted := stable_sort entry_ltb entries in
  node ← construct_trie (S (length sorted)) sorted 0;
  Some (set_offset (make_root node) 0).

Definition finish (entries : list Entry) : option (TrieNode * Z) :=
  '(root, _) ← first_layout entries;
  Some (set_offset root 0).

(** ** Writing *)

(** [write_string] and [write_uleb] through a moving pointer [i]. *)
Fixpoint store_bytes (buf : bytes) (i : nat) (l : bytes) : option (bytes * nat) :=
  match l with
  | [] => Some (buf, i)
  | b :: l' => buf' ← store_byte buf i b; store_bytes buf' (S i) l'
  end.

Definition write_string (buf : bytes) (i : nat) (str : bytes) : option (bytes * nat) :=
  store_bytes buf i (str ++ [0]).

Definition write_uleb_at (buf : bytes) (i : nat) (val : Z) : option (bytes * nat) :=
  write_uleb_loop leb_fuel buf i val.

Fixpoint write_links (buf : bytes) (i : nat) (cs : list TrieNode) : option (bytes * nat) :=
  match cs with
  | [] => Some (buf, i)
  | c :: cs' =>
      '(buf, i) ← write_string buf i (prefix c);
      '(buf, i) ← write_uleb_at buf i (offset c);
      write_links buf i cs'
  end.

(** The node's own bytes. *)
Definition write_node (buf : bytes) (t : TrieNode) : option bytes :=
  let i := Z.to_nat (offset t) in
  '(buf, i) ←
    (if is_leaf t then
       '(buf, i) ← write_uleb_at buf i (u64 (uleb_size (flags t) + uleb_size (addr t)));
       '(buf, i) ← write_uleb_at buf i (flags t);
       write_uleb_at buf i (addr t)
     else store_bytes buf i [0]);
  '(buf, i) ← store_bytes buf i [u8 (zlen (children t))];
  '(buf, _) ← write_links buf i (children t);
  Some buf.

Fixpoint write_trie (buf : bytes) (t : TrieNode) {struct t} : option bytes :=
  match t with
  | mkTrieNode _ cs _ _ _ _ =>
      let fix loop (buf : bytes) (cs : list TrieNode) {struct cs} : option bytes :=
        match cs with
        | [] => Some buf
        | c :: cs' => buf' ← write_trie buf c; loop buf' cs'
        end in
      buf' ← write_node buf t; loop buf' cs
  end.

(** [ExportSection::compute_size] and [copy_buf]: the section's bytes. *)
Definition export_section (entries : list Entry) : option bytes :=
  match entries with
  | [] => Some []
  | _ :: _ =>
      '(root, size) ← finish entries;
      write_trie (replicate (Z.to_nat (align_to size 8)) 0) root
  end.

(** ** Reading *)

Definition EXPORT_SYMBOL_FLAGS_KIND_MASK := 0x03.
Definition EXPORT_SYMBOL_FLAGS_KIND_THREAD_LOCAL := 0x01.
Definition EXPORT_SYMBOL_FLAGS_WEAK_DEFINITION := 0x04.
Definition EXPORT_SYMBOL_FLAGS_REEXPORT := 0x08.
Definition EXPORT_SYMBOL_FLAGS_STUB_AND_RESOLVER := 0x10.

(** The [exports] map of a [DylibFile], and the names reported by [Error]. *)
Record exports_state := mkExports { exports : gmap bytes Z; tls_errors : list bytes }.

Definition is_tls (fl : Z) : bool :=
  Z.land fl EXPORT_SYMBOL_FLAGS_KIND_MASK =? EXPORT_SYMBOL_FLAGS_KIND_THREAD_LOCAL.
Definition is_weak_def (fl : Z) : bool := negb (Z.land fl EXPORT_SYMBOL_FLAGS_WEAK_DEFINITION =? 0).

Definition add_export (st : exports_state) (nm : bytes) (fl : Z) : exports_state :=
  let existing := default 0 (exports st !! nm) in
  if existing =? 0 then mkExports (<[nm := fl]> (exports st)) (tls_errors st)
  else
    let errs := if Bool.eqb (is_tls existing) (is_tls fl) then tls_errors st else tls_errors st ++ [nm] in
    let existing' := if is_weak_def existing && negb (is_weak_def fl) then fl else existing in
    mkExports (<[nm := existing']> (exports st)) errs.

(** The terminal part of a node: the name it exports, its flags, and what
    follows. *)
Definition read_terminal (buf : bytes) (pre : bytes) : option (bytes * Z * bytes) :=
  '(_, buf) ← read_uleb buf;
  '(v, buf) ← read_uleb buf;
  let fl := u32 v in
  if negb (Z.land fl EXPORT_SYMBOL_FLAGS_REEXPORT =? 0) then
    '(_, buf) ← read_uleb buf;
    '(str, buf) ← take_cstr buf;
    Some (if bool_decide (str = []) then pre else str, fl, buf)
  else if negb (Z.land fl EXPORT_SYMBOL_FLAGS_STUB_AND_RESOLVER =? 0) then
    '(_, buf) ← read_uleb buf;
    '(_, buf) ← read_uleb buf;
    Some (pre, fl, buf)
  else
    '(_, buf) ← read_uleb buf;
    Some (pre, fl, buf).

(** The loop over a node's children; [visit] reads a child. *)
Fixpoint read_children (visit : exports_state -> Z -> bytes -> option exports_state)
  (nchild : nat) (parent : Z) (pre : bytes) (buf : bytes) (st : exports_state) : option exports_state :=
  match nchild with
  | O => Some st
  | S n =>
      '(suffix, buf) ← take_cstr buf;
      '(off, buf) ← read_uleb buf;
      if off =? parent then None
      else st' ← visit st off (pre ++ suffix); read_children visit n parent pre buf st'
  end.

(** [read_trie(start, offset, prefix)]. [None]: a read outside the file or an
    assertion that fails. A cycle of offsets makes the code recurse for ever:
    the fuel is the depth of the recursion. *)
Fixpoint read_trie (fuel : nat) (start : bytes) (st : exports_state) (off : Z) (pre : bytes)
  : option exports_state :=
  match fuel with
  | O => None
  | S fuel' =>
      let buf := drop (Z.to_nat off) start in
      b ← head buf;
      '(st, buf) ← (if b =? 0 then Some (st, tail buf)
                    else '(nm, fl, buf) ← read_terminal buf pre; Some (add_export st nm fl, buf));
      nchild ← head buf;
      read_children (fun st off pre => read_trie fuel' start st off pre) (Z.to_nat nchild) off pre (tail buf) st
  end.

(** ** What a tree contains *)

Section TrieInd.
Context (P : TrieNode -> Prop).
Hypothesis node : forall p cs a f o l, Forall P cs -> P (mkTrieNode p cs a f o l).

Fixpoint trie_ind (t : TrieNode) : P t :=
  match t with
  | mkTrieNode p cs a f o l =>
      node p cs a f o l ((fix go (cs : list TrieNode) : Forall P cs := match cs with
        | [] => Forall_nil_2 P
        | c :: cs' => Forall_cons_2 P c cs' (trie_ind c) (go cs')
        end) cs)
  end.
End TrieInd.

(** The entries below a node, in the order of the tree; [pre] is the path. *)
Fixpoint entries_of (pre : bytes) (t : TrieNode) : list Entry :=
  match t with
  | mkTrieNode p cs a f _ l =>
      (if l then [mkEntry (pre ++ p) f a] else []) ++ concat (map (entries_of (pre ++ p)) cs)
  end.

(** All nodes, a node before its children: the order in which they are laid out
    and written. *)
Fixpoint nodes (t : TrieNode) : list TrieNode :=
  match t with mkTrieNode _ cs _ _ _ _ => t :: concat (map nodes cs) end.

Lemma nodes_eq t : nodes t = t :: concat (map nodes (children t)).
Proof. by destruct t. Qed.

Lemma entries_of_eq pre t : entries_of pre t =
  (if is_leaf t then [mkEntry (pre ++ prefix t) (flags t) (addr t)] else [])
  ++ concat (map (entries_of (pre ++ prefix t)) (children t)).
Proof. by destruct t. Qed.

(** ** Construction is correct *)

Lemma common_prefix_take x y : take (common_prefix_len x y) x = take (common_prefix_len x y) y.
Proof.
  revert y. induction x as [|a x IH]; intros [|b y]; simpl; try done.
  destruct (Z.eqb_spec a b); [subst; simpl; by rewrite IH|done].
Qed.

Lemma common_prefix_le x y :
  (common_prefix_len x y <= length x)%nat /\ (common_prefix_len x y <= length y)%nat.
Proof.
  revert y. induction x as [|a x IH]; intros [|b y]; simpl; try lia.
  destruct (a =? b); [|lia]. specialize (IH y). lia.
Qed.

Lemma common_prefix_max x y c :
  x !! common_prefix_len x y = Some c -> y !! common_prefix_len x y ≠ Some c.
Proof.
  revert y. induction x as [|a x IH]; intros [|b y]; simpl; try done.
  destruct (Z.eqb_spec a b); simpl; [apply IH|]. congruence.
Qed.

Lemma common_prefix_ge x y p : p `prefix_of` x -> p `prefix_of` y -> (length p <= common_prefix_len x y)%nat.
Proof.
  intros [x' ->] [y' ->]. induction p as [|a p IH]; simpl; [lia|]. rewrite Z.eqb_refl. lia.
Qed.

Lemma common_prefix_same x : common_prefix_len x x = length x.
Proof. induction x as [|a x IH]; simpl; [done|]. by rewrite Z.eqb_refl, IH. Qed.

(** What lies between two strings with a common prefix has it too. *)
Lemma str_between p a b c : str_ltb b (p ++ a) = false -> str_ltb (p ++ c) b = false -> p `prefix_of` b.
Proof.
  revert b. induction p as [|x p IH]; intros b H1 H2; [apply prefix_nil|].
  destruct b as [|y b]; simpl in *; [done|].
  destruct (Z.ltb_spec y x), (Z.ltb_spec x y); try done; try lia.
  assert (x = y) as -> by lia. apply prefix_cons, IH; done.
Qed.

(** A proper prefix is smaller. *)
Lemma str_ltb_prefix p s : s ≠ [] -> str_ltb p (p ++ s) = true.
Proof.
  intros Hs. induction p as [|x p IH]; simpl; [by destruct s|]. by rewrite Z.ltb_irrefl.
Qed.

Lemma str_ltb_app p a b : str_ltb (p ++ a) (p ++ b) = str_ltb a b.
Proof. induction p as [|x p IH]; simpl; [done|]. by rewrite Z.ltb_irrefl. Qed.

Definition before (a b : Entry) : Prop := entry_ltb a b = true.

(** Characters of names: a NUL would end the name in the file. *)
Definition is_char (c : Z) : Prop := 0 < c < 256.
Definition name_ok (e : Entry) : Prop := Forall is_char (name e).

(** The names of a group go on after the common path [p]. *)
Definition extends (p : bytes) (e : Entry) : Prop := exists c s, name e = p ++ c :: s /\ is_char c /\ Forall is_char s.

Lemma extends_lookup p e : extends p e -> exists c, name e !! length p = Some c /\ is_char c.
Proof. intros (c & s & -> & Hc & _). exists c. by rewrite list_lookup_middle. Qed.

Lemma partition_point_spec p c l :
  Forall (extends p) l ->
  exists g r, partition_point c (length p) l = Some (g, r) /\ l = g ++ r /\
    Forall (fun e => name e !! length p = Some c) g /\
    forall e r', r = e :: r' -> name e !! length p ≠ Some c.
Proof.
  induction 1 as [|e l He Hl IH]; simpl; [by exists [], []|].
  destruct (extends_lookup p e He) as (d & Hd & _). rewrite Hd. cbn [mbind option_bind].
  destruct (Z.eqb_spec d c) as [->|Hne].
  - destruct IH as (g & r & -> & -> & Hg & Hr). cbn [mbind option_bind]. exists (e :: g), r. auto.
  - exists [], (e :: l). split; [done|]. split; [done|]. split; [constructor|]. intros ? ? [= -> ->]. congruence.
Qed.

(** In a sorted list, an entry with another next character has a greater one. *)
Lemma before_next p a b c d : before a b -> extends p a -> extends p b ->
  name a !! length p = Some c -> name b !! length p = Some d -> c <= d.
Proof.
  unfold before, entry_ltb. intros Hb (c' & s & Ea & _) (d' & s' & Eb & _).
  rewrite Ea, Eb in *. rewrite !list_lookup_middle by done. intros [= ->] [= ->].
  rewrite str_ltb_app in Hb. simpl in Hb. destruct (Z.ltb_spec c d); [lia|]. destruct (Z.ltb_spec d c); [done|lia].
Qed.

(** What reading back needs of the numbers of an entry: the flags name neither a
    re-export nor a stub, and [read_uleb] is exact below 2^31 only. *)
Definition payload_ok (f a : Z) : Prop :=
  0 <= f < 2 ^ 31 /\ 0 <= a < 2 ^ 31 /\
  Z.land f EXPORT_SYMBOL_FLAGS_REEXPORT = 0 /\ Z.land f EXPORT_SYMBOL_FLAGS_STUB_AND_RESOLVER = 0.

Definition node_ok (t : TrieNode) : Prop :=
  Forall is_char (prefix t) /\ zlen (children t) <= 255 /\ payload_ok (flags t) (addr t).

Definition entry_ok (e : Entry) : Prop :=
  name e ≠ [] /\ name_ok e /\ payload_ok (e_flags e) (e_addr e).

#[export] Instance entry_ok_dec e : Decision (entry_ok e).
Proof. unfold entry_ok, name_ok, is_char, payload_ok. apply _. Defined.

Definition fresh (t : TrieNode) : Prop := offset t = empty_offset.

Definition built (p : bytes) (es : list Entry) (t : TrieNode) : Prop :=
  entries_of p t = es /\ Forall node_ok (nodes t) /\ Forall fresh (nodes t).

Lemma construct_children_spec rec p all :
  (forall pre sub post c, all = pre ++ sub ++ post -> sub ≠ [] ->
     Forall (fun e => name e !! length p = Some c) sub -> exists t, rec sub = Some t /\ built p sub t) ->
  Forall (extends p) all -> StronglySorted before all ->
  forall fuel pre entries, all = pre ++ entries -> (length entries <= fuel)%nat ->
  exists cs, construct_children rec fuel (length p) entries = Some cs /\
    concat (map (entries_of p) cs) = entries /\
    Forall node_ok (concat (map nodes cs)) /\ Forall fresh (concat (map nodes cs)) /\
    (zlen cs <= 255) /\ (entries = [] -> cs = []) /\
    forall e r c, entries = e :: r -> name e !! length p = Some c -> zlen cs <= 256 - c.
Proof.
  intros Hrec Hall Hss. induction fuel as [|fuel IH]; intros pre entries E Hf.
  { destruct entries; [|simpl in Hf; lia]. exists []. repeat split; try constructor; done. }
  destruct entries as [|e rest]; [exists []; repeat split; try constructor; done|].
  assert (Hx : Forall (extends p) (e :: rest)) by (rewrite E in Hall; by apply Forall_app in Hall as [_ ?]).
  assert (Hs : StronglySorted before (e :: rest)) by (rewrite E in Hss; by apply StronglySorted_app in Hss as (_ & _ & ?)).
  inversion Hx as [|?? Hxe Hxr]; subst x l.
  destruct (extends_lookup p e Hxe) as (c & Hc & Hcc). cbn [construct_children]. rewrite Hc. cbn [mbind option_bind].
  destruct (partition_point_spec p c rest Hxr) as (g & r & -> & Eg & Hg & Hr). cbn [mbind option_bind].
  destruct (Hrec pre (e :: g) r c) as (t & -> & Ht1 & Ht2 & Ht3); [by rewrite E, Eg|done|by constructor|]. cbn [mbind option_bind].
  destruct (IH (pre ++ e :: g) r) as (cs & -> & H1 & H2 & H3 & _ & H0 & H4).
  { by rewrite E, Eg, <- app_assoc. }
  { rewrite Eg in Hf. simpl in Hf. rewrite length_app in Hf. lia. }
  cbn [mbind option_bind]. exists (t :: cs). split; [done|].
  assert (Hle : zlen (t :: cs) <= 256 - c).
  { unfold is_char in Hcc. unfold zlen in *. simpl length. destruct r as [|e' r].
    - rewrite (H0 eq_refl). simpl. lia.
    - rewrite Eg in *. assert (Hxe' : extends p e') by (apply Forall_app in Hxr as [_ Hxr]; by inversion Hxr).
      destruct (extends_lookup p e' Hxe') as (d & Hd & _). specialize (H4 e' r d eq_refl Hd).
      assert (before e e').
      { inversion Hs as [|?? _ Hb]; subst. rewrite Forall_app in Hb. destruct Hb as [_ Hb]. by inversion Hb. }
      pose proof (before_next p e e' c d ltac:(done) Hxe Hxe' Hc Hd).
      assert (c ≠ d) by (intros ->; by apply (Hr e' r)). lia. }
  cbn [map concat]. rewrite H1, Ht1, Eg. split; [done|].
  split; [by apply Forall_app|]. split; [by apply Forall_app|]. unfold is_char in Hcc. split; [lia|]. split; [done|].
  intros ? ? c' [= <- <-]. rewrite Hc. intros [= <-]. done.
Qed.

Lemma sorted_first (e0 : Entry) rest e : StronglySorted before (e0 :: rest) -> e ∈ e0 :: rest ->
  str_ltb (name e) (name e0) = false.
Proof.
  intros Hs He. inversion Hs as [|?? _ Hb]; subst.
  apply elem_of_cons in He as [->|He]; [apply str_ltb_irrefl|].
  rewrite Forall_forall in Hb. apply str_ltb_asym, Hb, He.
Qed.

Lemma sorted_last (l : list Entry) d e : StronglySorted before l -> e ∈ l ->
  str_ltb (name (List.last l d)) (name e) = false.
Proof.
  induction 1 as [|e0 l Hs IH Hb]; intros He; [by apply elem_of_nil in He|].
  destruct l as [|e1 l]; [apply list_elem_of_singleton in He as ->; apply str_ltb_irrefl|].
  change (List.last (e0 :: e1 :: l) d) with (List.last (e1 :: l) d).
  apply elem_of_cons in He as [->|He]; [|by apply IH].
  apply str_ltb_asym. rewrite Forall_forall in Hb. apply Hb.
  destruct (exists_last (l := e1 :: l) ltac:(done)) as (l' & x & ->). rewrite last_last. set_solver.
Qed.

Lemma extends_longer p q e : extends p e -> p `prefix_of` q -> q `prefix_of` name e -> q ≠ name e -> extends q e.
Proof.
  intros (c & s & E & Hc & Hs) [p' ->] [q' E'] Hne. rewrite E, <- app_assoc in E'. apply app_inv_head in E'.
  assert (Hall : Forall is_char (p' ++ q')) by (rewrite <- E'; by constructor).
  apply Forall_app in Hall as [_ Hall]. destruct q' as [|d q'].
  { rewrite app_nil_r in E'. subst p'. by rewrite E in Hne. }
  inversion Hall; subst. exists d, q'. rewrite E, E'. split; [by rewrite app_assoc|done].
Qed.

Lemma extends_prefix p e : extends p e -> p `prefix_of` name e /\ p ≠ name e.
Proof.
  intros (c & s & -> & _). split; [by apply prefix_app_r|]. intros E.
  apply (f_equal length) in E. rewrite length_app in E. simpl in E. lia.
Qed.

Lemma prefix_take (p x : bytes) : p `prefix_of` x -> take (length p) x = p.
Proof. intros [y ->]. by rewrite take_app_length. Qed.

(** The new common path: its length is [common_prefix_len] of the first and the
    last name, and every name goes through it. *)
Lemma common_path p e0 rest : StronglySorted before (e0 :: rest) -> Forall (extends p) (e0 :: rest) ->
  let n := common_prefix_len (name e0) (name (List.last (e0 :: rest) e0)) in
  let q := take n (name e0) in
  (length p <= n)%nat /\ length q = n /\ p `prefix_of` q /\ Forall (fun e => q `prefix_of` name e) (e0 :: rest).
Proof.
  intros Hs Hx n q. set (el := List.last (e0 :: rest) e0) in *.
  assert (Hel : el ∈ e0 :: rest).
  { destruct (exists_last (l := e0 :: rest) ltac:(done)) as (l' & x & E). unfold el. rewrite E, last_last.
    apply elem_of_app. right. by left. }
  rewrite Forall_forall in Hx.
  destruct (common_prefix_le (name e0) (name el)) as [L1 L2].
  assert (Hp : p `prefix_of` name e0) by (apply extends_prefix, Hx; by left).
  assert (Hn : (length p <= n)%nat) by (apply common_prefix_ge; [done|by apply extends_prefix, Hx]).
  split; [done|]. split; [unfold q; rewrite length_take; lia|]. split.
  - destruct Hp as [y Hy]. unfold q. rewrite Hy, take_app_ge by lia. by apply prefix_app_r.
  - apply Forall_forall. intros e He. eapply (str_between q (drop n (name e0)) (name e) (drop n (name el))).
    + unfold q. rewrite take_drop. by eapply sorted_first.
    + unfold q, n. rewrite common_prefix_take, take_drop. by apply sorted_last.
Qed.

Lemma not_extending q e0 rest e : StronglySorted before (e0 :: rest) -> e ∈ e0 :: rest ->
  q `prefix_of` name e0 -> q ≠ name e0 -> q ≠ name e.
Proof.
  intros Hs He [y Hy] Hne ->. pose proof (sorted_first _ _ _ Hs He) as H.
  destruct y as [|c y]; [by rewrite app_nil_r in Hy|]. rewrite Hy, str_ltb_prefix in H by done. done.
Qed.

(** The entries left after the terminal one go on after the new path. *)
Lemma descend p e0 rest : StronglySorted before (e0 :: rest) -> Forall (extends p) (e0 :: rest) ->
  let n := common_prefix_len (name e0) (name (List.last (e0 :: rest) e0)) in
  let leaf := (length p <? n)%nat && (length (name e0) =? n)%nat in
  Forall (extends (take n (name e0))) (if leaf then rest else e0 :: rest).
Proof.
  intros Hs Hx n leaf. destruct (common_path p e0 rest Hs Hx) as (Hn & Hq & Hpq & Hqe). fold n in Hn, Hq, Hpq, Hqe.
  set (q := take n (name e0)) in *. rewrite Forall_forall in Hx. rewrite Forall_forall in Hqe.
  apply Forall_forall. intros e He.
  assert (Hin : e ∈ e0 :: rest) by (destruct leaf; [by right|done]).
  apply (extends_longer p); [by apply Hx|done|by apply Hqe|].
  unfold leaf in He. destruct (Nat.ltb_spec (length p) n).
  - destruct (Nat.eqb_spec (length (name e0)) n) as [E|E]; simpl in He.
    + assert (q = name e0) as -> by (unfold q; apply take_ge; lia).
      inversion Hs as [|?? _ Hb]; subst. rewrite Forall_forall in Hb. specialize (Hb e He).
      unfold before, entry_ltb in Hb. intros E'. by rewrite E', str_ltb_irrefl in Hb.
    + eapply not_extending; [exact Hs|done|apply Hqe; by left|].
      intros E'. by rewrite <- E' in E.
  - simpl in He. destruct (extends_prefix p e (Hx e Hin)) as [_ Hp].
    assert (p = q) as <- by (by apply prefix_length_eq; [|lia]). done.
Qed.

Lemma construct_trie_spec fuel p entries :
  entries ≠ [] -> (length entries <= fuel)%nat -> StronglySorted before entries -> Forall (extends p) entries ->
  Forall (fun e => payload_ok (e_flags e) (e_addr e)) entries ->
  exists t, construct_trie fuel entries (length p) = Some t /\ built p entries t.
Proof.
  revert p entries. induction fuel as [|fuel IH]; intros p entries Hne Hf Hs Hx Hpay.
  { destruct entries; [done|simpl in Hf; lia]. }
  destruct entries as [|e0 rest]; [done|]. cbn [construct_trie].
  destruct (common_path p e0 rest Hs Hx) as (Hn & Hq & Hpq & Hqe).
  set (n := common_prefix_len (name e0) (name (List.last (e0 :: rest) e0))) in *.
  set (q := take n (name e0)) in *.
  set (leaf := (length p <? n)%nat && (length (name e0) =? n)%nat).
  set (entries' := if leaf then rest else e0 :: rest).
  assert (Hsub : exists l, e0 :: rest = l ++ entries').
  { unfold entries'. destruct leaf; [by exists [e0]|by exists []]. }
  destruct Hsub as [l0 Hsub].
  assert (Hx' : Forall (extends q) entries') by (by apply descend).
  assert (Hs' : StronglySorted before entries') by (rewrite Hsub in Hs; by apply StronglySorted_app in Hs as (_ & _ & ?)).
  assert (Hpay' : Forall (fun e => payload_ok (e_flags e) (e_addr e)) entries')
    by (rewrite Hsub in Hpay; by apply Forall_app in Hpay as [_ ?]).
  destruct (construct_children_spec (fun sub => construct_trie fuel sub (length q)) q entries')
    with (fuel := length entries') (pre := @nil Entry) (entries := entries')
    as (cs & Ecs & H1 & H2 & H3 & H4 & _); [|done..|].
  { intros pre sub post c E Hsub0 Hc. apply IH; [done| | | |].
    - assert (L : (length pre + length sub + length post = length entries')%nat)
        by (rewrite E, !length_app; lia).
      unfold entries' in *. destruct leaf eqn:El; [simpl in *; lia|].
      destruct (decide (length sub = length (e0 :: rest))) as [Heq|]; [exfalso|simpl in *; lia].
      destruct pre; [|simpl in *; lia]. destruct post; [|simpl in *; lia].
      rewrite app_nil_r in E. simpl in E. subst sub. rewrite Forall_forall in Hc. rewrite Hq in Hc.
      apply (common_prefix_max (name e0) (name (List.last (e0 :: rest) e0)) c).
      + apply Hc. set_solver.
      + apply Hc. destruct (exists_last (l := e0 :: rest) ltac:(done)) as (l' & x & E). rewrite E, last_last. set_solver.
    - rewrite E in Hs'. apply StronglySorted_app in Hs' as (_ & _ & Hs'). by apply StronglySorted_app in Hs' as (_ & ? & _).
    - rewrite E, !Forall_app in Hx'. tauto.
    - rewrite E, !Forall_app in Hpay'. tauto. }
  rewrite Hq in Ecs. rewrite Ecs. cbn [mbind option_bind]. eexists. split; [done|].
  set (prf := if (length p <? n)%nat then take (n - length p) (drop (length p) (name e0)) else []).
  assert (Hprf : p ++ prf = q).
  { unfold prf. destruct (Nat.ltb_spec (length p) n).
    - unfold q. replace n with (length p + (n - length p))%nat at 2 by lia.
      rewrite <- take_take_drop. f_equal. symmetry. apply prefix_take.
      inversion Hx as [|?? He0]. by apply extends_prefix in He0 as [? _].
    - rewrite app_nil_r. by apply prefix_length_eq; [|lia]. }
  split; [|split].
  - rewrite entries_of_eq. cbn [prefix children flags addr is_leaf]. rewrite Hprf, H1.
    unfold entries'. destruct leaf eqn:El; [|done]. simpl. f_equal.
    apply andb_prop in El as [_ El%Nat.eqb_eq]. unfold q. rewrite take_ge by lia. by destruct e0.
  - rewrite nodes_eq. constructor; [|done]. split; [|split].
    + cbn [prefix]. inversion Hx as [|?? (c & s & E & Hc & Hcs)]; subst.
      assert (Hsuf : Forall is_char (drop (length p) (name e0))).
      { rewrite E, drop_app_length. by constructor. }
      unfold prf. destruct (_ <? _)%nat; [by apply Forall_take|constructor].
    + done.
    + cbn [flags addr]. inversion Hpay; subst. destruct leaf; [done|]. vm_compute. intuition congruence.
  - rewrite nodes_eq. by constructor.
Qed.

(** ** Layout is correct *)

(** The bytes [write_node] has to store. *)
Definition link_bytes (c : TrieNode) : bytes := prefix c ++ 0 :: uleb (offset c).

Definition node_bytes (t : TrieNode) : bytes :=
  (if is_leaf t then uleb (uleb_size (flags t) + uleb_size (addr t)) ++ uleb (flags t) ++ uleb (addr t)
   else [0])
  ++ zlen (children t) :: concat (map link_bytes (children t)).

(** Two trees of the same shape and contents; the second has offsets no greater. *)
#[warning="-register-all"]
Inductive le_offsets : TrieNode -> TrieNode -> Prop :=
  le_node p cs cs' a f o o' l : Forall2 le_offsets cs cs' -> 0 <= o' <= o -> is_u 32 o ->
    le_offsets (mkTrieNode p cs a f o l) (mkTrieNode p cs' a f o' l).

(** The loop over the children in [set_offset]. *)
Fixpoint set_offsets (off : Z) (cs : list TrieNode) (size : Z) : list TrieNode * Z :=
  match cs with
  | [] => ([], size)
  | c :: cs' =>
      ((set_offset c (off + size)).1 :: (set_offsets off cs' (size + (set_offset c (off + size)).2)).1,
       (set_offsets off cs' (size + (set_offset c (off + size)).2)).2)
  end.

Lemma set_offset_eq p cs a f o l off :
  let t := mkTrieNode p cs a f o l in
  set_offset t off =
    (mkTrieNode p (set_offsets off cs (node_size t)).1 a f (u32 off) l, (set_offsets off cs (node_size t)).2).
Proof.
  intros t. subst t. cbn [set_offset]. generalize (node_size (mkTrieNode p cs a f o l)). intros z.
  match goal with |- (let '(cs', size) := ?loop cs z in _) = _ =>
    assert (E : loop cs z = set_offsets off cs z) end.
  { revert z. induction cs as [|c cs IH]; intros z; [done|]. cbn [set_offsets].
    destruct (set_offset c (off + z)) as [c' s]. cbn [fst snd]. rewrite IH. by destruct (set_offsets off cs (z + s)). }
  rewrite E. by destruct (set_offsets off cs z).
Qed.

Lemma uleb_size_range v : 1 <= uleb_size v <= 9.
Proof.
  unfold uleb_size. destruct (list_find _ _) as [[i x]|] eqn:E; [|lia].
  apply list_find_Some in E as [E _]. apply list_elem_of_lookup_2, elem_of_seqZ in E. lia.
Qed.

Lemma uleb_size_mono v w : 0 <= v <= w -> w < 2 ^ 63 -> uleb_size v <= uleb_size w.
Proof.
  intros. rewrite !uleb_size_zlen by lia. apply zlen_uleb_mono; [lia|warith].
Qed.

Lemma links_size_pos (cs : list TrieNode) :
  0 <= foldr (fun c s => zlen (prefix c) + 1 + uleb_size (offset c) + s) 0 cs.
Proof.
  induction cs as [|c cs IH]; simpl; [lia|].
  pose proof (uleb_size_range (offset c)). pose proof (zlen_nonneg (prefix c)). lia.
Qed.

Lemma node_size_pos t : 2 <= node_size t.
Proof.
  unfold node_size. pose proof (links_size_pos (children t)). pose proof (uleb_size_range (flags t)).
  pose proof (uleb_size_range (uleb_size (flags t) + uleb_size (addr t))). pose proof (uleb_size_range (addr t)).
  cbv zeta. destruct (is_leaf t); lia.
Qed.

Lemma set_offset_size_pos t : forall off, 2 <= (set_offset t off).2.
Proof.
  induction t as [p cs a f o l IH] using trie_ind. intros off. rewrite set_offset_eq. cbn [snd].
  pose proof (node_size_pos (mkTrieNode p cs a f o l)) as H. revert H. generalize (node_size (mkTrieNode p cs a f o l)).
  induction IH as [|c cs Hc Hcs IH]; intros z Hz; [done|]. cbn [set_offsets snd].
  apply IH. specialize (Hc (off + z)). lia.
Qed.

Lemma set_offsets_ge off cs z : z <= (set_offsets off cs z).2.
Proof.
  revert z. induction cs as [|c cs IH]; intros z; simpl; [lia|].
  pose proof (set_offset_size_pos c (off + z)). specialize (IH (z + (set_offset c (off + z)).2)). lia.
Qed.

Lemma le_offsets_offset t u : le_offsets t u -> 0 <= offset u <= offset t /\ offset t < 2 ^ 32.
Proof. inversion 1; subst. cbn [offset]. warith. Qed.

Lemma le_offsets_prefix t u : le_offsets t u -> prefix t = prefix u.
Proof. by inversion 1. Qed.

Lemma node_size_le t u : le_offsets t u -> node_size u <= node_size t.
Proof.
  inversion 1 as [p cs cs' a f o o' l Hcs Ho Hu]; subst. unfold node_size. cbn [children flags addr is_leaf].
  assert (foldr (fun c s => zlen (prefix c) + 1 + uleb_size (offset c) + s) 0 cs' <=
          foldr (fun c s => zlen (prefix c) + 1 + uleb_size (offset c) + s) 0 cs); [|lia].
  clear H. induction Hcs as [|c d cs ds Hc Hcs IH]; simpl; [done|].
  rewrite (le_offsets_prefix _ _ Hc). destruct (le_offsets_offset _ _ Hc).
  pose proof (uleb_size_mono (offset d) (offset c) ltac:(lia) ltac:(lia)). lia.
Qed.

(** Starting from smaller offsets gives smaller offsets and sizes. *)
Lemma set_offset_mono t : forall u off off', le_offsets t u -> 0 <= off' <= off ->
  off + (set_offset t off).2 <= 2 ^ 32 ->
  le_offsets (set_offset t off).1 (set_offset u off').1 /\ (set_offset u off').2 <= (set_offset t off).2.
Proof.
  induction t as [p cs a f o l IH] using trie_ind. intros u off off' Hle Hoff Hb.
  pose proof (node_size_le _ _ Hle) as Hns. inversion Hle as [? ? ds ? ? ? o' ? Hcs Ho Hu]; subst.
  rewrite !set_offset_eq in *. cbn [fst snd] in *.
  pose proof (node_size_pos (mkTrieNode p ds a f o' l)) as Hpos.
  pose proof (node_size_pos (mkTrieNode p cs a f o l)) as Hpos'.
  set (z' := node_size (mkTrieNode p ds a f o' l)) in *. set (z := node_size (mkTrieNode p cs a f o l)) in *.
  assert (Hoff32 : off < 2 ^ 32) by (pose proof (set_offsets_ge off cs z); lia).
  assert (Hmain : Forall2 le_offsets (set_offsets off cs z).1 (set_offsets off' ds z').1 /\
          (set_offsets off' ds z').2 <= (set_offsets off cs z).2).
  { clear Hle. clearbody z z'. revert z z' Hns Hpos Hpos' Hb.
    induction Hcs as [|c d cs ds Hc Hcs IHl]; intros z z' Hns Hpos Hpos' Hb; [by split|].
    inversion IH as [|?? IHc IHcs]; subst. cbn [set_offsets fst snd] in *.
    pose proof (set_offsets_ge off cs (z + (set_offset c (off + z)).2)).
    pose proof (set_offset_size_pos c (off + z)). pose proof (set_offset_size_pos d (off' + z')).
    destruct (IHc d (off + z) (off' + z') Hc ltac:(lia) ltac:(lia)) as [M1 M2].
    destruct (IHl IHcs (z + (set_offset c (off + z)).2) (z' + (set_offset d (off' + z')).2)) as [H3 H4]; try lia.
    split; [by constructor|done]. }
  destruct Hmain as [H1 H2]. split; [|done]. unfold u32. rewrite !wrap_small by warith. by constructor; [|lia|warith].
Qed.

(** Fresh nodes have the greatest [u32] offset. *)
Lemma set_offset_fresh t : forall off, Forall fresh (nodes t) -> 0 <= off -> off + (set_offset t off).2 <= 2 ^ 32 ->
  le_offsets t (set_offset t off).1.
Proof.
  induction t as [p cs a f o l IH] using trie_ind. intros off Hf Hoff Hb.
  rewrite nodes_eq in Hf. inversion Hf as [|?? Hfo Hfc]; subst. unfold fresh in Hfo. cbn [offset children] in *.
  rewrite set_offset_eq in *. cbn [fst snd] in *.
  pose proof (node_size_pos (mkTrieNode p cs a f o l)) as Hpos.
  set (z := node_size (mkTrieNode p cs a f o l)) in *.
  assert (Hoff32 : off < 2 ^ 32) by (pose proof (set_offsets_ge off cs z); lia).
  constructor; [|unfold u32; rewrite wrap_small by warith; subst o; change empty_offset with (2 ^ 32 - 1); lia
    |subst o; by vm_compute].
  clearbody z. clear Hf Hfo. revert z Hpos Hb.
  induction IH as [|c cs IHc IH IHl]; intros z Hpos Hb; [constructor|]. cbn [set_offsets fst snd map concat] in *.
  apply Forall_app in Hfc as [Hf1 Hf2].
  pose proof (set_offsets_ge off cs (z + (set_offset c (off + z)).2)).
  pose proof (set_offset_size_pos c (off + z)). constructor.
  - apply IHc; [done|lia|lia].
  - apply IHl; [done|lia|lia].
Qed.

(** Nodes one after the other between [lo] and [hi]. *)
Fixpoint chunks (lo : Z) (l : list TrieNode) (hi : Z) : Prop :=
  match l with
  | [] => lo <= hi
  | n :: l' => lo <= offset n /\ chunks (offset n + zlen (node_bytes n)) l' hi
  end.

Lemma chunks_mono lo lo' l hi : lo' <= lo -> chunks lo l hi -> chunks lo' l hi.
Proof. destruct l; simpl; [lia|]. intros. split; [lia|tauto]. Qed.

Lemma chunks_app lo l1 mid l2 hi : chunks lo l1 mid -> chunks mid l2 hi -> chunks lo (l1 ++ l2) hi.
Proof.
  revert lo. induction l1 as [|n l1 IH]; intros lo H1 H2; simpl in *.
  - by apply (chunks_mono mid).
  - destruct H1. split; [done|]. by apply IH.
Qed.

(** A node's bytes fit in the size computed from the old offsets. *)
Lemma node_bytes_size t u : le_offsets t u -> node_ok u -> zlen (node_bytes u) <= node_size t.
Proof.
  inversion 1 as [p cs cs' a f o o' l Hcs Ho Hu]; subst. intros (_ & _ & Hf & Ha & _).
  unfold node_bytes, node_size. cbn [children flags addr is_leaf] in *.
  assert (HL : zlen (concat (map link_bytes cs')) <=
          foldr (fun c s => zlen (prefix c) + 1 + uleb_size (offset c) + s) 0 cs).
  { clear H. induction Hcs as [|c d cs ds Hc Hcs IH]; simpl; [done|].
    rewrite zlen_app. unfold link_bytes at 1. rewrite zlen_app. change (0 :: ?x) with ([0] ++ x). rewrite zlen_app.
    change (zlen [0]) with 1. rewrite (le_offsets_prefix _ _ Hc). destruct (le_offsets_offset _ _ Hc).
    pose proof (uleb_size_mono (offset d) (offset c) ltac:(lia) ltac:(lia)).
    rewrite <- (uleb_size_zlen (offset d)) by lia. lia. }
  rewrite zlen_app. change (?x :: concat ?y) with ([x] ++ concat y). rewrite zlen_app. change (zlen [_]) with 1.
  pose proof (uleb_size_range f). pose proof (uleb_size_range a).
  destruct l; [|change (zlen [0]) with 1; lia].
  rewrite !zlen_app, <- !uleb_size_zlen by lia. lia.
Qed.

Lemma set_offset_chunks t : forall off, 0 <= off -> le_offsets t (set_offset t off).1 ->
  Forall node_ok (nodes (set_offset t off).1) -> off + (set_offset t off).2 <= 2 ^ 32 ->
  chunks off (nodes (set_offset t off).1) (off + (set_offset t off).2).
Proof.
  induction t as [p cs a f o l IH] using trie_ind. intros off Hoff Hle Hok Hb.
  pose proof (node_size_pos (mkTrieNode p cs a f o l)) as Hpos. revert Hle Hok Hb.
  rewrite set_offset_eq. cbn [fst snd]. intros Hle Hok Hb. rewrite nodes_eq in *. inversion Hok as [|?? Hok1 Hok2]; subst.
  pose proof (node_bytes_size _ _ Hle Hok1) as Hsz.
  set (z := node_size (mkTrieNode p cs a f o l)) in *.
  assert (Hoff32 : off < 2 ^ 32) by (pose proof (set_offsets_ge off cs z); lia).
  cbn [chunks offset children] in *. unfold u32 in *. rewrite wrap_small in * by warith. split; [done|].
  eapply (chunks_mono (off + z)); [lia|].
  inversion Hle as [? ? ? ? ? ? ? ? Hcs]; subst. clear Hle Hok Hok1 Hsz. clearbody z. revert z Hpos Hb Hok2 Hcs.
  induction IH as [|c cs IHc IH IHl]; intros z Hpos Hb Hok2 Hcs; [simpl; lia|].
  cbn [set_offsets fst snd map concat] in *. inversion Hcs as [|? ? ? ? Hc Hcs']; subst.
  apply Forall_app in Hok2 as [Hk1 Hk2].
  pose proof (set_offsets_ge off cs (z + (set_offset c (off + z)).2)).
  pose proof (set_offset_size_pos c (off + z)).
  eapply chunks_app; [apply IHc; [lia|done|done|lia]|].
  rewrite <- Z.add_assoc. apply IHl; [lia|lia|done|done].
Qed.

(** Offsets do not change what a tree contains. *)
Lemma le_offsets_contents t : forall u pre, le_offsets t u ->
  entries_of pre t = entries_of pre u /\ (Forall node_ok (nodes t) -> Forall node_ok (nodes u)) /\
  length (nodes t) = length (nodes u).
Proof.
  induction t as [p cs a f o l IH] using trie_ind. intros u pre.
  inversion 1 as [? ? cs' ? ? ? o' ? Hcs _ _]; subst. clear H. rewrite !entries_of_eq, !nodes_eq.
  cbn [is_leaf prefix flags addr children length].
  assert (HH : concat (map (entries_of (pre ++ p)) cs) = concat (map (entries_of (pre ++ p)) cs') /\
    (Forall node_ok (concat (map nodes cs)) -> Forall node_ok (concat (map nodes cs'))) /\
    length (concat (map nodes cs)) = length (concat (map nodes cs')) /\ length cs = length cs').
  { induction Hcs as [|c d cs ds Hc Hcs IHl]; [done|]. inversion IH as [|?? IHc IHcs]; subst.
    destruct (IHc d (pre ++ p) Hc) as (E1 & E2 & E3). destruct (IHl IHcs) as (E4 & E5 & E6 & E7).
    cbn [map concat length]. rewrite E1, E4, !length_app, E3, E6, E7. repeat split; try done.
    rewrite !Forall_app. intuition. }
  destruct HH as (-> & H2 & H3 & H4). split; [done|]. split; [|lia].
  intros Hf. inversion Hf as [|?? Hn Hc]; subst. constructor; [|by apply H2].
  unfold node_ok, zlen in *. cbn [prefix children flags addr] in *. by rewrite <- H4.
Qed.

(** ** Writing is correct *)

Lemma length_overwrite buf i l : (i + length l <= length buf)%nat -> length (overwrite buf i l) = length buf.
Proof. intros. unfold overwrite. rewrite !length_app, length_take, length_drop. lia. Qed.

Lemma overwrite_app buf i l1 l2 : (i + length l1 + length l2 <= length buf)%nat ->
  overwrite (overwrite buf i l1) (i + length l1) l2 = overwrite buf i (l1 ++ l2).
Proof.
  intros. unfold overwrite. rewrite (app_assoc (take i buf)).
  rewrite take_app_le by (rewrite length_app, length_take; lia).
  rewrite take_ge by (rewrite length_app, length_take; lia).
  rewrite drop_app_ge by (rewrite length_app, length_take; lia).
  rewrite drop_drop, <- !app_assoc, !length_app, length_take. do 3 f_equal. f_equal. lia.
Qed.

(** [f] stores the bytes [l] at the pointer and advances it. *)
Definition stores (f : bytes -> nat -> option (bytes * nat)) (l : bytes) : Prop :=
  forall buf i, (i + length l <= length buf)%nat -> f buf i = Some (overwrite buf i l, (i + length l)%nat).

Lemma stores_bind f g l1 l2 : stores f l1 -> stores g l2 ->
  stores (fun buf i => '(buf, i) ← f buf i; g buf i) (l1 ++ l2).
Proof.
  intros Hf Hg buf i Hl. rewrite length_app in Hl. rewrite Hf by lia. cbn [mbind option_bind].
  rewrite Hg by (rewrite length_overwrite; lia). rewrite overwrite_app by lia.
  rewrite length_app. do 2 f_equal. lia.
Qed.

Lemma stores_bytes l : stores (fun buf i => store_bytes buf i l) l.
Proof.
  intros buf i. revert buf i. induction l as [|b l IH]; intros buf i Hl; simpl in *.
  - rewrite overwrite_nil, Nat.add_0_r. done.
  - unfold store_byte. rewrite decide_True by lia. cbn [mbind option_bind].
    rewrite IH by (rewrite length_insert; lia). rewrite overwrite_store by lia. do 2 f_equal. lia.
Qed.

Lemma stores_uleb v : is_u 64 v -> stores (fun buf i => write_uleb_at buf i v) (uleb v).
Proof. intros Hv buf i Hl. by apply write_uleb_loop_spec; [apply uleb_fits_u64|]. Qed.

Lemma stores_links cs : Forall (fun c => is_u 32 (offset c)) cs ->
  stores (fun buf i => write_links buf i cs) (concat (map link_bytes cs)).
Proof.
  induction 1 as [|c cs Hc Hcs IH]; [exact (stores_bytes [])|]. cbn [map concat write_links].
  unfold link_bytes at 1. change (0 :: uleb ?x) with ([0] ++ uleb x). rewrite app_assoc, <- app_assoc.
  apply (stores_bind (fun buf i => write_string buf i (prefix c))); [apply stores_bytes|].
  apply (stores_bind (fun buf i => write_uleb_at buf i (offset c))); [|done].
  apply stores_uleb. by apply (is_u_mono 32).
Qed.

Definition in_range (t : TrieNode) : Prop := 0 <= offset t < 2 ^ 31.

Lemma write_node_spec buf t : node_ok t -> Forall in_range (children t) ->
  (Z.to_nat (offset t) + length (node_bytes t) <= length buf)%nat ->
  write_node buf t = Some (overwrite buf (Z.to_nat (offset t)) (node_bytes t)).
Proof.
  intros (_ & Hn & Hf & Ha & _) Hr Hl. unfold write_node, u8, u64.
  pose proof (zlen_nonneg (children t)). rewrite (wrap_small 8) by warith.
  assert (Hh : stores (fun buf i => if is_leaf t then
       '(buf, i) ← write_uleb_at buf i (wrap 64 (uleb_size (flags t) + uleb_size (addr t)));
       '(buf, i) ← write_uleb_at buf i (flags t);
       write_uleb_at buf i (addr t)
     else store_bytes buf i [0])
    (if is_leaf t then uleb (uleb_size (flags t) + uleb_size (addr t)) ++ uleb (flags t) ++ uleb (addr t) else [0])).
  { destruct (is_leaf t); [|apply (stores_bytes [0])].
    pose proof (uleb_size_range (flags t)). pose proof (uleb_size_range (addr t)). rewrite wrap_small by warith.
    apply (stores_bind (fun buf i => write_uleb_at buf i _)); [apply stores_uleb; warith|].
    apply (stores_bind (fun buf i => write_uleb_at buf i _)); [apply stores_uleb; warith|].
    apply stores_uleb. warith. }
  assert (Hall : stores (fun buf i => '(buf, i) ← (if is_leaf t then
       '(buf, i) ← write_uleb_at buf i (wrap 64 (uleb_size (flags t) + uleb_size (addr t)));
       '(buf, i) ← write_uleb_at buf i (flags t);
       write_uleb_at buf i (addr t)
     else store_bytes buf i [0]);
     '(buf, i) ← store_bytes buf i [zlen (children t)]; write_links buf i (children t)) (node_bytes t)).
  { unfold node_bytes. change (zlen (children t) :: ?x) with ([zlen (children t)] ++ x).
    apply (stores_bind _ (fun buf i => '(buf, i) ← store_bytes buf i [zlen (children t)]; write_links buf i (children t)));
      [exact Hh|].
    apply (stores_bind (fun buf i => store_bytes buf i [zlen (children t)])); [apply stores_bytes|].
    apply stores_links. eapply Forall_impl; [exact Hr|]. unfold in_range. intros c Hc. warith. }
  specialize (Hall buf (Z.to_nat (offset t)) Hl). cbv beta in Hall. revert Hall.
  set (m := if is_leaf t then _ else _). destruct m as [[b1 i1]|]; [|done]. cbn [mbind option_bind].
  destruct (store_bytes b1 i1 _) as [[b2 i2]|]; [|done]. cbn [mbind option_bind].
  destruct (write_links b2 i2 _) as [[b3 i3]|]; [|done]. cbn [mbind option_bind]. by intros [= -> _].
Qed.

(** Writing a tree is writing its nodes in order. *)
Fixpoint write_nodes (buf : bytes) (l : list TrieNode) : option bytes :=
  match l with
  | [] => Some buf
  | n :: l' => buf' ← write_node buf n; write_nodes buf' l'
  end.

Lemma write_nodes_app buf l1 l2 : write_nodes buf (l1 ++ l2) = buf' ← write_nodes buf l1; write_nodes buf' l2.
Proof. revert buf. induction l1 as [|n l1 IH]; intros buf; simpl; [done|]. destruct (write_node buf n); [apply IH|done]. Qed.

Lemma write_trie_nodes t : forall buf, write_trie buf t = write_nodes buf (nodes t).
Proof.
  induction t as [p cs a f o l IH] using trie_ind. intros buf. rewrite nodes_eq. cbn [write_trie write_nodes children].
  destruct (write_node buf _) as [buf'|]; [|done]. cbn [mbind option_bind]. clear buf. revert buf'.
  induction IH as [|c cs Hc Hcs IH]; intros buf; [done|]. cbn [map concat].
  rewrite write_nodes_app, Hc. destruct (write_nodes buf (nodes c)) as [buf'|]; [|done]. cbn [mbind option_bind]. apply IH.
Qed.

(** The node's bytes are in the buffer at its offset. *)
Definition stored (buf : bytes) (n : TrieNode) : Prop :=
  take (length (node_bytes n)) (drop (Z.to_nat (offset n)) buf) = node_bytes n.

Lemma stored_take k buf buf' n : take k buf = take k buf' ->
  (Z.to_nat (offset n) + length (node_bytes n) <= k)%nat -> stored buf n -> stored buf' n.
Proof.
  unfold stored. intros E Hk H. rewrite <- H at 2. rewrite !take_drop_commute.
  replace (take (Z.to_nat (offset n) + length (node_bytes n)) buf')
    with (take (Z.to_nat (offset n) + length (node_bytes n)) buf); [done|].
  apply (f_equal (take (Z.to_nat (offset n) + length (node_bytes n)))) in E.
  by rewrite !take_take, !Nat.min_l in E by lia.
Qed.

Lemma write_nodes_spec l : forall lo buf hi, chunks lo l hi -> 0 <= lo -> hi <= zlen buf ->
  Forall node_ok l -> Forall (fun n => Forall in_range (children n)) l ->
  exists buf', write_nodes buf l = Some buf' /\ length buf' = length buf /\
    take (Z.to_nat lo) buf' = take (Z.to_nat lo) buf /\ Forall (stored buf') l.
Proof.
  induction l as [|n l IH]; intros lo buf hi Hc Hlo Hhi Hok Hr; [exists buf; auto|].
  destruct Hc as [Hn Hc]. inversion Hok; inversion Hr; subst. cbn [write_nodes].
  assert (Hend : offset n + zlen (node_bytes n) <= hi).
  { clear -Hc. revert Hc. generalize (offset n + zlen (node_bytes n)). induction l as [|m l IH]; intros z Hc; [done|].
    destruct Hc as [? Hc]. apply IH in Hc. pose proof (zlen_nonneg (node_bytes m)). lia. }
  unfold zlen in *. set (o := Z.to_nat (offset n)).
  rewrite write_node_spec by (try done; lia). cbn [mbind option_bind]. fold o.
  pose proof (length_overwrite buf o (node_bytes n) ltac:(unfold o; lia)) as HL.
  destruct (IH _ (overwrite buf o (node_bytes n)) hi Hc) as (buf' & E & L & T & S); [lia|rewrite HL; lia|done|done|].
  exists buf'. split; [done|]. split; [lia|]. rewrite Z2Nat.inj_add, Nat2Z.id in T by lia. fold o in T. split.
  - apply (f_equal (take (Z.to_nat lo))) in T. rewrite !take_take, !Nat.min_l in T by (unfold o; lia).
    rewrite T. unfold overwrite. rewrite take_app_le by (rewrite length_take; unfold o; lia).
    rewrite take_take, Nat.min_l by (unfold o; lia). done.
  - constructor; [|done]. eapply (stored_take (o + length (node_bytes n))); [symmetry; exact T|unfold o; lia|].
    unfold stored. fold o. unfold overwrite. rewrite drop_app_ge by (rewrite length_take; lia).
    rewrite length_take, Nat.min_l by (unfold o; lia). rewrite Nat.sub_diag, drop_0.
    by rewrite take_app_length.
Qed.

(** ** Reading is correct *)

Lemma read_terminal_spec f a sz pre rest : payload_ok f a -> 0 <= sz < 2 ^ 31 ->
  read_terminal (uleb sz ++ uleb f ++ uleb a ++ rest) pre = Some (pre, f, rest).
Proof.
  intros (Hf & Ha & E1 & E2) Hs. unfold read_terminal.
  rewrite read_uleb_uleb by done. cbn [mbind option_bind].
  rewrite read_uleb_uleb by done. cbn [mbind option_bind].
  unfold u32. rewrite wrap_small by warith. rewrite E1, E2. cbn [Z.eqb negb].
  by rewrite read_uleb_uleb.
Qed.

Definition add_all (st : exports_state) (es : list Entry) : exports_state :=
  foldl (fun st e => add_export st (name e) (e_flags e)) st es.

(** The offsets of the children differ from the node's own. *)
Definition links_ok (t : TrieNode) : Prop :=
  Forall (fun c => in_range c /\ offset c ≠ offset t) (children t).

Lemma node_bytes_pos t : 1 <= zlen (node_bytes t).
Proof. unfold node_bytes, zlen. rewrite length_app. simpl. lia. Qed.

Lemma read_trie_spec start t : forall fuel st pre, (length (nodes t) <= fuel)%nat ->
  Forall node_ok (nodes t) -> Forall links_ok (nodes t) -> Forall (stored start) (nodes t) ->
  read_trie fuel start st (offset t) (pre ++ prefix t) = Some (add_all st (entries_of pre t)).
Proof.
  induction t as [p cs a f o l IH] using trie_ind. intros fuel st pre Hfuel Hok Hl Hst.
  rewrite nodes_eq in *. rewrite entries_of_eq. cbn [offset prefix children flags addr is_leaf length] in *.
  inversion Hok as [|?? (_ & Hn & Hpay) Hok']; inversion Hl as [|?? Hlo Hl']; inversion Hst as [|?? Hs Hst']; subst.
  clear Hok Hl Hst. cbn [flags addr children] in *. unfold links_ok in Hlo. cbn [children offset] in Hlo.
  destruct fuel as [|fuel]; [lia|]. cbn [read_trie]. unfold stored in Hs. cbn [offset] in Hs.
  set (t := mkTrieNode p cs a f o l) in *. set (L := length (node_bytes t)) in *.
  rewrite <- (take_drop L (drop (Z.to_nat o) start)), Hs.
  generalize (drop L (drop (Z.to_nat o) start)). clear Hs. intros rest. subst L.
  assert (Hchildren : forall st', read_children (fun st off pre => read_trie fuel start st off pre) (length cs) o (pre ++ p)
      (concat (map link_bytes cs) ++ rest) st' = Some (add_all st' (concat (map (entries_of (pre ++ p)) cs)))).
  { clear Hn. assert (Hfu : (length (concat (map nodes cs)) <= fuel)%nat) by lia. clear Hfuel Hpay t.
    induction cs as [|c cs IHl]; intros st'; [done|].
    inversion IH as [|?? IHc IHcs]; subst. inversion Hlo as [|?? [Hr Hne] Hlo']; subst.
    cbn [map concat length read_children] in *. rewrite length_app in Hfu.
    apply Forall_app in Hok' as [Ok1 Ok2]. apply Forall_app in Hl' as [L1 L2]. apply Forall_app in Hst' as [S1 S2].
    unfold link_bytes at 1. rewrite <- !app_assoc. cbn [app]. rewrite take_cstr_app.
    2:{ rewrite nodes_eq in Ok1. inversion Ok1 as [|?? (Hch & _) _]; subst.
        eapply Forall_impl; [exact Hch|]. unfold is_char. lia. }
    cbn [mbind option_bind]. rewrite <- app_assoc, read_uleb_uleb by done. cbn [mbind option_bind].
    destruct (Z.eqb_spec (offset c) o); [done|].
    cbv beta. rewrite (app_assoc pre p), IHc by (done || lia). cbn [mbind option_bind].
    rewrite IHl by (done || lia). unfold add_all. by rewrite foldl_app. }
  unfold node_bytes, t. cbn [is_leaf flags addr children].
  pose proof (uleb_size_range f) as Hf. pose proof (uleb_size_range a) as Ha.
  destruct l; rewrite <- ?app_assoc; cbn [app].
  - set (sz := uleb_size f + uleb_size a) in *.
    assert (E : uleb sz = [sz]).
    { unfold uleb, leb_fuel. cbn [uleb_digits]. destruct (Z.ltb_spec sz 128); [done|lia]. }
    rewrite E at 1. cbn [app head mbind option_bind]. destruct (Z.eqb_spec sz 0); [lia|].
    rewrite read_terminal_spec by (done || lia). cbn [mbind option_bind head tail].
    unfold zlen. rewrite Nat2Z.id, Hchildren. unfold add_all. done.
  - cbn [head mbind option_bind Z.eqb tail]. unfold zlen. by rewrite Nat2Z.id, Hchildren.
Qed.

(** ** The encoder as a whole *)

Lemma trie_entry_ltb_asym a b : entry_ltb a b = true -> entry_ltb b a = false.
Proof. apply str_ltb_asym. Qed.

Lemma trie_entry_nltb_trans a b c : entry_ltb b a = false -> entry_ltb c b = false -> entry_ltb c a = false.
Proof. apply str_nltb_trans. Qed.

(** Distinct names make the sorted list strictly increasing. *)
Lemma sorted_before entries : NoDup (map name entries) -> StronglySorted before (stable_sort entry_ltb entries).
Proof.
  intros Hd. pose proof (stable_sort_sorted entry_ltb trie_entry_ltb_asym trie_entry_nltb_trans entries) as Hs.
  rewrite <- (stable_sort_perm entry_ltb entries) in Hd. revert Hd.
  induction Hs as [|e l Hs IH Hf]; intros Hd; [constructor|]. inversion Hd as [|?? Hn Hd']; subst.
  constructor; [by apply IH|]. rewrite Forall_forall in Hf |- *. intros x Hx. specialize (Hf x Hx).
  unfold before, entry_ltb in *. destruct (str_ltb (name e) (name x)) eqn:E; [done|].
  exfalso. apply Hn. rewrite (str_ltb_total _ _ E Hf). by apply (list_elem_of_fmap_2 name).
Qed.

Lemma entry_ok_extends e : entry_ok e -> extends [] e.
Proof.
  intros (Hne & Hok & _). unfold name_ok in Hok. destruct (name e) as [|c s] eqn:E; [done|].
  inversion Hok; subst. exists c, s. auto.
Qed.

Lemma make_root_spec t es : built [] es t ->
  built [] es (make_root t) /\ prefix (make_root t) = [].
Proof.
  intros (H1 & H2 & H3). unfold make_root. case_bool_decide as Hp; [done|]. split; [|done]. split; [|split].
  - rewrite entries_of_eq. cbn [is_leaf prefix children map concat]. by rewrite app_nil_r.
  - rewrite nodes_eq. cbn [children map concat]. rewrite app_nil_r. constructor; [|done].
    vm_compute. intuition congruence || constructor.
  - rewrite nodes_eq. cbn [children map concat]. rewrite app_nil_r. by constructor.
Qed.

Section Encoder.
Context (entries : list Entry).
Hypothesis nonempty : entries ≠ [].
Hypothesis entries_ok : Forall entry_ok entries.
Hypothesis distinct : NoDup (map name entries).

Local Abbreviation sorted := (stable_sort entry_ltb entries).

Lemma first_layout_spec : exists t0, built [] sorted t0 /\ prefix t0 = [] /\
  first_layout entries = Some (set_offset t0 0).
Proof using nonempty entries_ok distinct.
  pose proof (stable_sort_perm entry_ltb entries) as Hp.
  assert (Hok : Forall entry_ok sorted) by by rewrite Hp.
  destruct (construct_trie_spec (S (length sorted)) [] sorted) as (t & E & Hb).
  - intros E. rewrite E in Hp. by apply nonempty, Permutation_nil.
  - lia.
  - by apply sorted_before.
  - eapply Forall_impl; [exact Hok|apply entry_ok_extends].
  - eapply Forall_impl; [exact Hok|]. by intros e (_ & _ & ?).
  - destruct (make_root_spec t sorted Hb) as [Hb' Hpre]. exists (make_root t). split; [done|]. split; [done|].
    unfold first_layout. simpl length in E. by rewrite E.
Qed.

Hypothesis small : forall root size, first_layout entries = Some (root, size) -> size < 2 ^ 31.

(** The second layout: its nodes follow each other, hold the sorted entries,
    and take no more room than in the first. *)
Lemma finish_spec : exists root size size1, finish entries = Some (root, size) /\
  (exists root1, first_layout entries = Some (root1, size1)) /\ 0 <= size <= size1 /\ size1 < 2 ^ 31 /\
  entries_of [] root = sorted /\ Forall node_ok (nodes root) /\ prefix root = [] /\ offset root = 0 /\
  chunks 0 (nodes root) size.
Proof using nonempty entries_ok distinct small.
  destruct first_layout_spec as (t0 & (Ht1 & Ht2 & Ht3) & Hpre & E).
  unfold finish. rewrite E. destruct (set_offset t0 0) as [t1 size1] eqn:E1. cbn [mbind option_bind].
  pose proof (small _ _ E) as Hs.
  assert (Et1 : t1 = (set_offset t0 0).1) by by rewrite E1.
  assert (Es1 : size1 = (set_offset t0 0).2) by by rewrite E1.
  pose proof (set_offset_fresh t0 0 Ht3 ltac:(lia) ltac:(lia)) as H01.
  destruct (set_offset_mono t0 _ 0 0 H01 ltac:(lia) ltac:(lia)) as [H12 Hsz]. rewrite <- Et1 in *.
  destruct (le_offsets_contents _ _ [] H01) as (C1 & O1 & _). specialize (O1 Ht2).
  destruct (le_offsets_contents _ _ [] H12) as (C2 & O2 & _). specialize (O2 O1).
  exists (set_offset t1 0).1, (set_offset t1 0).2, size1. split; [by destruct (set_offset t1 0)|].
  split; [by exists t1|]. pose proof (set_offset_size_pos t1 0). split; [lia|]. split; [done|].
  split; [congruence|]. split; [done|]. split.
  { rewrite <- (le_offsets_prefix _ _ H12), <- (le_offsets_prefix _ _ H01). done. }
  split; [destruct t1; by rewrite set_offset_eq|].
  apply (set_offset_chunks t1 0); [lia|done|done|lia].
Qed.
End Encoder.

Lemma chunks_in lo l hi n : chunks lo l hi -> n ∈ l -> lo <= offset n /\ offset n + 1 <= hi.
Proof.
  revert lo. induction l as [|m l IH]; intros lo Hc Hn; [by apply elem_of_nil in Hn|].
  destruct Hc as [Hm Hc]. pose proof (node_bytes_pos m). apply elem_of_cons in Hn as [->|Hn].
  - split; [done|]. clear IH. revert H Hc. generalize (zlen (node_bytes m)). intros z Hz Hc.
    enough (offset m + z <= hi) by lia. revert Hc. generalize (offset m + z).
    induction l as [|k l IH]; intros y Hc; [done|]. destruct Hc as [? Hc]. pose proof (node_bytes_pos k).
    apply IH in Hc. lia.
  - destruct (IH _ Hc Hn). lia.
Qed.

Lemma chunks_length lo l hi : chunks lo l hi -> zlen l <= hi - lo.
Proof.
  revert lo. induction l as [|m l IH]; intros lo Hc; [simpl in Hc; change (zlen []) with 0; lia|].
  destruct Hc as [Hm Hc]. pose proof (node_bytes_pos m). apply IH in Hc. unfold zlen in *. simpl length. lia.
Qed.

Lemma chunks_split lo l1 l2 hi : chunks lo (l1 ++ l2) hi -> exists mid, chunks lo l1 mid /\ chunks mid l2 hi.
Proof.
  revert lo. induction l1 as [|m l1 IH]; intros lo Hc; [exists lo; split; [simpl; lia|done]|].
  destruct Hc as [Hm Hc]. destruct (IH _ Hc) as (mid & H1 & H2). by exists mid.
Qed.

Lemma child_in_nodes c cs : c ∈ cs -> c ∈ concat (map nodes cs).
Proof.
  intros Hc. apply list_elem_of_In, in_concat. exists (nodes c). split.
  - apply in_map. by apply list_elem_of_In.
  - rewrite nodes_eq. by left.
Qed.

Lemma chunks_links t : forall lo hi, 0 <= lo -> hi <= 2 ^ 31 -> chunks lo (nodes t) hi -> Forall links_ok (nodes t).
Proof.
  induction t as [p cs a f o l IH] using trie_ind. intros lo hi Hlo Hhi Hc. rewrite nodes_eq in *.
  destruct Hc as [Ho Hc]. cbn [children offset] in *. pose proof (node_bytes_pos (mkTrieNode p cs a f o l)).
  constructor.
  - apply Forall_forall. cbn [children offset]. intros c Hin%child_in_nodes.
    destruct (chunks_in _ _ _ _ Hc Hin). unfold in_range. lia.
  - assert (Hc' : exists mid, 0 <= mid /\ chunks mid (concat (map nodes cs)) hi) by (eexists; split; [|exact Hc]; lia).
    clear Hc H. induction IH as [|c cs IHc IH IHl]; [constructor|]. cbn [map concat] in *.
    destruct Hc' as (mid & Hm & Hc). apply chunks_split in Hc as (mid' & H1 & H2).
    assert (mid <= mid').
    { pose proof (chunks_length _ _ _ H1). pose proof (zlen_nonneg (nodes c)). lia. }
    assert (mid' <= hi).
    { pose proof (chunks_length _ _ _ H2). pose proof (zlen_nonneg (concat (map nodes cs))). lia. }
    apply Forall_app. split; [apply (IHc mid mid'); [lia|lia|done]|].
    apply IHl. exists mid'. split; [lia|done].
Qed.

(** Adding distinct names to an empty map. *)
Lemma add_all_distinct es st : NoDup (map name es) ->
  (forall e, e ∈ es -> exports st !! name e = None) ->
  add_all st es = mkExports (list_to_map (map (fun e => (name e, e_flags e)) es) ∪ exports st) (tls_errors st).
Proof.
  revert st. induction es as [|e es IH]; intros st Hd Hn.
  - simpl. rewrite (left_id_L ∅ (∪)). by destruct st.
  - inversion Hd as [|?? Hne Hd']; subst. unfold add_all. cbn [foldl map list_to_map foldr].
    unfold add_export at 2. rewrite Hn by (by left). cbn [default Z.eqb]. fold (add_all (mkExports (<[name e:=e_flags e]> (exports st)) (tls_errors st)) es).
    rewrite IH; [|done|].
    + cbn [exports tls_errors fst snd]. f_equal. rewrite <- insert_union_l, <- insert_union_r; [done|].
      apply not_elem_of_list_to_map_1. rewrite <- list_fmap_compose. done.
    + intros x Hx. cbn [exports]. rewrite lookup_insert_ne; [apply Hn; by right|].
      intros E. apply Hne. rewrite E. by apply (list_elem_of_fmap_2 name).
Qed.

(** C33: for distinct, non-empty names the encoder builds a tree that contains
    exactly the entries, in sorted order and each once; no node has more children
    than its one-byte child count can express. *)
Theorem finish_contents (entries : list Entry) :
  entries ≠ [] -> Forall entry_ok entries -> NoDup (map name entries) ->
  (forall root size, first_layout entries = Some (root, size) -> size < 2 ^ 31) ->
  exists root size, finish entries = Some (root, size) /\
    entries_of [] root = stable_sort entry_ltb entries /\
    stable_sort entry_ltb entries ≡ₚ entries /\
    Forall (fun n => zlen (children n) <= 255) (nodes root).
Proof.
  intros H1 H2 H3 H4. destruct (finish_spec entries H1 H2 H3 H4) as (root & size & size1 & E & _ & _ & _ & Hc & Hok & _).
  exists root, size. split; [done|]. split; [done|]. split; [apply stable_sort_perm|].
  eapply Forall_impl; [exact Hok|]. by intros n (_ & ? & _).
Qed.

Definition sample : list Entry :=
  [mkEntry (bs "_main") 0 4096; mkEntry (bs "_ma") 4 4100; mkEntry (bs "_x") 1 300; mkEntry (bs "_mab") 0 70000].

Lemma finish_contents_witness :
  exists root size, finish sample = Some (root, size) /\
    entries_of [] root = stable_sort entry_ltb sample /\
    stable_sort entry_ltb sample ≡ₚ sample /\
    Forall (fun n => zlen (children n) <= 255) (nodes root).
Proof.
  apply (finish_contents sample); [done|decided|decided|].
  intros root size E. vm_compute in E. injection E as _ <-. reflexivity.
Defined.

(** C32: a node's size depends on the offsets of its children, which are being
    computed. The two rounds of [set_offset] end in a sound layout: the second
    round never needs more room than the first, and the bytes of the nodes, with
    their final offsets, follow each other without overlap inside [0, size). *)
Theorem finish_layout (entries : list Entry) :
  entries ≠ [] -> Forall entry_ok entries -> NoDup (map name entries) ->
  (forall root size, first_layout entries = Some (root, size) -> size < 2 ^ 31) ->
  exists root1 size1 root size, first_layout entries = Some (root1, size1) /\
    finish entries = Some (root, size) /\ size <= size1 /\ offset root = 0 /\ chunks 0 (nodes root) size.
Proof.
  intros H1 H2 H3 H4.
  destruct (finish_spec entries H1 H2 H3 H4) as (root & size & size1 & E & (root1 & E1) & Hs & _ & _ & _ & _ & Ho & Hc).
  exists root1, size1, root, size. intuition.
Qed.

Lemma finish_layout_witness :
  exists root1 size1 root size, first_layout sample = Some (root1, size1) /\
    finish sample = Some (root, size) /\ size <= size1 /\ offset root = 0 /\ chunks 0 (nodes root) size.
Proof.
  apply (finish_layout sample); [done|decided|decided|].
  intros root size E. vm_compute in E. injection E as _ <-. reflexivity.
Defined.

(** C31: reading back the export section gives exactly the exported names with
    their flags, and no error: for distinct non-empty names without NUL and a trie
    below 2 GiB, the writer fills a section whose size is a multiple of eight, and
    [DylibFile::read_trie] terminates on it with the map of the entries. *)
Theorem export_roundtrip (entries : list Entry) :
  entries ≠ [] -> Forall entry_ok entries -> NoDup (map name entries) ->
  (forall root size, first_layout entries = Some (root, size) -> size < 2 ^ 31) ->
  exists buf, export_section entries = Some buf /\ zlen buf mod 8 = 0 /\
    forall fuel, (length buf <= fuel)%nat ->
      read_trie fuel buf (mkExports ∅ []) 0 [] =
        Some (mkExports (list_to_map (map (fun e => (name e, e_flags e)) entries)) []).
Proof.
  intros H1 H2 H3 H4.
  destruct (finish_spec entries H1 H2 H3 H4)
    as (root & size & size1 & E & _ & Hs & Hs1 & Hc & Hok & Hpre & Ho & Hch).
  destruct (align_to_bounds size 3 (2 ^ 31)) as [Hal Hm]; [lia|lia|warith|]. change (2 ^ 3) with 8 in *.
  pose proof (chunks_links root 0 size ltac:(lia) ltac:(lia) Hch) as Hlinks.
  assert (HL : zlen (replicate (Z.to_nat (align_to size 8)) 0) = align_to size 8)
    by (unfold zlen; rewrite length_replicate; lia).
  destruct (write_nodes_spec (nodes root) 0 (replicate (Z.to_nat (align_to size 8)) 0) size) as (buf & Ew & Hlen & _ & Hst);
    [done|lia|lia|done| |].
  { eapply Forall_impl; [exact Hlinks|]. intros n Hn. eapply Forall_impl; [exact Hn|]. simpl. tauto. }
  assert (Hzl : zlen buf = align_to size 8) by (unfold zlen in *; by rewrite Hlen).
  exists buf. split; [|split].
  - unfold export_section. destruct entries as [|e0 entries0]; [done|]. rewrite E. cbn [mbind option_bind].
    by rewrite write_trie_nodes.
  - by rewrite Hzl.
  - intros fuel Hf. pose proof (chunks_length _ _ _ Hch).
    pose proof (read_trie_spec buf root fuel (mkExports ∅ []) []) as Hread.
    rewrite Ho, Hpre in Hread. simpl app in Hread.
    rewrite Hread by (try done; unfold zlen in *; lia).
    pose proof (stable_sort_perm entry_ltb entries) as Hp.
    rewrite add_all_distinct; [|by rewrite Hc, Hp|done]. cbn [exports tls_errors].
    rewrite (right_id_L ∅ (∪)). do 2 f_equal. apply list_to_map_proper.
    + rewrite <- list_fmap_compose. rewrite Hc. change (NoDup (map name (stable_sort entry_ltb entries))). by rewrite Hp.
    + by rewrite Hc, Hp.
Qed.

Lemma export_roundtrip_witness :
  exists buf, export_section sample = Some buf /\ zlen buf mod 8 = 0 /\
    forall fuel, (length buf <= fuel)%nat ->
      read_trie fuel buf (mkExports ∅ []) 0 [] =
        Some (mkExports (list_to_map (map (fun e => (name e, e_flags e)) sample)) []).
Proof.
  apply (export_roundtrip sample); [done|decided|decided|].
  intros root size E. vm_compute in E. injection E as _ <-. reflexivity.
Defined.
