(* ===== verification/Layout.v ===== *)
(** * Structures in files

    The headers elf/elf.h and macho/macho.h describe file formats as C++
    structures of fixed-size integers, byte arrays and bit-fields that are laid
    over the mapped file. This file gives such declarations a meaning: a layout
    is the list of the members in order, [encode] is what storing to the members
    leaves in memory and [decode] what reading them yields, on a host of either
    byte order. The members have no alignment, so there is no padding. *)

From S2P Require Import Prelude Integers.

(** A member: an integer of integers.h, an array of bytes, or consecutive
    bit-fields that fill a storage unit of [unit] bytes ([None] is an unnamed
    bit-field). *)
Inductive member :=
| MInt (name : string) (f : int_field)
| MBytes (name : string) (n : nat)
| MBits (unit : nat) (l : list (option string * Z)).

Abbreviation layout := (list member) (only parsing).

(** A plain [u8]. *)
Definition MU8 (name : string) : member := MBits 1 [(Some name, 8)].

Inductive value := VInt (x : Z) | VBytes (l : bytes).

#[export] Instance value_eq_dec : EqDecision value.
Proof. solve_decision. Defined.

(** The contents of a structure: the value of each member. *)
Abbreviation contents := (string -> value) (only parsing).

(** ** Sizes and names *)

Definition member_size (m : member) : nat :=
  match m with MInt _ f => if_size f | MBytes _ n => n | MBits u _ => u end.

Definition sizeof (l : layout) : nat := sum_list_with member_size l.

Definition member_names (m : member) : list string :=
  match m with MInt n _ | MBytes n _ => [n] | MBits _ l => omap fst l end.

Definition names (l : layout) : list string := concat (map member_names l).

(** ** Bit-fields

    A little-endian host gives the first bit-field the least significant bits,
    a big-endian host the most significant ones. [pack] and [unpack] go from the
    least significant end. *)

Definition bit_order (h : endian) (l : list (option string * Z)) : list (option string * Z) :=
  match h with little => l | big => reverse l end.

Definition int_of (v : value) : Z := match v with VInt x => x | VBytes _ => 0 end.

Fixpoint pack (env : contents) (l : list (option string * Z)) : Z :=
  match l with
  | [] => 0
  | (n, w) :: l' =>
      (match n with Some n => wrap w (int_of (env n)) | None => 0 end) + 2 ^ w * pack env l'
  end.

Fixpoint unpack (x : Z) (l : list (option string * Z)) : list (string * value) :=
  match l with
  | [] => []
  | (n, w) :: l' =>
      (match n with Some n => [(n, VInt (wrap w x))] | None => [] end) ++ unpack (x / 2 ^ w) l'
  end.

(** ** Storing and reading *)

Definition encode_member (h : endian) (env : contents) (m : member) : option bytes :=
  match m with
  | MInt n f => match env n with VInt x => write_int h f x | VBytes _ => None end
  | MBytes n k => match env n with VBytes l => if decide (length l = k) then Some l else None | VInt _ => None end
  | MBits u l => Some (host_store h u (pack env (bit_order h l)))
  end.

Fixpoint encode (h : endian) (l : layout) (env : contents) : option bytes :=
  match l with
  | [] => Some []
  | m :: l' => b ← encode_member h env m; b' ← encode h l' env; Some (b ++ b')
  end.

Definition decode_member (h : endian) (m : member) (b : bytes) : option (list (string * value)) :=
  match m with
  | MInt n f => x ← read_int h f b; Some [(n, VInt x)]
  | MBytes n _ => Some [(n, VBytes b)]
  | MBits u l => Some (unpack (host_load h b) (bit_order h l))
  end.

Fixpoint decode (h : endian) (l : layout) (b : bytes) : option (list (string * value)) :=
  match l with
  | [] => Some []
  | m :: l' =>
      if decide (member_size m <= length b)%nat then
        kv ← decode_member h m (take (member_size m) b);
        kv' ← decode h l' (drop (member_size m) b);
        Some (kv ++ kv')
      else None
  end.

(** ** Well-formed layouts and contents *)

Definition widths (l : list (option string * Z)) : Z := foldr (fun '(_, w) s => w + s) 0 l.

Definition member_wf (m : member) : Prop :=
  match m with
  | MInt _ f => f ∈ typedefs
  | MBytes _ _ => True
  | MBits u l => Forall (fun '(_, w) => 0 < w) l /\ widths l = 8 * Z.of_nat u
  end.

Definition layout_wf (l : layout) : Prop := Forall member_wf l /\ NoDup (names l).

#[export] Instance int_type_eq_dec : EqDecision int_type.
Proof. solve_decision. Defined.
#[export] Instance int_field_eq_dec : EqDecision int_field.
Proof. solve_decision. Defined.
#[export] Instance member_wf_dec m : Decision (member_wf m).
Proof. destruct m; simpl; apply _. Defined.
#[export] Instance layout_wf_dec l : Decision (layout_wf l).
Proof. unfold layout_wf. apply _. Defined.

(** The members have values they can hold. *)
Definition bits_ok (env : contents) (l : list (option string * Z)) : Prop :=
  Forall (fun '(n, w) => match n with Some n => exists x, env n = VInt x /\ is_u w x | None => True end) l.

Definition member_ok (env : contents) (m : member) : Prop :=
  match m with
  | MInt n f => exists x, env n = VInt x /\ field_holds f x
  | MBytes n k => exists l, env n = VBytes l /\ length l = k /\ all_bytes l
  | MBits _ l => bits_ok env l
  end.

Definition contents_ok (env : contents) (l : layout) : Prop := Forall (member_ok env) l.

(** ** Round trip *)

Lemma widths_app l1 l2 : widths (l1 ++ l2) = widths l1 + widths l2.
Proof. induction l1 as [|[n w] l1 IH]; simpl; [done|]. rewrite IH. lia. Qed.

Lemma widths_reverse l : widths (reverse l) = widths l.
Proof.
  induction l as [|[n w] l IH]; [done|]. rewrite reverse_cons, widths_app, IH. simpl. lia.
Qed.

Lemma widths_nonneg l : Forall (fun '(_, w) => 0 < w) l -> 0 <= widths l.
Proof. induction 1 as [|[n w] l Hw Hl IH]; simpl; lia. Qed.

Lemma pack_range env l : Forall (fun '(_, w) => 0 < w) l -> is_u (widths l) (pack env l).
Proof.
  induction 1 as [|[n w] l Hw Hl IH]; [unfold is_u; simpl; lia|]. simpl. unfold is_u in *.
  pose proof (widths_nonneg l Hl). rewrite Z.pow_add_r by lia.
  assert (0 <= match n with Some n => wrap w (int_of (env n)) | None => 0 end < 2 ^ w).
  { destruct n; [apply wrap_range; lia|]. pose proof (Z.pow_pos_nonneg 2 w). lia. }
  nia.
Qed.

Lemma unpack_pack env l : Forall (fun '(_, w) => 0 < w) l -> bits_ok env l ->
  unpack (pack env l) l = map (fun n => (n, env n)) (omap fst l).
Proof.
  induction 1 as [|[n w] l Hw Hl IH]; intros Hok; [done|]. inversion Hok as [|?? Hn Hok']; subst.
  cbn [unpack pack]. pose proof (Z.pow_pos_nonneg 2 w ltac:(lia) ltac:(lia)).
  set (x := match n with Some n => wrap w (int_of (env n)) | None => 0 end).
  assert (Hx : is_u w x) by (unfold x; destruct n; [apply wrap_range; lia|unfold is_u; lia]).
  assert (E : (x + 2 ^ w * pack env l) / 2 ^ w = pack env l).
  { rewrite (Z.mul_comm (2 ^ w)), Z.div_add by lia. rewrite Z.div_small by apply Hx. lia. }
  rewrite E, IH by done. destruct n as [n|]; [|done]. cbn [omap list_omap fst map app].
  destruct Hn as (y & Ey & Hy). f_equal. f_equal. rewrite Ey. f_equal.
  unfold wrap at 1. rewrite (Z.mul_comm (2 ^ w)), Z_mod_plus_full, Z.mod_small by apply Hx.
  unfold x. rewrite Ey. simpl. by apply wrap_small.
Qed.

Lemma host_load_store h n x : is_u (8 * Z.of_nat n) x -> host_load h (host_store h n x) = x.
Proof.
  intros Hx. destruct h; simpl; unfold be_load, be_store; rewrite ?reverse_involutive, le_load_store;
    by apply wrap_small.
Qed.

Lemma length_host_store h n x : length (host_store h n x) = n.
Proof. destruct h; simpl; [apply length_le_store|apply length_be_store]. Qed.

Lemma host_store_bytes h n x : all_bytes (host_store h n x).
Proof. destruct h; simpl; unfold be_store; auto with linker. Qed.

Lemma bits_ok_order h env l : bits_ok env l -> bits_ok env (bit_order h l).
Proof. destruct h; simpl; [done|]. apply Forall_reverse. Qed.

Lemma widths_order h l : widths (bit_order h l) = widths l.
Proof. destruct h; simpl; [done|apply widths_reverse]. Qed.

Lemma positive_order h l : Forall (fun '(_, w) => 0 < w) l -> Forall (fun '(_, w) => 0 < w) (bit_order h l : list (option string * Z)).
Proof. destruct h; simpl; [done|]. apply Forall_reverse. Qed.

(** The members in the order in which the host reads them. *)
Definition host_names (h : endian) (m : member) : list string :=
  match m with MBits _ l => omap fst (bit_order h l) | _ => member_names m end.

Lemma member_roundtrip h m env : member_wf m -> member_ok env m ->
  exists b, encode_member h env m = Some b /\ length b = member_size m /\ all_bytes b /\
    decode_member h m b = Some (map (fun n => (n, env n)) (host_names h m)).
Proof.
  destruct m as [n f|n k|u l]; simpl; intros Hwf Hok.
  - destruct Hok as (x & -> & Hx). exists (spec_write f x).
    rewrite write_int_spec, read_int_spec by auto using spec_write_bytes, length_spec_write.
    rewrite spec_read_write by done. auto using spec_write_bytes, length_spec_write.
  - destruct Hok as (l & -> & Hl & Hb). exists l. rewrite decide_True by done. auto.
  - destruct Hwf as [Hw Hs]. eexists. split; [done|]. split; [apply length_host_store|].
    split; [apply host_store_bytes|].
    pose proof (pack_range env _ (positive_order h l Hw)) as Hr. rewrite widths_order, Hs in Hr.
    rewrite host_load_store by done. rewrite unpack_pack; [done|by apply positive_order|by apply bits_ok_order].
Qed.

Lemma layout_roundtrip h l env : Forall member_wf l -> contents_ok env l ->
  exists b, encode h l env = Some b /\ length b = sizeof l /\ all_bytes b /\
    decode h l b = Some (map (fun n => (n, env n)) (concat (map (host_names h) l))).
Proof.
  intros Hwf Hok. induction Hwf as [|m l Hm Hl IH]; [by exists []|]. inversion Hok as [|?? Hm' Hl']; subst.
  destruct (member_roundtrip h m env Hm Hm') as (b & E1 & L1 & A1 & D1).
  destruct (IH Hl') as (b' & E2 & L2 & A2 & D2).
  exists (b ++ b'). cbn [encode decode sizeof sum_list_with map concat]. rewrite E1, E2. cbn [mbind option_bind].
  split; [done|]. split; [rewrite length_app; unfold sizeof in L2; lia|]. split; [by apply Forall_app|].
  rewrite decide_True by (rewrite length_app; lia). rewrite <- L1, take_app_length, drop_app_length, D1.
  cbn [mbind option_bind]. rewrite D2. cbn [mbind option_bind]. by rewrite map_app.
Qed.

(** The bytes of the first members come first. *)
Lemma encode_app h l1 l2 env b : Forall member_wf l1 -> contents_ok env l1 -> encode h (l1 ++ l2) env = Some b ->
  exists b1 b2, b = b1 ++ b2 /\ length b1 = sizeof l1 /\ encode h l2 env = Some b2.
Proof.
  intros Hwf. revert b. induction Hwf as [|m l Hm Hl IH]; intros b Hok E.
  - exists [], b. auto.
  - inversion Hok as [|?? Hm' Hl']; subst. destruct (member_roundtrip h m env Hm Hm') as (b0 & E0 & L0 & _ & _).
    cbn [app encode] in E. rewrite E0 in E. cbn [mbind option_bind] in E.
    destruct (encode h (l ++ l2) env) as [b'|]; [|done]. injection E as <-.
    destruct (IH b' Hl' eq_refl) as (b1 & b2 & -> & L1 & E2). exists (b0 ++ b1), b2.
    rewrite app_assoc, length_app. unfold sizeof in *. simpl. auto with lia.
Qed.

(** ** Layouts written for both hosts

    Integers of integers.h and byte arrays are the same on every host. A byte of
    bit-fields is the same when the declaration for the other host lists the
    bit-fields in the opposite order. *)

Definition mirror (m : member) : member :=
  match m with MBits u l => MBits u (reverse l) | _ => m end.

Definition single_byte (m : member) : Prop := match m with MBits u _ => u = 1%nat | _ => True end.

#[export] Instance single_byte_dec m : Decision (single_byte m).
Proof. destruct m; simpl; apply _. Defined.

Definition for_host (h : endian) (l : layout) : layout :=
  match h with little => l | big => map mirror l end.

Lemma encode_for_host h l env : Forall member_wf l -> Forall single_byte l ->
  encode h (for_host h l) env = encode little l env.
Proof.
  destruct h; [done|]. simpl. induction 1 as [|m l Hm Hl IH]; intros Hs; [done|].
  inversion Hs; subst. cbn [map encode]. rewrite IH by done.
  enough (encode_member big env (mirror m) = encode_member little env m) as -> by done.
  destruct m as [n f|n k|u fl]; simpl in *.
  - destruct (env n); [|done]. by rewrite !write_int_spec.
  - done.
  - subst u. rewrite reverse_involutive. unfold be_store. simpl. done.
Qed.

Lemma host_names_for_host h l : concat (map (host_names h) (for_host h l)) = names l.
Proof.
  destruct h; unfold names, for_host.
  - f_equal. apply map_ext. intros []; done.
  - rewrite map_map. f_equal. apply map_ext. intros [| |u fl]; simpl; [done..|]. by rewrite reverse_involutive.
Qed.

Lemma sizeof_for_host h l : sizeof (for_host h l) = sizeof l.
Proof.
  destruct h; [done|]. unfold sizeof. simpl. induction l as [|m l IH]; [done|].
  cbn [map sum_list_with]. rewrite IH. by destruct m.
Qed.

Lemma wf_for_host h l : Forall member_wf l -> Forall member_wf (for_host h l).
Proof.
  destruct h; [done|]. simpl. intros Hl. apply Forall_map. eapply Forall_impl; [exact Hl|].
  intros [| |u fl]; simpl; [done..|]. intros [H1 H2]. split; [by apply Forall_reverse|by rewrite widths_reverse].
Qed.

Lemma ok_for_host h env l : contents_ok env l -> contents_ok env (for_host h l).
Proof.
  destruct h; [done|]. intros Hl. apply Forall_map. eapply Forall_impl; [exact Hl|].
  intros [| |u fl]; simpl; [done..|]. apply Forall_reverse.
Qed.

(** One machine writes, another reads. *)
Lemma portable_roundtrip writer reader l env : Forall member_wf l -> Forall single_byte l -> contents_ok env l ->
  exists b, encode writer (for_host writer l) env = Some b /\ length b = sizeof l /\ all_bytes b /\
    encode reader (for_host reader l) env = Some b /\
    decode reader (for_host reader l) b = Some (map (fun n => (n, env n)) (names l)).
Proof.
  intros Hwf Hs Hok.
  destruct (layout_roundtrip reader (for_host reader l) env) as (b & E & L & A & D);
    [by apply wf_for_host|by apply ok_for_host|].
  rewrite encode_for_host in E by done. rewrite sizeof_for_host in L. rewrite host_names_for_host in D.
  exists b. rewrite !encode_for_host by done. auto.
Qed.
