(* ===== verification/Enums.v ===== *)
(** * Enumerations

    An [enum] of a header is the list of its enumerators with their values; a
    [switch] over some of them that returns their names is [switch_name]. The
    tables of elf/elf.h, elf/elf.cc and macho/macho.h are written in these terms. *)

From stdpp Require Import pretty.
From S2P Require Import Prelude.

Abbreviation enum := (list (string * Z)) (only parsing).

(** The value of an enumerator. *)
Definition enumerator (e : enum) (n : string) : option Z :=
  snd ∘ snd <$> list_find (fun x => x.1 = n) e.

(** The number an enumerator stands for. *)
Definition constant (e : list (string * Z)) (n : string) : Z := default (-1) (enumerator e n).

(** [switch (r) { case n: return "n"; ... }] over the listed enumerators. *)
Definition switch_name (e : enum) (cases : list string) (r : Z) : option string :=
  snd <$> list_find (fun n => enumerator e n = Some r) cases.

(** [std::to_string] of an unsigned number. *)
Definition to_string (r : Z) : string := pretty (Z.to_N r).

Lemma enumerator_elem e n r : enumerator e n = Some r -> (n, r) ∈ e.
Proof.
  unfold enumerator. destruct (list_find _ e) as [[i [n' r']]|] eqn:E; [|done].
  apply list_find_Some in E as (El & Hn & _). simpl in *. intros [= ->]. subst n'.
  by eapply list_elem_of_lookup_2.
Qed.

(** The switch with its labels evaluated. *)
Definition resolve (e : enum) (cases : list string) : enum :=
  omap (fun n => (fun v => (n, v)) <$> enumerator e n) cases.

Definition find_value (l : enum) (r : Z) : option string := fst ∘ snd <$> list_find (fun x => x.2 = r) l.

Lemma switch_resolve e cases r : switch_name e cases r = find_value (resolve e cases) r.
Proof.
  unfold switch_name, find_value. induction cases as [|n cases IH]; [done|]. cbn [list_find resolve omap list_omap].
  destruct (enumerator e n) as [v|] eqn:E; cbn [fmap option_fmap option_map].
  - cbn [list_find]. case_decide as H; [injection H as ->; by rewrite decide_True|].
    rewrite decide_False by (simpl; congruence). unfold resolve in IH.
    destruct (list_find _ cases) as [[]|], (list_find _ (omap _ cases)) as [[]|]; done.
  - rewrite decide_False by done. unfold resolve in IH. unfold list_omap in *.
    destruct (list_find _ cases) as [[]|]; done.
Qed.

