(* ===== verification/ElfTypes.v ===== *)
(** * ELF targets and file structures (src/elf/elf.h)

    The machine descriptions (the [struct]s of static constants that the linker's
    templates take as their parameter [E]) and the structures of ELF files as
    layouts. The theorems say that the structures have the sizes and the bit
    positions of the ELF specification and hold the same bytes whatever the byte
    order of the host, and that a target's dynamic relocation types can be told
    apart. *)

From S2P Require Import Prelude Integers Layout Enums ElfConst.

#[local] Open Scope string_scope.
#[local] Open Scope list_scope.
#[local] Open Scope Z_scope.

(** ** Machine descriptions *)

(** A constant that a target does not define is [None]; the code asks for it with
    [requires]. *)
Record target := mkTarget {
  target_name : string; is_64 : bool; is_le : bool; is_rela : bool;
  page_size : Z; e_machine : Z;
  plt_hdr_size : Z; plt_size : option Z; pltgot_size : Z;
  thunk_hdr_size : option Z; thunk_size : option Z;
  R_COPY : Z; R_GLOB_DAT : Z; R_JUMP_SLOT : Z; R_ABS : Z; R_RELATIVE : Z;
  R_DTPOFF : Z; R_TPOFF : Z; R_DTPMOD : Z;
  R_IRELATIVE : option Z; R_TLSDESC : option Z }.

Definition target_X86_64 : target :=
  {| target_name := "x86_64"; is_64 := true; is_le := true; is_rela := true;
     page_size := 4096; e_machine := constant EM "EM_X86_64";
     plt_hdr_size := 32; plt_size := Some 16; pltgot_size := 16;
     thunk_hdr_size := None; thunk_size := None;
     R_COPY := constant R_X86_64 "R_X86_64_COPY"; R_GLOB_DAT := constant R_X86_64 "R_X86_64_GLOB_DAT";
     R_JUMP_SLOT := constant R_X86_64 "R_X86_64_JUMP_SLOT"; R_ABS := constant R_X86_64 "R_X86_64_64";
     R_RELATIVE := constant R_X86_64 "R_X86_64_RELATIVE"; R_DTPOFF := constant R_X86_64 "R_X86_64_DTPOFF64";
     R_TPOFF := constant R_X86_64 "R_X86_64_TPOFF64"; R_DTPMOD := constant R_X86_64 "R_X86_64_DTPMOD64";
     R_IRELATIVE := Some (constant R_X86_64 "R_X86_64_IRELATIVE"); R_TLSDESC := Some (constant R_X86_64 "R_X86_64_TLSDESC") |}.

Definition target_I386 : target :=
  {| target_name := "i386"; is_64 := false; is_le := true; is_rela := false;
     page_size := 4096; e_machine := constant EM "EM_386";
     plt_hdr_size := 16; plt_size := Some 16; pltgot_size := 16;
     thunk_hdr_size := None; thunk_size := None;
     R_COPY := constant R_386 "R_386_COPY"; R_GLOB_DAT := constant R_386 "R_386_GLOB_DAT";
     R_JUMP_SLOT := constant R_386 "R_386_JUMP_SLOT"; R_ABS := constant R_386 "R_386_32";
     R_RELATIVE := constant R_386 "R_386_RELATIVE"; R_DTPOFF := constant R_386 "R_386_TLS_DTPOFF32";
     R_TPOFF := constant R_386 "R_386_TLS_TPOFF"; R_DTPMOD := constant R_386 "R_386_TLS_DTPMOD32";
     R_IRELATIVE := Some (constant R_386 "R_386_IRELATIVE"); R_TLSDESC := Some (constant R_386 "R_386_TLS_DESC") |}.

Definition target_ARM64 : target :=
  {| target_name := "arm64"; is_64 := true; is_le := true; is_rela := true;
     page_size := 65536; e_machine := constant EM "EM_AARCH64";
     plt_hdr_size := 32; plt_size := Some 16; pltgot_size := 16;
     thunk_hdr_size := Some 0; thunk_size := Some 12;
     R_COPY := constant R_AARCH64 "R_AARCH64_COPY"; R_GLOB_DAT := constant R_AARCH64 "R_AARCH64_GLOB_DAT";
     R_JUMP_SLOT := constant R_AARCH64 "R_AARCH64_JUMP_SLOT"; R_ABS := constant R_AARCH64 "R_AARCH64_ABS64";
     R_RELATIVE := constant R_AARCH64 "R_AARCH64_RELATIVE"; R_DTPOFF := constant R_AARCH64 "R_AARCH64_TLS_DTPREL64";
     R_TPOFF := constant R_AARCH64 "R_AARCH64_TLS_TPREL64"; R_DTPMOD := constant R_AARCH64 "R_AARCH64_TLS_DTPMOD64";
     R_IRELATIVE := Some (constant R_AARCH64 "R_AARCH64_IRELATIVE"); R_TLSDESC := Some (constant R_AARCH64 "R_AARCH64_TLSDESC") |}.

Definition target_ARM32 : target :=
  {| target_name := "arm32"; is_64 := false; is_le := true; is_rela := false;
     page_size := 4096; e_machine := constant EM "EM_ARM";
     plt_hdr_size := 32; plt_size := Some 16; pltgot_size := 16;
     thunk_hdr_size := Some 12; thunk_size := Some 20;
     R_COPY := constant R_ARM "R_ARM_COPY"; R_GLOB_DAT := constant R_ARM "R_ARM_GLOB_DAT";
     R_JUMP_SLOT := constant R_ARM "R_ARM_JUMP_SLOT"; R_ABS := constant R_ARM "R_ARM_ABS32";
     R_RELATIVE := constant R_ARM "R_ARM_RELATIVE"; R_DTPOFF := constant R_ARM "R_ARM_TLS_DTPOFF32";
     R_TPOFF := constant R_ARM "R_ARM_TLS_TPOFF32"; R_DTPMOD := constant R_ARM "R_ARM_TLS_DTPMOD32";
     R_IRELATIVE := Some (constant R_ARM "R_ARM_IRELATIVE"); R_TLSDESC := Some (constant R_ARM "R_ARM_TLS_DESC") |}.

Definition target_RV64LE : target :=
  {| target_name := "riscv64"; is_64 := true; is_le := true; is_rela := true;
     page_size := 4096; e_machine := constant EM "EM_RISCV";
     plt_hdr_size := 32; plt_size := Some 16; pltgot_size := 16;
     thunk_hdr_size := None; thunk_size := None;
     R_COPY := constant R_RISCV "R_RISCV_COPY"; R_GLOB_DAT := constant R_RISCV "R_RISCV_64";
     R_JUMP_SLOT := constant R_RISCV "R_RISCV_JUMP_SLOT"; R_ABS := constant R_RISCV "R_RISCV_64";
     R_RELATIVE := constant R_RISCV "R_RISCV_RELATIVE"; R_DTPOFF := constant R_RISCV "R_RISCV_TLS_DTPREL64";
     R_TPOFF := constant R_RISCV "R_RISCV_TLS_TPREL64"; R_DTPMOD := constant R_RISCV "R_RISCV_TLS_DTPMOD64";
     R_IRELATIVE := Some (constant R_RISCV "R_RISCV_IRELATIVE"); R_TLSDESC := None |}.

Definition target_RV64BE : target :=
  {| target_name := "riscv64be"; is_64 := true; is_le := false; is_rela := true;
     page_size := 4096; e_machine := constant EM "EM_RISCV";
     plt_hdr_size := 32; plt_size := Some 16; pltgot_size := 16;
     thunk_hdr_size := None; thunk_size := None;
     R_COPY := constant R_RISCV "R_RISCV_COPY"; R_GLOB_DAT := constant R_RISCV "R_RISCV_64";
     R_JUMP_SLOT := constant R_RISCV "R_RISCV_JUMP_SLOT"; R_ABS := constant R_RISCV "R_RISCV_64";
     R_RELATIVE := constant R_RISCV "R_RISCV_RELATIVE"; R_DTPOFF := constant R_RISCV "R_RISCV_TLS_DTPREL64";
     R_TPOFF := constant R_RISCV "R_RISCV_TLS_TPREL64"; R_DTPMOD := constant R_RISCV "R_RISCV_TLS_DTPMOD64";
     R_IRELATIVE := Some (constant R_RISCV "R_RISCV_IRELATIVE"); R_TLSDESC := None |}.

Definition target_RV32LE : target :=
  {| target_name := "riscv32"; is_64 := false; is_le := true; is_rela := true;
     page_size := 4096; e_machine := constant EM "EM_RISCV";
     plt_hdr_size := 32; plt_size := Some 16; pltgot_size := 16;
     thunk_hdr_size := None; thunk_size := None;
     R_COPY := constant R_RISCV "R_RISCV_COPY"; R_GLOB_DAT := constant R_RISCV "R_RISCV_32";
     R_JUMP_SLOT := constant R_RISCV "R_RISCV_JUMP_SLOT"; R_ABS := constant R_RISCV "R_RISCV_32";
     R_RELATIVE := constant R_RISCV "R_RISCV_RELATIVE"; R_DTPOFF := constant R_RISCV "R_RISCV_TLS_DTPREL32";
     R_TPOFF := constant R_RISCV "R_RISCV_TLS_TPREL32"; R_DTPMOD := constant R_RISCV "R_RISCV_TLS_DTPMOD32";
     R_IRELATIVE := Some (constant R_RISCV "R_RISCV_IRELATIVE"); R_TLSDESC := None |}.

Definition target_RV32BE : target :=
  {| target_name := "riscv32be"; is_64 := false; is_le := false; is_rela := true;
     page_size := 4096; e_machine := constant EM "EM_RISCV";
     plt_hdr_size := 32; plt_size := Some 16; pltgot_size := 16;
     thunk_hdr_size := None; thunk_size := None;
     R_COPY := constant R_RISCV "R_RISCV_COPY"; R_GLOB_DAT := constant R_RISCV "R_RISCV_32";
     R_JUMP_SLOT := constant R_RISCV "R_RISCV_JUMP_SLOT"; R_ABS := constant R_RISCV "R_RISCV_32";
     R_RELATIVE := constant R_RISCV "R_RISCV_RELATIVE"; R_DTPOFF := constant R_RISCV "R_RISCV_TLS_DTPREL32";
     R_TPOFF := constant R_RISCV "R_RISCV_TLS_TPREL32"; R_DTPMOD := constant R_RISCV "R_RISCV_TLS_DTPMOD32";
     R_IRELATIVE := Some (constant R_RISCV "R_RISCV_IRELATIVE"); R_TLSDESC := None |}.

Definition target_PPC32 : target :=
  {| target_name := "ppc32"; is_64 := false; is_le := false; is_rela := true;
     page_size := 65536; e_machine := constant EM "EM_PPC";
     plt_hdr_size := 64; plt_size := Some 36; pltgot_size := 36;
     thunk_hdr_size := Some 0; thunk_size := Some 36;
     R_COPY := constant R_PPC "R_PPC_COPY"; R_GLOB_DAT := constant R_PPC "R_PPC_GLOB_DAT";
     R_JUMP_SLOT := constant R_PPC "R_PPC_JMP_SLOT"; R_ABS := constant R_PPC "R_PPC_ADDR32";
     R_RELATIVE := constant R_PPC "R_PPC_RELATIVE"; R_DTPOFF := constant R_PPC "R_PPC_DTPREL32";
     R_TPOFF := constant R_PPC "R_PPC_TPREL32"; R_DTPMOD := constant R_PPC "R_PPC_DTPMOD32";
     R_IRELATIVE := Some (constant R_PPC "R_PPC_IRELATIVE"); R_TLSDESC := None |}.

Definition target_PPC64V1 : target :=
  {| target_name := "ppc64v1"; is_64 := true; is_le := false; is_rela := true;
     page_size := 65536; e_machine := constant EM "EM_PPC64";
     plt_hdr_size := 52; plt_size := None; pltgot_size := 0;
     thunk_hdr_size := Some 0; thunk_size := Some 28;
     R_COPY := constant R_PPC64 "R_PPC64_COPY"; R_GLOB_DAT := constant R_PPC64 "R_PPC64_GLOB_DAT";
     R_JUMP_SLOT := constant R_PPC64 "R_PPC64_JMP_SLOT"; R_ABS := constant R_PPC64 "R_PPC64_ADDR64";
     R_RELATIVE := constant R_PPC64 "R_PPC64_RELATIVE"; R_DTPOFF := constant R_PPC64 "R_PPC64_DTPREL64";
     R_TPOFF := constant R_PPC64 "R_PPC64_TPREL64"; R_DTPMOD := constant R_PPC64 "R_PPC64_DTPMOD64";
     R_IRELATIVE := Some (constant R_PPC64 "R_PPC64_IRELATIVE"); R_TLSDESC := None |}.

Definition target_PPC64V2 : target :=
  {| target_name := "ppc64v2"; is_64 := true; is_le := true; is_rela := true;
     page_size := 65536; e_machine := constant EM "EM_PPC64";
     plt_hdr_size := 60; plt_size := Some 4; pltgot_size := 0;
     thunk_hdr_size := Some 0; thunk_size := Some 20;
     R_COPY := constant R_PPC64 "R_PPC64_COPY"; R_GLOB_DAT := constant R_PPC64 "R_PPC64_GLOB_DAT";
     R_JUMP_SLOT := constant R_PPC64 "R_PPC64_JMP_SLOT"; R_ABS := constant R_PPC64 "R_PPC64_ADDR64";
     R_RELATIVE := constant R_PPC64 "R_PPC64_RELATIVE"; R_DTPOFF := constant R_PPC64 "R_PPC64_DTPREL64";
     R_TPOFF := constant R_PPC64 "R_PPC64_TPREL64"; R_DTPMOD := constant R_PPC64 "R_PPC64_DTPMOD64";
     R_IRELATIVE := Some (constant R_PPC64 "R_PPC64_IRELATIVE"); R_TLSDESC := None |}.

Definition target_S390X : target :=
  {| target_name := "s390x"; is_64 := true; is_le := false; is_rela := true;
     page_size := 4096; e_machine := constant EM "EM_S390X";
     plt_hdr_size := 32; plt_size := Some 32; pltgot_size := 16;
     thunk_hdr_size := None; thunk_size := None;
     R_COPY := constant R_390 "R_390_COPY"; R_GLOB_DAT := constant R_390 "R_390_GLOB_DAT";
     R_JUMP_SLOT := constant R_390 "R_390_JMP_SLOT"; R_ABS := constant R_390 "R_390_64";
     R_RELATIVE := constant R_390 "R_390_RELATIVE"; R_DTPOFF := constant R_390 "R_390_TLS_DTPOFF";
     R_TPOFF := constant R_390 "R_390_TLS_TPOFF"; R_DTPMOD := constant R_390 "R_390_TLS_DTPMOD";
     R_IRELATIVE := Some (constant R_390 "R_390_IRELATIVE"); R_TLSDESC := None |}.

Definition target_SPARC64 : target :=
  {| target_name := "sparc64"; is_64 := true; is_le := false; is_rela := true;
     page_size := 8192; e_machine := constant EM "EM_SPARC64";
     plt_hdr_size := 128; plt_size := Some 32; pltgot_size := 32;
     thunk_hdr_size := None; thunk_size := None;
     R_COPY := constant R_SPARC "R_SPARC_COPY"; R_GLOB_DAT := constant R_SPARC "R_SPARC_GLOB_DAT";
     R_JUMP_SLOT := constant R_SPARC "R_SPARC_JMP_SLOT"; R_ABS := constant R_SPARC "R_SPARC_64";
     R_RELATIVE := constant R_SPARC "R_SPARC_RELATIVE"; R_DTPOFF := constant R_SPARC "R_SPARC_TLS_DTPOFF64";
     R_TPOFF := constant R_SPARC "R_SPARC_TLS_TPOFF64"; R_DTPMOD := constant R_SPARC "R_SPARC_TLS_DTPMOD64";
     R_IRELATIVE := Some (constant R_SPARC "R_SPARC_IRELATIVE"); R_TLSDESC := None |}.

Definition target_M68K : target :=
  {| target_name := "m68k"; is_64 := false; is_le := false; is_rela := true;
     page_size := 8192; e_machine := constant EM "EM_68K";
     plt_hdr_size := 18; plt_size := Some 14; pltgot_size := 8;
     thunk_hdr_size := None; thunk_size := None;
     R_COPY := constant R_68K "R_68K_COPY"; R_GLOB_DAT := constant R_68K "R_68K_GLOB_DAT";
     R_JUMP_SLOT := constant R_68K "R_68K_JMP_SLOT"; R_ABS := constant R_68K "R_68K_32";
     R_RELATIVE := constant R_68K "R_68K_RELATIVE"; R_DTPOFF := constant R_68K "R_68K_TLS_DTPREL32";
     R_TPOFF := constant R_68K "R_68K_TLS_TPREL32"; R_DTPMOD := constant R_68K "R_68K_TLS_DTPMOD32";
     R_IRELATIVE := None; R_TLSDESC := None |}.

Definition target_SH4 : target :=
  {| target_name := "sh4"; is_64 := false; is_le := true; is_rela := true;
     page_size := 4096; e_machine := constant EM "EM_SH";
     plt_hdr_size := 16; plt_size := Some 16; pltgot_size := 12;
     thunk_hdr_size := None; thunk_size := None;
     R_COPY := constant R_SH "R_SH_COPY"; R_GLOB_DAT := constant R_SH "R_SH_GLOB_DAT";
     R_JUMP_SLOT := constant R_SH "R_SH_JMP_SLOT"; R_ABS := constant R_SH "R_SH_DIR32";
     R_RELATIVE := constant R_SH "R_SH_RELATIVE"; R_DTPOFF := constant R_SH "R_SH_TLS_DTPOFF32";
     R_TPOFF := constant R_SH "R_SH_TLS_TPOFF32"; R_DTPMOD := constant R_SH "R_SH_TLS_DTPMOD32";
     R_IRELATIVE := None; R_TLSDESC := None |}.

Definition target_ALPHA : target :=
  {| target_name := "alpha"; is_64 := true; is_le := true; is_rela := true;
     page_size := 65536; e_machine := constant EM "EM_ALPHA";
     plt_hdr_size := 0; plt_size := Some 0; pltgot_size := 0;
     thunk_hdr_size := None; thunk_size := None;
     R_COPY := constant R_ALPHA "R_ALPHA_COPY"; R_GLOB_DAT := constant R_ALPHA "R_ALPHA_GLOB_DAT";
     R_JUMP_SLOT := constant R_ALPHA "R_ALPHA_JMP_SLOT"; R_ABS := constant R_ALPHA "R_ALPHA_REFQUAD";
     R_RELATIVE := constant R_ALPHA "R_ALPHA_RELATIVE"; R_DTPOFF := constant R_ALPHA "R_ALPHA_DTPREL64";
     R_TPOFF := constant R_ALPHA "R_ALPHA_TPREL64"; R_DTPMOD := constant R_ALPHA "R_ALPHA_DTPMOD64";
     R_IRELATIVE := None; R_TLSDESC := None |}.
Definition target_of (m : machine) : target :=
  match m with
  | X86_64 => target_X86_64 | I386 => target_I386 | ARM64 => target_ARM64 | ARM32 => target_ARM32
  | RV64LE => target_RV64LE | RV64BE => target_RV64BE | RV32LE => target_RV32LE | RV32BE => target_RV32BE
  | PPC32 => target_PPC32 | PPC64V1 => target_PPC64V1 | PPC64V2 => target_PPC64V2 | S390X => target_S390X
  | SPARC64 => target_SPARC64 | M68K => target_M68K | SH4 => target_SH4 | ALPHA => target_ALPHA
  end.

Definition supports_ifunc (m : machine) : bool := bool_decide (is_Some (R_IRELATIVE (target_of m))).
Definition supports_tlsdesc (m : machine) : bool := bool_decide (is_Some (R_TLSDESC (target_of m))).
Definition needs_thunk (m : machine) : bool := bool_decide (is_Some (thunk_size (target_of m))).

Definition is_x86 (m : machine) : bool := bool_decide (m ∈ [X86_64; I386]).
Definition is_arm (m : machine) : bool := bool_decide (m ∈ [ARM64; ARM32]).
Definition is_rv64 (m : machine) : bool := bool_decide (m ∈ [RV64LE; RV64BE]).
Definition is_rv32 (m : machine) : bool := bool_decide (m ∈ [RV32LE; RV32BE]).
Definition is_riscv (m : machine) : bool := is_rv64 m || is_rv32 m.
Definition is_ppc64 (m : machine) : bool := bool_decide (m ∈ [PPC64V1; PPC64V2]).
Definition is_ppc (m : machine) : bool := is_ppc64 m || bool_decide (m = PPC32).

(** ** Integers of a target *)

Section Structs.
Context (h : endian) (m : machine).

Definition I16 : int_field := if is_le (target_of m) then il16 else ib16.
Definition I32 : int_field := if is_le (target_of m) then il32 else ib32.
Definition I64 : int_field := if is_le (target_of m) then il64 else ib64.
Definition U16 : int_field := if is_le (target_of m) then ul16 else ub16.
Definition U24 : int_field := if is_le (target_of m) then ul24 else ub24.
Definition U32 : int_field := if is_le (target_of m) then ul32 else ub32.
Definition U64 : int_field := if is_le (target_of m) then ul64 else ub64.
Definition Word : int_field := if is_64 (target_of m) then U64 else U32.
Definition IWord : int_field := if is_64 (target_of m) then I64 else I32.

(** ** Structures

    [h] is the host: the bit-fields of [ElfSym] are declared twice, under
    [#ifdef __LITTLE_ENDIAN__] and [#else]. *)

Definition sym_info : member :=
  match h with
  | little => MBits 1 [(Some "st_type", 4); (Some "st_bind", 4)]
  | big => MBits 1 [(Some "st_bind", 4); (Some "st_type", 4)]
  end.

Definition sym_other : member :=
  match m, h with
  | PPC64V2, little => MBits 1 [(Some "st_visibility", 2); (None, 3); (Some "ppc_local_entry", 3)]
  | PPC64V2, big => MBits 1 [(Some "ppc_local_entry", 3); (None, 3); (Some "st_visibility", 2)]
  | ALPHA, little => MBits 1 [(Some "st_visibility", 2); (Some "alpha_st_other", 6)]
  | ALPHA, big => MBits 1 [(Some "alpha_st_other", 6); (Some "st_visibility", 2)]
  | _, little => MBits 1 [(Some "st_visibility", 2); (None, 6)]
  | _, big => MBits 1 [(None, 6); (Some "st_visibility", 2)]
  end.

Definition ElfSym64 : layout :=
  [MInt "st_name" U32; sym_info; sym_other; MInt "st_shndx" U16; MInt "st_value" U64; MInt "st_size" U64].

Definition ElfSym32 : layout :=
  [MInt "st_name" U32; MInt "st_value" U32; MInt "st_size" U32; sym_info; sym_other; MInt "st_shndx" U16].

(** The specialisations for PPC64V2 and ALPHA spell the little-endian typedefs. *)
Definition ElfSym_special : layout :=
  [MInt "st_name" ul32; sym_info; sym_other; MInt "st_shndx" ul16; MInt "st_value" ul64; MInt "st_size" ul64].

Definition ElfSym : layout :=
  match m with
  | PPC64V2 | ALPHA => ElfSym_special
  | _ => if is_64 (target_of m) then ElfSym64 else ElfSym32
  end.

Definition ElfShdr : layout :=
  [MInt "sh_name" U32; MInt "sh_type" U32; MInt "sh_flags" Word; MInt "sh_addr" Word; MInt "sh_offset" Word;
   MInt "sh_size" Word; MInt "sh_link" U32; MInt "sh_info" U32; MInt "sh_addralign" Word; MInt "sh_entsize" Word].

Definition ElfEhdr : layout :=
  [MBytes "e_ident" 16; MInt "e_type" U16; MInt "e_machine" U16; MInt "e_version" U32; MInt "e_entry" Word;
   MInt "e_phoff" Word; MInt "e_shoff" Word; MInt "e_flags" U32; MInt "e_ehsize" U16; MInt "e_phentsize" U16;
   MInt "e_phnum" U16; MInt "e_shentsize" U16; MInt "e_shnum" U16; MInt "e_shstrndx" U16].

Definition ElfPhdr64 : layout :=
  [MInt "p_type" U32; MInt "p_flags" U32; MInt "p_offset" U64; MInt "p_vaddr" U64; MInt "p_paddr" U64;
   MInt "p_filesz" U64; MInt "p_memsz" U64; MInt "p_align" U64].

Definition ElfPhdr32 : layout :=
  [MInt "p_type" U32; MInt "p_offset" U32; MInt "p_vaddr" U32; MInt "p_paddr" U32;
   MInt "p_filesz" U32; MInt "p_memsz" U32; MInt "p_flags" U32; MInt "p_align" U32].

Definition ElfPhdr : layout := if is_64 (target_of m) then ElfPhdr64 else ElfPhdr32.

(** [std::conditional_t<E::is_64, U32<E>, u8>] and [<E::is_64, U32<E>, U24<E>>] *)
Definition rel_type : member := if is_64 (target_of m) then MInt "r_type" U32 else MU8 "r_type".
Definition rel_sym : member := if is_64 (target_of m) then MInt "r_sym" U32 else MInt "r_sym" U24.

Definition ElfRel_le_rela : layout := [MInt "r_offset" Word; rel_type; rel_sym; MInt "r_addend" IWord].
Definition ElfRel_be_rela : layout := [MInt "r_offset" Word; rel_sym; rel_type; MInt "r_addend" IWord].
Definition ElfRel_le_rel : layout := [MInt "r_offset" Word; rel_type; rel_sym].
Definition ElfRel_be_rel : layout := [MInt "r_offset" Word; rel_sym; rel_type].
Definition ElfRel_SPARC64 : layout :=
  [MInt "r_offset" ub64; MInt "r_sym" ub32; MInt "r_type_data" ub24; MU8 "r_type"; MInt "r_addend" ib64].

Definition ElfRel : layout :=
  match m with
  | SPARC64 => ElfRel_SPARC64
  | _ =>
      match is_le (target_of m), is_rela (target_of m) with
      | true, true => ElfRel_le_rela
      | false, true => ElfRel_be_rela
      | true, false => ElfRel_le_rel
      | false, false => ElfRel_be_rel
      end
  end.

Definition ElfDyn : layout := [MInt "d_tag" Word; MInt "d_val" Word].

Definition ElfVerneed : layout :=
  [MInt "vn_version" U16; MInt "vn_cnt" U16; MInt "vn_file" U32; MInt "vn_aux" U32; MInt "vn_next" U32].

Definition ElfVernaux : layout :=
  [MInt "vna_hash" U32; MInt "vna_flags" U16; MInt "vna_other" U16; MInt "vna_name" U32; MInt "vna_next" U32].

Definition ElfVerdef : layout :=
  [MInt "vd_version" U16; MInt "vd_flags" U16; MInt "vd_ndx" U16; MInt "vd_cnt" U16; MInt "vd_hash" U32;
   MInt "vd_aux" U32; MInt "vd_next" U32].

Definition ElfVerdaux : layout := [MInt "vda_name" U32; MInt "vda_next" U32].

Definition ElfChdr64 : layout :=
  [MInt "ch_type" U32; MInt "ch_reserved" U32; MInt "ch_size" U64; MInt "ch_addralign" U64].
Definition ElfChdr32 : layout := [MInt "ch_type" U32; MInt "ch_size" U32; MInt "ch_addralign" U32].
Definition ElfChdr : layout := if is_64 (target_of m) then ElfChdr64 else ElfChdr32.

Definition ElfNhdr : layout := [MInt "n_namesz" U32; MInt "n_descsz" U32; MInt "n_type" U32].

(** Every structure, with its size in the 64- and the 32-bit file format. *)
Definition elf_structs : list (layout * (nat * nat)) :=
  [(ElfSym, (24, 16)); (ElfShdr, (64, 40)); (ElfEhdr, (64, 52)); (ElfPhdr, (56, 32));
   (ElfRel, if is_rela (target_of m) then (24, 12) else (16, 8)); (ElfDyn, (16, 8));
   (ElfVerneed, (16, 16)); (ElfVernaux, (16, 16)); (ElfVerdef, (20, 20)); (ElfVerdaux, (8, 8));
   (ElfChdr, (24, 12)); (ElfNhdr, (12, 12))]%nat.
End Structs.

(** ** Symbols *)

(** The methods of [ElfSym], on the values of its members. *)
Definition is_undef (sym : string -> value) : bool := (int_of (sym "st_shndx") =? constant SHN "SHN_UNDEF")%Z.
Definition is_abs (sym : string -> value) : bool := (int_of (sym "st_shndx") =? constant SHN "SHN_ABS")%Z.
Definition is_common (sym : string -> value) : bool := (int_of (sym "st_shndx") =? constant SHN "SHN_COMMON")%Z.
Definition is_weak (sym : string -> value) : bool := (int_of (sym "st_bind") =? constant STB "STB_WEAK")%Z.
Definition is_undef_weak (sym : string -> value) : bool := is_undef sym && is_weak sym.
Definition preserves_r2 (sym : string -> value) : bool := negb (int_of (sym "ppc_local_entry") =? 1)%Z.
Definition uses_toc (sym : string -> value) : bool := (1 <? int_of (sym "ppc_local_entry"))%Z.

(** ** Properties *)

Lemma elf_structs_hosts h m : map fst (elf_structs h m) = map (fun x => for_host h x.1) (elf_structs little m).
Proof. destruct h, m; reflexivity. Qed.

Definition struct_ok (m : machine) (x : layout * (nat * nat)) : Prop :=
  Forall member_wf x.1 /\ Forall single_byte x.1 /\
  sizeof x.1 = (if is_64 (target_of m) then x.2.1 else x.2.2).

Lemma elf_structs_ok m : Forall (struct_ok m) (elf_structs little m).
Proof. unfold struct_ok. destruct m; decided. Qed.

(** for every target and every ELF structure, a file written on a machine
    of one byte order is read correctly on a machine of the other: the bytes do
    not depend on the host, all members come back, and the structure has the size
    that the 64- or 32-bit ELF format gives it. *)
Theorem elf_struct_portable (m : machine) (writer reader : endian) (i : nat)
    (l : layout) (size : nat * nat) (env : string -> value) :
  elf_structs little m !! i = Some (l, size) -> contents_ok env l ->
  exists lw lr b, map fst (elf_structs writer m) !! i = Some lw /\ map fst (elf_structs reader m) !! i = Some lr /\
    encode writer lw env = Some b /\ encode reader lr env = Some b /\
    length b = (if is_64 (target_of m) then size.1 else size.2) /\
    decode reader lr b = Some (map (fun n => (n, env n)) (names l)).
Proof.
  intros Hi Hok. pose proof (elf_structs_ok m) as Hall. rewrite Forall_forall in Hall.
  destruct (Hall _ (list_elem_of_lookup_2 _ _ _ Hi)) as (H1 & H2 & H3). cbn [fst snd] in *.
  destruct (portable_roundtrip writer reader l env H1 H2 Hok) as (b & E & L & _ & E' & D).
  exists (for_host writer l), (for_host reader l), b.
  rewrite !elf_structs_hosts, !list_lookup_fmap, Hi. rewrite <- H3.
  split; [done|]. split; [done|]. auto.
Qed.

Definition sample_sym (n : string) : value :=
  VInt (if decide (n = "st_bind") then 2 else if decide (n = "st_visibility") then 3 else 5).

Lemma elf_struct_portable_witness :
  exists lw lr b, map fst (elf_structs big PPC64V2) !! 0%nat = Some lw /\
    map fst (elf_structs little PPC64V2) !! 0%nat = Some lr /\
    encode big lw sample_sym = Some b /\ encode little lr sample_sym = Some b /\
    length b = (if is_64 (target_of PPC64V2) then (24, 16).1 else (24, 16).2)%nat /\
    decode little lr b = Some (map (fun n => (n, sample_sym n)) (names (ElfSym little PPC64V2))).
Proof.
  apply (elf_struct_portable PPC64V2 big little 0 (ElfSym little PPC64V2) (24, 16)%nat sample_sym); [reflexivity|].
  unfold ElfSym, ElfSym_special.
  repeat constructor; eexists; (split; [reflexivity|]);
    first [split; [vm_compute; split; congruence|left; reflexivity] | vm_compute; split; congruence].
Defined.

(** The parts of a symbol around its bytes of bit-fields. *)
Lemma sym_split m : exists pre post, ElfSym little m = pre ++ sym_info little :: sym_other little m :: post /\
  sizeof pre = if is_64 (target_of m) then 4%nat else 12%nat.
Proof.
  destruct m; first
    [ exists [MInt "st_name" (U32 X86_64)]; eexists; split; reflexivity
    | exists [MInt "st_name" (U32 PPC64V1)]; eexists; split; reflexivity
    | exists [MInt "st_name" (U32 I386); MInt "st_value" (U32 I386); MInt "st_size" (U32 I386)]; eexists; split; reflexivity
    | exists [MInt "st_name" (U32 PPC32); MInt "st_value" (U32 PPC32); MInt "st_size" (U32 PPC32)]; eexists; split; reflexivity ].
Qed.

(** the byte after the name holds [st_info = (st_bind << 4) + st_type], as
    the ELF specification has it, on either host; the next one holds the
    visibility in its low two bits. *)
Theorem elf_sym_info (h : endian) (m : machine) (env : string -> value) (b : bytes) :
  contents_ok env (ElfSym little m) -> encode h (ElfSym h m) env = Some b ->
  let off := if is_64 (target_of m) then 4%nat else 12%nat in
  b !! off = Some (16 * int_of (env "st_bind") + int_of (env "st_type")) /\
  exists o, b !! S off = Some o /\ o mod 4 = int_of (env "st_visibility").
Proof.
  intros Hok E off. pose proof (elf_structs_ok m) as Hall. rewrite Forall_forall in Hall.
  destruct (Hall (ElfSym little m, (24, 16)%nat) ltac:(left)) as (Hwf & Hs & _). cbn [fst] in *.
  replace (ElfSym h m) with (for_host h (ElfSym little m)) in E by (destruct h, m; reflexivity).
  rewrite encode_for_host in E by done.
  destruct (sym_split m) as (pre & post & Es & Hoff). rewrite Es in *.
  apply Forall_app in Hwf as [Hw _]. apply Forall_app in Hok as [Ho Hok].
  destruct (encode_app little pre _ env b Hw Ho E) as (b1 & b2 & -> & L1 & E2).
  inversion Hok as [|?? Hinfo Hok2]; subst. inversion Hok2 as [|?? Hother _]; subst.
  cbn [encode encode_member sym_info] in E2.
  destruct (encode_member little env (sym_other little m)) as [bo|] eqn:Eo; [|done].
  cbn [mbind option_bind] in E2. destruct (encode little post env) as [b3|]; [|done]. injection E2 as <-.
  fold off in Hoff. rewrite <- Hoff, <- L1. split.
  - rewrite lookup_app_r by lia. rewrite Nat.sub_diag. cbn [host_store le_store app lookup list_lookup pack bit_order].
    cbn [member_ok sym_info] in Hinfo. unfold bits_ok in Hinfo. rewrite !Forall_cons in Hinfo.
    destruct Hinfo as ((x & Ex & Hx) & (y & Ey & Hy) & _).
    rewrite Ex, Ey. simpl int_of. rewrite !wrap_small by done. f_equal. dlia.
  - exists (default 0 (bo !! 0%nat)). rewrite lookup_app_r by lia. replace (S (length b1) - length b1)%nat with 1%nat by lia.
    assert (Hbits : exists l', sym_other little m = MBits 1 ((Some "st_visibility", 2) :: l')) by (destruct m; eexists; reflexivity).
    destruct Hbits as (l' & El). rewrite El in *. cbn [encode_member bit_order host_store pack le_store] in Eo.
    injection Eo as <-. split; [done|]. cbn [member_ok] in Hother. unfold bits_ok in Hother.
    rewrite !Forall_cons in Hother. destruct Hother as ((x & Ex & Hx) & _). cbn [default lookup list_lookup id].
    rewrite Ex. simpl int_of. rewrite wrap_small by done. generalize (pack env l'). intros k. dlia.
Qed.

Lemma elf_sym_info_witness :
  let off := if is_64 (target_of PPC64V2) then 4%nat else 12%nat in
  let b := [5; 0; 0; 0; 37; 163; 5; 0; 5; 0; 0; 0; 0; 0; 0; 0; 5; 0; 0; 0; 0; 0; 0; 0] in
  b !! off = Some (16 * int_of (sample_sym "st_bind") + int_of (sample_sym "st_type")) /\
  exists o, b !! S off = Some o /\ o mod 4 = int_of (sample_sym "st_visibility").
Proof.
  apply (elf_sym_info big PPC64V2 sample_sym); [|vm_compute; reflexivity].
  unfold ElfSym, ElfSym_special.
  repeat constructor; eexists; (split; [reflexivity|]);
    first [split; [vm_compute; split; congruence|left; reflexivity] | vm_compute; split; congruence].
Defined.


(** The relocation types that a target writes for the dynamic linker. *)
Definition dynamic_relocs (m : machine) : list Z :=
  let t := target_of m in
  [R_COPY t; R_JUMP_SLOT t; R_ABS t; R_RELATIVE t; R_DTPOFF t; R_TPOFF t; R_DTPMOD t]
  ++ option_list (R_IRELATIVE t) ++ option_list (R_TLSDESC t)
  ++ (if is_riscv m then [] else [R_GLOB_DAT t]).

(** The finite part of the checks, one machine at a time. *)
Definition machine_check (m : machine) : Prop :=
  let t := target_of m in
  NoDup (dynamic_relocs m) /\ Forall (fun r => r ∈ map snd (reloc_enum m)) (dynamic_relocs m) /\
  (is_riscv m = false \/ R_GLOB_DAT t = R_ABS t) /\
  page_size t ∈ [2 ^ 12; 2 ^ 13; 2 ^ 14; 2 ^ 15; 2 ^ 16].

#[local] Instance machine_check_dec m : Decision (machine_check m).
Proof. unfold machine_check. apply _. Defined.

Lemma machine_checked m : machine_check m.
Proof. destruct m; decided. Qed.

Lemma target_name_inj m m' : target_name (target_of m) = target_name (target_of m') -> m = m'.
Proof. destruct m, m'; vm_compute; congruence. Qed.

(** every dynamic relocation type in a machine description is an enumerator
    of that machine, and no two of them coincide, so that the dynamic linker can
    tell them apart; only RISC-V uses one number for two of them, its GLOB_DAT
    being the absolute relocation. The page size is a power of two, and the names
    of the targets are distinct. *)
Theorem targets_consistent (m m' : machine) :
  NoDup (dynamic_relocs m) /\
  (forall r, r ∈ dynamic_relocs m -> exists n, (n, r) ∈ reloc_enum m) /\
  (is_riscv m = true -> R_GLOB_DAT (target_of m) = R_ABS (target_of m)) /\
  (exists k, page_size (target_of m) = 2 ^ k /\ 12 <= k <= 16) /\
  (target_name (target_of m) = target_name (target_of m') -> m = m').
Proof.
  destruct (machine_checked m) as (H1 & H2 & H3 & H4). split; [done|]. split; [|split; [|split]].
  - intros r Hr. rewrite Forall_forall in H2. specialize (H2 r Hr).
    apply list_elem_of_fmap in H2 as ([n r'] & -> & Hin). by exists n.
  - intros E. destruct H3 as [H3|H3]; [congruence|done].
  - rewrite !elem_of_cons in H4. destruct H4 as [->|[->|[->|[->|[->|H4]]]]]; [..|by apply elem_of_nil in H4].
    + by exists 12.
    + by exists 13.
    + by exists 14.
    + by exists 15.
    + by exists 16.
  - apply target_name_inj.
Qed.
