(* ===== verification/MachoTypes.v ===== *)
(** * Mach-O constants, structures and targets (src/macho/macho.h)

    Every [enum] of macho.h as the list of its enumerators, [rel_to_string], the
    structures of Mach-O files as layouts, the methods of [SegmentCommand],
    [MachSection] and [MachSym], and the machine descriptions. The theorems give
    the sizes and the round trip of every structure, the bits of a symbol's type
    byte, and the reading and writing of the fixed-size names. *)

From S2P Require Import Prelude Integers Layout Enums.

#[local] Open Scope string_scope.
#[local] Open Scope list_scope.
#[local] Open Scope Z_scope.

(** ** Enumerations *)

Definition FAT : enum :=
  [("FAT_MAGIC", 0xcafebabe)].

Definition MH_filetype : enum :=
  [("MH_OBJECT", 0x1); ("MH_EXECUTE", 0x2); ("MH_FVMLIB", 0x3); ("MH_CORE", 0x4); ("MH_PRELOAD", 0x5);
   ("MH_DYLIB", 0x6); ("MH_DYLINKER", 0x7); ("MH_BUNDLE", 0x8); ("MH_DYLIB_STUB", 0x9); ("MH_DSYM", 0xa);
   ("MH_KEXT_BUNDLE", 0xb)].

Definition MH_flags : enum :=
  [("MH_NOUNDEFS", 0x1); ("MH_INCRLINK", 0x2); ("MH_DYLDLINK", 0x4); ("MH_BINDATLOAD", 0x8);
   ("MH_PREBOUND", 0x10); ("MH_SPLIT_SEGS", 0x20); ("MH_LAZY_INIT", 0x40); ("MH_TWOLEVEL", 0x80);
   ("MH_FORCE_FLAT", 0x100); ("MH_NOMULTIDEFS", 0x200); ("MH_NOFIXPREBINDING", 0x400);
   ("MH_PREBINDABLE", 0x800); ("MH_ALLMODSBOUND", 0x1000); ("MH_SUBSECTIONS_VIA_SYMBOLS", 0x2000);
   ("MH_CANONICAL", 0x4000); ("MH_WEAK_DEFINES", 0x8000); ("MH_BINDS_TO_WEAK", 0x10000);
   ("MH_ALLOW_STACK_EXECUTION", 0x20000); ("MH_ROOT_SAFE", 0x40000); ("MH_SETUID_SAFE", 0x80000);
   ("MH_NO_REEXPORTED_DYLIBS", 0x100000); ("MH_PIE", 0x200000); ("MH_DEAD_STRIPPABLE_DYLIB", 0x400000);
   ("MH_HAS_TLV_DESCRIPTORS", 0x800000); ("MH_NO_HEAP_EXECUTION", 0x1000000);
   ("MH_APP_EXTENSION_SAFE", 0x02000000); ("MH_NLIST_OUTOFSYNC_WITH_DYLDINFO", 0x04000000);
   ("MH_SIM_SUPPORT", 0x08000000)].

Definition VM_PROT : enum :=
  [("VM_PROT_READ", 0x1); ("VM_PROT_WRITE", 0x2); ("VM_PROT_EXECUTE", 0x4); ("VM_PROT_NO_CHANGE", 0x8);
   ("VM_PROT_COPY", 0x10); ("VM_PROT_WANTS_COPY", 0x10)].

Definition LC_REQ : enum :=
  [("LC_REQ_DYLD", 0x80000000)].

Definition LC : enum :=
  [("LC_SEGMENT", 0x1); ("LC_SYMTAB", 0x2); ("LC_SYMSEG", 0x3); ("LC_THREAD", 0x4); ("LC_UNIXTHREAD", 0x5);
   ("LC_LOADFVMLIB", 0x6); ("LC_IDFVMLIB", 0x7); ("LC_IDENT", 0x8); ("LC_FVMFILE", 0x9); ("LC_PREPAGE", 0xa);
   ("LC_DYSYMTAB", 0xb); ("LC_LOAD_DYLIB", 0xc); ("LC_ID_DYLIB", 0xd); ("LC_LOAD_DYLINKER", 0xe);
   ("LC_ID_DYLINKER", 0xf); ("LC_PREBOUND_DYLIB", 0x10); ("LC_ROUTINES", 0x11); ("LC_SUB_FRAMEWORK", 0x12);
   ("LC_SUB_UMBRELLA", 0x13); ("LC_SUB_CLIENT", 0x14); ("LC_SUB_LIBRARY", 0x15); ("LC_TWOLEVEL_HINTS", 0x16);
   ("LC_PREBIND_CKSUM", 0x17); ("LC_LOAD_WEAK_DYLIB", Z.lor 0x18 0x80000000); ("LC_SEGMENT_64", 0x19);
   ("LC_ROUTINES_64", 0x1a); ("LC_UUID", 0x1b); ("LC_RPATH", Z.lor 0x1c 0x80000000);
   ("LC_CODE_SIGNATURE", 0x1d); ("LC_SEGMENT_SPLIT_INFO", 0x1e); ("LC_REEXPORT_DYLIB", Z.lor 0x1f 0x80000000);
   ("LC_LAZY_LOAD_DYLIB", 0x20); ("LC_ENCRYPTION_INFO", 0x21); ("LC_DYLD_INFO", 0x22);
   ("LC_DYLD_INFO_ONLY", Z.lor 0x22 0x80000000); ("LC_LOAD_UPWARD_DYLIB", Z.lor 0x23 0x80000000);
   ("LC_VERSION_MIN_MACOSX", 0x24); ("LC_VERSION_MIN_IPHONEOS", 0x25); ("LC_FUNCTION_STARTS", 0x26);
   ("LC_DYLD_ENVIRONMENT", 0x27); ("LC_MAIN", Z.lor 0x28 0x80000000); ("LC_DATA_IN_CODE", 0x29);
   ("LC_SOURCE_VERSION", 0x2A); ("LC_DYLIB_CODE_SIGN_DRS", 0x2B); ("LC_ENCRYPTION_INFO_64", 0x2C);
   ("LC_LINKER_OPTION", 0x2D); ("LC_LINKER_OPTIMIZATION_HINT", 0x2E); ("LC_VERSION_MIN_TVOS", 0x2F);
   ("LC_VERSION_MIN_WATCHOS", 0x30); ("LC_NOTE", 0x31); ("LC_BUILD_VERSION", 0x32);
   ("LC_DYLD_EXPORTS_TRIE", Z.lor 0x33 0x80000000); ("LC_DYLD_CHAINED_FIXUPS", Z.lor 0x34 0x80000000)].

Definition SG : enum :=
  [("SG_HIGHVM", 0x1); ("SG_FVMLIB", 0x2); ("SG_NORELOC", 0x4); ("SG_PROTECTED_VERSION_1", 0x8);
   ("SG_READ_ONLY", 0x10)].

Definition S_type : enum :=
  [("S_REGULAR", 0x0); ("S_ZEROFILL", 0x1); ("S_CSTRING_LITERALS", 0x2); ("S_4BYTE_LITERALS", 0x3);
   ("S_8BYTE_LITERALS", 0x4); ("S_LITERAL_POINTERS", 0x5); ("S_NON_LAZY_SYMBOL_POINTERS", 0x6);
   ("S_LAZY_SYMBOL_POINTERS", 0x7); ("S_SYMBOL_STUBS", 0x8); ("S_MOD_INIT_FUNC_POINTERS", 0x9);
   ("S_MOD_TERM_FUNC_POINTERS", 0xa); ("S_COALESCED", 0xb); ("S_GB_ZEROFILL", 0xc); ("S_INTERPOSING", 0xd);
   ("S_16BYTE_LITERALS", 0xe); ("S_DTRACE_DOF", 0xf); ("S_LAZY_DYLIB_SYMBOL_POINTERS", 0x10);
   ("S_THREAD_LOCAL_REGULAR", 0x11); ("S_THREAD_LOCAL_ZEROFILL", 0x12); ("S_THREAD_LOCAL_VARIABLES", 0x13);
   ("S_THREAD_LOCAL_VARIABLE_POINTERS", 0x14); ("S_THREAD_LOCAL_INIT_FUNCTION_POINTERS", 0x15);
   ("S_INIT_FUNC_OFFSETS", 0x16)].

Definition S_ATTR : enum :=
  [("S_ATTR_LOC_RELOC", 0x1); ("S_ATTR_EXT_RELOC", 0x2); ("S_ATTR_SOME_INSTRUCTIONS", 0x4);
   ("S_ATTR_DEBUG", 0x20000); ("S_ATTR_SELF_MODIFYING_CODE", 0x40000); ("S_ATTR_LIVE_SUPPORT", 0x80000);
   ("S_ATTR_NO_DEAD_STRIP", 0x100000); ("S_ATTR_STRIP_STATIC_SYMS", 0x200000); ("S_ATTR_NO_TOC", 0x400000);
   ("S_ATTR_PURE_INSTRUCTIONS", 0x800000)].

Definition CPU_TYPE : enum :=
  [("CPU_TYPE_X86_64", 0x1000007); ("CPU_TYPE_ARM64", 0x100000c); ("CPU_TYPE_ARM64_32", 0x200000c)].

Definition CPU_SUBTYPE : enum :=
  [("CPU_SUBTYPE_X86_64_ALL", 3); ("CPU_SUBTYPE_ARM64_ALL", 0)].

Definition INDIRECT_SYMBOL : enum :=
  [("INDIRECT_SYMBOL_LOCAL", 0x80000000); ("INDIRECT_SYMBOL_ABS", 0x40000000)].

Definition REBASE : enum :=
  [("REBASE_TYPE_POINTER", 1); ("REBASE_TYPE_TEXT_ABSOLUTE32", 2); ("REBASE_TYPE_TEXT_PCREL32", 3);
   ("REBASE_OPCODE_MASK", 0xf0); ("REBASE_IMMEDIATE_MASK", 0x0f); ("REBASE_OPCODE_DONE", 0x00);
   ("REBASE_OPCODE_SET_TYPE_IMM", 0x10); ("REBASE_OPCODE_SET_SEGMENT_AND_OFFSET_ULEB", 0x20);
   ("REBASE_OPCODE_ADD_ADDR_ULEB", 0x30); ("REBASE_OPCODE_ADD_ADDR_IMM_SCALED", 0x40);
   ("REBASE_OPCODE_DO_REBASE_IMM_TIMES", 0x50); ("REBASE_OPCODE_DO_REBASE_ULEB_TIMES", 0x60);
   ("REBASE_OPCODE_DO_REBASE_ADD_ADDR_ULEB", 0x70); ("REBASE_OPCODE_DO_REBASE_ULEB_TIMES_SKIPPING_ULEB", 0x80)].

Definition BIND : enum :=
  [("BIND_SPECIAL_DYLIB_SELF", 0); ("BIND_TYPE_POINTER", 1); ("BIND_TYPE_TEXT_ABSOLUTE32", 2);
   ("BIND_TYPE_TEXT_PCREL32", 3); ("BIND_SPECIAL_DYLIB_WEAK_LOOKUP", u32 (-3));
   ("BIND_SPECIAL_DYLIB_FLAT_LOOKUP", u32 (-2)); ("BIND_SPECIAL_DYLIB_MAIN_EXECUTABLE", u32 (-1));
   ("BIND_SYMBOL_FLAGS_WEAK_IMPORT", 1); ("BIND_SYMBOL_FLAGS_NON_WEAK_DEFINITION", 8);
   ("BIND_OPCODE_MASK", 0xF0); ("BIND_IMMEDIATE_MASK", 0x0F); ("BIND_OPCODE_DONE", 0x00);
   ("BIND_OPCODE_SET_DYLIB_ORDINAL_IMM", 0x10); ("BIND_OPCODE_SET_DYLIB_ORDINAL_ULEB", 0x20);
   ("BIND_OPCODE_SET_DYLIB_SPECIAL_IMM", 0x30); ("BIND_OPCODE_SET_SYMBOL_TRAILING_FLAGS_IMM", 0x40);
   ("BIND_OPCODE_SET_TYPE_IMM", 0x50); ("BIND_OPCODE_SET_ADDEND_SLEB", 0x60);
   ("BIND_OPCODE_SET_SEGMENT_AND_OFFSET_ULEB", 0x70); ("BIND_OPCODE_ADD_ADDR_ULEB", 0x80);
   ("BIND_OPCODE_DO_BIND", 0x90); ("BIND_OPCODE_DO_BIND_ADD_ADDR_ULEB", 0xA0);
   ("BIND_OPCODE_DO_BIND_ADD_ADDR_IMM_SCALED", 0xB0); ("BIND_OPCODE_DO_BIND_ULEB_TIMES_SKIPPING_ULEB", 0xC0);
   ("BIND_OPCODE_THREADED", 0xD0); ("BIND_SUBOPCODE_THREADED_SET_BIND_ORDINAL_TABLE_SIZE_ULEB", 0x00);
   ("BIND_SUBOPCODE_THREADED_APPLY", 0x01)].

Definition EXPORT_SYMBOL_FLAGS : enum :=
  [("EXPORT_SYMBOL_FLAGS_KIND_MASK", 0x03); ("EXPORT_SYMBOL_FLAGS_KIND_REGULAR", 0x00);
   ("EXPORT_SYMBOL_FLAGS_KIND_THREAD_LOCAL", 0x01); ("EXPORT_SYMBOL_FLAGS_KIND_ABSOLUTE", 0x02);
   ("EXPORT_SYMBOL_FLAGS_WEAK_DEFINITION", 0x04); ("EXPORT_SYMBOL_FLAGS_REEXPORT", 0x08);
   ("EXPORT_SYMBOL_FLAGS_STUB_AND_RESOLVER", 0x10)].

Definition DICE_KIND : enum :=
  [("DICE_KIND_DATA", 1); ("DICE_KIND_JUMP_TABLE8", 2); ("DICE_KIND_JUMP_TABLE16", 3);
   ("DICE_KIND_JUMP_TABLE32", 4); ("DICE_KIND_ABS_JUMP_TABLE32", 5)].

Definition N_type : enum :=
  [("N_UNDF", 0); ("N_ABS", 1); ("N_INDR", 5); ("N_PBUD", 6); ("N_SECT", 7)].

Definition N_stab : enum :=
  [("N_GSYM", 0x20); ("N_FNAME", 0x22); ("N_FUN", 0x24); ("N_STSYM", 0x26); ("N_LCSYM", 0x28);
   ("N_BNSYM", 0x2e); ("N_AST", 0x32); ("N_OPT", 0x3c); ("N_RSYM", 0x40); ("N_SLINE", 0x44);
   ("N_ENSYM", 0x4e); ("N_SSYM", 0x60); ("N_SO", 0x64); ("N_OSO", 0x66); ("N_LSYM", 0x80); ("N_BINCL", 0x82);
   ("N_SOL", 0x84); ("N_PARAMS", 0x86); ("N_VERSION", 0x88); ("N_OLEVEL", 0x8A); ("N_PSYM", 0xa0);
   ("N_EINCL", 0xa2); ("N_ENTRY", 0xa4); ("N_LBRAC", 0xc0); ("N_EXCL", 0xc2); ("N_RBRAC", 0xe0);
   ("N_BCOMM", 0xe2); ("N_ECOMM", 0xe4); ("N_ECOML", 0xe8); ("N_LENG", 0xfe); ("N_PC", 0x30)].

Definition REFERENCE : enum :=
  [("REFERENCE_TYPE", 0xf); ("REFERENCE_FLAG_UNDEFINED_NON_LAZY", 0); ("REFERENCE_FLAG_UNDEFINED_LAZY", 1);
   ("REFERENCE_FLAG_DEFINED", 2); ("REFERENCE_FLAG_PRIVATE_DEFINED", 3);
   ("REFERENCE_FLAG_PRIVATE_UNDEFINED_NON_LAZY", 4); ("REFERENCE_FLAG_PRIVATE_UNDEFINED_LAZY", 5)].

Definition REFERENCED : enum :=
  [("REFERENCED_DYNAMICALLY", 0x0010)].

Definition LIBRARY_ORDINAL : enum :=
  [("SELF_LIBRARY_ORDINAL", 0x0); ("MAX_LIBRARY_ORDINAL", 0xfd); ("DYNAMIC_LOOKUP_ORDINAL", 0xfe);
   ("EXECUTABLE_ORDINAL", 0xff)].

Definition N_desc : enum :=
  [("N_NO_DEAD_STRIP", 0x0020); ("N_DESC_DISCARDED", 0x0020); ("N_WEAK_REF", 0x0040); ("N_WEAK_DEF", 0x0080);
   ("N_REF_TO_WEAK", 0x0080); ("N_ARM_THUMB_DEF", 0x0008); ("N_SYMBOL_RESOLVER", 0x0100);
   ("N_ALT_ENTRY", 0x0200)].

Definition PLATFORM : enum :=
  [("PLATFORM_MACOS", 1); ("PLATFORM_IOS", 2); ("PLATFORM_TVOS", 3); ("PLATFORM_WATCHOS", 4);
   ("PLATFORM_BRIDGEOS", 5); ("PLATFORM_MACCATALYST", 6); ("PLATFORM_IOSSIMULATOR", 7);
   ("PLATFORM_TVOSSIMULATOR", 8); ("PLATFORM_WATCHOSSIMULATOR", 9); ("PLATFORM_DRIVERKIT", 10)].

Definition TOOL : enum :=
  [("TOOL_CLANG", 1); ("TOOL_SWIFT", 2); ("TOOL_LD", 3); ("TOOL_MOLD", 54321)].

Definition OBJC_IMAGE : enum :=
  [("OBJC_IMAGE_SUPPORTS_GC", Z.shiftl 1 1); ("OBJC_IMAGE_REQUIRES_GC", Z.shiftl 1 2);
   ("OBJC_IMAGE_OPTIMIZED_BY_DYLD", Z.shiftl 1 3); ("OBJC_IMAGE_SUPPORTS_COMPACTION", Z.shiftl 1 4);
   ("OBJC_IMAGE_IS_SIMULATED", Z.shiftl 1 5); ("OBJC_IMAGE_HAS_CATEGORY_CLASS_PROPERTIES", Z.shiftl 1 6)].

Definition LOH_ARM64 : enum :=
  [("LOH_ARM64_ADRP_ADRP", 1); ("LOH_ARM64_ADRP_LDR", 2); ("LOH_ARM64_ADRP_ADD_LDR", 3);
   ("LOH_ARM64_ADRP_LDR_GOT_LDR", 4); ("LOH_ARM64_ADRP_ADD_STR", 5); ("LOH_ARM64_ADRP_LDR_GOT_STR", 6);
   ("LOH_ARM64_ADRP_ADD", 7); ("LOH_ARM64_ADRP_LDR_GOT", 8)].

Definition ARM64_RELOC : enum :=
  [("ARM64_RELOC_UNSIGNED", 0); ("ARM64_RELOC_SUBTRACTOR", 1); ("ARM64_RELOC_BRANCH26", 2);
   ("ARM64_RELOC_PAGE21", 3); ("ARM64_RELOC_PAGEOFF12", 4); ("ARM64_RELOC_GOT_LOAD_PAGE21", 5);
   ("ARM64_RELOC_GOT_LOAD_PAGEOFF12", 6); ("ARM64_RELOC_POINTER_TO_GOT", 7);
   ("ARM64_RELOC_TLVP_LOAD_PAGE21", 8); ("ARM64_RELOC_TLVP_LOAD_PAGEOFF12", 9); ("ARM64_RELOC_ADDEND", 10)].

Definition X86_64_RELOC : enum :=
  [("X86_64_RELOC_UNSIGNED", 0); ("X86_64_RELOC_SIGNED", 1); ("X86_64_RELOC_BRANCH", 2);
   ("X86_64_RELOC_GOT_LOAD", 3); ("X86_64_RELOC_GOT", 4); ("X86_64_RELOC_SUBTRACTOR", 5);
   ("X86_64_RELOC_SIGNED_1", 6); ("X86_64_RELOC_SIGNED_2", 7); ("X86_64_RELOC_SIGNED_4", 8);
   ("X86_64_RELOC_TLV", 9)].

Definition DW_EH_PE : enum :=
  [("DW_EH_PE_absptr", 0); ("DW_EH_PE_omit", 0xff); ("DW_EH_PE_uleb128", 0x01); ("DW_EH_PE_udata2", 0x02);
   ("DW_EH_PE_udata4", 0x03); ("DW_EH_PE_udata8", 0x04); ("DW_EH_PE_signed", 0x08);
   ("DW_EH_PE_sleb128", 0x09); ("DW_EH_PE_sdata2", 0x0a); ("DW_EH_PE_sdata4", 0x0b);
   ("DW_EH_PE_sdata8", 0x0c); ("DW_EH_PE_pcrel", 0x10); ("DW_EH_PE_textrel", 0x20);
   ("DW_EH_PE_datarel", 0x30); ("DW_EH_PE_funcrel", 0x40); ("DW_EH_PE_aligned", 0x50);
   ("DW_EH_PE_indirect", 0x80)].

Definition DW_AT : enum :=
  [("DW_AT_name", 0x3); ("DW_AT_low_pc", 0x11); ("DW_AT_high_pc", 0x12); ("DW_AT_producer", 0x25);
   ("DW_AT_ranges", 0x55); ("DW_AT_addr_base", 0x73); ("DW_AT_rnglists_base", 0x74)].

Definition DW_TAG : enum :=
  [("DW_TAG_compile_unit", 0x11); ("DW_TAG_skeleton_unit", 0x4a)].

Definition DW_UT : enum :=
  [("DW_UT_compile", 0x01); ("DW_UT_partial", 0x03); ("DW_UT_skeleton", 0x04); ("DW_UT_split_compile", 0x05)].

Definition DW_FORM : enum :=
  [("DW_FORM_addr", 0x01); ("DW_FORM_block2", 0x03); ("DW_FORM_block4", 0x04); ("DW_FORM_data2", 0x05);
   ("DW_FORM_data4", 0x06); ("DW_FORM_data8", 0x07); ("DW_FORM_string", 0x08); ("DW_FORM_block", 0x09);
   ("DW_FORM_block1", 0x0a); ("DW_FORM_data1", 0x0b); ("DW_FORM_flag", 0x0c); ("DW_FORM_sdata", 0x0d);
   ("DW_FORM_strp", 0x0e); ("DW_FORM_udata", 0x0f); ("DW_FORM_ref_addr", 0x10); ("DW_FORM_ref1", 0x11);
   ("DW_FORM_ref2", 0x12); ("DW_FORM_ref4", 0x13); ("DW_FORM_ref8", 0x14); ("DW_FORM_ref_udata", 0x15);
   ("DW_FORM_indirect", 0x16); ("DW_FORM_sec_offset", 0x17); ("DW_FORM_exprloc", 0x18);
   ("DW_FORM_flag_present", 0x19); ("DW_FORM_strx", 0x1a); ("DW_FORM_addrx", 0x1b);
   ("DW_FORM_ref_sup4", 0x1c); ("DW_FORM_strp_sup", 0x1d); ("DW_FORM_data16", 0x1e);
   ("DW_FORM_line_strp", 0x1f); ("DW_FORM_ref_sig8", 0x20); ("DW_FORM_implicit_const", 0x21);
   ("DW_FORM_loclistx", 0x22); ("DW_FORM_rnglistx", 0x23); ("DW_FORM_ref_sup8", 0x24);
   ("DW_FORM_strx1", 0x25); ("DW_FORM_strx2", 0x26); ("DW_FORM_strx3", 0x27); ("DW_FORM_strx4", 0x28);
   ("DW_FORM_addrx1", 0x29); ("DW_FORM_addrx2", 0x2a); ("DW_FORM_addrx3", 0x2b); ("DW_FORM_addrx4", 0x2c)].

Definition DW_RLE : enum :=
  [("DW_RLE_end_of_list", 0x00); ("DW_RLE_base_addressx", 0x01); ("DW_RLE_startx_endx", 0x02);
   ("DW_RLE_startx_length", 0x03); ("DW_RLE_offset_pair", 0x04); ("DW_RLE_base_address", 0x05);
   ("DW_RLE_start_end", 0x06); ("DW_RLE_start_length", 0x07)].

Definition UNWIND_SECTION : enum :=
  [("UNWIND_SECTION_VERSION", 1); ("UNWIND_SECOND_LEVEL_REGULAR", 2); ("UNWIND_SECOND_LEVEL_COMPRESSED", 3);
   ("UNWIND_PERSONALITY_MASK", 0x30000000)].

Definition UNWIND_MODE : enum :=
  [("UNWIND_MODE_MASK", 0x0f000000); ("UNWIND_ARM64_MODE_DWARF", 0x03000000);
   ("UNWIND_X86_64_MODE_STACK_IND", 0x03000000); ("UNWIND_X86_64_MODE_DWARF", 0x04000000)].

Definition CS : enum :=
  [("CSMAGIC_EMBEDDED_SIGNATURE", 0xfade0cc0); ("CS_SUPPORTSEXECSEG", 0x20400);
   ("CSMAGIC_CODEDIRECTORY", 0xfade0c02); ("CSSLOT_CODEDIRECTORY", 0); ("CS_ADHOC", 0x00000002);
   ("CS_LINKER_SIGNED", 0x00020000); ("CS_EXECSEG_MAIN_BINARY", 1); ("CS_HASHTYPE_SHA256", 2)].

Definition DYLD_CHAINED_PTR : enum :=
  [("DYLD_CHAINED_PTR_ARM64E", 1); ("DYLD_CHAINED_PTR_64", 2); ("DYLD_CHAINED_PTR_32", 3);
   ("DYLD_CHAINED_PTR_32_CACHE", 4); ("DYLD_CHAINED_PTR_32_FIRMWARE", 5);
   ("DYLD_CHAINED_PTR_START_NONE", 0xFFFF); ("DYLD_CHAINED_PTR_START_MULTI", 0x8000);
   ("DYLD_CHAINED_PTR_START_LAST", 0x8000)].

Definition DYLD_CHAINED_IMPORT_kind : enum :=
  [("DYLD_CHAINED_IMPORT", 1); ("DYLD_CHAINED_IMPORT_ADDEND", 2); ("DYLD_CHAINED_IMPORT_ADDEND64", 3)].

Definition DYLD_CHAINED_PTR_OFFSET : enum :=
  [("DYLD_CHAINED_PTR_64_OFFSET", 6); ("DYLD_CHAINED_PTR_ARM64E_OFFSET", 7)].

(** ** Targets *)

Inductive machine := ARM64 | ARM64_32 | X86_64.

#[export] Instance machine_eq_dec : EqDecision machine.
Proof. solve_decision. Defined.

Definition is_arm (m : machine) : bool := bool_decide (m = ARM64) || bool_decide (m = ARM64_32).
Definition is_x86 (m : machine) : bool := bool_decide (m = X86_64).

Definition cases_ARM64 : list string :=
  ["ARM64_RELOC_UNSIGNED"; "ARM64_RELOC_SUBTRACTOR"; "ARM64_RELOC_BRANCH26"; "ARM64_RELOC_PAGE21";
   "ARM64_RELOC_PAGEOFF12"; "ARM64_RELOC_GOT_LOAD_PAGE21"; "ARM64_RELOC_GOT_LOAD_PAGEOFF12";
   "ARM64_RELOC_POINTER_TO_GOT"; "ARM64_RELOC_TLVP_LOAD_PAGE21"; "ARM64_RELOC_TLVP_LOAD_PAGEOFF12";
   "ARM64_RELOC_ADDEND"].

Definition cases_X86_64 : list string :=
  ["X86_64_RELOC_UNSIGNED"; "X86_64_RELOC_SIGNED"; "X86_64_RELOC_BRANCH"; "X86_64_RELOC_GOT_LOAD";
   "X86_64_RELOC_GOT"; "X86_64_RELOC_SUBTRACTOR"; "X86_64_RELOC_SIGNED_1"; "X86_64_RELOC_SIGNED_2";
   "X86_64_RELOC_SIGNED_4"; "X86_64_RELOC_TLV"].

(** [rel_to_string] is specialised for ARM64 and X86_64. *)
Definition rel_to_string (e : enum) (cases : list string) (type : Z) : string :=
  match switch_name e cases type with
  | Some n => n
  | None => "unknown (" +:+ to_string type +:+ ")"
  end.

Definition rel_to_string_ARM64 : Z -> string := rel_to_string ARM64_RELOC cases_ARM64.
Definition rel_to_string_X86_64 : Z -> string := rel_to_string X86_64_RELOC cases_X86_64.

Record target := mkTarget {
  cputype : Z; cpusubtype : Z; page_size : Z; abs_rel : Z; subtractor_rel : Z; gotpc_rel : Z;
  stub_size : Z; stub_helper_hdr_size : Z; stub_helper_size : Z; unwind_mode_dwarf : Z }.

Definition target_ARM64 : target :=
  {| cputype := constant CPU_TYPE "CPU_TYPE_ARM64";
     cpusubtype := constant CPU_SUBTYPE "CPU_SUBTYPE_ARM64_ALL"; page_size := 16384;
     abs_rel := constant ARM64_RELOC "ARM64_RELOC_UNSIGNED";
     subtractor_rel := constant ARM64_RELOC "ARM64_RELOC_SUBTRACTOR";
     gotpc_rel := constant ARM64_RELOC "ARM64_RELOC_POINTER_TO_GOT"; stub_size := 12;
     stub_helper_hdr_size := 24; stub_helper_size := 12;
     unwind_mode_dwarf := constant UNWIND_MODE "UNWIND_ARM64_MODE_DWARF" |}.

Definition target_ARM64_32 : target :=
  {| cputype := constant CPU_TYPE "CPU_TYPE_ARM64_32";
     cpusubtype := constant CPU_SUBTYPE "CPU_SUBTYPE_ARM64_ALL"; page_size := 16384;
     abs_rel := constant ARM64_RELOC "ARM64_RELOC_UNSIGNED";
     subtractor_rel := constant ARM64_RELOC "ARM64_RELOC_SUBTRACTOR";
     gotpc_rel := constant ARM64_RELOC "ARM64_RELOC_POINTER_TO_GOT"; stub_size := 12;
     stub_helper_hdr_size := 24; stub_helper_size := 12;
     unwind_mode_dwarf := constant UNWIND_MODE "UNWIND_ARM64_MODE_DWARF" |}.

Definition target_X86_64 : target :=
  {| cputype := constant CPU_TYPE "CPU_TYPE_X86_64";
     cpusubtype := constant CPU_SUBTYPE "CPU_SUBTYPE_X86_64_ALL"; page_size := 4096;
     abs_rel := constant X86_64_RELOC "X86_64_RELOC_UNSIGNED";
     subtractor_rel := constant X86_64_RELOC "X86_64_RELOC_SUBTRACTOR";
     gotpc_rel := constant X86_64_RELOC "X86_64_RELOC_GOT"; stub_size := 6; stub_helper_hdr_size := 16;
     stub_helper_size := 10; unwind_mode_dwarf := constant UNWIND_MODE "UNWIND_X86_64_MODE_DWARF" |}.

Definition target_of (m : machine) : target :=
  match m with ARM64 => target_ARM64 | ARM64_32 => target_ARM64_32 | X86_64 => target_X86_64 end.

(** ** Structures

    The bit-fields of these structures are declared once, for a little-endian
    host. *)

Section Structs.
Context (m : machine).

Definition Word : int_field := if bool_decide (m = ARM64_32) then ul32 else ul64.
Definition IWord : int_field := if bool_decide (m = ARM64_32) then il32 else il64.

Definition FatHeader : list member :=
  [MInt "magic" ub32; MInt "nfat_arch" ub32].

Definition FatArch : list member :=
  [MInt "cputype" ub32; MInt "cpusubtype" ub32; MInt "offset" ub32; MInt "size" ub32; MInt "align" ub32].

Definition MachHeader : list member :=
  [MInt "magic" ul32; MInt "cputype" ul32; MInt "cpusubtype" ul32; MInt "filetype" ul32; MInt "ncmds" ul32;
   MInt "sizeofcmds" ul32; MInt "flags" ul32; MInt "reserved" ul32].

Definition LoadCommand : list member :=
  [MInt "cmd" ul32; MInt "cmdsize" ul32].

Definition SegmentCommand : list member :=
  [MInt "cmd" ul32; MInt "cmdsize" ul32; MBytes "segname" 16; MInt "vmaddr" Word; MInt "vmsize" Word;
   MInt "fileoff" Word; MInt "filesize" Word; MInt "maxprot" ul32; MInt "initprot" ul32; MInt "nsects" ul32;
   MInt "flags" ul32].

Definition MachSection : list member :=
  [MBytes "sectname" 16; MBytes "segname" 16; MInt "addr" Word; MInt "size" Word; MInt "offset" ul32;
   MInt "p2align" ul32; MInt "reloff" ul32; MInt "nreloc" ul32; MU8 "type"; MInt "attr" ul24;
   MInt "reserved1" ul32; MInt "reserved2" ul32; MInt "reserved3" ul32].

Definition DylibCommand : list member :=
  [MInt "cmd" ul32; MInt "cmdsize" ul32; MInt "nameoff" ul32; MInt "timestamp" ul32;
   MInt "current_version" ul32; MInt "compatibility_version" ul32].

Definition DylinkerCommand : list member :=
  [MInt "cmd" ul32; MInt "cmdsize" ul32; MInt "nameoff" ul32].

Definition SymtabCommand : list member :=
  [MInt "cmd" ul32; MInt "cmdsize" ul32; MInt "symoff" ul32; MInt "nsyms" ul32; MInt "stroff" ul32;
   MInt "strsize" ul32].

Definition DysymtabCommand : list member :=
  [MInt "cmd" ul32; MInt "cmdsize" ul32; MInt "ilocalsym" ul32; MInt "nlocalsym" ul32; MInt "iextdefsym" ul32;
   MInt "nextdefsym" ul32; MInt "iundefsym" ul32; MInt "nundefsym" ul32; MInt "tocoff" ul32; MInt "ntoc" ul32;
   MInt "modtaboff" ul32; MInt "nmodtab" ul32; MInt "extrefsymoff" ul32; MInt "nextrefsyms" ul32;
   MInt "indirectsymoff" ul32; MInt "nindirectsyms" ul32; MInt "extreloff" ul32; MInt "nextrel" ul32;
   MInt "locreloff" ul32; MInt "nlocrel" ul32].

Definition VersionMinCommand : list member :=
  [MInt "cmd" ul32; MInt "cmdsize" ul32; MInt "version" ul32; MInt "sdk" ul32].

Definition DyldInfoCommand : list member :=
  [MInt "cmd" ul32; MInt "cmdsize" ul32; MInt "rebase_off" ul32; MInt "rebase_size" ul32;
   MInt "bind_off" ul32; MInt "bind_size" ul32; MInt "weak_bind_off" ul32; MInt "weak_bind_size" ul32;
   MInt "lazy_bind_off" ul32; MInt "lazy_bind_size" ul32; MInt "export_off" ul32; MInt "export_size" ul32].

Definition UUIDCommand : list member :=
  [MInt "cmd" ul32; MInt "cmdsize" ul32; MBytes "uuid" 16].

Definition RpathCommand : list member :=
  [MInt "cmd" ul32; MInt "cmdsize" ul32; MInt "path_off" ul32].

Definition LinkEditDataCommand : list member :=
  [MInt "cmd" ul32; MInt "cmdsize" ul32; MInt "dataoff" ul32; MInt "datasize" ul32].

Definition BuildToolVersion : list member :=
  [MInt "tool" ul32; MInt "version" ul32].

Definition BuildVersionCommand : list member :=
  [MInt "cmd" ul32; MInt "cmdsize" ul32; MInt "platform" ul32; MInt "minos" ul32; MInt "sdk" ul32;
   MInt "ntools" ul32].

Definition EntryPointCommand : list member :=
  [MInt "cmd" ul32; MInt "cmdsize" ul32; MInt "entryoff" ul64; MInt "stacksize" ul64].

Definition SourceVersionCommand : list member :=
  [MInt "cmd" ul32; MInt "cmdsize" ul32; MInt "version" ul64].

Definition DataInCodeEntry : list member :=
  [MInt "offset" ul32; MInt "length" ul16; MInt "kind" ul16].

Definition UmbrellaCommand : list member :=
  [MInt "cmd" ul32; MInt "cmdsize" ul32; MInt "umbrella_off" ul32].

Definition LinkerOptionCommand : list member :=
  [MInt "cmd" ul32; MInt "cmdsize" ul32; MInt "count" ul32].

(** [MachSym] has two unions: the type byte as a whole or as bit-fields, and the
    descriptor as a whole or with the alignment of a common symbol in its second
    byte. *)
Definition MachSym : list member :=
  [MInt "stroff" ul32;
   MBits 1 [(Some "is_extern", 1); (Some "type", 3); (Some "is_private_extern", 1); (Some "stab", 3)];
   MU8 "sect"; MInt "desc" ul16; MInt "value" Word].

Definition MachSym_raw : list member :=
  [MInt "stroff" ul32; MU8 "n_type"; MU8 "sect"; MU8 "padding";
   MBits 1 [(Some "common_p2align", 4); (None, 4)]; MInt "value" Word].

Definition MachRel : list member :=
  [MInt "offset" ul32; MInt "idx" ul24;
   MBits 1 [(Some "is_pcrel", 1); (Some "p2size", 2); (Some "is_extern", 1); (Some "type", 4)]].

Definition UnwindSectionHeader : list member :=
  [MInt "version" ul32; MInt "encoding_offset" ul32; MInt "encoding_count" ul32;
   MInt "personality_offset" ul32; MInt "personality_count" ul32; MInt "page_offset" ul32;
   MInt "page_count" ul32].

Definition UnwindFirstLevelPage : list member :=
  [MInt "func_addr" ul32; MInt "page_offset" ul32; MInt "lsda_offset" ul32].

Definition UnwindSecondLevelPage : list member :=
  [MInt "kind" ul32; MInt "page_offset" ul16; MInt "page_count" ul16; MInt "encoding_offset" ul16;
   MInt "encoding_count" ul16].

Definition UnwindLsdaEntry : list member :=
  [MInt "func_addr" ul32; MInt "lsda_addr" ul32].

Definition UnwindPageEntry : list member :=
  [MInt "func_addr" ul24; MU8 "encoding"].

Definition CompactUnwindEntry : list member :=
  [MInt "code_start" Word; MInt "code_len" ul32; MInt "encoding" ul32; MInt "personality" Word;
   MInt "lsda" Word].

Definition CodeSignatureHeader : list member :=
  [MInt "magic" ub32; MInt "length" ub32; MInt "count" ub32].

Definition CodeSignatureBlobIndex : list member :=
  [MInt "type" ub32; MInt "offset" ub32; MInt "padding" ub32].

Definition CodeSignatureDirectory : list member :=
  [MInt "magic" ub32; MInt "length" ub32; MInt "version" ub32; MInt "flags" ub32; MInt "hash_offset" ub32;
   MInt "ident_offset" ub32; MInt "n_special_slots" ub32; MInt "n_code_slots" ub32; MInt "code_limit" ub32;
   MU8 "hash_size"; MU8 "hash_type"; MU8 "platform"; MU8 "page_size"; MInt "spare2" ub32;
   MInt "scatter_offset" ub32; MInt "team_offset" ub32; MInt "spare3" ub32; MInt "code_limit64" ub64;
   MInt "exec_seg_base" ub64; MInt "exec_seg_limit" ub64; MInt "exec_seg_flags" ub64].

Definition ObjcImageInfo : list member :=
  [MInt "version" ul32; MU8 "flags"; MU8 "swift_version"; MInt "swift_lang_version" ul16].

Definition DyldChainedFixupsHeader : list member :=
  [MInt "fixups_version" ul32; MInt "starts_offset" ul32; MInt "imports_offset" ul32;
   MInt "symbols_offset" ul32; MInt "imports_count" ul32; MInt "imports_format" ul32;
   MInt "symbols_format" ul32].

Definition DyldChainedStartsInImage : list member :=
  [MInt "seg_count" ul32].

Definition DyldChainedStartsInSegment : list member :=
  [MInt "size" ul32; MInt "page_size" ul16; MInt "pointer_format" ul16; MInt "segment_offset" ul64;
   MInt "max_valid_pointer" ul32; MInt "page_count" ul16].

Definition DyldChainedPtr64Rebase : list member :=
  [MBits 8 [(Some "target", 36); (Some "high8", 8); (Some "reserved", 7); (Some "next", 12); (Some "bind", 1)]].

Definition DyldChainedPtr64Bind : list member :=
  [MBits 8 [(Some "ordinal", 24); (Some "addend", 8); (Some "reserved", 19); (Some "next", 12); (Some "bind", 1)]].

Definition DyldChainedImport : list member :=
  [MBits 4 [(Some "lib_ordinal", 8); (Some "weak_import", 1); (Some "name_offset", 23)]].

Definition DyldChainedImportAddend : list member :=
  [MBits 4 [(Some "lib_ordinal", 8); (Some "weak_import", 1); (Some "name_offset", 23)];
   MBits 4 [(Some "addend", 32)]].

Definition DyldChainedImportAddend64 : list member :=
  [MBits 8 [(Some "lib_ordinal", 16); (Some "weak_import", 1); (Some "reserved", 15); (Some "name_offset", 32)];
   MBits 8 [(Some "addend", 64)]].

(** Every structure with its size in the 64-bit and the 32-bit file format. *)
Definition macho_structs : list (list member * (nat * nat)) :=
  [(FatHeader, (8, 8)); (FatArch, (20, 20)); (MachHeader, (32, 28)); (LoadCommand, (8, 8));
   (SegmentCommand, (72, 56)); (MachSection, (80, 68)); (DylibCommand, (24, 24)); (DylinkerCommand, (12, 12));
   (SymtabCommand, (24, 24)); (DysymtabCommand, (80, 80)); (VersionMinCommand, (16, 16));
   (DyldInfoCommand, (48, 48)); (UUIDCommand, (24, 24)); (RpathCommand, (12, 12));
   (LinkEditDataCommand, (16, 16)); (BuildToolVersion, (8, 8)); (BuildVersionCommand, (24, 24));
   (EntryPointCommand, (24, 24)); (SourceVersionCommand, (16, 16)); (DataInCodeEntry, (8, 8));
   (UmbrellaCommand, (12, 12)); (LinkerOptionCommand, (12, 12)); (MachSym, (16, 12)); (MachSym_raw, (16, 12));
   (MachRel, (8, 8)); (UnwindSectionHeader, (28, 28)); (UnwindFirstLevelPage, (12, 12));
   (UnwindSecondLevelPage, (12, 12)); (UnwindLsdaEntry, (8, 8)); (UnwindPageEntry, (4, 4));
   (CompactUnwindEntry, (32, 20)); (CodeSignatureHeader, (12, 12)); (CodeSignatureBlobIndex, (12, 12));
   (CodeSignatureDirectory, (88, 88)); (ObjcImageInfo, (8, 8)); (DyldChainedFixupsHeader, (28, 28));
   (DyldChainedStartsInImage, (4, 4)); (DyldChainedStartsInSegment, (22, 22));
   (DyldChainedPtr64Rebase, (8, 8)); (DyldChainedPtr64Bind, (8, 8)); (DyldChainedImport, (4, 4));
   (DyldChainedImportAddend, (8, 8)); (DyldChainedImportAddend64, (16, 16))]%nat.

End Structs.

(** ** Methods *)

(** [SegmentCommand::get_segname], [MachSection::get_segname] and [get_sectname]:
    [strnlen] of a 16-byte array. *)
Fixpoint strnlen (l : bytes) : nat :=
  match l with [] => O | b :: l' => if b =? 0 then O else S (strnlen l') end.

Definition get_name (field : bytes) : bytes := take (strnlen field) field.

(** [MachSection::set_segname] and [set_sectname]: [memcpy] into the array; a
    longer name fails the assertion. *)
Definition set_name (field name : bytes) : option bytes :=
  if decide (length name <= length field)%nat then Some (name ++ drop (length name) field) else None.

(** [MachSection::match] *)
Definition section_match (segfield sectfield segname sectname : bytes) : bool :=
  bool_decide (get_name segfield = segname) && bool_decide (get_name sectfield = sectname).

Definition is_text (sec : string -> value) : bool :=
  let attr := int_of (sec "attr") in
  negb (Z.land attr (constant S_ATTR "S_ATTR_SOME_INSTRUCTIONS") =? 0)
  || negb (Z.land attr (constant S_ATTR "S_ATTR_PURE_INSTRUCTIONS") =? 0).

(** [MachSym::is_common] and [is_undef] *)
Definition is_common (sym : string -> value) : bool :=
  (int_of (sym "type") =? constant N_type "N_UNDF") && negb (int_of (sym "is_extern") =? 0)
  && negb (int_of (sym "value") =? 0).
Definition is_undef (sym : string -> value) : bool :=
  (int_of (sym "type") =? constant N_type "N_UNDF") && negb (is_common sym).

(** ** Properties *)

#[export] Instance member_eq_dec : EqDecision member.
Proof. solve_decision. Defined.

(** The 32-bit format has no [reserved] in the file header and no [reserved3] in a
    section; macho.h declares them for every target. *)
Definition surplus (m : machine) (l : list member) : nat :=
  if decide (m = ARM64_32 /\ (l = MachHeader \/ l = MachSection ARM64_32)) then 4%nat else 0%nat.

Definition struct_ok (m : machine) (x : list member * (nat * nat)) : Prop :=
  Forall member_wf x.1 /\ sizeof x.1 = ((if decide (m = ARM64_32) then x.2.2 else x.2.1) + surplus m x.1)%nat.

Lemma macho_structs_ok m : Forall (struct_ok m) (macho_structs m).
Proof. unfold struct_ok. destruct m; decided. Qed.

(** every Mach-O structure that the linker lays over a file has the size of
    the file format on the 64-bit targets; on ARM64_32 the file header and the
    section header are four bytes longer than in the 32-bit format. On a
    little-endian host, what is stored in the members is read back unchanged. *)
Theorem macho_struct_roundtrip (m : machine) (i : nat) (l : list member) (size : nat * nat) (env : string -> value) :
  macho_structs m !! i = Some (l, size) -> contents_ok env l ->
  exists b, encode little l env = Some b /\ length b = ((if decide (m = ARM64_32) then size.2 else size.1) + surplus m l)%nat /\
    all_bytes b /\ decode little l b = Some (map (fun n => (n, env n)) (names l)).
Proof.
  intros Hi Hok. pose proof (macho_structs_ok m) as Hall. rewrite Forall_forall in Hall.
  destruct (Hall _ (list_elem_of_lookup_2 _ _ _ Hi)) as (H1 & H2). cbn [fst snd] in *.
  destruct (layout_roundtrip little l env H1 Hok) as (b & E & L & A & D). exists b.
  pose proof (host_names_for_host little l) as Hn. cbn [for_host] in Hn. rewrite Hn in D. rewrite <- H2. auto.
Qed.

Definition sample_rel (n : string) : value :=
  VInt (if decide (n = "idx") then 0x123456 else if decide (n = "p2size") then 2 else 1).

Lemma macho_struct_roundtrip_witness :
  exists b, encode little MachRel sample_rel = Some b /\ length b = (8 + surplus ARM64 MachRel)%nat /\
    all_bytes b /\ decode little MachRel b = Some (map (fun n => (n, sample_rel n)) (names MachRel)).
Proof.
  apply (macho_struct_roundtrip ARM64 24 MachRel (8, 8)%nat sample_rel); [reflexivity|].
  unfold MachRel.
  repeat constructor; eexists; (split; [reflexivity|]);
    first [split; [vm_compute; split; congruence|left; reflexivity]
      | split; [vm_compute; split; congruence|right; vm_compute; split; congruence]
      | vm_compute; split; congruence].
Defined.

(** The four fields of a symbol's type byte. *)
Definition sym_type_ok (env : string -> value) (e t p s : Z) : Prop :=
  env "is_extern" = VInt e /\ env "type" = VInt t /\ env "is_private_extern" = VInt p /\ env "stab" = VInt s /\
  is_u 1 e /\ is_u 3 t /\ is_u 1 p /\ is_u 3 s.

Lemma sym_type_byte h m env b : contents_ok env (MachSym m) -> encode h (MachSym m) env = Some b ->
  exists b1 b2, length b1 = 4%nat /\ b = b1 ++ pack env (bit_order h
    [(Some "is_extern", 1); (Some "type", 3); (Some "is_private_extern", 1); (Some "stab", 3)]) mod 256 :: b2.
Proof.
  intros Hok E. unfold contents_ok, MachSym in Hok. inversion Hok as [|?? Ho Hok']; subst.
  destruct (encode_app h [MInt "stroff" ul32] _ env b ltac:(decided) ltac:(by constructor) E)
    as (b1 & b2 & -> & L1 & E2).
  cbn [encode] in E2. destruct (encode_member h env (MBits 1 _)) as [bi|] eqn:Ei; [|done].
  cbn [mbind option_bind] in E2. destruct (b ← encode_member h env (MU8 "sect"); _) as [b3|]; [|done].
  injection E2 as <-. exists b1, b3. split; [done|]. f_equal. cbn [encode_member] in Ei.
  destruct h; injection Ei as <-; done.
Qed.

(** the type byte of [MachSym] carries the format's masks N_EXT (1), N_TYPE
    (0x0e), N_PEXT (0x10) and N_STAB (0xe0), and the union's [n_type] reads this
    byte, on a little-endian host. On a big-endian host the same declaration puts
    the fields at other bits, unlike what the head of integers.h asks of a cross
    linker. *)
Theorem macho_sym_type (m : machine) (env : string -> value) (e t p s : Z) :
  contents_ok env (MachSym m) -> sym_type_ok env e t p s ->
  exists bl bb, encode little (MachSym m) env = Some bl /\ encode big (MachSym m) env = Some bb /\
    bl !! 4%nat = Some (e + 2 * t + 16 * p + 32 * s) /\
    bb !! 4%nat = Some (128 * e + 16 * t + 8 * p + s) /\
    (forall kvs, decode little (MachSym_raw m) bl = Some kvs -> ("n_type", VInt (e + 2 * t + 16 * p + 32 * s)) ∈ kvs).
Proof.
  intros Hok (E1 & E2 & E3 & E4 & R1 & R2 & R3 & R4).
  assert (Hwf : Forall member_wf (MachSym m)) by (destruct m; decided).
  destruct (layout_roundtrip little _ env Hwf Hok) as (bl & El & _ & _ & _).
  destruct (layout_roundtrip big _ env Hwf Hok) as (bb & Eb & _ & _ & _).
  exists bl, bb. split; [done|]. split; [done|].
  destruct (sym_type_byte little m env bl Hok El) as (l1 & l2 & L1 & ->).
  destruct (sym_type_byte big m env bb Hok Eb) as (m1 & m2 & L2 & ->).
  cbn [bit_order reverse rev_append pack] in *. rewrite E1, E2, E3, E4. cbn [int_of]. rewrite !wrap_small by done.
  assert (V : (e + 2 ^ 1 * (t + 2 ^ 3 * (p + 2 ^ 1 * (s + 2 ^ 3 * 0)))) mod 256 = e + 2 * t + 16 * p + 32 * s) by dlia.
  rewrite V. split; [|split].
  - rewrite <- L1. by rewrite list_lookup_middle.
  - rewrite <- L2. rewrite list_lookup_middle by done. f_equal. dlia.
  - intros kvs. do 4 (destruct l1 as [|? l1]; [done|]). destruct l1; [|done].
    set (nt := e + 2 * t + 16 * p + 32 * s) in *.
    unfold MachSym_raw. generalize [MU8 "sect"; MU8 "padding"; MBits 1 [(Some "common_p2align", 4); (None, 4)]; MInt "value" (Word m)].
    intros r. cbn [app decode member_size if_size ul32 MU8 length take drop].
    rewrite decide_True by lia. destruct (decode_member little (MInt "stroff" ul32) _) as [k0|]; [|done].
    cbn [mbind option_bind]. rewrite decide_True by lia.
    cbn [decode_member bit_order host_load le_load unpack app mbind option_bind].
    destruct (decode little r (drop 0 l2)) as [kr|]; [|done]. cbn [mbind option_bind app]. intros [= <-].
    apply elem_of_app. right. replace (wrap 8 (nt + 256 * 0)) with nt; [left|].
    rewrite wrap_small; [lia|]. unfold nt. warith.
Qed.

Definition sample_nlist (n : string) : value :=
  VInt (if decide (n = "is_extern") then 1 else if decide (n = "type") then 7 else if decide (n = "stab") then 4 else 0).

Lemma macho_sym_type_witness :
  exists bl bb, encode little (MachSym ARM64) sample_nlist = Some bl /\ encode big (MachSym ARM64) sample_nlist = Some bb /\
    bl !! 4%nat = Some (1 + 2 * 7 + 16 * 0 + 32 * 4) /\
    bb !! 4%nat = Some (128 * 1 + 16 * 7 + 8 * 0 + 4) /\
    (forall kvs, decode little (MachSym_raw ARM64) bl = Some kvs -> ("n_type", VInt (1 + 2 * 7 + 16 * 0 + 32 * 4)) ∈ kvs).
Proof.
  apply (macho_sym_type ARM64 sample_nlist 1 7 0 4).
  - unfold MachSym.
    repeat constructor; eexists; (split; [reflexivity|]);
      first [split; [vm_compute; split; congruence|left; reflexivity] | vm_compute; split; congruence].
  - unfold sym_type_ok. repeat split; try reflexivity; vm_compute; congruence.
Defined.

(** Names without NUL that fit the array. *)
Definition name_ok (name : bytes) (k : nat) : Prop := Forall (fun c => c ≠ 0) name /\ (length name <= k)%nat.

Lemma strnlen_app name l : Forall (fun c => c ≠ 0) name -> strnlen (name ++ l) = (length name + strnlen l)%nat.
Proof.
  induction 1 as [|c name Hc Hn IH]; simpl; [done|]. destruct (Z.eqb_spec c 0); [done|]. by rewrite IH.
Qed.

Lemma strnlen_zeros k : strnlen (replicate k 0) = 0%nat.
Proof. by destruct k. Qed.

(** a section or segment name of at most sixteen bytes without NUL is set
    without overflow and read back, also when it fills the array and has no
    terminator, provided the array was zero before; over an older, longer name the
    setter leaves its tail behind, as it does not clear the array. *)
Theorem set_get_name (name old : bytes) :
  name_ok name 16 -> name_ok old 16 ->
  set_name (replicate 16 0) name = Some (name ++ replicate (16 - length name) 0) /\
  get_name (name ++ replicate (16 - length name) 0) = name /\
  (forall f, set_name (old ++ replicate (16 - length old) 0) name = Some f ->
     length f = 16%nat /\ get_name f = name ++ drop (length name) old).
Proof.
  intros [Hn Ln] [Ho Lo]. split; [|split].
  - unfold set_name. rewrite decide_True by (rewrite length_replicate; lia). by rewrite drop_replicate.
  - unfold get_name. rewrite strnlen_app, strnlen_zeros by done. by rewrite Nat.add_0_r, take_app_length.
  - unfold set_name. rewrite decide_True by (rewrite length_app, length_replicate; lia). intros f [= <-].
    split; [rewrite length_app, length_drop, length_app, length_replicate; lia|].
    unfold get_name. rewrite strnlen_app by done. rewrite take_app_add. f_equal.
    destruct (Nat.le_gt_cases (length name) (length old)).
    + rewrite drop_app_le by done. assert (Hd : Forall (fun c => c ≠ 0) (drop (length name) old)) by (by apply Forall_drop).
      rewrite strnlen_app, strnlen_zeros by done. by rewrite Nat.add_0_r, take_app_length.
    + rewrite drop_app_ge by lia. rewrite drop_replicate, strnlen_zeros, (drop_ge old) by lia. done.
Qed.

Lemma set_get_name_witness :
  set_name (replicate 16 0) (bs "__text") = Some (bs "__text" ++ replicate (16 - length (bs "__text")) 0) /\
  get_name (bs "__text" ++ replicate (16 - length (bs "__text")) 0) = bs "__text" /\
  (forall f, set_name (bs "__textcoal_nt" ++ replicate (16 - length (bs "__textcoal_nt")) 0) (bs "__text") = Some f ->
     length f = 16%nat /\ get_name f = bs "__text" ++ drop (length (bs "__text")) (bs "__textcoal_nt")).
Proof. apply (set_get_name (bs "__text") (bs "__textcoal_nt")); unfold name_ok; decided. Defined.
