(* ===== verification/DeadStrip.v ===== *)
(** * Dead stripping (src/macho/dead-strip.cc)

    [dead_strip] keeps the subsections that are reachable from a root set, and the
    "live support" sections that refer to something kept, and removes the rest.
    The marking is modelled twice: as the sequential functions [visit], [mark] and
    [sweep] of the source, and as a transition system in which any number of
    threads interleave, since [tbb::parallel_for_each] runs the visits in parallel
    and the atomic [test_and_set] is what synchronises them. The theorems: both
    end in the same set, the least one closed under the rules, and the sweep
    leaves no reference to a removed subsection. *)

From stdpp Require Import fin_sets.
From S2P Require Import Prelude Enums MachoTypes.

(** ** The part of the link the pass reads

    Pointers are identifiers: of symbols, of subsections, of files. *)

Inductive rel_target := RelSym (sym : Z) | RelSubsec (subsec : Z).

Record UnwindRecord := mkUnwind {
  rec_subsec : option Z; rec_lsda : option Z; rec_personality : option Z;
  rec_fde : option (option Z * option Z) (* subsec, lsda *) }.

(** A subsection with the attributes of its section header. *)
Record Subsection := mkSubsection {
  hdr_attr : Z; hdr_type : Z; get_rels : list rel_target; get_unwind_records : list UnwindRecord }.

Record Symbol := mkSymbol {
  file : option Z; subsec : option Z; no_dead_strip : bool; visibility : Z }.

Record ObjectFile := mkObjectFile {
  file_id : Z; syms : list Z; init_functions : list (option Z); subsections : list Z;
  cie_personalities : list (option Z) }.

(** [arg_u], [entry] and [dyld_stub_binder] are what [get_symbol] returns for the
    names. *)
Record Context := mkContext {
  symbols : gmap Z Symbol; subsecs : gmap Z Subsection; objs : list ObjectFile;
  output_type : Z; arg_u : list Z; entry : option Z; stub_helper : bool; dyld_stub_binder : Z }.

Definition SCOPE_GLOBAL : Z := 2.
Definition MH_DYLIB : Z := constant MH_filetype "MH_DYLIB".
Definition MH_BUNDLE : Z := constant MH_filetype "MH_BUNDLE".
Definition S_ATTR_NO_DEAD_STRIP : Z := constant S_ATTR "S_ATTR_NO_DEAD_STRIP".
Definition S_ATTR_LIVE_SUPPORT : Z := constant S_ATTR "S_ATTR_LIVE_SUPPORT".
Definition S_MOD_INIT_FUNC_POINTERS : Z := constant S_type "S_MOD_INIT_FUNC_POINTERS".
Definition S_MOD_TERM_FUNC_POINTERS : Z := constant S_type "S_MOD_TERM_FUNC_POINTERS".

Section Pass.
Context (ctx : Context).

Definition sym_subsec (s : Z) : option Z := symbols ctx !! s ≫= subsec.

(** ** Roots *)

(** [add]: the subsection of a symbol, if there is one. *)
Definition add (sym : option Z) : list Z :=
  match sym with Some s => option_list (sym_subsec s) | None => [] end.

Definition keep (sym : Symbol) : bool :=
  no_dead_strip sym
  || (((output_type ctx =? MH_DYLIB) || (output_type ctx =? MH_BUNDLE)) && (visibility sym =? SCOPE_GLOBAL)).

Definition owned (f : ObjectFile) (s : Z) : bool :=
  match symbols ctx !! s with Some sym => bool_decide (file sym = Some (file_id f)) | None => false end.

Definition has_attr (x : Z) (mask : Z) : bool :=
  match subsecs ctx !! x with Some s => negb (Z.land (hdr_attr s) mask =? 0) | None => false end.

Definition has_type (x : Z) (ty : Z) : bool :=
  match subsecs ctx !! x with Some s => hdr_type s =? ty | None => false end.

Definition file_roots (f : ObjectFile) : list Z :=
  concat (map (fun s => add (Some s))
    (List.filter (fun s => owned f s && match symbols ctx !! s with Some y => keep y | None => false end) (syms f)))
  ++ concat (map add (init_functions f))
  ++ List.filter (fun x => has_attr x S_ATTR_NO_DEAD_STRIP || has_type x S_MOD_INIT_FUNC_POINTERS
                      || has_type x S_MOD_TERM_FUNC_POINTERS) (subsections f)
  ++ concat (map add (cie_personalities f)).

Definition collect_root_set : list Z :=
  concat (map file_roots (objs ctx))
  ++ concat (map (fun s => match symbols ctx !! s with
                          | Some y => if bool_decide (is_Some (file y)) then add (Some s) else []
                          | None => [] end) (arg_u ctx))
  ++ add (entry ctx)
  ++ (if stub_helper ctx then add (Some (dyld_stub_binder ctx)) else []).

(** ** Marking *)

Definition rel_subsec (r : rel_target) : option Z :=
  match r with RelSym s => sym_subsec s | RelSubsec x => Some x end.

Definition unwind_succs (r : UnwindRecord) : list (option Z) :=
  [rec_subsec r; rec_lsda r]
  ++ (match rec_personality r with Some p => [sym_subsec p] | None => [] end)
  ++ (match rec_fde r with Some (s, l) => [s; l] | None => [] end).

(** The subsections that [visit] goes on to, null pointers included. *)
Definition succs (x : Z) : list (option Z) :=
  match subsecs ctx !! x with
  | Some s => map rel_subsec (get_rels s) ++ concat (map unwind_succs (get_unwind_records s))
  | None => []
  end.

Fixpoint visit_all (visit : gset Z -> option Z -> option (gset Z)) (alive : gset Z) (l : list (option Z))
  : option (gset Z) :=
  match l with
  | [] => Some alive
  | s :: l' => alive' ← visit alive s; visit_all visit alive' l'
  end.

(** [visit]; the state is the set of subsections whose [is_alive] is set, the fuel
    the depth of the recursion. *)
Fixpoint visit (fuel : nat) (alive : gset Z) (s : option Z) : option (gset Z) :=
  match s with
  | None => Some alive
  | Some x =>
      if decide (x ∈ alive) then Some alive
      else match fuel with
           | O => None
           | S fuel' => visit_all (visit fuel') ({[x]} ∪ alive) (succs x)
           end
  end.

Definition refers_to_live_subsection (alive : gset Z) (x : Z) : bool :=
  match subsecs ctx !! x with
  | Some s => existsb (fun r => match rel_subsec r with Some y => bool_decide (y ∈ alive) | None => false end) (get_rels s)
  | None => false
  end.

(** One round of the [do ... while (repeat)] loop over all subsections. *)
Fixpoint support_round (fuel : nat) (alive : gset Z) (repeat : bool) (l : list Z) : option (gset Z * bool) :=
  match l with
  | [] => Some (alive, repeat)
  | x :: l' =>
      if has_attr x S_ATTR_LIVE_SUPPORT && negb (bool_decide (x ∈ alive)) && refers_to_live_subsection alive x
      then alive' ← visit fuel alive (Some x); support_round fuel alive' true l'
      else support_round fuel alive repeat l'
  end.

Definition all_subsections : list Z := concat (map subsections (objs ctx)).

Fixpoint support_loop (rounds fuel : nat) (alive : gset Z) : option (gset Z) :=
  match rounds with
  | O => None
  | S rounds' =>
      '(alive', repeat) ← support_round fuel alive false all_subsections;
      if repeat : bool then support_loop rounds' fuel alive' else Some alive'
  end.

(** A visit goes no deeper than there are subsections, and every repeated round
    keeps one more. *)
Definition depth : nat := S (size (dom (subsecs ctx))).

Definition mark (rootset : list Z) : option (gset Z) :=
  alive ← visit_all (visit depth) ∅ (map Some rootset);
  support_loop depth depth alive.

(** ** Sweeping *)

(** The symbol table of a file after the sweep ([None] is a null pointer), and its
    subsections. *)
Definition sweep_syms (alive : gset Z) (f : ObjectFile) : list (option Z) :=
  map (fun s => if owned f s && (match sym_subsec s with Some x => negb (bool_decide (x ∈ alive)) | None => false end)
                then None else Some s) (syms f).

Definition sweep_subsections (alive : gset Z) (f : ObjectFile) : list Z :=
  List.filter (fun x => bool_decide (x ∈ alive)) (subsections f).

Definition dead_strip : option (list (list (option Z) * list Z)) :=
  alive ← mark collect_root_set;
  Some (map (fun f => (sweep_syms alive f, sweep_subsections alive f)) (objs ctx)).

(** ** What should be kept *)

Definition refers (x y : Z) : Prop := Some y ∈ succs x.

Inductive live : Z -> Prop :=
| live_root x : x ∈ collect_root_set -> live x
| live_ref x y : live x -> refers x y -> live y
| live_support x y : x ∈ all_subsections -> has_attr x S_ATTR_LIVE_SUPPORT = true ->
    (exists s r, subsecs ctx !! x = Some s /\ r ∈ get_rels s /\ rel_subsec r = Some y) -> live y -> live x.

(** ** The visit is correct *)

(** From [alive] to [alive'], nothing is lost, every new subsection is live and
    its references are marked. *)
Definition extends (alive alive' : gset Z) : Prop :=
  alive ⊆ alive' /\
  (forall y z, y ∈ alive' -> y ∉ alive -> refers y z -> z ∈ alive') /\
  ((forall y, y ∈ alive -> live y) -> forall y, y ∈ alive' -> live y).

Lemma extends_refl alive : extends alive alive.
Proof using Type. split; [done|]. split; [done|auto]. Qed.

Lemma extends_trans a b c : extends a b -> extends b c -> extends a c.
Proof using Type.
  intros (S1 & C1 & L1) (S2 & C2 & L2). split; [set_solver|]. split; [|auto].
  intros y z Hy Hny Hr. destruct (decide (y ∈ b)); [|by eapply C2]. apply S2. by eapply C1.
Qed.

Definition rank (alive : gset Z) : nat := size (dom (subsecs ctx) ∖ alive).

Lemma rank_mono a b : a ⊆ b -> (rank b <= rank a)%nat.
Proof using Type. intros. unfold rank. apply subseteq_size. set_solver. Qed.

Lemma rank_add a x : x ∈ dom (subsecs ctx) -> x ∉ a -> (rank ({[x]} ∪ a) < rank a)%nat.
Proof using Type. intros. unfold rank. apply subset_size. split; [set_solver|]. intros H1. specialize (H1 x). set_solver. Qed.

Lemma visit_all_spec fuel l : forall alive,
  (forall a s, (rank a <= rank alive)%nat -> (forall x, s = Some x -> x ∈ a \/ live x) ->
     exists a', visit fuel a s = Some a' /\ extends a a' /\ (forall x, s = Some x -> x ∈ a')) ->
  (forall x, Some x ∈ l -> x ∈ alive \/ live x) ->
  exists alive', visit_all (visit fuel) alive l = Some alive' /\ extends alive alive' /\
    forall x, Some x ∈ l -> x ∈ alive'.
Proof using Type.
  induction l as [|s l IH]; intros alive Hv Hl.
  { exists alive. split; [done|]. split; [apply extends_refl|]. intros x Hx. by apply elem_of_nil in Hx. }
  cbn [visit_all]. destruct (Hv alive s) as (a1 & -> & E1 & H1); [done|intros x ->; apply Hl; by left|].
  cbn [mbind option_bind]. destruct (IH a1) as (a2 & -> & E2 & H2).
  - intros a t Ha. apply Hv. etransitivity; [exact Ha|]. apply rank_mono, E1.
  - intros x Hx. destruct (Hl x ltac:(by right)) as [H|H]; [left; by apply E1|by right].
  - exists a2. split; [done|]. split; [by eapply extends_trans|]. intros x [<-|Hx]%elem_of_cons; [|by apply H2].
    apply E2. by apply H1.
Qed.

Lemma visit_spec fuel : forall alive s, (rank alive < fuel)%nat -> (forall x, s = Some x -> x ∈ alive \/ live x) ->
  exists alive', visit fuel alive s = Some alive' /\ extends alive alive' /\ (forall x, s = Some x -> x ∈ alive').
Proof using Type.
  induction fuel as [|fuel IH]; intros alive s Hf Hlive; [lia|]. cbn [visit]. destruct s as [x|].
  2: { exists alive. split; [done|]. split; [apply extends_refl|done]. }
  case_decide as Hx; [exists alive; split; [done|]; split; [apply extends_refl|by intros ? [= ->]]|].
  destruct (Hlive x eq_refl) as [|Hlx]; [done|].
  destruct (decide (x ∈ dom (subsecs ctx))) as [Hd|Hd].
  2: { assert (Hs : succs x = []) by (unfold succs; by rewrite (proj1 (not_elem_of_dom _ _) Hd)). rewrite Hs.
       exists ({[x]} ∪ alive). split; [done|]. split; [|set_solver]. split; [set_solver|]. split.
       - intros y z Hy Hny. assert (y = x) as -> by set_solver. unfold refers. rewrite Hs. by intros ?%elem_of_nil.
       - intros Hall y Hy. apply elem_of_union in Hy as [Hy|Hy]; [|by apply Hall]. by apply elem_of_singleton in Hy as ->. }
  pose proof (rank_add alive x Hd Hx) as Hr.
  destruct (visit_all_spec fuel (succs x) ({[x]} ∪ alive)) as (a' & E & (S & C & L) & Hs).
  - intros a s Ha. apply IH. lia.
  - intros y Hy. right. by eapply live_ref.
  - exists a'. split; [done|]. split; [|intros ? [= <-]; set_solver]. split; [set_solver|]. split.
    + intros y z Hy Hny Hyz. destruct (decide (y = x)) as [->|]; [by apply Hs|]. apply (C y); [done|set_solver|done].
    + intros Hall. apply L. intros y Hy. apply elem_of_union in Hy as [Hy|Hy]; [|by apply Hall].
      by apply elem_of_singleton in Hy as ->.
Qed.

(** A set that the visits have completed. *)
Definition closed (alive : gset Z) : Prop := forall y z, y ∈ alive -> refers y z -> z ∈ alive.

Lemma extends_closed a b : closed a -> extends a b -> closed b.
Proof using Type.
  intros Ha (S & C & _) y z Hy Hr. destruct (decide (y ∈ a)); [|by eapply C]. apply S. by eapply Ha.
Qed.

(** ** The live-support rounds are correct *)

Definition supports (alive : gset Z) (x : Z) : Prop :=
  has_attr x S_ATTR_LIVE_SUPPORT = true /\ refers_to_live_subsection alive x = true.

Lemma refers_to_live_spec alive x : refers_to_live_subsection alive x = true <->
  exists s r y, subsecs ctx !! x = Some s /\ r ∈ get_rels s /\ rel_subsec r = Some y /\ y ∈ alive.
Proof using Type.
  unfold refers_to_live_subsection. destruct (subsecs ctx !! x) as [s|]; [|naive_solver].
  rewrite existsb_exists. split.
  - intros (r & Hr%list_elem_of_In & E). destruct (rel_subsec r) as [y|] eqn:Ey; [|done].
    apply bool_decide_eq_true in E. eauto 10.
  - intros (s' & r & y & [= <-] & Hr & Ey & Hy). exists r. split; [by apply list_elem_of_In|].
    rewrite Ey. by apply bool_decide_eq_true.
Qed.

Lemma supports_mono a b x : a ⊆ b -> supports a x -> supports b x.
Proof using Type.
  intros Hab [H1 H2]. split; [done|]. rewrite refers_to_live_spec in *. naive_solver.
Qed.

Lemma supports_dom a x : supports a x -> x ∈ dom (subsecs ctx).
Proof using Type. intros [H _]. unfold has_attr in H. apply elem_of_dom. by destruct (subsecs ctx !! x). Qed.

Lemma supports_live a x : x ∈ all_subsections -> (forall y, y ∈ a -> live y) -> supports a x -> live x.
Proof using Type.
  intros Hx Ha [H1 H2]. rewrite refers_to_live_spec in H2. destruct H2 as (s & r & y & Es & Hr & Ey & Hy).
  apply (live_support x y); eauto 10.
Qed.

Lemma support_round_spec fuel l : forall alive rep, (rank alive < fuel)%nat -> (forall y, y ∈ alive -> live y) ->
  l ⊆ all_subsections ->
  exists alive' rep', support_round fuel alive rep l = Some (alive', rep') /\ extends alive alive' /\
    (rep' = false -> alive' = alive /\ forall x, x ∈ l -> supports alive x -> x ∈ alive) /\
    (rep' = true -> rep = true \/ (rank alive' < rank alive)%nat) /\ (rep = true -> rep' = true).
Proof using Type.
  induction l as [|x l IH]; intros alive rep Hf Hl Hsub.
  { exists alive, rep. split; [done|]. split; [apply extends_refl|]. split; [|auto].
    intros _. split; [done|]. intros x Hx. by apply elem_of_nil in Hx. }
  cbn [support_round].
  destruct (has_attr x S_ATTR_LIVE_SUPPORT && negb (bool_decide (x ∈ alive)) && refers_to_live_subsection alive x) eqn:E.
  - apply andb_prop in E as [[E1 E2%negb_true_iff%bool_decide_eq_false]%andb_prop E3].
    assert (Hsx : supports alive x) by done.
    assert (Hx : live x) by (apply (supports_live alive); [apply Hsub; by left|done|done]).
    destruct (visit_spec fuel alive (Some x) Hf) as (a1 & -> & Ex & Hin); [intros ? [= <-]; by right|].
    cbn [mbind option_bind].
    assert (Hrank : (rank a1 < rank alive)%nat).
    { eapply Nat.le_lt_trans; [apply (rank_mono ({[x]} ∪ alive)); destruct Ex; specialize (Hin x eq_refl); set_solver|].
      apply rank_add; [by eapply supports_dom|done]. }
    destruct (IH a1 true) as (a2 & rep' & -> & Ex2 & H1 & H2 & H3).
    + pose proof (rank_mono alive a1). lia.
    + by apply Ex.
    + intros y Hy. apply Hsub. by right.
    + exists a2, rep'. split; [done|]. split; [by eapply extends_trans|].
      pose proof (rank_mono a1 a2 ltac:(apply Ex2)). rewrite (H3 eq_refl).
      split; [done|]. split; [|done]. intros _. right. lia.
  - destruct (IH alive rep Hf Hl) as (a2 & rep' & -> & Ex2 & H1 & H2 & H4); [intros y Hy; apply Hsub; by right|].
    exists a2, rep'. split; [done|]. split; [done|]. split; [|by split]. intros Hr. destruct (H1 Hr) as [-> H3].
    split; [done|]. intros y [->|Hy]%elem_of_cons Hsy; [|by apply H3]. destruct Hsy as [S1 S2].
    rewrite S1, S2 in E. simpl in E. rewrite andb_true_r in E. by apply negb_false_iff, bool_decide_eq_true in E.
Qed.

(** Nothing more to keep. *)
Definition saturated (alive : gset Z) : Prop :=
  forall x, x ∈ all_subsections -> supports alive x -> x ∈ alive.

Lemma support_loop_spec rounds fuel : forall alive, (rank alive < rounds)%nat -> (rank alive < fuel)%nat ->
  (forall y, y ∈ alive -> live y) -> closed alive ->
  exists alive', support_loop rounds fuel alive = Some alive' /\ alive ⊆ alive' /\ closed alive' /\
    saturated alive' /\ (forall y, y ∈ alive' -> live y).
Proof using Type.
  induction rounds as [|rounds IH]; intros alive Hr Hf Hl Hc; [lia|]. cbn [support_loop].
  destruct (support_round_spec fuel all_subsections alive false Hf Hl ltac:(done)) as (a1 & rep & -> & Ex & H1 & H2 & _).
  cbn [mbind option_bind]. destruct rep.
  - destruct (H2 eq_refl) as [|Hrank]; [done|].
    destruct (IH a1) as (a2 & -> & Hsub & Hrest); [lia|lia|by apply Ex|by eapply extends_closed|].
    exists a2. split; [done|]. split; [|done]. destruct Ex. set_solver.
  - destruct (H1 eq_refl) as [-> Hsat]. exists alive. auto.
Qed.

(** A closed and saturated set that contains the roots contains what is live. *)
Lemma live_least alive : (forall x, x ∈ collect_root_set -> x ∈ alive) -> closed alive -> saturated alive ->
  forall x, live x -> x ∈ alive.
Proof using Type.
  intros Hr Hc Hs x Hx. induction Hx as [x Hx|x y Hx IH Hxy|x y Hx Ha (s & r & Es & Hrel & Ey) Hy IH]; [auto|by eapply Hc|].
  apply Hs; [done|]. split; [done|]. apply refers_to_live_spec. eauto 10.
Qed.

Lemma mark_spec roots : (forall x, x ∈ roots <-> x ∈ collect_root_set) ->
  exists alive, mark roots = Some alive /\ forall x, x ∈ alive <-> live x.
Proof using Type.
  intros Hroots. unfold mark.
  assert (Hrank : forall a, (rank a < depth)%nat).
  { intros a. unfold depth. apply Nat.lt_succ_r. unfold rank. apply subseteq_size. set_solver. }
  destruct (visit_all_spec depth (map Some roots) ∅) as (a1 & -> & Ex & Hin).
  - intros a s _ Hs. by apply visit_spec.
  - intros x Hx. right. apply live_root, Hroots. apply list_elem_of_fmap in Hx as (y & [= ->] & Hy). done.
  - cbn [mbind option_bind].
    destruct (support_loop_spec depth depth a1 (Hrank a1) (Hrank a1)) as (a2 & E & Hsub & Hc & Hsat & Hlive).
    + apply Ex. set_solver.
    + eapply extends_closed; [|exact Ex]. intros y z Hy. set_solver.
    + exists a2. split; [done|]. intros x. split; [apply Hlive|].
      apply live_least; [|done|done]. intros y Hy. apply Hsub, Hin.
      apply list_elem_of_fmap. exists y. split; [done|by apply Hroots].
Qed.

(** ** Marking by many threads

    A state is the set of marked subsections and the calls of [visit] that some
    thread has still to execute; [test_and_set] is atomic, so it is one step. *)

Inductive step : gset Z * list Z -> gset Z * list Z -> Prop :=
| step_visit alive l1 x l2 : x ∉ alive ->
    step (alive, l1 ++ x :: l2) ({[x]} ∪ alive, l1 ++ omap id (succs x) ++ l2)
| step_skip alive l1 x l2 : x ∈ alive -> step (alive, l1 ++ x :: l2) (alive, l1 ++ l2)
| step_support alive l x : x ∈ all_subsections -> supports alive x -> x ∉ alive ->
    step (alive, l) ({[x]} ∪ alive, l ++ omap id (succs x)).

Definition inv (s : gset Z * list Z) : Prop :=
  (forall y, y ∈ s.1 \/ y ∈ s.2 -> live y) /\
  (forall y z, y ∈ s.1 -> refers y z -> z ∈ s.1 \/ z ∈ s.2) /\
  (forall y, y ∈ collect_root_set -> y ∈ s.1 \/ y ∈ s.2).

Lemma omap_succs x y : y ∈ omap id (succs x) <-> refers x y.
Proof using Type. rewrite list_elem_of_omap. unfold refers, id. naive_solver. Qed.

Lemma inv_step s s' : inv s -> step s s' -> inv s'.
Proof using Type.
  intros (I1 & I2 & I3) Hs. destruct Hs as [alive l1 x l2 Hx|alive l1 x l2 Hx|alive l x Hx Hsup Hn];
    cbn [fst snd] in *; (split; [|split]); cbn [fst snd].
  - intros y. rewrite !elem_of_app, elem_of_union, elem_of_singleton, omap_succs. intros Hy.
    assert (Hlx : live x) by (apply I1; set_solver).
    destruct Hy as [[->|Hy]|[Hy|[Hy|Hy]]]; [done|apply I1; by left|apply I1; set_solver|by eapply live_ref|apply I1; set_solver].
  - intros y z Hy Hr. rewrite !elem_of_app, elem_of_union, elem_of_singleton, omap_succs in *.
    destruct Hy as [->|Hy]; [auto|]. specialize (I2 y z Hy Hr). rewrite elem_of_app, elem_of_cons in I2. intuition.
  - intros y Hy. specialize (I3 y Hy). rewrite !elem_of_app, elem_of_cons, elem_of_union, elem_of_singleton in *. intuition.
  - intros y Hy. apply I1. rewrite elem_of_app, elem_of_cons in *. intuition.
  - intros y z Hy Hr. specialize (I2 y z Hy Hr). rewrite elem_of_app, elem_of_cons in *. intuition congruence.
  - intros y Hy. specialize (I3 y Hy). rewrite elem_of_app, elem_of_cons in *. intuition congruence.
  - assert (Hlx : live x) by (apply (supports_live alive); [done| |done]; intros y Hy; apply I1; by left).
    intros y. rewrite elem_of_app, elem_of_union, elem_of_singleton, omap_succs.
    intros [[->|Hy]|[Hy|Hy]]; [done|apply I1; by left|apply I1; by right|by eapply live_ref].
  - intros y z Hy Hr. rewrite elem_of_app, elem_of_union, elem_of_singleton, omap_succs in *.
    destruct Hy as [->|Hy]; [auto|]. specialize (I2 y z Hy Hr). intuition.
  - intros y Hy. specialize (I3 y Hy). rewrite elem_of_app, elem_of_union, elem_of_singleton in *. intuition.
Qed.

Lemma inv_rtc s s' : rtc step s s' -> inv s -> inv s'.
Proof using Type. induction 1 as [|a b c Hab Hbc IH]; [done|]. intros Hi. apply IH. by eapply inv_step. Qed.

(** Every schedule ends: a step marks a subsection of the link or shortens the
    list of pending calls. *)
Lemma step_terminates s : Acc (fun b a => step a b) s.
Proof using Type.
  destruct s as [alive l]. remember (rank alive) as n eqn:En. revert alive l En.
  induction (lt_wf n) as [n _ IHn]. intros alive l En. remember (length l) as k eqn:Ek. revert alive l En Ek.
  induction (lt_wf k) as [k _ IHk]. intros alive l En Ek. constructor. intros s' Hs.
  assert (Hmark : forall x l', x ∉ alive -> (x ∉ dom (subsecs ctx) -> (length l' < k)%nat) ->
            Acc (fun b a => step a b) ({[x]} ∪ alive, l')).
  { intros x l' Hx Hl'. destruct (decide (x ∈ dom (subsecs ctx))) as [Hd|Hd].
    - eapply IHn; [|done]. subst n. by apply rank_add.
    - eapply IHk; [by apply Hl'| |done]. subst n. unfold rank. f_equal.
      apply set_eq. set_solver. }
  inversion Hs; subst.
  - apply Hmark; [done|]. intros Hd. unfold succs. rewrite (proj1 (not_elem_of_dom _ _) Hd).
    rewrite !length_app. simpl. lia.
  - eapply IHk; [|done|done]. rewrite !length_app. simpl. lia.
  - apply Hmark; [done|]. intros Hd. exfalso. by apply Hd, (supports_dom alive).
Qed.

Lemma terminal_live alive l : inv (alive, l) -> (forall s', ~ step (alive, l) s') -> forall x, x ∈ alive <-> live x.
Proof using Type.
  intros (I1 & I2 & I3) Ht. cbn [fst snd] in *.
  assert (l = []) as ->.
  { destruct l as [|x l]; [done|]. exfalso. destruct (decide (x ∈ alive)).
    - by apply (Ht (alive, l)), (step_skip alive []).
    - by apply (Ht ({[x]} ∪ alive, omap id (succs x) ++ l)), (step_visit alive []). }
  intros x. split; [intros Hx; apply I1; by left|]. apply live_least.
  - intros y Hy. destruct (I3 y Hy) as [|Hy']; [done|by apply elem_of_nil in Hy'].
  - intros y z Hy Hr. destruct (I2 y z Hy Hr) as [|Hz]; [done|by apply elem_of_nil in Hz].
  - intros y Hy Hsup. destruct (decide (y ∈ alive)) as [|Hn]; [done|]. exfalso.
    by apply (Ht ({[y]} ∪ alive, [] ++ omap id (succs y))), step_support.
Qed.

End Pass.

(** ** Properties *)

(** C28: [mark] terminates and marks exactly the live subsections, the least set
    that contains the roots, what marked subsections refer to, and the live-support
    subsections that refer to something in the set; in whatever order the parallel
    collection delivered the roots. *)
Theorem mark_exact (ctx : Context) (roots : list Z) :
  roots ≡ₚ collect_root_set ctx ->
  exists alive, mark ctx roots = Some alive /\ forall x, x ∈ alive <-> live ctx x.
Proof. intros Hp. apply mark_spec. intros x. by rewrite Hp. Qed.

(** A link with an entry point, a helper it calls, an unreferenced function, and a
    live-support section that refers to the helper. *)
Definition sample : Context :=
  mkContext
    {[ 1 := mkSymbol (Some 0) (Some 10) false SCOPE_GLOBAL; 2 := mkSymbol (Some 0) (Some 11) false SCOPE_GLOBAL;
       3 := mkSymbol (Some 0) (Some 12) false SCOPE_GLOBAL ]}
    {[ 10 := mkSubsection 0 0 [RelSym 2] []; 11 := mkSubsection 0 0 [] []; 12 := mkSubsection 0 0 [RelSym 1] [];
       13 := mkSubsection S_ATTR_LIVE_SUPPORT 0 [RelSubsec 11] [] ]}
    [mkObjectFile 0 [1; 2; 3] [] [10; 11; 12; 13] []] 2 [] (Some 1) false 9.

Lemma mark_exact_witness :
  exists alive, mark sample [10] = Some alive /\ forall x, x ∈ alive <-> live sample x.
Proof. apply (mark_exact sample [10]). vm_compute. reflexivity. Defined.

(** the parallel marking is deterministic: whatever way the threads
    interleave, the marking terminates, and when no thread can make a step any
    more, exactly the live subsections are marked. *)
Theorem mark_any_schedule (ctx : Context) (roots : list Z) :
  roots ≡ₚ collect_root_set ctx ->
  Acc (fun b a => step ctx a b) (∅, roots) /\
  forall alive l, rtc (step ctx) (∅, roots) (alive, l) -> (forall s', ~ step ctx (alive, l) s') ->
    forall x, x ∈ alive <-> live ctx x.
Proof.
  intros Hp. split; [apply step_terminates|]. intros alive l Hrun Ht.
  apply (terminal_live ctx alive l); [|done].
  assert (Hinv : inv ctx (∅, roots)).
  { split; [|split]; cbn [fst snd].
    - intros y [Hy|Hy]; [set_solver|]. apply live_root. by rewrite <- Hp.
    - intros y z Hy. set_solver.
    - intros y Hy. right. by rewrite Hp. }
  by eapply inv_rtc.
Qed.

Lemma mark_any_schedule_witness :
  Acc (fun b a => step sample a b) (∅, [10]) /\
  forall alive l, rtc (step sample) (∅, [10]) (alive, l) -> (forall s', ~ step sample (alive, l) s') ->
    forall x, x ∈ alive <-> live sample x.
Proof. apply (mark_any_schedule sample [10]). vm_compute. reflexivity. Defined.

(** The file defines the symbol in a subsection that is not live. *)
Definition removed_def (ctx : Context) (f : ObjectFile) (s : Z) : Prop :=
  owned ctx f s = true /\ exists x, sym_subsec ctx s = Some x /\ ~ live ctx x.

Lemma filter_partition (P : Z -> bool) l : List.filter P l ++ List.filter (fun x => negb (P x)) l ≡ₚ l.
Proof.
  induction l as [|x l IH]; [done|]. cbn [List.filter]. destruct (P x); simpl.
  - by rewrite IH.
  - rewrite <- Permutation_middle. by rewrite IH.
Qed.

Lemma filter_sublist (P : Z -> bool) l : List.filter P l `sublist_of` l.
Proof. induction l as [|x l IH]; [done|]. cbn [List.filter]. destruct (P x); by constructor. Qed.

(** C29: after the pass, every file keeps exactly its live subsections, in their
    order; a symbol of the file is nulled exactly when the file defines it in a
    subsection that was removed; and nothing that is kept refers to a subsection
    that was removed. *)
Theorem dead_strip_sound (ctx : Context) :
  exists result, dead_strip ctx = Some result /\
    Forall2 (fun f '(ss, subs) =>
      (exists removed, subs ++ removed ≡ₚ subsections f /\ subs `sublist_of` subsections f /\
         Forall (live ctx) subs /\ Forall (fun x => ~ live ctx x) removed) /\
      Forall2 (fun s r => (r = None /\ removed_def ctx f s) \/ (r = Some s /\ ~ removed_def ctx f s)) (syms f) ss /\
      Forall (fun x => forall y, refers ctx x y -> live ctx y) subs) (objs ctx) result.
Proof.
  destruct (mark_spec ctx (collect_root_set ctx) ltac:(done)) as (alive & E & Hlive).
  unfold dead_strip. rewrite E. cbn [mbind option_bind]. eexists. split; [done|].
  apply Forall2_fmap_r, Forall_Forall2_diag, Forall_forall. intros f _. cbn [fst snd].
  assert (Hsub : forall x, x ∈ sweep_subsections alive f -> live ctx x).
  { unfold sweep_subsections. intros x Hx%list_elem_of_In%filter_In. destruct Hx as [_ Hx%bool_decide_eq_true].
    by apply Hlive. }
  split; [|split].
  - exists (List.filter (fun x => negb (bool_decide (x ∈ alive))) (subsections f)).
    split; [apply filter_partition|]. split; [apply filter_sublist|]. split; [by apply Forall_forall|].
    apply Forall_forall. intros x Hx%list_elem_of_In%filter_In. destruct Hx as [_ Hx%negb_true_iff%bool_decide_eq_false].
    by rewrite <- Hlive.
  - unfold sweep_syms. apply Forall2_fmap_r, Forall_Forall2_diag, Forall_forall. intros s _. unfold removed_def.
    unfold compose. destruct (owned ctx f s); simpl; [|right; split; [done|]; by intros [? _]].
    destruct (sym_subsec ctx s) as [x|]; [|right; split; [done|]; by intros (_ & y & ? & _)].
    case_bool_decide as Hx; simpl; rewrite Hlive in Hx.
    + right. split; [done|]. by intros (_ & y & [= <-] & Hn).
    + left. split; [done|]. split; [done|]. by exists x.
  - apply Forall_forall. intros x Hx y Hr. by eapply live_ref; [apply Hsub|].
Qed.
