(* ===== verification/A64.v ===== *)
(** * The ARM64 instructions the Mach-O linker writes

    What the architecture manual says of the instructions that occur in the stubs,
    stub helpers, Objective-C stubs and range extension thunks of
    src/macho/arch-arm64.cc, and of the branches it relocates: their encodings and
    their effect on a machine with registers and a byte memory. It is the
    specification against which the code emitted by [Arm64] is proved; nothing in
    this file is code of the linker. *)

From S2P Require Import Prelude Bits.

Inductive instr :=
| Adrp (rd imm : Z)            (* imm: signed pages *)
| AddImm (rd rn imm : Z)       (* 64-bit, no shift *)
| LdrX (rt rn off : Z)         (* 64-bit load, unsigned offset in bytes *)
| LdrW (rt rn off : Z)         (* 32-bit load, unsigned offset in bytes *)
| LdrLitW (rt off : Z)         (* 32-bit load relative to the instruction *)
| StpPre (rt rt2 rn off : Z)   (* store pair, pre-indexed *)
| B (off : Z)
| Bl (off : Z)
| Br (rn : Z).

Definition decode (w : Z) : option instr :=
  if (bits w 31 31 =? 1) && (bits w 28 24 =? 0x10) then
    Some (Adrp (bits w 4 0) (swrap 21 (Z.lor (Z.shiftl (bits w 23 5) 2) (bits w 30 29))))
  else if bits w 31 22 =? 0x244 then Some (AddImm (bits w 4 0) (bits w 9 5) (bits w 21 10))
  else if bits w 31 22 =? 0x3e5 then Some (LdrX (bits w 4 0) (bits w 9 5) (8 * bits w 21 10))
  else if bits w 31 22 =? 0x2e5 then Some (LdrW (bits w 4 0) (bits w 9 5) (4 * bits w 21 10))
  else if bits w 31 24 =? 0x18 then Some (LdrLitW (bits w 4 0) (4 * swrap 19 (bits w 23 5)))
  else if bits w 31 22 =? 0x2a6 then
    Some (StpPre (bits w 4 0) (bits w 14 10) (bits w 9 5) (8 * swrap 7 (bits w 21 15)))
  else if bits w 31 26 =? 0x05 then Some (B (4 * swrap 26 (bits w 25 0)))
  else if bits w 31 26 =? 0x25 then Some (Bl (4 * swrap 26 (bits w 25 0)))
  else if (bits w 31 10 =? 0x3587c0) && (bits w 4 0 =? 0) then Some (Br (bits w 9 5))
  else None.

(** ** The machine

    Registers by number, 31 the stack pointer (the instructions in which 31 would
    be the zero register do not occur), and a memory of bytes. *)

Record machine_state := mkState { pc : Z; regs : Z -> Z; mem : Z -> Z }.

Definition load (n : nat) (m : Z -> Z) (a : Z) : Z :=
  le_load (map (fun i => m (u64 (a + i))) (seqZ 0 (Z.of_nat n))).

Definition store (n : nat) (m : Z -> Z) (a v : Z) : Z -> Z :=
  fun x => let i := u64 (x - a) in
    if i <? Z.of_nat n then default 0 (le_store n v !! Z.to_nat i) else m x.

Definition set_reg (r : Z -> Z) (n v : Z) : Z -> Z := fun k => if k =? n then v else r k.

Definition exec (i : instr) (s : machine_state) : machine_state :=
  let next := u64 (pc s + 4) in
  match i with
  | Adrp rd imm => mkState next (set_reg (regs s) rd (u64 (pc s - pc s mod 4096 + imm * 4096))) (mem s)
  | AddImm rd rn imm => mkState next (set_reg (regs s) rd (u64 (regs s rn + imm))) (mem s)
  | LdrX rt rn off => mkState next (set_reg (regs s) rt (load 8 (mem s) (u64 (regs s rn + off)))) (mem s)
  | LdrW rt rn off => mkState next (set_reg (regs s) rt (load 4 (mem s) (u64 (regs s rn + off)))) (mem s)
  | LdrLitW rt off => mkState next (set_reg (regs s) rt (load 4 (mem s) (u64 (pc s + off)))) (mem s)
  | StpPre rt rt2 rn off =>
      let a := u64 (regs s rn + off) in
      mkState next (set_reg (regs s) rn a) (store 8 (store 8 (mem s) a (regs s rt)) (u64 (a + 8)) (regs s rt2))
  | B off => mkState (u64 (pc s + off)) (regs s) (mem s)
  | Bl off => mkState (u64 (pc s + off)) (set_reg (regs s) 30 next) (mem s)
  | Br rn => mkState (regs s rn) (regs s) (mem s)
  end.

Definition step (s : machine_state) : option machine_state :=
  if pc s mod 4 =? 0 then i ← decode (load 4 (mem s) (pc s)); Some (exec i s) else None.

Fixpoint run (n : nat) (s : machine_state) : option machine_state :=
  match n with
  | O => Some s
  | S n' => step s ≫= run n'
  end.

(** The words of a piece of code are in memory at an address. *)
Definition holds (m : Z -> Z) (a : Z) (code : list Z) : Prop :=
  forall i w, code !! i = Some w -> load 4 m (u64 (a + 4 * Z.of_nat i)) = w.

Lemma step_at s w i : pc s mod 4 = 0 -> load 4 (mem s) (pc s) = w -> decode w = Some i -> step s = Some (exec i s).
Proof. intros Hp Hl Hd. unfold step. rewrite Hp, Hl, Hd. done. Qed.

Lemma run_step n s s' : step s = Some s' -> run (S n) s = run n s'.
Proof. intros E. simpl. by rewrite E. Qed.

Lemma run_plus n k s : run (n + k) s = run n s ≫= run k.
Proof.
  revert s. induction n as [|n IH]; intros s; [done|]. cbn [run Nat.add].
  destruct (step s) as [s'|]; [|done]. apply IH.
Qed.

Lemma holds_app m a l1 l2 : holds m a (l1 ++ l2) -> holds m a l1 /\ holds m (a + 4 * zlen l1) l2.
Proof.
  intros H. split.
  - intros i w Hi. apply H. by apply lookup_app_l_Some.
  - intros i w Hi. replace (a + 4 * zlen l1 + 4 * Z.of_nat i) with (a + 4 * Z.of_nat (length l1 + i))
      by (unfold zlen; lia). apply H. rewrite lookup_app_r by lia. rewrite <- Hi. f_equal. lia.
Qed.

Lemma holds_cons m a w l : holds m a (w :: l) -> load 4 m (u64 a) = w /\ holds m (a + 4) l.
Proof.
  intros H. destruct (holds_app m a [w] l H) as [H1 H2]. split; [|done].
  specialize (H1 0%nat w eq_refl). by rewrite Z.add_0_r in H1.
Qed.

Lemma u64_u64 x : u64 (u64 x) = u64 x.
Proof. apply wrap_wrap. lia. Qed.

Lemma u64_plus_u64 x y : u64 (u64 x + y) = u64 (x + y).
Proof. apply Zplus_mod_idemp_l. Qed.

Lemma u64_mod x k : 0 <= k < 64 -> u64 x mod 2 ^ k = x mod 2 ^ k.
Proof. intros. apply wrap_wrap. lia. Qed.

Lemma holds_u64 m a l : holds m (u64 a) l <-> holds m a l.
Proof. unfold holds. by setoid_rewrite u64_plus_u64. Qed.

(** An address in code: a multiple of four that fits. *)
Definition code_addr (a : Z) : Prop := is_u 64 a /\ a mod 4 = 0.

#[export] Instance code_addr_dec a : Decision (code_addr a).
Proof. unfold code_addr. apply _. Defined.

Lemma code_addr_next a k : code_addr a -> k mod 4 = 0 -> code_addr (u64 (a + k)).
Proof.
  intros [_ Ha] Hk. split; [by apply wrap_range|]. change 4 with (2 ^ 2). rewrite u64_mod by lia.
  change (2 ^ 2) with 4. rewrite Zplus_mod, Ha, Hk. done.
Qed.

(** One instruction of a piece of code that is in memory at [pc]. *)
Lemma run_code n s w l i : code_addr (pc s) -> holds (mem s) (pc s) (w :: l) -> decode w = Some i ->
  run (S n) s = run n (exec i s) /\ code_addr (u64 (pc s + 4)) /\ holds (mem s) (u64 (pc s + 4)) l.
Proof.
  intros Hc [Hw Hl]%holds_cons Hd. split; [|split].
  - apply run_step, (step_at s w); [apply Hc| |done]. rewrite <- Hw. unfold u64. rewrite (wrap_small 64 (pc s)) by apply Hc. done.
  - by apply code_addr_next.
  - by apply holds_u64.
Qed.

(** ** The instructions with their immediates filled in *)

Lemma swrap_21_fields v : Z.lor (Z.shiftl (bits v 32 14) 2) (bits v 13 12) = bits v 32 12.
Proof.
  apply Z.bits_inj'. intros i Hi. rewrite Z.lor_spec, Z.shiftl_spec by lia.
  destruct (Z.lt_ge_cases i 2).
  - rewrite (Z.testbit_neg_r (bits v 32 14)), !bits_testbit by lia. simpl.
    destruct (Z.leb_spec i (13 - 12)), (Z.leb_spec i (32 - 12)); lia || done.
  - rewrite !bits_testbit by lia. replace (i - 2 + 14) with (i + 12) by lia.
    destruct (Z.leb_spec (i - 2) (32 - 14)), (Z.leb_spec i (13 - 12)), (Z.leb_spec i (32 - 12)); try lia; simpl;
      rewrite ?Bool.orb_false_r; done.
Qed.

(** The immediate of an ADRP whose fields are still zero. *)
Lemma decode_adrp_inv w rd imm : decode w = Some (Adrp rd imm) ->
  bits w 31 31 = 1 /\ bits w 28 24 = 0x10 /\ rd = bits w 4 0 /\
  imm = swrap 21 (Z.lor (Z.shiftl (bits w 23 5) 2) (bits w 30 29)).
Proof.
  unfold decode. destruct (_ && _) eqn:E.
  - apply andb_true_iff in E as [E1 E2]. intros [= <- <-]. lia.
  - by repeat case_match.
Qed.

Lemma swrap_0 w x : 0 < w -> is_u w x -> swrap w x = 0 -> x = 0.
Proof.
  intros Hw Hx. unfold swrap. change (x mod 2 ^ w) with (wrap w x). rewrite wrap_small by done.
  unfold is_u in Hx. case_bool; lia.
Qed.

Lemma lor_0_inv a b : Z.lor a b = 0 -> a = 0 /\ b = 0.
Proof. apply Z.lor_eq_0_iff. Qed.

Lemma decode_adrp w rd v : decode w = Some (Adrp rd 0) ->
  decode (u32 (Z.lor w (Z.lor (Z.shiftl (bits v 13 12) 29) (Z.shiftl (bits v 32 14) 5)))) =
  Some (Adrp rd (swrap 21 (bits v 32 12))).
Proof.
  intros (E1 & E2 & -> & E3)%decode_adrp_inv. symmetry in E3.
  pose proof (bits_range w 23 5 ltac:(lia)) as R1. pose proof (bits_range w 30 29 ltac:(lia)) as R2.
  apply swrap_0 in E3 as [E3 E4]%lor_0_inv; [|lia|].
  2:{ rewrite lor_shiftl by (done || lia). warith. }
  apply Z.shiftl_eq_0_iff in E3; [|lia].
  unfold decode. fields. rewrite E1, E2, E3, E4, !Z.lor_0_l. simpl ((1 =? 1) && _). cbv iota.
  by rewrite swrap_21_fields.
Qed.

(** The twelve-bit immediate of ADD, LDR. *)
Lemma decode_imm12 w v op : bits w 31 22 = op -> bits w 21 10 = 0 -> 0 <= v < 4096 ->
  let w' := u32 (Z.lor w (Z.shiftl v 10)) in
  bits w' 31 22 = op /\ bits w' 21 10 = v /\ bits w' 9 5 = bits w 9 5 /\ bits w' 4 0 = bits w 4 0 /\
  bits w' 31 31 = bits w 31 31 /\ bits w' 28 24 = bits w 28 24.
Proof.
  intros E1 E2 Hv w'. unfold w', u32. rewrite !bits_wrap, !bits_lor by lia.
  assert (Hu : is_u 12 v) by (unfold is_u; lia).
  rewrite (bits_shiftl_in v 12 10 21 10) by (done || lia).
  rewrite !(bits_shiftl_out v 12) by (done || lia).
  rewrite E1, E2, Z.shiftl_0_r, !Z.lor_0_r, Z.lor_0_l. done.
Qed.

Lemma decode_add w rd rn v : decode w = Some (AddImm rd rn 0) -> 0 <= v < 4096 ->
  decode (u32 (Z.lor w (Z.shiftl v 10))) = Some (AddImm rd rn v).
Proof.
  intros H Hv. unfold decode in H. repeat case_match; simplify_eq.
  rewrite Z.eqb_eq in *.
  destruct (decode_imm12 w v 0x244) as (F1 & F2 & F3 & F4 & F5 & F6); try done.
  unfold decode. rewrite F1, F2, F3, F4, F5, F6. by rewrite H0.
Qed.

Lemma decode_ldrx w rt rn v : decode w = Some (LdrX rt rn 0) -> 0 <= v < 4096 ->
  decode (u32 (Z.lor w (Z.shiftl v 10))) = Some (LdrX rt rn (8 * v)).
Proof.
  intros H Hv. unfold decode in H. repeat case_match; simplify_eq.
  rewrite Z.eqb_eq in *.
  destruct (decode_imm12 w v 0x3e5) as (F1 & F2 & F3 & F4 & F5 & F6); [done|lia|done|].
  unfold decode. rewrite F1, F2, F3, F4, F5, F6. by rewrite H0.
Qed.

Lemma decode_ldrw w rt rn v : decode w = Some (LdrW rt rn 0) -> 0 <= v < 4096 ->
  decode (u32 (Z.lor w (Z.shiftl v 10))) = Some (LdrW rt rn (4 * v)).
Proof.
  intros H Hv. unfold decode in H. repeat case_match; simplify_eq.
  rewrite Z.eqb_eq in *.
  destruct (decode_imm12 w v 0x2e5) as (F1 & F2 & F3 & F4 & F5 & F6); [done|lia|done|].
  unfold decode. rewrite F1, F2, F3, F4, F5, F6. by rewrite H0.
Qed.

(** The 26-bit displacement of a branch. *)
Lemma decode_imm26 w v op : bits w 31 26 = op -> bits w 25 0 = 0 -> 0 <= v < 2 ^ 26 ->
  let w' := u32 (Z.lor w v) in bits w' 31 26 = op /\ bits w' 25 0 = v.
Proof.
  intros E1 E2 Hv w'. assert (Hu : is_u 26 v) by done. unfold w', u32. split.
  - rewrite bits_wrap, bits_lor, <- E1 by lia. rewrite <- (Z.shiftl_0_r v), (bits_shiftl_out v 26) by (done || lia).
    by rewrite Z.lor_0_r.
  - rewrite bits_wrap, bits_lor, E2 by lia. rewrite <- (Z.shiftl_0_r v) at 1.
    by rewrite (bits_shiftl_in v 26), Z.shiftl_0_r by (done || lia).
Qed.

Lemma swrap_26_0 w : 4 * swrap 26 (bits w 25 0) = 0 -> bits w 25 0 = 0.
Proof. intros H. apply (swrap_0 26); [lia|apply (bits_range w 25 0); lia|lia]. Qed.

Ltac refute e G := rewrite e in G;
  match type of G with ?l = _ => let v := eval vm_compute in l in change l with v in G end; lia.

(** The guards of [decode] that precede the branches look at higher bits only,
    so a word with the top six bits of a branch is one. *)
Lemma decode_branch w : bits w 31 26 = 0x05 \/ bits w 31 26 = 0x25 ->
  decode w = Some (if bits w 31 26 =? 5 then B (4 * swrap 26 (bits w 25 0)) else Bl (4 * swrap 26 (bits w 25 0))).
Proof.
  intros H. unfold decode.
  assert (G1 : (bits w 31 31 =? 1) && (bits w 28 24 =? 16) = false).
  { assert (G : bits (bits w 28 24) 4 2 = bits (bits w 31 26) 2 0) by (rewrite !bits_sub by lia; done).
    apply andb_false_iff. right. apply Z.eqb_neq. intros E. rewrite E in G.
    destruct H as [H|H]; rewrite H in G; vm_compute in G; done. }
  assert (G2 : bits (bits w 31 22) 9 4 = bits w 31 26) by (rewrite !bits_sub by lia; done).
  assert (G3 : bits (bits w 31 24) 7 2 = bits w 31 26) by (rewrite !bits_sub by lia; done).
  rewrite G1.
  destruct (Z.eqb_spec (bits w 31 22) 0x244); [refute e G2|].
  destruct (Z.eqb_spec (bits w 31 22) 0x3e5); [refute e G2|].
  destruct (Z.eqb_spec (bits w 31 22) 0x2e5); [refute e G2|].
  destruct (Z.eqb_spec (bits w 31 24) 0x18); [refute e G3|].
  destruct (Z.eqb_spec (bits w 31 22) 0x2a6); [refute e G2|].
  destruct H as [H|H]; rewrite H; done.
Qed.

Lemma decode_branch_inv w i : decode w = Some i -> i = B 0 \/ i = Bl 0 ->
  (bits w 31 26 = 0x05 /\ i = B 0 \/ bits w 31 26 = 0x25 /\ i = Bl 0) /\ bits w 25 0 = 0.
Proof.
  unfold decode. intros H Hi. repeat case_match; destruct Hi as [-> | ->]; simplify_eq;
    rewrite Z.eqb_eq in *; (split; [tauto|]); apply swrap_26_0; lia.
Qed.

Definition branch_with (i : instr) (off : Z) : instr :=
  match i with B _ => B off | Bl _ => Bl off | _ => i end.

Lemma decode_b w i v : decode w = Some i -> i = B 0 \/ i = Bl 0 -> 0 <= v < 2 ^ 26 ->
  decode (u32 (Z.lor w v)) = Some (branch_with i (4 * swrap 26 v)).
Proof.
  intros H Hi Hv. destruct (decode_branch_inv w i H Hi) as [[[E ->]|[E ->]] E0];
    destruct (decode_imm26 w v _ E E0 Hv) as (F1 & F2);
    rewrite decode_branch by tauto; rewrite F1, F2; done.
Qed.

(** Code made of pieces of the same length. *)
Lemma holds_concat m a n (ls : list (list Z)) : Forall (fun l => length l = n) ls -> holds m a (concat ls) ->
  forall i l, ls !! i = Some l -> holds m (u64 (a + 4 * Z.of_nat n * Z.of_nat i)) l.
Proof.
  intros Hn. revert a. induction Hn as [|l ls Hl Hn IH]; intros a Hm i l' Hi; [done|].
  cbn [concat] in Hm. apply holds_app in Hm as [H1 H2]. rewrite holds_u64. destruct i as [|i].
  - injection Hi as <-. by rewrite Z.mul_0_r, Z.add_0_r.
  - apply IH with (i := i) (l := l') in H2; [|done]. rewrite holds_u64 in H2. unfold zlen in H2. rewrite Hl in H2.
    by replace (a + 4 * Z.of_nat n * Z.of_nat (S i)) with (a + 4 * Z.of_nat n + 4 * Z.of_nat n * Z.of_nat i) by lia.
Qed.

Lemma length_concat_const n (ls : list (list Z)) : Forall (fun l => length l = n) ls ->
  length (concat ls) = (n * length ls)%nat.
Proof. induction 1 as [|l ls Hl Hn IH]; simpl; [lia|]. rewrite length_app, IH, Hl. lia. Qed.

(** ** Concrete memories *)

Definition holds_check (m : Z -> Z) (a : Z) (code : list Z) : bool :=
  forallb (fun '(i, w) => load 4 m (u64 (a + 4 * Z.of_nat i)) =? w) (imap pair code).

Lemma holds_check_spec m a code : holds_check m a code = true -> holds m a code.
Proof.
  unfold holds_check. rewrite forallb_forall. intros H i w Hi.
  apply Z.eqb_eq, (H (i, w)), list_elem_of_In, (list_elem_of_lookup_2 _ i).
  by rewrite list_lookup_imap, Hi.
Qed.

(** A memory with some code at an address and zeros elsewhere. *)
Definition place_code (a : Z) (code : list Z) : Z -> Z :=
  fun x => if x <? a then 0 else default 0 (concat (map (le_store 4) code) !! Z.to_nat (x - a)).
