(* ===== verification/Link.v ===== *)
(** * Symbols, subsections and their addresses (src/macho/mold.h)

    The part of the link state that the Mach-O relocation code reads once symbols
    are resolved: [Relocation], [Subsection], [Symbol] and [RangeExtensionThunk]
    with their address functions. Pointers are identifiers into the tables of the
    [Context]; following a dangling one has no value ([None]). *)

From stdpp Require Import gmap.
From S2P Require Import Prelude Enums MachoTypes.

Inductive rel_target := RelSym (s : Z) | RelSubsec (x : Z).

Record Relocation := mkRel {
  target : rel_target; addend : Z; offset : Z; type : Z; size : Z;
  thunk_idx : Z; thunk_sym_idx : Z }.

(** A subsection; [osec] is the output section of its input section and
    [hdr_type] the type in its input section's header. *)
Record Subsection := mkSubsection { osec : Z; hdr_type : Z; input_size : Z; p2align : Z }.

(** [priority] is that of the file. *)
Record Symbol := mkSymbol {
  file : option Z; subsec : option Z; value : Z;
  stub_idx : Z; got_idx : Z; tlv_idx : Z; is_imported : bool; priority : Z }.

(** A thunk of an output section: where it is placed and the symbols it jumps to. *)
Record RangeExtensionThunk := mkThunk { thunk_offset : Z; thunk_symbols : list Z }.

Record Context := mkContext {
  symbols : gmap Z Symbol;
  subsecs : gmap Z Subsection;
  output_offset : gmap Z Z;
  osec_addr : gmap Z Z;
  thunks : gmap Z (list RangeExtensionThunk);
  stubs_addr : Z; got_addr : Z; thread_ptrs_addr : Z; tls_begin : Z }.

(** [(u32)-1], the offset of a subsection that has none yet. *)
Definition no_offset : Z := UINT32_MAX.
Definition get_offset (offs : gmap Z Z) (x : Z) : Z := default no_offset (offs !! x).

Definition ENTRY_SIZE : Z := 12.
Definition ALIGNMENT : Z := 16.
Definition thunk_size (t : RangeExtensionThunk) : Z := zlen (thunk_symbols t) * ENTRY_SIZE.

(** [sizeof(Word<E>)]. *)
Definition sizeof_word (m : machine) : Z := match m with ARM64_32 => 4 | _ => 8 end.

Section Addresses.
Context (m : machine) (ctx : Context).

(** [Subsection::get_addr]. *)
Definition subsec_addr (x : Z) : option Z :=
  s ← subsecs ctx !! x; a ← osec_addr ctx !! osec s; Some (u64 (a + get_offset (output_offset ctx) x)).

Definition has_stub (s : Symbol) : bool := negb (stub_idx s =? -1).

(** [Symbol::get_addr]; [stub_idx * E::stub_size] is computed in 32 bits. *)
Definition symbol_addr (s : Symbol) : option Z :=
  if has_stub s then Some (u64 (stubs_addr ctx + u32 (stub_idx s * stub_size (target_of m))))
  else match subsec s with
       | Some x => a ← subsec_addr x; Some (u64 (a + value s))
       | None => Some (value s)
       end.

Definition get_got_addr (s : Symbol) : Z := u64 (got_addr ctx + got_idx s * sizeof_word m).
Definition get_tlv_addr (s : Symbol) : Z := u64 (thread_ptrs_addr ctx + tlv_idx s * sizeof_word m).

(** [Relocation::get_addr]. *)
Definition rel_addr (r : Relocation) : option Z :=
  match target r with
  | RelSym s => sym ← symbols ctx !! s; symbol_addr sym
  | RelSubsec x => subsec_addr x
  end.

(** [Relocation::sym]: a null pointer for a section target. *)
Definition rel_sym (r : Relocation) : option Z := match target r with RelSym s => Some s | RelSubsec _ => None end.

Definition refers_to_tls (r : Relocation) : bool :=
  match target r with
  | RelSym s =>
      match sym ← symbols ctx !! s; x ← subsec sym; subsecs ctx !! x with
      | Some x => (hdr_type x =? constant S_type "S_THREAD_LOCAL_REGULAR")
                  || (hdr_type x =? constant S_type "S_THREAD_LOCAL_ZEROFILL")
      | None => false
      end
  | RelSubsec _ => false
  end.

(** [RangeExtensionThunk::get_addr]. *)
Definition thunk_addr (o : Z) (t : RangeExtensionThunk) (idx : Z) : option Z :=
  a ← osec_addr ctx !! o; Some (u64 (a + thunk_offset t + idx * ENTRY_SIZE)).

(** [osec.thunks[i]->get_addr(j)]. *)
Definition nth_thunk_addr (o i j : Z) : option Z :=
  if i <? 0 then None else
  ts ← thunks ctx !! o; t ← ts !! Z.to_nat i; thunk_addr o t j.
End Addresses.

Lemma u64_id x : is_u 64 x -> u64 x = x.
Proof. apply wrap_small. Qed.

Lemma u64_add_l x y : u64 (u64 x + y) = u64 (x + y).
Proof. apply Zplus_mod_idemp_l. Qed.

Lemma u64_add_r x y : u64 (x + u64 y) = u64 (x + y).
Proof. apply Zplus_mod_idemp_r. Qed.

Lemma u64_sub_l x y : u64 (u64 x - y) = u64 (x - y).
Proof. apply Zminus_mod_idemp_l. Qed.

Lemma u64_sub_r x y : u64 (x - u64 y) = u64 (x - y).
Proof. apply Zminus_mod_idemp_r. Qed.

#[export] Instance symbol_inhabited : Inhabited Symbol := populate (mkSymbol None None 0 (-1) (-1) (-1) false 0).
