(* ===== verification/Arm64.v ===== *)
(** * ARM64 code generation and relocation (src/macho/arch-arm64.cc)

    The code the linker writes itself (stubs, stub helper, Objective-C stubs,
    thunks) and [Subsection::apply_reloc]. A word of code is a [ul32]: four
    little-endian bytes (see [Integers]). The emitted code is proved against the
    instruction semantics of [A64]. *)

From S2P Require Import Prelude Bits Enums MachoTypes Link A64.
Local Open Scope list_scope.
Local Open Scope Z_scope.

Definition page (val : Z) : Z := Z.land val 0xfffffffffffff000.

Definition page_offset (hi lo : Z) : Z :=
  let val := u64 (page hi - page lo) in
  Z.lor (Z.shiftl (bits val 13 12) 29) (Z.shiftl (bits val 32 14) 5).

(** [*loc |= v] on a [ul32]. *)
Definition or32 (insn v : Z) : Z := u32 (Z.lor insn v).

(** The instruction [write_add_ldst] leaves at its place; [val] is a [u32]. *)
Definition write_add_ldst (insn val : Z) : Z :=
  let scale :=
    if Z.land insn 0x3b000000 =? 0x39000000 then
      let scale := bits insn 31 30 in
      if (scale =? 0) && (Z.land insn 0x04800000 =? 0x04800000) then 4 else scale
    else 0 in
  or32 insn (Z.shiftl (bits (u32 val) 11 scale) 10).

Section Target.
Context (m : machine).

Definition is_arm64_32 : bool := match m with ARM64_32 => true | _ => false end.

Definition to_32 (insn : Z) : Z :=
  if is_arm64_32 then Z.lor (Z.land insn 0x3fffffff) 0x80000000 else insn.

(** ** Stubs *)

(** One stub: the code at [this_addr] that jumps through the pointer at
    [ptr_addr]. *)
Definition stub (this_addr ptr_addr : Z) : list Z :=
  [ or32 0x90000010 (page_offset ptr_addr this_addr);
    or32 (to_32 0xf9400210) (Z.shiftl (bits ptr_addr 11 3) 10);
    0xd61f0200 ].

(** [lazy_symbol_ptr] is the address of that section when there is one; [syms]
    are the symbols with stubs. *)
Definition stubs_copy_buf (ctx : Context) (hdr_addr : Z) (lazy_symbol_ptr : option Z) (syms : list Symbol) : list Z :=
  concat (imap (fun i sym =>
    let this_addr := u64 (hdr_addr + stub_size (target_of m) * Z.of_nat i) in
    let ptr_addr := match lazy_symbol_ptr with
                    | Some a => u64 (a + sizeof_word m * Z.of_nat i)
                    | None => get_got_addr m ctx sym
                    end in
    stub this_addr ptr_addr) syms).

(** ** Stub helper *)

Definition stub_helper_header (hdr_addr dyld_private stub_binder : Z) : list Z :=
  [ or32 0x90000011 (page_offset dyld_private hdr_addr);
    or32 0x91000231 (Z.shiftl (bits dyld_private 11 0) 10);
    0xa9bf47f0;
    or32 0x90000010 (page_offset stub_binder (u64 (hdr_addr - 12)));
    or32 (to_32 0xf9400210) (Z.shiftl (bits stub_binder 11 0) 10);
    0xd61f0200 ].

(** The entry whose [buf] is [k] words after [start]; [start - buf - 1] is a
    difference of pointers to words. *)
Definition stub_helper_entry (k bind_offset : Z) : list Z :=
  [ 0x18000050; or32 0x14000000 (bits (u64 ((- k - 1) * 4)) 27 2); u32 bind_offset ].

Definition stub_helper_copy_buf (hdr_addr dyld_private stub_binder : Z) (bind_offsets : list Z) : list Z :=
  stub_helper_header hdr_addr dyld_private stub_binder ++
  concat (imap (fun i off => stub_helper_entry (6 + 3 * Z.of_nat i) off) bind_offsets).

(** ** Objective-C stubs *)

Definition objc_stub (ent_addr sel_addr msgsend_got_addr : Z) : list Z :=
  [ or32 0x90000001 (page_offset sel_addr ent_addr);
    or32 (to_32 0xf9400021) (Z.shiftl (bits sel_addr 11 3) 10);
    or32 0x90000010 (page_offset msgsend_got_addr (u64 (ent_addr + 8)));
    or32 (to_32 0xf9400210) (Z.shiftl (bits msgsend_got_addr 11 3) 10);
    0xd61f0200; 0xd4200020; 0xd4200020; 0xd4200020 ].

Definition OBJC_ENTRY_SIZE : Z := 32.

Definition objc_stubs_copy_buf (hdr_addr msgsend_got_addr : Z) (sel_addrs : list Z) : list Z :=
  concat (imap (fun i sel => objc_stub (u64 (hdr_addr + OBJC_ENTRY_SIZE * Z.of_nat i)) sel msgsend_got_addr) sel_addrs).

(** ** Thunks *)

Definition thunk_entry (addr pc : Z) : list Z :=
  [ or32 0x90000010 (page_offset addr pc); or32 0x91000210 (Z.shiftl (bits addr 11 0) 10); 0xd61f0200 ].

Definition thunk_copy_buf (ctx : Context) (osec : Z) (t : RangeExtensionThunk) : option (list Z) :=
  (fun l => concat l) <$> mapM (fun '(i, s) =>
    sym ← symbols ctx !! s;
    addr ← symbol_addr m ctx sym;
    pc ← thunk_addr ctx osec t (Z.of_nat i);
    Some (thunk_entry addr pc)) (imap pair (thunk_symbols t)).

(** ** Relocations *)

Definition ARM64_RELOC_ (n : string) : Z := constant ARM64_RELOC ("ARM64_RELOC_" ++ n).

Definition in_bounds (n : nat) (buf : bytes) (off : Z) : bool := (0 <=? off) && (off + Z.of_nat n <=? zlen buf).

Definition read (n : nat) (buf : bytes) (off : Z) : option Z :=
  if in_bounds n buf off then Some (le_load (take n (drop (Z.to_nat off) buf))) else None.

Definition write (n : nat) (buf : bytes) (off v : Z) : option bytes :=
  if in_bounds n buf off
  then Some (take (Z.to_nat off) buf ++ le_store n v ++ drop (Z.to_nat off + n) buf) else None.

Definition update (buf : bytes) (off : Z) (f : Z -> Z) : option bytes :=
  w ← read 4 buf off; write 4 buf off (f w).

Section Apply.
Context (ctx : Context) (self : Z).

(** [r.sym() && !r.sym()->file]. *)
Definition undefined (r : Relocation) : option bool :=
  match target r with
  | RelSym s => sym ← symbols ctx !! s; Some (bool_decide (file sym = None))
  | RelSubsec _ => Some false
  end.

Definition rel_symbol (r : Relocation) : option Symbol := s ← rel_sym r; symbols ctx !! s.

(** [P]. *)
Definition place (r : Relocation) : option Z := a ← subsec_addr ctx self; Some (u64 (a + offset r)).

(** [G + GOT + A]. *)
Definition got_value (r : Relocation) : Z :=
  let G := match rel_symbol r with Some s => u64 (got_idx s * sizeof_word m) | None => 0 end in
  u64 (G + got_addr ctx + addend r).

Definition tlv_value (r : Relocation) : option Z :=
  s ← rel_symbol r; Some (u64 (get_tlv_addr m ctx s + addend r)).

(** The displacement of a branch: to the target when it is within reach, else to
    the thunk entry the relocation was assigned. *)
Definition branch_val (r : Relocation) (S P : Z) : option Z :=
  let val := i64 (S + addend r - P) in
  if (val <? - 2 ^ 27) || (2 ^ 27 <=? val) then
    me ← subsecs ctx !! self;
    t ← nth_thunk_addr ctx (osec me) (thunk_idx r) (thunk_sym_idx r); Some (i64 (t - P))
  else Some val.

(** The [switch] for every type but SUBTRACTOR. [None]: an ASSERT fails, a
    [Fatal], or an access out of bounds. *)
Definition apply_one (r : Relocation) (buf : bytes) : option bytes :=
  S ← rel_addr m ctx r;
  P ← place r;
  let A := addend r in
  let loc := offset r in
  if type r =? ARM64_RELOC_ "UNSIGNED" then
    if negb (size r =? sizeof_word m) then None
    else if default false (is_imported <$> rel_symbol r) then Some buf
    else if refers_to_tls ctx r then write (Z.to_nat (sizeof_word m)) buf loc (S + A - tls_begin ctx)
    else write (Z.to_nat (sizeof_word m)) buf loc (S + A)
  else if type r =? ARM64_RELOC_ "BRANCH26" then
    val ← branch_val r S P; update buf loc (fun w => or32 w (bits (u64 val) 27 2))
  else if type r =? ARM64_RELOC_ "PAGE21" then
    update buf loc (fun w => or32 w (page_offset (u64 (S + A)) P))
  else if type r =? ARM64_RELOC_ "PAGEOFF12" then update buf loc (fun w => write_add_ldst w (u64 (S + A)))
  else if type r =? ARM64_RELOC_ "GOT_LOAD_PAGE21" then
    update buf loc (fun w => or32 w (page_offset (got_value r) P))
  else if type r =? ARM64_RELOC_ "GOT_LOAD_PAGEOFF12" then update buf loc (fun w => write_add_ldst w (got_value r))
  else if type r =? ARM64_RELOC_ "POINTER_TO_GOT" then
    if size r =? 4 then write 4 buf loc (got_value r - P) else None
  else if type r =? ARM64_RELOC_ "TLVP_LOAD_PAGE21" then
    v ← tlv_value r; update buf loc (fun w => or32 w (page_offset v P))
  else if type r =? ARM64_RELOC_ "TLVP_LOAD_PAGEOFF12" then
    v ← tlv_value r; update buf loc (fun w => write_add_ldst w v)
  else None.

(** SUBTRACTOR with the UNSIGNED that must follow it. *)
Definition apply_pair (r u : Relocation) (buf : bytes) : option bytes :=
  S ← rel_addr m ctx r;
  if negb ((size r =? 4) || (size r =? 8)) || negb (type u =? ARM64_RELOC_ "UNSIGNED") then None
  else S2 ← rel_addr m ctx u; write (Z.to_nat (size r)) buf (offset r) (S2 + addend u - S).

(** The loop: the new contents and the symbols reported as undefined. *)
Fixpoint apply_reloc (rels : list Relocation) (buf : bytes) : option (bytes * list rel_target) :=
  match rels with
  | [] => Some (buf, [])
  | r :: rest =>
      undef ← undefined r;
      if undef : bool then '(buf', errs) ← apply_reloc rest buf; Some (buf', target r :: errs)
      else if type r =? ARM64_RELOC_ "SUBTRACTOR" then
        match rest with
        | [] => None
        | u :: rest' => buf' ← apply_pair r u buf; apply_reloc rest' buf'
        end
      else buf' ← apply_one r buf; apply_reloc rest buf'
  end.
End Apply.
End Target.

(** ** Page arithmetic *)

Lemma page_spec val : is_u 64 val -> page val = val - val mod 4096.
Proof.
  intros Hv. unfold page.
  replace 0xfffffffffffff000 with (Z.shiftl (Z.ones (64 - 12)) 12) by reflexivity.
  rewrite land_mask by (done || lia). change (2 ^ 12) with 4096.
  pose proof (Z.div_mod val 4096 ltac:(lia)). lia.
Qed.

Lemma page_u64 val : is_u 64 val -> is_u 64 (page val).
Proof. intros. rewrite page_spec by done. dlia. Qed.

Lemma bits_low val k : 0 <= k -> bits val k 0 = val mod 2 ^ (k + 1).
Proof. intros. rewrite bits_spec, Z.pow_0_r, Z.div_1_r by lia. f_equal. f_equal. lia. Qed.

Lemma page_low val : is_u 64 val -> page val + bits val 11 0 = val.
Proof. intros. rewrite page_spec, bits_low by (done || lia). change (2 ^ (11 + 1)) with 4096. lia. Qed.

Lemma page_low_8 val : is_u 64 val -> val mod 8 = 0 -> page val + 8 * bits val 11 3 = val.
Proof. intros. rewrite page_spec, bits_spec by (done || lia). dlia. Qed.

(** The pages an ADRP can reach from an instruction: four gigabytes either way. *)
Definition adrp_reach (hi lo : Z) : Prop := - 2 ^ 32 <= page hi - page lo < 2 ^ 32.

#[export] Instance adrp_reach_dec hi lo : Decision (adrp_reach hi lo).
Proof. unfold adrp_reach. apply _. Defined.

Lemma adrp_imm q : - 2 ^ 20 <= q < 2 ^ 20 -> swrap 21 (bits (u64 (4096 * q)) 32 12) = q.
Proof.
  intros Hq. assert (E : bits (u64 (4096 * q)) 32 12 = wrap 21 q).
  { unfold u64. rewrite bits_wrap by lia. rewrite bits_spec by lia.
    change (2 ^ 12) with 4096. rewrite Z.mul_comm, Z.div_mul by lia. done. }
  rewrite E, swrap_wrap by lia. apply swrap_small; [lia|]. warith.
Qed.

Lemma adrp_result hi lo : is_u 64 hi -> is_u 64 lo -> adrp_reach hi lo ->
  u64 (lo - lo mod 4096 + swrap 21 (bits (u64 (page hi - page lo)) 32 12) * 4096) = page hi.
Proof.
  intros Hh Hl. unfold adrp_reach. rewrite !page_spec by done. intros Hr.
  assert (Hd : hi - hi mod 4096 - (lo - lo mod 4096) = 4096 * (hi / 4096 - lo / 4096)) by dlia.
  rewrite Hd in *. rewrite adrp_imm by lia.
  replace (lo - lo mod 4096 + _ * 4096) with (hi - hi mod 4096) by lia. apply u64_id.
  rewrite <- page_spec by done. by apply page_u64.
Qed.

(** ** The emitted instructions, one at a time *)

Lemma run_adrp n s insn l hi rd : code_addr (pc s) -> decode insn = Some (Adrp rd 0) ->
  is_u 64 hi -> adrp_reach hi (pc s) -> holds (mem s) (pc s) (or32 insn (page_offset hi (pc s)) :: l) ->
  let s' := mkState (u64 (pc s + 4)) (set_reg (regs s) rd (page hi)) (mem s) in
  run (S n) s = run n s' /\ code_addr (pc s') /\ holds (mem s') (pc s') l.
Proof.
  intros Hc Hd Hh Hr Hm s'. eapply run_code in Hm; [|done|unfold or32, page_offset; apply decode_adrp, Hd].
  cbn [exec] in Hm. rewrite adrp_result in Hm by (done || apply Hc). exact Hm.
Qed.

Lemma run_add n s insn l v rd rn : code_addr (pc s) -> decode insn = Some (AddImm rd rn 0) ->
  regs s rn = page v -> is_u 64 v -> holds (mem s) (pc s) (or32 insn (Z.shiftl (bits v 11 0) 10) :: l) ->
  let s' := mkState (u64 (pc s + 4)) (set_reg (regs s) rd v) (mem s) in
  run (S n) s = run n s' /\ code_addr (pc s') /\ holds (mem s') (pc s') l.
Proof.
  intros Hc Hd Hr Hv Hm s'.
  eapply run_code in Hm; [|done|apply decode_add; [exact Hd|exact (bits_range v 11 0 ltac:(lia))]].
  cbn [exec] in Hm. rewrite Hr, page_low, (u64_id v) in Hm by done. exact Hm.
Qed.

Lemma run_ldrx n s insn l off rt rn : code_addr (pc s) -> decode insn = Some (LdrX rt rn 0) ->
  is_u 12 off -> holds (mem s) (pc s) (or32 insn (Z.shiftl off 10) :: l) ->
  let s' := mkState (u64 (pc s + 4)) (set_reg (regs s) rt (load 8 (mem s) (u64 (regs s rn + 8 * off)))) (mem s) in
  run (S n) s = run n s' /\ code_addr (pc s') /\ holds (mem s') (pc s') l.
Proof.
  intros Hc Hd Ho Hm s'. eapply run_code in Hm; [|done|apply decode_ldrx; [exact Hd|exact Ho]]. exact Hm.
Qed.

Lemma run_ldrw n s insn l off rt rn : code_addr (pc s) -> decode insn = Some (LdrW rt rn 0) ->
  is_u 12 off -> holds (mem s) (pc s) (or32 insn (Z.shiftl off 10) :: l) ->
  let s' := mkState (u64 (pc s + 4)) (set_reg (regs s) rt (load 4 (mem s) (u64 (regs s rn + 4 * off)))) (mem s) in
  run (S n) s = run n s' /\ code_addr (pc s') /\ holds (mem s') (pc s') l.
Proof.
  intros Hc Hd Ho Hm s'. eapply run_code in Hm; [|done|apply decode_ldrw; [exact Hd|exact Ho]]. exact Hm.
Qed.

Lemma run_br s w l rn : code_addr (pc s) -> decode w = Some (Br rn) -> holds (mem s) (pc s) (w :: l) ->
  run 1 s = Some (mkState (regs s rn) (regs s) (mem s)).
Proof. intros Hc Hd Hm. eapply run_code in Hm as [-> _]; [|done|done]. done. Qed.

Lemma set_reg_eq r n v : set_reg r n v n = v.
Proof. unfold set_reg. by rewrite Z.eqb_refl. Qed.

Lemma set_reg_ne r n v k : k ≠ n -> set_reg r n v k = r k.
Proof. unfold set_reg. intros. by destruct (Z.eqb_spec k n). Qed.

(** ** Thunks, stubs *)

Lemma thunk_entry_runs s a : code_addr (pc s) -> is_u 64 a -> adrp_reach a (pc s) ->
  holds (mem s) (pc s) (thunk_entry a (pc s)) ->
  exists r, run 3 s = Some (mkState a r (mem s)) /\ forall k, k ≠ 16 -> r k = regs s k.
Proof.
  intros Hc Ha Hr Hm. unfold thunk_entry in Hm.
  eapply (run_adrp 2) in Hm as (-> & Hc1 & Hm); [|done|reflexivity|done|done].
  eapply (run_add 1) in Hm as (-> & Hc2 & Hm); [|done|reflexivity|cbn [regs]; apply set_reg_eq|done].
  eapply run_br in Hm as ->; [|done|reflexivity]. cbn [regs mem pc]. rewrite set_reg_eq.
  eexists. split; [done|]. intros k Hk. by rewrite !set_reg_ne.
Qed.

(** A stub loads a pointer and jumps to it. [ptr] is where it reads. *)
Lemma stub_runs m s ptr : code_addr (pc s) -> is_u 64 ptr -> adrp_reach ptr (pc s) ->
  holds (mem s) (pc s) (stub m (pc s) ptr) ->
  exists r, run 3 s = Some (mkState
      (match m with
       | ARM64_32 => load 4 (mem s) (page ptr + 4 * bits ptr 11 3)
       | _ => load 8 (mem s) (page ptr + 8 * bits ptr 11 3)
       end) r (mem s)) /\ forall k, k ≠ 16 -> r k = regs s k.
Proof.
  intros Hc Ha Hr Hm. unfold stub in Hm.
  pose proof (bits_range ptr 11 3 ltac:(lia)) as Hb. pose proof (page_spec ptr Ha) as Hp.
  assert (Hoff : is_u 12 (bits ptr 11 3)) by (unfold is_u in *; lia).
  eapply (run_adrp 2) in Hm as (-> & Hc1 & Hm); [|done|reflexivity|done|done].
  assert (Hfit : forall k, 0 <= k <= 8 -> u64 (page ptr + k * bits ptr 11 3) = page ptr + k * bits ptr 11 3).
  { intros k Hk. apply u64_id. rewrite Hp. unfold is_u in *. assert (k * bits ptr 11 3 <= 8 * bits ptr 11 3) by nia.
    rewrite bits_spec in * by lia. dlia. }
  destruct m; unfold to_32 in Hm; cbn [is_arm64_32] in Hm.
  1,3: eapply (run_ldrx 1) in Hm as (-> & Hc2 & Hm); [|done|reflexivity|done].
  3: eapply (run_ldrw 1) in Hm as (-> & Hc2 & Hm); [|done|reflexivity|done].
  all: eapply run_br in Hm as ->; [|done|reflexivity]; cbn [regs mem pc]; rewrite !set_reg_eq, Hfit by lia.
  all: eexists; split; [done|]; intros k Hk; by rewrite !set_reg_ne.
Qed.

(** The stub helper header, from its first instruction: [x17] points to
    [dyld_private], [x16] and [x17] are pushed, and control goes through the
    pointer the LDR reads. *)
Definition pushed (s : machine_state) (a b : Z) : Z -> Z :=
  let sp := u64 (regs s 31 - 16) in store 8 (store 8 (mem s) sp a) (u64 (sp + 8)) b.

(** Where the header's ADRP and LDR read the address of [dyld_stub_binder], on
    ARM64: the ADRP is the fourth instruction, twelve bytes after [hdr_addr], its
    displacement is computed from twelve bytes before, and the LDR scales by 8 an
    immediate that is not divided by 8. *)
Definition binder_slot (hdr_addr stub_binder : Z) : Z :=
  u64 (page (u64 (hdr_addr + 12)) + (page stub_binder - page (u64 (hdr_addr - 12))) + 8 * bits stub_binder 11 0).

Lemma adrp_result_at hi lo pc : is_u 64 hi -> is_u 64 lo -> is_u 64 pc -> adrp_reach hi lo ->
  u64 (pc - pc mod 4096 + swrap 21 (bits (u64 (page hi - page lo)) 32 12) * 4096) =
  u64 (page pc + (page hi - page lo)).
Proof.
  intros Hh Hl Hp. unfold adrp_reach. rewrite !page_spec by done. intros Hr.
  assert (Hd : hi - hi mod 4096 - (lo - lo mod 4096) = 4096 * (hi / 4096 - lo / 4096)) by dlia.
  rewrite Hd in *. rewrite adrp_imm by lia. f_equal. lia.
Qed.

(** Registers after a sequence of updates. *)
Ltac regs := cbn [regs mem pc]; repeat first [rewrite set_reg_eq | rewrite set_reg_ne by lia].

Lemma header_prologue s private l : code_addr (pc s) -> is_u 64 private -> adrp_reach private (pc s) ->
  holds (mem s) (pc s) (or32 0x90000011 (page_offset private (pc s)) ::
    or32 0x91000231 (Z.shiftl (bits private 11 0) 10) :: 0xa9bf47f0 :: l) ->
  exists r, run 3 s = Some (mkState (u64 (pc s + 12)) r (pushed s (regs s 16) private)) /\
    r 17 = private /\ r 31 = u64 (regs s 31 - 16) /\ forall k, k ≠ 17 -> k ≠ 31 -> r k = regs s k.
Proof.
  intros Hc Hp Hr Hm.
  eapply (run_adrp 2) in Hm as (-> & Hc1 & Hm); [|done|reflexivity|done|done].
  eapply (run_add 1) in Hm as (-> & Hc2 & Hm); [|done|reflexivity|cbn [regs]; apply set_reg_eq|done].
  eapply (run_code 0) in Hm as (-> & _ & _); [|done|reflexivity].
  cbn [run exec pc regs mem]. change (8 * swrap 7 (bits 0xa9bf47f0 21 15)) with (-16).
  change (bits 0xa9bf47f0 4 0) with 16. change (bits 0xa9bf47f0 14 10) with 17. change (bits 0xa9bf47f0 9 5) with 31.
  change (bits 0x91000231 4 0) with 17. change (bits 0x90000011 4 0) with 17.
  rewrite (u64_plus_u64 (pc s + 4) 4), (u64_plus_u64 (pc s + 4 + 4) 4).
  replace (pc s + 4 + 4 + 4) with (pc s + 12) by lia. regs.
  eexists. split; [done|]. split; [by regs|]. split; [by regs|]. intros k ? ?. by regs.
Qed.

Lemma header_epilogue s hdr binder : pc s = u64 (hdr + 12) -> is_u 64 hdr -> code_addr (pc s) -> is_u 64 binder ->
  adrp_reach binder (u64 (hdr - 12)) ->
  holds (mem s) (pc s) [or32 0x90000010 (page_offset binder (u64 (hdr - 12)));
    or32 0xf9400210 (Z.shiftl (bits binder 11 0) 10); 0xd61f0200] ->
  exists r, run 3 s = Some (mkState (load 8 (mem s) (binder_slot hdr binder)) r (mem s)) /\
    forall k, k ≠ 16 -> r k = regs s k.
Proof.
  intros Hpc Hh Hc Hb Hr Hm.
  eapply (run_code 2) in Hm as (-> & Hc1 & Hm); [|done|unfold or32, page_offset; apply decode_adrp; reflexivity].
  cbn [exec] in *.
  rewrite (adrp_result_at binder (u64 (hdr - 12)) (pc s)) in * by (done || apply Hc || by apply wrap_range).
  match goal with |- context [run 2 ?x] => set (s1 := x) end.
  eapply (run_ldrx 1 s1) in Hm as (-> & Hc2 & Hm); [|done|reflexivity|exact (bits_range binder 11 0 ltac:(lia))].
  unfold s1 in *. eapply run_br in Hm as ->; [|done|reflexivity].
  assert (E1 : bits 0xf9400210 9 5 = 16) by reflexivity. assert (E2 : bits 0xf9400210 4 0 = 16) by reflexivity.
  assert (E3 : bits 0x90000010 4 0 = 16) by reflexivity. cbn [regs mem pc].
  rewrite E1, E2, E3, !set_reg_eq, u64_plus_u64. eexists.
  split; [unfold binder_slot; by rewrite <- Hpc|]. intros k ?. by rewrite !set_reg_ne.
Qed.

Lemma stub_helper_header_runs s private binder : code_addr (pc s) -> is_u 64 private -> is_u 64 binder ->
  adrp_reach private (pc s) -> adrp_reach binder (u64 (pc s - 12)) ->
  let code := stub_helper_header ARM64 (pc s) private binder in
  let mem' := pushed s (regs s 16) private in
  holds (mem s) (pc s) code -> holds mem' (pc s) code ->
  exists r, run 6 s = Some (mkState (load 8 mem' (binder_slot (pc s) binder)) r mem') /\
    r 17 = private /\ r 31 = u64 (regs s 31 - 16) /\ forall k, k ≠ 16 -> k ≠ 17 -> k ≠ 31 -> r k = regs s k.
Proof.
  intros Hc Hp Hb Hrp Hrb code mem' Hm Hm'. unfold code, stub_helper_header in *.
  destruct (header_prologue s private _ Hc Hp Hrp Hm) as (r & E & H17 & H31 & Hr).
  do 3 apply holds_cons, proj2 in Hm'.
  destruct (header_epilogue (mkState (u64 (pc s + 12)) r mem') (pc s) binder) as (r' & E' & Hr');
    [done|apply Hc|by apply code_addr_next|done|done| |].
  - cbn [pc mem]. rewrite holds_u64. replace (pc s + 12) with (pc s + 4 + 4 + 4) by lia. exact Hm'.
  - exists r'. rewrite (run_plus 3 3), E. cbn [mbind option_bind]. fold mem'. rewrite E'. split; [done|].
    cbn [regs] in Hr'. rewrite !Hr' by lia. split; [done|split; [done|]]. intros k ? ? ?. by rewrite Hr', Hr.
Qed.

(** The displacement of a branch as the code computes it: [bits(val, 27, 2)]. *)
Lemma branch_disp val : val mod 4 = 0 -> - 2 ^ 27 <= val < 2 ^ 27 -> 4 * swrap 26 (bits (u64 val) 27 2) = val.
Proof.
  intros Hm Hr. unfold u64. rewrite bits_wrap, bits_spec by lia. change (27 - 2 + 1) with 26.
  change (?x mod 2 ^ 26) with (wrap 26 x). rewrite swrap_wrap by lia. change (2 ^ 2) with 4.
  rewrite swrap_small by (unfold is_s; dlia || lia). dlia.
Qed.

Lemma stub_helper_entry_runs s hdr k off : code_addr hdr -> pc s = u64 (hdr + 4 * k) -> 0 <= k < 2 ^ 25 ->
  holds (mem s) (pc s) (stub_helper_entry k off) ->
  run 2 s = Some (mkState hdr (set_reg (regs s) 16 (u32 off)) (mem s)).
Proof.
  intros Hh Hpc Hk Hm. unfold stub_helper_entry in Hm. pose proof (Hm 2%nat _ eq_refl) as Hw.
  assert (Hc : code_addr (pc s)) by (rewrite Hpc; apply code_addr_next; [done|dlia]).
  eapply (run_code 1) in Hm as (-> & Hc1 & Hm); [|done|reflexivity]. unfold exec in *.
  set (v := (- k - 1) * 4) in *.
  match goal with |- context [run 1 ?x] => set (s1 := x) end.
  eapply (run_code 0 s1) in Hm as (-> & _ & _);
    [|done|apply decode_b; [reflexivity|by left|exact (bits_range (u64 v) 27 2 ltac:(lia))]].
  unfold branch_with, exec, s1. cbn [run pc regs mem]. rewrite branch_disp by (unfold v; dlia).
  change (4 * swrap 19 (bits 0x18000050 23 5)) with (4 * Z.of_nat 2). rewrite Hw.
  do 2 f_equal. rewrite u64_plus_u64, Hpc, <- Z.add_assoc, u64_plus_u64. unfold v.
  replace (hdr + 4 * k + (4 + (- k - 1) * 4)) with hdr by lia. apply u64_id, Hh.
Qed.

(** A 64-bit load through a page and a scaled low part. *)
Lemma run_ldr_slot n s insn l ptr rt rn : code_addr (pc s) -> decode insn = Some (LdrX rt rn 0) ->
  regs s rn = page ptr -> is_u 64 ptr -> ptr mod 8 = 0 ->
  holds (mem s) (pc s) (or32 insn (Z.shiftl (bits ptr 11 3) 10) :: l) ->
  let s' := mkState (u64 (pc s + 4)) (set_reg (regs s) rt (load 8 (mem s) ptr)) (mem s) in
  run (S n) s = run n s' /\ code_addr (pc s') /\ holds (mem s') (pc s') l.
Proof.
  intros Hc Hd Hr Hp H8 Hm s'. pose proof (bits_range ptr 11 3 ltac:(lia)) as Hb.
  eapply run_ldrx in Hm; [|done|exact Hd|unfold is_u in *; lia].
  rewrite Hr, page_low_8, (u64_id ptr) in Hm by done. exact Hm.
Qed.

Lemma objc_stub_runs s sel got : code_addr (pc s) -> is_u 64 sel -> sel mod 8 = 0 -> is_u 64 got -> got mod 8 = 0 ->
  adrp_reach sel (pc s) -> adrp_reach got (u64 (pc s + 8)) ->
  holds (mem s) (pc s) (objc_stub ARM64 (pc s) sel got) ->
  exists r, run 5 s = Some (mkState (load 8 (mem s) got) r (mem s)) /\
    r 1 = load 8 (mem s) sel /\ forall k, k ≠ 1 -> k ≠ 16 -> r k = regs s k.
Proof.
  intros Hc Hs Hs8 Hg Hg8 Hrs Hrg Hm. unfold objc_stub, to_32 in Hm. cbn [is_arm64_32] in Hm.
  eapply (run_adrp 4) in Hm as (-> & Hc1 & Hm); [|done|reflexivity|done|done].
  eapply (run_ldr_slot 3) in Hm as (-> & Hc2 & Hm); [|done|reflexivity|cbn [regs]; apply set_reg_eq|done..].
  match goal with |- context [run 3 ?x] => set (s2 := x) in * end.
  assert (Hpc2 : u64 (pc s + 8) = pc s2).
  { unfold s2. cbn [pc]. rewrite u64_plus_u64. f_equal. lia. }
  rewrite Hpc2 in *.
  eapply (run_adrp 2 s2) in Hm as (-> & Hc3 & Hm); [|done|reflexivity|done|done].
  eapply (run_ldr_slot 1) in Hm as (-> & Hc4 & Hm); [|done|reflexivity|cbn [regs]; apply set_reg_eq|done..].
  eapply run_br in Hm as ->; [|done|reflexivity]. unfold s2. cbn [regs mem pc].
  change (bits 0xf9400210 9 5) with 16. change (bits 0xf9400210 4 0) with 16. change (bits 0x90000010 4 0) with 16.
  change (bits 0xd61f0200 9 5) with 16. change (bits 0xf9400021 4 0) with 1. change (bits 0x90000001 4 0) with 1.
  rewrite set_reg_eq. eexists. split; [done|]. split; [by regs|]. intros k ? ?. by regs.
Qed.

(** ** Properties of the emitted code *)

Lemma imap_pair_lookup {A} (l : list A) i x : l !! i = Some x -> imap pair l !! i = Some (i, x).
Proof. intros Hi. by rewrite list_lookup_imap, Hi. Qed.

Lemma thunk_copy_buf_total m ctx o t :
  Forall (fun s => is_Some (symbols ctx !! s ≫= symbol_addr m ctx)) (thunk_symbols t) -> is_Some (osec_addr ctx !! o) ->
  is_Some (thunk_copy_buf m ctx o t).
Proof.
  intros Hs [base Ho]. unfold thunk_copy_buf. set (f := fun '(i, s) => _).
  destruct (mapM f (imap pair (thunk_symbols t))) as [ls|] eqn:E; [by eexists|exfalso].
  apply mapM_None, Exists_exists in E as ([i s] & Hin & Hf).
  apply list_elem_of_lookup in Hin as [j Hj]. rewrite list_lookup_imap in Hj.
  destruct (thunk_symbols t !! j) as [s'|] eqn:Ej; [|done]. injection Hj as <- ->.
  eapply Forall_lookup_1 in Hs as [a Ha]; [|exact Ej]. unfold f, thunk_addr in Hf. rewrite Ho in Hf.
  destruct (symbols ctx !! s) as [sym|]; [|done]. cbn [mbind option_bind] in *. by rewrite Ha in Hf.
Qed.

Lemma thunk_copy_buf_pieces m ctx o t code : thunk_copy_buf m ctx o t = Some code ->
  exists ls, code = concat ls /\ length ls = length (thunk_symbols t) /\
    Forall (fun l => length l = 3%nat) ls /\
    forall i s a pc, thunk_symbols t !! i = Some s -> symbols ctx !! s ≫= symbol_addr m ctx = Some a ->
      thunk_addr ctx o t (Z.of_nat i) = Some pc -> ls !! i = Some (thunk_entry a pc).
Proof.
  unfold thunk_copy_buf. set (f := fun '(i, s) => _). destruct (mapM f (imap pair (thunk_symbols t))) as [ls|] eqn:E; [|done].
  intros [= <-]. exists ls. apply mapM_Some in E. split; [done|]. split; [|split].
  - apply Forall2_length in E. by rewrite length_imap in E.
  - apply (Forall2_Forall_r _ _ _ _ E), Forall_forall. intros [i s] _ l. unfold f.
    destruct (symbols ctx !! s) as [sym|]; [|done]. cbn [mbind option_bind].
    destruct (symbol_addr m ctx sym); [|done]. cbn [mbind option_bind].
    destruct (thunk_addr ctx o t (Z.of_nat i)); [|done]. by intros [= <-].
  - intros i s a pc Hi Ha Hp. destruct (Forall2_lookup_l _ _ _ _ _ E (imap_pair_lookup _ _ _ Hi)) as (l & Hl & Hf).
    rewrite Hl. f_equal. unfold f in Hf. rewrite Hp in Hf.
    destruct (symbols ctx !! s) as [sym|]; [|done]. cbn [mbind option_bind] in *. rewrite Ha in Hf. by injection Hf.
Qed.

(** Running the entry of a thunk that is in memory. *)
Lemma thunk_runs m ctx o t code i sym a entry base s :
  thunk_copy_buf m ctx o t = Some code ->
  thunk_symbols t !! i = Some sym -> symbols ctx !! sym ≫= symbol_addr m ctx = Some a ->
  thunk_addr ctx o t (Z.of_nat i) = Some entry -> thunk_addr ctx o t 0 = Some base ->
  holds (mem s) base code -> pc s = entry -> code_addr entry -> is_u 64 a -> adrp_reach a entry ->
  exists r, run 3 s = Some (mkState a r (mem s)) /\ forall k, k ≠ 16 -> r k = regs s k.
Proof.
  intros E Hl Ha He Hb Hm Hpc Hc Hu Hr. destruct (thunk_copy_buf_pieces m ctx o t code E) as (ls & -> & Hlen & H3 & Hi).
  pose proof (Hi _ _ _ _ Hl Ha He) as Hli.
  pose proof (holds_concat _ _ _ _ H3 Hm _ _ Hli) as Hh. rewrite <- Hpc in *.
  apply thunk_entry_runs; [done..|].
  replace (u64 (base + 4 * Z.of_nat 3 * Z.of_nat i)) with (pc s) in Hh; [done|]. rewrite Hpc in *.
  unfold thunk_addr in *. destruct (osec_addr ctx !! o) as [oa|]; [|done]. cbn [mbind option_bind] in *.
  injection He as <-. injection Hb as <-. rewrite u64_plus_u64. f_equal. unfold ENTRY_SIZE. lia.
Qed.

(** a range extension thunk fills its [thunk_size] bytes, and executing its
    [i]-th entry jumps to the [i]-th symbol's address wherever within four
    gigabytes it is, changing no register but x16 and no memory. *)
Theorem thunk_code_jumps (m : machine) (ctx : Context) (o : Z) (t : RangeExtensionThunk) :
  Forall (fun s => is_Some (symbols ctx !! s ≫= symbol_addr m ctx)) (thunk_symbols t) -> is_Some (osec_addr ctx !! o) ->
  exists code, thunk_copy_buf m ctx o t = Some code /\ 4 * zlen code = thunk_size t /\
    forall i sym a entry base s, thunk_symbols t !! i = Some sym -> symbols ctx !! sym ≫= symbol_addr m ctx = Some a ->
      thunk_addr ctx o t (Z.of_nat i) = Some entry -> thunk_addr ctx o t 0 = Some base ->
      holds (mem s) base code -> pc s = entry -> code_addr entry -> is_u 64 a -> adrp_reach a entry ->
      exists r, run 3 s = Some (mkState a r (mem s)) /\ forall k, k ≠ 16 -> r k = regs s k.
Proof.
  intros Hs Ho. destruct (thunk_copy_buf_total m ctx o t Hs Ho) as [code E]. exists code. split; [done|]. split.
  - destruct (thunk_copy_buf_pieces m ctx o t code E) as (ls & -> & Hlen & H3 & _).
    unfold zlen, thunk_size, zlen, ENTRY_SIZE. rewrite (length_concat_const 3), Hlen by done. lia.
  - intros. by eapply thunk_runs.
Qed.

(** A link whose code section is at 4 GiB with one thunk at its offset 0x100, for
    a function at 8 GiB less 16 bytes. *)
Definition sample : Context :=
  {| symbols := {[ 7 := {| file := Some 0; subsec := None; value := 0x1fffffff0; stub_idx := -1; got_idx := 0; tlv_idx := -1;
                           is_imported := false; priority := 0 |} ]};
     subsecs := {[ 3 := {| osec := 1; hdr_type := 0; input_size := 64; p2align := 2 |} ]};
     output_offset := {[ 3 := 0x20 ]};
     osec_addr := {[ 1 := 0x100000000 ]};
     thunks := {[ 1 := [ {| thunk_offset := 0x100; thunk_symbols := [7] |} ] ]};
     stubs_addr := 0x100004000; got_addr := 0x100008000; thread_ptrs_addr := 0x100008800; tls_begin := 0 |}.

Lemma thunk_code_jumps_witness :
  let t := {| thunk_offset := 0x100; thunk_symbols := [7] |} in
  exists code, thunk_copy_buf ARM64 sample 1 t = Some code /\
    let s := mkState 0x100000100 (fun _ => 5) (place_code 0x100000100 code) in
    exists r, run 3 s = Some (mkState 0x1fffffff0 r (mem s)) /\ forall k, k ≠ 16 -> r k = 5.
Proof.
  intros t. destruct (thunk_code_jumps ARM64 sample 1 t) as (code & E & _ & H).
  - by repeat constructor.
  - done.
  - exists code. split; [done|]. apply (H 0%nat 7 _ 0x100000100 0x100000100); try reflexivity.
    + apply holds_check_spec. vm_compute in E. injection E as <-. vm_compute. reflexivity.
    + decided.
    + decided.
    + decided.
Defined.

(** The address the [i]-th stub is meant to jump through. *)
Definition stub_ptr (m : machine) (ctx : Context) (lazy : option Z) (i : nat) (sym : Symbol) : Z :=
  match lazy with Some a => u64 (a + sizeof_word m * Z.of_nat i) | None => get_got_addr m ctx sym end.

Definition load_word (m : machine) (mm : Z -> Z) (a : Z) : Z := load (Z.to_nat (sizeof_word m)) mm a.

Lemma stub_ptr_u64 m ctx lazy i sym : is_u 64 (stub_ptr m ctx lazy i sym).
Proof. destruct lazy; apply wrap_range; lia. Qed.

(** the [i]-th stub jumps to the address stored in its lazy symbol pointer
    or GOT entry, changing only x16. On ARM64_32 the [ldr] reads a 32-bit word at
    an offset that the code divides by eight and the instruction multiplies by
    four, so that stub reads its pointer only when the pointer is at the start of
    a page. *)
Theorem stubs_jump (m : machine) (ctx : Context) (hdr_addr : Z) (lazy : option Z) (syms : list Symbol) :
  m ≠ X86_64 -> code_addr hdr_addr ->
  forall i sym s, syms !! i = Some sym -> holds (mem s) hdr_addr (stubs_copy_buf m ctx hdr_addr lazy syms) ->
    let ptr := stub_ptr m ctx lazy i sym in
    pc s = u64 (hdr_addr + 12 * Z.of_nat i) -> ptr mod sizeof_word m = 0 -> adrp_reach ptr (pc s) ->
    exists slot r, run 3 s = Some (mkState (load_word m (mem s) slot) r (mem s)) /\
      (forall k, k ≠ 16 -> r k = regs s k) /\
      match m with
      | ARM64_32 => slot = ptr - ptr mod 4096 + ptr mod 4096 / 8 * 4 /\ (slot = ptr <-> ptr mod 4096 = 0)
      | _ => slot = ptr
      end.
Proof.
  intros Hx Hh i sym s Hi Hm ptr Hpc Hal Hr. unfold stubs_copy_buf in Hm.
  apply (holds_concat _ _ 3) with (i := i) (l := stub m (pc s) ptr) in Hm.
  2:{ apply Forall_forall. intros l Hl%list_elem_of_lookup. destruct Hl as [j Hj].
      rewrite list_lookup_imap in Hj. destruct (syms !! j); [|done]. by injection Hj as <-. }
  2:{ rewrite list_lookup_imap, Hi. simpl. do 2 f_equal. rewrite Hpc. by destruct m. }
  replace (u64 (hdr_addr + 4 * Z.of_nat 3 * Z.of_nat i)) with (pc s) in Hm by (rewrite Hpc; f_equal; lia).
  assert (Hu : is_u 64 ptr) by apply stub_ptr_u64.
  assert (Hc : code_addr (pc s)) by (rewrite Hpc; apply code_addr_next; [done|dlia]).
  destruct (stub_runs m s ptr Hc Hu Hr Hm) as (r & E & Hk).
  destruct m; [| |done]; (eexists _, r; split; [exact E|]; split; [done|]).
  - by apply page_low_8.
  - rewrite page_spec, bits_spec by (done || lia). change (sizeof_word ARM64_32) with 4 in Hal. dlia.
Qed.

Lemma stubs_jump_witness :
  let code := stubs_copy_buf ARM64 sample 0x100004000 (Some 0x100008008) (replicate 2 (default inhabitant (symbols sample !! 7))) in
  let s := mkState 0x10000400c (fun _ => 0) (place_code 0x100004000 code) in
  exists slot r, run 3 s = Some (mkState (load_word ARM64 (mem s) slot) r (mem s)) /\
      (forall k, k ≠ 16 -> r k = 0) /\ slot = 0x100008010.
Proof.
  intros code s. apply (stubs_jump ARM64 sample 0x100004000 (Some 0x100008008) (replicate 2 (default inhabitant (symbols sample !! 7)))
    ltac:(done) ltac:(decided) 1 (default inhabitant (symbols sample !! 7)) s); try reflexivity.
  - apply holds_check_spec. vm_compute. reflexivity.
  - decided.
Defined.

Lemma binder_slot_spec hdr binder : is_u 64 binder -> page (u64 (hdr + 12)) = page (u64 (hdr - 12)) ->
  binder_slot hdr binder = binder <-> binder mod 4096 = 0.
Proof.
  intros Hb Hp. unfold binder_slot. rewrite Hp, bits_low by lia. change (2 ^ (11 + 1)) with 4096.
  replace (page _ + (page binder - page _) + _) with (page binder + 8 * (binder mod 4096)) by lia.
  rewrite page_spec by done. replace (binder - binder mod 4096 + 8 * (binder mod 4096)) with (binder + 7 * (binder mod 4096)) by lia.
  unfold u64. dlia.
Qed.

Lemma stub_helper_pieces hdr private binder offs i off m :
  holds m hdr (stub_helper_copy_buf ARM64 hdr private binder offs) -> offs !! i = Some off ->
  holds m hdr (stub_helper_header ARM64 hdr private binder) /\
  holds m (u64 (hdr + 24 + 12 * Z.of_nat i)) (stub_helper_entry (6 + 3 * Z.of_nat i) off).
Proof.
  intros [Hh He]%holds_app Hi. split; [done|].
  apply (holds_concat _ _ 3) with (i := i) (l := stub_helper_entry (6 + 3 * Z.of_nat i) off) in He.
  - rewrite holds_u64 in *. change (4 * zlen _) with 24 in He.
    by replace (hdr + 24 + 12 * Z.of_nat i) with (hdr + 24 + 4 * Z.of_nat 3 * Z.of_nat i) by lia.
  - apply Forall_forall. intros l Hl%list_elem_of_lookup. destruct Hl as [j Hj].
    rewrite list_lookup_imap in Hj. destruct (offs !! j); [|done]. by injection Hj as <-.
  - by rewrite list_lookup_imap, Hi.
Qed.

(** entering the stub helper at its [i]-th entry (ARM64) reaches the header
    with the stub's lazy bind offset in w16; the header pushes that offset and the
    address of [__dyld_private] and jumps through the pointer at [binder_slot].
    When the header's first two words are on one page, that is the GOT entry of
    [dyld_stub_binder] exactly if the entry is at the start of a page. *)
Theorem stub_helper_runs (hdr private binder : Z) (offs : list Z) :
  code_addr hdr -> is_u 64 private -> is_u 64 binder ->
  adrp_reach private hdr -> adrp_reach binder (u64 (hdr - 12)) -> zlen offs < 2 ^ 23 ->
  let code := stub_helper_copy_buf ARM64 hdr private binder offs in
  (forall i off s, offs !! i = Some off -> pc s = u64 (hdr + 24 + 12 * Z.of_nat i) ->
    let mem' := pushed s (u32 off) private in
    holds (mem s) hdr code -> holds mem' hdr code ->
    exists r, run 8 s = Some (mkState (load 8 mem' (binder_slot hdr binder)) r mem') /\
      r 17 = private /\ r 31 = u64 (regs s 31 - 16) /\ forall k, k ≠ 16 -> k ≠ 17 -> k ≠ 31 -> r k = regs s k) /\
  (page (u64 (hdr + 12)) = page (u64 (hdr - 12)) -> binder_slot hdr binder = binder <-> binder mod 4096 = 0).
Proof.
  intros Hc Hp Hb Hrp Hrb Hlen code. split; [|by apply binder_slot_spec].
  intros i off s Hi Hpc mem' Hm Hm'.
  destruct (stub_helper_pieces _ _ _ _ _ _ _ Hm Hi) as [Hh He].
  destruct (stub_helper_pieces _ _ _ _ _ _ _ Hm' Hi) as [Hh' _].
  apply lookup_lt_Some in Hi. unfold zlen in Hlen.
  rewrite (run_plus 2 6), (stub_helper_entry_runs s hdr (6 + 3 * Z.of_nat i) off); [|done| |lia|by rewrite Hpc].
  2:{ rewrite Hpc. f_equal. lia. }
  cbn [mbind option_bind]. set (s' := mkState hdr _ _).
  destruct (stub_helper_header_runs s' private binder) as (r & E & H17 & H31 & Hk); [done..|].
  exists r. split; [exact E|]. split; [done|]. split; [done|]. intros k H1 H2 H3. rewrite Hk by done.
  by apply set_reg_ne.
Qed.

Lemma stub_helper_runs_witness :
  let code := stub_helper_copy_buf ARM64 0x100003f80 0x100008010 0x100008000 [0; 17] in
  let s := mkState 0x100003fa4 (fun _ => 0x16fe00000) (place_code 0x100003f80 code) in
  exists r mem', run 8 s = Some (mkState (load 8 mem' 0x100008000) r mem') /\ r 17 = 0x100008010 /\ r 31 = 0x16fdffff0.
Proof.
  intros code s. destruct (stub_helper_runs 0x100003f80 0x100008010 0x100008000 [0; 17]) as [H E]; [decided..|].
  destruct (H 1%nat 17 s) as (r & Hr & H17 & H31 & _); [reflexivity|reflexivity| | |].
  - apply holds_check_spec. vm_compute. reflexivity.
  - apply holds_check_spec. vm_compute. reflexivity.
  - rewrite (proj2 (E eq_refl) eq_refl) in Hr. eexists r, _. split; [exact Hr|]. split; [exact H17|]. exact H31.
Defined.

(** the [i]-th Objective-C stub (ARM64) calls [_objc_msgSend] through its GOT
    entry with the selector loaded in x1. *)
Theorem objc_stub_calls (hdr got : Z) (sels : list Z) :
  code_addr hdr -> is_u 64 got -> got mod 8 = 0 ->
  forall i sel s, sels !! i = Some sel -> is_u 64 sel -> sel mod 8 = 0 ->
    holds (mem s) hdr (objc_stubs_copy_buf ARM64 hdr got sels) -> pc s = u64 (hdr + 32 * Z.of_nat i) ->
    adrp_reach sel (pc s) -> adrp_reach got (u64 (pc s + 8)) ->
    exists r, run 5 s = Some (mkState (load 8 (mem s) got) r (mem s)) /\
      r 1 = load 8 (mem s) sel /\ forall k, k ≠ 1 -> k ≠ 16 -> r k = regs s k.
Proof.
  intros Hh Hg Hg8 i sel s Hi Hs Hs8 Hm Hpc Hrs Hrg.
  apply (holds_concat _ _ 8) with (i := i) (l := objc_stub ARM64 (pc s) sel got) in Hm.
  - apply objc_stub_runs; try done; [rewrite Hpc; apply code_addr_next; [done|dlia]|].
    replace (u64 (hdr + 4 * Z.of_nat 8 * Z.of_nat i)) with (pc s) in Hm by (rewrite Hpc; f_equal; lia). done.
  - apply Forall_forall. intros l Hl%list_elem_of_lookup. destruct Hl as [j Hj].
    rewrite list_lookup_imap in Hj. destruct (sels !! j); [|done]. by injection Hj as <-.
  - by rewrite list_lookup_imap, Hi, Hpc.
Qed.

Lemma objc_stub_calls_witness :
  let code := objc_stubs_copy_buf ARM64 0x100003f00 0x100008018 [0x10000c000; 0x10000c008] in
  let s := mkState 0x100003f20 (fun _ => 0) (place_code 0x100003f00 code) in
  exists r, run 5 s = Some (mkState (load 8 (mem s) 0x100008018) r (mem s)) /\
      r 1 = load 8 (mem s) 0x10000c008 /\ forall k, k ≠ 1 -> k ≠ 16 -> r k = 0.
Proof.
  intros code s. apply (objc_stub_calls 0x100003f00 0x100008018 [0x10000c000; 0x10000c008]) with (i := 1%nat);
    [decided|decided|reflexivity|reflexivity|decided|reflexivity| |reflexivity|decided|decided].
  apply holds_check_spec. vm_compute. reflexivity.
Defined.

(** ** Reading and writing a section's contents *)

(** Two buffers of the same size that hold the same bytes at [off, off + n). *)
Definition agree (off n : Z) (b1 b2 : bytes) : Prop :=
  zlen b1 = zlen b2 /\ forall x : nat, off <= Z.of_nat x < off + n -> b1 !! x = b2 !! x.

(** ... and outside of it. *)
Definition agree_outside (off n : Z) (b1 b2 : bytes) : Prop :=
  zlen b1 = zlen b2 /\ forall x : nat, ~ (off <= Z.of_nat x < off + n) -> b1 !! x = b2 !! x.

Lemma agree_sym off n b1 b2 : agree off n b1 b2 -> agree off n b2 b1.
Proof. intros [Hl H]. split; [done|]. intros. by rewrite H. Qed.

Lemma agree_trans off n b1 b2 b3 : agree off n b1 b2 -> agree off n b2 b3 -> agree off n b1 b3.
Proof. intros [Hl H] [Hl' H']. split; [congruence|]. intros. rewrite H by done. by apply H'. Qed.

Lemma agree_disjoint off n off' n' b1 b2 :
  agree_outside off n b1 b2 -> off + n <= off' \/ off' + n' <= off -> agree off' n' b1 b2.
Proof. intros [Hl H] Hd. split; [done|]. intros x Hx. apply H. lia. Qed.

Lemma read_agree n off b1 b2 : agree off (Z.of_nat n) b1 b2 -> read n b1 off = read n b2 off.
Proof.
  intros [Hl H]. unfold read, in_bounds. rewrite Hl. destruct (Z.leb_spec 0 off); [simpl|done].
  destruct (_ <=? _); [|done]. do 2 f_equal. apply list_eq. intros i.
  destruct (decide (i < n)%nat).
  - rewrite !lookup_take, !lookup_drop by done. repeat case_decide; try lia. apply H. lia.
  - rewrite !lookup_take_ge by lia. done.
Qed.

Lemma write_spec n buf off v b : write n buf off v = Some b ->
  agree_outside off (Z.of_nat n) b buf /\ in_bounds n buf off = true /\
  forall k : nat, (k < n)%nat -> b !! (Z.to_nat off + k)%nat = le_store n v !! k.
Proof.
  unfold write. destruct (in_bounds n buf off) eqn:E; [|done]. intros [= <-].
  assert (Hb : 0 <= off /\ off + Z.of_nat n <= zlen buf) by (unfold in_bounds in E; lia).
  destruct Hb as [H1 H2]. unfold zlen in *.
  assert (Ht : length (take (Z.to_nat off) buf) = Z.to_nat off) by (rewrite length_take; lia).
  split; [|split; [done|]].
  - split.
    + unfold zlen. rewrite !length_app, Ht, length_le_store, length_drop. lia.
    + intros x Hx. destruct (decide (x < Z.to_nat off)%nat).
      * rewrite lookup_app_l, lookup_take by lia. case_decide; [done|lia].
      * rewrite lookup_app_r, Ht, lookup_app_r, length_le_store, lookup_drop by (rewrite ?Ht, ?length_le_store; lia).
        f_equal. lia.
  - intros k Hk. rewrite lookup_app_r, Ht, lookup_app_l by (rewrite ?Ht, ?length_le_store; lia). f_equal. lia.
Qed.

Lemma in_bounds_agree n off b1 b2 : zlen b1 = zlen b2 -> in_bounds n b1 off = in_bounds n b2 off.
Proof. intros Hl. unfold in_bounds. by rewrite Hl. Qed.

Lemma write_same n b1 b2 off v r1 : zlen b1 = zlen b2 -> write n b1 off v = Some r1 ->
  exists r2, write n b2 off v = Some r2 /\ agree off (Z.of_nat n) r1 r2.
Proof.
  intros Hl E. destruct (write_spec _ _ _ _ _ E) as ([Hl1 _] & Hb & H1).
  rewrite (in_bounds_agree _ _ _ _ Hl) in Hb. destruct (write n b2 off v) as [r2|] eqn:E2.
  2:{ unfold write in E2. by rewrite Hb in E2. }
  destruct (write_spec _ _ _ _ _ E2) as ([Hl2 _] & _ & H2). exists r2. split; [done|].
  split; [congruence|]. unfold in_bounds in Hb. intros x Hx.
  replace x with (Z.to_nat off + (x - Z.to_nat off))%nat by lia. rewrite H1, H2 by lia. done.
Qed.

Lemma read_write n buf off v b : write n buf off v = Some b -> read n b off = Some (wrap (8 * Z.of_nat n) v).
Proof.
  intros E. destruct (write_spec _ _ _ _ _ E) as ([Hl _] & Hb & H). unfold read.
  rewrite (in_bounds_agree _ _ _ _ Hl), Hb, <- le_load_store. do 2 f_equal. apply list_eq. intros i.
  destruct (decide (i < n)%nat).
  - rewrite lookup_take by done. case_decide; [|done]. rewrite lookup_drop. by apply H.
  - rewrite lookup_take_ge, lookup_ge_None_2; [done|rewrite length_le_store; lia|lia].
Qed.

(** ** One relocation at a time *)

(** What a relocation does to the bytes at its place. *)
Inductive patch := Keep | Store (n : nat) (v : Z) | Update (f : Z -> Z).

Definition run_patch (p : patch) (loc : Z) (buf : bytes) : option bytes :=
  match p with
  | Keep => Some buf
  | Store n v => write n buf loc v
  | Update f => update buf loc f
  end.

Definition patch_width (p : patch) : Z := match p with Keep => 0 | Store n _ => Z.of_nat n | Update _ => 4 end.

Lemma run_patch_frame p loc buf b : run_patch p loc buf = Some b -> agree_outside loc (patch_width p) b buf.
Proof.
  destruct p as [|n v|f]; simpl.
  - by intros [= <-].
  - intros E. apply (write_spec _ _ _ _ _ E).
  - unfold update. destruct (read 4 buf loc) as [w|]; [|done]. cbn [mbind option_bind]. intros E. apply (write_spec _ _ _ _ _ E).
Qed.

Lemma run_patch_agree p loc n b1 b2 r1 : patch_width p <= n -> agree loc n b1 b2 -> run_patch p loc b1 = Some r1 ->
  exists r2, run_patch p loc b2 = Some r2 /\ agree loc n r1 r2.
Proof.
  intros Hn Ha E. assert (G : exists r2, run_patch p loc b2 = Some r2 /\ agree loc (patch_width p) r1 r2).
  { destruct p as [|k v|f]; simpl in *.
    - injection E as <-. exists b2. split; [done|]. split; [apply Ha|lia].
    - apply (write_same k b1); [apply Ha|done].
    - unfold update in *. rewrite <- (read_agree 4 loc b1 b2) by (split; [apply Ha|intros; apply Ha; lia]).
      destruct (read 4 b1 loc) as [w|]; [|done]. cbn [mbind option_bind] in *. apply (write_same 4 b1); [apply Ha|done]. }
  destruct G as (r2 & E2 & Hl & Hr). exists r2. split; [done|]. split; [done|]. intros x Hx.
  destruct (decide (Z.of_nat x < loc + patch_width p)); [apply Hr; lia|].
  destruct (run_patch_frame _ _ _ _ E) as [_ F1]. destruct (run_patch_frame _ _ _ _ E2) as [_ F2].
  rewrite F1, F2 by lia. by apply Ha.
Qed.

(** The units in which the loop consumes the relocations: one, or a SUBTRACTOR
    with the relocation after it; undefined ones are skipped. *)
Fixpoint units (ctx : Context) (rels : list Relocation) : list (Relocation * option Relocation) :=
  match rels with
  | [] => []
  | r :: rest =>
      if default false (undefined ctx r) then units ctx rest
      else if type r =? ARM64_RELOC_ "SUBTRACTOR" then
        match rest with [] => [] | u :: rest' => (r, Some u) :: units ctx rest' end
      else (r, None) :: units ctx rest
  end.

Definition apply_unit (m : machine) (ctx : Context) (self : Z) (x : Relocation * option Relocation) (buf : bytes) :
    option bytes :=
  match x.2 with Some u => apply_pair m ctx x.1 u buf | None => apply_one m ctx self x.1 buf end.

(** The bytes a unit may write. *)
Definition width (m : machine) (x : Relocation * option Relocation) : Z :=
  match x.2 with
  | Some _ => size x.1
  | None => if type x.1 =? ARM64_RELOC_ "UNSIGNED" then sizeof_word m else 4
  end.

Ltac patches := first
  [ right; intros; reflexivity
  | left; exists Keep; split; [cbn; lia|intros; reflexivity]
  | left; eexists (Store _ _); split; [|intros; reflexivity]
  | left; eexists (Update _); split; [|intros; reflexivity] ].

Lemma apply_one_patch m ctx self r :
  (exists p, patch_width p <= width m (r, None) /\ forall buf, apply_one m ctx self r buf = run_patch p (offset r) buf) \/
  (forall buf, apply_one m ctx self r buf = None).
Proof.
  unfold apply_one, width. cbn [fst snd]. destruct (rel_addr m ctx r) as [S|]; cbn [mbind option_bind]; [|patches].
  destruct (place ctx self r) as [P|]; cbn [mbind option_bind]; [|patches].
  assert (Hw : 4 <= sizeof_word m) by (destruct m; simpl; lia).
  assert (Hn : Z.of_nat (Z.to_nat (sizeof_word m)) <= sizeof_word m) by lia.
  repeat case_match; try discriminate;
    try (destruct (branch_val _ _ _ _ _)); try (destruct (tlv_value _ _ _)); cbn [mbind option_bind]; patches; cbn; lia.
Qed.

Lemma apply_unit_patch m ctx self x :
  (exists p, patch_width p <= width m x /\ forall buf, apply_unit m ctx self x buf = run_patch p (offset x.1) buf) \/
  (forall buf, apply_unit m ctx self x buf = None).
Proof.
  destruct x as [r [u|]]; [|apply apply_one_patch]. unfold apply_unit, apply_pair, width. cbn [fst snd].
  destruct (rel_addr m ctx r); cbn [mbind option_bind]; [|patches]. destruct (_ || _) eqn:E; [patches|].
  destruct (rel_addr m ctx u); cbn [mbind option_bind]; [|patches]. patches. simpl.
  apply orb_false_iff in E as [E _]. apply negb_false_iff, orb_true_iff in E. lia.
Qed.

(** The loop is the sequence of its units. *)
Fixpoint apply_units (m : machine) (ctx : Context) (self : Z) (us : list (Relocation * option Relocation)) (buf : bytes) :
    option bytes :=
  match us with
  | [] => Some buf
  | x :: us' => buf' ← apply_unit m ctx self x buf; apply_units m ctx self us' buf'
  end.

Lemma apply_reloc_units m ctx self n : forall rels buf buf' errs, (length rels <= n)%nat ->
  apply_reloc m ctx self rels buf = Some (buf', errs) -> apply_units m ctx self (units ctx rels) buf = Some buf'.
Proof.
  induction n as [|n IH]; intros [|r rels] buf buf' errs Hn; simpl in *; try lia; try (by intros [= <- _]).
  destruct (undefined ctx r) as [[]|]; cbn [mbind option_bind default]; [| |done].
  - destruct (apply_reloc m ctx self rels buf) as [[b e]|] eqn:E; [|done]. intros [= <- _].
    cbn [id]. apply (IH rels _ _ e); [lia|done].
  - cbn [id]. destruct (type r =? ARM64_RELOC_ "SUBTRACTOR").
    + destruct rels as [|u rels]; [done|]. simpl in *. unfold apply_unit at 1. cbn [fst snd].
      destruct (apply_pair m ctx r u buf) as [b|]; [|done]. apply IH. lia.
    + simpl. unfold apply_unit at 1. cbn [fst snd]. destruct (apply_one m ctx self r buf) as [b|]; [|done].
      apply IH. lia.
Qed.

(** The places of two units are disjoint. *)
Definition apart (m : machine) (x y : Relocation * option Relocation) : Prop :=
  offset x.1 + width m x <= offset y.1 \/ offset y.1 + width m y <= offset x.1.

Lemma apply_units_outside m ctx self us buf buf' : apply_units m ctx self us buf = Some buf' ->
  zlen buf' = zlen buf /\
  forall x : nat, Forall (fun u => ~ (offset u.1 <= Z.of_nat x < offset u.1 + width m u)) us -> buf' !! x = buf !! x.
Proof.
  revert buf. induction us as [|u us IH]; intros buf; simpl; [by intros [= <-]|].
  destruct (apply_unit m ctx self u buf) as [b|] eqn:E; [|done]. cbn [mbind option_bind]. intros [Hl H]%IH.
  destruct (apply_unit_patch m ctx self u) as [(p & Hw & Hp)|Hp]; rewrite Hp in E; [|done].
  destruct (run_patch_frame _ _ _ _ E) as [Hl' F]. split; [congruence|].
  intros x Hx. apply Forall_cons in Hx as [Hu Hx]. rewrite H by done. apply F. lia.
Qed.

Lemma apply_units_at m ctx self us buf buf' : ForallOrdPairs (apart m) us -> apply_units m ctx self us buf = Some buf' ->
  Forall (fun u => exists b, apply_unit m ctx self u buf = Some b /\ agree (offset u.1) (width m u) b buf') us.
Proof.
  intros Hd. revert buf. induction Hd as [|u us Hu Hd IH]; intros buf; simpl; [constructor|].
  destruct (apply_unit m ctx self u buf) as [b|] eqn:E; [|done]. cbn [mbind option_bind]. intros E'.
  constructor.
  - exists b. split; [done|]. destruct (apply_units_outside _ _ _ _ _ _ E') as [Hl H]. split; [done|].
    intros x Hx. symmetry. apply H. eapply Forall_impl; [exact Hu|]. intros v Hv. unfold apart in Hv. lia.
  - apply IH in E'. destruct (apply_unit_patch m ctx self u) as [(p & Hw & Hp)|Hp]; rewrite Hp in E; [|done].
    apply run_patch_frame in E. rewrite Forall_forall in *. intros v Hv. specialize (E' v Hv) as (bv & Ev & Hv').
    specialize (Hu v Hv). destruct (apply_unit_patch m ctx self v) as [(q & Hwq & Hq)|Hq]; rewrite Hq in Ev; [|done].
    rewrite Hq. destruct (run_patch_agree q (offset v.1) (width m v) b buf bv) as (rv & Er & Har); [done| |done|].
    { destruct E as [El E]. split; [done|]. intros x Hx. apply E. unfold apart in Hu. lia. }
    exists rv. split; [done|]. eapply agree_trans; [apply agree_sym, Har|done].
Qed.

(** ** The relocated instructions *)

(** [write_add_ldst] on the instructions it is meant for. *)
Lemma land_top w c : is_u 10 c -> Z.land w (Z.shiftl c 22) = Z.shiftl (Z.land (bits w 31 22) c) 22.
Proof.
  intros Hc. apply Z.bits_inj'. intros i Hi. rewrite Z.land_spec, !Z.shiftl_spec by lia.
  destruct (Z.lt_ge_cases i 22); [by rewrite !(Z.testbit_neg_r _ (i - 22)), Bool.andb_false_r by lia|].
  rewrite Z.land_spec, bits_testbit by lia. replace (i - 22 + 22) with i by lia.
  destruct (Z.leb_spec (i - 22) (31 - 22)); [done|].
  rewrite (is_u_testbit 10 c) by (done || lia). by rewrite !Bool.andb_false_r.
Qed.

Lemma decode_top w i : decode w = Some i ->
  match i with
  | AddImm _ _ _ => bits w 31 22 = 0x244
  | LdrX _ _ _ => bits w 31 22 = 0x3e5
  | LdrW _ _ _ => bits w 31 22 = 0x2e5
  | _ => True
  end.
Proof. unfold decode. intros H. repeat case_match; simplify_eq; rewrite ?Z.eqb_eq in *; done. Qed.

(** The access size of an instruction with a low-part immediate, as a power of two. *)
Definition scale_of (i : instr) : option Z :=
  match i with AddImm _ _ 0 => Some 0 | LdrX _ _ 0 => Some 3 | LdrW _ _ 0 => Some 2 | _ => None end.

Lemma write_add_ldst_spec w i k val : decode w = Some i -> scale_of i = Some k ->
  write_add_ldst w val = or32 w (Z.shiftl (bits val 11 k) 10).
Proof.
  intros Hd Hk. pose proof (decode_top w i Hd) as Ht. unfold write_add_ldst.
  assert (E1 : forall c, bits w 31 22 = c -> Z.land w 0x3b000000 = Z.shiftl (Z.land c 0xec) 22)
    by (intros c <-; by rewrite <- land_top by done).
  assert (E2 : forall c, bits w 31 22 = c -> bits w 31 30 = bits c 9 8) by (intros c <-; by rewrite bits_sub by lia).
  destruct i; try done; rewrite (E1 _ Ht), (E2 _ Ht); destruct imm || destruct off; try done; injection Hk as <-.
  all: match goal with |- context [if ?b then _ else _] => let v := eval vm_compute in b in change b with v end; cbv iota.
  all: try change (bits 0x3e5 9 8) with 3; try change (bits 0x2e5 9 8) with 2; cbn [Z.eqb andb Pos.eqb]; cbv zeta iota.
  all: unfold u32; rewrite bits_wrap by lia; done.
Qed.

(** A section's contents in memory. *)
Definition mapped (m : Z -> Z) (a : Z) (buf : bytes) : Prop :=
  forall (i : nat) b, buf !! i = Some b -> m (u64 (a + Z.of_nat i)) = b.

Lemma mapped_load m a buf n off w : mapped m a buf -> read n buf off = Some w -> load n m (u64 (a + off)) = w.
Proof.
  unfold read, load. intros Hm. destruct (in_bounds n buf off) eqn:E; [|done]. intros [= <-]. f_equal.
  unfold in_bounds, zlen in E. apply list_eq. intros i. destruct (decide (i < n)%nat).
  - rewrite list_lookup_fmap, (lookup_seqZ_lt) by lia. rewrite lookup_take, lookup_drop by done. case_decide; [|done].
    simpl. destruct (lookup_lt_is_Some_2 buf (Z.to_nat off + i)%nat ltac:(lia)) as [b Hb].
    rewrite Hb, u64_plus_u64. f_equal. rewrite <- (Hm _ _ Hb). f_equal. f_equal. lia.
  - rewrite lookup_take_ge, lookup_ge_None_2; [done| |lia]. rewrite length_fmap, length_seqZ. lia.
Qed.

(** relocations whose places do not overlap are applied independently: each
    leaves at its place what it would leave there if it were applied alone to the
    original contents, every other byte keeps its value, and the size does not
    change. *)
Theorem apply_reloc_independent (m : machine) (ctx : Context) (self : Z) (rels : list Relocation) (buf buf' : bytes) errs :
  apply_reloc m ctx self rels buf = Some (buf', errs) -> ForallOrdPairs (apart m) (units ctx rels) ->
  Forall (fun u => exists b, apply_unit m ctx self u buf = Some b /\ agree (offset u.1) (width m u) b buf') (units ctx rels) /\
  zlen buf' = zlen buf /\
  forall x : nat, Forall (fun u => ~ (offset u.1 <= Z.of_nat x < offset u.1 + width m u)) (units ctx rels) ->
    buf' !! x = buf !! x.
Proof.
  intros E Hd. apply (apply_reloc_units _ _ _ (length rels)) in E; [|lia].
  split; [by apply apply_units_at|by eapply apply_units_outside].
Qed.

(** The word a one-instruction relocation leaves. *)
Lemma relocated_word m ctx self rels buf buf' errs r f w :
  apply_reloc m ctx self rels buf = Some (buf', errs) -> ForallOrdPairs (apart m) (units ctx rels) ->
  (r, None) ∈ units ctx rels -> apply_one m ctx self r buf = update buf (offset r) f ->
  type r ≠ ARM64_RELOC_ "UNSIGNED" -> read 4 buf (offset r) = Some w ->
  read 4 buf' (offset r) = Some (u32 (f w)).
Proof.
  intros E Hd Hin Hr Ht Hw. apply (apply_reloc_units _ _ _ (length rels)) in E; [|lia].
  eapply apply_units_at in E; [|done]. rewrite Forall_forall in E. destruct (E _ Hin) as (b & Eb & Ha).
  unfold apply_unit, width in *. cbn [fst snd] in *. destruct (Z.eqb_spec (type r) (ARM64_RELOC_ "UNSIGNED")); [done|].
  rewrite Hr in Eb. unfold update in Eb. rewrite Hw in Eb. cbn [mbind option_bind] in Eb.
  rewrite <- (read_agree 4 (offset r) b buf') by done. by rewrite (read_write _ _ _ _ _ Eb).
Qed.

Lemma or32_u32 w v : u32 (or32 w v) = or32 w v.
Proof. unfold or32, u32. apply wrap_wrap. lia. Qed.

Definition branch_range (v : Z) : Prop := - 2 ^ 27 <= v < 2 ^ 27.

#[export] Instance branch_range_dec v : Decision (branch_range v).
Proof. unfold branch_range. apply _. Defined.

Lemma i64_plus P D : is_u 64 D -> u64 (P + i64 (D - P)) = D.
Proof.
  intros HD. unfold i64, u64, wrap. rewrite <- Zplus_mod_idemp_r. change (?x mod 2 ^ 64) with (wrap 64 x) at 2.
  rewrite wrap_swrap by lia. unfold wrap. rewrite Zplus_mod_idemp_r.
  replace (P + (D - P)) with D by lia. by apply wrap_small.
Qed.

Lemma i64_mod4 x : i64 x mod 4 = x mod 4.
Proof.
  change 4 with (2 ^ 2). rewrite <- (u64_mod (i64 x) 2), <- (u64_mod x 2) by lia. f_equal. unfold u64, i64. apply wrap_swrap. lia.
Qed.

(** A relocated branch goes as far as the displacement that was chosen. *)
Lemma branch_runs m ctx self rels buf buf' errs r w i S base P val s :
  apply_reloc m ctx self rels buf = Some (buf', errs) -> ForallOrdPairs (apart m) (units ctx rels) ->
  (r, None) ∈ units ctx rels -> type r = ARM64_RELOC_ "BRANCH26" ->
  read 4 buf (offset r) = Some w -> decode w = Some i -> i = B 0 \/ i = Bl 0 ->
  rel_addr m ctx r = Some S -> subsec_addr ctx self = Some base -> mapped (mem s) base buf' ->
  P = u64 (base + offset r) -> pc s = P -> code_addr P ->
  branch_val ctx self r S P = Some val -> val mod 4 = 0 -> branch_range val ->
  exists r', run 1 s = Some (mkState (u64 (P + val)) r' (mem s)) /\ forall k, k ≠ 30 -> r' k = regs s k.
Proof.
  intros E Hd Hin Ht Hw Hdec Hi HS Hb Hm HP Hpc Hc Ev Hv4 Hvr.
  assert (Eone : apply_one m ctx self r buf = update buf (offset r) (fun w => or32 w (bits (u64 val) 27 2))).
  { unfold apply_one. rewrite HS. unfold place. rewrite Hb, Ht. cbn [mbind option_bind]. rewrite <- HP, Ev. reflexivity. }
  pose proof (relocated_word _ _ _ _ _ _ _ _ _ _ E Hd Hin Eone ltac:(rewrite Ht; done) Hw) as Hw'.
  cbv beta in Hw'. rewrite or32_u32 in Hw'. apply (mapped_load _ _ _ _ _ _ Hm) in Hw'. rewrite <- HP, <- Hpc in *.
  rewrite (run_step 0 s (exec (branch_with i val) s)).
  - destruct Hi as [-> | ->]; cbn [branch_with exec run]; (eexists; split; [done|]); intros k Hk; [done|].
    by apply set_reg_ne.
  - apply (step_at _ _ _ ltac:(apply Hc) Hw'). rewrite <- (branch_disp val) at 2 by done.
    apply decode_b; [done..|]. exact (bits_range (u64 val) 27 2 ltac:(lia)).
Qed.

(** The relocation of a branch was given a displacement. *)
Lemma branch_val_some m ctx self rels buf buf' errs r S base :
  apply_reloc m ctx self rels buf = Some (buf', errs) -> ForallOrdPairs (apart m) (units ctx rels) ->
  (r, None) ∈ units ctx rels -> type r = ARM64_RELOC_ "BRANCH26" ->
  rel_addr m ctx r = Some S -> subsec_addr ctx self = Some base ->
  is_Some (branch_val ctx self r S (u64 (base + offset r))).
Proof.
  intros E Hd Hin Ht HS Hb. apply (apply_reloc_units _ _ _ (length rels)) in E; [|lia].
  eapply apply_units_at in E; [|done]. rewrite Forall_forall in E. destruct (E _ Hin) as (b & Eb & _).
  unfold apply_unit, apply_one, place in Eb. cbn [fst snd] in Eb. rewrite HS, Hb, Ht in Eb. cbn [mbind option_bind] in Eb.
  destruct (branch_val _ _ _ _ _); [by eexists|done].
Qed.

Lemma nth_thunk_addr_u64 ctx o i j t : nth_thunk_addr ctx o i j = Some t -> is_u 64 t.
Proof.
  unfold nth_thunk_addr, thunk_addr. case_match; [done|]. intros En.
  repeat (apply bind_Some in En as (? & _ & En)). injection En as <-. apply wrap_range. lia.
Qed.

Lemma i64_u64_sub x P : i64 (u64 x - P) = i64 (x - P).
Proof. unfold i64. rewrite <- (swrap_wrap 64), <- (swrap_wrap 64 (x - P)) by lia. f_equal. apply u64_sub_l. Qed.

Lemma disp_mod4 D P : P mod 4 = 0 -> D mod 4 = 0 -> i64 (D - P) mod 4 = 0.
Proof. intros. rewrite i64_mod4. dlia. Qed.

(** a relocated [b] or [bl] goes to its target S + A when the displacement
    fits its 28 bits, and otherwise to the thunk entry the relocation was
    assigned, when that is within reach. *)
Theorem branch_goes (m : machine) (ctx : Context) (self : Z) (rels : list Relocation) (buf buf' : bytes) errs :
  apply_reloc m ctx self rels buf = Some (buf', errs) -> ForallOrdPairs (apart m) (units ctx rels) ->
  forall r w i S base s, (r, None) ∈ units ctx rels -> type r = ARM64_RELOC_ "BRANCH26" ->
    read 4 buf (offset r) = Some w -> decode w = Some i -> i = B 0 \/ i = Bl 0 ->
    rel_addr m ctx r = Some S -> subsec_addr ctx self = Some base -> mapped (mem s) base buf' ->
    let P := u64 (base + offset r) in
    pc s = P -> code_addr P ->
    exists D, (branch_range (i64 (S + addend r - P)) /\ D = u64 (S + addend r) \/
               ~ branch_range (i64 (S + addend r - P)) /\
               exists me, subsecs ctx !! self = Some me /\
                 nth_thunk_addr ctx (osec me) (thunk_idx r) (thunk_sym_idx r) = Some D) /\
      (D mod 4 = 0 -> branch_range (i64 (D - P)) ->
       exists r', run 1 s = Some (mkState D r' (mem s)) /\ forall k, k ≠ 30 -> r' k = regs s k).
Proof.
  intros E Hd r w i S base s Hin Ht Hw Hdec Hi HS Hb Hm P Hpc Hc.
  destruct (branch_val_some _ _ _ _ _ _ _ _ _ _ E Hd Hin Ht HS Hb) as [val Ev].
  pose proof (branch_runs _ _ _ _ _ _ _ _ _ _ _ _ P val s E Hd Hin Ht Hw Hdec Hi HS Hb Hm eq_refl Hpc Hc Ev) as Hrun.
  destruct Hc as [_ Hc]. unfold branch_val in Ev. fold P in Ev. cbv zeta in Ev. unfold branch_range in *.
  destruct ((i64 (S + addend r - P) <? - 2 ^ 27) || (2 ^ 27 <=? i64 (S + addend r - P))) eqn:Eo.
  - destruct (subsecs ctx !! self) as [me|]; [|done]. cbn [mbind option_bind] in Ev.
    destruct (nth_thunk_addr ctx (osec me) (thunk_idx r) (thunk_sym_idx r)) as [t|] eqn:En; [|done]. injection Ev as <-.
    exists t. split; [right; split; [lia|by exists me]|]. intros H4 Hr.
    rewrite i64_plus in Hrun by (by eapply nth_thunk_addr_u64). apply Hrun; [by apply disp_mod4|done].
  - injection Ev as <-. exists (u64 (S + addend r)). split; [left; split; [lia|done]|]. intros H4 Hr.
    rewrite <- (i64_u64_sub (S + addend r)), i64_plus in Hrun by (apply wrap_range; lia).
    apply Hrun; [by apply disp_mod4|done].
Qed.

(** A code section of eight words, with a call of the far function 7, its address
    in x0 by an ADRP and an ADD, a pointer and a difference of addresses. *)
Definition sample_rels : list Relocation :=
  [ mkRel (RelSym 7) 0 0 (ARM64_RELOC_ "BRANCH26") 4 0 0;
    mkRel (RelSym 7) 0 4 (ARM64_RELOC_ "PAGE21") 4 (-1) (-1);
    mkRel (RelSym 7) 0 8 (ARM64_RELOC_ "PAGEOFF12") 4 (-1) (-1);
    mkRel (RelSubsec 3) 24 16 (ARM64_RELOC_ "UNSIGNED") 8 (-1) (-1);
    mkRel (RelSubsec 3) 0 24 (ARM64_RELOC_ "SUBTRACTOR") 4 (-1) (-1);
    mkRel (RelSym 7) 0 24 (ARM64_RELOC_ "UNSIGNED") 4 (-1) (-1) ].

Definition sample_words : bytes :=
  concat (map (le_store 4) [0x94000000; 0x90000000; 0x91000000; 0xd503201f; 0; 0; 0; 0]).

Definition sample_out : bytes := default [] (fst <$> apply_reloc ARM64 sample 3 sample_rels sample_words).

#[export] Instance apart_dec m : RelDecision (apart m).
Proof. intros x y. unfold apart. apply _. Defined.

#[export] Instance ForallOrdPairs_dec {A} (R : A -> A -> Prop) `{!RelDecision R} l : Decision (ForallOrdPairs R l).
Proof.
  induction l as [|x l [IH|IH]]; [left; constructor| |right; abstract (inversion 1; done)].
  destruct (decide (Forall (R x) l)); [left; by constructor|right; abstract (inversion 1; done)].
Defined.

Lemma sample_units : units sample sample_rels =
      [ (mkRel (RelSym 7) 0 0 (ARM64_RELOC_ "BRANCH26") 4 0 0, @None Relocation);
        (mkRel (RelSym 7) 0 4 (ARM64_RELOC_ "PAGE21") 4 (-1) (-1), None);
        (mkRel (RelSym 7) 0 8 (ARM64_RELOC_ "PAGEOFF12") 4 (-1) (-1), None);
        (mkRel (RelSubsec 3) 24 16 (ARM64_RELOC_ "UNSIGNED") 8 (-1) (-1), None);
        (mkRel (RelSubsec 3) 0 24 (ARM64_RELOC_ "SUBTRACTOR") 4 (-1) (-1),
         Some (mkRel (RelSym 7) 0 24 (ARM64_RELOC_ "UNSIGNED") 4 (-1) (-1))) ].
Proof. reflexivity. Qed.

Lemma apply_reloc_independent_witness :
  zlen sample_out = zlen sample_words /\ sample_out !! 12%nat = sample_words !! 12%nat /\
  exists b, apply_unit ARM64 sample 3 (mkRel (RelSubsec 3) 24 16 (ARM64_RELOC_ "UNSIGNED") 8 (-1) (-1), None) sample_words = Some b /\
    agree 16 8 b sample_out.
Proof.
  destruct (apply_reloc_independent ARM64 sample 3 sample_rels sample_words sample_out []) as (H1 & H2 & H3).
  - vm_compute. reflexivity.
  - decided.
  - split; [exact H2|]. split; [apply H3; decided|]. rewrite Forall_forall in H1.
    apply (H1 (mkRel (RelSubsec 3) 24 16 (ARM64_RELOC_ "UNSIGNED") 8 (-1) (-1), None)).
    rewrite sample_units. by do 4 constructor.
Defined.

(** The contents of a section at an address, zeros elsewhere. *)
Definition place_bytes (a : Z) (buf : bytes) : Z -> Z :=
  fun x => if x <? a then 0 else default 0 (buf !! Z.to_nat (x - a)).

Definition mapped_check (m : Z -> Z) (a : Z) (buf : bytes) : bool :=
  forallb (fun '(i, b) => m (u64 (a + Z.of_nat i)) =? b) (imap pair buf).

Lemma mapped_check_spec m a buf : mapped_check m a buf = true -> mapped m a buf.
Proof.
  unfold mapped_check. rewrite forallb_forall. intros H i b Hi.
  apply Z.eqb_eq, (H (i, b)), list_elem_of_In, (list_elem_of_lookup_2 _ i). by rewrite list_lookup_imap, Hi.
Qed.

(** The call in the sample goes to the thunk. *)
Lemma branch_goes_witness :
  let s := mkState 0x100000020 (fun _ => 0) (place_bytes 0x100000020 sample_out) in
  exists r', run 1 s = Some (mkState 0x100000100 r' (mem s)) /\ forall k, k ≠ 30 -> r' k = 0.
Proof.
  intros s. destruct (branch_goes ARM64 sample 3 sample_rels sample_words sample_out []
    ltac:(vm_compute; reflexivity) ltac:(decided)
    (mkRel (RelSym 7) 0 0 (ARM64_RELOC_ "BRANCH26") 4 0 0) 0x94000000 (Bl 0) 0x1fffffff0 0x100000020 s) as (D & HD & H);
    try reflexivity.
  - by left.
  - by right.
  - apply mapped_check_spec. vm_compute. reflexivity.
  - decided.
  - assert (D = 0x100000100) as ->.
    { destruct HD as [[Hd _]|[_ (me & Hme & HD)]].
      - assert (Hn : ~ branch_range (i64 (0x1fffffff0 + 0 - u64 (0x100000020 + 0)))) by decided. by destruct Hn.
      - vm_compute in Hme. injection Hme as <-. vm_compute in HD. by injection HD as <-. }
    apply H; [reflexivity|decided].
Defined.

(** ** Addresses in two parts *)

(** What the PAGE21 and PAGEOFF12 relocations, their GOT and their thread-local
    variants refer to. *)
Definition reloc_target (m : machine) (ctx : Context) (r : Relocation) : option Z :=
  if (type r =? ARM64_RELOC_ "PAGE21") || (type r =? ARM64_RELOC_ "PAGEOFF12") then
    S ← rel_addr m ctx r; Some (u64 (S + addend r))
  else if (type r =? ARM64_RELOC_ "GOT_LOAD_PAGE21") || (type r =? ARM64_RELOC_ "GOT_LOAD_PAGEOFF12") then
    Some (got_value m ctx r)
  else tlv_value m ctx r.

Definition is_page21 (t : Z) : Prop :=
  t ∈ [ARM64_RELOC_ "PAGE21"; ARM64_RELOC_ "GOT_LOAD_PAGE21"; ARM64_RELOC_ "TLVP_LOAD_PAGE21"].
Definition is_pageoff12 (t : Z) : Prop :=
  t ∈ [ARM64_RELOC_ "PAGEOFF12"; ARM64_RELOC_ "GOT_LOAD_PAGEOFF12"; ARM64_RELOC_ "TLVP_LOAD_PAGEOFF12"].

(** The relocation types as numbers. *)
Lemma rel_type_values :
  ARM64_RELOC_ "UNSIGNED" = 0 /\
  ARM64_RELOC_ "SUBTRACTOR" = 1 /\
  ARM64_RELOC_ "BRANCH26" = 2 /\
  ARM64_RELOC_ "PAGE21" = 3 /\
  ARM64_RELOC_ "PAGEOFF12" = 4 /\
  ARM64_RELOC_ "GOT_LOAD_PAGE21" = 5 /\
  ARM64_RELOC_ "GOT_LOAD_PAGEOFF12" = 6 /\
  ARM64_RELOC_ "POINTER_TO_GOT" = 7 /\
  ARM64_RELOC_ "TLVP_LOAD_PAGE21" = 8 /\
  ARM64_RELOC_ "TLVP_LOAD_PAGEOFF12" = 9.
Proof. repeat split; reflexivity. Qed.

Ltac rel_types :=
  let E := fresh in pose proof rel_type_values as E;
  repeat match type of E with
  | _ /\ _ => let F := fresh in destruct E as [F E]; rewrite ?F in *; clear F
  end; rewrite ?E in *; clear E.

Lemma apply_one_page m ctx self r T base buf b : reloc_target m ctx r = Some T -> apply_one m ctx self r buf = Some b ->
  subsec_addr ctx self = Some base ->
  (is_page21 (type r) ->
     apply_one m ctx self r buf = update buf (offset r) (fun w => or32 w (page_offset T (u64 (base + offset r))))) /\
  (is_pageoff12 (type r) -> apply_one m ctx self r buf = update buf (offset r) (fun w => write_add_ldst w T)).
Proof.
  intros HT Hb Hs. unfold apply_one, place in *. rewrite Hs in *.
  destruct (rel_addr m ctx r) as [S|] eqn:HS; [|done]. cbn [mbind option_bind] in *. clear Hb.
  unfold is_page21, is_pageoff12. set_unfold.
  unfold reloc_target in HT. rel_types.
  split; intros [Ht|[Ht|[Ht|[]]]]; rewrite Ht in *; cbn [Z.eqb Pos.eqb orb] in HT |- *; cbv iota in HT |- *;
    rewrite ?HS in HT; cbn [mbind option_bind] in HT; try (injection HT as <-); try rewrite HT; done.
Qed.

Lemma reloc_target_u64 m ctx r T : reloc_target m ctx r = Some T -> is_u 64 T.
Proof.
  unfold reloc_target, tlv_value, got_value. repeat case_match; intros E;
    repeat (apply bind_Some in E as (? & _ & E)); injection E as <-; apply wrap_range; lia.
Qed.

(** What an instruction with the low part of [T] computes, and from which
    register. *)
Definition low_result (i : instr) (mm : Z -> Z) (T : Z) : option (Z * Z * Z) :=
  match i with
  | AddImm rd rn _ => Some (rd, rn, T)
  | LdrX rt rn _ => Some (rt, rn, load 8 mm T)
  | LdrW rt rn _ => Some (rt, rn, load 4 mm T)
  | _ => None
  end.

Lemma low_step s w i k T rd rn v : pc s mod 4 = 0 -> is_u 64 T -> decode w = Some i -> scale_of i = Some k -> T mod 2 ^ k = 0 ->
  load 4 (mem s) (pc s) = write_add_ldst w T -> low_result i (mem s) T = Some (rd, rn, v) -> regs s rn = page T ->
  step s = Some (mkState (u64 (pc s + 4)) (set_reg (regs s) rd v) (mem s)).
Proof.
  intros Hpc HT Hd Hk Hal Hl Hres Hrn. rewrite (write_add_ldst_spec w i k) in Hl by done.
  pose proof (bits_range T 11 k) as Hb. unfold is_u in Hb.
  destruct i; try done; cbn [low_result] in Hres; injection Hres as -> -> <-;
    (match goal with H : decode _ = Some (_ _ _ ?z) |- _ => destruct z; try done end); injection Hk as <-.
  - rewrite (step_at _ _ _ Hpc Hl (decode_add _ _ _ _ Hd (Hb ltac:(lia)))). unfold exec. rewrite Hrn, page_low, (u64_id T) by done. done.
  - rewrite (step_at _ _ _ Hpc Hl (decode_ldrx _ _ _ (bits T 11 3) Hd ltac:(specialize (Hb ltac:(lia)); lia))).
    unfold exec. rewrite Hrn, page_low_8, (u64_id T) by done. done.
  - rewrite (step_at _ _ _ Hpc Hl (decode_ldrw _ _ _ (bits T 11 2) Hd ltac:(specialize (Hb ltac:(lia)); lia))).
    unfold exec. rewrite Hrn. replace (page T + 4 * bits T 11 2) with T; [by rewrite (u64_id T)|].
    rewrite page_spec, bits_spec by (done || lia). change (2 ^ 2) with 4 in *. dlia.
Qed.

(** The word of a relocation with a part of an address, in memory. *)
Lemma page_word m ctx self rels buf buf' errs r T base w mm :
  apply_reloc m ctx self rels buf = Some (buf', errs) -> ForallOrdPairs (apart m) (units ctx rels) ->
  (r, None) ∈ units ctx rels -> is_page21 (type r) \/ is_pageoff12 (type r) -> reloc_target m ctx r = Some T ->
  read 4 buf (offset r) = Some w -> subsec_addr ctx self = Some base -> mapped mm base buf' ->
  let P := u64 (base + offset r) in
  (is_page21 (type r) -> load 4 mm P = or32 w (page_offset T P)) /\
  (is_pageoff12 (type r) -> load 4 mm P = write_add_ldst w T).
Proof.
  intros E Hd Hin Ht HT Hw Hb Hm P. pose proof E as Eu. apply (apply_reloc_units _ _ _ (length rels)) in Eu; [|lia].
  eapply apply_units_at in Eu; [|done]. rewrite Forall_forall in Eu. destruct (Eu _ Hin) as (b & Eb & _).
  destruct (apply_one_page m ctx self r T base buf b HT Eb Hb) as [H1 H2].
  assert (Hnu : type r ≠ ARM64_RELOC_ "UNSIGNED").
  { unfold is_page21, is_pageoff12 in Ht. rel_types. set_unfold. lia. }
  split; intros Hk; [specialize (H1 Hk)|specialize (H2 Hk)];
    [pose proof (relocated_word _ _ _ _ _ _ _ _ _ _ E Hd Hin H1 Hnu Hw) as G
    |pose proof (relocated_word _ _ _ _ _ _ _ _ _ _ E Hd Hin H2 Hnu Hw) as G];
    cbv beta in G; unfold write_add_ldst in G; rewrite or32_u32 in G; by apply (mapped_load _ _ _ _ _ _ Hm) in G.
Qed.

(** a relocated ADRP sets its register to the page of the target when that is
    within four gigabytes; and a relocated ADD, or LDR from a target aligned to
    its size, executed with that register, computes the target's address, or
    loads from it: for symbols, GOT entries and thread-local variable pointers. *)
Theorem page_relocations (m : machine) (ctx : Context) (self : Z) (rels : list Relocation) (buf buf' : bytes) errs :
  apply_reloc m ctx self rels buf = Some (buf', errs) -> ForallOrdPairs (apart m) (units ctx rels) ->
  forall r T base w i s, (r, None) ∈ units ctx rels -> reloc_target m ctx r = Some T ->
    read 4 buf (offset r) = Some w -> decode w = Some i ->
    subsec_addr ctx self = Some base -> mapped (mem s) base buf' ->
    pc s = u64 (base + offset r) -> code_addr (pc s) ->
    (is_page21 (type r) -> forall rd, i = Adrp rd 0 -> adrp_reach T (pc s) ->
       run 1 s = Some (mkState (u64 (pc s + 4)) (set_reg (regs s) rd (page T)) (mem s))) /\
    (is_pageoff12 (type r) -> forall k rd rn v, scale_of i = Some k -> T mod 2 ^ k = 0 ->
       low_result i (mem s) T = Some (rd, rn, v) -> regs s rn = page T ->
       run 1 s = Some (mkState (u64 (pc s + 4)) (set_reg (regs s) rd v) (mem s))).
Proof.
  intros E Hd r T base w i s Hin HT Hw Hdec Hb Hm Hpc Hc. pose proof (reloc_target_u64 _ _ _ _ HT) as Hu.
  split; intros Hk.
  - intros rd -> Hr. destruct (page_word _ _ _ _ _ _ _ _ _ _ _ _ E Hd Hin (or_introl Hk) HT Hw Hb Hm) as [Hl _].
    specialize (Hl Hk). rewrite <- Hpc in Hl.
    rewrite (run_step 0 s _ (step_at _ _ _ ltac:(apply Hc) Hl (decode_adrp _ _ _ Hdec))). unfold exec.
    rewrite adrp_result by (done || apply Hc). done.
  - intros k rd rn v Hs Hal Hres Hrn.
    destruct (page_word _ _ _ _ _ _ _ _ _ _ _ _ E Hd Hin (or_intror Hk) HT Hw Hb Hm) as [_ Hl].
    specialize (Hl Hk). rewrite <- Hpc in Hl. apply (run_step 0).
    eapply low_step; [apply Hc|exact Hu|exact Hdec|exact Hs|exact Hal|exact Hl|exact Hres|exact Hrn].
Qed.

Lemma page_relocations_witness :
  let s := mkState 0x100000024 (fun _ => 0) (place_bytes 0x100000020 sample_out) in
  let s' := mkState 0x100000028 (set_reg (fun _ => 0) 0 0x1fffff000) (mem s) in
  run 1 s = Some s' /\ run 1 s' = Some (mkState 0x10000002c (set_reg (regs s') 0 0x1fffffff0) (mem s)).
Proof.
  intros s s'.
  assert (Hm : mapped (mem s) 0x100000020 sample_out) by (apply mapped_check_spec; vm_compute; reflexivity).
  pose proof (page_relocations ARM64 sample 3 sample_rels sample_words sample_out []
    ltac:(vm_compute; reflexivity) ltac:(decided)) as H. split.
  - destruct (H (mkRel (RelSym 7) 0 4 (ARM64_RELOC_ "PAGE21") 4 (-1) (-1)) 0x1fffffff0 0x100000020 0x90000000 (Adrp 0 0) s)
      as [G _]; [by apply (list_elem_of_lookup_2 _ 1)|reflexivity..|exact Hm|reflexivity|decided|].
    apply (G ltac:(decided) 0 eq_refl). decided.
  - destruct (H (mkRel (RelSym 7) 0 8 (ARM64_RELOC_ "PAGEOFF12") 4 (-1) (-1)) 0x1fffffff0 0x100000020 0x91000000 (AddImm 0 0 0) s')
      as [_ G]; [by apply (list_elem_of_lookup_2 _ 2)|reflexivity..|exact Hm|reflexivity|decided|].
    by apply (G ltac:(decided) 0 0 0 0x1fffffff0).
Defined.
