(* ===== verification/Thunks.v ===== *)
(** * Range extension thunks (src/macho/thunks.cc)

    [create_range_extension_thunks] places the subsections of a code section and
    between them thunks for the branches that cannot reach their target. It moves
    four positions A <= B <= C <= D over the members: D places members as far
    ahead of B as a branch can jump, the branches between B and C get their thunk
    at D, and thunks before A are out of reach. The theorem: the algorithm
    terminates with every member placed, nothing overlapping, and every branch
    within reach of its target or of an entry for its symbol. *)

From stdpp Require Import fin_sets fin_maps.
From S2P Require Import Prelude Bits Enums MachoTypes Link.
Local Open Scope list_scope.
Local Open Scope Z_scope.

Definition MAX_DISTANCE : Z := 100 * 1024 * 1024.
Definition BATCH_SIZE : Z := 10 * 1024 * 1024.
Definition MAX_THUNK_SIZE : Z := 102400.

Definition i16 := swrap 16.

(** What the pass changes: the output offsets, the thunk entry of each symbol
    ([thunk_idx] and [thunk_sym_idx], -1 when it has none), the symbols with the
    flag NEEDS_RANGE_EXTN_THUNK, the relocations of each subsection, and the
    thunks of the output section. *)
Record state := mkState {
  offs : gmap Z Z; sym_thunk : gmap Z (Z * Z); needs : gset Z;
  rels : gmap Z (list Relocation); made : list RangeExtensionThunk }.

Definition thunk_of (t : gmap Z (Z * Z)) (s : Z) : Z * Z := default (-1, -1) (t !! s).

Definition set_thunk (r : Relocation) (t j : Z) : Relocation :=
  mkRel (target r) (addend r) (offset r) (type r) (size r) t j.

Definition is_branch (r : Relocation) : bool := type r =? constant ARM64_RELOC "ARM64_RELOC_BRANCH26".

Section Create.
Context (m : machine) (ctx : Context) (members : list Z) (schedule : list Z -> list Z).

Definition size_of (x : Z) : Z := default 0 (input_size <$> subsecs ctx !! x).

(** [1 << p2align]. *)
Definition align_of (x : Z) : Z := Z.shiftl 1 (default 0 (p2align <$> subsecs ctx !! x)).

(** The context while the pass runs. *)
Definition with_offsets (o : gmap Z Z) : Context :=
  {| symbols := symbols ctx; subsecs := subsecs ctx; output_offset := o; osec_addr := osec_addr ctx;
     Link.thunks := Link.thunks ctx; stubs_addr := stubs_addr ctx; got_addr := got_addr ctx;
     thread_ptrs_addr := thread_ptrs_addr ctx; tls_begin := tls_begin ctx |}.

Definition is_reachable (o : gmap Z Z) (sym : Symbol) (x : Z) (rel : Relocation) : option bool :=
  let within :=
    addr ← symbol_addr m (with_offsets o) sym;
    pc ← subsec_addr (with_offsets o) x;
    let val := i64 (addr + addend rel - (pc + offset rel)) in
    Some ((- 2 ^ 27 <=? val) && (val <? 2 ^ 27)) in
  if has_stub sym then
    if stubs_addr ctx =? 0 then Some false else within
  else match subsec sym with
       | None => Some false
       | Some y =>
           sy ← subsecs ctx !! y; sx ← subsecs ctx !! x;
           if negb (osec sy =? osec sx) then Some false
           else if get_offset o y =? no_offset then Some false
           else within
       end.

(** [reset_thunk]. *)
Definition reset_thunk (t : RangeExtensionThunk) (st : state) : state :=
  mkState (offs st) (foldr (fun s => insert s (-1, -1)) (sym_thunk st) (thunk_symbols t))
    (needs st ∖ list_to_set (thunk_symbols t)) (rels st) (made st).

(** ** The four positions *)

(** Move D forward over [rest], the members from D on, as far as B can jump. *)
Fixpoint move_d (rest : list Z) (b : Z) (o : gmap Z Z) (offset : Z) (d : nat) : gmap Z Z * Z * nat :=
  match rest with
  | [] => (o, offset, d)
  | x :: rest' =>
      if u64 (align_to offset (align_of x) + size_of x) <? get_offset o b + MAX_DISTANCE - MAX_THUNK_SIZE then
        let offset := align_to offset (align_of x) in
        move_d rest' b (<[x := u32 offset]> o) (offset + size_of x) (S d)
      else (o, offset, d)
  end.

(** Move C forward over the members after B; the sum of two [u32] wraps. *)
Fixpoint move_c (rest : list Z) (limit : Z) (o : gmap Z Z) (c : nat) : nat :=
  match rest with
  | [] => c
  | x :: rest' => if u32 (get_offset o x + size_of x) <? limit then move_c rest' limit o (S c) else c
  end.

Fixpoint move_a (rest : list Z) (c_offset : Z) (o : gmap Z Z) (a : nat) : nat :=
  match rest with
  | [] => a
  | x :: rest' => if get_offset o x + MAX_DISTANCE <? c_offset then move_a rest' c_offset o (S a) else a
  end.

(** Erase references to the thunks before [limit]; [rest] are the thunks from
    [thunk_idx] on. *)
Fixpoint erase (rest : list RangeExtensionThunk) (limit : Z) (st : state) (thunk_idx : nat) : state * nat :=
  match rest with
  | [] => (st, thunk_idx)
  | t :: rest' =>
      if thunk_offset t <? limit then erase rest' limit (reset_thunk t st) (S thunk_idx) else (st, thunk_idx)
  end.

(** ** Scanning the relocations between B and C *)

(** One relocation; [idx] is the number of the new thunk, whose symbols are
    collected in [acc] with the flags. [None]: a null pointer is followed. *)
Definition scan_rel (o : gmap Z Z) (st : gmap Z (Z * Z)) (idx x : Z) (acc : gset Z * list Z) (r : Relocation) :
    option (gset Z * list Z * Relocation) :=
  s ← rel_sym r;
  sym ← symbols ctx !! s;
  if bool_decide (file sym = None) || negb (is_branch r) then Some (acc, r)
  else
    reachable ← is_reachable o sym x r;
    if reachable : bool then Some (acc, r)
    else
      let '(t, j) := thunk_of st s in
      if negb (t =? -1) then Some (acc, set_thunk r t j)
      else
        let r' := set_thunk r (i16 idx) (-1) in
        if bool_decide (s ∈ acc.1) then Some (acc, r') else Some ({[s]} ∪ acc.1, acc.2 ++ [s], r').

Fixpoint scan_rels (o : gmap Z Z) (st : gmap Z (Z * Z)) (idx x : Z) (acc : gset Z * list Z) (rs : list Relocation) :
    option (gset Z * list Z * list Relocation) :=
  match rs with
  | [] => Some (acc, [])
  | r :: rs' =>
      '(acc, r') ← scan_rel o st idx x acc r;
      '(acc, rs') ← scan_rels o st idx x acc rs';
      Some (acc, r' :: rs')
  end.

Fixpoint scan_subsecs (o : gmap Z Z) (st : gmap Z (Z * Z)) (idx : Z) (acc : gset Z * list Z)
    (rm : gmap Z (list Relocation)) (xs : list Z) : option (gset Z * list Z * gmap Z (list Relocation)) :=
  match xs with
  | [] => Some (acc, rm)
  | x :: xs' =>
      '(acc, rs) ← scan_rels o st idx x acc (default [] (rm !! x));
      scan_subsecs o st idx acc (<[x := rs]> rm) xs'
  end.

(** The order of symbols, [operator<]-like: by file priority and value. *)
Definition sym_less (a b : Z) : bool :=
  let key s := let sym := default inhabitant (symbols ctx !! s) in (priority sym, value sym) in
  ((key a).1 <? (key b).1) || (((key a).1 =? (key b).1) && ((key a).2 <? (key b).2)).

(** Give the sorted symbols their entries. *)
Fixpoint assign_entries (idx : Z) (j : Z) (l : list Z) (st : gmap Z (Z * Z)) : gmap Z (Z * Z) :=
  match l with
  | [] => st
  | s :: l' => assign_entries idx (j + 1) l' (<[s := (i16 idx, i16 j)]> st)
  end.

(** The second scan. *)
Definition fix_rel (st : gmap Z (Z * Z)) (idx : Z) (r : Relocation) : Relocation :=
  if thunk_idx r =? idx then
    match rel_sym r with Some s => set_thunk r (thunk_idx r) (thunk_of st s).2 | None => r end
  else r.

Definition fix_rels (st : gmap Z (Z * Z)) (idx : Z) (xs : list Z) (rm : gmap Z (list Relocation)) :
    gmap Z (list Relocation) :=
  foldl (fun rm x => <[x := map (fix_rel st idx) (default [] (rm !! x))]> rm) rm xs.

(** ** The loop *)

Record cursor := mkCursor { cur : state; pos_a : nat; pos_b : nat; pos_d : nat; off : Z; thunk_idx0 : nat }.

(** The thunk for the members between B and C. The parallel scan collects the
    symbols in some order, which [schedule] stands for, before they are sorted. *)
Definition make_thunk (st : state) (batch : list Z) (offset : Z) : option (state * Z) :=
  let idx := zlen (made st) in
  let offset := align_to offset ALIGNMENT in
  '(acc, rm) ← scan_subsecs (offs st) (sym_thunk st) idx (needs st, []) (rels st) batch;
  let syms := stable_sort sym_less (schedule acc.2) in
  let thunk := mkThunk offset syms in
  let tab := assign_entries idx 0 syms (sym_thunk st) in
  Some (mkState (offs st) tab acc.1 (fix_rels tab idx batch rm) (made st ++ [thunk]), offset + thunk_size thunk).

(** One round of the outer loop. [m[a]] is read out of bounds when A has reached
    the end ([None]). *)
Definition round (k : cursor) : option cursor :=
  mb ← members !! pos_b k;
  let st := cur k in
  let '(o, offset, d) := move_d (drop (pos_d k) members) mb (offs st) (off k) (pos_d k) in
  let st := mkState o (sym_thunk st) (needs st) (rels st) (made st) in
  let c := move_c (drop (S (pos_b k)) members) (get_offset o mb + BATCH_SIZE) o (S (pos_b k)) in
  let c_offset := match members !! c with Some x => get_offset o x | None => offset end in
  let a := move_a (drop (pos_a k) members) c_offset o (pos_a k) in
  '(st, ti) ←
    (if (thunk_idx0 k <? length (made st))%nat then
       ma ← members !! a; Some (erase (drop (thunk_idx0 k) (made st)) (get_offset o ma) st (thunk_idx0 k))
     else Some (st, thunk_idx0 k));
  '(st, offset) ← make_thunk st (take (c - pos_b k) (drop (pos_b k) members)) offset;
  Some (mkCursor st a c d offset ti).

Fixpoint rounds (fuel : nat) (k : cursor) : option cursor :=
  if (pos_b k <? length members)%nat then
    match fuel with
    | O => None
    | S fuel => k' ← round k; rounds fuel k'
    end
  else Some k.

(** [create_range_extension_thunks]: the final state and the size of the section.
    B moves in every round, so there are at most as many rounds as members. *)
Definition create_range_extension_thunks (st : state) : option (state * Z) :=
  match members with
  | [] => Some (st, 0)
  | x :: rest =>
      let o := foldr (fun y => insert y no_offset) (<[x := 0]> (offs st)) rest in
      k ← rounds (length members)
            (mkCursor (mkState o (sym_thunk st) (needs st) (rels st) (made st)) 0 0 0 0 0);
      Some (foldr reset_thunk (cur k) (reverse (drop (thunk_idx0 k) (made (cur k)))), off k)
  end.
End Create.

(** ** Finite maps as tables *)

Lemma get_offset_insert o x y v : get_offset (<[x := v]> o) y = if decide (x = y) then v else get_offset o y.
Proof. unfold get_offset. rewrite lookup_insert. by case_decide. Qed.

Lemma thunk_of_insert t x y v : thunk_of (<[x := v]> t) y = if decide (x = y) then v else thunk_of t y.
Proof. unfold thunk_of. rewrite lookup_insert. by case_decide. Qed.

(** ** The thunk entries of the symbols *)

(** A symbol has an entry exactly when it is in a thunk that has not been reset,
    and then it has the flag. *)
Record tabs (symt : gmap Z (Z * Z)) (need : gset Z) (mk : list RangeExtensionThunk) (ti : nat) : Prop := {
  tab_entry : forall s t j, thunk_of symt s = (t, j) -> t ≠ -1 -> exists (i k : nat) th,
    t = Z.of_nat i /\ j = Z.of_nat k /\ (ti <= i)%nat /\ mk !! i = Some th /\ thunk_symbols th !! k = Some s;
  tab_made : forall (i k : nat) th s, (ti <= i)%nat -> mk !! i = Some th -> thunk_symbols th !! k = Some s ->
    thunk_of symt s = (Z.of_nat i, Z.of_nat k);
  tab_need : forall s, s ∈ need <-> (thunk_of symt s).1 ≠ -1 }.

Lemma thunk_of_reset t l s :
  thunk_of (foldr (fun s => insert s (-1, -1)) t l) s = if decide (s ∈ l) then (-1, -1) else thunk_of t s.
Proof.
  induction l as [|x l IH]; cbn [foldr]; [rewrite decide_False by set_solver; done|].
  rewrite thunk_of_insert, IH. repeat case_decide; set_solver.
Qed.

Lemma reset_tabs st ti th : tabs (sym_thunk st) (needs st) (made st) ti -> made st !! ti = Some th ->
  tabs (sym_thunk (reset_thunk th st)) (needs (reset_thunk th st)) (made st) (S ti).
Proof.
  intros [He Hm Hn] Hth. unfold reset_thunk. cbn [sym_thunk needs]. split.
  - intros s t j. rewrite thunk_of_reset. case_decide as Hs; [intros [= <- _]; lia|]. intros Ht Hne.
    destruct (He s t j Ht Hne) as (i & k & th' & -> & -> & Hi & Hth' & Hk).
    exists i, k, th'. repeat split; try done. destruct (decide (i = ti)) as [->|]; [|lia].
    rewrite Hth in Hth'. injection Hth' as <-. destruct Hs. by apply list_elem_of_lookup_2 in Hk.
  - intros i k th' s Hi Hth' Hk. rewrite thunk_of_reset. rewrite decide_False; [apply (Hm i k th'); [lia|done..]|].
    intros [k' Hk']%list_elem_of_lookup.
    pose proof (Hm i k th' s ltac:(lia) Hth' Hk) as E1. pose proof (Hm ti k' th s ltac:(lia) Hth Hk') as E2.
    rewrite E1 in E2. injection E2. lia.
  - intros s. rewrite thunk_of_reset, elem_of_difference, elem_of_list_to_set, Hn.
    case_decide; simpl; [|tauto]. split; [by intros []|done].
Qed.

Lemma erase_spec limit rest : forall st ti st' ti',
  tabs (sym_thunk st) (needs st) (made st) ti -> rest = drop ti (made st) -> (ti <= length (made st))%nat ->
  (forall i j t t', (i <= j)%nat -> made st !! i = Some t -> made st !! j = Some t' -> thunk_offset t <= thunk_offset t') ->
  erase rest limit st ti = (st', ti') ->
  tabs (sym_thunk st') (needs st') (made st) ti' /\ made st' = made st /\ offs st' = offs st /\ rels st' = rels st /\
  (ti <= ti' <= length (made st))%nat /\
  (forall i t, (ti' <= i)%nat -> made st !! i = Some t -> limit <= thunk_offset t).
Proof.
  induction rest as [|th rest IH]; intros st ti st' ti' HT Hrest Hti Hsort E; simpl in E.
  - injection E as <- <-. split; [done|]. do 3 (split; [done|]). split; [lia|]. intros i t Hi Ht.
    apply (f_equal length) in Hrest. rewrite length_drop in Hrest. simpl in Hrest. apply lookup_lt_Some in Ht. lia.
  - assert (Hth : made st !! ti = Some th) by (rewrite <- (Nat.add_0_r ti), <- lookup_drop, <- Hrest; done).
    assert (Hrest' : rest = drop (S ti) (made st)) by (rewrite <- Nat.add_1_r, <- drop_drop, <- Hrest; done).
    apply lookup_lt_Some in Hth as Hlt. case_bool.
    + destruct (IH (reset_thunk th st) (S ti) st' ti') as (H1 & H2 & H3 & H4 & H5 & H6); [exact (reset_tabs st ti th HT Hth)|exact Hrest'|simpl; lia|exact Hsort|exact E|].
      split; [done|]. split; [done|]. split; [done|]. split; [done|]. split; [simpl in H5; lia|done].
    + injection E as <- <-. split; [done|]. do 3 (split; [done|]). split; [lia|]. intros i t Hi Ht.
      pose proof (Hsort ti i th t Hi Hth Ht). lia.
Qed.

(** Giving the sorted symbols of a new thunk their entries. *)
Lemma assign_entries_notin idx l : forall j symt s, s ∉ l -> thunk_of (assign_entries idx j l symt) s = thunk_of symt s.
Proof.
  induction l as [|x l IH]; intros j symt s Hs; simpl; [done|].
  rewrite IH by set_solver. rewrite thunk_of_insert, decide_False by set_solver. done.
Qed.

Lemma assign_entries_in idx l : forall j symt k s, NoDup l -> l !! k = Some s ->
  thunk_of (assign_entries idx j l symt) s = (i16 idx, i16 (j + Z.of_nat k)).
Proof.
  induction l as [|x l IH]; intros j symt k s Hl Hk; [done|]. apply NoDup_cons in Hl as [Hx Hl]. simpl. destruct k as [|k].
  - injection Hk as ->. rewrite assign_entries_notin by done. rewrite thunk_of_insert, decide_True by done.
    by rewrite Z.add_0_r.
  - rewrite (IH (j + 1) _ k) by done. do 2 f_equal. lia.
Qed.

(** The second scan, per subsection. *)
Lemma fix_rels_lookup symt idx xs : forall rm x, NoDup xs ->
  fix_rels symt idx xs rm !! x =
  if decide (x ∈ xs) then Some (map (fix_rel symt idx) (default [] (rm !! x))) else rm !! x.
Proof.
  unfold fix_rels. induction xs as [|y xs IH]; intros rm x Hxs; cbn [foldl]; [rewrite decide_False by set_solver; done|].
  apply NoDup_cons in Hxs as [Hy Hxs]. rewrite IH by done. rewrite !lookup_insert.
  destruct (decide (y = x)) as [->|Hne].
  - rewrite decide_False, decide_True by set_solver. done.
  - destruct (decide (x ∈ xs)); [by rewrite decide_True by set_solver|by rewrite decide_False by set_solver].
Qed.

Lemma Forall2_impl_in {A B} (P Q : A -> B -> Prop) l k :
  Forall2 P l k -> (forall x y, x ∈ l -> P x y -> Q x y) -> Forall2 Q l k.
Proof.
  induction 1 as [|x y l k Hxy H IH]; intros HQ; constructor; [apply HQ; [by left|done]|].
  apply IH. intros. apply HQ; [by right|done].
Qed.

(** ** Sums over the members *)

Definition sum (f : Z -> Z) (l : list Z) : Z := foldr (fun x n => f x + n) 0 l.

Lemma sum_app f l1 l2 : sum f (l1 ++ l2) = sum f l1 + sum f l2.
Proof. unfold sum. induction l1 as [|x l1 IH]; simpl; [done|]. lia. Qed.

Lemma sum_nonneg f l : (forall x, x ∈ l -> 0 <= f x) -> 0 <= sum f l.
Proof.
  unfold sum. induction l as [|x l IH]; simpl; [lia|]. intros H.
  pose proof (H x (list_elem_of_here _ _)). assert (0 <= sum f l) by (apply IH; intros; apply H; by right).
  unfold sum in *. lia.
Qed.

Lemma sum_take_S f l n x : l !! n = Some x -> sum f (take (S n) l) = sum f (take n l) + f x.
Proof. intros H. rewrite (take_S_r _ _ _ H), sum_app. simpl. lia. Qed.

Lemma sum_take_le f l n : (forall x, x ∈ l -> 0 <= f x) -> sum f (take n l) <= sum f l.
Proof.
  intros H. rewrite <- (take_drop n l) at 2. rewrite sum_app.
  assert (0 <= sum f (drop n l)); [|lia]. apply sum_nonneg. intros x Hx. apply H.
  rewrite <- (take_drop n l). set_solver.
Qed.

(** ** The size of a thunk, with the alignment before it *)

Definition THUNK : Z := MAX_THUNK_SIZE + ALIGNMENT.
Definition REACH : Z := MAX_DISTANCE - MAX_THUNK_SIZE.

(** The largest subsection the algorithm is proved for: 32 MiB. *)
Definition MAX_SUBSEC : Z := 2 ^ 25.

Ltac consts := unfold THUNK, REACH, MAX_SUBSEC, MAX_DISTANCE, BATCH_SIZE, MAX_THUNK_SIZE, ALIGNMENT, ENTRY_SIZE, no_offset, UINT32_MAX in *; pow2s.
Ltac clia := consts; lia.

Lemma create_cons m ctx members schedule st x rest : members = x :: rest ->
  create_range_extension_thunks m ctx members schedule st =
  (k ← rounds m ctx members schedule (length members)
     (mkCursor (mkState (foldr (fun y => insert y no_offset) (<[x := 0]> (offs st)) rest)
       (sym_thunk st) (needs st) (rels st) (made st)) 0 0 0 0 0);
   Some (foldr reset_thunk (cur k) (reverse (drop (thunk_idx0 k) (made (cur k)))), off k)).
Proof. by intros ->. Qed.

Section Proof.
Context (m : machine) (ctx : Context) (members : list Z) (schedule : list Z -> list Z).
Context (osec_id base : Z) (rels0 : gmap Z (list Relocation)).

Local Abbreviation size_of := (size_of ctx).
Local Abbreviation align_of := (align_of ctx).

(** The assumptions on the input: the members are subsections of one output
    section, each once, at most 32 MiB large with an alignment of at most 2^15
    and 1 GiB in all; the parallel scan loses and invents no symbol. *)
Hypothesis schedule_perm : forall l, schedule l ≡ₚ l.
Hypothesis members_nodup : NoDup members.
Hypothesis members_osec : forall x, x ∈ members -> exists s, subsecs ctx !! x = Some s /\ osec s = osec_id.
Hypothesis members_size : forall x, x ∈ members -> 0 <= size_of x <= MAX_SUBSEC.
Hypothesis members_align : forall x, x ∈ members -> exists p, 0 <= p <= 15 /\ align_of x = 2 ^ p.
Hypothesis members_total : sum (fun x => size_of x + align_of x) members <= 2 ^ 30.

(** The relocations of the members refer to symbols, lie inside their subsection,
    and have no thunk yet; symbols are defined in subsections that exist. *)
Hypothesis base_addr : osec_addr ctx !! osec_id = Some base.
Hypothesis rels_wf : forall x r, x ∈ members -> r ∈ default [] (rels0 !! x) ->
  thunk_idx r = -1 /\ 0 <= offset r <= size_of x /\ exists s sym, target r = RelSym s /\ symbols ctx !! s = Some sym.
Hypothesis syms_wf : forall s sym y, symbols ctx !! s = Some sym -> subsec sym = Some y ->
  exists sy, subsecs ctx !! y = Some sy /\ is_Some (osec_addr ctx !! osec sy).

(** No single subsection, and no run of subsections of together at most
    [BATCH_SIZE], branches to more symbols than fit in [MAX_THUNK_SIZE]: the
    assumption the source states in its comment. *)
Hypothesis batches_small : forall pre batch post, members = pre ++ batch ++ post ->
  length batch = 1%nat \/ sum size_of batch <= BATCH_SIZE ->
  Z.of_nat (base.size (list_to_set (concat (map (fun x =>
    omap (fun r => if is_branch r then rel_sym r else None) (default [] (rels0 !! x))) batch)) : gset Z)) <= 8533.

(** ** The layout while D moves *)

(** The first [d] members are placed, in order and below [offset]; the others
    have no offset yet, but for the first member, whose offset is 0. *)
Record layout (o : gmap Z Z) (d : nat) (offset : Z) : Prop := {
  lay_d : (d <= length members)%nat;
  lay_off : 0 <= offset < 2 ^ 31;
  lay_start : d = 0%nat -> offset = 0;
  lay_in : forall i x, (i < d)%nat -> members !! i = Some x ->
    0 <= get_offset o x /\ get_offset o x + size_of x <= offset /\ get_offset o x mod align_of x = 0;
  lay_order : forall i j x y, (i < j < d)%nat -> members !! i = Some x -> members !! j = Some y ->
    get_offset o x + size_of x <= get_offset o y;
  lay_fresh : forall i x, (d <= i)%nat -> members !! i = Some x -> get_offset o x = no_offset \/ i = 0%nat /\ get_offset o x = 0 }.

(** Later offset tables agree on what has an offset. *)
Definition extends (o o' : gmap Z Z) : Prop := forall y, get_offset o y ≠ no_offset -> get_offset o' y = get_offset o y.

Lemma member_bounds i x : members !! i = Some x -> 0 <= size_of x <= 2 ^ 25 /\ 1 <= align_of x <= 2 ^ 15.
Proof.
  intros Hi%list_elem_of_lookup_2. split; [by apply members_size|].
  destruct (members_align x Hi) as (p & Hp & ->).
  pose proof (Z.pow_le_mono_r 2 p 15 ltac:(lia) ltac:(lia)). pose proof (Z.pow_pos_nonneg 2 p ltac:(lia) ltac:(lia)). lia.
Qed.

Lemma align_member i x offset : members !! i = Some x -> 0 <= offset < 2 ^ 31 ->
  offset <= align_to offset (align_of x) < offset + align_of x /\ align_to offset (align_of x) mod align_of x = 0.
Proof.
  intros Hi Ho. destruct (members_align x (list_elem_of_lookup_2 _ _ _ Hi)) as (p & Hp & ->).
  apply (align_to_bounds offset p (2 ^ 31)); [lia|lia|].
  pose proof (Z.pow_le_mono_r 2 p 15 ltac:(lia) ltac:(lia)). wnorm. lia.
Qed.

Lemma members_inj i j x : members !! i = Some x -> members !! j = Some x -> i = j.
Proof. apply NoDup_lookup. done. Qed.

(** Placing the next member. *)
Lemma layout_place o d offset x : layout o d offset -> members !! d = Some x ->
  let at_ := align_to offset (align_of x) in
  at_ + size_of x < 2 ^ 31 ->
  layout (<[x := u32 at_]> o) (S d) (at_ + size_of x) /\ extends o (<[x := u32 at_]> o).
Proof.
  intros L Hx at_ Hb. destruct (align_member d x offset Hx (lay_off _ _ _ L)) as [Ha Hm].
  pose proof (member_bounds d x Hx) as [Hs Hal]. pose proof (lay_off _ _ _ L) as Ho.
  assert (Hu : u32 at_ = at_) by (apply wrap_small; unfold is_u, at_; lia).
  assert (Hget : forall y, get_offset (<[x := u32 at_]> o) y = if decide (x = y) then at_ else get_offset o y).
  { intros y. rewrite get_offset_insert, Hu. done. }
  split.
  - split.
    + apply lookup_lt_Some in Hx. lia.
    + unfold at_ in *. lia.
    + done.
    + intros i y Hi Hy. rewrite Hget. case_decide as Hd.
      * subst y. unfold at_. split; [lia|]. split; [lia|done].
      * assert (i < d)%nat by (destruct (decide (i = d)); [subst; congruence|lia]).
        destruct (lay_in _ _ _ L i y) as (? & ? & ?); [done..|]. unfold at_. split; [done|]. split; [lia|done].
    + intros i j y z Hij Hy Hz. rewrite !Hget. destruct (decide (x = y)) as [->|Hy'].
      { pose proof (members_inj _ _ _ Hx Hy). lia. }
      case_decide as Hd.
      * subst z. destruct (lay_in _ _ _ L i y) as (? & ? & ?); [|done|unfold at_; lia].
        pose proof (members_inj _ _ _ Hx Hz). lia.
      * apply (lay_order _ _ _ L i j); [|done..]. destruct (decide (j = d)); [subst; congruence|lia].
    + intros i y Hi Hy. rewrite Hget. case_decide as Hd.
      * subst y. pose proof (members_inj _ _ _ Hx Hy). lia.
      * apply (lay_fresh _ _ _ L); [lia|done].
  - intros y Hy. rewrite Hget. case_decide as Hd; [|done]. subst y.
    destruct (lay_fresh _ _ _ L d x ltac:(lia) Hx) as [?|[-> Hz]]; [done|]. rewrite Hz. unfold at_.
    rewrite (lay_start _ _ _ L eq_refl) in *. rewrite Z.mod_small in Hm by lia. lia.
Qed.

Lemma offsets_refl o : extends o o.
Proof. by intros y. Qed.

Lemma offsets_trans o1 o2 o3 : extends o1 o2 -> extends o2 o3 -> extends o1 o3.
Proof. intros H1 H2 y Hy. rewrite H2; [by apply H1|]. by rewrite H1. Qed.

Lemma layout_assigned o d offset i x : layout o d offset -> (i < d)%nat -> members !! i = Some x -> get_offset o x ≠ no_offset.
Proof.
  intros L Hi Hx. destruct (lay_in _ _ _ L i x Hi Hx) as (? & ? & _). pose proof (lay_off _ _ _ L).
  pose proof (member_bounds _ _ Hx). clia.
Qed.

Lemma drop_S_lookup (d : nat) x rest : drop d members = x :: rest -> members !! d = Some x /\ drop (S d) members = rest.
Proof.
  intros E. split.
  - rewrite <- (Nat.add_0_r d), <- lookup_drop, E. done.
  - rewrite <- Nat.add_1_r, <- drop_drop, E. done.
Qed.

(** D stops at the end or where the next member does not fit. *)
Definition stopped (o : gmap Z Z) (b : Z) (d : nat) (offset : Z) : Prop :=
  d = length members \/ exists x, members !! d = Some x /\
    get_offset o b + REACH <= align_to offset (align_of x) + size_of x.

(** The end of the last placed member. *)
Definition is_end (o : gmap Z Z) (d : nat) (e : Z) : Prop :=
  exists x, members !! pred d = Some x /\ e = get_offset o x + size_of x.

Lemma move_d_spec b ib rest : forall o d offset o' offset' d',
  members !! ib = Some b -> (ib < d)%nat -> layout o d offset -> rest = drop d members ->
  move_d ctx rest b o offset d = (o', offset', d') ->
  get_offset o b + REACH <= 2 ^ 31 ->
  layout o' d' offset' /\ extends o o' /\ (d <= d')%nat /\ offset <= offset' /\ stopped o' b d' offset' /\
  (o' = o /\ d' = d /\ offset' = offset \/ (d < d')%nat /\ is_end o' d' offset' /\ offset' < get_offset o' b + REACH) /\
  offset' <= offset + sum (fun x => size_of x + align_of x) (take (d' - d) rest) /\
  (forall i x, (d <= i < d')%nat -> members !! i = Some x -> offset <= get_offset o' x).
Proof.
  induction rest as [|x rest IH]; intros o d offset o' offset' d' Hib Hd L Hrest E Hb; simpl in E.
  - injection E as <- <- <-. assert (d = length members).
    { pose proof (lay_d _ _ _ L). symmetry in Hrest. apply (f_equal length) in Hrest. rewrite length_drop in Hrest. simpl in Hrest. lia. }
    rewrite firstn_nil. simpl. split; [done|]. split; [apply offsets_refl|]. do 2 (split; [lia|]). split; [by left|].
    split; [by left|]. split; [lia|intros; lia].
  - symmetry in Hrest. apply drop_S_lookup in Hrest as [Hx Hrest].
    destruct (align_member d x offset Hx (lay_off _ _ _ L)) as [Ha _]. pose proof (member_bounds d x Hx) as [Hs Hal].
    pose proof (lay_off _ _ _ L) as Ho.
    unfold u64 in E. rewrite wrap_small in E by (unfold is_u; wnorm; lia).
    destruct (Z.ltb_spec (align_to offset (align_of x) + size_of x) (get_offset o b + MAX_DISTANCE - MAX_THUNK_SIZE)) as [Hlt|Hge].
    + destruct (layout_place o d offset x L Hx) as [L' Hext]; [unfold REACH in Hb; lia|].
      assert (Hbx : get_offset (<[x:=u32 (align_to offset (align_of x))]> o) b = get_offset o b).
      { apply Hext. by apply (layout_assigned o d offset ib). }
      assert (Hgx : get_offset (<[x:=u32 (align_to offset (align_of x))]> o) x = align_to offset (align_of x)).
      { rewrite get_offset_insert, decide_True by done. apply (wrap_small 32). unfold is_u. wnorm. unfold REACH in Hb. lia. }
      edestruct IH as (L2 & Hext2 & Hd2 & Ho2 & Hst & Hmv & Hsum & Habove); [exact Hib| |exact L'|done|exact E|by rewrite Hbx|]; [lia|].
      split; [done|]. split; [by eapply offsets_trans|]. split; [lia|]. split; [lia|]. split; [done|].
      split; [|split; [replace (d' - d)%nat with (S (d' - S d)) by lia; simpl; lia|]].
      2:{ intros i y Hi Hy. destruct (decide (i = d)) as [->|]; [|specialize (Habove i y ltac:(lia) Hy); lia].
          assert (y = x) as -> by congruence. rewrite Hext2; rewrite Hgx; [lia|]. unfold REACH in Hb. clia. }
      right. split; [lia|]. destruct Hmv as [(-> & -> & ->)|(? & ? & ?)]; [|done]. split.
      * exists x. split; [done|]. rewrite Hgx. done.
      * rewrite Hbx. unfold REACH. lia.
    + injection E as <- <- <-. rewrite Nat.sub_diag. simpl. split; [done|]. split; [apply offsets_refl|].
      do 2 (split; [lia|]). split; [right; exists x; split; [done|unfold REACH; lia]|]. split; [by left|]. split; [lia|intros; lia].
Qed.

Lemma move_c_spec limit o rest : forall c, rest = drop c members ->
  let c' := move_c ctx rest limit o c in
  (c <= c')%nat /\ ((c <= length members)%nat -> (c' <= length members)%nat) /\
  (forall i x, (c <= i < c')%nat -> members !! i = Some x -> u32 (get_offset o x + size_of x) < limit) /\
  (forall x, members !! c' = Some x -> limit <= u32 (get_offset o x + size_of x)).
Proof.
  induction rest as [|x rest IH]; intros c Hrest; simpl.
  - split; [lia|]. split; [done|]. split; [intros; lia|]. intros x Hx.
    assert (x ∈ drop c members) by (apply list_elem_of_lookup; exists 0%nat; by rewrite lookup_drop, Nat.add_0_r).
    rewrite <- Hrest in *. set_solver.
  - symmetry in Hrest. apply drop_S_lookup in Hrest as [Hx Hrest]. case_bool.
    + destruct (IH (S c) ltac:(done)) as (H1 & H2 & H3 & H4). apply lookup_lt_Some in Hx as Hl.
      split; [lia|]. split; [intros; apply H2; lia|]. split; [|done]. intros i y Hi Hy.
      destruct (decide (i = c)) as [->|]; [congruence|]. apply (H3 i); [lia|done].
    + split; [lia|]. split; [done|]. split; [intros; lia|]. intros y Hy. congruence.
Qed.

Lemma move_a_spec limit o rest : forall a, rest = drop a members ->
  let a' := move_a rest limit o a in
  (a <= a')%nat /\
  (forall i x, (a <= i < a')%nat -> members !! i = Some x -> get_offset o x + MAX_DISTANCE < limit) /\
  (forall x, members !! a' = Some x -> limit <= get_offset o x + MAX_DISTANCE).
Proof.
  induction rest as [|x rest IH]; intros a Hrest; simpl.
  - split; [lia|]. split; [intros; lia|]. intros x Hx.
    assert (x ∈ drop a members) by (apply list_elem_of_lookup; exists 0%nat; by rewrite lookup_drop, Nat.add_0_r).
    rewrite <- Hrest in *. set_solver.
  - symmetry in Hrest. apply drop_S_lookup in Hrest as [Hx Hrest]. case_bool.
    + destruct (IH (S a) ltac:(done)) as (H1 & H3 & H4). split; [lia|]. split; [|done]. intros i y Hi Hy.
      destruct (decide (i = a)) as [->|]; [congruence|]. apply (H3 i); [lia|done].
    + split; [lia|]. split; [intros; lia|]. intros y Hy. congruence.
Qed.

(** A stops at the latest at a member that is close enough. *)
Lemma move_a_le limit o a i x : (a <= i)%nat -> members !! i = Some x -> limit <= get_offset o x + MAX_DISTANCE ->
  (move_a (drop a members) limit o a <= i)%nat.
Proof.
  intros Ha Hi Hx. destruct (move_a_spec limit o _ a eq_refl) as (_ & H & _).
  destruct (decide (move_a (drop a members) limit o a <= i)%nat); [done|].
  specialize (H i x ltac:(lia) Hi). lia.
Qed.

(** ** The positions at the start of a round

    [nt] thunks have been made; [e] is the end of the last placed member and [n]
    the number of thunks placed since; [bp] is the offset of the previous B. *)
Record positions (o : gmap Z Z) (b d : nat) (offset nt : Z) : Prop := {
  pos_sum : offset <= sum (fun x => size_of x + align_of x) (take d members) + nt * THUNK;
  pos_rest : (b = 0%nat /\ d = 0%nat /\ nt = 0) \/ (b = length members /\ d = length members) \/
    exists mb e bp n, members !! b = Some mb /\ (b < d)%nat /\ is_end o d e /\ 0 <= n /\ 1 <= nt /\
      0 <= bp <= get_offset o mb /\ bp + BATCH_SIZE <= get_offset o mb + size_of mb /\
      e <= get_offset o mb + REACH /\ e <= offset <= e + n * THUNK /\
      BATCH_SIZE * (n - 1) <= (get_offset o mb + REACH - e) + (bp + REACH - e) /\
      BATCH_SIZE * (nt - 1) <= get_offset o mb + bp }.

(** ... and after D has moved. *)
Record advanced (o : gmap Z Z) (b d : nat) (mb offset nt : Z) : Prop := {
  adv_b : members !! b = Some mb /\ (b < d)%nat;
  adv_sum : offset <= sum (fun x => size_of x + align_of x) (take d members) + nt * THUNK;
  adv_stop : stopped o mb d offset;
  adv_rest : exists e bp n, is_end o d e /\ 0 <= n <= 20 /\ e <= get_offset o mb + REACH /\
    e <= offset <= e + n * THUNK /\
    (n = 0 \/ BATCH_SIZE * (n - 1) <= (get_offset o mb + REACH - e) + (bp + REACH - e)) /\
    (nt = 0 \/ 1 <= nt /\ BATCH_SIZE * (nt - 1) <= get_offset o mb + bp) /\
    (nt = 0 /\ n = 0 \/ 0 <= bp <= get_offset o mb /\ bp + BATCH_SIZE <= get_offset o mb + size_of mb) }.

(** All the offsets stay below 2^31 - 2^28. *)
Lemma offset_bound b d o offset nt : positions o b d offset nt -> layout o d offset -> (b < length members)%nat ->
  0 <= nt -> offset <= 2 ^ 30 + 2 ^ 28 /\ nt <= 300.
Proof.
  intros [Hs Hr] L Hb Hn. pose proof (sum_take_le (fun x => size_of x + align_of x) members d) as Hle.
  assert (Hpos : forall x, x ∈ members -> 0 <= size_of x + align_of x).
  { intros x [i Hi]%list_elem_of_lookup. pose proof (member_bounds _ _ Hi). lia. }
  specialize (Hle Hpos). destruct Hr as [(-> & -> & ->)|[(-> & ?)|Hr]]; [clia|lia|].
  destruct Hr as (mb & e & bp & n & Hmb & Hbd & _ & _ & _ & Hbp & _ & _ & He & _ & Hnt).
  destruct (lay_in _ _ _ L b mb Hbd Hmb) as (_ & Hin & _). pose proof (member_bounds _ _ Hmb). clia.
Qed.

Lemma get_offset_small o d offset i x : layout o d offset -> (i < d)%nat -> members !! i = Some x ->
  0 <= get_offset o x <= offset.
Proof.
  intros L Hi Hx. destruct (lay_in _ _ _ L i x Hi Hx) as (? & ? & _). pose proof (member_bounds _ _ Hx). lia.
Qed.

(** The end of the last member is where the layout ends, or below. *)
Lemma is_end_le o d offset e : layout o d offset -> (0 < d)%nat -> is_end o d e -> e <= offset.
Proof. intros L Hd (x & Hx & ->). apply (lay_in _ _ _ L (pred d)); [lia|done]. Qed.

Lemma sum_move d d' (f : Z -> Z) : (d <= d')%nat ->
  sum f (take d members) + sum f (take (d' - d) (drop d members)) = sum f (take d' members).
Proof.
  intros Hd. rewrite <- sum_app. f_equal. rewrite take_drop_commute. replace (d + (d' - d))%nat with d' by lia.
  rewrite <- (take_drop d (take d' members)) at 2. f_equal. rewrite take_take. f_equal. lia.
Qed.

Lemma advance_placed o b d offset nt mb o' offset' d' :
  positions o b d offset nt -> layout o d offset -> members !! b = Some mb -> (b < d)%nat -> 0 <= nt ->
  move_d ctx (drop d members) mb o offset d = (o', offset', d') ->
  layout o' d' offset' /\ extends o o' /\ advanced o' b d' mb offset' nt /\ (d <= d')%nat /\ offset <= offset' /\
  (forall i x, (d <= i < d')%nat -> members !! i = Some x -> offset <= get_offset o' x).
Proof.
  intros HP L Hmb Hbd Hnt E. pose proof (offset_bound _ _ _ _ _ HP L ltac:(by eapply lookup_lt_Some) Hnt) as Hob.
  destruct HP as [Hsum [(-> & -> & ->)|[(-> & ?)|(mb' & e & bp & n & Hmb' & _ & He & Hn & Hnt1 & Hbp & Hbps & HeB & Heo & Hpot & Hk)]]];
    [lia|apply lookup_lt_Some in Hmb; lia|].
  rewrite Hmb in Hmb'. injection Hmb' as <-.
  pose proof (get_offset_small _ _ _ _ _ L Hbd Hmb) as HB.
  destruct (move_d_spec mb b (drop d members) o d offset o' offset' d' Hmb Hbd L eq_refl E ltac:(clia))
    as (L' & Hext & Hd' & Ho' & Hst & Hmv & Hs' & Habove).
  assert (HB' : get_offset o' mb = get_offset o mb) by (apply Hext; by eapply layout_assigned).
  destruct (lay_in _ _ _ L' b mb ltac:(lia) Hmb) as (_ & Hin & _). pose proof (member_bounds _ _ Hmb) as [Hsz _].
  split; [done|]. split; [done|]. split; [|split; [done|]; by split]. split.
  - split; [done|lia].
  - rewrite <- (sum_move d d') by done. lia.
  - done.
  - rewrite HB' in *. destruct Hmv as [(-> & -> & ->)|(Hdd & Hend & Hlt)].
    + exists e, bp, n. split; [done|]. split; [|repeat split; (done || lia || (right; lia))].
      assert (get_offset o mb <= e); [|clia]. destruct He as (x & Hx & ->). pose proof (member_bounds _ _ Hx) as [Hsx _].
      destruct (decide (b = pred d)) as [->|]; [rewrite Hmb in Hx; injection Hx as <-; lia|].
      pose proof (lay_order _ _ _ L b (pred d) mb x ltac:(lia) Hmb Hx). lia.
    + exists offset', bp, 0. split; [done|]. repeat split; (done || lia || (right; lia) || (left; lia)).
Qed.

Lemma advance o b d offset nt mb o' offset' d' :
  positions o b d offset nt -> layout o d offset -> members !! b = Some mb -> 0 <= nt ->
  move_d ctx (drop d members) mb o offset d = (o', offset', d') ->
  layout o' d' offset' /\ extends o o' /\ advanced o' b d' mb offset' nt /\ (d <= d')%nat /\ offset <= offset' /\
  (forall i x, (d <= i < d')%nat -> members !! i = Some x -> offset <= get_offset o' x).
Proof.
  intros HP L Hmb Hnt E. destruct (decide (b < d)%nat) as [Hbd|Hbd]; [by eapply advance_placed|].
  destruct HP as [Hsum [(-> & -> & ->)|[(-> & ?)|(? & ? & ? & ? & ? & ? & _)]]]; [|apply lookup_lt_Some in Hmb; lia|lia].
  pose proof (lay_start _ _ _ L eq_refl) as ->.
  destruct (drop 0 members) as [|x rest] eqn:Ed; [by rewrite drop_0 in Ed; rewrite Ed in Hmb|].
  apply drop_S_lookup in Ed as [Hx Hrest]. assert (x = mb) as -> by congruence.
  destruct (align_member 0 mb 0 Hx ltac:(lia)) as [Ha Hm]. pose proof (member_bounds _ _ Hx) as [Hs Hal].
  rewrite Z.mod_small in Hm by lia. simpl in E. rewrite Hm in E. rewrite Z.add_0_l in E.
  assert (HB : 0 <= get_offset o mb).
  { destruct (lay_fresh _ _ _ L 0%nat mb ltac:(lia) Hx) as [->|[_ ->]]; clia. }
  unfold u64 in E. rewrite wrap_small in E by (unfold is_u; wnorm; lia).
  destruct (Z.ltb_spec (size_of mb) (get_offset o mb + MAX_DISTANCE - MAX_THUNK_SIZE)); [|clia].
  destruct (layout_place o 0 0 mb L Hx) as [L1 Hext1]; [rewrite Hm; clia|]. rewrite Hm in Hext1. rewrite Hm, Z.add_0_l in L1.
  set (o1 := <[mb := u32 0]> o) in *. assert (HB1 : get_offset o1 mb = 0) by (unfold o1; rewrite get_offset_insert, decide_True; done).
  destruct (move_d_spec mb 0 rest o1 1 (size_of mb) o' offset' d' Hmb ltac:(lia) L1 ltac:(done) E ltac:(rewrite HB1; clia))
    as (L' & Hext & Hd' & Ho' & Hst & Hmv & Hs' & Habove).
  assert (HB' : get_offset o' mb = 0) by (rewrite Hext; rewrite HB1; done).
  split; [done|]. split; [by eapply offsets_trans|].
  split; [|split; [lia|]; split; [lia|]; intros i x Hi Hxi; destruct (lay_in _ _ _ L' i x ltac:(lia) Hxi); lia]. split.
  - split; [done|lia].
  - pose proof (sum_move 1 d' (fun x => size_of x + align_of x) ltac:(lia)) as Hm2. rewrite Hrest in Hm2.
    rewrite (sum_take_S _ members 0 mb Hx) in Hm2. cbn [take sum foldr] in Hm2. unfold sum in *. simpl in *. lia.
  - done.
  - exists offset', 0, 0. rewrite HB'. assert (is_end o' d' offset' /\ offset' < REACH) as [He Hlt].
    { destruct Hmv as [(-> & -> & ->)|(? & ? & ?)]; [|split; [done|lia]]. split; [|clia].
      exists mb. split; [done|]. rewrite HB1. lia. }
    split; [done|]. repeat split; (lia || (left; lia)).
Qed.

(** A placed end does not wrap, one that is not placed wraps to a small number. *)
Lemma end_placed o d offset i x : layout o d offset -> (i < d)%nat -> members !! i = Some x ->
  u32 (get_offset o x + size_of x) = get_offset o x + size_of x.
Proof.
  intros L Hi Hx. destruct (lay_in _ _ _ L i x Hi Hx) as (? & ? & _). pose proof (member_bounds _ _ Hx).
  pose proof (lay_off _ _ _ L). apply wrap_small. unfold is_u. wnorm. lia.
Qed.

(** All members between B and D end within a batch of B only when D is at the end. *)
Lemma batch_stuck o b d mb offset nt : layout o d offset -> advanced o b d mb offset nt ->
  (forall i x, (b < i < d)%nat -> members !! i = Some x -> get_offset o x + size_of x < get_offset o mb + BATCH_SIZE) ->
  d = length members.
Proof.
  intros L [[Hmb Hbd] _ [Hd|(x & Hx & Hst)] (e & bp & n & He & Hn & _ & Heo & _)] Hall; [done|exfalso].
  pose proof (lay_off _ _ _ L) as Ho. destruct (align_member d x offset Hx Ho) as [Ha _].
  pose proof (member_bounds _ _ Hx) as [Hs Hal]. pose proof (member_bounds _ _ Hmb) as [Hsb _].
  assert (e <= get_offset o mb + MAX_SUBSEC); [|clia].
  destruct He as (y & Hy & ->). destruct (decide (b = pred d)) as [->|Hne].
  - assert (y = mb) as -> by congruence. clia.
  - specialize (Hall (pred d) y ltac:(lia) Hy). clia.
Qed.

Lemma batch_end o b d mb offset nt : layout o d offset -> advanced o b d mb offset nt ->
  let c := move_c ctx (drop (S b) members) (get_offset o mb + BATCH_SIZE) o (S b) in
  (b < c <= d)%nat /\
  ((c < d)%nat /\ (exists x, members !! c = Some x /\ get_offset o mb + BATCH_SIZE <= get_offset o x + size_of x) \/
   c = d /\ d = length members) /\
  (forall i x, (b < i < c)%nat -> members !! i = Some x -> get_offset o x + size_of x < get_offset o mb + BATCH_SIZE).
Proof.
  intros L A c. pose proof (adv_b _ _ _ _ _ _ A) as [Hmb Hbd]. pose proof (lay_d _ _ _ L) as Hdl.
  destruct (move_c_spec (get_offset o mb + BATCH_SIZE) o _ (S b) eq_refl) as (Hc1 & Hc2 & Hc3 & Hc4). fold c in Hc1, Hc2, Hc3, Hc4.
  specialize (Hc2 ltac:(lia)).
  assert (Hends : forall i x, (b < i < c)%nat -> (i < d)%nat -> members !! i = Some x ->
    get_offset o x + size_of x < get_offset o mb + BATCH_SIZE).
  { intros i x Hi Hid Hx. rewrite <- (end_placed o d offset i x) by done. apply (Hc3 i); [lia|done]. }
  destruct (decide (c < d)%nat) as [Hcd|Hcd].
  - split; [lia|]. split; [|intros i x Hi; apply Hends; lia]. left. split; [done|].
    destruct (lookup_lt_is_Some_2 members c ltac:(lia)) as [x Hx]. exists x. split; [done|].
    rewrite <- (end_placed o d offset c x) by done. by apply Hc4.
  - assert (Hd : d = length members).
    { eapply batch_stuck; [exact L|exact A|]. intros i x Hi. apply Hends; lia. }
    assert (c = d) as -> by lia. split; [lia|]. split; [by right|]. intros i x Hi. apply Hends; lia.
Qed.

(** The next round's positions, after a thunk of at most the assumed size. *)
Lemma positions_next o b d mb offset nt offset' : layout o d offset -> advanced o b d mb offset nt -> 0 <= nt ->
  offset <= offset' <= offset + THUNK ->
  positions o (move_c ctx (drop (S b) members) (get_offset o mb + BATCH_SIZE) o (S b)) d offset' (nt + 1).
Proof.
  intros L A Hnt Hoff. destruct (batch_end o b d mb offset nt L A) as (Hbc & Hcd & _).
  set (c := move_c _ _ _ _ _) in *. destruct A as [[Hmb Hbd] Hsum _ (e & bp & n & He & Hn & HeB & Heo & Hpot & Hk & Hbp)].
  split; [lia|]. right. destruct Hcd as [[Hcd (x & Hx & Hend)]|Hcd]; [right|left; lia].
  pose proof (lay_order _ _ _ L b c mb x ltac:(lia) Hmb Hx) as Hord. pose proof (member_bounds _ _ Hmb) as [Hsb _].
  destruct (lay_in _ _ _ L b mb Hbd Hmb) as (HB & _ & _).
  exists x, e, (get_offset o mb), (n + 1). split; [done|]. split; [done|]. split; [done|].
  repeat split; try lia.
Qed.
(** ** Scanning *)

(** The symbols the branches of some relocations refer to. *)
Definition branch_syms (rs : list Relocation) : list Z := omap (fun r => if is_branch r then rel_sym r else None) rs.

Definition batch_syms (xs : list Z) : list Z := concat (map (fun x => branch_syms (default [] (rels0 !! x))) xs).

Lemma is_reachable_some o x s sym r : x ∈ members -> symbols ctx !! s = Some sym -> is_Some (is_reachable m ctx o sym x r).
Proof.
  intros Hx Hs. destruct (members_osec x Hx) as (sx & Hsx & Hox). unfold is_reachable, subsec_addr, symbol_addr.
  cbn [with_offsets subsecs osec_addr stubs_addr output_offset]. rewrite Hsx. cbn [mbind option_bind]. rewrite Hox, base_addr.
  cbn [mbind option_bind].
  destruct (has_stub sym); [case_match; cbn [mbind option_bind]; by eexists|].
  destruct (subsec sym) as [y|] eqn:Ey; [|by eexists].
  destruct (syms_wf s sym y Hs Ey) as (sy & Hsy & [by_ Hby]). unfold subsec_addr. cbn [with_offsets subsecs osec_addr].
  rewrite Hsy. cbn [mbind option_bind]. rewrite Hby. cbn [mbind option_bind]. repeat case_match; by eexists.
Qed.

(** What the first scan makes of a relocation; [pushed] are the symbols of the new
    thunk. *)
Definition scanned (o : gmap Z Z) (symt : gmap Z (Z * Z)) (idx x : Z) (pushed : list Z) (r r' : Relocation) : Prop :=
  exists s sym, rel_sym r = Some s /\ symbols ctx !! s = Some sym /\
    ((r' = r /\ (file sym = None \/ is_branch r = false \/ is_reachable m ctx o sym x r = Some true)) \/
     (exists t j, thunk_of symt s = (t, j) /\ t ≠ -1 /\ r' = set_thunk r t j) \/
     ((thunk_of symt s).1 = -1 /\ s ∈ pushed /\ r' = set_thunk r (i16 idx) (-1))).

Lemma scanned_mono o symt idx x l l' r r' : l ⊆ l' -> scanned o symt idx x l r r' -> scanned o symt idx x l' r r'.
Proof.
  intros Hl (s & sym & H1 & H2 & H). exists s, sym. split; [done|]. split; [done|].
  destruct H as [H|[H|(H & Hs & Hr)]]; [by left|right; by left|right; right]. split; [done|]. split; [by apply Hl|done].
Qed.

(** The collected symbols: each once, without an entry, and flagged. *)
Record collected (symt : gmap Z (Z * Z)) (need : gset Z) (acc : gset Z * list Z) : Prop := {
  col_need : acc.1 = list_to_set acc.2 ∪ need;
  col_nodup : NoDup acc.2;
  col_new : forall s, s ∈ acc.2 -> (thunk_of symt s).1 = -1 }.

Lemma scan_rel_spec o symt need idx x acc r : (forall s, s ∈ need <-> (thunk_of symt s).1 ≠ -1) ->
  x ∈ members -> (exists s sym, target r = RelSym s /\ symbols ctx !! s = Some sym) -> collected symt need acc ->
  exists acc' r', scan_rel m ctx o symt idx x acc r = Some (acc', r') /\ collected symt need acc' /\
    acc.2 ⊆ acc'.2 /\ acc'.2 ⊆ acc.2 ++ branch_syms [r] /\ scanned o symt idx x acc'.2 r r'.
Proof.
  intros Hneed Hx (s & sym & Hr & Hs) [C1 C2 C3]. assert (Hrs : rel_sym r = Some s) by (unfold rel_sym; by rewrite Hr).
  unfold scan_rel. rewrite Hrs. cbn [mbind option_bind]. rewrite Hs. cbn [mbind option_bind].
  destruct (bool_decide (file sym = None) || negb (is_branch r)) eqn:Eb.
  { exists acc, r. split; [done|]. split; [done|]. split; [done|]. split; [set_solver|].
    exists s, sym. split; [done|]. split; [done|]. left. split; [done|].
    apply orb_true_iff in Eb as [Eb%bool_decide_eq_true|Eb%negb_true_iff]; tauto. }
  apply orb_false_iff in Eb as [_ Eb%negb_false_iff].
  destruct (is_reachable_some o x s sym r Hx Hs) as [reach Er]. rewrite Er. cbn [mbind option_bind]. destruct reach.
  { exists acc, r. split; [done|]. split; [done|]. split; [done|]. split; [set_solver|].
    exists s, sym. split; [done|]. split; [done|]. left. tauto. }
  destruct (thunk_of symt s) as [t j] eqn:Et. destruct (Z.eqb_spec t (-1)) as [->|Hne]; cbn [negb].
  - assert (Hbs : branch_syms [r] = [s]) by (unfold branch_syms; simpl; by rewrite Eb, Hrs).
    rewrite Hbs. case_bool_decide as Hin.
    + exists acc, (set_thunk r (i16 idx) (-1)). split; [done|]. split; [done|]. split; [done|]. split; [set_solver|].
      exists s, sym. split; [done|]. split; [done|]. right. right. rewrite Et. split; [done|]. split; [|done].
      rewrite C1 in Hin. apply elem_of_union in Hin as [Hin|Hin]; [set_solver|]. apply Hneed in Hin. by rewrite Et in Hin.
    + eexists _, (set_thunk r (i16 idx) (-1)). split; [done|]. cbn [fst snd]. split.
      { split; cbn [fst snd].
        - rewrite C1, list_to_set_app_L. set_solver.
        - apply NoDup_app. split; [done|]. split; [|by apply NoDup_singleton]. intros y Hy Hys. set_solver.
        - intros y [Hy|Hy]%elem_of_app; [by apply C3|]. apply list_elem_of_singleton in Hy as ->. by rewrite Et. }
      split; [set_solver|]. split; [done|]. exists s, sym. split; [done|]. split; [done|]. right. right. rewrite Et.
      split; [done|]. split; [set_solver|done].
  - exists acc, (set_thunk r t j). split; [done|]. split; [done|]. split; [done|]. split; [set_solver|].
    exists s, sym. split; [done|]. split; [done|]. right. left. by exists t, j.
Qed.

Lemma scan_rels_spec o symt need idx x : (forall s, s ∈ need <-> (thunk_of symt s).1 ≠ -1) -> x ∈ members ->
  forall rs acc, (forall r, r ∈ rs -> exists s sym, target r = RelSym s /\ symbols ctx !! s = Some sym) -> collected symt need acc ->
  exists acc' rs', scan_rels m ctx o symt idx x acc rs = Some (acc', rs') /\ collected symt need acc' /\
    acc.2 ⊆ acc'.2 /\ acc'.2 ⊆ acc.2 ++ branch_syms rs /\ Forall2 (scanned o symt idx x acc'.2) rs rs'.
Proof.
  intros Hneed Hx. induction rs as [|r rs IH]; intros acc Hwf C.
  - exists acc, []. split; [done|]. split; [done|]. split; [done|]. split; [set_solver|constructor].
  - destruct (scan_rel_spec o symt need idx x acc r Hneed Hx (Hwf r (list_elem_of_here _ _)) C) as (acc1 & r' & E1 & C1 & S1 & S1' & R1).
    destruct (IH acc1 ltac:(intros; apply Hwf; by right) C1) as (acc2 & rs' & E2 & C2 & S2 & S2' & R2).
    exists acc2, (r' :: rs'). simpl. rewrite E1. cbn [mbind option_bind]. rewrite E2. cbn [mbind option_bind].
    split; [done|]. split; [done|]. split; [set_solver|]. split.
    + intros y [Hy%S1'|Hy]%S2'%elem_of_app.
      * apply elem_of_app in Hy as [Hy|Hy]; apply elem_of_app; [by left|right]. unfold branch_syms in *. simpl in *.
        destruct (if is_branch r then rel_sym r else None); [|by apply not_elem_of_nil in Hy].
        apply list_elem_of_singleton in Hy as ->. by left.
      * apply elem_of_app. right. unfold branch_syms in *. simpl.
        destruct (if is_branch r then rel_sym r else None); [by right|done].
    + constructor; [by eapply scanned_mono|done].
Qed.
Lemma scan_subsecs_spec o symt need idx : (forall s, s ∈ need <-> (thunk_of symt s).1 ≠ -1) ->
  forall xs acc rm, NoDup xs -> xs ⊆ members -> (forall x, x ∈ xs -> rm !! x = rels0 !! x) -> collected symt need acc ->
  exists acc' rm', scan_subsecs m ctx o symt idx acc rm xs = Some (acc', rm') /\ collected symt need acc' /\
    acc.2 ⊆ acc'.2 /\ acc'.2 ⊆ acc.2 ++ batch_syms xs /\ (forall x, x ∉ xs -> rm' !! x = rm !! x) /\
    forall x, x ∈ xs -> exists rs', rm' !! x = Some rs' /\ Forall2 (scanned o symt idx x acc'.2) (default [] (rels0 !! x)) rs'.
Proof.
  intros Hneed. induction xs as [|x xs IH]; intros acc rm Hnd Hsub Hrm C.
  - exists acc, rm. split; [done|]. split; [done|]. split; [done|]. split; [set_solver|]. split; [done|set_solver].
  - apply NoDup_cons in Hnd as [Hx Hnd].
    assert (Hxm : x ∈ members) by (apply Hsub; set_solver).
    destruct (scan_rels_spec o symt need idx x Hneed Hxm (default [] (rm !! x)) acc) as (acc1 & rs' & E1 & C1 & S1 & S1' & R1).
    { intros r Hr. rewrite Hrm in Hr by set_solver. by destruct (rels_wf x r Hxm Hr) as (_ & _ & ?). }
    { done. }
    destruct (IH acc1 (<[x := rs']> rm)) as (acc2 & rm' & E2 & C2 & S2 & S2' & Hout & R2);
      [done|set_solver| |done|].
    { intros y Hy. rewrite lookup_insert_ne by set_solver. apply Hrm. set_solver. }
    exists acc2, rm'. cbn [scan_subsecs]. rewrite E1. cbn [mbind option_bind]. rewrite E2.
    rewrite Hrm in S1', R1 by set_solver.
    split; [done|]. split; [done|]. split; [set_solver|]. split.
    { intros y [Hy%S1'|Hy]%S2'%elem_of_app; unfold batch_syms; simpl; rewrite !elem_of_app; [|tauto].
      apply elem_of_app in Hy. tauto. }
    split.
    { intros y Hy. rewrite Hout by set_solver. apply lookup_insert_ne. set_solver. }
    intros y [->|Hy]%elem_of_cons; [|by apply R2]. exists rs'. split.
    + rewrite Hout by done. apply lookup_insert_eq.
    + eapply Forall2_impl; [exact R1|]. intros r r' Hr. by eapply scanned_mono.
Qed.

Lemma collected_nil symt need : collected symt need (need, []).
Proof. split; cbn [fst snd]; [set_solver|constructor|set_solver]. Qed.

(** ** A new thunk *)

(** What a relocation has become once its batch is done. *)
Definition settled (o : gmap Z Z) (mk : list RangeExtensionThunk) (ti : nat) (x : Z) (r r' : Relocation) : Prop :=
  exists s sym, rel_sym r = Some s /\ symbols ctx !! s = Some sym /\
    ((r' = r /\ (file sym = None \/ is_branch r = false \/ is_reachable m ctx o sym x r = Some true)) \/
     exists (i k : nat) th, r' = set_thunk r (Z.of_nat i) (Z.of_nat k) /\ (ti <= i)%nat /\ mk !! i = Some th /\
       thunk_symbols th !! k = Some s).

Lemma i16_small x : 0 <= x < 2 ^ 15 -> i16 x = x.
Proof. intros. apply swrap_small; [lia|]. warith. Qed.

Lemma symbols_bound (l : list Z) xs pre post : NoDup l -> l ⊆ batch_syms xs -> members = pre ++ xs ++ post ->
  length xs = 1%nat \/ sum size_of xs <= BATCH_SIZE -> zlen l <= 8533.
Proof.
  intros Hl Hsub Hm Hb. etransitivity; [|apply (batches_small pre xs post Hm Hb)]. unfold zlen. apply inj_le.
  rewrite <- (size_list_to_set (C:=gset Z) l) by done. apply subseteq_size. unfold batch_syms, branch_syms in Hsub. set_solver.
Qed.

Lemma fix_scanned o symt tab mk th x pushed ti r r' : thunk_idx r = -1 ->
  (forall s t j, thunk_of symt s = (t, j) -> t ≠ -1 -> exists (i k : nat) th,
    t = Z.of_nat i /\ j = Z.of_nat k /\ (ti <= i)%nat /\ mk !! i = Some th /\ thunk_symbols th !! k = Some s) ->
  zlen mk < 2 ^ 15 -> (ti <= length mk)%nat -> pushed ⊆ thunk_symbols th ->
  (forall k s, thunk_symbols th !! k = Some s -> thunk_of tab s = (zlen mk, Z.of_nat k)) ->
  scanned o symt (zlen mk) x pushed r r' -> settled o (mk ++ [th]) ti x r (fix_rel tab (zlen mk) r').
Proof.
  intros Hr He Hlen Hti Hp Htab (s & sym & Hs & Hsym & H). exists s, sym. split; [done|]. split; [done|].
  pose proof (zlen_nonneg mk) as Hz. destruct H as [[-> H]|[(t & j & Ht & Hne & ->)|(Hn & Hin & ->)]].
  - left. split; [|done]. unfold fix_rel. rewrite Hr. destruct (Z.eqb_spec (-1) (zlen mk)); [lia|done].
  - right. destruct (He s t j Ht Hne) as (i & k & th' & -> & -> & Hi & Hth' & Hk). exists i, k, th'.
    apply lookup_lt_Some in Hth' as Hlt. unfold fix_rel. cbn [set_thunk thunk_idx].
    destruct (Z.eqb_spec (Z.of_nat i) (zlen mk)); [unfold zlen in *; lia|]. split; [done|]. split; [done|].
    split; [by apply lookup_app_l_Some|done].
  - right. apply Hp in Hin. apply list_elem_of_lookup in Hin as [k Hk]. exists (length mk), k, th.
    unfold fix_rel. cbn [set_thunk thunk_idx]. rewrite i16_small, Z.eqb_refl by lia.
    replace (rel_sym (set_thunk r (zlen mk) (-1))) with (rel_sym r) by done. rewrite Hs, (Htab k s Hk). split; [done|].
    split; [done|]. split; [|done]. rewrite lookup_app_r, Nat.sub_diag by lia. done.
Qed.
Lemma new_tabs symt need mk ti acc syms th : tabs symt need mk ti -> collected symt need acc -> syms ≡ₚ acc.2 ->
  thunk_symbols th = syms -> zlen mk < 2 ^ 15 -> zlen syms < 2 ^ 15 -> (ti <= length mk)%nat ->
  let tab := assign_entries (zlen mk) 0 syms symt in
  tabs tab acc.1 (mk ++ [th]) ti /\
  (forall k s, thunk_symbols th !! k = Some s -> thunk_of tab s = (zlen mk, Z.of_nat k)).
Proof.
  intros [He Hm Hn] [C1 C2 C3] Hperm Hth Hmk Hs Hti tab. pose proof (zlen_nonneg mk) as Hz.
  assert (Hnd : NoDup syms) by (by rewrite Hperm).
  assert (Hin : forall k s, syms !! k = Some s -> thunk_of tab s = (zlen mk, Z.of_nat k)).
  { intros k s Hk. unfold tab. rewrite (assign_entries_in _ _ _ _ k) by done.
    apply lookup_lt_Some in Hk. rewrite !i16_small by (unfold zlen in *; lia). done. }
  assert (Hout : forall s, s ∉ syms -> thunk_of tab s = thunk_of symt s) by (intros; by apply assign_entries_notin).
  split; [|by rewrite Hth]. split.
  - intros s t j Ht Hne. destruct (decide (s ∈ syms)) as [[k Hk]%list_elem_of_lookup|Hns].
    + rewrite (Hin k s Hk) in Ht. injection Ht as <- <-. exists (length mk), k, th.
      rewrite lookup_app_r, Nat.sub_diag by lia. by rewrite Hth.
    + rewrite Hout in Ht by done. destruct (He s t j Ht Hne) as (i & k & th' & H1 & H2 & H3 & H4 & H5).
      exists i, k, th'. repeat split; try done. by apply lookup_app_l_Some.
  - intros i k th' s Hi Hth' Hk. destruct (decide (i < length mk)%nat).
    + rewrite lookup_app_l in Hth' by done. rewrite Hout; [by eapply Hm|]. rewrite Hperm. intros Hs'.
      pose proof (C3 s Hs') as Hnew. rewrite (Hm i k th' s) in Hnew by done. simpl in Hnew. lia.
    + apply lookup_app_Some in Hth' as [Hth'|[Hge Hth']]; [apply lookup_lt_Some in Hth'; lia|].
      apply list_lookup_singleton_Some in Hth' as [Hi0 <-]. rewrite Hth in Hk. rewrite (Hin k s Hk). f_equal. unfold zlen. lia.
  - intros s. rewrite C1, elem_of_union, elem_of_list_to_set, <- Hperm, Hn.
    destruct (decide (s ∈ syms)) as [Hs'|Hs']; [|rewrite (Hout s Hs'); tauto].
    apply list_elem_of_lookup in Hs' as [k Hk]. rewrite (Hin k s Hk). simpl. split; [lia|].
    intros _. left. by apply list_elem_of_lookup_2 in Hk.
Qed.

Lemma make_thunk_spec st ti xs pre post offset : tabs (sym_thunk st) (needs st) (made st) ti ->
  members = pre ++ xs ++ post -> length xs = 1%nat \/ sum size_of xs <= BATCH_SIZE ->
  (forall x, x ∈ xs -> rels st !! x = rels0 !! x) -> zlen (made st) < 2 ^ 15 -> (ti <= length (made st))%nat -> 0 <= offset < 2 ^ 31 ->
  exists st' th offset', make_thunk m ctx schedule st xs offset = Some (st', offset') /\
    offs st' = offs st /\ made st' = made st ++ [th] /\ offset <= thunk_offset th < offset + ALIGNMENT /\
    thunk_offset th mod ALIGNMENT = 0 /\
    offset' = thunk_offset th + thunk_size th /\ 0 <= thunk_size th <= MAX_THUNK_SIZE /\
    tabs (sym_thunk st') (needs st') (made st') ti /\
    (forall x, x ∉ xs -> rels st' !! x = rels st !! x) /\
    forall x, x ∈ xs -> Forall2 (settled (offs st) (made st') ti x) (default [] (rels0 !! x)) (default [] (rels st' !! x)).
Proof.
  intros HT Hmem Hsmall Hrels Hmk Hti Ho.
  assert (Hsub : xs ⊆ members) by (rewrite Hmem; set_solver).
  assert (Hnd : NoDup xs).
  { rewrite Hmem in members_nodup. apply NoDup_app in members_nodup as (_ & _ & H). by apply NoDup_app in H as (? & _ & _). }
  destruct (scan_subsecs_spec (offs st) (sym_thunk st) (needs st) (zlen (made st)) (tab_need _ _ _ _ HT)
    xs (needs st, []) (rels st) Hnd Hsub Hrels (collected_nil _ _)) as (acc & rm & E & C & _ & Hacc & Hout & Hin).
  unfold make_thunk. rewrite E. cbn [mbind option_bind].
  set (syms := stable_sort (sym_less ctx) (schedule acc.2)). set (th := mkThunk (align_to offset ALIGNMENT) syms).
  assert (Hperm : syms ≡ₚ acc.2) by (unfold syms; by rewrite stable_sort_perm, schedule_perm).
  assert (Hlen : zlen syms <= 8533).
  { unfold zlen. rewrite Hperm. apply (symbols_bound acc.2 xs pre post); [apply C|exact Hacc|done|done]. }
  destruct (align_to_bounds offset 4 (2 ^ 31) ltac:(lia) ltac:(lia) ltac:(wnorm; lia)) as [Ha1 Ha2].
  destruct (new_tabs _ _ _ _ _ syms th HT C Hperm eq_refl Hmk ltac:(pow2s; lia) Hti) as [HT' Htab].
  eexists _, th, _. split; [done|]. cbn [offs made rels sym_thunk needs]. split; [done|]. split; [done|].
  split; [exact Ha1|]. split; [exact Ha2|]. split; [done|]. split.
  { unfold thunk_size. cbn [th thunk_symbols]. pose proof (zlen_nonneg syms). clia. }
  split; [done|]. split.
  - intros x Hx. rewrite fix_rels_lookup by done. rewrite decide_False by done. by apply Hout.
  - intros x Hx. rewrite fix_rels_lookup by done. rewrite decide_True by done. simpl.
    destruct (Hin x Hx) as (rs' & Hrs' & R). rewrite Hrs'. simpl. apply Forall2_fmap_r.
    eapply Forall2_impl_in; [exact R|]. intros r r' Hr Hsc. cbv beta.
    apply (fix_scanned _ (sym_thunk st) _ _ _ _ acc.2); try done.
    + apply (rels_wf x r); [by apply Hsub|done].
    + apply HT.
    + intros y Hy. cbn [th thunk_symbols]. by rewrite Hperm.
Qed.
(** ** The invariant of the loop *)

(** A branch is within reach of its target, or has an entry for its symbol that is
    within reach. *)
Definition good (o : gmap Z Z) (mk : list RangeExtensionThunk) (x : Z) (r : Relocation) : Prop :=
  forall s sym, rel_sym r = Some s -> symbols ctx !! s = Some sym -> is_branch r = true -> file sym ≠ None ->
  is_reachable m ctx o sym x r = Some true \/
  exists (i k : nat) th, thunk_idx r = Z.of_nat i /\ thunk_sym_idx r = Z.of_nat k /\ mk !! i = Some th /\
    thunk_symbols th !! k = Some s /\
    - 2 ^ 27 <= thunk_offset th + ENTRY_SIZE * Z.of_nat k - (get_offset o x + offset r) < 2 ^ 27.

(** A relocation but for its thunk entry. *)
Definition same_rel (r r' : Relocation) : Prop := r' = set_thunk r (thunk_idx r') (thunk_sym_idx r').

Definition settled_subsec (o : gmap Z Z) (mk : list RangeExtensionThunk) (rm : gmap Z (list Relocation)) (x : Z) : Prop :=
  Forall2 (fun r r' => same_rel r r' /\ good o mk x r') (default [] (rels0 !! x)) (default [] (rm !! x)).

(** The thunks lie below [offset], in order, and apart from the placed members. *)
Record thunk_layout (o : gmap Z Z) (mk : list RangeExtensionThunk) (d : nat) (offset : Z) : Prop := {
  tl_in : forall i th, mk !! i = Some th -> 0 <= thunk_offset th /\ thunk_offset th mod ALIGNMENT = 0 /\
    0 <= thunk_size th <= MAX_THUNK_SIZE /\ thunk_offset th + thunk_size th <= offset;
  tl_order : forall i j th th', (i < j)%nat -> mk !! i = Some th -> mk !! j = Some th' ->
    thunk_offset th + thunk_size th <= thunk_offset th';
  tl_apart : forall i th j x, mk !! i = Some th -> (j < d)%nat -> members !! j = Some x ->
    get_offset o x + size_of x <= thunk_offset th \/ thunk_offset th + thunk_size th <= get_offset o x }.

Record invariant (k : cursor) : Prop := {
  inv_layout : layout (offs (cur k)) (pos_d k) (off k);
  inv_pos : positions (offs (cur k)) (pos_b k) (pos_d k) (off k) (zlen (made (cur k)));
  inv_a : (pos_a k <= pos_b k)%nat;
  inv_bd : (pos_b k <= pos_d k)%nat;
  inv_tabs : tabs (sym_thunk (cur k)) (needs (cur k)) (made (cur k)) (thunk_idx0 k);
  inv_ti : (thunk_idx0 k <= length (made (cur k)))%nat;
  inv_thunks : thunk_layout (offs (cur k)) (made (cur k)) (pos_d k) (off k);
  inv_todo : forall i x, (pos_b k <= i)%nat -> members !! i = Some x -> rels (cur k) !! x = rels0 !! x;
  inv_done : forall i x, (i < pos_b k)%nat -> members !! i = Some x ->
    settled_subsec (offs (cur k)) (made (cur k)) (rels (cur k)) x }.

Lemma is_reachable_extends o o' sym x r : extends o o' -> get_offset o x ≠ no_offset ->
  is_reachable m ctx o sym x r = Some true -> is_reachable m ctx o' sym x r = Some true.
Proof.
  intros He Hx. unfold is_reachable, symbol_addr, subsec_addr. cbn [with_offsets subsecs osec_addr stubs_addr output_offset].
  rewrite (He x Hx). destruct (has_stub sym); [done|]. destruct (subsec sym) as [y|]; [|done].
  destruct (subsecs ctx !! y) as [sy|]; [|done]. cbn [mbind option_bind].
  destruct (subsecs ctx !! x) as [sx|]; [|done]. cbn [mbind option_bind].
  destruct (negb _); [done|]. destruct (Z.eqb_spec (get_offset o y) no_offset) as [|Hy]; [done|].
  rewrite (He y Hy). by destruct (Z.eqb_spec (get_offset o y) no_offset).
Qed.

Lemma good_mono o o' mk l x r : extends o o' -> get_offset o x ≠ no_offset -> good o mk x r -> good o' (mk ++ l) x r.
Proof.
  intros He Hx H s sym H1 H2 H3 H4. destruct (H s sym H1 H2 H3 H4) as [Hr|(i & k & th & H5 & H6 & H7 & H8 & H9)].
  - left. by eapply is_reachable_extends.
  - right. exists i, k, th. rewrite (He x Hx). repeat split; try done; [by apply lookup_app_l_Some|lia|lia].
Qed.

Lemma settled_subsec_mono o o' mk l rm rm' x : extends o o' -> get_offset o x ≠ no_offset -> rm' !! x = rm !! x ->
  settled_subsec o mk rm x -> settled_subsec o' (mk ++ l) rm' x.
Proof.
  intros He Hx Hrm. unfold settled_subsec. rewrite Hrm. intros H. eapply Forall2_impl; [exact H|].
  intros r r' [Hs Hg]. split; [done|by eapply good_mono].
Qed.

(** The sizes in a window sum to at most its extent. *)
Lemma sum_window o d offset b mb : layout o d offset -> members !! b = Some mb ->
  forall n last, (b + n < d)%nat -> members !! (b + n)%nat = Some last ->
  sum size_of (take (S n) (drop b members)) <= get_offset o last + size_of last - get_offset o mb.
Proof.
  intros L Hmb. induction n as [|n IH]; intros last Hn Hl.
  - rewrite Nat.add_0_r in Hl. assert (last = mb) as -> by congruence.
    rewrite (sum_take_S _ _ 0 mb) by (by rewrite lookup_drop, Nat.add_0_r). simpl. lia.
  - destruct (lookup_lt_is_Some_2 members (b + n)%nat) as [y Hy]; [apply lookup_lt_Some in Hl; lia|].
    rewrite (sum_take_S _ _ (S n) last) by (by rewrite lookup_drop).
    specialize (IH y ltac:(lia) Hy). pose proof (lay_order _ _ _ L (b + n) (b + S n) y last ltac:(lia) Hy Hl). lia.
Qed.

(** The batch between B and C. *)
Lemma batch_split b c : (b <= c)%nat -> (c <= length members)%nat ->
  members = take b members ++ take (c - b) (drop b members) ++ drop c members.
Proof.
  intros Hb Hc. rewrite <- (take_drop b members) at 1. f_equal.
  rewrite <- (take_drop (c - b) (drop b members)) at 1. f_equal. rewrite drop_drop. f_equal. lia.
Qed.

Lemma batch_elem b c x : x ∈ take (c - b) (drop b members) <-> exists i, (b <= i < c)%nat /\ members !! i = Some x.
Proof.
  rewrite list_elem_of_lookup. split.
  - intros [i Hi]. apply lookup_take_Some in Hi as [Hi Hlt]. rewrite lookup_drop in Hi. exists (b + i)%nat. split; [lia|done].
  - intros (i & Hi & Hx). exists (i - b)%nat. apply lookup_take_Some. rewrite lookup_drop.
    split; [|lia]. replace (b + (i - b))%nat with i by lia. done.
Qed.
Lemma batch_is_small o b d mb offset nt : layout o d offset -> advanced o b d mb offset nt ->
  let c := move_c ctx (drop (S b) members) (get_offset o mb + BATCH_SIZE) o (S b) in
  length (take (c - b) (drop b members)) = 1%nat \/ sum size_of (take (c - b) (drop b members)) <= BATCH_SIZE.
Proof.
  intros L A c. destruct (batch_end o b d mb offset nt L A) as (Hbc & _ & Hall). fold c in Hbc, Hall.
  pose proof (adv_b _ _ _ _ _ _ A) as [Hmb _]. pose proof (lay_d _ _ _ L).
  destruct (decide (c = S b)) as [->|Hne].
  - left. rewrite length_take, length_drop. lia.
  - right. destruct (lookup_lt_is_Some_2 members (pred c) ltac:(lia)) as [last Hl].
    replace (c - b)%nat with (S (pred c - b)) by lia.
    pose proof (sum_window o d offset b mb L Hmb (pred c - b) last) as Hw. replace (b + (pred c - b))%nat with (pred c) in Hw by lia.
    specialize (Hw ltac:(lia) Hl). specialize (Hall (pred c) last ltac:(lia) Hl). lia.
Qed.

(** The offset of C: the members before it end there, and A is not far behind. *)
Lemma c_offset_spec o a b d mb offset nt : layout o d offset -> advanced o b d mb offset nt -> (a <= b)%nat ->
  let c := move_c ctx (drop (S b) members) (get_offset o mb + BATCH_SIZE) o (S b) in
  let c_offset := match members !! c with Some x => get_offset o x | None => offset end in
  let a' := move_a (drop a members) c_offset o a in
  (forall i x, (i < c)%nat -> members !! i = Some x -> get_offset o x + size_of x <= c_offset) /\ c_offset <= offset /\
  (a' <= c)%nat /\ exists ma, members !! a' = Some ma /\ c_offset <= get_offset o ma + MAX_DISTANCE.
Proof.
  intros L A Hab c c_offset a'. destruct (batch_end o b d mb offset nt L A) as (Hbc & Hcd & _). fold c in Hbc, Hcd.
  destruct (move_a_spec c_offset o _ a eq_refl) as (_ & _ & Hstop). fold a' in Hstop.
  assert (G : (forall i x, (i < c)%nat -> members !! i = Some x -> get_offset o x + size_of x <= c_offset) /\
    c_offset <= offset /\ (a' <= c)%nat /\ (a' < length members)%nat).
  { destruct Hcd as [[Hcd (x & Hx & _)]|[Hcd Hd]].
    - assert (Hco : c_offset = get_offset o x) by (unfold c_offset; by rewrite Hx). split; [|split; [|split]].
      + intros i y Hi Hy. rewrite Hco. by apply (lay_order _ _ _ L i c).
      + rewrite Hco. apply (get_offset_small o d offset c x L Hcd Hx).
      + apply (move_a_le _ _ _ c x); [lia|done|clia].
      + apply lookup_lt_Some in Hx as Hlt. assert (a' <= c)%nat; [|lia]. apply (move_a_le _ _ _ c x); [lia|done|clia].
    - assert (Hco : c_offset = offset).
      { unfold c_offset. rewrite (lookup_ge_None_2 members c) by lia. done. }
      destruct (adv_rest _ _ _ _ _ _ A) as (e & bp & n & (last & Hl & ->) & Hn & _ & Heo & _).
      pose proof (member_bounds _ _ Hl) as [Hsl _].
      assert (Ha' : (a' <= pred d)%nat) by (apply (move_a_le _ _ _ (pred d) last); [lia|done|rewrite Hco; clia]).
      rewrite Hco. split; [|lia]. intros i x Hi Hx. by apply (lay_in _ _ _ L i x); [lia|]. }
  destruct G as (G1 & G2 & G3 & G4). split; [done|]. split; [done|]. split; [done|].
  destruct (lookup_lt_is_Some_2 members a' G4) as [ma Hma]. exists ma. split; [done|]. by apply Hstop.
Qed.

(** A relocation of the batch, once the thunk is there. *)
Lemma settled_good o mk ti b x r r' B c_offset offset' : settled o mk ti x r r' -> 0 <= offset r <= size_of x ->
  B <= get_offset o x -> get_offset o x + size_of x <= c_offset -> offset' <= B + 2 ^ 27 ->
  (forall i th, (ti <= i)%nat -> mk !! i = Some th -> c_offset <= thunk_offset th + MAX_DISTANCE) ->
  thunk_layout o mk b offset' -> same_rel r r' /\ good o mk x r'.
Proof.
  intros (s & sym & Hs & Hsym & H) Hr HB Hc Ho Hti HT. destruct H as [[-> H]|(i & k & th & -> & Hi & Hth & Hk)].
  - split; [by destruct r|]. intros s' sym' Hs' Hsym' Hb Hf. left.
    assert (s' = s) as -> by congruence. assert (sym' = sym) as -> by congruence. destruct H as [?|[?|?]]; [done|congruence|done].
  - split; [done|]. intros s' sym' Hs' _ _ _. right. assert (s' = s) as -> by (unfold rel_sym in *; simpl in *; congruence).
    exists i, k, th. repeat split; try done; cbn [set_thunk offset].
    + specialize (Hti i th Hi Hth). clia.
    + destruct (tl_in _ _ _ _ HT i th Hth) as (_ & _ & _ & Hend). apply lookup_lt_Some in Hk.
      unfold thunk_size, zlen in Hend. clia.
Qed.
(** ** One round *)

Lemma layout_raise o d offset offset' : layout o d offset -> (0 < d)%nat -> offset <= offset' < 2 ^ 31 -> layout o d offset'.
Proof.
  intros L Hd Ho. pose proof (lay_off _ _ _ L). split; try apply L; [lia|lia|].
  intros i x Hi Hx. destruct (lay_in _ _ _ L i x Hi Hx) as (? & ? & ?). split; [done|]. split; [lia|done].
Qed.

Lemma thunk_layout_move o o' mk d d' offset offset' : thunk_layout o mk d offset -> layout o d offset -> extends o o' -> offset <= offset' ->
  (forall i x, (d <= i < d')%nat -> members !! i = Some x -> offset <= get_offset o' x) -> thunk_layout o' mk d' offset'.
Proof.
  intros [H1 H2 H3] L He Ho Habove. split; [|done|].
  - intros i th Hi. destruct (H1 i th Hi) as (? & ? & ? & ?). repeat split; try done; lia.
  - intros i th j x Hi Hj Hx. destruct (decide (j < d)%nat) as [Hjd|Hjd].
    + rewrite (He x) by (by eapply layout_assigned). by eapply H3.
    + right. destruct (H1 i th Hi) as (_ & _ & _ & ?). specialize (Habove j x ltac:(lia) Hx). lia.
Qed.

Lemma thunk_layout_add o mk d offset th : thunk_layout o mk d offset -> layout o d offset -> offset <= thunk_offset th ->
  thunk_offset th mod ALIGNMENT = 0 -> 0 <= thunk_size th <= MAX_THUNK_SIZE ->
  thunk_layout o (mk ++ [th]) d (thunk_offset th + thunk_size th).
Proof.
  intros [H1 H2 H3] L Ho Hal Hsz. pose proof (lay_off _ _ _ L).
  assert (Hl : forall i t, (mk ++ [th]) !! i = Some t -> mk !! i = Some t \/ i = length mk /\ t = th).
  { intros i t [Ht|[Hge Ht]]%lookup_app_Some; [by left|right].
    apply list_lookup_singleton_Some in Ht as [? <-]. split; [lia|done]. }
  split.
  - intros i t [Ht|[_ ->]]%Hl; [destruct (H1 i t Ht) as (? & ? & ? & ?)|]; repeat split; try done; lia.
  - intros i j t t' Hij [Ht|[-> ->]]%Hl [Ht'|[-> ->]]%Hl.
    + by eapply H2.
    + destruct (H1 i t Ht) as (_ & _ & _ & ?). lia.
    + apply lookup_lt_Some in Ht'. lia.
    + lia.
  - intros i t j x [Ht|[_ ->]]%Hl Hj Hx; [by eapply H3|]. left.
    destruct (lay_in _ _ _ L j x Hj Hx) as (_ & ? & _). lia.
Qed.

(** Erasing, whether or not there are thunks left to erase. *)
Lemma erase_step st ti a ma d offset : tabs (sym_thunk st) (needs st) (made st) ti -> (ti <= length (made st))%nat ->
  thunk_layout (offs st) (made st) d offset -> members !! a = Some ma ->
  exists st' ti', (if (ti <? length (made st))%nat then
       ma ← members !! a; Some (erase (drop ti (made st)) (get_offset (offs st) ma) st ti)
     else Some (st, ti)) = Some (st', ti') /\
    tabs (sym_thunk st') (needs st') (made st) ti' /\ made st' = made st /\ offs st' = offs st /\ rels st' = rels st /\
    (ti' <= length (made st))%nat /\
    (forall i t, (ti' <= i)%nat -> made st !! i = Some t -> get_offset (offs st) ma <= thunk_offset t).
Proof.
  intros HT Hti HL Hma. destruct (Nat.ltb_spec ti (length (made st))) as [Hlt|Hge].
  - rewrite Hma. cbn [mbind option_bind]. destruct (erase _ _ _ _) as [st' ti'] eqn:E. exists st', ti'. split; [done|].
    apply erase_spec in E as (H1 & H2 & H3 & H4 & H5 & H6); [|done|done|done|].
    + split; [done|]. do 3 (split; [done|]). split; [lia|done].
    + intros i j t t' Hij Ht Ht'. destruct (decide (i = j)) as [->|]; [assert (t = t') as -> by congruence; lia|].
      pose proof (tl_order _ _ _ _ HL i j t t' ltac:(lia) Ht Ht'). destruct (tl_in _ _ _ _ HL i t Ht) as (_ & _ & ? & _). lia.
  - exists st, ti. split; [done|]. split; [done|]. do 3 (split; [done|]). split; [lia|].
    intros i t Hi Ht. apply lookup_lt_Some in Ht. lia.
Qed.

(** The size of the section stays well below 2^31. *)
Lemma advanced_bound o b d mb offset nt : layout o d offset -> advanced o b d mb offset nt -> 0 <= nt <= 300 -> offset + THUNK < 2 ^ 31.
Proof.
  intros L A Hnt. pose proof (adv_sum _ _ _ _ _ _ A) as Hs.
  pose proof (sum_take_le (fun x => size_of x + align_of x) members d) as Hle.
  assert (Hpos : forall x, x ∈ members -> 0 <= size_of x + align_of x).
  { intros x [i Hi]%list_elem_of_lookup. pose proof (member_bounds _ _ Hi). lia. }
  specialize (Hle Hpos). clia.
Qed.

Lemma advanced_reach o b d mb offset nt : advanced o b d mb offset nt -> offset + THUNK <= get_offset o mb + 2 ^ 27.
Proof. intros A. destruct (adv_rest _ _ _ _ _ _ A) as (e & bp & n & _ & Hn & He & Ho & _). clia. Qed.
Lemma round_spec k : invariant k -> (pos_b k < length members)%nat ->
  exists k', round m ctx members schedule k = Some k' /\ invariant k' /\ (pos_b k < pos_b k' <= length members)%nat.
Proof.
  intros [L P Ha Hbd HT Hti HL Htodo Hdone] Hb. destruct (lookup_lt_is_Some_2 members (pos_b k) Hb) as [mb Hmb].
  pose proof (zlen_nonneg (made (cur k))) as Hnt. destruct (offset_bound _ _ _ _ _ P L Hb Hnt) as [_ Hnt3].
  unfold round. rewrite Hmb. cbn [mbind option_bind].
  destruct (move_d ctx (drop (pos_d k) members) mb (offs (cur k)) (off k) (pos_d k)) as [[o offset] d] eqn:Ed.
  destruct (advance _ _ _ _ _ _ _ _ _ P L Hmb Hnt Ed) as (L' & He & A & Hdd & Ho & Habove).
  set (st := mkState o _ _ _ _). cbv zeta.
  destruct (batch_end _ _ _ _ _ _ L' A) as (Hbc & _ & _). pose proof (batch_is_small _ _ _ _ _ _ L' A) as Hsm. cbv zeta in Hsm.
  destruct (c_offset_spec _ (pos_a k) _ _ _ _ _ L' A Ha) as (Hco & Hco' & Ha' & ma & Hma & Hmad).
  pose proof (fun off' => positions_next _ _ _ _ _ _ off' L' A Hnt) as Hnext.
  set (c := move_c ctx _ _ _ _) in *. set (c_offset := match members !! c with Some x => _ | None => _ end) in *.
  set (a' := move_a _ _ _ _) in *. pose proof (lay_d _ _ _ L') as Hdl. pose proof (advanced_bound _ _ _ _ _ _ L' A ltac:(lia)) as Hob.
  pose proof (advanced_reach _ _ _ _ _ _ A) as Hreach. pose proof (lay_off _ _ _ L') as Hoff.
  pose proof (thunk_layout_move _ o _ _ d _ offset HL L He Ho Habove) as HL'.
  destruct (erase_step st (thunk_idx0 k) a' ma d offset HT Hti HL' Hma) as (st1 & ti' & E1 & HT1 & Hmk1 & Hof1 & Hrl1 & Hti1 & Hmin).
  change (offs st) with o in E1. rewrite E1. cbn [mbind option_bind]. clear E1.
  destruct (make_thunk_spec st1 ti' (take (c - pos_b k) (drop (pos_b k) members)) (take (pos_b k) members) (drop c members) offset)
    as (st2 & th & offset' & E2 & Hof2 & Hmk2 & Hth & Hthm & Hoff2 & Hsz & HT2 & Hrl2 & Hset).
  { by rewrite Hmk1. } { apply batch_split; lia. } { exact Hsm. }
  { intros x (i & Hi & Hx)%batch_elem. rewrite Hrl1. apply (Htodo i); [lia|done]. }
  { rewrite Hmk1. cbn [st made]. pow2s. lia. } { by rewrite Hmk1. } { lia. }
  rewrite E2. cbn [mbind option_bind]. clear E2. eexists. split; [done|]. cbn [pos_b]. split; [|lia].
  rewrite Hmk1 in *. rewrite Hof1 in *. cbn [st offs made rels] in *.
  pose proof (adv_b _ _ _ _ _ _ A) as [_ Hbd'].
  pose proof (thunk_layout_add o _ d offset th HL' L' ltac:(lia) Hthm Hsz) as HL2. rewrite <- Hmk2, <- Hoff2 in HL2.
  assert (Hend : offset <= offset' <= offset + THUNK) by clia.
  split; cbn [cur pos_a pos_b pos_d off thunk_idx0]; rewrite ?Hof2.
  - apply (layout_raise o d offset); [done|lia|lia].
  - rewrite Hmk2. replace (zlen (made (cur k) ++ [th])) with (zlen (made (cur k)) + 1) by (unfold zlen; rewrite length_app; simpl; lia).
    by apply Hnext.
  - done.
  - lia.
  - exact HT2.
  - rewrite Hmk2, length_app. lia.
  - exact HL2.
  - intros i x Hi Hx. rewrite Hrl2, Hrl1; [apply (Htodo i); [lia|done]|].
    intros (j & Hj & Hxj)%batch_elem. pose proof (members_inj _ _ _ Hx Hxj). lia.
  - intros i x Hi Hx. destruct (decide (i < pos_b k)%nat) as [Hib|Hib].
    + rewrite Hmk2. apply (settled_subsec_mono (offs (cur k)) _ _ _ (rels (cur k))); [done| | |by apply (Hdone i)].
      * apply (layout_assigned _ (pos_d k) (off k) i); [done|lia|done].
      * rewrite Hrl2, Hrl1; [done|]. intros (j & Hj & Hxj)%batch_elem. pose proof (members_inj _ _ _ Hx Hxj). lia.
    + assert (Hxb : x ∈ take (c - pos_b k) (drop (pos_b k) members)) by (apply batch_elem; exists i; split; [lia|done]).
      eapply Forall2_impl_in; [exact (Hset x Hxb)|]. intros r r' Hr Hs.
      destruct (rels_wf x r (list_elem_of_lookup_2 _ _ _ Hx) Hr) as (_ & Hro & _).
      assert (HB : get_offset o mb <= get_offset o x).
      { destruct (decide (i = pos_b k)) as [->|]; [assert (x = mb) as -> by congruence; lia|].
        pose proof (lay_order _ _ _ L' (pos_b k) i mb x ltac:(lia) Hmb Hx). pose proof (member_bounds _ _ Hmb). lia. }
      apply (settled_good o (made st2) ti' d x r r' (get_offset o mb) c_offset offset'); try done.
      * apply (Hco i); [lia|done].
      * lia.
      * intros j t Hj Ht. rewrite Hmk2 in Ht. apply lookup_app_Some in Ht as [Ht|[_ Ht]].
        -- specialize (Hmin j t Hj Ht). lia.
        -- apply list_lookup_singleton_Some in Ht as [_ <-]. clia.
Qed.
(** ** The whole loop *)

Lemma rounds_spec fuel : forall k, invariant k -> (pos_b k <= length members)%nat -> (length members - pos_b k <= fuel)%nat ->
  exists k', rounds m ctx members schedule fuel k = Some k' /\ invariant k' /\ pos_b k' = length members.
Proof.
  induction fuel as [|fuel IH]; intros k Hk Hb Hf; cbn [rounds]; destruct (Nat.ltb_spec (pos_b k) (length members)).
  - lia.
  - exists k. split; [done|]. split; [done|lia].
  - destruct (round_spec k Hk ltac:(done)) as (k' & E & Hk' & Hb'). rewrite E. cbn [mbind option_bind].
    apply IH; [done|lia|lia].
  - exists k. split; [done|]. split; [done|lia].
Qed.

Lemma get_offset_none o l y : get_offset (foldr (fun y => insert y no_offset) o l) y = if decide (y ∈ l) then no_offset else get_offset o y.
Proof.
  induction l as [|x l IH]; cbn [foldr]; [rewrite decide_False by set_solver; done|].
  rewrite get_offset_insert, IH. destruct (decide (x = y)) as [->|]; [by rewrite decide_True by set_solver|].
  destruct (decide (y ∈ l)); [by rewrite decide_True by set_solver|by rewrite decide_False by set_solver].
Qed.

Lemma invariant_start st x rest : members = x :: rest -> (forall s, (thunk_of (sym_thunk st) s).1 = -1) ->
  (forall s, s ∉ needs st) -> (forall y, y ∈ members -> rels st !! y = rels0 !! y) -> made st = [] ->
  invariant (mkCursor (mkState (foldr (fun y => insert y no_offset) (<[x := 0]> (offs st)) rest)
    (sym_thunk st) (needs st) (rels st) (made st)) 0 0 0 0 0).
Proof.
  intros Hm Hs Hn Hr Hmk. assert (Hnd := members_nodup). rewrite Hm in Hnd. apply NoDup_cons in Hnd as [Hx Hnd].
  split; cbn [cur pos_a pos_b pos_d off thunk_idx0 offs sym_thunk needs rels made]; rewrite ?Hmk.
  - split; try (intros; lia).
    intros i y _ Hy. rewrite get_offset_none. destruct i as [|i]; rewrite Hm in Hy; simpl in Hy.
    + injection Hy as <-. rewrite decide_False by done. rewrite get_offset_insert, decide_True by done. right. done.
    + left. rewrite decide_True by (by apply list_elem_of_lookup_2 in Hy). done.
  - split; [rewrite firstn_O; unfold zlen; simpl; lia|]. left. done.
  - lia.
  - lia.
  - split.
    + intros s t j Ht Hne. specialize (Hs s). rewrite Ht in Hs. done.
    + intros i k th s _ Hi. done.
    + intros s. rewrite Hs. specialize (Hn s). tauto.
  - lia.
  - split; intros i *; done.
  - intros i y _ Hy. apply Hr. by apply list_elem_of_lookup_2 in Hy.
  - intros; lia.
Qed.

(** After the last reset no symbol has an entry. *)
Lemma reset_all l : forall st ti, tabs (sym_thunk st) (needs st) (made st) ti -> l = drop ti (made st) ->
  let st' := foldr reset_thunk st (reverse l) in
  offs st' = offs st /\ made st' = made st /\ rels st' = rels st /\ forall s, (thunk_of (sym_thunk st') s).1 = -1.
Proof.
  induction l as [|th l IH]; intros st ti HT Hl; cbv zeta.
  - cbn [reverse rev_append foldr]. do 3 (split; [done|]). intros s. destruct (thunk_of (sym_thunk st) s) as [t j] eqn:E.
    destruct (decide (t = -1)) as [|Hne]; [done|]. destruct (tab_entry _ _ _ _ HT s t j E Hne) as (i & k & th & _ & _ & Hi & Hth & _).
    apply lookup_lt_Some in Hth. apply (f_equal length) in Hl. rewrite length_drop in Hl. simpl in Hl. lia.
  - assert (Hth : made st !! ti = Some th) by (rewrite <- (Nat.add_0_r ti), <- lookup_drop, <- Hl; done).
    assert (Hl' : l = drop (S ti) (made st)) by (rewrite <- Nat.add_1_r, <- drop_drop, <- Hl; done).
    rewrite reverse_cons, foldr_app. cbn [foldr].
    destruct (IH (reset_thunk th st) (S ti) (reset_tabs st ti th HT Hth) Hl') as (H1 & H2 & H3 & H4). done.
Qed.

Lemma create_spec st : members ≠ [] -> (forall s, (thunk_of (sym_thunk st) s).1 = -1) ->
  (forall s, s ∉ needs st) -> (forall y, y ∈ members -> rels st !! y = rels0 !! y) -> made st = [] ->
  exists st' sz, create_range_extension_thunks m ctx members schedule st = Some (st', sz) /\
    layout (offs st') (length members) sz /\ thunk_layout (offs st') (made st') (length members) sz /\
    (forall x, x ∈ members -> settled_subsec (offs st') (made st') (rels st') x) /\
    (forall s, (thunk_of (sym_thunk st') s).1 = -1).
Proof.
  intros Hne Hs Hn Hr Hmk.
  assert (exists x rest, members = x :: rest) as (x & rest & Em) by (destruct members as [|x rest]; [done|by exists x, rest]).
  rewrite (create_cons m ctx members schedule st x rest Em).
  destruct (rounds_spec (length members) _ (invariant_start st x rest Em Hs Hn Hr Hmk) ltac:(simpl; lia) ltac:(simpl; lia)) as (k & E & Hk & Hb).
  rewrite E. cbn [mbind option_bind]. eexists _, _. split; [done|].
  destruct (reset_all _ (cur k) (thunk_idx0 k) (inv_tabs _ Hk) eq_refl) as (H1 & H2 & H3 & H4). rewrite H1, H2, H3.
  assert (Hd : pos_d k = length members).
  { pose proof (inv_bd _ Hk). pose proof (lay_d _ _ _ (inv_layout _ Hk)). lia. }
  rewrite <- Hd. split; [apply Hk|]. split; [apply Hk|]. split; [|done].
  intros y [i Hi]%list_elem_of_lookup. apply (inv_done _ Hk i); [|done]. apply lookup_lt_Some in Hi. lia.
Qed.
End Proof.

(** ** Properties *)

(** The assumptions of the proof, for a code section [osec_id] at [base] with the
    relocations [rels0]. *)
Record input_ok (ctx : Context) (members : list Z) (osec_id base : Z) (rels0 : gmap Z (list Relocation)) : Prop := {
  ok_nodup : NoDup members;
  ok_osec : forall x, x ∈ members -> exists s, subsecs ctx !! x = Some s /\ osec s = osec_id;
  ok_size : forall x, x ∈ members -> 0 <= size_of ctx x <= MAX_SUBSEC;
  ok_align : forall x, x ∈ members -> exists p, 0 <= p <= 15 /\ align_of ctx x = 2 ^ p;
  ok_total : sum (fun x => size_of ctx x + align_of ctx x) members <= 2 ^ 30;
  ok_base : osec_addr ctx !! osec_id = Some base;
  ok_rels : forall x r, x ∈ members -> r ∈ default [] (rels0 !! x) ->
    thunk_idx r = -1 /\ 0 <= offset r <= size_of ctx x /\ exists s sym, target r = RelSym s /\ symbols ctx !! s = Some sym;
  ok_syms : forall s sym y, symbols ctx !! s = Some sym -> subsec sym = Some y ->
    exists sy, subsecs ctx !! y = Some sy /\ is_Some (osec_addr ctx !! osec sy);
  ok_small : forall pre batch post, members = pre ++ batch ++ post ->
    length batch = 1%nat \/ sum (size_of ctx) batch <= BATCH_SIZE ->
    Z.of_nat (base.size (list_to_set (batch_syms rels0 batch) : gset Z)) <= 8533 }.

(** The state before the pass: no thunks, entries or flags. *)
Definition fresh (st : state) : Prop :=
  (forall s, (thunk_of (sym_thunk st) s).1 = -1) /\ (forall s, s ∉ needs st) /\ made st = [].

(** C22: for subsections of at most 32 MiB, together 1 GiB, whose batches call few
    enough symbols for a thunk to stay below its assumed size, the pass
    terminates, whatever order the parallel scan collects symbols in. It gives
    every member an aligned offset, in order and without overlap; the thunks lie
    between members; and every branch of every member can reach its target, or an
    entry for its symbol in a thunk, within the 128 MiB of a branch instruction.
    Afterwards no symbol is left with an entry number. *)
Theorem thunks_in_reach (m : machine) (ctx : Context) (members : list Z) (schedule : list Z -> list Z)
    (osec_id base : Z) (st : state) :
  members ≠ [] -> (forall l, schedule l ≡ₚ l) -> input_ok ctx members osec_id base (rels st) -> fresh st ->
  exists st' sz, create_range_extension_thunks m ctx members schedule st = Some (st', sz) /\
    layout ctx members (offs st') (length members) sz /\
    thunk_layout ctx members (offs st') (made st') (length members) sz /\
    (forall x, x ∈ members -> settled_subsec m ctx (rels st) (offs st') (made st') (rels st') x) /\
    (forall s, (thunk_of (sym_thunk st') s).1 = -1).
Proof.
  intros Hne Hperm [H1 H2 H3 H4 H5 H6 H7 H8 H9] (Hs & Hn & Hm). by eapply create_spec.
Qed.

(** Two functions: the first calls a function of another section, the second
    calls the first. *)
Definition sample : Context :=
  {| symbols := {[ 7 := {| file := Some 0; subsec := None; value := 0x180000000; stub_idx := -1; got_idx := -1; tlv_idx := -1;
                           is_imported := false; priority := 1 |};
                   8 := {| file := Some 0; subsec := Some 1; value := 0; stub_idx := -1; got_idx := -1; tlv_idx := -1;
                           is_imported := false; priority := 1 |} ]};
     subsecs := {[ 1 := {| osec := 5; hdr_type := 0; input_size := 8; p2align := 2 |};
                   2 := {| osec := 5; hdr_type := 0; input_size := 12; p2align := 4 |} ]};
     output_offset := ∅; osec_addr := {[ 5 := 0x100004000 ]}; thunks := ∅;
     stubs_addr := 0; got_addr := 0; thread_ptrs_addr := 0; tls_begin := 0 |}.

Definition sample_state : state :=
  {| offs := ∅; sym_thunk := ∅; needs := ∅; made := [];
     rels := {[ 1 := [mkRel (RelSym 7) 0 4 2 4 (-1) (-1)]; 2 := [mkRel (RelSym 8) 0 4 2 4 (-1) (-1)] ]} |}.

(** Few symbols in all are few in each batch. *)
Lemma small_total ctx members rels0 : Z.of_nat (base.size (list_to_set (batch_syms rels0 members) : gset Z)) <= 8533 ->
  forall pre batch post, members = pre ++ batch ++ post ->
    length batch = 1%nat \/ sum (size_of ctx) batch <= BATCH_SIZE ->
    Z.of_nat (base.size (list_to_set (batch_syms rels0 batch) : gset Z)) <= 8533.
Proof.
  intros H pre batch post -> _. etransitivity; [|exact H]. apply inj_le, subseteq_size. unfold batch_syms.
  rewrite !map_app, !concat_app. set_solver.
Qed.

Lemma sample_ok : input_ok sample [1; 2] 5 0x100004000 (rels sample_state).
Proof.
  split.
  - decided.
  - intros x [->|[->|[]%elem_of_nil]%elem_of_cons]%elem_of_cons; by eexists.
  - intros x [->|[->|[]%elem_of_nil]%elem_of_cons]%elem_of_cons; vm_compute; split; congruence.
  - intros x [->|[->|[]%elem_of_nil]%elem_of_cons]%elem_of_cons; [exists 2|exists 4]; (split; [lia|reflexivity]).
  - vm_compute. congruence.
  - reflexivity.
  - intros x r [->|[->|[]%elem_of_nil]%elem_of_cons]%elem_of_cons; vm_compute; intros Hr;
      apply list_elem_of_singleton in Hr as ->; (split; [done|]); (split; [split; congruence|]); by eexists _, _.
  - intros s sym y Hs Hy. unfold sample in Hs. cbn [symbols] in Hs.
    apply lookup_insert_Some in Hs as [[<- <-]|[_ Hs]]; [done|].
    apply lookup_singleton_Some in Hs as [<- <-]. injection Hy as <-. by eexists.
  - apply small_total. vm_compute. congruence.
Qed.

Lemma thunks_in_reach_witness :
  exists st' sz, create_range_extension_thunks ARM64 sample [1; 2] reverse sample_state = Some (st', sz) /\
    layout sample [1; 2] (offs st') (length [1; 2]) sz /\
    thunk_layout sample [1; 2] (offs st') (made st') (length [1; 2]) sz /\
    (forall x, x ∈ [1; 2] -> settled_subsec ARM64 sample (rels sample_state) (offs st') (made st') (rels st') x) /\
    (forall s, (thunk_of (sym_thunk st') s).1 = -1).
Proof.
  apply (thunks_in_reach ARM64 sample [1; 2] reverse 5 0x100004000 sample_state).
  - done.
  - intros l. by rewrite reverse_Permutation.
  - exact sample_ok.
  - split; [done|]. split; [set_solver|done].
Defined.

(** The bound on the size of a subsection matters. [m[c]->output_offset +
    m[c]->input_size] wraps for a member without an offset, so when D cannot place
    a large member, C may run past D: here a section with members of 60, 64, 64
    MiB and four bytes is left with its last two members unplaced. *)
Definition large : Context :=
  {| symbols := ∅;
     subsecs := list_to_map [ (1, {| osec := 5; hdr_type := 0; input_size := 60 * 2 ^ 20; p2align := 2 |});
       (2, {| osec := 5; hdr_type := 0; input_size := 64 * 2 ^ 20; p2align := 2 |});
       (3, {| osec := 5; hdr_type := 0; input_size := 64 * 2 ^ 20; p2align := 2 |});
       (4, {| osec := 5; hdr_type := 0; input_size := 4; p2align := 2 |}) ];
     output_offset := ∅; osec_addr := {[ 5 := 0x100004000 ]}; thunks := ∅;
     stubs_addr := 0; got_addr := 0; thread_ptrs_addr := 0; tls_begin := 0 |}.

Example large_members_unplaced :
  (fun '(st, sz) => (map (get_offset (offs st)) [1; 2; 3; 4], sz)) <$>
    create_range_extension_thunks ARM64 large [1; 2; 3; 4] id
      {| offs := ∅; sym_thunk := ∅; needs := ∅; rels := ∅; made := [] |} =
  Some ([0; 60 * 2 ^ 20; no_offset; no_offset], 124 * 2 ^ 20).
Proof. vm_compute. reflexivity. Qed.
