(* ===== verification/Calls.v ===== *)
(** * Calls through relocations and thunks

    The components of the previous files together: the layout that
    [create_range_extension_thunks] makes, the relocations that [apply_reloc]
    writes with it and the code of the thunks. Executing any relocated branch of a
    code section arrives at its target. *)

From S2P Require Import Prelude Bits Enums MachoTypes Link A64 Arm64 Thunks.
Local Open Scope list_scope.
Local Open Scope Z_scope.

(** What holds of the context in which the relocations are applied, after the pass
    that left [st] for the section [o] at [base]: that section's offsets, address
    and thunks are the pass's; those of other sections may have come later, and
    so may the address of the stubs. *)
Record final_context (ctx : Context) (o base : Z) (st : state) (ctxf : Context) : Prop := {
  fin_symbols : symbols ctxf = symbols ctx;
  fin_subsecs : subsecs ctxf = subsecs ctx;
  fin_base : osec_addr ctxf !! o = Some base;
  fin_offsets : forall y sy, subsecs ctx !! y = Some sy -> osec sy = o ->
    get_offset (output_offset ctxf) y = get_offset (offs st) y;
  fin_thunks : Link.thunks ctxf !! o = Some (made st);
  fin_stubs : stubs_addr ctx = 0 \/ stubs_addr ctxf = stubs_addr ctx }.

Lemma units_elem ctx n : forall rels r, (length rels <= n)%nat -> (r, None) ∈ units ctx rels ->
  r ∈ rels /\ default false (undefined ctx r) = false.
Proof.
  induction n as [|n IH]; intros [|x rels] r Hn Hin; simpl in *; try lia; try by apply not_elem_of_nil in Hin.
  destruct (default false (undefined ctx x)) eqn:Eu.
  { destruct (IH rels r ltac:(lia) Hin). split; [by right|done]. }
  destruct (type x =? ARM64_RELOC_ "SUBTRACTOR").
  - destruct rels as [|u rels]; [by apply not_elem_of_nil in Hin|]. apply elem_of_cons in Hin as [Hin|Hin]; [done|].
    destruct (IH rels r ltac:(simpl in *; lia) Hin). split; [by do 2 right|done].
  - apply elem_of_cons in Hin as [[= ->]|Hin]; [split; [by left|done]|].
    destruct (IH rels r ltac:(lia) Hin). split; [by right|done].
Qed.

(** A target the pass found reachable is so in the final layout. *)
Lemma reachable_final m ctx o base st ctxf x s sym r S P : final_context ctx o base st ctxf ->
  (exists sx, subsecs ctx !! x = Some sx /\ osec sx = o) -> osec_addr ctx !! o = Some base ->
  symbols ctx !! s = Some sym -> rel_sym r = Some s ->
  rel_addr m ctxf r = Some S -> subsec_addr ctxf x = Some P ->
  is_reachable m ctx (offs st) sym x r = Some true -> branch_range (i64 (S + addend r - u64 (P + offset r))).
Proof.
  intros F (sx & Hsx & Hox) Hb Hs Hr HS HP H.
  assert (HP' : subsec_addr (with_offsets ctx (offs st)) x = Some P).
  { rewrite <- HP. unfold subsec_addr. cbn [with_offsets subsecs osec_addr output_offset]. rewrite (fin_subsecs _ _ _ _ _ F), Hsx.
    cbn [mbind option_bind]. rewrite Hox, Hb, (fin_base _ _ _ _ _ F). cbn [mbind option_bind].
    by rewrite (fin_offsets _ _ _ _ _ F x sx). }
  assert (HS' : symbol_addr m ctxf sym = Some S).
  { unfold rel_addr, rel_sym in *. destruct (target r); [|done]. injection Hr as ->.
    rewrite (fin_symbols _ _ _ _ _ F), Hs in HS. exact HS. }
  assert (Hrange : forall addr, symbol_addr m (with_offsets ctx (offs st)) sym = Some addr ->
    (- 2 ^ 27 <=? i64 (addr + addend r - (P + offset r))) && (i64 (addr + addend r - (P + offset r)) <? 2 ^ 27) = true ->
    addr = S -> branch_range (i64 (S + addend r - u64 (P + offset r)))).
  { intros addr _ Hv ->. unfold branch_range. replace (i64 (S + addend r - u64 (P + offset r))) with (i64 (S + addend r - (P + offset r))); [lia|].
    unfold i64. rewrite <- (swrap_wrap 64), <- (swrap_wrap 64 (S + addend r - u64 _)) by lia. f_equal. symmetry. apply u64_sub_r. }
  unfold is_reachable in H. rewrite HP' in H. unfold symbol_addr in HS', Hrange.
  cbn [with_offsets stubs_addr] in Hrange. destruct (has_stub sym) eqn:Est.
  - cbn [with_offsets stubs_addr] in H. destruct (Z.eqb_spec (stubs_addr ctx) 0); [done|].
    unfold symbol_addr in H. rewrite Est in H. cbn [mbind option_bind with_offsets stubs_addr] in H. injection H as H.
    apply (Hrange _ eq_refl H). injection HS' as <-. destruct (fin_stubs _ _ _ _ _ F) as [?| ->]; done.
  - destruct (subsec sym) as [y|] eqn:Ey; [|done]. destruct (subsecs ctx !! y) as [sy|] eqn:Esy; [|done].
    cbn [mbind option_bind] in H. rewrite Hsx in H. cbn [mbind option_bind] in H.
    destruct (Z.eqb_spec (osec sy) (osec sx)) as [Hoy|]; [|done]. cbn [negb] in H.
    destruct (get_offset (offs st) y =? no_offset); [done|]. rewrite Hox in Hoy.
    assert (Hy : subsec_addr (with_offsets ctx (offs st)) y = subsec_addr ctxf y).
    { unfold subsec_addr. cbn [with_offsets subsecs osec_addr output_offset]. rewrite (fin_subsecs _ _ _ _ _ F), Esy.
      cbn [mbind option_bind]. rewrite Hoy, Hb, (fin_base _ _ _ _ _ F). cbn [mbind option_bind].
      by rewrite (fin_offsets _ _ _ _ _ F y sy). }
    unfold symbol_addr in H. rewrite Est, Ey, Hy in H. rewrite Hy in Hrange.
    destruct (subsec_addr ctxf y) as [ya|]; [|done]. cbn [mbind option_bind] in *. injection H as H.
    injection HS' as <-. by apply (Hrange _ eq_refl H).
Qed.

(** The entry of a relocation, in the final layout: its address is within reach
    of the branch and holds the code that jumps to the symbol. *)
Lemma entry_final ctx members rels0 o base st sz ctxf x r P s sym (i k : nat) th : final_context ctx o base st ctxf ->
  thunk_layout ctx members (offs st) (made st) (length members) sz -> base mod 4 = 0 ->
  osec_addr ctx !! o = Some base -> input_ok ctx members o base rels0 -> x ∈ members ->
  subsec_addr ctxf x = Some P -> symbols ctx !! s = Some sym -> code_addr (u64 (P + offset r)) ->
  thunk_idx r = Z.of_nat i -> thunk_sym_idx r = Z.of_nat k -> made st !! i = Some th -> thunk_symbols th !! k = Some s ->
  - 2 ^ 27 <= thunk_offset th + ENTRY_SIZE * Z.of_nat k - (get_offset (offs st) x + offset r) < 2 ^ 27 ->
  exists e, nth_thunk_addr ctxf o (thunk_idx r) (thunk_sym_idx r) = Some e /\ thunk_addr ctxf o th (Z.of_nat k) = Some e /\
    code_addr e /\ branch_range (i64 (e - u64 (P + offset r))).
Proof.
  intros F HL Hb4 Hb Hok Hx HP Hs Hc Hi Hk Hth Hsym Hr.
  exists (u64 (base + thunk_offset th + Z.of_nat k * ENTRY_SIZE)).
  assert (E : thunk_addr ctxf o th (Z.of_nat k) = Some (u64 (base + thunk_offset th + Z.of_nat k * ENTRY_SIZE))).
  { unfold thunk_addr. by rewrite (fin_base _ _ _ _ _ F). }
  split; [|split; [done|split]].
  - unfold nth_thunk_addr. rewrite Hi, Hk. destruct (Z.ltb_spec (Z.of_nat i) 0); [lia|].
    rewrite (fin_thunks _ _ _ _ _ F). cbn [mbind option_bind]. by rewrite Nat2Z.id, Hth.
  - destruct (tl_in _ _ _ _ _ _ HL i th Hth) as (_ & Hal & _). split; [apply wrap_range; lia|].
    change 4 with (2 ^ 2). rewrite u64_mod by lia. change (2 ^ 2) with 4. unfold ALIGNMENT, ENTRY_SIZE in *. dlia.
  - destruct (ok_osec _ _ _ _ _ Hok x Hx) as (sx & Hsx & Hox).
    unfold subsec_addr in HP. rewrite (fin_subsecs _ _ _ _ _ F), Hsx in HP. cbn [mbind option_bind] in HP.
    rewrite Hox, (fin_base _ _ _ _ _ F) in HP. cbn [mbind option_bind] in HP. injection HP as <-.
    rewrite (fin_offsets _ _ _ _ _ F x sx Hsx Hox).
    replace (i64 _) with (thunk_offset th + ENTRY_SIZE * Z.of_nat k - (get_offset (offs st) x + offset r)); [exact Hr|].
    symmetry. rewrite u64_add_l. unfold i64. rewrite <- (swrap_wrap 64) by lia. fold u64. rewrite u64_sub_l, u64_sub_r.
    unfold u64. rewrite swrap_wrap by lia. rewrite swrap_small; [lia|lia|]. unfold is_s. pow2s. lia.
Qed.

(** What the pass left of a branch relocation. *)
Lemma call_facts m ctx members schedule o base st st' sz ctxf x r S :
  members ≠ [] -> (forall l, schedule l ≡ₚ l) -> input_ok ctx members o base (rels st) -> fresh st ->
  create_range_extension_thunks m ctx members schedule st = Some (st', sz) -> final_context ctx o base st' ctxf ->
  x ∈ members -> (r, None) ∈ units ctxf (default [] (rels st' !! x)) -> type r = ARM64_RELOC_ "BRANCH26" ->
  rel_addr m ctxf r = Some S ->
  thunk_layout ctx members (offs st') (made st') (length members) sz /\
  exists s sym, rel_sym r = Some s /\ symbols ctx !! s = Some sym /\ symbol_addr m ctxf sym = Some S /\
    (is_reachable m ctx (offs st') sym x r = Some true \/
     exists (i k : nat) th, thunk_idx r = Z.of_nat i /\ thunk_sym_idx r = Z.of_nat k /\ made st' !! i = Some th /\
       thunk_symbols th !! k = Some s /\
       - 2 ^ 27 <= thunk_offset th + ENTRY_SIZE * Z.of_nat k - (get_offset (offs st') x + offset r) < 2 ^ 27).
Proof.
  intros Hne Hperm Hok Hfresh Hcreate F Hx Hin Ht HS.
  assert (Hspec : thunk_layout ctx members (offs st') (made st') (length members) sz /\
    settled_subsec m ctx (rels st) (offs st') (made st') (rels st') x).
  { destruct Hok as [H1 H2 H3 H4 H5 H6 H7 H8 H9]. destruct Hfresh as (Hs & Hn & Hmk).
    edestruct create_spec as (st2 & sz2 & E2 & _ & HL & Hset & _); [exact Hperm|exact H1|exact H2|exact H3|exact H4|exact H5|exact H6
      |exact H7|exact H8|exact H9|exact Hne|exact Hs|exact Hn|intros; reflexivity|exact Hmk|].
    rewrite Hcreate in E2. injection E2 as <- <-. split; [done|by apply Hset]. }
  destruct Hspec as [HL Hset]. split; [done|].
  destruct (units_elem ctxf _ _ r (Nat.le_refl _) Hin) as [Hr Hundef].
  destruct (proj1 (list_elem_of_lookup _ _) Hr) as [j Hj].
  destruct (Forall2_lookup_r _ _ _ _ _ Hset Hj) as (r0 & Hr0 & Hsame & Hgood).
  destruct (ok_rels _ _ _ _ _ Hok x r0 Hx (list_elem_of_lookup_2 _ _ _ Hr0)) as (_ & _ & s & sym & Htgt & Hsym).
  assert (Hrt : target r = RelSym s) by (rewrite Hsame; exact Htgt).
  assert (Hrs : rel_sym r = Some s) by (unfold rel_sym; by rewrite Hrt).
  exists s, sym. split; [done|]. split; [done|]. split.
  { unfold rel_addr in HS. rewrite Hrt, (fin_symbols _ _ _ _ _ F), Hsym in HS. exact HS. }
  apply (Hgood s sym Hrs Hsym).
  - unfold is_branch. rewrite Ht. reflexivity.
  - unfold undefined in Hundef. rewrite Hrt, (fin_symbols _ _ _ _ _ F), Hsym in Hundef. simpl in Hundef.
    by case_bool_decide.
Qed.

Lemma branch_val_direct ctxf x r S P : branch_range (i64 (S + addend r - P)) ->
  branch_val ctxf x r S P = Some (i64 (S + addend r - P)).
Proof.
  unfold branch_range, branch_val. intros Hr. cbv zeta.
  destruct ((_ <? _) || _) eqn:E; [lia|done].
Qed.

Lemma branch_val_far ctxf x r S P e sx : ~ branch_range (i64 (S + addend r - P)) -> subsecs ctxf !! x = Some sx ->
  nth_thunk_addr ctxf (osec sx) (thunk_idx r) (thunk_sym_idx r) = Some e ->
  branch_val ctxf x r S P = Some (i64 (e - P)).
Proof.
  unfold branch_range, branch_val. intros Hr Hx He. cbv zeta.
  destruct ((_ <? _) || _) eqn:E; [|lia]. rewrite Hx. cbn [mbind option_bind]. by rewrite He.
Qed.

(** C23: after the pass, in the final layout, executing any relocated [b] or [bl]
    of the section arrives at its target: at once at S + A, or after the three
    instructions of a thunk entry at S. *)
Theorem calls_land (m : machine) (ctx : Context) (members : list Z) (schedule : list Z -> list Z)
    (o base : Z) (st st' : state) (sz : Z) (ctxf : Context) :
  members ≠ [] -> (forall l, schedule l ≡ₚ l) -> input_ok ctx members o base (rels st) -> fresh st ->
  create_range_extension_thunks m ctx members schedule st = Some (st', sz) ->
  final_context ctx o base st' ctxf -> base mod 4 = 0 ->
  forall x buf buf' errs r w i s S P, x ∈ members ->
    apply_reloc m ctxf x (default [] (rels st' !! x)) buf = Some (buf', errs) ->
    let us := units ctxf (default [] (rels st' !! x)) in
    ForallOrdPairs (apart m) us -> (r, None) ∈ us -> type r = ARM64_RELOC_ "BRANCH26" ->
    read 4 buf (offset r) = Some w -> decode w = Some i -> i = B 0 \/ i = Bl 0 ->
    rel_addr m ctxf r = Some S -> subsec_addr ctxf x = Some P ->
    mapped (mem s) P buf' ->
    (forall th, th ∈ made st' -> exists code, thunk_copy_buf m ctxf o th = Some code /\
       holds (mem s) (u64 (base + thunk_offset th)) code) ->
    pc s = u64 (P + offset r) -> code_addr (pc s) ->
    is_u 64 S -> S mod 4 = 0 -> addend r mod 4 = 0 ->
    (forall e, code_addr e -> branch_range (i64 (e - pc s)) -> adrp_reach S e) ->
    exists r', (run 1 s = Some (A64.mkState (u64 (S + addend r)) r' (mem s)) \/ run 4 s = Some (A64.mkState S r' (mem s))) /\
      forall k, k ≠ 16 -> k ≠ 30 -> r' k = regs s k.
Proof.
  intros Hne Hperm Hok Hfresh Hcreate F Hb4 x buf buf' errs r w i s S P Hx E us Hd Hin Ht Hw Hdec Hi HS HP Hm Hth Hpc Hc HSu HS4 HA4 Hnear.
  destruct (call_facts _ _ _ _ _ _ _ _ _ _ _ _ _ Hne Hperm Hok Hfresh Hcreate F Hx Hin Ht HS) as (HL & sy & sym & Hrs & Hsym & Haddr & Hgood).
  pose proof (ok_base _ _ _ _ _ Hok) as Hb. destruct (ok_osec _ _ _ _ _ Hok x Hx) as (sx & Hsx & Hox). set (pcv := u64 (P + offset r)) in *.
  rewrite Hpc in Hc, Hnear.
  pose proof (fun v => branch_runs _ _ _ _ _ _ _ _ _ _ _ _ pcv v s E Hd Hin Ht Hw Hdec Hi HS HP Hm eq_refl Hpc Hc) as Hrun.
  assert (Hdisp : forall D, D mod 4 = 0 -> i64 (D - pcv) mod 4 = 0) by (intros; apply disp_mod4; [apply Hc|done]).
  destruct (decide (branch_range (i64 (S + addend r - pcv)))) as [Hdir|Hfar].
  - destruct (Hrun _ (branch_val_direct ctxf x r S pcv Hdir) ltac:(apply Hdisp; dlia) Hdir) as (r' & Er & Hk).
    exists r'. split; [left|intros; by apply Hk].
    rewrite <- (i64_u64_sub (S + addend r)), i64_plus in Er by (apply wrap_range; lia). exact Er.
  - destruct Hgood as [Hreach|(ii & k & th & Hti & Htk & Hmk & Hk & Hrange)].
    { destruct Hfar. eapply reachable_final; try done. by exists sx. }
    destruct (entry_final _ _ _ _ _ _ _ _ _ _ _ _ _ _ _ _ F HL Hb4 Hb Hok Hx HP Hsym Hc Hti Htk Hmk Hk Hrange)
      as (e & Hnth & Hea & Hce & Hre).
    destruct (Hrun _ (branch_val_far ctxf x r S pcv e sx Hfar ltac:(by rewrite (fin_subsecs _ _ _ _ _ F)) ltac:(by rewrite Hox))
      ltac:(apply Hdisp, Hce) Hre) as (r1 & E1 & Hk1).
    rewrite i64_plus in E1 by apply Hce.
    destruct (Hth th (list_elem_of_lookup_2 _ _ _ Hmk)) as (code & Hcode & Hmem).
    destruct (thunk_runs m ctxf o th code k sy S e (u64 (base + thunk_offset th)) (A64.mkState e r1 (mem s)) Hcode Hk)
      as (r2 & E2 & Hk2); try done.
    + by rewrite (fin_symbols _ _ _ _ _ F), Hsym.
    + unfold thunk_addr. rewrite (fin_base _ _ _ _ _ F). cbn [mbind option_bind]. do 2 f_equal. lia.
    + by apply Hnear.
    + exists r2. split; [right|intros q H16 H30; rewrite (Hk2 q H16); by apply Hk1].
      rewrite (run_plus 1 3), E1. exact E2.
Qed.

(** Addresses near [pc] are within four gigabytes of a target that is. *)
Lemma near_reach S p : is_u 64 S -> 2 ^ 28 <= p < 2 ^ 63 -> - 2 ^ 31 <= S - p < 2 ^ 31 + 2 ^ 30 ->
  forall e, code_addr e -> branch_range (i64 (e - p)) -> adrp_reach S e.
Proof.
  intros HS Hp Hd e [He _] Hr. unfold branch_range in Hr.
  assert (E : e = p + i64 (e - p)).
  { pose proof (i64_plus p e He) as E. set (d := i64 (e - p)) in *.
    rewrite <- E. apply wrap_small. unfold is_u. pow2s. lia. }
  unfold adrp_reach. rewrite !page_spec by done. dlia.
Qed.

(** The sample of [Thunks], laid out, relocated and in memory. *)
Definition sample_after : Thunks.state * Z :=
  default (sample_state, 0) (create_range_extension_thunks ARM64 Thunks.sample [1; 2] reverse sample_state).

Definition sample_final : Context :=
  {| symbols := symbols Thunks.sample; subsecs := subsecs Thunks.sample; output_offset := offs sample_after.1;
     osec_addr := osec_addr Thunks.sample; Link.thunks := {[ 5 := made sample_after.1 ]};
     stubs_addr := 0; got_addr := 0; thread_ptrs_addr := 0; tls_begin := 0 |}.

Definition sample_text : bytes := concat (map (le_store 4) [0xd503201f; 0x94000000]).

Definition sample_rel : Relocation := mkRel (RelSym 7) 0 4 2 4 0 0.

Definition sample_text' : bytes :=
  default [] (fst <$> apply_reloc ARM64 sample_final 1 [sample_rel] sample_text).

Definition sample_thunk : list Z :=
  default [] (thunk_copy_buf ARM64 sample_final 5 (mkThunk 32 [7])).

Definition sample_memory : Z -> Z :=
  place_bytes 0x100004000 (sample_text' ++ replicate 24 0 ++ concat (map (le_store 4) sample_thunk)).

Lemma calls_land_witness :
  let s := A64.mkState 0x100004004 (fun _ => 0) sample_memory in
  exists r', (run 1 s = Some (A64.mkState 0x180000000 r' (mem s)) \/ run 4 s = Some (A64.mkState 0x180000000 r' (mem s))) /\
    forall k, k ≠ 16 -> k ≠ 30 -> r' k = 0.
Proof.
  intros s. apply (calls_land ARM64 Thunks.sample [1; 2] reverse 5 0x100004000 sample_state sample_after.1 sample_after.2 sample_final)
    with (x := 1) (buf := sample_text) (buf' := sample_text') (errs := []) (r := sample_rel) (w := 0x94000000) (i := Bl 0)
         (S := 0x180000000) (P := 0x100004000).
  - done.
  - intros l. by rewrite reverse_Permutation.
  - exact sample_ok.
  - split; [done|]. split; [set_solver|done].
  - vm_compute. reflexivity.
  - split; try done. by left.
  - reflexivity.
  - by left.
  - vm_compute. reflexivity.
  - decided.
  - apply (list_elem_of_lookup_2 _ 0). vm_compute. reflexivity.
  - reflexivity.
  - reflexivity.
  - reflexivity.
  - by right.
  - reflexivity.
  - vm_compute. reflexivity.
  - apply mapped_check_spec. vm_compute. reflexivity.
  - intros th Hth. assert (made sample_after.1 = [mkThunk 32 [7]]) as E by (vm_compute; reflexivity).
    rewrite E in Hth. apply list_elem_of_singleton in Hth as ->. exists sample_thunk.
    split; [vm_compute; reflexivity|]. apply holds_check_spec. vm_compute. reflexivity.
  - reflexivity.
  - decided.
  - decided.
  - reflexivity.
  - reflexivity.
  - apply near_reach; decided.
Defined.
