(* ===== verification/Segments.v ===== *)
(** * Segment layout (src/macho/output-chunks.cc, lines 546-678; src/macho/main.cc, 1107-1126)

    [assign_offsets] lays the segments out one after the other;
    [OutputSegment::set_offset] gives every chunk of a segment its file offset and
    its address, computes its size, and sets the size of the segment in the file
    and in memory. The virtual method [Chunk::compute_size] is an argument of the
    model: a size that may depend on the chunk's offset and address where they are
    known by then. The theorem: when the loader maps each segment, every chunk's
    bytes appear at its address, and chunks and segments do not overlap. *)

From S2P Require Import Prelude Bits Enums MachoTypes Link.
Local Open Scope list_scope.
Local Open Scope Z_scope.

(** A chunk before layout; [deferred]: it is the string table or the code
    signature, whose size is computed last. *)
Record chunk := mkChunk { chunk_id : Z; hdr_type : Z; hdr_p2align : Z; is_hidden : bool; deferred : bool }.

(** ... and after it, as its header stores it: the offset in 32 bits, the address
    and the size in a word of the target; the offset of a zero-fill chunk is not
    written. *)
Record placed := mkPlaced { the_chunk : chunk; hdr_offset : option Z; hdr_addr : Z; hdr_size : Z }.

Record SegmentCmd := mkSegmentCmd { fileoff : Z; vmaddr : Z; filesize : Z; vmsize : Z }.

Record OutputSegment := mkOutputSegment { is_linkedit : bool; chunks : list chunk }.

Definition S_TYPE (n : string) : Z := constant S_type ("S_" ++ n).

Section Layout.
Context (m : machine) (compute_size : chunk -> option Z -> option Z -> Z).

(** A store to a [Word<E>]. *)
Definition word (x : Z) : Z := wrap (8 * sizeof_word m) x.

Definition is_bss (c : chunk) : bool :=
  (hdr_type c =? S_TYPE "ZEROFILL") || (hdr_type c =? S_TYPE "THREAD_LOCAL_ZEROFILL").

Definition is_tls (c : chunk) : bool :=
  (hdr_type c =? S_TYPE "THREAD_LOCAL_REGULAR") || (hdr_type c =? S_TYPE "THREAD_LOCAL_ZEROFILL").

Definition get_tls_alignment (all : list chunk) : Z :=
  foldl (fun val c => if is_tls c then Z.max val (Z.shiftl 1 (hdr_p2align c)) else val) 1 all.

Definition get_alignment (all : list chunk) (c : chunk) : Z :=
  if is_tls c then get_tls_alignment all
  else if hdr_type c =? S_TYPE "THREAD_LOCAL_VARIABLES" then sizeof_word m
  else Z.shiftl 1 (hdr_p2align c).

(** The first loop of [set_offset_regular], over the chunks that are not zero-fill:
    the chunks placed, those left, and the ends in the file and in memory. *)
Fixpoint place_file (all l : list chunk) (fo va : Z) : list placed * list chunk * Z * Z :=
  match l with
  | [] => ([], [], fo, va)
  | c :: l' =>
      if is_bss c then ([], l, fo, va)
      else
        let fo := align_to fo (get_alignment all c) in
        let va := align_to va (get_alignment all c) in
        let size := word (compute_size c (Some fo) (Some va)) in
        let '(ps, rest, fo', va') := place_file all l' (i64 (fo + size)) (u64 (va + size)) in
        (mkPlaced c (Some (u32 fo)) (word va) size :: ps, rest, fo', va')
  end.

(** The second loop; that the rest is zero-fill is asserted. *)
Fixpoint place_bss (all l : list chunk) (va : Z) : list placed * Z :=
  match l with
  | [] => ([], va)
  | c :: l' =>
      let va := align_to va (get_alignment all c) in
      let size := word (compute_size c None (Some va)) in
      let '(ps, va') := place_bss all l' (u64 (va + size)) in
      (mkPlaced c None (word va) size :: ps, va')
  end.

Definition page : Z := page_size (target_of m).

Definition set_offset_regular (l : list chunk) (fo va : Z) : list placed * SegmentCmd :=
  let '(ps, rest, fo', va') := place_file l l fo va in
  let '(bs, va'') := place_bss l rest va' in
  let fileoff := word fo in
  let vmaddr := word va in
  (ps ++ bs, mkSegmentCmd fileoff vmaddr (word (align_to (u64 (fo' - fileoff)) page))
                          (word (align_to (u64 (va'' - vmaddr)) page))).

(** The loop of [set_offset_linkedit]; the sizes of the chunks that are not
    deferred are computed before any has an offset. *)
Fixpoint place_linkedit (l : list chunk) (fo va : Z) : list placed * Z * Z :=
  match l with
  | [] => ([], fo, va)
  | c :: l' =>
      let fo := align_to fo (Z.shiftl 1 (hdr_p2align c)) in
      let va := align_to va (Z.shiftl 1 (hdr_p2align c)) in
      let size := word (if deferred c then compute_size c (Some fo) (Some va) else compute_size c None None) in
      let '(ps, fo', va') := place_linkedit l' (i64 (fo + size)) (u64 (va + size)) in
      (mkPlaced c (Some (u32 fo)) (word va) size :: ps, fo', va')
  end.

Definition set_offset_linkedit (l : list chunk) (fo va : Z) : list placed * SegmentCmd :=
  let '(ps, fo', va') := place_linkedit l fo va in
  let fileoff := word fo in
  let vmaddr := word va in
  (ps, mkSegmentCmd fileoff vmaddr (word (fo' - fileoff)) (word (align_to (u64 (va' - vmaddr)) page))).

Definition set_offset (s : OutputSegment) (fo va : Z) : list placed * SegmentCmd :=
  if is_linkedit s then set_offset_linkedit (chunks s) fo va else set_offset_regular (chunks s) fo va.

(** The second loop of [assign_offsets]: the laid-out segments and the size of the
    output file. *)
Fixpoint assign_segments (segs : list OutputSegment) (fo va : Z) : list (list placed * SegmentCmd) * Z :=
  match segs with
  | [] => ([], fo)
  | s :: segs' =>
      let '(ps, cmd) := set_offset s fo (u64 va) in
      let '(l, out) := assign_segments segs' (i64 (fo + filesize cmd)) (i64 (va + vmsize cmd)) in
      ((ps, cmd) :: l, out)
  end.

Definition assign_offsets (segs : list OutputSegment) (pagezero_size : Z) : list (list placed * SegmentCmd) * Z :=
  assign_segments segs 0 pagezero_size.

(** Its first loop numbers the chunks that are not hidden, from 1. *)
Fixpoint number_chunks (idx : Z) (l : list chunk) : list (option Z) :=
  match l with
  | [] => []
  | c :: l' => if is_hidden c then None :: number_chunks idx l' else Some idx :: number_chunks (idx + 1) l'
  end.

Definition sect_indices (segs : list OutputSegment) : list (option Z) := number_chunks 1 (concat (map chunks segs)).
End Layout.

(** [get_tls_begin]: the address of the first thread-local chunk. *)
Definition get_tls_begin (l : list (list placed * SegmentCmd)) : Z :=
  match List.find (fun p => is_tls (the_chunk p)) (concat (map fst l)) with
  | Some p => hdr_addr p
  | None => 0
  end.

(** ** What a layout must satisfy *)

(** Chunks follow each other from [lo] to [hi] without overlap. *)
Fixpoint chain (lo : Z) (ps : list placed) (hi : Z) : Prop :=
  match ps with
  | [] => lo <= hi
  | p :: ps' => lo <= hdr_addr p /\ 0 <= hdr_size p /\ chain (hdr_addr p + hdr_size p) ps' hi
  end.

(** A chunk with contents is at the same distance from the start of its segment in
    the file as in memory, so that mapping the segment puts it at its address; one
    without is beyond the contents. *)
Definition mapped_at (cmd : SegmentCmd) (p : placed) : Prop :=
  match hdr_offset p with
  | Some o => o - fileoff cmd = hdr_addr p - vmaddr cmd /\ o + hdr_size p <= fileoff cmd + filesize cmd
  | None => is_bss (the_chunk p) = true
  end.

Record segment_ok (m : machine) (s : OutputSegment) (ps : list placed) (cmd : SegmentCmd) : Prop := {
  seg_chunks : map the_chunk ps = chunks s;
  seg_chain : chain (vmaddr cmd) ps (vmaddr cmd + vmsize cmd);
  seg_aligned : Forall (fun p => hdr_addr p mod (if is_linkedit s then Z.shiftl 1 (hdr_p2align (the_chunk p))
                                               else get_alignment m (chunks s) (the_chunk p)) = 0) ps;
  seg_mapped : Forall (mapped_at cmd) ps;
  seg_start : fileoff cmd mod page m = 0 /\ vmaddr cmd mod page m = 0;
  seg_size : vmsize cmd mod page m = 0 /\ (is_linkedit s = false -> filesize cmd mod page m = 0) /\
    0 <= filesize cmd <= vmsize cmd }.

(** Segments follow each other in the file and in memory. *)
Fixpoint consecutive (m : machine) (segs : list OutputSegment) (l : list (list placed * SegmentCmd)) (fo va out : Z) : Prop :=
  match segs, l with
  | [], [] => out = fo
  | s :: segs', (ps, cmd) :: l' =>
      fileoff cmd = fo /\ vmaddr cmd = va /\ segment_ok m s ps cmd /\
      consecutive m segs' l' (fo + filesize cmd) (va + vmsize cmd) out
  | _, _ => False
  end.

(** In a regular segment the zero-fill chunks come last. *)
Fixpoint bss_last (l : list chunk) : bool :=
  match l with
  | [] => true
  | c :: l' => if is_bss c then forallb is_bss l' else bss_last l'
  end.

(** [__LINKEDIT] is the last segment. *)
Fixpoint linkedit_last (segs : list OutputSegment) : bool :=
  match segs with
  | [] => true
  | [s] => is_linkedit s || bss_last (chunks s)
  | s :: segs' => negb (is_linkedit s) && bss_last (chunks s) && linkedit_last segs'
  end.

(** The page size is 2^[pg]; addresses are below [addr_limit]. *)
Definition pg (m : machine) : Z := match m with X86_64 => 12 | _ => 14 end.
Definition addr_limit (m : machine) : Z := match m with ARM64_32 => 2 ^ 32 | _ => 2 ^ 62 end.

Definition chunk_ok (m : machine) (c : chunk) : Prop := 0 <= hdr_p2align c <= pg m.

(** A bound on the file and memory that chunks and segments can take. *)
Fixpoint need (bound : chunk -> Z) (l : list chunk) : Z :=
  match l with [] => 0 | c :: l' => bound c + 2 ^ 14 + need bound l' end.
Fixpoint need_segs (bound : chunk -> Z) (segs : list OutputSegment) : Z :=
  match segs with [] => 0 | s :: segs' => need bound (chunks s) + 2 ^ 14 + need_segs bound segs' end.

Section Proofs.
Context (m : machine) (compute_size : chunk -> option Z -> option Z -> Z) (bound : chunk -> Z).
Hypothesis size_bound : forall c o a, 0 <= compute_size c o a <= bound c.


Lemma page_pow : page m = 2 ^ pg m /\ 12 <= pg m <= 14.
Proof. unfold page, pg. destruct m; split; (reflexivity || lia). Qed.

Lemma limit_le : 2 ^ 32 <= addr_limit m <= 2 ^ 62.
Proof. unfold addr_limit. destruct m; lia. Qed.

Lemma word_id x : 0 <= x < addr_limit m -> word m x = x.
Proof.
  intros H. apply wrap_small. unfold is_u, addr_limit, sizeof_word in *.
  destruct m; simpl Z.mul; pow2s; lia.
Qed.

Lemma i64_nonneg x : 0 <= x < 2 ^ 63 -> i64 x = x.
Proof. intros. apply swrap_small; [lia|]. unfold is_s. pow2s. simpl Z.sub. lia. Qed.

Lemma u64_nonneg x : 0 <= x < 2 ^ 63 -> u64 x = x.
Proof. intros. apply wrap_small. unfold is_u. pow2s. lia. Qed.

Lemma u32_nonneg x : 0 <= x < 2 ^ 32 -> u32 x = x.
Proof. intros. by apply wrap_small. Qed.

Lemma need_nonneg l : 0 <= need bound l.
Proof. induction l as [|c l IH]; simpl; [done|]. specialize (size_bound c None None). lia. Qed.

Lemma tls_alignment_from (all : list chunk) v : Forall (chunk_ok m) all -> (exists k, 0 <= k <= pg m /\ v = 2 ^ k) ->
  exists k, 0 <= k <= pg m /\
    foldl (fun val c => if is_tls c then Z.max val (Z.shiftl 1 (hdr_p2align c)) else val) v all = 2 ^ k.
Proof.
  revert v. induction all as [|c all IH]; intros v Hall Hv; simpl; [done|].
  apply Forall_cons in Hall as [Hc Hall]. apply IH; [done|]. destruct (is_tls c); [|done].
  destruct Hv as (k & Hk & ->). rewrite Z.shiftl_1_l. unfold chunk_ok in Hc.
  destruct (Z.max_spec (2 ^ k) (2 ^ hdr_p2align c)) as [[_ ->]|[_ ->]]; eauto.
Qed.

Lemma alignment_pow all c : Forall (chunk_ok m) all -> chunk_ok m c -> exists k, 0 <= k <= pg m /\ get_alignment m all c = 2 ^ k.
Proof.
  intros Hall Hc. unfold get_alignment. destruct page_pow as [_ Hpg]. destruct (is_tls c).
  - apply tls_alignment_from; [done|]. exists 0. split; [lia|done].
  - case_match; [|exists (hdr_p2align c); split; [done|by rewrite Z.shiftl_1_l]].
    unfold sizeof_word, pg. destruct m; [exists 3|exists 2|exists 3]; (split; [lia|done]).
Qed.

(** Aligning at the same distance from two page boundaries. *)
Lemma align_both fo va fo0 va0 k : 0 <= k <= pg m -> fo0 mod page m = 0 -> va0 mod page m = 0 ->
  fo - fo0 = va - va0 -> 0 <= fo <= 2 ^ 62 -> 0 <= va <= 2 ^ 62 ->
  align_to fo (2 ^ k) - fo0 = align_to va (2 ^ k) - va0 /\
  fo <= align_to fo (2 ^ k) < fo + 2 ^ 14 /\ va <= align_to va (2 ^ k) < va + 2 ^ 14 /\
  align_to va (2 ^ k) mod 2 ^ k = 0.
Proof.
  intros Hk Hf Hv Hd Hfo Hva. destruct page_pow as [Hp Hpg]. rewrite Hp in *.
  assert (Hk14 : 0 < 2 ^ k <= 2 ^ 14) by (split; [apply Z.pow_pos_nonneg; lia|apply Z.pow_le_mono_r; lia]).
  assert (E : 2 ^ pg m = 2 ^ (pg m - k) * 2 ^ k) by (rewrite <- Z.pow_add_r by lia; f_equal; lia).
  destruct (align_to_bounds fo k (2 ^ 62) ltac:(lia) ltac:(lia) ltac:(pow2s; lia)) as [Hf1 Hf2].
  destruct (align_to_bounds va k (2 ^ 62) ltac:(lia) ltac:(lia) ltac:(pow2s; lia)) as [Hv1 Hv2].
  set (r1 := align_to fo (2 ^ k)) in *. set (r2 := align_to va (2 ^ k)) in *.
  split; [|split; [lia|split; [lia|done]]].
  assert (Hd2 : forall x q, x mod q = 0 -> q <> 0 -> exists z, x = z * q) by (intros x q ? ?; by apply Z.mod_divide).
  destruct (Hd2 _ _ Hf) as [qf Ef]; [lia|]. destruct (Hd2 _ _ Hv) as [qv Ev]; [lia|].
  destruct (Hd2 _ _ Hf2) as [q1 E1]; [lia|]. destruct (Hd2 _ _ Hv2) as [q2 E2]; [lia|].
  rewrite E in Ef, Ev. rewrite E1, E2, Ef, Ev in *. set (p := 2 ^ k) in *. set (q := 2 ^ (pg m - k)) in *.
  assert (q1 - qf * q = q2 - qv * q); nia.
Qed.

(** Aligning a size to pages. *)
Lemma align_page x : 0 <= x <= 2 ^ 62 ->
  x <= align_to x (page m) < x + 2 ^ 14 /\ align_to x (page m) mod page m = 0.
Proof.
  intros Hx. destruct page_pow as [Hp Hpg]. rewrite Hp.
  assert (Hk14 : 0 < 2 ^ pg m <= 2 ^ 14) by (split; [apply Z.pow_pos_nonneg; lia|apply Z.pow_le_mono_r; lia]).
  destruct (align_to_bounds x (pg m) (2 ^ 62) ltac:(lia) ltac:(lia) ltac:(pow2s; lia)) as [H1 H2].
  split; [lia|done].
Qed.

Lemma align_page_mono x y : 0 <= x <= y -> y <= 2 ^ 62 -> align_to x (page m) <= align_to y (page m).
Proof.
  intros Hx Hy. destruct page_pow as [Hp Hpg]. rewrite Hp.
  assert (Hk14 : 0 < 2 ^ pg m <= 2 ^ 14) by (split; [apply Z.pow_pos_nonneg; lia|apply Z.pow_le_mono_r; lia]).
  destruct (align_to_bounds x (pg m) (2 ^ 62) ltac:(lia) ltac:(lia) ltac:(pow2s; lia)) as [H1 H2].
  destruct (align_to_bounds y (pg m) (2 ^ 62) ltac:(lia) ltac:(lia) ltac:(pow2s; lia)) as [H3 H4].
  apply Z.mod_divide in H2 as [q1 E1]; [|lia]. apply Z.mod_divide in H4 as [q2 E2]; [|lia]. rewrite E1, E2 in *.
  apply Z.mul_le_mono_nonneg_r; [lia|]. apply Z.lt_succ_r, (Z.mul_lt_mono_pos_r (2 ^ pg m)); [lia|].
  rewrite Z.mul_succ_l. lia.
Qed.

Lemma chain_weaken lo ps hi lo' hi' : chain lo ps hi -> lo' <= lo -> hi <= hi' -> chain lo' ps hi'.
Proof.
  revert lo lo'. induction ps as [|p ps IH]; intros lo lo'; simpl; [lia|]. intros (H1 & H2 & H3) Hl Hh.
  split; [lia|]. split; [done|]. by apply (IH (hdr_addr p + hdr_size p)).
Qed.

Lemma chain_app lo ps mid qs hi : chain lo ps mid -> chain mid qs hi -> chain lo (ps ++ qs) hi.
Proof.
  revert lo. induction ps as [|p ps IH]; intros lo; simpl; [intros; by apply (chain_weaken mid qs hi)|].
  intros (H1 & H2 & H3) Hq. split; [done|]. split; [done|]. by apply IH.
Qed.

Definition aligned (all : list chunk) (p : placed) : Prop := hdr_addr p mod get_alignment m all (the_chunk p) = 0.

(** What the loops do to one chunk with contents. *)
Definition at_distance (d hi : Z) (p : placed) : Prop :=
  exists o, hdr_offset p = Some o /\ hdr_addr p - o = d /\ o + hdr_size p <= hi.

Lemma at_distance_mono d hi hi' ps : hi <= hi' -> Forall (at_distance d hi) ps -> Forall (at_distance d hi') ps.
Proof. intros Hh Hp. eapply Forall_impl; [done|]. intros p (o & H1 & H2 & H3). exists o. split; [done|]. lia. Qed.

Section Segment.
Context (fo0 va0 : Z) (Hfo0 : fo0 mod page m = 0) (Hva0 : va0 mod page m = 0).

Lemma place_file_spec all l : Forall (chunk_ok m) all -> Forall (chunk_ok m) l -> bss_last l ->
  forall fo va ps rest fo' va', va - fo = va0 - fo0 -> 0 <= fo -> 0 <= va ->
  fo + need bound l < 2 ^ 32 -> va + need bound l < addr_limit m ->
  place_file m compute_size all l fo va = (ps, rest, fo', va') ->
  l = map the_chunk ps ++ rest /\ Forall is_bss rest /\ chain va ps va' /\ Forall (aligned all) ps /\
  Forall (at_distance (va0 - fo0) fo') ps /\
  va' - fo' = va0 - fo0 /\ fo <= fo' /\ fo' + need bound rest <= fo + need bound l.
Proof.
  intros Hall. pose proof limit_le as Hlim. induction l as [|c l IH];
    intros Hl Hbss fo va ps rest fo' va' Hd Hfo Hva Hn1 Hn2; cbn -[Z.pow align_to].
  { intros [= <- <- <- <-]. simpl. repeat split; try constructor; lia. }
  apply Forall_cons in Hl as [Hc Hl]. simpl in Hbss.
  destruct (is_bss c) eqn:Eb; [intros [= <- <- <- <-]|].
  { simpl. split; [done|]. split; [|repeat split; try constructor; lia]. constructor; [by rewrite Eb|].
    apply Forall_forall. intros x Hx. apply Is_true_true in Hbss. rewrite forallb_forall in Hbss.
    rewrite Hbss; [done|by apply list_elem_of_In]. }
  destruct (alignment_pow all c Hall Hc) as (k & Hk & Ek). rewrite Ek.
  pose proof (need_nonneg l). simpl in Hn1, Hn2.
  destruct (align_both fo va fo0 va0 k Hk Hfo0 Hva0) as (Ha1 & Ha2 & Ha3 & Ha4); [lia|specialize (size_bound c None None); lia..|].
  set (fo1 := align_to fo (2 ^ k)) in *. set (va1 := align_to va (2 ^ k)) in *.
  pose proof (size_bound c (Some fo1) (Some va1)) as Hsz. set (sz := compute_size c (Some fo1) (Some va1)) in *.
  rewrite (word_id sz), (word_id va1), u32_nonneg, i64_nonneg, u64_nonneg by lia.
  destruct (place_file m compute_size all l (fo1 + sz) (va1 + sz)) as [[[ps1 rest1] fo1'] va1'] eqn:E.
  intros [= <- <- <- <-].
  destruct (IH Hl Hbss (fo1 + sz) (va1 + sz) _ _ _ _ ltac:(lia) ltac:(lia) ltac:(lia) ltac:(lia) ltac:(lia) E)
    as (-> & H2 & H3 & H4 & H5 & H6 & H7 & H8).
  split; [done|]. split; [done|]. split; [simpl; split; [lia|split; [lia|done]]|].
  split; [constructor; [unfold aligned; simpl; by rewrite Ek|done]|].
  split; [constructor; [|done]|simpl; lia]. exists fo1. simpl. split; [done|lia].
Qed.

Lemma place_bss_spec all l : Forall (chunk_ok m) all -> Forall (chunk_ok m) l ->
  forall va ps va', 0 <= va -> va + need bound l < addr_limit m ->
  place_bss m compute_size all l va = (ps, va') ->
  map the_chunk ps = l /\ chain va ps va' /\ Forall (aligned all) ps /\
  Forall (fun p => hdr_offset p = None) ps /\ va <= va' <= va + need bound l.
Proof.
  intros Hall. pose proof limit_le as Hlim. induction l as [|c l IH];
    intros Hl va ps va' Hva Hn; cbn -[Z.pow align_to].
  { intros [= <- <-]. simpl. repeat split; try constructor; lia. }
  apply Forall_cons in Hl as [Hc Hl]. destruct (alignment_pow all c Hall Hc) as (k & Hk & Ek). rewrite Ek.
  pose proof (need_nonneg l). simpl in Hn.
  destruct (align_both va va 0 0 k Hk) as (_ & _ & Ha3 & Ha4); [done|done|lia|specialize (size_bound c None None); lia..|].
  set (va1 := align_to va (2 ^ k)) in *.
  pose proof (size_bound c None (Some va1)) as Hsz. set (sz := compute_size c None (Some va1)) in *.
  rewrite (word_id sz), (word_id va1), u64_nonneg by lia.
  destruct (place_bss m compute_size all l (va1 + sz)) as [ps1 va1'] eqn:E. intros [= <- <-].
  destruct (IH Hl (va1 + sz) _ _ ltac:(lia) ltac:(lia) E) as (<- & H3 & H4 & H5 & H6).
  split; [done|]. split; [simpl; split; [lia|split; [lia|done]]|].
  split; [constructor; [unfold aligned; simpl; by rewrite Ek|done]|]. split; [by constructor|]. lia.
Qed.

Lemma place_linkedit_spec l : Forall (chunk_ok m) l ->
  forall fo va ps fo' va', va - fo = va0 - fo0 -> 0 <= fo -> 0 <= va ->
  fo + need bound l < 2 ^ 32 -> va + need bound l < addr_limit m ->
  place_linkedit m compute_size l fo va = (ps, fo', va') ->
  map the_chunk ps = l /\ chain va ps va' /\
  Forall (fun p => hdr_addr p mod Z.shiftl 1 (hdr_p2align (the_chunk p)) = 0) ps /\
  Forall (at_distance (va0 - fo0) fo') ps /\
  va' - fo' = va0 - fo0 /\ fo <= fo' <= fo + need bound l.
Proof.
  pose proof limit_le as Hlim. induction l as [|c l IH];
    intros Hl fo va ps fo' va' Hd Hfo Hva Hn1 Hn2; cbn -[Z.pow align_to].
  { intros [= <- <- <-]. simpl. repeat split; try constructor; lia. }
  apply Forall_cons in Hl as [Hc Hl]. rewrite Z.shiftl_1_l. set (k := hdr_p2align c).
  pose proof (need_nonneg l). simpl in Hn1, Hn2.
  destruct (align_both fo va fo0 va0 k Hc Hfo0 Hva0) as (Ha1 & Ha2 & Ha3 & Ha4); [lia|specialize (size_bound c None None); lia..|].
  set (fo1 := align_to fo (2 ^ k)) in *. set (va1 := align_to va (2 ^ k)) in *.
  set (sz := if deferred c then _ else _).
  assert (Hsz : 0 <= sz <= bound c) by (unfold sz; destruct (deferred c); apply size_bound).
  rewrite (word_id sz), (word_id va1), u32_nonneg, i64_nonneg, u64_nonneg by lia.
  destruct (place_linkedit m compute_size l (fo1 + sz) (va1 + sz)) as [[ps1 fo1'] va1'] eqn:E. intros [= <- <- <-].
  destruct (IH Hl (fo1 + sz) (va1 + sz) _ _ _ ltac:(lia) ltac:(lia) ltac:(lia) ltac:(lia) ltac:(lia) E)
    as (<- & H3 & H4 & H5 & H6 & H7).
  split; [done|]. split; [simpl; split; [lia|split; [lia|done]]|].
  split; [constructor; [simpl; by rewrite Z.shiftl_1_l|done]|].
  split; [constructor; [|done]|simpl; lia]. exists fo1. simpl. split; [done|lia].
Qed.

Lemma mapped_file cmd hi ps : vmaddr cmd - fileoff cmd = va0 - fo0 -> hi <= fileoff cmd + filesize cmd ->
  Forall (at_distance (va0 - fo0) hi) ps -> Forall (mapped_at cmd) ps.
Proof.
  intros Hd Hh Hps. eapply Forall_impl; [done|]. intros p (o & H1 & H2 & H3). unfold mapped_at. rewrite H1. lia.
Qed.

Lemma mapped_bss cmd ps : Forall is_bss (map the_chunk ps) -> Forall (fun p => hdr_offset p = None) ps ->
  Forall (mapped_at cmd) ps.
Proof.
  rewrite Forall_map. intros H1 H2. eapply Forall_impl; [apply Forall_and; split; [exact H1|exact H2]|].
  intros p [Hb Ho]. unfold mapped_at. rewrite Ho. by apply Is_true_true.
Qed.
End Segment.

(** One segment: it satisfies its specification and takes at most what it needs. *)
Lemma set_offset_spec s fo va ps cmd : Forall (chunk_ok m) (chunks s) ->
  is_linkedit s || bss_last (chunks s) = true -> fo mod page m = 0 -> va mod page m = 0 -> 0 <= fo -> 0 <= va ->
  fo + need bound (chunks s) + 2 ^ 14 < 2 ^ 32 -> va + need bound (chunks s) + 2 ^ 14 < addr_limit m ->
  set_offset m compute_size s fo va = (ps, cmd) ->
  segment_ok m s ps cmd /\ fileoff cmd = fo /\ vmaddr cmd = va /\
  vmsize cmd <= need bound (chunks s) + 2 ^ 14.
Proof.
  intros Hok Hb Hf Hv Hfo Hva Hn1 Hn2. pose proof limit_le as Hlim. pose proof (need_nonneg (chunks s)) as Hn0.
  unfold set_offset. destruct (is_linkedit s) eqn:El; [unfold set_offset_linkedit|unfold set_offset_regular].
  - destruct (place_linkedit m compute_size (chunks s) fo va) as [[ps1 fo1] va1] eqn:E.
    destruct (place_linkedit_spec fo va Hf Hv (chunks s) Hok fo va _ _ _ ltac:(lia) Hfo Hva ltac:(lia) ltac:(lia) E)
      as (H1 & H2 & H3 & H4 & H5 & H6).
    destruct (align_page (va1 - va)) as [Hp1 Hp2]; [lia|].
    rewrite (word_id fo), (word_id va), (u64_nonneg (va1 - va)), (word_id (align_to _ _)), (word_id (fo1 - fo)) by lia.
    intros [= <- <-]. simpl. split; [|split; [done|split; [done|lia]]]. split; rewrite ?El; simpl; try done.
    + eapply chain_weaken; [done|lia|lia].
    + eapply (mapped_file fo va); [simpl; lia| |done]. simpl. lia.
    + split; [done|]. split; [done|lia].
  - destruct (place_file m compute_size (chunks s) (chunks s) fo va) as [[[ps1 rest] fo1] va1] eqn:E1.
    destruct (place_bss m compute_size (chunks s) rest va1) as [bs va2] eqn:E2. simpl in Hb.
    destruct (place_file_spec fo va Hf Hv (chunks s) (chunks s) Hok Hok ltac:(by rewrite Hb) fo va _ _ _ _ ltac:(lia) Hfo Hva ltac:(lia) ltac:(lia) E1)
      as (H1 & H2 & H3 & H4 & H5 & H6 & H7 & H8).
    pose proof (need_nonneg rest).
    assert (Hrest : Forall (chunk_ok m) rest) by (rewrite H1 in Hok; by apply Forall_app in Hok as [_ ?]).
    destruct (place_bss_spec (chunks s) rest Hok Hrest va1 _ _ ltac:(lia) ltac:(lia) E2) as (G1 & G2 & G3 & G4 & G5).
    destruct (align_page (va2 - va)) as [Hp1 Hp2]; [lia|]. destruct (align_page (fo1 - fo)) as [Hp3 Hp4]; [lia|].
    pose proof (align_page_mono (fo1 - fo) (va2 - va) ltac:(lia) ltac:(lia)) as Hmono.
    rewrite (word_id fo), (word_id va), (u64_nonneg (va2 - va)), (u64_nonneg (fo1 - fo)), !(word_id (align_to _ _)) by lia.
    intros [= <- <-]. simpl. split; [|split; [done|split; [done|lia]]]. split; rewrite ?El; simpl; try done.
    + by rewrite map_app, G1.
    + eapply chain_app; [done|]. eapply chain_weaken; [done|lia|lia].
    + by apply Forall_app.
    + apply Forall_app. split; [eapply (mapped_file fo va); [simpl; lia| |done]; simpl; lia|].
      apply mapped_bss; [by rewrite G1|done].
    + split; [done|]. split; [done|lia].
Qed.

Lemma need_segs_nonneg segs : 0 <= need_segs bound segs.
Proof. induction segs as [|s segs IH]; simpl; [done|]. pose proof (need_nonneg (chunks s)). lia. Qed.

Lemma linkedit_last_cons s segs : linkedit_last (s :: segs) = true ->
  is_linkedit s || bss_last (chunks s) = true /\ linkedit_last segs = true /\ (is_linkedit s = true -> segs = []).
Proof.
  destruct segs as [|s' segs]; cbn [linkedit_last]; [done|]. intros [[H1 H2]%andb_prop H3]%andb_prop.
  rewrite H2, H3, orb_true_r. split; [done|]. split; [done|]. by destruct (is_linkedit s).
Qed.

Lemma assign_segments_spec segs : Forall (fun s => Forall (chunk_ok m) (chunks s)) segs -> linkedit_last segs = true ->
  forall fo va l out, fo mod page m = 0 -> va mod page m = 0 -> 0 <= fo -> 0 <= va ->
  fo + need_segs bound segs < 2 ^ 32 -> va + need_segs bound segs < addr_limit m ->
  assign_segments m compute_size segs fo va = (l, out) -> consecutive m segs l fo va out.
Proof.
  pose proof limit_le as Hlim.
  induction segs as [|s segs IH]; intros Hok Hll fo va l out Hf Hv Hfo Hva Hn1 Hn2; cbn [assign_segments];
    [by intros [= <- <-]|].
  apply Forall_cons in Hok as [Hs Hok]. destruct (linkedit_last_cons _ _ Hll) as (Hb & Hll' & Hlast).
  simpl in Hn1, Hn2. pose proof (need_segs_nonneg segs). pose proof (need_nonneg (chunks s)). rewrite (u64_nonneg va) by lia.
  destruct (set_offset m compute_size s fo va) as [ps cmd] eqn:E.
  destruct (set_offset_spec s fo va ps cmd Hs Hb Hf Hv Hfo Hva ltac:(lia) ltac:(lia) E) as (Hseg & Ef & Ev & Hsz).
  destruct (seg_size _ _ _ _ Hseg) as (Hz1 & Hz2 & Hz3). rewrite !i64_nonneg by lia.
  destruct (assign_segments m compute_size segs (fo + filesize cmd) (va + vmsize cmd)) as [l' out'] eqn:E'.
  intros [= <- <-]. simpl. split; [done|]. split; [done|]. split; [done|].
  destruct segs as [|s' segs']; [by injection E' as <- <-|].
  assert (Hreg : is_linkedit s = false) by (destruct (is_linkedit s); [by discriminate Hlast|done]).
  assert (Hpg : page m <> 0) by (unfold page; by destruct m).
  apply IH; [done|done| | |lia|lia|lia|lia|done];
    rewrite Z.add_mod, ?Hf, ?Hv, ?Hz1, ?Hz2 by done; done.
Qed.
End Proofs.

(** C34: [assign_offsets] places every segment at a page boundary in the file and in
    memory, right after the segment before it, the first at offset 0 and at
    [pagezero_size]; within a segment the chunks follow each other in order without
    overlap, each at its alignment, and each with contents is as far from the start
    of its segment in the file as in memory, so that mapping the segment puts it at
    its address, with the zero-fill chunks behind the mapped contents; the number
    returned is the end of the last segment. So it is for sizes whose total stays
    below 4 GiB and, on arm64_32, addresses that stay below it too. *)
Theorem assign_offsets_ok (m : machine) compute_size bound (segs : list OutputSegment) pagezero_size :
  (forall c o a, 0 <= compute_size c o a <= bound c) ->
  Forall (fun s => Forall (chunk_ok m) (chunks s)) segs -> linkedit_last segs = true ->
  pagezero_size mod page m = 0 -> 0 <= pagezero_size ->
  need_segs bound segs < 2 ^ 32 -> pagezero_size + need_segs bound segs < addr_limit m ->
  let '(l, out) := assign_offsets m compute_size segs pagezero_size in
  consecutive m segs l 0 pagezero_size out.
Proof.
  intros Hs Hok Hl Hp Hp0 Hn1 Hn2. unfold assign_offsets.
  destruct (assign_segments m compute_size segs 0 pagezero_size) as [l out] eqn:E.
  apply (assign_segments_spec m compute_size bound Hs segs Hok Hl 0 pagezero_size l out); by rewrite ?Zmod_0_l.
Qed.

(** A text segment whose header size depends on where it is, data with
    thread-local and zero-fill chunks, and the link-edit segment. *)
Definition ex_segments : list OutputSegment :=
  let c i t p := mkChunk i (S_TYPE t) p (i =? 0) (i =? 8) in
  [mkOutputSegment false [c 0 "REGULAR" 0; c 1 "REGULAR" 2];
   mkOutputSegment false [c 2 "THREAD_LOCAL_VARIABLES" 0; c 3 "THREAD_LOCAL_REGULAR" 3; c 4 "THREAD_LOCAL_ZEROFILL" 4; c 5 "ZEROFILL" 3];
   mkOutputSegment true [c 6 "REGULAR" 3; c 7 "REGULAR" 0; c 8 "REGULAR" 4]].
Definition ex_size (c : chunk) (o a : option Z) : Z := 1000 + Z.abs (chunk_id c) + default 0 o mod 2.

Lemma assign_offsets_ok_witness :
  let '(l, out) := assign_offsets ARM64 ex_size ex_segments 0x100000000 in
  consecutive ARM64 ex_segments l 0 0x100000000 out /\ out = 35792.
Proof.
  assert (H : let '(l, out) := assign_offsets ARM64 ex_size ex_segments 0x100000000 in
              consecutive ARM64 ex_segments l 0 0x100000000 out).
  - apply (assign_offsets_ok ARM64 ex_size (fun c => 1001 + Z.abs (chunk_id c))).
    + intros c o a. unfold ex_size. pose proof (Z.mod_pos_bound (default 0 o) 2 ltac:(lia)). lia.
    + repeat constructor; vm_compute; congruence.
    + vm_compute; reflexivity.
    + vm_compute; reflexivity.
    + lia.
    + vm_compute; reflexivity.
    + vm_compute; reflexivity.
  - destruct (assign_offsets ARM64 ex_size ex_segments 0x100000000) as [l out] eqn:E. split; [exact H|].
    apply (f_equal snd) in E. transitivity (snd (assign_offsets ARM64 ex_size ex_segments 0x100000000));
      [by rewrite E|vm_compute; reflexivity].
Defined.
