(* ===== verification/Glob.v ===== *)
(** * Glob patterns (src/common/glob.cc)

    [Glob::compile] turns a pattern into a list of elements, [Glob::match] decides
    whether a string matches them. The specification is the language of a pattern:
    its grammar [glob_pat] and the strings [lang] that the parsed pattern denotes.
    The theorem: compilation fails exactly on malformed patterns, and matching
    decides the language, with the one exception of a trailing [**]. *)

From S2P Require Import Prelude.
Local Open Scope list_scope.
Local Open Scope Z_scope.

(** A character constant. *)
Definition chr (s : string) : Z := default 0 (head (bs s)).

(** ** Data *)

(** [Glob::Element]; the [std::bitset<256>] is the integer with these bits. *)
Inductive Element := STRING (str : bytes) | STAR | QUESTION | BRACKET (bitset : Z).

(** ** Compilation *)

Definition set_range (bitset start end_ : Z) : Z :=
  foldl Z.setbit bitset (seqZ start (end_ - start + 1)).

(** A round of the loop over the inside of a bracket expression: the range it sets
    and the rest of the pattern. [None]: [return {}]. *)
Definition bracket_item (pat : bytes) : option (Z * Z * bytes) :=
  pat ← match pat with
        | c :: p => if c =? chr "\" then if bool_decide (p = []) then None else Some p else Some pat
        | [] => None
        end;
  match pat with
  | start :: d :: e :: rest =>
      if d =? chr "-" then
        '(e, rest) ← (if e =? chr "\" then match rest with [] => None | e :: rest => Some (e, rest) end
                      else Some (e, rest));
        if e <? start then None else Some (start, e, rest)
      else Some (start, start, d :: e :: rest)
  | start :: rest => Some (start, start, rest)
  | [] => None
  end.

(** That loop; [None] also when the bracket is not closed. *)
Fixpoint bracket (fuel : nat) (pat : bytes) (bitset : Z) : option (Z * bytes) :=
  match pat, fuel with
  | c :: p, S fuel =>
      if c =? chr "]" then Some (bitset, p)
      else '(start, e, rest) ← bracket_item pat; bracket fuel rest (set_range bitset start e)
  | _, _ => None
  end.

(** The [default] case: [c] joins the string at the end of [vec]. *)
Fixpoint push_char (vec : list Element) (c : Z) : list Element :=
  match vec with
  | [] => [STRING [c]]
  | [STRING s] => [STRING (s ++ [c])]
  | e :: vec => e :: push_char vec c
  end.

Fixpoint compile_loop (fuel : nat) (pat : bytes) (vec : list Element) : option (list Element) :=
  match pat, fuel with
  | [], _ => Some vec
  | c :: pat, S fuel =>
      if c =? chr "[" then
        let '(negate, pat) := match pat with
                              | d :: p => if d =? chr "^" then (true, p) else (false, pat)
                              | [] => (false, pat)
                              end in
        '(bitset, pat) ← bracket (length pat) pat 0;
        compile_loop fuel pat (vec ++ [BRACKET (if negate then Z.lxor bitset (Z.ones 256) else bitset)])
      else if c =? chr "?" then compile_loop fuel pat (vec ++ [QUESTION])
      else if c =? chr "*" then compile_loop fuel pat (vec ++ [STAR])
      else compile_loop fuel pat (push_char vec c)
  | _, _ => None
  end.

Definition compile (pat : bytes) : option (list Element) := compile_loop (length pat) pat [].

(** ** Matching *)

Fixpoint starts_with (str s : bytes) {struct s} : bool :=
  match s, str with
  | [], _ => true
  | c :: s, d :: str => (c =? d) && starts_with str s
  | _ :: _, [] => false
  end.

(** [std::string_view::find] *)
Fixpoint find (s str : bytes) : option nat :=
  if starts_with str s then Some O
  else match str with [] => None | _ :: str => S <$> find s str end.

(** The two loops for a star, before a string and before anything else; [k] matches
    the elements that follow. *)
Fixpoint star_string (s : bytes) (k : bytes -> option bool) (fuel : nat) (str : bytes) : option bool :=
  match fuel with
  | O => None
  | S fuel =>
      match find s str with
      | None => Some false
      | Some pos =>
          b ← k (drop (pos + length s) str);
          if (b : bool) then Some true else star_string s k fuel (drop (pos + 1) str)
      end
  end.

Fixpoint star_any (k : bytes -> option bool) (str : bytes) : option bool :=
  match str with
  | [] => Some false
  | _ :: str' => b ← k str; if (b : bool) then Some true else star_any k str'
  end.

Section Match.
(** Whether [char] is signed on the host. *)
Context (char_signed : bool).

(** [e.bitset[str[0]]]: a negative [char] is converted to an index that is out of
    range ([None]). *)
Definition bitset_at (bitset c : Z) : option bool :=
  if char_signed && (128 <=? c) then None else Some (Z.testbit bitset c).

Fixpoint do_match (elements : list Element) (str : bytes) {struct elements} : option bool :=
  match elements with
  | [] => Some (bool_decide (str = []))
  | STRING s :: es =>
      if bool_decide (str = []) || negb (starts_with str s) then Some false
      else do_match es (drop (length s) str)
  | STAR :: es =>
      match es with
      | [] => Some true
      | STRING s :: es' => star_string s (do_match es') (S (length str)) str
      | _ => star_any (do_match es) str
      end
  | QUESTION :: es => match str with [] => Some false | _ :: str => do_match es str end
  | BRACKET bitset :: es =>
      match str with
      | [] => Some false
      | c :: str => b ← bitset_at bitset c; if (b : bool) then do_match es str else Some false
      end
  end.
End Match.

(** ** The language of a pattern *)

Inductive atom := Lit (c : Z) | AnyString | AnyChar | OneOf (negate : bool) (ranges : list (Z * Z)).

(** A character in brackets, perhaps escaped. *)
Inductive class_char : bytes -> Z -> bytes -> Prop :=
  | cc_plain c p : c <> chr "\" -> class_char (c :: p) c p
  | cc_escape c p : class_char (chr "\" :: c :: p) c p.

(** The inside of brackets: characters and ranges up to the closing bracket. *)
Inductive class_items : bytes -> list (Z * Z) -> bytes -> Prop :=
  | ci_end p : class_items (chr "]" :: p) [] p
  | ci_one p c q rs r :
      head p <> Some (chr "]") -> class_char p c q -> (forall e q', q <> chr "-" :: e :: q') ->
      class_items q rs r -> class_items p ((c, c) :: rs) r
  | ci_range p lo q hi q' rs r :
      head p <> Some (chr "]") -> class_char p lo (chr "-" :: q) -> class_char q hi q' -> lo <= hi ->
      class_items q' rs r -> class_items p ((lo, hi) :: rs) r.

Definition special (c : Z) : Prop := c = chr "[" \/ c = chr "?" \/ c = chr "*".

Inductive glob_pat : bytes -> list atom -> Prop :=
  | gp_nil : glob_pat [] []
  | gp_star p l : glob_pat p l -> glob_pat (chr "*" :: p) (AnyString :: l)
  | gp_question p l : glob_pat p l -> glob_pat (chr "?" :: p) (AnyChar :: l)
  | gp_class p rs q l : head p <> Some (chr "^") -> class_items p rs q -> glob_pat q l ->
      glob_pat (chr "[" :: p) (OneOf false rs :: l)
  | gp_nclass p rs q l : class_items p rs q -> glob_pat q l ->
      glob_pat (chr "[" :: chr "^" :: p) (OneOf true rs :: l)
  | gp_char c p l : ~ special c -> glob_pat p l -> glob_pat (c :: p) (Lit c :: l).

Definition in_ranges (c : Z) (rs : list (Z * Z)) : bool :=
  existsb (fun '(lo, hi) => (lo <=? c) && (c <=? hi)) rs.

Fixpoint lang (l : list atom) (s : bytes) : Prop :=
  match l with
  | [] => s = []
  | Lit c :: l => exists s', s = c :: s' /\ lang l s'
  | AnyString :: l => exists s1 s2, s = s1 ++ s2 /\ lang l s2
  | AnyChar :: l => exists c s', s = c :: s' /\ lang l s'
  | OneOf negate rs :: l => exists c s', s = c :: s' /\ in_ranges c rs = negb negate /\ lang l s'
  end.

(** What the matcher makes of two or more stars at the end: at least one character. *)
Definition is_star (a : atom) : bool := match a with AnyString => true | _ => false end.

Fixpoint effective (l : list atom) : list atom :=
  match l with
  | [] => []
  | AnyString :: l =>
      if negb (bool_decide (length l = 0%nat)) && forallb is_star l then [AnyChar; AnyString]
      else AnyString :: effective l
  | a :: l => a :: effective l
  end.

(** ** Correctness of the matcher *)

Inductive denotes : list Element -> list atom -> Prop :=
  | d_nil : denotes [] []
  | d_string s es l : s <> [] -> denotes es l -> denotes (STRING s :: es) (map Lit s ++ l)
  | d_star es l : denotes es l -> denotes (STAR :: es) (AnyString :: l)
  | d_question es l : denotes es l -> denotes (QUESTION :: es) (AnyChar :: l)
  | d_bracket bitset negate rs es l :
      (forall c, is_byte c -> Z.testbit bitset c = xorb negate (in_ranges c rs)) ->
      denotes es l -> denotes (BRACKET bitset :: es) (OneOf negate rs :: l).

Create HintDb glob.
#[export] Hint Constructors denotes class_char class_items glob_pat : glob.

Lemma starts_with_spec s str : starts_with str s = true <-> str = s ++ drop (length s) str.
Proof.
  revert str. induction s as [|c s IH]; intros str; [by split|].
  destruct str as [|d str]; simpl; [by split|].
  rewrite andb_true_iff, Z.eqb_eq, IH. split; [intros [-> H]; by f_equal|intros [= -> H]; by split].
Qed.

Lemma starts_with_app s t : starts_with (s ++ t) s = true.
Proof. apply starts_with_spec. by rewrite drop_app_length. Qed.

Lemma find_some s str pos : find s str = Some pos ->
  str = take pos str ++ s ++ drop (pos + length s) str /\
  forall s1 s2, str = s1 ++ s ++ s2 -> (pos <= length s1)%nat.
Proof.
  revert pos. induction str as [|c str IH]; intros pos; cbn [find].
  - destruct (starts_with [] s) eqn:E; [|done]. intros [= <-].
    apply starts_with_spec in E. split; [exact E|lia].
  - destruct (starts_with (c :: str) s) eqn:E.
    + intros [= <-]. apply starts_with_spec in E. split; [exact E|lia].
    + destruct (find s str) as [p|]; [|done]. intros [= <-]. destruct (IH p eq_refl) as [H1 H2].
      split; [simpl; by f_equal|]. intros [|d s1] s2 Heq; simpl in Heq.
      * by rewrite Heq, starts_with_app in E.
      * injection Heq as -> ->. specialize (H2 s1 s2 eq_refl). simpl. lia.
Qed.

Lemma find_none s str : find s str = None -> forall s1 s2, str <> s1 ++ s ++ s2.
Proof.
  induction str as [|c str IH]; cbn [find]; destruct (starts_with _ s) eqn:E; try done; intros Hn s1 s2 Heq.
  - destruct s1; [|done]. simpl in Heq. by rewrite Heq, starts_with_app in E.
  - destruct s1 as [|d s1]; simpl in Heq; [by rewrite Heq, starts_with_app in E|].
    injection Heq as -> ->. destruct (find s (s1 ++ s ++ s2)); [done|]. by apply (IH eq_refl s1 s2).
Qed.

(** A decision of [L]. *)
Definition decides (b : option bool) (L : Prop) : Prop := exists v, b = Some v /\ (v = true <-> L).

Lemma decides_iff b L1 L2 : (L1 <-> L2) -> decides b L1 -> decides b L2.
Proof. intros H (v & -> & Hv). exists v. by rewrite Hv. Qed.

Lemma decides_false (L : Prop) : ~ L -> decides (Some false) L.
Proof. exists false. split; [done|]. split; [done|intros; by destruct H]. Qed.

Lemma decides_true (L : Prop) : L -> decides (Some true) L.
Proof. by exists true. Qed.

Lemma star_string_spec s k (L : bytes -> Prop) (R : bytes -> Prop) :
  (forall n str, R str -> R (drop n str)) -> (forall str, R str -> decides (k str) (L str)) ->
  forall fuel str, s <> [] -> (length str < fuel)%nat -> R str ->
  decides (star_string s k fuel str) (exists s1 s2, str = s1 ++ s ++ s2 /\ L s2).
Proof.
  intros HR Hk. induction fuel as [|fuel IH]; intros str Hs Hf Hr; [lia|]. cbn [star_string].
  destruct (find s str) as [pos|] eqn:E.
  - apply find_some in E as [E1 E2]. destruct (Hk (drop (pos + length s) str)) as (v & -> & Hv); [by apply HR|].
    cbn [mbind option_bind]. destruct v.
    + apply decides_true. exists (take pos str), (drop (pos + length s) str). by rewrite <- Hv.
    + destruct s as [|c s]; [done|].
      assert (Hlen : (pos < length str)%nat).
      { apply (f_equal length) in E1. rewrite length_app, length_take in E1. simpl in E1. lia. }
      assert (Hd : forall n, drop n (drop (pos + 1) str) = drop (pos + 1 + n) str) by (intros; by rewrite drop_drop).
      refine (decides_iff _ _ _ _ (IH (drop (pos + 1) str) _ _ _)); [|done|rewrite length_drop; lia|by apply HR].
      split; intros (s1 & s2 & H1 & H2).
      * exists (take (pos + 1) str ++ s1), s2. split; [|done]. by rewrite <- app_assoc, <- H1, take_drop.
      * pose proof (E2 _ _ H1) as Hp. destruct (decide (pos = length s1)) as [->|Hne].
        { exfalso. assert (Es : drop (length s1 + length (c :: s)) str = s2).
          { rewrite H1, app_assoc, <- length_app. by rewrite drop_app_length. }
          rewrite Es in Hv. by apply Hv in H2. }
        exists (drop (pos + 1) s1), s2. split; [|done].
        rewrite H1. rewrite drop_app_le by lia. done.
  - apply decides_false. intros (s1 & s2 & H & _). by apply (find_none _ _ E s1 s2).
Qed.

Lemma star_any_spec k (L : bytes -> Prop) (R : bytes -> Prop) :
  (forall n str, R str -> R (drop n str)) -> (forall str, R str -> decides (k str) (L str)) ->
  forall str, R str -> decides (star_any k str) (exists s1 s2, str = s1 ++ s2 /\ s2 <> [] /\ L s2).
Proof.
  intros HR Hk. induction str as [|c str IH]; intros Hr; cbn [star_any].
  - apply decides_false. intros (s1 & s2 & H & Hne & _). by apply eq_sym, app_eq_nil in H as [_ ->].
  - destruct (Hk _ Hr) as (v & -> & Hv). cbn [mbind option_bind]. destruct v.
    + apply decides_true. exists [], (c :: str). split; [done|]. by rewrite <- Hv.
    + refine (decides_iff _ _ _ _ (IH (HR 1%nat _ Hr))). split; intros (s1 & s2 & H1 & H2 & H3).
      * exists (c :: s1), s2. by rewrite H1.
      * destruct s1 as [|d s1]; simpl in H1; [subst s2; by apply Hv in H3|].
        injection H1 as -> ->. by exists s1, s2.
Qed.

Lemma effective_lits s l : effective (map Lit s ++ l) = map Lit s ++ effective l.
Proof. induction s as [|c s IH]; simpl; [done|by rewrite IH]. Qed.

Lemma lang_lits s l str : lang (map Lit s ++ l) str <-> exists s2, str = s ++ s2 /\ lang l s2.
Proof.
  revert str. induction s as [|c s IH]; intros str; simpl.
  - split; [intros; by exists str|intros (? & -> & ?); done].
  - split.
    + intros (s' & -> & (s2 & -> & H)%IH). by exists s2.
    + intros (s2 & -> & H). eexists. split; [done|]. apply IH. by exists s2.
Qed.

Lemma lang_nil l : forallb is_star l = false -> ~ lang (effective l) [].
Proof.
  induction l as [|a l IH]; [done|]. destruct a; cbn [forallb is_star andb effective].
  - intros _ (s' & H & _). done.
  - intros H. rewrite H, andb_false_r. intros (s1 & s2 & E & Hl). apply eq_sym, app_eq_nil in E as [_ ->].
    by apply IH.
  - intros _ (c & s' & H & _). done.
  - intros _ (c & s' & H & _). done.
Qed.

(** More than one star at the end. *)
Lemma lang_stars l s : l <> [] -> forallb is_star l = true -> s <> [] -> lang (effective l) s.
Proof.
  destruct l as [|[] l]; simpl; try done. intros _ H Hs. rewrite H. destruct l as [|a l]; simpl.
  - exists s, []. by rewrite app_nil_r.
  - destruct s as [|c s]; [done|]. exists c, s. split; [done|]. exists s, []. by rewrite app_nil_r.
Qed.

Section MatchProofs.
Context (char_signed : bool).

(** Strings whose bytes [match] can look up. *)
Definition readable (str : bytes) : Prop :=
  Forall (fun c => is_byte c /\ (char_signed = true -> c < 128)) str.

Lemma readable_drop n str : readable str -> readable (drop n str).
Proof. apply Forall_drop. Qed.

Lemma bitset_at_spec bitset c : is_byte c /\ (char_signed = true -> c < 128) ->
  bitset_at char_signed bitset c = Some (Z.testbit bitset c).
Proof.
  unfold bitset_at. intros [_ H]. destruct char_signed; [|done]. simpl.
  destruct (Z.leb_spec 128 c); [|done]. specialize (H eq_refl). lia.
Qed.

(** A star before elements that are not a string. *)
Lemma star_elements e es l str : denotes (e :: es) l -> (forall s, e <> STRING s) ->
  (forall str, readable str -> decides (do_match char_signed (e :: es) str) (lang (effective l) str)) ->
  readable str ->
  decides (star_any (do_match char_signed (e :: es)) str) (lang (effective (AnyString :: l)) str).
Proof.
  intros Hd Hs IH Hr.
  refine (decides_iff _ _ _ _ (star_any_spec _ _ readable readable_drop IH str Hr)).
  assert (Hl : l <> []) by (inversion Hd; subst; [by destruct (Hs s)|done..]).
  cbn [effective]. destruct l as [|a l]; [done|]. simpl bool_decide. cbn [negb andb].
  destruct (forallb is_star (a :: l)) eqn:E.
  - split.
    + intros (s1 & s2 & -> & Hne & _). destruct (s1 ++ s2) as [|c s] eqn:Es.
      * by apply app_eq_nil in Es as [_ ->].
      * exists c, s. split; [done|]. exists s, []. by rewrite app_nil_r.
    + intros (c & s & -> & _). exists [], (c :: s). split; [done|]. split; [done|]. by apply lang_stars.
  - split.
    + intros (s1 & s2 & -> & _ & H). by exists s1, s2.
    + intros (s1 & s2 & -> & H). exists s1, s2. split; [done|]. split; [|done].
      intros ->. by apply lang_nil in H.
Qed.

Lemma do_match_spec n : forall es l str, (length es < n)%nat -> denotes es l -> readable str ->
  decides (do_match char_signed es str) (lang (effective l) str).
Proof.
  induction n as [|n IH]; intros es l str Hn Hd Hr; [lia|]. inversion Hd as
    [|s es' l' Hs Hd'|es' l' Hd'|es' l' Hd'|bitset negate rs es' l' Hb Hd']; subst; simpl in Hn; cbn [do_match].
  - exists (bool_decide (str = [])). split; [done|]. apply bool_decide_eq_true.
  - rewrite effective_lits. destruct s as [|c s]; [done|].
    destruct (bool_decide_reflect (str = [])) as [->|Hne]; cbn [orb].
    { apply decides_false. rewrite lang_lits. by intros (s2 & E & _). }
    destruct (starts_with str (c :: s)) eqn:E; cbn [negb].
    + apply starts_with_spec in E. refine (decides_iff _ _ _ _ (IH es' l' _ _ Hd' (readable_drop _ _ Hr))); [|lia].
      rewrite lang_lits. split; [intros H; by eexists|]. intros (s2 & -> & H). by rewrite drop_app_length.
    + apply decides_false. rewrite lang_lits. intros (s2 & -> & _). by rewrite starts_with_app in E.
  - inversion Hd' as [|s es'' l'' Hs Hd''|es'' l'' Hd''|es'' l'' Hd''|bitset negate rs es'' l'' Hb Hd'']; subst;
      try (apply star_elements; [done|done| |done]; intros; apply IH; [lia|done|done]).
    + apply decides_true. exists str, []. by rewrite app_nil_r.
    + destruct s as [|c s]; [done|].
      refine (decides_iff _ _ _ _ (star_string_spec (c :: s) _ (lang (effective l'')) readable readable_drop _
        (S (length str)) str Hs _ Hr)); [|intros; apply IH; [simpl in Hn; lia|done|done]|lia].
      cbn [effective]. replace (forallb is_star _) with false by done. rewrite andb_false_r, effective_lits.
      simpl lang. setoid_rewrite (lang_lits (c :: s)). split.
      * intros (s1 & s2 & E & H). exists s1, ((c :: s) ++ s2). split; [done|]. by exists s2.
      * intros (s1 & s2 & E & s3 & -> & H). by exists s1, s3.
  - destruct str as [|c str]; [apply decides_false; by intros (c & s & E & _)|].
    apply Forall_cons in Hr as [_ Hr]. refine (decides_iff _ _ _ _ (IH es' l' str _ Hd' Hr)); [|lia].
    cbn [effective lang]. split; [intros; by exists c, str|]. by intros (c' & s & [= <- <-] & H).
  - destruct str as [|c str]; [apply decides_false; by intros (c & s & E & _)|].
    apply Forall_cons in Hr as [Hc Hr]. rewrite bitset_at_spec, Hb by apply Hc. cbn [mbind option_bind].
    destruct (xorb negate (in_ranges c rs)) eqn:E.
    + refine (decides_iff _ _ _ _ (IH es' l' str _ Hd' Hr)); [|lia]. cbn [effective lang]. split.
      * intros. exists c, str. by destruct negate, (in_ranges c rs).
      * by intros (c' & s & [= <- <-] & _ & H).
    + apply decides_false. intros (c' & s & [= <- <-] & H & _). by destruct negate, (in_ranges c rs).
Qed.
End MatchProofs.

(** ** Correctness of the compiler *)

Lemma denotes_app es1 l1 es2 l2 : denotes es1 l1 -> denotes es2 l2 -> denotes (es1 ++ es2) (l1 ++ l2).
Proof.
  induction 1; intros; cbn [app]; auto with glob. rewrite <- app_assoc. auto with glob.
Qed.

Lemma denotes_push vec l c : denotes vec l -> denotes (push_char vec c) (l ++ [Lit c]).
Proof.
  induction 1 as [|s es l Hs Hd IH| | |]; cbn [app push_char]; auto with glob.
  - apply (d_string [c] [] []); [done|constructor].
  - destruct es as [|e es].
    + inversion Hd; subst. rewrite app_nil_r.
      replace (map Lit s ++ [Lit c]) with (map Lit (s ++ [c]) ++ []) by (rewrite app_nil_r; apply map_app).
      constructor; [by destruct s|constructor].
    + rewrite <- app_assoc. by constructor.
Qed.

Lemma set_range_testbit bitset lo hi c : 0 <= lo -> 0 <= c ->
  Z.testbit (set_range bitset lo hi) c = Z.testbit bitset c || ((lo <=? c) && (c <=? hi)).
Proof.
  unfold set_range. intros Hlo Hc.
  assert (H : forall l b, Forall (fun x => 0 <= x) l ->
            Z.testbit (foldl Z.setbit b l) c = Z.testbit b c || bool_decide (c ∈ l)).
  { induction l as [|x l IH]; intros b Hl; cbn [foldl]; [by rewrite orb_false_r|].
    apply Forall_cons in Hl as [Hx Hl]. rewrite IH, Z.setbit_eqb, Z.eqb_sym by done.
    destruct (Z.eqb_spec c x) as [->|Hne]; cbn [orb].
    - rewrite (bool_decide_eq_true_2 (x ∈ x :: l)) by constructor. by rewrite orb_true_r.
    - f_equal. apply bool_decide_ext. rewrite elem_of_cons. naive_solver. }
  rewrite H; [f_equal|apply Forall_forall; intros x Hx%elem_of_seqZ; lia].
  destruct (Z.leb_spec lo c), (Z.leb_spec c hi); cbn [andb];
    [apply bool_decide_eq_true_2, elem_of_seqZ; lia|apply bool_decide_eq_false_2; rewrite elem_of_seqZ; lia..].
Qed.

(** The shape of a round of the bracket loop. *)
Definition class_item (p : bytes) (lo hi : Z) (r : bytes) : Prop :=
  exists q, class_char p lo q /\
    ((lo = hi /\ r = q /\ forall e q', q <> chr "-" :: e :: q') \/
     (exists q', q = chr "-" :: q' /\ class_char q' hi r /\ lo <= hi)).

Lemma class_char_det p c1 r1 c2 r2 : class_char p c1 r1 -> class_char p c2 r2 -> c1 = c2 /\ r1 = r2.
Proof. intros [c p1 H|c p1] H2; inversion H2; subst; try done. Qed.

Lemma class_char_cons p c r : class_char p c r -> exists d p', p = d :: p'.
Proof. intros [|]; eauto. Qed.

Lemma class_item_det p lo1 hi1 r1 lo2 hi2 r2 : class_item p lo1 hi1 r1 -> class_item p lo2 hi2 r2 ->
  lo1 = lo2 /\ hi1 = hi2 /\ r1 = r2.
Proof.
  intros (q1 & Hc1 & H1) (q2 & Hc2 & H2). destruct (class_char_det _ _ _ _ _ Hc1 Hc2) as [<- <-].
  destruct H1 as [(<- & -> & H1)|(q' & -> & H1 & _)], H2 as [(<- & -> & H2)|(q'' & E & H2 & _)]; try done.
  - destruct (class_char_cons _ _ _ H2) as (d & p' & ->). by destruct (H1 d p').
  - destruct (class_char_cons _ _ _ H1) as (d & p' & ->). by destruct (H2 d p').
  - injection E as <-. by destruct (class_char_det _ _ _ _ _ H1 H2) as [<- <-].
Qed.

Lemma class_item_shorter p lo hi r : class_item p lo hi r -> (length r < length p)%nat.
Proof.
  assert (H : forall p c r, class_char p c r -> (length r < length p)%nat) by (intros ??? []; simpl; lia).
  intros (q & Hc & [(_ & -> & _)|(q' & -> & Hc' & _)]); [by apply H in Hc|].
  apply H in Hc, Hc'. simpl in Hc. lia.
Qed.

Lemma bracket_item_some pat lo hi rest : bracket_item pat = Some (lo, hi, rest) -> class_item pat lo hi rest.
Proof.
  unfold bracket_item. destruct pat as [|c p]; [done|].
  assert (H : forall p0, (forall d, head p0 = Some d -> class_char (c :: p) d (tail p0)) ->
    match p0 with
    | start :: d :: e :: rest =>
        if d =? chr "-" then
          '(e, rest) ← (if e =? chr "\" then match rest with [] => None | e :: rest => Some (e, rest) end
                        else Some (e, rest));
          if e <? start then None else Some (start, e, rest)
        else Some (start, start, d :: e :: rest)
    | start :: rest => Some (start, start, rest)
    | [] => None
    end = Some (lo, hi, rest) -> class_item (c :: p) lo hi rest).
  { intros [|start q] Hh; [done|]. specialize (Hh start eq_refl). simpl in Hh.
    destruct q as [|d [|e q]]; [intros [= <- <- <-]; eexists; split; [done|]; left; by repeat split..|].
    destruct (Z.eqb_spec d (chr "-")) as [->|Hd].
    2: { intros [= <- <- <-]. eexists. split; [done|]. left. repeat split. by intros ?? [= -> _]. }
    intros E. exists (chr "-" :: e :: q).
    destruct (Z.eqb_spec e (chr "\")) as [->|He]; [destruct q as [|f q]; [done|]|];
      cbn [mbind option_bind] in E; (case_bool; [done|]); injection E as <- <- <-; (split; [done|]); right; eexists; (split; [done|]);
      split; try constructor; done || lia. }
  destruct (Z.eqb_spec c (chr "\")) as [->|Hc].
  - destruct p as [|d p]; [done|]. rewrite bool_decide_eq_false_2 by done. apply (H (d :: p)).
    intros d' [= <-]. constructor.
  - apply (H (c :: p)). intros d' [= <-]. by constructor.
Qed.

(** ... and it finds the item when there is one. *)
Lemma bracket_item_complete pat lo hi rest : class_item pat lo hi rest -> bracket_item pat = Some (lo, hi, rest).
Proof.
  assert (Hc : forall p c r, class_char p c r ->
    match p with
    | c :: p' => if c =? chr "\" then if bool_decide (p' = []) then None else Some p' else Some p
    | [] => None
    end = Some (c :: r)).
  { intros p c r [d q Hd|d q]; [by destruct (Z.eqb_spec d (chr "\"))|done]. }
  intros (q & Hq & H). unfold bracket_item. rewrite (Hc _ _ _ Hq). cbn [mbind option_bind].
  destruct H as [(<- & -> & H)|(q' & -> & H & Hle)].
  - destruct q as [|d [|e q]]; [done|done|]. destruct (Z.eqb_spec d (chr "-")) as [->|]; [by destruct (H e q)|done].
  - destruct H as [c p Hne|c p]; change (chr "-" =? chr "-") with true; cbn match.
    + destruct (Z.eqb_spec c (chr "\")); [done|]. cbn [mbind option_bind]. case_bool; [lia|done].
    + change (chr "\" =? chr "\") with true. cbn [mbind option_bind]. cbn match. case_bool; [lia|done].
Qed.

Lemma class_items_step p lo hi q rs r : head p <> Some (chr "]") -> class_item p lo hi q ->
  class_items q rs r -> class_items p ((lo, hi) :: rs) r.
Proof.
  intros Hh (q' & Hc & [(<- & -> & H)|(q'' & -> & H & Hle)]) Hq; [by eapply ci_one|by eapply ci_range].
Qed.

Lemma class_items_inv p rs r : class_items p rs r ->
  (exists q, p = chr "]" :: q /\ rs = [] /\ r = q) \/
  exists lo hi q rs', head p <> Some (chr "]") /\ class_item p lo hi q /\ rs = (lo, hi) :: rs' /\ class_items q rs' r.
Proof.
  intros [q|q0 c q rs' r' Hh Hc Hn Hq|q0 lo q hi q' rs' r' Hh Hc Hc' Hle Hq]; [left; eauto|right..].
  - exists c, c, q, rs'. split; [done|]. split; [|by split]. exists q. split; [done|]. by left.
  - exists lo, hi, q', rs'. split; [done|]. split; [|by split]. exists (chr "-" :: q). split; [done|]. right. by exists q.
Qed.

Definition set_ranges (bitset : Z) (rs : list (Z * Z)) : Z := foldl (fun b '(lo, hi) => set_range b lo hi) bitset rs.

Lemma bracket_spec fuel : forall pat bitset, (length pat <= fuel)%nat ->
  match bracket fuel pat bitset with
  | Some (b, r) => exists rs, class_items pat rs r /\ b = set_ranges bitset rs /\ (length r < length pat)%nat
  | None => forall rs r, ~ class_items pat rs r
  end.
Proof.
  assert (Hnil : forall rs r, ~ class_items [] rs r).
  { intros rs r [(q & E & _)|(lo & hi & q & rs' & _ & H & _)]%class_items_inv; [done|].
    apply class_item_shorter in H. simpl in H. lia. }
  induction fuel as [|fuel IH]; intros [|c p] bitset Hf; cbn [bracket]; try done; simpl in Hf; [lia|].
  destruct (Z.eqb_spec c (chr "]")) as [->|Hc].
  { exists []. split; [constructor|]. split; [done|simpl; lia]. }
  assert (Hh : head (c :: p) <> Some (chr "]")) by (intros [=]; done).
  destruct (bracket_item (c :: p)) as [[[lo hi] rest]|] eqn:E; cbn [mbind option_bind].
  - apply bracket_item_some in E. pose proof (class_item_shorter _ _ _ _ E) as Hlen. simpl in Hlen.
    specialize (IH rest (set_range bitset lo hi) ltac:(lia)).
    destruct (bracket fuel rest (set_range bitset lo hi)) as [[b r]|].
    + destruct IH as (rs & H1 & H2 & H3). exists ((lo, hi) :: rs).
      split; [by eapply class_items_step|]. split; [done|simpl; lia].
    + intros rs r [(q & [=] & _)|(lo' & hi' & q & rs' & _ & H & _ & H')]%class_items_inv; [done|].
      destruct (class_item_det _ _ _ _ _ _ _ E H) as (_ & _ & <-). by apply IH in H'.
  - intros rs r [(q & [=] & _)|(lo' & hi' & q & rs' & _ & H & _ & H')]%class_items_inv; [done|].
    by rewrite (bracket_item_complete _ _ _ _ H) in E.
Qed.

Lemma class_items_det p rs1 r1 rs2 r2 : class_items p rs1 r1 -> class_items p rs2 r2 -> rs1 = rs2 /\ r1 = r2.
Proof.
  intros H. revert rs2 r2. remember (length p) as n eqn:En. revert p rs1 r1 H En.
  induction n as [n IH] using lt_wf_ind. intros p rs1 r1 H1 -> rs2 r2 H2.
  apply class_items_inv in H1 as [(q & -> & -> & ->)|(lo & hi & q & rs & Hh & Hi & -> & H1)],
    H2 as [(q' & E & -> & ->)|(lo' & hi' & q' & rs' & Hh' & Hi' & -> & H2)].
  - by injection E as <-.
  - by destruct Hh'.
  - by rewrite E in Hh.
  - destruct (class_item_det _ _ _ _ _ _ _ Hi Hi') as (<- & <- & <-).
    destruct (IH (length q) (class_item_shorter _ _ _ _ Hi) q rs r1 H1 eq_refl rs' r2 H2) as [<- <-]. done.
Qed.

Lemma set_ranges_testbit rs : Forall (fun '(lo, hi) => 0 <= lo) rs -> forall bitset c, 0 <= c ->
  Z.testbit (set_ranges bitset rs) c = Z.testbit bitset c || in_ranges c rs.
Proof.
  unfold set_ranges. induction 1 as [|[lo hi] rs Hlo Hrs IH]; intros bitset c Hc; simpl foldl; [by rewrite orb_false_r|].
  rewrite IH, set_range_testbit by done. by rewrite <- orb_assoc.
Qed.

Lemma class_char_bytes p c r : class_char p c r -> all_bytes p -> is_byte c /\ all_bytes r.
Proof. intros [|] Hp; repeat (apply Forall_cons in Hp as [? Hp]); by split. Qed.

Lemma class_items_bytes p rs r : class_items p rs r -> all_bytes p ->
  Forall (fun '(lo, hi) => 0 <= lo) rs /\ all_bytes r.
Proof.
  induction 1 as [q|q0 c q rs' r' Hh Hc Hn Hq IH|q0 lo q hi q' rs' r' Hh Hc Hc' Hle Hq IH]; intros Hp.
  - by apply Forall_cons in Hp as [_ ?].
  - destruct (class_char_bytes _ _ _ Hc Hp) as [H1 H2]. destruct (IH H2). split; [constructor; [warith|done]|done].
  - destruct (class_char_bytes _ _ _ Hc Hp) as [H1 H2]. apply Forall_cons in H2 as [_ H2].
    destruct (class_char_bytes _ _ _ Hc' H2) as [_ H3]. destruct (IH H3). split; [constructor; [warith|done]|done].
Qed.

(** The bitset of a bracket expression. *)
Lemma class_bits (rs : list (Z * Z)) (negate : bool) (c : Z) : Forall (fun '(lo, hi) => 0 <= lo) rs -> is_byte c ->
  Z.testbit (if negate then Z.lxor (set_ranges 0 rs) (Z.ones 256) else set_ranges 0 rs) c
  = xorb negate (in_ranges c rs).
Proof.
  intros Hrs Hc. destruct negate; rewrite ?Z.lxor_spec, set_ranges_testbit, Z.testbit_0_l by (done || warith);
    [|by destruct (in_ranges c rs)].
  rewrite Z.testbit_ones by lia. destruct (Z.leb_spec 0 c), (Z.ltb_spec c 256); try warith.
  by destruct (in_ranges c rs).
Qed.

Lemma glob_pat_class p l : glob_pat (chr "[" :: p) l ->
  (exists rs q l', head p <> Some (chr "^") /\ class_items p rs q /\ glob_pat q l' /\ l = OneOf false rs :: l') \/
  (exists p' rs q l', p = chr "^" :: p' /\ class_items p' rs q /\ glob_pat q l' /\ l = OneOf true rs :: l').
Proof.
  inversion 1; subst; [left; eauto 10|right; eauto 10|]. unfold special in *. naive_solver.
Qed.

Lemma compile_bracket fuel pat vec lv p negate :
  (forall pat vec lv, (length pat <= fuel)%nat -> all_bytes pat -> denotes vec lv ->
    match compile_loop fuel pat vec with
    | Some g => exists l, glob_pat pat l /\ denotes g (lv ++ l)
    | None => forall l, ~ glob_pat pat l
    end) ->
  (length p <= fuel)%nat -> all_bytes p -> denotes vec lv ->
  pat = (if negate : bool then chr "^" :: p else p) -> (negate = false -> head p <> Some (chr "^")) ->
  match ('(bitset, p) ← bracket (length p) p 0;
         compile_loop fuel p (vec ++ [BRACKET (if negate then Z.lxor bitset (Z.ones 256) else bitset)])) with
  | Some g => exists l, glob_pat (chr "[" :: pat) l /\ denotes g (lv ++ l)
  | None => forall l, ~ glob_pat (chr "[" :: pat) l
  end.
Proof.
  intros IH Hf Hp Hd -> Hneg. pose proof (bracket_spec (length p) p 0 ltac:(lia)) as Hb.
  assert (Hinv : forall l, glob_pat (chr "[" :: (if negate then chr "^" :: p else p)) l ->
    exists rs q l', class_items p rs q /\ glob_pat q l' /\ l = OneOf negate rs :: l').
  { intros l [(rs & q & l' & Hh & H1 & H2 & ->)|(p' & rs & q & l' & E & H1 & H2 & ->)]%glob_pat_class;
      destruct negate; simpl in *.
    - done.
    - eauto 10.
    - injection E as <-. eauto 10.
    - subst p. by destruct Hneg. }
  destruct (bracket (length p) p 0) as [[b r]|]; cbn [mbind option_bind].
  - destruct Hb as (rs & Hrs & -> & Hr). destruct (class_items_bytes _ _ _ Hrs Hp) as [H1 H2].
    specialize (IH r (vec ++ [BRACKET (if negate then Z.lxor (set_ranges 0 rs) (Z.ones 256) else set_ranges 0 rs)])
      (lv ++ [OneOf negate rs]) ltac:(lia) H2).
    destruct (compile_loop fuel r _) as [g|].
    + destruct IH as (l & Hl & Hg).
      { apply denotes_app; [done|]. constructor; [intros; by apply class_bits|constructor]. }
      exists (OneOf negate rs :: l). split; [|by rewrite <- app_assoc in Hg].
      destruct negate; [by eapply gp_nclass|eapply gp_class; eauto].
    + intros l (rs' & q & l' & H3 & H4 & ->)%Hinv. destruct (class_items_det _ _ _ _ _ Hrs H3) as [<- <-].
      apply IH in H4; [done|]. apply denotes_app; [done|]. constructor; [intros; by apply class_bits|constructor].
  - intros l (rs & q & l' & H & _)%Hinv. by apply Hb in H.
Qed.

Lemma compile_loop_spec fuel : forall pat vec lv, (length pat <= fuel)%nat -> all_bytes pat -> denotes vec lv ->
  match compile_loop fuel pat vec with
  | Some g => exists l, glob_pat pat l /\ denotes g (lv ++ l)
  | None => forall l, ~ glob_pat pat l
  end.
Proof.
  induction fuel as [|fuel IH]; intros [|c pat] vec lv Hf Hp Hd; simpl in Hf; try lia.
  1, 2: (exists []; split; [constructor|by rewrite app_nil_r]).
  apply Forall_cons in Hp as [_ Hp]. cbn [compile_loop].
  (** A round that appends one element. *)
  assert (Step : forall vec' a, denotes vec' (lv ++ [a]) ->
    (forall l, glob_pat pat l -> glob_pat (c :: pat) (a :: l)) ->
    (forall l, glob_pat (c :: pat) l -> exists l', glob_pat pat l') ->
    match compile_loop fuel pat vec' with
    | Some g => exists l, glob_pat (c :: pat) l /\ denotes g (lv ++ l)
    | None => forall l, ~ glob_pat (c :: pat) l
    end).
  { intros vec' a Hd' H1 H2. specialize (IH pat vec' (lv ++ [a]) ltac:(lia) Hp Hd').
    destruct (compile_loop fuel pat vec') as [g|].
    - destruct IH as (l & Hl & Hg). exists (a :: l). split; [auto|]. by rewrite <- app_assoc in Hg.
    - intros l (l' & Hl)%H2. by apply IH in Hl. }
  destruct (Z.eqb_spec c (chr "[")) as [->|H1].
  { clear Step. destruct pat as [|d p].
    - apply (compile_bracket fuel [] vec lv [] false); done || (simpl; lia).
    - destruct (Z.eqb_spec d (chr "^")) as [->|Hd'].
      + apply Forall_cons in Hp as [_ Hp]. simpl in Hf. apply (compile_bracket fuel _ vec lv p true); try done. lia.
      + apply (compile_bracket fuel _ vec lv (d :: p) false); try done; [lia|]. by intros _ [= ->]. }
  destruct (Z.eqb_spec c (chr "?")) as [->|H2].
  { apply (Step _ AnyChar); [apply denotes_app; [done|]; auto with glob|by constructor|].
    inversion 1 as [| | | | |c' p' l' Hs]; subst; [eauto|]. destruct Hs. by right; left. }
  destruct (Z.eqb_spec c (chr "*")) as [->|H3].
  { apply (Step _ AnyString); [apply denotes_app; [done|]; auto with glob|by constructor|].
    inversion 1 as [| | | | |c' p' l' Hs]; subst; [eauto|]. destruct Hs. by right; right. }
  apply (Step _ (Lit c)); [by apply denotes_push|constructor; [|done]; unfold special; naive_solver|].
  inversion 1; subst; eauto; done.
Qed.

(** C30: [Glob::compile] fails exactly on the patterns that are malformed; for any
    other, [Glob::match] decides whether a string is in the language of the pattern,
    with two or more stars at its end standing for at least one character. *)
Theorem glob_exact (char_signed : bool) (pat : bytes) :
  all_bytes pat ->
  match compile pat with
  | Some g => exists atoms, glob_pat pat atoms /\
      forall str, readable char_signed str ->
      decides (do_match char_signed g str) (lang (effective atoms) str)
  | None => forall atoms, ~ glob_pat pat atoms
  end.
Proof.
  intros Hp. pose proof (compile_loop_spec (length pat) pat [] [] ltac:(lia) Hp d_nil) as H. unfold compile.
  destruct (compile_loop (length pat) pat []) as [g|]; [|done]. destruct H as (l & Hl & Hg).
  exists l. split; [done|]. intros str Hr. by apply (do_match_spec char_signed (S (length g))); [lia|..].
Qed.

Lemma glob_exact_witness :
  match compile (bs "f*[^a-c\]]?") with
  | Some g => exists atoms, glob_pat (bs "f*[^a-c\]]?") atoms /\
      forall str, readable true str -> decides (do_match true g str) (lang (effective atoms) str)
  | None => forall atoms, ~ glob_pat (bs "f*[^a-c\]]?") atoms
  end.
Proof. apply (glob_exact true (bs "f*[^a-c\]]?")). apply bs_all_bytes. Defined.

(** No pattern but one that ends in two stars is affected. *)
Lemma effective_id l : (forall l', l <> l' ++ [AnyString; AnyString]) -> effective l = l.
Proof.
  induction l as [|a l IH]; intros H; [done|].
  assert (E : effective l = l) by (apply IH; intros l' ->; by apply (H (a :: l'))).
  destruct a; cbn [effective]; rewrite E; try done.
  destruct (negb (bool_decide (length l = 0%nat)) && forallb is_star l) eqn:E2; [|done].
  apply andb_prop in E2 as [E1 E2]. exfalso.
  destruct l as [|a l0] using rev_ind; [done|]. rewrite forallb_app in E2. apply andb_prop in E2 as [E2 E3].
  destruct a; try done. destruct l0 as [|b l1] using rev_ind; [by apply (H [])|].
  rewrite forallb_app in E2. apply andb_prop in E2 as [_ E4]. destruct b; try done.
  apply (H (AnyString :: l1)). by rewrite <- app_assoc.
Qed.

(** [a**] does not match [a], and [a*] does; a byte above 127 is looked up out of
    range where [char] is signed. *)
Example two_stars : (g ← compile (bs "a**"); do_match true g (bs "a")) = Some false /\
  (g ← compile (bs "a*"); do_match true g (bs "a")) = Some true.
Proof. by vm_compute. Qed.

Example signed_char : (g ← compile (bs "[^a]"); do_match true g [195]) = None /\
  (g ← compile (bs "[^a]"); do_match false g [195]) = Some true.
Proof. by vm_compute. Qed.
