(* ===== verification/MultiGlob.v ===== *)
(** * Matching many glob patterns at once (src/common/multi-glob.cc)

    [MultiGlob] matches simple patterns, a string with at most a star at either end,
    with an Aho-Corasick automaton, and the others one by one with [Glob]. The
    theorem: whatever patterns were added, [find] returns the least value of those
    whose language contains the string. *)

From stdpp Require Import gmap.
From S2P Require Import Prelude Glob.
Local Open Scope list_scope.
Local Open Scope Z_scope.

(** ** Data *)

(** A node of the trie is named by the characters on its path from the root, which
    is what [children] owns; [children[c]] of [p] is [p ++ [c]] if there is such a
    node. *)
Abbreviation path := (list Z).

Record TrieNode := mkTrieNode { value : Z; suffix_link : option path }.

Definition new_node : TrieNode := mkTrieNode (u32 (-1)) None.

(** [nodes] is empty while [root] is null. *)
Record MultiGlob := mkMultiGlob {
  strings : list bytes; nodes : gmap path TrieNode; globs : list (list Element * Z); is_compiled : bool }.

Definition new_multi_glob : MultiGlob := mkMultiGlob [] ∅ [] false.

Definition empty (mg : MultiGlob) : bool := bool_decide (strings mg = []).

(** [for (i64 i = 0; i < 256; i++) if (children[i])] *)
Definition children (t : gmap path TrieNode) (p : path) : list Z :=
  filter (fun c => is_Some (t !! (p ++ [c]))) (seqZ 0 256).

(** ** Adding patterns *)

Definition ends_with (str : bytes) (c : Z) : bool := bool_decide (last str = Some c).

(** The regular expression [\*?[^*[?]+\*?]. *)
Definition is_simple_pattern (pat : bytes) : bool :=
  let s := if starts_with pat [chr "*"] then tail pat else pat in
  let s := if ends_with s (chr "*") then take (length s - 1) s else s in
  negb (bool_decide (s = [])) &&
  forallb (fun c => negb ((c =? chr "*") || (c =? chr "[") || (c =? chr "?"))) s.

Definition handle_stars (pat : bytes) : bytes :=
  let b := starts_with pat [chr "*"] in
  let e := ends_with pat (chr "*") in
  if b && e then take (length pat - 2) (drop 1 pat)
  else if b then drop 1 pat ++ [0]
  else if e then 0 :: take (length pat - 1) pat
  else 0 :: pat ++ [0].

(** The loop over the characters: the trie and the node it ends at. *)
Fixpoint descend (t : gmap path TrieNode) (node : path) (s : bytes) : gmap path TrieNode * path :=
  match s with
  | [] => (t, node)
  | c :: s =>
      let child := node ++ [c] in
      descend (match t !! child with Some _ => t | None => <[child := new_node]> t end) child s
  end.

Definition set_value (v : Z) (n : TrieNode) : TrieNode := mkTrieNode v (suffix_link n).
Definition set_link (l : path) (n : TrieNode) : TrieNode := mkTrieNode (value n) (Some l).

(** [add]; [false] when the pattern is malformed. *)
Definition add (mg : MultiGlob) (pat : bytes) (val : Z) : bool * MultiGlob :=
  let strs := strings mg ++ [pat] in
  if negb (is_simple_pattern pat) then
    match Glob.compile pat with
    | Some glob => (true, mkMultiGlob strs (nodes mg) (globs mg ++ [(glob, val)]) (is_compiled mg))
    | None => (false, mkMultiGlob strs (nodes mg) (globs mg) (is_compiled mg))
    end
  else
    let t := match nodes mg !! [] with Some _ => nodes mg | None => <[[] := new_node]> (nodes mg) end in
    let '(t, node) := descend t [] (handle_stars pat) in
    (true, mkMultiGlob strs (alter (fun n => set_value (Z.min (value n) val) n) node t) (globs mg) (is_compiled mg)).

(** ** Compilation *)

(** A traversal in breadth-first order: [visit] is called for every child of every
    node taken from the queue. *)
Section Bfs.
Context (visit : gmap path TrieNode -> path -> Z -> option (gmap path TrieNode)).

Fixpoint visit_children (t : gmap path TrieNode) (p : path) (cs : list Z) : option (gmap path TrieNode) :=
  match cs with
  | [] => Some t
  | c :: cs => t ← visit t p c; visit_children t p cs
  end.

Fixpoint bfs (fuel : nat) (t : gmap path TrieNode) (queue : list path) : option (gmap path TrieNode) :=
  match queue, fuel with
  | [], _ => Some t
  | cur :: queue, S fuel =>
      let cs := children t cur in
      t ← visit_children t cur cs;
      bfs fuel t (queue ++ map (fun c => cur ++ [c]) cs)
  | _ :: _, O => None
  end.
End Bfs.

(** [while (suffix && !suffix->children[i]) suffix = suffix->suffix_link;] *)
Fixpoint find_suffix (fuel : nat) (t : gmap path TrieNode) (suffix : option path) (i : Z) : option (option path) :=
  match suffix, fuel with
  | None, _ => Some None
  | Some p, S fuel =>
      if bool_decide (is_Some (t !! (p ++ [i]))) then Some (Some p)
      else n ← t !! p; find_suffix fuel t (suffix_link n) i
  | Some _, O => None
  end.

(** The body of the second loop of [fix_suffix_links] for a child. *)
Definition link_child (t : gmap path TrieNode) (cur : path) (i : Z) : option (gmap path TrieNode) :=
  n ← t !! cur;
  suffix ← find_suffix (S (length cur)) t (suffix_link n) i;
  Some (alter (set_link (match suffix with Some p => p ++ [i] | None => [] end)) (cur ++ [i]) t).

(** ... and of the first, for a child of the root. *)
Definition link_root_child (t : gmap path TrieNode) (cur : path) (i : Z) : option (gmap path TrieNode) :=
  Some (alter (set_link []) (cur ++ [i]) t).

Definition fix_suffix_links (t : gmap path TrieNode) : option (gmap path TrieNode) :=
  let cs := children t [] in
  t ← visit_children link_root_child t [] cs;
  bfs link_child (base.size t) t (map (fun c => [c]) cs).

Definition lower_child (t : gmap path TrieNode) (cur : path) (i : Z) : option (gmap path TrieNode) :=
  child ← t !! (cur ++ [i]);
  l ← suffix_link child;
  link ← t !! l;
  Some (alter (fun n => set_value (Z.min (value n) (value link)) n) (cur ++ [i]) t).

Definition fix_values (t : gmap path TrieNode) : option (gmap path TrieNode) :=
  bfs lower_child (base.size t) t [[]].

Definition compile (mg : MultiGlob) : option MultiGlob :=
  t ← (match nodes mg !! [] with
       | Some _ => t ← fix_suffix_links (nodes mg); fix_values t
       | None => Some (nodes mg)
       end);
  Some (mkMultiGlob (strings mg) t (globs mg) true).

(** ** Searching *)

Fixpoint walk (fuel : nat) (t : gmap path TrieNode) (node : path) (val : Z) (c : Z) : option (path * Z) :=
  match fuel with
  | O => None
  | S fuel =>
      match t !! (node ++ [c]) with
      | Some child => Some (node ++ [c], Z.min val (value child))
      | None =>
          n ← t !! node;
          match suffix_link n with
          | None => Some (node, val)
          | Some l => walk fuel t l val c
          end
      end
  end.

Fixpoint walk_all (t : gmap path TrieNode) (node : path) (val : Z) (str : bytes) : option Z :=
  match str with
  | [] => Some val
  | c :: str => '(node, val) ← walk (S (length node)) t node val c; walk_all t node val str
  end.

Section Find.
Context (char_signed : bool).

Fixpoint match_globs (gs : list (list Element * Z)) (str : bytes) (val : Z) : option Z :=
  match gs with
  | [] => Some val
  | (g, v) :: gs =>
      b ← do_match char_signed g str;
      match_globs gs str (if (b : bool) then Z.min val v else val)
  end.

Definition find (mg : MultiGlob) (str : bytes) : option (option Z * MultiGlob) :=
  mg ← (if is_compiled mg then Some mg else compile mg);
  val ← (match nodes mg !! [] with
         | Some _ => walk_all (nodes mg) [] UINT32_MAX ([0] ++ str ++ [0])
         | None => Some UINT32_MAX
         end);
  val ← match_globs (globs mg) str val;
  Some (if val =? UINT32_MAX then None else Some val, mg).
End Find.

(** ** The trie *)

Section Trie.
Context (t0 : gmap path TrieNode).

Definition node_in (p : path) : Prop := is_Some (t0 !! p).

Hypothesis root_in : node_in [].
Hypothesis parent_in : forall p c, node_in (p ++ [c]) -> node_in p.
Hypothesis byte_in : forall p c, node_in (p ++ [c]) -> 0 <= c < 256.

(** The same nodes, with other contents. *)
Definition shape (t : gmap path TrieNode) : Prop := forall p, is_Some (t !! p) <-> node_in p.

#[local] Instance node_in_dec p : Decision (node_in p) := _.

(** The longest suffix that is a node. *)
Fixpoint lsuf (s : path) : path :=
  if decide (node_in s) then s else match s with [] => [] | _ :: s => lsuf s end.

Lemma lsuf_in s : node_in (lsuf s).
Proof. induction s as [|c s IH]; cbn [lsuf]; case_decide; done. Qed.

Lemma lsuf_node s : node_in s -> lsuf s = s.
Proof. intros H. destruct s; simpl; by rewrite decide_True. Qed.

Lemma lsuf_cons c s : ~ node_in (c :: s) -> lsuf (c :: s) = lsuf s.
Proof. intros H. simpl. by rewrite decide_False. Qed.

Lemma prefix_in p s : node_in (p ++ s) -> node_in p.
Proof.
  induction s as [|c s IH] using rev_ind; [by rewrite app_nil_r|]. rewrite app_assoc. intros H%parent_in. auto.
Qed.

(** Appending a character: the step of the automaton. *)
Lemma lsuf_snoc s i : lsuf (s ++ [i]) =
  if decide (node_in (lsuf s ++ [i])) then lsuf s ++ [i]
  else match lsuf s with [] => [] | _ :: s' => lsuf (s' ++ [i]) end.
Proof.
  induction s as [|c s IH].
  - simpl app. cbn [lsuf]. rewrite !(decide_True (P := node_in [])) by done. simpl app. by repeat case_decide.
  - destruct (decide (node_in (c :: s))) as [H|H].
    + rewrite (lsuf_node _ H). destruct (decide (node_in ((c :: s) ++ [i]))) as [H2|H2];
        [by apply lsuf_node|by apply lsuf_cons].
    + rewrite (lsuf_cons _ _ H). rewrite <- IH. simpl app. apply lsuf_cons. intros H2. apply H.
      by apply (prefix_in (c :: s) [i]).
Qed.

Lemma lsuf_length s : (length (lsuf s) <= length s)%nat.
Proof. induction s as [|c s IH]; cbn [lsuf]; case_decide; simpl in *; lia. Qed.

(** Links are right up to some length. *)
Definition linked (t : gmap path TrieNode) (p : path) : Prop :=
  (suffix_link <$> t !! p) = Some (match p with [] => None | _ :: p' => Some (lsuf p') end).

(** The loop that follows links, from the longest suffix of [s]. *)
Lemma find_suffix_spec t i : shape t -> forall fuel s,
  (length (lsuf s) < fuel)%nat -> (forall p, node_in p -> (length p <= length (lsuf s))%nat -> linked t p) ->
  exists r, find_suffix fuel t (Some (lsuf s)) i = Some r /\
    match r with Some p => p ++ [i] | None => [] end = lsuf (s ++ [i]).
Proof.
  intros Hs. induction fuel as [|fuel IH]; intros s Hf Hl; [lia|]. cbn [find_suffix].
  rewrite lsuf_snoc. destruct (decide (node_in (lsuf s ++ [i]))) as [Hin|Hin].
  - rewrite bool_decide_eq_true_2 by (by apply Hs). by eexists.
  - rewrite bool_decide_eq_false_2 by (by rewrite (Hs (lsuf s ++ [i]))).
    pose proof (Hl (lsuf s) (lsuf_in s) ltac:(lia)) as Hlink. unfold linked in Hlink.
    destruct (t !! lsuf s) as [n|]; [|done]. simpl in Hlink. injection Hlink as Hlink. cbn [mbind option_bind]. rewrite Hlink.
    destruct (lsuf s) as [|c q] eqn:Eq; [exists None; by split; [destruct fuel|]|].
    pose proof (lsuf_length q). simpl in Hf. apply IH; [lia|]. intros p Hp Hlen. apply Hl; [done|simpl; lia].
Qed.

Definition val_of (t : gmap path TrieNode) (p : path) : Z := from_option value UINT32_MAX (t !! p).

(** A step of the search. *)
Lemma walk_spec t c : shape t -> (forall p, node_in p -> linked t p) -> val_of t [] = UINT32_MAX ->
  forall fuel s val, (length (lsuf s) < fuel)%nat -> val <= UINT32_MAX ->
  walk fuel t (lsuf s) val c = Some (lsuf (s ++ [c]), Z.min val (val_of t (lsuf (s ++ [c])))).
Proof.
  intros Hs Hl Hroot. induction fuel as [|fuel IH]; intros s val Hf Hval; [lia|]. cbn [walk].
  rewrite lsuf_snoc. destruct (decide (node_in (lsuf s ++ [c]))) as [[n Hin]%Hs|Hin].
  - unfold val_of. by rewrite Hin.
  - destruct (t !! (lsuf s ++ [c])) as [n|] eqn:E; [by destruct Hin; apply Hs; rewrite E|].
    pose proof (Hl (lsuf s) (lsuf_in s)) as Hlink. unfold linked in Hlink.
    destruct (t !! lsuf s) as [n|]; [|done]. simpl in Hlink. injection Hlink as Hlink. cbn [mbind option_bind]. rewrite Hlink.
    destruct (lsuf s) as [|d q] eqn:Eq; [by rewrite Hroot, Z.min_l|].
    pose proof (lsuf_length q). simpl in Hf. apply IH; [lia|done].
Qed.

Lemma children_elem t p c : shape t -> c ∈ children t p <-> node_in (p ++ [c]).
Proof.
  intros Hs. unfold children. rewrite list_elem_of_filter, elem_of_seqZ, (Hs (p ++ [c])). split; [naive_solver|].
  intros H. split; [done|]. apply byte_in in H. lia.
Qed.

(** ** The traversal *)

Lemma children_nodup t p : NoDup (children t p).
Proof. apply NoDup_filter, NoDup_seqZ. Qed.

(** What the queue and the list [L] of the nodes pushed so far satisfy: [L] is the
    nodes [popped] so far followed by the queue. *)
Record frontier (popped queue : list path) : Prop := {
  fr_root : [] ∈ popped ++ queue;
  fr_nodup : NoDup (popped ++ queue);
  fr_in : Forall node_in (popped ++ queue);
  fr_parent : forall p c, p ++ [c] ∈ popped ++ queue -> p ∈ popped;
  fr_children : forall p c, p ∈ popped -> node_in (p ++ [c]) -> p ++ [c] ∈ popped ++ queue;
  fr_level : exists d q1 q2, queue = q1 ++ q2 /\
    Forall (fun p => length p = d) q1 /\ Forall (fun p => length p = S d) q2 }.

Lemma frontier_reach popped queue : frontier popped queue ->
  forall p, node_in p -> p ∈ popped ++ queue \/ exists a c s, a ∈ queue /\ p = a ++ c :: s.
Proof.
  intros F p. induction p as [|c p IH] using rev_ind; intros Hp; [left; apply (fr_root _ _ F)|].
  destruct (IH (parent_in _ _ Hp)) as [Hin|(a & d & s & Ha & ->)].
  - apply elem_of_app in Hin as [Hin|Hin]; [left; by apply (fr_children _ _ F)|right; by exists p, c, []].
  - right. exists a, d, (s ++ [c]). split; [done|]. by rewrite <- app_assoc.
Qed.

(** The head of the queue is the least deep: all nodes up to its depth were pushed. *)
Lemma frontier_depth popped cur queue : frontier popped (cur :: queue) ->
  forall p, node_in p -> (length p <= length cur)%nat -> p ∈ popped ++ cur :: queue.
Proof.
  intros F p Hp Hlen. destruct (frontier_reach _ _ F p Hp) as [|(a & c & s & Ha & ->)]; [done|]. exfalso.
  destruct (fr_level _ _ F) as (d & q1 & q2 & E & H1 & H2). rewrite length_app in Hlen. simpl in Hlen.
  assert (Hd : forall x, x ∈ cur :: queue -> (length cur <= length x)%nat).
  { intros x Hx. rewrite E in Hx. rewrite Forall_forall in H1, H2.
    assert (Hx' : length x = d \/ length x = S d) by (apply elem_of_app in Hx as [Hx|Hx]; auto).
    destruct q1 as [|y q1]; simpl in E; [|injection E as -> ->; rewrite (H1 y) by constructor; lia].
    subst q2. rewrite (H2 cur) by constructor. apply elem_of_app in Hx as [Hx|Hx]; [by apply elem_of_nil in Hx|].
    rewrite (H2 x); done || lia. }
  specialize (Hd a Ha). lia.
Qed.

Lemma frontier_step popped cur queue cs : frontier popped (cur :: queue) -> NoDup cs ->
  (forall c, c ∈ cs <-> node_in (cur ++ [c])) ->
  frontier (popped ++ [cur]) (queue ++ map (fun c => cur ++ [c]) cs).
Proof.
  intros F Hnd Hcs. destruct F as [F1 F2 F3 F4 F5 F6].
  assert (E : (popped ++ [cur]) ++ queue ++ map (fun c => cur ++ [c]) cs = (popped ++ cur :: queue) ++ map (fun c => cur ++ [c]) cs)
    by (rewrite <- !app_assoc; done).
  assert (Hcur : cur ∉ popped).
  { intros H. apply NoDup_app in F2 as (_ & F2 & _). apply (F2 cur H). constructor. }
  split; rewrite ?E.
  - apply elem_of_app. by left.
  - apply NoDup_app. split; [done|]. split.
    + intros x Hx (c & -> & _)%list_elem_of_fmap. by apply F4 in Hx.
    + apply NoDup_fmap; [|done]. by intros x y [_ [=]]%app_inj_2.
  - apply Forall_app. split; [done|]. apply Forall_forall. intros x (c & -> & Hc)%list_elem_of_fmap. by apply Hcs.
  - intros p c [H|H]%elem_of_app; apply elem_of_app; [left; by apply (F4 p c)|].
    apply list_elem_of_fmap in H as (c' & H & _). apply app_inj_2 in H as [-> _]; [|done]. right. constructor.
  - intros p c [H|H]%elem_of_app Hc; apply elem_of_app; [left; by apply F5|].
    apply list_elem_of_singleton in H as ->. right. apply list_elem_of_fmap. exists c. by rewrite Hcs.
  - destruct F6 as (d & q1 & q2 & Eq & H1 & H2).
    assert (Hmap : length cur = d \/ length cur = S d -> Forall (fun p => length p = S (length cur)) (map (fun c => cur ++ [c]) cs)).
    { intros _. apply Forall_forall. intros x (c & -> & _)%list_elem_of_fmap. rewrite length_app. simpl. lia. }
    destruct q1 as [|y q1]; simpl in Eq.
    + subst q2. apply Forall_cons in H2 as [H2 H3]. exists (S d), queue, (map (fun c => cur ++ [c]) cs).
      split; [done|]. split; [done|]. rewrite <- H2. auto.
    + injection Eq as <- ->. apply Forall_cons in H1 as [H1 H3]. exists d, q1, (q2 ++ map (fun c => cur ++ [c]) cs).
      split; [by rewrite app_assoc|]. split; [done|]. apply Forall_app. split; [done|]. rewrite <- H1. auto.
Qed.

Lemma visit_children_spec (visit : gmap path TrieNode -> path -> Z -> option (gmap path TrieNode)) (P : gmap path TrieNode -> list path -> Prop) p cs :
  (forall t L c, P t L -> node_in (p ++ [c]) ->
    (forall q, node_in q -> (length q <= length p)%nat -> q ∈ L) -> p ++ [c] ∉ L ->
    exists t', visit t p c = Some t' /\ P t' (L ++ [p ++ [c]])) ->
  NoDup cs -> forall t L, P t L ->
  (forall q, node_in q -> (length q <= length p)%nat -> q ∈ L) ->
  (forall c, c ∈ cs -> node_in (p ++ [c]) /\ p ++ [c] ∉ L) ->
  exists t', visit_children visit t p cs = Some t' /\ P t' (L ++ map (fun c => p ++ [c]) cs).
Proof.
  intros visit_ok. induction 1 as [|c cs Hc Hnd IH]; intros t L HP Hq Hcs; cbn [visit_children].
  - exists t. by rewrite app_nil_r.
  - destruct (Hcs c) as [H1 H2]; [constructor|].
    destruct (visit_ok t L c HP H1 Hq H2) as (t' & -> & HP'). cbn [mbind option_bind].
    destruct (IH t' (L ++ [p ++ [c]]) HP') as (t'' & -> & HP'').
    + intros q Hin Hlen. apply elem_of_app. left. auto.
    + intros c' Hc'. destruct (Hcs c') as [H3 H4]; [by constructor|]. split; [done|].
      intros [H|H]%elem_of_app; [done|]. apply list_elem_of_singleton in H. by apply app_inj_2 in H as [_ [= ->]].
    + exists t''. by rewrite <- app_assoc in HP''.
Qed.

Section Traversal.
Context (visit : gmap path TrieNode -> path -> Z -> option (gmap path TrieNode)) (P : gmap path TrieNode -> list path -> Prop).
Hypothesis P_shape : forall t L, P t L -> shape t.
Hypothesis visit_ok : forall t L p c, P t L -> node_in p -> node_in (p ++ [c]) ->
  (forall q, node_in q -> (length q <= length p)%nat -> q ∈ L) -> p ++ [c] ∉ L ->
  exists t', visit t p c = Some t' /\ P t' (L ++ [p ++ [c]]).

Lemma frontier_size popped queue : frontier popped queue -> (length (popped ++ queue) <= base.size t0)%nat.
Proof.
  intros F. rewrite <- (size_list_to_set (C := gset path)) by apply (fr_nodup _ _ F). rewrite <- size_dom.
  apply subseteq_size. intros x Hx%elem_of_list_to_set. apply elem_of_dom.
  pose proof (fr_in _ _ F) as H. rewrite Forall_forall in H. by apply H.
Qed.

Lemma bfs_spec fuel : forall popped queue t, frontier popped queue -> P t (popped ++ queue) ->
  (base.size t0 <= fuel + length popped)%nat ->
  exists t' L, bfs visit fuel t queue = Some t' /\ P t' L /\ (forall p, node_in p -> p ∈ L).
Proof.
  induction fuel as [|fuel IH]; intros popped [|cur queue] t F HP Hf; cbn [bfs].
  1, 3: (exists t, (popped ++ []); split; [done|]; split; [done|]; intros p Hp;
    destruct (frontier_reach _ _ F p Hp) as [|(a & c & s & Ha & _)]; [done|by apply elem_of_nil in Ha]).
  - pose proof (frontier_size _ _ F) as H. rewrite length_app in H. simpl in *. lia.
  - pose proof (P_shape _ _ HP) as Hs. pose proof (fr_in _ _ F) as Hin. rewrite Forall_forall in Hin.
    assert (Hcur : node_in cur) by (apply Hin, elem_of_app; right; constructor).
    pose proof (frontier_step _ _ _ (children t cur) F (children_nodup t cur) (fun c => children_elem t cur c Hs)) as F'.
    destruct (visit_children_spec visit P cur (children t cur) (fun t L c HP => visit_ok t L cur c HP Hcur) (children_nodup _ _) t _ HP (frontier_depth _ _ _ F)) as (t' & -> & HP').
    { intros c Hc. split; [by apply (children_elem t)|]. intros H. apply (fr_parent _ _ F) in H.
      pose proof (fr_nodup _ _ F) as Hnd. apply NoDup_app in Hnd as (_ & Hnd & _). apply (Hnd cur H). constructor. }
    cbn [mbind option_bind]. apply (IH (popped ++ [cur])); [done| |rewrite length_app; simpl; lia].
    by rewrite <- !app_assoc in *.
Qed.
End Traversal.

Lemma shape_alter t f p : shape t -> shape (alter f p t).
Proof.
  intros Hs q. rewrite <- (Hs q). destruct (decide (p = q)) as [->|H]; [|by rewrite lookup_alter_ne].
  rewrite lookup_alter_eq. by rewrite fmap_is_Some.
Qed.

(** *** The links *)

(** Every node keeps its value; the nodes of [L] have their links. *)
Definition linking (t : gmap path TrieNode) (L : list path) : Prop :=
  shape t /\ (forall p, val_of t p = val_of t0 p) /\ (forall p, p ∈ L -> node_in p -> linked t p) /\ linked t [].

Lemma linked_tail p c : p <> [] -> node_in p -> match p ++ [c] with [] => None | _ :: p' => Some (lsuf p') end
  = Some (lsuf (tail p ++ [c])).
Proof. by destruct p. Qed.

Lemma set_link_linking t L p l : linking t L -> node_in p -> p <> [] -> l = lsuf (tail p) ->
  linking (alter (set_link l) p t) (L ++ [p]).
Proof.
  intros (H1 & H2 & H3 & H4) Hp Hne ->. split; [by apply shape_alter|]. split; [|split].
  - intros q. rewrite <- H2. unfold val_of. destruct (decide (p = q)) as [->|H]; [|by rewrite lookup_alter_ne].
    rewrite lookup_alter_eq. by destruct (t !! q).
  - intros q Hq Hin. unfold linked. destruct (decide (p = q)) as [->|H].
    + rewrite lookup_alter_eq. apply H1 in Hp as [n ->]. by destruct q.
    + rewrite lookup_alter_ne by done. apply elem_of_app in Hq as [Hq|Hq%list_elem_of_singleton]; [by apply H3|by subst].
  - unfold linked. by rewrite lookup_alter_ne.
Qed.

Lemma link_child_ok t L p c : linking t L -> p <> [] -> node_in p -> node_in (p ++ [c]) ->
  (forall q, node_in q -> (length q <= length p)%nat -> q ∈ L) ->
  exists t', link_child t p c = Some t' /\ linking t' (L ++ [p ++ [c]]).
Proof.
  intros HP Hne Hp Hc Hq. pose proof HP as (Hs & Hv & HL & Hroot). unfold link_child.
  pose proof (HL p ltac:(auto) Hp) as Hlink. unfold linked in Hlink. destruct (t !! p) as [n|]; [|done].
  cbn [mbind option_bind]. simpl in Hlink. injection Hlink as Hlink. destruct p as [|d p]; [done|]. rewrite Hlink.
  pose proof (lsuf_length p) as Hlen.
  destruct (find_suffix_spec t c Hs (S (length (d :: p))) p) as (r & -> & Hr).
  - simpl. lia.
  - intros q Hin Hle. apply HL; [|done]. apply Hq; [done|simpl; lia].
  - cbn [mbind option_bind]. eexists. split; [done|]. rewrite Hr. by apply set_link_linking.
Qed.

Lemma shape_size t : shape t -> base.size t = base.size t0.
Proof.
  intros Hs. rewrite <- !size_dom. f_equal. apply set_eq. intros p. rewrite !elem_of_dom. apply Hs.
Qed.

Lemma frontier_start : frontier [] [[]].
Proof.
  split; simpl.
  - constructor.
  - apply NoDup_singleton.
  - by constructor.
  - intros p c H%list_elem_of_singleton. by destruct p.
  - by intros p c H%elem_of_nil.
  - exists 0%nat, [[]], []. split; [done|]. by split; repeat constructor.
Qed.

Lemma fix_suffix_links_spec : linked t0 [] -> exists t, fix_suffix_links t0 = Some t /\
  shape t /\ (forall p, val_of t p = val_of t0 p) /\ (forall p, node_in p -> linked t p).
Proof.
  intros Hroot. assert (Hs0 : shape t0) by done.
  assert (H0 : linking t0 [[]]).
  { split; [done|]. split; [done|]. split; [|done]. by intros p ->%list_elem_of_singleton. }
  unfold fix_suffix_links.
  destruct (visit_children_spec link_root_child linking [] (children t0 [])) with (t := t0) (L := [[] : path])
    as (t1 & -> & H1); [|apply children_nodup|done|..].
  - intros t L c HP Hc _ _. eexists. split; [done|]. apply set_link_linking; try done.
    simpl. by rewrite decide_True.
  - intros q _ Hq. destruct q; [constructor|simpl in Hq; lia].
  - intros c Hc. split; [by apply (children_elem t0)|]. by intros H%list_elem_of_singleton.
  - cbn [mbind option_bind]. rewrite shape_size by apply H1.
    pose proof (frontier_step _ _ _ (children t0 []) frontier_start (children_nodup _ _) (fun c => children_elem t0 [] c Hs0)) as F.
    simpl in F.
    edestruct (bfs_spec link_child (fun t L => linking t L /\ forall c, node_in [c] -> [c] ∈ L))
      as (t2 & L & E & [H2 _] & H3); [| |exact F| | |rewrite E].
    + by intros t L [(? & _) _].
    + intros t L p c [HP HL] Hp Hc Hq Hn. destruct (decide (p = [])) as [->|Hne]; [by destruct Hn; apply HL|].
      destruct (link_child_ok t L p c HP Hne Hp Hc Hq) as (t' & E & HP'). exists t'. split; [done|].
      split; [done|]. intros c' Hc'. apply elem_of_app. left. auto.
    + split; [exact H1|]. intros c Hc. simpl. right. apply list_elem_of_fmap. exists c. split; [done|].
      by apply (children_elem t0).
    + simpl. lia.
    + exists t2. destruct H2 as (H4 & H5 & H6 & H7). split; [done|]. split; [done|]. split; [done|]. auto.
Qed.

(** *** The values *)

(** The least value of the suffixes of [s]. *)
Fixpoint minval (s : path) : Z :=
  match s with [] => UINT32_MAX | _ :: s' => Z.min (val_of t0 s) (minval s') end.

Hypothesis root_value : val_of t0 [] = UINT32_MAX.
Hypothesis value_le : forall p, val_of t0 p <= UINT32_MAX.

Lemma minval_le s : minval s <= UINT32_MAX.
Proof. induction s as [|c s IH]; cbn [minval]; lia. Qed.

Lemma minval_lsuf s : minval (lsuf s) = minval s.
Proof.
  induction s as [|c s IH]; cbn [lsuf]; [by case_decide|]. destruct (decide (node_in (c :: s))) as [|H]; [done|].
  cbn [minval]. rewrite IH. pose proof (minval_le s). unfold val_of at 1.
  destruct (t0 !! (c :: s)) eqn:E; [|simpl; lia]. destruct H. by exists t.
Qed.

Definition lowering (t : gmap path TrieNode) (L : list path) : Prop :=
  shape t /\ (forall p, node_in p -> linked t p) /\
  (forall p, node_in p -> val_of t p = if decide (p ∈ L) then minval p else val_of t0 p).

Lemma lower_child_ok t L p c : lowering t L -> node_in p -> node_in (p ++ [c]) ->
  (forall q, node_in q -> (length q <= length p)%nat -> q ∈ L) -> p ++ [c] ∉ L ->
  exists t', lower_child t p c = Some t' /\ lowering t' (L ++ [p ++ [c]]).
Proof.
  intros (Hs & Hl & Hv) Hp Hc Hq Hn. unfold lower_child. set (q := p ++ [c]) in *.
  pose proof (Hl q Hc) as Hlink. pose proof (Hv q Hc) as Hval. rewrite decide_False in Hval by done. unfold linked in Hlink. unfold val_of in Hval at 1.
  destruct (t !! q) as [n|] eqn:Eq; [|done]. simpl in Hlink, Hval. injection Hlink as Hlink. cbn [mbind option_bind]. rewrite Hlink.
  assert (Hlen : length q = S (length p)) by (unfold q; rewrite length_app; simpl; lia).
  destruct q as [|d q'] eqn:E; [done|]. simpl in Hlen. injection Hlen as Hlen. rewrite <- E in *. cbn [mbind option_bind].
  pose proof (lsuf_in q') as Hin. pose proof (lsuf_length q') as Hle. pose proof (Hv _ Hin) as Hval2.
  rewrite decide_True in Hval2 by (apply Hq; [done|lia]). rewrite minval_lsuf in Hval2. unfold val_of in Hval2.
  destruct (t !! lsuf q') as [n'|] eqn:En; [|by apply Hs in Hin as [? ?]; congruence]. simpl in Hval2. cbn [mbind option_bind].
  eexists. split; [done|]. split; [by apply shape_alter|]. split.
  - intros x Hx. unfold linked. destruct (decide (q = x)) as [<-|H]; [|rewrite lookup_alter_ne by done; by apply Hl].
    rewrite lookup_alter_eq, Eq. simpl. by rewrite Hlink, E.
  - intros x Hx. unfold val_of at 1. destruct (decide (q = x)) as [<-|H].
    + rewrite lookup_alter_eq, Eq. simpl. rewrite decide_True by (apply elem_of_app; right; constructor).
      rewrite E. cbn [minval]. rewrite <- E. by rewrite Hval, Hval2.
    + rewrite lookup_alter_ne by done. change (from_option value UINT32_MAX (t !! x)) with (val_of t x). rewrite (Hv x Hx).
      destruct (decide (x ∈ L)) as [Hx1|Hx1], (decide (x ∈ L ++ [q])) as [Hx2|Hx2]; try done.
      * destruct Hx2. apply elem_of_app. by left.
      * apply elem_of_app in Hx2 as [?|Hx2%list_elem_of_singleton]; [done|by subst].
Qed.

(** A trie that is ready for searching. *)
Definition ready (t : gmap path TrieNode) : Prop :=
  shape t /\ (forall p, node_in p -> linked t p) /\ (forall p, node_in p -> val_of t p = minval p).

Lemma compile_trie_spec : linked t0 [] ->
  exists t, (t ← fix_suffix_links t0; fix_values t) = Some t /\ ready t.
Proof.
  intros Hroot. destruct (fix_suffix_links_spec Hroot) as (t1 & -> & Hs & Hv & Hl). cbn [mbind option_bind].
  unfold fix_values. rewrite shape_size by done.
  edestruct (bfs_spec lower_child lowering) as (t2 & L & E & (H1 & H2 & H3) & H4); [| |exact frontier_start| | |rewrite E].
  - by intros t L [? _].
  - intros t L p c HP Hp. by apply lower_child_ok.
  - split; [done|]. split; [done|]. intros p Hp. rewrite Hv. case_decide as Hd; [|done].
    simpl in Hd. apply list_elem_of_singleton in Hd as ->. by rewrite root_value.
  - simpl. lia.
  - exists t2. split; [done|]. split; [done|]. split; [done|]. intros p Hp. rewrite (H3 p Hp). rewrite decide_True; auto.
Qed.

(** *** The search *)

Lemma minval_spec m s : m <= minval s <-> m <= UINT32_MAX /\ forall a w, s = a ++ w -> m <= val_of t0 w.
Proof.
  induction s as [|c s IH]; cbn [minval].
  - split; [|tauto]. intros H. split; [done|]. intros a w E. apply eq_sym, app_eq_nil in E as [_ ->]. by rewrite root_value.
  - rewrite Z.min_glb_iff, IH. split.
    + intros (H1 & H2 & H3). split; [done|]. intros [|d a] w E; simpl in E; [by subst|]. injection E as -> ->. by apply (H3 a).
    + intros [H1 H2]. split; [by apply (H2 [])|]. split; [done|]. intros a w ->. by apply (H2 (c :: a)).
Qed.

Lemma walk_all_spec t : ready t -> forall str s val, val <= UINT32_MAX ->
  exists r, walk_all t (lsuf s) val str = Some r /\ r <= UINT32_MAX /\
    forall m, m <= r <-> m <= val /\ forall u v, str = u ++ v -> u <> [] -> m <= minval (s ++ u).
Proof.
  intros (Hs & Hl & Hv). induction str as [|c str IH]; intros s val Hval; cbn [walk_all].
  - exists val. split; [done|]. split; [done|]. intros m. split; [|tauto]. intros H. split; [done|].
    intros u v E. by apply eq_sym, app_eq_nil in E as [-> _].
  - rewrite walk_spec; [|done|done|by rewrite Hv|lia|done]. cbn [mbind option_bind].
    rewrite (Hv _ (lsuf_in _)), minval_lsuf.
    destruct (IH (s ++ [c]) (Z.min val (minval (s ++ [c])))) as (r & -> & Hr1 & Hr2); [lia|].
    exists r. split; [done|]. split; [done|]. intros m. rewrite Hr2, Z.min_glb_iff. split.
    + intros [[H1 H2] H3]. split; [done|]. intros [|d u] v E Hu; [done|]. injection E as -> ->.
      destruct u as [|e u]; [done|]. specialize (H3 (e :: u) v eq_refl). rewrite <- app_assoc in H3. by apply H3.
    + intros [H1 H2]. split; [split; [done|by apply (H2 [c] str)]|]. intros u v -> _. rewrite <- app_assoc. by apply (H2 (c :: u) v).
Qed.
End Trie.

(** ** Building the trie *)

(** Before compilation: the words added so far with their values. *)
Record built (t : gmap path TrieNode) (words : list (bytes * Z)) : Prop := {
  bt_root : words <> [] -> node_in t [];
  bt_empty : words = [] -> t = ∅;
  bt_parent : forall p c, node_in t (p ++ [c]) -> node_in t p;
  bt_byte : forall p c, node_in t (p ++ [c]) -> 0 <= c < 256;
  bt_link : node_in t [] -> linked t t [];
  bt_value : forall m w, m <= val_of t w <-> m <= UINT32_MAX /\ forall v, (w, v) ∈ words -> m <= v }.

Lemma descend_spec s : all_bytes s -> forall t node, node_in t node ->
  (forall p c, node_in t (p ++ [c]) -> node_in t p /\ 0 <= c < 256) ->
  let '(t', p') := descend t node s in
  p' = node ++ s /\ node_in t' p' /\ (forall p, node_in t p -> node_in t' p) /\ (forall p, val_of t' p = val_of t p) /\
  (forall p c, node_in t' (p ++ [c]) -> node_in t' p /\ 0 <= c < 256) /\ t' !! [] = t !! [].
Proof.
  induction 1 as [|c s Hc Hs IH]; intros t node Hn Hp; cbn [descend]; [by rewrite app_nil_r|].
  set (t1 := match t !! (node ++ [c]) with Some _ => t | None => _ end).
  assert (H1 : node_in t1 (node ++ [c]) /\ (forall p, node_in t p -> node_in t1 p) /\ (forall p, val_of t1 p = val_of t p) /\
    (forall p d, node_in t1 (p ++ [d]) -> node_in t1 p /\ 0 <= d < 256) /\ t1 !! [] = t !! []).
  { unfold t1. destruct (t !! (node ++ [c])) as [n|] eqn:E; [split; [by exists n|done]|].
    assert (Hmono : forall p, node_in t p -> node_in (<[node ++ [c] := new_node]> t) p).
    { intros p H. apply lookup_insert_is_Some'. by right. }
    split; [apply lookup_insert_is_Some'; by left|]. split; [done|]. split; [|split].
    - intros p. unfold val_of. destruct (decide (node ++ [c] = p)) as [<-|H]; [|by rewrite lookup_insert_ne].
      rewrite E, lookup_insert_eq. done.
    - intros p d H. apply lookup_insert_is_Some' in H as [H|H].
      + apply app_inj_2 in H as [-> [= ->]]; [|done]. split; [by apply Hmono|warith].
      + destruct (Hp _ _ H). split; [by apply Hmono|done].
    - rewrite lookup_insert_ne; [done|by destruct node]. }
  destruct H1 as (H1 & H2 & H3 & H4 & H5). specialize (IH t1 (node ++ [c]) H1 H4).
  destruct (descend t1 (node ++ [c]) s) as [t' p']. destruct IH as (-> & I1 & I2 & I3 & I4 & I5).
  split; [by rewrite <- app_assoc|]. split; [done|]. split; [auto|]. split; [intros; by rewrite I3|]. split; [done|congruence].
Qed.

Lemma built_value_of t words : built t words -> forall w, val_of t w <= UINT32_MAX.
Proof. intros B w. by destruct (proj1 (bt_value _ _ B (val_of t w) w) ltac:(lia)). Qed.

(** Adding a word. *)
Lemma built_add t words w v : built t words -> all_bytes w ->
  let t1 := match t !! [] with Some _ => t | None => <[[] := new_node]> t end in
  let '(t2, node) := descend t1 [] w in
  built (alter (fun n => set_value (Z.min (value n) v) n) node t2) (words ++ [(w, v)]).
Proof.
  intros B Hw t1.
  assert (H1 : node_in t1 [] /\ (forall p c, node_in t1 (p ++ [c]) -> node_in t1 p /\ 0 <= c < 256) /\
    (forall p, val_of t1 p = val_of t p) /\ suffix_link <$> t1 !! [] = Some None).
  { unfold t1. destruct (t !! []) as [n|] eqn:E.
    - assert (Hin : node_in t []) by by exists n. split; [done|]. split; [|split; [done|]].
      + intros p c H. split; [by apply (bt_parent _ _ B p c)|by apply (bt_byte _ _ B p)].
      + pose proof (bt_link _ _ B Hin) as Hl. unfold linked in Hl. exact Hl.
    - split; [apply lookup_insert_is_Some'; by left|]. split; [|split].
      + intros p c H. apply lookup_insert_is_Some' in H as [H|H]; [by destruct p|].
        exfalso. assert (words = []) as Hn by (destruct words as [|x l]; [done|]; destruct (bt_root _ _ B ltac:(done)); congruence).
        apply (bt_empty _ _ B) in Hn as ->. by apply (lookup_empty_is_Some (p ++ [c])) in H.
      + intros p. unfold val_of. destruct (decide ([] = p)) as [<-|H]; [|by rewrite lookup_insert_ne].
        rewrite E, lookup_insert_eq. done.
      + by rewrite lookup_insert_eq. }
  destruct H1 as (H1 & H2 & H3 & H4). pose proof (descend_spec w Hw t1 [] H1 H2) as D.
  destruct (descend t1 [] w) as [t2 node]. destruct D as (-> & D1 & D2 & D3 & D4 & D5). simpl app in *.
  set (f := fun n => set_value (Z.min (value n) v) n). assert (Hs : forall p, node_in (alter f w t2) p <-> node_in t2 p).
  { intros p. unfold node_in. destruct (decide (w = p)) as [->|H]; [|by rewrite lookup_alter_ne].
    by rewrite lookup_alter_eq, fmap_is_Some. }
  split.
  - intros _. apply Hs. auto.
  - by destruct words.
  - intros p c H. apply Hs. apply (D4 p c). by apply Hs.
  - intros p c H. apply (D4 p c). by apply Hs.
  - intros _. unfold linked. destruct (decide (w = [])) as [->|H].
    + rewrite lookup_alter_eq, D5. rewrite <- H4. by destruct (t1 !! []).
    + by rewrite lookup_alter_ne, D5.
  - intros m p. assert (E : val_of (alter f w t2) p = if decide (p = w) then Z.min (val_of t p) v else val_of t p).
    { rewrite <- H3, <- D3. unfold val_of. case_decide as Hp.
      - subst p. rewrite lookup_alter_eq. destruct D1 as [n ->]. done.
      - by rewrite lookup_alter_ne. }
    rewrite E. destruct (decide (p = w)) as [->|Hp]; rewrite ?Z.min_glb_iff, (bt_value _ _ B); split.
    + intros [[Hm H] Hv]. split; [done|]. intros v' [Hv'|Hv']%elem_of_app; [auto|].
      apply list_elem_of_singleton in Hv'. by injection Hv' as ->.
    + intros [Hm H]. split; [split; [done|]; intros v' Hv'; apply H, elem_of_app; by left|].
      apply H, elem_of_app. right. constructor.
    + intros [Hm H]. split; [done|]. intros v' [Hv'|Hv']%elem_of_app; [auto|].
      apply list_elem_of_singleton in Hv'. by injection Hv' as -> ->.
    + intros [Hm H]. split; [done|]. intros v' Hv'. apply H, elem_of_app. by left.
Qed.

(** What [find] gets from the compiled trie. *)
Lemma built_search t words : built t words -> words <> [] -> (forall v, ([], v) ∉ words) ->
  exists t', (t ← fix_suffix_links t; fix_values t) = Some t' /\ is_Some (t' !! []) /\
    forall str, exists r, walk_all t' [] UINT32_MAX str = Some r /\ r <= UINT32_MAX /\
      forall m, m <= r <-> m <= UINT32_MAX /\ forall w v a b, (w, v) ∈ words -> str = a ++ w ++ b -> m <= v.
Proof.
  intros B Hne Hnil. pose proof (bt_root _ _ B Hne) as Hroot.
  assert (Hr : val_of t [] = UINT32_MAX).
  { apply Z.le_antisymm; [by apply (built_value_of _ _ B)|]. apply (bt_value _ _ B). split; [done|].
    intros v Hv. by destruct (Hnil v). }
  destruct (compile_trie_spec t Hroot (bt_parent _ _ B) (bt_byte _ _ B) Hr (bt_link _ _ B Hroot)) as (t' & E & HR).
  exists t'. split; [done|]. split; [by apply HR|]. intros str.
  destruct (walk_all_spec t Hroot (bt_parent _ _ B) t' HR str [] UINT32_MAX ltac:(done)) as (r & H1 & H2 & H3).
  rewrite lsuf_node in H1 by done. exists r. split; [done|]. split; [done|]. intros m. rewrite H3. split.
  - intros [Hm H]. split; [done|]. intros w v a b Hw ->.
    assert (Hu : a ++ w <> []) by (intros [_ ->]%app_eq_nil; by destruct (Hnil v)).
    specialize (H (a ++ w) b ltac:(by rewrite <- app_assoc) Hu). simpl in H.
    apply minval_spec in H as [_ H]; [|done]. specialize (H a w eq_refl). apply (bt_value _ _ B) in H as [_ H]. auto.
  - intros [Hm H]. split; [done|]. intros u v -> _. simpl. apply minval_spec; [done|]. split; [done|].
    intros a w ->. apply (bt_value _ _ B). split; [done|]. intros v' Hv'. apply (H w v' a v Hv'). by rewrite <- app_assoc.
Qed.

(** ** Simple patterns *)

Lemma class_pat_det p l1 : glob_pat p l1 -> forall l2, glob_pat p l2 -> l1 = l2.
Proof.
  induction 1 as [|p l H IH|p l H IH|p rs q l Hh Hi H IH|p rs q l Hi H IH|c p l Hs H IH]; intros l2 H2.
  - by inversion H2.
  - inversion H2 as [|p' l' H3|p' l' H3|p' rs' q' l' Hh' Hi' H3|p' rs' q' l' Hi' H3|c' p' l' Hs' H3]; subst; [by f_equal; auto|].
    destruct Hs'. unfold special. auto.
  - inversion H2 as [|p' l' H3|p' l' H3|p' rs' q' l' Hh' Hi' H3|p' rs' q' l' Hi' H3|c' p' l' Hs' H3]; subst; [by f_equal; auto|].
    destruct Hs'. unfold special. auto.
  - apply glob_pat_class in H2 as [(rs' & q' & l' & Hh' & Hi' & H3 & ->)|(p' & rs' & q' & l' & -> & _)]; [|by destruct Hh].
    destruct (class_items_det _ _ _ _ _ Hi Hi') as [<- <-]. by f_equal; auto.
  - apply glob_pat_class in H2 as [(rs' & q' & l' & Hh' & _)|(p' & rs' & q' & l' & [= <-] & Hi' & H3 & ->)]; [by destruct Hh'|].
    destruct (class_items_det _ _ _ _ _ Hi Hi') as [<- <-]. by f_equal; auto.
  - inversion H2 as [|p' l' H3|p' l' H3|p' rs' q' l' Hh' Hi' H3|p' rs' q' l' Hi' H3|c' p' l' Hs' H3]; subst;
      [destruct Hs; unfold special; auto..|]. by f_equal; auto.
Qed.

(** The string is in the language of the pattern as [Glob] reads it: a star that ends a
    pattern after another star stands for at least one character ([effective], see
    [Glob.glob_exact]). *)
Definition matches (pat str : bytes) : Prop := exists atoms, glob_pat pat atoms /\ lang (effective atoms) str.

Lemma matches_atoms pat atoms str : glob_pat pat atoms -> matches pat str <-> lang (effective atoms) str.
Proof.
  intros H. split; [|by exists atoms]. intros (atoms' & H' & Hl). by rewrite (class_pat_det _ _ H _ H').
Qed.

Definition opt {A} (b : bool) (l : list A) : list A := if b then l else [].

Lemma simple_shape pat : is_simple_pattern pat = true -> exists b e lit,
  pat = opt b [chr "*"] ++ lit ++ opt e [chr "*"] /\ lit <> [] /\ Forall (fun c => ~ special c) lit /\
  handle_stars pat = opt (negb b) [0] ++ lit ++ opt (negb e) [0].
Proof.
  intros H. unfold is_simple_pattern in H.
  set (s := if starts_with pat [chr "*"] then tail pat else pat) in *.
  set (lit := if ends_with s (chr "*") then take (length s - 1) s else s) in *. apply andb_prop in H as [H1 H2].
  apply negb_true_iff, bool_decide_eq_false in H1. set (b := starts_with pat [chr "*"]) in *. set (e := ends_with s (chr "*")) in *.
  assert (Hp : pat = opt b [chr "*"] ++ s).
  { unfold s. destruct b eqn:E; [|done]. by apply starts_with_spec in E. }
  assert (Hs : s = lit ++ opt e [chr "*"]).
  { unfold lit. destruct e eqn:E; simpl; [|by rewrite app_nil_r]. unfold e, ends_with in E. apply bool_decide_eq_true in E.
    apply last_Some in E as [s' ->]. rewrite length_app, Nat.add_sub. by rewrite take_app_length. }
  assert (Hlit : Forall (fun c => ~ special c) lit).
  { rewrite forallb_forall in H2. apply Forall_forall. intros c Hc. specialize (H2 c (proj1 (list_elem_of_In _ _) Hc)).
    unfold special. destruct (Z.eqb_spec c (chr "*")), (Z.eqb_spec c (chr "[")), (Z.eqb_spec c (chr "?")); naive_solver. }
  assert (He : ends_with pat (chr "*") = e).
  { unfold e, ends_with. rewrite Hp, last_app. destruct (last s) eqn:El; [done|].
    apply last_None in El. rewrite El in Hs. destruct lit; [done|discriminate Hs]. }
  exists b, e, lit. split; [by rewrite <- Hs|]. split; [done|]. split; [done|].
  unfold handle_stars. fold b. rewrite He. rewrite Hp, Hs.
  assert (Ht : forall n, n = length lit -> take n (lit ++ [chr "*"]) = lit) by (intros ? ->; apply take_app_length).
  destruct b, e; cbn [andb negb opt app drop]; rewrite ?app_nil_r; try done;
    rewrite Ht; rewrite ?app_nil_r; try done; simpl; rewrite length_app; simpl; lia.
Qed.

Lemma simple_atoms b e lit : Forall (fun c => ~ special c) lit ->
  glob_pat (opt b [chr "*"] ++ lit ++ opt e [chr "*"]) (opt b [AnyString] ++ map Lit lit ++ opt e [AnyString]).
Proof.
  intros H. assert (Hl : glob_pat (lit ++ opt e [chr "*"]) (map Lit lit ++ opt e [AnyString])).
  { induction H as [|c lit Hc Hl IH]; simpl; [|by constructor]. destruct e; simpl; repeat constructor. }
  destruct b; simpl; [by constructor|done].
Qed.

Lemma simple_effective b e lit : lit <> [] ->
  effective (opt b [AnyString] ++ map Lit lit ++ opt e [AnyString]) = opt b [AnyString] ++ map Lit lit ++ opt e [AnyString].
Proof.
  intros H. apply effective_id. intros l' E. destruct e; simpl in E.
  - rewrite app_assoc in E. change [AnyString; AnyString] with ([AnyString] ++ [AnyString]) in E. rewrite app_assoc in E.
    apply app_inj_2 in E as [E _]; [|done]. destruct lit as [|c lit] using rev_ind; [done|].
    rewrite map_app, app_assoc in E. by apply app_inj_2 in E as [_ ?].
  - rewrite app_nil_r in E. change [AnyString; AnyString] with ([AnyString] ++ [AnyString]) in E. rewrite app_assoc in E.
    destruct lit as [|c lit] using rev_ind; [done|]. rewrite map_app, app_assoc in E. by apply app_inj_2 in E as [_ ?].
Qed.

Definition nul_free (s : bytes) : Prop := Forall (fun c => c <> 0) s.

Lemma nul_split s a b : nul_free s -> s ++ [0] = a ++ 0 :: b -> a = s /\ b = [].
Proof.
  intros H. revert a. induction H as [|c s Hc Hs IH]; intros [|d a] E; simpl in E.
  - by injection E as <-.
  - injection E as _ E. by destruct a.
  - by injection E as -> _.
  - injection E as <- E. by destruct (IH a E) as [-> ->].
Qed.

Lemma nul_tail s a lit b : nul_free lit -> lit <> [] -> s ++ [0] = a ++ lit ++ b ->
  exists b', b = b' ++ [0] /\ s = a ++ lit ++ b'.
Proof.
  intros Hl Hne E. destruct b as [|x b] using rev_ind.
  - rewrite app_nil_r in E. destruct lit as [|y lit] using rev_ind; [done|]. rewrite app_assoc in E.
    apply app_inj_2 in E as [_ [= <-]]; [|done]. apply Forall_app in Hl as [_ Hl]. by apply Forall_cons in Hl as [? _].
  - rewrite !app_assoc in E. apply app_inj_2 in E as [-> [= <-]]; [|done]. exists b. by rewrite app_assoc.
Qed.

(** The word of a simple pattern occurs in the marked string exactly when the string
    matches. *)
Lemma simple_matches b e lit str : lit <> [] -> Forall (fun c => ~ special c) lit -> nul_free lit -> nul_free str ->
  (exists a r, [0] ++ str ++ [0] = a ++ (opt (negb b) [0] ++ lit ++ opt (negb e) [0]) ++ r) <->
  matches (opt b [chr "*"] ++ lit ++ opt e [chr "*"]) str.
Proof.
  intros Hne Hsp Hlit Hstr. rewrite (matches_atoms _ _ _ (simple_atoms b e lit Hsp)), simple_effective by done.
  assert (Hl : lang (opt b [AnyString] ++ map Lit lit ++ opt e [AnyString]) str <->
    exists s1 s2, str = s1 ++ lit ++ s2 /\ (b = false -> s1 = []) /\ (e = false -> s2 = [])).
  { assert (He : forall s, lang (opt e [AnyString]) s <-> (e = false -> s = [])).
    { intros s. destruct e; simpl; [|naive_solver]. split; [done|]. intros _. exists s, []. by rewrite app_nil_r. }
    destruct b; simpl; setoid_rewrite lang_lits; setoid_rewrite He.
    - split; [intros (s1 & s2 & -> & s3 & -> & H); by exists s1, s3|intros (s1 & s3 & -> & _ & H)].
      exists s1, (lit ++ s3). split; [done|]. by exists s3.
    - split; [intros (s2 & -> & H); exists [], s2; done|intros (s1 & s2 & -> & H1 & H2)].
      rewrite (H1 eq_refl). by exists s2. }
  rewrite Hl. clear Hl. split.
  - intros (a & r & E). destruct b; cbn [negb opt app] in E.
    + destruct a as [|x a]; cbn [app] in E.
      { destruct lit as [|c lit]; [done|]. injection E as <- _. by apply Forall_cons in Hlit as [? _]. }
      injection E as _ E. destruct e; cbn [negb opt] in E.
      * rewrite app_nil_r in E. destruct (nul_tail _ _ _ _ Hlit Hne E) as (r' & _ & ->). by exists a, r'.
      * rewrite <- app_assoc, app_assoc in E. destruct (nul_split _ _ _ Hstr E) as [<- _]. exists a, []. by rewrite app_nil_r.
    + destruct a as [|x a]; cbn [app] in E; [injection E as E|injection E as _ E].
      * destruct e; cbn [negb opt] in E.
        -- rewrite app_nil_r in E. destruct (nul_tail _ [] _ _ Hlit Hne E) as (r' & _ & ->). by exists [], r'.
        -- rewrite <- app_assoc in E. destruct (nul_split _ _ _ Hstr E) as [<- _]. exists [], []. by rewrite app_nil_r.
      * destruct (nul_split _ _ _ Hstr E) as [_ E2]. by destruct lit.
  - intros (s1 & s2 & -> & H1 & H2). destruct b; cbn [negb opt app].
    + exists ([0] ++ s1), (opt e (s2 ++ [0])). destruct e; simpl; rewrite <- ?app_assoc; [done|].
      rewrite H2 by done. by rewrite app_nil_r.
    + rewrite H1 by done. exists [], (opt e (s2 ++ [0])). destruct e; simpl; rewrite <- ?app_assoc; [done|].
      rewrite H2 by done. by rewrite app_nil_r.
Qed.

(** ** The whole *)

Fixpoint add_all (mg : MultiGlob) (l : list (bytes * Z)) : list bool * MultiGlob :=
  match l with
  | [] => ([], mg)
  | (pat, v) :: l =>
      let '(ok, mg) := add mg pat v in
      let '(oks, mg) := add_all mg l in (ok :: oks, mg)
  end.

Fixpoint find_all (char_signed : bool) (mg : MultiGlob) (strs : list bytes) : option (list (option Z) * MultiGlob) :=
  match strs with
  | [] => Some ([], mg)
  | str :: strs =>
      '(r, mg) ← find char_signed mg str;
      '(rs, mg) ← find_all char_signed mg strs;
      Some (r :: rs, mg)
  end.

Definition words (pats : list (bytes * Z)) : list (bytes * Z) :=
  omap (fun '(pat, v) => if is_simple_pattern pat then Some (handle_stars pat, v) else None) pats.
Definition complex (pats : list (bytes * Z)) : list (list Element * Z) :=
  omap (fun '(pat, v) => if is_simple_pattern pat then None else g ← Glob.compile pat; Some (g, v)) pats.

Definition pat_ok (p : bytes * Z) : Prop := all_bytes p.1 /\ nul_free p.1 /\ 0 <= p.2 < UINT32_MAX.

Lemma words_elem pats w v : (w, v) ∈ words pats <->
  exists pat, (pat, v) ∈ pats /\ is_simple_pattern pat = true /\ handle_stars pat = w.
Proof.
  unfold words. rewrite list_elem_of_omap. split.
  - intros ([pat v'] & Hp & H). destruct (is_simple_pattern pat) eqn:E; [|done]. injection H as <- <-. by exists pat.
  - intros (pat & Hp & H & <-). exists (pat, v). split; [done|]. by rewrite H.
Qed.

Lemma handle_stars_bytes pat : is_simple_pattern pat = true -> all_bytes pat -> all_bytes (handle_stars pat) /\ handle_stars pat <> [].
Proof.
  intros (b & e & lit & -> & Hne & _ & ->)%simple_shape H. rewrite !Forall_app in *. destruct H as (_ & Hl & _).
  assert (H0 : forall x, all_bytes (opt x [0])) by (intros []; repeat constructor; warith).
  split; [done|]. intros [_ [-> _]%app_eq_nil]%app_eq_nil. done.
Qed.

(** Adding keeps the state built. *)
Lemma add_all_spec l : Forall pat_ok l -> forall mg pats,
  built (nodes mg) (words pats) -> globs mg = complex pats -> is_compiled mg = false ->
  let '(oks, mg') := add_all mg l in
  Forall2 (fun '(pat, _) ok => ok = true <-> exists atoms, glob_pat pat atoms) l oks /\
  built (nodes mg') (words (pats ++ l)) /\ globs mg' = complex (pats ++ l) /\ is_compiled mg' = false.
Proof.
  induction 1 as [|[pat v] l (Hb & Hn & Hv) Hl IH]; intros mg pats B Hg Hc; cbn [add_all]; [by rewrite app_nil_r|].
  simpl in Hb, Hn, Hv. pose proof (glob_exact true pat Hb) as Hcomp.
  assert (Hstep : let '(ok, mg1) := add mg pat v in
    (ok = true <-> exists atoms, glob_pat pat atoms) /\ built (nodes mg1) (words (pats ++ [(pat, v)])) /\
    globs mg1 = complex (pats ++ [(pat, v)]) /\ is_compiled mg1 = false).
  { unfold add. unfold words, complex. rewrite !omap_app. simpl. destruct (is_simple_pattern pat) eqn:E; cbn [negb].
    - destruct (handle_stars_bytes pat E Hb) as [H1 _]. pose proof (built_add _ _ (handle_stars pat) v B H1) as HB.
      cbv zeta in HB. destruct (descend _ [] (handle_stars pat)) as [t node]. cbn [nodes globs is_compiled].
      split; [|rewrite app_nil_r; split; [exact HB|by split]]. split; [intros _|done].
      destruct (simple_shape pat E) as (b & e & lit & -> & _ & Hs & _). eexists. by apply simple_atoms.
    - destruct (Glob.compile pat) as [g|]; cbn [nodes globs is_compiled mbind option_bind]; rewrite !app_nil_r.
      + destruct Hcomp as (atoms & Ha & _). split; [split; [by exists atoms|done]|]. split; [exact B|]. by rewrite Hg.
      + split; [split; [done|intros [atoms Ha]; by apply Hcomp in Ha]|]. split; [exact B|by split]. }
  destruct (add mg pat v) as [ok mg1]. destruct Hstep as (H1 & H2 & H3 & H4).
  specialize (IH mg1 (pats ++ [(pat, v)]) H2 H3 H4). destruct (add_all mg1 l) as [oks mg'].
  destruct IH as (I1 & I2). rewrite <- app_assoc in I2. split; [by constructor|done].
Qed.

Section Search.
Context (char_signed : bool) (pats : list (bytes * Z)) (Hpats : Forall pat_ok pats).

(** Ready to search. *)
Definition searchable (t : gmap path TrieNode) : Prop :=
  match t !! [] with
  | None => words pats = []
  | Some _ => forall str, exists r, walk_all t [] UINT32_MAX str = Some r /\ r <= UINT32_MAX /\
      forall m, m <= r <-> m <= UINT32_MAX /\ forall w v a b, (w, v) ∈ words pats -> str = a ++ w ++ b -> m <= v
  end.

Definition state_ok (mg : MultiGlob) : Prop :=
  globs mg = complex pats /\ if is_compiled mg then searchable (nodes mg) else built (nodes mg) (words pats).

Lemma pats_ok pat v : (pat, v) ∈ pats -> pat_ok (pat, v).
Proof. rewrite Forall_forall in Hpats. apply Hpats. Qed.

Lemma compile_ok mg : state_ok mg ->
  exists mg', (if is_compiled mg then Some mg else compile mg) = Some mg' /\
    globs mg' = complex pats /\ is_compiled mg' = true /\ searchable (nodes mg').
Proof.
  intros [Hg H]. destruct (is_compiled mg) eqn:E; [by exists mg|]. unfold compile, searchable.
  destruct (decide (words pats = [])) as [Hw|Hw].
  - rewrite (bt_empty _ _ H Hw). rewrite lookup_empty. eexists. split; [done|]. simpl. by rewrite lookup_empty.
  - assert (Hnil : forall v, ([], v) ∉ words pats).
    { intros v (pat & Hp & Hs & Hh)%words_elem. by destruct (handle_stars_bytes pat Hs (proj1 (pats_ok _ _ Hp))) as [_ ?]. }
    destruct (built_search _ _ H Hw Hnil) as (t & Et & Hroot & Ht). destruct (bt_root _ _ H Hw) as [n ->]. rewrite Et.
    eexists. split; [done|]. simpl. split; [done|]. split; [done|]. destruct Hroot as [n' ->]. done.
Qed.

Lemma match_globs_spec str : readable char_signed str -> forall l, Forall pat_ok l -> forall val,
  exists r, match_globs char_signed (complex l) str val = Some r /\
    forall m, m <= r <-> m <= val /\
      forall pat v, (pat, v) ∈ l -> is_simple_pattern pat = false -> matches pat str -> m <= v.
Proof.
  intros Hr. induction 1 as [|[pat v] l (Hb & _) Hl IH]; intros val.
  - exists val. split; [done|]. intros m. split; [|tauto]. intros H. split; [done|]. by intros pat v Hp%elem_of_nil.
  - unfold complex. simpl omap. fold (complex l). simpl in Hb. pose proof (glob_exact char_signed pat Hb) as Hc.
    assert (Hskip : (is_simple_pattern pat = false -> ~ matches pat str) ->
      exists r, match_globs char_signed (complex l) str val = Some r /\ forall m, m <= r <-> m <= val /\
      forall pat' v', (pat', v') ∈ (pat, v) :: l -> is_simple_pattern pat' = false -> matches pat' str -> m <= v').
    { intros Hn. destruct (IH val) as (r & E & Hm). exists r. split; [done|]. intros m. rewrite Hm. split.
      - intros [H1 H2]. split; [done|]. intros pat' v' [[= -> ->]|Hp]%elem_of_cons Hs Hma; [by destruct Hn|by apply (H2 pat')].
      - intros [H1 H2]. split; [done|]. intros pat' v' Hp. apply H2. by constructor. }
    destruct (is_simple_pattern pat) eqn:E; [by apply Hskip|]. destruct (Glob.compile pat) as [g|].
    2: { apply Hskip. intros _ (atoms & Ha & _). by apply Hc in Ha. }
    destruct Hc as (atoms & Ha & Hd). destruct (Hd str Hr) as (b & Eb & Hbl).
    rewrite <- (matches_atoms _ _ _ Ha) in Hbl. cbn [mbind option_bind match_globs].
    change (omap _ l) with (complex l). rewrite Eb. cbn [mbind option_bind]. destruct b.
    + destruct (IH (Z.min val v)) as (r & E' & Hm). exists r. split; [done|]. intros m. rewrite Hm, Z.min_glb_iff. split.
      * intros [[H1 H2] H3]. split; [done|]. intros pat' v' [[= -> ->]|Hp]%elem_of_cons Hs Hma; [done|by apply (H3 pat')].
      * intros [H1 H2]. split; [split; [done|]|]; [apply (H2 pat v); [constructor|done|by apply Hbl]|].
        intros pat' v' Hp. apply H2. by constructor.
    + apply Hskip. intros _ H. by apply Hbl in H.
Qed.

(** The least element of a set, if it has one. *)
Definition least (r : option Z) (S : Z -> Prop) : Prop :=
  match r with Some v => S v /\ (forall v', S v' -> v <= v') | None => forall v, ~ S v end.

Definition matched (str : bytes) (v : Z) : Prop := exists pat, (pat, v) ∈ pats /\ matches pat str.

Lemma matches_dec str pat : readable char_signed str -> all_bytes pat -> matches pat str \/ ~ matches pat str.
Proof.
  intros Hr Hb. pose proof (glob_exact char_signed pat Hb) as H. destruct (Glob.compile pat) as [g|].
  - destruct H as (atoms & Ha & Hd). destruct (Hd str Hr) as (b & _ & Hbl). rewrite (matches_atoms _ _ _ Ha).
    destruct b; [left; by apply Hbl|right; intros ?%Hbl; done].
  - right. intros (atoms & Ha & _). by apply H in Ha.
Qed.

(** A number that is below exactly the lower bounds of the matched values. *)
Lemma least_bound str r : readable char_signed str -> r <= UINT32_MAX ->
  (forall m, m <= r <-> m <= UINT32_MAX /\ forall v, matched str v -> m <= v) ->
  least (if r =? UINT32_MAX then None else Some r) (matched str).
Proof.
  intros Hr Hle H. destruct (proj1 (H r) ltac:(lia)) as [_ Hlow]. destruct (Z.eqb_spec r UINT32_MAX) as [->|Hne]; simpl.
  - intros v Hv. pose proof (Hlow v Hv). destruct Hv as (pat & Hp & _). apply pats_ok in Hp as (_ & _ & Hp). simpl in Hp. lia.
  - split; [|done].
    assert (Hd : forall l, Forall pat_ok l -> (exists pat, (pat, r) ∈ l /\ matches pat str) \/
      forall pat, (pat, r) ∈ l -> ~ matches pat str).
    { induction 1 as [|[pat v] l (Hb & _) Hl IH]; [right; by intros pat Hp%elem_of_nil|].
      destruct IH as [(pat' & Hp & Hm)|IH]; [left; exists pat'; split; [by constructor|done]|].
      destruct (decide (v = r)) as [->|Hv]; [destruct (matches_dec str pat Hr Hb) as [Hm|Hm]|].
      - left. exists pat. split; [constructor|done].
      - right. intros pat' [[= ->]|Hp]%elem_of_cons; auto.
      - right. intros pat' [[= -> ->]|Hp]%elem_of_cons; auto. }
    destruct (Hd pats Hpats) as [Hm|Hm]; [done|]. exfalso. assert (r + 1 <= r); [|lia]. apply H. split; [lia|].
    intros v (pat & Hp & Hma). assert (v <> r) by (intros ->; by apply (Hm pat)).
    assert (r <= v) by (apply Hlow; by exists pat). lia.
Qed.

Lemma find_ok mg str : state_ok mg -> readable char_signed str -> nul_free str ->
  exists r mg', find char_signed mg str = Some (r, mg') /\ state_ok mg' /\ least r (matched str).
Proof.
  intros HS Hr Hn. destruct (compile_ok mg HS) as (mg' & E & Hg & Hc & Hs). unfold find. rewrite E. cbn [mbind option_bind].
  assert (Hwalk : exists val, match nodes mg' !! [] with
      | Some _ => walk_all (nodes mg') [] UINT32_MAX ([0] ++ str ++ [0]) | None => Some UINT32_MAX end = Some val /\
    val <= UINT32_MAX /\ forall m, m <= val <-> m <= UINT32_MAX /\
      forall pat v, (pat, v) ∈ pats -> is_simple_pattern pat = true -> matches pat str -> m <= v).
  { assert (Hw : forall pat, pat_ok (pat, 0) -> is_simple_pattern pat = true ->
      (exists a r, [0] ++ str ++ [0] = a ++ handle_stars pat ++ r) <-> matches pat str).
    { intros pat (_ & Hp & _) (b & e & lit & -> & Hne & Hsp & ->)%simple_shape. simpl in Hp. unfold nul_free in Hp.
      rewrite !Forall_app in Hp. destruct Hp as (_ & Hp & _). by apply simple_matches. }
    unfold searchable in Hs. destruct (nodes mg' !! []).
    - destruct (Hs ([0] ++ str ++ [0])) as (val & -> & Hle & Hm). exists val. split; [done|]. split; [done|]. intros m. rewrite Hm.
      split; intros [H1 H2]; (split; [done|]).
      + intros pat v Hp Hsi Hma. apply Hw in Hma as (a & b & Eq); [|destruct (pats_ok _ _ Hp) as (? & ? & _); split; [done|split; [done|simpl; warith]]|done].
        apply (H2 (handle_stars pat) v a b); [|done]. apply words_elem. by exists pat.
      + intros w v a b (pat & Hp & Hsi & <-)%words_elem Eq. apply (H2 pat); [done|done|]. apply Hw; [|done|by exists a, b].
        destruct (pats_ok _ _ Hp) as (? & ? & _); split; [done|split; [done|simpl; warith]].
    - exists UINT32_MAX. split; [done|]. split; [done|]. intros m. split; [|tauto]. intros H. split; [done|].
      intros pat v Hp Hsi _. exfalso. assert (Hin : (handle_stars pat, v) ∈ words pats) by (apply words_elem; by exists pat).
      rewrite Hs in Hin. by apply elem_of_nil in Hin. }
  destruct Hwalk as (val & -> & Hle & Hval). cbn [mbind option_bind]. rewrite Hg.
  destruct (match_globs_spec str Hr pats Hpats val) as (r & -> & Hm). cbn [mbind option_bind].
  eexists _, mg'. split; [done|]. split; [split; [done|by rewrite Hc]|]. apply least_bound; [done| |].
  - destruct (proj1 (Hm r) ltac:(lia)). lia.
  - intros m. rewrite Hm, Hval. split.
    + intros [[H1 H2] H3]. split; [done|]. intros v (pat & Hp & Hma). destruct (is_simple_pattern pat) eqn:Es; eauto.
    + intros [H1 H2]. split; [split; [done|]|]; intros pat v Hp _ Hma; apply H2; by exists pat.
Qed.

Lemma find_all_ok strs : Forall (fun str => readable char_signed str /\ nul_free str) strs -> forall mg, state_ok mg ->
  exists rs mg', find_all char_signed mg strs = Some (rs, mg') /\ Forall2 (fun str r => least r (matched str)) strs rs.
Proof.
  induction 1 as [|str strs [Hr Hn] _ IH]; intros mg HS; cbn [find_all]; [by exists [], mg|].
  destruct (find_ok mg str HS Hr Hn) as (r & mg1 & -> & HS1 & Hl). cbn [mbind option_bind].
  destruct (IH mg1 HS1) as (rs & mg2 & -> & Hls). exists (r :: rs), mg2. split; [done|by constructor].
Qed.
End Search.

(** C24: of any patterns with their values, [add] accepts exactly the well-formed ones,
    and [find], called any number of times, returns for every string the least value
    of the patterns whose language contains it, or nothing when there is none: the
    automaton with its suffix links and the list of other globs together decide what
    matching the patterns one by one would. *)
Theorem multi_glob_exact (char_signed : bool) (pats : list (bytes * Z)) (strs : list bytes) :
  Forall pat_ok pats -> Forall (fun str => readable char_signed str /\ nul_free str) strs ->
  let '(oks, mg) := add_all new_multi_glob pats in
  Forall2 (fun '(pat, _) ok => ok = true <-> exists atoms, glob_pat pat atoms) pats oks /\
  exists rs mg', find_all char_signed mg strs = Some (rs, mg') /\
    Forall2 (fun str r => least r (matched pats str)) strs rs.
Proof.
  intros Hp Hs. assert (B : built ∅ (words [])).
  { split; try done; try (intros ? ? []%lookup_empty_is_Some); try (intros []%lookup_empty_is_Some).
    intros m w. unfold val_of. rewrite lookup_empty. simpl. split; [|tauto]. intros H. split; [done|]. by intros v Hv%elem_of_nil. }
  pose proof (add_all_spec pats Hp new_multi_glob [] B eq_refl eq_refl) as H.
  destruct (add_all new_multi_glob pats) as [oks mg]. destruct H as (H1 & H2 & H3 & H4). split; [done|].
  apply find_all_ok; [done|done|]. split; [done|]. by rewrite H4.
Qed.

Definition sample_pats : list (bytes * Z) :=
  [(bs "foo*", 4); (bs "*bar", 3); (bs "*oba*", 2); (bs "exact", 9); (bs "f?[o-z]*r", 1); (bs "[oops", 5)].
Definition sample_strs : list bytes := map bs ["foobar"; "foo"; "rebar"; "exact"; "exactly"; "fzzr"]%string.

Lemma multi_glob_exact_witness :
  let '(oks, mg) := add_all new_multi_glob sample_pats in
  (Forall2 (fun '(pat, _) ok => ok = true <-> exists atoms, glob_pat pat atoms) sample_pats oks /\
  exists rs mg', find_all true mg sample_strs = Some (rs, mg') /\
    Forall2 (fun str r => least r (matched sample_pats str)) sample_strs rs) /\
  oks = [true; true; true; true; true; false] /\
  fst <$> find_all true mg sample_strs = Some [Some 1; Some 4; Some 3; Some 9; None; Some 1].
Proof.
  assert (H : let '(oks, mg) := add_all new_multi_glob sample_pats in
    Forall2 (fun '(pat, _) ok => ok = true <-> exists atoms, glob_pat pat atoms) sample_pats oks /\
    exists rs mg', find_all true mg sample_strs = Some (rs, mg') /\
      Forall2 (fun str r => least r (matched sample_pats str)) sample_strs rs).
  { apply (multi_glob_exact true); unfold readable, pat_ok, nul_free; decided. }
  assert (E : (fst (add_all new_multi_glob sample_pats) = [true; true; true; true; true; false]) /\
    fst <$> find_all true (snd (add_all new_multi_glob sample_pats)) sample_strs =
    Some [Some 1; Some 4; Some 3; Some 9; None; Some 1]) by (split; vm_compute; reflexivity).
  destruct (add_all new_multi_glob sample_pats) as [oks mg]. split; [exact H|exact E].
Defined.
