(* ===== verification/Relr.v ===== *)
(** * Packed relative relocations (src/elf/output-chunks.cc, lines 484-508 and 899-976)

    [encode_relr] packs the sorted offsets of words that need a base relocation into
    start addresses and bitmaps; [RelrDynSection::copy_buf] concatenates the packed
    lists of the GOT and of the output sections and makes them addresses. The
    specification is the loader's decoding of [.relr.dyn]; the theorem: it relocates
    exactly the collected words, each once. *)

From S2P Require Import Prelude.
Local Open Scope list_scope.
Local Open Scope Z_scope.

(** ** Encoding *)

Section Encode.
(** [sizeof(Word<E>)] *)
Context (word_size : Z).

Definition num_bits : Z := word_size * 8 - 1.
Definition max_delta : Z := num_bits * word_size.

(** [for (; i < pos.size() && pos[i] - base < max_delta; i++) bits |= ...] *)
Fixpoint take_bits (base : Z) (pos : list Z) (bits : Z) : Z * list Z :=
  match pos with
  | p :: pos' =>
      if u64 (p - base) <? max_delta
      then take_bits base pos' (Z.lor bits (Z.shiftl 1 (u64 (p - base) / word_size)))
      else (bits, pos)
  | [] => (bits, [])
  end.

(** [for (;;)]: the bitmaps that follow a start address. *)
Fixpoint bitmaps (fuel : nat) (base : Z) (pos : list Z) : option (list Z * list Z) :=
  match fuel with
  | O => None
  | S fuel =>
      let '(bits, pos) := take_bits base pos 0 in
      if bits =? 0 then Some ([], pos)
      else
        '(vec, pos) ← bitmaps fuel (u64 (base + max_delta)) pos;
        Some (u64 (Z.lor (Z.shiftl bits 1) 1) :: vec, pos)
  end.

(** The outer loop; that the offsets are sorted and aligned is asserted. *)
Fixpoint encode_loop (fuel : nat) (pos : list Z) : option (list Z) :=
  match pos, fuel with
  | [], _ => Some []
  | p :: pos, S fuel =>
      '(vec, pos) ← bitmaps (S (length pos)) (u64 (p + word_size)) pos;
      vec' ← encode_loop fuel pos;
      Some (p :: vec ++ vec')
  | _, O => None
  end.

Definition encode_relr (pos : list Z) : option (list Z) := encode_loop (length pos) pos.

(** ** Collecting the words *)

(** A relocation of an input section, with [sym.is_absolute()] and
    [sym.is_imported] of its symbol. *)
Record ElfRel := mkElfRel { r_offset : Z; r_type : Z; is_absolute : bool; is_imported : bool }.
Record InputSection := mkInputSection { p2align : Z; isec_offset : Z; get_rels : list ElfRel }.
Record OutputSection := mkOutputSection {
  is_alloc : bool; is_exec : bool; sh_addralign : Z; sh_addr : Z; members : list InputSection }.

Context (R_ABS : Z).

Definition section_words (isec : InputSection) : list Z :=
  if Z.shiftl 1 (p2align isec) <? word_size then []
  else
    map (fun r => isec_offset isec + r_offset r)
      (filter (fun r => ((r_type r =? R_ABS) && (r_offset r mod word_size =? 0) &&
                         negb (is_absolute r) && negb (is_imported r)) = true) (get_rels isec)).

(** [OutputSection::construct_relr]: the words ... *)
Definition collect (pic : bool) (osec : OutputSection) : list Z :=
  if negb pic || negb (is_alloc osec) || negb (sh_addralign osec mod word_size =? 0) || is_exec osec then []
  else concat (map section_words (members osec)).

(** ... and their packed form. *)
Definition construct_relr (pic : bool) (osec : OutputSection) : option (list Z) := encode_relr (collect pic osec).

(** ** Decoding, as the loader does *)

(** The words that a bitmap selects. *)
Definition decode_bitmap (where_ entry : Z) : list Z :=
  map (fun i => where_ + i * word_size) (filter (fun i => Z.testbit entry (i + 1) = true) (seqZ 0 num_bits)).

Fixpoint decode (where_ : Z) (l : list Z) : list Z :=
  match l with
  | [] => []
  | e :: l =>
      if Z.testbit e 0 then decode_bitmap where_ e ++ decode (where_ + max_delta) l
      else e :: decode (e + word_size) l
  end.
End Encode.

(** ** The section *)

(** [RelrDynSection::copy_buf]: the packed list of a section at [sh_addr]. *)
Definition relocated (sh_addr : Z) (relr : list Z) : list Z :=
  map (fun val => if Z.testbit val 0 then val else u64 (sh_addr + val)) relr.

(** The GOT first, then the output sections. *)
Definition copy_buf (got : Z * list Z) (osecs : list (Z * list Z)) : list Z :=
  concat (map (fun '(addr, relr) => relocated addr relr) (got :: osecs)).

(** [update_shdr]; stored as words of [word_size] bytes. *)
Definition num_words (got : Z * list Z) (osecs : list (Z * list Z)) : Z :=
  foldl (fun n '(_, relr) => n + zlen relr) (zlen got.2) osecs.

(** ** Correctness *)

Lemma u64_of x : 0 <= x < 2 ^ 64 -> u64 x = x.
Proof. apply wrap_small. Qed.

Abbreviation ascending := (StronglySorted Z.lt).

Lemma ascending_unique l1 l2 : ascending l1 -> ascending l2 -> (forall x, x ∈ l1 <-> x ∈ l2) -> l1 = l2.
Proof.
  assert (Hnd : forall l, ascending l -> NoDup l).
  { induction 1 as [|x l Hl IH Hx]; constructor; [|done]. intros H. rewrite Forall_forall in Hx. specialize (Hx x H). lia. }
  intros H1 H2 H. apply (StronglySorted_unique_strong Z.lt); [intros x y _ _ ? ?; lia|done|done|].
  apply NoDup_Permutation; auto.
Qed.

Lemma ascending_app l1 l2 : ascending (l1 ++ l2) -> ascending l1 /\ ascending l2 /\ forall x y, x ∈ l1 -> y ∈ l2 -> x < y.
Proof.
  induction l1 as [|x l1 IH]; simpl; intros H; [split; [constructor|split; [done|by intros x y ?%elem_of_nil]]|].
  apply StronglySorted_inv in H as [H Hx]. destruct (IH H) as (H1 & H2 & H3). apply Forall_app in Hx as [Hx1 Hx2].
  split; [by constructor|]. split; [done|]. intros a b [->|Ha]%elem_of_cons Hb; [|by apply H3].
  rewrite Forall_forall in Hx2. by apply Hx2.
Qed.

Lemma ascending_filter_map (P : Z -> Prop) `{!forall x, Decision (P x)} (f : Z -> Z) l :
  (forall x y, x < y -> f x < f y) -> ascending l -> ascending (map f (filter P l)).
Proof.
  intros Hf. induction 1 as [|x l Hl IH Hx]; simpl; [constructor|]. rewrite filter_cons. case_decide; [|done].
  simpl. constructor; [done|]. apply Forall_forall. intros y (z & -> & Hz)%list_elem_of_fmap.
  apply Hf. rewrite Forall_forall in Hx. apply Hx. by apply list_elem_of_filter in Hz as [_ ?].
Qed.

Lemma ascending_seqZ a n : ascending (seqZ a n).
Proof.
  destruct (Z.le_gt_cases n 0) as [Hn|Hn]; [rewrite seqZ_nil by lia; constructor|].
  rewrite <- (Z2Nat.id n) by lia. generalize (Z.to_nat n). clear Hn. intros k. revert a.
  induction k as [|k IH]; intros a; [rewrite seqZ_nil by lia; constructor|]. rewrite seqZ_cons by lia.
  constructor; [by replace (Z.pred (Z.of_nat (S k))) with (Z.of_nat k) by lia|].
  apply Forall_forall. intros x Hx%elem_of_seqZ. lia.
Qed.

Section Proofs.
Context (word_size : Z) (Hws : word_size = 4 \/ word_size = 8).

Abbreviation num_bits := (Relr.num_bits word_size).
Abbreviation max_delta := (Relr.max_delta word_size).
Abbreviation decode := (Relr.decode word_size).

Lemma sizes : 0 < num_bits <= 63 /\ max_delta = num_bits * word_size /\ 0 < word_size <= 8 /\ word_size mod 2 = 0 /\ num_bits = 8 * word_size - 1.
Proof. unfold Relr.max_delta, Relr.num_bits. destruct Hws as [-> | ->]; repeat split; lia. Qed.

(** Offsets at or after [base], at whole words from it. *)
Definition from (base : Z) (pos : list Z) : Prop :=
  Forall (fun p => base <= p < 2 ^ 63 /\ (p - base) mod word_size = 0) pos.

Lemma from_app base l1 l2 : from base (l1 ++ l2) <-> from base l1 /\ from base l2.
Proof. apply Forall_app. Qed.

Lemma from_delta base pos : from base pos -> Forall (fun p => base + max_delta <= p) pos -> from (base + max_delta) pos.
Proof.
  intros H1 H2. destruct sizes as (Hn & Hm & Hw & _). apply Forall_forall. intros p Hp. unfold from in H1. rewrite Forall_forall in H1, H2.
  destruct (H1 p Hp) as [H3 H4]. specialize (H2 p Hp). split; [lia|]. rewrite Hm.
  replace (p - (base + num_bits * word_size)) with (p - base + (- num_bits) * word_size) by lia. by rewrite Z_mod_plus_full.
Qed.

Lemma take_bits_spec base : 0 <= base -> forall pos bits, ascending pos -> from base pos -> is_u num_bits bits ->
  exists bits' win rest, take_bits word_size base pos bits = (bits', rest) /\ pos = win ++ rest /\
    Forall (fun p => base <= p < base + max_delta) win /\ Forall (fun p => base + max_delta <= p) rest /\
    is_u num_bits bits' /\
    forall i, 0 <= i < num_bits -> Z.testbit bits' i = Z.testbit bits i || bool_decide (base + i * word_size ∈ win).
Proof.
  intros Hb. destruct sizes as (Hn & Hm & Hw & _). induction pos as [|p pos IH]; intros bits Hs Hf Hbits; cbn [take_bits].
  { exists bits, [], []. do 5 (split; [done|]). intros i _. by rewrite orb_false_r. }
  apply Forall_cons in Hf as [[Hp1 Hp2] Hf]. apply StronglySorted_inv in Hs as [Hs Hp].
  assert (E : u64 (p - base) = p - base) by (apply u64_of; lia). rewrite E.
  destruct (Z.ltb_spec (p - base) max_delta) as [Hlt|Hge].
  - apply Z.mod_divide in Hp2 as [q Hq]; [|lia]. rewrite Hq, Z.div_mul by lia.
    assert (Hq1 : 0 <= q < num_bits) by nia.
    destruct (IH (Z.lor bits (Z.shiftl 1 q)) Hs Hf) as (bits' & win & rest & -> & -> & H1 & H2 & H3 & H4).
    { rewrite Z.shiftl_1_l. apply is_u_lor; [lia|done|]. split; [apply Z.pow_nonneg; lia|]. apply Z.pow_lt_mono_r; lia. }
    exists bits', (p :: win), rest. split; [done|]. split; [done|]. split; [constructor; [lia|done]|]. split; [done|]. split; [done|].
    intros i Hi. rewrite H4 by done. rewrite Z.lor_spec, Z.shiftl_1_l, <- orb_assoc. f_equal.
    rewrite Z.pow2_bits_eqb by lia. destruct (Z.eqb_spec q i) as [->|Hne]; cbn [orb].
    + symmetry. apply bool_decide_eq_true_2. apply elem_of_cons. left. lia.
    + apply bool_decide_ext. rewrite elem_of_cons. split; [auto|]. intros [Hc|Hc]; [nia|done].
  - exists bits, [], (p :: pos). do 3 (split; [done|]). split; [|split; [done|by intros; rewrite orb_false_r]].
    constructor; [lia|]. eapply Forall_impl; [exact Hp|]. intros x Hx. simpl in Hx. lia.
Qed.

(** The word that holds a bitmap. *)
Lemma entry_spec bits : is_u num_bits bits -> u64 (Z.lor (Z.shiftl bits 1) 1) = 2 * bits + 1 /\ is_u (8 * word_size) (2 * bits + 1).
Proof.
  intros Hb. destruct sizes as (Hn & _ & _ & _ & Hnb). assert (H : is_u (8 * word_size) (2 * bits + 1)).
  { replace (8 * word_size) with (Z.succ num_bits) by lia. unfold is_u in *. rewrite Z.pow_succ_r; lia. }
  split; [|done]. rewrite lor_shiftl by (done || lia). unfold u64. rewrite wrap_small; [change (2 ^ 1) with 2; lia|].
  change (2 ^ 1) with 2. replace (1 + bits * 2) with (2 * bits + 1) by lia. revert H. apply is_u_mono. lia.
Qed.

(** A bitmap decodes to its window. *)
Lemma decode_bitmap_spec base bits win : is_u num_bits bits -> ascending win -> from base win ->
  Forall (fun p => base <= p < base + max_delta) win ->
  (forall i, 0 <= i < num_bits -> Z.testbit bits i = bool_decide (base + i * word_size ∈ win)) ->
  decode_bitmap word_size base (u64 (Z.lor (Z.shiftl bits 1) 1)) = win.
Proof.
  intros Hb Hs Hf Hw Ht. destruct sizes as (Hn & Hm & Hws' & _). apply ascending_unique; [|done|].
  - apply ascending_filter_map; [intros; nia|apply ascending_seqZ].
  - assert (Hbit : forall i, 0 <= i < num_bits -> Z.testbit (u64 (Z.lor (Z.shiftl bits 1) 1)) (i + 1) = Z.testbit bits i).
    { intros i Hi. rewrite (proj1 (entry_spec bits Hb)). apply Z.testbit_odd_succ. lia. }
    intros x. unfold decode_bitmap. rewrite list_elem_of_fmap. split.
    + intros (i & -> & [H1 H2%elem_of_seqZ]%list_elem_of_filter). rewrite Hbit, Ht in H1 by lia. by apply bool_decide_eq_true in H1.
    + intros Hx. pose proof Hf as Hf'. unfold from in Hf'. rewrite Forall_forall in Hf', Hw. destruct (Hf' x Hx) as [H1 H2]. specialize (Hw x Hx).
      apply Z.mod_divide in H2 as [q Hq]; [|lia]. assert (0 <= q < num_bits) by nia. exists q. split; [lia|].
      apply list_elem_of_filter. split; [|apply elem_of_seqZ; lia]. rewrite Hbit, Ht by lia. apply bool_decide_eq_true.
      by replace (base + q * word_size) with x by lia.
Qed.

(** The bitmaps after a start address, whatever address list follows them. *)
Definition starts_even (l : list Z) : Prop := match l with e :: _ => Z.testbit e 0 = false | [] => True end.

Lemma decode_even w w' l : starts_even l -> decode w l = decode w' l.
Proof. destruct l as [|e l]; simpl; [done|]. by intros ->. Qed.

Lemma bitmaps_spec fuel : forall base pos, (length pos < fuel)%nat -> 0 <= base < 2 ^ 63 + 1024 -> ascending pos -> from base pos ->
  exists vec win rest, bitmaps word_size fuel (u64 base) pos = Some (vec, rest) /\ pos = win ++ rest /\
    Forall (fun e => Z.testbit e 0 = true /\ is_u (8 * word_size) e) vec /\
    forall l, starts_even l -> decode base (vec ++ l) = win ++ decode 0 l.
Proof.
  destruct sizes as (Hn & Hm & Hw & _ & Hnb). induction fuel as [|fuel IH]; intros base pos Hf Hb Hs Hfrom; [lia|].
  cbn [bitmaps]. rewrite (u64_of base) by lia.
  destruct (take_bits_spec base ltac:(lia) pos 0 Hs Hfrom) as (bits & win & rest & -> & -> & H1 & H2 & H3 & H4).
  { split; [done|]. apply Z.pow_pos_nonneg; lia. }
  apply from_app in Hfrom as [Hf1 Hf2]. apply ascending_app in Hs as (Hs1 & Hs2 & _).
  assert (Ht : forall i, 0 <= i < num_bits -> Z.testbit bits i = bool_decide (base + i * word_size ∈ win)).
  { intros i Hi. by rewrite H4, Z.testbit_0_l. }
  pose proof (decode_bitmap_spec base bits win H3 Hs1 Hf1 H1 Ht) as Hdec.
  destruct (Z.eqb_spec bits 0) as [->|Hne].
  - assert (Hwin : win = []) by (rewrite <- Hdec; destruct Hws as [-> | ->]; vm_compute; reflexivity). clear Hdec. subst win.
    exists [], [], rest. split; [done|]. split; [done|]. split; [constructor|].
    intros l Hl. simpl. by apply decode_even.
  - assert (Hwin : win <> []).
    { intros ->. apply Hne. apply Z.bits_inj'. intros i Hi. rewrite Z.testbit_0_l by done.
      destruct (Z.lt_ge_cases i num_bits); [by rewrite Ht|]. by apply (is_u_testbit num_bits); [lia|]. }
    assert (Hb' : base < 2 ^ 63) by (destruct win as [|p win]; [done|]; apply Forall_cons in Hf1 as [? _]; lia).
    rewrite length_app in Hf. assert (0 < length win)%nat by (destruct win; [done|simpl; lia]).
    destruct (IH (base + max_delta) rest) as (vec & win' & rest' & Ebm & -> & I1 & I2); [lia|nia|done|by apply from_delta|].
    rewrite Ebm. cbn [mbind option_bind]. destruct (entry_spec bits H3) as [E1 E2]. rewrite E1 in *.
    eexists _, (win ++ win'), rest'. split; [done|]. split; [by rewrite app_assoc|]. split.
    + constructor; [|done]. split; [apply Z.testbit_odd_0|done].
    + intros l Hl. cbn [app Relr.decode]. rewrite Z.testbit_odd_0, Hdec, I2 by done. by rewrite app_assoc.
Qed.

Lemma encode_loop_spec fuel : forall pos, (length pos <= fuel)%nat -> ascending pos -> from 0 pos ->
  Forall (is_u (8 * word_size)) pos ->
  exists l, encode_loop word_size fuel pos = Some l /\ decode 0 l = pos /\ starts_even l /\ Forall (is_u (8 * word_size)) l.
Proof.
  destruct sizes as (Hn & Hm & Hw & Hpar & Hnb). induction fuel as [|fuel IH]; intros [|p pos] Hf Hs Hfrom Hu; simpl in Hf; try lia.
  1, 2: (exists []; by repeat split).
  cbn [encode_loop]. apply StronglySorted_inv in Hs as [Hs Hp]. apply Forall_cons in Hfrom as [[Hp1 Hp2] Hfrom].
  apply Forall_cons in Hu as [Hu1 Hu]. rewrite Z.sub_0_r in Hp2.
  assert (Hfrom' : from (p + word_size) pos).
  { apply Forall_forall. intros x Hx. unfold from in Hfrom. rewrite Forall_forall in Hp, Hfrom. specialize (Hp x Hx). destruct (Hfrom x Hx) as [Hx1 Hx2].
    rewrite Z.sub_0_r in Hx2. apply Z.mod_divide in Hp2 as [a Ha], Hx2 as [b Hb]; try lia.
    split; [nia|]. rewrite Ha, Hb. replace (b * word_size - (a * word_size + word_size)) with ((b - a - 1) * word_size) by lia.
    apply Z_mod_mult. }
  destruct (bitmaps_spec (S (length pos)) (p + word_size) pos) as (vec & win & rest & -> & -> & H1 & H2); [lia|lia|done|done|].
  cbn [mbind option_bind]. rewrite length_app in Hf. apply ascending_app in Hs as (_ & Hs & _).
  apply from_app in Hfrom as [_ Hfrom]. apply Forall_app in Hu as [_ Hu].
  destruct (IH rest ltac:(lia) Hs Hfrom Hu) as (l & -> & H3 & H4 & H5). cbn [mbind option_bind].
  assert (Hev : Z.testbit p 0 = false).
  { rewrite Z.bit0_odd, Zodd_mod. apply Z.mod_divide in Hp2 as [a ->]; [|lia].
    rewrite Z.mul_mod, Hpar, Z.mul_0_r by lia. done. }
  exists (p :: vec ++ l). split; [done|]. split; [|split; [done|]].
  - cbn [Relr.decode]. by rewrite Hev, H2, H3.
  - constructor; [done|]. apply Forall_app. split; [|done]. eapply Forall_impl; [exact H1|]. by intros e [_ ?].
Qed.

(** The decoding of a list that was moved to an address. *)
Lemma decode_relocated addr l : 0 <= addr -> addr mod 2 = 0 -> Forall (fun e => 0 <= e /\ (Z.testbit e 0 = false -> addr + e < 2 ^ 64)) l ->
  forall w, decode (addr + w) (relocated addr l) = map (Z.add addr) (decode w l).
Proof.
  intros Ha Hmod. induction 1 as [|e l [He1 He2] Hl IH]; intros w; [done|]. cbn [relocated map Relr.decode].
  change (map _ l) with (relocated addr l). destruct (Z.testbit e 0) eqn:E.
  - rewrite E, map_app. f_equal; [|by rewrite <- IH, Z.add_assoc]. unfold decode_bitmap. rewrite map_map.
    apply map_ext. intros i. lia.
  - assert (Ev : Z.testbit (addr + e) 0 = false).
    { rewrite Z.bit0_odd in *. rewrite Z.odd_add, E. rewrite Zodd_mod, Hmod. done. }
    rewrite u64_of by (split; [lia|]; by apply He2). rewrite Ev. cbn [map]. f_equal. rewrite <- IH. f_equal. lia.
Qed.
End Proofs.

(** ** The whole section *)

(** What [construct_relr] asserts or relies on: input sections are at multiples of
    their alignment, the collected words ascend, and addresses fit. *)
Record osec_ok (word_size R_ABS : Z) (pic : bool) (osec : OutputSection) : Prop := {
  osec_addr : collect word_size R_ABS pic osec <> [] -> 0 <= sh_addr osec /\ sh_addr osec mod word_size = 0;
  osec_members : Forall (fun isec => 0 <= p2align isec /\ isec_offset isec mod 2 ^ p2align isec = 0) (members osec);
  osec_sorted : ascending (collect word_size R_ABS pic osec);
  osec_fits : Forall (fun p => 0 <= p < 2 ^ 62 /\ sh_addr osec + p < 2 ^ (8 * word_size)) (collect word_size R_ABS pic osec) }.

Section Whole.
Context (word_size R_ABS : Z) (pic : bool) (Hws : word_size = 4 \/ word_size = 8).

Lemma collect_aligned osec : Forall (fun isec => 0 <= p2align isec /\ isec_offset isec mod 2 ^ p2align isec = 0) (members osec) ->
  Forall (fun p => p mod word_size = 0) (collect word_size R_ABS pic osec).
Proof.
  intros Hm. unfold collect. case_match; [constructor|]. apply Forall_concat. apply Forall_map.
  eapply Forall_impl; [exact Hm|]. intros isec [Hp Ho]. unfold section_words. case_bool; [constructor|].
  apply Forall_map, Forall_forall. intros r [Hr _]%list_elem_of_filter. cbn beta.
  apply andb_prop in Hr as [Hr _]. apply andb_prop in Hr as [Hr _]. apply andb_prop in Hr as [_ Hr]. apply Z.eqb_eq in Hr.
  rewrite Z.shiftl_1_l in *. assert (Hd : (word_size | 2 ^ p2align isec)).
  { assert (2 <= p2align isec) by (destruct (Z.le_gt_cases 2 (p2align isec)); [done|];
      assert (2 ^ p2align isec <= 2 ^ 1) by (apply Z.pow_le_mono_r; lia); lia).
    destruct Hws as [-> | ->]; [change 4 with (2 ^ 2)|change 8 with (2 ^ 3)].
    - exists (2 ^ (p2align isec - 2)). rewrite <- Z.pow_add_r by lia. f_equal. lia.
    - assert (3 <= p2align isec) by (destruct (Z.le_gt_cases 3 (p2align isec)); [done|];
        assert (2 ^ p2align isec <= 2 ^ 2) by (apply Z.pow_le_mono_r; lia); lia).
      exists (2 ^ (p2align isec - 3)). rewrite <- Z.pow_add_r by lia. f_equal. lia. }
  apply Z.mod_divide; [lia|]. apply Z.divide_add_r; [|by apply Z.mod_divide; [lia|]].
  etransitivity; [exact Hd|]. apply Z.mod_divide; [|done]. pose proof (Z.pow_pos_nonneg 2 (p2align isec)). lia.
Qed.

(** Words of a section at [addr], and what packing them needs. *)
Definition words_ok (addr : Z) (pos : list Z) : Prop :=
  (pos <> [] -> 0 <= addr /\ addr mod word_size = 0) /\ ascending pos /\
  Forall (fun p => (0 <= p < 2 ^ 62 /\ addr + p < 2 ^ (8 * word_size)) /\ p mod word_size = 0) pos.

Lemma collect_ok osec : osec_ok word_size R_ABS pic osec -> words_ok (sh_addr osec) (collect word_size R_ABS pic osec).
Proof. intros [Ha Hm Hs Hf]. split; [done|]. split; [done|]. apply Forall_and. split; [done|]. by apply collect_aligned. Qed.

Lemma relocated_even addr l : 0 <= addr -> addr mod 2 = 0 ->
  Forall (fun e => 0 <= e /\ (Z.testbit e 0 = false -> addr + e < 2 ^ 64)) l -> starts_even l -> starts_even (relocated addr l).
Proof.
  intros Ha Hmod Hf. destruct l as [|e l]; [done|]. simpl. intros He. rewrite He.
  apply Forall_cons in Hf as [[H0 H1] _]. rewrite u64_of by (split; [lia|by apply H1]).
  rewrite Z.bit0_odd in *. rewrite Z.odd_add, He, Zodd_mod, Hmod. done.
Qed.

Lemma decode_elem l : forall w e, e ∈ l -> Z.testbit e 0 = false -> e ∈ decode word_size w l.
Proof.
  induction l as [|x l IH]; intros w e He Ht; [by apply elem_of_nil in He|].
  cbn [decode]. apply elem_of_cons in He as [->|He]; [rewrite Ht; constructor|].
  destruct (Z.testbit x 0); [apply elem_of_app; right; by apply IH|constructor; by apply IH].
Qed.

(** One section: its words are encoded, and the loader gets their addresses. *)
Lemma section_decodes addr pos : words_ok addr pos ->
  exists l, encode_relr word_size pos = Some l /\ starts_even (relocated addr l) /\
    decode word_size 0 (relocated addr l) = map (Z.add addr) pos /\ Forall (is_u (8 * word_size)) (relocated addr l).
Proof.
  intros (Haddr & Hs & Hf). destruct (decide (pos = [])) as [->|Hpos]; [by exists []|].
  destruct (Haddr Hpos) as [Ha Hmod]. assert (H64 : 2 ^ (8 * word_size) <= 2 ^ 64) by (apply Z.pow_le_mono_r; lia).
  assert (Heven : addr mod 2 = 0).
  { apply Z.mod_divide; [lia|]. apply Z.mod_divide in Hmod as [q ->]; [|lia].
    destruct Hws as [-> | ->]; [exists (q * 2)|exists (q * 4)]; lia. }
  pose proof Hf as Hf'. rewrite Forall_forall in Hf'.
  destruct (encode_loop_spec word_size Hws (length pos) pos ltac:(lia) Hs) as (l & E & Hd & He & Hu).
  { apply Forall_forall. intros p Hp. specialize (Hf' p Hp). rewrite Z.sub_0_r. split; [lia|apply Hf']. }
  { apply Forall_forall. intros p Hp. specialize (Hf' p Hp). unfold is_u. lia. }
  assert (Hfit : Forall (fun e => 0 <= e /\ (Z.testbit e 0 = false -> addr + e < 2 ^ (8 * word_size))) l).
  { apply Forall_forall. intros e Hel. rewrite Forall_forall in Hu. specialize (Hu e Hel). unfold is_u in Hu. split; [lia|].
    intros Ht. pose proof (decode_elem l 0 e Hel Ht) as Hin. rewrite Hd in Hin. specialize (Hf' e Hin). lia. }
  assert (Hfit' : Forall (fun e => 0 <= e /\ (Z.testbit e 0 = false -> addr + e < 2 ^ 64)) l).
  { eapply Forall_impl; [exact Hfit|]. simpl. intros e [H1 H2]. split; [done|]. intros Ht. specialize (H2 Ht). lia. }
  pose proof (relocated_even addr l Ha Heven Hfit' He) as Hev.
  exists l. split; [exact E|]. split; [done|]. split.
  - rewrite (decode_even word_size 0 (addr + 0)) by done. rewrite (decode_relocated word_size) by done. by rewrite Hd.
  - apply Forall_map. apply Forall_forall. intros e Hel. rewrite Forall_forall in Hfit, Hu. specialize (Hu e Hel). specialize (Hfit e Hel).
    destruct (Z.testbit e 0); [done|]. destruct Hfit as [H1 H2]. specialize (H2 eq_refl). rewrite u64_of by lia. unfold is_u. lia.
Qed.

Lemma decode_app l1 l2 w : starts_even l2 -> decode word_size w (l1 ++ l2) = decode word_size w l1 ++ decode word_size 0 l2.
Proof.
  intros H2. revert w. induction l1 as [|e l1 IH]; intros w; cbn [app decode]; [by apply decode_even|].
  destruct (Z.testbit e 0); rewrite IH; [by rewrite <- app_assoc|done].
Qed.

Lemma starts_even_app l1 l2 : starts_even l1 -> starts_even l2 -> starts_even (l1 ++ l2).
Proof. by destruct l1. Qed.

(** Any number of sections after one another. *)
Lemma sections_decode secs : Forall (fun '(addr, pos) => words_ok addr pos) secs ->
  exists ls, Forall2 (fun '(_, pos) l => encode_relr word_size pos = Some l) secs ls /\
    let l := concat (map (fun '(addr, relr) => relocated addr relr) (zip (map fst secs) ls)) in
    starts_even l /\ decode word_size 0 l = concat (map (fun '(addr, pos) => map (Z.add addr) pos) secs) /\
    Forall (is_u (8 * word_size)) l /\ zlen l = foldr (fun l n => zlen l + n) 0 ls.
Proof.
  induction 1 as [|[addr pos] secs Hp _ IH]; [exists []; by repeat split|].
  destruct IH as (ls & H1 & H2 & H3 & H4 & H5). destruct (section_decodes addr pos Hp) as (l & E & G1 & G2 & G3).
  exists (l :: ls). split; [by constructor|]. cbn [map fst zip_with concat foldr]. split; [by apply starts_even_app|].
  split; [by rewrite decode_app, G2, H3|]. split; [by apply Forall_app|]. rewrite zlen_app, H5.
  unfold relocated, zlen. by rewrite length_map.
Qed.
End Whole.

Lemma num_words_sum got osecs :
  num_words got osecs = foldr (fun l n => zlen l + n) 0 (map snd (got :: osecs)).
Proof.
  unfold num_words. cbn [map foldr]. generalize (zlen got.2). induction osecs as [|[a l] osecs IH]; intros n; simpl; [lia|].
  rewrite IH. lia.
Qed.

(** C26: whatever words of the GOT and of the output sections need a base relocation,
    [encode_relr] and [RelrDynSection::copy_buf] produce a list of words that the
    loader decodes to exactly the addresses of these words, in order and each once;
    its length is the one [update_shdr] reserves and each entry fits a word of the
    target. *)
Theorem relr_dyn_relocates (word_size R_ABS : Z) (pic : bool) (got_addr : Z) (got_pos : list Z) (osecs : list OutputSection) :
  word_size = 4 \/ word_size = 8 ->
  words_ok word_size got_addr got_pos -> Forall (osec_ok word_size R_ABS pic) osecs ->
  exists got_relr relrs,
    encode_relr word_size got_pos = Some got_relr /\
    Forall2 (fun osec relr => construct_relr word_size R_ABS pic osec = Some relr) osecs relrs /\
    let sections := zip (map sh_addr osecs) relrs in
    let l := copy_buf (got_addr, got_relr) sections in
    decode word_size 0 l = map (Z.add got_addr) got_pos ++
      concat (map (fun osec => map (Z.add (sh_addr osec)) (collect word_size R_ABS pic osec)) osecs) /\
    zlen l = num_words (got_addr, got_relr) sections /\ Forall (is_u (8 * word_size)) l.
Proof.
  intros Hws Hg Hos. set (secs := map (fun osec => (sh_addr osec, collect word_size R_ABS pic osec)) osecs).
  destruct (sections_decode word_size Hws ((got_addr, got_pos) :: secs)) as (ls & H1 & H2 & H3 & H4 & H5).
  { constructor; [done|]. apply Forall_map. eapply Forall_impl; [exact Hos|]. intros osec Ho. by apply collect_ok. }
  inversion H1 as [|? got_relr ? relrs Hgot Hsecs]; subst. exists got_relr, relrs. split; [done|].
  assert (Hsecs' : Forall2 (fun osec relr => construct_relr word_size R_ABS pic osec = Some relr) osecs relrs)
    by (by apply Forall2_fmap_l in Hsecs). split; [done|].
  assert (Emap : map fst secs = map sh_addr osecs) by (unfold secs; by rewrite map_map).
  cbn [map fst zip_with] in H3, H4, H5. rewrite Emap in *. cbv zeta. unfold copy_buf. cbn [map].
  split; [|split; [|done]].
  - unfold secs in H3. rewrite map_map in H3. exact H3.
  - rewrite num_words_sum. cbn [map snd]. rewrite snd_zip; [exact H5|]. rewrite length_map. by apply Forall2_length in Hsecs' as ->.
Qed.

Definition sample_osecs : list OutputSection :=
  let r o := mkElfRel o 1 false false in
  [mkOutputSection true false 8 4096 [mkInputSection 3 0 [r 0; r 8; mkElfRel 16 1 false true; r 24; r 5]; mkInputSection 4 1024 [r 0; r 16]];
   mkOutputSection true true 8 8192 [mkInputSection 3 0 [r 0]]].

Lemma relr_dyn_relocates_witness :
  exists got_relr relrs,
    encode_relr 8 [0; 8; 512] = Some got_relr /\
    Forall2 (fun osec relr => construct_relr 8 1 true osec = Some relr) sample_osecs relrs /\
    let sections := zip (map sh_addr sample_osecs) relrs in
    let l := copy_buf (2048, got_relr) sections in
    decode 8 0 l = map (Z.add 2048) [0; 8; 512] ++
      concat (map (fun osec => map (Z.add (sh_addr osec)) (collect 8 1 true osec)) sample_osecs) /\
    zlen l = num_words (2048, got_relr) sections /\ Forall (is_u (8 * 8)) l.
Proof.
  apply (relr_dyn_relocates 8 1 true 2048 [0; 8; 512] sample_osecs).
  - by right.
  - split; [by split|]. split; [repeat constructor; done|]. repeat constructor; done.
  - repeat constructor; vm_compute; congruence.
Defined.
