(* ===== verification/HashTable.v ===== *)
(** * Dynamic symbol hash tables (src/elf/output-chunks.cc, lines 18-38 and 1619-1838)

    [DynsymSection::finalize] orders the dynamic symbols; [HashSection] and
    [GnuHashSection] write the two hash tables over them. The specification is the
    lookup that the loader performs on each table; the theorems: it finds exactly the
    symbols that are there. *)

From S2P Require Import Prelude Bits.
Local Open Scope list_scope.
Local Open Scope Z_scope.

(** ** Hash functions *)

Definition elf_hash (name : bytes) : Z :=
  foldl (fun h c =>
    let h := u32 (u32 (Z.shiftl h 4) + c) in
    let g := Z.land h 0xf0000000 in
    let h := if negb (g =? 0) then Z.lxor h (Z.shiftr g 24) else h in
    Z.land h (u32 (Z.lnot g))) 0 name.

Definition djb_hash (name : bytes) : Z :=
  foldl (fun h c => u32 (u32 (u32 (Z.shiftl h 5) + h) + c)) 5381 name.

(** ** The dynamic symbol table *)

Record Symbol := mkSymbol { sym_id : Z; name : bytes; is_local : bool; is_exported : bool }.

Definition LOAD_FACTOR : Z := 8.
Definition HEADER_SIZE : Z := 16.
Definition BLOOM_SHIFT : Z := 26.

(** [add_symbol]: a symbol is added once ([dynsym_idx] is set). Entry 0 of the table,
    the null symbol, is not in the list. *)
Definition add_symbol (symbols : list Symbol) (sym : Symbol) : list Symbol :=
  if existsb (fun s => sym_id s =? sym_id sym) symbols then symbols else symbols ++ [sym].

(** [std::stable_partition] *)
Definition partition_local (l : list Symbol) : list Symbol :=
  filter (fun s => is_local s = true) l ++ filter (fun s => is_local s = false) l.

Definition num_buckets (symbols : list Symbol) : Z :=
  u32 (zlen (filter (fun s => is_exported s = true) symbols) / LOAD_FACTOR + 1).

(** The comparison of the sort; a symbol comes with its [dynsym_idx]. *)
Definition gnu_less (nb : Z) (a b : Z * Symbol) : bool :=
  if negb (Bool.eqb (is_exported a.2) (is_exported b.2)) then is_exported b.2
  else
    let h1 := djb_hash (name a.2) mod nb in
    let h2 := djb_hash (name b.2) mod nb in
    (h1 <? h2) || ((h1 =? h2) && (a.1 <? b.1)).

(** [finalize]: the symbols in their final order; the i-th of the list gets index
    [i + 1]. *)
Definition finalize (gnu_hash : bool) (symbols : list Symbol) : list Symbol :=
  let l := partition_local symbols in
  if gnu_hash then
    let n := length (filter (fun s => is_local s = true) l) in
    let globals := drop n l in
    let first_global := 1 + Z.of_nat n in
    take n l ++
      map snd (stable_sort (gnu_less (num_buckets symbols)) (zip (seqZ first_global (zlen globals)) globals))
  else l.

(** ** .hash *)

Record HashSection := mkHashSection { nbucket : Z; nchain : Z; buckets : list Z; chains : list Z }.

(** The last loop of [HashSection::copy_buf]; [i] is the index of the first symbol. *)
Fixpoint fill_chains (size i : Z) (syms : list Symbol) (buckets chains : list Z) : list Z * list Z :=
  match syms with
  | [] => (buckets, chains)
  | s :: syms =>
      let h := Z.to_nat (elf_hash (name s) mod size) in
      fill_chains size (i + 1) syms (<[h := i]> buckets) (<[Z.to_nat i := nth h buckets 0]> chains)
  end.

Definition hash_section (syms : list Symbol) : HashSection :=
  let size := 1 + zlen syms in
  let zeros := replicate (Z.to_nat size) 0 in
  let '(buckets, chains) := fill_chains size 1 syms zeros zeros in
  mkHashSection size size buckets chains.

(** [update_shdr], when the table has its null symbol. *)
Definition hash_size (syms : list Symbol) : Z := 8 + (1 + zlen syms) * 8.

(** The loader's lookup in a .hash table. *)
Fixpoint hash_chain (fuel : nat) (t : HashSection) (syms : list Symbol) (n : bytes) (i : Z) : option (option Z) :=
  if i =? 0 then Some None
  else match fuel with
       | O => None
       | S fuel =>
           s ← syms !! Z.to_nat (i - 1);
           if bool_decide (name s = n) then Some (Some i)
           else next ← chains t !! Z.to_nat i; hash_chain fuel t syms n next
       end.

Definition hash_lookup (t : HashSection) (syms : list Symbol) (n : bytes) : option (option Z) :=
  i ← buckets t !! Z.to_nat (elf_hash n mod nbucket t);
  hash_chain (Z.to_nat (nchain t)) t syms n i.

(** ** .gnu.hash *)

Record GnuHashSection := mkGnuHashSection {
  g_nbuckets : Z; g_symoffset : Z; g_nbloom : Z; g_shift : Z;
  g_bloom : list Z; g_buckets : list Z; g_table : list Z }.

Section Gnu.
(** [sizeof(Word<E>) * 8] *)
Context (word_bits : Z).

(** [std::partition_point] of the symbols that are not exported. *)
Fixpoint get_exported_symbols (syms : list Symbol) : list Symbol :=
  match syms with
  | [] => []
  | s :: l => if is_exported s then syms else get_exported_symbols l
  end.

(** [num_bloom], which is 1 unless symbols are exported. *)
Definition num_bloom (num_exported : Z) : option Z :=
  if num_exported =? 0 then Some 1 else u32 <$> bit_ceil (num_exported * 12 / word_bits).

Definition bloom_idx (nbloom h : Z) : Z := (h / word_bits) mod nbloom.

Fixpoint fill_bloom (nbloom : Z) (hashes bloom : list Z) : list Z :=
  match hashes with
  | [] => bloom
  | h :: hashes =>
      let idx := Z.to_nat (bloom_idx nbloom h) in
      let w := nth idx bloom 0 in
      let w := Z.lor w (Z.shiftl 1 (h mod word_bits)) in
      let w := Z.lor w (Z.shiftl 1 (Z.shiftr h BLOOM_SHIFT mod word_bits)) in
      fill_bloom nbloom hashes (<[idx := w]> bloom)
  end.

Fixpoint fill_buckets (i : Z) (indices buckets : list Z) : list Z :=
  match indices with
  | [] => buckets
  | b :: indices =>
      fill_buckets (i + 1) indices
        (if nth (Z.to_nat b) buckets 0 =? 0 then <[Z.to_nat b := i]> buckets else buckets)
  end.

Fixpoint fill_table (nb : Z) (hashes : list Z) : list Z :=
  match hashes with
  | [] => []
  | h :: rest =>
      (match rest with
       | [] => Z.lor h 1
       | h' :: _ => if negb (h mod nb =? h' mod nb) then Z.lor h 1 else Z.land h (u32 (Z.lnot 1))
       end) :: fill_table nb rest
  end.

(** [copy_buf] over the finalized symbols. *)
Definition gnu_hash_section (nb : Z) (syms : list Symbol) : option GnuHashSection :=
  let exported := get_exported_symbols syms in
  let exported_offset := 1 + zlen syms - zlen exported in
  nbloom ← num_bloom (zlen exported);
  let hashes := map (fun s => djb_hash (name s)) exported in
  Some (mkGnuHashSection nb exported_offset nbloom BLOOM_SHIFT
          (fill_bloom nbloom hashes (replicate (Z.to_nat nbloom) 0))
          (fill_buckets exported_offset (map (fun h => h mod nb) hashes) (replicate (Z.to_nat nb) 0))
          (fill_table nb hashes)).

(** [update_shdr], when the table has its null symbol. *)
Definition gnu_hash_size (nb : Z) (syms : list Symbol) : option Z :=
  let n := zlen (get_exported_symbols syms) in
  nbloom ← num_bloom n;
  Some (HEADER_SIZE + nbloom * (word_bits / 8) + nb * 4 + n * 4).

(** The loader's lookup: the filter, the bucket, then its chain up to an odd entry. *)
Fixpoint gnu_chain (fuel : nat) (t : GnuHashSection) (syms : list Symbol) (n : bytes) (h i : Z) : option (option Z) :=
  match fuel with
  | O => None
  | S fuel =>
      e ← g_table t !! Z.to_nat (i - g_symoffset t);
      s ← syms !! Z.to_nat (i - 1);
      if (Z.shiftr (Z.lxor e h) 1 =? 0) && bool_decide (name s = n) then Some (Some i)
      else if Z.testbit e 0 then Some None else gnu_chain fuel t syms n h (i + 1)
  end.

Definition gnu_lookup (t : GnuHashSection) (syms : list Symbol) (n : bytes) : option (option Z) :=
  let h := djb_hash n in
  w ← g_bloom t !! Z.to_nat (Z.land (h / word_bits) (g_nbloom t - 1));
  if Z.testbit w (h mod word_bits) && Z.testbit w (Z.shiftr h (g_shift t) mod word_bits) then
    i ← g_buckets t !! Z.to_nat (h mod g_nbuckets t);
    if i =? 0 then Some None else gnu_chain (length (g_table t)) t syms n h i
  else Some None.
End Gnu.

(** ** Correctness of .hash *)

(** The indices on a chain. *)
Fixpoint chain_list (ch : list Z) (i : Z) (l : list Z) : Prop :=
  match l with
  | [] => i = 0
  | j :: l => i = j /\ 0 < j /\ exists next, ch !! Z.to_nat j = Some next /\ chain_list ch next l
  end.

Lemma chain_list_insert ch i l k v : chain_list ch i l -> (forall j, j ∈ l -> j <> k) -> 0 <= k ->
  chain_list (<[Z.to_nat k := v]> ch) i l.
Proof.
  revert i. induction l as [|j l IH]; intros i; simpl; [done|]. intros (-> & Hj & next & Hn & Hl) Hk Hk0.
  split; [done|]. split; [done|]. exists next. split.
  - rewrite list_lookup_insert_ne; [done|]. intros E. apply (Hk j); [constructor|lia].
  - apply IH; [done| |done]. intros j' Hj'. apply Hk. by constructor.
Qed.

Definition descending (l : list Z) : Prop := StronglySorted (fun a b => b < a) l.

Lemma descending_length l n : descending l -> (forall j, j ∈ l -> 1 <= j <= Z.of_nat n) -> (length l <= n)%nat.
Proof.
  intros Hd Hb. assert (Hnd : NoDup l).
  { induction Hd as [|x l Hl IH Hx]; constructor; [|apply IH; intros; apply Hb; by constructor].
    intros H. rewrite Forall_forall in Hx. specialize (Hx x H). lia. }
  apply (NoDup_submseteq _ (seqZ 1 (Z.of_nat n))) in Hnd; [|intros j Hj%Hb; apply elem_of_seqZ; lia].
  apply submseteq_length in Hnd. rewrite length_seqZ in Hnd. lia.
Qed.

Section Hash.
Context (size : Z) (Hsize : 0 < size).

Definition bucket_of (s : Symbol) : Z := elf_hash (name s) mod size.

(** After the symbols [done]: every bucket's chain is its symbols. *)
Definition chains_ok (done : list Symbol) (bk ch : list Z) : Prop :=
  length bk = Z.to_nat size /\ length ch = Z.to_nat size /\
  forall b, 0 <= b < size -> exists l, chain_list ch (nth (Z.to_nat b) bk 0) l /\ descending l /\
    forall j, j ∈ l <-> 1 <= j <= zlen done /\ exists s, done !! Z.to_nat (j - 1) = Some s /\ bucket_of s = b.

Lemma fill_chains_spec syms : forall done bk ch, zlen done + zlen syms < size -> chains_ok done bk ch ->
  let '(bk', ch') := fill_chains size (1 + zlen done) syms bk ch in chains_ok (done ++ syms) bk' ch'.
Proof.
  induction syms as [|s syms IH]; intros done bk ch Hlen (Hb & Hc & H); cbn [fill_chains]; [by rewrite app_nil_r|].
  change (zlen (s :: syms)) with (Z.of_nat (S (length syms))) in Hlen. change (elf_hash (name s) mod size) with (bucket_of s).
  assert (Hh : 0 <= bucket_of s < size) by (apply Z.mod_pos_bound; lia).
  pose proof (zlen_nonneg done) as Hd0. set (i := 1 + zlen done).
  specialize (IH (done ++ [s]) (<[Z.to_nat (bucket_of s) := i]> bk) (<[Z.to_nat i := nth (Z.to_nat (bucket_of s)) bk 0]> ch)).
  assert (Hz : zlen (done ++ [s]) = i) by (rewrite zlen_app; unfold i; change (zlen [s]) with 1; lia). rewrite Hz in IH.
  change (1 + i) with (Z.succ i) in IH || idtac. replace (i + 1) with (1 + i) by lia.
  rewrite <- app_assoc in IH. apply IH; [unfold zlen in *; lia|]. clear IH.
  split; [by rewrite length_insert|]. split; [by rewrite length_insert|]. intros b Hbr.
  destruct (H b Hbr) as (l & Hl & Hds & Hin).
  assert (Hold : forall j, j ∈ l -> j <> i) by (intros j Hj%Hin; unfold i; lia).
  assert (Hlook : forall j s', 1 <= j <= zlen done -> (done ++ [s]) !! Z.to_nat (j - 1) = Some s' <-> done !! Z.to_nat (j - 1) = Some s').
  { intros j s' Hj. rewrite lookup_app_l by (unfold zlen in Hj; lia). done. }
  assert (Hnew : (done ++ [s]) !! Z.to_nat (i - 1) = Some s).
  { apply list_lookup_middle. unfold i, zlen. lia. }
  destruct (decide (bucket_of s = b)) as [<-|Hne].
  - exists (i :: l). split; [|split].
    + split; [|split; [unfold i; lia|]].
      * rewrite nth_lookup, list_lookup_insert_eq by lia. done.
      * eexists. split; [apply list_lookup_insert_eq; unfold i; lia|]. apply chain_list_insert; [done|done|unfold i; lia].
    + constructor; [done|]. apply Forall_forall. intros j Hj%Hin. unfold i. lia.
    + intros j. rewrite elem_of_cons, Hin. split.
      * intros [->|(Hj & s' & Hs' & Hb')]; [split; [unfold i; lia|by exists s]|].
        split; [unfold i; lia|]. exists s'. by rewrite Hlook.
      * intros (Hj & s' & Hs' & Hb'). destruct (decide (j = i)) as [->|Hji]; [by left|right].
        assert (Hj' : 1 <= j <= zlen done) by (unfold i in *; lia). split; [done|]. exists s'. by rewrite <- Hlook.
  - exists l. split; [|split; [done|]].
    + rewrite (nth_lookup (<[Z.to_nat (bucket_of s) := i]> bk)), list_lookup_insert_ne, <- nth_lookup by lia. apply chain_list_insert; [done|done|unfold i; lia].
    + intros j. rewrite Hin. split; intros (Hj & s' & Hs' & Hb').
      * split; [unfold i; lia|]. exists s'. by rewrite Hlook.
      * destruct (decide (j = i)) as [->|Hji]; [rewrite Hnew in Hs'; by injection Hs' as <-|].
        assert (Hj' : 1 <= j <= zlen done) by (unfold i in *; lia). split; [done|]. exists s'. by rewrite <- Hlook.
Qed.
End Hash.

Lemma hash_chain_spec t syms n l : forall fuel i, chain_list (chains t) i l -> (length l <= fuel)%nat ->
  (forall j, j ∈ l -> is_Some (syms !! Z.to_nat (j - 1))) ->
  exists r, hash_chain fuel t syms n i = Some r /\
    match r with
    | Some j => j ∈ l /\ name <$> syms !! Z.to_nat (j - 1) = Some n
    | None => forall j, j ∈ l -> name <$> syms !! Z.to_nat (j - 1) <> Some n
    end.
Proof.
  induction l as [|j l IH]; intros fuel i; cbn [chain_list length].
  - intros -> _ _. exists None. split; [by destruct fuel|]. by intros j Hj%elem_of_nil.
  - intros (-> & Hj & next & Hn & Hl) Hf Hs. destruct fuel as [|fuel]; [lia|]. cbn [hash_chain].
    destruct (Z.eqb_spec j 0); [lia|]. destruct (Hs j) as [s Es]; [constructor|]. rewrite Es. cbn [mbind option_bind].
    case_bool_decide as Hname.
    + exists (Some j). split; [done|]. split; [constructor|]. rewrite Es. simpl. by rewrite Hname.
    + rewrite Hn. cbn [mbind option_bind]. destruct (IH fuel next Hl ltac:(lia)) as (r & Hr & Hspec).
      { intros j' Hj'. apply Hs. by constructor. }
      exists r. split; [done|]. destruct r as [k|].
      * destruct Hspec. split; [by constructor|done].
      * intros j' [->|Hj']%elem_of_cons; [rewrite Es; simpl; congruence|auto].
Qed.

(** the loader's lookup in the .hash section terminates; it returns the index of
    a dynamic symbol with the name it looks for, and nothing only when there is none. *)
Theorem hash_lookup_exact (syms : list Symbol) (n : bytes) :
  let t := hash_section syms in
  zlen (buckets t) = nbucket t /\ zlen (chains t) = nchain t /\ 8 + nbucket t * 4 + nchain t * 4 = hash_size syms /\
  exists r, hash_lookup t syms n = Some r /\
    match r with
    | Some i => exists s, syms !! Z.to_nat (i - 1) = Some s /\ name s = n
    | None => forall s, s ∈ syms -> name s <> n
    end.
Proof.
  unfold hash_section, hash_size. set (size := 1 + zlen syms). pose proof (zlen_nonneg syms) as Hn.
  set (zeros := replicate (Z.to_nat size) 0).
  assert (H0 : chains_ok size [] zeros zeros).
  { split; [apply length_replicate|]. split; [apply length_replicate|]. intros b Hb. exists []. split; [|split].
    - unfold zeros. simpl. rewrite nth_lookup, lookup_replicate_2 by lia. done.
    - constructor.
    - intros j. rewrite elem_of_nil. split; [done|]. intros [Hj _]. unfold zlen in Hj. simpl in Hj. lia. }
  pose proof (fill_chains_spec size ltac:(lia) syms [] zeros zeros ltac:(unfold size, zlen; simpl; lia) H0) as H.
  change (1 + zlen []) with 1 in H. change ([] ++ syms) with syms in H. destruct (fill_chains size 1 syms zeros zeros) as [bk ch]. destruct H as (Hb & Hc & H).
  cbn [buckets chains nbucket nchain]. split; [unfold zlen; lia|]. split; [unfold zlen; lia|]. split; [lia|].
  unfold hash_lookup. cbn [buckets chains nbucket nchain].
  assert (Hh : 0 <= elf_hash n mod size < size) by (apply Z.mod_pos_bound; lia).
  destruct (H _ Hh) as (l & Hl & Hds & Hin). rewrite nth_lookup in Hl.
  destruct (lookup_lt_is_Some_2 bk (Z.to_nat (elf_hash n mod size))) as [i Ei]; [lia|]. rewrite Ei in Hl |- *. cbn [mbind option_bind].
  destruct (hash_chain_spec (mkHashSection size size bk ch) syms n l (Z.to_nat size) i Hl) as (r & Hr & Hspec).
  { assert (length l <= length syms)%nat; [|unfold size, zlen; lia]. apply descending_length; [done|]. intros j [Hj _]%Hin. exact Hj. }
  { intros j (_ & s & Hs & _)%Hin. by exists s. }
  exists r. split; [exact Hr|]. destruct r as [j|].
  - destruct Hspec as [_ Hs]. destruct (syms !! Z.to_nat (j - 1)) as [s|]; [|done]. exists s. split; [done|]. by injection Hs.
  - intros s [k Hk]%list_elem_of_lookup Hname. apply (Hspec (Z.of_nat k + 1)).
    + apply Hin. pose proof (lookup_lt_Some _ _ _ Hk). split; [unfold zlen; lia|]. exists s.
      replace (Z.to_nat (Z.of_nat k + 1 - 1)) with k by lia. split; [done|]. unfold bucket_of. by rewrite Hname.
    + replace (Z.to_nat (Z.of_nat k + 1 - 1)) with k by lia. rewrite Hk. simpl. by rewrite Hname.
Qed.

Example hash_lookup_sample :
  let mk n := mkSymbol 0 (bs n) false true in
  let syms := [mk "printf"; mk "exit"; mk "malloc"; mk "free"]%string in
  map (hash_lookup (hash_section syms) syms) (map bs ["malloc"; "printf"; "abort"]%string) = [Some (Some 3); Some (Some 1); Some None].
Proof. by vm_compute. Qed.

(** ** Correctness of .gnu.hash *)

Lemma djb_hash_range n : is_u 32 (djb_hash n).
Proof.
  unfold djb_hash. assert (H : is_u 32 5381) by done. revert H. generalize 5381.
  induction n as [|c n IH]; intros h Hh; [done|]. apply IH. apply wrap_range. lia.
Qed.

Section GnuProofs.
Context (word_bits : Z) (Hwb : word_bits = 32 \/ word_bits = 64).

(** The filter: a bit that was set stays set. *)
Definition bloom_hit (nbloom : Z) (bloom : list Z) (h : Z) : Prop :=
  exists w, bloom !! Z.to_nat (bloom_idx word_bits nbloom h) = Some w /\
    Z.testbit w (h mod word_bits) = true /\ Z.testbit w (Z.shiftr h BLOOM_SHIFT mod word_bits) = true.

Lemma shiftl_1_bit k : 0 <= k -> Z.testbit (Z.shiftl 1 k) k = true.
Proof. intros. rewrite Z.shiftl_1_l. by apply Z.pow2_bits_true. Qed.

Lemma fill_bloom_spec nbloom hashes : 0 < nbloom -> forall bloom, length bloom = Z.to_nat nbloom ->
  length (fill_bloom word_bits nbloom hashes bloom) = Z.to_nat nbloom /\
  forall h, (bloom_hit nbloom bloom h \/ h ∈ hashes) -> bloom_hit nbloom (fill_bloom word_bits nbloom hashes bloom) h.
Proof.
  intros Hn. induction hashes as [|h0 hashes IH]; intros bloom Hlen; cbn [fill_bloom].
  - split; [done|]. intros h [H|H]; [done|by apply elem_of_nil in H].
  - set (idx := Z.to_nat (bloom_idx word_bits nbloom h0)). set (w' := Z.lor (Z.lor _ _) _).
    assert (Hidx : (idx < length bloom)%nat).
    { unfold idx, bloom_idx. pose proof (Z.mod_pos_bound (h0 / word_bits) nbloom Hn). lia. }
    destruct (IH (<[idx := w']> bloom)) as [H1 H2]; [by rewrite length_insert|]. split; [done|].
    assert (Hm : forall k, 0 <= k mod word_bits) by (intros; apply Z.mod_pos_bound; lia).
    intros h H. apply H2. destruct H as [(w & E & B1 & B2)|[->|H]%elem_of_cons]; [left|left|by right].
    + unfold bloom_hit. destruct (decide (Z.to_nat (bloom_idx word_bits nbloom h) = idx)) as [Ei|Ei].
      * rewrite Ei in E |- *. rewrite list_lookup_insert_eq by done. exists w'. split; [done|].
        assert (Ew : nth idx bloom 0 = w) by (by rewrite nth_lookup, E).
        unfold w'. rewrite Ew, !Z.lor_spec, B1, B2. done.
      * rewrite list_lookup_insert_ne by congruence. by exists w.
    + unfold bloom_hit. fold idx. rewrite list_lookup_insert_eq by done. exists w'. split; [done|].
      unfold w'. rewrite !Z.lor_spec, !shiftl_1_bit by auto. by rewrite !orb_true_r.
Qed.

(** The first position of a bucket. *)
Fixpoint first_index (b : Z) (l : list Z) : option nat :=
  match l with
  | [] => None
  | x :: l => if x =? b then Some O else S <$> first_index b l
  end.

Lemma first_index_some b l k : first_index b l = Some k ->
  l !! k = Some b /\ forall j, (j < k)%nat -> l !! j <> Some b.
Proof.
  revert k. induction l as [|x l IH]; intros k; simpl; [done|]. destruct (Z.eqb_spec x b) as [->|Hne].
  - intros [= <-]. split; [done|lia].
  - destruct (first_index b l) as [k'|]; [|done]. intros [= <-]. destruct (IH k' eq_refl) as [H1 H2].
    split; [done|]. intros [|j] Hj; simpl; [congruence|apply H2; lia].
Qed.

Lemma first_index_none b l : first_index b l = None -> b ∉ l.
Proof.
  induction l as [|x l IH]; simpl; intros E; [apply not_elem_of_nil|]. destruct (Z.eqb_spec x b); [done|].
  destruct (first_index b l); [done|]. apply not_elem_of_cons. auto.
Qed.

Lemma fill_buckets_spec nb indices : forall i bk, 0 < i -> length bk = Z.to_nat nb -> Forall (fun b => 0 <= b < nb) indices ->
  length (fill_buckets i indices bk) = Z.to_nat nb /\
  forall b, 0 <= b < nb -> nth (Z.to_nat b) (fill_buckets i indices bk) 0 =
    if nth (Z.to_nat b) bk 0 =? 0 then match first_index b indices with Some k => i + Z.of_nat k | None => 0 end
    else nth (Z.to_nat b) bk 0.
Proof.
  induction indices as [|x indices IH]; intros i bk Hi Hlen Hr; cbn [fill_buckets].
  - split; [done|]. intros b Hb. case_bool; [by subst|done].
  - apply Forall_cons in Hr as [Hx Hr].
    set (bk' := if nth (Z.to_nat x) bk 0 =? 0 then _ else _).
    assert (Hlen' : length bk' = Z.to_nat nb) by (unfold bk'; case_bool; by rewrite ?length_insert).
    destruct (IH (i + 1) bk' ltac:(lia) Hlen' Hr) as [H1 H2]. split; [done|]. intros b Hb. rewrite (H2 b Hb). cbn [first_index].
    assert (Hbk : nth (Z.to_nat b) bk' 0 = if (x =? b) && (nth (Z.to_nat b) bk 0 =? 0) then i else nth (Z.to_nat b) bk 0).
    { unfold bk'. destruct (Z.eqb_spec x b) as [->|Hne]; cbn [andb].
      - case_bool; [|done]. by rewrite nth_lookup, list_lookup_insert_eq by lia.
      - case_bool; [|done]. by rewrite !nth_lookup, list_lookup_insert_ne by lia. }
    rewrite Hbk. destruct (Z.eqb_spec x b) as [->|Hne]; cbn [andb].
    + destruct (Z.eqb_spec (nth (Z.to_nat b) bk 0) 0) as [E|E].
      * destruct (Z.eqb_spec i 0); lia.
      * destruct (Z.eqb_spec (nth (Z.to_nat b) bk 0) 0); done.
    + destruct (Z.eqb_spec (nth (Z.to_nat b) bk 0) 0) as [E|E]; [|done]. destruct (first_index b indices); simpl; lia.
Qed.

Lemma bit_of_1 i : 0 < i -> Z.testbit 1 i = false.
Proof. intros H. apply (Z.pow2_bits_false 0 i). lia. Qed.

(** An entry of the table: the hash without its lowest bit, which marks the end of
    a run of the same bucket. *)
Lemma land_not_1 h : is_u 32 h -> Z.land h (u32 (Z.lnot 1)) = 2 * (h / 2).
Proof.
  intros Hh. apply Z.bits_inj'. intros i Hi. rewrite Z.land_spec. unfold u32. rewrite wrap_testbit by lia.
  rewrite Z.lnot_spec by done. destruct (Z.eq_dec i 0) as [->|Hne].
  - rewrite Z.testbit_even_0. simpl. by rewrite andb_false_r.
  - replace i with (Z.succ (i - 1)) by lia. rewrite Z.testbit_even_succ by lia. rewrite <- Z.div2_div, Z.div2_spec, Z.shiftr_spec by lia.
    replace (i - 1 + 1) with (Z.succ (i - 1)) by lia.
    rewrite bit_of_1 by lia.
    destruct (Z.ltb_spec (Z.succ (i - 1)) 32); cbn [negb andb]; [by rewrite andb_true_r|].
    rewrite (is_u_testbit 32 h) by (done || lia). done.
Qed.

Lemma lor_1 h : Z.lor h 1 = 2 * (h / 2) + 1.
Proof.
  apply Z.bits_inj'. intros i Hi. rewrite Z.lor_spec. destruct (Z.eq_dec i 0) as [->|Hne].
  - rewrite Z.testbit_odd_0. change (Z.testbit 1 0) with true. apply orb_true_r.
  - replace i with (Z.succ (i - 1)) by lia. rewrite Z.testbit_odd_succ by lia. rewrite <- Z.div2_div, Z.div2_spec, Z.shiftr_spec by lia.
    replace (i - 1 + 1) with (Z.succ (i - 1)) by lia.
    rewrite bit_of_1 by lia.
    apply orb_false_r.
Qed.

Lemma same_hash b h h' : 0 <= b <= 1 -> Z.shiftr (Z.lxor (2 * (h / 2) + b) h') 1 = 0 <-> h / 2 = h' / 2.
Proof.
  intros Hb. rewrite Z.shiftr_lxor, Z.lxor_eq_0_iff, !Z.shiftr_div_pow2 by lia. change (2 ^ 1) with 2.
  assert (E : (2 * (h / 2) + b) / 2 = h / 2); [|by rewrite E].
  rewrite Z.mul_comm, Z.div_add_l by lia. rewrite (Z.div_small b) by lia. lia.
Qed.

Lemma fill_table_spec nb hashes : Forall (is_u 32) hashes -> forall k h, hashes !! k = Some h ->
  exists e, fill_table nb hashes !! k = Some e /\
    (forall h', Z.shiftr (Z.lxor e h') 1 = 0 <-> h / 2 = h' / 2) /\
    (Z.testbit e 0 = match hashes !! S k with Some h' => negb (h mod nb =? h' mod nb) | None => true end).
Proof.
  induction 1 as [|x hashes Hx Hh IH]; intros k h E; [done|]. cbn [fill_table]. destruct k as [|k]; [|exact (IH k h E)].
  injection E as ->. eexists. split; [done|]. change ((h :: hashes) !! 1%nat) with (hashes !! 0%nat).
  assert (Hodd : (forall h', Z.shiftr (Z.lxor (Z.lor h 1) h') 1 = 0 <-> h / 2 = h' / 2) /\ Z.testbit (Z.lor h 1) 0 = true).
  { rewrite lor_1. split; [intros; apply same_hash; lia|apply Z.testbit_odd_0]. }
  destruct hashes as [|h' rest]; [done|]. change ((h' :: rest) !! 0%nat) with (Some h'). cbn iota.
  destruct (negb (h mod nb =? h' mod nb)) eqn:En; [done|]. rewrite land_not_1 by done. split; [|apply Z.testbit_even_0].
  intros h''. rewrite <- (Z.add_0_r (2 * _)). apply same_hash. lia.
Qed.

(** ** The order of the symbols *)

Lemma gnu_less_asym nb x y : gnu_less nb x y = true -> gnu_less nb y x = false.
Proof.
  unfold gnu_less. destruct (is_exported x.2), (is_exported y.2); cbn [Bool.eqb negb]; try done.
  all: destruct (Z.ltb_spec (djb_hash (name x.2) mod nb) (djb_hash (name y.2) mod nb)),
    (Z.ltb_spec (djb_hash (name y.2) mod nb) (djb_hash (name x.2) mod nb)),
    (Z.eqb_spec (djb_hash (name x.2) mod nb) (djb_hash (name y.2) mod nb)),
    (Z.eqb_spec (djb_hash (name y.2) mod nb) (djb_hash (name x.2) mod nb)),
    (Z.ltb_spec x.1 y.1), (Z.ltb_spec y.1 x.1); cbn; lia || done.
Qed.

Lemma gnu_nless_trans nb x y z : gnu_less nb y x = false -> gnu_less nb z y = false -> gnu_less nb z x = false.
Proof.
  unfold gnu_less. destruct (is_exported x.2), (is_exported y.2), (is_exported z.2); cbn [Bool.eqb negb]; try done.
  all: generalize (djb_hash (name x.2) mod nb), (djb_hash (name y.2) mod nb), (djb_hash (name z.2) mod nb); intros a b c.
  all: destruct (Z.ltb_spec b a), (Z.eqb_spec b a), (Z.ltb_spec y.1 x.1), (Z.ltb_spec c b), (Z.eqb_spec c b), (Z.ltb_spec z.1 y.1),
    (Z.ltb_spec c a), (Z.eqb_spec c a), (Z.ltb_spec z.1 x.1); cbn; lia || done.
Qed.
(** What the tables need of the finalized symbols: the exported ones come last, in
    the order of their buckets. *)
Definition gnu_ordered (nb : Z) (pre exp : list Symbol) : Prop :=
  Forall (fun s => is_exported s = false) pre /\ Forall (fun s => is_exported s = true) exp /\
  StronglySorted (fun a b => djb_hash (name a) mod nb <= djb_hash (name b) mod nb) exp.

Lemma get_exported_spec pre exp : Forall (fun s => is_exported s = false) pre -> Forall (fun s => is_exported s = true) exp ->
  get_exported_symbols (pre ++ exp) = exp.
Proof.
  induction 1 as [|s pre Hs Hp IH]; intros He; simpl; [|rewrite Hs; auto].
  destruct He as [|s exp Hs He]; simpl; [done|by rewrite Hs].
Qed.

Lemma sorted_lookup {A} (R : A -> A -> Prop) l i j x y : StronglySorted R l ->
  l !! i = Some x -> l !! j = Some y -> (i < j)%nat -> R x y.
Proof.
  intros H. revert i j. induction H as [|z l Hl IH Hz]; intros i j; [done|]. destruct j as [|j]; [lia|].
  destruct i as [|i]; simpl; intros E1 E2 Hij.
  - injection E1 as ->. rewrite Forall_forall in Hz. apply Hz. by apply list_elem_of_lookup_2 in E2.
  - apply (IH i j); [done|done|lia].
Qed.

Section Chain.
Context (nb : Z) (pre exp : list Symbol) (Hord : gnu_ordered nb pre exp).
Context (t : GnuHashSection).
Hypothesis t_offset : g_symoffset t = 1 + zlen pre.
Hypothesis t_table : g_table t = fill_table nb (map (fun s => djb_hash (name s)) exp).

Lemma table_entry k s : exp !! k = Some s -> exists e, g_table t !! k = Some e /\
  (forall h', Z.shiftr (Z.lxor e h') 1 = 0 <-> djb_hash (name s) / 2 = h' / 2) /\
  (Z.testbit e 0 = true -> forall s', exp !! S k = Some s' -> djb_hash (name s) mod nb <> djb_hash (name s') mod nb) /\
  (Z.testbit e 0 = false -> exists s', exp !! S k = Some s' /\ djb_hash (name s') mod nb = djb_hash (name s) mod nb).
Proof.
  intros E. rewrite t_table. destruct (fill_table_spec nb (map (fun s => djb_hash (name s)) exp)) with (k := k) (h := djb_hash (name s))
    as (e & He & H1 & H2).
  - apply Forall_map, Forall_forall. intros. apply djb_hash_range.
  - rewrite list_lookup_fmap, E. done.
  - exists e. split; [done|]. split; [done|]. rewrite list_lookup_fmap in H2. rewrite H2.
    destruct (exp !! S k) as [s'|]; simpl; [|done]. split.
    + intros Hb s'' [= <-]. by apply negb_true_iff, Z.eqb_neq in Hb.
    + intros Hb. exists s'. split; [done|]. apply negb_false_iff, Z.eqb_eq in Hb. by rewrite Hb.
Qed.

Lemma gnu_chain_spec n fuel : forall k s, exp !! k = Some s -> (length exp - k <= fuel)%nat ->
  djb_hash (name s) mod nb = djb_hash n mod nb ->
  (forall j s', (j < k)%nat -> exp !! j = Some s' -> name s' <> n) ->
  exists r, gnu_chain fuel t (pre ++ exp) n (djb_hash n) (g_symoffset t + Z.of_nat k) = Some r /\
    match r with
    | Some i => exists s, (pre ++ exp) !! Z.to_nat (i - 1) = Some s /\ is_exported s = true /\ name s = n
    | None => forall s, s ∈ exp -> name s <> n
    end.
Proof.
  destruct Hord as (Hpre & Hexp & Hsort). induction fuel as [|fuel IH]; intros k s Hk Hf Hb Hprev.
  { pose proof (lookup_lt_Some _ _ _ Hk). lia. }
  cbn [gnu_chain]. destruct (table_entry k s Hk) as (e & He & H1 & H2 & H3).
  replace (g_symoffset t + Z.of_nat k - g_symoffset t) with (Z.of_nat k) by lia. rewrite Nat2Z.id, He. cbn [mbind option_bind].
  assert (Hidx : (pre ++ exp) !! Z.to_nat (g_symoffset t + Z.of_nat k - 1) = Some s).
  { rewrite t_offset. replace (Z.to_nat _) with (length pre + k)%nat by (unfold zlen; lia).
    rewrite lookup_app_r by lia. by replace (length pre + k - length pre)%nat with k by lia. }
  rewrite Hidx. cbn [mbind option_bind].
  destruct ((Z.shiftr (Z.lxor e (djb_hash n)) 1 =? 0) && bool_decide (name s = n)) eqn:Etest.
  - apply andb_prop in Etest as [_ Hn]. apply bool_decide_eq_true in Hn. eexists. split; [done|]. exists s. split; [done|].
    rewrite Forall_forall in Hexp. split; [|done]. apply Hexp. by apply list_elem_of_lookup_2 in Hk.
  - assert (Hne : name s <> n).
    { intros E. rewrite (bool_decide_eq_true_2 _ E), andb_true_r in Etest. apply Z.eqb_neq in Etest. apply Etest, H1. by rewrite E. }
    assert (Hprev' : forall j s', (j < S k)%nat -> exp !! j = Some s' -> name s' <> n).
    { intros j s' Hj Es'. destruct (decide (j = k)) as [->|]; [congruence|]. apply (Hprev j); [lia|done]. }
    destruct (Z.testbit e 0) eqn:E0.
    + exists None. split; [done|]. intros s' [j Hj]%list_elem_of_lookup Hn'.
      destruct (Nat.lt_ge_cases j (S k)) as [Hlt|Hge]; [by apply (Hprev' j s' Hlt)|].
      destruct (lookup_lt_is_Some_2 exp (S k)) as [s1 Hs1]; [apply lookup_lt_Some in Hj; lia|].
      pose proof (H2 eq_refl s1 Hs1) as Hdiff.
      pose proof (sorted_lookup _ _ _ _ _ _ Hsort Hk Hs1 ltac:(lia)) as Hle1. simpl in Hle1.
      assert (Hle2 : djb_hash (name s1) mod nb <= djb_hash (name s') mod nb).
      { destruct (decide (j = S k)) as [->|]; [rewrite Hs1 in Hj; by injection Hj as ->|].
        apply (sorted_lookup _ _ (S k) j _ _ Hsort Hs1 Hj). lia. }
      rewrite Hn' in Hle2. lia.
    + destruct (H3 eq_refl) as (s1 & Hs1 & Hs1b). replace (g_symoffset t + Z.of_nat k + 1) with (g_symoffset t + Z.of_nat (S k)) by lia.
      apply (IH (S k) s1 Hs1); [lia|congruence|done].
Qed.
End Chain.

Lemma num_bloom_spec n : 0 <= n < 2 ^ 28 -> exists k, 0 <= k < 32 /\ num_bloom word_bits n = Some (2 ^ k).
Proof.
  intros Hn. unfold num_bloom. destruct (Z.eqb_spec n 0) as [->|Hne]; [by exists 0|].
  assert (Hv : 0 <= n * 12 / word_bits < 2 ^ 31).
  { split; [apply Z.div_pos; lia|]. apply Z.div_lt_upper_bound; lia. }
  pose proof (bit_ceil_spec (n * 12 / word_bits) ltac:(unfold is_u; lia)) as H.
  destruct (bit_ceil (n * 12 / word_bits)) as [r|]; [|lia]. destruct H as (k & Hk & -> & H1 & H2).
  assert (Hk31 : k < 32).
  { destruct (Z.lt_ge_cases k 32); [done|]. assert (2 ^ 32 <= 2 ^ k) by (apply Z.pow_le_mono_r; lia). lia. }
  exists k. split; [lia|]. simpl. f_equal. unfold u32. apply wrap_small. split; [lia|]. apply Z.pow_lt_mono_r; lia.
Qed.

(** The whole lookup. *)
Lemma gnu_lookup_spec nb pre exp n : 0 < nb -> gnu_ordered nb pre exp -> zlen exp < 2 ^ 28 ->
  let syms := pre ++ exp in
  exists t, gnu_hash_section word_bits nb syms = Some t /\
    gnu_hash_size word_bits nb syms = Some (HEADER_SIZE + zlen (g_bloom t) * (word_bits / 8) + zlen (g_buckets t) * 4 + zlen (g_table t) * 4) /\
    exists r, gnu_lookup word_bits t syms n = Some r /\
    match r with
    | Some i => exists s, syms !! Z.to_nat (i - 1) = Some s /\ is_exported s = true /\ name s = n
    | None => forall s, s ∈ exp -> name s <> n
    end.
Proof.
  intros Hnb Hord Hlen syms. pose proof Hord as (Hpre & Hexp & Hsort).
  pose proof (zlen_nonneg exp) as He0. pose proof (zlen_nonneg pre) as Hp0.
  destruct (num_bloom_spec (zlen exp) ltac:(lia)) as (kb & Hkb & Enb).
  assert (Hpos : 0 < 2 ^ kb) by (apply Z.pow_pos_nonneg; lia).
  unfold gnu_hash_section, gnu_hash_size. unfold syms. rewrite !get_exported_spec by done. rewrite Enb. cbn [mbind option_bind].
  set (hashes := map (fun s => djb_hash (name s)) exp).
  replace (1 + zlen (pre ++ exp) - zlen exp) with (1 + zlen pre) by (rewrite zlen_app; lia).
  destruct (fill_bloom_spec (2 ^ kb) hashes Hpos (replicate (Z.to_nat (2 ^ kb)) 0)) as [B1 B2]; [apply length_replicate|].
  destruct (fill_buckets_spec nb (map (fun h => h mod nb) hashes) (1 + zlen pre) (replicate (Z.to_nat nb) 0)) as [C1 C2];
    [lia|apply length_replicate|apply Forall_map, Forall_forall; intros; apply Z.mod_pos_bound; lia|].
  assert (Htab : length (fill_table nb hashes) = length exp).
  { unfold hashes. clear. induction exp as [|s exp IH]; simpl; [done|by rewrite IH]. }
  eexists. split; [done|]. cbn [g_bloom g_buckets g_table]. split.
  { assert (Z1 : forall (l : list Z) k, length l = k -> zlen l = Z.of_nat k) by (unfold zlen; congruence).
    rewrite (Z1 _ _ B1), (Z1 _ _ C1), (Z1 _ _ Htab), !Z2Nat.id by lia. reflexivity. }
  unfold gnu_lookup. cbn [g_bloom g_buckets g_table g_nbloom g_shift g_nbuckets]. set (h := djb_hash n).
  assert (Hland : Z.land (h / word_bits) (2 ^ kb - 1) = bloom_idx word_bits (2 ^ kb) h).
  { unfold bloom_idx. rewrite <- Z.land_ones, Z.ones_equiv by lia. f_equal. }
  rewrite Hland. set (bloom := fill_bloom _ _ _ _) in *.
  destruct (lookup_lt_is_Some_2 bloom (Z.to_nat (bloom_idx word_bits (2 ^ kb) h))) as [w Ew].
  { rewrite B1. unfold bloom_idx. pose proof (Z.mod_pos_bound (h / word_bits) (2 ^ kb) Hpos). lia. }
  rewrite Ew. cbn [mbind option_bind].
  destruct (Z.testbit w (h mod word_bits) && Z.testbit w (Z.shiftr h BLOOM_SHIFT mod word_bits)) eqn:Ebits.
  2: { exists None. split; [done|]. intros s Hs Hn. destruct (B2 h) as (w' & Ew' & Hb1 & Hb2).
       { right. unfold hashes. apply list_elem_of_fmap. exists s. by rewrite Hn. }
       rewrite Ew in Ew'. injection Ew' as <-. by rewrite Hb1, Hb2 in Ebits. }
  assert (Hhb : 0 <= h mod nb < nb) by (apply Z.mod_pos_bound; lia). specialize (C2 (h mod nb) Hhb).
  rewrite nth_lookup in C2. set (bks := fill_buckets _ _ _) in *.
  destruct (lookup_lt_is_Some_2 bks (Z.to_nat (h mod nb))) as [i Ei]; [lia|]. rewrite Ei in C2 |- *. cbn [mbind option_bind].
  rewrite nth_lookup, lookup_replicate_2 in C2 by lia. cbn in C2.
  destruct (first_index (h mod nb) (map (fun h => h mod nb) hashes)) as [k|] eqn:Ek.
  - simpl in C2. subst i. destruct (Z.eqb_spec (1 + zlen pre + Z.of_nat k) 0); [lia|].
    apply first_index_some in Ek as [Ek1 Ek2]. unfold hashes in Ek1, Ek2. rewrite map_map, list_lookup_fmap in Ek1.
    destruct (exp !! k) as [s|] eqn:Es; [|done]. simpl in Ek1. injection Ek1 as Ek1.
    set (t := mkGnuHashSection _ _ _ _ _ _ _).
    change (1 + zlen pre) with (g_symoffset t). rewrite Htab.
    apply (gnu_chain_spec nb pre exp Hord t eq_refl eq_refl n (length exp) k s Es); [lia|done|].
    intros j s' Hj Es' Hn'. apply (Ek2 j Hj). rewrite map_map, list_lookup_fmap, Es'. simpl. by rewrite Hn'.
  - simpl in C2. subst i. exists None. split; [done|]. intros s Hs Hn. apply first_index_none in Ek. apply Ek.
    apply list_elem_of_fmap. exists h. split; [done|]. unfold hashes. apply list_elem_of_fmap. exists s. by rewrite Hn.
Qed.
End GnuProofs.

(** A sorted list of globals: those that are not exported, then the others. *)
Lemma sorted_split nb (l : list (Z * Symbol)) : StronglySorted (fun a b => gnu_less nb b a = false) l ->
  exists l1 l2, l = l1 ++ l2 /\ Forall (fun p => is_exported p.2 = false) l1 /\ Forall (fun p => is_exported p.2 = true) l2 /\
    StronglySorted (fun a b => djb_hash (name a) mod nb <= djb_hash (name b) mod nb) (map snd l2).
Proof.
  induction 1 as [|x l Hl IH Hx]; [exists [], []; repeat split; constructor|].
  destruct IH as (l1 & l2 & -> & H1 & H2 & H3). destruct (is_exported x.2) eqn:E.
  - rewrite Forall_forall in Hx. assert (l1 = []) as ->.
    { destruct l1 as [|y l1]; [done|]. apply Forall_cons in H1 as [H1 _]. specialize (Hx y ltac:(constructor)).
      unfold gnu_less in Hx. by rewrite E, H1 in Hx. }
    exists [], (x :: l2). split; [done|]. split; [constructor|]. split; [by constructor|]. simpl. constructor; [done|].
    apply Forall_forall. intros s (y & -> & Hy)%list_elem_of_fmap. rewrite Forall_forall in H2.
    specialize (Hx y Hy). specialize (H2 y Hy). unfold gnu_less in Hx. rewrite E, H2 in Hx. cbn in Hx.
    apply orb_false_iff in Hx as [Hx _]. by apply Z.ltb_ge in Hx.
  - exists (x :: l1), l2. split; [done|]. split; [by constructor|]. by split.
Qed.

Lemma filter_all {A} (P : A -> Prop) `{!forall x, Decision (P x)} l : Forall P l -> filter P l = l.
Proof. induction 1 as [|x l Hx Hl IH]; [done|]. rewrite filter_cons_True by done. by rewrite IH. Qed.

Lemma filter_none {A} (P : A -> Prop) `{!forall x, Decision (P x)} l : Forall (fun x => ~ P x) l -> filter P l = [].
Proof. induction 1 as [|x l Hx Hl IH]; [done|]. by rewrite filter_cons_False. Qed.

(** The order of [finalize] is what the tables need. *)
Lemma finalize_ordered (symbols : list Symbol) :
  Forall (fun s => is_local s = true -> is_exported s = false) symbols ->
  finalize true symbols ≡ₚ symbols /\
  exists locals globals exp, finalize true symbols = (locals ++ globals) ++ exp /\
    Forall (fun s => is_local s = true) locals /\ Forall (fun s => is_local s = false) (globals ++ exp) /\
    gnu_ordered (num_buckets symbols) (locals ++ globals) exp.
Proof.
  intros Hloc. unfold finalize, partition_local.
  set (L := filter (fun s => is_local s = true) symbols). set (G := filter (fun s => is_local s = false) symbols).
  assert (HL : Forall (fun s => is_local s = true) L) by (apply Forall_forall; intros s [? _]%list_elem_of_filter; done).
  assert (HG : Forall (fun s => is_local s = false) G) by (apply Forall_forall; intros s [? _]%list_elem_of_filter; done).
  assert (EL : filter (fun s => is_local s = true) (L ++ G) = L).
  { rewrite filter_app. rewrite (filter_all _ L) by done. rewrite (filter_none _ G); [apply app_nil_r|].
    eapply Forall_impl; [exact HG|]. simpl. congruence. }
  rewrite EL, take_app_length, drop_app_length.
  set (pairs := zip _ G). set (S := stable_sort _ pairs).
  assert (Hpairs : map snd pairs = G) by (apply snd_zip; rewrite length_seqZ; unfold zlen; lia).
  assert (Hperm : map snd S ≡ₚ G) by (rewrite <- Hpairs; apply fmap_Permutation, stable_sort_perm).
  assert (Hsorted : StronglySorted (fun a b => gnu_less (num_buckets symbols) b a = false) S).
  { apply stable_sort_sorted; [apply gnu_less_asym|apply gnu_nless_trans]. }
  destruct (sorted_split _ _ Hsorted) as (l1 & l2 & ES & H1 & H2 & H3). split.
  - rewrite Hperm. unfold L, G. clear. induction symbols as [|s l IH]; [done|]. rewrite !filter_cons.
    destruct (is_local s); simpl; [by rewrite IH|]. rewrite <- Permutation_middle. by rewrite IH.
  - exists L, (map snd l1), (map snd l2). rewrite ES, map_app, app_assoc. split; [done|]. split; [done|]. split.
    + rewrite <- map_app, <- ES. by rewrite Hperm.
    + split; [|split; [by apply Forall_map|done]]. apply Forall_app. split; [|by apply Forall_map].
      apply Forall_forall. intros s Hs. rewrite Forall_forall in HL, Hloc. apply Hloc; [|by apply HL].
      by apply list_elem_of_filter in Hs as [_ ?].
Qed.

(** C25: [finalize] keeps the symbols and puts local ones first; the .gnu.hash section
    over the finalized table has the size that was reserved, and the loader's lookup
    in it terminates: it returns the index of an exported symbol of the name it looks
    for, past the Bloom filter and the bucket chains, and nothing only when no
    exported symbol has it. *)
Theorem gnu_lookup_exact (word_bits : Z) (symbols : list Symbol) (n : bytes) :
  word_bits = 32 \/ word_bits = 64 ->
  Forall (fun s => is_local s = true -> is_exported s = false) symbols -> zlen symbols < 2 ^ 28 ->
  let syms := finalize true symbols in
  let nb := num_buckets symbols in
  syms ≡ₚ symbols /\ (exists l g, syms = l ++ g /\ Forall (fun s => is_local s = true) l /\ Forall (fun s => is_local s = false) g) /\
  exists t, gnu_hash_section word_bits nb syms = Some t /\
    gnu_hash_size word_bits nb syms = Some (HEADER_SIZE + zlen (g_bloom t) * (word_bits / 8) + zlen (g_buckets t) * 4 + zlen (g_table t) * 4) /\
    exists r, gnu_lookup word_bits t syms n = Some r /\
    match r with
    | Some i => exists s, syms !! Z.to_nat (i - 1) = Some s /\ is_exported s = true /\ name s = n
    | None => forall s, s ∈ symbols -> is_exported s = true -> name s <> n
    end.
Proof.
  intros Hwb Hloc Hlen syms nb. destruct (finalize_ordered symbols Hloc) as (Hperm & l & g & exp & E & Hl & Hg & Hord).
  fold syms in Hperm, E. split; [done|]. split; [exists l, (g ++ exp); by rewrite app_assoc|].
  assert (Hnb : 0 < nb).
  { unfold nb, num_buckets, LOAD_FACTOR. set (m := zlen _). assert (0 <= m <= zlen symbols).
    { split; [apply zlen_nonneg|]. unfold m, zlen. pose proof (length_filter (fun s => is_exported s = true) symbols). lia. }
    unfold u32. rewrite wrap_small; dlia. }
  assert (Hexp : zlen exp < 2 ^ 28).
  { apply Permutation_length in Hperm. rewrite E, length_app in Hperm. unfold zlen in *. lia. }
  destruct (gnu_lookup_spec word_bits Hwb nb (l ++ g) exp n Hnb Hord Hexp) as (t & H1 & H2 & r & H3 & H4).
  rewrite <- E in H1, H2, H3, H4. exists t. split; [done|]. split; [done|]. exists r. split; [done|].
  destruct r as [i|]; [done|]. intros s Hs He. apply H4. rewrite <- Hperm, E in Hs. apply elem_of_app in Hs as [Hs|Hs]; [|done].
  destruct Hord as (Hpre & _). rewrite Forall_forall in Hpre. specialize (Hpre s Hs). congruence.
Qed.

Definition sample_symbols : list Symbol :=
  let mk i n l e := mkSymbol i (bs n) l e in
  [mk 0 "main" false true; mk 1 "tmp" true false; mk 2 "puts" false false; mk 3 "foo" false true;
   mk 4 "bar" false true; mk 5 "baz" false true]%string.

Lemma gnu_lookup_exact_witness :
  let syms := finalize true sample_symbols in
  let nb := num_buckets sample_symbols in
  syms ≡ₚ sample_symbols /\ (exists l g, syms = l ++ g /\ Forall (fun s => is_local s = true) l /\ Forall (fun s => is_local s = false) g) /\
  exists t, gnu_hash_section 64 nb syms = Some t /\
    gnu_hash_size 64 nb syms = Some (HEADER_SIZE + zlen (g_bloom t) * (64 / 8) + zlen (g_buckets t) * 4 + zlen (g_table t) * 4) /\
    exists r, gnu_lookup 64 t syms (bs "bar") = Some r /\
    match r with
    | Some i => exists s, syms !! Z.to_nat (i - 1) = Some s /\ is_exported s = true /\ name s = bs "bar"
    | None => forall s, s ∈ sample_symbols -> is_exported s = true -> name s <> bs "bar"
    end.
Proof. apply (gnu_lookup_exact 64 sample_symbols (bs "bar")); [by right|decided|done]. Defined.

Example gnu_lookup_sample :
  let syms := finalize true sample_symbols in
  let nb := num_buckets sample_symbols in
  (t ← gnu_hash_section 64 nb syms; mapM (gnu_lookup 64 t syms) (map bs ["foo"; "main"; "puts"; "quux"]%string))
  = Some [Some 4; Some 3; None; None].
Proof. by vm_compute. Qed.
