(* ===== verification/GcSections.v ===== *)
(** * Garbage collection of sections (src/elf/gc-sections.cc)

    [--gc-sections] keeps the sections that are reachable from a root set through
    relocations and through the exception tables of kept text sections, and the
    string fragments that kept sections refer to. The marking is modelled as the
    functions of the source and as a transition system in which the work of any
    number of threads interleaves; the theorem: every run of either marks exactly
    the reachable sections and fragments, and the sweep keeps exactly those. *)

From stdpp Require Import fin_sets.
From S2P Require Import Prelude Integers Enums ElfConst Glob.
Local Open Scope list_scope.
Local Open Scope Z_scope.

(** ** Data *)

(** [sh_flags], [sh_type] and the name of the section; pointers are identifiers. *)
Record ElfRel := mkElfRel { r_offset : Z; r_sym : nat }.
Record CieRecord := mkCieRecord {
  cie_offset : nat; cie_rel_idx : nat; cie_rels : list ElfRel; contents : bytes }.
Record FdeRecord := mkFdeRecord { input_offset : nat; rel_idx : nat; cie_idx : nat; fde_alive : bool }.
Record InputSection := mkInputSection {
  sh_type : Z; sh_flags : Z; name : bytes; is_alive : bool; isec_file : Z;
  rels : list ElfRel; fdes : list FdeRecord }.

(** What [Symbol::origin] points to. *)
Inductive origin := ISEC (s : Z) | FRAG (f : Z) | OTHER.

Record Symbol := mkSymbol { sym_file : option Z; is_exported : bool; sym_origin : origin }.
Record ObjectFile := mkObjectFile {
  symbols : list (option Z); sections : list (option Z); cies : list CieRecord }.

(** [root_symbols] are the symbols of [entry], [undefined] and [require_defined];
    [live_frags] the fragments that are alive from the start; [u32_type] is [U32<E>]. *)
Record Context := mkContext {
  syms : gmap Z Symbol; isecs : gmap Z InputSection; objs : list (Z * ObjectFile);
  root_symbols : list Z; is_arm32 : bool; u32_type : int_field; live_frags : gset Z }.

Definition sht (n : string) : Z := constant SHT ("SHT_" ++ n).
Definition shf (n : string) : Z := constant SHF ("SHF_" ++ n).

(** [is_c_identifier] (src/elf/mold.h) *)
Definition is_alpha (c : Z) : bool :=
  (c =? chr "_") || ((chr "a" <=? c) && (c <=? chr "z")) || ((chr "A" <=? c) && (c <=? chr "Z")).
Definition is_alnum (c : Z) : bool := is_alpha c || ((chr "0" <=? c) && (c <=? chr "9")).
Definition is_c_identifier (s : bytes) : bool :=
  match s with [] => false | c :: l => is_alpha c && forallb is_alnum l end.

(** [name.starts_with(...)] *)
Definition has_prefix (s : bytes) (p : string) : bool := starts_with s (bs p).

Section Pass.
Context (ctx : Context).

Definition should_keep (isec : InputSection) : bool :=
  negb (Z.land (sh_flags isec) (shf "GNU_RETAIN") =? 0) ||
  (sh_type isec =? sht "NOTE") || (sh_type isec =? sht "INIT_ARRAY") || (sh_type isec =? sht "FINI_ARRAY") ||
  (sh_type isec =? sht "PREINIT_ARRAY") || (is_arm32 ctx && (sh_type isec =? sht "ARM_EXIDX")) ||
  has_prefix (name isec) ".ctors" || has_prefix (name isec) ".dtors" || has_prefix (name isec) ".init" ||
  has_prefix (name isec) ".fini" || is_c_identifier (name isec).

(** [is_alive] of the section, and [SHF_ALLOC]. *)
Definition alive (x : Z) : bool := match isecs ctx !! x with Some s => is_alive s | None => false end.
Definition alloc (x : Z) : bool :=
  match isecs ctx !! x with Some s => negb (Z.land (sh_flags s) (shf "ALLOC") =? 0) | None => false end.

(** ** References *)

(** What a symbol refers to, [symbols[i]] of a file ([None] outside: beyond the end
    of the table), and the relocations of an FDE. *)
Definition sym_target (s : Z) : origin := match syms ctx !! s with Some y => sym_origin y | None => OTHER end.

Definition file_symbol (f : Z) (i : nat) : option (option Z) :=
  '(_, file) ← list_find (fun p => p.1 = f) (objs ctx); symbols file.2 !! i.

(** A record starts with the size of what follows it, to which 4 is added in 32 bits. [size]
    and the two [get_rels] *)
Definition record_size (contents : bytes) (offset : nat) : option Z :=
  n ← read_int little (u32_type ctx) (take 4 (drop offset contents)); Some (u32 (n + 4)).

Fixpoint rels_before (fin : Z) (l : list ElfRel) : list ElfRel :=
  match l with
  | r :: l => if r_offset r <? fin then r :: rels_before fin l else []
  | [] => []
  end.

Definition record_rels (c : CieRecord) (offset rel_idx : nat) : option (list ElfRel) :=
  size ← record_size (contents c) offset;
  if (rel_idx <=? length (cie_rels c))%nat
  then Some (rels_before (Z.of_nat offset + size) (drop rel_idx (cie_rels c)))
  else None.

Definition cie_get_rels (c : CieRecord) : option (list ElfRel) := record_rels c (cie_offset c) (cie_rel_idx c).

Definition fde_get_rels (f : Z) (fde : FdeRecord) : option (list ElfRel) :=
  '(_, file) ← list_find (fun p => p.1 = f) (objs ctx);
  cie ← cies file.2 !! cie_idx fde;
  record_rels cie (input_offset fde) (rel_idx fde).

(** The sections that the FDEs of a section refer to: all relocations of an FDE but
    the first, whose symbol is the section itself. [subspan(1)] needs one. *)
Definition fde_target (f : Z) (r : ElfRel) : option origin :=
  s ← file_symbol f (r_sym r);
  Some (match s with Some s => match sym_target s with ISEC y => ISEC y | _ => OTHER end | None => OTHER end).

Definition fde_targets (x : Z) : option (list origin) :=
  isec ← isecs ctx !! x;
  l ← mapM (fun fde =>
    rels ← fde_get_rels (isec_file isec) fde;
    match rels with [] => None | _ :: rels => mapM (fde_target (isec_file isec)) rels end) (fdes isec);
  Some (concat l).

(** The targets of its relocations; [*symbols[r_sym]] follows the pointer. *)
Definition rel_targets (x : Z) : option (list origin) :=
  isec ← isecs ctx !! x;
  mapM (fun r => s ← file_symbol (isec_file isec) (r_sym r); sym_target <$> s) (rels isec).

(** ** Marking *)

(** [is_visited] of the sections and [is_alive] of the fragments. *)
Definition state : Type := gset Z * gset Z.

(** [mark_section]: the section must be alive and not visited. *)
Definition mark_section (st : state) (x : Z) : bool := alive x && negb (bool_decide (x ∈ st.1)).
Definition set_visited (st : state) (x : Z) : state := ({[x]} ∪ st.1, st.2).
Definition set_frag (st : state) (f : Z) : state := (st.1, {[f]} ∪ st.2).

(** The first loop of [visit]: every section that gets marked goes to the feeder. *)
Fixpoint feed_fdes (st : state) (fed : list Z) (l : list origin) : state * list Z :=
  match l with
  | ISEC y :: l => if mark_section st y then feed_fdes (set_visited st y) (fed ++ [y]) l else feed_fdes st fed l
  | _ :: l => feed_fdes st fed l
  | [] => (st, fed)
  end.

(** The second loop; [rec] is the recursive call of [visit], [None] at depth 3. *)
Fixpoint visit_rels (rec : option (state -> Z -> option (state * list Z))) (st : state) (fed : list Z) (l : list origin)
  : option (state * list Z) :=
  match l with
  | [] => Some (st, fed)
  | FRAG f :: l => visit_rels rec (set_frag st f) fed l
  | ISEC y :: l =>
      if mark_section st y then
        match rec with
        | Some visit => '(st, fed') ← visit (set_visited st y) y; visit_rels rec st (fed ++ fed') l
        | None => visit_rels rec (set_visited st y) (fed ++ [y]) l
        end
      else visit_rels rec st fed l
  | OTHER :: l => visit_rels rec st fed l
  end.

(** [visit] with [d] levels of recursion left: the state and what was fed. *)
Fixpoint visit (d : nat) (st : state) (x : Z) : option (state * list Z) :=
  fde ← fde_targets x;
  rel ← rel_targets x;
  let '(st, fed) := feed_fdes st [] fde in
  visit_rels (match d with O => None | S d => Some (visit d) end) st fed rel.

(** [mark]: the worklist of [tbb::parallel_for_each]. *)
Fixpoint mark (fuel : nat) (st : state) (queue : list Z) : option state :=
  match queue, fuel with
  | [], _ => Some st
  | x :: queue, S fuel => '(st, fed) ← visit 3 st x; mark fuel st (queue ++ fed)
  | _ :: _, O => None
  end.

(** ** Roots *)

Definition enqueue_section (st : state * list Z) (x : Z) : state * list Z :=
  if mark_section st.1 x then (set_visited st.1 x, st.2 ++ [x]) else st.

Definition enqueue_symbol (st : state * list Z) (s : option Z) : state * list Z :=
  match s with
  | None => st
  | Some s =>
      match sym_target s with
      | FRAG f => (set_frag st.1 f, st.2)
      | ISEC x => enqueue_section st x
      | OTHER => st
      end
  end.

(** The first loop, for a section: those that are not allocated count as visited. *)
Definition root_section (st : state * list Z) (x : Z) : state * list Z :=
  match isecs ctx !! x with
  | Some isec =>
      if negb (is_alive isec) then st
      else
        let st := if alloc x then st else (set_visited st.1 x, st.2) in
        if should_keep isec then enqueue_section st x else st
  | None => st
  end.

(** Symbols that the file defines and exports. A null entry of the table, which the source
    would dereference, is skipped; the reader of object files sets every entry. *)
Definition exported_by (f : Z) (s : option Z) : bool :=
  match s ≫= (fun s => syms ctx !! s) with
  | Some y => bool_decide (sym_file y = Some f) && is_exported y
  | None => false
  end.
Definition exported_symbols (f : Z * ObjectFile) : list (option Z) := List.filter (exported_by f.1) (symbols f.2).

Definition cie_symbols (f : Z * ObjectFile) : option (list (option Z)) :=
  l ← mapM cie_get_rels (cies f.2);
  mapM (fun r => symbols f.2 !! r_sym r) (concat l).

Definition all_sections : list Z := concat (map (fun f => omap id (sections f.2)) (objs ctx)).

Definition collect_root_set : option (state * list Z) :=
  let st := foldl root_section ((∅, live_frags ctx), []) all_sections in
  let st := foldl enqueue_symbol st (concat (map exported_symbols (objs ctx))) in
  let st := foldl enqueue_symbol st (map Some (root_symbols ctx)) in
  cie ← mapM cie_symbols (objs ctx);
  Some (foldl enqueue_symbol st (concat cie)).

(** ** Sweeping *)

Definition kill_fde (fde : FdeRecord) : FdeRecord := mkFdeRecord (input_offset fde) (rel_idx fde) (cie_idx fde) false.
Definition kill (isec : InputSection) : InputSection :=
  if is_alive isec
  then mkInputSection (sh_type isec) (sh_flags isec) (name isec) false (isec_file isec) (rels isec) (map kill_fde (fdes isec))
  else isec.

(** One section of the loop, in the sections as they are then. *)
Definition sweep_one (st : state) (m : gmap Z InputSection) (x : Z) : gmap Z InputSection :=
  match m !! x with
  | Some isec => if is_alive isec && negb (bool_decide (x ∈ st.1)) then <[x := kill isec]> m else m
  | None => m
  end.
Definition sweep (st : state) : gmap Z InputSection := foldl (sweep_one st) (isecs ctx) all_sections.

Definition gc_sections : option (gmap Z InputSection * gset Z) :=
  '(st, rootset) ← collect_root_set;
  st ← mark (S (base.size (dom (isecs ctx)))) st rootset;
  Some (sweep st, st.2).

(** ** What should be kept *)

(** What a section refers to. *)
Definition targets (x : Z) : list origin := default [] (fde_targets x) ++ default [] (rel_targets x).

(** The root set, as references. *)
Definition kept (x : Z) : bool := match isecs ctx !! x with Some s => is_alive s && should_keep s | None => false end.
Definition opt_target (s : option Z) : origin := match s with Some s => sym_target s | None => OTHER end.
Definition root_syms : list (option Z) :=
  concat (map exported_symbols (objs ctx)) ++ map Some (root_symbols ctx) ++ concat (default [] (mapM cie_symbols (objs ctx))).
Definition roots : list origin := map ISEC (List.filter kept all_sections) ++ map opt_target root_syms.

Inductive live : Z -> Prop :=
  | live_root x : ISEC x ∈ roots -> alive x = true -> alloc x = true -> live x
  | live_ref x y : live x -> ISEC y ∈ targets x -> alive y = true -> alloc y = true -> live y.

Definition frag_live (f : Z) : Prop :=
  f ∈ live_frags ctx \/ FRAG f ∈ roots \/ exists x, live x /\ FRAG f ∈ targets x.

(** ** Marking by many threads

    A state of the marking: the visited sections, the live fragments, and the
    references that some thread has still to follow, in any order. [test_and_set] is
    atomic, so marking a section is one step. *)
Inductive step : state * list origin -> state * list origin -> Prop :=
  | step_frag st l f l' : l ≡ₚ FRAG f :: l' -> step (st, l) (set_frag st f, l')
  | step_skip st l t l' : l ≡ₚ t :: l' -> (forall f, t <> FRAG f) ->
      (forall y, t = ISEC y -> mark_section st y = false) -> step (st, l) (st, l')
  | step_mark st l y l' : l ≡ₚ ISEC y :: l' -> mark_section st y = true ->
      step (st, l) (set_visited st y, targets y ++ l').

(** Sections that are not allocated count as visited from the start. *)
Definition unalloc : gset Z := filter (fun x => alive x = true /\ alloc x = false) (dom (isecs ctx)).

Lemma alive_dom x : alive x = true -> x ∈ dom (isecs ctx).
Proof. unfold alive. rewrite elem_of_dom. by destruct (isecs ctx !! x). Qed.

Lemma unalloc_elem x : x ∈ unalloc <-> alive x = true /\ alloc x = false.
Proof. unfold unalloc. rewrite elem_of_filter. pose proof (alive_dom x). tauto. Qed.

Lemma mark_section_spec st x : mark_section st x = true <-> alive x = true /\ x ∉ st.1.
Proof. unfold mark_section. by rewrite andb_true_iff, negb_true_iff, bool_decide_eq_false. Qed.

Record inv (s : state * list origin) : Prop := {
  inv_unalloc : unalloc ⊆ s.1.1;
  inv_live : forall x, x ∈ s.1.1 -> x ∈ unalloc \/ live x;
  inv_frag : forall f, f ∈ s.1.2 \/ FRAG f ∈ s.2 -> frag_live f;
  inv_base : live_frags ctx ⊆ s.1.2;
  inv_pending : forall y, ISEC y ∈ s.2 -> alive y = true -> alloc y = true -> live y;
  inv_refs : forall x t, x ∈ s.1.1 -> live x -> t ∈ targets x -> t ∈ s.2 \/
    match t with FRAG f => f ∈ s.1.2 | ISEC y => alive y = true -> y ∈ s.1.1 | OTHER => True end;
  inv_roots : forall t, t ∈ roots -> t ∈ s.2 \/
    match t with FRAG f => f ∈ s.1.2 | ISEC y => alive y = true -> y ∈ s.1.1 | OTHER => True end }.

Lemma live_alloc x : live x -> alive x = true /\ alloc x = true.
Proof. by intros []. Qed.

(** A reference that was followed. *)
Definition settled (st : state) (t : origin) : Prop :=
  match t with FRAG f => f ∈ st.2 | ISEC y => alive y = true -> y ∈ st.1 | OTHER => True end.

Lemma settled_mono st st' t : st.1 ⊆ st'.1 -> st.2 ⊆ st'.2 -> settled st t -> settled st' t.
Proof. intros H1 H2. destruct t; simpl; [|apply H2|done]. intros H Ha. by apply H1, H. Qed.

Lemma step_settles s s' : step s s' -> s.1.1 ⊆ s'.1.1 /\ s.1.2 ⊆ s'.1.2 /\
  forall t, t ∈ s.2 -> t ∈ s'.2 \/ settled s'.1 t.
Proof.
  intros [st l f l' Hl|st l t l' Hl Hf Hn|st l y l' Hl Hm]; cbn [fst snd set_frag set_visited].
  - split; [done|]. split; [set_solver|]. intros t. rewrite Hl. intros [->|Ht]%elem_of_cons; [right; simpl; set_solver|by left].
  - split; [done|]. split; [done|]. intros t'. rewrite Hl. intros [->|Ht]%elem_of_cons; [right|by left].
    destruct t as [y|f|]; simpl; [|by destruct (Hf f)|done]. intros Ha. specialize (Hn y eq_refl).
    apply dec_stable. intros Hy. assert (mark_section st y = true) by (by apply mark_section_spec). congruence.
  - split; [set_solver|]. split; [done|]. intros t. rewrite Hl. intros [->|Ht]%elem_of_cons; [right; simpl; set_solver|].
    left. apply elem_of_app. by right.
Qed.

Lemma gc_inv_step s s' : inv s -> step s s' -> inv s'.
Proof.
  intros I Hs. destruct (step_settles _ _ Hs) as (S1 & S2 & S3).
  assert (Hold : forall t, t ∈ s.2 \/ settled s.1 t -> t ∈ s'.2 \/ settled s'.1 t).
  { intros t [Ht|Ht]; [by apply S3|right; by apply (settled_mono s.1)]. }
  destruct I as [I1 I2 I3 I4 I5 I6 I7].
  assert (Hroots : forall t, t ∈ roots -> t ∈ s'.2 \/ settled s'.1 t) by (intros t Ht; by apply Hold, I7).
  assert (Hrefs : forall x t, x ∈ s.1.1 -> live x -> t ∈ targets x -> t ∈ s'.2 \/ settled s'.1 t)
    by (intros x t Hx Hlx Ht; by apply Hold, (I6 x)).
  destruct Hs as [st l f l' Hl|st l t l' Hl Hf Hn|st l y l' Hl Hm]; cbn [fst snd set_frag set_visited] in *.
  - split; cbn [fst snd]; [done|done| |set_solver| |done|done].
    + intros g Hg. apply I3. rewrite Hl, elem_of_cons. set_solver.
    + intros y Hy. apply I5. rewrite Hl. by constructor.
  - split; cbn [fst snd]; [done|done| |done| |done|done].
    + intros g Hg. apply I3. rewrite Hl, elem_of_cons. set_solver.
    + intros y Hy. apply I5. rewrite Hl. by constructor.
  - apply mark_section_spec in Hm as [Ha Hny].
    assert (Hal : alloc y = true).
    { destruct (alloc y) eqn:E; [done|]. exfalso. apply Hny, I1, unalloc_elem. done. }
    assert (Hly : live y) by (apply I5; [rewrite Hl; constructor|done|done]).
    split; cbn [fst snd]; [set_solver| | |done| | |done].
    + intros x Hx. change (x ∈ {[y]} ∪ st.1) in Hx.
      apply elem_of_union in Hx as [->%elem_of_singleton|Hx]; [by right|by apply I2].
    + intros g Hg. rewrite elem_of_app in Hg. destruct Hg as [Hg|[Hg|Hg]]; [apply I3; by left|right; right; eauto|].
      apply I3. right. rewrite Hl. by constructor.
    + intros z [Hz|Hz]%elem_of_app; [by apply (live_ref y)|]. apply I5. rewrite Hl. by constructor.
    + intros x t Hx Hlx Ht. change (x ∈ {[y]} ∪ st.1) in Hx.
      apply elem_of_union in Hx as [->%elem_of_singleton|Hx]; [left; apply elem_of_app; by left|by apply (Hrefs x)].
Qed.

(** When nothing is pending, exactly what should be kept is marked. *)
Lemma inv_final st : inv (st, []) ->
  (forall x, x ∈ st.1 <-> x ∈ unalloc \/ live x) /\ (forall f, f ∈ st.2 <-> frag_live f).
Proof.
  intros [I1 I2 I3 I4 I5 I6 I7]. cbn [fst snd] in *.
  assert (Hl : forall x, live x -> x ∈ st.1).
  { intros x Hx. induction Hx as [x Hr Ha Hal|x y Hx IH Hy Ha Hal].
    - destruct (I7 _ Hr) as [H|H]; [by apply elem_of_nil in H|by apply H].
    - destruct (I6 x _ IH Hx Hy) as [H|H]; [by apply elem_of_nil in H|by apply H]. }
  split.
  - intros x. split; [apply I2|]. intros [H|H]; [by apply I1|by apply Hl].
  - intros f. split; [intros H; apply I3; by left|]. intros [H|[H|(x & Hx & H)]].
    + by apply I4.
    + destruct (I7 _ H) as [H'|H']; [by apply elem_of_nil in H'|done].
    + destruct (I6 x _ (Hl x Hx) Hx H) as [H'|H']; [by apply elem_of_nil in H'|done].
Qed.
(** ** Runs of the transition system *)

Definition runs (s s' : state * list origin) : Prop := exists l, rtc step s (s'.1, l) /\ l ≡ₚ s'.2.

Lemma step_perm st l l2 s' : step (st, l) s' -> l ≡ₚ l2 -> step (st, l2) s'.
Proof.
  intros H Hp. inversion H as [? ? ? ? E|? ? ? ? E|? ? ? ? E]; subst; rewrite Hp in E; econstructor; eauto.
Qed.

Lemma rtc_perm st l l2 s' : rtc step (st, l) s' -> l ≡ₚ l2 -> runs (st, l2) s'.
Proof.
  intros H Hp. inversion H as [|? s1 ? H1 H2]; subst; [exists l2; simpl; split; [constructor|done]|].
  exists s'.2. destruct s'. split; [|done]. econstructor; [by eapply step_perm|done].
Qed.

Lemma runs_perm st l l2 : l ≡ₚ l2 -> runs (st, l) (st, l2).
Proof. intros H. exists l. split; [constructor|done]. Qed.

Lemma runs_trans s1 s2 s3 : runs s1 s2 -> runs s2 s3 -> runs s1 s3.
Proof.
  intros (l & H1 & P1) (l' & H2 & P2). destruct s2 as [st2 l2]; simpl in *.
  edestruct (rtc_perm st2 l2 l) as (l3 & H3 & P3); [done|by symmetry|]. exists l3.
  split; [by etrans|]. simpl in P3. by rewrite P3.
Qed.

Lemma step_runs s s' : step s s' -> runs s s'.
Proof. intros H. exists s'.2. destruct s'. split; [by apply rtc_once|done]. Qed.

Lemma step_frame s s' P : step s s' -> step (s.1, s.2 ++ P) (s'.1, s'.2 ++ P).
Proof.
  intros [st l f l' Hl|st l t l' Hl Hf Hn|st l y l' Hl Hm]; cbn [fst snd].
  - apply step_frag. by rewrite Hl.
  - apply (step_skip _ _ t); [by rewrite Hl|done|done].
  - rewrite <- app_assoc. apply step_mark; [by rewrite Hl|done].
Qed.

Lemma runs_frame st l st' l' P : runs (st, l) (st', l') -> runs (st, l ++ P) (st', l' ++ P).
Proof.
  intros (l2 & H & Hp). exists (l2 ++ P). split; [|simpl in *; by rewrite Hp]. simpl in *.
  remember (st, l) as s eqn:E. remember (st', l2) as s' eqn:E'. revert st l st' l2 E E' Hp.
  induction H as [s|s1 s2 s3 H1 H2 IH]; intros st l st' l2 -> E' Hp; simplify_eq; [constructor|].
  destruct s2 as [st2 m]. econstructor; [by apply (step_frame _ _ P) in H1|]. by eapply IH.
Qed.

(** First what [l] leads to, then the rest. *)
Lemma runs_then st l P st1 l1 s' : runs (st, l) (st1, l1) -> runs (st1, P ++ l1) s' -> runs (st, l ++ P) s'.
Proof. intros H1 H2. eapply runs_trans; [by apply runs_frame|]. eapply runs_trans; [apply runs_perm, Permutation_app_comm|done]. Qed.

Lemma runs_skip st t l : (forall f, t <> FRAG f) -> (forall y, t = ISEC y -> mark_section st y = false) ->
  runs (st, t :: l) (st, l).
Proof. intros. by apply step_runs, (step_skip _ _ t). Qed.

Lemma runs_frag st f l : runs (st, FRAG f :: l) (set_frag st f, l).
Proof. by apply step_runs, step_frag. Qed.

Lemma runs_mark st y l : mark_section st y = true -> runs (st, ISEC y :: l) (set_visited st y, targets y ++ l).
Proof. intros. by apply step_runs, step_mark. Qed.

Lemma inv_runs s s' : inv s -> runs s s' -> inv s'.
Proof.
  intros I (l & H & Hp). assert (I' : inv (s'.1, l)).
  { clear Hp. revert I. remember (s'.1, l) as s2. clear Heqs2. induction H; eauto using gc_inv_step. }
  destruct s' as [st l']. destruct I' as [I1 I2 I3 I4 I5 I6 I7]. cbn [fst snd] in *.
  split; cbn [fst snd]; try done; setoid_rewrite <- Hp; done.
Qed.

(** ** The functions are runs *)

(** Sections that can still be marked. *)
Definition rank (st : state) : nat := base.size (dom (isecs ctx) ∖ st.1).

(** What a part of the marking does: it follows the references [l] up to those of the
    sections that it adds to [fed], which are still to be visited. *)
Definition ready (x : Z) : Prop := alive x = true /\ alloc x = true.
Definition pending (q : list Z) : list origin := concat (map targets q).
Definition follows (st : state) (l : list origin) (fed : list Z) (st' : state) (fed' : list Z) : Prop :=
  exists new, fed' = fed ++ new /\ runs (st, l) (st', pending new) /\ Forall ready new /\
    unalloc ⊆ st'.1 /\ (rank st' + length new <= rank st)%nat.

Lemma rank_visited st y : mark_section st y = true -> (rank (set_visited st y) < rank st)%nat.
Proof.
  intros [Ha Hy]%mark_section_spec. unfold rank. apply subset_size. pose proof (alive_dom y Ha). simpl. set_solver.
Qed.

Lemma mark_ready st y : unalloc ⊆ st.1 -> mark_section st y = true -> ready y.
Proof.
  intros H [Ha Hy]%mark_section_spec. split; [done|]. destruct (alloc y) eqn:E; [done|].
  exfalso. apply Hy, H, unalloc_elem. done.
Qed.

Lemma pending_app q q' : pending (q ++ q') = pending q ++ pending q'.
Proof. unfold pending. by rewrite map_app, concat_app. Qed.

Lemma follows_nil st fed : unalloc ⊆ st.1 -> follows st [] fed st fed.
Proof.
  intros H. exists []. rewrite app_nil_r. split; [done|]. split; [by apply runs_perm|]. split; [done|]. split; [done|].
  simpl. lia.
Qed.

Lemma follows_app st l fed st1 fed1 m st2 fed2 :
  follows st l fed st1 fed1 -> follows st1 m fed1 st2 fed2 -> follows st (l ++ m) fed st2 fed2.
Proof.
  intros (n1 & -> & R1 & F1 & U1 & K1) (n2 & -> & R2 & F2 & U2 & K2). exists (n1 ++ n2).
  rewrite app_assoc, length_app, pending_app. split; [done|]. split; [|split; [by apply Forall_app|split; [done|lia]]].
  eapply runs_then; [done|]. eapply runs_trans; [by apply runs_frame|]. apply runs_perm, Permutation_app_comm.
Qed.

Lemma follows_skip st t fed : unalloc ⊆ st.1 -> (forall f, t <> FRAG f) ->
  (forall y, t = ISEC y -> mark_section st y = false) -> follows st [t] fed st fed.
Proof.
  intros H Hf Hn. exists []. rewrite app_nil_r. split; [done|]. split; [by apply runs_skip|]. split; [done|].
  split; [done|]. simpl. lia.
Qed.

Lemma follows_frag st f fed : unalloc ⊆ st.1 -> follows st [FRAG f] fed (set_frag st f) fed.
Proof.
  intros H. exists []. rewrite app_nil_r. split; [done|]. split; [by apply runs_frag|]. split; [done|].
  split; [done|]. unfold rank. simpl. lia.
Qed.

Lemma follows_feed st y fed : unalloc ⊆ st.1 -> mark_section st y = true ->
  follows st [ISEC y] fed (set_visited st y) (fed ++ [y]).
Proof.
  intros H Hm. pose proof (rank_visited _ _ Hm). exists [y]. split; [done|]. split; [by apply runs_mark|].
  split; [|split; [simpl; set_solver|simpl; lia]]. constructor; [by apply (mark_ready st)|done].
Qed.

Lemma follows_unalloc st l fed st' fed' : follows st l fed st' fed' -> unalloc ⊆ st'.1.
Proof. by intros (? & ? & ? & ? & ? & ?). Qed.
Lemma follows_visit st y fed st' new : mark_section st y = true ->
  follows (set_visited st y) (targets y) [] st' new -> follows st [ISEC y] fed st' (fed ++ new).
Proof.
  intros Hm (n & -> & R & F & U & K). pose proof (rank_visited _ _ Hm). exists n. split; [done|].
  split; [|split; [done|split; [done|lia]]]. eapply runs_trans; [by apply runs_mark|]. by rewrite app_nil_r.
Qed.

Definition no_frag (t : origin) : Prop := forall f, t <> FRAG f.

Lemma fde_targets_no_frag x l : fde_targets x = Some l -> Forall no_frag l.
Proof.
  unfold fde_targets. intros (isec & _ & (m & Hm & [= <-])%bind_Some)%bind_Some. apply Forall_concat.
  apply mapM_Some in Hm. induction Hm as [|fde t fs ts Ht _ IH]; constructor; [|done].
  apply bind_Some in Ht as ([|r rs] & _ & Ht); [done|]. apply mapM_Some in Ht.
  induction Ht as [|r' t rs' ts' Ht _ IH']; constructor; [|done].
  unfold fde_target in Ht. apply bind_Some in Ht as (s & _ & [= <-]). intros f. by repeat case_match.
Qed.

Lemma feed_fdes_follows l st fed st' fed' : unalloc ⊆ st.1 -> Forall no_frag l ->
  feed_fdes st fed l = (st', fed') -> follows st l fed st' fed'.
Proof.
  intros U F. revert st fed U. induction F as [|t l Ht _ IH]; intros st fed U E; simpl in E.
  - simplify_eq. by apply follows_nil.
  - change (t :: l) with ([t] ++ l). destruct t as [y|f|]; [|by destruct (Ht f)|].
    + destruct (mark_section st y) eqn:Em.
      * pose proof (follows_feed st y fed U Em) as H. eapply follows_app; [done|].
        by apply IH; [apply (follows_unalloc _ _ _ _ _ H)|].
      * eapply follows_app; [apply follows_skip; [done|done|congruence]|]. by apply IH.
    + eapply follows_app; [by apply follows_skip|]. by apply IH.
Qed.

Definition visits (v : state -> Z -> option (state * list Z)) : Prop :=
  forall st x, unalloc ⊆ st.1 -> ready x -> exists st' new, v st x = Some (st', new) /\ follows st (targets x) [] st' new.

Lemma visit_rels_follows rec l st fed : (forall v, rec = Some v -> visits v) -> unalloc ⊆ st.1 ->
  exists st' fed', visit_rels rec st fed l = Some (st', fed') /\ follows st l fed st' fed'.
Proof.
  intros Hv. revert st fed. induction l as [|t l IH]; intros st fed U; simpl; [eauto using follows_nil|].
  assert (K : forall st1 fed1, follows st [t] fed st1 fed1 ->
    exists st' fed', visit_rels rec st1 fed1 l = Some (st', fed') /\ follows st (t :: l) fed st' fed').
  { intros st1 fed1 H. destruct (IH st1 fed1) as (st' & fed' & E & H'); [by eapply follows_unalloc|].
    exists st', fed'. split; [done|]. by apply (follows_app st [t] fed st1 fed1). }
  destruct t as [y|f|]; [|by apply K, follows_frag|by apply K, follows_skip].
  destruct (mark_section st y) eqn:Em; [|apply K, follows_skip; [done|done|congruence]].
  destruct rec as [v|]; [|by apply K, follows_feed].
  destruct (Hv v eq_refl (set_visited st y) y) as (st1 & new & E & H); [simpl; set_solver|by apply (mark_ready st)|].
  rewrite E. by apply K, follows_visit.
Qed.

(** What is assumed of the input: the sections are those of the files, and the symbol
    indices and exception records of the sections that may be marked are valid. *)
Record well_formed : Prop := {
  wf_sections : forall x, alive x = true -> x ∈ all_sections;
  wf_targets : forall x, ready x -> is_Some (fde_targets x) /\ is_Some (rel_targets x);
  wf_cies : is_Some (mapM cie_symbols (objs ctx)) }.
Context (WF : well_formed).

Lemma visit_visits d : visits (visit d).
Proof.
  induction d as [|d IH]; intros st x U Hx; destruct (wf_targets WF x Hx) as [[fl Ef] [rl Er]];
    (assert (targets x = fl ++ rl) as -> by (unfold targets; by rewrite Ef, Er));
    cbn [visit]; rewrite Ef, Er; cbn [mbind option_bind]; destruct (feed_fdes st [] fl) as [st1 fed1] eqn:E1;
    (pose proof (feed_fdes_follows _ _ _ _ _ U (fde_targets_no_frag _ _ Ef) E1) as H1);
    match goal with |- context [visit_rels ?rec _ _ _] =>
      destruct (visit_rels_follows rec rl st1 fed1) as (st' & fed' & E & H);
        [by intros v [= <-]|by eapply follows_unalloc|] end;
    exists st', fed'; (split; [done|by eapply follows_app]).
Qed.

Lemma mark_runs fuel st queue : unalloc ⊆ st.1 -> Forall ready queue -> (length queue + rank st <= fuel)%nat ->
  exists st', mark fuel st queue = Some st' /\ runs (st, pending queue) (st', []).
Proof.
  revert st queue. induction fuel as [|fuel IH]; intros st [|x queue] U F K; cbn [mark length] in *;
    [eexists; split; [done|by apply runs_perm]|lia|eexists; split; [done|by apply runs_perm]|].
  inversion_clear F as [|? ? Hx F']. destruct (visit_visits 3 st x U Hx) as (st1 & new & E & n & -> & R & Fn & U1 & K1).
  rewrite E. cbn [mbind option_bind]. destruct (IH st1 (queue ++ n)) as (st' & E' & R');
    [done|by apply Forall_app|rewrite length_app; lia|]. exists st'. split; [done|].
  change (pending (x :: queue)) with (targets x ++ pending queue). eapply runs_then; [done|]. by rewrite <- pending_app.
Qed.
Lemma enqueue_section_follows (st : state * list Z) x : unalloc ⊆ st.1.1 ->
  follows st.1 [ISEC x] st.2 (enqueue_section st x).1 (enqueue_section st x).2.
Proof.
  intros U. unfold enqueue_section. destruct (mark_section st.1 x) eqn:Em; [by apply follows_feed|].
  apply follows_skip; [done|done|congruence].
Qed.

Lemma enqueue_symbol_follows (st : state * list Z) s : unalloc ⊆ st.1.1 ->
  follows st.1 [opt_target s] st.2 (enqueue_symbol st s).1 (enqueue_symbol st s).2.
Proof.
  intros U. unfold enqueue_symbol, opt_target. destruct s as [s|]; [|by apply follows_skip].
  destruct (sym_target s); [by apply enqueue_section_follows|by apply follows_frag|by apply follows_skip].
Qed.

Lemma enqueue_symbols_follow l (st : state * list Z) : unalloc ⊆ st.1.1 ->
  follows st.1 (map opt_target l) st.2 (foldl enqueue_symbol st l).1 (foldl enqueue_symbol st l).2.
Proof.
  revert st. induction l as [|s l IH]; intros st U; [by apply follows_nil|].
  pose proof (enqueue_symbol_follows st s U) as H. apply (follows_app _ [opt_target s] _ _ _ _ _ _ H).
  by apply IH, (follows_unalloc _ _ _ _ _ H).
Qed.

(** The first loop as if the sections that are not allocated had been visited before. *)
Definition ahead (st : state) : state := (unalloc ∪ st.1, st.2).

Lemma ahead_visited st x : ahead (set_visited st x) = set_visited (ahead st) x.
Proof. unfold ahead, set_visited. cbn [fst snd]. f_equal. set_solver. Qed.

Lemma ahead_unalloc st x : x ∈ unalloc -> ahead (set_visited st x) = ahead st.
Proof. intros H. unfold ahead, set_visited. cbn [fst snd]. f_equal. set_solver. Qed.

Lemma mark_ahead st x : alloc x = true -> mark_section (ahead st) x = mark_section st x.
Proof.
  intros H. apply eq_bool_prop_intro. rewrite !Is_true_true, !mark_section_spec. cbn [ahead fst].
  rewrite elem_of_union, unalloc_elem. intuition congruence.
Qed.

Lemma visited_no_mark st x : x ∈ st.1 -> mark_section st x = false.
Proof. intros H. apply not_true_iff_false. by intros [_ ?]%mark_section_spec. Qed.

Lemma enqueue_section_mono st x : st.1.1 ⊆ (enqueue_section st x).1.1.
Proof. unfold enqueue_section. destruct (mark_section _ _); simpl; set_solver. Qed.

Lemma ahead_sub st : unalloc ⊆ (ahead st).1.
Proof. simpl. set_solver. Qed.

Lemma root_section_follows (st : state * list Z) x :
  follows (ahead st.1) (map ISEC (List.filter kept [x])) st.2 (ahead (root_section st x).1) (root_section st x).2 /\
  st.1.1 ⊆ (root_section st x).1.1 /\ (x ∈ unalloc -> x ∈ (root_section st x).1.1).
Proof.
  pose proof (ahead_sub st.1) as U. unfold root_section. cbn [List.filter]. unfold kept. rewrite unalloc_elem.
  destruct (isecs ctx !! x) as [isec|] eqn:Ei.
  2: { split; [by apply follows_nil|]. split; [done|]. unfold alive. by rewrite Ei; intros [? _]. }
  destruct (is_alive isec) eqn:Ea.
  2: { split; [by apply follows_nil|]. split; [done|]. unfold alive. by rewrite Ei, Ea; intros [? _]. }
  assert (Hx : alive x = true) by (unfold alive; by rewrite Ei). cbn [negb andb].
  destruct (alloc x) eqn:El.
  - split; [|split; [destruct (should_keep isec); [apply enqueue_section_mono|done]|by intros [_ ?]]].
    destruct (should_keep isec); [|by apply follows_nil]. unfold enqueue_section.
    destruct (mark_section st.1 x) eqn:Em; cbn [fst snd map].
    + rewrite ahead_visited. apply (follows_feed (ahead st.1)); [done|by rewrite mark_ahead].
    + apply follows_skip; [done|done|]. intros y [= <-]. by rewrite mark_ahead.
  - assert (Hu : x ∈ unalloc) by (by apply unalloc_elem).
    assert (enqueue_section (set_visited st.1 x, st.2) x = (set_visited st.1 x, st.2)) as E.
    { unfold enqueue_section. cbn [fst snd]. by rewrite visited_no_mark by (simpl; set_solver). }
    rewrite E. assert (forall b : bool, (if b then (set_visited st.1 x, st.2) else (set_visited st.1 x, st.2)) =
      (set_visited st.1 x, st.2)) as -> by (by intros []).
    cbn [fst snd]. rewrite ahead_unalloc by done. split; [|simpl; set_solver].
    destruct (should_keep isec); [|by apply follows_nil]. apply follows_skip; [done|done|].
    intros y [= <-]. apply visited_no_mark, U, Hu.
Qed.

Lemma root_sections_follow l (st : state * list Z) :
  let st' := foldl root_section st l in
  follows (ahead st.1) (map ISEC (List.filter kept l)) st.2 (ahead st'.1) st'.2 /\
  st.1.1 ⊆ st'.1.1 /\ forall x, x ∈ l -> x ∈ unalloc -> x ∈ st'.1.1.
Proof.
  revert st. induction l as [|x l IH]; intros st; cbn [foldl].
  - split; [apply follows_nil; simpl; set_solver|]. split; [done|]. by intros x ?%elem_of_nil.
  - destruct (root_section_follows st x) as (H & M & Hx). destruct (IH (root_section st x)) as (H' & M' & Hl).
    split; [|split; [set_solver|]].
    + change (x :: l) with ([x] ++ l). rewrite List.filter_app, map_app. by eapply follows_app.
    + intros z [->|Hz]%elem_of_cons Hu; [by apply M', Hx|by apply Hl].
Qed.

Lemma collect_root_set_follows : exists st queue, collect_root_set = Some (st, queue) /\
  follows (unalloc, live_frags ctx) roots [] st queue.
Proof.
  destruct (wf_cies WF) as [cie Ec]. unfold collect_root_set. rewrite Ec. cbn [mbind option_bind].
  set (st1 := foldl root_section _ _).
  destruct (root_sections_follow all_sections ((∅, live_frags ctx), [])) as (H1 & _ & Hu). fold st1 in H1, Hu.
  assert (U1 : unalloc ⊆ st1.1.1).
  { intros x Hx. apply Hu; [|done]. apply (wf_sections WF). by apply unalloc_elem in Hx as [? _]. }
  assert (ahead st1.1 = st1.1) as E1.
  { unfold ahead. destruct st1 as [[v f] q]. cbn [fst snd] in *. f_equal. by apply subseteq_union_1_L. }
  rewrite E1 in H1. unfold ahead in H1. cbn [fst snd] in H1. rewrite union_empty_r_L in H1.
  eexists _, _. split; [by rewrite <- surjective_pairing|].
  unfold roots, root_syms. rewrite Ec. cbn [default]. rewrite <- !foldl_app.
  eapply follows_app; [done|]. by apply enqueue_symbols_follow.
Qed.

Definition start : state * list origin := ((unalloc, live_frags ctx), roots).

Lemma inv_start : inv start.
Proof.
  split; unfold start; cbn [fst snd]; [done|by left| |done| | |by left].
  - intros f [H|H]; [by left|right; by left].
  - intros y Hy Ha Hl. by apply live_root.
  - intros x t Hu Hl. apply live_alloc in Hl as [? H]. apply unalloc_elem in Hu as [_ Hu]. congruence.
Qed.

Lemma gc_sections_run : exists st, gc_sections = Some (sweep st, st.2) /\ runs start (st, []).
Proof.
  destruct collect_root_set_follows as (st & q & E & n & -> & R & F & U & K). unfold gc_sections. rewrite E. cbn [mbind option_bind app].
  destruct (mark_runs (S (base.size (dom (isecs ctx)))) st n) as (st' & Em & R'); [done|done| |].
  { assert (rank (unalloc, live_frags ctx) <= base.size (dom (isecs ctx)))%nat; [|lia].
    unfold rank. apply subseteq_size. set_solver. }
  rewrite Em. exists st'. split; [done|]. by eapply runs_trans.
Qed.
(** ** Every schedule ends *)

Definition order : relation (state * list origin) := fun s' s => step s s'.

Lemma step_decreases s s' : step s s' -> (rank s'.1 < rank s.1)%nat \/ rank s'.1 = rank s.1 /\ (length s'.2 < length s.2)%nat.
Proof.
  intros [st l f l' Hl|st l t l' Hl Hf Hn|st l y l' Hl Hm]; cbn [fst snd];
    [right; split; [done|]; rewrite Hl; simpl; lia|right; split; [done|]; rewrite Hl; simpl; lia|left; by apply rank_visited].
Qed.

Lemma steps_end s : Acc order s.
Proof.
  remember (rank s.1) as n eqn:En. revert s En. induction (lt_wf n) as [n _ IHn]. intros s.
  remember (length s.2) as m eqn:Em. revert s Em. induction (lt_wf m) as [m _ IHm]. intros s -> ->.
  constructor. intros s' [H|[E H]]%step_decreases; [by apply (IHn _ H)|by eapply (IHm _ H)].
Qed.

Lemma step_progress st t l : exists s', step (st, t :: l) s'.
Proof.
  destruct t as [y|f|]; [destruct (mark_section st y) eqn:E| |].
  - eexists. by apply step_mark.
  - eexists. apply (step_skip _ _ (ISEC y)); [done|done|congruence].
  - eexists. by apply step_frag.
  - eexists. by apply (step_skip _ _ OTHER).
Qed.

(** Every schedule of the marking by any number of threads ends, and it ends with the
    sections visited that are not allocated or are reachable from the roots, and with the
    string fragments alive that the roots or reachable sections refer to. *)
Theorem any_schedule_marks_live :
  Acc order start /\
  forall st pend, rtc step start (st, pend) -> (forall s, ~ step (st, pend) s) ->
    (forall x, x ∈ st.1 <-> x ∈ unalloc \/ live x) /\ (forall f, f ∈ st.2 <-> frag_live f).
Proof.
  split; [apply steps_end|]. intros st pend H Hend.
  assert (I : inv (st, pend)) by (apply (inv_runs start); [apply inv_start|by exists pend]).
  destruct pend as [|t pend]; [by apply inv_final|]. destruct (step_progress st t pend) as [s Hs]. by destruct (Hend s).
Qed.

Lemma sweep_one_same st m x z : z <> x -> sweep_one st m z !! x = m !! x.
Proof. intros H. unfold sweep_one. destruct (m !! z); [|done]. case_match; [by rewrite lookup_insert_ne|done]. Qed.

Lemma sweep_one_here st m x : sweep_one st m x !! x = (if bool_decide (x ∈ st.1) then m !! x else kill <$> m !! x).
Proof.
  unfold sweep_one, kill. destruct (m !! x) as [s|] eqn:E; simpl; [|by rewrite E; case_match].
  destruct (is_alive s) eqn:Ea; simpl; [|rewrite E, ?Ea; by case_match].
  destruct (bool_decide _); simpl; [done|]. by rewrite lookup_insert_eq.
Qed.

Lemma kill_kill s : kill (kill s) = kill s.
Proof. unfold kill. by destruct (is_alive s) eqn:E; simpl; rewrite ?E. Qed.

Lemma sweep_lookup st x : x ∈ all_sections ->
  sweep st !! x = (if bool_decide (x ∈ st.1) then isecs ctx !! x else kill <$> isecs ctx !! x).
Proof.
  unfold sweep. generalize (isecs ctx) as m. induction all_sections as [|z l IH]; intros m Hx; [by apply elem_of_nil in Hx|].
  simpl. destruct (decide (x ∈ l)) as [Hl|Hl].
  - rewrite IH by done. destruct (decide (z = x)) as [->|Hz]; [|by rewrite sweep_one_same].
    rewrite sweep_one_here. destruct (bool_decide _); [done|]. destruct (m !! x); simpl; [by rewrite kill_kill|done].
  - apply elem_of_cons in Hx as [->|?]; [|done]. rewrite <- sweep_one_here. clear IH. generalize (sweep_one st m z) as m'.
    induction l as [|y l IH]; intros m'; [done|]. simpl. apply not_elem_of_cons in Hl as [? ?]. rewrite IH by done.
    by apply sweep_one_same.
Qed.

Lemma sweep_outside st x : isecs ctx !! x = None -> sweep st !! x = None.
Proof.
  unfold sweep. generalize (isecs ctx) as m. induction all_sections as [|z l IH]; intros m Hx; [done|]. simpl. apply IH.
  destruct (decide (z = x)) as [->|]; [|by rewrite sweep_one_same]. rewrite sweep_one_here, Hx. by case_match.
Qed.

(** C27: The pass returns for every well-formed input; it kills exactly the sections that
    are alive, allocated and not reachable from the root set through the relocations of
    reachable sections and of their exception records, each with its exception records,
    and it leaves every other section as it was and alive exactly the string fragments
    that were alive before or that are reachable. *)
Theorem gc_sections_exact : exists after frags, gc_sections = Some (after, frags) /\
  (forall x isec, isecs ctx !! x = Some isec -> x ∈ all_sections ->
    (alive x = true /\ alloc x = true /\ ~ live x -> after !! x = Some (kill isec)) /\
    (~ (alive x = true /\ alloc x = true /\ ~ live x) -> after !! x = Some isec)) /\
  (forall x, isecs ctx !! x = None -> after !! x = None) /\
  (forall f, f ∈ frags <-> frag_live f).
Proof.
  destruct gc_sections_run as (st & E & R). exists (sweep st), st.2. split; [done|].
  destruct (inv_final st) as [Hv Hf]; [by apply (inv_runs start); [apply inv_start|]|].
  split; [|split; [intros x; apply sweep_outside|done]].
  intros x isec Hx Hin. rewrite sweep_lookup, Hx by done. split.
  - intros (Ha & Hl & Hn). rewrite bool_decide_eq_false_2; [done|]. rewrite Hv, unalloc_elem. intros [[_ H]|H]; [congruence|done].
  - intros Hn. destruct (decide (x ∈ st.1)) as [H|H]; [by rewrite bool_decide_eq_true_2|].
    rewrite bool_decide_eq_false_2 by done. rewrite Hv, unalloc_elem in H. simpl. f_equal. unfold kill.
    destruct (is_alive isec) eqn:Ea; [|done]. exfalso. assert (Ha : alive x = true) by (unfold alive; by rewrite Hx).
    apply Hn. split; [done|]. destruct (alloc x) eqn:El; [|destruct H; by left]. split; [done|]. intros ?. destruct H. by right.
Qed.
End Pass.

(** ** A sample *)

(** A boolean test of [well_formed]. *)
Definition check_well_formed (ctx : Context) : bool :=
  bool_decide (set_Forall (fun x => x ∈ all_sections ctx /\ is_Some (fde_targets ctx x) /\ is_Some (rel_targets ctx x))
    (dom (isecs ctx))) && bool_decide (is_Some (mapM (cie_symbols ctx) (objs ctx))).

Lemma check_well_formed_ok ctx : check_well_formed ctx = true -> well_formed ctx.
Proof.
  intros [H1%bool_decide_eq_true H2%bool_decide_eq_true]%andb_true_iff. split; [| |done].
  - intros x Hx. by apply (H1 x), alive_dom.
  - intros x [Hx _]. by apply (H1 x), alive_dom.
Qed.

(** [main] (1) is exported and calls [f] (2), whose exception record refers to its table (3);
    4 is not used, 5 is not allocated, 6 is [.init]; the fragment 9 is referred to by [f]. *)
Definition sample_section (flags : string) (n : string) (r : list ElfRel) (f : list FdeRecord) : InputSection :=
  mkInputSection (sht "PROGBITS") (if String.eqb flags "" then 0 else shf flags) (bs n) true 0 r f.

Definition sample : Context := {|
  syms := list_to_map [(1, mkSymbol (Some 0) true (ISEC 1)); (2, mkSymbol (Some 0) false (ISEC 2));
    (3, mkSymbol (Some 0) false (ISEC 3)); (9, mkSymbol (Some 0) false (FRAG 9)); (4, mkSymbol (Some 0) false (ISEC 4))];
  isecs := list_to_map [
    (1, sample_section "ALLOC" ".text.main" [mkElfRel 4 2] []);
    (2, sample_section "ALLOC" ".text.f" [mkElfRel 0 4] [mkFdeRecord 8 1 0 true]);
    (3, sample_section "ALLOC" ".gcc_except_table.f" [] []); (4, sample_section "ALLOC" ".text.g" [mkElfRel 0 1] []);
    (5, sample_section "" ".debug_info" [mkElfRel 0 5] []); (6, sample_section "ALLOC" ".init" [] [])];
  objs := [(0, {| symbols := [None; Some 1; Some 2; Some 3; Some 9; Some 4];
    sections := [None; Some 1; Some 2; Some 3; Some 4; Some 5; Some 6];
    cies := [mkCieRecord 0 0 [mkElfRel 0 0; mkElfRel 8 2; mkElfRel 16 3] [4; 0; 0; 0; 0; 0; 0; 0; 12; 0; 0; 0]] |})];
  root_symbols := []; is_arm32 := false; u32_type := ul32; live_frags := ∅ |}.

(** Only 4 is gone. *)
Lemma sample_gc : (fun r => (map fst (List.filter (fun p => is_alive p.2) (map_to_list r.1)), elements r.2)) <$> gc_sections sample
  = Some ([5; 3; 6; 2; 1], [9]).
Proof. vm_compute. reflexivity. Qed.

Lemma gc_sections_exact_witness : exists after frags, gc_sections sample = Some (after, frags) /\
  (forall x isec, isecs sample !! x = Some isec -> x ∈ all_sections sample ->
    (alive sample x = true /\ alloc sample x = true /\ ~ live sample x -> after !! x = Some (kill isec)) /\
    (~ (alive sample x = true /\ alloc sample x = true /\ ~ live sample x) -> after !! x = Some isec)) /\
  (forall x, isecs sample !! x = None -> after !! x = None) /\
  (forall f, f ∈ frags <-> frag_live sample f).
Proof. apply gc_sections_exact, check_well_formed_ok. vm_compute. reflexivity. Defined.
