(* ===== verification/Resolve.v ===== *)
(** * Symbol resolution (src/elf/input-files.cc, src/elf/passes.cc)

    [do_resolve_symbols]: a preliminary resolution in which archive members come last,
    the marking of the files that are needed, the elimination of duplicate comdat
    groups, and the final resolution. Files run in parallel; every symbol is protected
    by a lock, so a schedule is an interleaving of the loops of the files. The theorems:
    the owner of every symbol is the file of the strongest definition, whatever the
    schedule; archive members and libraries are kept exactly when they are needed; of
    every comdat group exactly the sections of the first file are left. *)

From stdpp Require Import fin_sets.
From S2P Require Import Prelude Enums ElfConst.
Local Open Scope list_scope.
Local Open Scope Z_scope.

(** ** Data *)

Record ElfSym := mkElfSym { st_bind : Z; st_visibility : Z; st_shndx : Z; st_value : Z }.

Definition is_undef (e : ElfSym) : bool := st_shndx e =? constant SHN "SHN_UNDEF".
Definition is_abs (e : ElfSym) : bool := st_shndx e =? constant SHN "SHN_ABS".
Definition is_common (e : ElfSym) : bool := st_shndx e =? constant SHN "SHN_COMMON".
Definition is_weak (e : ElfSym) : bool := st_bind e =? constant STB "STB_WEAK".

(** An object file or a shared library. A section is [None] where the pointer is null,
    else its [is_alive]; a comdat group is an identifier and the sections of the group
    in this file. [versyms] is for libraries, what follows it for object files. *)
Record InputFile := mkInputFile {
  is_dso : bool; priority : Z; is_alive : bool;
  elf_syms : list ElfSym; symbols : list Z; first_global : nat; versyms : list Z;
  symtab_shndx : list Z; sections : list (option bool); comdat_groups : list (Z * list nat); exclude_libs : bool }.

(** What [Symbol::origin] points to: nothing, or an input section (a null pointer with
    its tag for absolute and common symbols). *)
Inductive origin := ABS | ISEC (isec : option (nat * nat)).

Record Symbol := mkSymbol {
  file : option nat; sym_origin : origin; value : Z; sym_idx : Z; ver_idx : Z; weak : bool;
  visibility : Z; imported : bool; exported : bool }.

(** A symbol as [get_symbol] makes it. *)
Definition fresh : Symbol := mkSymbol None ABS 0 (-1) 0 false (constant STV "STV_DEFAULT") false false.
#[export] Instance symbol_inhabited : Inhabited Symbol := populate fresh.

Abbreviation symtab := (gmap Z Symbol).
Definition update_sym (f : Symbol -> Symbol) (s : Z) (syms : symtab) : symtab := <[s := f (syms !!! s)]> syms.

(** ** Claiming symbols *)

Section Resolve.
Context (files : list InputFile) (default_version : Z).

Definition get_sym_rank (f : InputFile) (e : ElfSym) (is_in_archive : bool) : Z :=
  if is_common e then if is_in_archive then 6 else 5
  else if is_dso f || is_in_archive then if st_bind e =? constant STB "STB_WEAK" then 4 else 3
  else if st_bind e =? constant STB "STB_WEAK" then 2 else 1.

Definition get_rank (f : InputFile) (e : ElfSym) (is_in_archive : bool) : Z :=
  u32 (Z.shiftl (get_sym_rank f e is_in_archive) 24 + priority f).

(** [get_rank] of a symbol; its [esym] is in the file that owns it. *)
Definition symbol_rank (sym : Symbol) : Z :=
  match file sym ≫= (fun f => files !! f) with
  | None => Z.shiftl 7 24
  | Some f => match elf_syms f !! Z.to_nat (sym_idx sym) with
              | Some e => get_rank f e (negb (is_alive f))
              | None => 0
              end
  end.

Definition get_shndx (f : InputFile) (i : nat) (e : ElfSym) : Z :=
  if st_shndx e =? constant SHN "SHN_XINDEX" then nth i (symtab_shndx f) 0 else st_shndx e.

(** The section of a definition: [None] when the loop skips it, since the section does
    not exist or is not alive. An index beyond [sections], which the source reads out of
    range, counts as a section that does not exist here; so does 0 for an entry that is
    missing in [symtab_shndx] or [versyms]. *)
Definition def_section (fid : nat) (f : InputFile) (i : nat) (e : ElfSym) : option (option (nat * nat)) :=
  if is_abs e || is_common e then Some None
  else match sections f !! Z.to_nat (get_shndx f i e) with
       | Some (Some true) => Some (Some (fid, Z.to_nat (get_shndx f i e)))
       | _ => None
       end.

(** What an iteration of [resolve_symbols] writes when it wins; [None]: [continue]. *)
Definition definition (fid : nat) (f : InputFile) (i : nat) (e : ElfSym) : option (origin * Z * bool) :=
  if is_undef e then None
  else if is_dso f then Some (ABS, nth i (versyms f) 0, false)
  else isec ← def_section fid f i e; Some (ISEC isec, default_version, is_weak e).

Definition claim (fid : nat) (f : InputFile) (i : nat) (e : ElfSym) (sym : Symbol) : Symbol :=
  match definition fid f i e with
  | None => sym
  | Some (org, ver, wk) =>
      if get_rank f e (if is_dso f then false else negb (is_alive f)) <? symbol_rank sym
      then mkSymbol (Some fid) org (st_value e) (Z.of_nat i) ver wk (visibility sym) (imported sym) (exported sym)
      else sym
  end.

(** One iteration of the loop of a file, under the lock of the symbol. *)
Definition resolve_one (syms : symtab) (p : nat * nat) : symtab :=
  match files !! p.1 with
  | Some f => match elf_syms f !! p.2, symbols f !! p.2 with
              | Some e, Some s => update_sym (claim p.1 f p.2 e) s syms
              | _, _ => syms
              end
  | None => syms
  end.

(** The indices of its global symbols ([first_global] is 0 in a library). *)
Definition globals (fid : nat) : list (nat * nat) :=
  match files !! fid with
  | Some f => map (pair fid) (seq (first_global f) (length (elf_syms f) - first_global f))
  | None => []
  end.

Definition resolve_symbols (syms : symtab) (fid : nat) : symtab := foldl resolve_one syms (globals fid).

Definition clear_symbol (fid : nat) (sym : Symbol) : Symbol :=
  if bool_decide (file sym = Some fid)
  then mkSymbol None ABS UINT64_MAX (-1) 0 false (visibility sym) false false else sym.

Definition clear_symbols (syms : symtab) (fid : nat) : symtab :=
  match files !! fid with
  | Some f => foldl (fun syms s => update_sym (clear_symbol fid) s syms) syms (drop (first_global f) (symbols f))
  | None => syms
  end.

(** ** Marking *)

(** [merge_visibility]; [None] is the error for an unknown visibility. *)
Definition vis_priority (v : Z) : option Z :=
  if v =? constant STV "STV_HIDDEN" then Some 1
  else if v =? constant STV "STV_PROTECTED" then Some 2
  else if v =? constant STV "STV_DEFAULT" then Some 3 else None.

Definition canonical_visibility (v : Z) : Z :=
  if v =? constant STV "STV_INTERNAL" then constant STV "STV_HIDDEN" else v.

Definition merge_visibility (v : Z) (sym : Symbol) : option Symbol :=
  let v := canonical_visibility v in
  a ← vis_priority v; b ← vis_priority (visibility sym);
  Some (if a <? b
        then mkSymbol (file sym) (sym_origin sym) (value sym) (sym_idx sym) (ver_idx sym) (weak sym) v (imported sym) (exported sym)
        else sym).

(** The [is_alive] of the files and the symbols. *)
Abbreviation marking := (gset nat * symtab)%type.

Definition entry_visibility (f : InputFile) (e : ElfSym) : Z :=
  if negb (is_undef e) && exclude_libs f then constant STV "STV_HIDDEN" else st_visibility e.

Definition sym_is_common (sym : Symbol) : bool :=
  match file sym ≫= (fun f => files !! f) with
  | Some f => match elf_syms f !! Z.to_nat (sym_idx sym) with Some e => is_common e | None => false end
  | None => false
  end.

(** The file that an entry keeps, [None] when it keeps none. *)
Definition keeps (f : InputFile) (e : ElfSym) (sym : Symbol) : option nat :=
  if is_dso f then (if is_undef e then file sym else None)
  else if is_weak e then None
  else if is_undef e || (is_common e && negb (sym_is_common sym)) then file sym else None.

(** [!is_alive.test_and_set()], then [feeder]. *)
Definition feed (alive : gset nat) (fed : list nat) (g : option nat) : gset nat * list nat :=
  match g with
  | Some g => if bool_decide (g ∈ alive) then (alive, fed) else ({[g]} ∪ alive, fed ++ [g])
  | None => (alive, fed)
  end.

(** One iteration of [mark_live_objects]. *)
Definition mark_entry (st : marking * list nat) (p : nat * nat) : option (marking * list nat) :=
  let '((alive, syms), fed) := st in
  match files !! p.1 with
  | Some f => match elf_syms f !! p.2, symbols f !! p.2 with
              | Some e, Some s =>
                  sym ← (if is_dso f then Some (syms !!! s) else merge_visibility (entry_visibility f e) (syms !!! s));
                  let syms := <[s := sym]> syms in
                  let '(alive, fed) := feed alive fed (keeps f e sym) in
                  Some ((alive, syms), fed)
              | _, _ => Some st
              end
  | None => Some st
  end.

Fixpoint mark_entries (st : marking * list nat) (l : list (nat * nat)) : option (marking * list nat) :=
  match l with
  | [] => Some st
  | p :: l => st ← mark_entry st p; mark_entries st l
  end.

(** The worklist of [tbb::parallel_for_each]. *)
Fixpoint mark_files (fuel : nat) (st : marking) (queue : list nat) : option marking :=
  match queue, fuel with
  | [], _ => Some st
  | x :: queue, S fuel => '(st, fed) ← mark_entries (st, []) (globals x); mark_files fuel st (queue ++ fed)
  | _ :: _, O => None
  end.

Definition alive_files : gset nat :=
  list_to_set (List.filter (fun i => match files !! i with Some f => is_alive f | None => false end) (seq 0 (length files))).

(** [root_symbols] are those of [undefined] and [require_defined]. *)
Definition mark_live_objects (ids : list nat) (root_symbols : list Z) (syms : symtab) : option marking :=
  let alive := list_to_set (omap (fun s => file (syms !!! s)) root_symbols) ∪ alive_files in
  mark_files (length files) (alive, syms) (List.filter (fun i => bool_decide (i ∈ alive)) ids).
End Resolve.

(** ** Comdat groups *)

Definition with_alive (b : bool) (f : InputFile) : InputFile :=
  mkInputFile (is_dso f) (priority f) b (elf_syms f) (symbols f) (first_global f) (versyms f) (symtab_shndx f) (sections f)
    (comdat_groups f) (exclude_libs f).
Definition set_alive (alive : gset nat) (files : list InputFile) : list InputFile :=
  imap (fun i f => with_alive (bool_decide (i ∈ alive)) f) files.

(** [update_minimum] of the owners, [(u32)-1] where there is none yet. *)
Definition claim_group (prio : Z) (owners : gmap Z Z) (ref : Z * list nat) : gmap Z Z :=
  <[ref.1 := Z.min prio (default UINT32_MAX (owners !! ref.1))]> owners.
Definition claim_groups (files : list InputFile) (owners : gmap Z Z) (fid : nat) : gmap Z Z :=
  match files !! fid with
  | Some f => foldl (claim_group (priority f)) owners (comdat_groups f)
  | None => owners
  end.

Definition kill (o : option bool) : option bool := (fun _ => false) <$> o.
Definition kill_group (owners : gmap Z Z) (prio : Z) (secs : list (option bool)) (ref : Z * list nat) : list (option bool) :=
  if default UINT32_MAX (owners !! ref.1) =? prio then secs
  else foldl (fun secs i => alter kill i secs) secs ref.2.

Definition kill_groups (owners : gmap Z Z) (f : InputFile) : InputFile :=
  mkInputFile (is_dso f) (priority f) (is_alive f) (elf_syms f) (symbols f) (first_global f) (versyms f) (symtab_shndx f)
    (foldl (kill_group owners (priority f)) (sections f) (comdat_groups f)) (comdat_groups f) (exclude_libs f).

Definition eliminate_comdats (files : list InputFile) (objs : list nat) : list InputFile :=
  let owners := foldl (claim_groups files) ∅ objs in
  foldl (fun files fid => alter (kill_groups owners) fid files) files objs.

(** ** The pass *)

Record Context := mkContext {
  files : list InputFile; objs : list nat; dsos : list nat; syms : symtab }.

Definition for_each_file (f : symtab -> nat -> symtab) (ctx : Context) : symtab :=
  foldl f (foldl f (syms ctx) (objs ctx)) (dsos ctx).

Definition erase_dead (alive : gset nat) (l : list nat) : list nat := List.filter (fun i => bool_decide (i ∈ alive)) l.

Definition do_resolve_symbols (default_version : Z) (root_symbols : list Z) (ctx : Context) : option Context :=
  let syms := for_each_file (resolve_symbols (files ctx) default_version) ctx in
  '(alive, syms) ← mark_live_objects (files ctx) (objs ctx ++ dsos ctx) root_symbols syms;
  let syms := for_each_file (clear_symbols (files ctx)) (mkContext (files ctx) (objs ctx) (dsos ctx) syms) in
  let files := set_alive alive (files ctx) in
  let objs := erase_dead alive (objs ctx) in
  let dsos := erase_dead alive (dsos ctx) in
  let files := eliminate_comdats files objs in
  let ctx := mkContext files objs dsos syms in
  Some (mkContext files objs dsos (for_each_file (resolve_symbols files default_version) ctx)).

(** ** Specification of the resolution *)

Section Spec.
Context (files : list InputFile) (default_version : Z).

(** The entry at an index of a file: file, ELF symbol and symbol. *)
Definition entry_at (p : nat * nat) : option (InputFile * ElfSym * Z) :=
  f ← files !! p.1; e ← elf_syms f !! p.2; s ← symbols f !! p.2; Some (f, e, s).

(** The rank of the definition of [s] that an entry is, if it is one. *)
Definition def_rank (s : Z) (p : nat * nat) : option Z :=
  '(f, e, s') ← entry_at p;
  if bool_decide (s' = s) && bool_decide (is_Some (definition default_version p.1 f p.2 e))
  then Some (get_rank f e (negb (is_alive f))) else None.

(** A symbol that is owned by an entry. *)
Definition owned (p : nat * nat) (sym : Symbol) : Symbol :=
  match entry_at p with
  | Some (f, e, _) =>
      match definition default_version p.1 f p.2 e with
      | Some (org, ver, wk) =>
          mkSymbol (Some p.1) org (st_value e) (Z.of_nat p.2) ver wk (visibility sym) (imported sym) (exported sym)
      | None => sym
      end
  | None => sym
  end.

(** The strongest definition of [s] in the files [ids]: of least rank, and the first of its file. *)
Definition strongest (ids : list nat) (s : Z) (p : nat * nat) : Prop :=
  exists r, def_rank s p = Some r /\ p ∈ concat (map (globals files) ids) /\
    forall q r', def_rank s q = Some r' -> q ∈ concat (map (globals files) ids) ->
      r < r' \/ (r = r' /\ p.1 = q.1 /\ (p.2 <= q.2)%nat).

(** Symbols after a resolution of unclaimed symbols [syms]. *)
Definition resolved (ids : list nat) (syms syms' : symtab) : Prop :=
  forall s, (exists p, strongest ids s p /\ syms' !!! s = owned p (syms !!! s)) \/
            ((forall p, p ∈ concat (map (globals files) ids) -> def_rank s p = None) /\ syms' !!! s = syms !!! s).

(** A schedule of the loops of [ids]: an interleaving of their iterations. *)
Definition interleaving (ids : list nat) (l : list (nat * nat)) : Prop :=
  forall fid, filter (fun p => p.1 = fid) l = if decide (fid ∈ ids) then globals files fid else [].

Record well_formed : Prop := {
  wf_priority : forall i f, files !! i = Some f -> 0 <= priority f < 2 ^ 24;
  wf_distinct : forall i j f g, files !! i = Some f -> files !! j = Some g -> priority f = priority g -> i = j;
  wf_dso : forall i f e, files !! i = Some f -> is_dso f = true -> e ∈ elf_syms f -> is_undef e = false -> is_common e = false }.

(** ** The first entry of least rank *)

Definition pick (s : Z) (o : option (nat * nat)) (p : nat * nat) : option (nat * nat) :=
  match def_rank s p, o with
  | None, _ => o
  | Some _, None => Some p
  | Some r, Some q => match def_rank s q with Some r' => if r <? r' then Some p else o | None => o end
  end.

Definition first_least (s : Z) (l : list (nat * nat)) : option (nat * nat) := foldl (pick s) None l.

Lemma first_least_spec s l : match first_least s l with
  | None => forall p, p ∈ l -> def_rank s p = None
  | Some p => exists r l1 l2, def_rank s p = Some r /\ l = l1 ++ p :: l2 /\
      (forall q r', q ∈ l1 -> def_rank s q = Some r' -> r < r') /\
      (forall q r', q ∈ l2 -> def_rank s q = Some r' -> r <= r')
  end.
Proof.
  induction l as [|x l IH] using rev_ind; [by intros p ?%elem_of_nil|].
  unfold first_least in *. rewrite foldl_app. simpl. unfold pick at 1.
  destruct (foldl (pick s) None l) as [p|]; destruct (def_rank s x) as [rx|] eqn:Ex.
  - destruct IH as (r & l1 & l2 & Hr & -> & H1 & H2). rewrite Hr. destruct (Z.ltb_spec rx r) as [H|H].
    + exists rx, (l1 ++ p :: l2), []. split; [done|]. split; [done|]. split; [|by intros q r' ?%elem_of_nil].
      intros q r' [Hq|[->|Hq]%elem_of_cons]%elem_of_app Hr'.
      * pose proof (H1 q r' Hq Hr'). lia.
      * simplify_eq. lia.
      * pose proof (H2 q r' Hq Hr'). lia.
    + exists r, l1, (l2 ++ [x]). split; [done|]. split; [by rewrite <- app_assoc|]. split; [done|].
      intros q r' [Hq| ->%list_elem_of_singleton]%elem_of_app Hr'; [by apply (H2 q)|]. simplify_eq. lia.
  - destruct IH as (r & l1 & l2 & Hr & -> & H1 & H2). exists r, l1, (l2 ++ [x]). split; [done|].
    split; [by rewrite <- app_assoc|]. split; [done|].
    intros q r' [Hq| ->%list_elem_of_singleton]%elem_of_app Hr'; [by apply (H2 q)|congruence].
  - exists rx, l, []. split; [done|]. split; [done|]. split; [|by intros q r' ?%elem_of_nil].
    intros q r' Hq Hr'. rewrite IH in Hr' by done. done.
  - intros p [Hp| ->%list_elem_of_singleton]%elem_of_app; [by apply IH|done].
Qed.
(** ** Every schedule resolves *)

Context (WF : well_formed).

Lemma rank_range f e b i : files !! i = Some f -> exists k, 1 <= k <= 6 /\ get_rank f e b = k * 2 ^ 24 + priority f.
Proof.
  intros Hi. pose proof (wf_priority WF i f Hi) as Hp. exists (get_sym_rank f e b).
  assert (Hk : 1 <= get_sym_rank f e b <= 6) by (unfold get_sym_rank; repeat case_match; lia).
  split; [done|]. unfold get_rank, u32, wrap. rewrite Z.shiftl_mul_pow2 by done. apply Z.mod_small.
  change (2 ^ 24) with 16777216 in *. change (2 ^ 32) with 4294967296. lia.
Qed.

Lemma rank_file f g e e' b b' i j : files !! i = Some f -> files !! j = Some g ->
  get_rank f e b = get_rank g e' b' -> i = j.
Proof.
  intros Hi Hj E. destruct (rank_range f e b i Hi) as (k & Hk & Ek). destruct (rank_range g e' b' j Hj) as (k' & Hk' & Ek').
  pose proof (wf_priority WF i f Hi). pose proof (wf_priority WF j g Hj). apply (wf_distinct WF i j f g Hi Hj).
  change (2 ^ 24) with 16777216 in *. lia.
Qed.

Lemma entry_file p f e s : entry_at p = Some (f, e, s) ->
  files !! p.1 = Some f /\ elf_syms f !! p.2 = Some e /\ symbols f !! p.2 = Some s.
Proof.
  unfold entry_at. intros (f' & Hf & (e' & He & (s' & Hs & [= -> -> ->])%bind_Some)%bind_Some)%bind_Some. done.
Qed.

Lemma def_rank_some s p r : def_rank s p = Some r -> exists f e d, entry_at p = Some (f, e, s) /\
  definition default_version p.1 f p.2 e = Some d /\ r = get_rank f e (negb (is_alive f)).
Proof.
  unfold def_rank. intros ([[f e] s'] & He & H)%bind_Some. destruct (bool_decide (s' = s)) eqn:Es; [|done].
  apply bool_decide_eq_true in Es as ->. destruct (bool_decide _) eqn:Ed; [|done]. apply bool_decide_eq_true in Ed as [d Hd].
  simpl in H. simplify_eq. eauto 10.
Qed.

(** The rank of a library's definition does not depend on whether the library is alive. *)
Lemma claim_rank i f e d fid j : files !! i = Some f -> e ∈ elf_syms f -> definition default_version fid f j e = Some d ->
  get_rank f e (if is_dso f then false else negb (is_alive f)) = get_rank f e (negb (is_alive f)).
Proof.
  intros Hi He Hd. destruct (is_dso f) eqn:Ed; [|done]. unfold definition in Hd. rewrite Ed in Hd.
  destruct (is_undef e) eqn:Eu; [done|]. unfold get_rank, get_sym_rank.
  by rewrite (wf_dso WF i f e Hi Ed He Eu), Ed.
Qed.

Lemma rank_owned s p r sym : def_rank s p = Some r -> symbol_rank files (owned p sym) = r.
Proof.
  intros (f & e & [[org ver] wk] & He & Hd & ->)%def_rank_some. unfold owned. rewrite He, Hd. unfold symbol_rank. cbn [file mbind option_bind].
  apply entry_file in He as (Hf & He & _). rewrite Hf. cbn [sym_idx]. by rewrite Nat2Z.id, He.
Qed.

Definition unclaimed (sym : Symbol) : Prop := file sym = None.

Definition state_of (o : option (nat * nat)) (sym : Symbol) : Symbol := match o with Some p => owned p sym | None => sym end.

Lemma claim_step s o p f e sym : entry_at p = Some (f, e, s) -> unclaimed sym ->
  (forall q, o = Some q -> is_Some (def_rank s q)) ->
  claim files default_version p.1 f p.2 e (state_of o sym) = state_of (pick s o p) sym.
Proof.
  intros He Hu Ho. pose proof He as He'. apply entry_file in He' as (Hf & Hfe & _). unfold claim, pick.
  assert (Hr : def_rank s p = match definition default_version p.1 f p.2 e with
                              | Some _ => Some (get_rank f e (negb (is_alive f))) | None => None end).
  { unfold def_rank. rewrite He. cbn [mbind option_bind]. rewrite bool_decide_eq_true_2 by done. simpl.
    destruct (definition _ _ _ _ _) as [d|]; [by rewrite bool_decide_eq_true_2|by rewrite bool_decide_eq_false_2 by (by intros [? ?])]. }
  rewrite Hr. destruct (definition default_version p.1 f p.2 e) as [[[org ver] wk]|] eqn:Ed; [|done].
  rewrite (claim_rank p.1 f e _ _ _ Hf ltac:(by apply list_elem_of_lookup; eexists) Ed).
  assert (Hown : forall sym', visibility sym' = visibility sym -> imported sym' = imported sym -> exported sym' = exported sym ->
    mkSymbol (Some p.1) org (st_value e) (Z.of_nat p.2) ver wk (visibility sym') (imported sym') (exported sym') = owned p sym).
  { intros sym' -> -> ->. unfold owned. by rewrite He, Ed. }
  destruct o as [q|]; simpl.
  - destruct (Ho q eq_refl) as [r' Hq]. rewrite Hq, (rank_owned s q r' sym Hq).
    destruct (Z.ltb_spec (get_rank f e (negb (is_alive f))) r'); [|done]. simpl.
    apply Hown; unfold owned; repeat case_match; done.
  - unfold symbol_rank. rewrite Hu. cbn [mbind option_bind]. destruct (rank_range f e (negb (is_alive f)) p.1 Hf) as (k & Hk & ->).
    pose proof (wf_priority WF p.1 f Hf). change (2 ^ 24) with 16777216 in *. change (Z.shiftl 7 24) with (7 * 16777216).
    rewrite (proj2 (Z.ltb_lt _ _)) by lia. by apply Hown.
Qed.

Lemma update_sym_same f s syms : update_sym f s syms !!! s = f (syms !!! s).
Proof. unfold update_sym. by rewrite lookup_total_insert_eq. Qed.
Lemma update_sym_other f s s' syms : s <> s' -> update_sym f s syms !!! s' = syms !!! s'.
Proof. intros. unfold update_sym. by rewrite lookup_total_insert_ne. Qed.

Lemma resolve_one_entry syms p : resolve_one files default_version syms p =
  match entry_at p with Some (f, e, s) => update_sym (claim files default_version p.1 f p.2 e) s syms | None => syms end.
Proof. unfold resolve_one, entry_at. destruct (files !! p.1) as [f|]; simpl; [|done]. by destruct (elf_syms f !! p.2), (symbols f !! p.2). Qed.

Lemma first_least_ranked s l q : first_least s l = Some q -> is_Some (def_rank s q).
Proof. intros H. pose proof (first_least_spec s l) as S. rewrite H in S. destruct S as (r & ? & ? & ? & _). by exists r. Qed.

Lemma resolve_list syms s l : unclaimed (syms !!! s) ->
  foldl (resolve_one files default_version) syms l !!! s = state_of (first_least s l) (syms !!! s).
Proof.
  intros Hu. induction l as [|p l IH] using rev_ind; [done|].
  unfold first_least in *. rewrite !foldl_app. simpl. rewrite resolve_one_entry.
  destruct (entry_at p) as [[[f e] s']|] eqn:He.
  2: { rewrite IH. unfold pick, def_rank. by rewrite He. }
  destruct (decide (s' = s)) as [->|Hs].
  - rewrite update_sym_same, IH. apply claim_step; [done|done|]. intros q Hq. by apply first_least_ranked in Hq.
  - rewrite update_sym_other, IH by done. unfold pick, def_rank. rewrite He. simpl. by rewrite bool_decide_eq_false_2.
Qed.

Lemma globals_elem fid p : p ∈ globals files fid -> p.1 = fid.
Proof.
  unfold globals. destruct (files !! fid) as [f|]; [|by intros ?%elem_of_nil].
  intros (i & -> & _)%list_elem_of_fmap. done.
Qed.

Lemma globals_all p ids : p ∈ concat (map (globals files) ids) <-> p.1 ∈ ids /\ p ∈ globals files p.1.
Proof.
  rewrite list_elem_of_In, in_concat. split.
  - intros (l & Hl & Hp). apply in_map_iff in Hl as (fid & <- & Hfid). apply list_elem_of_In in Hp, Hfid.
    by rewrite (globals_elem fid p Hp).
  - intros [H1 H2]. exists (globals files p.1). split; [apply in_map_iff; exists p.1; split; [done|]|]; by apply list_elem_of_In.
Qed.

Lemma interleaving_elem ids l p : interleaving ids l -> p ∈ l <-> p ∈ concat (map (globals files) ids).
Proof.
  intros H. rewrite globals_all. assert (p ∈ l <-> p ∈ filter (fun q => q.1 = p.1) l) as ->
    by (rewrite list_elem_of_filter; tauto).
  rewrite (H p.1). destruct (decide (p.1 ∈ ids)); [tauto|]. rewrite elem_of_nil. tauto.
Qed.

Lemma globals_sorted fid : StronglySorted (fun p q => (p.2 < q.2)%nat) (globals files fid).
Proof.
  unfold globals. destruct (files !! fid) as [f|]; [|constructor].
  generalize (length (elf_syms f) - first_global f)%nat as n. generalize (first_global f) as a.
  intros a n. revert a. induction n as [|n IH]; intros a; simpl; constructor; [apply IH|].
  apply Forall_fmap, Forall_forall. intros i Hi. simpl. apply elem_of_seq in Hi. lia.
Qed.

Lemma first_least_strongest ids l s p : interleaving ids l -> first_least s l = Some p -> strongest ids s p.
Proof.
  intros Hl E. pose proof (first_least_spec s l) as S. rewrite E in S. destruct S as (r & l1 & l2 & Hr & -> & H1 & H2).
  exists r. split; [done|]. split; [apply (interleaving_elem ids _ p Hl); set_solver|].
  intros q r' Hq Hin. apply (interleaving_elem ids _ q Hl) in Hin.
  apply elem_of_app in Hin as [Hin|[->|Hin]%elem_of_cons]; [left; by apply (H1 q)|right; simplify_eq; lia|].
  pose proof (H2 q r' Hin Hq) as Hle. destruct (decide (r = r')) as [<-|]; [right|left; lia].
  assert (Ef : p.1 = q.1).
  { apply def_rank_some in Hr as (f & e & d & He & _ & Er). apply def_rank_some in Hq as (g & e' & d' & He' & _ & Er').
    apply entry_file in He as (Hf & _). apply entry_file in He' as (Hg & _).
    by apply (rank_file f g e e' (negb (is_alive f)) (negb (is_alive g))); [| |congruence]. }
  split; [done|]. split; [done|]. specialize (Hl p.1). rewrite filter_app, filter_cons_True in Hl by done.
  assert (Hs : StronglySorted (fun p q : nat * nat => (p.2 < q.2)%nat) (filter (fun x => x.1 = p.1) l1 ++ p :: filter (fun x => x.1 = p.1) l2)).
  { rewrite Hl. case_decide; [apply globals_sorted|constructor]. }
  apply StronglySorted_app in Hs as (_ & _ & Hs). apply StronglySorted_inv in Hs as [_ Hs]. rewrite Forall_forall in Hs.
  specialize (Hs q). rewrite list_elem_of_filter in Hs. specialize (Hs (conj (eq_sym Ef) Hin)). lia.
Qed.

Lemma schedule_resolves ids l syms : interleaving ids l -> (forall s, unclaimed (syms !!! s)) ->
  resolved ids syms (foldl (resolve_one files default_version) syms l).
Proof.
  intros Hl Hu s. rewrite resolve_list by done. destruct (first_least s l) as [p|] eqn:E.
  - left. exists p. split; [by apply (first_least_strongest ids l)|done].
  - right. split; [|done]. pose proof (first_least_spec s l) as S. rewrite E in S. intros p Hp. apply S.
    by apply (interleaving_elem ids).
Qed.

Lemma interleaving_app ids1 ids2 l1 l2 : (forall x, x ∈ ids1 -> x ∉ ids2) ->
  interleaving ids1 l1 -> interleaving ids2 l2 -> interleaving (ids1 ++ ids2) (l1 ++ l2).
Proof.
  intros Hd H1 H2 fid. rewrite filter_app, H1, H2. destruct (decide (fid ∈ ids1)) as [Hi|Hi].
  - rewrite decide_False by (by apply Hd). rewrite decide_True by (apply elem_of_app; by left). apply app_nil_r.
  - destruct (decide (fid ∈ ids2)) as [Hi'|Hi']; [by rewrite decide_True by (apply elem_of_app; by right)|].
    rewrite decide_False; [done|]. rewrite elem_of_app. tauto.
Qed.

Lemma filter_file (fid : nat) (l : list (nat * nat)) : (forall p, p ∈ l -> p.1 = fid) -> filter (fun p => p.1 = fid) l = l.
Proof.
  induction l as [|p l IH]; [done|]. intros H. rewrite filter_cons_True by (apply H; constructor).
  f_equal. apply IH. intros q Hq. apply H. by constructor.
Qed.

(** One file after the other is a schedule. *)
Lemma interleaving_sequential ids : NoDup ids -> interleaving ids (concat (map (globals files) ids)).
Proof.
  induction 1 as [|x ids Hx _ IH]; intros fid; [by rewrite decide_False by (apply not_elem_of_nil)|].
  simpl. rewrite filter_app, (IH fid). destruct (decide (x = fid)) as [->|Hn].
  - destruct (decide (fid ∈ ids)) as [|_]; [done|]. rewrite app_nil_r.
    destruct (decide (fid ∈ fid :: ids)) as [_|H]; [|destruct H; constructor].
    apply filter_file, globals_elem.
  - assert (filter (fun p : nat * nat => p.1 = fid) (globals files x) = []) as ->.
    { apply elem_of_nil_inv. intros p [Hp Hin]%list_elem_of_filter. apply globals_elem in Hin. congruence. }
    simpl. case_decide; case_decide; [done| | |done]; rewrite elem_of_cons in *; naive_solver.
Qed.

Lemma foldl_resolve ids syms : foldl (resolve_symbols files default_version) syms ids =
  foldl (resolve_one files default_version) syms (concat (map (globals files) ids)).
Proof. revert syms. induction ids as [|x ids IH]; intros syms; [done|]. simpl. by rewrite IH, foldl_app. Qed.

(** ** Marking *)

Definition vis_order (v : Z) : Z := default 0 (vis_priority v).

(** The visibility that an entry of an object file asks for [s]. *)
Definition vis_of (s : Z) (p : nat * nat) : option Z :=
  '(f, e, s') ← entry_at p;
  if is_dso f then None else if bool_decide (s' = s) then Some (canonical_visibility (entry_visibility f e)) else None.

(** [v] is the most restrictive of [v0] and the visibilities that the entries ask for. *)
Definition most_restrictive (s : Z) (l : list (nat * nat)) (v0 v : Z) : Prop :=
  (v = v0 \/ exists p, p ∈ l /\ vis_of s p = Some v) /\ vis_order v <= vis_order v0 /\
  forall p w, p ∈ l -> vis_of s p = Some w -> vis_order v <= vis_order w.

(** Only visibilities change. *)
Definition marked (l : list (nat * nat)) (syms syms' : symtab) : Prop :=
  forall s, file (syms' !!! s) = file (syms !!! s) /\ sym_idx (syms' !!! s) = sym_idx (syms !!! s) /\
    most_restrictive s l (visibility (syms !!! s)) (visibility (syms' !!! s)) /\
    (is_Some (vis_priority (visibility (syms !!! s))) -> is_Some (vis_priority (visibility (syms' !!! s)))).

Definition valid_visibilities (syms : symtab) : Prop := forall s, is_Some (vis_priority (visibility (syms !!! s))).
Definition valid_entries : Prop := forall i f e, files !! i = Some f -> e ∈ elf_syms f -> 0 <= st_visibility e < 4.

(** The file that an entry keeps. *)
Definition kept_by (syms : symtab) (p : nat * nat) : option nat :=
  match entry_at p with Some (f, e, s) => keeps files f e (syms !!! s) | None => None end.

Lemma most_restrictive_nil s v : most_restrictive s [] v v.
Proof. split; [by left|]. split; [done|]. by intros p w ?%elem_of_nil. Qed.

Lemma most_restrictive_app s l1 l2 v0 v1 v2 :
  most_restrictive s l1 v0 v1 -> most_restrictive s l2 v1 v2 -> most_restrictive s (l1 ++ l2) v0 v2.
Proof.
  intros (A1 & B1 & C1) (A2 & B2 & C2). split; [|split; [lia|]].
  - destruct A2 as [->|(p & Hp & E)]; [|right; exists p; split; [set_solver|done]].
    destruct A1 as [->|(p & Hp & E)]; [by left|right; exists p; split; [set_solver|done]].
  - intros p w [Hp|Hp]%elem_of_app E; [specialize (C1 p w Hp E); lia|by apply (C2 p)].
Qed.

Lemma marked_nil syms : marked [] syms syms.
Proof. intros s. split; [done|]. split; [done|]. split; [apply most_restrictive_nil|done]. Qed.

Lemma marked_app l1 l2 syms syms1 syms2 : marked l1 syms syms1 -> marked l2 syms1 syms2 -> marked (l1 ++ l2) syms syms2.
Proof.
  intros H1 H2 s. destruct (H1 s) as (A1 & B1 & C1 & D1). destruct (H2 s) as (A2 & B2 & C2 & D2).
  split; [congruence|]. split; [congruence|]. split; [by eapply most_restrictive_app|tauto].
Qed.

Lemma marked_valid l syms syms' : marked l syms syms' -> valid_visibilities syms -> valid_visibilities syms'.
Proof. intros H V s. apply (H s), V. Qed.

Lemma keeps_same f e sym sym' : file sym' = file sym -> sym_idx sym' = sym_idx sym -> keeps files f e sym' = keeps files f e sym.
Proof. intros E E'. unfold keeps, sym_is_common. by rewrite E, E'. Qed.

Lemma kept_by_marked l syms syms' p : marked l syms syms' -> kept_by syms' p = kept_by syms p.
Proof. intros H. unfold kept_by. destruct (entry_at p) as [[[f e] s]|]; [|done]. by apply keeps_same; apply (H s). Qed.

Lemma canonical_valid v : 0 <= v < 4 -> is_Some (vis_priority (canonical_visibility v)).
Proof.
  intros H. assert (v = 0 \/ v = 1 \/ v = 2 \/ v = 3) as [->|[->|[->| ->]]] by lia; vm_compute; by eexists.
Qed.

Lemma entry_visibility_valid p f e s : valid_entries -> entry_at p = Some (f, e, s) ->
  is_Some (vis_priority (canonical_visibility (entry_visibility f e))).
Proof.
  intros V (Hf & He & _)%entry_file. apply canonical_valid. unfold entry_visibility. case_match; [by vm_compute|].
  apply (V p.1 f); [done|]. apply list_elem_of_lookup. by eexists.
Qed.

Lemma merge_visibility_spec v sym : is_Some (vis_priority (canonical_visibility v)) -> is_Some (vis_priority (visibility sym)) ->
  exists sym', merge_visibility v sym = Some sym' /\ file sym' = file sym /\ sym_idx sym' = sym_idx sym /\
    (visibility sym' = visibility sym \/ visibility sym' = canonical_visibility v) /\
    vis_order (visibility sym') <= vis_order (visibility sym) /\ vis_order (visibility sym') <= vis_order (canonical_visibility v).
Proof.
  intros [a Ha] [b Hb]. unfold merge_visibility, vis_order. rewrite Ha, Hb. cbn [mbind option_bind].
  eexists. split; [done|]. destruct (Z.ltb_spec a b); cbn [file sym_idx visibility]; rewrite ?Ha, ?Hb; simpl;
    (split; [done|split; [done|split; [tauto|lia]]]).
Qed.

Lemma marked_one p f e s sym' syms : entry_at p = Some (f, e, s) -> is_dso f = false ->
  is_Some (vis_priority (canonical_visibility (entry_visibility f e))) ->
  file sym' = file (syms !!! s) -> sym_idx sym' = sym_idx (syms !!! s) ->
  (visibility sym' = visibility (syms !!! s) \/ visibility sym' = canonical_visibility (entry_visibility f e)) ->
  vis_order (visibility sym') <= vis_order (visibility (syms !!! s)) ->
  vis_order (visibility sym') <= vis_order (canonical_visibility (entry_visibility f e)) ->
  marked [p] syms (<[s := sym']> syms).
Proof.
  intros He Hd V Ef Ei Ev L1 L2 z. destruct (decide (s = z)) as [<-|Hz].
  - rewrite lookup_total_insert_eq. split; [done|]. split; [done|].
    assert (Hv : vis_of s p = Some (canonical_visibility (entry_visibility f e))).
    { unfold vis_of. rewrite He. simpl. by rewrite Hd, bool_decide_eq_true_2. }
    split; [|by destruct Ev as [->| ->]]. split; [|split; [done|]].
    + destruct Ev as [->|Ev]; [by left|]. right. exists p. split; [constructor|congruence].
    + intros q w ->%list_elem_of_singleton E. congruence.
  - rewrite lookup_total_insert_ne by done. split; [done|]. split; [done|]. split; [|done].
    split; [by left|]. split; [done|]. intros q w ->%list_elem_of_singleton E. unfold vis_of in E. rewrite He in E. simpl in E.
    rewrite Hd, bool_decide_eq_false_2 in E by done. done.
Qed.

Lemma marked_skip p syms : (forall s, vis_of s p = None) -> marked [p] syms syms.
Proof.
  intros H s. split; [done|]. split; [done|]. split; [|done]. split; [by left|]. split; [done|].
  intros q w ->%list_elem_of_singleton E. congruence.
Qed.

Lemma insert_lookup_total (s : Z) (syms : symtab) z : (<[s := syms !!! s]> syms) !!! z = syms !!! z.
Proof. destruct (decide (s = z)) as [->|]; [by rewrite lookup_total_insert_eq|by rewrite lookup_total_insert_ne]. Qed.

Lemma marked_rewrite p syms s : (forall s, vis_of s p = None) -> marked [p] syms (<[s := syms !!! s]> syms).
Proof. intros H z. rewrite insert_lookup_total. by apply marked_skip. Qed.

(** What marking adds to the alive files and to the queue. *)
Definition feeds (l : list (nat * nat)) (syms : symtab) (alive alive' : gset nat) (new : list nat) : Prop :=
  NoDup new /\ (forall g, g ∈ new <-> g ∈ alive' /\ g ∉ alive) /\ alive ⊆ alive' /\
  (forall g, g ∈ alive' <-> g ∈ alive \/ exists p, p ∈ l /\ kept_by syms p = Some g).

Lemma feeds_nil syms alive : feeds [] syms alive alive [].
Proof.
  split; [constructor|]. split; [|split; [done|]].
  - intros g. rewrite elem_of_nil. tauto.
  - intros g. split; [by left|]. intros [?|(p & ?%elem_of_nil & _)]; done.
Qed.

Lemma feeds_app l1 l2 syms syms1 a a1 a2 n1 n2 : marked l1 syms syms1 ->
  feeds l1 syms a a1 n1 -> feeds l2 syms1 a1 a2 n2 -> feeds (l1 ++ l2) syms a a2 (n1 ++ n2).
Proof.
  intros M (D1 & N1 & S1 & K1) (D2 & N2 & S2 & K2). split; [|split; [|split]].
  - apply NoDup_app. split; [done|]. split; [|done]. intros g Hg Hg'. apply N1 in Hg. apply N2 in Hg'. tauto.
  - intros g. rewrite elem_of_app, N1, N2. destruct (decide (g ∈ a1)); set_solver.
  - set_solver.
  - intros g. rewrite K2, K1. setoid_rewrite elem_of_app. setoid_rewrite (kept_by_marked l1 syms syms1 _ M). naive_solver.
Qed.

Lemma feeds_one p syms a fed : exists new, feed a fed (kept_by syms p) = (match kept_by syms p with Some g => {[g]} ∪ a | None => a end, fed ++ new)
  /\ feeds [p] syms a (match kept_by syms p with Some g => {[g]} ∪ a | None => a end) new.
Proof.
  unfold feed. destruct (kept_by syms p) as [g|] eqn:E.
  - destruct (decide (g ∈ a)) as [Hg|Hg].
    + rewrite bool_decide_eq_true_2 by done. assert ({[g]} ∪ a = a) as -> by set_solver. exists []. rewrite app_nil_r.
      split; [done|]. split; [constructor|]. split; [intros h; rewrite elem_of_nil; tauto|]. split; [done|].
      intros h. split; [by left|]. intros [?|(q & ->%list_elem_of_singleton & ?)]; [done|congruence].
    + rewrite bool_decide_eq_false_2 by done. exists [g]. split; [done|]. split; [apply NoDup_singleton|].
      split; [set_solver|]. split; [set_solver|]. intros h. rewrite elem_of_union, elem_of_singleton. split.
      * intros [->|?]; [right; exists p; split; [constructor|done]|by left].
      * intros [?|(q & ->%list_elem_of_singleton & ?)]; [by right|left; congruence].
  - exists []. rewrite app_nil_r. split; [done|]. split; [constructor|]. split; [intros h; rewrite elem_of_nil; tauto|]. split; [done|].
    intros h. split; [by left|]. intros [?|(q & ->%list_elem_of_singleton & ?)]; [done|congruence].
Qed.

Lemma mark_entry_spec alive syms fed p : valid_entries -> valid_visibilities syms ->
  exists alive' syms' new, mark_entry files ((alive, syms), fed) p = Some ((alive', syms'), fed ++ new) /\
    marked [p] syms syms' /\ feeds [p] syms alive alive' new.
Proof.
  intros VE VS. destruct (feeds_one p syms alive fed) as (new & E & F). revert E F. unfold kept_by, mark_entry.
  assert (Hno : entry_at p = None -> (forall s, vis_of s p = None)) by (intros H s; unfold vis_of; by rewrite H).
  destruct (entry_at p) as [[[f e] s]|] eqn:He.
  - pose proof He as He'. apply entry_file in He' as (Hf & Hfe & Hfs). rewrite Hf, Hfe, Hfs. destruct (is_dso f) eqn:Ed.
    + cbn [mbind option_bind]. intros -> F. eexists _, _, new. split; [done|]. split; [|done].
      apply marked_rewrite. intros z. unfold vis_of. rewrite He. simpl. by rewrite Ed.
    + destruct (merge_visibility_spec (entry_visibility f e) (syms !!! s)) as (sym' & -> & Ef & Ei & Ev & L1 & L2);
        [by eapply entry_visibility_valid|apply VS|]. cbn [mbind option_bind]. rewrite (keeps_same f e (syms !!! s) sym') by done.
      intros -> F. eexists _, _, new. split; [done|]. split; [|done]. eapply marked_one; try done. by eapply entry_visibility_valid.
  - intros _ F. exists alive, syms, []. rewrite app_nil_r. split; [|split; [by apply marked_skip, Hno|]].
    + revert He. unfold entry_at. destruct (files !! p.1) as [f|]; simpl; [|done].
      destruct (elf_syms f !! p.2); simpl; [|done]. by destruct (symbols f !! p.2).
    + destruct F as (_ & F & _ & K). split; [constructor|]. split; [intros g; rewrite elem_of_nil; tauto|]. split; [done|]. done.
Qed.

Lemma mark_entries_spec l alive syms fed : valid_entries -> valid_visibilities syms ->
  exists alive' syms' new, mark_entries files ((alive, syms), fed) l = Some ((alive', syms'), fed ++ new) /\
    marked l syms syms' /\ feeds l syms alive alive' new.
Proof.
  intros VE. revert alive syms fed. induction l as [|p l IH]; intros alive syms fed VS.
  - exists alive, syms, []. rewrite app_nil_r. split; [done|]. split; [apply marked_nil|apply feeds_nil].
  - destruct (mark_entry_spec alive syms fed p VE VS) as (a1 & s1 & n1 & E1 & M1 & F1). cbn [mark_entries]. rewrite E1.
    destruct (IH a1 s1 (fed ++ n1)) as (a2 & s2 & n2 & E2 & M2 & F2); [by eapply marked_valid|].
    exists a2, s2, (n1 ++ n2). cbn [mbind option_bind]. rewrite E2, <- app_assoc. split; [done|].
    change (p :: l) with ([p] ++ l). split; [by eapply marked_app|by eapply feeds_app].
Qed.

(** The files that are needed: those alive from the start or that hold a symbol of the
    command line, and those that a needed file keeps. *)
Inductive needed (syms : symtab) (start : gset nat) : nat -> Prop :=
  | needed_start g : g ∈ start -> needed syms start g
  | needed_kept x p g : needed syms start x -> p ∈ globals files x -> kept_by syms p = Some g -> needed syms start g.

(** A state of the marking, [done] are the files that were visited. *)
Record marking_inv (syms0 : symtab) (start : gset nat) (seen : list nat) (alive : gset nat) (syms : symtab) (queue : list nat) : Prop := {
  mi_marked : marked (concat (map (globals files) seen)) syms0 syms;
  mi_nodup : NoDup (seen ++ queue);
  mi_alive : forall g, g ∈ alive <-> g ∈ seen ++ queue;
  mi_closed : forall x p g, x ∈ seen -> p ∈ globals files x -> kept_by syms0 p = Some g -> g ∈ alive;
  mi_start : start ⊆ alive;
  mi_needed : forall g, g ∈ alive -> needed syms0 start g }.

Lemma marking_step syms0 start seen alive syms x queue alive' syms' new :
  marking_inv syms0 start seen alive syms (x :: queue) ->
  marked (globals files x) syms syms' -> feeds (globals files x) syms alive alive' new ->
  marking_inv syms0 start (seen ++ [x]) alive' syms' (queue ++ new).
Proof.
  intros [M D A C S N] M' (D' & F & Sub & K). split.
  - rewrite map_app, concat_app. simpl. rewrite app_nil_r. by eapply marked_app.
  - rewrite <- app_assoc. change ([x] ++ queue ++ new) with ((x :: queue) ++ new). rewrite app_assoc. apply NoDup_app.
    split; [done|]. split; [|done]. intros g Hg Hn. apply F in Hn as [_ Hn]. by apply Hn, A.
  - intros g. split.
    + intros Hg. destruct (decide (g ∈ alive)) as [Ho|Ho]; [apply A in Ho; set_solver|].
      assert (g ∈ new) by (by apply F). set_solver.
    + intros Hg. assert (g ∈ seen ++ x :: queue \/ g ∈ new) as [Ho|Ho] by set_solver; [by apply Sub, A|by apply F].
  - intros y p g [Hy| ->%list_elem_of_singleton]%elem_of_app Hp Hk; [by apply Sub, (C y p)|].
    apply K. right. exists p. split; [done|]. by rewrite (kept_by_marked _ _ _ p M).
  - set_solver.
  - intros g [Hg|(p & Hp & Hk)]%K; [by apply N|]. apply (needed_kept syms0 start x p); [|done|].
    + apply N, A. set_solver.
    + by rewrite (kept_by_marked _ _ _ p M) in Hk.
Qed.

Lemma marking_bound syms0 start seen alive syms queue : marking_inv syms0 start seen alive syms queue ->
  (forall g, needed syms0 start g -> (g < length files)%nat) -> (length seen + length queue <= length files)%nat.
Proof.
  intros I H. rewrite <- length_app, <- (length_seq (length files) 0). apply submseteq_length.
  apply NoDup_submseteq; [apply (mi_nodup _ _ _ _ _ _ I)|]. intros g Hg. apply elem_of_seq.
  assert (g < length files)%nat; [|lia]. apply H, (mi_needed _ _ _ _ _ _ I), (mi_alive _ _ _ _ _ _ I). done.
Qed.

Lemma mark_files_spec syms0 start fuel seen alive syms queue : valid_entries -> valid_visibilities syms0 ->
  (forall g, needed syms0 start g -> (g < length files)%nat) ->
  marking_inv syms0 start seen alive syms queue -> (length files <= length seen + fuel)%nat ->
  exists seen' alive' syms', mark_files files fuel (alive, syms) queue = Some (alive', syms') /\
    marking_inv syms0 start seen' alive' syms' [].
Proof.
  intros VE VS HN. revert seen alive syms queue. induction fuel as [|fuel IH]; intros seen alive syms [|x queue] I Hf;
    try (eexists _, _, _; split; [done|exact I]).
  - pose proof (marking_bound _ _ _ _ _ _ I HN). simpl in *. lia.
  - destruct (mark_entries_spec (globals files x) alive syms [] VE) as (a1 & s1 & n1 & E & M & F);
      [eapply marked_valid; [apply (mi_marked _ _ _ _ _ _ I)|done]|].
    cbn [mark_files]. rewrite E. cbn [mbind option_bind]. apply (IH (seen ++ [x])).
    + by apply (marking_step _ _ _ alive syms).
    + rewrite length_app. simpl. lia.
Qed.

(** The files that are alive from the start or that hold a root symbol. *)
Definition marking_start (root_symbols : list Z) (syms : symtab) : gset nat :=
  list_to_set (omap (fun s => file (syms !!! s)) root_symbols) ∪ alive_files files.

Lemma marking_start_known (ids : list nat) root_symbols syms g : (forall g, (g < length files)%nat <-> g ∈ ids) ->
  (forall s f, file (syms !!! s) = Some f -> f ∈ ids) -> g ∈ marking_start root_symbols syms -> g ∈ ids.
Proof.
  intros HU HF Hg. unfold marking_start in Hg. apply elem_of_union in Hg as [Hg|Hg].
  - apply elem_of_list_to_set, list_elem_of_omap in Hg as (s & _ & Hg). by eapply HF.
  - unfold alive_files in Hg. apply elem_of_list_to_set, list_elem_of_In, List.filter_In in Hg as [Hg _].
    apply HU. apply list_elem_of_In, elem_of_seq in Hg. lia.
Qed.

Lemma needed_known (ids : list nat) root_symbols syms g : (forall g, (g < length files)%nat <-> g ∈ ids) ->
  (forall s f, file (syms !!! s) = Some f -> f ∈ ids) -> needed syms (marking_start root_symbols syms) g -> g ∈ ids.
Proof.
  intros HU HF Hg. destruct Hg as [g Hg|x p g _ _ Hk]; [by eapply marking_start_known|]. unfold kept_by in Hk.
  destruct (entry_at p) as [[[f e] s]|]; [|done]. apply (HF s). unfold keeps in Hk. by repeat case_match.
Qed.

Lemma mark_live_objects_spec ids root_symbols syms : valid_entries -> valid_visibilities syms ->
  NoDup ids -> (forall g, (g < length files)%nat <-> g ∈ ids) -> (forall s f, file (syms !!! s) = Some f -> f ∈ ids) ->
  exists alive syms', mark_live_objects files ids root_symbols syms = Some (alive, syms') /\
    (forall g, g ∈ alive <-> needed syms (marking_start root_symbols syms) g) /\
    exists l, marked l syms syms' /\ forall p, p ∈ l <-> p.1 ∈ alive /\ p ∈ globals files p.1.
Proof.
  intros VE VS D HU HF. set (start := marking_start root_symbols syms).
  assert (Hs : forall g, g ∈ start -> g ∈ ids) by (intros g; by apply marking_start_known).
  assert (HN : forall g, needed syms start g -> (g < length files)%nat) by (intros g Hg; eapply HU, needed_known; [done|done|exact Hg]).
  edestruct (mark_files_spec syms start (length files) [] start syms (List.filter (fun i => bool_decide (i ∈ start)) ids))
    as (seen & alive & syms' & E & I); [done|done|done| |simpl; lia|].
  { split; simpl.
    - apply marked_nil.
    - by apply NoDup_ListNoDup, List.NoDup_filter, NoDup_ListNoDup.
    - intros g. rewrite list_elem_of_In, List.filter_In, <- list_elem_of_In, bool_decide_eq_true. specialize (Hs g). tauto.
    - by intros x p g ?%elem_of_nil.
    - done.
    - intros g. by constructor. }
  exists alive, syms'. split; [done|]. destruct I as [M _ A C S N]. setoid_rewrite app_nil_r in A. split.
  - intros g. split; [apply N|]. intros H. induction H as [g Hg|x p g _ IH Hp Hk]; [by apply S|]. by apply (C x p); [apply A| |].
  - exists (concat (map (globals files) seen)). split; [done|]. intros p. by rewrite globals_all, A.
Qed.

(** ** Clearing *)

(** The symbols that a file resets. *)
Definition global_symbols (fid : nat) : list (nat * Z) :=
  match files !! fid with Some f => map (pair fid) (drop (first_global f) (symbols f)) | None => [] end.

Definition clear_one (syms : symtab) (p : nat * Z) : symtab := update_sym (clear_symbol p.1) p.2 syms.

Lemma clear_list ids syms : foldl (clear_symbols files) syms ids = foldl clear_one syms (concat (map global_symbols ids)).
Proof.
  revert syms. induction ids as [|x ids IH]; intros syms; [done|]. simpl. rewrite IH, foldl_app. f_equal.
  unfold clear_symbols, global_symbols. destruct (files !! x) as [f|]; [|done]. clear IH.
  generalize (drop (first_global f) (symbols f)) as l. intros l. revert syms. induction l as [|s l IH]; intros syms; [done|].
  simpl. by rewrite IH.
Qed.

Lemma clear_one_vis syms p s : visibility (clear_one syms p !!! s) = visibility (syms !!! s).
Proof.
  unfold clear_one. destruct (decide (p.2 = s)) as [->|Hs]; [|by rewrite update_sym_other].
  rewrite update_sym_same. unfold clear_symbol. by case_match.
Qed.

Lemma clear_list_vis l syms s : visibility (foldl clear_one syms l !!! s) = visibility (syms !!! s).
Proof. revert syms. induction l as [|p l IH]; intros syms; [done|]. simpl. by rewrite IH, clear_one_vis. Qed.

Lemma clear_one_file syms p s : file (clear_one syms p !!! s) = None \/
  (file (clear_one syms p !!! s) = file (syms !!! s) /\ (file (syms !!! s) <> Some p.1 \/ p.2 <> s)).
Proof.
  unfold clear_one. destruct (decide (p.2 = s)) as [->|Hs]; [|rewrite update_sym_other by done; by right; split; [|right]].
  rewrite update_sym_same. unfold clear_symbol. case_bool_decide; [by left|right; by split; [|left]].
Qed.

Lemma clear_list_file l syms s : file (foldl clear_one syms l !!! s) = None \/
  (file (foldl clear_one syms l !!! s) = file (syms !!! s) /\ forall fid, (fid, s) ∈ l -> file (syms !!! s) <> Some fid).
Proof.
  revert syms. induction l as [|p l IH]; intros syms; [right; split; [done|by intros fid ?%elem_of_nil]|]. simpl.
  destruct (IH (clear_one syms p)) as [H|[H Hl]]; [by left|]. rewrite H.
  destruct (clear_one_file syms p s) as [H1|[H1 H2]]; [by left|]. right. split; [done|].
  intros fid [<-|Hf]%elem_of_cons; [by destruct H2|]. rewrite <- H1. by apply Hl.
Qed.

(** Who owns a resolved symbol. *)
Lemma resolved_owner ids syms syms' s fid : resolved ids syms syms' -> unclaimed (syms !!! s) ->
  file (syms' !!! s) = Some fid -> fid ∈ ids /\ (fid, s) ∈ global_symbols fid.
Proof.
  intros R U E. destruct (R s) as [(p & (r & Hr & Hp & _) & Ep)|[_ Es]]; [|rewrite Es, U in E; done].
  apply def_rank_some in Hr as (f & e & [[org ver] wk] & He & Hd & _). rewrite Ep in E. unfold owned in E. rewrite He, Hd in E.
  cbn [file] in E. simplify_eq. apply globals_all in Hp as [H1 H2]. split; [done|].
  apply entry_file in He as (Hf & _ & Hs). unfold global_symbols, globals in *. rewrite Hf in *. apply list_elem_of_fmap.
  exists s. split; [done|]. apply list_elem_of_fmap in H2 as (i & Ei & Hi). apply elem_of_seq in Hi.
  apply list_elem_of_lookup. exists (i - first_global f)%nat. rewrite lookup_drop. rewrite Ei in Hs. cbn [snd] in Hs.
  rewrite <- Hs. f_equal. lia.
Qed.

Lemma clear_unclaims ids syms syms' syms2 : resolved ids syms syms' -> (forall s, unclaimed (syms !!! s)) ->
  (forall s, file (syms2 !!! s) = file (syms' !!! s)) ->
  forall s, unclaimed (foldl (clear_symbols files) syms2 ids !!! s) /\
    visibility (foldl (clear_symbols files) syms2 ids !!! s) = visibility (syms2 !!! s).
Proof.
  intros R U Hf s. rewrite clear_list. split; [|apply clear_list_vis].
  destruct (clear_list_file (concat (map global_symbols ids)) syms2 s) as [H|[H Hn]]; [done|].
  unfold unclaimed. rewrite H, Hf. destruct (file (syms' !!! s)) as [fid|] eqn:E; [|done]. exfalso.
  destruct (resolved_owner ids syms syms' s fid R (U s) E) as [H1 H2]. apply (Hn fid); [|by rewrite Hf].
  apply list_elem_of_In, in_concat. exists (global_symbols fid). split; [by apply in_map, list_elem_of_In|by apply list_elem_of_In].
Qed.
End Spec.

(** ** Comdat groups *)

(** The file that a group belongs to: the first of those that have it. *)
Definition has_group (files : list InputFile) (fid : nat) (g : Z) : Prop :=
  exists f, files !! fid = Some f /\ g ∈ map fst (comdat_groups f).
Definition group_owner (files : list InputFile) (objs : list nat) (g : Z) (fid : nat) : Prop :=
  fid ∈ objs /\ has_group files fid g /\
  forall fid' f f', fid' ∈ objs -> has_group files fid' g -> files !! fid = Some f -> files !! fid' = Some f' -> priority f <= priority f'.

(** A section is left out when a group of another file has it. *)
Definition duplicate (files : list InputFile) (objs : list nat) (fid i : nat) : Prop :=
  fid ∈ objs /\ exists f g members, files !! fid = Some f /\ (g, members) ∈ comdat_groups f /\ i ∈ members /\ ~ group_owner files objs g fid.

Definition owner_of (owners : gmap Z Z) (g : Z) : Z := default UINT32_MAX (owners !! g).

Lemma claim_group_owner prio owners ref g :
  owner_of (claim_group prio owners ref) g = if decide (ref.1 = g) then Z.min prio (owner_of owners g) else owner_of owners g.
Proof.
  unfold claim_group, owner_of. case_decide as H; [subst; by rewrite lookup_insert_eq|by rewrite lookup_insert_ne].
Qed.

Lemma claim_group_fold prio l owners g : owner_of (foldl (claim_group prio) owners l) g =
  if decide (g ∈ map fst l) then Z.min prio (owner_of owners g) else owner_of owners g.
Proof.
  revert owners. induction l as [|r l IH]; intros owners; [by rewrite decide_False by (apply not_elem_of_nil)|].
  cbn [foldl]. rewrite IH, claim_group_owner. cbn [map].
  destruct (decide (r.1 = g)) as [E|E], (decide (g ∈ map fst l)) as [Hi|Hi], (decide (g ∈ r.1 :: map fst l)) as [H|H];
    rewrite elem_of_cons in H; try lia; naive_solver.
Qed.

Lemma claim_groups_owner files owners fid g f : files !! fid = Some f ->
  owner_of (claim_groups files owners fid) g =
  if decide (g ∈ map fst (comdat_groups f)) then Z.min (priority f) (owner_of owners g) else owner_of owners g.
Proof. intros H. unfold claim_groups. rewrite H. apply claim_group_fold. Qed.

Section Comdat.
Context (files : list InputFile) (WF : well_formed files).

Lemma owners_spec objs g : let o := owner_of (foldl (claim_groups files) ∅ objs) g in
  (o = UINT32_MAX \/ exists fid f, fid ∈ objs /\ has_group files fid g /\ files !! fid = Some f /\ o = priority f) /\
  forall fid f, fid ∈ objs -> has_group files fid g -> files !! fid = Some f -> o <= priority f.
Proof.
  induction objs as [|x objs IH] using rev_ind; [split; [by left|by intros fid f ?%elem_of_nil]|].
  cbv zeta in *. rewrite foldl_app. cbn [foldl]. destruct IH as [H1 H2]. set (o := owner_of (foldl _ ∅ objs) g) in *.
  destruct (files !! x) as [f|] eqn:Ef.
  2: { assert (claim_groups files (foldl (claim_groups files) ∅ objs) x = foldl (claim_groups files) ∅ objs) as ->
      by (unfold claim_groups at 1; by rewrite Ef).
    fold o. split.
    - destruct H1 as [H1|(fid & f & Hi & H)]; [by left|right; exists fid, f; split; [set_solver|done]].
    - intros fid f [Hi| ->%list_elem_of_singleton]%elem_of_app Hg Hf; [by apply (H2 fid)|congruence]. }
  rewrite (claim_groups_owner _ _ _ _ f Ef). fold o. case_decide as Hg.
  - split.
    + destruct (Z.le_ge_cases (priority f) o).
      * right. exists x, f. split; [set_solver|]. split; [by exists f|]. split; [done|lia].
      * rewrite Z.min_r by lia. destruct H1 as [H1|(fid & f' & Hi & H')]; [by left|]. right. exists fid, f'. split; [set_solver|done].
    + intros fid f' [Hi| ->%list_elem_of_singleton]%elem_of_app Hg' Hf'; [specialize (H2 fid f' Hi Hg' Hf'); lia|simplify_eq; lia].
  - split.
    + destruct H1 as [H1|(fid & f' & Hi & H')]; [by left|right; exists fid, f'; split; [set_solver|done]].
    + intros fid f' [Hi| ->%list_elem_of_singleton]%elem_of_app Hg' Hf'; [by apply (H2 fid)|].
      destruct Hg' as (f2 & Hf2 & Hg'). simplify_eq. done.
Qed.

(** The comparison in the second loop. *)
Lemma owner_test objs fid f g : fid ∈ objs -> files !! fid = Some f -> g ∈ map fst (comdat_groups f) ->
  (owner_of (foldl (claim_groups files) ∅ objs) g =? priority f) = true <-> group_owner files objs g fid.
Proof.
  intros Hin Hf Hg. assert (HG : has_group files fid g) by (by exists f). destruct (owners_spec objs g) as [H1 H2].
  pose proof (H2 fid f Hin HG Hf) as Hle. rewrite Z.eqb_eq. split.
  - intros E. split; [done|]. split; [done|]. intros fid' f1 f' Hi Hg' Hf1 Hf'. simplify_eq. rewrite <- E. by apply (H2 fid').
  - intros (_ & _ & Hmin). destruct H1 as [H1|(fid' & f' & Hi & Hg' & Hf' & Eo)].
    + pose proof (wf_priority files WF fid f Hf) as Hp. rewrite H1 in Hle. assert (UINT32_MAX = 4294967295) by done.
      change (2 ^ 24) with 16777216 in Hp. lia.
    + specialize (Hmin fid' f f' Hi Hg' Hf Hf'). lia.
Qed.

Lemma kill_sections_lookup (members : list nat) (secs : list (option bool)) i : foldl (fun secs i => alter kill i secs) secs members !! i =
  if decide (i ∈ members) then kill <$> secs !! i else secs !! i.
Proof.
  assert (KK : forall o : option (option bool), kill <$> (kill <$> o) = kill <$> o) by (by intros [[b|]|]).
  revert secs. induction members as [|m l IH]; intros secs; [by rewrite decide_False by (apply not_elem_of_nil)|].
  cbn [foldl]. rewrite IH. destruct (decide (m = i)) as [->|Hm].
  - rewrite list_lookup_alter_eq, (decide_True (P := i ∈ i :: l)) by constructor. case_decide; [apply KK|done].
  - rewrite list_lookup_alter_ne by done. destruct (decide (i ∈ l)) as [H|H], (decide (i ∈ m :: l)) as [H'|H'];
      rewrite elem_of_cons in H'; try done; naive_solver.
Qed.

(** The sections of a file after the second loop: killed when some group that belongs to
    another file has them. *)
Definition in_other (owners : gmap Z Z) (prio : Z) (l : list (Z * list nat)) (i : nat) : Prop :=
  Exists (fun ref => i ∈ ref.2 /\ (owner_of owners ref.1 =? prio) = false) l.
#[local] Instance in_other_dec owners prio l i : Decision (in_other owners prio l i).
Proof. unfold in_other. apply _. Defined.

Lemma kill_group_lookup owners prio l (secs : list (option bool)) i :
  foldl (kill_group owners prio) secs l !! i = if decide (in_other owners prio l i) then kill <$> secs !! i else secs !! i.
Proof.
  assert (KK : forall o : option (option bool), kill <$> (kill <$> o) = kill <$> o) by (by intros [[b|]|]).
  revert secs. induction l as [|ref l IH]; intros secs; [by rewrite decide_False by (by intros ?%Exists_nil)|].
  cbn [foldl]. rewrite IH.
  assert (Hhead : kill_group owners prio secs ref !! i =
    if decide (i ∈ ref.2 /\ (owner_of owners ref.1 =? prio) = false) then kill <$> secs !! i else secs !! i).
  { unfold kill_group. fold (owner_of owners ref.1). destruct (owner_of owners ref.1 =? prio).
    - by rewrite decide_False by (by intros [_ ?]).
    - rewrite kill_sections_lookup. destruct (decide (i ∈ ref.2)) as [H|H]; [by rewrite decide_True|by rewrite decide_False by (by intros [? _])]. }
  rewrite Hhead. unfold in_other. destruct (decide (Exists _ (ref :: l))) as [H|H]; rewrite Exists_cons in H;
    destruct (decide (Exists _ l)), (decide (i ∈ ref.2 /\ _)); try done; try tauto; apply KK.
Qed.

Lemma alter_list_lookup {A} (f : A -> A) (ids : list nat) (l : list A) i : NoDup ids ->
  foldl (fun l k => alter f k l) l ids !! i = if decide (i ∈ ids) then f <$> l !! i else l !! i.
Proof.
  intros D. revert l. induction D as [|k ids Hk _ IH]; intros l; [by rewrite decide_False by (apply not_elem_of_nil)|].
  cbn [foldl]. rewrite IH. destruct (decide (k = i)) as [->|Hn].
  - rewrite decide_False by done. rewrite decide_True by constructor. apply list_lookup_alter_eq.
  - rewrite list_lookup_alter_ne by done. destruct (decide (i ∈ ids)), (decide (i ∈ k :: ids)) as [H|H];
      rewrite elem_of_cons in H; try done; naive_solver.
Qed.

(** The elimination leaves everything but the sections; those that belong to a group of
    another file are killed. *)
Definition same_file (f f' : InputFile) : Prop :=
  is_dso f' = is_dso f /\ priority f' = priority f /\ is_alive f' = is_alive f /\ elf_syms f' = elf_syms f /\
  symbols f' = symbols f /\ first_global f' = first_global f /\ versyms f' = versyms f /\ symtab_shndx f' = symtab_shndx f /\
  comdat_groups f' = comdat_groups f /\ exclude_libs f' = exclude_libs f.

Lemma eliminate_comdats_spec objs i f : NoDup objs -> files !! i = Some f ->
  exists f', eliminate_comdats files objs !! i = Some f' /\ same_file f f' /\
    forall k, (duplicate files objs i k -> sections f' !! k = kill <$> sections f !! k) /\
              (~ duplicate files objs i k -> sections f' !! k = sections f !! k).
Proof.
  intros D Hf. unfold eliminate_comdats. rewrite alter_list_lookup, Hf by done.
  destruct (decide (i ∈ objs)) as [Hi|Hi].
  - eexists. split; [done|]. split; [done|]. intros k. unfold kill_groups. cbn [sections]. rewrite kill_group_lookup.
    set (owners := foldl _ ∅ objs).
    assert (Hd : duplicate files objs i k <-> in_other owners (priority f) (comdat_groups f) k).
    { unfold in_other. rewrite Exists_exists. unfold duplicate. split.
      - intros (_ & f' & g & members & Hf' & Hg & Hk & Ho). simplify_eq. exists (g, members). split; [done|]. split; [done|].
        apply not_true_iff_false. cbn [fst]. intros H. apply Ho. eapply owner_test; [done|done| |done].
        apply list_elem_of_fmap. by exists (g, members).
      - intros ([g members] & Hg & Hk & Ho). split; [done|]. exists f, g, members. split; [done|]. split; [done|]. split; [done|].
        apply not_true_iff_false in Ho. intros H. apply Ho. eapply owner_test; [done|done| |done].
        apply list_elem_of_fmap. by exists (g, members). }
    case_decide; split; tauto.
  - exists f. split; [done|]. split; [by repeat split|]. intros k. split; [intros [? _]; done|done].
Qed.

Lemma eliminate_comdats_none objs i : NoDup objs -> files !! i = None -> eliminate_comdats files objs !! i = None.
Proof. intros D H. unfold eliminate_comdats. rewrite alter_list_lookup, H by done. by case_decide. Qed.
End Comdat.

Lemma set_alive_lookup alive files i : set_alive alive files !! i = with_alive (bool_decide (i ∈ alive)) <$> files !! i.
Proof. unfold set_alive. by rewrite list_lookup_imap. Qed.

Lemma has_group_set_alive alive files fid g : has_group (set_alive alive files) fid g <-> has_group files fid g.
Proof.
  unfold has_group. split.
  - intros (f' & Hf & Hg). rewrite set_alive_lookup in Hf. apply fmap_Some in Hf as (f & Hf & ->). by exists f.
  - intros (f & Hf & Hg). eexists. rewrite set_alive_lookup, Hf. by split.
Qed.

Lemma group_owner_set_alive alive files objs g fid : group_owner (set_alive alive files) objs g fid <-> group_owner files objs g fid.
Proof.
  unfold group_owner. rewrite has_group_set_alive. setoid_rewrite has_group_set_alive. setoid_rewrite set_alive_lookup. split.
  - intros (H1 & H2 & H3). split; [done|]. split; [done|]. intros fid' f f' Hi Hg Hf Hf'.
    apply (H3 fid' (with_alive (bool_decide (fid ∈ alive)) f) (with_alive (bool_decide (fid' ∈ alive)) f')); [done|done|by rewrite Hf|by rewrite Hf'].
  - intros (H1 & H2 & H3). split; [done|]. split; [done|].
    intros fid' f f' Hi Hg (f1 & Hf1 & ->)%fmap_Some (f2 & Hf2 & ->)%fmap_Some. by apply (H3 fid' f1 f2).
Qed.

Lemma duplicate_set_alive alive files objs fid i : duplicate (set_alive alive files) objs fid i <-> duplicate files objs fid i.
Proof.
  unfold duplicate. setoid_rewrite group_owner_set_alive. split.
  - intros (H & f' & g & m & Hf & Hr). rewrite set_alive_lookup in Hf. apply fmap_Some in Hf as (f & Hf & ->). split; [done|]. by exists f, g, m.
  - intros (H & f & g & m & Hf & Hr). split; [done|]. eexists _, g, m. rewrite set_alive_lookup, Hf. by split.
Qed.

(** ** The pass *)

Record well_formed_context (ctx : Context) : Prop := {
  wc_files : well_formed (files ctx);
  wc_entries : valid_entries (files ctx);
  wc_ids : NoDup (objs ctx ++ dsos ctx);
  wc_all : forall g, (g < length (files ctx))%nat <-> g ∈ objs ctx ++ dsos ctx;
  wc_unclaimed : forall s, file (syms ctx !!! s) = None;
  wc_visibilities : valid_visibilities (syms ctx) }.

Lemma set_alive_well_formed alive files : well_formed files -> well_formed (set_alive alive files).
Proof.
  intros [P D S]. split.
  - intros i f'. rewrite set_alive_lookup. intros (f & Hf & ->)%fmap_Some. by apply (P i f).
  - intros i j f' g'. rewrite !set_alive_lookup. intros (f & Hf & ->)%fmap_Some (g & Hg & ->)%fmap_Some. by apply (D i j f g).
  - intros i f' e. rewrite set_alive_lookup. intros (f & Hf & ->)%fmap_Some. by apply (S i f e).
Qed.

Lemma eliminate_lookup files objs i f' : well_formed files -> NoDup objs -> eliminate_comdats files objs !! i = Some f' ->
  exists f, files !! i = Some f /\ same_file f f'.
Proof.
  intros W D H. destruct (files !! i) as [f|] eqn:E; [|by rewrite eliminate_comdats_none in H].
  destruct (eliminate_comdats_spec files W objs i f D E) as (f2 & H2 & S & _). simplify_eq. by exists f.
Qed.

Lemma eliminate_well_formed files objs : NoDup objs -> well_formed files -> well_formed (eliminate_comdats files objs).
Proof.
  intros N W. pose proof W as [P D S]. split.
  - intros i f' H. apply eliminate_lookup in H as (f & Hf & Hs); [|done|done]. destruct Hs as (? & -> & _). by apply (P i f).
  - intros i j f' g' H H'. apply eliminate_lookup in H as (f & Hf & Hs); [|done|done]. destruct Hs as (? & -> & _).
    apply eliminate_lookup in H' as (g & Hg & Hs); [|done|done]. destruct Hs as (? & -> & _). by apply (D i j f g).
  - intros i f' e H. apply eliminate_lookup in H as (f & Hf & Hs); [|done|done]. destruct Hs as (-> & _ & _ & -> & _). by apply (S i f e).
Qed.

Lemma most_restrictive_elems files s l l' v0 v : (forall p, p ∈ l <-> p ∈ l') ->
  most_restrictive files s l v0 v -> most_restrictive files s l' v0 v.
Proof.
  intros H (A & B & C). split; [|split; [done|]].
  - destruct A as [?|(p & Hp & E)]; [by left|right; exists p; split; [by apply H|done]].
  - intros p w Hp. by apply C, H.
Qed.

Lemma for_each_ids f ctx : for_each_file f ctx = foldl f (syms ctx) (objs ctx ++ dsos ctx).
Proof. unfold for_each_file. by rewrite foldl_app. Qed.

Lemma sequential_resolves files dv ids syms : well_formed files -> NoDup ids -> (forall s, unclaimed (syms !!! s)) ->
  resolved files dv ids syms (foldl (resolve_symbols files dv) syms ids).
Proof. intros W D U. rewrite foldl_resolve. by apply schedule_resolves; [|apply interleaving_sequential|]. Qed.

Lemma erase_dead_app alive l l' : erase_dead alive (l ++ l') = erase_dead alive l ++ erase_dead alive l'.
Proof. apply List.filter_app. Qed.

Lemma erase_dead_elem alive l i : i ∈ erase_dead alive l <-> i ∈ l /\ i ∈ alive.
Proof. unfold erase_dead. by rewrite list_elem_of_In, List.filter_In, <- list_elem_of_In, bool_decide_eq_true. Qed.

Lemma erase_dead_nodup alive l : NoDup l -> NoDup (erase_dead alive l).
Proof. intros H. by apply NoDup_ListNoDup, List.NoDup_filter, NoDup_ListNoDup. Qed.

(** C21: Resolution returns. With [prelim] the preliminary resolution, the files left are
    those that are needed; every other file keeps its data, and exactly the sections
    of comdat groups that belong to an earlier file are killed; every symbol has the
    most restrictive visibility that the remaining object files ask for and belongs to
    the strongest definition in the remaining files and sections, or to no file when
    there is none. *)
Theorem do_resolve_symbols_exact ctx dv root_symbols : well_formed_context ctx ->
  exists prelim after, do_resolve_symbols dv root_symbols ctx = Some after /\
    resolved (files ctx) dv (objs ctx ++ dsos ctx) (syms ctx) prelim /\
    let needed g := needed (files ctx) prelim (marking_start (files ctx) root_symbols prelim) g in
    (forall g, (g ∈ objs after <-> g ∈ objs ctx /\ needed g) /\ (g ∈ dsos after <-> g ∈ dsos ctx /\ needed g)) /\
    (forall i f, files ctx !! i = Some f -> exists f' b, files after !! i = Some f' /\ same_file (with_alive b f) f' /\ (b = true <-> needed i) /\
      forall k, (duplicate (files ctx) (objs after) i k -> sections f' !! k = kill <$> sections f !! k) /\
                (~ duplicate (files ctx) (objs after) i k -> sections f' !! k = sections f !! k)) /\
    exists cleared, resolved (files after) dv (objs after ++ dsos after) cleared (syms after) /\
      forall s, unclaimed (cleared !!! s) /\
        most_restrictive (files ctx) s (concat (map (globals (files ctx)) (objs after ++ dsos after)))
          (visibility (syms ctx !!! s)) (visibility (cleared !!! s)).
Proof.
  intros [WF WE WI WA WU WV]. set (prelim := foldl (resolve_symbols (files ctx) dv) (syms ctx) (objs ctx ++ dsos ctx)).
  assert (R : resolved (files ctx) dv (objs ctx ++ dsos ctx) (syms ctx) prelim) by (by apply sequential_resolves).
  assert (VP : forall s, visibility (prelim !!! s) = visibility (syms ctx !!! s)).
  { intros s. destruct (R s) as [(p & _ & ->)|[_ ->]]; [|done]. unfold owned. by repeat case_match. }
  assert (Hown : forall s f, file (prelim !!! s) = Some f -> f ∈ objs ctx ++ dsos ctx)
    by (intros s f Hf; by destruct (resolved_owner _ _ _ _ _ s f R (WU s) Hf)).
  destruct (mark_live_objects_spec (files ctx) WF (objs ctx ++ dsos ctx) root_symbols prelim)
    as (alive & msyms & Em & Hn & l & M & Hl); [done|intros s; rewrite VP; apply WV|done|done|done|].
  assert (Hin : forall g, g ∈ alive -> g ∈ objs ctx ++ dsos ctx) by (intros g Hg; eapply needed_known; [exact WA|exact Hown|by apply Hn]).
  eexists prelim, _. split.
  { unfold do_resolve_symbols. rewrite for_each_ids. fold prelim. rewrite Em. cbn [mbind option_bind].
    rewrite !for_each_ids. cbn [files objs dsos syms]. reflexivity. }
  cbn [files objs dsos syms]. split; [done|].
  assert (Dn : NoDup (erase_dead alive (objs ctx))) by (apply NoDup_app in WI as (? & _ & _); by apply erase_dead_nodup).
  assert (Ws : well_formed (set_alive alive (files ctx))) by (by apply set_alive_well_formed).
  split; [intros g; by rewrite !erase_dead_elem, Hn|]. split.
  - intros i f Hf. destruct (eliminate_comdats_spec (set_alive alive (files ctx)) Ws (erase_dead alive (objs ctx)) i
      (with_alive (bool_decide (i ∈ alive)) f)) as (f' & Hf' & S & K); [done|by rewrite set_alive_lookup, Hf|].
    exists f', (bool_decide (i ∈ alive)). split; [done|]. split; [done|]. split; [by rewrite bool_decide_eq_true|].
    intros k. rewrite <- duplicate_set_alive. apply K.
  - exists (foldl (clear_symbols (files ctx)) msyms (objs ctx ++ dsos ctx)).
    assert (C : forall s, unclaimed (foldl (clear_symbols (files ctx)) msyms (objs ctx ++ dsos ctx) !!! s) /\
      visibility (foldl (clear_symbols (files ctx)) msyms (objs ctx ++ dsos ctx) !!! s) = visibility (msyms !!! s))
      by (apply (clear_unclaims (files ctx) dv (objs ctx ++ dsos ctx) (syms ctx) prelim); [done|done|intros s; apply (M s)]).
    split.
    + apply sequential_resolves; [by apply eliminate_well_formed| |intros s; apply C].
      rewrite <- erase_dead_app. by apply erase_dead_nodup.
    + intros s. split; [apply C|]. destruct (C s) as [_ ->]. rewrite <- VP. eapply most_restrictive_elems; [|apply (M s)].
      intros p. rewrite <- erase_dead_app, globals_all, erase_dead_elem, Hl. specialize (Hin p.1). tauto.
Qed.

Lemma strongest_unique files dv ids s p q : strongest files dv ids s p -> strongest files dv ids s q -> p = q.
Proof.
  intros (r & Hr & Hp & Mp) (r' & Hr' & Hq & Mq). destruct (Mp q r' Hr' Hq) as [?|(? & E1 & ?)];
    destruct (Mq p r Hr Hp) as [?|(? & E2 & ?)]; try lia. destruct p, q; simpl in *. f_equal; [done|lia].
Qed.

Lemma resolved_unique files dv ids syms syms1 syms2 s : resolved files dv ids syms syms1 -> resolved files dv ids syms syms2 ->
  syms1 !!! s = syms2 !!! s.
Proof.
  intros R1 R2. destruct (R1 s) as [(p & Hp & ->)|[N1 ->]], (R2 s) as [(q & Hq & ->)|[N2 ->]]; [| | |done].
  - by rewrite (strongest_unique files dv ids s p q).
  - destruct Hp as (r & Hr & Hp & _). by rewrite N2 in Hr.
  - destruct Hq as (r & Hr & Hq & _). by rewrite N1 in Hr.
Qed.

(** C37: Threads may run the loops of the object files, and then those of the libraries, in
    any interleaving of their iterations: every symbol gets the strongest definition,
    the same as when the files are taken one after the other. *)
Theorem resolve_any_schedule ctx dv lo ld : well_formed (files ctx) -> NoDup (objs ctx ++ dsos ctx) ->
  (forall s, unclaimed (syms ctx !!! s)) -> interleaving (files ctx) (objs ctx) lo -> interleaving (files ctx) (dsos ctx) ld ->
  let syms' := foldl (resolve_one (files ctx) dv) (foldl (resolve_one (files ctx) dv) (syms ctx) lo) ld in
  resolved (files ctx) dv (objs ctx ++ dsos ctx) (syms ctx) syms' /\
  forall s, syms' !!! s = for_each_file (resolve_symbols (files ctx) dv) ctx !!! s.
Proof.
  intros W D U Lo Ld syms'. unfold syms'. rewrite <- foldl_app.
  assert (R : resolved (files ctx) dv (objs ctx ++ dsos ctx) (syms ctx) (foldl (resolve_one (files ctx) dv) (syms ctx) (lo ++ ld))).
  { apply schedule_resolves; [done| |done]. apply NoDup_app in D as (_ & D & _). by apply interleaving_app. }
  split; [done|]. intros s. eapply resolved_unique; [done|]. rewrite for_each_ids. by apply sequential_resolves.
Qed.

(** ** A sample *)

(** [main.o] (0) defines [main] (1), refers to [f] (2) and has the comdat group 7; the member 1
    of an archive defines [f] and has the group too; the member 2 defines [g] (3), which nobody
    needs; the library 3 defines [f] and is linked as needed. *)
Definition sample_obj (prio : Z) (alive : bool) (es : list (ElfSym * Z)) (groups : list (Z * list nat)) : InputFile :=
  mkInputFile false prio alive (map fst es) (map snd es) 0 [] [] [None; Some true; Some true] groups false.
Definition global (shndx val : Z) : ElfSym := mkElfSym (constant STB "STB_GLOBAL") (constant STV "STV_DEFAULT") shndx val.

Definition sample : Context := {|
  files := [
    sample_obj 10 true [(global 1 0, 1); (global 0 0, 2); (mkElfSym (constant STB "STB_WEAK") 2 2 4, 4)] [(7, [2%nat])];
    sample_obj 11 false [(global 1 16, 2); (mkElfSym (constant STB "STB_WEAK") 0 2 8, 4)] [(7, [2%nat])];
    sample_obj 12 false [(global 1 0, 3)] [];
    mkInputFile true 13 false [global 9 64] [2] 0 [2] [] [] [] false];
  objs := [0; 1; 2]%nat; dsos := [3]%nat; syms := ∅ |}.

Definition check_distinct (l : list InputFile) : bool :=
  bool_decide (NoDup (map priority l)) && forallb (fun f => (0 <=? priority f) && (priority f <? 2 ^ 24)) l &&
  forallb (fun f => negb (is_dso f) || forallb (fun e => is_undef e || negb (is_common e)) (elf_syms f)) l &&
  forallb (fun f => forallb (fun e => (0 <=? st_visibility e) && (st_visibility e <? 4)) (elf_syms f)) l.

Lemma lookup_forallb {A} (P : A -> bool) (l : list A) i x : forallb P l = true -> l !! i = Some x -> P x = true.
Proof. rewrite forallb_forall. intros H Hx. by apply H, list_elem_of_In, list_elem_of_lookup_2 with i. Qed.

Lemma check_distinct_ok l : check_distinct l = true -> well_formed l /\ valid_entries l.
Proof.
  unfold check_distinct. rewrite !andb_true_iff, bool_decide_eq_true. intros [[[D P] S] V]. split; [split|].
  - intros i f Hf. pose proof (lookup_forallb _ _ _ _ P Hf) as H. simpl in H. lia.
  - intros i j f g Hf Hg E. eapply (NoDup_lookup _ i j _ D); rewrite list_lookup_fmap; [by rewrite Hf|by rewrite Hg; simpl; rewrite E].
  - intros i f e Hf Hd He Hu. pose proof (lookup_forallb _ _ _ _ S Hf) as H. simpl in H. rewrite Hd in H. simpl in H.
    rewrite forallb_forall in H. specialize (H e (proj1 (list_elem_of_In _ _) He)). rewrite Hu in H. by apply negb_true_iff in H.
  - intros i f e Hf He. pose proof (lookup_forallb _ _ _ _ V Hf) as H. simpl in H. rewrite forallb_forall in H.
    specialize (H e (proj1 (list_elem_of_In _ _) He)). lia.
Qed.

(** The member 1 is linked, the library and the member 2 are not; the second copy of the
    group is killed and its symbol belongs to the first. *)
Lemma sample_resolved : (fun c => (objs c, dsos c, map sections (files c), map (fun s => (file (syms c !!! s), visibility (syms c !!! s))) [1; 2; 3; 4]))
  <$> do_resolve_symbols 1 [] sample
  = Some ([0; 1]%nat, [], [[None; Some true; Some true]; [None; Some true; Some false]; [None; Some true; Some true]; []],
          [(Some 0%nat, 0); (Some 1%nat, 0); (None, 0); (Some 0%nat, 2)]).
Proof. vm_compute. reflexivity. Qed.

Lemma sample_well_formed : well_formed_context sample.
Proof.
  destruct (check_distinct_ok (files sample)) as [W V]; [by vm_compute|]. split; [done|done|decided| | |].
  - intros g. change (objs sample ++ dsos sample) with (seq 0 (length (files sample))). rewrite elem_of_seq. lia.
  - done.
  - intros s. vm_compute. by eexists.
Qed.

Lemma do_resolve_symbols_exact_witness : exists prelim after, do_resolve_symbols 1 [3] sample = Some after /\
  resolved (files sample) 1 (objs sample ++ dsos sample) (syms sample) prelim /\
  let needed g := needed (files sample) prelim (marking_start (files sample) [3] prelim) g in
  (forall g, (g ∈ objs after <-> g ∈ objs sample /\ needed g) /\ (g ∈ dsos after <-> g ∈ dsos sample /\ needed g)) /\
  (forall i f, files sample !! i = Some f -> exists f' b, files after !! i = Some f' /\ same_file (with_alive b f) f' /\ (b = true <-> needed i) /\
    forall k, (duplicate (files sample) (objs after) i k -> sections f' !! k = kill <$> sections f !! k) /\
              (~ duplicate (files sample) (objs after) i k -> sections f' !! k = sections f !! k)) /\
  exists cleared, resolved (files after) 1 (objs after ++ dsos after) cleared (syms after) /\
    forall s, unclaimed (cleared !!! s) /\
      most_restrictive (files sample) s (concat (map (globals (files sample)) (objs after ++ dsos after)))
        (visibility (syms sample !!! s)) (visibility (cleared !!! s)).
Proof. apply (do_resolve_symbols_exact sample 1 [3]), sample_well_formed. Defined.

Definition sample_schedule : list (nat * nat) := [(1, 0); (0, 0); (2, 0); (0, 1); (1, 1); (0, 2)]%nat.

Lemma resolve_any_schedule_witness :
  let syms' := foldl (resolve_one (files sample) 1) (foldl (resolve_one (files sample) 1) (syms sample) sample_schedule) [(3, 0)]%nat in
  resolved (files sample) 1 (objs sample ++ dsos sample) (syms sample) syms' /\
  forall s, syms' !!! s = for_each_file (resolve_symbols (files sample) 1) sample !!! s.
Proof.
  pose proof sample_well_formed as [W _ D _ U _]. apply resolve_any_schedule; [done|done|done| |].
  - intros [|[|[|[|n]]]]; reflexivity.
  - intros [|[|[|[|n]]]]; reflexivity.
Defined.
