(* ===== verification/Got.v ===== *)
(** * The global offset table (src/elf/output-chunks.cc, src/elf/mold.h)

    [GotSection] gives every symbol that needs one a slot or a pair of slots of [.got],
    and writes their contents, relocations for the dynamic loader in [.rel.dyn], and the
    words that [.relr.dyn] lists. The specification is a dynamic loader that applies
    them; the theorem: after loading, every slot holds what the code that uses it
    expects, for every target. *)

From S2P Require Import Prelude Integers Enums ElfConst ElfTypes Glob Relr.
Local Open Scope list_scope.
Local Open Scope Z_scope.

(** ** Symbols and their addresses *)

(** [symbol_aux] of a symbol; -1 where the symbol has no entry. *)
Record SymbolAux := mkAux {
  got_idx : Z; gottp_idx : Z; tlsgd_idx : Z; tlsdesc_idx : Z; plt_idx : Z; pltgot_idx : Z; opd_idx : Z; dynsym_idx : Z }.
Definition no_aux : SymbolAux := mkAux (-1) (-1) (-1) (-1) (-1) (-1) (-1) (-1).

(** An input section: [is_alive], the address of its leader when it was folded into
    another, its name and its address. *)
Record InputSection := mkInputSection { isec_alive : bool; icf_leader : option Z; isec_name : bytes; isec_addr : Z }.

(** [Symbol::origin] with its tag. A fragment is [is_alive] and its address. *)
Inductive origin := TAG_ABS | TAG_ISEC (isec : option InputSection) | TAG_OSEC | TAG_FRAG (alive : bool) (addr : Z).

(** [file_is_dso] is [None] when the symbol belongs to no file. *)
Record Symbol := mkSymbol {
  sym_name : bytes; sym_origin : origin; value : Z; file_is_dso : option bool; st_type : Z; esym_is_abs : bool;
  is_imported : bool; is_exported : bool; has_copyrel : bool; is_copyrel_readonly : bool; aux : SymbolAux }.

(** What the addresses depend on, besides the target. *)
Record Context := mkContext {
  copyrel_addr : Z; copyrel_relro_addr : Z; plt_addr : Z; pltgot_addr : Z; opd_addr : Z; eh_frame : Z * Z;
  pic : bool; shared : bool; is_static : bool; pie : bool; pack_relr : bool; apply_dynamic_relocs : bool;
  dynamic_addr : option Z; tls_begin : Z; tp_addr : Z; dtp_addr : Z; tls_module_base : option Z }.

Section Got.
Context (m : machine) (ctx : Context).

Definition word_size : Z := if is_64 (target_of m) then 8 else 4.
Definition word (x : Z) : Z := wrap (8 * word_size) x.

Definition has_plt (sym : Symbol) : bool := negb (plt_idx (aux sym) =? -1) || negb (pltgot_idx (aux sym) =? -1).

(** [plt_size] is not a constant on PPC64V1. *)
Definition to_plt_offset (pltidx : Z) : Z :=
  let t := target_of m in
  match plt_size t with
  | None => if pltidx <? 32768 then plt_hdr_size t + pltidx * 8
            else plt_hdr_size t + 32768 * 8 + (pltidx - 32768) * 12
  | Some size => plt_hdr_size t + pltidx * size
  end.

Definition get_plt_addr (sym : Symbol) : Z :=
  if negb (plt_idx (aux sym) =? -1) then u64 (plt_addr ctx + to_plt_offset (plt_idx (aux sym)))
  else u64 (pltgot_addr ctx + pltgot_idx (aux sym) * pltgot_size (target_of m)).

(** [PPC64OpdSection::ENTRY_SIZE] *)
Definition OPD_ENTRY_SIZE : Z := 24.
Definition get_opd_addr (sym : Symbol) : Z := u64 (opd_addr ctx + opd_idx (aux sym) * OPD_ENTRY_SIZE).

(** The lambda [test] *)
Definition test_name (name : bytes) (pattern : string) : bool :=
  bool_decide (name = bs pattern) ||
  (starts_with name (bs pattern) && starts_with (drop (length (bs pattern)) name) (bs ".lto_priv.")).

Definition eh_frame_addr (sym : Symbol) : option Z :=
  let name := sym_name sym in
  if test_name name "__EH_FRAME_BEGIN__" || test_name name "__EH_FRAME_LIST__" || test_name name ".eh_frame_seg" ||
     (st_type sym =? constant STT "STT_SECTION") then Some (eh_frame ctx).1
  else if test_name name "__FRAME_END__" || test_name name "__EH_FRAME_LIST_END__"
  then Some (u64 ((eh_frame ctx).1 + (eh_frame ctx).2))
  else if bool_decide (name = bs "$d") || starts_with name (bs "$d.") then Some (eh_frame ctx).1
  else None.

(** [Symbol::get_addr]; [None] is the fatal error. *)
Definition get_addr (no_plt no_opd : bool) (sym : Symbol) : option Z :=
  match sym_origin sym with
  | TAG_FRAG alive addr => Some (if alive then u64 (addr + value sym) else 0)
  | _ =>
      if has_copyrel sym then Some (u64 ((if is_copyrel_readonly sym then copyrel_relro_addr ctx else copyrel_addr ctx) + value sym))
      else if bool_decide (m = PPC64V1) && negb no_opd && negb (opd_idx (aux sym) =? -1) then Some (get_opd_addr sym)
      else if negb no_plt && has_plt sym then Some (get_plt_addr sym)
      else match sym_origin sym with
           | TAG_ISEC (Some isec) =>
               if isec_alive isec then Some (u64 (isec_addr isec + value sym))
               else match icf_leader isec with
                    | Some addr => Some (u64 (addr + value sym))
                    | None => if bool_decide (isec_name isec = bs ".eh_frame") then eh_frame_addr sym else Some 0
                    end
           | _ => Some (value sym)
           end
  end.

Definition is_absolute (sym : Symbol) : bool :=
  if default false (file_is_dso sym) then esym_is_abs sym
  else negb (is_imported sym) && match sym_origin sym with TAG_ABS | TAG_ISEC None => true | _ => false end.
Definition is_relative (sym : Symbol) : bool := negb (is_absolute sym).

(** [get_type() == STT_GNU_IFUNC] *)
Definition is_ifunc (sym : Symbol) : bool :=
  (st_type sym =? constant STT "STT_GNU_IFUNC") && negb (default false (file_is_dso sym)).

(** ** The section *)

(** Symbols are identifiers; [dynsym] is what was passed to [DynsymSection::add_symbol]. *)
Record GotSection := mkGot {
  sh_addr : Z; sh_size : Z; got_syms : list Z; gottp_syms : list Z; tlsgd_syms : list Z; tlsdesc_syms : list Z;
  tlsld_idx : Z; symtab : gmap Z Symbol; dynsym : list Z }.

(** The constructor *)
Definition new_got (addr : Z) (syms : gmap Z Symbol) : GotSection :=
  mkGot addr ((if bool_decide (m = S390X) then 2 else 1) * word_size) [] [] [] [] UINT32_MAX syms [].

Definition set_aux (f : SymbolAux -> SymbolAux) (s : Z) (syms : gmap Z Symbol) : gmap Z Symbol :=
  alter (fun y => mkSymbol (sym_name y) (sym_origin y) (value y) (file_is_dso y) (st_type y) (esym_is_abs y) (is_imported y)
    (is_exported y) (has_copyrel y) (is_copyrel_readonly y) (f (aux y))) s syms.

Definition set_got_idx (i : Z) (a : SymbolAux) : SymbolAux :=
  mkAux i (gottp_idx a) (tlsgd_idx a) (tlsdesc_idx a) (plt_idx a) (pltgot_idx a) (opd_idx a) (dynsym_idx a).
Definition set_gottp_idx (i : Z) (a : SymbolAux) : SymbolAux :=
  mkAux (got_idx a) i (tlsgd_idx a) (tlsdesc_idx a) (plt_idx a) (pltgot_idx a) (opd_idx a) (dynsym_idx a).
Definition set_tlsgd_idx (i : Z) (a : SymbolAux) : SymbolAux :=
  mkAux (got_idx a) (gottp_idx a) i (tlsdesc_idx a) (plt_idx a) (pltgot_idx a) (opd_idx a) (dynsym_idx a).
Definition set_tlsdesc_idx (i : Z) (a : SymbolAux) : SymbolAux :=
  mkAux (got_idx a) (gottp_idx a) (tlsgd_idx a) i (plt_idx a) (pltgot_idx a) (opd_idx a) (dynsym_idx a).

Definition next_idx (got : GotSection) : Z := sh_size got / word_size.

Definition add_got_symbol (s : Z) (got : GotSection) : GotSection :=
  mkGot (sh_addr got) (sh_size got + word_size) (got_syms got ++ [s]) (gottp_syms got) (tlsgd_syms got) (tlsdesc_syms got)
    (tlsld_idx got) (set_aux (set_got_idx (i32 (next_idx got))) s (symtab got)) (dynsym got).
Definition add_gottp_symbol (s : Z) (got : GotSection) : GotSection :=
  mkGot (sh_addr got) (sh_size got + word_size) (got_syms got) (gottp_syms got ++ [s]) (tlsgd_syms got) (tlsdesc_syms got)
    (tlsld_idx got) (set_aux (set_gottp_idx (i32 (next_idx got))) s (symtab got)) (dynsym got).
Definition add_tlsgd_symbol (s : Z) (got : GotSection) : GotSection :=
  mkGot (sh_addr got) (sh_size got + word_size * 2) (got_syms got) (gottp_syms got) (tlsgd_syms got ++ [s]) (tlsdesc_syms got)
    (tlsld_idx got) (set_aux (set_tlsgd_idx (i32 (next_idx got))) s (symtab got)) (dynsym got).
Definition add_tlsdesc_symbol (s : Z) (got : GotSection) : GotSection :=
  mkGot (sh_addr got) (sh_size got + word_size * 2) (got_syms got) (gottp_syms got) (tlsgd_syms got) (tlsdesc_syms got ++ [s])
    (tlsld_idx got) (set_aux (set_tlsdesc_idx (i32 (next_idx got))) s (symtab got))
    (if bool_decide (Some s = tls_module_base ctx) then dynsym got else dynsym got ++ [s]).
Definition add_tlsld (got : GotSection) : GotSection :=
  if negb (tlsld_idx got =? UINT32_MAX) then got
  else mkGot (sh_addr got) (sh_size got + word_size * 2) (got_syms got) (gottp_syms got) (tlsgd_syms got) (tlsdesc_syms got)
    (u32 (next_idx got)) (symtab got) (dynsym got).

(** The addresses of slots. *)
Definition get_got_addr (got : GotSection) (a : SymbolAux) : Z := u64 (sh_addr got + got_idx a * word_size).
Definition get_gottp_addr (got : GotSection) (a : SymbolAux) : Z := u64 (sh_addr got + gottp_idx a * word_size).
Definition get_tlsgd_addr (got : GotSection) (a : SymbolAux) : Z := u64 (sh_addr got + tlsgd_idx a * word_size).
Definition get_tlsdesc_addr (got : GotSection) (a : SymbolAux) : Z := u64 (sh_addr got + tlsdesc_idx a * word_size).
Definition get_tlsld_addr (got : GotSection) : Z := u64 (sh_addr got + tlsld_idx got * word_size).

(** The part of [scan_relocations] that concerns [.got], for a symbol with its flags. *)
Definition NEEDS_GOT : Z := Z.shiftl 1 0.
Definition NEEDS_GOTTP : Z := Z.shiftl 1 3.
Definition NEEDS_TLSGD : Z := Z.shiftl 1 4.
Definition NEEDS_TLSDESC : Z := Z.shiftl 1 6.

Definition needs (flags bit : Z) : bool := negb (Z.land flags bit =? 0).
Definition add_symbol (got : GotSection) (p : Z * Z) : GotSection :=
  let '(s, flags) := p in
  let got := if needs flags NEEDS_GOT then add_got_symbol s got else got in
  let got := if needs flags NEEDS_GOTTP then add_gottp_symbol s got else got in
  let got := if needs flags NEEDS_TLSGD then add_tlsgd_symbol s got else got in
  if needs flags NEEDS_TLSDESC then add_tlsdesc_symbol s got else got.

Definition add_symbols (needs_tlsld : bool) (syms : list (Z * Z)) (got : GotSection) : GotSection :=
  let got := foldl add_symbol got syms in
  if needs_tlsld then add_tlsld got else got.

(** ** Its contents *)

Record GotEntry := mkEntry { idx : Z; val : Z; r_type : Z; ent_sym : option Z }.
Definition R_NONE : Z := 0.

Definition is_relr (e : GotEntry) : bool := (r_type e =? R_RELATIVE (target_of m)) && pack_relr ctx.

Section Entries.
Context (got : GotSection).

Definition got_symbol_entries (s : Z) : option (list GotEntry) :=
  sym ← symtab got !! s;
  let i := got_idx (aux sym) in
  if is_imported sym then Some [mkEntry i 0 (R_GLOB_DAT (target_of m)) (Some s)]
  else
    addr ← get_addr true false sym;
    match R_IRELATIVE (target_of m) with
    | Some t => if is_ifunc sym then Some [mkEntry i addr t None]
                else if pic ctx && is_relative sym then Some [mkEntry i addr (R_RELATIVE (target_of m)) None]
                else Some [mkEntry i addr R_NONE None]
    | None => if pic ctx && is_relative sym then Some [mkEntry i addr (R_RELATIVE (target_of m)) None]
              else Some [mkEntry i addr R_NONE None]
    end.

Definition tlsgd_symbol_entries (s : Z) : option (list GotEntry) :=
  sym ← symtab got !! s;
  let i := tlsgd_idx (aux sym) in
  let t := target_of m in
  if is_imported sym then Some [mkEntry i 0 (R_DTPMOD t) (Some s); mkEntry (i + 1) 0 (R_DTPOFF t) (Some s)]
  else
    addr ← get_addr false false sym;
    let off := mkEntry (i + 1) (u64 (addr - dtp_addr ctx)) R_NONE None in
    if shared ctx then Some [mkEntry i 0 (R_DTPMOD t) None; off] else Some [mkEntry i 1 R_NONE None; off].

Definition tlsdesc_symbol_entries (s : Z) : option (list GotEntry) :=
  sym ← symtab got !! s;
  t ← R_TLSDESC (target_of m);
  let i := tlsdesc_idx (aux sym) in
  Some [mkEntry i 0 t (if bool_decide (Some s = tls_module_base ctx) then None else Some s)].

Definition gottp_symbol_entries (s : Z) : option (list GotEntry) :=
  sym ← symtab got !! s;
  let i := gottp_idx (aux sym) in
  if is_imported sym then Some [mkEntry i 0 (R_TPOFF (target_of m)) (Some s)]
  else
    addr ← get_addr false false sym;
    if shared ctx then Some [mkEntry i (u64 (addr - tls_begin ctx)) (R_TPOFF (target_of m)) None]
    else Some [mkEntry i (u64 (addr - tp_addr ctx)) R_NONE None].

Definition tlsld_entries : list GotEntry :=
  if tlsld_idx got =? UINT32_MAX then []
  else if shared ctx then [mkEntry (tlsld_idx got) 0 (R_DTPMOD (target_of m)) None] else [mkEntry (tlsld_idx got) 1 R_NONE None].

Definition entries_of (f : Z -> option (list GotEntry)) (l : list Z) : option (list GotEntry) :=
  ls ← mapM f l; Some (concat ls).

Definition get_got_entries : option (list GotEntry) :=
  e1 ← entries_of got_symbol_entries (got_syms got);
  e2 ← entries_of tlsgd_symbol_entries (tlsgd_syms got);
  e3 ← (if supports_tlsdesc m then entries_of tlsdesc_symbol_entries (tlsdesc_syms got) else Some []);
  e4 ← entries_of gottp_symbol_entries (gottp_syms got);
  Some (e1 ++ e2 ++ e3 ++ e4 ++ tlsld_entries).

(** The entries that get a relocation of [.rel.dyn]. *)
Definition is_dynrel (e : GotEntry) : bool := negb (is_relr e || (r_type e =? R_NONE)).

Definition get_reldyn_size : option Z :=
  l ← get_got_entries; Some (foldl (fun n e => if is_dynrel e then n + 1 else n) 0 l).

Record ElfRel := mkElfRel { r_offset : Z; rel_type : Z; r_sym : Z; r_addend : Z }.

(** The fields as they are stored; REL targets have no addend. *)
Definition new_rel (offset type sym addend : Z) : ElfRel :=
  mkElfRel (word offset) type (u32 sym) (if is_rela (target_of m) then swrap (8 * word_size) addend else 0).

(** [buf[i] = x]; [None] outside of the section. *)
Definition store (buf : list Z) (i x : Z) : option (list Z) :=
  if (0 <=? i) && (i <? zlen buf) then Some (<[Z.to_nat i := word x]> buf) else None.

Definition reserved_slot (buf : list Z) : option (list Z) :=
  match dynamic_addr ctx with
  | Some d => if bool_decide (m = S390X) || (bool_decide (m = ARM64) && is_static ctx && pie ctx) then store buf 0 d else Some buf
  | None => Some buf
  end.

Definition sym_dynsym_idx (s : option Z) : Z :=
  match s ≫= (fun s => symtab got !! s) with Some sym => dynsym_idx (aux sym) | None => 0 end.

Definition write_entry (st : list Z * list ElfRel) (e : GotEntry) : option (list Z * list ElfRel) :=
  let '(buf, rel) := st in
  if is_dynrel e then
    let rel := rel ++ [new_rel (u64 (sh_addr got + idx e * word_size)) (r_type e) (sym_dynsym_idx (ent_sym e)) (val e)] in
    buf ← (if apply_dynamic_relocs ctx then store buf (idx e) (val e) else Some buf);
    Some (buf, rel)
  else
    buf ← store buf (idx e) (val e);
    Some (buf, rel).

Fixpoint write_entries (st : list Z * list ElfRel) (l : list GotEntry) : option (list Z * list ElfRel) :=
  match l with
  | [] => Some st
  | e :: l => st ← write_entry st e; write_entries st l
  end.

(** [copy_buf]: the words of [.got] and the relocations. *)
Definition copy_buf : option (list Z * list ElfRel) :=
  buf ← reserved_slot (replicate (Z.to_nat (sh_size got / word_size)) 0);
  l ← get_got_entries;
  write_entries (buf, []) l.

Definition got_construct_relr : option (list Z) :=
  l ← get_got_entries;
  encode_relr word_size (map (fun e => idx e * word_size) (List.filter is_relr l)).
End Entries.

(** ** Slots *)

(** What a slot or a pair of slots is for. *)
Inductive owner := OGot (s : Z) | OGottp (s : Z) | OTlsgd (s : Z) | OTlsdesc (s : Z) | OTlsld.

Definition owner_size (o : owner) : Z := match o with OGot _ | OGottp _ => 1 | _ => 2 end.

Definition sym_aux (got : GotSection) (s : Z) : SymbolAux :=
  match symtab got !! s with Some sym => aux sym | None => no_aux end.

Definition owner_idx (got : GotSection) (o : owner) : Z :=
  match o with
  | OGot s => got_idx (sym_aux got s) | OGottp s => gottp_idx (sym_aux got s) | OTlsgd s => tlsgd_idx (sym_aux got s)
  | OTlsdesc s => tlsdesc_idx (sym_aux got s) | OTlsld => tlsld_idx got
  end.

Definition has_tlsld (got : GotSection) : bool := negb (tlsld_idx got =? UINT32_MAX).

(** In the order of [get_got_entries]. *)
Definition owners (got : GotSection) : list owner :=
  map OGot (got_syms got) ++ map OTlsgd (tlsgd_syms got) ++ map OTlsdesc (tlsdesc_syms got) ++
  map OGottp (gottp_syms got) ++ (if has_tlsld got then [OTlsld] else []).

Definition owner_slots (got : GotSection) (o : owner) : list Z := seqZ (owner_idx got o) (owner_size o).

Definition first_slot : Z := if bool_decide (m = S390X) then 2 else 1.

(** The slots of the owners, in the order in which they were added, are all slots but the
    reserved ones. *)
Record allocated (n : Z) (got : GotSection) : Prop := {
  al_size : sh_size got = word_size * n;
  al_pos : first_slot <= n;
  al_slots : exists os, os ≡ₚ owners got /\ concat (map (owner_slots got) os) = seqZ first_slot (n - first_slot);
  al_nodup : NoDup (owners got);
  al_ascending : ascending (map (fun s => got_idx (sym_aux got s)) (got_syms got)) }.

Lemma word_size_cases : word_size = 8 \/ word_size = 4.
Proof. unfold word_size. destruct (is_64 _); tauto. Qed.

Lemma next_idx_spec n got : allocated n got -> next_idx got = n.
Proof. intros H. unfold next_idx. rewrite (al_size n got H). rewrite Z.mul_comm. apply Z.div_mul. pose proof word_size_cases. lia. Qed.

Lemma ascending_snoc l x : ascending l -> (forall y, y ∈ l -> y < x) -> ascending (l ++ [x]).
Proof.
  induction 1 as [|z l Hl IH Hz]; intros H; simpl; [repeat constructor|]. constructor.
  - apply IH. intros y Hy. apply H. by constructor.
  - apply Forall_app. split; [done|]. constructor; [apply H; constructor|constructor].
Qed.

Lemma owners_elem got o : o ∈ owners got <-> match o with
  | OGot s => s ∈ got_syms got | OGottp s => s ∈ gottp_syms got | OTlsgd s => s ∈ tlsgd_syms got
  | OTlsdesc s => s ∈ tlsdesc_syms got | OTlsld => has_tlsld got = true end.
Proof.
  unfold owners. rewrite !elem_of_app, !list_elem_of_fmap. destruct o, (has_tlsld got);
    rewrite ?list_elem_of_singleton, ?elem_of_nil; naive_solver.
Qed.

(** All slots of an owner are allocated. *)
Lemma owner_slots_bound n got o i : allocated n got -> o ∈ owners got -> i ∈ owner_slots got o -> first_slot <= i < n.
Proof.
  intros [_ _ (os & Hp & Hs) _ _] Ho Hi. assert (H : i ∈ seqZ first_slot (n - first_slot)); [|apply elem_of_seqZ in H; lia].
  rewrite <- Hs. apply list_elem_of_In, in_concat. exists (owner_slots got o). split; [|by apply list_elem_of_In].
  apply in_map, list_elem_of_In. by rewrite Hp.
Qed.

Lemma owner_idx_slot got o : owner_idx got o ∈ owner_slots got o.
Proof. unfold owner_slots. apply elem_of_seqZ. destruct o; simpl; lia. Qed.

Lemma allocated_add n got got' o : allocated n got -> o ∉ owners got -> owners got' ≡ₚ o :: owners got ->
  got_syms got' = got_syms got ++ match o with OGot s => [s] | _ => [] end ->
  sh_size got' = sh_size got + word_size * owner_size o -> owner_idx got' o = n ->
  (forall o', o' ∈ owners got -> owner_idx got' o' = owner_idx got o') -> allocated (n + owner_size o) got'.
Proof.
  intros A Ho Hown Hsyms Hsize Hidx Hsame. pose proof A as [S P (os & Hp & Hs) D Asc]. assert (0 < owner_size o) by (by destruct o).
  split; [lia|lia| |rewrite Hown; by constructor|].
  - exists (os ++ [o]). split; [rewrite Hown, Hp, Permutation_app_comm; done|].
    rewrite map_app, concat_app. cbn [map concat]. rewrite app_nil_r.
    assert (map (owner_slots got') os = map (owner_slots got) os) as ->.
    { apply map_ext_in. intros o' Ho'. unfold owner_slots. f_equal. apply Hsame. rewrite <- Hp. by apply list_elem_of_In. }
    rewrite Hs. unfold owner_slots. rewrite Hidx. replace (n + owner_size o - first_slot) with ((n - first_slot) + owner_size o) by lia.
    rewrite seqZ_app by lia. do 2 f_equal. lia.
  - rewrite Hsyms, map_app. assert (map (fun s => got_idx (sym_aux got' s)) (got_syms got) = map (fun s => got_idx (sym_aux got s)) (got_syms got)) as ->.
    { apply map_ext_in. intros s Hin. apply (Hsame (OGot s)). apply owners_elem. by apply list_elem_of_In. }
    destruct o as [s|s|s|s|]; cbn [map]; rewrite ?app_nil_r; try done. apply ascending_snoc; [done|]. simpl in Hidx. rewrite Hidx.
    intros y (z & -> & Hz)%list_elem_of_fmap. apply (owner_slots_bound n got (OGot z)); [done|by apply owners_elem|apply (owner_idx_slot got (OGot z))].
Qed.

Lemma aux_set (f : SymbolAux -> SymbolAux) s z syms :
  match set_aux f s syms !! z with Some sym => aux sym | None => no_aux end =
  if decide (s = z) then match syms !! z with Some sym => f (aux sym) | None => no_aux end
  else match syms !! z with Some sym => aux sym | None => no_aux end.
Proof.
  unfold set_aux. destruct (decide (s = z)) as [->|H]; [rewrite lookup_alter_eq|by rewrite lookup_alter_ne].
  by destruct (syms !! z).
Qed.

(** The aux fields of a symbol that a request leaves alone, and the symbols it leaves alone. *)
Ltac same_owners :=
  intros o' Ho'; rewrite owners_elem in Ho'; destruct o'; simpl; unfold sym_aux; simpl; rewrite ?aux_set; try done;
  match goal with |- context [decide (?x = ?y)] => destruct (decide (x = y)) as [->|]; [|done] end;
  by destruct (symtab _ !! _).

Lemma first_slot_pos : 0 < first_slot.
Proof. unfold first_slot. case_match; lia. Qed.

Lemma i32_idx n : 0 <= n < 2 ^ 31 -> i32 n = n.
Proof. intros H. unfold i32. apply swrap_small; [lia|]. split; [change (- 2 ^ (32 - 1)) with (- 2147483648)|change (2 ^ (32 - 1)) with (2 ^ 31)]; lia. Qed.

(** Both sides of the permutation of owners, for a request that appends to one list. *)
Ltac new_owner := unfold owners, has_tlsld; simpl; rewrite map_app; simpl; rewrite <- ?app_assoc; simpl;
  rewrite <- ?Permutation_middle; done.
Ltac new_idx A Hsym := simpl; unfold sym_aux; simpl; rewrite aux_set, decide_True, Hsym by done; simpl;
  rewrite (next_idx_spec _ _ A); apply i32_idx; pose proof (al_pos _ _ A); pose proof first_slot_pos; lia.

Lemma add_got_allocated n got s : allocated n got -> s ∉ got_syms got -> is_Some (symtab got !! s) -> n < 2 ^ 31 ->
  allocated (n + 1) (add_got_symbol s got).
Proof.
  intros A Hs [sym Hsym] Hn.
  apply (allocated_add n got _ (OGot s) A); [by rewrite owners_elem|new_owner|by rewrite ?app_nil_r|simpl; lia|new_idx A Hsym|same_owners].
Qed.

Lemma add_gottp_allocated n got s : allocated n got -> s ∉ gottp_syms got -> is_Some (symtab got !! s) -> n < 2 ^ 31 ->
  allocated (n + 1) (add_gottp_symbol s got).
Proof.
  intros A Hs [sym Hsym] Hn.
  apply (allocated_add n got _ (OGottp s) A); [by rewrite owners_elem|new_owner|by rewrite ?app_nil_r|simpl; lia|new_idx A Hsym|same_owners].
Qed.

Lemma add_tlsgd_allocated n got s : allocated n got -> s ∉ tlsgd_syms got -> is_Some (symtab got !! s) -> n < 2 ^ 31 ->
  allocated (n + 2) (add_tlsgd_symbol s got).
Proof.
  intros A Hs [sym Hsym] Hn.
  apply (allocated_add n got _ (OTlsgd s) A); [by rewrite owners_elem|new_owner|by rewrite ?app_nil_r|simpl; lia|new_idx A Hsym|same_owners].
Qed.

Lemma add_tlsdesc_allocated n got s : allocated n got -> s ∉ tlsdesc_syms got -> is_Some (symtab got !! s) -> n < 2 ^ 31 ->
  allocated (n + 2) (add_tlsdesc_symbol s got).
Proof.
  intros A Hs [sym Hsym] Hn.
  apply (allocated_add n got _ (OTlsdesc s) A); [by rewrite owners_elem|new_owner|by rewrite ?app_nil_r|simpl; lia|new_idx A Hsym|same_owners].
Qed.

Lemma add_tlsld_allocated n got : allocated n got -> n < 2 ^ 31 -> exists n', n <= n' <= n + 2 /\ allocated n' (add_tlsld got).
Proof.
  intros A Hn. unfold add_tlsld. destruct (tlsld_idx got =? UINT32_MAX) eqn:E; simpl; [|exists n; split; [lia|done]].
  assert (Hnext : u32 (next_idx got) = n).
  { rewrite (next_idx_spec n got A). apply wrap_small. pose proof (al_pos _ _ A). pose proof first_slot_pos.
    split; [lia|]. change (2 ^ 32) with (2 ^ 31 * 2). lia. }
  assert (Hno : (n =? UINT32_MAX) = false) by (apply Z.eqb_neq; assert (UINT32_MAX = 4294967295) by done; change (2 ^ 31) with 2147483648 in Hn; lia).
  exists (n + 2). split; [lia|]. apply (allocated_add n got _ OTlsld A).
  - rewrite owners_elem. unfold has_tlsld. by rewrite E.
  - unfold owners, has_tlsld. cbn [got_syms gottp_syms tlsgd_syms tlsdesc_syms tlsld_idx]. rewrite Hnext, Hno, E. simpl.
    rewrite app_nil_r, !app_assoc, <- Permutation_middle, app_nil_r. done.
  - by rewrite app_nil_r.
  - simpl. lia.
  - done.
  - intros o' Ho'. rewrite owners_elem in Ho'. destruct o'; try done. unfold has_tlsld in Ho'. by rewrite E in Ho'.
Qed.

Lemma new_got_allocated addr syms : allocated first_slot (new_got addr syms).
Proof.
  split; [|lia| | |].
  - unfold new_got, first_slot. simpl. case_match; lia.
  - exists []. split; [done|]. by rewrite Z.sub_diag.
  - constructor.
  - constructor.
Qed.

(** ** Allocation of all slots *)

Definition listed (got : GotSection) (s : Z) : Prop :=
  s ∈ got_syms got \/ s ∈ gottp_syms got \/ s ∈ tlsgd_syms got \/ s ∈ tlsdesc_syms got.

(** A request for [s]: at most two slots more, and only [s] may become listed. *)
Definition extends (k : Z) (s : Z) (n : Z) (got got' : GotSection) : Prop :=
  (exists n', n <= n' <= n + k /\ allocated n' got') /\ sh_addr got' = sh_addr got /\
  (forall z, listed got' z -> listed got z \/ z = s) /\ (forall z, is_Some (symtab got' !! z) <-> is_Some (symtab got !! z)).

Lemma set_aux_some f s syms z : is_Some (set_aux f s syms !! z) <-> is_Some (syms !! z).
Proof. unfold set_aux. destruct (decide (s = z)) as [->|]; [rewrite lookup_alter_eq; apply fmap_is_Some|by rewrite lookup_alter_ne]. Qed.

Ltac one_request L := split; [eexists; split; [|by apply L]; lia|]; split; [done|]; split;
  [intros z; unfold listed; simpl; rewrite elem_of_app, list_elem_of_singleton; tauto|intros z; simpl; apply set_aux_some].

Lemma extends_skip k s n got : 0 <= k -> allocated n got -> extends k s n got got.
Proof. intros Hk A. split; [exists n; split; [lia|done]|]. split; [done|]. split; [by left|done]. Qed.

Lemma request_extends (b : bool) f k s n got : 0 <= k -> allocated n got -> extends k s n got (f got) ->
  extends k s n got (if b then f got else got).
Proof. intros Hk A H. destruct b; [done|by apply extends_skip]. Qed.

Lemma extends_then k1 k2 s n got got1 got2 : extends k1 s n got got1 ->
  (forall n1, n <= n1 <= n + k1 -> allocated n1 got1 -> extends k2 s n1 got1 got2) -> extends (k1 + k2) s n got got2.
Proof.
  intros ((n1 & Hn1 & A1) & E1 & L1 & S1) H. destruct (H n1 Hn1 A1) as ((n2 & Hn2 & A2) & E2 & L2 & S2).
  split; [exists n2; split; [lia|done]|]. split; [congruence|]. split.
  - intros z Hz. destruct (L2 z Hz) as [Hz'|?]; [by apply L1|by right].
  - intros z. by rewrite S2.
Qed.

Lemma request_got b n got s : allocated n got -> s ∉ got_syms got -> is_Some (symtab got !! s) -> n < 2 ^ 31 ->
  extends 1 s n got (if b : bool then add_got_symbol s got else got).
Proof. intros A N S H. apply (request_extends b (add_got_symbol s)); [lia|done|one_request add_got_allocated]. Qed.
Lemma request_gottp b n got s : allocated n got -> s ∉ gottp_syms got -> is_Some (symtab got !! s) -> n < 2 ^ 31 ->
  extends 1 s n got (if b : bool then add_gottp_symbol s got else got).
Proof. intros A N S H. apply (request_extends b (add_gottp_symbol s)); [lia|done|one_request add_gottp_allocated]. Qed.
Lemma request_tlsgd b n got s : allocated n got -> s ∉ tlsgd_syms got -> is_Some (symtab got !! s) -> n < 2 ^ 31 ->
  extends 2 s n got (if b : bool then add_tlsgd_symbol s got else got).
Proof. intros A N S H. apply (request_extends b (add_tlsgd_symbol s)); [lia|done|one_request add_tlsgd_allocated]. Qed.
Lemma request_tlsdesc b n got s : allocated n got -> s ∉ tlsdesc_syms got -> is_Some (symtab got !! s) -> n < 2 ^ 31 ->
  extends 2 s n got (if b : bool then add_tlsdesc_symbol s got else got).
Proof. intros A N S H. apply (request_extends b (add_tlsdesc_symbol s)); [lia|done|one_request add_tlsdesc_allocated]. Qed.

Lemma add_symbol_extends s flags n got : allocated n got -> ~ listed got s -> is_Some (symtab got !! s) -> n + 6 < 2 ^ 31 ->
  extends 6 s n got (add_symbol got (s, flags)).
Proof.
  intros A L S Hn. unfold add_symbol, listed in *. replace 6 with (1 + (1 + (2 + 2))) by lia.
  pose proof (request_got (needs flags NEEDS_GOT) n got s A ltac:(tauto) S ltac:(lia)) as E1.
  assert (S1 := proj2 (proj2 (proj2 (proj2 E1)) s) S). eapply extends_then; [exact E1|]. intros n1 H1 A1.
  assert (M : (s ∉ gottp_syms (if needs flags NEEDS_GOT then add_got_symbol s got else got)) /\
    (s ∉ tlsgd_syms (if needs flags NEEDS_GOT then add_got_symbol s got else got)) /\
    (s ∉ tlsdesc_syms (if needs flags NEEDS_GOT then add_got_symbol s got else got))) by (destruct (needs flags NEEDS_GOT); simpl; tauto).
  revert S1 A1 M. generalize (if needs flags NEEDS_GOT then add_got_symbol s got else got) as g1. intros g1 S1 A1 (M1 & M2 & M3).
  pose proof (request_gottp (needs flags NEEDS_GOTTP) n1 g1 s A1 M1 S1 ltac:(lia)) as E2.
  assert (S2 := proj2 (proj2 (proj2 (proj2 E2)) s) S1). eapply extends_then; [exact E2|]. intros n2 H2 A2.
  assert (N : (s ∉ tlsgd_syms (if needs flags NEEDS_GOTTP then add_gottp_symbol s g1 else g1)) /\
    (s ∉ tlsdesc_syms (if needs flags NEEDS_GOTTP then add_gottp_symbol s g1 else g1))) by (destruct (needs flags NEEDS_GOTTP); simpl; tauto).
  revert S2 A2 N. generalize (if needs flags NEEDS_GOTTP then add_gottp_symbol s g1 else g1) as g2. intros g2 S2 A2 (N2 & N3).
  pose proof (request_tlsgd (needs flags NEEDS_TLSGD) n2 g2 s A2 N2 S2 ltac:(lia)) as E3.
  assert (S3 := proj2 (proj2 (proj2 (proj2 E3)) s) S2). eapply extends_then; [exact E3|]. intros n3 H3 A3.
  apply request_tlsdesc; [done|by destruct (needs flags NEEDS_TLSGD)|done|lia].
Qed.

Lemma add_symbols_fold syms n got : allocated n got -> NoDup (map fst syms) ->
  (forall s, s ∈ map fst syms -> ~ listed got s /\ is_Some (symtab got !! s)) -> n + 6 * zlen syms < 2 ^ 31 ->
  let got' := foldl add_symbol got syms in
  (exists n', n <= n' <= n + 6 * zlen syms /\ allocated n' got') /\ sh_addr got' = sh_addr got /\
  (forall z, listed got' z -> listed got z \/ z ∈ map fst syms) /\ (forall z, is_Some (symtab got' !! z) <-> is_Some (symtab got !! z)).
Proof.
  revert n got. induction syms as [|[s flags] syms IH]; intros n got A D H Hn.
  - split; [exists n; split; [unfold zlen; simpl; lia|done]|]. split; [done|]. split; [by left|done].
  - cbn [map fst] in *. apply NoDup_cons in D as [Hs D]. assert (Hl : zlen ((s, flags) :: syms) = 1 + zlen syms) by (unfold zlen; simpl; lia).
    assert (0 <= zlen syms) by (unfold zlen; lia).
    destruct (H s ltac:(constructor)) as [L S].
    destruct (add_symbol_extends s flags n got A L S ltac:(lia)) as ((n1 & Hn1 & A1) & E1 & L1 & S1). cbn [foldl].
    edestruct (IH n1 (add_symbol got (s, flags))) as ((n2 & Hn2 & A2) & E2 & L2 & S2); [done|done| |lia|].
    + intros z Hz. split; [|apply S1, H; by constructor]. intros Hl'. apply L1 in Hl' as [Hl'| ->]; [|done].
      by apply (H z) in Hl'; [|constructor].
    + split; [exists n2; split; [lia|done]|]. split; [congruence|]. split.
      * intros z Hz. apply L2 in Hz as [Hz|Hz]; [apply L1 in Hz as [Hz| ->]; [by left|right; constructor]|right; by constructor].
      * intros z. by rewrite S2.
Qed.

Lemma add_symbols_allocated addr syms0 syms tlsld : NoDup (map fst syms) -> (forall s, s ∈ map fst syms -> is_Some (syms0 !! s)) ->
  6 * zlen syms + 4 < 2 ^ 31 ->
  let got := add_symbols tlsld syms (new_got addr syms0) in
  (exists n, n <= 4 + 6 * zlen syms /\ allocated n got) /\ sh_addr got = addr /\ (forall z, listed got z -> z ∈ map fst syms) /\
  (forall z, is_Some (symtab got !! z) <-> is_Some (syms0 !! z)).
Proof.
  intros D S Hn. assert (first_slot <= 2) by (unfold first_slot; case_match; lia).
  destruct (add_symbols_fold syms first_slot (new_got addr syms0) (new_got_allocated addr syms0) D) as ((n & Hb & A) & E & L & Y).
  - intros s Hs. split; [|by apply S]. unfold listed. simpl. rewrite !elem_of_nil. tauto.
  - lia.
  - cbv zeta. unfold add_symbols. assert (Hl : forall z, listed (foldl add_symbol (new_got addr syms0) syms) z -> z ∈ map fst syms).
    { intros z Hz. apply L in Hz as [Hz|]; [|done]. unfold listed in Hz. simpl in Hz. rewrite !elem_of_nil in Hz. tauto. }
    destruct tlsld; [|split; [exists n; split; [lia|done]|done]].
    destruct (add_tlsld_allocated n _ A ltac:(lia)) as (n' & Hn' & A'). split; [exists n'; split; [lia|done]|].
    unfold add_tlsld. destruct (negb _); [done|]. split; [done|]. split; [|done]. intros z Hz. by apply Hl.
Qed.

(** ** The dynamic loader *)

(** What the relocation types of a target mean. *)
Inductive kind := KNone | KRelative | KGlobDat | KDtpmod | KDtpoff | KTpoff | KIrelative | KTlsdesc.

Definition kind_of (t : Z) : option kind :=
  let g := target_of m in
  if t =? R_NONE then Some KNone else if t =? R_RELATIVE g then Some KRelative else if t =? R_GLOB_DAT g then Some KGlobDat
  else if t =? R_DTPMOD g then Some KDtpmod else if t =? R_DTPOFF g then Some KDtpoff else if t =? R_TPOFF g then Some KTpoff
  else if bool_decide (Some t = R_IRELATIVE g) then Some KIrelative
  else if bool_decide (Some t = R_TLSDESC g) then Some KTlsdesc else if t =? R_ABS g then Some KGlobDat else None.

Lemma kind_abs : kind_of (R_ABS (target_of m)) = Some KGlobDat.
Proof. unfold kind_of. destruct m; vm_compute; reflexivity. Qed.

Lemma kinds : let g := target_of m in kind_of R_NONE = Some KNone /\ kind_of (R_RELATIVE g) = Some KRelative /\
  kind_of (R_GLOB_DAT g) = Some KGlobDat /\ kind_of (R_DTPMOD g) = Some KDtpmod /\ kind_of (R_DTPOFF g) = Some KDtpoff /\
  kind_of (R_TPOFF g) = Some KTpoff /\ (forall t, R_IRELATIVE g = Some t -> kind_of t = Some KIrelative) /\
  (forall t, R_TLSDESC g = Some t -> kind_of t = Some KTlsdesc).
Proof. unfold kind_of. destruct m; vm_compute; repeat match goal with |- _ /\ _ => split end; try reflexivity; intros t H; by inversion H. Qed.

(** A process: the load bias; what the loader finds for a dynamic symbol, 0 standing for
    the file itself: addresses, TLS modules and offsets; and the resolvers of IFUNCs. *)
Record runtime := mkRuntime {
  base : Z; sym_value : Z -> Z; resolver : Z -> Z; module_id : Z -> Z; dtp_offset : Z -> Z; tp_offset : Z -> Z;
  tls_descriptor : Z -> Z -> Z * Z }.

Definition memory : Type := Z -> Z.
Definition upd (mem : memory) (a v : Z) : memory := fun x => if decide (x = a) then v else mem x.

Section Loader.
Context (rt : runtime).

Definition rel_addend (mem : memory) (r : ElfRel) : Z := if is_rela (target_of m) then r_addend r else mem (r_offset r).

Definition apply_rel (mem : memory) (r : ElfRel) : memory :=
  let a := rel_addend mem r in
  match kind_of (rel_type r) with
  | Some KRelative => upd mem (r_offset r) (word (base rt + a))
  | Some KGlobDat => upd mem (r_offset r) (word (sym_value rt (r_sym r) + a))
  | Some KDtpmod => upd mem (r_offset r) (word (module_id rt (r_sym r)))
  | Some KDtpoff => upd mem (r_offset r) (word (dtp_offset rt (r_sym r) + a))
  | Some KTpoff => upd mem (r_offset r) (word (tp_offset rt (r_sym r) + a))
  | Some KIrelative => upd mem (r_offset r) (word (resolver rt (word (base rt + a))))
  | Some KTlsdesc =>
      let '(f, x) := tls_descriptor rt (r_sym r) a in
      upd (upd mem (r_offset r) (word f)) (r_offset r + word_size) (word x)
  | Some KNone | None => mem
  end.

Definition apply_relr (mem : memory) (a : Z) : memory := upd mem a (word (base rt + mem a)).

(** The words of [.relr.dyn] are applied first. *)
Definition load (mem : memory) (relr : list Z) (rels : list ElfRel) : memory :=
  foldl apply_rel (foldl apply_relr mem (decode word_size 0 relr)) rels.

(** ** What the slots should hold *)

Definition dynsym_of (sym : Symbol) : Z := u32 (dynsym_idx (aux sym)).

Definition expect_got (sym : Symbol) (addr : Z) : Z :=
  if is_imported sym then word (sym_value rt (dynsym_of sym))
  else if supports_ifunc m && is_ifunc sym then word (resolver rt (word (base rt + addr)))
  else if is_relative sym then word (base rt + addr) else word addr.

Definition expect_tlsgd (sym : Symbol) (addr : Z) : Z * Z :=
  if is_imported sym then (word (module_id rt (dynsym_of sym)), word (dtp_offset rt (dynsym_of sym)))
  else (word (module_id rt 0), word (addr - dtp_addr ctx)).

Definition expect_gottp (sym : Symbol) (addr : Z) : Z :=
  if is_imported sym then word (tp_offset rt (dynsym_of sym)) else word (tp_offset rt 0 + (addr - tls_begin ctx)).

Definition expect_tlsdesc (s : Z) (sym : Symbol) : Z * Z :=
  let '(f, x) := tls_descriptor rt (if bool_decide (Some s = tls_module_base ctx) then 0 else dynsym_of sym) 0 in (word f, word x).

(** The words of an owner: [w] for one slot, [w] and [w'] for two. *)
Definition slot_addr (got : GotSection) (i : Z) : Z := sh_addr got + i * word_size.

Definition values (got : GotSection) (w : Z -> Z) (o : owner) : Prop :=
  match o with
  | OGot s => forall sym addr, symtab got !! s = Some sym -> (is_imported sym = false -> get_addr true false sym = Some addr) ->
      w 0 = expect_got sym addr
  | OTlsgd s => forall sym addr, symtab got !! s = Some sym -> (is_imported sym = false -> get_addr false false sym = Some addr) ->
      (w 0, w 1) = expect_tlsgd sym addr
  | OGottp s => forall sym addr, symtab got !! s = Some sym -> (is_imported sym = false -> get_addr false false sym = Some addr) ->
      w 0 = expect_gottp sym addr
  | OTlsdesc s => forall sym, symtab got !! s = Some sym -> (w 0, w 1) = expect_tlsdesc s sym
  | OTlsld => (w 0, w 1) = (word (module_id rt 0), 0)
  end.

Definition holds_slots (got : GotSection) (mem : memory) (o : owner) : Prop :=
  values got (fun k => mem (slot_addr got (owner_idx got o + k))) o.

(** The code finds its words through the [get_..._addr] functions. *)
Definition owner_addr (got : GotSection) (o : owner) : Z :=
  match o with
  | OGot s => get_got_addr got (sym_aux got s) | OGottp s => get_gottp_addr got (sym_aux got s)
  | OTlsgd s => get_tlsgd_addr got (sym_aux got s) | OTlsdesc s => get_tlsdesc_addr got (sym_aux got s)
  | OTlsld => get_tlsld_addr got
  end.

Definition holds (got : GotSection) (mem : memory) (o : owner) : Prop :=
  values got (fun k => mem (owner_addr got o + k * word_size)) o.

(** ** Entries and their slots *)

Definition entry_width (e : GotEntry) : Z := match kind_of (r_type e) with Some KTlsdesc => 2 | _ => 1 end.
Definition entry_slots (e : GotEntry) : list Z := seqZ (idx e) (entry_width e).

Definition owner_entries (got : GotSection) (o : owner) : option (list GotEntry) :=
  match o with
  | OGot s => got_symbol_entries got s | OTlsgd s => tlsgd_symbol_entries got s
  | OTlsdesc s => tlsdesc_symbol_entries got s | OGottp s => gottp_symbol_entries got s
  | OTlsld => Some (tlsld_entries got)
  end.

(** The relocation that an entry gets. *)
Definition entry_rel (got : GotSection) (e : GotEntry) : ElfRel :=
  new_rel (u64 (sh_addr got + idx e * word_size)) (r_type e) (sym_dynsym_idx got (ent_sym e)) (val e).

Lemma mapM_concat {A B} (f g : A -> option (list B)) (l : list A) (ls : list (list B)) :
  mapM f l = Some ls -> (forall x, f x = g x) -> Forall2 (fun x es => g x = Some es) l ls.
Proof. intros H E. apply mapM_Some in H. eapply Forall2_impl; [exact H|]. intros x es Hx. by rewrite <- E. Qed.

(** The entries are those of the owners, in order. *)
Lemma entries_of_owners got l : (supports_tlsdesc m = false -> tlsdesc_syms got = []) -> get_got_entries got = Some l ->
  exists ls, Forall2 (fun o es => owner_entries got o = Some es) (owners got) ls /\ l = concat ls.
Proof.
  intros Ht H. unfold get_got_entries in H. apply bind_Some in H as (e1 & H1 & H). apply bind_Some in H as (e2 & H2 & H).
  apply bind_Some in H as (e3 & H3 & H). apply bind_Some in H as (e4 & H4 & [= <-]).
  assert (G : forall f (c : Z -> owner) q e, entries_of f q = Some e -> (forall s, f s = owner_entries got (c s)) ->
    exists ls, Forall2 (fun o es => owner_entries got o = Some es) (map c q) ls /\ e = concat ls).
  { intros f c q e (ls & Hls & [= <-])%bind_Some Hf. exists ls. split; [|done]. apply Forall2_fmap_l.
    eapply mapM_concat; [exact Hls|done]. }
  destruct (G _ OGot _ _ H1) as (l1 & F1 & ->); [done|]. destruct (G _ OTlsgd _ _ H2) as (l2 & F2 & ->); [done|].
  assert (exists l3, Forall2 (fun o es => owner_entries got o = Some es) (map OTlsdesc (tlsdesc_syms got)) l3 /\ e3 = concat l3)
    as (l3 & F3 & ->).
  { destruct (supports_tlsdesc m); [by apply (G _ OTlsdesc _ _ H3)|]. injection H3 as <-. rewrite Ht by done. exists []. by split. }
  destruct (G _ OGottp _ _ H4) as (l4 & F4 & ->); [done|].
  exists (l1 ++ l2 ++ l3 ++ l4 ++ (if has_tlsld got then [tlsld_entries got] else [])). split.
  - unfold owners. repeat apply Forall2_app; try done. destruct (has_tlsld got); repeat constructor.
  - rewrite !concat_app. unfold tlsld_entries, has_tlsld. destruct (tlsld_idx got =? UINT32_MAX); simpl; [done|]. by rewrite app_nil_r.
Qed.

Lemma kind_width t k : kind_of t = Some k -> forall i v s, entry_slots (mkEntry i v t s) = seqZ i (match k with KTlsdesc => 2 | _ => 1 end).
Proof. intros H i v s. unfold entry_slots, entry_width. cbn [r_type idx]. by rewrite H. Qed.

Lemma seqZ_one i : seqZ i 1 = [i].
Proof. done. Qed.
Lemma seqZ_two i : seqZ i 2 = [i; i + 1].
Proof. by rewrite (Z.add_comm i). Qed.

(** The slots that an owner's entries write: all but the second one for local-dynamic TLS. *)
Definition written_slots (got : GotSection) (o : owner) : list Z :=
  match o with OTlsld => [tlsld_idx got] | _ => owner_slots got o end.

Lemma owner_entries_slots got o es : owner_entries got o = Some es -> o ∈ owners got ->
  concat (map entry_slots es) = written_slots got o.
Proof.
  destruct kinds as (K0 & K1 & K2 & K3 & K4 & K5 & K6 & K7). unfold written_slots, owner_slots. intros H Ho.
  destruct o as [s|s|s|s|]; simpl in *; unfold sym_aux.
  - unfold got_symbol_entries in H. apply bind_Some in H as (sym & -> & H). destruct (is_imported sym).
    + injection H as <-. cbn [map concat app]. by rewrite (kind_width _ _ K2), app_nil_r.
    + apply bind_Some in H as (addr & _ & H). assert (exists v t k y, es = [mkEntry (got_idx (aux sym)) v t y] /\ kind_of t = Some k /\ k <> KTlsdesc) as (v & t & k & y & -> & Hk & Hn).
      { destruct (R_IRELATIVE (target_of m)) as [t|] eqn:E; [specialize (K6 t eq_refl)|]; repeat case_match; simplify_eq;
          eexists _, _, _, _; (split; [reflexivity|split; [eassumption|done]]). }
      cbn [map concat app]. rewrite (kind_width _ _ Hk), app_nil_r. by destruct k.
  - unfold gottp_symbol_entries in H. apply bind_Some in H as (sym & -> & H). destruct (is_imported sym).
    + injection H as <-. cbn [map concat app]. by rewrite (kind_width _ _ K5), app_nil_r.
    + apply bind_Some in H as (addr & _ & H). destruct (shared ctx); injection H as <-; cbn [map concat app]; [by rewrite (kind_width _ _ K5), app_nil_r|by rewrite (kind_width _ _ K0), app_nil_r].
  - unfold tlsgd_symbol_entries in H. apply bind_Some in H as (sym & -> & H). rewrite seqZ_two. destruct (is_imported sym).
    + injection H as <-. cbn [map concat app]. by rewrite (kind_width _ _ K3), (kind_width _ _ K4), !seqZ_one.
    + apply bind_Some in H as (addr & _ & H). destruct (shared ctx); injection H as <-; cbn [map concat app];
        rewrite ?(kind_width _ _ K3), !(kind_width _ _ K0), !seqZ_one; done.
  - unfold tlsdesc_symbol_entries in H. apply bind_Some in H as (sym & -> & H). apply bind_Some in H as (t & Ht & [= <-]).
    cbn [map concat app]. by rewrite (kind_width _ _ (K7 t Ht)), app_nil_r.
  - injection H as <-. apply owners_elem in Ho. unfold has_tlsld in Ho. apply negb_true_iff in Ho. unfold tlsld_entries. rewrite Ho.
    destruct (shared ctx); cbn [map concat app]; [by rewrite (kind_width _ _ K3)|by rewrite (kind_width _ _ K0)].
Qed.

(** No slot is written twice. *)
Definition unwritten (got : GotSection) : list Z := if has_tlsld got then [tlsld_idx got + 1] else [].

Lemma written_owners got os : (forall o, o ∈ os -> o <> OTlsld) -> map (written_slots got) os = map (owner_slots got) os.
Proof. intros H. apply map_ext_in. intros o Ho. apply list_elem_of_In, H in Ho. by destruct o. Qed.

Lemma entries_slots got l n : allocated n got -> (supports_tlsdesc m = false -> tlsdesc_syms got = []) ->
  get_got_entries got = Some l -> concat (map entry_slots l) ++ unwritten got ≡ₚ seqZ first_slot (n - first_slot).
Proof.
  intros [_ _ (os & Hp & Hs) _ _] Ht H. apply entries_of_owners in H as (ls & F & ->); [|done].
  rewrite <- Hs, Hp. assert (E : concat (map entry_slots (concat ls)) = concat (map (written_slots got) (owners got))).
  { assert (G : forall q, Forall2 (fun o es => owner_entries got o = Some es) q ls -> (forall o, o ∈ q -> o ∈ owners got) ->
      concat (map entry_slots (concat ls)) = concat (map (written_slots got) q)).
    { clear F. induction ls as [|es ls IH]; intros q Fq Hq; inversion Fq as [|o ? q' ? Ho Fq']; subst; [done|].
      simpl. rewrite map_app, concat_app, (owner_entries_slots got o es Ho) by (apply Hq; constructor). f_equal.
      apply IH; [done|]. intros o' Ho'. apply Hq. by constructor. }
    by apply G. }
  rewrite E. unfold owners, unwritten. rewrite !map_app, !concat_app.
  assert (W : forall c q, (forall s : Z, c s <> OTlsld) -> map (written_slots got) (map c q) = map (owner_slots got) (map c q)).
  { intros c q Hc. apply written_owners. intros o (s & -> & _)%list_elem_of_fmap. apply Hc. }
  rewrite !W by done. destruct (has_tlsld got); cbn [map concat]; [|by rewrite !app_nil_r].
  change (owner_slots got OTlsld) with (seqZ (tlsld_idx got) 2). rewrite seqZ_two, <- !app_assoc, app_nil_r. done.
Qed.

(** ** The contents that are written *)

Definition stored (e : GotEntry) : bool := negb (is_dynrel e) || apply_dynamic_relocs ctx.
Definition slot_word (buf : list Z) (i : Z) : Z := default 0 (buf !! Z.to_nat i).

Lemma store_ok buf i x : 0 <= i < zlen buf -> exists buf', store buf i x = Some buf' /\ zlen buf' = zlen buf /\
  forall j, 0 <= j -> slot_word buf' j = if decide (j = i) then word x else slot_word buf j.
Proof.
  intros H. unfold store. rewrite (proj2 (andb_true_iff _ _)) by (split; [apply Z.leb_le|apply Z.ltb_lt]; lia).
  eexists. split; [done|]. split; [unfold zlen; by rewrite length_insert|]. intros j Hj. unfold slot_word.
  case_decide as E; [subst; rewrite list_lookup_insert_eq by (unfold zlen in H; lia); done|]. by rewrite list_lookup_insert_ne by lia.
Qed.

Lemma write_entry_ok got buf rels e : 0 <= idx e < zlen buf ->
  exists buf', write_entry got (buf, rels) e = Some (buf', rels ++ (if is_dynrel e then [entry_rel got e] else [])) /\
    zlen buf' = zlen buf /\
    forall j, 0 <= j -> slot_word buf' j = if decide (j = idx e /\ stored e = true) then word (val e) else slot_word buf j.
Proof.
  intros H. destruct (store_ok buf (idx e) (val e) H) as (buf' & E & Hl & Hw). unfold write_entry, stored, entry_rel.
  destruct (is_dynrel e); [destruct (apply_dynamic_relocs ctx)|]; rewrite ?E; cbn [mbind option_bind negb orb].
  - exists buf'. split; [done|]. split; [done|]. intros j Hj. rewrite Hw by done. destruct (decide (j = idx e)), (decide (_ /\ _)); tauto.
  - exists buf. split; [done|]. split; [done|]. intros j Hj. by rewrite decide_False by (by intros [_ ?]).
  - exists buf'. rewrite app_nil_r. split; [done|]. split; [done|]. intros j Hj. rewrite Hw by done.
    destruct (decide (j = idx e)), (decide (_ /\ _)); tauto.
Qed.

Lemma write_entries_ok got l buf rels : NoDup (map idx l) -> (forall e, e ∈ l -> 0 <= idx e < zlen buf) ->
  exists buf', write_entries got (buf, rels) l = Some (buf', rels ++ map (entry_rel got) (List.filter is_dynrel l)) /\
    zlen buf' = zlen buf /\
    (forall e, e ∈ l -> slot_word buf' (idx e) = if stored e then word (val e) else slot_word buf (idx e)) /\
    (forall j, 0 <= j -> j ∉ map idx l -> slot_word buf' j = slot_word buf j).
Proof.
  revert buf rels. induction l as [|e l IH]; intros buf rels D H.
  - exists buf. rewrite app_nil_r. split; [done|]. split; [done|]. split; [by intros e ?%elem_of_nil|done].
  - cbn [map] in D. apply NoDup_cons in D as [He D]. assert (Hi : 0 <= idx e < zlen buf) by (apply H; constructor).
    destruct (write_entry_ok got buf rels e Hi) as (b1 & E1 & L1 & W1).
    edestruct (IH b1 (rels ++ if is_dynrel e then [entry_rel got e] else [])) as (b2 & E2 & L2 & W2 & U2); [done| |].
    { intros e' He'. rewrite L1. apply H. by constructor. }
    exists b2. split.
    + cbn [write_entries]. rewrite E1. cbn [mbind option_bind]. rewrite E2, <- app_assoc. cbn [List.filter].
      by destruct (is_dynrel e).
    + split; [lia|]. split.
      * intros e' [->|He']%elem_of_cons.
        -- rewrite U2, W1 by (try lia; done). destruct (stored e) eqn:Es; [by rewrite decide_True|by rewrite decide_False by (by intros [_ ?])].
        -- rewrite (W2 e' He'). destruct (stored e'); [done|]. rewrite W1 by (apply H; by constructor).
           rewrite decide_False; [done|]. intros [Hc _]. apply He. rewrite <- Hc. apply list_elem_of_fmap. by exists e'.
      * intros j Hj Hn. cbn [map] in Hn. rewrite not_elem_of_cons in Hn. destruct Hn as [Hn1 Hn2]. rewrite U2, W1 by done.
        by rewrite decide_False by (by intros [? _]).
Qed.

(** ** What the loader does to separate slots *)

Definition footprint (r : ElfRel) : list Z :=
  match kind_of (rel_type r) with Some KTlsdesc => [r_offset r; r_offset r + word_size] | _ => [r_offset r] end.

Lemma upd_ne mem a v x : x <> a -> upd mem a v x = mem x.
Proof. unfold upd. by case_decide. Qed.
Lemma upd_eq mem a v : upd mem a v a = v.
Proof. unfold upd. by case_decide. Qed.

Lemma apply_rel_outside mem r x : x ∉ footprint r -> apply_rel mem r x = mem x.
Proof.
  unfold apply_rel, footprint. destruct (kind_of (rel_type r)) as [[]|]; try done; rewrite ?not_elem_of_cons;
    try (intros [? _]; by apply upd_ne). intros (? & ? & _). destruct (tls_descriptor _ _ _). by rewrite !upd_ne.
Qed.

Lemma apply_rels_outside rels mem x : x ∉ concat (map footprint rels) -> foldl apply_rel mem rels x = mem x.
Proof.
  revert mem. induction rels as [|r rels IH]; intros mem H; [done|]. simpl in *. rewrite elem_of_app in H.
  rewrite IH by tauto. apply apply_rel_outside. tauto.
Qed.

(** A relocation depends only on its own word. *)
Lemma apply_rel_local mem mem' r x : mem (r_offset r) = mem' (r_offset r) -> x ∈ footprint r -> kind_of (rel_type r) <> Some KNone ->
  is_Some (kind_of (rel_type r)) -> apply_rel mem r x = apply_rel mem' r x.
Proof.
  intros E Hx Hn [k Hk]. unfold apply_rel, footprint, rel_addend in *. rewrite Hk in *. rewrite E.
  destruct k; try done; try (apply list_elem_of_singleton in Hx as ->; by rewrite !upd_eq).
  destruct (tls_descriptor _ _ _) as [f y]. unfold upd. rewrite !elem_of_cons, elem_of_nil in Hx. repeat case_decide; tauto.
Qed.

Lemma apply_rels_inside rels mem r x : NoDup (concat (map footprint rels)) -> r ∈ rels -> x ∈ footprint r ->
  kind_of (rel_type r) <> Some KNone -> is_Some (kind_of (rel_type r)) -> foldl apply_rel mem rels x = apply_rel mem r x.
Proof.
  intros D Hr Hx Hn Hk. apply list_elem_of_split in Hr as (l1 & l2 & ->). rewrite map_app, concat_app in D. cbn [map concat] in D.
  apply NoDup_app in D as (D1 & D2 & D3). apply NoDup_app in D3 as (D3 & D4 & D5).
  rewrite foldl_app. cbn [foldl]. rewrite apply_rels_outside by (by apply D4).
  apply apply_rel_local; [|done|done|done]. apply apply_rels_outside. intros H. apply (D2 _ H). apply elem_of_app. left.
  unfold footprint. destruct (kind_of _) as [[]|]; constructor.
Qed.

Lemma apply_relrs l mem x : NoDup l -> foldl apply_relr mem l x = if decide (x ∈ l) then word (base rt + mem x) else mem x.
Proof.
  intros D. revert mem. induction D as [|a l Ha _ IH]; intros mem; [by rewrite decide_False by (apply not_elem_of_nil)|].
  cbn [foldl]. rewrite IH. unfold apply_relr. destruct (decide (x = a)) as [->|Hx].
  - rewrite decide_False by done. rewrite decide_True by constructor. by rewrite upd_eq.
  - rewrite upd_ne by done. destruct (decide (x ∈ l)), (decide (x ∈ a :: l)) as [H|H]; rewrite elem_of_cons in H; try done; naive_solver.
Qed.

(** ** The loaded section *)

Section Loaded.
Context (got : GotSection) (n : Z) (l : list GotEntry).
Context (A : allocated n got) (Hn : n < 2 ^ 32) (Ht : supports_tlsdesc m = false -> tlsdesc_syms got = []) (El : get_got_entries got = Some l).
Context (Haddr : 0 <= sh_addr got /\ sh_addr got mod word_size = 0 /\ sh_addr got + sh_size got <= 2 ^ (8 * word_size)).
Context (Hrel : is_rela (target_of m) = false -> apply_dynamic_relocs ctx = true).

Lemma slots_nodup : NoDup (concat (map entry_slots l) ++ unwritten got).
Proof. rewrite (entries_slots got l n A Ht El). apply NoDup_seqZ. Qed.

Lemma slot_bound i : i ∈ concat (map entry_slots l) ++ unwritten got -> first_slot <= i < n.
Proof. rewrite (entries_slots got l n A Ht El), elem_of_seqZ. lia. Qed.

Lemma idx_slot e : idx e ∈ entry_slots e.
Proof. unfold entry_slots, entry_width. apply elem_of_seqZ. destruct (kind_of _) as [[]|]; lia. Qed.

Lemma slot_entry e i : e ∈ l -> i ∈ entry_slots e -> i ∈ concat (map entry_slots l).
Proof. intros He Hi. apply list_elem_of_In, in_concat. exists (entry_slots e). split; [by apply in_map, list_elem_of_In|by apply list_elem_of_In]. Qed.

Lemma entry_bound e i : e ∈ l -> i ∈ entry_slots e -> first_slot <= i < n.
Proof. intros He Hi. apply slot_bound, elem_of_app. left. by apply (slot_entry e). Qed.

(** Slots of different positions of the list are different. *)
Lemma idx_nodup q : NoDup (concat (map entry_slots q)) -> NoDup (map idx q).
Proof.
  induction q as [|e q IH]; simpl; intros D; [constructor|]. apply NoDup_app in D as (_ & D & Q). constructor; [|by apply IH].
  intros (e' & Ei & He')%list_elem_of_fmap. apply (D (idx e) (idx_slot e)). rewrite Ei. apply list_elem_of_In, in_concat.
  exists (entry_slots e'). split; [by apply in_map, list_elem_of_In|by apply list_elem_of_In, idx_slot].
Qed.

Lemma same_idx e e' i : e ∈ l -> e' ∈ l -> i ∈ entry_slots e -> i ∈ entry_slots e' -> e = e'.
Proof.
  intros He He' Hi Hi'. pose proof slots_nodup as D. apply NoDup_app in D as (D & _ & _).
  apply list_elem_of_split in He as (l1 & l2 & E). rewrite E in D, He'. rewrite map_app, concat_app in D. cbn [map concat] in D.
  apply NoDup_app in D as (_ & D1 & D). apply NoDup_app in D as (_ & D2 & _).
  assert (G : forall q, e' ∈ q -> i ∈ concat (map entry_slots q)).
  { intros q Hq. apply list_elem_of_In, in_concat. exists (entry_slots e'). split; [by apply in_map, list_elem_of_In|by apply list_elem_of_In]. }
  apply elem_of_app in He' as [H|[H|H]%elem_of_cons]; [|done|].
  - destruct (D1 i (G _ H)). apply elem_of_app. by left.
  - destruct (D2 i Hi). by apply G.
Qed.

Lemma addr_facts i : 0 <= i < n -> u64 (sh_addr got + i * word_size) = slot_addr got i /\ word (slot_addr got i) = slot_addr got i /\
  (slot_addr got i - sh_addr got) / word_size = i.
Proof.
  intros Hi. destruct Haddr as (H0 & _ & H1). rewrite (al_size n got A) in H1. unfold slot_addr, word, u64.
  assert (P : 2 ^ (8 * word_size) <= 2 ^ 64) by (destruct word_size_cases as [-> | ->]; done).
  assert (Hw : 0 < word_size) by (destruct word_size_cases; lia).
  assert (0 <= i * word_size) by nia. assert (i * word_size < word_size * n) by nia.
  split; [apply wrap_small; split; lia|]. split; [apply wrap_small; split; lia|].
  replace (sh_addr got + i * word_size - sh_addr got) with (i * word_size) by lia. apply Z.div_mul. lia.
Qed.

Lemma slot_addr_inj i j : slot_addr got i = slot_addr got j -> i = j.
Proof. unfold slot_addr. destruct word_size_cases as [-> | ->]; lia. Qed.

(** The initial memory of the section: its words by address. *)
Definition mem_of (buf : list Z) : memory := fun a => slot_word buf ((a - sh_addr got) / word_size).

Lemma copied : exists buf, copy_buf got = Some (buf, map (entry_rel got) (List.filter is_dynrel l)) /\ zlen buf = n /\
  (forall e, e ∈ l -> mem_of buf (slot_addr got (idx e)) = if stored e then word (val e) else 0) /\
  (forall i, i ∈ unwritten got -> mem_of buf (slot_addr got i) = 0).
Proof.
  pose proof first_slot_pos as Hf. pose proof (al_pos n got A) as Hp.
  assert (Hsz : sh_size got / word_size = n) by (apply (next_idx_spec n got A)).
  assert (Hb : exists buf0, reserved_slot (replicate (Z.to_nat (sh_size got / word_size)) 0) = Some buf0 /\ zlen buf0 = n /\
    forall i, first_slot <= i -> slot_word buf0 i = 0).
  { rewrite Hsz. assert (Hr : zlen (replicate (Z.to_nat n) 0) = n) by (unfold zlen; rewrite length_replicate; lia).
    assert (Hz : forall i, slot_word (replicate (Z.to_nat n) 0) i = 0).
    { intros i. unfold slot_word. destruct (_ !! _) eqn:E; [|done]. by apply lookup_replicate in E as [-> _]. }
    unfold reserved_slot. destruct (dynamic_addr ctx) as [d|]; [|by exists (replicate (Z.to_nat n) 0)].
    case_match; [|by exists (replicate (Z.to_nat n) 0)].
    destruct (store_ok (replicate (Z.to_nat n) 0) 0 d) as (b & Eb & Lb & Wb); [lia|]. exists b. split; [done|]. split; [lia|].
    intros i Hi. rewrite Wb by lia. rewrite decide_False by lia. apply Hz. }
  destruct Hb as (buf0 & E0 & L0 & Z0). pose proof slots_nodup as D. apply NoDup_app in D as (D & Du & _).
  destruct (write_entries_ok got l buf0 []) as (buf & E & L & W & U).
  { by apply idx_nodup. }
  { intros e He. rewrite L0. pose proof (entry_bound e (idx e) He (idx_slot e)). lia. }
  exists buf. split; [unfold copy_buf; rewrite E0; cbn [mbind option_bind]; by rewrite El|]. split; [lia|]. split.
  - intros e He. pose proof (entry_bound e (idx e) He (idx_slot e)) as Hi. unfold mem_of.
    rewrite (proj2 (proj2 (addr_facts (idx e) ltac:(lia)))), (W e He). destruct (stored e); [done|]. apply Z0. lia.
  - intros i Hi. pose proof (slot_bound i ltac:(apply elem_of_app; by right)) as Hb. unfold mem_of.
    rewrite (proj2 (proj2 (addr_facts i ltac:(lia)))), U; [apply Z0; lia|lia|].
    intros (e & -> & He)%list_elem_of_fmap. apply (Du (idx e)); [by apply (slot_entry e); [|apply idx_slot]|done].
Qed.

(** *** The packed relocations *)

Lemma not_relr e k : kind_of (r_type e) = Some k -> k <> KRelative -> is_relr e = false.
Proof.
  intros H Hk. unfold is_relr. destruct (Z.eqb_spec (r_type e) (R_RELATIVE (target_of m))) as [E|]; [|done].
  destruct kinds as (_ & K1 & _). rewrite E in H. congruence.
Qed.

Lemma other_not_relr o es : owner_entries got o = Some es -> (forall s, o <> OGot s) -> Forall (fun e => is_relr e = false) es.
Proof.
  destruct kinds as (K0 & K1 & K2 & K3 & K4 & K5 & K6 & K7). intros H Ho. destruct o as [s|s|s|s|]; [by destruct (Ho s)| | | |]; simpl in H.
  - unfold gottp_symbol_entries in H. apply bind_Some in H as (sym & _ & H). destruct (is_imported sym); [|apply bind_Some in H as (addr & _ & H); destruct (shared ctx)];
      injection H as <-; repeat constructor; eapply not_relr; simpl; eauto; done.
  - unfold tlsgd_symbol_entries in H. apply bind_Some in H as (sym & _ & H). destruct (is_imported sym); [|apply bind_Some in H as (addr & _ & H); destruct (shared ctx)];
      injection H as <-; repeat constructor; eapply not_relr; simpl; eauto; done.
  - unfold tlsdesc_symbol_entries in H. apply bind_Some in H as (sym & _ & H). apply bind_Some in H as (t & Et & [= <-]).
    repeat constructor. eapply not_relr; simpl; eauto; done.
  - unfold tlsld_entries in H. destruct (tlsld_idx got =? UINT32_MAX); [|destruct (shared ctx)]; injection H as <-; repeat constructor;
      eapply not_relr; simpl; eauto; done.
Qed.

Lemma got_entry s es : got_symbol_entries got s = Some es -> exists e, es = [e] /\ idx e = got_idx (sym_aux got s).
Proof.
  unfold got_symbol_entries, sym_aux. intros (sym & -> & H)%bind_Some. destruct (is_imported sym); [injection H as <-; eauto|].
  apply bind_Some in H as (addr & _ & H). repeat case_match; simplify_eq; eauto.
Qed.

Lemma ascending_filter {B} (f : B -> Z) (P : B -> bool) q : ascending (map f q) -> ascending (map f (List.filter P q)).
Proof.
  induction q as [|x q IH]; simpl; [done|]. intros [H Hx]%StronglySorted_inv. destruct (P x); simpl; [|by apply IH].
  constructor; [by apply IH|]. rewrite Forall_forall in *. intros y (z & -> & Hz)%list_elem_of_fmap. apply Hx, list_elem_of_fmap.
  exists z. split; [done|]. apply list_elem_of_In, List.filter_In in Hz as [Hz _]. by apply list_elem_of_In.
Qed.

Lemma others_not_relr q ls : Forall2 (fun o es => owner_entries got o = Some es) q ls -> (forall o s, o ∈ q -> o <> OGot s) ->
  List.filter is_relr (concat ls) = [].
Proof.
  induction 1 as [|o es q ls He _ IH]; intros Ho; [done|]. simpl. rewrite List.filter_app, IH, app_nil_r.
  - assert (H : Forall (fun e => is_relr e = false) es) by (apply (other_not_relr o); [done|]; intros s; apply Ho; constructor).
    clear -H. induction H as [|e q He _ IH]; [done|]. simpl. by rewrite He.
  - intros o' s Hin. apply Ho. by constructor.
Qed.

Lemma got_indices q ls : Forall2 (fun s es => got_symbol_entries got s = Some es) q ls ->
  map idx (concat ls) = map (fun s => got_idx (sym_aux got s)) q.
Proof. induction 1 as [|s es q ls He _ IH]; [done|]. apply got_entry in He as (e & -> & Ee). simpl. by rewrite Ee, IH. Qed.

Lemma relr_ascending : ascending (map idx (List.filter is_relr l)).
Proof.
  destruct (entries_of_owners got l Ht El) as (ls & F & ->). unfold owners in F. apply Forall2_app_inv_l in F as (l1 & l2 & F1 & F2 & ->).
  rewrite concat_app, List.filter_app, (others_not_relr _ l2 F2), app_nil_r.
  - apply ascending_filter. apply Forall2_fmap_l in F1. rewrite (got_indices _ _ F1). apply (al_ascending n got A).
  - intros o s. rewrite !elem_of_app, !list_elem_of_fmap. destruct (has_tlsld got); rewrite ?list_elem_of_singleton, ?elem_of_nil; naive_solver.
Qed.

Lemma filter_elem e (P : GotEntry -> bool) : e ∈ List.filter P l <-> e ∈ l /\ P e = true.
Proof. by rewrite list_elem_of_In, List.filter_In, <- list_elem_of_In. Qed.

Lemma relr_decodes : exists relr, got_construct_relr got = Some relr /\
  decode word_size 0 (relocated (sh_addr got) relr) = map (fun e => slot_addr got (idx e)) (List.filter is_relr l).
Proof.
  unfold got_construct_relr. rewrite El. cbn [mbind option_bind].
  assert (Hw : word_size = 4 \/ word_size = 8) by (destruct word_size_cases; tauto).
  destruct Haddr as (H0 & Hm & H1). rewrite (al_size n got A) in H1. pose proof first_slot_pos.
  destruct (section_decodes word_size Hw (sh_addr got) (map (fun e => idx e * word_size) (List.filter is_relr l))) as (relr & Er & _ & Ed & _).
  - split; [done|]. split.
    + rewrite <- (map_map idx (fun i => i * word_size)).
      assert (G : forall q, ascending q -> ascending (map (fun i => i * word_size) q)).
      { induction 1 as [|x q Hq IH Hx]; simpl; constructor; [done|]. rewrite Forall_forall in *. intros y (z & -> & Hz)%list_elem_of_fmap.
        specialize (Hx z Hz). destruct Hw as [-> | ->]; lia. }
      apply G, relr_ascending.
    + apply Forall_forall. intros p (e & -> & [He _]%filter_elem)%list_elem_of_fmap. pose proof (entry_bound e (idx e) He (idx_slot e)) as Hi.
      assert (idx e * word_size < 2 ^ 62) by (change (2 ^ 62) with (2 ^ 32 * 1073741824); destruct Hw as [-> | ->]; lia).
      split; [|apply Z.mod_mul; destruct Hw; lia]. split; [destruct Hw as [-> | ->]; lia|].
      assert (idx e * word_size < word_size * n) by (destruct Hw as [-> | ->]; lia). lia.
  - exists relr. split; [done|]. rewrite Ed, map_map. done.
Qed.

(** *** After loading *)

Lemma kind_none t : kind_of t = Some KNone -> t = R_NONE.
Proof. unfold kind_of. destruct (Z.eqb_spec t R_NONE); [done|]. by repeat case_match. Qed.

Lemma owner_kinds o es : owner_entries got o = Some es -> Forall (fun e => is_Some (kind_of (r_type e))) es.
Proof.
  destruct kinds as (K0 & K1 & K2 & K3 & K4 & K5 & K6 & K7). intros H. destruct o as [s|s|s|s|]; simpl in H.
  - unfold got_symbol_entries in H. apply bind_Some in H as (sym & _ & H). destruct (is_imported sym); [injection H as <-; repeat constructor; simpl; by rewrite K2|].
    apply bind_Some in H as (addr & _ & H). destruct (R_IRELATIVE (target_of m)) as [t|]; [specialize (K6 t eq_refl)|]; repeat case_match;
      simplify_eq; repeat constructor; simpl; eauto.
  - unfold gottp_symbol_entries in H. apply bind_Some in H as (sym & _ & H). destruct (is_imported sym); [|apply bind_Some in H as (addr & _ & H); destruct (shared ctx)];
      injection H as <-; repeat constructor; simpl; eauto.
  - unfold tlsgd_symbol_entries in H. apply bind_Some in H as (sym & _ & H). destruct (is_imported sym); [|apply bind_Some in H as (addr & _ & H); destruct (shared ctx)];
      injection H as <-; repeat constructor; simpl; eauto.
  - unfold tlsdesc_symbol_entries in H. apply bind_Some in H as (sym & _ & H). apply bind_Some in H as (t & Et & [= <-]).
    repeat constructor; simpl; eauto.
  - unfold tlsld_entries in H. destruct (tlsld_idx got =? UINT32_MAX); [|destruct (shared ctx)]; injection H as <-; repeat constructor; simpl; eauto.
Qed.

Lemma entry_owner e : e ∈ l -> is_Some (kind_of (r_type e)).
Proof.
  destruct (entries_of_owners got l Ht El) as (ls & F & E). rewrite E. intros He. apply list_elem_of_In, in_concat in He as (es & Hes & He).
  apply list_elem_of_In in Hes, He. apply list_elem_of_lookup in Hes as [k Hk]. eapply Forall2_lookup_r in F as (o & _ & Ho); [|done].
  apply owner_kinds in Ho. rewrite Forall_forall in Ho. by apply Ho.
Qed.

Lemma entry_rel_offset e : e ∈ l -> r_offset (entry_rel got e) = slot_addr got (idx e).
Proof.
  intros He. pose proof (entry_bound e (idx e) He (idx_slot e)). pose proof first_slot_pos.
  destruct (addr_facts (idx e) ltac:(lia)) as (E1 & E2 & _). unfold entry_rel, new_rel. cbn [r_offset]. by rewrite E1, E2.
Qed.

Lemma entry_footprint e : e ∈ l -> footprint (entry_rel got e) = map (slot_addr got) (entry_slots e).
Proof.
  intros He. unfold footprint. rewrite (entry_rel_offset e He). cbn [entry_rel new_rel rel_type]. unfold entry_slots, entry_width.
  destruct (kind_of (r_type e)) as [[]|]; rewrite ?seqZ_one, ?seqZ_two; try done. simpl. unfold slot_addr. do 2 f_equal. lia.
Qed.

Lemma footprints : concat (map footprint (map (entry_rel got) (List.filter is_dynrel l))) =
  map (slot_addr got) (concat (map entry_slots (List.filter is_dynrel l))).
Proof.
  rewrite concat_map, !map_map. f_equal. apply map_ext_in. intros e He. apply List.filter_In in He as [He _].
  by apply entry_footprint, list_elem_of_In.
Qed.

Lemma footprints_nodup : NoDup (concat (map footprint (map (entry_rel got) (List.filter is_dynrel l)))).
Proof.
  rewrite footprints. apply NoDup_fmap_2; [intros i j; apply slot_addr_inj|]. pose proof slots_nodup as D. apply NoDup_app in D as (D & _ & _).
  revert D. generalize l as q. intros q. induction q as [|e q IH]; [done|]. simpl. intros D. apply NoDup_app in D as (D1 & D2 & D3).
  destruct (is_dynrel e); [|by apply IH]. simpl. apply NoDup_app. split; [done|]. split; [|by apply IH].
  intros i Hi Hin. apply (D2 i Hi). apply list_elem_of_In, in_concat in Hin as (z & Hz & Hiz). apply list_elem_of_In, in_concat. exists z. split; [|done].
  apply in_map_iff in Hz as (e' & <- & He'). apply List.filter_In in He' as [He' _]. by apply in_map.
Qed.

Lemma in_footprint i : slot_addr got i ∈ concat (map footprint (map (entry_rel got) (List.filter is_dynrel l))) ->
  exists e, e ∈ l /\ is_dynrel e = true /\ i ∈ entry_slots e.
Proof.
  rewrite footprints. intros (j & Ej%slot_addr_inj & Hj)%list_elem_of_fmap. subst j.
  apply list_elem_of_In, in_concat in Hj as (z & Hz & Hiz). apply in_map_iff in Hz as (e & <- & He). apply List.filter_In in He as [He Hd].
  exists e. split; [by apply list_elem_of_In|]. split; [done|by apply list_elem_of_In].
Qed.

Context (buf : list Z) (relr : list Z) (rels : list ElfRel).
Context (Hbuf : forall e, e ∈ l -> mem_of buf (slot_addr got (idx e)) = if stored e then word (val e) else 0).
Context (Hzero : forall i, i ∈ unwritten got -> mem_of buf (slot_addr got i) = 0).
Context (Hrelr : decode word_size 0 relr = map (fun e => slot_addr got (idx e)) (List.filter is_relr l)).
Context (Hrels : rels ≡ₚ map (entry_rel got) (List.filter is_dynrel l)).

Definition relr_memory : memory := foldl apply_relr (mem_of buf) (decode word_size 0 relr).

Lemma rels_nodup : NoDup (concat (map footprint rels)).
Proof. rewrite Hrels. apply footprints_nodup. Qed.

Lemma relr_nodup : NoDup (decode word_size 0 relr).
Proof.
  rewrite Hrelr, <- (map_map idx (slot_addr got)). apply NoDup_fmap_2; [intros i j; apply slot_addr_inj|].
  pose proof relr_ascending as H. induction H as [|x q _ IH Hx]; constructor; [|done]. intros Hin. rewrite Forall_forall in Hx. specialize (Hx x Hin). lia.
Qed.

Lemma relr_value e : e ∈ l -> relr_memory (slot_addr got (idx e)) =
  let w := if stored e then word (val e) else 0 in if is_relr e then word (base rt + w) else w.
Proof.
  intros He. unfold relr_memory. rewrite apply_relrs by apply relr_nodup. rewrite Hrelr, (Hbuf e He). cbv zeta.
  destruct (is_relr e) eqn:Er.
  - rewrite decide_True; [done|]. apply list_elem_of_fmap. exists e. split; [done|]. by apply filter_elem.
  - rewrite decide_False; [done|]. intros (e' & Ei%slot_addr_inj & [He' Er']%filter_elem)%list_elem_of_fmap.
    assert (e = e') by (apply (same_idx e e' (idx e)); [done|done|apply idx_slot|rewrite Ei; apply idx_slot]). congruence.
Qed.

Lemma not_dynrel_outside i : (forall e, e ∈ l -> is_dynrel e = true -> i ∉ entry_slots e) ->
  load (mem_of buf) relr rels (slot_addr got i) = relr_memory (slot_addr got i).
Proof.
  intros H. unfold load. apply apply_rels_outside. rewrite Hrels. intros Hin. apply in_footprint in Hin as (e & He & Hd & Hi). by apply (H e).
Qed.

Lemma loaded_static e : e ∈ l -> is_dynrel e = false ->
  load (mem_of buf) relr rels (slot_addr got (idx e)) = if is_relr e then word (base rt + word (val e)) else word (val e).
Proof.
  intros He Hd. rewrite not_dynrel_outside, relr_value by (try done; intros e' He' Hd' Hi;
    assert (e = e') by (by apply (same_idx e e' (idx e)); [| |apply idx_slot|]); congruence).
  unfold stored. by rewrite Hd.
Qed.

Lemma dynrel_not_relr e : is_dynrel e = true -> is_relr e = false /\ r_type e <> R_NONE.
Proof. unfold is_dynrel. rewrite negb_true_iff, orb_false_iff, Z.eqb_neq. done. Qed.

Lemma loaded_dyn e x : e ∈ l -> is_dynrel e = true -> x ∈ footprint (entry_rel got e) ->
  load (mem_of buf) relr rels x = apply_rel relr_memory (entry_rel got e) x.
Proof.
  intros He Hd Hx. destruct (dynrel_not_relr e Hd) as [_ Hnone]. apply apply_rels_inside; [apply rels_nodup| |done| |].
  - rewrite Hrels. apply list_elem_of_fmap. exists e. split; [done|]. by apply filter_elem.
  - intros Hk. by apply Hnone, kind_none.
  - by apply entry_owner.
Qed.

(** The addend: in the relocation, or in the word. *)
Lemma loaded_addend e x : e ∈ l -> is_dynrel e = true -> word (x + rel_addend relr_memory (entry_rel got e)) = word (x + val e).
Proof.
  intros He Hd. destruct (dynrel_not_relr e Hd) as [Hr _]. unfold rel_addend. rewrite (entry_rel_offset e He), (relr_value e He). cbv zeta.
  rewrite Hr. unfold stored. assert (Hw : 0 < 8 * word_size) by (destruct word_size_cases; lia). cbn [entry_rel new_rel r_addend].
  unfold word, wrap. destruct (is_rela (target_of m)) eqn:E.
  - rewrite <- Z.add_mod_idemp_r by lia. assert (swrap (8 * word_size) (val e) mod 2 ^ (8 * word_size) = val e mod 2 ^ (8 * word_size)) as ->.
    { apply wrap_swrap. lia. }
    by rewrite Z.add_mod_idemp_r by lia.
  - rewrite (Hrel eq_refl), orb_true_r. by rewrite Z.add_mod_idemp_r by lia.
Qed.

Lemma loaded_unwritten i : i ∈ unwritten got -> load (mem_of buf) relr rels (slot_addr got i) = 0.
Proof.
  intros Hi. pose proof slots_nodup as D. apply NoDup_app in D as (_ & D & _).
  assert (Hno : forall e, e ∈ l -> i ∉ entry_slots e) by (intros e He Hin; apply (D i); [by apply (slot_entry e)|done]).
  rewrite not_dynrel_outside by (intros e He _; by apply Hno). unfold relr_memory. rewrite apply_relrs by apply relr_nodup.
  rewrite decide_False; [by apply Hzero|]. rewrite Hrelr. intros (e & Ei%slot_addr_inj & [He _]%filter_elem)%list_elem_of_fmap.
  apply (Hno e He). rewrite Ei. apply idx_slot.
Qed.

(** *** Every slot holds what is expected *)

Definition final : memory := load (mem_of buf) relr rels.

(** What an entry of each kind leads to. *)
Definition entry_word (k : kind) (sym v : Z) : Z :=
  match k with
  | KNone => word v
  | KRelative => word (base rt + v)
  | KGlobDat => word (sym_value rt sym + v)
  | KDtpmod => word (module_id rt sym)
  | KDtpoff => word (dtp_offset rt sym + v)
  | KTpoff => word (tp_offset rt sym + v)
  | KIrelative => word (resolver rt (word (base rt + v)))
  | KTlsdesc => word (tls_descriptor rt sym v).1
  end.

Lemma word_add x y : word (x + word y) = word (x + y).
Proof. unfold word, wrap. apply Z.add_mod_idemp_r. destruct word_size_cases as [-> | ->]; done. Qed.

Lemma word_u64 x y : word (x + u64 y) = word (x + y).
Proof.
  unfold word, u64, wrap. assert (exists q, 2 ^ 64 = 2 ^ (8 * word_size) * q /\ 0 < 2 ^ (8 * word_size)) as (q & Hq & Hp)
    by (destruct word_size_cases as [-> | ->]; [by exists 1|by exists (2 ^ 32)]).
  rewrite (Z.mod_eq y) by done. rewrite Hq. replace (x + (y - 2 ^ (8 * word_size) * q * (y / (2 ^ (8 * word_size) * q))))
    with (x + y + (- (q * (y / (2 ^ (8 * word_size) * q)))) * 2 ^ (8 * word_size)) by ring. apply Z.mod_add. lia.
Qed.

Lemma kind_relr e k : kind_of (r_type e) = Some k -> is_dynrel e = negb (is_relr e) && match k with KNone => false | _ => true end.
Proof.
  intros Hk. unfold is_dynrel. rewrite negb_orb. f_equal. destruct (Z.eqb_spec (r_type e) R_NONE) as [E|E].
  - rewrite E in Hk. destruct kinds as (K0 & _). rewrite K0 in Hk. by injection Hk as <-.
  - destruct k; try done. by apply kind_none in Hk.
Qed.

Lemma zero_addend e : e ∈ l -> is_dynrel e = true -> val e = 0 -> rel_addend relr_memory (entry_rel got e) = 0.
Proof.
  intros He Hd Hv. destruct (dynrel_not_relr e Hd) as [Hr _]. unfold rel_addend. rewrite (entry_rel_offset e He), (relr_value e He). cbv zeta.
  rewrite Hr, Hv. cbn [entry_rel new_rel r_addend]. rewrite Hv. unfold word, wrap.
  destruct word_size_cases as [E|E]; rewrite E; destruct (is_rela _), (stored e); done.
Qed.

Lemma footprint_first r : r_offset r ∈ footprint r.
Proof. unfold footprint. destruct (kind_of _) as [[]|]; constructor. Qed.

Lemma got_entry_final e k : e ∈ l -> kind_of (r_type e) = Some k -> (k = KTlsdesc -> val e = 0) ->
  final (slot_addr got (idx e)) = entry_word k (u32 (sym_dynsym_idx got (ent_sym e))) (val e).
Proof.
  intros He Hk Hv. pose proof (kind_relr e k Hk) as Hd. unfold final. destruct (is_dynrel e) eqn:Ed.
  - symmetry in Hd. apply andb_true_iff in Hd as [Hr Hk'].
    rewrite (loaded_dyn e) by (try done; rewrite <- (entry_rel_offset e He); apply footprint_first).
    unfold apply_rel. cbn [entry_rel new_rel rel_type r_sym]. rewrite Hk, (entry_rel_offset e He).
    pose proof (fun x => loaded_addend e x He Ed) as Ha.
    destruct k; try done; cbn [entry_word]; rewrite ?upd_eq, ?Ha; try done.
    + rewrite (zero_addend e He Ed (Hv eq_refl)), (Hv eq_refl). destruct (tls_descriptor rt _ 0) as [f x]. simpl.
      rewrite upd_ne by (destruct word_size_cases; lia). by rewrite upd_eq.
  - rewrite (loaded_static e He Ed). destruct (is_relr e) eqn:Er.
    + assert (k = KRelative) as ->.
      { destruct kinds as (_ & K1 & _). unfold is_relr in Er. apply andb_true_iff in Er as [Er _]. apply Z.eqb_eq in Er. congruence. }
      simpl. apply word_add.
    + simpl in Hd. destruct k; try done.
Qed.

Lemma tlsdesc_second e : e ∈ l -> kind_of (r_type e) = Some KTlsdesc -> val e = 0 ->
  final (slot_addr got (idx e + 1)) = word (tls_descriptor rt (u32 (sym_dynsym_idx got (ent_sym e))) 0).2.
Proof.
  intros He Hk Hv. assert (Er : is_relr e = false) by (by apply (not_relr e KTlsdesc)).
  assert (Ed : is_dynrel e = true) by (rewrite (kind_relr e _ Hk), Er; done). unfold final.
  assert (Es : slot_addr got (idx e + 1) = slot_addr got (idx e) + word_size) by (unfold slot_addr; lia).
  rewrite (loaded_dyn e) by (try done; unfold footprint; cbn [entry_rel new_rel rel_type]; rewrite Hk, Es, (entry_rel_offset e He); set_solver).
  unfold apply_rel. cbn [entry_rel new_rel rel_type r_sym]. rewrite Hk, (entry_rel_offset e He), (zero_addend e He Ed Hv), Es.
  destruct (tls_descriptor rt _ 0) as [f x]. simpl. by rewrite upd_eq.
Qed.

Lemma owner_entry o : o ∈ owners got -> exists es, owner_entries got o = Some es /\ forall e, e ∈ es -> e ∈ l.
Proof.
  intros Ho. destruct (entries_of_owners got l Ht El) as (ls & F & ->). apply list_elem_of_lookup in Ho as [i Hi].
  eapply Forall2_lookup_l in F as (es & Hes & E); [|done]. exists es. split; [done|]. intros e He. apply list_elem_of_In, in_concat.
  exists es. split; [by apply list_elem_of_In, list_elem_of_lookup; exists i|by apply list_elem_of_In].
Qed.

(** The process is one that the file was linked for. *)
Record runs_at : Prop := {
  ra_base : pic ctx = false -> base rt = 0;
  ra_module : shared ctx = false -> word (module_id rt 0) = 1;
  ra_tp : shared ctx = false -> word (tp_offset rt 0) = word (tls_begin ctx - tp_addr ctx) }.
Context (RT : runs_at).

Lemma entry_final_in e i v t s k : e = mkEntry i v t s -> e ∈ l -> kind_of t = Some k -> (k = KTlsdesc -> v = 0) ->
  final (slot_addr got i) = entry_word k (u32 (sym_dynsym_idx got s)) v.
Proof. intros -> He Hk Hv. by apply (got_entry_final _ k He Hk). Qed.

Lemma dynsym_some s sym : symtab got !! s = Some sym -> u32 (sym_dynsym_idx got (Some s)) = dynsym_of sym.
Proof. intros H. unfold sym_dynsym_idx, dynsym_of. simpl. by rewrite H. Qed.

Lemma got_holds s : OGot s ∈ owners got -> holds_slots got final (OGot s).
Proof.
  destruct kinds as (K0 & K1 & K2 & _ & _ & _ & K6 & _). intros Ho sym addr Hs Ha. destruct (owner_entry _ Ho) as (es & E & Hin). simpl in E.
  unfold got_symbol_entries in E. rewrite Hs in E. cbn [mbind option_bind] in E. cbn [owner_idx]. unfold sym_aux. rewrite Hs, Z.add_0_r.
  unfold expect_got. destruct (is_imported sym); [injection E as <-|].
  - erewrite entry_final_in; [|reflexivity|apply Hin; constructor|exact K2|done]. simpl. by rewrite (dynsym_some s sym Hs), Z.add_0_r.
  - rewrite Ha in E by done. cbn [mbind option_bind] in E. unfold supports_ifunc.
    assert (Hrest : Some es = (if pic ctx && is_relative sym then Some [mkEntry (got_idx (aux sym)) addr (R_RELATIVE (target_of m)) None]
        else Some [mkEntry (got_idx (aux sym)) addr R_NONE None]) ->
      final (slot_addr got (got_idx (aux sym))) = if is_relative sym then word (base rt + addr) else word addr).
    { intros H. destruct (pic ctx) eqn:Ep, (is_relative sym); simpl in H; injection H as ->;
        (erewrite entry_final_in; [|reflexivity|apply Hin; constructor|first [exact K1|exact K0]|done]); simpl; try done.
      by rewrite (ra_base RT Ep). }
    destruct (R_IRELATIVE (target_of m)) as [t|] eqn:Et.
    + rewrite bool_decide_eq_true_2 by done. simpl. destruct (is_ifunc sym); [injection E as <-|by apply Hrest].
      erewrite entry_final_in; [|reflexivity|apply Hin; constructor|by apply K6|done]. done.
    + rewrite bool_decide_eq_false_2 by (by intros [? ?]). simpl. by apply Hrest.
Qed.

Lemma gottp_holds s : OGottp s ∈ owners got -> holds_slots got final (OGottp s).
Proof.
  destruct kinds as (K0 & _ & _ & _ & _ & K5 & _). intros Ho sym addr Hs Ha. destruct (owner_entry _ Ho) as (es & E & Hin). simpl in E.
  unfold gottp_symbol_entries in E. rewrite Hs in E. cbn [mbind option_bind] in E. cbn [owner_idx]. unfold sym_aux. rewrite Hs, Z.add_0_r.
  unfold expect_gottp. destruct (is_imported sym); [injection E as <-|].
  - erewrite entry_final_in; [|reflexivity|apply Hin; constructor|exact K5|done]. simpl. by rewrite (dynsym_some s sym Hs), Z.add_0_r.
  - rewrite Ha in E by done. cbn [mbind option_bind] in E. destruct (shared ctx) eqn:Es; injection E as <-.
    + erewrite entry_final_in; [|reflexivity|apply Hin; constructor|exact K5|done]. simpl. apply word_u64.
    + erewrite entry_final_in; [|reflexivity|apply Hin; constructor|exact K0|done]. simpl.
      rewrite <- (Z.add_0_l (u64 _)), word_u64, Z.add_0_l, (Z.add_comm (tp_offset rt 0)), <- word_add, (ra_tp RT Es), word_add. f_equal. lia.
Qed.

Lemma tlsgd_holds s : OTlsgd s ∈ owners got -> holds_slots got final (OTlsgd s).
Proof.
  destruct kinds as (K0 & _ & _ & K3 & K4 & _). intros Ho sym addr Hs Ha. destruct (owner_entry _ Ho) as (es & E & Hin). simpl in E.
  unfold tlsgd_symbol_entries in E. rewrite Hs in E. cbn [mbind option_bind] in E. cbn [owner_idx]. unfold sym_aux. rewrite Hs, Z.add_0_r.
  unfold expect_tlsgd. destruct (is_imported sym); [injection E as <-|].
  - f_equal; (erewrite entry_final_in; [|reflexivity|apply Hin; repeat constructor|first [exact K3|exact K4]|done]); simpl;
      rewrite (dynsym_some s sym Hs), ?Z.add_0_r; done.
  - rewrite Ha in E by done. cbn [mbind option_bind] in E. destruct (shared ctx) eqn:Es; injection E as <-.
    + f_equal; (erewrite entry_final_in; [|reflexivity|apply Hin; repeat constructor|first [exact K3|exact K0]|done]); simpl; [done|].
      by rewrite <- (Z.add_0_l (u64 _)), word_u64.
    + f_equal; (erewrite entry_final_in; [|reflexivity|apply Hin; repeat constructor|exact K0|done]); simpl.
      * rewrite (ra_module RT Es). unfold word, wrap. destruct word_size_cases as [-> | ->]; done.
      * by rewrite <- (Z.add_0_l (u64 _)), word_u64.
Qed.

Lemma tlsdesc_holds s : OTlsdesc s ∈ owners got -> holds_slots got final (OTlsdesc s).
Proof.
  destruct kinds as (_ & _ & _ & _ & _ & _ & _ & K7). intros Ho sym Hs. destruct (owner_entry _ Ho) as (es & E & Hin). simpl in E.
  unfold tlsdesc_symbol_entries in E. rewrite Hs in E. cbn [mbind option_bind] in E. cbn [owner_idx]. unfold sym_aux. rewrite Hs, Z.add_0_r.
  apply bind_Some in E as (t & Et & [= <-]). unfold expect_tlsdesc.
  set (e := mkEntry (tlsdesc_idx (aux sym)) 0 t (if bool_decide (Some s = tls_module_base ctx) then None else Some s)) in *.
  assert (He : e ∈ l) by (apply Hin; constructor). pose proof (got_entry_final e KTlsdesc He (K7 t Et) (fun _ => eq_refl)) as H1.
  pose proof (tlsdesc_second e He (K7 t Et) eq_refl) as H2. unfold e in H1, H2. cbn [idx val ent_sym entry_word] in H1, H2. rewrite H1, H2.
  assert (u32 (sym_dynsym_idx got (if bool_decide (Some s = tls_module_base ctx) then None else Some s)) =
    if bool_decide (Some s = tls_module_base ctx) then 0 else dynsym_of sym) as -> by (case_match; [done|by apply dynsym_some]).
  by destruct (tls_descriptor rt (if bool_decide (Some s = tls_module_base ctx) then 0 else dynsym_of sym) 0).
Qed.

Lemma tlsld_holds : OTlsld ∈ owners got -> holds_slots got final OTlsld.
Proof.
  destruct kinds as (K0 & _ & _ & K3 & _). intros Ho. destruct (owner_entry _ Ho) as (es & E & Hin). simpl in E. injection E as <-.
  apply owners_elem in Ho. pose proof Ho as Ho'. unfold has_tlsld in Ho'. apply negb_true_iff in Ho'. unfold tlsld_entries in Hin. rewrite Ho' in Hin.
  simpl. rewrite Z.add_0_r. f_equal; [|apply loaded_unwritten; unfold unwritten; rewrite Ho; constructor].
  destruct (shared ctx) eqn:Es; (erewrite entry_final_in; [|reflexivity|apply Hin; constructor|first [exact K3|exact K0]|done]); simpl; [done|].
  rewrite (ra_module RT Es). unfold word, wrap. destruct word_size_cases as [-> | ->]; done.
Qed.

Lemma slots_hold o : o ∈ owners got -> holds_slots got final o -> holds got final o.
Proof.
  intros Ho. pose proof (owner_slots_bound n got o _ A Ho (owner_idx_slot got o)) as Hb. pose proof first_slot_pos.
  destruct (addr_facts (owner_idx got o) ltac:(lia)) as (E & _).
  assert (Ea : forall k, owner_addr got o + k * word_size = slot_addr got (owner_idx got o + k)).
  { intros k. assert (owner_addr got o = slot_addr got (owner_idx got o)) as -> by (rewrite <- E; by destruct o). unfold slot_addr. lia. }
  unfold holds, holds_slots, values. destruct o; rewrite ?Ea; done.
Qed.
End Loaded.
End Loader.

(** ** The theorem *)

(** Requests are served, and no TLS descriptors appear that were not requested. *)
Lemma add_symbol_lists got s flags :
  got_syms (add_symbol got (s, flags)) = got_syms got ++ (if needs flags NEEDS_GOT then [s] else []) /\
  gottp_syms (add_symbol got (s, flags)) = gottp_syms got ++ (if needs flags NEEDS_GOTTP then [s] else []) /\
  tlsgd_syms (add_symbol got (s, flags)) = tlsgd_syms got ++ (if needs flags NEEDS_TLSGD then [s] else []) /\
  tlsdesc_syms (add_symbol got (s, flags)) = tlsdesc_syms got ++ (if needs flags NEEDS_TLSDESC then [s] else []).
Proof.
  unfold add_symbol. destruct (needs flags NEEDS_GOT), (needs flags NEEDS_GOTTP), (needs flags NEEDS_TLSGD), (needs flags NEEDS_TLSDESC);
    simpl; by rewrite ?app_nil_r.
Qed.

Definition requested (bit : Z) (reqs : list (Z * Z)) : list Z := map fst (List.filter (fun p => needs p.2 bit) reqs).

Lemma requested_cons bit s flags reqs : requested bit ((s, flags) :: reqs) = (if needs flags bit then [s] else []) ++ requested bit reqs.
Proof. unfold requested. simpl. by destruct (needs flags bit). Qed.

Lemma add_fold_lists reqs got : let got' := foldl add_symbol got reqs in
  got_syms got' = got_syms got ++ requested NEEDS_GOT reqs /\ gottp_syms got' = gottp_syms got ++ requested NEEDS_GOTTP reqs /\
  tlsgd_syms got' = tlsgd_syms got ++ requested NEEDS_TLSGD reqs /\ tlsdesc_syms got' = tlsdesc_syms got ++ requested NEEDS_TLSDESC reqs.
Proof.
  revert got. induction reqs as [|[s flags] reqs IH]; intros got; [simpl; by rewrite !app_nil_r|].
  cbn [foldl]. destruct (IH (add_symbol got (s, flags))) as (E1 & E2 & E3 & E4). destruct (add_symbol_lists got s flags) as (F1 & F2 & F3 & F4).
  cbv zeta in *. rewrite E1, E2, E3, E4, F1, F2, F3, F4, !requested_cons, !app_assoc. done.
Qed.

Lemma add_symbols_lists tlsld reqs addr syms0 : let got := add_symbols tlsld reqs (new_got addr syms0) in
  got_syms got = requested NEEDS_GOT reqs /\ gottp_syms got = requested NEEDS_GOTTP reqs /\
  tlsgd_syms got = requested NEEDS_TLSGD reqs /\ tlsdesc_syms got = requested NEEDS_TLSDESC reqs.
Proof.
  pose proof (add_fold_lists reqs (new_got addr syms0)) as H. cbv zeta in *. unfold add_symbols. destruct tlsld; [|done].
  unfold add_tlsld. by destruct (negb _).
Qed.

(** What is assumed of the input: every symbol is there and is scanned once; descriptors
    are only requested where the target has them; the addresses of symbols that are not
    imported can be computed; REL targets write addends into the section. *)
Record well_formed (addr : Z) (syms0 : gmap Z Symbol) (reqs : list (Z * Z)) (tlsld : bool) : Prop := {
  wf_once : NoDup (map fst reqs);
  wf_symbols : forall s, s ∈ map fst reqs -> is_Some (syms0 !! s);
  wf_count : 6 * zlen reqs + 4 < 2 ^ 31;
  wf_tlsdesc : supports_tlsdesc m = false -> requested NEEDS_TLSDESC reqs = [];
  wf_addresses : forall s sym, symtab (add_symbols tlsld reqs (new_got addr syms0)) !! s = Some sym -> is_imported sym = false ->
    is_Some (get_addr true false sym) /\ is_Some (get_addr false false sym);
  wf_place : 0 <= addr /\ addr mod word_size = 0 /\ addr + sh_size (add_symbols tlsld reqs (new_got addr syms0)) <= 2 ^ (8 * word_size);
  wf_addends : is_rela (target_of m) = false -> apply_dynamic_relocs ctx = true }.

Lemma mapM_total {B C} (f : B -> option C) (q : list B) : (forall x, x ∈ q -> is_Some (f x)) -> is_Some (mapM f q).
Proof. intros H. apply mapM_is_Some, Forall_forall. done. Qed.

Lemma entries_total got : (forall s, listed got s -> is_Some (symtab got !! s)) ->
  (forall s sym, symtab got !! s = Some sym -> is_imported sym = false -> is_Some (get_addr true false sym) /\ is_Some (get_addr false false sym)) ->
  is_Some (get_got_entries got).
Proof.
  intros S Ha. assert (E : forall f q, (forall s, s ∈ q -> is_Some (f s)) -> exists e, entries_of f q = Some e).
  { intros f q H. destruct (mapM_total f q H) as [ls Hls]. exists (concat ls). unfold entries_of. by rewrite Hls. }
  assert (L : forall s, listed got s -> exists sym, symtab got !! s = Some sym) by (intros s Hs; destruct (S s Hs); eauto).
  unfold get_got_entries. destruct (E (got_symbol_entries got) (got_syms got)) as [e1 ->].
  { intros s Hs. destruct (L s) as [sym Hsym]; [unfold listed; tauto|]. unfold got_symbol_entries. rewrite Hsym. simpl.
    destruct (is_imported sym) eqn:Ei; [done|]. destruct (Ha s sym Hsym Ei) as [[a ->] _]. simpl. by repeat case_match. }
  destruct (E (tlsgd_symbol_entries got) (tlsgd_syms got)) as [e2 ->].
  { intros s Hs. destruct (L s) as [sym Hsym]; [unfold listed; tauto|]. unfold tlsgd_symbol_entries. rewrite Hsym. simpl.
    destruct (is_imported sym) eqn:Ei; [done|]. destruct (Ha s sym Hsym Ei) as [_ [a ->]]. simpl. by case_match. }
  assert (exists e3, (if supports_tlsdesc m then entries_of (tlsdesc_symbol_entries got) (tlsdesc_syms got) else Some []) = Some e3) as [e3 ->].
  { unfold supports_tlsdesc. case_bool_decide as Hd; [|by eexists]. apply E. intros s Hs. destruct (L s) as [sym Hsym]; [unfold listed; tauto|].
    unfold tlsdesc_symbol_entries. rewrite Hsym. destruct Hd as [t ->]. done. }
  destruct (E (gottp_symbol_entries got) (gottp_syms got)) as [e4 ->]; [|done].
  intros s Hs. destruct (L s) as [sym Hsym]; [unfold listed; tauto|]. unfold gottp_symbol_entries. rewrite Hsym. simpl.
  destruct (is_imported sym) eqn:Ei; [done|]. destruct (Ha s sym Hsym Ei) as [_ [a ->]]. simpl. by case_match.
Qed.

Lemma reldyn_count l k : foldl (fun n e => if is_dynrel e then n + 1 else n) k l = k + zlen (List.filter is_dynrel l).
Proof.
  revert k. induction l as [|e l IH]; intros k; simpl; [unfold zlen; simpl; lia|]. rewrite IH. destruct (is_dynrel e); unfold zlen; simpl; lia.
Qed.
End Got.

(** C3: Every symbol that needs a slot of the global offset table gets one, the section and
    its relocations can be written, [get_reldyn_size] reserves exactly the space of the
    relocations, and in every process, after the loader has applied the packed and the
    other dynamic relocations, in whatever order the latter were sorted, every slot holds
    what the code that uses it expects: the run-time address of the symbol, the result of
    its resolver, its TLS module and offset, its offset from the thread pointer, or its
    TLS descriptor. *)
Theorem got_loads (m : machine) (ctx : Context) (rt : runtime) (addr : Z) (syms0 : gmap Z Symbol) (reqs : list (Z * Z)) (tlsld : bool) :
  well_formed m ctx addr syms0 reqs tlsld -> runs_at m ctx rt ->
  let got := add_symbols m ctx tlsld reqs (new_got m addr syms0) in
  (forall s flags, (s, flags) ∈ reqs ->
    (needs flags NEEDS_GOT = true -> OGot s ∈ owners got) /\ (needs flags NEEDS_GOTTP = true -> OGottp s ∈ owners got) /\
    (needs flags NEEDS_TLSGD = true -> OTlsgd s ∈ owners got) /\ (needs flags NEEDS_TLSDESC = true -> OTlsdesc s ∈ owners got)) /\
  exists buf rels relr, copy_buf m ctx got = Some (buf, rels) /\ got_construct_relr m ctx got = Some relr /\
    word_size m * zlen buf = sh_size got /\ get_reldyn_size m ctx got = Some (zlen rels) /\
    forall rels', rels' ≡ₚ rels -> forall o, o ∈ owners got ->
      holds m ctx rt got (load m rt (mem_of m got buf) (relocated addr relr) rels') o.
Proof.
  intros [D S C T Ha P R] RT got. destruct (add_symbols_lists m ctx tlsld reqs addr syms0) as (L1 & L2 & L3 & L4). fold got in L1, L2, L3, L4.
  destruct (add_symbols_allocated m ctx addr syms0 reqs tlsld D S C) as ((n & Hn & A) & Eaddr & Hl & Hsome). fold got in A, Eaddr, Hl, Hsome.
  destruct (entries_total m ctx got) as [l El]; [intros s Hs; by apply Hsome, S, Hl|exact Ha|].
  assert (HT : supports_tlsdesc m = false -> tlsdesc_syms got = []) by (rewrite L4; exact T).
  assert (HP : 0 <= sh_addr got /\ sh_addr got mod word_size m = 0 /\ sh_addr got + sh_size got <= 2 ^ (8 * word_size m)) by (by rewrite Eaddr).
  assert (HN : n < 2 ^ 32) by (change (2 ^ 32) with (2 ^ 31 * 2); lia).
  split.
  { intros s flags Hin. rewrite !owners_elem, L1, L2, L3, L4. unfold requested. repeat split; intros Hb; apply list_elem_of_fmap;
      exists (s, flags); (split; [done|]); by apply list_elem_of_In, List.filter_In; (split; [apply list_elem_of_In|]). }
  destruct (copied m ctx got n l A HT El HP) as (buf & Eb & Lb & Wb & Ub).
  destruct (relr_decodes m ctx got n l A HN HT El HP) as (relr & Er & Dr).
  exists buf, (map (entry_rel m got) (List.filter (is_dynrel m ctx) l)), relr. split; [done|]. split; [done|].
  split; [rewrite Lb; by rewrite (al_size m n got A)|].
  split; [unfold get_reldyn_size; rewrite El; cbn [mbind option_bind]; rewrite reldyn_count; f_equal; unfold zlen; by rewrite length_map|].
  rewrite <- Eaddr. intros rels Hp o Ho.
  eapply slots_hold; eauto.
  destruct o as [s|s|s|s|]; [eapply got_holds|eapply gottp_holds|eapply tlsgd_holds|eapply tlsdesc_holds|eapply tlsld_holds]; eauto.
Qed.

(** ** A sample *)

(** A shared library for x86-64 with packed relocations: an imported variable (1), a local
    one (2), a resolver (3), an absolute symbol (4), and thread-local variables of its own
    (5) and of another module (6). *)
Definition sample_symbol (org : origin) (v : Z) (type : string) (imp : bool) (dyn : Z) : Symbol :=
  mkSymbol [] org v (Some imp) (constant STT type) false imp false false false (mkAux (-1) (-1) (-1) (-1) (-1) (-1) (-1) dyn).
Definition sample_isec : origin := TAG_ISEC (Some (mkInputSection true None [] 8192)).

Definition sample_symbols : gmap Z Symbol := list_to_map [
  (1, sample_symbol TAG_ABS 0 "STT_OBJECT" true 1); (2, sample_symbol sample_isec 16 "STT_OBJECT" false (-1));
  (3, sample_symbol sample_isec 64 "STT_GNU_IFUNC" false (-1)); (4, sample_symbol TAG_ABS 291 "STT_NOTYPE" false (-1));
  (5, sample_symbol sample_isec 8 "STT_TLS" false (-1)); (6, sample_symbol TAG_ABS 0 "STT_TLS" true 2)].

Definition sample_requests : list (Z * Z) :=
  [(1, NEEDS_GOT); (2, NEEDS_GOT); (3, NEEDS_GOT); (4, NEEDS_GOT); (5, Z.lor NEEDS_GOTTP (Z.lor NEEDS_TLSGD NEEDS_TLSDESC));
   (6, Z.lor NEEDS_GOTTP NEEDS_TLSGD)].

Definition sample_ctx : Context := mkContext 0 0 4096 4160 0 (0, 0) true true false false true false (Some 12288) 8192 8256 8192 None.
Definition sample_got : GotSection := add_symbols X86_64 sample_ctx true sample_requests (new_got X86_64 16384 sample_symbols).

Definition sample_runtime : runtime :=
  mkRuntime 65536 (fun i => 1048576 + i) (fun a => a + 1) (fun i => 2 + i) (fun i => 32 * i) (fun i => - 64 - i) (fun i a => (i, a)).

Lemma sample_got_written : (fun '(buf, rels) => (buf, length rels)) <$> copy_buf X86_64 sample_ctx sample_got
  = Some ([0; 0; 8208; 0; 291; 0; 0; 8; 0; 0; 0; 0; 0; 0; 0], 9%nat) /\
  got_construct_relr X86_64 sample_ctx sample_got = Some [16].
Proof. split; vm_compute; reflexivity. Qed.

Definition check_addresses (m : machine) (ctx : Context) (syms : gmap Z Symbol) : bool :=
  bool_decide (map_Forall (fun _ sym => is_imported sym = true \/
    is_Some (get_addr m ctx true false sym) /\ is_Some (get_addr m ctx false false sym)) syms).

Lemma check_addresses_ok m ctx syms : check_addresses m ctx syms = true -> forall s sym, syms !! s = Some sym -> is_imported sym = false ->
  is_Some (get_addr m ctx true false sym) /\ is_Some (get_addr m ctx false false sym).
Proof.
  unfold check_addresses. rewrite bool_decide_eq_true. intros H s sym Hs Hi. destruct (H s sym Hs) as [E|E]; [congruence|done].
Qed.

Lemma sample_got_well_formed : well_formed X86_64 sample_ctx 16384 sample_symbols sample_requests true.
Proof.
  split.
  - decided.
  - intros s Hs. assert (Forall (fun s => is_Some (sample_symbols !! s)) (map fst sample_requests)) as H by decided.
    rewrite Forall_forall in H. by apply H.
  - reflexivity.
  - done.
  - apply check_addresses_ok. vm_compute. reflexivity.
  - decided.
  - done.
Qed.

Lemma got_loads_witness :
  let got := add_symbols X86_64 sample_ctx true sample_requests (new_got X86_64 16384 sample_symbols) in
  (forall s flags, (s, flags) ∈ sample_requests ->
    (needs flags NEEDS_GOT = true -> OGot s ∈ owners got) /\ (needs flags NEEDS_GOTTP = true -> OGottp s ∈ owners got) /\
    (needs flags NEEDS_TLSGD = true -> OTlsgd s ∈ owners got) /\ (needs flags NEEDS_TLSDESC = true -> OTlsdesc s ∈ owners got)) /\
  exists buf rels relr, copy_buf X86_64 sample_ctx got = Some (buf, rels) /\ got_construct_relr X86_64 sample_ctx got = Some relr /\
    word_size X86_64 * zlen buf = sh_size got /\ get_reldyn_size X86_64 sample_ctx got = Some (zlen rels) /\
    forall rels', rels' ≡ₚ rels -> forall o, o ∈ owners got ->
      holds X86_64 sample_ctx sample_runtime got
        (load X86_64 sample_runtime (mem_of X86_64 got buf) (relocated 16384 relr) rels') o.
Proof. apply (got_loads X86_64 sample_ctx sample_runtime); [apply sample_got_well_formed|by split]. Defined.
