(* ===== verification/InputSections.v ===== *)
(** * Absolute and PC-relative relocations of input sections (src/elf/input-sections.cc)

    [scan_relocations] decides for every relocation whether it can be resolved now, needs
    a PLT entry or a copy of the data, or is left to the dynamic loader, and counts the
    dynamic relocations of each file; [apply_dyn_absrel] later writes the words and the
    dynamic relocations into the space that [RelDynSection::update_shdr] has reserved.
    The specification is the loader of [Got] together with the packed relocations of
    [Relr]; the theorems: the dynamic relocations fill the reserved space exactly, after
    loading every word holds the run-time address it stands for, and what is resolved at
    link time is right wherever the file is loaded. *)

From S2P Require Import Prelude Integers Enums ElfConst ElfTypes Relr Got.
Local Open Scope list_scope.
Local Open Scope Z_scope.

(** ** Actions *)

Inductive Action := NONE | ERROR | COPYREL | DYN_COPYREL | PLT | CPLT | DYN_CPLT | DYNREL | BASEREL | IFUNC.

#[export] Instance Action_eq_dec : EqDecision Action.
Proof. solve_decision. Defined.

Definition get_type (sym : Symbol) : Z :=
  if (st_type sym =? constant STT "STT_GNU_IFUNC") && default false (file_is_dso sym) then constant STT "STT_FUNC"
  else st_type sym.

(** [table[3][4]] *)
Definition pcrel_table : list (list Action) :=
  [ [ERROR; NONE; ERROR; PLT]; [ERROR; NONE; COPYREL; PLT]; [NONE; NONE; COPYREL; CPLT] ].
Definition absrel_table : list (list Action) :=
  [ [NONE; ERROR; ERROR; ERROR]; [NONE; ERROR; ERROR; ERROR]; [NONE; NONE; COPYREL; CPLT] ].
Definition dyn_absrel_table : list (list Action) :=
  [ [NONE; BASEREL; DYNREL; DYNREL]; [NONE; BASEREL; DYNREL; DYNREL]; [NONE; NONE; DYN_COPYREL; DYN_CPLT] ].
Definition toc_table : list (list Action) :=
  [ [NONE; BASEREL; DYNREL; DYNREL]; [NONE; BASEREL; DYNREL; DYNREL]; [NONE; NONE; DYNREL; DYNREL] ].

(** The flags of a symbol besides those of [Got]. *)
Definition NEEDS_PLT : Z := Z.shiftl 1 1.
Definition NEEDS_CPLT : Z := Z.shiftl 1 2.
Definition NEEDS_COPYREL : Z := Z.shiftl 1 5.

(** Command line options. *)
Record options := mkOptions { z_text : bool; z_copyreloc : bool }.

(** A live, allocated section of an object file: [get_addr()], flags and alignment of its
    header, its offset in the output section and the relocations of the word size. *)
Record Section_ := mkSection {
  section_addr : Z; writable : bool; execinstr : bool; sh_addralign : Z; p2align : Z; section_offset : Z;
  section_rels : list ElfRel }.

(** An output section: flags, alignment and address of its header, and its members. *)
Record OutputSection_ := mkOutput {
  out_alloc : bool; out_exec : bool; out_addralign : Z; out_addr : Z; out_members : list Section_ }.

Inductive scan_error := Recompile | ProtectedCopy | UnknownRelocation.

(** The state that scanning one file changes. *)
Record scan_state := mkScan {
  flags : gmap Z Z; num_dynrel : Z; num_ifunc_dynrels : Z; has_textrel : bool; errors : list (ElfRel * scan_error) }.

Definition new_scan (fl : gmap Z Z) : scan_state := mkScan fl 0 0 false [].

Section Scan.
Context (m : machine) (ctx : Context) (opt : options) (syms : gmap Z Symbol) (is_protected : Z -> bool).

Definition output_type : nat := if shared ctx then 0 else if pie ctx then 1 else 2.

Definition sym_type (sym : Symbol) : nat :=
  if is_absolute sym then 0
  else if negb (is_imported sym) then 1
  else if negb (get_type sym =? constant STT "STT_FUNC") then 2 else 3.

Definition get_rel_action (table : list (list Action)) (sym : Symbol) : Action :=
  nth (sym_type sym) (nth output_type table []) NONE.

Definition get_pcrel_action (sym : Symbol) : Action := get_rel_action pcrel_table sym.
Definition get_absrel_action (sym : Symbol) : Action := get_rel_action absrel_table sym.
Definition get_dyn_absrel_action (sym : Symbol) : Action := if is_ifunc sym then IFUNC else get_rel_action dyn_absrel_table sym.
Definition get_ppc64_toc_action (sym : Symbol) : Action := if is_ifunc sym then IFUNC else get_rel_action toc_table sym.

Definition is_relr_reloc (isec : Section_) (r : ElfRel) : bool :=
  pack_relr ctx && negb (execinstr isec) && (sh_addralign isec mod word_size m =? 0) && (r_offset r mod word_size m =? 0).

(** ** [scan_rel]; warnings are not modelled *)

Definition add_flag (s flag : Z) (st : scan_state) : scan_state :=
  mkScan (<[s := Z.lor (default 0 (flags st !! s)) flag]> (flags st)) (num_dynrel st) (num_ifunc_dynrels st) (has_textrel st)
    (errors st).
Definition error (r : ElfRel) (e : scan_error) (st : scan_state) : scan_state :=
  mkScan (flags st) (num_dynrel st) (num_ifunc_dynrels st) (has_textrel st) (errors st ++ [(r, e)]).
Definition count_dynrel (st : scan_state) : scan_state :=
  mkScan (flags st) (num_dynrel st + 1) (num_ifunc_dynrels st) (has_textrel st) (errors st).
Definition set_textrel (st : scan_state) : scan_state :=
  mkScan (flags st) (num_dynrel st) (num_ifunc_dynrels st) true (errors st).
Definition count_ifunc (st : scan_state) : scan_state :=
  mkScan (flags st) (num_dynrel st) (num_ifunc_dynrels st + 1) (has_textrel st) (errors st).

Definition check_textrel (isec : Section_) (r : ElfRel) (st : scan_state) : scan_state :=
  if writable isec then st else set_textrel (if z_text opt then error r Recompile st else st).

Definition dynrel (isec : Section_) (r : ElfRel) (st : scan_state) : scan_state := count_dynrel (check_textrel isec r st).

Definition copyrel (r : ElfRel) (st : scan_state) : scan_state :=
  add_flag (r_sym r) NEEDS_COPYREL (if is_protected (r_sym r) then error r ProtectedCopy st else st).

Definition scan_rel (isec : Section_) (r : ElfRel) (action : Action) (st : scan_state) : scan_state :=
  match action with
  | NONE => st
  | ERROR => error r Recompile st
  | COPYREL => copyrel r (if z_copyreloc opt then st else error r Recompile st)
  | DYN_COPYREL => if writable isec || negb (z_copyreloc opt) then dynrel isec r st else copyrel r st
  | PLT => add_flag (r_sym r) NEEDS_PLT st
  | CPLT => add_flag (r_sym r) NEEDS_CPLT st
  | DYN_CPLT => if writable isec then dynrel isec r st else add_flag (r_sym r) NEEDS_CPLT st
  | DYNREL => dynrel isec r st
  | BASEREL => let st := check_textrel isec r st in if is_relr_reloc isec r then st else count_dynrel st
  | IFUNC => count_ifunc (dynrel isec r st)
  end.

Definition scan_with (action : Symbol -> Action) (isec : Section_) (st : scan_state) (r : ElfRel) : option scan_state :=
  sym ← syms !! r_sym r; Some (scan_rel isec r (action sym) st).

Definition scan_pcrel := scan_with get_pcrel_action.
Definition scan_absrel := scan_with get_absrel_action.
Definition scan_dyn_absrel := scan_with get_dyn_absrel_action.
Definition scan_toc_rel := scan_with get_ppc64_toc_action.

(** ** [apply_absrel]: the word that is stored at the place and the dynamic relocation *)

(** [apply_dynrel] *)
Definition apply_dynrel (r : ElfRel) (sym : Symbol) (P : Z) : option Z * option ElfRel :=
  (if apply_dynamic_relocs ctx then Some (word m (r_addend r)) else None,
   Some (new_rel m P (R_ABS (target_of m)) (dynsym_idx (aux sym)) (r_addend r))).

(** [None] is unreachable code or a fatal error of [get_addr]. *)
Definition apply_absrel (isec : Section_) (r : ElfRel) (sym : Symbol) (S P : Z) (action : Action) : option (option Z * option ElfRel) :=
  let value := word m (S + r_addend r) in
  match action with
  | COPYREL | CPLT | NONE => Some (Some value, None)
  | BASEREL =>
      if is_relr_reloc isec r then Some (Some value, None)
      else Some (if apply_dynamic_relocs ctx then Some value else None,
                 Some (new_rel m P (R_RELATIVE (target_of m)) 0 (u64 (S + r_addend r))))
  | DYN_COPYREL => if writable isec || negb (z_copyreloc opt) then Some (apply_dynrel r sym P) else Some (Some value, None)
  | DYN_CPLT => if writable isec then Some (apply_dynrel r sym P) else Some (Some value, None)
  | DYNREL => Some (apply_dynrel r sym P)
  | IFUNC =>
      t ← R_IRELATIVE (target_of m); a ← get_addr m ctx true false sym;
      let addr := u64 (a + r_addend r) in
      Some (if apply_dynamic_relocs ctx then Some (word m addr) else None, Some (new_rel m P t 0 addr))
  | _ => None
  end.

Definition place (isec : Section_) (r : ElfRel) : Z := u64 (section_addr isec + r_offset r).

(** The [switch] of the architectures calls one of these two for a relocation of the
    word size. *)
Definition apply_dyn_absrel (isec : Section_) (r : ElfRel) : option (option Z * option ElfRel) :=
  sym ← syms !! r_sym r; S ← get_addr m ctx false false sym;
  apply_absrel isec r sym S (place isec r) (get_dyn_absrel_action sym).

Definition apply_toc_rel (isec : Section_) (r : ElfRel) : option (option Z * option ElfRel) :=
  sym ← syms !! r_sym r; S ← get_addr m ctx false false sym;
  apply_absrel isec r sym S (place isec r) (get_ppc64_toc_action sym).

(** ** Whole files

    [toc] tells which of the two functions the relocations use. *)
Context (toc : bool).

Definition word_action (sym : Symbol) : Action := if toc then get_ppc64_toc_action sym else get_dyn_absrel_action sym.
Definition apply_word (isec : Section_) (r : ElfRel) : option (option Z * option ElfRel) :=
  if toc then apply_toc_rel isec r else apply_dyn_absrel isec r.

Fixpoint scan_section (isec : Section_) (rels : list ElfRel) (st : scan_state) : option scan_state :=
  match rels with
  | [] => Some st
  | r :: rels => st ← (if toc then scan_toc_rel isec st r else scan_dyn_absrel isec st r); scan_section isec rels st
  end.

(** [ObjectFile::scan_relocations]: also the [reldyn_offset] of every section, counted in
    relocations instead of bytes. *)
Fixpoint scan_file (secs : list Section_) (st : scan_state) : option (list Z * scan_state) :=
  match secs with
  | [] => Some ([], st)
  | isec :: secs =>
      st' ← scan_section isec (section_rels isec) st;
      '(offs, st'') ← scan_file secs st'; Some (num_dynrel st :: offs, st'')
  end.

(** The flags of symbols are shared by all files. *)
Fixpoint scan_files (fl : gmap Z Z) (files : list (list Section_)) : option (list (list Z * scan_state)) :=
  match files with
  | [] => Some []
  | file :: files =>
      '(offs, st) ← scan_file file (new_scan fl);
      rest ← scan_files (flags st) files; Some ((offs, st) :: rest)
  end.

(** [RelDynSection::update_shdr]: [base] relocations of chunks come first; where the
    relocations of every section start, and the size of the section. *)
Fixpoint reldyn_offsets (base : Z) (files : list (list Z * scan_state)) : list (list Z) :=
  match files with
  | [] => []
  | (offs, st) :: files => map (Z.add base) offs :: reldyn_offsets (base + num_dynrel st) files
  end.
Definition reldyn_size (base : Z) (files : list (list Z * scan_state)) : Z :=
  foldl (fun n p => n + num_dynrel p.2) base files.

(** [*dynrel++ = rel], [dynrel] being the [i]-th relocation of [.rel.dyn]. *)
Definition emit (slots : list (option ElfRel)) (i : Z) (rel : ElfRel) : option (list (option ElfRel)) :=
  if (0 <=? i) && (i <? zlen slots) then Some (<[Z.to_nat i := Some rel]> slots) else None.

(** The loop of [apply_reloc_alloc] over the relocations of the word size. *)
Fixpoint apply_section (isec : Section_) (rels : list ElfRel) (i : Z) (st : memory * list (option ElfRel)) :
    option (memory * list (option ElfRel)) :=
  match rels with
  | [] => Some st
  | r :: rels =>
      '(w, d) ← apply_word isec r;
      let mem := match w with Some v => upd st.1 (place isec r) v | None => st.1 end in
      match d with
      | Some rel => slots ← emit st.2 i rel; apply_section isec rels (i + 1) (mem, slots)
      | None => apply_section isec rels i (mem, st.2)
      end
  end.

Fixpoint apply_sections (todo : list (Section_ * Z)) (st : memory * list (option ElfRel)) : option (memory * list (option ElfRel)) :=
  match todo with
  | [] => Some st
  | (isec, i) :: todo => st ← apply_section isec (section_rels isec) i st; apply_sections todo st
  end.

(** What [construct_relr] sees of an output section. *)
Definition relr_rel (r : ElfRel) : Relr.ElfRel :=
  let sym := syms !! r_sym r in
  Relr.mkElfRel (r_offset r) (rel_type r) (default true (is_absolute <$> sym)) (default true (is_imported <$> sym)).
Definition relr_section (isec : Section_) : Relr.InputSection :=
  Relr.mkInputSection (p2align isec) (section_offset isec) (map relr_rel (section_rels isec)).
Definition relr_output (osec : OutputSection_) : Relr.OutputSection :=
  Relr.mkOutputSection (out_alloc osec) (out_exec osec) (out_addralign osec) (out_addr osec) (map relr_section (out_members osec)).
End Scan.

(** ** What scanning counts *)

Definition flagged (fl : gmap Z Z) (s bit : Z) : bool := needs (default 0 (fl !! s)) bit.
Definition flags_le (fl fl' : gmap Z Z) : Prop := forall s bit, flagged fl s bit = true -> flagged fl' s bit = true.

#[export] Instance flags_le_preorder : PreOrder flags_le.
Proof. split; [by intros fl s bit|intros f g h H1 H2 s bit H; by apply H2, H1]. Qed.

Lemma needs_lor f g bit : needs (Z.lor f g) bit = needs f bit || needs g bit.
Proof.
  unfold needs. rewrite Z.land_lor_distr_l. destruct (Z.eqb_spec (Z.lor (Z.land f bit) (Z.land g bit)) 0) as [E|E].
  - apply Z.lor_eq_0_iff in E as [-> ->]. done.
  - destruct (Z.eqb_spec (Z.land f bit) 0) as [E1|]; [|done]. destruct (Z.eqb_spec (Z.land g bit) 0) as [E2|]; [|done].
    rewrite E1, E2 in E. done.
Qed.

Lemma add_flag_flagged s flag st s' bit :
  flagged (flags (add_flag s flag st)) s' bit = flagged (flags st) s' bit || (bool_decide (s = s') && needs flag bit).
Proof.
  unfold flagged. simpl. case_bool_decide as E.
  - subst. rewrite lookup_insert_eq. apply needs_lor.
  - rewrite lookup_insert_ne by done. by rewrite orb_false_r.
Qed.

Lemma add_flag_le s flag st : flags_le (flags st) (flags (add_flag s flag st)).
Proof. intros s' bit H. by rewrite add_flag_flagged, H. Qed.

Section Proofs.
Context (m : machine) (ctx : Context) (opt : options) (is_protected : Z -> bool) (toc : bool).

(** The actions that the tables for the word size have. *)
Definition word_sized (a : Action) : Prop := a ∈ [NONE; BASEREL; DYNREL; DYN_COPYREL; DYN_CPLT; IFUNC].

Lemma sym_type_range sym : (sym_type sym < 4)%nat.
Proof. unfold sym_type. repeat case_match; lia. Qed.

Lemma word_action_cases sym : word_sized (word_action ctx toc sym).
Proof.
  unfold word_action, get_ppc64_toc_action, get_dyn_absrel_action, get_rel_action, output_type, word_sized.
  pose proof (sym_type_range sym). destruct (sym_type sym) as [|[|[|[]]]]; [..|lia];
    destruct toc, (is_ifunc sym), (shared ctx), (pie ctx); decided.
Qed.

(** Whether a relocation becomes a dynamic one. *)
Definition is_dynamic (isec : Section_) (r : ElfRel) (a : Action) : bool :=
  match a with
  | BASEREL => negb (is_relr_reloc m ctx isec r)
  | DYN_COPYREL => writable isec || negb (z_copyreloc opt)
  | DYN_CPLT => writable isec
  | DYNREL | IFUNC => true
  | _ => false
  end.

Lemma check_textrel_same isec r st : num_dynrel (check_textrel opt isec r st) = num_dynrel st /\
  flags (check_textrel opt isec r st) = flags st.
Proof. unfold check_textrel. by repeat case_match. Qed.

Lemma scan_rel_count isec r a st : word_sized a ->
  num_dynrel (scan_rel m ctx opt is_protected isec r a st) = num_dynrel st + Z.b2z (is_dynamic isec r a).
Proof.
  pose proof (check_textrel_same isec r st) as [E _]. unfold word_sized.
  intros Ha. destruct a; try (exfalso; revert Ha; decided);
    simpl; repeat case_match; simpl; unfold copyrel; repeat case_match; simpl; rewrite ?E; lia.
Qed.

Lemma scan_rel_flags isec r a st : flags_le (flags st) (flags (scan_rel m ctx opt is_protected isec r a st)).
Proof.
  pose proof (check_textrel_same isec r st) as [_ E].
  assert (C : forall st, flags_le (flags st) (flags (copyrel is_protected r st))).
  { intros st'. unfold copyrel. destruct (is_protected _); [etransitivity; [|apply add_flag_le]|apply add_flag_le]. done. }
  destruct a; simpl; repeat case_match; simpl; rewrite ?E; try done; try apply add_flag_le; try apply C.
Qed.

(** Resolving now needs the flag that makes the symbol's address final. *)
Lemma scan_rel_flagged isec r a st : a ∈ [DYN_COPYREL; DYN_CPLT; COPYREL; CPLT] -> is_dynamic isec r a = false ->
  let fl := flags (scan_rel m ctx opt is_protected isec r a st) in
  flagged fl (r_sym r) NEEDS_COPYREL || flagged fl (r_sym r) NEEDS_CPLT = true.
Proof.
  assert (C : forall st, flagged (flags (copyrel is_protected r st)) (r_sym r) NEEDS_COPYREL = true).
  { intros st'. unfold copyrel. rewrite add_flag_flagged, bool_decide_eq_true_2 by done. apply orb_true_r. }
  assert (P : forall st, flagged (flags (add_flag (r_sym r) NEEDS_CPLT st)) (r_sym r) NEEDS_CPLT = true).
  { intros st'. rewrite add_flag_flagged, bool_decide_eq_true_2 by done. apply orb_true_r. }
  intros Ha Hd. destruct a; try (exfalso; revert Ha; decided); cbn [scan_rel is_dynamic] in *; rewrite ?Hd, ?C, ?P; try done;
    apply orb_true_r.
Qed.

Context (syms0 syms : gmap Z Symbol).

(** Between the two passes a symbol may get entries in tables, but not another kind. *)
Definition same_kind (sym0 sym : Symbol) : Prop := sym_type sym = sym_type sym0 /\ is_ifunc sym = is_ifunc sym0.
Hypothesis Hsame : forall s sym0 sym, syms0 !! s = Some sym0 -> syms !! s = Some sym -> same_kind sym0 sym.

Lemma word_action_same sym0 sym : same_kind sym0 sym -> word_action ctx toc sym = word_action ctx toc sym0.
Proof.
  intros [E1 E2]. unfold word_action, get_ppc64_toc_action, get_dyn_absrel_action, get_rel_action. by rewrite E1, E2.
Qed.

Abbreviation apply_word := (apply_word m ctx opt syms toc).

Definition result (isec : Section_) (r : ElfRel) : option Z * option ElfRel := default (None, None) (apply_word isec r).
Definition dyns (isec : Section_) (rels : list ElfRel) : list ElfRel := omap (fun r => (result isec r).2) rels.

(** What [apply_word] does to a relocation whose symbol and address are known. *)
Lemma apply_word_unfold isec r sym S : syms !! r_sym r = Some sym -> get_addr m ctx false false sym = Some S ->
  apply_word isec r = apply_absrel m ctx opt isec r sym S (place isec r) (word_action ctx toc sym).
Proof.
  intros Hs Ha. unfold InputSections.apply_word, word_action, apply_toc_rel, apply_dyn_absrel.
  destruct toc; rewrite Hs; cbn [mbind option_bind]; by rewrite Ha.
Qed.

Lemma apply_word_dynamic isec r x : apply_word isec r = Some x ->
  exists sym, syms !! r_sym r = Some sym /\ bool_decide (is_Some x.2) = is_dynamic isec r (word_action ctx toc sym).
Proof.
  intros E. assert (exists sym S, syms !! r_sym r = Some sym /\ get_addr m ctx false false sym = Some S) as (sym & S & Hs & Ha).
  { unfold InputSections.apply_word, apply_toc_rel, apply_dyn_absrel in E.
    destruct toc; (destruct (syms !! r_sym r) as [sym|] eqn:Hs; cbn [mbind option_bind] in E; [|done]);
      destruct (get_addr _ _ _ _ sym) as [S|] eqn:Ha; cbn [mbind option_bind] in E; eauto; done. }
  exists sym. split; [done|]. rewrite (apply_word_unfold isec r sym S Hs Ha) in E.
  unfold apply_absrel, apply_dynrel in E. cbv zeta in E. destruct (word_action ctx toc sym); cbn [is_dynamic] in *; try done.
  1-7: try destruct (is_relr_reloc _ _ _ _); try destruct (writable isec); try destruct (z_copyreloc opt); by simplify_eq/=.
  destruct (R_IRELATIVE _); [|done]; cbn [mbind option_bind] in E.
  destruct (get_addr _ _ true _ _); [|done]; cbn [mbind option_bind] in E. by simplify_eq/=.
Qed.

(** ** Scanning reserves what applying writes *)

Abbreviation scan_section := (scan_section m ctx opt syms0 is_protected toc).
Abbreviation scan_file := (scan_file m ctx opt syms0 is_protected toc).
Abbreviation scan_files := (scan_files m ctx opt syms0 is_protected toc).

Lemma scan_step_unfold isec r st :
  (if toc then scan_toc_rel m ctx opt syms0 is_protected isec st r else scan_dyn_absrel m ctx opt syms0 is_protected isec st r) =
  (sym ← syms0 !! r_sym r; Some (scan_rel m ctx opt is_protected isec r (word_action ctx toc sym) st)).
Proof. by destruct toc. Qed.

Definition ready (isec : Section_) (r : ElfRel) : Prop := is_Some (syms0 !! r_sym r) /\ is_Some (apply_word isec r).

Lemma scan_section_count isec rels st : Forall (ready isec) rels ->
  exists st', scan_section isec rels st = Some st' /\ num_dynrel st' = num_dynrel st + zlen (dyns isec rels) /\
    flags_le (flags st) (flags st') /\
    forall r sym, r ∈ rels -> syms !! r_sym r = Some sym -> word_action ctx toc sym ∈ [DYN_COPYREL; DYN_CPLT] ->
      (result isec r).2 = None -> flagged (flags st') (r_sym r) NEEDS_COPYREL || flagged (flags st') (r_sym r) NEEDS_CPLT = true.
Proof.
  intros H. revert st. induction H as [|r rels [[sym0 Hs0] [x Hx]] _ IH]; intros st.
  { exists st. unfold zlen. simpl. split; [done|]. split; [lia|]. split; [done|]. intros r sym Hr. by apply elem_of_nil in Hr. }
  cbn [InputSections.scan_section]. rewrite scan_step_unfold, Hs0. cbn [mbind option_bind].
  destruct (apply_word_dynamic isec r x Hx) as (sym & Hs & Hd). pose proof (word_action_same _ _ (Hsame _ _ _ Hs0 Hs)) as Ea.
  rewrite <- Ea. set (st1 := scan_rel _ _ _ _ _ _ _ st).
  destruct (IH st1) as (st' & -> & En & Hle & Hf). exists st'. split; [done|].
  assert (Er : result isec r = x) by (unfold result; by rewrite Hx).
  split; [|split].
  - rewrite En. unfold st1. rewrite scan_rel_count by apply word_action_cases. rewrite <- Hd. unfold dyns. cbn [omap list_omap].
    rewrite Er. destruct x.2; unfold zlen; simpl; lia.
  - etransitivity; [|exact Hle]. apply scan_rel_flags.
  - intros r' sym' Hr Hs' Ha Hn. apply elem_of_cons in Hr as [->|Hr]; [|by apply (Hf r' sym')].
    assert (sym' = sym) as -> by congruence. rewrite Er in Hn. rewrite Hn in Hd.
    assert (F : forall bit, flagged (flags st1) (r_sym r) bit = true -> flagged (flags st') (r_sym r) bit = true) by (intros; by apply Hle).
    assert (Hin : word_action ctx toc sym ∈ [DYN_COPYREL; DYN_CPLT; COPYREL; CPLT]) by set_solver.
    pose proof (scan_rel_flagged isec r _ st Hin (eq_sym Hd)) as G. fold st1 in G. cbv zeta in G.
    apply orb_true_iff in G as [G|G]; apply F in G; rewrite G; [done|apply orb_true_r].
Qed.

(** Ranges of [.rel.dyn], one after another. *)
Definition dyns_of (isec : Section_) : list ElfRel := dyns isec (section_rels isec).

Fixpoint tiles (a : Z) (todo : list (Section_ * Z)) (b : Z) : Prop :=
  match todo with
  | [] => a = b
  | (isec, i) :: todo => i = a /\ tiles (a + zlen (dyns_of isec)) todo b
  end.

Lemma tiles_app a t1 t2 b c : tiles a t1 b -> tiles b t2 c -> tiles a (t1 ++ t2) c.
Proof. revert a. induction t1 as [|[isec i] t1 IH]; intros a; simpl; [by intros ->|]. intros [-> H1] H2. split; [done|by apply IH]. Qed.

Lemma tiles_shift k a secs offs b : tiles a (zip secs offs) b -> tiles (k + a) (zip secs (map (Z.add k) offs)) (k + b).
Proof.
  revert a offs. induction secs as [|isec secs IH]; intros a [|i offs]; simpl; try lia.
  intros [-> H]. split; [done|]. rewrite <- Z.add_assoc. by apply IH.
Qed.

Lemma tiles_concat a todo b : tiles a todo b -> b = a + zlen (concat (map (fun p => dyns_of p.1) todo)).
Proof.
  revert a. induction todo as [|[isec i] todo IH]; intros a; simpl; [unfold zlen; simpl; lia|].
  intros [-> H]. rewrite (IH _ H), zlen_app. simpl. lia.
Qed.

Definition file_ready (file : list Section_) : Prop := Forall (fun isec => Forall (ready isec) (section_rels isec)) file.

(** The symbols whose final address the section contents rely on. *)
Definition relies_on (fl : gmap Z Z) (isec : Section_) : Prop :=
  forall r sym, r ∈ section_rels isec -> syms !! r_sym r = Some sym -> word_action ctx toc sym ∈ [DYN_COPYREL; DYN_CPLT] ->
    (result isec r).2 = None -> flagged fl (r_sym r) NEEDS_COPYREL || flagged fl (r_sym r) NEEDS_CPLT = true.

Lemma relies_on_le fl fl' isec : flags_le fl fl' -> relies_on fl isec -> relies_on fl' isec.
Proof.
  intros Hle H r sym Hr Hs Ha Hn. specialize (H r sym Hr Hs Ha Hn).
  apply orb_true_iff in H as [H|H]; apply Hle in H; rewrite H; [done|apply orb_true_r].
Qed.

Lemma scan_file_tiles file st : file_ready file -> exists offs st', scan_file file st = Some (offs, st') /\
  length offs = length file /\ tiles (num_dynrel st) (zip file offs) (num_dynrel st') /\ flags_le (flags st) (flags st') /\
  Forall (relies_on (flags st')) file.
Proof.
  intros H. revert st. induction H as [|isec file Hi _ IH]; intros st; [by exists [], st; repeat split|].
  destruct (scan_section_count isec (section_rels isec) st Hi) as (st1 & E & En & Hle & Hf).
  destruct (IH st1) as (offs & st' & E' & El & Ht & Hle' & Hr). exists (num_dynrel st :: offs), st'.
  cbn [InputSections.scan_file]. rewrite E. cbn [mbind option_bind]. rewrite E'. split; [done|]. split; [simpl; by rewrite El|].
  split; [|split].
  - simpl. split; [done|]. by rewrite En in Ht.
  - by etransitivity.
  - constructor; [|done]. by eapply relies_on_le.
Qed.

Definition final_flags (fl : gmap Z Z) (results : list (list Z * scan_state)) : gmap Z Z := foldl (fun _ p => flags p.2) fl results.

Definition sections_of (files : list (list Section_)) (offs : list (list Z)) : list (Section_ * Z) :=
  concat (zip_with zip files offs).

Lemma scan_files_tiles files fl base : Forall file_ready files -> exists results, scan_files fl files = Some results /\
  tiles base (sections_of files (reldyn_offsets base results)) (reldyn_size base results) /\
  map fst (sections_of files (reldyn_offsets base results)) = concat files /\
  flags_le fl (final_flags fl results) /\ Forall (Forall (relies_on (final_flags fl results))) files.
Proof.
  intros H. revert fl base. induction H as [|file files Hf _ IH]; intros fl base; [by exists []; repeat split|].
  destruct (scan_file_tiles file (new_scan fl) Hf) as (offs & st & E & El & Ht & Hle & Hr).
  destruct (IH (flags st) (base + num_dynrel st)) as (results & E' & Ht' & Em & Hle' & Hr').
  exists ((offs, st) :: results). cbn [InputSections.scan_files]. rewrite E. cbn [mbind option_bind]. rewrite E'. split; [done|].
  unfold sections_of. cbn [reldyn_offsets zip_with concat]. split; [|split; [|split]].
  - eapply tiles_app; [|exact Ht']. apply (tiles_shift base) in Ht. by rewrite Z.add_0_r in Ht.
  - rewrite map_app. f_equal; [|exact Em]. apply fst_zip. rewrite length_map. lia.
  - unfold final_flags. simpl. by etransitivity.
  - constructor; [|done]. eapply Forall_impl; [exact Hr|]. intros isec. by apply relies_on_le.
Qed.

(** ** Applying fills the ranges and stores the words *)

Abbreviation apply_section := (apply_section m ctx opt syms toc).
Abbreviation apply_sections := (apply_sections m ctx opt syms toc).

Definition store_word (mem : memory) (p : Section_ * ElfRel) : memory :=
  match (result p.1 p.2).1 with Some v => upd mem (place p.1 p.2) v | None => mem end.
Definition pairs (secs : list Section_) : list (Section_ * ElfRel) :=
  concat (map (fun isec => map (pair isec) (section_rels isec)) secs).

Definition range (p : Section_ * Z) : list Z := seqZ p.2 (zlen (dyns_of p.1)).

Lemma apply_section_ok isec rels i mem slots : Forall (ready isec) rels -> 0 <= i -> i + zlen (dyns isec rels) <= zlen slots ->
  exists slots', apply_section isec rels i (mem, slots) = Some (foldl store_word mem (map (pair isec) rels), slots') /\
    zlen slots' = zlen slots /\
    (forall k d, dyns isec rels !! k = Some d -> slots' !! (Z.to_nat i + k)%nat = Some (Some d)) /\
    (forall j, Z.of_nat j ∉ seqZ i (zlen (dyns isec rels)) -> slots' !! j = slots !! j).
Proof.
  intros H. revert i mem slots. induction H as [|r rels [_ [[w d] Hx]] _ IH]; intros i mem slots Hi Hn.
  { exists slots. by repeat split. }
  assert (Er : result isec r = (w, d)) by (unfold result; by rewrite Hx).
  assert (Ed : dyns isec (r :: rels) = option_list d ++ dyns isec rels).
  { unfold dyns. cbn [omap list_omap]. rewrite Er. by destruct d. }
  rewrite Ed in Hn |- *. cbn [InputSections.apply_section]. rewrite Hx. cbn [mbind option_bind fst snd map foldl].
  replace (match w with Some v => upd mem (place isec r) v | None => mem end) with (store_word mem (isec, r))
    by (unfold store_word; cbn [fst snd]; by rewrite Er).
  destruct d as [d|]; [|by apply IH]. rewrite zlen_app in Hn. change (zlen (option_list (Some d))) with 1 in *.
  pose proof (zlen_nonneg (dyns isec rels)). unfold emit.
  destruct (Z.leb_spec 0 i); [|lia]. destruct (Z.ltb_spec i (zlen slots)); [|lia]. cbn [andb mbind option_bind].
  assert (Elen : zlen (<[Z.to_nat i := Some d]> slots) = zlen slots) by (unfold zlen; by rewrite length_insert).
  destruct (IH (i + 1) (store_word mem (isec, r)) (<[Z.to_nat i := Some d]> slots)) as (slots' & E & El & Hin & Hout); [lia|lia|].
  exists slots'. split; [exact E|]. split; [lia|]. split.
  - intros [|k] d' Hd; cbn [option_list app] in Hd; simpl in Hd.
    + injection Hd as <-. rewrite Hout by (rewrite elem_of_seqZ; lia). rewrite Nat.add_0_r. apply list_lookup_insert_eq.
      unfold zlen in *. lia.
    + replace (Z.to_nat i + S k)%nat with (Z.to_nat (i + 1) + k)%nat by lia. by apply Hin.
  - intros j Hj. rewrite zlen_app in Hj. change (zlen (option_list (Some d))) with 1 in Hj. rewrite elem_of_seqZ in Hj.
    rewrite Hout by (rewrite elem_of_seqZ; lia). apply list_lookup_insert_ne. lia.
Qed.

Lemma apply_sections_ok todo mem slots : file_ready (map fst todo) -> NoDup (concat (map range todo)) ->
  Forall (fun p => 0 <= p.2 /\ p.2 + zlen (dyns_of p.1) <= zlen slots) todo ->
  exists slots', apply_sections todo (mem, slots) = Some (foldl store_word mem (pairs (map fst todo)), slots') /\
    zlen slots' = zlen slots /\
    (forall p k d, p ∈ todo -> dyns_of p.1 !! k = Some d -> slots' !! (Z.to_nat p.2 + k)%nat = Some (Some d)) /\
    (forall j, Z.of_nat j ∉ concat (map range todo) -> slots' !! j = slots !! j).
Proof.
  intros Hr Hn Hb. revert mem slots Hb. induction todo as [|[isec i] todo IH]; intros mem slots Hb.
  { exists slots. split; [done|]. split; [done|]. split; [|done]. intros p k d Hp. by apply elem_of_nil in Hp. }
  apply Forall_cons in Hr as [Hr Hrs]. apply Forall_cons in Hb as [Hb Hbs]. cbn [map concat fst snd] in *.
  apply NoDup_app in Hn as (_ & Hd & Hn).
  destruct (apply_section_ok isec (section_rels isec) i mem slots Hr (proj1 Hb) (proj2 Hb)) as (slots1 & E & El & Hin & Hout).
  destruct (IH Hrs Hn (foldl store_word mem (map (pair isec) (section_rels isec))) slots1) as (slots' & E' & El' & Hin' & Hout').
  { by rewrite El. }
  exists slots'. cbn [InputSections.apply_sections]. rewrite E. cbn [mbind option_bind]. rewrite E'.
  split; [unfold pairs; cbn [map concat]; by rewrite foldl_app|]. split; [lia|]. split.
  - intros p k d Hp Hk. apply elem_of_cons in Hp as [->|Hp]; [|by apply Hin']. cbn [fst snd] in *.
    assert (Hkl : (k < length (dyns_of isec))%nat) by (by apply lookup_lt_Some in Hk).
    rewrite Hout'; [by apply Hin|]. apply Hd. unfold range. cbn [fst snd]. rewrite elem_of_seqZ. unfold zlen. lia.
  - intros j Hj. rewrite elem_of_app in Hj. rewrite Hout' by tauto. apply Hout. unfold range in Hj. cbn [fst snd] in Hj. tauto.
Qed.

Lemma tiles_ranges a todo b : tiles a todo b -> concat (map range todo) = seqZ a (b - a).
Proof.
  revert a. induction todo as [|[isec i] todo IH]; intros a; simpl; [intros ->; by rewrite Z.sub_diag|].
  intros [-> H]. rewrite (IH _ H). unfold range. cbn [fst snd]. pose proof (tiles_concat _ _ _ H) as E.
  pose proof (zlen_nonneg (dyns_of isec)). pose proof (zlen_nonneg (concat (map (fun p => dyns_of p.1) todo))).
  replace (b - a) with (zlen (dyns_of isec) + (b - (a + zlen (dyns_of isec)))) by lia. symmetry. apply seqZ_app; lia.
Qed.

Lemma tiles_bounds a todo b : tiles a todo b -> Forall (fun p => a <= p.2 /\ p.2 + zlen (dyns_of p.1) <= b) todo.
Proof.
  revert a. induction todo as [|[isec i] todo IH]; intros a; simpl; [constructor|].
  intros [-> H]. pose proof (tiles_concat _ _ _ H). pose proof (zlen_nonneg (concat (map (fun p => dyns_of p.1) todo))).
  constructor; [simpl; lia|]. eapply Forall_impl; [by apply IH|]. pose proof (zlen_nonneg (dyns_of isec)). simpl. intros p. lia.
Qed.

Lemma tiles_lookup a todo b k d : tiles a todo b -> concat (map (fun p => dyns_of p.1) todo) !! k = Some d ->
  exists p k', p ∈ todo /\ dyns_of p.1 !! k' = Some d /\ p.2 + Z.of_nat k' = a + Z.of_nat k.
Proof.
  revert a k. induction todo as [|[isec i] todo IH]; intros a k; simpl; [done|].
  intros [-> H] Hk. apply lookup_app_Some in Hk as [Hk|[Hle Hk]].
  - exists (isec, a), k. split; [constructor|done].
  - destruct (IH _ _ H Hk) as (p & k' & Hp & Hk' & E). exists p, k'. split; [by constructor|]. split; [done|].
    unfold zlen in E. lia.
Qed.

(** Whatever the order in which the sections are written, the relocations end up in file
    order behind those of the chunks, in exactly the reserved space. *)
Lemma reldyn_filled base todo size order mem : 0 <= base -> tiles base todo size -> file_ready (map fst todo) -> order ≡ₚ todo ->
  apply_sections order (mem, replicate (Z.to_nat size) None) =
    Some (foldl store_word mem (pairs (map fst order)),
          replicate (Z.to_nat base) None ++ map Some (concat (map (fun p => dyns_of p.1) todo))).
Proof.
  intros Hb Ht Hr Ho. pose proof (tiles_concat _ _ _ Ht) as Es. set (ds := concat _) in *. pose proof (zlen_nonneg ds) as Hds.
  assert (Ep : concat (map range order) ≡ₚ seqZ base (size - base)) by (rewrite <- (tiles_ranges _ _ _ Ht), Ho; done).
  assert (El : zlen (replicate (Z.to_nat size) (@None ElfRel)) = size) by (unfold zlen; rewrite length_replicate; lia).
  destruct (apply_sections_ok order mem (replicate (Z.to_nat size) None)) as (slots & -> & En & Hin & Hout).
  - unfold file_ready. by rewrite Ho.
  - rewrite Ep. apply NoDup_seqZ.
  - rewrite El, Ho. eapply Forall_impl; [by apply tiles_bounds|]. simpl. intros p. lia.
  - do 2 f_equal. apply list_eq. intros j. destruct (Z.lt_ge_cases (Z.of_nat j) base) as [Hj|Hj].
    + rewrite Hout by (rewrite Ep, elem_of_seqZ; lia). rewrite lookup_app_l by (rewrite length_replicate; lia).
      rewrite !lookup_replicate_2 by lia. done.
    + rewrite lookup_app_r by (rewrite length_replicate; lia). rewrite length_replicate, list_lookup_fmap.
      destruct (ds !! (j - Z.to_nat base)%nat) as [d|] eqn:Ed; simpl.
      * destruct (tiles_lookup _ _ _ _ _ Ht Ed) as (p & k & Hp & Hk & E). rewrite <- Ho in Hp.
        rewrite <- (Hin p k d Hp Hk). f_equal. pose proof (tiles_bounds _ _ _ Ht) as Hbd. rewrite Forall_forall in Hbd.
        rewrite Ho in Hp. specialize (Hbd p Hp). lia.
      * apply lookup_ge_None in Ed. apply lookup_ge_None. unfold zlen in *. lia.
Qed.

(** ** What the loader makes of the words *)

Definition place_of (p : Section_ * ElfRel) : Z := place p.1 p.2.

Lemma pairs_elem isec r secs : (isec, r) ∈ pairs secs <-> isec ∈ secs /\ r ∈ section_rels isec.
Proof.
  unfold pairs. rewrite list_elem_of_In, in_concat. split.
  - intros (l & (isec' & <- & H1)%in_map_iff & (r' & [= <- <-] & H2)%in_map_iff). by rewrite !list_elem_of_In.
  - intros [H1 H2]. exists (map (pair isec) (section_rels isec)). split.
    + apply in_map_iff. exists isec. by rewrite <- list_elem_of_In.
    + apply in_map_iff. exists r. by rewrite <- list_elem_of_In.
Qed.

Lemma pairs_perm secs secs' : secs ≡ₚ secs' -> pairs secs ≡ₚ pairs secs'.
Proof. intros H. unfold pairs. by rewrite H. Qed.

Lemma store_words_other l mem x : x ∉ map place_of l -> foldl store_word mem l x = mem x.
Proof.
  revert mem. induction l as [|p l IH]; intros mem H; [done|]. cbn [map foldl] in *. rewrite not_elem_of_cons in H.
  rewrite IH by tauto. unfold store_word. destruct (result _ _).1; [|done]. apply upd_ne. apply H.
Qed.

Lemma store_words_at l mem p : NoDup (map place_of l) -> p ∈ l ->
  foldl store_word mem l (place_of p) = default (mem (place_of p)) (result p.1 p.2).1.
Proof.
  revert mem. induction l as [|q l IH]; intros mem Hn Hp; [by apply elem_of_nil in Hp|].
  cbn [map foldl] in *. apply NoDup_cons in Hn as [Hq Hn]. apply elem_of_cons in Hp as [->|Hp].
  - rewrite store_words_other by done. unfold store_word. destruct (result _ _).1; [|done]. apply upd_eq.
  - rewrite IH by done. unfold store_word. destruct (result q.1 q.2).1; [|done]. rewrite upd_ne; [done|].
    intros E. apply Hq. unfold place_of at 1 in E. apply list_elem_of_fmap. exists p. split; [|done]. unfold place_of. by symmetry.
Qed.

Lemma place_inj l p q : NoDup (map place_of l) -> p ∈ l -> q ∈ l -> place_of p = place_of q -> p = q.
Proof.
  intros Hn [i Hi]%list_elem_of_lookup [j Hj]%list_elem_of_lookup E.
  assert (Hi' : map place_of l !! i = Some (place_of p)) by (rewrite list_lookup_fmap, Hi; done).
  assert (Hj' : map place_of l !! j = Some (place_of p)) by (rewrite list_lookup_fmap, Hj, E; done).
  pose proof (NoDup_lookup _ _ _ _ Hn Hi' Hj') as ->. congruence.
Qed.

Lemma omap_concat_dyns secs : concat (map dyns_of secs) = omap (fun p => (result p.1 p.2).2) (pairs secs).
Proof.
  induction secs as [|isec secs IH]; [done|]. unfold pairs in *. cbn [map concat]. rewrite omap_app, IH. f_equal.
  unfold dyns_of, dyns. induction (section_rels isec) as [|r l IHl]; [done|]. simpl. case_match; [f_equal|]; exact IHl.
Qed.

(** The words of a section that are packed. *)
Definition packed (isec : Section_) (r : ElfRel) : bool :=
  (2 ^ p2align isec >=? word_size m) && ((rel_type r =? R_ABS (target_of m)) && (r_offset r mod word_size m =? 0) &&
    negb (default true (is_absolute <$> syms !! r_sym r)) && negb (default true (is_imported <$> syms !! r_sym r))).

Lemma section_words_packed isec : section_words (word_size m) (R_ABS (target_of m)) (relr_section syms isec) =
  map (fun r => section_offset isec + r_offset r) (List.filter (packed isec) (section_rels isec)).
Proof.
  unfold section_words, packed. cbn [relr_section Relr.p2align Relr.isec_offset get_rels]. rewrite Z.shiftl_1_l, Z.geb_leb.
  destruct (Z.ltb_spec (2 ^ p2align isec) (word_size m)), (Z.leb_spec (word_size m) (2 ^ p2align isec)); try lia; cbn [andb].
  - by induction (section_rels isec).
  - induction (section_rels isec) as [|r l IH]; [done|]. cbn [map List.filter]. rewrite filter_cons.
    cbn [relr_rel Relr.r_type Relr.r_offset Relr.is_absolute Relr.is_imported].
    match goal with |- context [decide (?c = true)] => destruct c end;
      [rewrite decide_True by done|rewrite decide_False by done]; cbn [map]; [apply (f_equal2 cons); [done|]|]; exact IH.
Qed.

(** ** Linked sections *)

Abbreviation ws := (word_size m).
Abbreviation pairs_of files := (pairs (concat files)).

(** The header of an output section covers its members, and every word lies in the
    address space. *)
Record output_linked (osec : OutputSection_) : Prop := {
  ol_alloc : out_alloc osec = true;
  ol_relr : osec_ok ws (R_ABS (target_of m)) (pic ctx) (relr_output syms osec);
  ol_members : Forall (fun isec => section_addr isec = u64 (out_addr osec + section_offset isec) /\
    execinstr isec = out_exec osec /\ 0 <= p2align isec /\ sh_addralign isec = 2 ^ p2align isec /\
    (sh_addralign isec | out_addralign osec) /\
    Forall (fun r => 0 <= out_addr osec + section_offset isec + r_offset r < 2 ^ (8 * ws)) (section_rels isec)) (out_members osec) }.

(** Nothing is left to the linker that it cannot do: symbols and their addresses are
    known; a resolver is only called where the target has the relocation, and not through
    a packed word whose addend is its contents. *)
Definition rel_linked (p : Section_ * ElfRel) : Prop :=
  let '(isec, r) := p in
  rel_type r = R_ABS (target_of m) /\ is_Some (syms0 !! r_sym r) /\
  match syms !! r_sym r with
  | Some sym => is_Some (get_addr m ctx false false sym) /\
      (is_ifunc sym = true -> is_Some (R_IRELATIVE (target_of m)) /\ is_Some (get_addr m ctx true false sym) /\
        (is_rela (target_of m) = false -> is_relr_reloc m ctx isec r = false))
  | None => False
  end.

(** [others] are the dynamic relocations of chunks, [got_pos] the packed words of
    [.got]; the words of sections do not overlap. *)
Record linked (files : list (list Section_)) (osecs : list OutputSection_) (others : list ElfRel) (got_addr : Z) (got_pos : list Z) :
    Prop := {
  lk_pic : pic ctx = shared ctx || pie ctx;
  lk_rels : Forall rel_linked (pairs_of files);
  lk_outputs : Forall output_linked osecs;
  lk_members : concat (map out_members osecs) ≡ₚ concat files;
  lk_places : NoDup (map place_of (pairs_of files));
  lk_apart : forall p q, p ∈ map place_of (pairs_of files) -> q ∈ map place_of (pairs_of files) -> p <> q -> ws <= Z.abs (p - q);
  lk_got : words_ok ws got_addr got_pos /\ Forall (fun x => got_addr + x ∉ map place_of (pairs_of files)) got_pos;
  lk_others : NoDup (concat (map (footprint m) others)) /\
    Forall (fun x => x ∉ map place_of (pairs_of files)) (concat (map (footprint m) others));
  lk_addends : is_rela (target_of m) = false -> apply_dynamic_relocs ctx = true }.

Definition relr_dyn (got_addr : Z) (got_relr : list Z) (osecs : list OutputSection_) (relrs : list (list Z)) : list Z :=
  if pack_relr ctx then Relr.copy_buf (got_addr, got_relr) (zip (map out_addr osecs) relrs) else [].

Definition packed_words (osec : OutputSection_) : list Z :=
  map (Z.add (out_addr osec)) (collect ws (R_ABS (target_of m)) (pic ctx) (relr_output syms osec)).

Lemma relr_dyn_decodes osecs got_addr got_pos : words_ok ws got_addr got_pos -> Forall output_linked osecs ->
  exists got_relr relrs, encode_relr ws got_pos = Some got_relr /\
    Forall2 (fun osec relr => construct_relr ws (R_ABS (target_of m)) (pic ctx) (relr_output syms osec) = Some relr) osecs relrs /\
    decode ws 0 (relr_dyn got_addr got_relr osecs relrs) =
      if pack_relr ctx then map (Z.add got_addr) got_pos ++ concat (map packed_words osecs) else [].
Proof.
  intros Hg Ho. assert (Hws : ws = 4 \/ ws = 8) by (destruct (word_size_cases m) as [E|E]; rewrite E; tauto).
  set (sec_of := fun osec => (out_addr osec, collect ws (R_ABS (target_of m)) (pic ctx) (relr_output syms osec))).
  destruct (sections_decode ws Hws ((got_addr, got_pos) :: map sec_of osecs)) as (ls & H1 & _ & H3 & _).
  { constructor; [done|]. apply Forall_map. eapply Forall_impl; [exact Ho|]. intros osec [_ Hk _].
    exact (collect_ok ws (R_ABS (target_of m)) (pic ctx) Hws (relr_output syms osec) Hk). }
  inversion H1 as [|? got_relr ? relrs Hgot Hsecs]; subst. exists got_relr, relrs. split; [done|].
  apply Forall2_fmap_l in Hsecs. split; [exact Hsecs|]. unfold relr_dyn. destruct (pack_relr ctx); [|done].
  cbn [map fst zip_with] in H3. rewrite map_map in H3. cbv zeta in H3. rewrite map_map in H3. exact H3.
Qed.

Lemma place_eq osec isec r : 0 <= out_addr osec + section_offset isec + r_offset r < 2 ^ (8 * ws) ->
  section_addr isec = u64 (out_addr osec + section_offset isec) -> place isec r = out_addr osec + section_offset isec + r_offset r.
Proof.
  intros H E. unfold place. rewrite E. unfold u64, wrap. rewrite Z.add_mod_idemp_l by done. apply Z.mod_small.
  assert (2 ^ (8 * ws) <= 2 ^ 64) by (destruct (word_size_cases m) as [-> | ->]; done). lia.
Qed.

Lemma packed_words_eq osec : output_linked osec -> packed_words osec =
  if negb (pic ctx) || negb (out_addralign osec mod ws =? 0) || out_exec osec then []
  else map place_of (List.filter (fun p => packed p.1 p.2) (pairs (out_members osec))).
Proof.
  intros [Ha _ Hm]. unfold packed_words, collect. cbn [relr_output is_alloc Relr.sh_addralign is_exec members]. rewrite Ha, orb_false_r.
  destruct (_ || _ || out_exec osec); [done|]. rewrite map_map. induction Hm as [|isec l (E1 & _ & _ & _ & _ & Hf) _ IH]; [done|].
  unfold pairs in *. cbn [map concat]. rewrite map_app, List.filter_app, map_app. f_equal; [|exact IH].
  rewrite section_words_packed, map_map. induction Hf as [|r rels Hr _ IHr]; [done|]. cbn [map List.filter fst snd].
  destruct (packed isec r); [|exact IHr]. cbn [map]. apply (f_equal2 cons); [|exact IHr].
  unfold place_of. cbn [fst snd]. rewrite (place_eq osec) by done. lia.
Qed.

(** The flag of a word in memory that is packed. *)
Definition is_packed (p : Section_ * ElfRel) : bool := pic ctx && negb (execinstr p.1) && packed p.1 p.2.

Lemma ws_divides k : 0 <= k -> (2 ^ k mod ws =? 0) = (2 ^ k >=? ws).
Proof.
  intros Hk. assert (exists j, ws = 2 ^ j /\ 0 <= j) as (j & -> & Hj)
    by (destruct (word_size_cases m) as [-> | ->]; [by exists 3|by exists 2]).
  rewrite Z.geb_leb. destruct (Z.leb_spec (2 ^ j) (2 ^ k)) as [H|H].
  - assert (j <= k) by (destruct (Z.le_gt_cases j k); [done|]; pose proof (Z.pow_lt_mono_r 2 k j ltac:(lia) ltac:(lia) ltac:(lia)); lia).
    apply Z.eqb_eq. replace k with (j + (k - j)) by lia.
    rewrite Z.pow_add_r by lia. rewrite Z.mul_comm. apply Z.mod_mul. lia.
  - apply Z.eqb_neq. rewrite Z.mod_small by (split; [apply Z.pow_nonneg; lia|done]). pose proof (Z.pow_pos_nonneg 2 k). lia.
Qed.

Lemma packed_members osec : output_linked osec ->
  packed_words osec = map place_of (List.filter is_packed (pairs (out_members osec))).
Proof.
  intros Ho. rewrite (packed_words_eq osec Ho). destruct Ho as [_ _ Hm]. unfold is_packed.
  assert (F : forall p, p ∈ pairs (out_members osec) -> execinstr p.1 = out_exec osec /\
    (packed p.1 p.2 = true -> out_addralign osec mod ws = 0)).
  { intros [isec r] [Hi Hr]%pairs_elem. rewrite Forall_forall in Hm. destruct (Hm isec Hi) as (_ & E & Hp & Ea & Hd & _).
    split; [done|]. unfold packed. rewrite <- ws_divides by done. cbn [fst]. intros Hk. apply andb_true_iff in Hk as [Hk _].
    apply Z.eqb_eq in Hk. rewrite Ea in Hd. assert (Hws : ws <> 0) by (destruct (word_size_cases m); lia).
    apply Z.mod_divide; [done|]. etransitivity; [|exact Hd]. by apply Z.mod_divide. }
  transitivity (map place_of (List.filter (fun p => negb (negb (pic ctx) || negb (out_addralign osec mod ws =? 0) || out_exec osec) &&
    packed p.1 p.2) (pairs (out_members osec)))).
  - destruct (_ || _ || out_exec osec); simpl; [|done]. clear F.
    induction (pairs (out_members osec)) as [|q l IH]; [done|exact IH].
  - f_equal. apply List.filter_ext_in. intros p Hp%list_elem_of_In. destruct (F p Hp) as [-> Hal].
    destruct (packed p.1 p.2) eqn:Ek; [|by rewrite !andb_false_r]. rewrite Hal by done.
    by destruct (pic ctx), (out_exec osec).
Qed.

Lemma filter_concat {A} (P : A -> bool) (ls : list (list A)) : List.filter P (concat ls) = concat (map (List.filter P) ls).
Proof. induction ls as [|l ls IH]; [done|]. simpl. by rewrite List.filter_app, IH. Qed.

Lemma all_packed osecs : Forall output_linked osecs ->
  concat (map packed_words osecs) = map place_of (List.filter is_packed (pairs_of (map out_members osecs))).
Proof.
  induction 1 as [|osec osecs Ho _ IH]; [done|]. unfold pairs in *. cbn [map concat]. rewrite map_app, concat_app, List.filter_app, map_app.
  rewrite IH. f_equal. by apply packed_members.
Qed.

Lemma filter_sub {A B} (f : A -> B) (P : A -> bool) l : map f (List.filter P l) `sublist_of` map f l.
Proof. induction l as [|x l IH]; [constructor|]. simpl. destruct (P x); by constructor. Qed.

(** *** The shape of a dynamic relocation *)

Lemma word_fits x : 0 <= x < 2 ^ (8 * ws) -> word m x = x.
Proof. intros H. unfold word. by apply wrap_small. Qed.

Lemma word_swrap x y : word m (x + swrap (8 * ws) y) = word m (x + y).
Proof.
  assert (Hw : 0 < 8 * ws) by (destruct (word_size_cases m); lia). unfold word, wrap.
  rewrite <- Z.add_mod_idemp_r by lia. change (swrap (8 * ws) y mod 2 ^ (8 * ws)) with (wrap (8 * ws) (swrap (8 * ws) y)).
  rewrite wrap_swrap by lia. unfold wrap. by rewrite Z.add_mod_idemp_r by lia.
Qed.

Lemma dyn_shape isec r w e : apply_word isec r = Some (w, Some e) -> 0 <= place isec r < 2 ^ (8 * ws) ->
  r_offset e = place isec r /\ footprint m e = [place isec r] /\ kind_of m (rel_type e) <> Some KNone /\ is_Some (kind_of m (rel_type e)).
Proof.
  intros E Hp. assert (exists t s a, e = new_rel m (place isec r) t s a /\
    kind_of m t ∈ [Some KRelative; Some KGlobDat; Some KIrelative]) as (t & s & a & -> & Hk).
  { assert (exists sym S, apply_absrel m ctx opt isec r sym S (place isec r) (word_action ctx toc sym) = Some (w, Some e)) as (sym & S & E').
    { unfold InputSections.apply_word, apply_toc_rel, apply_dyn_absrel in E. unfold word_action.
      destruct toc; (destruct (syms !! r_sym r) as [sym|]; cbn [mbind option_bind] in E; [|done]);
        (destruct (get_addr m ctx false false sym) as [S|]; cbn [mbind option_bind] in E; [|done]); by exists sym, S. }
    clear E. destruct (kinds m) as (_ & K1 & _ & _ & _ & _ & K6 & _). pose proof (kind_abs m) as K0. unfold apply_absrel, apply_dynrel in E'. cbv zeta in E'.
    destruct (word_action ctx toc sym); try done; [..|destruct (R_IRELATIVE (target_of m)) as [t|] eqn:Et; cbn [mbind option_bind] in E'; [|done];
      destruct (get_addr m ctx true false sym); cbn [mbind option_bind] in E'; [|done]].
    5: injection E' as _ <-; do 3 eexists; split; [done|]; rewrite (K6 t eq_refl); set_solver.
    1: destruct (writable isec || negb (z_copyreloc opt)).
    3: destruct (writable isec).
    6: destruct (is_relr_reloc m ctx isec r).
    all: simplify_eq; do 3 eexists; (split; [done|]); rewrite ?K0, ?K1; set_solver. }
  cbn [new_rel r_offset rel_type]. rewrite word_fits by done. split; [done|]. unfold footprint. cbn [new_rel r_offset rel_type].
  rewrite word_fits by done. rewrite !list_elem_of_In in Hk. simpl in Hk.
  destruct Hk as [<- | [<- | [<- | []]]]; by repeat split.
Qed.

(** *** After loading *)

(** What a relocation of the word size stands for: the address of its symbol in the
    running process, or what the resolver of the symbol returns. *)
Definition runtime_word (rt : runtime) (r : ElfRel) : option Z :=
  sym ← syms !! r_sym r;
  if is_ifunc sym then a ← get_addr m ctx true false sym; Some (word m (resolver rt (word m (base rt + (a + r_addend r)))))
  else if is_absolute sym then a ← get_addr m ctx false false sym; Some (word m (a + r_addend r))
  else if is_imported sym then Some (word m (sym_value rt (dynsym_of sym) + r_addend r))
  else a ← get_addr m ctx false false sym; Some (word m (base rt + (a + r_addend r))).

(** The process is one the file was linked for: a file that is not position independent
    is loaded at its addresses, and the loader finds a symbol that was copied into the file
    or has a canonical PLT entry in the file itself. *)
Definition process_of (fl : gmap Z Z) (rt : runtime) : Prop :=
  (pic ctx = false -> base rt = 0) /\
  forall s sym a, syms !! s = Some sym -> flagged fl s NEEDS_COPYREL || flagged fl s NEEDS_CPLT = true ->
    get_addr m ctx false false sym = Some a -> word m (sym_value rt (dynsym_of sym)) = word m (base rt + a).

(** What the tables make of the kinds of symbols. *)
Lemma action_means sym : pic ctx = shared ctx || pie ctx ->
  match word_action ctx toc sym with
  | NONE => is_ifunc sym = false /\ (is_absolute sym = true \/ (is_absolute sym = false /\ is_imported sym = false /\ pic ctx = false))
  | BASEREL => is_ifunc sym = false /\ is_absolute sym = false /\ is_imported sym = false /\ pic ctx = true
  | DYNREL => is_ifunc sym = false /\ is_absolute sym = false /\ is_imported sym = true
  | DYN_COPYREL | DYN_CPLT => is_ifunc sym = false /\ is_absolute sym = false /\ is_imported sym = true /\ pic ctx = false
  | IFUNC => is_ifunc sym = true
  | _ => False
  end.
Proof.
  intros ->. unfold word_action, get_ppc64_toc_action, get_dyn_absrel_action, get_rel_action, output_type, sym_type.
  destruct toc, (is_ifunc sym), (shared ctx), (pie ctx), (is_absolute sym), (is_imported sym),
    (get_type sym =? constant STT "STT_FUNC"); simpl; tauto.
Qed.

Lemma word_add_l x y : word m (word m x + y) = word m (x + y).
Proof. rewrite Z.add_comm, word_add. f_equal. lia. Qed.

Section Loaded.
Context (files : list (list Section_)) (osecs : list OutputSection_) (others : list ElfRel) (got_addr : Z) (got_pos : list Z).
Context (L : linked files osecs others got_addr got_pos).

Lemma linked_output p : p ∈ pairs_of files -> exists osec, p ∈ pairs (out_members osec) /\ output_linked osec.
Proof.
  destruct p as [isec r]. intros [Hi Hr]%pairs_elem. rewrite <- (lk_members _ _ _ _ _ L) in Hi.
  apply list_elem_of_In, in_concat in Hi as (l & (osec & <- & Ho)%in_map_iff & Hi). exists osec.
  split; [apply pairs_elem; by rewrite list_elem_of_In|]. pose proof (lk_outputs _ _ _ _ _ L) as H. rewrite Forall_forall in H.
  by apply H, list_elem_of_In.
Qed.

Lemma place_range p : p ∈ pairs_of files -> 0 <= place_of p < 2 ^ (8 * ws).
Proof.
  intros Hp. destruct (linked_output p Hp) as (osec & Hm & [_ _ Ho]). destruct p as [isec r]. apply pairs_elem in Hm as [Hi Hr].
  rewrite Forall_forall in Ho. destruct (Ho isec Hi) as (E & _ & _ & _ & _ & Hf). rewrite Forall_forall in Hf.
  unfold place_of. cbn [fst snd]. rewrite (place_eq osec) by auto. by apply Hf.
Qed.

(** The packed words are those for which the dynamic relocation was omitted. *)
Lemma packed_iff p sym : p ∈ pairs_of files -> syms !! r_sym p.2 = Some sym ->
  pack_relr ctx && is_packed p = is_relr_reloc m ctx p.1 p.2 && (pic ctx && negb (is_absolute sym) && negb (is_imported sym)).
Proof.
  intros Hp Hs. pose proof (lk_rels _ _ _ _ _ L) as HR. rewrite Forall_forall in HR. specialize (HR p Hp).
  destruct (linked_output p Hp) as (osec & Hm & [_ _ Ho]). destruct p as [isec r]. destruct HR as [Ht _].
  apply pairs_elem in Hm as [Hi Hr]. rewrite Forall_forall in Ho. destruct (Ho isec Hi) as (_ & _ & Hp2 & Ea & _ & _).
  unfold is_packed, packed, is_relr_reloc. cbn [fst snd] in *. rewrite Hs, Ht, Z.eqb_refl, Ea, ws_divides by done. cbn [fmap option_fmap option_map default].
  destruct (pack_relr ctx), (pic ctx), (execinstr isec), (_ >=? _), (_ =? 0), (is_absolute sym), (is_imported sym); done.
Qed.

Lemma ready_all : Forall file_ready files.
Proof.
  pose proof (lk_rels _ _ _ _ _ L) as HR. apply Forall_forall. intros file Hf. apply Forall_forall. intros isec Hi.
  apply Forall_forall. intros r Hr. assert (Hp : (isec, r) ∈ pairs_of files).
  { apply pairs_elem. split; [|done]. apply list_elem_of_In, in_concat. exists file. by rewrite <- !list_elem_of_In. }
  rewrite Forall_forall in HR. destruct (HR _ Hp) as (_ & H0 & H1). split; [done|].
  destruct (syms !! r_sym r) as [sym|] eqn:Hs; [|done]. destruct H1 as [[S Ha] Hif].
  rewrite (apply_word_unfold isec r sym S Hs Ha). pose proof (action_means sym (lk_pic _ _ _ _ _ L)) as Hm.
  unfold apply_absrel. destruct (word_action ctx toc sym); try done; cbv zeta; try (by repeat case_match).
  destruct (Hif Hm) as ([t ->] & [a ->] & _). cbn [mbind option_bind]. by case_match.
Qed.

Lemma word_result p sym S : p ∈ pairs_of files -> syms !! r_sym p.2 = Some sym -> get_addr m ctx false false sym = Some S ->
  apply_absrel m ctx opt p.1 p.2 sym S (place_of p) (word_action ctx toc sym) = Some (result p.1 p.2).
Proof.
  intros Hp Hs Ha. unfold place_of. rewrite <- (apply_word_unfold _ _ _ _ Hs Ha).
  assert (is_Some (apply_word p.1 p.2)) as [x Hx]; [|unfold result; by rewrite Hx].
  pose proof ready_all as H. rewrite Forall_forall in H. destruct p as [isec r]. apply pairs_elem in Hp as [Hi Hr].
  apply list_elem_of_In, in_concat in Hi as (file & Hf & Hi). apply list_elem_of_In in Hf, Hi. specialize (H file Hf).
  unfold file_ready in H. rewrite Forall_forall in H. specialize (H isec Hi). rewrite Forall_forall in H. by apply H.
Qed.

Context (fl : gmap Z Z) (Hfl : Forall (Forall (relies_on fl)) files).
Context (rt : runtime) (Hrt : process_of fl rt).
Context (order : list Section_) (Horder : order ≡ₚ concat files) (mem0 : memory).
Context (words : list Z) (Hwords : words = if pack_relr ctx then map (Z.add got_addr) got_pos ++ concat (map packed_words osecs) else []).
Context (all : list ElfRel) (Hall : all ≡ₚ others ++ concat (map dyns_of (concat files))).

Definition stored : memory := foldl store_word mem0 (pairs order).
Definition unpacked : memory := foldl (apply_relr m rt) stored words.
Definition loaded : memory := foldl (apply_rel m rt) unpacked all.

Lemma stored_at p : p ∈ pairs_of files -> stored (place_of p) = default (mem0 (place_of p)) (result p.1 p.2).1.
Proof.
  intros Hp. unfold stored. pose proof (pairs_perm _ _ Horder) as HP. apply store_words_at; rewrite HP; [|done].
  apply (lk_places _ _ _ _ _ L).
Qed.

Lemma words_nodup : NoDup words.
Proof.
  rewrite Hwords. destruct (pack_relr ctx); [|constructor]. destruct (lk_got _ _ _ _ _ L) as [(_ & Hs & _) Hg].
  rewrite (all_packed osecs) by apply (lk_outputs _ _ _ _ _ L).
  pose proof (pairs_perm _ _ (lk_members _ _ _ _ _ L)) as HP.
  assert (Hsub : map place_of (List.filter is_packed (pairs_of (map out_members osecs))) ⊆+ map place_of (pairs_of files)).
  { rewrite <- HP. apply sublist_submseteq, filter_sub. }
  apply NoDup_app. split; [|split].
  - assert (Inj eq eq (Z.add got_addr)) by (intros x y; lia). apply (NoDup_fmap_2 (Z.add got_addr)). clear -Hs. induction Hs as [|x l _ IH Hx]; constructor; [|done].
    intros H. rewrite Forall_forall in Hx. specialize (Hx x H). lia.
  - intros x (y & -> & Hy)%list_elem_of_fmap Hx. rewrite Forall_forall in Hg. apply (Hg y Hy).
    by apply (elem_of_submseteq _ _ _ Hx Hsub).
  - destruct (submseteq_Permutation _ _ Hsub) as [k Hk]. pose proof (lk_places _ _ _ _ _ L) as Hn. rewrite Hk in Hn. by apply NoDup_app in Hn as [Hn _].
Qed.

Lemma word_packed p : p ∈ pairs_of files -> place_of p ∈ words <-> pack_relr ctx && is_packed p = true.
Proof.
  intros Hp. rewrite Hwords. destruct (pack_relr ctx); cbn [andb]; [|split; [by intros ?%elem_of_nil|done]].
  rewrite elem_of_app, (all_packed osecs) by apply (lk_outputs _ _ _ _ _ L).
  destruct (lk_got _ _ _ _ _ L) as [_ Hg]. rewrite Forall_forall in Hg.
  pose proof (pairs_perm _ _ (lk_members _ _ _ _ _ L)) as HP. split.
  - intros [(y & E & Hy)%list_elem_of_fmap|(q & E & Hq)%list_elem_of_fmap].
    + exfalso. apply (Hg y Hy). rewrite <- E. by apply list_elem_of_fmap_2.
    + apply list_elem_of_In, List.filter_In in Hq as [Hq Hk]. apply list_elem_of_In in Hq. rewrite HP in Hq.
      by rewrite (place_inj _ p q (lk_places _ _ _ _ _ L) Hp Hq E).
  - intros Hk. right. apply list_elem_of_fmap. exists p. split; [done|]. apply list_elem_of_In, List.filter_In.
    by rewrite <- list_elem_of_In, HP.
Qed.

Lemma unpacked_at p : p ∈ pairs_of files -> unpacked (place_of p) =
  if pack_relr ctx && is_packed p then word m (base rt + stored (place_of p)) else stored (place_of p).
Proof.
  intros Hp. unfold unpacked. rewrite apply_relrs by apply words_nodup. pose proof (word_packed p Hp) as H.
  destruct (decide _) as [Hd|Hd]; [by rewrite (proj1 H Hd)|]. destruct (pack_relr ctx && is_packed p); [tauto|done].
Qed.

Lemma dyns_elem e : e ∈ concat (map dyns_of (concat files)) <-> exists p, p ∈ pairs_of files /\ (result p.1 p.2).2 = Some e.
Proof. rewrite omap_concat_dyns. by rewrite list_elem_of_omap. Qed.

Lemma result_shape p e : p ∈ pairs_of files -> (result p.1 p.2).2 = Some e ->
  r_offset e = place_of p /\ footprint m e = [place_of p] /\ kind_of m (rel_type e) <> Some KNone /\ is_Some (kind_of m (rel_type e)).
Proof.
  intros Hp He. unfold result in He. destruct (apply_word p.1 p.2) as [[w d]|] eqn:Ew; [|done]. simpl in He. subst d.
  by apply (dyn_shape _ _ w e Ew), place_range.
Qed.

Lemma footprints_sub : concat (map (footprint m) (concat (map dyns_of (concat files)))) `sublist_of` map place_of (pairs_of files).
Proof.
  rewrite omap_concat_dyns. assert (H : forall p, p ∈ pairs_of files -> p ∈ pairs_of files) by done. revert H.
  generalize (pairs_of files) at 1 3 4. intros l. induction l as [|p l IH]; intros Hl; [constructor|].
  cbn [omap list_omap map]. destruct ((result p.1 p.2).2) as [e|] eqn:Ee.
  - destruct (result_shape p e) as (_ & Hf & _); [apply Hl; constructor|done|]. cbn [map concat]. rewrite Hf. simpl.
    apply sublist_skip, IH. intros q Hq. apply Hl. by constructor.
  - apply sublist_cons, IH. intros q Hq. apply Hl. by constructor.
Qed.

Lemma reldyn_footprints_nodup : NoDup (concat (map (footprint m) all)).
Proof.
  assert (HP : concat (map (footprint m) all) ≡ₚ
    concat (map (footprint m) others) ++ concat (map (footprint m) (concat (map dyns_of (concat files))))).
  { rewrite Hall, map_app. by rewrite concat_app. }
  rewrite HP. destruct (lk_others _ _ _ _ _ L) as [H1 H2]. rewrite Forall_forall in H2. apply NoDup_app. split; [done|]. split.
  - intros x Hx Hy. apply (H2 x Hx). apply (elem_of_submseteq _ _ _ Hy), sublist_submseteq, footprints_sub.
  - eapply sublist_NoDup; [apply (lk_places _ _ _ _ _ L)|apply footprints_sub].
Qed.

Lemma loaded_dynamic p e : p ∈ pairs_of files -> (result p.1 p.2).2 = Some e -> loaded (place_of p) = apply_rel m rt unpacked e (place_of p).
Proof.
  intros Hp He. destruct (result_shape p e Hp He) as (_ & Hf & Hk & Hs). unfold loaded.
  apply apply_rels_inside; [apply reldyn_footprints_nodup| |rewrite Hf; constructor|done|done].
  rewrite Hall. apply elem_of_app. right. apply dyns_elem. by exists p.
Qed.

Lemma loaded_untouched p : p ∈ pairs_of files -> (result p.1 p.2).2 = None -> loaded (place_of p) = unpacked (place_of p).
Proof.
  intros Hp Hn. unfold loaded. apply apply_rels_outside. intros Hin.
  assert (HP : concat (map (footprint m) all) ≡ₚ
    concat (map (footprint m) others) ++ concat (map (footprint m) (concat (map dyns_of (concat files))))).
  { rewrite Hall, map_app. by rewrite concat_app. }
  rewrite HP in Hin. apply elem_of_app in Hin as [Hin|Hin].
  - destruct (lk_others _ _ _ _ _ L) as [_ H2]. rewrite Forall_forall in H2. apply (H2 _ Hin). by apply list_elem_of_fmap_2.
  - apply list_elem_of_In, in_concat in Hin as (l & (e & <- & He)%in_map_iff & Hx). apply list_elem_of_In in He, Hx.
    apply dyns_elem in He as (q & Hq & Ee). destruct (result_shape q e Hq Ee) as (_ & Hf & _). rewrite Hf in Hx.
    apply list_elem_of_singleton in Hx. rewrite (place_inj _ p q (lk_places _ _ _ _ _ L) Hp Hq Hx) in Hn. congruence.
Qed.

(** The addend that the loader finds is the one that was written. *)
Lemma loader_addend p e a x : p ∈ pairs_of files -> (result p.1 p.2).2 = Some e -> e = new_rel m (place_of p) (rel_type e) (r_sym e) a ->
  (is_rela (target_of m) = false -> (result p.1 p.2).1 = Some (word m a) /\ pack_relr ctx && is_packed p = false) ->
  word m (x + rel_addend m unpacked e) = word m (x + a).
Proof.
  intros Hp He E Hr. destruct (result_shape p e Hp He) as (Eo & _). unfold rel_addend. rewrite Eo.
  destruct (is_rela (target_of m)) eqn:Er.
  - rewrite E. cbn [new_rel r_addend]. rewrite Er. apply word_swrap.
  - destruct (Hr eq_refl) as [Ew Ek]. rewrite unpacked_at, Ek, stored_at, Ew by done. cbn [default]. apply word_add.
Qed.

(** A value stored at link time. *)
Lemma static_word p v : p ∈ pairs_of files -> result p.1 p.2 = (Some v, None) -> pack_relr ctx && is_packed p = false ->
  loaded (place_of p) = v.
Proof. intros Hp E Hk. rewrite loaded_untouched, unpacked_at, Hk, stored_at, E by (done || by rewrite E). done. Qed.

Lemma dynamic_word p t s a k : p ∈ pairs_of files -> (result p.1 p.2).2 = Some (new_rel m (place_of p) t s a) -> kind_of m t = Some k ->
  k ∈ [KRelative; KGlobDat; KIrelative] ->
  (is_rela (target_of m) = false -> (result p.1 p.2).1 = Some (word m a) /\ pack_relr ctx && is_packed p = false) ->
  loaded (place_of p) = entry_word m rt k (u32 s) a.
Proof.
  intros Hp He Hk Hin Hr. rewrite (loaded_dynamic p _ Hp He). set (e := new_rel m (place_of p) t s a) in *.
  assert (Hs : u32 (u32 s) = u32 s) by (apply wrap_wrap; lia).
  assert (E : e = new_rel m (place_of p) (rel_type e) (r_sym e) a) by (unfold e, new_rel; cbn [rel_type r_sym]; by rewrite Hs).
  destruct (result_shape p e Hp He) as (Eo & _). pose proof (fun x => loader_addend p e a x Hp He E Hr) as Ha.
  unfold apply_rel. rewrite Eo. change (rel_type e) with t. rewrite Hk. change (r_sym e) with (u32 s).
  apply list_elem_of_In in Hin. simpl in Hin. destruct Hin as [<- | [<- | [<- | []]]]; rewrite upd_eq; cbn [entry_word]; by rewrite ?Ha.
Qed.

Lemma relies_at isec r : (isec, r) ∈ pairs_of files -> relies_on fl isec /\ r ∈ section_rels isec.
Proof.
  intros [Hi Hr]%pairs_elem. split; [|done]. apply list_elem_of_In, in_concat in Hi as (file & Hf & Hi).
  apply list_elem_of_In in Hf, Hi. rewrite Forall_forall in Hfl. specialize (Hfl file Hf). rewrite Forall_forall in Hfl. by apply Hfl.
Qed.

Lemma found_in_file isec r sym S : (isec, r) ∈ pairs_of files -> syms !! r_sym r = Some sym -> get_addr m ctx false false sym = Some S ->
  word_action ctx toc sym ∈ [DYN_COPYREL; DYN_CPLT] -> pic ctx = false -> result isec r = (Some (word m (S + r_addend r)), None) ->
  word m (sym_value rt (dynsym_of sym) + r_addend r) = word m (S + r_addend r).
Proof.
  intros Hp Hs Ha Hin Hpic E. destruct (relies_at isec r Hp) as [Hf Hr]. destruct Hrt as [Hb Hc].
  pose proof (Hc _ _ _ Hs (Hf r sym Hr Hs Hin ltac:(by rewrite E)) Ha) as Hv. rewrite (Hb Hpic) in Hv.
  rewrite <- word_add_l, Hv, word_add_l. done.
Qed.

Lemma word_holds p : p ∈ pairs_of files -> runtime_word rt p.2 = Some (loaded (place_of p)).
Proof.
  intros Hp. pose proof (lk_rels _ _ _ _ _ L) as HR. rewrite Forall_forall in HR. specialize (HR p Hp).
  destruct p as [isec r]. destruct HR as (_ & _ & H). cbn [snd] in *. unfold runtime_word.
  destruct (syms !! r_sym r) as [sym|] eqn:Hs; [|done]. destruct H as [[S Ha] Hif]. cbn [mbind option_bind]. rewrite Ha.
  pose proof (word_result (isec, r) sym S Hp Hs Ha) as E. cbn [fst snd] in E. pose proof (packed_iff (isec, r) sym Hp Hs) as Hk.
  cbn [fst snd] in Hk. pose proof (action_means sym (lk_pic _ _ _ _ _ L)) as Hm. destruct Hrt as [Hb _].
  destruct (kinds m) as (_ & K1 & _ & _ & _ & _ & K6 & _). pose proof (kind_abs m) as K0. pose proof (lk_addends _ _ _ _ _ L) as Had.
  pose proof (found_in_file isec r sym S Hp Hs Ha) as Hc.
  assert (Hdyn : result isec r = apply_dynrel m ctx r sym (place_of (isec, r)) -> is_imported sym = true ->
    loaded (place_of (isec, r)) = word m (sym_value rt (dynsym_of sym) + r_addend r)).
  { intros Er Hi. unfold apply_dynrel in Er. refine (dynamic_word (isec, r) _ _ _ _ Hp _ K0 _ _); cbn [fst snd].
    1: by rewrite Er.
    1: set_solver.
    intros Hl. rewrite Er, Had by done. split; [done|]. by rewrite Hk, Hi, !andb_false_r. }
  assert (Hst : forall v, result isec r = (Some v, None) -> pack_relr ctx && is_packed (isec, r) = false -> loaded (place_of (isec, r)) = v)
    by (intros v Er; by apply (static_word (isec, r))).
  unfold apply_absrel in E. cbv zeta in E. destruct (word_action ctx toc sym) eqn:Eact; try done.
  - injection E as E. symmetry in E. destruct Hm as [-> Hm].
    rewrite (Hst _ E) by (rewrite Hk; destruct Hm as [->|(_ & _ & ->)]; by rewrite ?andb_false_r).
    destruct Hm as [->|(-> & -> & Hpic)]; [done|]. by rewrite (Hb Hpic).
  - destruct Hm as (-> & -> & Hi & Hpic). rewrite Hi in *. destruct (writable isec || _); injection E as E; symmetry in E; [by rewrite Hdyn|].
    rewrite (Hst _ E) by (by rewrite Hk, !andb_false_r). rewrite Hc by (done || set_solver). done.
  - destruct Hm as (-> & -> & Hi & Hpic). rewrite Hi in *. destruct (writable isec); injection E as E; symmetry in E; [by rewrite Hdyn|].
    rewrite (Hst _ E) by (by rewrite Hk, !andb_false_r). rewrite Hc by (done || set_solver). done.
  - destruct Hm as (-> & -> & Hi). rewrite Hi in *. injection E as E. by rewrite Hdyn.
  - destruct Hm as (-> & Hab & Hi & Hpic). rewrite Hab, Hi, Hpic, andb_true_r in *.
    destruct (is_relr_reloc m ctx isec r) eqn:Er; injection E as E; symmetry in E.
    + rewrite loaded_untouched, unpacked_at, Hk, stored_at by (done || (cbn [fst snd]; by rewrite E)). cbn [fst snd]. rewrite E. simpl. by rewrite word_add.
    + rewrite (dynamic_word (isec, r) (R_RELATIVE (target_of m)) 0 (u64 (S + r_addend r)) KRelative Hp); [|cbn [fst snd]; by rewrite E|exact K1|set_solver|].
      * cbn [entry_word]. by rewrite word_u64.
      * intros Hl. cbn [fst snd]. rewrite E, Had by done. cbn [fst]. split; [|done]. f_equal. symmetry. apply (word_u64 m 0).
  - rewrite Hm. destruct (Hif Hm) as ([t Et] & [a Ea] & Hl). rewrite Et in E. cbn [mbind option_bind] in E. rewrite Ea in E |- *.
    cbn [mbind option_bind] in *. injection E as E. symmetry in E.
    rewrite (dynamic_word (isec, r) t 0 (u64 (a + r_addend r)) KIrelative Hp); [|cbn [fst snd]; by rewrite E|by apply K6|set_solver|].
    + cbn [entry_word]. by rewrite word_u64.
    + intros Hr. cbn [fst snd]. rewrite E, Had by done. split; [done|]. by rewrite Hk, (Hl Hr).
Qed.
End Loaded.
End Proofs.

(** ** Theorems *)

(** C2: the dynamic relocations of all files fill the part of [.rel.dyn] that was reserved
    for them exactly, in whatever order the sections are written; the words that need a
    base relocation without one are packed; and in every process the file was linked for,
    after the loader has applied the packed and the other relocations in whatever order
    the latter were sorted, every word of the word size holds the run-time address of its
    symbol plus the addend, or the result of the symbol's resolver. *)
Theorem absolute_words_load (m : machine) (ctx : Context) (opt : options) (is_protected : Z -> bool) (toc : bool)
    (syms0 syms : gmap Z Symbol) (files : list (list Section_)) (osecs : list OutputSection_) (others : list ElfRel)
    (got_addr : Z) (got_pos : list Z) (fl : gmap Z Z) (base : Z) :
  (forall s sym0 sym, syms0 !! s = Some sym0 -> syms !! s = Some sym -> same_kind sym0 sym) ->
  linked m ctx syms0 syms files osecs others got_addr got_pos -> 0 <= base ->
  exists results rels got_relr relrs,
    scan_files m ctx opt syms0 is_protected toc fl files = Some results /\
    encode_relr (word_size m) got_pos = Some got_relr /\
    Forall2 (fun osec relr => construct_relr (word_size m) (R_ABS (target_of m)) (pic ctx) (relr_output syms osec) = Some relr) osecs relrs /\
    let todo := sections_of files (reldyn_offsets base results) in
    map fst todo = concat files /\
    forall mem0 order, order ≡ₚ todo -> exists mem,
      apply_sections m ctx opt syms toc order (mem0, replicate (Z.to_nat (reldyn_size base results)) None) =
        Some (mem, replicate (Z.to_nat base) None ++ map Some rels) /\
      forall rt all, process_of m ctx syms (final_flags fl results) rt -> all ≡ₚ others ++ rels ->
      forall isec r, isec ∈ concat files -> r ∈ section_rels isec ->
        runtime_word m ctx syms rt r =
          Some (load m rt mem (relr_dyn ctx got_addr got_relr osecs relrs) all (place isec r)).
Proof.
  intros Hs L Hb. pose proof (ready_all m ctx opt toc syms0 syms _ _ _ _ _ L) as Hr.
  destruct (scan_files_tiles m ctx opt is_protected toc syms0 syms Hs files fl base Hr) as (results & E & Ht & Em & _ & Hf).
  destruct (relr_dyn_decodes m ctx is_protected syms osecs got_addr got_pos) as (got_relr & relrs & Eg & Er & Ed);
    [apply (lk_got _ _ _ _ _ _ _ _ _ L)|apply (lk_outputs _ _ _ _ _ _ _ _ _ L)|].
  set (todo := sections_of files (reldyn_offsets base results)) in *.
  exists results, (concat (map (dyns_of m ctx opt toc syms) (concat files))), got_relr, relrs. split; [done|]. split; [done|]. split; [done|].
  cbv zeta. fold todo. split; [done|].
  intros mem0 order Ho. assert (Hready : file_ready m ctx opt toc syms0 syms (map fst todo)).
  { rewrite Em. apply Forall_concat. eapply Forall_impl; [exact Hr|]. done. }
  exists (foldl (store_word m ctx opt toc syms) mem0 (pairs (map fst order))). split.
  - rewrite (reldyn_filled m ctx opt is_protected toc syms0 syms base todo _ order mem0 Hb Ht Hready Ho). by rewrite <- Em, map_map.
  - intros rt all Hp Ha isec r Hi Hin. unfold load. rewrite Ed.
    refine (word_holds m ctx opt is_protected toc syms0 syms Hs files osecs others got_addr got_pos L _ Hf rt Hp (map fst order) _ mem0 _ eq_refl all Ha (isec, r) _).
    + by rewrite Ho, Em.
    + by apply pairs_elem.
Qed.

(** The address that a symbol has in a process. *)
Definition runtime_address (rt : runtime) (sym : Symbol) (S : Z) : Z :=
  if is_absolute sym then S else if is_imported sym then sym_value rt (dynsym_of sym) else base rt + S.

Lemma pcrel_means ctx sym : pic ctx = shared ctx || pie ctx ->
  match get_pcrel_action ctx sym with
  | NONE => (is_absolute sym = true /\ pic ctx = false) \/ (is_absolute sym = false /\ is_imported sym = false)
  | ERROR => True
  | COPYREL => is_absolute sym = false /\ is_imported sym = true
  | CPLT => is_absolute sym = false /\ is_imported sym = true
  | PLT => is_absolute sym = false /\ is_imported sym = true /\ get_type sym = constant STT "STT_FUNC" /\ pic ctx = true
  | _ => False
  end.
Proof.
  intros ->. unfold get_pcrel_action, get_rel_action, output_type, sym_type.
  destruct (shared ctx), (pie ctx), (is_absolute sym), (is_imported sym), (Z.eqb_spec (get_type sym) (constant STT "STT_FUNC")); simpl; tauto.
Qed.

Lemma absrel_means ctx sym : pic ctx = shared ctx || pie ctx ->
  match get_absrel_action ctx sym with
  | NONE => is_absolute sym = true \/ (is_absolute sym = false /\ is_imported sym = false /\ pic ctx = false)
  | ERROR => True
  | COPYREL | CPLT => is_absolute sym = false /\ is_imported sym = true /\ pic ctx = false
  | _ => False
  end.
Proof.
  intros ->. unfold get_absrel_action, get_rel_action, output_type, sym_type.
  destruct (shared ctx), (pie ctx), (is_absolute sym), (is_imported sym), (get_type sym =? constant STT "STT_FUNC"); simpl; tauto.
Qed.

(** C15: when scanning a PC-relative relocation, or an absolute one of less than the word
    size, reports no error, what the linker computes from the address of the symbol at link
    time is what the code needs at run time wherever the file is loaded: the distance from
    the place to the symbol, and the address of the symbol. The only exception are calls of
    imported functions from position-independent code, which get a PLT entry. *)
Theorem link_time_values (m : machine) (ctx : Context) (opt : options) (is_protected : Z -> bool) (syms : gmap Z Symbol)
    (isec : Section_) (r : ElfRel) (sym : Symbol) (S : Z) (st st' : scan_state) (rt : runtime) :
  pic ctx = shared ctx || pie ctx -> syms !! r_sym r = Some sym -> get_addr m ctx false false sym = Some S ->
  process_of m ctx syms (flags st') rt -> errors st' = errors st ->
  (scan_pcrel m ctx opt syms is_protected isec st r = Some st' ->
    (flagged (flags st') (r_sym r) NEEDS_PLT = true /\ is_imported sym = true /\ get_type sym = constant STT "STT_FUNC" /\ pic ctx = true) \/
    word m (S + r_addend r - place isec r) =
      word m (runtime_address rt sym S + r_addend r - (base rt + place isec r))) /\
  (scan_absrel m ctx opt syms is_protected isec st r = Some st' ->
    word m (S + r_addend r) = word m (runtime_address rt sym S + r_addend r)).
Proof.
  intros Hpic Hs Ha [Hb Hc] He. specialize (Hc _ _ S Hs).
  assert (Hw : forall x, word m (sym_value rt (dynsym_of sym)) = word m (base rt + S) ->
    word m (base rt + S + x) = word m (sym_value rt (dynsym_of sym) + x)).
  { intros x E. by rewrite <- word_add_l, <- E, word_add_l. }
  assert (Hf : forall a, a ∈ [COPYREL; CPLT] -> st' = scan_rel m ctx opt is_protected isec r a st ->
    word m (sym_value rt (dynsym_of sym)) = word m (base rt + S)).
  { intros a Hin ->. apply Hc; [|done]. apply scan_rel_flagged; [set_solver|]. apply list_elem_of_In in Hin. by destruct Hin as [<- | [<- | []]]. }
  assert (Hn : errors (error r Recompile st) <> errors st).
  { simpl. intros E. apply (f_equal length) in E. rewrite length_app in E. simpl in E. lia. }
  unfold scan_pcrel, scan_absrel, scan_with. rewrite Hs. cbn [mbind option_bind]. unfold runtime_address. split; intros [= E].
  - pose proof (pcrel_means ctx sym Hpic) as Hm. destruct (get_pcrel_action ctx sym); try done.
    + right. destruct Hm as [[-> Hp]|[-> ->]]; [by rewrite (Hb Hp)|f_equal; lia].
    + exfalso. apply Hn. by rewrite <- He, <- E.
    + right. destruct Hm as [-> ->]. replace (S + r_addend r - place isec r) with (base rt + S + (r_addend r - (base rt + place isec r))) by lia.
      rewrite Hw; [f_equal; lia|]. apply (Hf COPYREL); [set_solver|done].
    + left. destruct Hm as (_ & ? & ? & ?). split; [|done]. rewrite <- E. cbn [scan_rel]. rewrite add_flag_flagged, bool_decide_eq_true_2 by done.
      apply orb_true_r.
    + right. destruct Hm as [-> ->]. replace (S + r_addend r - place isec r) with (base rt + S + (r_addend r - (base rt + place isec r))) by lia.
      rewrite Hw; [f_equal; lia|]. apply (Hf CPLT); [set_solver|done].
  - pose proof (absrel_means ctx sym Hpic) as Hm. destruct (get_absrel_action ctx sym); try done.
    + destruct Hm as [->|(-> & -> & Hp)]; [done|]. by rewrite (Hb Hp).
    + exfalso. apply Hn. by rewrite <- He, <- E.
    + destruct Hm as (-> & -> & Hp). rewrite <- Hw by (apply (Hf COPYREL); [set_solver|done]). by rewrite (Hb Hp).
    + destruct Hm as (-> & -> & Hp). rewrite <- Hw by (apply (Hf CPLT); [set_solver|done]). by rewrite (Hb Hp).
Qed.

(** ** A sample *)

(** A shared library for x86-64 whose data refers to a symbol of its own, an imported one,
    a resolver and an absolute symbol; the second file has a word that is not aligned, and
    one in a section that is. *)
Definition abs64 (offset sym addend : Z) : ElfRel := mkElfRel offset (R_ABS (target_of X86_64)) sym addend.
Definition sample_section (offset : Z) (rels : list ElfRel) : Section_ := mkSection (12288 + offset) true false 8 3 offset rels.
Definition sample_files : list (list Section_) :=
  [ [sample_section 0 [abs64 0 2 0; abs64 8 1 4; abs64 16 3 0; abs64 24 4 1]];
    [sample_section 32 [abs64 4 2 8]; sample_section 48 [abs64 0 2 16]] ].
Definition sample_output : OutputSection_ := mkOutput true false 8 12288 (concat sample_files).
Definition sample_options : options := mkOptions true true.

Lemma sample_linked : linked X86_64 sample_ctx sample_symbols sample_symbols sample_files [sample_output] [] 16384 [16].
Proof.
  split.
  - reflexivity.
  - assert (H : forall p, p ∈ pairs (concat sample_files) -> rel_linked X86_64 sample_ctx sample_symbols sample_symbols p); [|by apply Forall_forall].
    intros p Hp. apply list_elem_of_In in Hp. vm_compute in Hp.
    repeat destruct Hp as [<-|Hp]; try done; repeat split; vm_compute; eauto; congruence.
  - repeat constructor; try (vm_compute; congruence); try (by exists 1).
  - reflexivity.
  - decided.
  - assert (H : Forall (fun p => Forall (fun q => p <> q -> 8 <= Z.abs (p - q)) (map place_of (pairs (concat sample_files))))
      (map place_of (pairs (concat sample_files)))) by decided.
    intros p q Hp Hq. rewrite Forall_forall in H. specialize (H p Hp). rewrite Forall_forall in H. by apply H.
  - split; [|decided]. split; [by intros _|]. split; repeat constructor; done.
  - split; [constructor|]. constructor.
  - done.
Qed.

Lemma same_kind_refl (syms : gmap Z Symbol) s sym0 sym : syms !! s = Some sym0 -> syms !! s = Some sym -> same_kind sym0 sym.
Proof. intros E0 E. rewrite E0 in E. injection E as ->. done. Qed.

(** The relocations against the imported symbol and the resolver and the one that is not
    aligned are left to the loader; the others are packed, and so is the word of the
    resolver, which the loader then overwrites. *)
Lemma sample_scanned : map (fun p => (p.1, num_dynrel p.2, num_ifunc_dynrels p.2, errors p.2)) <$>
    scan_files X86_64 sample_ctx sample_options sample_symbols (fun _ => false) false ∅ sample_files =
  Some [([0], 2, 1, []); ([0; 1], 1, 0, [])] /\
  construct_relr 8 (R_ABS (target_of X86_64)) true (relr_output sample_symbols sample_output) = Some [0; 69] /\
  decode 8 0 [12288; 69] = [12288; 12304; 12336].
Proof. split; [|split]; vm_compute; reflexivity. Qed.

Lemma absolute_words_load_witness :
  exists results rels got_relr relrs,
    scan_files X86_64 sample_ctx sample_options sample_symbols (fun _ => false) false ∅ sample_files = Some results /\
    encode_relr (word_size X86_64) [16] = Some got_relr /\
    Forall2 (fun osec relr => construct_relr (word_size X86_64) (R_ABS (target_of X86_64)) (pic sample_ctx)
      (relr_output sample_symbols osec) = Some relr) [sample_output] relrs /\
    let todo := sections_of sample_files (reldyn_offsets 1 results) in
    map fst todo = concat sample_files /\
    forall mem0 order, order ≡ₚ todo -> exists mem,
      apply_sections X86_64 sample_ctx sample_options sample_symbols false order (mem0, replicate (Z.to_nat (reldyn_size 1 results)) None) =
        Some (mem, replicate (Z.to_nat 1) None ++ map Some rels) /\
      forall rt all, process_of X86_64 sample_ctx sample_symbols (final_flags ∅ results) rt -> all ≡ₚ [] ++ rels ->
      forall isec r, isec ∈ concat sample_files -> r ∈ section_rels isec ->
        runtime_word X86_64 sample_ctx sample_symbols rt r =
          Some (load X86_64 rt mem (relr_dyn sample_ctx 16384 got_relr [sample_output] relrs) all (place isec r)).
Proof.
  apply (absolute_words_load X86_64 sample_ctx sample_options (fun _ => false) false sample_symbols sample_symbols sample_files
    [sample_output] [] 16384 [16] ∅ 1); [apply same_kind_refl|apply sample_linked|done].
Defined.

(** A 32-bit reference from a fixed executable to an imported variable, which is copied. *)
Definition fixed_ctx : Context := mkContext 20480 0 4096 4160 0 (0, 0) false false false false false true None 8192 8256 8192 None.
Definition copied_symbol : Symbol :=
  mkSymbol [] TAG_ABS 16 (Some true) (constant STT "STT_OBJECT") false true true true false (mkAux (-1) (-1) (-1) (-1) (-1) (-1) (-1) 1).
Definition copied_state : scan_state := mkScan {[ 1 := NEEDS_COPYREL ]} 0 0 false [].
Definition copied_runtime : runtime :=
  mkRuntime 0 (fun _ => 20496) (fun a => a) (fun i => i) (fun i => 0) (fun i => 0) (fun i a => (i, a)).

Lemma copied_process : process_of X86_64 fixed_ctx {[ 1 := copied_symbol ]} (flags copied_state) copied_runtime.
Proof.
  split; [done|]. intros s sym a Hs _ Ha. apply lookup_singleton_Some in Hs as [<- <-].
  vm_compute in Ha. injection Ha as <-. reflexivity.
Qed.

Lemma link_time_values_witness :
  scan_pcrel X86_64 fixed_ctx sample_options {[ 1 := copied_symbol ]} (fun _ => false) (sample_section 0 []) (new_scan ∅) (abs64 0 1 4) =
    Some copied_state /\
  word X86_64 (20496 + 4 - 12288) = word X86_64 (runtime_address copied_runtime copied_symbol 20496 + 4 - (0 + 12288)).
Proof.
  destruct (link_time_values X86_64 fixed_ctx sample_options (fun _ => false) {[ 1 := copied_symbol ]} (sample_section 0 []) (abs64 0 1 4)
    copied_symbol 20496 (new_scan ∅) copied_state copied_runtime) as [H _];
    [reflexivity|reflexivity|reflexivity|apply copied_process|reflexivity|].
  split; [reflexivity|]. destruct H as [(F & _)|E]; [reflexivity|vm_compute in F; done|exact E].
Defined.

(** ** Words that nothing relocates

    [is_relr_reloc] and [construct_relr] do not agree on these. *)

(** R_ARM_TARGET1 is scanned like R_ARM_ABS32 but only the latter is packed. *)
Definition pie_ctx : Context := mkContext 0 0 4096 4160 0 (0, 0) true false false true true true None 8192 8256 8192 None.
Definition target1 : Section_ := mkSection 12288 true false 4 2 0 [mkElfRel 0 (constant R_ARM "R_ARM_TARGET1") 2 0].

Lemma target1_lost : apply_dyn_absrel ARM32 pie_ctx sample_options sample_symbols target1 (mkElfRel 0 (constant R_ARM "R_ARM_TARGET1") 2 0) =
    Some (Some 8208, None) /\
  collect 4 (R_ABS (target_of ARM32)) true (relr_output sample_symbols (mkOutput true false 4 12288 [target1])) = [].
Proof. split; vm_compute; reflexivity. Qed.

(** A section whose [sh_addralign] is 0. *)
Definition unaligned : Section_ := mkSection 12288 true false 0 0 0 [abs64 0 2 0].

Lemma unaligned_lost : apply_dyn_absrel X86_64 pie_ctx sample_options sample_symbols unaligned (abs64 0 2 0) = Some (Some 8208, None) /\
  collect 8 (R_ABS (target_of X86_64)) true (relr_output sample_symbols (mkOutput true false 8 12288 [unaligned])) = [].
Proof. split; vm_compute; reflexivity. Qed.

(** The word of a resolver is packed and has a dynamic relocation, whose addend is the
    word itself on a REL target: the load bias is added twice. *)
Definition resolver_word : Section_ := mkSection 12288 true false 4 2 0 [mkElfRel 0 (R_ABS (target_of I386)) 3 0].

Lemma resolver_relocated_twice : exists e,
  apply_dyn_absrel I386 pie_ctx sample_options sample_symbols resolver_word (mkElfRel 0 (R_ABS (target_of I386)) 3 0) =
    Some (Some 8256, Some e) /\
  collect 4 (R_ABS (target_of I386)) true (relr_output sample_symbols (mkOutput true false 4 12288 [resolver_word])) = [0] /\
  let rt := mkRuntime 65536 (fun i => i) (fun a => a) (fun i => i) (fun i => 0) (fun i => 0) (fun i a => (i, a)) in
  load I386 rt (upd (fun _ => 0) 12288 8256) [12288] [e] 12288 = 65536 + (65536 + 8256).
Proof. eexists. split; [vm_compute; reflexivity|]. split; vm_compute; reflexivity. Qed.
