(* ===== verification/ElfLayout.v ===== *)
(** * Section layout and program headers of ELF files (src/elf/passes.cc, output-chunks.cc, tls.cc)

    [sort_output_sections] orders the chunks of the output, [set_osec_offsets] gives them
    addresses and file offsets and repeats until the program header, whose size depends
    on them, is stable. The specification is the part of a program loader that maps
    [PT_LOAD] segments page by page: with the headers that are written, it puts the
    contents of every chunk at its address, with the permissions that the chunk asks
    for. *)

From S2P Require Import Prelude Bits Enums ElfConst ElfTypes Glob.
Local Open Scope list_scope.
Local Open Scope Z_scope.

(** ** Data *)

(** A [Chunk] with the fields of its [shdr]. A pointer to a chunk is its [chunk_id];
    [is_osec] tells [OutputSection]s from synthesized chunks. *)
Record chunk := mkChunk {
  chunk_id : Z; is_osec : bool; chunk_name : bytes; sh_type : Z; sh_flags : Z; sh_addralign : Z;
  sh_size : Z; sh_addr : Z; sh_offset : Z; sect_order : Z }.

Record phdr := mkPhdr {
  p_type : Z; p_flags : Z; p_offset : Z; p_vaddr : Z; p_paddr : Z; p_filesz : Z; p_memsz : Z; p_align : Z }.

Inductive separate_code_kind := SEPARATE_LOADABLE_SEGMENTS | SEPARATE_CODE | NOSEPARATE_CODE.

(** [SectionOrder]; an entry of type NONE is unreachable. *)
Inductive section_order := SECTION (name : bytes) | GROUP (name : bytes) | ADDR (v : Z) | ALIGN (v : Z) | SYMBOL (name : bytes).

(** The options and the pointers to chunks that the layout looks at; [chunk_pool] has the
    chunks that pointers refer to and that are not in [ctx.chunks] (removed because they
    are empty). *)
Record Context := mkContext {
  machine_type : machine; page_size : Z; image_base : Z; physical_image_base : option Z;
  omagic : bool; execute_only : bool; rosegment : bool; z_separate_code : separate_code_kind;
  z_relro : bool; z_now : bool; z_execstack : bool;
  section_start : gmap bytes Z; order : list section_order; chunk_pool : list chunk;
  ehdr : option Z; phdr_chunk : option Z; shdr : option Z; interp : option Z; hash : option Z; gnu_hash : option Z;
  dynsym : option Z; dynstr : option Z; versym : option Z; verneed : option Z; reldyn : option Z; relplt : option Z;
  got : option Z; gotplt : option Z; dynamic : option Z; relro_padding : option Z; eh_frame_hdr : option Z }.

Definition sht (n : string) : Z := constant SHT ("SHT_" ++ n).
Definition shf (n : string) : Z := constant SHF ("SHF_" ++ n).
Definition pt (n : string) : Z := constant PT ("PT_" ++ n).
Definition PF_X : Z := constant PF "PF_X".
Definition PF_W : Z := constant PF "PF_W".
Definition PF_R : Z := constant PF "PF_R".

(** [chunk->shdr.sh_flags & SHF_...] as a condition. *)
Definition has (c : chunk) (n : string) : bool := negb (Z.land (sh_flags c) (shf n) =? 0).
Definition alloc (c : chunk) : bool := has c "ALLOC".
Definition nobits (c : chunk) : bool := sh_type c =? sht "NOBITS".

Section Layout.
Context (ctx : Context).

(** [chunk == ctx.p] *)
Definition at_ptr (p : option Z) (c : chunk) : bool := bool_decide (p = Some (chunk_id c)).

(** Fields of headers have the width of a word of the target. *)
Definition word_size : Z := if is_64 (target_of (machine_type ctx)) then 8 else 4.
Definition word (x : Z) : Z := wrap (8 * word_size) x.

Definition set_addr (c : chunk) (a : Z) : chunk :=
  mkChunk (chunk_id c) (is_osec c) (chunk_name c) (sh_type c) (sh_flags c) (sh_addralign c) (sh_size c) (word a)
    (sh_offset c) (sect_order c).
Definition set_size (c : chunk) (n : Z) : chunk :=
  mkChunk (chunk_id c) (is_osec c) (chunk_name c) (sh_type c) (sh_flags c) (sh_addralign c) (word n) (sh_addr c)
    (sh_offset c) (sect_order c).
Definition set_offset (c : chunk) (o : Z) : chunk :=
  mkChunk (chunk_id c) (is_osec c) (chunk_name c) (sh_type c) (sh_flags c) (sh_addralign c) (sh_size c) (sh_addr c)
    (word o) (sect_order c).
Definition set_order (c : chunk) (o : Z) : chunk :=
  mkChunk (chunk_id c) (is_osec c) (chunk_name c) (sh_type c) (sh_flags c) (sh_addralign c) (sh_size c) (sh_addr c)
    (sh_offset c) o.

(** [Error] for a writable section with [execute_only] only reports; the flags are
    returned all the same. *)
Definition to_phdr_flags (c : chunk) : Z :=
  if omagic ctx then Z.lor (Z.lor PF_R PF_W) PF_X
  else
    let write := has c "WRITE" in
    let exec := has c "EXECINSTR" in
    if exec && execute_only ctx then PF_X
    else
      let exec := if negb write && negb (rosegment ctx) then true else exec in
      Z.lor (Z.lor PF_R (if write then PF_W else 0)) (if exec then PF_X else 0).

(** [std::string_view::ends_with] *)
Definition ends_with (s : bytes) (p : string) : bool := starts_with (reverse s) (reverse (bs p)).

Definition is_relro (c : chunk) : bool :=
  if has c "WRITE" then
    has c "TLS" || (sh_type c =? sht "INIT_ARRAY") || (sh_type c =? sht "FINI_ARRAY") ||
    (sh_type c =? sht "PREINIT_ARRAY") || at_ptr (got ctx) c || at_ptr (dynamic ctx) c || at_ptr (relro_padding ctx) c ||
    (z_now ctx && at_ptr (gotplt ctx) c) ||
    bool_decide (chunk_name c = bs ".alpha_got") || bool_decide (chunk_name c = bs ".toc") ||
    ends_with (chunk_name c) ".rel.ro"
  else false.

Definition is_tbss (c : chunk) : bool := nobits c && has c "TLS".
Definition is_bss (c : chunk) : bool := nobits c && negb (has c "TLS").

(** ** Order of the chunks *)

Definition INT32_MAX : Z := 2 ^ 31 - 1.

Definition get_rank1 (c : chunk) : Z :=
  if at_ptr (ehdr ctx) c then 0
  else if at_ptr (phdr_chunk ctx) c then 1
  else if at_ptr (interp ctx) c then 2
  else if (sh_type c =? sht "NOTE") && alloc c then 3
  else if at_ptr (hash ctx) c then 4
  else if at_ptr (gnu_hash ctx) c then 5
  else if at_ptr (dynsym ctx) c then 6
  else if at_ptr (dynstr ctx) c then 7
  else if at_ptr (versym ctx) c then 8
  else if at_ptr (verneed ctx) c then 9
  else if at_ptr (reldyn ctx) c then 10
  else if at_ptr (relplt ctx) c then 11
  else if at_ptr (shdr ctx) c then INT32_MAX
  else
    let field b i := Z.shiftl (Z.b2z b) i in
    Z.lor (Z.lor (Z.lor (Z.lor (Z.lor (Z.lor (Z.shiftl 1 10) (field (negb (alloc c)) 9))
      (field (has c "WRITE") 8)) (field (has c "EXECINSTR") 7)) (field (negb (has c "TLS")) 6))
      (field (negb (is_relro c)) 5)) (field (nobits c) 4).

(** [-chunk->shdr.sh_addralign] is computed in the unsigned type of the field and then
    converted: the result is negative where a word has 64 bits. *)
Definition get_rank2 (c : chunk) : Z :=
  if sh_type c =? sht "NOTE" then i64 (word (- sh_addralign c))
  else if at_ptr (got ctx) c then 1
  else if bool_decide (chunk_name c = bs ".toc") then 2
  else if bool_decide (chunk_name c = bs ".alpha_got") then 3
  else if at_ptr (relro_padding ctx) c then INT32_MAX
  else 0.

Definition chunk_less (a b : chunk) : bool :=
  let x := get_rank1 a in
  let y := get_rank1 b in
  if negb (x =? y) then x <? y else get_rank2 a <? get_rank2 b.

Definition sort_output_sections_regular (chunks : list chunk) : list chunk := stable_sort chunk_less chunks.

Definition get_section_order_group (c : chunk) : bytes :=
  if nobits c then bs "BSS"
  else if has c "EXECINSTR" then bs "TEXT"
  else if has c "WRITE" then bs "DATA"
  else bs "RODATA".

(** The index of the first entry that satisfies a condition. *)
Fixpoint index_of (p : section_order -> bool) (i : Z) (l : list section_order) : option Z :=
  match l with
  | [] => None
  | o :: l' => if p o then Some i else index_of p (i + 1) l'
  end.

(** The second component is false when no entry is found, which is reported. *)
Definition get_order_rank (c : chunk) : Z * bool :=
  if at_ptr (ehdr ctx) c && negb (alloc c) then (-2, true)
  else if at_ptr (phdr_chunk ctx) c && negb (alloc c) then (-1, true)
  else if at_ptr (shdr ctx) c then (INT32_MAX, true)
  else if negb (alloc c) then (INT32_MAX - 1, true)
  else
    match index_of (fun o => match o with SECTION n => bool_decide (n = chunk_name c) | _ => false end) 0 (order ctx) with
    | Some i => (i, true)
    | None =>
      let group := get_section_order_group c in
      match index_of (fun o => match o with GROUP n => bool_decide (n = group) | _ => false end) 0 (order ctx) with
      | Some i => (i, true)
      | None => (0, false)
      end
    end.

Definition sort_output_sections_by_order (chunks : list chunk) : list chunk * bool :=
  (stable_sort (fun a b => sect_order a <? sect_order b)
     (map (fun c => set_order c (get_order_rank c).1) chunks),
   forallb (fun c => (get_order_rank c).2) chunks).

Definition sort_output_sections (chunks : list chunk) : list chunk * bool :=
  match order ctx with
  | [] => (sort_output_sections_regular chunks, true)
  | _ => sort_output_sections_by_order chunks
  end.

(** ** Addresses *)

Definition RELRO : Z := 2 ^ 32.

Definition get_flags (c : chunk) : Z :=
  let flags := to_phdr_flags c in if is_relro c then Z.lor flags RELRO else flags.

(** [first_tls_chunk] and [tls_alignment] *)
Definition first_tls (chunks : list chunk) : option Z :=
  chunk_id <$> List.find (fun c => has c "TLS") chunks.
Definition tls_alignment (chunks : list chunk) : Z :=
  foldl (fun n c => if has c "TLS" then Z.max n (sh_addralign c) else n) 1 chunks.

(** The padding in front of [c]; [prev] is the chunk before it in the list. *)
Definition separate (prev : option chunk) (addr : Z) (c : chunk) : Z :=
  match prev with
  | None => addr
  | Some p =>
    if at_ptr (relro_padding ctx) p then addr
    else
      let flags1 := get_flags p in
      let flags2 := get_flags c in
      let no_separate := if negb (addr mod page_size ctx =? 0) then u64 (addr + page_size ctx) else addr in
      if negb (flags1 =? flags2) then
        match z_separate_code ctx with
        | SEPARATE_LOADABLE_SEGMENTS => align_to addr (page_size ctx)
        | SEPARATE_CODE =>
          if negb (Z.land flags1 PF_X =? Z.land flags2 PF_X) then align_to addr (page_size ctx) else no_separate
        | NOSEPARATE_CODE => no_separate
        end
      else addr
  end.

Section Regular.
(** The list that the loop is about, which the alignment of TLS chunks depends on. *)
Context (all : list chunk).

Definition alignment (c : chunk) : Z :=
  if bool_decide (first_tls all = Some (chunk_id c)) then tls_alignment all else sh_addralign c.

(** The loop over the chunks; [prev] is [chunks[i - 1]]. The inner loop over a run of
    TLS BSS chunks is the state [Some addr2]. Its test reads [chunks[i + 1]] unless
    [i + 2] is the number of chunks, which is out of range for the last chunk: [None]. *)
Fixpoint assign_regular (prev : option chunk) (addr : Z) (tbss : option Z) (l : list chunk) : option (list chunk) :=
  match l with
  | [] => Some []
  | c :: l' =>
    let place_tbss addr addr2 :=
      let addr2 := align_to addr2 (alignment c) in
      let addr3 := u64 (addr2 + sh_size c) in
      match l' with
      | [] => None
      | d :: l'' =>
        let go_on := match l'' with [] => false | _ => is_tbss d end in
        cons (set_addr c addr2) <$> assign_regular (Some c) addr (if go_on then Some addr3 else None) l'
      end in
    match tbss with
    | Some addr2 => place_tbss addr addr2
    | None =>
      if negb (alloc c) then cons c <$> assign_regular (Some c) addr None l'
      else if at_ptr (relro_padding ctx) c then
        cons (set_size (set_addr c addr) (align_to addr (page_size ctx) - addr)) <$>
          assign_regular (Some c) (u64 (addr + page_size ctx)) None l'
      else
        match section_start ctx !! chunk_name c with
        | Some a => cons (set_addr c a) <$> assign_regular (Some c) (u64 (a + sh_size c)) None l'
        | None =>
          let addr := separate prev addr c in
          if is_tbss c then place_tbss addr addr
          else
            let addr := align_to addr (alignment c) in
            cons (set_addr c addr) <$> assign_regular (Some c) (u64 (addr + sh_size c)) None l'
        end
    end
  end.
End Regular.

Definition set_virtual_addresses_regular (chunks : list chunk) : option (list chunk) :=
  assign_regular chunks None (image_base ctx) None chunks.

(** With [--section-order]. The state is the chunks before [i], those from [i] on, the
    address, and the symbols defined so far. *)
Record order_state := mkOrderState { done_chunks : list chunk; rest_chunks : list chunk; cur_addr : Z; defined : list (bytes * Z) }.

(** Increments [i] while the chunk at [i] is not SHF_ALLOC. *)
Fixpoint skip_nonalloc (done rest : list chunk) : list chunk * list chunk :=
  match rest with
  | c :: rest' => if negb (alloc c) then skip_nonalloc (done ++ [c]) rest' else (done, rest)
  | [] => (done, rest)
  end.

Definition assign_addr (c : chunk) (rest : list chunk) (s : order_state) : order_state :=
  let addr := cur_addr s in
  let addr :=
    match last (done_chunks s) with
    | None => addr
    | Some p =>
      let flags1 := to_phdr_flags p in
      let flags2 := to_phdr_flags c in
      if negb (flags1 =? flags2) then
        match z_separate_code ctx with
        | SEPARATE_LOADABLE_SEGMENTS => align_to addr (page_size ctx)
        | SEPARATE_CODE =>
          if negb (Z.land flags1 PF_X =? Z.land flags2 PF_X) then align_to addr (page_size ctx) else addr
        | NOSEPARATE_CODE => addr
        end
      else addr
    end in
  let addr := align_to addr (sh_addralign c) in
  let '(done, rest) := skip_nonalloc (done_chunks s ++ [set_addr c addr]) rest in
  mkOrderState done rest (u64 (addr + sh_size c)) (defined s).

(** [fuel] is the number of chunks: every round of the loop of GROUP consumes one. *)
Fixpoint assign_group (fuel : nat) (j : Z) (s : order_state) : order_state :=
  match fuel, rest_chunks s with
  | S fuel, c :: rest => if j =? sect_order c then assign_group fuel j (assign_addr c rest s) else s
  | _, _ => s
  end.

Fixpoint assign_orders (j : Z) (ords : list section_order) (s : order_state) : order_state :=
  match ords with
  | [] => s
  | o :: ords' =>
    let set_cur a := mkOrderState (done_chunks s) (rest_chunks s) a (defined s) in
    let s' :=
      match o with
      | SECTION _ =>
        match rest_chunks s with
        | c :: rest => if j =? sect_order c then assign_addr c rest s else s
        | [] => s
        end
      | GROUP _ => assign_group (length (rest_chunks s)) j s
      | ADDR v => set_cur v
      | ALIGN v => set_cur (align_to (cur_addr s) v)
      | SYMBOL n => mkOrderState (done_chunks s) (rest_chunks s) (cur_addr s) (defined s ++ [(n, cur_addr s)])
      end in
    assign_orders (j + 1) ords' s'
  end.

Definition set_virtual_addresses_by_order (chunks : list chunk) : list chunk * list (bytes * Z) :=
  let '(done, rest) := skip_nonalloc [] chunks in
  let s := assign_orders 0 (order ctx) (mkOrderState done rest (image_base ctx) []) in
  (done_chunks s ++ rest_chunks s, defined s).

(** ** File offsets *)

Definition align_with_skew (val align skew : Z) : Z :=
  let x := u64 (align_down val align + skew mod align) in
  if val <=? x then x else u64 (x + align).

(** The [for] loop that continues a run after [first], whose last chunk so far is
    [prev]: the chunks it adds, the last chunk, and the rest. *)
Fixpoint run_offsets (first prev : chunk) (fileoff : Z) (l : list chunk) : list chunk * chunk * list chunk :=
  match l with
  | [] => ([], prev, [])
  | c :: l' =>
    if negb (alloc c) || nobits c then ([], prev, l)
    else if sh_addr c <? sh_addr first then ([], prev, l)
    else if page_size ctx <=? i64 (word (sh_addr c - sh_addr prev - sh_size prev)) then ([], prev, l)
    else
      let c' := set_offset c (u64 (fileoff + sh_addr c - sh_addr first)) in
      let '(run, last, rest) := run_offsets first c' fileoff l' in
      (c' :: run, last, rest)
  end.

Fixpoint skip_nobits (l : list chunk) : list chunk * list chunk :=
  match l with
  | c :: l' =>
    if alloc c && nobits c then let '(skipped, rest) := skip_nobits l' in (c :: skipped, rest) else ([], l)
  | [] => ([], [])
  end.

(** The outer loop; every round consumes a chunk, so [fuel] is the number of chunks. *)
Fixpoint file_offsets (fuel : nat) (fileoff : Z) (l : list chunk) : list chunk * Z :=
  match fuel, l with
  | S fuel, first :: l' =>
    if negb (alloc first) then
      let fileoff := align_to fileoff (sh_addralign first) in
      let '(l'', fileoff') := file_offsets fuel (u64 (fileoff + sh_size first)) l' in
      (set_offset first fileoff :: l'', fileoff')
    else if nobits first then
      let '(l'', fileoff') := file_offsets fuel fileoff l' in (first :: l'', fileoff')
    else
      let fileoff :=
        if page_size ctx <? sh_addralign first then align_to fileoff (sh_addralign first)
        else align_with_skew fileoff (page_size ctx) (sh_addr first) in
      let first' := set_offset first fileoff in
      let '(run, last, rest) := run_offsets first' first' fileoff l' in
      let '(skipped, rest) := skip_nobits rest in
      let '(l'', fileoff') := file_offsets fuel (u64 (sh_offset last + sh_size last)) rest in
      (first' :: run ++ skipped ++ l'', fileoff')
  | _, _ => (l, fileoff)
  end.

Definition set_file_offsets (chunks : list chunk) : list chunk * Z := file_offsets (length chunks) 0 chunks.

(** ** Program headers *)

(** A pointer of the context, followed. *)
Definition chunk_of (chunks : list chunk) (p : option Z) : option chunk :=
  i ← p; List.find (fun c => chunk_id c =? i) (chunks ++ chunk_pool ctx).

Definition define (type flags min_align : Z) (c : chunk) : phdr :=
  mkPhdr type flags (sh_offset c) (sh_addr c) (sh_addr c) (if nobits c then 0 else sh_size c) (sh_size c)
    (word (Z.max min_align (sh_addralign c))).

Definition append (p : phdr) (c : chunk) : phdr :=
  let size := word (sh_addr c + sh_size c - p_vaddr p) in
  mkPhdr (p_type p) (p_flags p) (p_offset p) (p_vaddr p) (p_paddr p) (if nobits c then p_filesz p else size) size
    (Z.max (p_align p) (sh_addralign c)).

(** [while (i < end && cond(chunks[i])) append(chunks[i++]);] *)
Fixpoint append_while (cond : chunk -> bool) (p : phdr) (l : list chunk) : phdr * list chunk :=
  match l with
  | c :: l' => if cond c then append_while cond (append p c) l' else (p, l)
  | [] => (p, [])
  end.

Definition is_note (c : chunk) : bool := (sh_type c =? sht "NOTE") && alloc c.

(** The loops over the chunks get their number as fuel. *)
Fixpoint note_phdrs (fuel : nat) (l : list chunk) : list phdr :=
  match fuel, l with
  | S fuel, first :: l' =>
    if is_note first then
      let flags := to_phdr_flags first in
      let '(p, rest) := append_while (fun c => is_note c && (to_phdr_flags c =? flags))
                          (define (pt "NOTE") flags (sh_addralign first) first) l' in
      p :: note_phdrs fuel rest
    else note_phdrs fuel l'
  | _, _ => []
  end.

(** A chunk continues the segment that [first] starts. *)
Definition contiguous (first : chunk) (flags : Z) (c : chunk) : bool :=
  negb (is_bss c) && (to_phdr_flags c =? flags) &&
  (word (sh_offset c - sh_offset first) =? word (sh_addr c - sh_addr first)).

Fixpoint load_phdrs (fuel : nat) (l : list chunk) : list phdr :=
  match fuel, l with
  | S fuel, first :: l' =>
    if alloc first then
      let flags := to_phdr_flags first in
      let p := define (pt "LOAD") flags (page_size ctx) first in
      let '(p, rest) := if negb (is_bss first) then append_while (contiguous first flags) p l' else (p, l') in
      let '(p, rest) := append_while (fun c => is_bss c && (to_phdr_flags c =? flags)) p rest in
      p :: load_phdrs fuel rest
    else load_phdrs fuel l'
  | _, _ => []
  end.

(** The loops for PT_TLS and PT_GNU_RELRO: after a run the increment of the [for]
    statement skips the chunk that ended it. *)
Fixpoint run_phdrs (fuel : nat) (cond : chunk -> bool) (type : Z) (l : list chunk) : list phdr :=
  match fuel, l with
  | S fuel, first :: l' =>
    if cond first then
      let '(p, rest) := append_while cond (define type PF_R 1 first) l' in
      p :: run_phdrs fuel cond type (tail rest)
    else run_phdrs fuel cond type l'
  | _, _ => []
  end.

Definition set_align (a : Z) (p : phdr) : phdr :=
  mkPhdr (p_type p) (p_flags p) (p_offset p) (p_vaddr p) (p_paddr p) (p_filesz p) (p_memsz p) a.
Definition set_paddr (a : Z) (p : phdr) : phdr :=
  mkPhdr (p_type p) (p_flags p) (p_offset p) (p_vaddr p) (word a) (p_filesz p) (p_memsz p) (p_align p).

(** The inner loop of the [physical_image_base] case. *)
Fixpoint set_paddrs (in_sync : bool) (addr : Z) (l : list phdr) : list phdr :=
  match l with
  | p :: l' =>
    if p_type p =? pt "LOAD" then
      if in_sync && (addr <=? p_vaddr p) && (p_vaddr p <? u64 (addr + page_size ctx * 2)) then
        set_paddr (p_vaddr p) p :: set_paddrs in_sync (word (p_vaddr p + p_memsz p)) l'
      else set_paddr addr p :: set_paddrs false (u64 (addr + p_memsz p)) l'
    else l
  | [] => []
  end.

Fixpoint physical_addresses (base : Z) (l : list phdr) : list phdr :=
  match l with
  | p :: l' =>
    if p_type p =? pt "LOAD" then
      set_paddr base p :: set_paddrs (p_vaddr p =? base) (u64 (base + p_memsz p)) l'
    else p :: physical_addresses base l'
  | [] => []
  end.

(** At most one header for a chunk that a pointer refers to. *)
Definition define_opt (type flags min_align : Z) (c : option chunk) : list phdr :=
  match c with Some c => [define type flags min_align c] | None => [] end.

Definition load_segments (chunks : list chunk) : list phdr :=
  let chunks := List.filter (fun c => negb (is_tbss c)) chunks in
  stable_sort (fun a b => p_vaddr a <? p_vaddr b) (load_phdrs (length chunks) chunks).

Definition when (cond : chunk -> bool) (c : option chunk) : option chunk :=
  match c with Some c => if cond c then Some c else None | None => None end.

(** [vec] before the physical addresses are set. *)
Definition phdr_vec (chunks : list chunk) : list phdr :=
  let n := length chunks in
  let ptr := chunk_of chunks in
  define_opt (pt "PHDR") PF_R word_size (when alloc (ptr (phdr_chunk ctx))) ++
  define_opt (pt "INTERP") PF_R 1 (ptr (interp ctx)) ++
  note_phdrs n chunks ++
  load_segments chunks ++
  run_phdrs n (fun c => has c "TLS") (pt "TLS") chunks ++
  define_opt (pt "DYNAMIC") (Z.lor PF_R PF_W) 1 (when (fun c => negb (sh_size c =? 0)) (ptr (dynamic ctx))) ++
  define_opt (pt "GNU_EH_FRAME") PF_R 1 (ptr (eh_frame_hdr ctx)) ++
  [mkPhdr (pt "GNU_STACK") (if z_execstack ctx then Z.lor (Z.lor PF_R PF_W) PF_X else Z.lor PF_R PF_W) 0 0 0 0 0 1] ++
  (if z_relro ctx then map (set_align 1) (run_phdrs n is_relro (pt "GNU_RELRO") chunks) else []) ++
  (if bool_decide (machine_type ctx = ARM32)
   then define_opt (pt "ARM_EXIDX") PF_R 4 (List.find (fun c => is_osec c && (sh_type c =? sht "ARM_EXIDX")) chunks)
   else []).

Definition create_phdr (chunks : list chunk) : list phdr :=
  match physical_image_base ctx with
  | Some base => physical_addresses base (phdr_vec chunks)
  | None => phdr_vec chunks
  end.

(** [sizeof(ElfPhdr<E>)] *)
Definition phdr_entry : Z := if is_64 (target_of (machine_type ctx)) then 56 else 32.

(** ** Thread-local storage *)

Definition get_tls_segment (phdrs : list phdr) : option phdr := List.find (fun p => p_type p =? pt "TLS") phdrs.

Definition get_tls_begin (phdrs : list phdr) : Z :=
  match get_tls_segment phdrs with Some p => p_vaddr p | None => 0 end.

Definition get_tp_addr (phdrs : list phdr) : Z :=
  let m := machine_type ctx in
  match get_tls_segment phdrs with
  | None => 0
  | Some p =>
    if is_x86 m || bool_decide (m = SPARC64) || bool_decide (m = S390X) then
      align_to (word (p_vaddr p + p_memsz p)) (p_align p)
    else if is_arm m || bool_decide (m = SH4) || bool_decide (m = ALPHA) then
      align_down (u64 (p_vaddr p - word_size * 2)) (p_align p)
    else if is_ppc m || bool_decide (m = M68K) then word (p_vaddr p + 0x7000)
    else p_vaddr p
  end.

Definition get_dtp_addr (phdrs : list phdr) : Z :=
  let m := machine_type ctx in
  match get_tls_segment phdrs with
  | None => 0
  | Some p =>
    if is_ppc m || bool_decide (m = M68K) then word (p_vaddr p + 0x8000)
    else if is_riscv m then word (p_vaddr p + 0x800)
    else p_vaddr p
  end.

(** ** The loop *)

Record file_layout := mkFileLayout {
  out_chunks : list chunk; out_phdrs : list phdr; filesize : Z; symbol_values : list (bytes * Z);
  tls_begin : Z; tp_addr : Z; dtp_addr : Z }.

(** One round up to [set_file_offsets]. *)
Definition set_addresses_and_offsets (chunks : list chunk) : option (list chunk * list (bytes * Z) * Z) :=
  match (match order ctx with
         | [] => (fun l => (l, [])) <$> set_virtual_addresses_regular chunks
         | _ => Some (set_virtual_addresses_by_order chunks)
         end) with
  | Some (l, syms) => let '(l, fileoff) := set_file_offsets l in Some (l, syms, fileoff)
  | None => None
  end.

(** [OutputPhdr::update_shdr], on the chunk of the program header. *)
Definition update_phdr (n : Z) (c : chunk) : chunk :=
  if at_ptr (phdr_chunk ctx) c then set_size c (n * phdr_entry) else c.

(** The result [None] means that the loop has not ended after [fuel] rounds, or that a
    round reads outside the list of chunks. *)
Fixpoint set_osec_offsets (fuel : nat) (chunks : list chunk) : option file_layout :=
  match fuel with
  | O => None
  | S fuel =>
    '(l, syms, fileoff) ← set_addresses_and_offsets chunks;
    match chunk_of l (phdr_chunk ctx) with
    | None => Some (mkFileLayout l [] fileoff syms 0 0 0)
    | Some ph =>
      let phdrs' := create_phdr l in
      let l' := map (update_phdr (zlen phdrs')) l in
      if sh_size ph =? word (zlen phdrs' * phdr_entry) then
        Some (mkFileLayout l' phdrs' fileoff syms (get_tls_begin phdrs') (get_tp_addr phdrs') (get_dtp_addr phdrs'))
      else set_osec_offsets fuel l'
    end
  end.
End Layout.

(** ** Specification: a program loader

    It maps the pages that a [PT_LOAD] segment touches with the permissions of the
    segment, from the file as far as [p_filesz] goes and zero beyond, and a later segment
    replaces the pages of an earlier one. *)
Section Loader.
Context (page : Z) (file : Z -> Z).

Definition mapped (p : phdr) (a : Z) : bool :=
  (p_type p =? pt "LOAD") && (page * (p_vaddr p / page) <=? a) && (a / page <=? (p_vaddr p + p_memsz p - 1) / page).

Definition image (p : phdr) (a : Z) : Z :=
  if a <? p_vaddr p + p_filesz p then file (p_offset p + (a - p_vaddr p)) else 0.

(** The byte at an address and the permissions of its page. *)
Definition load (phdrs : list phdr) (a : Z) : option (Z * Z) :=
  foldl (fun m p => if mapped p a then Some (image p a, p_flags p) else m) None phdrs.

(** What the loader checks before it maps a segment. *)
Definition loadable (p : phdr) : Prop :=
  p_type p = pt "LOAD" -> 0 <= p_filesz p <= p_memsz p /\ (p_filesz p = 0 \/ p_offset p mod page = p_vaddr p mod page).
End Loader.

(** ** What the layout requires of the chunks *)

Section Requirements.
Context (ctx : Context).

Definition align_ok (a : Z) : bool := (a =? 0) || (has_single_bit a && (0 <? a) && (a <=? page_size ctx)).

Definition padding (c : chunk) : bool := at_ptr (relro_padding ctx) c.
Definition flags_of (c : chunk) : Z := to_phdr_flags ctx c.

Definition separate_loadable : bool :=
  match z_separate_code ctx with SEPARATE_LOADABLE_SEGMENTS => true | _ => false end.

Definition implies (a b : bool) : bool := negb a || b.

(** [p] is the chunk before [c] and [q] the last one that is not TLS BSS, up to [p]:
    the padding follows a chunk with the same flags; the chunks of a run of TLS BSS
    agree; contents do not follow a BSS chunk of the same kind; where only RELRO ends,
    there is the padding; a TLS BSS chunk is not alone between chunks of other flags. *)
Definition pair_ok (q p c : chunk) : bool :=
  implies (padding c) (flags_of p =? flags_of c) &&
  implies (is_tbss p && is_tbss c) (get_flags ctx p =? get_flags ctx c) &&
  implies (is_bss p && negb (is_bss c)) (padding p || negb (get_flags ctx p =? get_flags ctx c)) &&
  implies (negb (get_flags ctx p =? get_flags ctx c))
    (negb (flags_of p =? flags_of c) || padding p || separate_loadable) &&
  implies (flags_of q =? flags_of c) (flags_of p =? flags_of c).

Fixpoint pairs_ok (q p : option chunk) (l : list chunk) : bool :=
  match l with
  | [] => true
  | c :: l' =>
    match q, p with Some q, Some p => pair_ok q p c | _, Some p => pair_ok p p c | _, None => negb (padding c) end &&
    pairs_ok (if is_tbss c then q else Some c) (Some c) l'
  end.

(** The size that a chunk may take: the padding up to a page, and the program header
    [room]. *)
Context (room : Z).
Definition weight (c : chunk) : Z :=
  if padding c then page_size ctx else if at_ptr (phdr_chunk ctx) c then room else sh_size c.
Definition size_ok (c : chunk) : bool := (0 <=? sh_size c) && (sh_size c <=? weight c).

(** And at most three pages of padding. *)
Definition need (l : list chunk) : Z := foldr (fun c n => weight c + 3 * page_size ctx + n) 0 l.
Definition limit : Z := if is_64 (target_of (machine_type ctx)) then 2 ^ 61 else 2 ^ 32.

Definition alloc_ok (c : chunk) : bool :=
  alloc c && align_ok (sh_addralign c) && size_ok c && implies (padding c) (is_bss c).
(** A chunk without SHF_ALLOC has no address. *)
Definition nonalloc_ok (c : chunk) : bool :=
  negb (alloc c) && align_ok (sh_addralign c) && size_ok c && negb (nobits c) && negb (has c "TLS") &&
  negb (padding c) && (sh_addr c =? 0).

Lemma size_ok_spec c : size_ok c = true -> 0 <= sh_size c <= weight c.
Proof. unfold size_ok. rewrite andb_true_iff. lia. Qed.

Lemma need_app l1 l2 : need (l1 ++ l2) = need l1 + need l2.
Proof. induction l1; simpl; lia. Qed.
End Requirements.

(** ** Facts shared by the proofs *)

Section Facts.
Context (ctx : Context).

Lemma limit_61 : limit ctx <= 2 ^ 61.
Proof. unfold limit. destruct (is_64 _); vm_compute; done. Qed.

Lemma word_nowrap x : 0 <= x < limit ctx -> word ctx x = x.
Proof.
  unfold limit, word, word_size. intros. apply wrap_small. unfold is_u. destruct (is_64 _); simpl; [|lia].
  change (8 * 8) with 64. pose proof (Z.pow_lt_mono_r 2 61 64). lia.
Qed.

Lemma u64_nowrap x : 0 <= x <= 2 ^ 63 -> u64 x = x.
Proof. intros. apply wrap_small. unfold is_u. pose proof (Z.pow_lt_mono_r 2 63 64). lia. Qed.

Context (k : Z).
Hypothesis Hk : 0 <= k <= 30.
Hypothesis Hpage : page_size ctx = 2 ^ k.
Abbreviation P := (page_size ctx).

(** The page of an address, as its address. *)
Definition floor (x : Z) : Z := P * (x / P).

Lemma page_bounds : 0 < P <= 2 ^ 30.
Proof. rewrite Hpage. split; [apply Z.pow_pos_nonneg; lia|apply Z.pow_le_mono_r; lia]. Qed.

Lemma floor_spec x : floor x <= x < floor x + P /\ floor x mod P = 0.
Proof.
  pose proof page_bounds. unfold floor. pose proof (Z.div_mod x P ltac:(lia)). pose proof (Z.mod_pos_bound x P ltac:(lia)).
  split; [lia|]. rewrite Z.mul_comm. apply Z_mod_mult.
Qed.

Lemma floor_mono x y : x <= y -> floor x <= floor y.
Proof. intros. pose proof page_bounds. unfold floor. pose proof (Z.div_le_mono x y P). nia. Qed.

Lemma floor_nonneg x : 0 <= x -> 0 <= floor x.
Proof. intros. pose proof page_bounds. unfold floor. pose proof (Z.div_pos x P). nia. Qed.

Lemma floor_multiple x : x mod P = 0 -> floor x = x.
Proof. intros. pose proof page_bounds. unfold floor. pose proof (Z.div_mod x P). lia. Qed.

Lemma floor_next x : floor (x + P) = floor x + P.
Proof. pose proof page_bounds. unfold floor. replace (x + P) with (x + 1 * P) by lia. rewrite Z.div_add by lia. lia. Qed.

Lemma page_align x : 0 <= x <= 2 ^ 62 -> x <= align_to x P < x + P /\ align_to x P mod P = 0.
Proof.
  intros. rewrite Hpage. apply (align_to_bounds x k (2 ^ 62)); [lia|lia|].
  assert (2 ^ k <= 2 ^ 30) by (apply Z.pow_le_mono_r; lia). lia.
Qed.

Lemma align_ok_cases a : align_ok ctx a = true -> a = 0 \/ exists j, 0 <= j <= k /\ a = 2 ^ j.
Proof.
  unfold align_ok. rewrite orb_true_iff, !andb_true_iff.
  intros [?%Z.eqb_eq|[[H1 H0%Z.ltb_lt] H2%Z.leb_le]]; [by left|right].
  rewrite Hpage in H2. assert (Ha : is_u 64 a).
  { assert (2 ^ k <= 2 ^ 30) by (apply Z.pow_le_mono_r; lia). unfold is_u. pose proof (Z.pow_lt_mono_r 2 30 64). lia. }
  destruct (proj1 (has_single_bit_spec a Ha) H1) as (j & Hj & ->). exists j. split; [|done].
  apply Z.pow_le_mono_r_iff in H2; lia.
Qed.

Lemma pow2_divide i j x : 0 <= i <= j -> x mod 2 ^ j = 0 -> x mod 2 ^ i = 0.
Proof.
  intros Hij Hx. apply Z.mod_divide in Hx as [y ->]; [|apply Z.pow_nonzero; lia].
  replace (2 ^ j) with (2 ^ (j - i) * 2 ^ i) by (rewrite <- Z.pow_add_r by lia; f_equal; lia).
  rewrite Z.mul_assoc. apply Z_mod_mult.
Qed.

(** Aligning to an alignment up to a page. *)
Lemma align_any x a : 0 <= x <= 2 ^ 62 -> align_ok ctx a = true ->
  x <= align_to x a < x + P /\ (a <> 0 -> align_to x a mod a = 0) /\ (x mod P = 0 -> align_to x a = x).
Proof.
  intros Hx [->|(j & Hj & ->)]%align_ok_cases.
  - pose proof page_bounds. unfold align_to. simpl. repeat split; lia.
  - assert (2 ^ j <= 2 ^ k) by (apply Z.pow_le_mono_r; lia). assert (2 ^ k <= 2 ^ 30) by (apply Z.pow_le_mono_r; lia).
    assert (0 < 2 ^ j) by (apply Z.pow_pos_nonneg; lia).
    destruct (align_to_bounds x j (2 ^ 62)) as [B M]; [lia|lia|lia|]. rewrite Hpage. repeat split; try lia.
    intros Hm. apply align_to_multiple; [unfold is_u; pose proof (Z.pow_lt_mono_r 2 62 64); lia|lia| |lia].
    by apply (pow2_divide j k).
Qed.

Lemma max_align_ok a b : align_ok ctx a = true -> align_ok ctx b = true -> align_ok ctx (Z.max a b) = true.
Proof. intros. destruct (Z.max_spec a b) as [[_ ->]|[_ ->]]; done. Qed.

(** A multiple of the larger alignment is one of the smaller. *)
Lemma align_ok_divide a b x : align_ok ctx a = true -> align_ok ctx b = true -> a <> 0 -> a <= b -> x mod b = 0 -> x mod a = 0.
Proof.
  intros [->|(i & Hi & ->)]%align_ok_cases [->|(j & Hj & ->)]%align_ok_cases H0 Hle Hx; try done.
  - pose proof (Z.pow_pos_nonneg 2 i). lia.
  - apply (pow2_divide i j); [|done]. apply Z.pow_le_mono_r_iff in Hle; lia.
Qed.

(** *** The alignment of TLS chunks *)

Lemma tls_alignment_spec all :
  Forall (fun c => align_ok ctx (sh_addralign c) = true) all ->
  align_ok ctx (tls_alignment all) = true /\ 1 <= tls_alignment all /\
  (forall c, c ∈ all -> has c "TLS" = true -> sh_addralign c <= tls_alignment all).
Proof.
  unfold tls_alignment.
  assert (G : forall l n, Forall (fun c => align_ok ctx (sh_addralign c) = true) l -> align_ok ctx n = true -> 1 <= n ->
    let r := foldl (fun n c => if has c "TLS" then Z.max n (sh_addralign c) else n) n l in
    align_ok ctx r = true /\ n <= r /\ (forall c, c ∈ l -> has c "TLS" = true -> sh_addralign c <= r)).
  { induction l as [|c l IH]; intros n Hl Hn H1; simpl.
    - repeat split; [done|lia|]. intros c Hc. by apply not_elem_of_nil in Hc.
    - apply Forall_cons in Hl as [Hc Hl]. destruct (has c "TLS") eqn:Et.
      + destruct (IH (Z.max n (sh_addralign c)) Hl) as (A & B & C); [by apply max_align_ok|lia|].
        repeat split; [done|lia|]. intros d [->|Hd]%elem_of_cons Ht; [lia|by apply C].
      + destruct (IH n Hl Hn H1) as (A & B & C). repeat split; [done|lia|].
        intros d [->|Hd]%elem_of_cons Ht; [congruence|by apply C]. }
  intros H. assert (H1 : align_ok ctx 1 = true).
  { unfold align_ok. rewrite !orb_true_iff, !andb_true_iff. right. pose proof page_bounds.
    split; [split; by vm_compute|apply Z.leb_le; lia]. }
  destruct (G all 1 H H1 ltac:(lia)) as (A & B & C). by repeat split.
Qed.

Lemma first_tls_find all i : NoDup (map chunk_id all) -> first_tls all = Some i ->
  forall c, c ∈ all -> chunk_id c = i -> has c "TLS" = true.
Proof.
  unfold first_tls. intros Hnd Hf c Hc Hi.
  destruct (List.find _ all) as [d|] eqn:E; [|done]. injection Hf as Hd. apply List.find_some in E as [Hin Ht].
  apply list_elem_of_In in Hin. assert (c = d) as ->; [|done].
  apply list_elem_of_lookup in Hc as [n Hn]. apply list_elem_of_lookup in Hin as [n' Hn'].
  assert (n = n') as ->; [|congruence].
  eapply (NoDup_lookup (map chunk_id all)); [exact Hnd| |]; rewrite list_lookup_fmap; [by rewrite Hn|].
  rewrite Hn'. simpl. congruence.
Qed.

Lemma alignment_spec all c :
  Forall (fun c => align_ok ctx (sh_addralign c) = true) all -> NoDup (map chunk_id all) -> c ∈ all ->
  align_ok ctx (alignment all c) = true /\
  (forall x, (alignment all c <> 0 -> x mod alignment all c = 0) -> sh_addralign c <> 0 -> x mod sh_addralign c = 0).
Proof.
  intros Ha Hnd Hc. unfold alignment. case_bool_decide as Hf.
  - destruct (tls_alignment_spec all Ha) as (H1 & H2 & H3). split; [done|]. intros x Hx Hz.
    pose proof (first_tls_find all _ Hnd Hf c Hc eq_refl) as Ht.
    apply (align_ok_divide _ (tls_alignment all)); [|done|done|by apply H3|apply Hx; lia].
    rewrite Forall_forall in Ha. by apply Ha.
  - rewrite Forall_forall in Ha. split; [by apply Ha|auto].
Qed.

(** *** The padding between chunks *)

Lemma separate_le p addr c : 0 <= addr <= 2 ^ 61 -> addr <= separate ctx p addr c <= addr + P.
Proof.
  intros Ha. pose proof page_bounds. pose proof (page_align addr ltac:(lia)) as [B _].
  assert (U : u64 (addr + P) = addr + P) by (apply u64_nowrap; lia).
  unfold separate. destruct p as [p|]; [|lia]. rewrite U.
  destruct (at_ptr _ _); [lia|]. destruct (negb _); [|lia].
  destruct (z_separate_code ctx); repeat case_bool; lia.
Qed.

Lemma separate_same p addr c : get_flags ctx p = get_flags ctx c \/ padding ctx p = true ->
  separate ctx (Some p) addr c = addr.
Proof.
  unfold separate, padding. intros [-> | ->]; [|done]. rewrite Z.eqb_refl. by destruct (at_ptr _ p).
Qed.

Lemma separate_differ p addr c e : 0 <= addr <= 2 ^ 61 -> padding ctx p = false -> get_flags ctx p <> get_flags ctx c ->
  e <= addr -> e <= floor (separate ctx (Some p) addr c).
Proof.
  unfold separate, padding. intros Ha -> Hf He. pose proof page_bounds.
  apply Z.eqb_neq in Hf. rewrite Hf. simpl.
  assert (U : u64 (addr + P) = addr + P) by (apply u64_nowrap; lia). rewrite U.
  pose proof (page_align addr ltac:(lia)) as [B M]. pose proof (floor_multiple _ M) as F.
  pose proof (floor_spec addr) as [S _].
  assert (N : e <= floor (if negb (addr mod P =? 0) then addr + P else addr)).
  { destruct (Z.eqb_spec (addr mod P) 0) as [Hz|]; simpl; [rewrite (floor_multiple _ Hz)|rewrite floor_next]; lia. }
  destruct (z_separate_code ctx); [lia| |exact N]. destruct (negb (Z.land _ _ =? _)); [lia|exact N].
Qed.

Lemma separate_aligned p addr c : 0 <= addr <= 2 ^ 61 -> separate_loadable ctx = true ->
  padding ctx p = false -> get_flags ctx p <> get_flags ctx c ->
  separate ctx (Some p) addr c = align_to addr P.
Proof.
  unfold separate, padding, separate_loadable. intros Ha Hs -> Hf. apply Z.eqb_neq in Hf. rewrite Hf. simpl.
  by destruct (z_separate_code ctx).
Qed.

Lemma get_flags_inj p c : get_flags ctx p = get_flags ctx c -> flags_of ctx p = flags_of ctx c.
Proof.
  assert (B : forall c, 0 <= to_phdr_flags ctx c < 8).
  { intros x. unfold to_phdr_flags. destruct (omagic ctx); [by vm_compute|]. destruct (_ && _); [by vm_compute|].
    destruct (has x "WRITE"), (rosegment ctx), (has x "EXECINSTR"); by vm_compute. }
  unfold get_flags, flags_of. pose proof (B p). pose proof (B c).
  assert (L : forall x, 0 <= x < 8 -> Z.lor x RELRO = x + RELRO).
  { intros x Hx. unfold RELRO. rewrite Z.lor_comm. rewrite <- (Z.mul_1_l (2 ^ 32)).
    rewrite lor_low; [lia|lia|]. unfold is_u. pose proof (Z.pow_lt_mono_r 2 3 32). lia. }
  assert (8 < RELRO) by by vm_compute.
  destruct (is_relro ctx p), (is_relro ctx c); rewrite ?L by done; lia.
Qed.
End Facts.

(** ** What one round establishes *)

Section Placed.
Context (ctx : Context).
Abbreviation P := (page_size ctx).

Definition end_of (c : chunk) : Z := sh_addr c + sh_size c.

(** The layout keeps a chunk but for its position; it sizes the padding and the
    program header. *)
Record same (c d : chunk) : Prop := {
  same_id : chunk_id d = chunk_id c; same_osec : is_osec d = is_osec c; same_name : chunk_name d = chunk_name c;
  same_type : sh_type d = sh_type c; same_flags : sh_flags d = sh_flags c; same_align : sh_addralign d = sh_addralign c;
  same_size : padding ctx c = false -> at_ptr (phdr_chunk ctx) c = false -> sh_size d = sh_size c }.

#[export] Instance same_pre : PreOrder same.
Proof.
  split; [done|]. intros c d e [] []. split; try congruence. intros H1 H2.
  assert (padding ctx d = false) by (by unfold padding, at_ptr in *; rewrite same_id0).
  assert (at_ptr (phdr_chunk ctx) d = false) by (by unfold at_ptr in *; rewrite same_id0).
  rewrite same_size1 by done. by apply same_size0.
Qed.

(** [c] follows [q], the chunk before it that is not TLS BSS: beyond it, on another page
    unless it belongs to the same segment, and there without a hole of a page. *)
Record follows (q c : chunk) : Prop := {
  follows_end : end_of q <= sh_addr c;
  follows_page : end_of q <= floor ctx (sh_addr c) \/
    (flags_of ctx q = flags_of ctx c /\ (is_bss q = true -> is_bss c = true));
  follows_near : flags_of ctx q = flags_of ctx c -> is_bss q = false -> is_bss c = false -> sh_addr c - end_of q < P }.

Definition opt_rel {A B} (R : A -> B -> Prop) (x : option A) (y : B) : Prop := match x with Some x => R x y | None => True end.

(** The chunks other than TLS BSS, each after the one before. *)
Fixpoint linked (q : option chunk) (l : list chunk) : Prop :=
  match l with
  | [] => True
  | c :: l' => if is_tbss c then linked q l' else opt_rel follows q c /\ linked (Some c) l'
  end.

Definition aligned (c : chunk) : Prop := padding ctx c = false -> sh_addralign c <> 0 -> sh_addr c mod sh_addralign c = 0.
Definition within (lo hi : Z) (c : chunk) : Prop := lo <= sh_addr c /\ 0 <= sh_size c /\ end_of c <= hi.

(** [q] is the last chunk placed that is not TLS BSS, [p] the last chunk: directly after
    [q], on another page, or at the end of [q] and through TLS BSS of the same kind. *)
Inductive position (q p : chunk) (addr : Z) : Prop :=
| at_end : same p q -> padding ctx p = false -> addr = end_of q -> position q p addr
| other_page : is_tbss p = true \/ padding ctx p = true -> end_of q <= floor ctx addr ->
    (flags_of ctx q = flags_of ctx p -> is_bss q = false -> addr mod P = 0 /\ addr - end_of q < P) -> position q p addr
| through_tbss : is_tbss p = true -> padding ctx p = false -> flags_of ctx q = flags_of ctx p -> is_bss q = false -> addr = end_of q ->
    position q p addr.

Lemma same_padding c d : same c d -> padding ctx d = padding ctx c.
Proof. intros []. unfold padding, at_ptr. by rewrite same_id0. Qed.
Lemma same_at p c d : same c d -> at_ptr p d = at_ptr p c.
Proof. intros []. unfold at_ptr. by rewrite same_id0. Qed.
Lemma same_has c d n : same c d -> has d n = has c n.
Proof. intros []. unfold has. congruence. Qed.
Lemma same_nobits c d : same c d -> nobits d = nobits c.
Proof. intros []. unfold nobits. congruence. Qed.
Lemma same_tbss c d : same c d -> is_tbss d = is_tbss c.
Proof. intros H. unfold is_tbss. by rewrite (same_nobits _ _ H), (same_has _ _ _ H). Qed.
Lemma same_bss c d : same c d -> is_bss d = is_bss c.
Proof. intros H. unfold is_bss. by rewrite (same_nobits _ _ H), (same_has _ _ _ H). Qed.
Lemma same_flags_of c d : same c d -> flags_of ctx d = flags_of ctx c.
Proof. intros []. unfold flags_of, to_phdr_flags, has. by rewrite same_flags0. Qed.
Lemma same_relro c d : same c d -> is_relro ctx d = is_relro ctx c.
Proof. intros []. unfold is_relro, has, at_ptr. by rewrite same_flags0, same_type0, same_id0, same_name0. Qed.
Lemma same_get_flags c d : same c d -> get_flags ctx d = get_flags ctx c.
Proof.
  intros H. unfold get_flags. rewrite (same_relro _ _ H). pose proof (same_flags_of _ _ H) as F. unfold flags_of in F.
  by rewrite F.
Qed.

Lemma same_set_addr c a : same c (set_addr ctx c a).
Proof. by split. Qed.
Lemma same_set_size c n : padding ctx c = true \/ at_ptr (phdr_chunk ctx) c = true -> same c (set_size ctx c n).
Proof. split; try done. simpl. intros ? ?. destruct H; congruence. Qed.
Lemma same_set_offset c a : same c (set_offset ctx c a).
Proof. by split. Qed.

Lemma pair_ok_same q q' p c : same q q' -> pair_ok ctx q' p c = pair_ok ctx q p c.
Proof. intros H. unfold pair_ok. by rewrite (same_flags_of _ _ H). Qed.

Lemma pairs_ok_same q q' p l : same q q' -> pairs_ok ctx (Some q') p l = pairs_ok ctx (Some q) p l.
Proof.
  intros H. revert p. induction l as [|c l IH]; intros p; [done|]. simpl. f_equal.
  - destruct p; [by apply pair_ok_same|done].
  - destruct (is_tbss c); [by apply IH|done].
Qed.

Record pair_facts (q p c : chunk) : Prop := {
  pf_padding : padding ctx c = true -> flags_of ctx p = flags_of ctx c;
  pf_tbss : is_tbss p = true -> is_tbss c = true -> get_flags ctx p = get_flags ctx c;
  pf_bss : is_bss p = true -> is_bss c = false -> padding ctx p = true \/ get_flags ctx p <> get_flags ctx c;
  pf_relro : get_flags ctx p <> get_flags ctx c -> flags_of ctx p = flags_of ctx c ->
    padding ctx p = true \/ separate_loadable ctx = true;
  pf_back : flags_of ctx q = flags_of ctx c -> flags_of ctx p = flags_of ctx c }.

Lemma implies_true a b : implies a b = true -> a = true -> b = true.
Proof. unfold implies. by destruct a, b. Qed.

Lemma pair_ok_facts q p c : pair_ok ctx q p c = true -> pair_facts q p c.
Proof.
  unfold pair_ok. rewrite !andb_true_iff. intros [[[[H1 H2] H3] H4] H5].
  split.
  - intros Hc. by apply Z.eqb_eq, (implies_true _ _ H1).
  - intros Hp Hc. apply Z.eqb_eq, (implies_true _ _ H2). by rewrite Hp.
  - intros Hp Hc. rewrite Hp, Hc in H3. pose proof (implies_true _ _ H3 eq_refl) as H. apply orb_true_iff in H as [H|H%negb_true_iff%Z.eqb_neq]; auto.
  - intros Hd Hf. apply Z.eqb_neq in Hd. rewrite Hd, Hf, Z.eqb_refl in H4. pose proof (implies_true _ _ H4 eq_refl) as H.
    apply orb_true_iff in H as [|]; auto.
  - intros Hf. apply Z.eqb_eq, (implies_true _ _ H5). by apply Z.eqb_eq.
Qed.

End Placed.

(** ** Addresses *)

Section Addresses.
Context (ctx : Context) (k room : Z).
Hypothesis Hk : 0 <= k <= 30.
Hypothesis Hpage : page_size ctx = 2 ^ k.
Hypothesis Hstart : section_start ctx = ∅.
Context (all nonalloc : list chunk) (hi : Z).
Hypothesis Hall : Forall (fun c => align_ok ctx (sh_addralign c) = true) all.
Hypothesis Hids : NoDup (map chunk_id all).
Hypothesis Hnon : Forall (fun c => nonalloc_ok ctx room c = true) nonalloc.
Hypothesis Hhi : hi <= limit ctx /\ hi < 2 ^ 61.
Abbreviation P := (page_size ctx).
Abbreviation same := (same ctx).
Abbreviation position := (position ctx).

(** An address at which [c] may start, before it is aligned. *)
Definition ready (q c : chunk) (addr : Z) : Prop :=
  end_of q <= addr /\
  (end_of q <= floor ctx addr \/ (flags_of ctx q = flags_of ctx c /\ (is_bss q = true -> is_bss c = true))) /\
  (flags_of ctx q = flags_of ctx c -> is_bss q = false -> addr = end_of q \/ (addr mod P = 0 /\ addr - end_of q < P)).

Lemma padding_bss c : alloc_ok ctx room c = true -> padding ctx c = true -> is_bss c = true /\ is_tbss c = false.
Proof.
  unfold alloc_ok. rewrite !andb_true_iff. intros [_ H] Hp. pose proof (implies_true _ _ H Hp) as Hb. split; [done|].
  unfold is_bss, is_tbss in *. apply andb_true_iff in Hb as [-> Ht%negb_true_iff]. done.
Qed.

Lemma tbss_not_bss c : is_tbss c = true -> is_bss c = false.
Proof. unfold is_tbss, is_bss. intros [-> ->]%andb_true_iff. done. Qed.

Lemma position_le q p addr : position q p addr -> end_of q <= addr.
Proof. pose proof (floor_spec ctx k Hk Hpage addr) as [? _]. intros []; lia. Qed.

Lemma ready_here q p c addr : position q p addr -> pair_facts ctx q p c ->
  get_flags ctx p = get_flags ctx c \/ padding ctx p = true \/ padding ctx c = true /\ is_bss c = true ->
  ready q c addr.
Proof.
  intros Hpos [F1 F2 F3 F4 F5] Hsame. pose proof (position_le _ _ _ Hpos) as Hle. split; [done|].
  assert (Hfl : padding ctx p = false -> flags_of ctx p = flags_of ctx c).
  { intros Hp. destruct Hsame as [H|[H|[H _]]]; [by apply get_flags_inj with (k := k)|congruence|by apply F1]. }
  destruct Hpos as [Hs Hp He|Ht He Hn|Ht Hp Hf Hb He].
  - pose proof (same_flags_of _ _ _ Hs) as E. pose proof (same_bss _ _ _ Hs) as Eb. specialize (Hfl Hp).
    split; [right; split; [congruence|]|auto]. intros Hb. destruct (is_bss c) eqn:Ec; [done|].
    rewrite Eb in Hb. destruct (F3 Hb eq_refl) as [|Hd]; [congruence|].
    destruct Hsame as [H|[H|[_ H]]]; congruence.
  - split; [by left|]. intros Hf Hb. right. apply Hn; [|done]. rewrite Hf. symmetry. auto.
  - specialize (Hfl Hp). split; [right; split; congruence|auto].
Qed.

Lemma separate_ready q p c addr : position q p addr -> pair_facts ctx q p c -> 0 <= addr <= 2 ^ 61 ->
  ready q c (separate ctx (Some p) addr c).
Proof.
  intros Hpos F Ha. destruct (padding ctx p) eqn:Hp.
  - rewrite separate_same by auto. apply (ready_here _ _ _ _ Hpos F). auto.
  - destruct (Z.eq_dec (get_flags ctx p) (get_flags ctx c)) as [Hf|Hf].
    + rewrite separate_same by auto. apply (ready_here _ _ _ _ Hpos F). auto.
    + pose proof (position_le _ _ _ Hpos) as Hle. pose proof (separate_le ctx k Hk Hpage (Some p) addr c Ha) as Hs.
      pose proof (separate_differ ctx k Hk Hpage p addr c (end_of q) Ha Hp Hf Hle) as Hd.
      split; [lia|]. split; [by left|]. intros Hqc Hb. right.
      destruct (pf_relro _ _ _ _ F Hf (pf_back _ _ _ _ F Hqc)) as [|Hsl]; [congruence|].
      rewrite (separate_aligned ctx) by done. pose proof (page_align ctx k Hk Hpage addr ltac:(lia)) as [B M].
      split; [done|]. destruct Hpos as [_ _ He|_ _ Hn|_ _ _ _ He]; [lia| |lia].
      pose proof (pf_back _ _ _ _ F Hqc). destruct (Hn ltac:(congruence) Hb) as [Hm Hlt].
      enough (align_to addr P = addr) by lia.
      rewrite Hpage. apply align_to_multiple; [unfold is_u; pose proof (Z.pow_lt_mono_r 2 61 64); lia|lia|by rewrite <- Hpage|].
      pose proof (page_bounds ctx k Hk Hpage). pose proof (Z.pow_lt_mono_r 2 62 64). lia.
Qed.

(** TLS BSS keeps the address. *)
Lemma ready_tbss q c addr : is_tbss c = true -> padding ctx c = false -> ready q c addr -> position q c addr.
Proof.
  intros Ht Hp (H1 & H2 & H3). pose proof (tbss_not_bss c Ht) as Hc.
  destruct (is_bss q) eqn:Eb.
  { apply other_page; [by left| |congruence]. destruct H2 as [|[_ H]]; [done|]. rewrite H in Hc; done. }
  destruct (Z.eq_dec (flags_of ctx q) (flags_of ctx c)) as [Hf|Hf].
  - destruct (H3 Hf eq_refl) as [->|[Hm Hlt]]; [by apply through_tbss|].
    apply other_page; [by left| |auto]. by rewrite (floor_multiple ctx k).
  - apply other_page; [by left| |done]. destruct H2 as [|[? _]]; done.
Qed.

(** Any other chunk follows [q] where it is placed. *)
Lemma ready_follows q c addr x : ready q c addr -> addr <= x < addr + P -> (addr mod P = 0 -> x = addr) ->
  sh_addr c = x -> follows ctx q c.
Proof.
  intros (H1 & H2 & H3) Hx Hm Ex. split; rewrite Ex.
  - lia.
  - destruct H2 as [H2|H2]; [left|by right]. pose proof (floor_mono ctx k Hk Hpage addr x). lia.
  - intros Hf Hb _. destruct (H3 Hf Hb) as [->|[Hz Hlt]]; [lia|]. rewrite (Hm Hz). lia.
Qed.

(** Only the padding gets a size, of a page at most. *)
Definition sized (c d : chunk) : Prop := if padding ctx c then sh_size d <= P else sh_size d = sh_size c.

(** What the loop makes of the chunks [l], of which the first comes after [q]. *)
Record assigned (q : option chunk) (addr : Z) (l l' : list chunk) : Prop := {
  as_same : Forall2 same l l'; as_linked : linked ctx q l'; as_aligned : Forall (aligned ctx) l';
  as_within : Forall (within addr hi) l'; as_size : Forall2 sized l l' }.

Lemma assigned_cons q c l x l' c' addr addr' :
  same c c' -> sized c c' -> aligned ctx c' -> within addr hi c' -> addr <= addr' ->
  (if is_tbss c then assigned q addr' l l' else opt_rel (follows ctx) q c' /\ x = c' /\ assigned (Some x) addr' l l') ->
  assigned q addr (c :: l) (c' :: l').
Proof.
  intros Hs Hz Ha Hw Hle H. assert (Hmono : Forall (within addr' hi) l' -> Forall (within addr hi) l').
  { intros F. eapply Forall_impl; [exact F|]. intros d (? & ? & ?). unfold within. lia. }
  pose proof (same_tbss ctx _ _ Hs) as Et.
  destruct (is_tbss c) eqn:Ec.
  - destruct H as [H1 H2 H3 H4 H5]. split; [by constructor| |by constructor|constructor; auto|by constructor].
    simpl. by rewrite Et.
  - destruct H as (Hf & -> & [H1 H2 H3 H4 H5]). split; [by constructor| |by constructor|constructor; auto|by constructor].
    simpl. by rewrite Et.
Qed.

Lemma assign_nonalloc p addr l : Forall (fun c => nonalloc_ok ctx room c = true) l ->
  assign_regular ctx all p addr None l = Some l.
Proof.
  intros H. revert p. induction H as [|c l Hc Hl IH]; intros p; [done|]. simpl.
  unfold nonalloc_ok in Hc. rewrite !andb_true_iff in Hc. destruct Hc as [[[[[[-> _] _] _] _] _] _]. by rewrite IH.
Qed.

Lemma nonalloc_tbss c : nonalloc_ok ctx room c = true -> is_tbss c = false.
Proof.
  unfold nonalloc_ok, is_tbss. rewrite !andb_true_iff, !negb_true_iff. intros [[[[[[_ _] _] H] _] _] _]. by rewrite H.
Qed.

Lemma need_alloc l : Forall (fun c => alloc_ok ctx room c = true) l -> 0 <= need ctx room l.
Proof.
  pose proof (page_bounds ctx k Hk Hpage). induction 1 as [|c l Hc _ IH]; simpl; [lia|].
  unfold alloc_ok in Hc. rewrite !andb_true_iff in Hc. destruct Hc as [[_ Hc%size_ok_spec] _]. lia.
Qed.

(** A chunk at a multiple of its alignment. *)
Lemma aligned_at c x y : c ∈ all -> 0 <= x <= 2 ^ 61 -> y = align_to x (alignment all c) -> y < limit ctx ->
  aligned ctx (set_addr ctx c y).
Proof.
  intros Hc Hx E Hy. destruct (alignment_spec ctx k Hk Hpage all c Hall Hids Hc) as [Ha Hd].
  intros _ Hz. simpl in *. destruct (align_any ctx k Hk Hpage x _ ltac:(lia) Ha) as (B & _).
  rewrite word_nowrap by lia. rewrite E. apply Hd; [|done]. by destruct (align_any ctx k Hk Hpage x _ ltac:(lia) Ha) as (_ & H & _).
Qed.

Definition good (c : chunk) : Prop := alloc_ok ctx room c = true /\ c ∈ all.

Definition place (q p : option chunk) (addr : Z) : Prop :=
  match q with Some q => exists p', p = Some p' /\ position q p' addr | None => True end.

Lemma alloc_facts c : alloc_ok ctx room c = true -> alloc c = true /\ 0 <= sh_size c <= weight ctx room c /\ (padding ctx c = true -> is_bss c = true).
Proof.
  unfold alloc_ok. rewrite !andb_true_iff. intros [[[H1 _] H2%size_ok_spec] H3]. split; [done|split; [done|]].
  intros Hp. by apply (implies_true _ _ H3).
Qed.

Lemma tbss_not_padding c : alloc_ok ctx room c = true -> is_tbss c = true -> padding ctx c = false.
Proof.
  intros Hc Ht. destruct (padding ctx c) eqn:Hp; [|done]. destruct (padding_bss c Hc Hp). congruence.
Qed.

Lemma pairs_head q p c l : pairs_ok ctx (Some q) (Some p) (c :: l) = true -> pair_facts ctx q p c.
Proof. simpl. intros [H _]%andb_true_iff. by apply pair_ok_facts. Qed.

Lemma pairs_tail q p c l : pairs_ok ctx q p (c :: l) = true -> pairs_ok ctx (if is_tbss c then q else Some c) (Some c) l = true.
Proof. simpl. by intros [_ H]%andb_true_iff. Qed.

(** The state after the padding for [c]. *)
Lemma place_ready q p c l addr : place q p addr -> pairs_ok ctx q p (c :: l) = true -> 0 <= addr <= 2 ^ 61 ->
  opt_rel (fun q c => ready q c (separate ctx p addr c)) q c.
Proof.
  destruct q as [q|]; [|done]. intros (p' & -> & Hpos) Hp Ha. simpl. apply separate_ready; [done| |done].
  by apply (pairs_head q p' c l).
Qed.

(** One chunk of a run of TLS BSS, and the rest by hypothesis. *)
Lemma tbss_step q c l l0 addr0 addr a :
  good c -> is_tbss c = true -> opt_rel (fun q c => ready q c addr) q c ->
  0 <= addr0 <= addr -> addr <= a -> addr + need ctx room l <= hi -> a + P + sh_size c + need ctx room l <= hi ->
  Forall good l -> (forall z, last (c :: l ++ nonalloc) = Some z -> is_tbss z = false) ->
  l0 = l ++ nonalloc ->
  (forall tb, place q (Some c) addr ->
    match tb with
    | Some a' => addr <= a' /\ a' + need ctx room l <= hi /\ (exists d l'', l = d :: l'' /\ is_tbss d = true)
    | None => True
    end ->
    exists l', assign_regular ctx all (Some c) addr tb (l ++ nonalloc) = Some (l' ++ nonalloc) /\ assigned q addr l l') ->
  exists l',
    match l0 with
    | [] => None
    | d :: l'' =>
      cons (set_addr ctx c (align_to a (alignment all c))) <$>
        assign_regular ctx all (Some c) addr
          (if match l'' with [] => false | _ => is_tbss d end
           then Some (u64 (align_to a (alignment all c) + sh_size c)) else None) l0
    end = Some (l' ++ nonalloc) /\ assigned q addr0 (c :: l) l'.
Proof.
  intros [Hc Hin] Ht Hr H0 Ha Hn Hn' Hl Hlast -> IH.
  destruct (alloc_facts c Hc) as (_ & Hsz & _). pose proof (page_bounds ctx k Hk Hpage).
  assert (Hneed : 0 <= need ctx room l). { apply need_alloc. eapply Forall_impl; [exact Hl|]. by intros ? []. }
  destruct (alignment_spec ctx k Hk Hpage all c Hall Hids Hin) as [Hal _].
  pose proof (align_any ctx k Hk Hpage a _ ltac:(lia) Hal) as (B & _).
  set (x := align_to a (alignment all c)) in *.
  assert (Hw : word ctx x = x) by (apply word_nowrap; lia).
  rewrite (u64_nowrap (x + sh_size c)) by lia.
  assert (Hpl : place q (Some c) addr).
  { destruct q as [q|]; [|done]. exists c. split; [done|]. apply ready_tbss; [done|by apply tbss_not_padding|done]. }
  destruct (l ++ nonalloc) as [|d l''] eqn:El.
  { exfalso. specialize (Hlast c eq_refl). congruence. }
  set (go_on := match l'' with [] => false | _ => is_tbss d end).
  destruct (IH (if go_on then Some (x + sh_size c) else None) Hpl) as (l' & E & Has).
  { destruct go_on eqn:Eg; [|done]. split; [lia|]. split; [lia|].
    destruct l as [|d' l2].
    - simpl in El. exfalso. rewrite El in Hnon. apply Forall_cons in Hnon as [Hd _]. apply nonalloc_tbss in Hd.
      subst go_on. rewrite Hd in Eg. by destruct l''.
    - injection El as -> _. exists d, l2. split; [done|]. subst go_on. by destruct l''. }
  exists (set_addr ctx c x :: l'). rewrite E. split; [done|].
  apply (assigned_cons _ _ _ c _ _ addr0 addr); [apply same_set_addr|unfold sized; by rewrite (tbss_not_padding c)| | |lia|by rewrite Ht].
  - apply (aligned_at _ a); [done|lia|done|lia].
  - unfold within, end_of. simpl. rewrite Hw. lia.
Qed.

Definition run_state (p : option chunk) (addr : Z) (tb : option Z) (l : list chunk) : Prop :=
  match tb with
  | Some a => addr <= a /\ a + need ctx room l <= hi /\
      exists p' c l', p = Some p' /\ is_tbss p' = true /\ l = c :: l' /\ is_tbss c = true
  | None => True
  end.

Lemma assign_ok l : forall q p addr tb,
  Forall good l -> (forall z, last (l ++ nonalloc) = Some z -> is_tbss z = false) ->
  pairs_ok ctx q p l = true -> place q p addr -> 0 <= addr -> addr + need ctx room l <= hi -> run_state p addr tb l ->
  exists l', assign_regular ctx all p addr tb (l ++ nonalloc) = Some (l' ++ nonalloc) /\ assigned q addr l l'.
Proof.
  induction l as [|c l IH]; intros q p addr tb Hl Hlast Hp Hpl H0 Hn Htb.
  { destruct tb as [a|]; [destruct Htb as (_ & _ & ? & ? & ? & _ & _ & ? & _); done|].
    exists []. simpl. rewrite assign_nonalloc by done. split; [done|]. by split. }
  apply Forall_cons in Hl as [Hc Hl]. pose proof Hc as [Hca Hin]. simpl need in *.
  destruct (alloc_facts c Hca) as (Hal & Hsz & Hpad). pose proof (pairs_tail _ _ _ _ Hp) as Hp'.
  assert (Hlast' : forall z, last (l ++ nonalloc) = Some z -> is_tbss z = false).
  { intros z Hz. apply Hlast. simpl. rewrite last_cons, Hz. done. }
  assert (Hneed : 0 <= need ctx room l). { apply need_alloc. eapply Forall_impl; [exact Hl|]. by intros ? []. }
  pose proof (page_bounds ctx k Hk Hpage) as HP.
  (* a chunk of a run of TLS BSS *)
  assert (Htail : forall addr1, is_tbss c = true -> addr <= addr1 <= addr + P -> forall tb',
    place q (Some c) addr1 ->
    match tb' with
    | Some a' => addr1 <= a' /\ a' + need ctx room l <= hi /\ (exists d l'', l = d :: l'' /\ is_tbss d = true)
    | None => True
    end ->
    exists l', assign_regular ctx all (Some c) addr1 tb' (l ++ nonalloc) = Some (l' ++ nonalloc) /\ assigned q addr1 l l').
  { intros addr1 Ht H1 tb' Hpl' Hs. rewrite Ht in Hp'. apply IH; try done; try lia.
    destruct tb'; [|done]. destruct Hs as (? & ? & d & l2 & ? & ?). split; [done|]. split; [done|]. by exists c, d, l2. }
  destruct tb as [a|].
  { destruct Htb as (Ha & Hn' & p' & ? & ? & -> & Ht' & [= <- <-] & Ht). simpl in Hn'.
    apply (tbss_step q c l _ addr addr a); try done; try lia; [|by apply Htail; [|lia]].
    destruct q as [q|]; [|done]. destruct Hpl as (? & [= <-] & Hpos). apply (ready_here q p' c addr Hpos); [by apply (pairs_head q p' c l)|]. left.
    by apply (pf_tbss _ _ _ _ (pairs_head q p' c l Hp)). }
  simpl assign_regular. rewrite Hal. simpl negb. cbv iota. fold (padding ctx c).
  destruct (padding ctx c) eqn:Epad.
  - (* .relro_padding *)
    pose proof (page_align ctx k Hk Hpage addr ltac:(lia)) as [B M].
    destruct (padding_bss c Hca Epad) as [Hb Ht].
    set (c' := set_size ctx (set_addr ctx c addr) (align_to addr P - addr)).
    assert (Hw : sh_addr c' = addr /\ sh_size c' = align_to addr P - addr).
    { split; simpl; apply word_nowrap; lia. }
    assert (Hs : same c c').
    { etransitivity; [apply same_set_addr|]. apply same_set_size. left. done. }
    assert (Hf : end_of c' <= floor ctx (addr + P)).
    { unfold end_of. destruct Hw as [-> ->]. rewrite (floor_next ctx k) by done.
      pose proof (floor_mono ctx k Hk Hpage addr addr). pose proof (floor_spec ctx k Hk Hpage addr) as [F1 F2].
      replace (addr + (align_to addr P - addr)) with (align_to addr P) by lia.
      apply (multiple_le P); [lia|done| |lia].
      replace (floor ctx addr + P) with (floor ctx addr + 1 * P) by lia. by rewrite Z_mod_plus_full. }
    rewrite (u64_nowrap (addr + P)) by lia. rewrite Ht in Hp'.
    destruct (IH (Some c') (Some c) (addr + P) None) as (l' & E & Has); try done; try lia.
    { by rewrite (pairs_ok_same ctx c c'). }
    { exists c. split; [done|]. apply other_page; [by right|done|]. intros _ Hb'. rewrite (same_bss ctx _ _ Hs) in Hb'. congruence. }
    exists (c' :: l'). rewrite E. split; [done|].
    apply (assigned_cons _ _ _ c' _ _ addr (addr + P)); [done|unfold sized; rewrite Epad; destruct Hw as [_ ->]; lia| | |lia|].
    + intros Hp0. rewrite (same_padding ctx _ _ Hs) in Hp0. congruence.
    + unfold within, end_of. destruct Hw as [-> ->]. lia.
    + rewrite Ht. split; [|done]. destruct q as [q|]; [|done]. destruct Hpl as (p' & -> & Hpos).
      assert (Hr : ready q c addr).
      { apply (ready_here q p' c addr Hpos); [by apply (pairs_head q p' c l)|auto]. }
      destruct Hr as (R1 & R2 & R3). destruct Hw as [Hw _]. split; rewrite ?Hw.
      * done.
      * destruct R2 as [|[? ?]]; [by left|right]. by rewrite (same_flags_of ctx _ _ Hs), (same_bss ctx _ _ Hs).
      * intros _ _ Hb'. rewrite (same_bss ctx _ _ Hs) in Hb'. congruence.
  - rewrite Hstart, lookup_empty. pose proof (separate_le ctx k Hk Hpage p addr c ltac:(lia)) as Hsep.
    pose proof (place_ready q p c l addr Hpl Hp ltac:(lia)) as Hr. set (addr1 := separate ctx p addr c) in *.
    destruct (is_tbss c) eqn:Ht.
    { apply (tbss_step q c l _ addr addr1 addr1); try done; try lia. by apply Htail. }
    destruct (alignment_spec ctx k Hk Hpage all c Hall Hids Hin) as [Hok _].
    pose proof (align_any ctx k Hk Hpage addr1 _ ltac:(lia) Hok) as (B & _ & Bm). set (x := align_to addr1 (alignment all c)) in *.
    assert (Hw : word ctx x = x) by (apply word_nowrap; lia). rewrite (u64_nowrap (x + sh_size c)) by lia.
    pose proof (same_set_addr ctx c x) as Hs. set (c' := set_addr ctx c x) in *.
    assert (He : end_of c' = x + sh_size c) by (unfold end_of; simpl; by rewrite Hw).
    destruct (IH (Some c') (Some c) (x + sh_size c) None) as (l' & E & Has); try done; try lia.
    { by rewrite (pairs_ok_same ctx c c'). }
    { exists c. split; [done|]. by apply at_end. }
    exists (c' :: l'). rewrite E. split; [done|].
    apply (assigned_cons _ _ _ c' _ _ addr (x + sh_size c)); [done|unfold sized; by rewrite Epad| | |lia|].
    + apply (aligned_at c addr1); [done|lia|done|lia].
    + unfold within. rewrite He. simpl. rewrite Hw. lia.
    + rewrite Ht. split; [|done]. destruct q as [q|]; [|done]. apply (ready_follows q c' addr1 x); [done|done|done|done].
Qed.
End Addresses.

(** ** File offsets *)

Section Offsets.
Context (ctx : Context).
Abbreviation P := (page_size ctx).

Definition end_off (c : chunk) : Z := sh_offset c + sh_size c.

(** A chunk whose contents are in the file. *)
Definition in_file (c : chunk) : bool := negb (alloc c && nobits c).

(** Setting offsets keeps the rest. *)
Record kept (c d : chunk) : Prop := { kept_same : same ctx c d; kept_addr : sh_addr d = sh_addr c; kept_size : sh_size d = sh_size c }.

(** [c] is the next chunk with contents after [q]: behind it, and at the same distance as
    in memory unless that is a page or more. *)
Record behind (q c : chunk) : Prop := {
  behind_end : end_off q <= sh_offset c;
  behind_near : alloc q = true -> alloc c = true -> 0 <= sh_addr c - end_of q < P ->
    sh_offset c - sh_offset q = sh_addr c - sh_addr q }.

(** The chunks with contents, from [q] to the end of the file. *)
Fixpoint filed (q : option chunk) (l : list chunk) (fin : Z) : Prop :=
  match l with
  | [] => match q with Some q => end_off q <= fin | None => 0 <= fin end
  | c :: l' =>
    if in_file c then
      opt_rel behind q c /\ 0 <= sh_offset c /\ (alloc c = true -> sh_offset c mod P = sh_addr c mod P) /\ filed (Some c) l' fin
    else filed q l' fin
  end.

Context (k room : Z).
Hypothesis Hk : 0 <= k <= 30.
Hypothesis Hpage : P = 2 ^ k.
Context (hi : Z).
Hypothesis Hhi : hi < limit ctx /\ hi < 2 ^ 61.

#[export] Instance kept_pre : PreOrder kept.
Proof. split; [by split|]. intros c d e [] []. split; [by etransitivity|congruence|congruence]. Qed.

Lemma kept_refl l : Forall2 kept l l.
Proof. induction l; by constructor. Qed.

Lemma kept_offset c o : kept c (set_offset ctx c o).
Proof. by split; [apply same_set_offset|..]. Qed.

(** The least offset that is congruent to an address. *)
Lemma align_with_skew_spec v a : 0 <= v <= 2 ^ 61 -> 0 <= a ->
  v <= align_with_skew v P a < v + P /\ align_with_skew v P a mod P = a mod P.
Proof.
  intros Hv Ha. pose proof (page_bounds ctx k Hk Hpage). unfold align_with_skew.
  assert (Ed : align_down v P = floor ctx v).
  { unfold floor. rewrite Hpage. apply align_down_spec; [|lia]. unfold is_u. pose proof (Z.pow_lt_mono_r 2 61 64). lia. }
  rewrite Ed. pose proof (floor_spec ctx k Hk Hpage v) as [F M]. pose proof (Z.mod_pos_bound a P ltac:(lia)) as B.
  pose proof (floor_nonneg ctx k Hk Hpage v ltac:(lia)).
  rewrite u64_nowrap by lia. rewrite u64_nowrap by lia.
  assert (E : (floor ctx v + a mod P) mod P = a mod P).
  { rewrite Z.add_mod, M, Z.add_0_l, !Zmod_mod by lia. done. }
  destruct (Z.leb_spec v (floor ctx v + a mod P)); (split; [lia|]); [done|].
  replace (floor ctx v + a mod P + P) with (floor ctx v + a mod P + 1 * P) by lia. by rewrite Z_mod_plus_full.
Qed.

(** It keeps the distance of chunks that are near each other. *)
Lemma skew_near v a o b : o mod P = b mod P -> v <= o < v + P -> (v + (b - a)) mod P = b mod P -> 0 <= b - a < P -> o = v + (b - a).
Proof.
  intros. pose proof (page_bounds ctx k Hk Hpage).
  assert (E : (o - (v + (b - a))) mod P = 0) by (rewrite Zminus_mod, H, H1, Z.sub_diag; apply Zmod_0_l).
  apply Z.mod_divide in E as [z Ez]; [|lia]. destruct (Z.lt_trichotomy z 0) as [Hz|[Hz|Hz]]; [|subst z; lia|].
  - assert (z * P <= -1 * P) by (apply Z.mul_le_mono_nonneg_r; lia). lia.
  - assert (1 * P <= z * P) by (apply Z.mul_le_mono_nonneg_r; lia). lia.
Qed.

Lemma follows_kept q q' c c' : kept q q' -> kept c c' -> follows ctx q c -> follows ctx q' c'.
Proof.
  intros [S1 A1 Z1] [S2 A2 Z2] [H1 H2 H3]. unfold end_of in *.
  split; unfold end_of; rewrite ?A1, ?Z1, ?A2, ?(same_flags_of ctx _ _ S1), ?(same_flags_of ctx _ _ S2),
    ?(same_bss ctx _ _ S1), ?(same_bss ctx _ _ S2); done.
Qed.

Lemma linked_kept q q' l l' : option_Forall2 kept q q' -> Forall2 kept l l' -> linked ctx q l -> linked ctx q' l'.
Proof.
  intros Hq Hl. revert q q' Hq. induction Hl as [|c c' l l' Hc Hl IH]; intros q q' Hq H; [done|]. simpl in *.
  rewrite (same_tbss ctx c c') by apply Hc. destruct (is_tbss c); [by apply (IH q)|].
  destruct H as [H1 H2]. split; [|apply (IH (Some c)); [by constructor|done]].
  destruct Hq as [q q' Hq|]; [|done]. simpl in *. by apply (follows_kept q q' c c').
Qed.

(** The contents of a chunk, placed in the file. *)
Record filled (c : chunk) : Prop := {
  fl_alloc : alloc c = true; fl_bits : nobits c = false; fl_size : 0 <= sh_size c; fl_addr : 0 <= sh_addr c;
  fl_offset : 0 <= sh_offset c; fl_mod : sh_offset c mod P = sh_addr c mod P }.

Definition listed (c : chunk) : Prop := (alloc c = true /\ sh_size c <= weight ctx room c) /\ within 0 hi c.

Lemma need_listed l : Forall listed l -> 0 <= need ctx room l.
Proof.
  pose proof (page_bounds ctx k Hk Hpage). induction 1 as [|c l [[_ Hwt] (_ & Hc & _)] _ IH]; simpl; lia.
Qed.

Lemma not_tbss c : nobits c = false -> is_tbss c = false.
Proof. unfold is_tbss. by intros ->. Qed.

(** The distance between chunks that follow each other is computed without wrapping. *)
Lemma gap_size c prev : 0 <= end_of prev <= sh_addr c -> sh_addr c <= hi ->
  i64 (word ctx (sh_addr c - sh_addr prev - sh_size prev)) = sh_addr c - end_of prev.
Proof.
  unfold end_of. intros. replace (sh_addr c - sh_addr prev - sh_size prev) with (sh_addr c - (sh_addr prev + sh_size prev)) by lia.
  rewrite word_nowrap by lia. apply swrap_small; [lia|]. unfold is_s. pose proof (Z.pow_lt_mono_r 2 61 63). lia.
Qed.

(** [chunk] [c] is placed behind [prev] in the same run. *)
Lemma run_next first prev fo c :
  filled prev -> sh_offset prev = fo + (sh_addr prev - sh_addr first) -> sh_addr first <= sh_addr prev ->
  0 <= fo -> fo + hi < 2 ^ 62 -> end_off prev + P + sh_size c <= hi ->
  listed c -> nobits c = false -> end_of prev <= sh_addr c -> sh_addr c - end_of prev < P -> 0 <= sh_addr first ->
  let c' := set_offset ctx c (u64 (fo + sh_addr c - sh_addr first)) in
  filled c' /\ sh_offset c' = fo + (sh_addr c' - sh_addr first) /\ behind prev c' /\ end_off c' <= end_off prev + P + sh_size c.
Proof.
  intros [Ha Hb Hs Had Ho Hm] Ep Hf H0 Hfo Hb' [[Hac Hwt] (_ & Hsc & Hec)] Hbc Hle Hlt H1. unfold end_of, end_off in *.
  assert (E : word ctx (u64 (fo + sh_addr c - sh_addr first)) = fo + (sh_addr c - sh_addr first)).
  { rewrite u64_nowrap by lia. rewrite word_nowrap by lia. lia. }
  assert (Emod : (fo + (sh_addr c - sh_addr first)) mod P = sh_addr c mod P).
  { replace (fo + (sh_addr c - sh_addr first)) with (sh_offset prev + (sh_addr c - sh_addr prev)) by lia.
    rewrite Z.add_mod, Hm, <- Z.add_mod by (pose proof (page_bounds ctx k Hk Hpage); lia). f_equal. lia. }
  simpl. rewrite E. split; [split; simpl; rewrite ?E; try done; lia|]. split; [done|]. split; [|lia].
  split; unfold end_off; simpl; rewrite E; [lia|]. intros. lia.
Qed.


(** What a run makes of the chunks [l] after [prev]. *)
Record run_result (prev : chunk) (l run : list chunk) (last : chunk) (rest : list chunk) : Prop := {
  rr_taken : exists taken, l = taken ++ rest /\ Forall2 kept taken run;
  rr_filled : filled last; rr_linked : linked ctx (Some last) rest;
  rr_need : end_off last + need ctx room rest <= end_off prev + need ctx room l;
  rr_filed : forall l' fin, filed (Some last) l' fin -> filed (Some prev) (run ++ l') fin }.

Lemma in_file_kept c d : kept c d -> in_file d = in_file c.
Proof. intros [H _ _]. unfold in_file, alloc. by rewrite (same_has _ _ _ _ H), (same_nobits _ _ _ H). Qed.

Lemma run_ok nonalloc first fo : Forall (fun c => alloc c = false) nonalloc -> 0 <= fo -> fo + hi < 2 ^ 62 -> 0 <= sh_addr first ->
  forall l prev, filled prev -> sh_offset prev = fo + (sh_addr prev - sh_addr first) -> sh_addr first <= sh_addr prev ->
  end_of prev <= hi -> end_off prev + need ctx room l <= hi -> linked ctx (Some prev) l -> Forall listed l ->
  exists run last rest, run_offsets ctx first prev fo (l ++ nonalloc) = (run, last, rest ++ nonalloc) /\
    run_result prev l run last rest.
Proof.
  intros Hnon Hfo Hfo' Hf0. induction l as [|c l IH]; intros prev Hp Ep Hle He Hn Hlink Hl.
  { exists [], prev, []. split; [|split; [by exists []|done|done|lia|done]]. simpl. destruct Hnon as [|c l Hc _]; [done|].
    simpl. by rewrite Hc. }
  apply Forall_cons in Hl as [Hc Hl]. pose proof Hc as [[Hca Hwt] (Hc0 & Hsz & Hce)]. pose proof (need_listed l Hl) as Hneed.
  pose proof (page_bounds ctx k Hk Hpage) as HP. simpl in Hn.
  assert (Hstop : exists run last rest, ([], prev, (c :: l) ++ nonalloc) = (run, last, rest ++ nonalloc) /\
    run_result prev (c :: l) run last rest).
  { exists [], prev, (c :: l). split; [done|]. split; [by exists []|done|done|lia|done]. }
  simpl run_offsets. rewrite Hca. simpl orb. destruct (nobits c) eqn:Hb; [exact Hstop|].
  destruct (Z.ltb_spec (sh_addr c) (sh_addr first)); [exact Hstop|].
  simpl in Hlink. rewrite (not_tbss c Hb) in Hlink. destruct Hlink as [[Hend _ _] Hlink].
  pose proof Hp as [_ _ Hps Hpa _ _].
  rewrite gap_size by (unfold end_of in *; lia). destruct (Z.leb_spec P (sh_addr c - end_of prev)); [exact Hstop|].
  destruct (run_next first prev fo c) as (Hfc & Eo & Hbeh & Hend'); try done; [lia|].
  set (c' := set_offset ctx c (u64 (fo + sh_addr c - sh_addr first))) in *.
  pose proof (kept_offset c (u64 (fo + sh_addr c - sh_addr first))) as Hk'.
  destruct (IH c') as (run & last & rest & E & [(taken & -> & Ht) H2 H3 H4 H5]); try done; try lia.
  { eapply (linked_kept (Some c)); [by constructor|apply kept_refl|exact Hlink]. }
  exists (c' :: run), last, rest. rewrite E. split; [done|]. split; [|done|done| |].
  - exists (c :: taken). split; [done|]. by constructor.
  - simpl. simpl in Hend'. lia.
  - intros l' fin H'. simpl. destruct Hfc. unfold in_file. rewrite fl_alloc0, fl_bits0. simpl.
    split; [done|]. split; [done|]. split; [done|]. by apply H5.
Qed.

Lemma skip_nobits_ok nonalloc l : Forall (fun c => alloc c = false) nonalloc -> Forall listed l ->
  exists skipped rest, skip_nobits (l ++ nonalloc) = (skipped, rest ++ nonalloc) /\ l = skipped ++ rest /\
    (forall q, linked ctx q l -> exists q', linked ctx q' rest) /\
    (forall q l' fin, filed q l' fin -> filed q (skipped ++ l') fin).
Proof.
  intros Hnon. induction 1 as [|c l Hc Hl IH].
  - exists [], []. split; [|split; [done|split; [eauto|done]]]. destruct Hnon as [|c l Hc _]; [done|]. simpl. by rewrite Hc.
  - destruct Hc as [[Ha _] _]. simpl. rewrite Ha. simpl. destruct (nobits c) eqn:Hb.
    + destruct IH as (skipped & rest & E & -> & H1 & H2). rewrite E. exists (c :: skipped), rest.
      split; [done|]. split; [done|].
      split; [|intros q l' fin H; simpl; unfold in_file; rewrite Ha, Hb; simpl; by apply H2].
      intros q Hq. simpl in Hq. destruct (is_tbss c); [by apply (H1 q)|by apply (H1 (Some c)), Hq].
    + exists [], (c :: l). split; [done|split; [done|split; [eauto|done]]].
Qed.

Lemma need_nonalloc l : Forall (fun c => nonalloc_ok ctx room c = true) l -> 0 <= need ctx room l.
Proof.
  pose proof (page_bounds ctx k Hk Hpage). induction 1 as [|d l Hd _ IH]; simpl; [lia|].
  unfold nonalloc_ok in Hd. rewrite !andb_true_iff in Hd. destruct Hd as [[[[[[_ _] Hs%size_ok_spec] _] _] _] _]. lia.
Qed.

(** Chunks that are not loaded are put behind each other at the end. *)
Lemma file_nonalloc l : forall fuel q fileoff,
  Forall (fun c => nonalloc_ok ctx room c = true) l -> (length l <= fuel)%nat -> 0 <= fileoff ->
  match q with Some q => end_off q = fileoff | None => True end -> fileoff + need ctx room l <= hi ->
  exists l' fin, file_offsets ctx fuel fileoff l = (l', fin) /\ Forall2 kept l l' /\ filed q l' fin /\
    fin <= fileoff + need ctx room l.
Proof.
  induction l as [|c l IH]; intros fuel q fileoff Hl Hfuel H0 Hq Hn.
  { simpl in Hn. exists [], fileoff. destruct fuel; (split; [done|]; split; [done|]; simpl; destruct q; lia). }
  destruct fuel as [|fuel]; [simpl in Hfuel; lia|]. apply Forall_cons in Hl as [Hc Hl].
  unfold nonalloc_ok in Hc. rewrite !andb_true_iff, !negb_true_iff in Hc.
  destruct Hc as [[[[[[Ha Hal] Hs%size_ok_spec] _] _] _] _]. simpl. rewrite Ha. simpl.
  pose proof (need_nonalloc l Hl) as Hneed. simpl in Hn. pose proof (page_bounds ctx k Hk Hpage) as HP.
  pose proof (align_any ctx k Hk Hpage fileoff _ ltac:(lia) Hal) as (B & _).
  set (x := align_to fileoff (sh_addralign c)) in *.
  assert (Hw : word ctx x = x) by (apply word_nowrap; lia). rewrite u64_nowrap by lia.
  destruct (IH fuel (Some (set_offset ctx c x)) (x + sh_size c)) as (l' & fin & E & Hf & Hl' & Hfin); try done; try lia.
  { simpl in Hfuel. lia. }
  { unfold end_off. simpl. by rewrite Hw. }
  exists (set_offset ctx c x :: l'), fin. rewrite E. split; [done|]. split; [constructor; [apply kept_offset|done]|]. split; [|simpl; lia].
  simpl. unfold in_file, alloc. simpl. unfold has. simpl. unfold alloc, has in Ha. rewrite Ha. simpl. rewrite Hw.
  split; [|split; [lia|split; [done|done]]]. destruct q as [q|]; [|done]. split; simpl; [rewrite Hw; lia|].
  intros _ H. unfold alloc, has in H. simpl in H. congruence.
Qed.


(** The first chunk of a run. *)
Lemma first_step q first fo : match q with Some q => end_off q = fo /\ filled q | None => True end ->
  0 <= fo -> fo + P + sh_size first <= hi -> listed first -> nobits first = false ->
  let o := align_with_skew fo P (sh_addr first) in
  let c' := set_offset ctx first o in
  filled c' /\ sh_offset c' = o /\ fo <= o < fo + P /\ opt_rel behind q c'.
Proof.
  intros Hq H0 Hn [[Ha Hwt] (Hl & Hs & He)] Hb o c'.
  destruct (align_with_skew_spec fo (sh_addr first)) as [B M]; [lia|lia|]. fold o in B, M.
  assert (Hw : sh_offset c' = o) by (apply word_nowrap; lia).
  split; [|split; [done|split; [done|]]].
  - split; try done; rewrite Hw; [lia|done].
  - destruct q as [q|]; [|done]. destruct Hq as [Eq [_ _ Hqs Hqa Hqo Hqm]]. split; rewrite Hw; [lia|].
    intros _ _ Hgap. simpl sh_addr in *. unfold end_off, end_of in *.
    enough (o = fo + (sh_addr first - (sh_addr q + sh_size q))) by lia.
    apply (skew_near fo (sh_addr q + sh_size q) o (sh_addr first)); try done; try lia.
    rewrite <- Eq. replace (sh_offset q + sh_size q + (sh_addr first - (sh_addr q + sh_size q)))
      with (sh_offset q + (sh_addr first - sh_addr q)) by lia.
    rewrite Z.add_mod, Hqm, <- Z.add_mod by (pose proof (page_bounds ctx k Hk Hpage); lia). f_equal. lia.
Qed.

Lemma file_offsets_ok nonalloc : Forall (fun c => nonalloc_ok ctx room c = true) nonalloc ->
  forall fuel l q ql fo, Forall listed l -> Forall (fun c => sh_addralign c <= P) l -> linked ctx ql l ->
  (length (l ++ nonalloc) <= fuel)%nat -> 0 <= fo ->
  match q with Some q => end_off q = fo /\ filled q | None => True end -> fo + need ctx room (l ++ nonalloc) <= hi ->
  exists l' fin, file_offsets ctx fuel fo (l ++ nonalloc) = (l', fin) /\ Forall2 kept (l ++ nonalloc) l' /\
    filed q l' fin /\ fin <= fo + need ctx room (l ++ nonalloc).
Proof.
  intros Hnon. assert (Hnon' : Forall (fun c => alloc c = false) nonalloc).
  { eapply Forall_impl; [exact Hnon|]. intros c Hc. unfold nonalloc_ok in Hc. rewrite !andb_true_iff, !negb_true_iff in Hc.
    by destruct Hc as [[[[[[? _] _] _] _] _] _]. }
  induction fuel as [|fuel IH]; intros l q ql fo Hl Hal Hlink Hfuel H0 Hq Hn.
  all: destruct l as [|first l]; [apply (file_nonalloc nonalloc); try done; by destruct q as [q|]; [destruct Hq|]|].
  { simpl in Hfuel. lia. }
  apply Forall_cons in Hl as [Hc Hl]. apply Forall_cons in Hal as [Hca Hal]. pose proof Hc as [[Ha Hwt] (Hc0 & Hsz & Hce)].
  pose proof (page_bounds ctx k Hk Hpage) as HP. simpl in Hfuel, Hn. rewrite need_app in Hn.
  pose proof (need_listed l Hl). simpl in Hlink.
  pose proof (need_nonalloc nonalloc Hnon).
  simpl file_offsets. rewrite Ha. simpl negb. cbv iota. destruct (nobits first) eqn:Hb.
  - destruct (IH l q (if is_tbss first then ql else Some first) fo) as (l' & fin & E & Hf & Hfiled & Hfin); try done; try lia.
    { destruct (is_tbss first); [done|apply Hlink]. }
    { rewrite need_app. lia. }
    rewrite E. exists (first :: l'), fin. split; [done|]. split; [by constructor|]. split; [|simpl; rewrite !need_app in *; lia].
    simpl. unfold in_file. by rewrite Ha, Hb.
  - destruct (Z.ltb_spec P (sh_addralign first)); [lia|]. rewrite (not_tbss _ Hb) in Hlink. destruct Hlink as [_ Hlink].
    destruct (first_step q first fo) as (Hff & Eo & Bo & Hbeh); try done; [lia|].
    set (o := align_with_skew fo P (sh_addr first)) in *. set (first' := set_offset ctx first o) in *.
    assert (Hsz' : sh_size first' = sh_size first) by done. assert (Had' : sh_addr first' = sh_addr first) by done.
    unfold end_of, end_off in *.
    destruct (run_ok nonalloc first' o Hnon' ltac:(lia) ltac:(lia) ltac:(lia) l first') as (run & last & rest & Er & R);
      try done; try (unfold end_of, end_off; lia).
    { apply (linked_kept (Some first) _ l l); [constructor; apply kept_offset|apply kept_refl|done]. }
    rewrite Er. destruct R as [(taken & -> & Ht) Hfl Hlk Hnd Hfd].
    apply Forall_app in Hl as [Hl1 Hl2]. apply Forall_app in Hal as [_ Hal2].
    destruct (skip_nobits_ok nonalloc rest Hnon' Hl2) as (skipped & rest2 & Es & -> & Hlk2 & Hsk). rewrite Es.
    apply Forall_app in Hl2 as [Hl2 Hl3]. apply Forall_app in Hal2 as [_ Hal3].
    pose proof (need_listed skipped Hl2). pose proof (need_listed rest2 Hl3). rewrite !need_app in *.
    unfold end_off in Hnd. pose proof Hfl as [_ _ Hfs _ Hfo _]. rewrite u64_nowrap by lia.
    destruct (Hlk2 _ Hlk) as [ql' Hlk3].
    destruct (IH rest2 (Some last) ql' (sh_offset last + sh_size last)) as (l' & fin & E & Hf & Hfiled & Hfin); try done; try lia.
    { rewrite !length_app in *. lia. }
    { rewrite need_app. lia. }
    rewrite E. exists (first' :: run ++ skipped ++ l'), fin. split; [done|]. split; [|split; [|simpl; rewrite !need_app in *; lia]].
    + constructor; [apply kept_offset|].
      change (Forall2 kept ((taken ++ skipped ++ rest2) ++ nonalloc) (run ++ skipped ++ l')). rewrite <- !(assoc_L (++)).
      by apply Forall2_app, Forall2_app; [|apply kept_refl|].
    + simpl. assert (Hin : in_file first' = true). { destruct Hff. unfold in_file. by rewrite fl_alloc0, fl_bits0. }
      rewrite Hin. split; [done|]. destruct Hff. split; [done|]. split; [done|]. apply Hfd, Hsk, Hfiled.
Qed.

End Offsets.

(** ** Segments *)

Section Segments.
Context (ctx : Context).
Abbreviation P := (page_size ctx).
Abbreviation flags := (flags_of ctx).

(** Chunks [c] and [d] that follow each other belong to one segment. *)
Definition joins (c d : chunk) : bool := (flags c =? flags d) && implies (is_bss c) (is_bss d).

(** The chunks of every segment. *)
Fixpoint groups (l : list chunk) : list (chunk * list chunk) :=
  match l with
  | [] => []
  | c :: l' =>
    match groups l' with
    | (d, g) :: gs => if joins c d then (c, d :: g) :: gs else (c, []) :: (d, g) :: gs
    | [] => [(c, [])]
    end
  end.

Definition segment (g : chunk * list chunk) : phdr :=
  foldl (append ctx) (define ctx (pt "LOAD") (flags g.1) P g.1) g.2.

Fixpoint span (p : chunk -> bool) (l : list chunk) : list chunk * list chunk :=
  match l with
  | c :: l' => if p c then let '(t, r) := span p l' in (c :: t, r) else ([], l)
  | [] => ([], [])
  end.

Lemma append_while_span cond p l : append_while ctx cond p l = (foldl (append ctx) p (span cond l).1, (span cond l).2).
Proof.
  revert p. induction l as [|c l IH]; intros p; [done|]. simpl. destruct (cond c); [|done].
  rewrite IH. by destruct (span cond l).
Qed.

Lemma span_app cond l r : Forall (fun c => cond c = false) r -> span cond (l ++ r) = ((span cond l).1, (span cond l).2 ++ r).
Proof.
  intros Hr. induction l as [|c l IH]; simpl.
  - destruct Hr as [|c r Hc _]; [done|]. simpl. by rewrite Hc.
  - destruct (cond c); [|done]. rewrite IH. by destruct (span cond l).
Qed.

Lemma span_length cond l : (length (span cond l).2 <= length l)%nat.
Proof. induction l as [|c l IH]; simpl; [done|]. destruct (cond c); [|done]. destruct (span cond l). simpl in *. lia. Qed.

Lemma groups_head c l : exists g gs, groups (c :: l) = (c, g) :: gs.
Proof. simpl. destruct (groups l) as [|[d g] gs]; [eauto|]. destruct (joins c d); eauto. Qed.

Lemma groups_cons c d l g gs : groups (d :: l) = (d, g) :: gs ->
  groups (c :: d :: l) = if joins c d then (c, d :: g) :: gs else (c, []) :: groups (d :: l).
Proof.
  intros E. change (groups (c :: d :: l)) with
    (match groups (d :: l) with
     | (d, g) :: gs => if joins c d then (c, d :: g) :: gs else (c, []) :: (d, g) :: gs
     | [] => [(c, [])]
     end). by rewrite E.
Qed.

Definition bss_of (f : Z) (c : chunk) : bool := is_bss c && (flags c =? f).
Definition contents_of (f : Z) (c : chunk) : bool := negb (is_bss c) && (flags c =? f).

Lemma groups_bss l : forall c, is_bss c = true ->
  groups (c :: l) = (c, (span (bss_of (flags c)) l).1) :: groups (span (bss_of (flags c)) l).2.
Proof.
  induction l as [|d l IH]; intros c Hc; [done|]. destruct (groups_head d l) as (g & gs & E).
  rewrite (groups_cons c d l g gs E). cbn [span]. unfold joins, implies. rewrite Hc. unfold bss_of at 1 3.
  destruct (is_bss d) eqn:Hd; cbn [negb orb andb].
  - rewrite (Z.eqb_sym (flags d)), andb_true_r. destruct (Z.eqb_spec (flags c) (flags d)) as [Ef|_]; [|done].
    rewrite (IH d Hd), <- Ef in E. injection E as <- <-. by destruct (span _ l).
  - by rewrite andb_false_r.
Qed.

Lemma groups_contents l : forall c, is_bss c = false ->
  let s := span (contents_of (flags c)) l in
  let s' := span (bss_of (flags c)) s.2 in
  groups (c :: l) = (c, s.1 ++ s'.1) :: groups s'.2.
Proof.
  induction l as [|d l IH]; intros c Hc; [done|]. destruct (groups_head d l) as (g & gs & E).
  rewrite (groups_cons c d l g gs E). cbn [span]. unfold joins, implies. rewrite Hc. cbn [negb orb]. rewrite andb_true_r.
  assert (Ec : contents_of (flags c) d = negb (is_bss d) && (flags d =? flags c)) by done. rewrite Ec.
  destruct (is_bss d) eqn:Hd; cbn [negb andb fst snd app].
  - assert (Eb : bss_of (flags c) d = (flags d =? flags c)) by (unfold bss_of; by rewrite Hd).
    cbn [span]. rewrite Eb, (Z.eqb_sym (flags d)).
    destruct (Z.eqb_spec (flags c) (flags d)) as [Ef|_]; [|done].
    rewrite (groups_bss l d Hd), <- Ef in E. injection E as <- <-. by destruct (span _ l).
  - rewrite (Z.eqb_sym (flags d)). destruct (Z.eqb_spec (flags c) (flags d)) as [Ef|Ef].
    + rewrite (IH d Hd), <- Ef in E. injection E as <- <-. by destruct (span (contents_of _) l).
    + cbn [fst snd app span]. unfold bss_of. by rewrite Hd.
Qed.

(** [c] after [q], in memory and in the file. *)
Definition adjacent (q c : chunk) : Prop :=
  follows ctx q c /\
  (flags q = flags c -> is_bss q = false -> is_bss c = false -> sh_offset c - sh_offset q = sh_addr c - sh_addr q).

Fixpoint chained (q : option chunk) (l : list chunk) : Prop :=
  match l with
  | [] => True
  | c :: l' => opt_rel adjacent q c /\ chained (Some c) l'
  end.

Lemma chained_suffix q l1 l2 : chained q (l1 ++ l2) -> exists q', chained q' l2.
Proof. revert q. induction l1 as [|c l1 IH]; intros q; simpl; [eauto|]. intros [_ H]. by apply (IH (Some c)). Qed.

Lemma span_split cond l : l = (span cond l).1 ++ (span cond l).2.
Proof. induction l as [|c l IH]; simpl; [done|]. destruct (cond c); [|done]. destruct (span cond l). simpl in *. by f_equal. Qed.

Lemma span_contiguous first l : forall prev,
  is_bss prev = false -> flags prev = flags first -> sh_offset prev - sh_offset first = sh_addr prev - sh_addr first ->
  chained (Some prev) l -> span (contiguous ctx first (flags first)) l = span (contents_of (flags first)) l.
Proof.
  induction l as [|c l IH]; intros prev Hb Hf Ho Hl; [done|]. simpl in *. destruct Hl as [[_ Hadj] Hl].
  unfold contiguous at 1, contents_of at 1. change (to_phdr_flags ctx c) with (flags c).
  destruct (is_bss c) eqn:Hc; simpl; [done|]. destruct (Z.eqb_spec (flags c) (flags first)) as [Ef|_]; simpl; [|done].
  assert (sh_offset c - sh_offset prev = sh_addr c - sh_addr prev) by (apply Hadj; congruence).
  replace (sh_offset c - sh_offset first) with (sh_addr c - sh_addr first) by lia. rewrite Z.eqb_refl.
  by rewrite (IH c) by (done || lia).
Qed.

(** The loop finds the groups; [nonalloc] are chunks that are not loaded. *)
Lemma load_phdrs_groups nonalloc fuel : forall l q,
  Forall (fun c => alloc c = true) l -> Forall (fun c => alloc c = false /\ is_bss c = false) nonalloc ->
  (forall first, first ∈ l -> is_bss first = false -> Forall (fun c => contiguous ctx first (flags first) c = false) nonalloc) ->
  chained q l -> (length (l ++ nonalloc) <= fuel)%nat -> load_phdrs ctx fuel (l ++ nonalloc) = map segment (groups l).
Proof.
  assert (Hnil : forall fuel l, Forall (fun c => alloc c = false /\ is_bss c = false) l -> load_phdrs ctx fuel l = []).
  { clear. induction fuel as [|fuel IH]; intros l Hl; [done|]. destruct Hl as [|c l [Ha _] Hl]; [done|]. simpl. rewrite Ha. auto. }
  induction fuel as [|fuel IH]; intros l q Hl Hnon Hfar Hch Hfuel; destruct l as [|c l]; try (by apply Hnil).
  { simpl in Hfuel. lia. }
  apply Forall_cons in Hl as [Ha Hl]. simpl load_phdrs. rewrite Ha. change (to_phdr_flags ctx c) with (flags c).
  simpl in Hch. destruct Hch as [_ Hch].
  assert (Hbss : forall l, span (fun c0 => is_bss c0 && (to_phdr_flags ctx c0 =? flags c)) (l ++ nonalloc) =
    ((span (bss_of (flags c)) l).1, (span (bss_of (flags c)) l).2 ++ nonalloc)).
  { intros l'. apply (span_app (bss_of (flags c))). eapply Forall_impl; [exact Hnon|]. intros d [_ Hd]. unfold bss_of. by rewrite Hd. }
  assert (Hrest : forall r t, l = t ++ r -> load_phdrs ctx fuel (r ++ nonalloc) = map segment (groups r)).
  { intros r t ->. apply Forall_app in Hl as [_ Hl]. destruct (chained_suffix _ _ _ Hch) as [q' Hq'].
    apply (IH r q'); try done.
    - intros first Hin. apply Hfar. right. apply elem_of_app. by right.
    - simpl in Hfuel. rewrite !length_app in *. lia. }
  destruct (is_bss c) eqn:Hb; simpl negb; cbv iota.
  - rewrite append_while_span, Hbss, groups_bss by done. cbn [fst snd map]. f_equal. eapply Hrest, span_split.
  - rewrite append_while_span, span_app by (apply Hfar; [left|done]). cbn [fst snd]. rewrite append_while_span, Hbss. cbn [fst snd].
    rewrite (span_contiguous c l c) by (done || lia). rewrite groups_contents by done. cbn [map]. f_equal.
    + unfold segment. cbn [fst snd]. by rewrite foldl_app.
    + eapply Hrest. rewrite (span_split (contents_of (flags c)) l) at 1. rewrite (span_split (bss_of (flags c)) (span (contents_of (flags c)) l).2) at 1.
      by rewrite (assoc_L (++)).
Qed.

Context (hi : Z).
Hypothesis Hhi : hi < limit ctx.

(** A chunk that is in a segment as it should be. *)
Definition inside (p : phdr) (c : chunk) : Prop :=
  p_vaddr p <= sh_addr c /\ end_of c <= p_vaddr p + p_memsz p /\
  (if is_bss c then p_vaddr p + p_filesz p <= sh_addr c
   else sh_offset c - p_offset p = sh_addr c - p_vaddr p /\ end_of c <= p_vaddr p + p_filesz p).

(** The segment of the chunks [l], of which [last] is the last. *)
Record covers (p : phdr) (l : list chunk) (last : chunk) : Prop := {
  cv_type : p_type p = pt "LOAD"; cv_inside : Forall (inside p) l; cv_flags : Forall (fun c => flags c = p_flags p) l;
  cv_last : last ∈ l; cv_end : p_vaddr p + p_memsz p = end_of last; cv_filesz : 0 <= p_filesz p <= p_memsz p;
  cv_bss : if is_bss last then True else p_filesz p = p_memsz p /\ Forall (fun c => is_bss c = false) l;
  cv_mod : p_filesz p = 0 \/ p_offset p mod P = p_vaddr p mod P }.

(** What is known of a chunk by itself. *)
Definition sound (c : chunk) : Prop :=
  within 0 hi c /\ is_tbss c = false /\ (is_bss c = false -> 0 <= sh_offset c /\ sh_offset c mod P = sh_addr c mod P).

Lemma not_bss_nobits c : is_tbss c = false -> is_bss c = nobits c.
Proof. unfold is_tbss, is_bss. destruct (nobits c), (has c "TLS"); done. Qed.

Lemma covers_first c : sound c -> covers (define ctx (pt "LOAD") (flags c) P c) [c] c.
Proof.
  intros ((_ & Hs & _) & Ht & Hm). pose proof (not_bss_nobits c Ht) as Hb. unfold end_of in *.
  assert (Hf : p_filesz (define ctx (pt "LOAD") (flags c) P c) = if is_bss c then 0 else sh_size c) by (by rewrite Hb).
  split; try done.
  - constructor; [|done]. unfold inside, end_of. rewrite Hf. simpl. destruct (is_bss c); lia.
  - by constructor.
  - by left.
  - rewrite Hf. simpl. destruct (is_bss c); lia.
  - rewrite Hf. destruct (is_bss c) eqn:E; [done|]. split; [done|]. by constructor.
  - rewrite Hf. destruct (is_bss c); [by left|]. right. by apply Hm.
Qed.

Lemma covers_append p l last c : covers p l last -> sound last -> sound c -> adjacent last c -> joins last c = true ->
  0 <= p_vaddr p -> covers (append ctx p c) (l ++ [c]) c.
Proof.
  intros [H1 H2 H3 H4 H5 H6 H7 H8] Hlast ((Hc0 & Hs & He) & Ht & Hm) [[Hend _ _] Hnear] Hj Hv.
  pose proof (not_bss_nobits c Ht) as Hb. unfold joins in Hj. apply andb_true_iff in Hj as [Hf%Z.eqb_eq Himp].
  pose proof (proj1 (Forall_forall _ _) H2 _ H4) as (L1 & L2 & L3).
  unfold end_of in *. destruct Hlast as ((Hl0 & Hls & _) & _).
  assert (Hw : word ctx (sh_addr c + sh_size c - p_vaddr p) = sh_addr c + sh_size c - p_vaddr p) by (apply word_nowrap; lia).
  assert (Hbb : is_bss last = true -> is_bss c = true) by (intros E; by apply (implies_true _ _ Himp)).
  assert (Hmem : p_memsz (append ctx p c) = sh_addr c + sh_size c - p_vaddr p) by exact Hw.
  assert (Hfil : p_filesz (append ctx p c) = if is_bss c then p_filesz p else sh_addr c + sh_size c - p_vaddr p).
  { rewrite Hb. simpl. by rewrite Hw. }
  assert (Hmod : is_bss c = false -> p_offset p mod P = p_vaddr p mod P).
  { intros Ec. destruct (is_bss last) eqn:El; [rewrite Hbb in Ec; done|]. destruct L3 as [L3 L4].
    destruct (Hm Ec) as [_ M]. specialize (Hnear Hf eq_refl Ec).
    replace (p_offset p) with (sh_offset c - (sh_addr c - p_vaddr p)) by lia.
    rewrite Zminus_mod, M, <- Zminus_mod. f_equal. lia. }
  split; try done.
  - apply Forall_app. split.
    + apply Forall_forall. intros d Hd. pose proof (proj1 (Forall_forall _ _) H2 _ Hd) as (D1 & D2 & D3).
      unfold inside, end_of in *. rewrite Hmem, Hfil. simpl. split; [done|]. split; [lia|].
      destruct (is_bss c) eqn:Ec; [by destruct (is_bss d)|].
      destruct (is_bss last) eqn:El; [by rewrite Hbb in Ec|]. destruct H7 as [_ H7].
      rewrite (proj1 (Forall_forall _ _) H7 _ Hd) in *. split; [apply D3|lia].
    + constructor; [|done]. unfold inside, end_of. rewrite Hmem, Hfil. simpl. split; [lia|]. split; [lia|].
      destruct (is_bss c) eqn:Ec; [lia|]. split; [|lia].
      destruct (is_bss last) eqn:El; [by rewrite Hbb in Ec|]. destruct L3 as [L3 _]. specialize (Hnear Hf eq_refl eq_refl). lia.
  - apply Forall_app. split; [done|]. constructor; [|done]. rewrite <- Hf.
    apply (proj1 (Forall_forall _ _) H3 _ H4).
  - apply elem_of_app. right. by left.
  - rewrite Hmem. unfold end_of. simpl. lia.
  - rewrite Hmem, Hfil. destruct (is_bss c); lia.
  - rewrite Hmem, Hfil. destruct (is_bss c) eqn:Ec; [done|]. split; [done|].
    destruct (is_bss last) eqn:El; [by rewrite Hbb in Ec|]. apply Forall_app. split; [apply H7|by constructor].
  - rewrite Hfil. destruct (is_bss c) eqn:Ec; [done|]. right. by apply Hmod.
Qed.

(** The chunks of a group belong together. *)
Fixpoint joined (c : chunk) (g : list chunk) : Prop :=
  match g with
  | [] => True
  | d :: g' => adjacent c d /\ joins c d = true /\ joined d g'
  end.

Fixpoint last_of (c : chunk) (g : list chunk) : chunk := match g with [] => c | d :: g' => last_of d g' end.

(** Groups are on pages of their own. *)
Fixpoint apart (gs : list (chunk * list chunk)) : Prop :=
  match gs with
  | [] => True
  | (c, g) :: gs' => match gs' with (d, _) :: _ => end_of (last_of c g) <= floor ctx (sh_addr d) | [] => True end /\ apart gs'
  end.

Lemma groups_spec l : forall q, chained q l ->
  Forall (fun g => joined g.1 g.2) (groups l) /\ apart (groups l) /\ concat (map (fun g => g.1 :: g.2) (groups l)) = l.
Proof.
  induction l as [|c l IH]; intros q Hl; [by repeat split|]. destruct Hl as [_ Hl].
  destruct (IH (Some c) Hl) as (H1 & H2 & H3). destruct l as [|d l].
  - simpl. split; [by constructor|]. by repeat split.
  - destruct (groups_head d l) as (g & gs & E). rewrite (groups_cons c d l g gs E). destruct Hl as [Hadj Hl].
    rewrite E in *. apply Forall_cons in H1 as [Hg Hgs]. destruct H2 as [Ha Has]. destruct (joins c d) eqn:Ej.
    + split; [by constructor|]. split; [by split|]. simpl in *. by f_equal.
    + split; [by repeat constructor|]. split; [|simpl in *; by f_equal]. split; [|by split]. simpl.
      destruct Hadj as [[_ Hpage _] _]. destruct Hpage as [|[Hf Hb]]; [done|]. exfalso. unfold joins in Ej.
      rewrite Hf, Z.eqb_refl in Ej. unfold implies in Ej. destruct (is_bss c); [by rewrite Hb in Ej|done].
Qed.

Lemma covers_group c g : sound c -> Forall sound g -> joined c g -> covers (segment (c, g)) (c :: g) (last_of c g).
Proof.
  intros Hc Hg Hj. unfold segment. cbn [fst snd]. pose proof (covers_first c Hc) as Hcov.
  assert (Hv : 0 <= p_vaddr (define ctx (pt "LOAD") (flags c) P c)) by apply Hc.
  change (c :: g) with ([c] ++ g). revert Hcov Hv. generalize (define ctx (pt "LOAD") (flags c) P c), [c]. revert c Hc Hj.
  induction Hg as [|d g Hd Hg IH]; intros c Hc Hj p l Hcov Hv; simpl; [by rewrite app_nil_r|].
  destruct Hj as (Ha & Hj & Hjg). rewrite (cons_middle d l g), (assoc_L (++)). apply IH; [done|done| |done].
  by apply (covers_append p l c d).
Qed.

Lemma last_of_in c g : last_of c g ∈ c :: g.
Proof. revert c. induction g as [|d g IH]; intros c; simpl; [by left|]. right. apply IH. Qed.

(** A later segment begins on a page behind the earlier one. *)
Lemma apart_later k : 0 <= k <= 30 -> P = 2 ^ k ->
  forall gs c g, Forall (fun g => Forall sound (g.1 :: g.2) /\ joined g.1 g.2) ((c, g) :: gs) -> apart ((c, g) :: gs) ->
  Forall (fun g' => end_of (last_of c g) <= floor ctx (sh_addr g'.1)) gs.
Proof.
  intros Hk Hpage. induction gs as [|[d h] gs IH]; intros c g Hs Hap; [done|].
  apply Forall_cons in Hs as [_ Hs]. destruct Hap as [H1 H2]. constructor; [done|].
  eapply Forall_impl; [exact (IH d h Hs H2)|]. intros [e i]. cbn [fst]. intros H.
  apply Forall_cons in Hs as [[Hs1 Hs2] _]. cbn [fst snd] in *. apply Forall_cons in Hs1 as [Hd Hh].
  pose proof (covers_group d h Hd Hh Hs2) as Hcov. destruct (Forall_inv (cv_inside _ _ _ Hcov)) as (I1 & I2 & _).
  pose proof (floor_spec ctx k Hk Hpage (sh_addr d)) as [F _]. rewrite (cv_end _ _ _ Hcov) in I2.
  destruct Hd as ((_ & Hsz & _) & _). unfold end_of in *. lia.
Qed.

(** ** Loading *)

(** A segment is the only one on the pages of its chunks. *)
Lemma load_unique file (phdrs : list phdr) p a : p ∈ phdrs -> mapped P p a = true ->
  (forall q, q ∈ phdrs -> mapped P q a = true -> q = p) -> load P file phdrs a = Some (image file p a, p_flags p).
Proof.
  unfold load. intros Hin Hm Hu.
  assert (G : forall l (m : option (Z * Z)), l ⊆ phdrs -> (m = Some (image file p a, p_flags p) \/ p ∈ l) ->
    foldl (fun m p => if mapped P p a then Some (image file p a, p_flags p) else m) m l = Some (image file p a, p_flags p)).
  { induction l as [|q l IH]; intros m Hl Hor; simpl; [destruct Hor as [->|H]; [done|by apply elem_of_nil in H]|].
    apply IH; [intros x Hx; apply Hl; by right|]. destruct (mapped P q a) eqn:E.
    - left. assert (q = p) as ->; [|done]. apply Hu; [apply Hl; left|done].
    - destruct Hor as [H|[->|H]%elem_of_cons]; [by left|congruence|by right]. }
  apply G; [done|by right].
Qed.

(** The pages of a segment. *)
Lemma mapped_bounds k p a : 0 <= k <= 30 -> P = 2 ^ k -> mapped P p a = true ->
  p_type p = pt "LOAD" /\ floor ctx (p_vaddr p) <= a /\ floor ctx a <= floor ctx (p_vaddr p + p_memsz p - 1).
Proof.
  intros Hk Hpage. pose proof (page_bounds ctx k Hk Hpage). unfold mapped, floor.
  rewrite !andb_true_iff. intros [[H1%Z.eqb_eq H2%Z.leb_le] H3%Z.leb_le]. split; [done|]. split; [done|]. nia.
Qed.

Lemma elem_of_concat {A} (x : A) ls : x ∈ concat ls <-> exists l, l ∈ ls /\ x ∈ l.
Proof.
  rewrite list_elem_of_In, in_concat. by setoid_rewrite list_elem_of_In.
Qed.

Definition good_group (g : chunk * list chunk) : Prop := Forall sound (g.1 :: g.2) /\ joined g.1 g.2.

Lemma good_covers g : good_group g -> covers (segment g) (g.1 :: g.2) (last_of g.1 g.2).
Proof. destruct g as [c g]. intros [[Hc Hg]%Forall_cons Hj]. by apply covers_group. Qed.

Lemma segment_vaddr g : p_vaddr (segment g) = sh_addr g.1.
Proof.
  destruct g as [c g]. unfold segment. cbn [fst snd].
  assert (G : forall p, p_vaddr (foldl (append ctx) p g) = p_vaddr p).
  { induction g as [|d g IH]; intros p; simpl; [done|]. by rewrite IH. }
  by rewrite G.
Qed.

Lemma segments_unique k gs : 0 <= k <= 30 -> P = 2 ^ k -> Forall good_group gs -> apart gs ->
  forall p q a, p ∈ map segment gs -> q ∈ map segment gs -> mapped P p a = true -> mapped P q a = true -> p = q.
Proof.
  intros Hk Hpage. induction gs as [|[c g] gs IH]; intros Hg Hap p q a Hp Hq Mp Mq; [by apply elem_of_nil in Hp|].
  pose proof (apart_later k Hk Hpage gs c g Hg Hap) as Hlater. apply Forall_cons in Hg as [Hcg Hg].
  assert (Hsep : forall q, q ∈ map segment gs -> mapped P q a = true -> mapped P (segment (c, g)) a = true -> False).
  { intros q' Hq' M1%(mapped_bounds k) M2%(mapped_bounds k); try done. apply list_elem_of_fmap in Hq' as (g' & -> & Hin).
    pose proof (proj1 (Forall_forall _ _) Hlater _ Hin) as Hl. simpl in Hl. rewrite segment_vaddr in M1.
    rewrite (cv_end _ _ _ (good_covers _ Hcg)) in M2. destruct M1 as (_ & M1 & _), M2 as (_ & _ & M2). cbn [fst snd] in M2.
    pose proof (floor_spec ctx k Hk Hpage (end_of (last_of c g) - 1)) as [F _].
    pose proof (floor_spec ctx k Hk Hpage (sh_addr g'.1)) as [_ Fm].
    pose proof (floor_mono ctx k Hk Hpage _ _ M1) as Fl. rewrite (floor_multiple ctx k Hk Hpage (floor ctx _) Fm) in Fl. lia. }
  destruct Hap as [_ Hap]. apply elem_of_cons in Hp as [->|Hp], Hq as [->|Hq]; [done| | |by apply (IH Hg Hap p q a)].
  - exfalso. by apply (Hsep q).
  - exfalso. by apply (Hsep p).
Qed.

(** Every byte of a chunk is loaded, with the permissions of the chunk. *)
Lemma segments_load k file l q0 phdrs c j : 0 <= k <= 30 -> P = 2 ^ k -> chained q0 l -> Forall sound l ->
  phdrs ≡ₚ map segment (groups l) -> c ∈ l -> 0 <= j < sh_size c ->
  load P file phdrs (sh_addr c + j) = Some (if is_bss c then 0 else file (sh_offset c + j), flags c).
Proof.
  intros Hk Hpage Hch Hs Hperm Hc Hj. destruct (groups_spec l q0 Hch) as (G1 & G2 & G3).
  assert (Hg : Forall good_group (groups l)).
  { apply Forall_forall. intros g Hin. split; [|by apply (proj1 (Forall_forall _ _) G1)]. apply Forall_forall. intros d Hd.
    apply (proj1 (Forall_forall _ _) Hs). rewrite <- G3. apply elem_of_concat. exists (g.1 :: g.2). split; [|done].
    apply list_elem_of_fmap. by exists g. }
  assert (exists g, g ∈ groups l /\ c ∈ g.1 :: g.2) as (g & Hin & Hcg).
  { rewrite <- G3 in Hc. clear - Hc. apply elem_of_concat in Hc as (x & (g & -> & Hg')%list_elem_of_fmap & Hx). by exists g. }
  pose proof (good_covers g (proj1 (Forall_forall _ _) Hg _ Hin)) as Hcov.
  destruct (proj1 (Forall_forall _ _) (cv_inside _ _ _ Hcov) _ Hcg) as (I1 & I2 & I3). unfold end_of in *.
  assert (Hseg : segment g ∈ map segment (groups l)) by (apply list_elem_of_fmap; by exists g).
  pose proof (page_bounds ctx k Hk Hpage) as HP.
  assert (Hmap : mapped P (segment g) (sh_addr c + j) = true).
  { unfold mapped. rewrite (cv_type _ _ _ Hcov), Z.eqb_refl. simpl. apply andb_true_iff. split.
    - apply Z.leb_le. pose proof (floor_spec ctx k Hk Hpage (p_vaddr (segment g))) as [F _]. unfold floor in F. lia.
    - apply Z.leb_le, Z.div_le_mono; lia. }
  rewrite (load_unique file phdrs (segment g)); [| by rewrite Hperm|done|].
  - rewrite (proj1 (Forall_forall _ _) (cv_flags _ _ _ Hcov) _ Hcg). f_equal. f_equal. unfold image.
    destruct (is_bss c); [|destruct I3 as [I3 I4]]; destruct (Z.ltb_spec (sh_addr c + j) (p_vaddr (segment g) + p_filesz (segment g))); try lia.
    f_equal. lia.
  - intros q Hq Mq. rewrite Hperm in Hq. by apply (segments_unique k (groups l) Hk Hpage Hg G2 q (segment g) _ Hq Hseg Mq).
Qed.
End Segments.

(** ** One round *)

Abbreviation loadable_chunks := (List.filter (fun c => negb (is_tbss c))).

Section Round.
Context (ctx : Context) (k room : Z).
Hypothesis Hk : 0 <= k <= 30.
Hypothesis Hpage : page_size ctx = 2 ^ k.
Abbreviation P := (page_size ctx).
Abbreviation same := (same ctx).
Abbreviation kept := (kept ctx).

(** The chunks [loaded ++ rest] of a round: [loaded] are the SHF_ALLOC ones. *)
Record round_input (loaded rest : list chunk) : Prop := {
  ri_start : section_start ctx = ∅; ri_order : order ctx = []; ri_base : 0 <= image_base ctx;
  ri_loaded : Forall (fun c => alloc_ok ctx room c = true) loaded; ri_rest : Forall (fun c => nonalloc_ok ctx room c = true) rest;
  ri_ids : NoDup (map chunk_id (loaded ++ rest)); ri_pairs : pairs_ok ctx None None loaded = true;
  ri_last : forall z, last (loaded ++ rest) = Some z -> is_tbss z = false;
  ri_head : exists c l, loaded = c :: l /\ 0 < sh_size c /\ nobits c = false /\ at_ptr (phdr_chunk ctx) c = false;
  ri_fits : image_base ctx + 2 * need ctx room (loaded ++ rest) < limit ctx }.

(** What a round makes of them. *)
Record round_result (loaded rest loaded' rest' : list chunk) (fin : Z) : Prop := {
  rd_loaded : Forall2 same loaded loaded'; rd_rest : Forall2 kept rest rest'; rd_linked : linked ctx None loaded';
  rd_filed : filed ctx None (loaded' ++ rest') fin; rd_aligned : Forall (aligned ctx) loaded';
  rd_within : Forall (within (image_base ctx) (image_base ctx + need ctx room (loaded ++ rest))) loaded';
  rd_fin : fin <= need ctx room (loaded ++ rest); rd_sizes : Forall (fun c => size_ok ctx room c = true) (loaded' ++ rest');
  rd_sized : Forall2 (sized ctx) loaded loaded' }.

Lemma same_alloc c d : same c d -> alloc d = alloc c.
Proof. apply same_has. Qed.

Lemma align_ok_le a : align_ok ctx a = true -> a <= P.
Proof. unfold align_ok. pose proof (page_bounds ctx k Hk Hpage). rewrite orb_true_iff, !andb_true_iff. lia. Qed.

Lemma weight_same c d : same c d -> (padding ctx c = false -> at_ptr (phdr_chunk ctx) c = false -> sh_size d = sh_size c) ->
  weight ctx room d = weight ctx room c.
Proof.
  intros Hs Hz. unfold weight. rewrite (same_padding ctx _ _ Hs), (same_at ctx _ _ _ Hs).
  destruct (padding ctx c); [done|]. destruct (at_ptr _ c); [done|]. auto.
Qed.

(** Chunks related to chunks that are fit for a round are fit. *)
Lemma weight_sized c d : same c d -> sized ctx c d -> size_ok ctx room c = true -> sh_size d <= weight ctx room d.
Proof.
  intros Hs Hz Hc%size_ok_spec. rewrite (weight_same c d Hs) by apply Hs. unfold sized in Hz. unfold weight in *.
  destruct (padding ctx c); [done|]. rewrite Hz. lia.
Qed.

Lemma need_same l l' : Forall2 same l l' -> need ctx room l' = need ctx room l.
Proof. induction 1 as [|c d l l' Hs Hl IH]; [done|]. simpl. rewrite (weight_same c d Hs), IH by apply Hs. done. Qed.

Lemma round_listed loaded l1 lo hi : 0 <= lo -> Forall (fun c => alloc_ok ctx room c = true) loaded ->
  Forall2 same loaded l1 -> Forall2 (sized ctx) loaded l1 -> Forall (within lo hi) l1 ->
  Forall (listed ctx room hi) l1 /\ Forall (fun c => sh_addralign c <= P) l1.
Proof.
  intros H0 Hok Hs Hz Hw. induction Hs as [|c d l l1 Hs Hl IH]; [by split|].
  apply Forall_cons in Hok as [Hc Hok]. apply Forall2_cons in Hz as [Hz Hzl]. apply Forall_cons in Hw as [Hw Hwl].
  destruct (IH Hok Hzl Hwl) as [I1 I2]. unfold alloc_ok in Hc. rewrite !andb_true_iff in Hc. destruct Hc as [[[Ha Hal] Hsz] _].
  split; constructor; try done.
  - split; [split; [by rewrite (same_alloc _ _ Hs)|by apply (weight_sized c)]|]. destruct Hw as (? & ? & ?). unfold within. lia.
  - rewrite (same_align _ _ _ Hs). by apply align_ok_le.
Qed.

Lemma Forall2_in_r {A B} (R : A -> B -> Prop) l l' y : Forall2 R l l' -> y ∈ l' -> exists x, x ∈ l /\ R x y.
Proof.
  intros H [i Hi]%list_elem_of_lookup. destruct (Forall2_lookup_r _ _ _ _ _ H Hi) as (x & Hx & Hr).
  exists x. split; [by apply list_elem_of_lookup_2 in Hx|done].
Qed.

Lemma round_ok loaded rest : round_input loaded rest ->
  exists loaded' rest' fin, set_addresses_and_offsets ctx (loaded ++ rest) = Some (loaded' ++ rest', [], fin) /\
    round_result loaded rest loaded' rest' fin.
Proof.
  intros [H1 H2 H3 H4 H5 H6 H7 H8 H9 H10]. pose proof (limit_61 ctx) as Hlim.
  pose proof (need_alloc ctx k room Hk Hpage loaded H4) as N1. pose proof (need_nonalloc ctx k room Hk Hpage rest H5) as N2.
  rewrite need_app in H10. set (hi := image_base ctx + (need ctx room loaded + need ctx room rest)).
  assert (Hall : Forall (fun c => align_ok ctx (sh_addralign c) = true) (loaded ++ rest)).
  { apply Forall_app. split; (eapply Forall_impl; [eassumption|]); intros c Hc; unfold alloc_ok, nonalloc_ok in Hc;
      rewrite !andb_true_iff in Hc; tauto. }
  destruct (assign_ok ctx k room Hk Hpage H1 (loaded ++ rest) rest hi Hall H6 H5 ltac:(subst hi; lia) loaded None None (image_base ctx) None)
    as (l1 & E1 & [A1 A2 A3 A4 A5]); try done; [|subst hi; lia|].
  { apply Forall_forall. intros c Hc. split; [by apply (proj1 (Forall_forall _ _) H4)|apply elem_of_app; by left]. }
  unfold set_addresses_and_offsets. rewrite H2. unfold set_virtual_addresses_regular. rewrite E1. cbn [fmap option_fmap option_map].
  destruct (round_listed loaded l1 (image_base ctx) hi H3 H4 A1 A5 A4) as [L1 L2].
  destruct (file_offsets_ok ctx k room Hk Hpage hi ltac:(subst hi; lia) rest H5 (length (l1 ++ rest)) l1 None None 0)
    as (out & fin & E2 & F1 & F2 & F3); try done; [rewrite need_app, (need_same _ _ A1); subst hi; lia|].
  unfold set_file_offsets. rewrite E2. apply Forall2_app_inv_l in F1 as (l2 & rest2 & K1 & K2 & ->).
  exists l2, rest2, fin. split; [done|]. rewrite need_app, (need_same _ _ A1) in F3.
  split; rewrite ?need_app; try done; try lia.
  - clear - A1 K1. revert l2 K1. induction A1 as [|c d l l1 Hs Hl IH]; intros l2 K1; [by apply Forall2_nil_inv_l in K1 as ->|].
    apply Forall2_cons_inv_l in K1 as (e & l3 & He & Hl3 & ->). constructor; [|by apply IH].
    etransitivity; [exact Hs|apply He].
  - by apply (linked_kept ctx None None l1).
  - clear - A3 K1. induction K1 as [|c d l l1 [Hs Ha _] Hl IH]; [done|]. apply Forall_cons in A3 as [A A3].
    constructor; [|by apply IH]. unfold aligned in *. rewrite Ha, (same_align _ _ _ Hs), (same_padding ctx _ _ Hs). done.
  - clear - A4 K1. induction K1 as [|c d l l1 [Hs Ha Hz] Hl IH]; [done|]. apply Forall_cons in A4 as [A A4].
    constructor; [|by apply IH]. unfold within, end_of in *. by rewrite Ha, Hz.
  - apply Forall_app. split; apply Forall_forall; intros c Hc; unfold size_ok.
    + destruct (Forall2_in_r _ _ _ _ K1 Hc) as (d & Hd & [Hs Ha Hz]). rewrite Hz, (weight_same d c Hs) by done.
      destruct (proj1 (Forall_forall _ _) L1 _ Hd) as [[_ ?] (_ & ? & _)]. apply andb_true_iff. lia.
    + destruct (Forall2_in_r _ _ _ _ K2 Hc) as (d & Hd & [Hs Ha Hz]). rewrite Hz, (weight_same d c Hs) by done.
      pose proof (proj1 (Forall_forall _ _) H5 _ Hd) as H. unfold nonalloc_ok in H. rewrite !andb_true_iff in H.
      destruct H as [[[[[_ Hz'%size_ok_spec] _] _] _] _]. apply andb_true_iff. lia.
  - clear - A5 K1. revert l2 K1. induction A5 as [|c d l l1 Hs Hl IH]; intros l2 K1; [by apply Forall2_nil_inv_l in K1 as ->|].
    apply Forall2_cons_inv_l in K1 as (e & l3 & He & Hl3 & ->). constructor; [|by apply IH].
    unfold sized in *. by rewrite (kept_size _ _ _ He).
Qed.

(** *** The chunks that are loaded, and those behind them in the file *)

Lemma chained_filter r fin l : forall q qf, linked ctx q l -> filed ctx qf (l ++ r) fin -> Forall (fun c => alloc c = true) l ->
  (forall q0, q = Some q0 -> alloc q0 = true /\ (is_bss q0 = false -> qf = Some q0)) -> chained ctx q (loadable_chunks l).
Proof.
  induction l as [|c l IH]; intros q qf Hl Hf Ha Hq; [done|]. apply Forall_cons in Ha as [Hc Ha]. simpl in *.
  unfold in_file in Hf. rewrite Hc in Hf. destruct (is_tbss c) eqn:Ht; simpl.
  { unfold is_tbss in Ht. apply andb_true_iff in Ht as [Hb _]. rewrite Hb in Hf. by apply (IH q qf). }
  destruct Hl as [Hfl Hl]. pose proof (not_bss_nobits c Ht) as Eb. destruct (nobits c) eqn:Hb; simpl in Hf.
  - split.
    + destruct q as [q|]; [|done]. split; [done|]. intros _ _ H. congruence.
    + apply (IH (Some c) qf); try done. intros q0 [= <-]. split; [done|]. congruence.
  - destruct Hf as (Hbeh & Ho & Hm & Hf). split.
    + destruct q as [q|]; [|done]. split; [done|]. intros Hfe Hqb Hcb. destruct (Hq q eq_refl) as [Hqa Hqf].
      rewrite (Hqf Hqb) in Hbeh. destruct Hbeh as [_ Hnear]. apply Hnear; [done|done|].
      destruct Hfl as [H1 _ H3]. specialize (H3 Hfe Hqb Hcb). lia.
    + apply (IH (Some c) (Some c)); try done. by intros q0 [= <-].
Qed.

Lemma filed_suffix a : forall q l fin, filed ctx q (a ++ l) fin -> exists q', filed ctx q' l fin.
Proof.
  induction a as [|c a IH]; intros q l fin; simpl; [eauto|]. destruct (in_file c); [|apply IH].
  intros (_ & _ & _ & H). by apply (IH (Some c)).
Qed.

Lemma filed_in l : forall q fin c, filed ctx q l fin -> Forall (fun c => 0 <= sh_size c) l -> c ∈ l -> in_file c = true ->
  0 <= sh_offset c /\ (alloc c = true -> sh_offset c mod P = sh_addr c mod P) /\ end_off c <= fin /\
  match q with Some q => end_off q <= sh_offset c | None => True end.
Proof.
  assert (G : forall l q fin, filed ctx q l fin -> Forall (fun c => 0 <= sh_size c) l ->
    match q with Some q => end_off q <= fin | None => 0 <= fin end).
  { clear. induction l as [|c l IH]; intros q fin; simpl; [done|]. intros H Hs. apply Forall_cons in Hs as [Hc Hs].
    destruct (in_file c); [|by apply IH]. destruct H as (Hb & Ho & _ & H). pose proof (IH _ _ H Hs) as Hfin. simpl in Hfin.
    unfold end_off in *. destruct q as [q|]; [|lia]. destruct Hb as [Hb _]. unfold end_off in *. lia. }
  induction l as [|d l IH]; intros q fin c Hf Hs Hc Hin; [by apply elem_of_nil in Hc|].
  apply Forall_cons in Hs as [Hd Hs]. simpl in Hf. apply elem_of_cons in Hc as [->|Hc].
  - rewrite Hin in Hf. destruct Hf as (Hb & Ho & Hm & Hf). pose proof (G _ _ _ Hf Hs). repeat split; try done.
    destruct q as [q|]; [|done]. by destruct Hb.
  - destruct (in_file d) eqn:Ed; [|by apply IH]. destruct Hf as (Hb & Ho & Hm & Hf).
    destruct (IH (Some d) fin c Hf Hs Hc Hin) as (I1 & I2 & I3 & I4). repeat split; try done.
    destruct q as [q|]; [|done]. destruct Hb as [Hb _]. unfold end_off in *. lia.
Qed.

(** Chunks with contents come in this order in the file. *)
Lemma filed_order q l1 c l2 d fin : filed ctx q (l1 ++ c :: l2) fin -> Forall (fun c => 0 <= sh_size c) (l1 ++ c :: l2) ->
  in_file c = true -> d ∈ l2 -> in_file d = true -> end_off c <= sh_offset d.
Proof.
  intros Hf Hs Hc Hd Hdi. destruct (filed_suffix l1 _ _ _ Hf) as [q' Hf']. simpl in Hf'. rewrite Hc in Hf'.
  destruct Hf' as (_ & _ & _ & Hf'). apply Forall_app in Hs as [_ Hs]. apply Forall_cons in Hs as [_ Hs].
  by destruct (filed_in l2 (Some c) fin d Hf' Hs Hd Hdi) as (_ & _ & _ & H).
Qed.

Section Result.
Context (loaded rest loaded' rest' : list chunk) (fin : Z).
Hypothesis Hin : round_input loaded rest.
Hypothesis Hout : round_result loaded rest loaded' rest' fin.

Lemma result_alloc : Forall (fun c => alloc c = true) loaded'.
Proof.
  apply Forall_forall. intros c Hc. destruct (Forall2_in_r _ _ _ _ (rd_loaded _ _ _ _ _ Hout) Hc) as (d & Hd & Hs).
  rewrite (same_alloc _ _ Hs). pose proof (proj1 (Forall_forall _ _) (ri_loaded _ _ Hin) _ Hd) as H.
  unfold alloc_ok in H. rewrite !andb_true_iff in H. tauto.
Qed.

Lemma result_rest : Forall (fun c => alloc c = false /\ nobits c = false /\ sh_addr c = 0 /\ 0 <= sh_size c) rest'.
Proof.
  apply Forall_forall. intros c Hc. destruct (Forall2_in_r _ _ _ _ (rd_rest _ _ _ _ _ Hout) Hc) as (d & Hd & [Hs Ha Hz]).
  rewrite (same_alloc _ _ Hs), (same_nobits ctx _ _ Hs), Ha, Hz.
  pose proof (proj1 (Forall_forall _ _) (ri_rest _ _ Hin) _ Hd) as H. unfold nonalloc_ok in H.
  rewrite !andb_true_iff, !negb_true_iff in H. destruct H as [[[[[[? _] Hz'%size_ok_spec] ?] _] _] ?%Z.eqb_eq]. repeat split; try done. lia.
Qed.

Lemma result_sizes : Forall (fun c => 0 <= sh_size c) (loaded' ++ rest').
Proof.
  apply Forall_app. split; (eapply Forall_impl; [first [apply (rd_within _ _ _ _ _ Hout)|apply result_rest]|]).
  - by intros c (_ & ? & _).
  - by intros c (_ & _ & _ & ?).
Qed.

Lemma result_chained : chained ctx None (loadable_chunks loaded').
Proof.
  apply (chained_filter rest' fin loaded' None None); [apply Hout|apply Hout|apply result_alloc|done].
Qed.

Lemma loadable_in c : c ∈ loadable_chunks loaded' <-> c ∈ loaded' /\ is_tbss c = false.
Proof. rewrite !list_elem_of_In, List.filter_In, negb_true_iff. done. Qed.

Definition top : Z := image_base ctx + need ctx room (loaded ++ rest).

Lemma result_sound : Forall (sound ctx top) (loadable_chunks loaded').
Proof.
  apply Forall_forall. intros c [Hc Ht]%loadable_in.
  pose proof (proj1 (Forall_forall _ _) (rd_within _ _ _ _ _ Hout) _ Hc) as (W1 & W2 & W3).
  pose proof (ri_base _ _ Hin). split; [unfold within, top; lia|]. split; [done|]. intros Hb.
  rewrite (not_bss_nobits c Ht) in Hb. pose proof (proj1 (Forall_forall _ _) result_alloc _ Hc) as Ha.
  destruct (filed_in _ None fin c (rd_filed _ _ _ _ _ Hout) result_sizes) as (F1 & F2 & _).
  - apply elem_of_app. by left.
  - unfold in_file. by rewrite Ha, Hb.
  - split; [done|by apply F2].
Qed.

Lemma linked_ascending q l lo hi c : linked ctx (Some q) l -> Forall (within lo hi) l -> c ∈ l -> is_tbss c = false ->
  end_of q <= sh_addr c.
Proof.
  revert q. induction l as [|d l IH]; intros q Hl Hw Hc Ht; [by apply elem_of_nil in Hc|].
  apply Forall_cons in Hw as [(_ & Hs & _) Hw]. simpl in Hl. apply elem_of_cons in Hc as [->|Hc].
  - rewrite Ht in Hl. by destruct Hl as [[H _ _] _].
  - destruct (is_tbss d); [by apply IH|]. destruct Hl as [[H _ _] Hl]. specialize (IH d Hl Hw Hc Ht). unfold end_of in *. lia.
Qed.

(** A chunk that is not loaded does not look like the continuation of a segment. *)
Lemma result_far first c : first ∈ loadable_chunks loaded' -> is_bss first = false -> c ∈ rest' ->
  contiguous ctx first (flags_of ctx first) c = false.
Proof.
  intros [Hf Ht]%loadable_in Hb Hc. destruct (proj1 (Forall_forall _ _) result_rest _ Hc) as (Ra & Rb & Raddr & Rs).
  rewrite (not_bss_nobits _ Ht) in Hb. pose proof (proj1 (Forall_forall _ _) result_alloc _ Hf) as Ha.
  pose proof (proj1 (Forall_forall _ _) (rd_within _ _ _ _ _ Hout) _ Hf) as (W1 & W2 & W3).
  assert (Hi : in_file first = true) by (unfold in_file; by rewrite Ha, Hb).
  assert (Hci : in_file c = true) by (unfold in_file; by rewrite Ra).
  pose proof (ri_fits _ _ Hin) as Hfits. pose proof (ri_base _ _ Hin) as Hbase. pose proof (rd_fin _ _ _ _ _ Hout) as Hfin.
  assert (Hord : end_off first <= sh_offset c).
  { apply list_elem_of_split in Hf as (l1 & l2 & E). pose proof (rd_filed _ _ _ _ _ Hout) as Hfd. pose proof result_sizes as Hsz.
    rewrite E, <- (assoc_L (++)) in Hfd, Hsz. apply (filed_order None l1 first (l2 ++ rest') c fin); try done.
    apply elem_of_app. by right. }
  destruct (filed_in _ None fin first (rd_filed _ _ _ _ _ Hout) result_sizes) as (F1 & _ & F3 & _); [apply elem_of_app; by left|done|].
  destruct (filed_in _ None fin c (rd_filed _ _ _ _ _ Hout) result_sizes) as (C1 & _ & C3 & _); [apply elem_of_app; by right|done|].
  unfold end_off, end_of in *.
  assert (Hz : 0 < sh_offset c - sh_offset first + sh_addr first).
  { destruct (Z.eq_dec (sh_addr first) 0) as [E0|]; [|lia]. enough (0 < sh_size first) by lia.
    destruct (ri_head _ _ Hin) as (h & l & El & Hhs & Hhb & Hhp). pose proof (rd_loaded _ _ _ _ _ Hout) as Hl. rewrite El in Hl.
    apply Forall2_cons_inv_l in Hl as (h' & l' & Hs & Hl & E').
    assert (Hpad : padding ctx h = false).
    { pose proof (ri_pairs _ _ Hin) as Hp. rewrite El in Hp. simpl in Hp. apply andb_true_iff in Hp as [Hp _].
      by apply negb_true_iff. }
    pose proof (same_size _ _ _ Hs Hpad Hhp) as Hsz. pose proof (rd_linked _ _ _ _ _ Hout) as Hlk. rewrite E' in Hlk, Hf.
    simpl in Hlk. rewrite (not_tbss h') in Hlk by (by rewrite (same_nobits ctx _ _ Hs)). destruct Hlk as [_ Hlk].
    apply elem_of_cons in Hf as [->|Hf]; [lia|]. pose proof (rd_within _ _ _ _ _ Hout) as Hwi. rewrite E' in Hwi.
    apply Forall_cons in Hwi as [(? & ? & ?) Hwi]. pose proof (linked_ascending _ _ _ _ first Hlk Hwi Hf Ht).
    unfold end_of in *. lia. }
  unfold contiguous. rewrite Raddr. apply andb_false_iff. right. apply Z.eqb_neq. unfold word, wrap. intros E.
  assert (Hw : limit ctx <= 2 ^ (8 * word_size ctx)).
  { unfold limit, word_size. destruct (is_64 _); by vm_compute. }
  assert (D : (sh_offset c - sh_offset first + sh_addr first) mod 2 ^ (8 * word_size ctx) = 0).
  { replace (sh_offset c - sh_offset first + sh_addr first) with (sh_offset c - sh_offset first - (0 - sh_addr first)) by lia.
    rewrite Zminus_mod, E, Z.sub_diag. apply Zmod_0_l. }
  rewrite Z.mod_small in D by lia. lia.
Qed.

(** The segments of a round are the groups of its chunks. *)
Lemma result_segments : load_segments ctx (loaded' ++ rest') ≡ₚ map (segment ctx) (groups ctx (loadable_chunks loaded')).
Proof.
  unfold load_segments. rewrite stable_sort_perm, List.filter_app.
  assert (E : loadable_chunks rest' = rest').
  { pose proof result_rest as H. clear - H. induction H as [|c l (_ & Hb & _) _ IH]; [done|]. simpl.
    by rewrite (not_tbss c Hb), IH. }
  rewrite E. rewrite (load_phdrs_groups ctx rest' _ (loadable_chunks loaded') None); [done| | | |apply result_chained|done].
  - apply Forall_forall. intros c [Hc _]%loadable_in. by apply (proj1 (Forall_forall _ _) result_alloc).
  - eapply Forall_impl; [apply result_rest|]. intros c (H1 & H2 & _). split; [done|]. unfold is_bss. by rewrite H2.
  - intros first Hf Hb. apply Forall_forall. intros c Hc. by apply result_far.
Qed.
End Result.
End Round.

(** ** The program headers of two rounds *)

Section Headers.
Context (ctx : Context).
Abbreviation P := (page_size ctx).
Abbreviation same := (same ctx).

(** Headers up to the physical address. *)
Definition agree (p q : phdr) : Prop := exists a, q = mkPhdr (p_type p) (p_flags p) (p_offset p) (p_vaddr p) a (p_filesz p) (p_memsz p) (p_align p).

Lemma agree_self p : agree p p.
Proof. destruct p. by eexists. Qed.

Lemma agree_refl l : Forall2 agree l l.
Proof. induction l; constructor; [apply agree_self|done]. Qed.

Lemma physical_agree base l : Forall2 agree l (physical_addresses ctx base l).
Proof.
  assert (G : forall l b a, Forall2 agree l (set_paddrs ctx b a l)).
  { clear. induction l as [|p l IH]; intros b a; simpl; [constructor|]. destruct (p_type p =? _); [|apply agree_refl].
    destruct (_ && _); (constructor; [by eexists|apply IH]). }
  induction l as [|p l IH]; simpl; [constructor|].
  destruct (p_type p =? _); constructor; [by eexists|apply G|apply agree_self|done].
Qed.

Lemma create_agree chunks : Forall2 agree (phdr_vec ctx chunks) (create_phdr ctx chunks).
Proof. unfold create_phdr. destruct (physical_image_base ctx); [apply physical_agree|apply agree_refl]. Qed.

Lemma load_agree file a l l' : Forall2 agree l l' -> load P file l a = load P file l' a.
Proof.
  intros H. unfold load. generalize (@None (Z * Z)). induction H as [|p q l l' [x ->] _ IH]; intros m; [done|]. simpl. apply IH.
Qed.

(** Headers of other types do not load anything. *)
Lemma load_others file a l1 l l2 : Forall (fun p => p_type p <> pt "LOAD") l1 -> Forall (fun p => p_type p <> pt "LOAD") l2 ->
  load P file (l1 ++ l ++ l2) a = load P file l a.
Proof.
  assert (G : forall l m, Forall (fun p => p_type p <> pt "LOAD") l ->
    foldl (fun m p => if mapped P p a then Some (image file p a, p_flags p) else m) m l = m).
  { clear. intros l m H. revert m. induction H as [|p l Hp _ IH]; intros m; [done|]. simpl. unfold mapped at 2.
    apply Z.eqb_neq in Hp. rewrite Hp. apply IH. }
  intros H1 H2. unfold load. rewrite !foldl_app, (G l1), (G l2) by done. done.
Qed.

Lemma append_type cond p l : p_type (append_while ctx cond p l).1 = p_type p.
Proof. revert p. induction l as [|c l IH]; intros p; [done|]. simpl. destruct (cond c); [by rewrite IH|done]. Qed.

Lemma note_types fuel l : Forall (fun p => p_type p = pt "NOTE") (note_phdrs ctx fuel l).
Proof.
  revert l. induction fuel as [|fuel IH]; intros [|c l]; simpl; try constructor. destruct (is_note c); [|apply IH].
  destruct (append_while ctx _ _ l) as [p r] eqn:E. constructor; [|apply IH].
  change p with (p, r).1. rewrite <- E. by rewrite append_type.
Qed.

Lemma run_types fuel cond type l : Forall (fun p => p_type p = type) (run_phdrs ctx fuel cond type l).
Proof.
  revert l. induction fuel as [|fuel IH]; intros [|c l]; simpl; try constructor. destruct (cond c); [|apply IH].
  destruct (append_while ctx _ _ l) as [p r] eqn:E. constructor; [|apply IH].
  change p with (p, r).1. rewrite <- E. by rewrite append_type.
Qed.

Lemma define_types type flags a c : Forall (fun p => p_type p = type) (define_opt ctx type flags a c).
Proof. destruct c; by repeat constructor. Qed.

Lemma other_types l ty : ty <> pt "LOAD" -> Forall (fun p => p_type p = ty) l -> Forall (fun p => p_type p <> pt "LOAD") l.
Proof. intros H Hl. eapply Forall_impl; [exact Hl|]. intros p Hp. simpl in *. congruence. Qed.

Lemma phdr_vec_parts chunks : exists l1 l2, Forall (fun p => p_type p <> pt "LOAD") l1 /\
  Forall (fun p => p_type p <> pt "LOAD") l2 /\ phdr_vec ctx chunks = l1 ++ load_segments ctx chunks ++ l2.
Proof.
  unfold phdr_vec. set (l2 := _ ++ define_opt ctx (pt "DYNAMIC") _ _ _ ++ _).
  rewrite !(assoc_L (++)). rewrite <- (assoc_L (++) _ (load_segments ctx chunks)).
  eexists _, l2. split; [|split; [|done]].
  - rewrite !Forall_app. repeat split; (eapply other_types; [|apply define_types || apply note_types]); done.
  - subst l2. rewrite !Forall_app. repeat split; try (eapply other_types; [|apply define_types || apply run_types]; done).
    + by repeat constructor.
    + destruct (z_relro ctx); [|done]. apply Forall_fmap. eapply other_types; [|apply run_types]. done.
    + destruct (bool_decide _); [|done]. eapply other_types; [|apply define_types]. done.
Qed.

Lemma create_load file a chunks : load P file (create_phdr ctx chunks) a = load P file (load_segments ctx chunks) a.
Proof.
  rewrite <- (load_agree file a _ _ (create_agree chunks)). destruct (phdr_vec_parts chunks) as (l1 & l2 & H1 & H2 & ->).
  by apply load_others.
Qed.

(** *** Their number depends only on what the layout keeps *)

Lemma append_while_same cond cond' p p' l l' : (forall c d, same c d -> cond' d = cond c) -> Forall2 same l l' ->
  Forall2 same (append_while ctx cond p l).2 (append_while ctx cond' p' l').2.
Proof.
  intros Hc H. revert p p'. induction H as [|c d l l' Hs H IH]; intros p p'; [done|]. simpl. rewrite (Hc c d Hs).
  destruct (cond c); [apply IH|by constructor].
Qed.

Lemma is_note_same c d : same c d -> is_note d = is_note c.
Proof. intros H. unfold is_note, alloc. by rewrite (same_type _ _ _ H), (same_has ctx _ _ _ H). Qed.

Lemma note_same fuel : forall l l', Forall2 same l l' -> length (note_phdrs ctx fuel l') = length (note_phdrs ctx fuel l).
Proof.
  induction fuel as [|fuel IH]; intros l l' H; [done|]. destruct H as [|c d l l' Hs H]; [done|]. simpl.
  rewrite (is_note_same c d Hs). destruct (is_note c); [|by apply IH].
  pose proof (same_flags_of ctx _ _ Hs) as Ef. unfold flags_of in Ef.
  set (q := define ctx _ (to_phdr_flags ctx d) _ d). set (q0 := define ctx _ (to_phdr_flags ctx c) _ c).
  pose proof (append_while_same (fun c0 => is_note c0 && (to_phdr_flags ctx c0 =? to_phdr_flags ctx c))
    (fun c0 => is_note c0 && (to_phdr_flags ctx c0 =? to_phdr_flags ctx d)) q0 q l l') as A.
  destruct (append_while ctx _ q l') as [p' r'], (append_while ctx _ q0 l) as [p r]. simpl. f_equal. apply IH, A; [|done].
  intros x y Hxy. rewrite (is_note_same x y Hxy), Ef. pose proof (same_flags_of ctx _ _ Hxy) as Ex. unfold flags_of in Ex.
  by rewrite Ex.
Qed.

Lemma run_same fuel cond type : (forall c d, same c d -> cond d = cond c) ->
  forall l l', Forall2 same l l' -> length (run_phdrs ctx fuel cond type l') = length (run_phdrs ctx fuel cond type l).
Proof.
  intros Hc. induction fuel as [|fuel IH]; intros l l' H; [done|]. destruct H as [|c d l l' Hs H]; [done|]. simpl.
  rewrite (Hc c d Hs). destruct (cond c); [|by apply IH].
  pose proof (append_while_same cond cond (define ctx type PF_R 1 c) (define ctx type PF_R 1 d) l l' Hc H) as A.
  destruct (append_while ctx cond _ l') as [p' r'], (append_while ctx cond _ l) as [p r]. simpl in *. f_equal. apply IH.
  by destruct A.
Qed.

Lemma groups_same l l' : Forall2 same l l' ->
  Forall2 (fun g g' => same g.1 g'.1) (groups ctx l) (groups ctx l').
Proof.
  induction 1 as [|c d l l' Hs H IH]; [done|]. simpl. destruct IH as [|[x g] [y g'] gs gs' Hx Hgs]; [by constructor|].
  cbn [fst] in Hx. assert (E : joins ctx d y = joins ctx c x).
  { unfold joins. by rewrite (same_flags_of ctx _ _ Hs), (same_flags_of ctx _ _ Hx), (same_bss ctx _ _ Hs), (same_bss ctx _ _ Hx). }
  rewrite E. destruct (joins ctx c x); constructor; try done. by constructor.
Qed.

Lemma find_same f l l' : (forall c d, same c d -> f d = f c) -> Forall2 same l l' ->
  option_Forall2 same (List.find f l) (List.find f l').
Proof.
  intros Hf H. induction H as [|c d l l' Hs H IH]; [constructor|]. simpl. rewrite (Hf c d Hs).
  destruct (f c); [by constructor|done].
Qed.

Lemma chunk_of_same l l' p : Forall2 same l l' -> option_Forall2 same (chunk_of ctx l p) (chunk_of ctx l' p).
Proof.
  intros H. unfold chunk_of. destruct p as [i|]; [|constructor]. simpl. apply find_same.
  - intros c d Hs. by rewrite (same_id _ _ _ Hs).
  - apply Forall2_app; [done|]. clear. induction (chunk_pool ctx); by constructor.
Qed.

Lemma define_same type flags a x y : option_Forall2 same x y ->
  length (define_opt ctx type flags a y) = length (define_opt ctx type flags a x).
Proof. by destruct 1. Qed.

Lemma when_same cond x y : (forall c d, x = Some c -> y = Some d -> cond d = cond c) -> option_Forall2 same x y ->
  option_Forall2 same (when cond x) (when cond y).
Proof.
  intros Hc H. destruct H as [c d H|]; [|constructor]. simpl. rewrite (Hc c d) by done. destruct (cond c); by constructor.
Qed.

Lemma filter_same l l' : Forall2 same l l' -> Forall2 same (loadable_chunks l) (loadable_chunks l').
Proof.
  induction 1 as [|c d l l' Hs H IH]; [done|]. simpl. rewrite (same_tbss ctx _ _ Hs). destruct (is_tbss c); simpl; [done|by constructor].
Qed.

Lemma create_length chunks : length (create_phdr ctx chunks) = length (phdr_vec ctx chunks).
Proof. symmetry. eapply Forall2_length, create_agree. Qed.

(** [.dynamic] is neither the padding nor the program header. *)
Definition pointers_ok : Prop :=
  (forall c, at_ptr (dynamic ctx) c = true -> padding ctx c = false /\ at_ptr (phdr_chunk ctx) c = false) /\
  (forall c, padding ctx c = true -> at_ptr (phdr_chunk ctx) c = false).

Lemma chunk_of_at l p c : chunk_of ctx l p = Some c -> at_ptr p c = true.
Proof.
  unfold chunk_of, at_ptr. destruct p as [i|]; [|done]. simpl. intros [_ Hi%Z.eqb_eq]%List.find_some.
  apply bool_decide_eq_true. by f_equal.
Qed.

Lemma phdr_vec_same l l' : pointers_ok -> Forall2 same l l' ->
  length (load_segments ctx l') = length (load_segments ctx l) -> length (phdr_vec ctx l') = length (phdr_vec ctx l).
Proof.
  intros [Hd _] H Hload. unfold phdr_vec. rewrite !length_app, <- (Forall2_length _ _ _ H), Hload, (note_same _ l l' H).
  pose proof (fun p => chunk_of_same l l' p H) as Hptr.
  rewrite (run_same _ (fun c => has c "TLS") (pt "TLS") (fun c d => same_has ctx c d "TLS") l l' H).
  repeat apply (f_equal2 Nat.add); try done.
  - apply define_same, when_same; [|done]. intros c d Ec Ed. specialize (Hptr (phdr_chunk ctx)). rewrite Ec, Ed in Hptr.
    inversion Hptr as [x y Hs|]; subst. by apply (same_has ctx).
  - by apply define_same.
  - apply define_same, when_same; [|done]. intros c d Ec Ed. pose proof (Hptr (dynamic ctx)) as Hp. rewrite Ec, Ed in Hp.
    inversion Hp as [x y Hs|]; subst. destruct (Hd c (chunk_of_at l _ c Ec)). by rewrite (same_size _ _ _ Hs).
  - by apply define_same.
  - destruct (z_relro ctx); [|done]. rewrite !length_map. apply run_same; [|done]. intros c d. apply same_relro.
  - destruct (bool_decide _); [|done]. apply define_same, find_same; [|done]. intros c d Hs.
    by rewrite (same_osec _ _ _ Hs), (same_type _ _ _ Hs).
Qed.

Lemma notes_length fuel l : (length (note_phdrs ctx fuel l) <= fuel)%nat.
Proof.
  revert l. induction fuel as [|fuel IH]; intros [|c l]; simpl; try lia. destruct (is_note c); [|specialize (IH l); lia].
  destruct (append_while _ _ _ _) as [p r]. simpl. specialize (IH r). lia.
Qed.

Lemma runs_length fuel cond type l : (length (run_phdrs ctx fuel cond type l) <= fuel)%nat.
Proof.
  revert l. induction fuel as [|fuel IH]; intros [|c l]; simpl; try lia. destruct (cond c); [|specialize (IH l); lia].
  destruct (append_while _ _ _ _) as [p r]. simpl. specialize (IH (tail r)). lia.
Qed.

Lemma loads_length fuel l : (length (load_phdrs ctx fuel l) <= fuel)%nat.
Proof.
  revert l. induction fuel as [|fuel IH]; intros [|c l]; simpl; try lia. destruct (alloc c); [|specialize (IH l); lia].
  destruct (if negb (is_bss c) then _ else _) as [p r], (append_while _ _ p r) as [p' r']. simpl. specialize (IH r'). lia.
Qed.

Lemma phdr_vec_length l : (length (phdr_vec ctx l) <= 4 * length l + 6)%nat.
Proof.
  assert (D : forall t f a c, (length (define_opt ctx t f a c) <= 1)%nat) by (by intros ? ? ? []; simpl; lia).
  unfold phdr_vec. rewrite !length_app.
  pose proof (notes_length (length l) l). pose proof (runs_length (length l) (fun c => has c "TLS") (pt "TLS") l).
  assert (length (load_segments ctx l) <= length l)%nat.
  { unfold load_segments. rewrite stable_sort_perm. etransitivity; [apply loads_length|]. apply List.filter_length_le. }
  pose proof (D (pt "PHDR") PF_R (word_size ctx) (when alloc (chunk_of ctx l (phdr_chunk ctx)))).
  pose proof (D (pt "INTERP") PF_R 1 (chunk_of ctx l (interp ctx))).
  pose proof (D (pt "DYNAMIC") (Z.lor PF_R PF_W) 1 (when (fun c => negb (sh_size c =? 0)) (chunk_of ctx l (dynamic ctx)))).
  pose proof (D (pt "GNU_EH_FRAME") PF_R 1 (chunk_of ctx l (eh_frame_hdr ctx))).
  assert (length (if z_relro ctx then map (set_align 1) (run_phdrs ctx (length l) (is_relro ctx) (pt "GNU_RELRO") l) else []) <= length l)%nat.
  { destruct (z_relro ctx); simpl; [|lia]. rewrite length_map. apply runs_length. }
  assert (length (if bool_decide (machine_type ctx = ARM32)
    then define_opt ctx (pt "ARM_EXIDX") PF_R 4 (List.find (fun c => is_osec c && (sh_type c =? sht "ARM_EXIDX")%Z) l) else []) <= 1)%nat.
  { destruct (bool_decide _); [apply D|simpl; lia]. }
  simpl length. lia.
Qed.
End Headers.

(** ** The loop ends *)

Section Loop.
Context (ctx : Context) (k room : Z).
Hypothesis Hk : 0 <= k <= 30.
Hypothesis Hpage : page_size ctx = 2 ^ k.
Hypothesis Hptr : pointers_ok ctx.
Abbreviation P := (page_size ctx).
Abbreviation same := (same ctx).
Abbreviation round_input := (round_input ctx room).
Abbreviation round_result := (round_result ctx room).

Lemma pairs_ok_cong l l' : Forall2 same l l' -> forall q q' p p', option_Forall2 same q q' -> option_Forall2 same p p' ->
  pairs_ok ctx q' p' l' = pairs_ok ctx q p l.
Proof.
  assert (C : forall q q' p p' c c', same q q' -> same p p' -> same c c' -> pair_ok ctx q' p' c' = pair_ok ctx q p c).
  { intros q q' p p' c c' Hq Hp Hc. unfold pair_ok.
    by rewrite !(same_flags_of ctx _ _ Hq), !(same_flags_of ctx _ _ Hp), !(same_flags_of ctx _ _ Hc),
      !(same_get_flags ctx _ _ Hp), !(same_get_flags ctx _ _ Hc), !(same_tbss ctx _ _ Hp), !(same_tbss ctx _ _ Hc),
      !(same_bss ctx _ _ Hp), !(same_bss ctx _ _ Hc), !(same_padding ctx _ _ Hp), !(same_padding ctx _ _ Hc). }
  induction 1 as [|c d l l' Hs H IH]; intros q q' p p' Hq Hp; [done|]. simpl. f_equal.
  - destruct Hq as [q q' Hq|], Hp as [p p' Hp|]; auto; by rewrite (same_padding ctx _ _ Hs).
  - rewrite (same_tbss ctx _ _ Hs). apply IH; [|by constructor]. destruct (is_tbss c); [done|by constructor].
Qed.

Lemma alloc_ok_same c d : same c d -> size_ok ctx room d = true -> alloc_ok ctx room c = true -> alloc_ok ctx room d = true.
Proof.
  intros Hs Hz. unfold alloc_ok, alloc.
  rewrite (same_has ctx _ _ _ Hs), (same_align _ _ _ Hs), (same_padding ctx _ _ Hs), (same_bss ctx _ _ Hs), Hz.
  rewrite !andb_true_iff. tauto.
Qed.

Lemma nonalloc_ok_same c d : same c d -> size_ok ctx room d = true -> sh_addr d = sh_addr c ->
  nonalloc_ok ctx room c = true -> nonalloc_ok ctx room d = true.
Proof.
  intros Hs Hz Ha. unfold nonalloc_ok, alloc.
  rewrite !(same_has ctx _ _ _ Hs), (same_align _ _ _ Hs), (same_padding ctx _ _ Hs), (same_nobits ctx _ _ Hs), Hz, Ha.
  rewrite !andb_true_iff. tauto.
Qed.

Lemma ids_same l l' : Forall2 same l l' -> map chunk_id l' = map chunk_id l.
Proof. induction 1 as [|c d l l' Hs _ IH]; [done|]. simpl. by rewrite IH, (same_id _ _ _ Hs). Qed.

(** The chunks of a round, with positions and sizes of another, are fit for a round. *)
Lemma round_input_same a n a' n' : round_input a n -> Forall2 same a a' -> Forall2 same n n' ->
  Forall2 (fun c d => sh_addr d = sh_addr c) n n' -> Forall (fun c => size_ok ctx room c = true) (a' ++ n') ->
  round_input a' n'.
Proof.
  intros [H1 H2 H3 H4 H5 H6 H7 H8 H9 H10] Ha Hn Haddr [Hza Hzn]%Forall_app.
  assert (Hall : Forall2 same (a ++ n) (a' ++ n')) by by apply Forall2_app.
  split; try done.
  - clear - Ha H4 Hza Hk Hpage Hptr. induction Ha as [|c d l l' Hs Ha IH]; [done|].
    apply Forall_cons in H4 as [? ?], Hza as [? ?]. constructor; [by apply (alloc_ok_same c)|auto].
  - clear - Hn H5 Hzn Haddr Hk Hpage Hptr. induction Hn as [|c d l l' Hs Hn IH]; [done|].
    apply Forall_cons in H5 as [? ?], Hzn as [? ?]. apply Forall2_cons in Haddr as [? ?].
    constructor; [by apply (nonalloc_ok_same c)|auto].
  - by rewrite (ids_same _ _ Hall).
  - rewrite <- H7. by apply pairs_ok_cong; [|constructor..].
  - intros z Hz. apply last_Some in Hz as [l' E]. rewrite E in Hall.
    apply Forall2_app_inv_r in Hall as (l1 & l2 & _ & Hl2 & E').
    apply Forall2_cons_inv_r in Hl2 as (z0 & l3 & Hs & Hl3 & ->). apply Forall2_nil_inv_r in Hl3 as ->.
    rewrite (same_tbss ctx _ _ Hs). apply H8. rewrite E'. by rewrite last_snoc.
  - destruct H9 as (c & l & -> & G1 & G2 & G3). apply Forall2_cons_inv_l in Ha as (d & l' & Hs & Hl & ->).
    exists d, l'. split; [done|]. rewrite (same_nobits ctx _ _ Hs), (same_at ctx _ _ _ Hs).
    simpl in H7. apply andb_true_iff in H7 as [Hp _]. apply negb_true_iff in Hp.
    by rewrite (same_size _ _ _ Hs).
  - by rewrite (need_same ctx room _ _ Hall).
Qed.

Lemma at_unique p l c d : NoDup (map chunk_id l) -> c ∈ l -> d ∈ l -> at_ptr p c = true -> at_ptr p d = true -> c = d.
Proof.
  unfold at_ptr. intros Hnd [i Hi]%list_elem_of_lookup [j Hj]%list_elem_of_lookup ->%bool_decide_eq_true [= E]%bool_decide_eq_true.
  assert (i = j) as ->; [|congruence]. eapply (NoDup_lookup (map chunk_id l)); [exact Hnd|..]; rewrite list_lookup_fmap.
  - by rewrite Hi.
  - rewrite Hj. simpl. by rewrite E.
Qed.

(** The chunk of the program header is in the list. *)
Definition has_phdr (l : list chunk) : Prop := Exists (fun c => at_ptr (phdr_chunk ctx) c = true) l.

Lemma has_phdr_same l l' : Forall2 same l l' -> has_phdr l -> has_phdr l'.
Proof.
  intros H. induction H as [|c d l l' Hs H IH]; intros He; [by inversion He|].
  apply Exists_cons in He as [He|He]; [left; by rewrite (same_at ctx _ _ _ Hs)|right; by apply IH].
Qed.

Lemma chunk_of_in l : has_phdr l -> exists c, chunk_of ctx l (phdr_chunk ctx) = Some c /\ c ∈ l /\ at_ptr (phdr_chunk ctx) c = true.
Proof.
  unfold has_phdr, chunk_of, at_ptr. destruct (phdr_chunk ctx) as [i|]; [|intros (c & _ & Hc)%Exists_exists; by apply bool_decide_eq_true in Hc].
  intros H. simpl. induction H as [c l Hc|c l H IH]; simpl.
  - apply bool_decide_eq_true in Hc as [= ->]. rewrite Z.eqb_refl. exists c. split; [done|]. split; [by left|].
    by apply bool_decide_eq_true.
  - destruct (Z.eqb_spec (chunk_id c) i) as [<-|_].
    + exists c. split; [done|]. split; [by left|]. by apply bool_decide_eq_true.
    + destruct IH as (d & E & Hd & Ha). exists d. split; [done|]. split; [by right|done].
Qed.

Lemma update_same n l : Forall2 same l (map (update_phdr ctx n) l).
Proof.
  induction l as [|c l IH]; simpl; constructor; [|done]. unfold update_phdr. destruct (at_ptr _ c) eqn:E; [|done].
  apply same_set_size. by right.
Qed.

Lemma update_id n l c : NoDup (map chunk_id l) -> c ∈ l -> at_ptr (phdr_chunk ctx) c = true ->
  sh_size c = word ctx (n * phdr_entry ctx) -> map (update_phdr ctx n) l = l.
Proof.
  intros Hnd Hc Ha Hz. assert (G : forall d, d ∈ l -> update_phdr ctx n d = d).
  { intros d Hd. unfold update_phdr. destruct (at_ptr _ d) eqn:E; [|done]. rewrite (at_unique _ l d c Hnd Hd Hc E Ha).
    unfold set_size. rewrite <- Hz. by destruct c. }
  clear - G. induction l as [|d l IH]; [done|]. simpl. rewrite G by left. f_equal. apply IH. intros e He. apply G. by right.
Qed.

Lemma update_sizes n l : Forall (fun c => size_ok ctx room c = true) l -> 0 <= n * phdr_entry ctx <= room -> room < limit ctx ->
  Forall (fun c => size_ok ctx room c = true) (map (update_phdr ctx n) l).
Proof.
  intros H Hn Hr. apply Forall_fmap. eapply Forall_impl; [exact H|]. intros c Hc. simpl. unfold update_phdr.
  destruct (at_ptr _ c) eqn:E; [|done].
  assert (Hp : padding ctx c = false) by (destruct (padding ctx c) eqn:Ep; [by rewrite (proj2 Hptr c Ep) in E|done]).
  unfold size_ok, weight. unfold padding, at_ptr in *. cbn [chunk_id set_size sh_size]. rewrite Hp, E, word_nowrap by lia.
  apply andb_true_iff. lia.
Qed.

Lemma need_sizes l : Forall (fun c => size_ok ctx room c = true) l -> 0 <= need ctx room l.
Proof.
  pose proof (page_bounds ctx k Hk Hpage). induction 1 as [|d l Hd%size_ok_spec _ IH]; simpl; lia.
Qed.

Lemma weight_le_need l c : Forall (fun c => size_ok ctx room c = true) l -> c ∈ l -> weight ctx room c <= need ctx room l.
Proof.
  pose proof (page_bounds ctx k Hk Hpage). induction 1 as [|d l Hd%size_ok_spec Hl IH]; intros Hc; [by apply elem_of_nil in Hc|].
  pose proof (need_sizes l Hl). simpl. apply elem_of_cons in Hc as [->|Hc]; [lia|]. specialize (IH Hc). lia.
Qed.

(** *** The result *)

(** What is known when the loop has ended: [c] and [n] are the chunks of the last round. *)
Record finished (chunks : list chunk) (r : file_layout) (a n : list chunk) : Prop := {
  fn_last : exists a0 n0, round_input a0 n0 /\ round_result a0 n0 a n (filesize r);
  fn_chunks : out_chunks r = a ++ n; fn_same : Forall2 same chunks (a ++ n);
  fn_phdrs : out_phdrs r = create_phdr ctx (a ++ n); fn_symbols : symbol_values r = [];
  fn_tls : tls_begin r = get_tls_begin (out_phdrs r) /\ tp_addr r = get_tp_addr ctx (out_phdrs r) /\
    dtp_addr r = get_dtp_addr ctx (out_phdrs r) }.

(** Room for the headers of [n] chunks. *)
Definition header_room (n : nat) : Z := phdr_entry ctx * (4 * Z.of_nat n + 6).

Lemma result_same a n a' n' fin : round_result a n a' n' fin -> Forall2 same (a ++ n) (a' ++ n').
Proof.
  intros [H1 H2 _ _ _ _ _ _ _]. apply Forall2_app; [done|]. clear - H2. induction H2 as [|c d l l' [] _ IH]; by constructor.
Qed.

Lemma result_count a n a' n' fin b m b' m' fin' : round_input a n -> round_result a n a' n' fin ->
  round_input b m -> round_result b m b' m' fin' -> Forall2 same (a' ++ n') (b' ++ m') -> Forall2 same a' b' ->
  length (create_phdr ctx (b' ++ m')) = length (create_phdr ctx (a' ++ n')).
Proof.
  intros I1 R1 I2 R2 Hs Ha. rewrite !create_length. apply phdr_vec_same; [done|done|].
  rewrite (result_segments ctx k room Hk a n a' n' fin I1 R1), (result_segments ctx k room Hk b m b' m' fin' I2 R2).
  rewrite !length_map. symmetry. eapply Forall2_length, groups_same, filter_same, Ha.
Qed.


(** A round keeps the size of the program header. *)
Lemma phdr_size a n a' n' fin c z : round_result a n a' n' fin -> c ∈ a' ++ n' -> at_ptr (phdr_chunk ctx) c = true ->
  Forall (fun c => at_ptr (phdr_chunk ctx) c = true -> sh_size c = z) (a ++ n) -> sh_size c = z.
Proof.
  intros R Hc Ha [H1 H2]%Forall_app. apply elem_of_app in Hc as [Hc|Hc].
  - pose proof (rd_loaded _ _ _ _ _ _ _ R) as L. pose proof (rd_sized _ _ _ _ _ _ _ R) as Z.
    apply list_elem_of_lookup in Hc as [i Hi]. destruct (Forall2_lookup_r _ _ _ _ _ L Hi) as (d & Hd & Hs).
    destruct (Forall2_lookup_r _ _ _ _ _ Z Hi) as (d' & Hd' & Hz). rewrite Hd in Hd'. injection Hd' as <-.
    rewrite (same_at ctx _ _ _ Hs) in Ha. unfold sized in Hz. destruct (padding ctx d) eqn:E; [by rewrite (proj2 Hptr d E) in Ha|].
    rewrite Hz. apply (proj1 (Forall_forall _ _) H1); [by apply list_elem_of_lookup_2 in Hd|done].
  - destruct (Forall2_in_r _ _ _ _ (rd_rest _ _ _ _ _ _ _ R) Hc) as (d & Hd & [Hs _ Hz]).
    rewrite (same_at ctx _ _ _ Hs) in Ha. rewrite Hz. by apply (proj1 (Forall_forall _ _) H2).
Qed.

Lemma nonneg_entry : 0 < phdr_entry ctx.
Proof. unfold phdr_entry. destruct (is_64 _); lia. Qed.

Lemma set_osec_offsets_ok a n : round_input a n -> has_phdr (a ++ n) -> room = header_room (length (a ++ n)) ->
  exists r a' n', set_osec_offsets ctx 2 (a ++ n) = Some r /\ finished (a ++ n) r a' n'.
Proof.
  intros I1 Hph Hroom. destruct (round_ok ctx k room Hk Hpage a n I1) as (a1 & n1 & f1 & E1 & R1).
  pose proof (result_same _ _ _ _ _ R1) as S1. pose proof (ri_ids _ _ _ _ I1) as Hnd.
  destruct (chunk_of_in _ (has_phdr_same _ _ S1 Hph)) as (ph & Ep & Hin & Hat).
  assert (Hnd1 : NoDup (map chunk_id (a1 ++ n1))) by (by rewrite (ids_same _ _ S1)).
  assert (Hlen : forall l, length l = length (a ++ n) -> 0 <= zlen (create_phdr ctx l) * phdr_entry ctx <= room).
  { intros l El. pose proof (phdr_vec_length ctx l) as B. unfold zlen. rewrite create_length, Hroom. unfold header_room.
    pose proof nonneg_entry. rewrite El in B. nia. }
  set (c1 := zlen (create_phdr ctx (a1 ++ n1))).
  assert (Hc1 : 0 <= c1 * phdr_entry ctx <= room) by (apply Hlen; symmetry; by eapply Forall2_length).
  assert (Hrl : room < limit ctx).
  { pose proof (ri_fits _ _ _ _ I1). pose proof (ri_base _ _ _ _ I1). pose proof (rd_sizes _ _ _ _ _ _ _ R1) as Hz.
    pose proof (weight_le_need _ ph Hz Hin) as W. rewrite (need_same ctx room _ _ S1) in W. unfold weight in W.
    rewrite Hat in W. destruct (padding ctx ph) eqn:Epad; [by rewrite (proj2 Hptr ph Epad) in Hat|].
    pose proof (need_sizes _ Hz) as N. rewrite (need_same ctx room _ _ S1) in N. lia. }
  cbn [set_osec_offsets]. rewrite E1. cbn [mbind option_bind]. rewrite Ep. fold c1.
  destruct (Z.eqb_spec (sh_size ph) (word ctx (c1 * phdr_entry ctx))) as [Ez|Ez].
  { rewrite (update_id c1 _ ph Hnd1 Hin Hat Ez). eexists _, a1, n1. split; [done|]. split; try done. by exists a, n. }
  rewrite map_app.
  set (a2 := map (update_phdr ctx c1) a1). set (n2 := map (update_phdr ctx c1) n1).
  assert (I2 : round_input a2 n2).
  { apply (round_input_same a n); [done| | | |].
    - etransitivity; [apply R1|apply update_same].
    - etransitivity; [|apply update_same]. pose proof (rd_rest _ _ _ _ _ _ _ R1) as H. clear - H.
      induction H as [|c d l l' [] _ IH]; by constructor.
    - pose proof (rd_rest _ _ _ _ _ _ _ R1) as H. unfold n2. generalize c1. clear - H. intros z.
      induction H as [|c d l l' [] _ IH]; [constructor|]. cbn [map]. constructor; [|exact IH]. unfold update_phdr. by destruct (at_ptr _ d).
    - unfold a2, n2. rewrite <- map_app. by apply update_sizes; [apply R1|..]. }
  assert (U : Forall2 same (a1 ++ n1) (a2 ++ n2)) by (unfold a2, n2; rewrite <- map_app; apply update_same).
  destruct (round_ok ctx k room Hk Hpage a2 n2 I2) as (a3 & n3 & f3 & E3 & R3). rewrite E3. cbn [mbind option_bind].
  pose proof (result_same _ _ _ _ _ R3) as S3. assert (S13 : Forall2 same (a1 ++ n1) (a3 ++ n3)) by (by etransitivity).
  assert (S : Forall2 same (a ++ n) (a3 ++ n3)) by (by etransitivity).
  destruct (chunk_of_in _ (has_phdr_same _ _ S Hph)) as (ph3 & Ep3 & Hin3 & Hat3). rewrite Ep3.
  assert (Ec : zlen (create_phdr ctx (a3 ++ n3)) = c1).
  { unfold c1, zlen. f_equal. apply (result_count a n a1 n1 f1 a2 n2 a3 n3 f3); try done.
    etransitivity; [apply update_same|apply R3]. }
  rewrite Ec.
  assert (Ez3 : sh_size ph3 = word ctx (c1 * phdr_entry ctx)).
  { apply (phdr_size a2 n2 a3 n3 f3); [done|done|done|]. unfold a2, n2. rewrite <- map_app. apply Forall_fmap, Forall_forall.
    intros c _ Hc. simpl in *. unfold update_phdr in *. by destruct (at_ptr (phdr_chunk ctx) c) eqn:E; [|rewrite E in Hc]. }
  rewrite Ez3, Z.eqb_refl. assert (Hnd3 : NoDup (map chunk_id (a3 ++ n3))) by (by rewrite (ids_same _ _ S)).
  rewrite (update_id c1 _ ph3 Hnd3 Hin3 Hat3 Ez3). eexists _, a3, n3. split; [done|]. split; try done. by exists a2, n2.
Qed.
End Loop.

Section Theorems.
Context (ctx : Context) (k : Z).
Hypothesis Hk : 0 <= k <= 30.
Hypothesis Hpage : page_size ctx = 2 ^ k.
Abbreviation P := (page_size ctx).

(** [c] comes before [d] in a list. *)
Definition precedes {A} (l : list A) (c d : A) : Prop := exists l1 l2, l = l1 ++ c :: l2 /\ d ∈ l2.

Lemma top_limit room a0 n0 a n fin : round_input ctx room a0 n0 -> round_result ctx room a0 n0 a n fin ->
  top ctx room a0 n0 < limit ctx.
Proof.
  intros I R. pose proof (ri_fits _ _ _ _ I). pose proof (ri_base _ _ _ _ I). unfold top.
  pose proof (rd_sizes _ _ _ _ _ _ _ R) as Hz. pose proof (need_sizes ctx k room Hk Hpage _ Hz) as N.
  rewrite (need_same ctx room _ _ (result_same ctx room _ _ _ _ _ R)) in N. lia.
Qed.

Lemma chained_end q l c : chained ctx (Some q) l -> c ∈ l -> Forall (fun c => 0 <= sh_size c) l ->
  end_of q <= sh_addr c.
Proof.
  revert q. induction l as [|d l IH]; intros q Hl Hc Hs; [by apply elem_of_nil in Hc|].
  destruct Hl as [[[H1 _ _] _] Hl]. apply Forall_cons in Hs as [Hd Hs]. apply elem_of_cons in Hc as [->|Hc]; [done|].
  specialize (IH d Hl Hc Hs). unfold end_of in *. lia.
Qed.

Lemma chained_page q l c : chained ctx (Some q) l -> c ∈ l -> Forall (fun c => 0 <= sh_size c) l ->
  flags_of ctx q <> flags_of ctx c -> end_of q <= floor ctx (sh_addr c).
Proof.
  revert q. induction l as [|d l IH]; intros q Hl Hc Hs Hf; [by apply elem_of_nil in Hc|].
  destruct Hl as [[[H1 H2 _] _] Hl]. apply Forall_cons in Hs as [Hd Hs]. apply elem_of_cons in Hc as [->|Hc].
  - by destruct H2 as [|[]].
  - destruct (Z.eq_dec (flags_of ctx d) (flags_of ctx c)) as [E|E].
    + pose proof (floor_mono ctx k Hk Hpage (sh_addr d) (sh_addr c)) as M.
      pose proof (chained_end d l c Hl Hc Hs). destruct H2 as [H2|[H2 _]]; [|congruence].
      unfold end_of in *. lia.
    + specialize (IH d Hl Hc Hs E). unfold end_of in *. lia.
Qed.

Section Done.
Context (room : Z) (chunks : list chunk) (r : file_layout) (a n : list chunk).
Hypothesis Hfin : finished ctx room chunks r a n.

Lemma done_load file c j : c ∈ a -> is_tbss c = false -> 0 <= j < sh_size c ->
  load P file (out_phdrs r) (sh_addr c + j) = Some (if is_bss c then 0 else file (sh_offset c + j), to_phdr_flags ctx c).
Proof.
  intros Hc Ht Hj. destruct Hfin as [(a0 & n0 & I & R) _ _ -> _ _]. rewrite create_load.
  apply (segments_load ctx (top ctx room a0 n0)) with (k := k) (l := loadable_chunks a) (q0 := None); try done.
  - by apply (top_limit room a0 n0 a n (filesize r)).
  - by apply (result_chained ctx k room Hk a0 n0 a n (filesize r)).
  - by apply (result_sound ctx k room Hk a0 n0 a n (filesize r)).
  - by apply (result_segments ctx k room Hk a0 n0 a n (filesize r)).
  - by apply loadable_in.
Qed.

Lemma other_not_load l1 l2 (p : phdr) l : Forall (fun p => p_type p <> pt "LOAD") l1 -> Forall (fun p => p_type p <> pt "LOAD") l2 ->
  p ∈ l1 ++ l ++ l2 -> p_type p = pt "LOAD" -> p ∈ l.
Proof.
  intros H1 H2 Hp Ht. apply elem_of_app in Hp as [Hp|Hp]; [by destruct (proj1 (Forall_forall _ _) H1 _ Hp)|].
  apply elem_of_app in Hp as [Hp|Hp]; [done|by destruct (proj1 (Forall_forall _ _) H2 _ Hp)].
Qed.

Lemma done_loadable : Forall (loadable P) (out_phdrs r).
Proof.
  destruct Hfin as [(a0 & n0 & I & R) _ _ -> _ _]. apply Forall_forall. intros q Hq Ht.
  destruct (Forall2_in_r _ _ _ _ (create_agree ctx (a ++ n)) Hq) as (p & Hp & x & ->). simpl in Ht |- *.
  destruct (phdr_vec_parts ctx (a ++ n)) as (l1 & l2 & H1 & H2 & E). rewrite E in Hp.
  pose proof (other_not_load l1 l2 p _ H1 H2 Hp Ht) as Hl.
  rewrite (result_segments ctx k room Hk a0 n0 a n (filesize r) I R) in Hl. apply list_elem_of_fmap in Hl as (g & -> & Hg).
  destruct (groups_spec ctx _ None (result_chained ctx k room Hk a0 n0 a n (filesize r) I R)) as (G1 & _ & G3).
  pose proof (result_sound ctx k room Hk a0 n0 a n (filesize r) I R) as Hs.
  assert (Hgood : good_group ctx (top ctx room a0 n0) g).
  { split; [|by apply (proj1 (Forall_forall _ _) G1)]. apply Forall_forall. intros d Hd.
    apply (proj1 (Forall_forall _ _) Hs). rewrite <- G3. apply elem_of_concat. exists (g.1 :: g.2). split; [|done].
    apply list_elem_of_fmap. by exists g. }
  pose proof (top_limit room a0 n0 a n (filesize r) I R) as Htop.
  pose proof (good_covers ctx _ Htop g Hgood) as C. split; apply C.
Qed.

Lemma precedes_filter f (l : list chunk) c d : precedes l c d -> f c = true -> f d = true -> precedes (List.filter f l) c d.
Proof.
  intros (l1 & l2 & -> & Hd) Hc Hfd. rewrite List.filter_app. simpl. rewrite Hc. eexists _, _. split; [done|].
  apply list_elem_of_In, List.filter_In. by rewrite <- list_elem_of_In.
Qed.

Lemma done_memory c d : precedes a c d -> is_tbss c = false -> is_tbss d = false ->
  end_of c <= sh_addr d /\ (to_phdr_flags ctx c <> to_phdr_flags ctx d -> end_of c <= floor ctx (sh_addr d)).
Proof.
  destruct Hfin as [(a0 & n0 & I & R) _ _ _ _ _]. intros Hp Hc Hd.
  destruct (precedes_filter (fun c => negb (is_tbss c)) a c d Hp) as (l1 & l2 & E & Hin); [by rewrite Hc|by rewrite Hd|].
  pose proof (result_chained ctx k room Hk a0 n0 a n (filesize r) I R) as Hch. rewrite E in Hch.
  destruct (chained_suffix ctx None l1 (c :: l2) Hch) as [q [_ Hl2]].
  pose proof (result_sound ctx k room Hk a0 n0 a n (filesize r) I R) as Hs. rewrite E in Hs.
  apply Forall_app in Hs as [_ [_ Hs]%Forall_cons].
  assert (Hz : Forall (fun c => 0 <= sh_size c) l2) by (eapply Forall_impl; [exact Hs|]; by intros x ((_ & ? & _) & _)).
  split; [by apply (chained_end c l2)|]. by apply (chained_page c l2).
Qed.

Lemma done_file c d : precedes (a ++ n) c d -> in_file c = true -> in_file d = true -> end_off c <= sh_offset d.
Proof.
  destruct Hfin as [(a0 & n0 & I & R) _ _ _ _ _]. intros (l1 & l2 & E & Hd) Hc Hdf.
  pose proof (rd_filed _ _ _ _ _ _ _ R) as F. pose proof (result_sizes ctx k room a0 n0 a n (filesize r) I R) as Z.
  rewrite E in F, Z. by eapply filed_order.
Qed.

Lemma done_in c : c ∈ a ++ n -> in_file c = true ->
  0 <= sh_offset c /\ end_off c <= filesize r /\ (alloc c = true -> sh_offset c mod P = sh_addr c mod P).
Proof.
  destruct Hfin as [(a0 & n0 & I & R) _ _ _ _ _]. intros Hc Hi.
  pose proof (result_sizes ctx k room a0 n0 a n (filesize r) I R) as Hz. pose proof (rd_filed _ _ _ _ _ _ _ R) as Hf.
  eapply filed_in in Hf as (H1 & H2 & H3 & _); [done|done|done|exact Hc|done].
Qed.

Lemma done_aligned : Forall (aligned ctx) a.
Proof. destruct Hfin as [(a0 & n0 & I & R) _ _ _ _ _]. apply R. Qed.
End Done.
End Theorems.

(** ** What the layout is for *)

(** The hypotheses of the theorems, on the chunks [a] that are loaded and those [n] that
    are not, in the order of [sort_output_sections_regular]. *)
Record layout_input (ctx : Context) (k : Z) (a n : list chunk) : Prop := {
  li_page : 0 <= k <= 30 /\ page_size ctx = 2 ^ k; li_pointers : pointers_ok ctx;
  li_round : round_input ctx (header_room ctx (length (a ++ n))) a n; li_phdr : has_phdr ctx (a ++ n) }.

(** C1: for every machine and every mode of [-z separate-code], if no section has an address
    of its own, alignments are powers of two up to a page and everything fits in the address
    space, [set_osec_offsets] ends after at most two rounds, and then a loader that maps
    the [PT_LOAD] segments page by page accepts the headers and puts every byte of every
    loaded chunk (its contents in the file, or zero for BSS) at its address, with the
    permissions of the chunk: no segment overwrites a page of another. *)
Theorem set_osec_offsets_loads (ctx : Context) (k : Z) (a n : list chunk) :
  layout_input ctx k a n ->
  exists r a' n', set_osec_offsets ctx 2 (a ++ n) = Some r /\ out_chunks r = a' ++ n' /\
    Forall2 (same ctx) (a ++ n) (a' ++ n') /\ Forall (loadable (page_size ctx)) (out_phdrs r) /\
    (forall file c j, c ∈ a' -> is_tbss c = false -> 0 <= j < sh_size c ->
      load (page_size ctx) file (out_phdrs r) (sh_addr c + j) =
        Some (if is_bss c then 0 else file (sh_offset c + j), to_phdr_flags ctx c)).
Proof.
  intros [[Hk Hpage] Hptr Hin Hph].
  destruct (set_osec_offsets_ok ctx k _ Hk Hpage Hptr a n Hin Hph eq_refl) as (r & a' & n' & E & F).
  exists r, a', n'. split; [done|]. split; [apply F|]. split; [apply F|].
  split; [by eapply done_loadable|]. intros. by eapply done_load.
Qed.

(** C6: under the same hypotheses the chunks of the result are where they should be:
    every chunk is aligned; loaded chunks other than TLS BSS come in order without
    overlap in memory, and on pages of their own where their permissions differ; the
    contents come in order without overlap in the file and end at the size that is
    returned, with offsets congruent to addresses modulo the page size. *)
Theorem set_osec_offsets_places (ctx : Context) (k : Z) (a n : list chunk) :
  layout_input ctx k a n ->
  exists r a' n', set_osec_offsets ctx 2 (a ++ n) = Some r /\ out_chunks r = a' ++ n' /\
    Forall (aligned ctx) a' /\
    (forall c d, precedes a' c d -> is_tbss c = false -> is_tbss d = false ->
      end_of c <= sh_addr d /\ (to_phdr_flags ctx c <> to_phdr_flags ctx d -> end_of c <= floor ctx (sh_addr d))) /\
    (forall c d, precedes (a' ++ n') c d -> in_file c = true -> in_file d = true -> end_off c <= sh_offset d) /\
    (forall c, c ∈ a' ++ n' -> in_file c = true -> 0 <= sh_offset c /\ end_off c <= filesize r /\
      (alloc c = true -> sh_offset c mod page_size ctx = sh_addr c mod page_size ctx)).
Proof.
  intros [[Hk Hpage] Hptr Hin Hph].
  destruct (set_osec_offsets_ok ctx k _ Hk Hpage Hptr a n Hin Hph eq_refl) as (r & a' & n' & E & F).
  exists r, a', n'. split; [done|]. split; [apply F|]. split; [by eapply done_aligned|].
  split; [intros; by eapply done_memory|]. split; intros; [by eapply done_file|by eapply done_in].
Qed.

(** An executable with read-only data, code, TLS, RELRO, data and BSS. *)
Definition ex_chunk (i : Z) (name : string) (type flags align size : Z) : chunk :=
  mkChunk i true (bs name) type flags align size 0 0 0.
Definition ex_context (sep : separate_code_kind) (relro : bool) (pad : option Z) : Context :=
  mkContext X86_64 4096 0x200000 None false false true sep relro false false ∅ [] []
    (Some 0) (Some 1) (Some 99) None None None None None None None None None (Some 5) None None pad None.
Definition ex_loaded : list chunk :=
  let A := shf "ALLOC" in let W := shf "WRITE" in let X := shf "EXECINSTR" in let T := shf "TLS" in
  let bits := sht "PROGBITS" in let bss := sht "NOBITS" in
  [ex_chunk 0 "EHDR" 0 A 8 64; ex_chunk 1 "PHDR" 0 A 8 0; ex_chunk 2 ".rodata" bits A 16 1000;
   ex_chunk 3 ".text" bits (A + X) 16 5001; ex_chunk 4 ".tdata" bits (A + W + T) 8 12;
   ex_chunk 6 ".tbss" bss (A + W + T) 32 64; ex_chunk 5 ".got" bits (A + W) 8 24;
   ex_chunk 7 ".relro_padding" bss (A + W) 1 1; ex_chunk 8 ".data" bits (A + W) 8 100;
   ex_chunk 9 ".bss" bss (A + W) 64 9999].
Definition ex_rest : list chunk := [ex_chunk 10 ".comment" (sht "PROGBITS") 0 1 57; ex_chunk 99 "SHDR" 0 0 8 704].

Lemma ex_input : layout_input (ex_context SEPARATE_CODE true (Some 7)) 12 ex_loaded ex_rest.
Proof.
  split.
  - by vm_compute.
  - split; intros c H%bool_decide_eq_true; simpl in H; [done|]. injection H as H. apply bool_decide_eq_false.
    simpl. intros [= E]. congruence.
  - split; [done|done|done| | | |by vm_compute| | |by vm_compute].
    + apply Forall_forall. intros c Hc%list_elem_of_In. revert c Hc. apply List.forallb_forall. by vm_compute.
    + apply Forall_forall. intros c Hc%list_elem_of_In. revert c Hc. apply List.forallb_forall. by vm_compute.
    + decided.
    + intros z [= <-]. done.
    + eexists _, _. split; [done|]. by vm_compute.
  - right. left. by vm_compute.
Qed.

Lemma set_osec_offsets_loads_witness :
  exists r a' n', set_osec_offsets (ex_context SEPARATE_CODE true (Some 7)) 2 (ex_loaded ++ ex_rest) = Some r /\
    out_chunks r = a' ++ n' /\ Forall2 (same (ex_context SEPARATE_CODE true (Some 7))) (ex_loaded ++ ex_rest) (a' ++ n') /\
    Forall (loadable 4096) (out_phdrs r) /\
    (forall file c j, c ∈ a' -> is_tbss c = false -> 0 <= j < sh_size c ->
      load 4096 file (out_phdrs r) (sh_addr c + j) =
        Some (if is_bss c then 0 else file (sh_offset c + j), to_phdr_flags (ex_context SEPARATE_CODE true (Some 7)) c)).
Proof. exact (set_osec_offsets_loads (ex_context SEPARATE_CODE true (Some 7)) 12 ex_loaded ex_rest ex_input). Defined.

Lemma set_osec_offsets_places_witness :
  exists r a' n', set_osec_offsets (ex_context SEPARATE_CODE true (Some 7)) 2 (ex_loaded ++ ex_rest) = Some r /\
    out_chunks r = a' ++ n' /\ Forall (aligned (ex_context SEPARATE_CODE true (Some 7))) a' /\
    (forall c d, precedes a' c d -> is_tbss c = false -> is_tbss d = false ->
      end_of c <= sh_addr d /\
      (to_phdr_flags (ex_context SEPARATE_CODE true (Some 7)) c <> to_phdr_flags (ex_context SEPARATE_CODE true (Some 7)) d ->
       end_of c <= floor (ex_context SEPARATE_CODE true (Some 7)) (sh_addr d))) /\
    (forall c d, precedes (a' ++ n') c d -> in_file c = true -> in_file d = true -> end_off c <= sh_offset d) /\
    (forall c, c ∈ a' ++ n' -> in_file c = true -> 0 <= sh_offset c /\ end_off c <= filesize r /\
      (alloc c = true -> sh_offset c mod 4096 = sh_addr c mod 4096)).
Proof. exact (set_osec_offsets_places (ex_context SEPARATE_CODE true (Some 7)) 12 ex_loaded ex_rest ex_input). Defined.

(** ** A loop without end

    Without the padding, with [-z norelro], the end of the RELRO chunks adds a page only if
    the address is not a multiple of the page size, and then there is one more segment, whose
    header moves the address. *)
Definition div_context (separate_code : bool) : Context := ex_context (if separate_code then SEPARATE_CODE else NOSEPARATE_CODE) false None.
Definition div_chunks : list chunk :=
  let A := shf "ALLOC" in let W := shf "WRITE" in let bits := sht "PROGBITS" in
  [ex_chunk 0 "EHDR" 0 A 8 64; ex_chunk 1 "PHDR" 0 A 8 224; ex_chunk 4 ".data.rel.ro" bits (A + W) 8 3752;
   ex_chunk 8 ".data" bits (A + W) 8 100; ex_chunk 99 "SHDR" 0 0 8 640].

(** A round of the loop that finds room for [n] program headers, places all chunks, has to
    write [n'] headers and goes on with [l']. *)
Definition goes_on (ctx : Context) (n n' : Z) (l l' : list chunk) : Prop :=
  exists placed syms fileoff ph, set_addresses_and_offsets ctx l = Some (placed, syms, fileoff) /\
    chunk_of ctx placed (phdr_chunk ctx) = Some ph /\ sh_size ph = n * phdr_entry ctx /\
    zlen (create_phdr ctx placed) = n' /\ l' = map (update_phdr ctx n') placed.

Lemma goes_on_rounds ctx n n' l l' fuel : goes_on ctx n n' l l' -> n * phdr_entry ctx <> word ctx (n' * phdr_entry ctx) ->
  set_osec_offsets ctx (S fuel) l = set_osec_offsets ctx fuel l'.
Proof.
  intros (placed & syms & fileoff & ph & E1 & E2 & E3 & E4 & ->) Hne. cbn [set_osec_offsets]. rewrite E1. cbn [mbind option_bind]. rewrite E2, E3, E4.
  destruct (Z.eqb_spec (n * phdr_entry ctx) (word ctx (n' * phdr_entry ctx))); [done|reflexivity].
Qed.

(** What a round makes of the chunks: the size of the program header chunk that it finds, the
    number of headers, and the chunks of the next round. *)
Definition one_round (ctx : Context) (l : list chunk) : option (Z * Z * list chunk) :=
  '(placed, _, _) ← set_addresses_and_offsets ctx l;
  ph ← chunk_of ctx placed (phdr_chunk ctx);
  let n := zlen (create_phdr ctx placed) in
  Some (sh_size ph, n, map (update_phdr ctx n) placed).

Lemma one_round_goes_on ctx n n' l l' : one_round ctx l = Some (n * phdr_entry ctx, n', l') -> goes_on ctx n n' l l'.
Proof.
  unfold one_round, goes_on. destruct (set_addresses_and_offsets ctx l) as [[[placed syms] off]|]; [|done]. cbn [mbind option_bind].
  destruct (chunk_of ctx placed (phdr_chunk ctx)) as [ph|] eqn:E; [|done]. cbn [mbind option_bind]. intros [= H1 H2 H3]. exists placed, syms, off, ph. by rewrite H2 in *.
Qed.

(** The number of headers that there is room for at the start of round [k], and the chunks
    then, which are the same every other round. *)
Definition div_headers (k : nat) : Z := if Nat.even k then 4 else 5.
Definition div_next (l : list chunk) : list chunk := match one_round (div_context true) l with Some (_, _, l) => l | None => [] end.
Definition div_five : list chunk := Eval vm_compute in div_next div_chunks.
Definition div_four : list chunk := Eval vm_compute in div_next div_five.
Definition div_state (k : nat) : list chunk := match k with O => div_chunks | S k => if Nat.even k then div_five else div_four end.

Lemma div_start b : one_round (div_context b) div_chunks = Some (4 * phdr_entry (div_context b), 5, div_five).
Proof. destruct b; vm_cast_no_check (eq_refl (Some (224, 5, div_five))). Qed.
Lemma div_shrinks b : one_round (div_context b) div_five = Some (5 * phdr_entry (div_context b), 4, div_four).
Proof. destruct b; vm_cast_no_check (eq_refl (Some (280, 4, div_four))). Qed.
Lemma div_grows b : one_round (div_context b) div_four = Some (4 * phdr_entry (div_context b), 5, div_five).
Proof. destruct b; vm_cast_no_check (eq_refl (Some (224, 5, div_five))). Qed.

Lemma div_round b k : goes_on (div_context b) (div_headers k) (div_headers (S k)) (div_state k) (div_state (S k)).
Proof.
  destruct k as [|k]; [apply one_round_goes_on, div_start|]. unfold div_headers, div_state. change (Nat.even (S (S k))) with (Nat.even k).
  rewrite Nat.even_succ, <- Nat.negb_even. destruct (Nat.even k); cbn [negb]; apply one_round_goes_on; [apply div_shrinks|apply div_grows].
Qed.

(** C38: the loop of [set_osec_offsets] need not end. On the chunks of a small program that is
    linked with [-z norelro] and [-z separate-code] or [-z noseparate-code] (the default),
    no round fails, and they alternate forever: with room for four program headers the
    RELRO data does not end at a page, so that the data gets a segment of its own and five
    headers are needed; with room for five it does, and four are enough. So no number of
    rounds gives a result. *)
Theorem set_osec_offsets_diverges (separate_code : bool) :
  (exists s : nat -> list chunk, s 0%nat = div_chunks /\ forall k, goes_on (div_context separate_code) (div_headers k) (div_headers (S k)) (s k) (s (S k))) /\
  (forall fuel, set_osec_offsets (div_context separate_code) fuel div_chunks = None).
Proof.
  split; [exists div_state; split; [done|]; apply div_round|]. intros fuel. change div_chunks with (div_state 0). generalize 0%nat.
  induction fuel as [|fuel IH]; intros k; [done|]. rewrite (goes_on_rounds _ _ _ _ _ fuel (div_round separate_code k)); [apply IH|].
  unfold div_headers. rewrite Nat.even_succ, <- Nat.negb_even. by destruct separate_code, (Nat.even k).
Qed.

(** ** Thread-local variables

    The ABIs say where the thread pointer of a thread points, when [block] is the start of
    its copy of the TLS segment [p] of the executable. *)
Definition round_up (x a : Z) : Z := a * ((x + a - 1) / a).

Definition runtime_tp (m : machine) (p : phdr) (block : Z) : Z :=
  match m with
  | X86_64 | I386 | SPARC64 | S390X => block + round_up (p_memsz p) (p_align p)
  | ARM64 | ALPHA => block - round_up 16 (p_align p)
  | ARM32 | SH4 => block - round_up 8 (p_align p)
  | PPC32 | PPC64V1 | PPC64V2 | M68K => block + 0x7000
  | RV64LE | RV64BE | RV32LE | RV32BE => block
  end.

(** The argument of [__tls_get_addr] that means the start of the block. *)
Definition runtime_dtp (m : machine) (block : Z) : Z :=
  match m with
  | PPC32 | PPC64V1 | PPC64V2 | M68K => block + 0x8000
  | RV64LE | RV64BE | RV32LE | RV32BE => block + 0x800
  | _ => block
  end.

Lemma round_up_shift b x j : 0 <= j -> b mod 2 ^ j = 0 -> round_up (b + x) (2 ^ j) = b + round_up x (2 ^ j).
Proof.
  intros Hj Hb. unfold round_up. assert (0 < 2 ^ j) by (apply Z.pow_pos_nonneg; lia).
  apply Z.mod_divide in Hb as [z ->]; [|lia].
  replace (z * 2 ^ j + x + 2 ^ j - 1) with (x + 2 ^ j - 1 + z * 2 ^ j) by lia. rewrite Z.div_add by lia. lia.
Qed.

Lemma align_to_round v j : 0 <= v <= 2 ^ 62 -> 0 <= j <= 62 -> align_to v (2 ^ j) = round_up v (2 ^ j).
Proof.
  intros Hv Hj. assert (0 < 2 ^ j <= 2 ^ 62) by (split; [apply Z.pow_pos_nonneg; lia|apply Z.pow_le_mono_r; lia]).
  rewrite align_to_wrap; [|unfold is_u; lia|lia]. unfold u64. rewrite wrap_small by (unfold is_u; lia). done.
Qed.

Lemma align_down_round v x j : 0 <= v - x -> 0 <= x -> v <= 2 ^ 62 -> 0 <= j <= 62 -> v mod 2 ^ j = 0 ->
  align_down (v - x) (2 ^ j) = v - round_up x (2 ^ j).
Proof.
  intros H1 H2 H3 Hj Hm. assert (0 < 2 ^ j) by (apply Z.pow_pos_nonneg; lia).
  rewrite align_down_spec; [|unfold is_u; lia|lia]. unfold round_up.
  apply Z.mod_divide in Hm as [z ->]; [|lia].
  replace (z * 2 ^ j - x) with (- x + z * 2 ^ j) by lia. rewrite Z.div_add by lia.
  enough (- x / 2 ^ j = - ((x + 2 ^ j - 1) / 2 ^ j)) by lia.
  rewrite <- (Z.opp_involutive (- x / 2 ^ j)). f_equal.
  symmetry. pose proof (Z.div_mod x (2 ^ j) ltac:(lia)). pose proof (Z.mod_pos_bound x (2 ^ j) ltac:(lia)).
  pose proof (Z.div_mod (- x) (2 ^ j) ltac:(lia)). pose proof (Z.mod_pos_bound (- x) (2 ^ j) ltac:(lia)).
  pose proof (Z.div_mod (x + 2 ^ j - 1) (2 ^ j) ltac:(lia)). pose proof (Z.mod_pos_bound (x + 2 ^ j - 1) (2 ^ j) ltac:(lia)).
  nia.
Qed.

(** offsets from the thread pointer and from the dynamic thread pointer are the same
    at link time and at run time: for every machine, the address of a thread-local variable
    less [tp_addr] (or [dtp_addr]) is its distance from the thread pointer of the running
    thread, wherever the block of the thread is. *)
Theorem tls_offsets_hold (ctx : Context) (phdrs : list phdr) (p : phdr) (j block a : Z) :
  get_tls_segment phdrs = Some p -> 0 <= j <= 30 -> p_align p = 2 ^ j -> p_vaddr p mod 2 ^ j = 0 ->
  0x8000 <= p_vaddr p -> 0 <= p_memsz p -> p_vaddr p + p_memsz p + 0x8000 < limit ctx ->
  let m := machine_type ctx in
  let variable := block + (a - get_tls_begin phdrs) in
  a - get_tp_addr ctx phdrs = variable - runtime_tp m p block /\
  a - get_dtp_addr ctx phdrs = variable - runtime_dtp m block.
Proof.
  intros Hp Hj Ha Hm Hlo Hsz Hhi m variable. unfold variable, get_tls_begin, get_tp_addr, get_dtp_addr. rewrite Hp, Ha.
  pose proof (limit_61 ctx) as Hl. rewrite !word_nowrap by lia.
  assert (Hup : align_to (p_vaddr p + p_memsz p) (2 ^ j) = p_vaddr p + round_up (p_memsz p) (2 ^ j)).
  { rewrite align_to_round by lia. apply round_up_shift; [lia|done]. }
  assert (Hdn : forall x, 0 <= x <= 16 -> align_down (u64 (p_vaddr p - x)) (2 ^ j) = p_vaddr p - round_up x (2 ^ j)).
  { intros x Hx. rewrite u64_nowrap by lia. apply align_down_round; lia || done. }
  unfold runtime_tp, runtime_dtp, word_size, variable, m. rewrite Ha.
  destruct (machine_type ctx);
    repeat match goal with
    | |- context [bool_decide ?b] => let v := eval vm_compute in (bool_decide b) in change (bool_decide b) with v
    | |- context [is_64 ?t] => let v := eval vm_compute in (is_64 t) in change (is_64 t) with v
    | |- context [?f ?m] => is_constructor m; let v := eval vm_compute in (f m) in
        lazymatch v with true => change (f m) with v | false => change (f m) with v end
    end; cbn [orb]; cbv iota; rewrite ?Hup; change (8 * 2) with 16; change (4 * 2) with 8;
    rewrite ?Hdn by lia; lia.
Qed.

Definition ex_tls : phdr := mkPhdr (pt "TLS") PF_R 12288 2109440 2109440 12 96 32.

Lemma tls_offsets_hold_witness :
  let ctx := ex_context SEPARATE_CODE true (Some 7) in
  2109450 - get_tp_addr ctx [ex_tls] = 0x7f0000001000 + (2109450 - get_tls_begin [ex_tls]) - runtime_tp X86_64 ex_tls 0x7f0000001000 /\
  2109450 - get_dtp_addr ctx [ex_tls] = 0x7f0000001000 + (2109450 - get_tls_begin [ex_tls]) - runtime_dtp X86_64 0x7f0000001000.
Proof.
  apply (tls_offsets_hold (ex_context SEPARATE_CODE true (Some 7)) [ex_tls] ex_tls 5 0x7f0000001000 2109450); by vm_compute.
Defined.

(** The example is in the order that the sort gives. *)
Example ex_sorted : sort_output_sections (ex_context SEPARATE_CODE true (Some 7)) (reverse (ex_loaded ++ ex_rest)) =
  (ex_loaded ++ ex_rest, true).
Proof. by vm_compute. Qed.
