(* ===== verification/ConcurrentMap.v ===== *)
(** * The concurrent hash map (ConcurrentMap of src/common/common.h)

    Threads insert keys at the same time, without a lock: a bucket is taken by a
    compare-and-swap and published when its value has been written. The operation is a
    state machine per thread; a run interleaves the steps of any number of threads. The
    theorem: whatever the schedule, a key has one bucket, all its insertions return that
    bucket, and one of them reports that it is new. *)

From S2P Require Import Prelude Bits.
Local Open Scope list_scope.
Local Open Scope Z_scope.

Definition MIN_NBUCKETS : Z := 2048.
Definition NUM_SHARDS : Z := 16.
Definition MAX_RETRY : nat := 128.

(** [keys[i]]: null, the marker, or a key. *)
Inductive bucket := Free | Busy | Key (k : bytes).

#[export] Instance bucket_eq_dec : EqDecision bucket.
Proof. solve_decision. Defined.

(** [insert], between its accesses to the table: about to load, to swap, to write the value
    and to publish the key; [Full] is the failed assertion. *)
Inductive phase := Load | Swap | Write | Publish | Done (inserted : bool) | Full.

Record thread := mkThread { t_key : bytes; t_idx : Z; t_retry : nat; t_phase : phase }.

Section Map.
Context {V : Type} (nbuckets : Z).

(** Values are not initialized before their bucket is taken. *)
Record map_state := mkMap { keys : list bucket; values : list (option V) }.

Definition map_resize (n : Z) : option Z := (fun x => Z.max MIN_NBUCKETS x) <$> bit_ceil n.
Definition new_map : map_state := mkMap (replicate (Z.to_nat nbuckets) Free) (replicate (Z.to_nat nbuckets) None).

Definition shard_mask : Z := nbuckets / NUM_SHARDS - 1.
Definition next_idx (idx : Z) : Z := Z.lor (Z.land idx (Z.lnot shard_mask)) (Z.land (idx + 1) shard_mask).
Definition start_idx (hash : Z) : Z := Z.land hash (nbuckets - 1).

Definition start_insert (key : bytes) (hash : Z) : thread := mkThread key (start_idx hash) 0 Load.

Definition at_phase (p : phase) (t : thread) : thread := mkThread (t_key t) (t_idx t) (t_retry t) p.

(** The bucket has another key. *)
Definition retry_next (t : thread) : thread :=
  mkThread (t_key t) (next_idx (t_idx t)) (S (t_retry t)) (if (S (t_retry t) <? MAX_RETRY)%nat then Load else Full).

(** One step; [spurious]: the weak compare-and-swap fails without a reason. [None]: the
    operation is over, or the index is outside the table. *)
Definition advance (val : V) (spurious : bool) (m : map_state) (t : thread) : option (map_state * thread) :=
  let i := Z.to_nat (t_idx t) in
  match t_phase t with
  | Load =>
      b ← keys m !! i;
      match b with
      | Busy => Some (m, t)
      | Free => Some (m, at_phase Swap t)
      | Key k => if decide (k = t_key t) then Some (m, at_phase (Done false) t) else Some (m, retry_next t)
      end
  | Swap =>
      b ← keys m !! i;
      match b with
      | Free => if spurious then Some (m, at_phase Load t) else Some (mkMap (<[i := Busy]> (keys m)) (values m), at_phase Write t)
      | _ => Some (m, at_phase Load t)
      end
  | Write => Some (mkMap (keys m) (<[i := Some val]> (values m)), at_phase Publish t)
  | Publish => Some (mkMap (<[i := Key (t_key t)]> (keys m)) (values m), at_phase (Done true) t)
  | Done _ | Full => None
  end.

(** A step of one of the threads. *)
Definition advance_at (val : V) (c : nat * bool) (s : map_state * list thread) : option (map_state * list thread) :=
  t ← s.2 !! c.1; '(m, t') ← advance val c.2 s.1 t; Some (m, <[c.1 := t']> s.2).

Definition step (val : V) (s s' : map_state * list thread) : Prop := exists c, advance_at val c s = Some s'.

(** ** The buckets that a key can have *)

Fixpoint probe (hash : Z) (r : nat) : Z := match r with O => start_idx hash | S r => next_idx (probe hash r) end.

Definition shard_size : Z := nbuckets / NUM_SHARDS.
Definition shard_of (idx : Z) : Z := idx / shard_size.

Section Probes.
Context (n : Z) (Hn : 11 <= n) (Hnb : nbuckets = 2 ^ n).

Lemma shard_size_pow : shard_size = 2 ^ (n - 4).
Proof. unfold shard_size, NUM_SHARDS. rewrite Hnb. replace n with (n - 4 + 4) at 1 by lia. rewrite Z.pow_add_r by lia. change (2 ^ 4) with 16. by rewrite Z.div_mul. Qed.

Lemma shard_size_large : Z.of_nat MAX_RETRY <= shard_size.
Proof. rewrite shard_size_pow. change (Z.of_nat MAX_RETRY) with (2 ^ 7). apply Z.pow_le_mono_r; lia. Qed.

Lemma nbuckets_shards : nbuckets = NUM_SHARDS * shard_size.
Proof. rewrite shard_size_pow, Hnb. unfold NUM_SHARDS. change 16 with (2 ^ 4). rewrite <- Z.pow_add_r by lia. f_equal. lia. Qed.

Lemma next_idx_value idx : 0 <= idx -> next_idx idx = shard_size * (idx / shard_size) + (idx + 1) mod shard_size.
Proof.
  intros Hi. unfold next_idx, shard_mask. fold shard_size. rewrite shard_size_pow. set (k := n - 4). assert (0 <= k) by (unfold k; lia).
  replace (2 ^ k - 1) with (Z.ones k) by (rewrite Z.ones_equiv; lia). rewrite <- Z.ldiff_land, Z.ldiff_ones_r, Z.land_ones, Z.shiftr_div_pow2 by lia.
  pose proof (Z.mod_pos_bound (idx + 1) (2 ^ k) ltac:(apply Z.pow_pos_nonneg; lia)). rewrite lor_shiftl by (unfold is_u; lia). lia.
Qed.

Lemma start_idx_range hash : 0 <= start_idx hash < nbuckets.
Proof. unfold start_idx. rewrite Hnb. replace (2 ^ n - 1) with (Z.ones n) by (rewrite Z.ones_equiv; lia). rewrite Z.land_ones by lia. apply Z.mod_pos_bound, Z.pow_pos_nonneg; lia. Qed.

(** The probes go round in the shard of the hash. *)
Lemma probe_value hash r : probe hash r = shard_size * shard_of (start_idx hash) + (start_idx hash + Z.of_nat r) mod shard_size.
Proof.
  pose proof shard_size_large as Hs. assert (Hs0 : 0 < shard_size) by (unfold MAX_RETRY in Hs; lia). pose proof (start_idx_range hash) as Hr. unfold shard_of.
  induction r as [|r IH].
  - cbn [probe]. rewrite Z.add_0_r. apply Z.div_mod. lia.
  - cbn [probe]. set (a := start_idx hash) in *. set (s := shard_size) in *.
    pose proof (Z.mod_pos_bound (a + Z.of_nat r) s Hs0). assert (0 <= a / s) by (apply Z.div_pos; lia).
    rewrite next_idx_value by (rewrite IH; nia). fold s. rewrite IH.
    set (x := (a + Z.of_nat r) mod s) in *. rewrite <- (Z.div_unique_pos (s * (a / s) + x) s (a / s) x) by lia. f_equal.
    replace (a + Z.of_nat (S r)) with (a + Z.of_nat r + 1) by lia. rewrite <- (Zplus_mod_idemp_l (a + Z.of_nat r)). fold x.
    replace (s * (a / s) + x + 1) with (x + 1 + a / s * s) by lia. by apply Z.mod_add; lia.
Qed.

Lemma probe_shard hash r : shard_of (probe hash r) = shard_of (start_idx hash).
Proof.
  pose proof shard_size_large as Hs. assert (Hs0 : 0 < shard_size) by (unfold MAX_RETRY in Hs; lia). rewrite probe_value. unfold shard_of at 1.
  pose proof (Z.mod_pos_bound (start_idx hash + Z.of_nat r) shard_size Hs0). rewrite Z.mul_comm, Z.div_add_l, (Z.div_small _ shard_size) by lia. lia.
Qed.

Lemma shard_of_range i : 0 <= i < nbuckets -> 0 <= shard_of i < NUM_SHARDS.
Proof.
  intros Hi. pose proof shard_size_large as Hs. assert (Hs0 : 0 < shard_size) by (unfold MAX_RETRY in Hs; lia). rewrite nbuckets_shards in Hi. unfold shard_of.
  split; [apply Z.div_pos; lia|]. apply Z.div_lt_upper_bound; lia.
Qed.

Lemma probe_range hash r : 0 <= probe hash r < nbuckets.
Proof.
  pose proof shard_size_large as Hs. assert (Hs0 : 0 < shard_size) by (unfold MAX_RETRY in Hs; lia). rewrite probe_value, nbuckets_shards.
  pose proof (Z.mod_pos_bound (start_idx hash + Z.of_nat r) shard_size Hs0). pose proof (shard_of_range _ (start_idx_range hash)). nia.
Qed.

(** Before the search gives up all buckets are different. *)
Lemma probe_inj hash r r' : (r' < r < MAX_RETRY)%nat -> probe hash r <> probe hash r'.
Proof.
  intros H E. pose proof shard_size_large as Hs. rewrite !probe_value in E. set (a := start_idx hash) in *. set (s := shard_size) in *.
  assert (Hm : (a + Z.of_nat r) mod s = (a + Z.of_nat r') mod s) by lia. pose proof (Z.div_mod (a + Z.of_nat r) s ltac:(lia)). pose proof (Z.div_mod (a + Z.of_nat r') s ltac:(lia)).
  assert (s * ((a + Z.of_nat r) / s - (a + Z.of_nat r') / s) = Z.of_nat r - Z.of_nat r') by lia.
  set (d := _ - _) in H2. unfold MAX_RETRY in *. assert (d <= 0 \/ 1 <= d) as [Hd|Hd] by lia; nia.
Qed.
End Probes.

(** ** The invariant *)

Section Safety.
(** The hash is a function of the key. *)
Context (n : Z) (Hn : 11 <= n) (Hnb : nbuckets = 2 ^ n) (hash : bytes -> Z).

Definition slot (k : bytes) (r : nat) : nat := Z.to_nat (probe (hash k) r).

Lemma slot_lt k r : (slot k r < Z.to_nat nbuckets)%nat.
Proof. unfold slot. pose proof (probe_range n Hn Hnb (hash k) r). lia. Qed.

Lemma slot_inj k r r' : (r' < r < MAX_RETRY)%nat -> slot k r <> slot k r'.
Proof.
  intros H E. apply (probe_inj n Hn Hnb (hash k) r r' H). unfold slot in E.
  pose proof (probe_range n Hn Hnb (hash k) r). pose proof (probe_range n Hn Hnb (hash k) r'). lia.
Qed.

(** The thread has taken its bucket. *)
Definition owner (t : thread) : bool := match t_phase t with Write | Publish | Done true => true | _ => false end.

Record thread_ok (bs : list bucket) (t : thread) : Prop := {
  tk_idx : Z.to_nat (t_idx t) = slot (t_key t) (t_retry t) /\ t_idx t = probe (hash (t_key t)) (t_retry t);
  tk_retry : match t_phase t with Full => t_retry t = MAX_RETRY | _ => (t_retry t < MAX_RETRY)%nat end;
  tk_before : forall r, (r < t_retry t)%nat -> exists k, k <> t_key t /\ bs !! slot (t_key t) r = Some (Key k);
  tk_bucket : match t_phase t with
              | Write | Publish => bs !! Z.to_nat (t_idx t) = Some Busy
              | Done _ => bs !! Z.to_nat (t_idx t) = Some (Key (t_key t))
              | _ => True
              end }.

Record inv (reqs : list bytes) (s : map_state * list thread) : Prop := {
  iv_reqs : map t_key s.2 = reqs;
  iv_length : length (keys s.1) = Z.to_nat nbuckets /\ length (values s.1) = Z.to_nat nbuckets;
  iv_threads : forall t, t ∈ s.2 -> thread_ok (keys s.1) t;
  iv_taken : forall i b, keys s.1 !! i = Some b -> b <> Free -> exists t, t ∈ s.2 /\ owner t = true /\ Z.to_nat (t_idx t) = i;
  iv_owner : forall a b t u, s.2 !! a = Some t -> s.2 !! b = Some u -> owner t = true -> owner u = true -> Z.to_nat (t_idx t) = Z.to_nat (t_idx u) -> a = b }.

Definition start (reqs : list bytes) : map_state * list thread := (new_map, map (fun k => start_insert k (hash k)) reqs).

Lemma map_inv_start reqs : inv reqs (start reqs).
Proof.
  split; cbn [start fst snd new_map keys values].
  - rewrite map_map. apply map_id.
  - by rewrite !length_replicate.
  - intros t Ht. apply list_elem_of_fmap in Ht as (k & -> & _). split; cbn [start_insert t_key t_idx t_retry t_phase]; try done.
    + unfold MAX_RETRY. lia.
    + intros r Hr. lia.
  - intros i b Hb. apply lookup_replicate in Hb as [-> _]. done.
  - intros a b t u Ht. apply list_elem_of_lookup_2 in Ht. apply list_elem_of_fmap in Ht as (k & -> & _). done.
Qed.

(** Published keys stay; a bucket leaves [Busy] by its owner only. *)
Lemma thread_ok_mono bs bs' t : (forall i k, bs !! i = Some (Key k) -> bs' !! i = Some (Key k)) ->
  (owner t = true -> bs !! Z.to_nat (t_idx t) = Some Busy -> bs' !! Z.to_nat (t_idx t) = Some Busy) -> thread_ok bs t -> thread_ok bs' t.
Proof.
  intros Hk Hb [T1 T2 T3 T4]. split; [done|done| |].
  - intros r Hr. destruct (T3 r Hr) as (k & Hne & E). exists k. split; [done|]. by apply Hk.
  - unfold owner in Hb. destruct (t_phase t); try done; [by apply Hb|by apply Hb|by apply Hk].
Qed.

(** What a step does to the table and to its thread. *)
Inductive effect (m m' : map_state) (t t' : thread) : Prop :=
  | quiet : keys m' = keys m -> owner t' = owner t -> owner t = false \/ t_idx t' = t_idx t -> effect m m' t t'
  | taken : keys m !! Z.to_nat (t_idx t) = Some Free -> keys m' = <[Z.to_nat (t_idx t) := Busy]> (keys m) -> owner t = false -> owner t' = true ->
      t_idx t' = t_idx t -> effect m m' t t'
  | published : keys m !! Z.to_nat (t_idx t) = Some Busy -> keys m' = <[Z.to_nat (t_idx t) := Key (t_key t)]> (keys m) -> owner t = true -> owner t' = true ->
      t_idx t' = t_idx t -> effect m m' t t'.

Lemma retry_next_ok bs t k : thread_ok bs t -> t_phase t = Load -> bs !! Z.to_nat (t_idx t) = Some (Key k) -> k <> t_key t -> thread_ok bs (retry_next t).
Proof.
  intros [[T1 T1'] T2 T3 T4] Ep Eb Hk. rewrite Ep in T2. unfold retry_next. split; cbn [t_key t_idx t_retry t_phase].
  - unfold slot. cbn [probe]. by rewrite <- T1'.
  - destruct (Nat.ltb_spec (S (t_retry t)) MAX_RETRY); lia.
  - intros r Hr. destruct (Nat.eq_dec r (t_retry t)) as [->|]; [exists k; split; [done|by rewrite <- T1]|]. apply T3. lia.
  - by destruct (_ <? _)%nat.
Qed.

Lemma at_phase_ok bs bs' t p : thread_ok bs t -> (forall i k, bs !! i = Some (Key k) -> bs' !! i = Some (Key k)) -> (t_retry t < MAX_RETRY)%nat -> p <> Full ->
  match p with Write | Publish => bs' !! Z.to_nat (t_idx t) = Some Busy | Done _ => bs' !! Z.to_nat (t_idx t) = Some (Key (t_key t)) | _ => True end ->
  thread_ok bs' (at_phase p t).
Proof.
  intros [T1 T2 T3 T4] Hm Hr Hp Hb. split; cbn [at_phase t_key t_idx t_retry t_phase]; [done|by destruct p| |done].
  intros r Hr'. destruct (T3 r Hr') as (k & Hne & E). exists k. split; [done|]. by apply Hm.
Qed.

(** Buckets that hold a key are not overwritten. *)
Lemma keys_insert (bs : list bucket) i b b' : bs !! i = Some b -> (forall k, b <> Key k) -> forall j k, bs !! j = Some (Key k) -> <[i := b']> bs !! j = Some (Key k).
Proof. intros Hi Hb j k Hj. destruct (decide (i = j)) as [->|Hne]; [assert (b = Key k) by congruence; by destruct (Hb k)|by rewrite list_lookup_insert_ne]. Qed.

Lemma advance_effect val sp m t m' t' : thread_ok (keys m) t -> length (keys m) = Z.to_nat nbuckets -> advance val sp m t = Some (m', t') ->
  effect m m' t t' /\ t_key t' = t_key t /\ thread_ok (keys m') t' /\ length (values m') = length (values m).
Proof.
  intros T Hl. pose proof T as [T1 T2 T3 T4]. unfold advance. assert (Hi : (Z.to_nat (t_idx t) < length (keys m))%nat) by (rewrite Hl; destruct T1 as [-> _]; apply slot_lt).
  destruct (t_phase t) as [| | | |b|] eqn:Ep; try done; (assert (Hr : (t_retry t < MAX_RETRY)%nat) by done).
  - destruct (keys m !! Z.to_nat (t_idx t)) as [b|] eqn:Eb; [|done]. cbn [mbind option_bind].
    destruct b as [| |k]; [intros [= <- <-]|intros [= <- <-]|destruct (decide (k = t_key t)) as [->|Hk]; intros [= <- <-]].
    + split; [apply quiet; unfold owner; rewrite ?Ep; by auto|]. split; [done|]. split; [by eapply at_phase_ok|done].
    + split; [apply quiet; by auto|]. by split.
    + split; [apply quiet; unfold owner; rewrite ?Ep; by auto|]. split; [done|]. split; [by eapply at_phase_ok|done].
    + split; [apply quiet; unfold owner; rewrite ?Ep; [done| |by auto]|].
      { unfold retry_next. cbn [t_phase]. by destruct (_ <? _)%nat. }
      split; [done|]. split; [by eapply retry_next_ok|done].
  - destruct (keys m !! Z.to_nat (t_idx t)) as [b|] eqn:Eb; [|done]. cbn [mbind option_bind]. destruct b as [| |k]; [destruct sp|..]; intros [= <- <-].
    + split; [apply quiet; unfold owner; rewrite ?Ep; by auto|]. split; [done|]. split; [by eapply at_phase_ok|done].
    + split; [apply taken; unfold owner; rewrite ?Ep; by auto|]. split; [done|]. split; [|done].
      eapply at_phase_ok; [exact T|by eapply keys_insert|done|done|]. cbn [keys]. by apply list_lookup_insert_eq.
    + split; [apply quiet; unfold owner; rewrite ?Ep; by auto|]. split; [done|]. split; [by eapply at_phase_ok|done].
    + split; [apply quiet; unfold owner; rewrite ?Ep; by auto|]. split; [done|]. split; [by eapply at_phase_ok|done].
  - intros [= <- <-]. split; [apply quiet; unfold owner; rewrite ?Ep; by auto|]. split; [done|]. split; [by eapply at_phase_ok|apply length_insert].
  - intros [= <- <-]. split; [apply published; unfold owner; rewrite ?Ep; by auto|]. split; [done|]. split; [|done].
    eapply at_phase_ok; [exact T|by eapply keys_insert|done|done|]. cbn [keys]. by apply list_lookup_insert_eq.
Qed.

Lemma effect_mono m m' t t' : effect m m' t t' -> length (keys m') = length (keys m) /\
  (forall i k, keys m !! i = Some (Key k) -> keys m' !! i = Some (Key k)) /\ forall i, i <> Z.to_nat (t_idx t) -> keys m' !! i = keys m !! i.
Proof.
  intros [-> _ _|E -> _ _ _|E -> _ _ _]; [done|..]; rewrite length_insert; (split; [done|split; [by eapply keys_insert|]]);
    intros i Hi; by rewrite list_lookup_insert_ne.
Qed.

Lemma map_inv_step val reqs c s s' : inv reqs s -> advance_at val c s = Some s' -> inv reqs s'.
Proof.
  intros [I1 [I2 I2'] I3 I4 I5]. unfold advance_at. destruct (s.2 !! c.1) as [t|] eqn:Et; [|done]. cbn [mbind option_bind].
  destruct (advance val c.2 s.1 t) as [[m' t']|] eqn:E; [|done]. intros [= <-]. set (a := c.1) in *. pose proof (list_elem_of_lookup_2 _ _ _ Et) as Hin.
  destruct (advance_effect _ _ _ _ _ _ (I3 t Hin) I2 E) as (Ef & Hk & Ht & Hv). destruct (effect_mono _ _ _ _ Ef) as (L & M & O).
  assert (Ha : (a < length s.2)%nat) by (by eapply lookup_lt_Some).
  assert (Hown : forall b u, b <> a -> s.2 !! b = Some u -> owner u = true -> owner t' = true -> Z.to_nat (t_idx u) = Z.to_nat (t_idx t') -> False).
  { intros b u Hb Hu Ou Ot Ei. pose proof (I3 u (list_elem_of_lookup_2 _ _ _ Hu)) as [_ _ _ U]. destruct Ef as [_ O1 O2|F _ _ _ O2|_ _ O1 _ O2].
    - apply Hb, (I5 b a u t Hu Et Ou); [congruence|]. destruct O2 as [O2|O2]; [congruence|]. by rewrite Ei, O2.
    - rewrite O2 in Ei. rewrite Ei in U. unfold owner in Ou. destruct (t_phase u); congruence.
    - apply Hb, (I5 b a u t Hu Et Ou O1). by rewrite Ei, O2. }
  split; cbn [fst snd].
  - rewrite <- I1. apply list_eq. intros i. change (t_key <$> <[a := t']> s.2 !! i) with ((t_key <$> <[a := t']> s.2) !! i).
    change ((t_key <$> <[a:=t']> s.2) !! i = (t_key <$> s.2) !! i). rewrite list_fmap_insert, Hk. rewrite list_insert_id; [done|]. rewrite list_lookup_fmap. by rewrite Et.
  - split; [lia|by rewrite Hv].
  - intros u [b Hu]%list_elem_of_lookup. destruct (decide (a = b)) as [<-|Hb]; [rewrite list_lookup_insert_eq in Hu by done; by injection Hu as <-|].
    rewrite list_lookup_insert_ne in Hu by done. pose proof (list_elem_of_lookup_2 _ _ _ Hu) as Hu'. eapply thread_ok_mono; [exact M| |by apply I3].
    intros Ou Bu. destruct Ef as [E1 _ _|F _ _ _ _|_ _ O1 _ _]; [by rewrite E1|..];
      (destruct (decide (Z.to_nat (t_idx u) = Z.to_nat (t_idx t))) as [Ei|Ei]; [|by rewrite O]).
    + congruence.
    + destruct Hb. by apply (I5 a b t u).
  - intros i b Hb Hne.
    assert (Hnew : owner t' = true -> Z.to_nat (t_idx t') = i -> exists u, u ∈ <[a := t']> s.2 /\ owner u = true /\ Z.to_nat (t_idx u) = i)
      by (intros H1 H2; exists t'; split; [by apply list_elem_of_insert|done]).
    assert (Hold : keys s.1 !! i = Some b -> exists u, u ∈ <[a := t']> s.2 /\ owner u = true /\ Z.to_nat (t_idx u) = i).
    { intros Hb'. destruct (I4 i b Hb' Hne) as (u & Hu & Ou & Ei). apply list_elem_of_lookup in Hu as [d Hd]. destruct (decide (a = d)) as [<-|Had].
      - assert (u = t) as -> by congruence. apply Hnew; destruct Ef as [_ O1 [O2|O2]|_ _ O1 _ _|_ _ _ O1 O2]; congruence.
      - exists u. split; [|done]. apply (list_elem_of_lookup_2 _ d). by rewrite list_lookup_insert_ne. }
    destruct (decide (i = Z.to_nat (t_idx t))) as [->|Hi]; [|apply Hold; by rewrite <- O].
    destruct Ef as [E1 _ _|_ _ _ O1 O2|_ _ _ O1 O2]; [apply Hold; by rewrite <- E1|apply Hnew; [done|by rewrite O2]..].
  - intros b d u w Hu Hw Ou Ow Ei. destruct (decide (a = b)) as [<-|Hb], (decide (a = d)) as [<-|Hd]; [done| | |].
    + rewrite list_lookup_insert_eq in Hu by done. injection Hu as <-. rewrite list_lookup_insert_ne in Hw by done. exfalso. by eapply (Hown d w).
    + rewrite list_lookup_insert_eq in Hw by done. injection Hw as <-. rewrite list_lookup_insert_ne in Hu by done. exfalso. by eapply (Hown b u).
    + rewrite list_lookup_insert_ne in Hu by done. rewrite list_lookup_insert_ne in Hw by done. by eapply I5.
Qed.

Lemma inv_reachable val reqs s : rtc (step val) (start reqs) s -> inv reqs s.
Proof.
  intros H. assert (G : forall x y, rtc (step val) x y -> inv reqs x -> inv reqs y).
  { induction 1 as [x|x y z [c Hc] _ IH]; [done|]. intros Hx. apply IH. by eapply map_inv_step. }
  by apply (G _ _ H), map_inv_start.
Qed.

(** ** What the table is for *)

(** A key has one bucket. *)
Lemma key_once reqs s i j k : inv reqs s -> keys s.1 !! i = Some (Key k) -> keys s.1 !! j = Some (Key k) -> i = j.
Proof.
  intros I Hi Hj. destruct (iv_taken _ _ I i _ Hi) as (t & Ht & Ot & <-); [done|]. destruct (iv_taken _ _ I j _ Hj) as (u & Hu & Ou & <-); [done|].
  pose proof (iv_threads _ _ I t Ht) as [[T1 _] T2 T3 T4]. pose proof (iv_threads _ _ I u Hu) as [[U1 _] U2 U3 U4].
  assert (t_key t = k) as Ek by (unfold owner in Ot; destruct (t_phase t) as [| | | |[]|]; congruence).
  assert (t_key u = k) as Ek' by (unfold owner in Ou; destruct (t_phase u) as [| | | |[]|]; congruence). rewrite T1, U1, Ek, Ek' in *.
  destruct (Nat.lt_trichotomy (t_retry t) (t_retry u)) as [Hlt|[->|Hlt]]; [|done|].
  - destruct (U3 _ Hlt) as (k' & Hne & E). congruence.
  - destruct (T3 _ Hlt) as (k' & Hne & E). congruence.
Qed.

(** It is in the shard of its hash. *)
Lemma key_shard reqs s i k : inv reqs s -> keys s.1 !! i = Some (Key k) -> k ∈ reqs /\ shard_of (Z.of_nat i) = shard_of (start_idx (hash k)).
Proof.
  intros I Hi. destruct (iv_taken _ _ I i _ Hi) as (t & Ht & Ot & <-); [done|]. pose proof (iv_threads _ _ I t Ht) as [[_ T1] T2 T3 T4].
  assert (t_key t = k) as <- by (unfold owner in Ot; destruct (t_phase t) as [| | | |[]|]; congruence). split.
  - rewrite <- (iv_reqs _ _ I). by apply list_elem_of_fmap_2.
  - rewrite T1. pose proof (probe_range n Hn Hnb (hash (t_key t)) (t_retry t)). rewrite Z2Nat.id by lia. by apply (probe_shard n Hn Hnb).
Qed.

(** An operation that is over has found its key. *)
Lemma done_bucket reqs s t b : inv reqs s -> t ∈ s.2 -> t_phase t = Done b -> keys s.1 !! Z.to_nat (t_idx t) = Some (Key (t_key t)).
Proof. intros I Ht Ep. pose proof (iv_threads _ _ I t Ht) as [_ _ _ T]. by rewrite Ep in T. Qed.

Lemma done_same reqs s t u b b' : inv reqs s -> t ∈ s.2 -> u ∈ s.2 -> t_phase t = Done b -> t_phase u = Done b' -> t_key t = t_key u -> t_idx t = t_idx u.
Proof.
  intros I Ht Hu Et Eu Ek. pose proof (done_bucket _ _ _ _ I Ht Et) as Kt. pose proof (done_bucket _ _ _ _ I Hu Eu) as Ku. rewrite Ek in Kt.
  pose proof (key_once _ _ _ _ _ I Kt Ku) as E. pose proof (iv_threads _ _ I t Ht) as [[_ T] _ _ _]. pose proof (iv_threads _ _ I u Hu) as [[_ U] _ _ _].
  pose proof (probe_range n Hn Hnb (hash (t_key t)) (t_retry t)). pose proof (probe_range n Hn Hnb (hash (t_key u)) (t_retry u)). lia.
Qed.

(** The operation that has inserted the key of a bucket. *)
Lemma key_inserted reqs s i k : inv reqs s -> keys s.1 !! i = Some (Key k) ->
  exists a t, s.2 !! a = Some t /\ t_key t = k /\ t_phase t = Done true /\ Z.to_nat (t_idx t) = i.
Proof.
  intros I Hi. destruct (iv_taken _ _ I i _ Hi) as (t & Ht & Ot & <-); [done|]. pose proof (iv_threads _ _ I t Ht) as [_ _ _ T4].
  apply list_elem_of_lookup in Ht as [a Ha]. exists a, t. unfold owner in Ot. destruct (t_phase t) as [| | | |[]|]; repeat split; congruence.
Qed.

Lemma inserted_once reqs s a b t u : inv reqs s -> s.2 !! a = Some t -> s.2 !! b = Some u -> t_phase t = Done true -> t_phase u = Done true -> t_key t = t_key u -> a = b.
Proof.
  intros I Ht Hu Et Eu Ek. apply (iv_owner _ _ I a b t u Ht Hu); [unfold owner; by rewrite Et|unfold owner; by rewrite Eu|].
  f_equal. eapply done_same; [exact I|by eapply list_elem_of_lookup_2|by eapply list_elem_of_lookup_2|done|done|done].
Qed.

(** Values of buckets that are published, or about to be. *)
Definition initialized (P : V -> Prop) (s : map_state * list thread) : Prop :=
  forall t, t ∈ s.2 -> owner t = true -> t_phase t <> Write -> exists v, values s.1 !! Z.to_nat (t_idx t) = Some (Some v) /\ P v.

Lemma advance_values val sp m t m' t' : advance val sp m t = Some (m', t') ->
  t_phase t = Write /\ values m' = <[Z.to_nat (t_idx t) := Some val]> (values m) /\ t' = at_phase Publish t \/
  values m' = values m /\ (owner t' = true -> t_phase t' <> Write -> owner t = true /\ t_phase t <> Write /\ t_idx t' = t_idx t).
Proof.
  unfold advance. destruct t as [k i r p]. unfold owner. cbn [t_phase t_idx t_key at_phase t_retry]. destruct p as [| | | |b|]; try done.
  - destruct (keys m !! Z.to_nat i) as [b|]; [|done]. cbn [mbind option_bind]. destruct b as [| |k']; [intros [= <- <-]; by right..|].
    destruct (decide (k' = k)); intros [= <- <-]; right; (split; [done|]); [done|]. unfold retry_next. cbn [t_phase]. by destruct (_ <? _)%nat.
  - destruct (keys m !! Z.to_nat i) as [b|]; [|done]. cbn [mbind option_bind]. destruct b as [| |k']; [destruct sp|..]; intros [= <- <-]; by right.
  - intros [= <- <-]. by left.
  - intros [= <- <-]. by right.
Qed.

Lemma initialized_step P val reqs c s s' : P val -> inv reqs s -> initialized P s -> advance_at val c s = Some s' -> initialized P s'.
Proof.
  intros Hv I Hi. unfold advance_at. destruct (s.2 !! c.1) as [t|] eqn:Et; [|done]. cbn [mbind option_bind].
  destruct (advance val c.2 s.1 t) as [[m' t']|] eqn:E; [|done]. intros [= <-]. pose proof (list_elem_of_lookup_2 _ _ _ Et) as Hin.
  assert (Ha : (c.1 < length s.2)%nat) by (by eapply lookup_lt_Some). intros u [b Hu]%list_elem_of_lookup Ou Pu. cbn [fst snd] in *.
  assert (Hlt : (Z.to_nat (t_idx t) < length (values s.1))%nat).
  { rewrite (proj2 (iv_length _ _ I)). destruct (iv_threads _ _ I t Hin) as [[-> _] _ _ _]. apply slot_lt. }
  destruct (advance_values _ _ _ _ _ _ E) as [(Ep & -> & ->)|[-> Hown]].
  - destruct (decide (c.1 = b)) as [<-|Hb].
    + rewrite list_lookup_insert_eq in Hu by done. injection Hu as <-. exists val. split; [|done]. by apply list_lookup_insert_eq.
    + rewrite list_lookup_insert_ne in Hu by done. rewrite list_lookup_insert_ne; [apply Hi; [by eapply list_elem_of_lookup_2|done|done]|].
      intros Ei. apply Hb. apply (iv_owner _ _ I _ _ t u Et Hu); [unfold owner; by rewrite Ep|done|done].
  - destruct (decide (c.1 = b)) as [<-|Hb].
    + rewrite list_lookup_insert_eq in Hu by done. injection Hu as <-. destruct (Hown Ou Pu) as (H1 & H2 & ->). by apply Hi.
    + rewrite list_lookup_insert_ne in Hu by done. apply Hi; [by eapply list_elem_of_lookup_2|done|done].
Qed.

(** ** The search does not fail if a shard has few keys *)

Definition shard_keys (reqs : list bytes) (k : bytes) : list bytes :=
  filter (fun k' => shard_of (start_idx (hash k')) = shard_of (start_idx (hash k))) (remove_dups reqs).

Lemma retry_bound reqs s t : inv reqs s -> t ∈ s.2 -> (t_retry t < length (shard_keys reqs (t_key t)))%nat.
Proof.
  intros I Ht. pose proof (iv_threads _ _ I t Ht) as [T1 T2 T3 T4].
  assert (Hr : (t_retry t <= MAX_RETRY)%nat) by (destruct (t_phase t); lia).
  assert (H : forall r, (r <= t_retry t)%nat -> exists l, length l = r /\ NoDup (t_key t :: l) /\
    forall k, k ∈ l -> exists r', (r' < r)%nat /\ keys s.1 !! slot (t_key t) r' = Some (Key k)).
  { induction r as [|r IH]; intros Hle.
    - exists []. split; [done|]. split; [apply NoDup_singleton|]. by intros k ?%elem_of_nil.
    - destruct (IH ltac:(lia)) as (l & L1 & L2 & L3). destruct (T3 r ltac:(lia)) as (k & Hne & Hk). exists (k :: l).
      split; [simpl; lia|]. apply NoDup_cons in L2 as [L2 L2']. split.
      + apply NoDup_cons. split; [intros [E|?]%elem_of_cons; congruence|]. apply NoDup_cons. split; [|done]. intros Hin. destruct (L3 k Hin) as (r' & Hr' & Hk').
        apply (slot_inj (t_key t) r r'); [lia|]. by eapply key_once.
      + intros k' [->|Hin]%elem_of_cons; [exists r; by split; [lia|]|]. destruct (L3 k' Hin) as (r' & ? & ?). exists r'. by split; [lia|]. }
  destruct (H (t_retry t) ltac:(lia)) as (l & L1 & L2 & L3). rewrite <- L1. change (length (t_key t :: l) <= length (shard_keys reqs (t_key t)))%nat.
  apply submseteq_length. apply NoDup_submseteq; [done|]. intros k Hk. unfold shard_keys. rewrite list_elem_of_filter, elem_of_remove_dups. apply elem_of_cons in Hk as [->|Hk].
  - split; [done|]. rewrite <- (iv_reqs _ _ I). by apply list_elem_of_fmap_2.
  - destruct (L3 k Hk) as (r & _ & Hb). destruct (key_shard _ _ _ _ I Hb) as [K1 K2]. split; [|done]. rewrite <- K2. unfold slot.
    pose proof (probe_range n Hn Hnb (hash (t_key t)) r). rewrite Z2Nat.id by lia. by apply (probe_shard n Hn Hnb).
Qed.

Lemma never_full reqs s t : inv reqs s -> t ∈ s.2 -> (length (shard_keys reqs (t_key t)) <= MAX_RETRY)%nat -> t_phase t <> Full.
Proof.
  intros I Ht Hle Ep. pose proof (retry_bound _ _ _ I Ht). pose proof (iv_threads _ _ I t Ht) as [_ T2 _ _]. rewrite Ep in T2. lia.
Qed.

(** ** All operations can end *)

Definition over (t : thread) : bool := match t_phase t with Done _ | Full => true | _ => false end.

Definition pending (t : thread) : bool := match t_phase t with Write | Publish => true | _ => false end.

Definition weight (t : thread) : nat :=
  match t_phase t with
  | Load => 2 * (MAX_RETRY - t_retry t) + 4 | Swap => 2 * (MAX_RETRY - t_retry t) + 5 | Write => 2 | Publish => 1 | Done _ | Full => 0
  end.
Definition total_weight (s : map_state * list thread) : nat := sum_list_with weight s.2.

Lemma sum_list_insert {A} (f : A -> nat) l a x y : l !! a = Some x -> (sum_list_with f (<[a := y]> l) + f x = sum_list_with f l + f y)%nat.
Proof.
  revert a. induction l as [|z l IH]; intros [|a] H; [done|done| |].
  - injection H as ->. simpl. lia.
  - simpl in *. specialize (IH a H). lia.
Qed.

Lemma advance_at_some val sp s a t m' t' : s.2 !! a = Some t -> advance val sp s.1 t = Some (m', t') -> advance_at val (a, sp) s = Some (m', <[a := t']> s.2).
Proof. intros Ht E. unfold advance_at. cbn [fst snd]. rewrite Ht. cbn [mbind option_bind]. by rewrite E. Qed.

(** A step that brings a thread closer to its end. *)
Lemma lighter val sp s a t m' t' : s.2 !! a = Some t -> advance val sp s.1 t = Some (m', t') -> (weight t' < weight t)%nat ->
  exists s', rtc (step val) s s' /\ (total_weight s' < total_weight s)%nat.
Proof.
  intros Ht E Hw. exists (m', <[a := t']> s.2). split.
  - apply rtc_once. exists (a, sp). by apply advance_at_some with t.
  - unfold total_weight. cbn [snd]. pose proof (sum_list_insert weight s.2 a t t' Ht). lia.
Qed.

Lemma progress val reqs s t : inv reqs s -> t ∈ s.2 -> over t = false -> exists s', rtc (step val) s s' /\ (total_weight s' < total_weight s)%nat.
Proof.
  intros I Ht Ho.
  destruct (decide (Exists (fun u => pending u = true) s.2)) as [Hp|Hp].
  { apply Exists_exists in Hp as (u & Hu & Pu). apply list_elem_of_lookup in Hu as [b Hb]. unfold pending in Pu. destruct (t_phase u) eqn:Eu; try done;
      (eapply (lighter val false s b u _ _ Hb); [unfold advance; rewrite Eu; reflexivity|unfold weight; rewrite Eu; cbn [at_phase t_phase]; lia]). }
  assert (Hfree : forall i, keys s.1 !! i <> Some Busy).
  { intros i Hi. destruct (iv_taken _ _ I i _ Hi) as (u & Hu & Ou & <-); [done|]. pose proof (iv_threads _ _ I u Hu) as [_ _ _ U]. apply Hp, Exists_exists. exists u.
    split; [done|]. unfold owner in Ou. unfold pending. destruct (t_phase u) as [| | | |[]|]; try done; congruence. }
  pose proof (iv_threads _ _ I t Ht) as [[T1 _] T2 _ _]. apply list_elem_of_lookup in Ht as [a Ha].
  assert (Hi : is_Some (keys s.1 !! Z.to_nat (t_idx t))) by (apply lookup_lt_is_Some; rewrite (proj1 (iv_length _ _ I)), T1; apply slot_lt). destruct Hi as [b Hb].
  pose proof (Hfree (Z.to_nat (t_idx t))) as Hf.
  assert (Hnp : pending t = false).
  { destruct (pending t) eqn:E; [|done]. destruct Hp. apply Exists_exists. exists t. split; [by eapply list_elem_of_lookup_2|done]. }
  unfold over, pending in Ho, Hnp. destruct (t_phase t) as [| | | |d|] eqn:Ep; try done.
  - destruct b as [| |k]; [|congruence|].
    + exists (mkMap (<[Z.to_nat (t_idx t) := Busy]> (keys s.1)) (values s.1), <[a := at_phase Write (at_phase Swap t)]> (<[a := at_phase Swap t]> s.2)).
      assert (Hlt : (a < length s.2)%nat) by (by eapply lookup_lt_Some). split.
      * eapply rtc_l; [exists (a, false); apply (advance_at_some _ false _ a t s.1 (at_phase Swap t)); [done|unfold advance; rewrite Ep, Hb; reflexivity]|].
        apply rtc_once. exists (a, false). apply (advance_at_some val false (s.1, <[a := at_phase Swap t]> s.2) a (at_phase Swap t) (mkMap (<[Z.to_nat (t_idx t) := Busy]> (keys s.1)) (values s.1)) (at_phase Write (at_phase Swap t))); [cbn [fst snd]; by rewrite list_lookup_insert_eq|].
        unfold advance. cbn [at_phase t_phase t_idx fst]. rewrite Hb. reflexivity.
      * unfold total_weight. cbn [snd]. rewrite list_insert_insert_eq. pose proof (sum_list_insert weight s.2 a t (at_phase Write (at_phase Swap t)) Ha).
        unfold weight at 2 4 in H. rewrite Ep in H. cbn [at_phase t_phase] in H. lia.
    + destruct (decide (k = t_key t)) as [Ek|Ek]; (eapply (lighter val false s a t _ _ Ha);
        [unfold advance; rewrite Ep, Hb; cbn [mbind option_bind]; (rewrite (decide_True _ _ Ek) || rewrite (decide_False _ _ Ek)); reflexivity|]);
        unfold weight; rewrite Ep; cbn [at_phase retry_next t_phase t_retry]; [lia|]. destruct (Nat.ltb_spec (S (t_retry t)) MAX_RETRY); lia.
  - destruct b as [| |k]; [|congruence|]; (eapply (lighter val false s a t _ _ Ha);
      [unfold advance; rewrite Ep, Hb; cbn [mbind option_bind]; reflexivity|unfold weight; rewrite Ep; cbn [at_phase t_phase t_retry]; lia]).
Qed.

Lemma completes val reqs s : inv reqs s -> exists s', rtc (step val) s s' /\ inv reqs s' /\ forall t, t ∈ s'.2 -> over t = true.
Proof.
  remember (total_weight s) as w eqn:E. revert s E. induction w as [w IH] using lt_wf_ind. intros s -> I.
  destruct (decide (Exists (fun t => over t = false) s.2)) as [H|H].
  - apply Exists_exists in H as (t & Ht & Ho). destruct (progress val reqs s t I Ht Ho) as (s1 & R1 & W1).
    assert (I1 : inv reqs s1). { clear - R1 I Hn Hnb. induction R1 as [x|x y z [c Hc] _ IH]; [done|]. apply IH. by eapply map_inv_step. }
    destruct (IH _ W1 s1 eq_refl I1) as (s2 & R2 & I2 & O2). exists s2. split; [by etransitivity|done].
  - exists s. split; [done|]. split; [done|]. intros t Ht. destruct (over t) eqn:Eo; [done|]. exfalso. apply H, Exists_exists. by exists t.
Qed.

Lemma initialized_reachable P val reqs s : P val -> rtc (step val) (start reqs) s -> initialized P s.
Proof.
  intros Hv H. assert (G : forall x y, rtc (step val) x y -> inv reqs x -> initialized P x -> initialized P y).
  { induction 1 as [x|x y z [c Hc] _ IH]; [done|]. intros Hx Ix. apply IH; [by eapply map_inv_step|by eapply initialized_step]. }
  apply (G _ _ H (map_inv_start reqs)). intros t Ht Ot. apply list_elem_of_fmap in Ht as (k & -> & _). done.
Qed.

(** C14: whatever the schedule of the threads that insert the keys [reqs], and however often
    the compare-and-swap fails spuriously: insertions that are over have the same bucket if
    and only if they have the same key, which the bucket has, with an initialized value; the
    key has been reported as new exactly once; no search fails while the shard of the key has
    at most MAX_RETRY keys; and from every state all insertions can be completed. *)
Theorem insert_any_schedule val reqs s : rtc (step val) (start reqs) s ->
  map t_key s.2 = reqs /\
  (forall t u b b', t ∈ s.2 -> u ∈ s.2 -> t_phase t = Done b -> t_phase u = Done b' -> t_idx t = t_idx u <-> t_key t = t_key u) /\
  (forall t b, t ∈ s.2 -> t_phase t = Done b -> keys s.1 !! Z.to_nat (t_idx t) = Some (Key (t_key t)) /\ values s.1 !! Z.to_nat (t_idx t) = Some (Some val) /\
     exists a u, s.2 !! a = Some u /\ t_key u = t_key t /\ t_phase u = Done true /\
       forall a' u', s.2 !! a' = Some u' -> t_key u' = t_key t -> t_phase u' = Done true -> a' = a) /\
  (forall t, t ∈ s.2 -> (length (shard_keys reqs (t_key t)) <= MAX_RETRY)%nat -> t_phase t <> Full) /\
  exists s', rtc (step val) s s' /\ forall t, t ∈ s'.2 -> over t = true.
Proof.
  intros H. pose proof (inv_reachable _ _ _ H) as I. pose proof (initialized_reachable (eq val) _ _ _ eq_refl H) as Hv.
  split; [apply I|]. split; [|split; [|split; [intros t; by apply never_full|]]].
  - intros t u b b' Ht Hu Et Eu. split; [|by eapply done_same]. intros Ei. pose proof (done_bucket _ _ _ _ I Ht Et). pose proof (done_bucket _ _ _ _ I Hu Eu). congruence.
  - intros t b Ht Et. pose proof (done_bucket _ _ _ _ I Ht Et) as Hb. split; [done|].
    destruct (key_inserted _ _ _ _ I Hb) as (a & u & Ha & Ek & Eu & Ei). split.
    + rewrite <- Ei. destruct (Hv u) as (v & -> & <-); [by eapply list_elem_of_lookup_2|unfold owner; by rewrite Eu|by rewrite Eu|done].
    + exists a, u. repeat split; [done..|]. intros a' u' Ha' Ek' Eu'. eapply (inserted_once _ _ a' a u' u I); congruence.
  - destruct (completes val _ _ I) as (s' & R & _ & O). by exists s'.
Qed.
End Safety.
End Map.

(** A schedule as a list of threads and failures of the compare-and-swap. *)
Fixpoint run {V} (nbuckets : Z) (val : V) (l : list (nat * bool)) (s : map_state * list thread) : option (map_state * list thread) :=
  match l with
  | [] => Some s
  | c :: l => advance_at nbuckets val c s ≫= run nbuckets val l
  end.

Lemma run_steps {V} nbuckets (val : V) l s s' : run nbuckets val l s = Some s' -> rtc (step nbuckets val) s s'.
Proof.
  revert s. induction l as [|c l IH]; intros s; cbn [run]; [by intros [= ->]|]. intros (s1 & H1 & H2)%bind_Some.
  apply rtc_l with s1; [by exists c|]. by apply IH.
Qed.

(** Three insertions of two keys with the same hash: the first takes the bucket, the second
    waits for it, the third goes on to the next one. *)
Definition example_hash (_ : bytes) : Z := 2047.
Definition example_schedule : list (nat * bool) :=
  [(0%nat, false); (1%nat, false); (0%nat, true); (0%nat, false); (0%nat, false); (1%nat, false); (2%nat, false); (0%nat, false); (0%nat, false);
   (1%nat, false); (2%nat, false); (2%nat, false); (2%nat, false); (2%nat, false); (2%nat, false)].

Lemma insert_any_schedule_witness : exists s, run 2048 7 example_schedule (start 2048 example_hash [[97]; [97]; [98]]) = Some s /\
  map t_phase s.2 = [Done true; Done false; Done true] /\ map t_idx s.2 = [2047; 2047; 1920] /\ map t_key s.2 = [[97]; [97]; [98]] /\
  forall t b, t ∈ s.2 -> t_phase t = Done b -> keys s.1 !! Z.to_nat (t_idx t) = Some (Key (t_key t)) /\ values s.1 !! Z.to_nat (t_idx t) = Some (Some 7).
Proof.
  destruct (run 2048 7 example_schedule (start 2048 example_hash [[97]; [97]; [98]])) as [s|] eqn:E; [|vm_compute in E; discriminate].
  exists s. split; [done|].
  assert (C : (fun s => (map t_phase s.2, map t_idx s.2)) <$> run 2048 7 example_schedule (start 2048 example_hash [[97]; [97]; [98]]) =
    Some ([Done true; Done false; Done true], [2047; 2047; 1920])) by (vm_compute; reflexivity).
  rewrite E in C. change (Some (map t_phase s.2, map t_idx s.2) = Some ([Done true; Done false; Done true], [2047; 2047; 1920])) in C.
  destruct (insert_any_schedule 2048 11 ltac:(lia) eq_refl example_hash 7 [[97]; [97]; [98]] s (run_steps _ _ _ _ _ E)) as (H1 & _ & H3 & _).
  split; [congruence|]. split; [congruence|]. split; [done|]. intros t b Ht Et. destruct (H3 t b Ht Et) as (H4 & H5 & _). by split.
Defined.
