(* ===== verification/MergedSections.v ===== *)
(** * Mergeable sections (MergedSection of src/elf/output-chunks.cc, MergeableSection of
    src/elf/mold.h and src/elf/input-files.cc)

    A section with SHF_MERGE is split into strings or records. The pieces of all files are
    inserted into the concurrent map of their output section, which keeps one fragment for
    equal pieces, and the fragments that are alive get offsets shard by shard. The theorems:
    the output does not depend on the schedule of the insertions, and every byte of an input
    section is found through its fragment in the output. *)

From S2P Require Import Prelude Buffers Bits Enums ElfConst ConcurrentMap.
Local Open Scope list_scope.
Local Open Scope Z_scope.

Definition shf (n : string) : Z := constant SHF ("SHF_" ++ n).
Definition has_flag (flags : Z) (n : string) : bool := negb (Z.land flags (shf n) =? 0).

(** [SectionFragment]; the offset is a [u32]. *)
Record SectionFragment := mkFrag { f_offset : Z; p2align : Z; is_alive : bool }.

(** ** Splitting *)

(** [find_null] for records of one byte and of several; [None] is [npos]. *)
Fixpoint find_zero (data : bytes) : option nat :=
  match data with
  | [] => None
  | c :: data => if c =? 0 then Some O else S <$> find_zero data
  end.

Fixpoint find_zeros (fuel entsize i : nat) (data : bytes) : option nat :=
  match fuel with
  | O => None
  | S fuel =>
      if (i + entsize <=? length data)%nat then
        if forallb (fun c => c =? 0) (take entsize (drop i data)) then Some i else find_zeros fuel entsize (i + entsize) data
      else None
  end.

Definition find_null (data : bytes) (entsize : nat) : option nat :=
  if (entsize =? 1)%nat then find_zero data
  else if (length data <? entsize)%nat then None else find_zeros (S (length data)) entsize 0 data.

(** The pieces; [None]: Fatal. *)
Fixpoint split_strings (fuel entsize : nat) (data : bytes) : option (list bytes) :=
  match data with
  | [] => Some []
  | _ =>
      match fuel with
      | O => None
      | S fuel => end_ ← find_null data entsize; rest ← split_strings fuel entsize (drop (end_ + entsize) data); Some (take (end_ + entsize) data :: rest)
      end
  end.

Fixpoint split_records (fuel entsize : nat) (data : bytes) : option (list bytes) :=
  match data with
  | [] => Some []
  | _ =>
      match fuel with
      | O => None
      | S fuel => rest ← split_records fuel entsize (drop entsize data); Some (take entsize data :: rest)
      end
  end.

(** [frag_offsets]: [substr.data() - begin] as [u32]. *)
Fixpoint piece_offsets (off : Z) (l : list bytes) : list Z :=
  match l with
  | [] => []
  | s :: l => u32 off :: piece_offsets (off + zlen s) l
  end.

(** What [split_section] reads of a section; the contents are uncompressed. *)
Record InputSection := mkInputSection {
  sec_alive : bool; has_relsec : bool; sh_flags : Z; sh_type : Z; sec_name : bytes; sh_entsize : Z; sec_p2align : Z; contents : bytes }.

(** The output section: name, flags and type. *)
Abbreviation instance := (bytes * Z * Z)%type (only parsing).

Record MergeableSection := mkMergeable { parent : instance; m_p2align : Z; strings : list bytes; frag_offsets : list Z }.

Section Names.
(** [--relocatable], [--relocatable-merge-sections] and the pattern of [--unique]. *)
Context (relocatable relocatable_merge_sections : bool) (unique : bytes -> bool).

Definition get_merged_output_name (name : bytes) (flags : Z) : bytes :=
  if relocatable && negb relocatable_merge_sections then name
  else if unique name then name
  else if bool_decide (name = bs ".rodata") || bool_decide (take 8 name = bs ".rodata.") then
    if has_flag flags "STRINGS" then bs ".rodata.str" else bs ".rodata.cst"
  else name.

Definition instance_key (name : bytes) (type flags : Z) : instance :=
  (get_merged_output_name name flags, Z.land (Z.land flags (Z.lnot (shf "GROUP"))) (Z.lnot (shf "COMPRESSED")), type).

(** [get_instance]: the index in [ctx.merged_sections], extended if the section is new. *)
Fixpoint find_instance (k : instance) (l : list instance) : option nat :=
  match l with
  | [] => None
  | x :: l => if decide (k = x) then Some O else S <$> find_instance k l
  end.

Definition get_instance (name : bytes) (type flags : Z) (l : list instance) : nat * list instance :=
  let k := instance_key name type flags in
  match find_instance k l with Some i => (i, l) | None => (length l, l ++ [k]) end.

(** [None]: Fatal; [Some None]: the section is not mergeable. *)
Definition split_section (sec : InputSection) : option (option MergeableSection) :=
  if negb (sec_alive sec) || has_relsec sec then Some None
  else if negb (has_flag (sh_flags sec) "MERGE") then Some None
  else
    let rec_ l := mkMergeable (instance_key (sec_name sec) (sh_type sec) (sh_flags sec)) (sec_p2align sec) l (piece_offsets 0 l) in
    let data := contents sec in
    match data with
    | [] => Some (Some (rec_ []))
    | _ =>
        if has_flag (sh_flags sec) "STRINGS" then
          let entsize := if sh_entsize sec =? 0 then 1 else sh_entsize sec in
          l ← split_strings (length data) (Z.to_nat entsize) data; Some (Some (rec_ l))
        else if sh_entsize sec =? 0 then Some None
        else if negb (zlen data mod sh_entsize sec =? 0) then None
        else l ← split_records (length data) (Z.to_nat (sh_entsize sec)) data; Some (Some (rec_ l))
    end.
End Names.

(** [MergeableSection::get_fragment]: the index of the fragment and the offset in it. [None]:
    the last element before the first is taken. *)
Fixpoint upper_bound (offset : Z) (l : list Z) : nat :=
  match l with
  | [] => O
  | x :: l => if offset <? x then O else S (upper_bound offset l)
  end.

Definition get_fragment (m : MergeableSection) (offset : Z) : option (nat * Z) :=
  match upper_bound offset (frag_offsets m) with
  | O => None
  | S i => o ← frag_offsets m !! i; Some (i, offset - o)
  end.

(** [resolve_section_pieces]: the fragment of a symbol with its value, if its section, [m], is
    mergeable and not empty; a relocation against the section symbol gets a new symbol with
    the fragment and this value. *)
Definition shn (n : string) : Z := constant SHN ("SHN_" ++ n).
Definition attach_symbol (m : option MergeableSection) (st_shndx st_value : Z) : option (option (nat * Z)) :=
  if (st_shndx =? shn "ABS") || (st_shndx =? shn "COMMON") || (st_shndx =? shn "UNDEF") then Some None
  else match m with
       | None => Some None
       | Some m => match strings m with [] => Some None | _ => Some <$> get_fragment m st_value end
       end.
Definition redirect_reloc (m : MergeableSection) (st_value r_addend : Z) : option (nat * Z) :=
  '(i, in_frag_offset) ← get_fragment m (st_value + r_addend); Some (i, in_frag_offset - r_addend).

(** [SectionFragment::get_addr] and [Symbol::get_addr] of a symbol with a fragment. *)
Definition frag_get_addr (sh_addr : Z) (f : SectionFragment) : Z := u64 (sh_addr + f_offset f).
Definition symbol_get_addr (sh_addr value : Z) (f : SectionFragment) : Z := if is_alive f then u64 (frag_get_addr sh_addr f + value) else 0.

(** ** Pieces *)

(** The pieces in order are the contents, and none is empty. *)
Definition pieces_of (data : bytes) (l : list bytes) : Prop := concat l = data /\ Forall (fun s => s <> []) l.

Lemma split_strings_pieces fuel e data l : (0 < e)%nat -> split_strings fuel e data = Some l -> pieces_of data l.
Proof.
  intros He. revert data l. induction fuel as [|fuel IH]; intros data l; (destruct data as [|c data]; [by intros [= <-]|]); [done|]. cbn [split_strings]. set (d := c :: data).
  intros (z & Hz & H)%bind_Some. apply bind_Some in H as (rest & Hr & [= <-]). destruct (IH _ _ Hr) as [I1 I2]. split.
  - cbn [concat]. rewrite I1. apply take_drop.
  - constructor; [|done]. destruct (z + e)%nat as [|k] eqn:E; [lia|]. done.
Qed.

Lemma split_records_pieces fuel e data l : (0 < e)%nat -> split_records fuel e data = Some l -> pieces_of data l.
Proof.
  intros He. revert data l. induction fuel as [|fuel IH]; intros data l; (destruct data as [|c data]; [by intros [= <-]|]); [done|]. cbn [split_records]. set (d := c :: data).
  intros (rest & Hr & [= <-])%bind_Some. destruct (IH _ _ Hr) as [I1 I2]. split; [cbn [concat]; rewrite I1; apply take_drop|]. constructor; [|done]. destruct e; [lia|done].
Qed.

(** The length of the contents is enough fuel. *)
Lemma split_records_total fuel e data : (0 < e)%nat -> (length data <= fuel)%nat -> is_Some (split_records fuel e data).
Proof.
  intros He. revert data. induction fuel as [|fuel IH]; intros data Hf; (destruct data as [|c data]; [done|]); [simpl in Hf; lia|]. cbn [split_records]. set (d := c :: data) in *.
  destruct (IH (drop e d)) as [rest ->]; [rewrite length_drop; simpl in *; lia|]. done.
Qed.

(** Splitting fails exactly at a rest without a terminator. *)
Lemma split_strings_total fuel e data : (0 < e)%nat -> (length data <= fuel)%nat -> split_strings fuel e data = None ->
  exists pre rest, data = pre ++ rest /\ rest <> [] /\ find_null rest e = None.
Proof.
  intros He. revert data. induction fuel as [|fuel IH]; intros data Hf; (destruct data as [|c data]; [done|]); [simpl in Hf; lia|]. cbn [split_strings]. set (d := c :: data) in *.
  destruct (find_null d e) as [z|] eqn:Ez; [|intros _; by exists [], d]. cbn [mbind option_bind]. destruct (split_strings fuel e (drop (z + e) d)) as [rest|] eqn:Er; [done|]. intros _.
  destruct (IH (drop (z + e) d)) as (pre & r & E & Hr & Hn); [rewrite length_drop; simpl in *; lia|done|]. exists (take (z + e) d ++ pre), r.
  split; [rewrite <- app_assoc, <- E; symmetry; apply take_drop|done].
Qed.

Lemma find_zero_spec data : match find_zero data with
  | Some i => data !! i = Some 0 /\ forall j, (j < i)%nat -> data !! j <> Some 0
  | None => forall j, data !! j <> Some 0
  end.
Proof.
  induction data as [|c data IH]; [done|]. cbn [find_zero]. destruct (Z.eqb_spec c 0) as [->|Hc]; [split; [done|intros j Hj; lia]|].
  destruct (find_zero data) as [i|]; cbn [fmap option_fmap option_map].
  - destruct IH as [I1 I2]. split; [done|]. intros [|j] Hj; [by intros [= ->]|]. apply I2. lia.
  - intros [|j]; [by intros [= ->]|]. apply IH.
Qed.

Definition all_zero (l : bytes) : bool := forallb (fun c => c =? 0) l.

(** The first record of zeros at a multiple of the record size. *)
Lemma find_zeros_spec fuel e i data : (0 < e)%nat -> (length data < i + fuel)%nat -> match find_zeros fuel e i data with
  | Some k => (exists c, k = i + c * e)%nat /\ (k + e <= length data)%nat /\ all_zero (take e (drop k data)) = true
  | None => forall c, (i + c * e + e <= length data)%nat -> all_zero (take e (drop (i + c * e) data)) = false
  end.
Proof.
  intros He. revert i. induction fuel as [|fuel IH]; intros i Hf.
  { cbn [find_zeros]. intros c Hc. lia. }
  cbn [find_zeros]. destruct (Nat.leb_spec (i + e) (length data)).
  - destruct (forallb (fun c => c =? 0) (take e (drop i data))) eqn:E.
    + split; [exists O; lia|]. by split.
    + specialize (IH (i + e)%nat ltac:(lia)). destruct (find_zeros fuel e (i + e) data) as [k|].
      * destruct IH as ([c ->] & I2 & I3). split; [exists (S c); lia|by split].
      * intros [|c] Hc; [by rewrite Nat.add_0_r|]. specialize (IH c ltac:(lia)). replace (i + S c * e)%nat with (i + e + c * e)%nat by lia. done.
  - intros c Hc. lia.
Qed.

(** Offsets of the pieces, without the truncation to 32 bits. *)
Lemma piece_offsets_at off l i s : 0 <= off -> off + zlen (concat l) < 2 ^ 32 -> l !! i = Some s -> piece_offsets off l !! i = Some (off + zlen (concat (take i l))).
Proof.
  revert off i. induction l as [|x l IH]; intros off i H0 Hb Hi; [done|]. cbn [concat] in Hb. rewrite zlen_app in Hb. pose proof (zlen_nonneg x). pose proof (zlen_nonneg (concat l)).
  destruct i as [|i].
  - change (Some (u32 off) = Some (off + zlen (concat (take 0 (x :: l))))). unfold u32. rewrite wrap_small by (unfold is_u; lia). f_equal. unfold zlen. simpl. lia.
  - change (l !! i = Some s) in Hi. change (piece_offsets (off + zlen x) l !! i = Some (off + zlen (x ++ concat (take i l)))). rewrite zlen_app. rewrite (IH (off + zlen x) i) by (done || lia). f_equal. lia.
Qed.

(** The fragment of an offset holds the byte. *)
Lemma upper_bound_at l off x : pieces_of (concat l) l -> 0 <= off -> off <= x < off + zlen (concat l) -> off + zlen (concat l) < 2 ^ 32 ->
  exists i s, l !! i = Some s /\ upper_bound x (piece_offsets off l) = S i /\ off + zlen (concat (take i l)) <= x < off + zlen (concat (take i l)) + zlen s.
Proof.
  intros [_ Hne]. revert off. induction l as [|y l IH]; intros off H0 Hx Hb; [unfold zlen in Hx; simpl in Hx; lia|]. apply Forall_cons in Hne as [Hy Hne].
  cbn [concat] in Hx, Hb. rewrite zlen_app in Hx, Hb. pose proof (zlen_nonneg y). pose proof (zlen_nonneg (concat l)). cbn [piece_offsets upper_bound].
  assert (u32 off = off) as -> by (apply wrap_small; unfold is_u; lia). destruct (Z.ltb_spec x off); [lia|]. destruct (Z.lt_ge_cases x (off + zlen y)).
  - exists O, y. split; [done|]. split; [|unfold zlen in *; simpl; lia]. f_equal. destruct l as [|z l]; [done|]. cbn [piece_offsets upper_bound].
    assert (u32 (off + zlen y) = off + zlen y) as ->; [|destruct (Z.ltb_spec x (off + zlen y)); [done|lia]]. apply wrap_small. unfold is_u. lia.
  - destruct (IH Hne (off + zlen y) ltac:(lia) ltac:(lia) ltac:(lia)) as (i & s & Hi & Hu & Hr). exists (S i), s. split; [done|]. split; [by rewrite Hu|].
    cbn [take concat]. rewrite zlen_app. lia.
Qed.

Lemma get_fragment_at m data x : pieces_of data (strings m) -> frag_offsets m = piece_offsets 0 (strings m) -> zlen data < 2 ^ 32 -> 0 <= x < zlen data ->
  exists i s d, get_fragment m x = Some (i, d) /\ strings m !! i = Some s /\ 0 <= d < zlen s /\ x = zlen (concat (take i (strings m))) + d /\
    s !! Z.to_nat d = data !! Z.to_nat x.
Proof.
  intros [Hc Hne] Ho Hb Hx. destruct (upper_bound_at (strings m) 0 x) as (i & s & Hi & Hu & Hr); [by split|lia|rewrite Hc; lia|rewrite Hc; lia|].
  exists i, s, (x - zlen (concat (take i (strings m)))). unfold get_fragment. rewrite Ho, Hu, (piece_offsets_at 0 (strings m) i s) by (done || rewrite ?Hc; lia). cbn [mbind option_bind].
  rewrite Z.add_0_l. split; [done|]. split; [done|]. split; [lia|]. split; [lia|].
  rewrite <- Hc. rewrite <- (take_drop_middle (strings m) i s Hi) at 2. rewrite concat_app. cbn [concat]. set (P := concat (take i (strings m))) in *.
  rewrite lookup_app_r by (unfold zlen in *; lia). rewrite lookup_app_l by (unfold zlen in *; lia). f_equal. unfold zlen in *. lia.
Qed.

(** ** Insertion *)

(** [update_maximum] after the insertion: not begun, comparing with a value that was loaded,
    done. *)
Inductive raise := NotYet | Compare (old_val : Z) | Raised.

Record inserter := mkInserter { in_map : thread; in_align : Z; in_raise : raise }.

Abbreviation table := (map_state (V := SectionFragment)) (only parsing).

Section Merged.
(** The number of buckets, the hash of a piece, and whether fragments are alive from the
    start: [!ctx.arg.gc_sections || !(sh_flags & SHF_ALLOC)]. *)
Context (nbuckets : Z) (hash_string : bytes -> Z) (alive : bool).

Definition new_frag : SectionFragment := mkFrag (u32 (-1)) 0 alive.

Definition frag_at (m : table) (i : nat) : option SectionFragment := x ← values m !! i; x.
Definition set_frag (m : table) (i : nat) (f : SectionFragment) : table := mkMap (keys m) (<[i := Some f]> (values m)).

(** One step of [MergedSection::insert]; [None]: it is over, or the map is full. *)
Definition insert_step (spurious : bool) (m : table) (t : inserter) : option (table * inserter) :=
  match t_phase (in_map t) with
  | Done _ =>
      let i := Z.to_nat (t_idx (in_map t)) in
      let go r m := Some (m, mkInserter (in_map t) (in_align t) r) in
      match in_raise t with
      | NotYet => f ← frag_at m i; go (Compare (p2align f)) m
      | Compare old =>
          if old <? in_align t then
            f ← frag_at m i;
            if spurious || negb (p2align f =? old) then go (Compare (p2align f)) m
            else go Raised (set_frag m i (mkFrag (f_offset f) (u8 (in_align t)) (is_alive f)))
          else go Raised m
      | Raised => None
      end
  | _ => '(m, t') ← advance nbuckets new_frag spurious m (in_map t); Some (m, mkInserter t' (in_align t) (in_raise t))
  end.

Definition insert_at (c : nat * bool) (s : table * list inserter) : option (table * list inserter) :=
  t ← s.2 !! c.1; '(m, t') ← insert_step c.2 s.1 t; Some (m, <[c.1 := t']> s.2).

Definition insertion (s s' : table * list inserter) : Prop := exists c, insert_at c s = Some s'.

(** The pieces with the alignments of their sections. *)
Abbreviation requests := (list (bytes * Z)) (only parsing).

Definition start_insertions (reqs : requests) : table * list inserter :=
  (new_map nbuckets, map (fun '(k, p) => mkInserter (start_insert nbuckets k (hash_string k)) p NotYet) reqs).

Definition all_inserted (s : table * list inserter) : Prop := forall t, t ∈ s.2 -> in_raise t = Raised.

(** Garbage collection marks fragments. *)
Definition mark_frags (l : list nat) (m : table) : table :=
  foldr (fun i m => match frag_at m i with Some f => set_frag m i (mkFrag (f_offset f) (p2align f) true) | None => m end) m l.

(** ** Offsets *)

(** The fragments of a shard that are alive, with their keys and buckets. *)
Definition shard_frags (m : table) (i : nat) : list (bytes * SectionFragment * nat) :=
  let size := Z.to_nat (shard_size nbuckets) in
  omap (fun j => match keys m !! j with
                 | Some (Key k) => f ← frag_at m j; if is_alive f then Some (k, f, j) else None
                 | _ => None
                 end) (seq (size * i) size).

Definition frag_less (a b : bytes * Z) : bool :=
  (a.2 <? b.2) || ((a.2 =? b.2) && ((zlen a.1 <? zlen b.1) || ((zlen a.1 =? zlen b.1) && str_ltb a.1 b.1))).

Definition key_align (x : bytes * SectionFragment * nat) : bytes * Z := (x.1.1, p2align x.1.2).

Definition sorted_frags (m : table) (i : nat) : list (bytes * SectionFragment * nat) :=
  stable_sort (fun a b => frag_less (key_align a) (key_align b)) (shard_frags m i).

(** The loop that assigns offsets in a shard: the offsets, the end and the alignment. *)
Fixpoint place (l : list (bytes * Z)) (offset p : Z) : list Z * Z * Z :=
  match l with
  | [] => ([], offset, p)
  | (k, q) :: l =>
      let offset := align_to offset (Z.shiftl 1 q) in
      let '(offs, end_, p) := place l (offset + zlen k) (Z.max p q) in (offset :: offs, end_, p)
  end.

Definition placed (m : table) (i : nat) : list Z * Z * Z := place (map key_align (sorted_frags m i)) 0 0.

Definition set_offset (j : nat) (off : Z) (m : table) : table :=
  match frag_at m j with Some f => set_frag m j (mkFrag (u32 off) (p2align f) (is_alive f)) | None => m end.

(** A shard gets its offsets; the shards work at the same time, on different buckets. *)
Definition assign_shard (i : nat) (m : table) : table :=
  foldl (fun m '(j, off) => set_offset j off m) m (zip (map snd (sorted_frags m i)) (placed m i).1.1).

(** [shard_offsets] from the sizes. *)
Fixpoint shard_starts (align : Z) (start : Z) (sizes : list Z) : list Z :=
  match sizes with
  | [] => [start]
  | size :: sizes => start :: shard_starts align (align_to (start + size) align) sizes
  end.

(** The last loop; a bucket without a value is not alive here, although the code reads its
    uninitialized bytes. *)
Definition shift_shard (starts : list Z) (i : nat) (m : table) : table :=
  let size := Z.to_nat (shard_size nbuckets) in
  foldl (fun m j => match frag_at m j with
                    | Some f => if is_alive f then set_offset j (f_offset f + nth i starts 0) m else m
                    | None => m
                    end) m (seq (size * i) size).

Record layout := mkLayout { l_table : table; shard_offsets : list Z; sh_size : Z; sh_addralign : Z }.

Definition shards : list nat := seq 0 16.

Definition assign_offsets (m : table) : layout :=
  let sizes := map (fun i => (placed m i).1.2) shards in
  let p := foldl Z.max 0 (map (fun i => (placed m i).2) shards) in
  let m1 := foldl (fun m i => assign_shard i m) m shards in
  let starts := shard_starts (Z.shiftl 1 p) 0 sizes in
  let m2 := foldl (fun m i => shift_shard starts i m) m1 (seq 1 15) in
  mkLayout m2 starts (nth 16 starts 0) (Z.shiftl 1 p).

(** [write_to], on a buffer that begins at the section. *)
Definition write_frag (m : table) (j : nat) (buf : bytes) : option bytes :=
  match keys m !! j with
  | Some (Key k) => f ← frag_at m j; if is_alive f then poke (f_offset f) k buf else Some buf
  | _ => Some buf
  end.

Fixpoint write_frags (m : table) (l : list nat) (buf : bytes) : option bytes :=
  match l with [] => Some buf | j :: l => write_frag m j buf ≫= write_frags m l end.

Definition write_shard (l : layout) (i : nat) (buf : bytes) : option bytes :=
  let size := Z.to_nat (shard_size nbuckets) in
  let start := nth i (shard_offsets l) 0 in
  buf ← poke start (replicate (Z.to_nat (nth (S i) (shard_offsets l) 0 - start)) 0) buf;
  write_frags (l_table l) (seq (size * i) size) buf.

Fixpoint write_shards (l : layout) (todo : list nat) (buf : bytes) : option bytes :=
  match todo with [] => Some buf | i :: todo => write_shard l i buf ≫= write_shards l todo end.

Definition write_to (l : layout) (buf : bytes) : option bytes := write_shards l shards buf.

(** ** The state of the insertions *)

Section Insertions.
Context (n : Z) (Hn : 11 <= n) (Hnb : nbuckets = 2 ^ n).

Definition proj (s : table * list inserter) : table * list thread := (s.1, map in_map s.2).

Lemma frag_at_set (m : table) i j f : (i < length (values m))%nat -> frag_at (set_frag m i f) j = if decide (i = j) then Some f else frag_at m j.
Proof.
  intros Hi. unfold frag_at, set_frag. cbn [values]. destruct (decide (i = j)) as [<-|Hne]; [by rewrite list_lookup_insert_eq|by rewrite list_lookup_insert_ne].
Qed.

Lemma frag_at_lt (m : table) i f : frag_at m i = Some f -> (i < length (values m))%nat.
Proof. unfold frag_at. intros (x & Hx & _)%bind_Some. by eapply lookup_lt_Some. Qed.

(** Requests whose alignments are those of sections. *)
Definition aligned (reqs : list (bytes * Z)) : Prop := Forall (fun '(_, p) => 0 <= p < 31) reqs.

Record insert_inv (reqs : list (bytes * Z)) (s : table * list inserter) : Prop := {
  ii_map : inv nbuckets hash_string (map fst reqs) (proj s);
  ii_reqs : map (fun t => (t_key (in_map t), in_align t)) s.2 = reqs;
  ii_init : initialized (fun f => is_alive f = alive /\ f_offset f = u32 (-1)) (proj s);
  ii_publish : forall t, t ∈ s.2 -> t_phase (in_map t) = Publish -> frag_at s.1 (Z.to_nat (t_idx (in_map t))) = Some new_frag;
  ii_low : forall t f, t ∈ s.2 -> frag_at s.1 (Z.to_nat (t_idx (in_map t))) = Some f ->
    match in_raise t with NotYet => True | Compare old => old <= p2align f | Raised => in_align t <= p2align f end;
  ii_done : forall t, t ∈ s.2 -> in_raise t <> NotYet -> exists b, t_phase (in_map t) = Done b;
  ii_high : forall i k f, keys s.1 !! i = Some (Key k) -> frag_at s.1 i = Some f -> 0 <= p2align f /\ (p2align f = 0 \/ (k, p2align f) ∈ reqs) }.

Lemma ii_request reqs s t : insert_inv reqs s -> t ∈ s.2 -> (t_key (in_map t), in_align t) ∈ reqs.
Proof. intros I Ht. rewrite <- (ii_reqs _ _ I). by apply (list_elem_of_fmap_2 (fun t => (t_key (in_map t), in_align t))). Qed.

Lemma insert_inv_start reqs : insert_inv reqs (start_insertions reqs).
Proof.
  assert (Hp : proj (start_insertions reqs) = start nbuckets hash_string (map fst reqs)).
  { unfold proj, start_insertions, start. cbn [fst snd]. f_equal. rewrite !map_map. apply map_ext. by intros [k p]. }
  assert (Hin : forall t, t ∈ (start_insertions reqs).2 -> t_phase (in_map t) = Load /\ in_raise t = NotYet).
  { intros t Ht. apply list_elem_of_fmap in Ht as ([k p] & -> & _). done. }
  split.
  - rewrite Hp. by eapply map_inv_start.
  - unfold start_insertions. cbn [snd]. rewrite map_map. rewrite <- (map_id reqs) at 2. apply map_ext. by intros [k p].
  - intros t Ht Ot. apply list_elem_of_fmap in Ht as (u & -> & Hu). destruct (Hin u Hu) as [E _]. unfold owner in Ot. by rewrite E in Ot.
  - intros t Ht E. destruct (Hin t Ht). congruence.
  - intros t f Ht _. destruct (Hin t Ht) as [_ ->]. done.
  - intros t Ht E. destruct (Hin t Ht). congruence.
  - intros i k f Hk. unfold start_insertions, new_map in Hk. cbn [fst keys] in Hk. apply lookup_replicate in Hk as [? _]. done.
Qed.

(** The value of a bucket changes, and the keys do not. *)
Lemma inv_same_keys reqs (m m' : table) ts : inv nbuckets hash_string reqs (m, ts) -> keys m' = keys m -> length (values m') = length (values m) ->
  inv nbuckets hash_string reqs (m', ts).
Proof.
  intros [I1 I2 I3 I4 I5] Ek El. cbn [fst snd] in *. split; cbn [fst snd]; rewrite ?Ek, ?El; done.
Qed.

Lemma lookup_insert_cases {A} (l : list A) a x b y : <[a := x]> l !! b = Some y -> b = a /\ y = x \/ b <> a /\ l !! b = Some y.
Proof.
  destruct (decide (a = b)) as [<-|Hne].
  - intros H. left. split; [done|]. assert (a < length l)%nat by (apply lookup_lt_Some in H; by rewrite length_insert in H). rewrite list_lookup_insert_eq in H by done. congruence.
  - rewrite list_lookup_insert_ne by done. right. by split.
Qed.

Lemma elem_of_insert_cases {A} (l : list A) a x y : y ∈ <[a := x]> l -> y = x \/ exists b, b <> a /\ l !! b = Some y.
Proof. intros [b Hb]%list_elem_of_lookup. apply lookup_insert_cases in Hb as [[_ ->]|[Hne Hb]]; [by left|right; by exists b]. Qed.

(** A step in the map. *)
Lemma map_step reqs s a sp t m' t' : insert_inv reqs s -> s.2 !! a = Some t -> (forall b, t_phase (in_map t) <> Done b) ->
  advance nbuckets new_frag sp s.1 (in_map t) = Some (m', t') -> insert_inv reqs (m', <[a := mkInserter t' (in_align t) (in_raise t)]> s.2).
Proof.
  intros I Ha Hd E. pose proof I as [I1 I2 I3 I4 I5 I6 I7]. pose proof (list_elem_of_lookup_2 _ _ _ Ha) as Ht.
  assert (Hr : in_raise t = NotYet) by (destruct (in_raise t) eqn:Er; [done|..]; (destruct (I6 t Ht) as [b Hb]; [by rewrite Er|by destruct (Hd b)])).
  assert (Hin : in_map t ∈ map in_map s.2) by (by apply (list_elem_of_fmap_2 in_map)).
  assert (Hadv : advance_at nbuckets new_frag (a, sp) (proj s) = Some (m', <[a := t']> (map in_map s.2))).
  { apply advance_at_some with (in_map t); [|done]. cbn [proj snd]. change ((in_map <$> s.2) !! a = Some (in_map t)). rewrite list_lookup_fmap. by rewrite Ha. }
  assert (Hproj : proj (m', <[a := mkInserter t' (in_align t) (in_raise t)]> s.2) = (m', <[a := t']> (map in_map s.2))).
  { unfold proj. cbn [fst snd]. f_equal. change (in_map <$> <[a := mkInserter t' (in_align t) (in_raise t)]> s.2 = <[a := t']> (in_map <$> s.2)). by rewrite list_fmap_insert. }
  destruct (advance_effect nbuckets n Hn Hnb hash_string _ _ _ _ _ _ (iv_threads _ _ _ _ I1 _ Hin) (proj1 (iv_length _ _ _ _ I1)) E) as (Ef & Hk & _ & _).
  destruct (effect_mono _ _ _ _ Ef) as (L & M & O). cbn [proj fst] in *.
  (* fragments of buckets with a key, or that another thread owns, stay *)
  assert (Hkeep : forall i, (t_phase (in_map t) = Write -> i <> Z.to_nat (t_idx (in_map t))) -> frag_at m' i = frag_at s.1 i).
  { intros i Hi. unfold frag_at. destruct (advance_values nbuckets _ _ _ _ _ _ E) as [(Ew & -> & _)|[-> _]]; [|done]. rewrite list_lookup_insert_ne; [done|]. intros Ei. by apply (Hi Ew). }
  assert (Hbusy : t_phase (in_map t) = Write -> keys s.1 !! Z.to_nat (t_idx (in_map t)) = Some Busy).
  { intros Ew. pose proof (iv_threads _ _ _ _ I1 _ Hin) as [_ _ _ T]. by rewrite Ew in T. }
  split.
  - rewrite Hproj. by eapply map_inv_step.
  - cbn [snd]. rewrite <- I2. apply list_eq. intros b.
    change (((fun t => (t_key (in_map t), in_align t)) <$> <[a := mkInserter t' (in_align t) (in_raise t)]> s.2) !! b = ((fun t => (t_key (in_map t), in_align t)) <$> s.2) !! b).
    rewrite list_fmap_insert. cbn [in_map in_align]. rewrite Hk. rewrite list_insert_id; [done|]. rewrite list_lookup_fmap. by rewrite Ha.
  - rewrite Hproj. apply (initialized_step nbuckets n Hn Hnb hash_string _ new_frag (map fst reqs) (a, sp) (proj s)); [done|exact I1|exact I3|exact Hadv].
  - intros u Hu Eu. cbn [fst snd] in *. apply elem_of_insert_cases in Hu as [->|(b & Hb & Hu)]; cbn [in_map] in *.
    + destruct (advance_values nbuckets _ _ _ _ _ _ E) as [(Ew & Ev & ->)|[Ev Hown]].
      * cbn [at_phase t_idx]. unfold frag_at. rewrite Ev, list_lookup_insert_eq; [done|]. pose proof (proj2 (iv_length _ _ _ _ I1)) as Lv. cbn [proj fst] in Lv. rewrite Lv.
        destruct (iv_threads _ _ _ _ I1 _ Hin) as [[-> _] _ _ _]. by apply (slot_lt nbuckets n).
      * destruct Hown as (H1 & H2 & ->); [unfold owner; by rewrite Eu|by rewrite Eu|]. exfalso. unfold owner in H1. destruct (t_phase (in_map t)) as [| | | |[]|] eqn:Ep; try done; [|by destruct (Hd true)].
        unfold advance in E. rewrite Ep in E. injection E as _ <-. done.
    + rewrite Hkeep; [by apply I4; [eapply list_elem_of_lookup_2|]|]. intros Ew Ei.
      assert (b = a); [|done]. apply (iv_owner _ _ _ _ I1 b a (in_map u) (in_map t)); cbn [proj snd]; [..|done].
      * change ((in_map <$> s.2) !! b = Some (in_map u)). rewrite list_lookup_fmap. by rewrite Hu.
      * change ((in_map <$> s.2) !! a = Some (in_map t)). rewrite list_lookup_fmap. by rewrite Ha.
      * unfold owner. by rewrite Eu.
      * unfold owner. by rewrite Ew.
  - intros u f Hu Hf. cbn [fst snd] in *. apply elem_of_insert_cases in Hu as [->|(b & Hb & Hu)]; cbn [in_map in_raise] in *; [by rewrite Hr|].
    pose proof (list_elem_of_lookup_2 _ _ _ Hu) as Hu'. destruct (in_raise u) eqn:Er; [done|..]; (destruct (I6 u Hu') as [d Hd']; [by rewrite Er|]);
      (rewrite Hkeep in Hf; [specialize (I5 u f Hu' Hf); by rewrite Er in I5|]); intros Ew Ei;
      pose proof (iv_threads _ _ _ _ I1 (in_map u) ltac:(by apply (list_elem_of_fmap_2 in_map))) as [_ _ _ U]; cbn [proj fst] in U; rewrite Hd', Ei, (Hbusy Ew) in U; done.
  - intros u Hu Eu. cbn [fst snd] in *. apply elem_of_insert_cases in Hu as [->|(b & Hb & Hu)]; cbn [in_raise] in *; [congruence|].
    apply I6; [by eapply list_elem_of_lookup_2|done].
  - intros i k f Hki Hf. cbn [fst] in *. destruct (decide (keys s.1 !! i = Some (Key k))) as [Hold|Hnew].
    + rewrite Hkeep in Hf; [by eapply I7|]. intros Ew ->. rewrite (Hbusy Ew) in Hold. done.
    + destruct Ef as [Ek _ _|_ Ek _ _ _|Hb Ek O1 O2 _]; [congruence|..]; rewrite Ek in Hki; apply lookup_insert_cases in Hki as [[-> Hki]|[_ Hki]]; try done.
      injection Hki as ->. assert (Ep : t_phase (in_map t) = Publish).
      { unfold advance in E. unfold owner in O1. destruct (t_phase (in_map t)) as [| | | |[]|] eqn:Ep; try done. injection E as <- _. cbn [keys] in Ek.
        assert (Hx : keys s.1 !! Z.to_nat (t_idx (in_map t)) = Some (Key (t_key (in_map t)))) by (rewrite Ek; apply list_lookup_insert_eq; by eapply lookup_lt_Some). congruence. }
      rewrite Hkeep in Hf by (intros; congruence). rewrite (I4 t Ht Ep) in Hf. injection Hf as <-. cbn [new_frag p2align]. split; [lia|by left].
Qed.

(** A step of [update_maximum]: the value of the bucket may grow. *)
Record raised (m m' : table) (t t' : inserter) : Prop := {
  rs_keys : keys m' = keys m;
  rs_length : length (values m') = length (values m);
  rs_map : in_map t' = in_map t /\ in_align t' = in_align t /\ in_raise t' <> NotYet;
  rs_other : forall i, i <> Z.to_nat (t_idx (in_map t)) -> values m' !! i = values m !! i;
  rs_value : exists f f', frag_at m (Z.to_nat (t_idx (in_map t))) = Some f /\ values m' !! Z.to_nat (t_idx (in_map t)) = Some (Some f') /\
    is_alive f' = is_alive f /\ f_offset f' = f_offset f /\ p2align f <= p2align f' /\ (p2align f' = p2align f \/ p2align f' = in_align t) /\
    match in_raise t' with NotYet => True | Compare old => old <= p2align f' | Raised => in_align t <= p2align f' end }.

Lemma raise_step sp (m m' : table) t t' b f0 : t_phase (in_map t) = Done b -> 0 <= in_align t < 31 -> frag_at m (Z.to_nat (t_idx (in_map t))) = Some f0 ->
  match in_raise t with NotYet => True | Compare old => old <= p2align f0 | Raised => in_align t <= p2align f0 end ->
  insert_step sp m t = Some (m', t') -> raised m m' t t'.
Proof.
  intros Ep Hp Hf Hlow. unfold insert_step. rewrite Ep. set (i := Z.to_nat (t_idx (in_map t))) in *.
  assert (Hv : values m !! i = Some (Some f0)) by (unfold frag_at in Hf; apply bind_Some in Hf as (x & Hx & ->); done).
  destruct (in_raise t) as [|old|] eqn:Er; [..|done].
  - rewrite Hf. cbn [mbind option_bind]. intros [= <- <-]. split; try done. exists f0, f0. cbn [in_raise]. repeat split; (done || lia || by left).
  - destruct (Z.ltb_spec old (in_align t)).
    + rewrite Hf. cbn [mbind option_bind]. destruct (sp || negb (p2align f0 =? old)) eqn:Ec; intros [= <- <-].
      * split; try done. exists f0, f0. cbn [in_raise]. repeat split; (done || lia || by left).
      * apply orb_false_iff in Ec as [_ Ec]. apply negb_false_iff, Z.eqb_eq in Ec.
        split; cbn [set_frag keys values in_map in_align in_raise]; [done|apply length_insert|done| |].
        -- intros j Hj. by rewrite list_lookup_insert_ne.
        -- eexists f0, _. split; [done|]. split; [apply list_lookup_insert_eq; by eapply lookup_lt_Some|]. cbn [is_alive f_offset p2align].
           unfold u8. rewrite wrap_small by (unfold is_u; lia). repeat split; (done || lia || by right).
    + intros [= <- <-]. split; try done. exists f0, f0. cbn [in_raise]. repeat split; (done || lia || by left).
Qed.

Lemma raised_inv reqs s a t m' t' b : aligned reqs -> insert_inv reqs s -> s.2 !! a = Some t -> t_phase (in_map t) = Done b -> raised s.1 m' t t' ->
  insert_inv reqs (m', <[a := t']> s.2).
Proof.
  intros Hal I Ha Ep [Rk Rl (Rm & Rp & Rr) Ro (f & f' & Hf & Hf' & Fa & Fo & Fle & Fp & Fl)]. pose proof I as [I1 I2 I3 I4 I5 I6 I7].
  pose proof (list_elem_of_lookup_2 _ _ _ Ha) as Ht. set (i := Z.to_nat (t_idx (in_map t))) in *.
  assert (Hin : in_map t ∈ map in_map s.2) by (by apply (list_elem_of_fmap_2 in_map)).
  assert (Hkey : keys s.1 !! i = Some (Key (t_key (in_map t)))) by (pose proof (iv_threads _ _ _ _ I1 _ Hin) as [_ _ _ T]; by rewrite Ep in T).
  assert (Hv : values s.1 !! i = Some (Some f)) by (unfold frag_at in Hf; apply bind_Some in Hf as (x & Hx & ->); done).
  assert (Hproj : proj (m', <[a := t']> s.2) = (m', map in_map s.2)).
  { unfold proj. cbn [fst snd]. f_equal. change (in_map <$> <[a := t']> s.2 = in_map <$> s.2). rewrite list_fmap_insert, Rm, list_insert_id; [done|]. rewrite list_lookup_fmap. by rewrite Ha. }
  assert (Hfrag : frag_at m' i = Some f') by (unfold frag_at; by rewrite Hf').
  assert (Hother : forall j, j <> i -> frag_at m' j = frag_at s.1 j) by (intros j Hj; unfold frag_at; by rewrite Ro).
  assert (Hall : forall u, u ∈ <[a := t']> s.2 -> u = t' \/ u ∈ s.2) by (intros u [->|(c & _ & Hc)]%elem_of_insert_cases; [by left|right; by eapply list_elem_of_lookup_2]).
  split; cbn [fst snd].
  - rewrite Hproj. by apply (inv_same_keys _ s.1).
  - rewrite <- I2. change (((fun t => (t_key (in_map t), in_align t)) <$> <[a := t']> s.2) = ((fun t => (t_key (in_map t), in_align t)) <$> s.2)).
    rewrite list_fmap_insert, Rm, Rp, list_insert_id; [done|]. rewrite list_lookup_fmap. by rewrite Ha.
  - rewrite Hproj. intros u Hu Ou Pu. cbn [fst snd] in *. destruct (I3 u Hu Ou Pu) as (v & Ev & Pv). cbn [proj fst] in Ev. destruct (decide (Z.to_nat (t_idx u) = i)) as [Ei|Ei].
    + rewrite Ei in *. exists f'. split; [done|]. assert (v = f) as -> by congruence. by rewrite Fa, Fo.
    + exists v. by rewrite Ro.
  - intros u Hu Eu. destruct (Hall u Hu) as [->|Hu']; [congruence|]. rewrite Hother; [by apply I4|]. intros Ei.
    pose proof (iv_threads _ _ _ _ I1 (in_map u) ltac:(by apply (list_elem_of_fmap_2 in_map))) as [_ _ _ U]. cbn [proj fst] in U. rewrite Eu, Ei, Hkey in U. done.
  - intros u g Hu Hg. destruct (Hall u Hu) as [->|Hu'].
    + rewrite Rm in Hg. fold i in Hg. rewrite Rp. assert (g = f') as -> by congruence. done.
    + destruct (decide (Z.to_nat (t_idx (in_map u)) = i)) as [Ei|Ei].
      * rewrite Ei in Hg. assert (g = f') as -> by congruence. pose proof (I5 u f Hu') as H5. rewrite Ei in H5. specialize (H5 Hf). destruct (in_raise u); (done || lia).
      * rewrite Hother in Hg by done. by apply I5.
  - intros u Hu Eu. destruct (Hall u Hu) as [->|Hu']; [exists b; by rewrite Rm|by apply I6].
  - intros j k g Hk Hg. rewrite Rk in Hk. destruct (decide (j = i)) as [->|Hj]; [|rewrite Hother in Hg by done; by eapply I7].
    assert (g = f') as -> by congruence. assert (k = t_key (in_map t)) as -> by congruence. destruct (I7 i _ f Hkey Hf) as [F1 F2]. split; [lia|].
    destruct Fp as [->| ->]; [done|]. right. by apply (ii_request reqs s).
Qed.

Lemma insert_inv_step reqs c s s' : aligned reqs -> insert_inv reqs s -> insert_at c s = Some s' -> insert_inv reqs s'.
Proof.
  intros Hal I. unfold insert_at. destruct (s.2 !! c.1) as [t|] eqn:Et; [|done]. cbn [mbind option_bind].
  destruct (insert_step c.2 s.1 t) as [[m' t']|] eqn:E; [|done]. intros [= <-]. pose proof (list_elem_of_lookup_2 _ _ _ Et) as Ht.
  destruct (t_phase (in_map t)) as [| | | |b|] eqn:Ep.
  5:{ assert (Hin : in_map t ∈ (proj s).2) by (by apply (list_elem_of_fmap_2 in_map)). pose proof I as [I1 I2 I3 I4 I5 I6 I7].
      pose proof (done_bucket nbuckets hash_string _ _ _ _ I1 Hin Ep) as Hb. destruct (key_inserted nbuckets hash_string _ _ _ _ I1 Hb) as (a & u & Ha & Ek & Eu & Ei).
      destruct (I3 u) as (f & Hf & _); [by eapply list_elem_of_lookup_2|unfold owner; by rewrite Eu|by rewrite Eu|]. rewrite Ei in Hf. cbn [proj fst] in Hf.
      assert (Hfa : frag_at s.1 (Z.to_nat (t_idx (in_map t))) = Some f) by (unfold frag_at; by rewrite Hf).
      assert (Hp : 0 <= in_align t < 31). { unfold aligned in Hal. rewrite Forall_forall in Hal. exact (Hal _ (ii_request _ _ _ I Ht)). }
      eapply raised_inv; [done|exact I|done|exact Ep|]. eapply raise_step; [exact Ep|exact Hp|exact Hfa|exact (I5 t f Ht Hfa)|exact E]. }
  all: unfold insert_step in E; rewrite Ep in E; apply bind_Some in E as ([m1 t1] & E & [= <- <-]);
    apply (map_step reqs s c.1 c.2 t m1 t1 I Et); [intros b; congruence|done].
Qed.

Lemma insert_inv_reachable reqs s : aligned reqs -> rtc insertion (start_insertions reqs) s -> insert_inv reqs s.
Proof.
  intros Hal H. assert (G : forall x y, rtc insertion x y -> insert_inv reqs x -> insert_inv reqs y).
  { induction 1 as [x|x y z [c Hc] _ IH]; [done|]. intros Hx. apply IH. by eapply insert_inv_step. }
  by apply (G _ _ H), insert_inv_start.
Qed.

(** ** The table when all pieces are inserted *)

Definition max_align (reqs : list (bytes * Z)) (k : bytes) : Z := foldr (fun '(k', p) x => if decide (k' = k) then Z.max p x else x) 0 reqs.

(** One fragment for every piece, whose alignment is that of the most aligned section. *)
Record table_of (reqs : list (bytes * Z)) (live : bytes -> bool) (m : table) : Prop := {
  to_length : length (keys m) = Z.to_nat nbuckets /\ length (values m) = Z.to_nat nbuckets;
  to_key : forall i k, keys m !! i = Some (Key k) -> k ∈ map fst reqs /\ shard_of nbuckets (Z.of_nat i) = shard_of nbuckets (start_idx nbuckets (hash_string k));
  to_frag : forall i k, keys m !! i = Some (Key k) -> exists f, frag_at m i = Some f /\ p2align f = max_align reqs k /\ is_alive f = live k;
  to_once : forall i j k, keys m !! i = Some (Key k) -> keys m !! j = Some (Key k) -> i = j;
  to_all : forall k, k ∈ map fst reqs -> exists i, keys m !! i = Some (Key k) }.

Lemma max_align_ge reqs k p : (k, p) ∈ reqs -> p <= max_align reqs k.
Proof.
  induction reqs as [|[k' q] l IH]; [by intros ?%elem_of_nil|]. cbn [max_align foldr]. fold (max_align l k). intros [[= <- <-]|Hin]%elem_of_cons.
  - rewrite decide_True by done. lia.
  - specialize (IH Hin). case_decide; lia.
Qed.

Lemma max_align_le reqs k x : 0 <= x -> (forall p, (k, p) ∈ reqs -> p <= x) -> max_align reqs k <= x.
Proof.
  intros Hx. induction reqs as [|[k' q] l IH]; intros H; [done|]. cbn [max_align foldr]. fold (max_align l k).
  assert (max_align l k <= x) by (apply IH; intros p Hp; apply H; by constructor). case_decide as Ek; [|done]. subst k'. specialize (H q ltac:(by constructor)). lia.
Qed.

Lemma max_align_range reqs k : aligned reqs -> 0 <= max_align reqs k < 31.
Proof.
  intros Hal. split.
  - induction reqs as [|[k' q] l IH]; [done|]. apply Forall_cons in Hal as [_ Hal]. cbn [max_align foldr]. fold (max_align l k). specialize (IH Hal). case_decide; lia.
  - assert (max_align reqs k <= 30); [|lia]. apply max_align_le; [lia|]. intros p Hp. unfold aligned in Hal. rewrite Forall_forall in Hal. specialize (Hal _ Hp). simpl in Hal. lia.
Qed.

Lemma inserted_table reqs s : aligned reqs -> rtc insertion (start_insertions reqs) s -> all_inserted s ->
  table_of reqs (fun _ => alive) s.1 /\
  (forall a k p, reqs !! a = Some (k, p) -> exists t, s.2 !! a = Some t /\ keys s.1 !! Z.to_nat (t_idx (in_map t)) = Some (Key k)).
Proof.
  intros Hal H Hd. pose proof (insert_inv_reachable _ _ Hal H) as I. pose proof I as [I1 I2 I3 I4 I5 I6 I7].
  assert (Hkey : forall t, t ∈ s.2 -> exists b, t_phase (in_map t) = Done b /\ keys s.1 !! Z.to_nat (t_idx (in_map t)) = Some (Key (t_key (in_map t)))).
  { intros t Ht. destruct (I6 t Ht) as [b Hb]; [by rewrite (Hd t Ht)|]. exists b. split; [done|].
    apply (done_bucket nbuckets hash_string _ _ _ _ I1 ltac:(by apply (list_elem_of_fmap_2 in_map)) Hb). }
  assert (Hreq : forall a k p, reqs !! a = Some (k, p) -> exists t, s.2 !! a = Some t /\ t_key (in_map t) = k /\ in_align t = p).
  { intros a k p Ha. rewrite <- I2 in Ha. change (((fun t => (t_key (in_map t), in_align t)) <$> s.2) !! a = Some (k, p)) in Ha.
    rewrite list_lookup_fmap in Ha. apply fmap_Some in Ha as (t & Ht & [= -> ->]). by exists t. }
  split; [split|].
  - apply (iv_length _ _ _ _ I1).
  - intros i k Hk. apply (key_shard nbuckets n Hn Hnb hash_string _ _ _ _ I1 Hk).
  - intros i k Hk. destruct (key_inserted nbuckets hash_string _ _ _ _ I1 Hk) as (a & u & Ha & Ek & Eu & Ei).
    destruct (I3 u) as (f & Hf & Fa & _); [by eapply list_elem_of_lookup_2|unfold owner; by rewrite Eu|by rewrite Eu|]. rewrite Ei in Hf. cbn [proj fst] in Hf.
    assert (Hfa : frag_at s.1 i = Some f) by (unfold frag_at; by rewrite Hf). exists f. split; [done|]. split; [|done].
    destruct (I7 i k f Hk Hfa) as [F0 F1]. apply Z.le_antisymm.
    + destruct F1 as [F1|F1]; [|by apply max_align_ge]. rewrite F1. destruct (max_align_range reqs k Hal). done.
    + apply max_align_le; [done|]. intros p [c Hc]%list_elem_of_lookup. destruct (Hreq c k p Hc) as (t & Ht & Et & Ep). pose proof (list_elem_of_lookup_2 _ _ _ Ht) as Hin.
      destruct (Hkey t Hin) as (b & _ & Hb). rewrite Et in Hb. pose proof (key_once nbuckets hash_string _ _ _ _ _ I1 Hb Hk) as E.
      pose proof (I5 t f Hin) as H5. rewrite E in H5. specialize (H5 Hfa). rewrite (Hd t Hin) in H5. lia.
  - intros i j k. apply (key_once nbuckets hash_string _ (proj s) i j k I1).
  - intros k Hk. apply list_elem_of_fmap in Hk as ([k' p] & -> & Hk). apply list_elem_of_lookup in Hk as [a Ha]. destruct (Hreq a k' p Ha) as (t & Ht & Et & _).
    destruct (Hkey t) as (b & _ & Hb); [by eapply list_elem_of_lookup_2|]. rewrite Et in Hb. by exists (Z.to_nat (t_idx (in_map t))).
  - intros a k p Ha. destruct (Hreq a k p Ha) as (t & Ht & Et & _). exists t. split; [done|]. destruct (Hkey t) as (b & _ & Hb); [by eapply list_elem_of_lookup_2|]. by rewrite Et in Hb.
Qed.

(** Marking makes the keys of the marked buckets alive. *)
Lemma mark_frag_table reqs live m i k : table_of reqs live m -> keys m !! i = Some (Key k) ->
  exists m', mark_frags [i] m = m' /\ keys m' = keys m /\ table_of reqs (fun k' => live k' || bool_decide (k' = k)) m'.
Proof.
  intros [T1 T2 T3 T4 T5] Hk. eexists. split; [reflexivity|]. cbn [mark_frags foldr]. destruct (T3 i k Hk) as (f & Hf & Fp & Fa). rewrite Hf.
  pose proof (frag_at_lt _ _ _ Hf) as Hlt. split; [done|]. split; cbn [set_frag keys values]; [by rewrite length_insert|done| |done|done].
  intros j k' Hk'. rewrite frag_at_set by done. destruct (decide (i = j)) as [<-|Hij].
  - assert (k' = k) as -> by congruence. eexists. split; [reflexivity|]. cbn [p2align is_alive]. split; [done|]. rewrite bool_decide_true by done. by rewrite orb_true_r.
  - destruct (T3 j k' Hk') as (g & Hg & Gp & Ga). exists g. split; [done|]. split; [done|]. rewrite bool_decide_false; [by rewrite orb_false_r|]. intros ->. apply Hij. by eapply T4.
Qed.

Lemma table_live reqs live live' m : table_of reqs live m -> (forall k, k ∈ map fst reqs -> live k = live' k) -> table_of reqs live' m.
Proof.
  intros [T1 T2 T3 T4 T5] H. split; try done. intros i k Hk. destruct (T3 i k Hk) as (f & F1 & F2 & F3). exists f. split; [done|]. split; [done|].
  rewrite F3. apply H. by apply (T2 i).
Qed.

(** [l] are the buckets of fragments that are reached; their keys become alive. *)
Lemma mark_table reqs live m l : table_of reqs live m -> (forall i, i ∈ l -> exists k, keys m !! i = Some (Key k)) ->
  keys (mark_frags l m) = keys m /\
  table_of reqs (fun k => live k || existsb (fun i => bool_decide (keys m !! i = Some (Key k))) l) (mark_frags l m).
Proof.
  induction l as [|i l IH]; intros T Hl.
  - split; [done|]. eapply table_live; [exact T|]. intros k _. cbn [existsb]. by rewrite orb_false_r.
  - destruct IH as [IH1 IH2]; [done|intros j Hj; apply Hl; by constructor|]. destruct (Hl i ltac:(by constructor)) as [k Hk].
    destruct (mark_frag_table _ _ (mark_frags l m) i k IH2) as (m' & E & K & T'); [by rewrite IH1|]. change (mark_frags (i :: l) m) with (mark_frags [i] (mark_frags l m)).
    rewrite E. split; [congruence|]. eapply table_live; [exact T'|]. intros k' _. cbn [existsb]. rewrite Hk.
    replace (bool_decide (Some (Key k) = Some (Key k'))) with (bool_decide (k' = k)) by (apply bool_decide_ext; split; congruence).
    rewrite <- orb_assoc. f_equal. apply orb_comm.
Qed.

(** ** The fragments of a shard *)

Definition size : nat := Z.to_nat (shard_size nbuckets).
Definition in_shard (i j : nat) : Prop := (size * i <= j < size * i + size)%nat.

Lemma size_pos : (0 < size)%nat.
Proof. unfold size. pose proof (shard_size_large nbuckets n Hn Hnb). unfold MAX_RETRY in *. lia. Qed.

Lemma size_shards : Z.to_nat nbuckets = (16 * size)%nat.
Proof. unfold size. pose proof (nbuckets_shards nbuckets n Hn Hnb) as E. unfold NUM_SHARDS in E. pose proof (shard_size_large nbuckets n Hn Hnb). unfold MAX_RETRY in *. lia. Qed.

Lemma in_shard_unique i i' j : in_shard i j -> in_shard i' j -> i = i'.
Proof. unfold in_shard. pose proof size_pos. intros. assert (i < S i')%nat by nia. assert (i' < S i)%nat by nia. lia. Qed.

Lemma shard_of_slot j i : in_shard i j <-> shard_of nbuckets (Z.of_nat j) = Z.of_nat i.
Proof.
  unfold in_shard, size, shard_of. set (s := shard_size nbuckets). assert (0 < s) by (pose proof size_pos; unfold size in *; fold s in H; lia).
  pose proof (Z.div_mod (Z.of_nat j) s ltac:(lia)). pose proof (Z.mod_pos_bound (Z.of_nat j) s ltac:(lia)). split.
  - intros Hj. symmetry. apply (Z.div_unique_pos _ _ _ (Z.of_nat j - s * Z.of_nat i)); nia.
  - intros E. rewrite E in *. nia.
Qed.

Lemma slot_shard j : (j < Z.to_nat nbuckets)%nat -> exists i, (i < 16)%nat /\ in_shard i j.
Proof.
  intros Hj. pose proof size_shards. pose proof size_pos. exists (j / size)%nat. unfold in_shard.
  pose proof (Nat.div_mod j size ltac:(lia)). pose proof (Nat.mod_upper_bound j size ltac:(lia)). split; [|lia]. apply Nat.Div0.div_lt_upper_bound. lia.
Qed.

Lemma shard_frags_in m i k f j : (k, f, j) ∈ shard_frags m i <-> in_shard i j /\ keys m !! j = Some (Key k) /\ frag_at m j = Some f /\ is_alive f = true.
Proof.
  unfold shard_frags. fold size. rewrite list_elem_of_omap. unfold in_shard. split.
  - intros (j' & Hj & E). apply elem_of_seq in Hj. destruct (keys m !! j') as [[| |k']|] eqn:Ek; try done. destruct (frag_at m j') as [f'|] eqn:Ef; [|done].
    cbn [mbind option_bind] in E. destruct (is_alive f') eqn:Ea; [|done]. injection E as -> -> ->. done.
  - intros (Hj & Ek & Ef & Ea). exists j. rewrite elem_of_seq. split; [done|]. rewrite Ek, Ef. cbn [mbind option_bind]. by rewrite Ea.
Qed.

Lemma shard_frags_ext m m' i : (forall j, in_shard i j -> keys m' !! j = keys m !! j /\ frag_at m' j = frag_at m j) -> shard_frags m' i = shard_frags m i.
Proof.
  intros H. unfold shard_frags. fold size. assert (H' : forall j, j ∈ seq (size * i) size -> keys m' !! j = keys m !! j /\ frag_at m' j = frag_at m j).
  { intros j Hj%elem_of_seq. by apply H. }
  clear H. induction (seq (size * i) size) as [|j l IH]; [done|]. cbn [omap list_omap]. destruct (H' j ltac:(by constructor)) as [-> ->].
  rewrite IH; [done|]. intros x Hx. apply H'. by constructor.
Qed.

Lemma shard_frags_slots m i : NoDup (map snd (shard_frags m i)).
Proof.
  unfold shard_frags. fold size. assert (Hs : forall l, NoDup l -> forall g : nat -> option (bytes * SectionFragment), 
    NoDup (map snd (omap (fun j => x ← g j; Some (x, j)) l)) /\ forall j, j ∈ map snd (omap (fun j => x ← g j; Some (x, j)) l) -> j ∈ l).
  { intros l Hl g. induction Hl as [|j l Hj Hl [IH1 IH2]]; [split; [constructor|done]|]. cbn [omap list_omap]. destruct (g j) as [x|]; cbn [mbind option_bind map].
    - split; [constructor; [by intros ?%IH2|done]|]. intros y [->|Hy]%elem_of_cons; [by constructor|constructor; by apply IH2].
    - split; [done|]. intros y Hy. constructor. by apply IH2. }
  destruct (Hs (seq (size * i) size) (NoDup_seq _ _)
    (fun j => match keys m !! j with Some (Key k) => f ← frag_at m j; if is_alive f then Some (k, f) else None | _ => None end)) as [H _].
  clear Hs. revert H. match goal with |- NoDup (map snd ?a) -> NoDup (map snd ?b) => replace b with a; [done|] end.
  induction (seq (size * i) size) as [|j l IH]; [done|]. cbn [omap list_omap]. rewrite IH.
  destruct (keys m !! j) as [[| |k]|]; try done. destruct (frag_at m j) as [f|]; [|done]. cbn [mbind option_bind]. by destruct (is_alive f).
Qed.

Lemma sorted_frags_perm m i : sorted_frags m i ≡ₚ shard_frags m i.
Proof. apply stable_sort_perm. Qed.

Lemma sorted_frags_slots m i : NoDup (map snd (sorted_frags m i)).
Proof. change (NoDup (snd <$> sorted_frags m i)). rewrite sorted_frags_perm. apply shard_frags_slots. Qed.

Lemma length_place l off p : length (place l off p).1.1 = length l.
Proof. revert off p. induction l as [|[k q] l IH]; intros off p; [done|]. cbn [place]. specialize (IH (align_to off (Z.shiftl 1 q) + zlen k) (Z.max p q)). destruct (place l _ _) as [[offs e] p']. simpl in *. by rewrite IH. Qed.

(** ** What the loops write *)

Lemma set_offset_frag (m : table) j off i : frag_at (set_offset j off m) i =
  if decide (j = i) then (fun f => mkFrag (u32 off) (p2align f) (is_alive f)) <$> frag_at m i else frag_at m i.
Proof.
  unfold set_offset. destruct (frag_at m j) as [f|] eqn:E.
  - rewrite frag_at_set by (by eapply frag_at_lt). destruct (decide (j = i)) as [<-|]; [by rewrite E|done].
  - destruct (decide (j = i)) as [<-|]; [by rewrite E|done].
Qed.

Lemma set_offset_same j off (m : table) : keys (set_offset j off m) = keys m /\ length (values (set_offset j off m)) = length (values m).
Proof. unfold set_offset. destruct (frag_at m j); [|done]. unfold set_frag. cbn [keys values]. by rewrite length_insert. Qed.

Lemma set_offsets_ok (l : list (nat * Z)) (m : table) : NoDup (map fst l) ->
  let m' := foldl (fun m '(j, off) => set_offset j off m) m l in
  keys m' = keys m /\ length (values m') = length (values m) /\
  (forall j off, (j, off) ∈ l -> frag_at m' j = (fun f => mkFrag (u32 off) (p2align f) (is_alive f)) <$> frag_at m j) /\
  (forall j, j ∉ map fst l -> frag_at m' j = frag_at m j).
Proof.
  revert m. induction l as [|[j off] l IH]; intros m Hn'; [split; [done|]; split; [done|]; split; [by intros j off ?%elem_of_nil|done]|].
  cbn [map fst] in Hn'. apply NoDup_cons in Hn' as [Hj Hn']. destruct (set_offset_same j off m) as [S1 S2]. destruct (IH (set_offset j off m) Hn') as (I1 & I2 & I3 & I4).
  cbn [foldl]. cbv zeta in *. split; [congruence|]. split; [congruence|]. split.
  - intros j' off' [[= -> ->]|Hin]%elem_of_cons; [rewrite I4 by done; rewrite set_offset_frag; by rewrite decide_True|].
    rewrite (I3 _ _ Hin), set_offset_frag. rewrite decide_False; [done|]. intros ->. apply Hj. by apply (list_elem_of_fmap_2 fst l (j', off')).
  - intros j' Hj'. rewrite I4 by (intros ?; apply Hj'; by constructor). rewrite set_offset_frag, decide_False; [done|]. intros ->. apply Hj'. by constructor.
Qed.

(** The offset of a bucket in its shard. *)
Definition placed_at (m : table) (i j : nat) (off : Z) : Prop := exists a x, sorted_frags m i !! a = Some x /\ x.2 = j /\ (placed m i).1.1 !! a = Some off.

Lemma assign_shard_ok i m : let m' := assign_shard i m in
  keys m' = keys m /\ length (values m') = length (values m) /\
  (forall j off, placed_at m i j off -> frag_at m' j = (fun f => mkFrag (u32 off) (p2align f) (is_alive f)) <$> frag_at m j) /\
  (forall j, (forall off, placed_at m i j off -> False) -> frag_at m' j = frag_at m j).
Proof.
  set (l := zip (map snd (sorted_frags m i)) (placed m i).1.1). assert (Hl : length (map snd (sorted_frags m i)) = length (placed m i).1.1).
  { unfold placed. by rewrite length_place, !length_map. }
  assert (Hn' : NoDup (map fst l)) by (change (NoDup (l.*1)); unfold l; rewrite fst_zip by lia; apply sorted_frags_slots).
  destruct (set_offsets_ok l m Hn') as (I1 & I2 & I3 & I4). cbv zeta. unfold assign_shard. fold l. split; [done|]. split; [done|]. split.
  - intros j off (a & x & Ha & <- & Hoff). apply I3. apply (list_elem_of_lookup_2 _ a). unfold l. rewrite lookup_zip_with.
    change ((snd <$> sorted_frags m i) !! a ≫= (fun x0 => (placed m i).1.1 !! a ≫= (fun y => Some (x0, y))) = Some (x.2, off)).
    rewrite list_lookup_fmap, Ha, Hoff. done.
  - intros j Hj. apply I4. intros Hin. change (j ∈ l.*1) in Hin. unfold l in Hin. rewrite fst_zip in Hin by lia. apply list_elem_of_fmap in Hin as (x & -> & Hx).
    apply list_elem_of_lookup in Hx as [a Ha]. destruct ((placed m i).1.1 !! a) as [off|] eqn:Eo; [apply (Hj off); by exists a, x|].
    apply lookup_ge_None in Eo. apply lookup_lt_Some in Ha. rewrite length_map in Hl. lia.
Qed.

Lemma placed_in_shard m i j off : placed_at m i j off -> in_shard i j.
Proof. intros (a & [[k f] j'] & Ha & <- & _). apply list_elem_of_lookup_2 in Ha. rewrite sorted_frags_perm in Ha. by apply shard_frags_in in Ha as [H _]. Qed.

Lemma placed_ext m m' i : (forall j, in_shard i j -> keys m' !! j = keys m !! j /\ frag_at m' j = frag_at m j) -> sorted_frags m' i = sorted_frags m i /\ placed m' i = placed m i.
Proof. intros H. unfold placed, sorted_frags. by rewrite (shard_frags_ext m m' i H). Qed.

Lemma assign_shards_ok (m : table) c : let m' := foldl (fun m i => assign_shard i m) m (seq 0 c) in
  keys m' = keys m /\ length (values m') = length (values m) /\
  forall i j, in_shard i j -> frag_at m' j = if (i <? c)%nat then frag_at (assign_shard i m) j else frag_at m j.
Proof.
  induction c as [|c (I1 & I2 & I3)]; [done|]. rewrite seq_S, foldl_app. cbn [foldl]. cbv zeta in *. set (m' := foldl _ m (seq 0 c)) in *. cbn [Nat.add].
  destruct (assign_shard_ok c m') as (A1 & A2 & A3 & A4). destruct (assign_shard_ok c m) as (_ & _ & B3 & B4). cbv zeta in *.
  split; [congruence|]. split; [congruence|]. intros i j Hj.
  assert (Hsame : forall j, in_shard c j -> keys m' !! j = keys m !! j /\ frag_at m' j = frag_at m j).
  { intros j' Hj'. split; [by rewrite I1|]. rewrite (I3 c j' Hj'). by rewrite Nat.ltb_irrefl. }
  destruct (placed_ext _ _ _ Hsame) as [P1 P2]. destruct (Nat.ltb_spec i (S c)).
  - destruct (decide (i = c)) as [->|Hic].
    + destruct (decide (Exists (fun x => snd x = j) (sorted_frags m c))) as [Hx|Hx].
      * apply Exists_exists in Hx as (x & Hx & Ex). apply list_elem_of_lookup in Hx as [a Ha].
        assert (Hpl : exists off, placed_at m c j off).
        { destruct ((placed m c).1.1 !! a) as [off|] eqn:Eo; [exists off; by exists a, x|]. exfalso. apply lookup_ge_None in Eo. apply lookup_lt_Some in Ha.
          unfold placed in Eo. rewrite length_place, length_map in Eo. lia. }
        destruct Hpl as [off Hpl]. rewrite (A3 j off) by (unfold placed_at in *; by rewrite P1, P2). rewrite (B3 j off Hpl). by destruct (Hsame j Hj) as [_ ->].
      * assert (Hno : forall off, placed_at m c j off -> False).
        { intros off (a & x & Ha & Ex & _). apply Hx, Exists_exists. exists x. split; [by eapply list_elem_of_lookup_2|done]. }
        rewrite A4; [rewrite B4 by done; by destruct (Hsame j Hj)|]. unfold placed_at in *. by rewrite P1, P2.
    + rewrite A4; [|intros off Hpl; apply Hic; by apply (in_shard_unique i c j Hj), placed_in_shard with m' off]. rewrite (I3 i j Hj).
      destruct (Nat.ltb_spec i c); [done|lia].
  - rewrite A4; [|intros off Hpl; assert (i = c) by (by apply (in_shard_unique i c j Hj), placed_in_shard with m' off); lia]. rewrite (I3 i j Hj).
    destruct (Nat.ltb_spec i c); [lia|done].
Qed.

Lemma shift_ok starts i (l : list nat) (m : table) : NoDup l ->
  let m' := foldl (fun m j => match frag_at m j with
                              | Some f => if is_alive f then set_offset j (f_offset f + nth i starts 0) m else m
                              | None => m
                              end) m l in
  keys m' = keys m /\ length (values m') = length (values m) /\
  forall j, frag_at m' j = if decide (j ∈ l) then
      (fun f => if is_alive f then mkFrag (u32 (f_offset f + nth i starts 0)) (p2align f) (is_alive f) else f) <$> frag_at m j
    else frag_at m j.
Proof.
  revert m. induction l as [|j l IH]; intros m Hn'; [done|]. apply NoDup_cons in Hn' as [Hj Hn']. cbn [foldl].
  set (m1 := match frag_at m j with Some f => if is_alive f then set_offset j (f_offset f + nth i starts 0) m else m | None => m end).
  assert (H1 : keys m1 = keys m /\ length (values m1) = length (values m) /\ forall j', frag_at m1 j' = if decide (j' = j) then
      (fun f => if is_alive f then mkFrag (u32 (f_offset f + nth i starts 0)) (p2align f) (is_alive f) else f) <$> frag_at m j' else frag_at m j').
  { unfold m1. destruct (frag_at m j) as [f|] eqn:E; [destruct (is_alive f) eqn:Ea|].
    - destruct (set_offset_same j (f_offset f + nth i starts 0) m) as [-> ->]. split; [done|]. split; [done|]. intros j'. rewrite set_offset_frag.
      destruct (decide (j = j')) as [<-|]; [rewrite decide_True by done; rewrite E; simpl; by rewrite Ea|by rewrite decide_False].
    - split; [done|]. split; [done|]. intros j'. destruct (decide (j' = j)) as [->|]; [|done]. rewrite E. simpl. by rewrite Ea.
    - split; [done|]. split; [done|]. intros j'. destruct (decide (j' = j)) as [->|]; [|done]. by rewrite E. }
  destruct H1 as (K1 & L1 & F1). destruct (IH m1 Hn') as (K2 & L2 & F2). cbv zeta in *. split; [congruence|]. split; [congruence|]. intros j'. rewrite F2, F1.
  destruct (decide (j' = j)) as [->|Hne].
  - rewrite decide_False by done. rewrite decide_True by constructor. done.
  - destruct (decide (j' ∈ l)); [rewrite decide_True by (by constructor); done|]. rewrite decide_False; [done|]. by intros [?|?]%elem_of_cons.
Qed.

Lemma shift_shards_ok starts (m : table) c : let m' := foldl (fun m i => shift_shard starts i m) m (seq 1 c) in
  keys m' = keys m /\ length (values m') = length (values m) /\
  forall i j, in_shard i j -> frag_at m' j = if (1 <=? i)%nat && (i <=? c)%nat then
      (fun f => if is_alive f then mkFrag (u32 (f_offset f + nth i starts 0)) (p2align f) (is_alive f) else f) <$> frag_at m j
    else frag_at m j.
Proof.
  induction c as [|c (I1 & I2 & I3)].
  - split; [done|]. split; [done|]. intros i j _. destruct (Nat.leb_spec 1 i), (Nat.leb_spec i 0); simpl; (done || lia).
  - rewrite seq_S, foldl_app. cbn [foldl]. cbv zeta in *. set (m' := foldl _ m (seq 1 c)) in *.
    destruct (shift_ok starts (1 + c) (seq (size * (1 + c)) size) m' (NoDup_seq _ _)) as (S1 & S2 & S3). cbv zeta in *. unfold shift_shard. fold size.
    split; [congruence|]. split; [congruence|]. intros i j Hj. rewrite S3, (I3 i j Hj).
    destruct (decide (j ∈ seq (size * (1 + c)) size)) as [Hin|Hin]; rewrite elem_of_seq in Hin.
    + assert (i = 1 + c)%nat as -> by (by apply (in_shard_unique i (1 + c) j)). destruct (Nat.leb_spec 1 (1 + c)); [|lia]. destruct (Nat.leb_spec (1 + c) c); [lia|]. destruct (Nat.leb_spec (1 + c) (S c)); [done|lia].
    + assert (i <> 1 + c)%nat by (intros ->; by apply Hin). destruct (Nat.leb_spec 1 i); [|done]. destruct (Nat.leb_spec i c), (Nat.leb_spec i (S c)); simpl; (done || lia).
Qed.

(** ** Offsets are aligned and apart *)

(** A bound on the space that pieces take. *)
Definition space (l : list bytes) : Z := foldr (fun k x => zlen k + 2 ^ 31 + x) 0 l.

Lemma space_nonneg l : 0 <= space l.
Proof. induction l as [|k l IH]; [done|]. cbn [space foldr]. fold (space l). pose proof (zlen_nonneg k). lia. Qed.

Lemma space_perm l l' : l ≡ₚ l' -> space l = space l'.
Proof. unfold space. induction 1; cbn [foldr]; lia. Qed.

Lemma space_app l l' : space (l ++ l') = space l + space l'.
Proof. induction l as [|k l IH]; [done|]. cbn [app space foldr]. fold (space l) (space (l ++ l')). lia. Qed.

Lemma space_subset l l' : NoDup l -> l ⊆ l' -> space l <= space l'.
Proof.
  intros Hn' Hs. assert (Hm : l ⊆+ l') by (by apply NoDup_submseteq). apply submseteq_Permutation in Hm as [k Hk].
  rewrite (space_perm _ _ Hk), space_app. pose proof (space_nonneg k). lia.
Qed.

Lemma align_shift offset q : 0 <= offset -> 0 <= q < 31 -> offset + 2 ^ 31 < 2 ^ 63 ->
  offset <= align_to offset (Z.shiftl 1 q) < offset + 2 ^ 31 /\ align_to offset (Z.shiftl 1 q) mod 2 ^ q = 0.
Proof.
  intros Ho Hq Hb. rewrite Z.shiftl_1_l. assert (2 ^ q <= 2 ^ 31) by (apply Z.pow_le_mono_r; lia).
  destruct (align_to_bounds offset q offset) as [H1 H2]; [lia|lia|lia|]. split; [lia|done].
Qed.

Record place_ok (l : list (bytes * Z)) (off p : Z) (offs : list Z) (e p' : Z) : Prop := {
  pl_align : p <= p' < 31 /\ forall k q, (k, q) ∈ l -> q <= p';
  pl_end : off <= e <= off + space (map fst l);
  pl_at : forall a k q o, l !! a = Some (k, q) -> offs !! a = Some o -> off <= o /\ o + zlen k <= e /\ o mod 2 ^ q = 0;
  pl_order : forall a b k q o o', (a < b)%nat -> l !! a = Some (k, q) -> offs !! a = Some o -> offs !! b = Some o' -> o + zlen k <= o' }.

Lemma place_spec l off p : Forall (fun '(_, q) => 0 <= q < 31) l -> 0 <= p < 31 -> 0 <= off -> off + space (map fst l) < 2 ^ 62 ->
  let '(offs, e, p') := place l off p in place_ok l off p offs e p'.
Proof.
  revert off p. induction l as [|[k q] l IH]; intros off p Hl Hp Ho Hb.
  { cbn [place]. split; [split; [lia|by intros k q ?%elem_of_nil]|simpl; lia|done|done]. }
  apply Forall_cons in Hl as [Hq Hl]. cbn [place]. pose proof (zlen_nonneg k). cbn [map fst space foldr] in Hb. fold (space (map fst l)) in Hb.
  pose proof (space_nonneg (map fst l)). destruct (align_shift off q Ho Hq ltac:(lia)) as [A1 A2]. set (o := align_to off (Z.shiftl 1 q)) in *.
  pose proof (length_place l (o + zlen k) (Z.max p q)) as Hlen.
  specialize (IH (o + zlen k) (Z.max p q) Hl ltac:(lia) ltac:(lia) ltac:(lia)). destruct (place l (o + zlen k) (Z.max p q)) as [[offs e] p']. destruct IH as [[P1 P1'] P2 P3 P4]. cbn [fst] in Hlen.
  split.
  - split; [lia|]. intros k' q' [[= -> ->]|Hin]%elem_of_cons; [lia|by eapply P1'].
  - cbn [map fst space foldr]. fold (space (map fst l)). lia.
  - intros [|a] k' q' o' Ha Hoff; cbn in Ha, Hoff.
    + injection Ha as -> ->. injection Hoff as <-. split; [lia|]. split; [lia|done].
    + destruct (P3 _ _ _ _ Ha Hoff) as (Q1 & Q2 & Q3). split; [lia|done].
  - intros [|a] [|b] k' q' o1 o2 Hab Ha Hoff Hoff'; cbn in Ha, Hoff, Hoff'; [lia| |lia|].
    + injection Ha as -> ->. injection Hoff as <-. assert (Hlt : (b < length l)%nat).
      { apply lookup_lt_Some in Hoff'. lia. }
      apply lookup_lt_is_Some in Hlt as [[kb qb] Hkb]. by destruct (P3 _ _ _ _ Hkb Hoff').
    + eapply (P4 a b); [lia|done..].
Qed.

Lemma starts_spec q B sizes start : 0 <= q < 31 -> Forall (fun x => 0 <= x <= B) sizes -> 0 <= start -> start mod 2 ^ q = 0 ->
  start + Z.of_nat (length sizes) * (B + 2 ^ 31) < 2 ^ 62 ->
  let starts := shard_starts (Z.shiftl 1 q) start sizes in
  nth 0 starts 0 = start /\ length starts = S (length sizes) /\
  forall i s, sizes !! i = Some s -> start <= nth i starts 0 /\ nth i starts 0 mod 2 ^ q = 0 /\ nth i starts 0 + s <= nth (S i) starts 0.
Proof.
  intros Hq. revert start. induction sizes as [|s sizes IH]; intros start Hs H0 Hm Hb; [done|]. apply Forall_cons in Hs as [Hs0 Hs]. cbn [length] in Hb.
  rewrite Nat2Z.inj_succ, Z.mul_succ_l in Hb. assert (0 <= Z.of_nat (length sizes) * (B + 2 ^ 31)) by nia.
  pose proof (align_shift (start + s) q ltac:(lia) Hq ltac:(lia)) as [A1 A2]. cbn [shard_starts]. set (o := align_to (start + s) (Z.shiftl 1 q)) in *.
  destruct (IH o Hs ltac:(lia) A2 ltac:(lia)) as (I1 & I2 & I3). cbv zeta in *. split; [done|]. split; [cbn [length]; lia|]. intros [|i] x Hx.
  - injection Hx as <-. cbn [nth]. split; [lia|]. split; [done|]. rewrite I1. lia.
  - destruct (I3 i x Hx) as (J1 & J2 & J3). cbn [nth] in *. split; [lia|]. split; [done|]. exact J3.
Qed.

Lemma foldl_max_ge l x : x <= foldl Z.max x l /\ forall y, y ∈ l -> y <= foldl Z.max x l.
Proof.
  revert x. induction l as [|z l IH]; intros x; [split; [simpl; lia|by intros y ?%elem_of_nil]|]. cbn [foldl]. destruct (IH (Z.max x z)) as [I1 I2].
  split; [lia|]. intros y [->|Hy]%elem_of_cons; [lia|by apply I2].
Qed.

Lemma foldl_max_lt l x B : x < B -> Forall (fun y => y < B) l -> foldl Z.max x l < B.
Proof. intros Hx Hl. revert x Hx. induction Hl as [|z l Hz Hl IH]; intros x Hx; [done|]. cbn [foldl]. apply IH. lia. Qed.

(** The pieces fit into 2^62 bytes. *)
Definition fits (reqs : list (bytes * Z)) : Prop := 16 * (space (map fst reqs) + 2 ^ 31) < 2 ^ 62.

Section Layout.
Context (reqs : list (bytes * Z)) (live : bytes -> bool) (m : table) (Hal : aligned reqs) (Hfit : fits reqs) (HT : table_of reqs live m).

Lemma shard_key_align i x : x ∈ sorted_frags m i -> exists k, key_align x = (k, max_align reqs k) /\ k ∈ map fst reqs /\ live k = true /\ keys m !! x.2 = Some (Key k) /\ in_shard i x.2.
Proof.
  destruct x as [[k f] j]. rewrite sorted_frags_perm. intros (Hj & Ek & Ef & Ea)%shard_frags_in. destruct (to_frag _ _ _ HT j k Ek) as (f' & Ef' & Fp & Fl).
  assert (f' = f) as -> by congruence. exists k. unfold key_align. cbn [fst snd]. rewrite Fp. split; [done|]. split; [by apply (to_key _ _ _ HT j)|]. split; [congruence|done].
Qed.

Lemma shard_keys_nodup i : NoDup (map fst (map key_align (sorted_frags m i))).
Proof.
  rewrite map_map. assert (Hs := sorted_frags_slots m i).
  assert (Hin : forall x, x ∈ sorted_frags m i -> keys m !! x.2 = Some (Key (key_align x).1)) by (intros x Hx; destruct (shard_key_align i x Hx) as (k & -> & _ & _ & H & _); done).
  induction (sorted_frags m i) as [|x l IH]; [constructor|]. cbn [map] in *. apply NoDup_cons in Hs as [Hx Hs]. apply NoDup_cons. split.
  - intros (y & Ey & Hy)%list_elem_of_fmap. apply Hx. apply list_elem_of_fmap. exists y. split; [|done].
    apply (to_once _ _ _ HT _ _ (key_align x).1); [apply Hin; by constructor|]. rewrite Ey. apply Hin. by constructor.
  - apply IH; [done|]. intros y Hy. apply Hin. by constructor.
Qed.

Lemma placed_ok i : place_ok (map key_align (sorted_frags m i)) 0 0 (placed m i).1.1 (placed m i).1.2 (placed m i).2.
Proof.
  unfold placed. pose proof (place_spec (map key_align (sorted_frags m i)) 0 0) as H. assert (Hsp : space (map fst (map key_align (sorted_frags m i))) <= space (map fst reqs)).
  { apply space_subset; [apply shard_keys_nodup|]. intros k (x & -> & Hx)%list_elem_of_fmap. apply list_elem_of_fmap in Hx as (y & -> & Hy).
    destruct (shard_key_align i y Hy) as (k & -> & Hk & _). done. }
  unfold fits in Hfit. pose proof (space_nonneg (map fst reqs)). destruct (place _ 0 0) as [[offs e] p']. apply H; [|lia|lia|lia].
  apply Forall_forall. intros [k q] Hx. apply list_elem_of_fmap in Hx as (y & E & Hy). destruct (shard_key_align i y Hy) as (k' & E' & _). rewrite E' in E. injection E as -> ->. by apply max_align_range.
Qed.

Let l := assign_offsets m.
Let starts := shard_offsets l.
Let q := foldl Z.max 0 (map (fun i => (placed m i).2) shards).

Lemma size_bound i : 0 <= (placed m i).1.2 <= space (map fst reqs).
Proof.
  destruct (placed_ok i) as [_ P _ _]. assert (Hsp : space (map fst (map key_align (sorted_frags m i))) <= space (map fst reqs)); [|lia].
  apply space_subset; [apply shard_keys_nodup|]. intros k (x & -> & Hx)%list_elem_of_fmap. apply list_elem_of_fmap in Hx as (y & -> & Hy).
  destruct (shard_key_align i y Hy) as (k & -> & Hk & _). done.
Qed.

Lemma align_range : 0 <= q < 31.
Proof.
  split; [exact (proj1 (foldl_max_ge _ 0))|]. apply foldl_max_lt; [lia|]. apply Forall_forall. intros y (i & -> & _)%list_elem_of_fmap. destruct (placed_ok i) as [[P _] _ _ _]. lia.
Qed.

Lemma shard_align i : (i < 16)%nat -> (placed m i).2 <= q.
Proof. intros Hi. apply foldl_max_ge. apply (list_elem_of_fmap_2 (fun i => (placed m i).2)). unfold shards. rewrite elem_of_seq. lia. Qed.

Lemma starts_ok : nth 0 starts 0 = 0 /\ length starts = 17%nat /\
  forall i, (i < 16)%nat -> 0 <= nth i starts 0 /\ nth i starts 0 mod 2 ^ q = 0 /\ nth i starts 0 + (placed m i).1.2 <= nth (S i) starts 0.
Proof.
  destruct (starts_spec q (space (map fst reqs)) (map (fun i => (placed m i).1.2) shards) 0 align_range) as (S1 & S2 & S3).
  - apply Forall_forall. intros y (i & -> & _)%list_elem_of_fmap. apply size_bound.
  - done.
  - done.
  - unfold fits in Hfit. pose proof (space_nonneg (map fst reqs)). rewrite length_map. change (length shards) with 16%nat. lia.
  - split; [exact S1|]. split; [rewrite length_map in S2; exact S2|]. intros i Hi. apply (S3 i).
    change (((fun i => (placed m i).1.2) <$> shards) !! i = Some (placed m i).1.2). rewrite list_lookup_fmap. unfold shards. by rewrite lookup_seq_lt.
Qed.

Lemma starts_mono i i' : (i <= i' <= 16)%nat -> nth i starts 0 <= nth i' starts 0.
Proof.
  intros H. destruct starts_ok as (_ & _ & Hs). induction i' as [|i' IH]; [assert (i = O) as -> by lia; lia|]. destruct (decide (i = S i')) as [->|]; [lia|].
  specialize (IH ltac:(lia)). destruct (Hs i' ltac:(lia)) as (_ & _ & H'). pose proof (size_bound i'). lia.
Qed.

Lemma size_starts : sh_size l = nth 16 starts 0.
Proof. unfold starts, l, assign_offsets. cbn [sh_size shard_offsets]. reflexivity. Qed.

Lemma layout_keys : keys (l_table l) = keys m /\ length (values (l_table l)) = length (values m).
Proof.
  unfold l, assign_offsets. cbn [l_table]. set (st := shard_starts _ _ _). destruct (assign_shards_ok m 16) as (A1 & A2 & _).
  destruct (shift_shards_ok st (foldl (fun m i => assign_shard i m) m (seq 0 16)) 15) as (B1 & B2 & _). cbv zeta in *. unfold shards. split; congruence.
Qed.

(** A fragment that is alive. *)
Record located (k : bytes) (j i a : nat) (o : Z) : Prop := {
  lo_key : keys m !! j = Some (Key k);
  lo_shard : in_shard i j /\ (i < 16)%nat;
  lo_at : map key_align (sorted_frags m i) !! a = Some (k, max_align reqs k);
  lo_placed : exists off, (placed m i).1.1 !! a = Some off /\ o = nth i starts 0 + off;
  lo_frag : frag_at (l_table l) j = Some (mkFrag o (max_align reqs k) true);
  lo_range : nth i starts 0 <= o /\ o + zlen k <= nth (S i) starts 0;
  lo_align : o mod 2 ^ max_align reqs k = 0 /\ sh_addralign l mod 2 ^ max_align reqs k = 0 }.

Lemma layout_frag j i : in_shard i j -> (i < 16)%nat -> frag_at (l_table l) j =
  (fun f => if (1 <=? i)%nat && is_alive f then mkFrag (u32 (f_offset f + nth i starts 0)) (p2align f) (is_alive f) else f) <$> frag_at (assign_shard i m) j.
Proof.
  intros Hj Hi. unfold starts, l, assign_offsets. cbn [l_table shard_offsets]. set (st := shard_starts _ _ _).
  destruct (assign_shards_ok m 16) as (_ & _ & A3). destruct (shift_shards_ok st (foldl (fun m i => assign_shard i m) m (seq 0 16)) 15) as (_ & _ & B3).
  cbv zeta in *. unfold shards. rewrite (B3 i j Hj), (A3 i j Hj). destruct (Nat.ltb_spec i 16); [|lia]. destruct (Nat.leb_spec i 15); [|lia]. rewrite andb_true_r.
  destruct (1 <=? i)%nat; cbn [andb]; destruct (frag_at (assign_shard i m) j); done.
Qed.

Lemma live_located k j : keys m !! j = Some (Key k) -> live k = true -> sh_size l < 2 ^ 32 -> exists i a o, located k j i a o.
Proof.
  intros Hk Hl Hsz. assert (Hj : (j < Z.to_nat nbuckets)%nat) by (rewrite <- (proj1 (to_length _ _ _ HT)); by eapply lookup_lt_Some).
  destruct (slot_shard j Hj) as (i & Hi & Hij). destruct (to_frag _ _ _ HT j k Hk) as (f & Hf & Fp & Fa).
  assert (Hin : (k, f, j) ∈ sorted_frags m i) by (rewrite sorted_frags_perm, shard_frags_in; rewrite Fa; done). apply list_elem_of_lookup in Hin as [a Ha].
  assert (Hka : map key_align (sorted_frags m i) !! a = Some (k, max_align reqs k)).
  { change ((key_align <$> sorted_frags m i) !! a = Some (k, max_align reqs k)). rewrite list_lookup_fmap, Ha. simpl. unfold key_align. cbn [fst snd]. by rewrite Fp. }
  destruct ((placed m i).1.1 !! a) as [off|] eqn:Eo.
  2:{ exfalso. apply lookup_ge_None in Eo. apply lookup_lt_Some in Hka. unfold placed in Eo. rewrite length_place in Eo. lia. }
  destruct (placed_ok i) as [[_ P1] P2 P3 _]. destruct (P3 _ _ _ _ Hka Eo) as (Q1 & Q2 & Q3). destruct starts_ok as (S0 & _ & S1). destruct (S1 i Hi) as (T1 & T2 & T3).
  pose proof (starts_mono (S i) 16 ltac:(lia)) as Hmono. rewrite <- size_starts in Hmono. pose proof (zlen_nonneg k).
  exists i, a, (nth i starts 0 + off). split; [done|done|done|by exists off| |lia|].
  - rewrite (layout_frag j i Hij Hi). destruct (assign_shard_ok i m) as (_ & _ & A3 & _). cbv zeta in A3.
    rewrite (A3 j off) by (exists a, (k, f, j); done). rewrite Hf. cbn [fmap option_fmap option_map f_offset p2align is_alive]. rewrite Fa, Hl, Fp, andb_true_r.
    assert (u32 off = off) as -> by (apply wrap_small; unfold is_u; lia). destruct (Nat.leb_spec 1 i) as [|Hi0].
    + unfold u32. rewrite wrap_small by (unfold is_u; lia). by rewrite Z.add_comm.
    + assert (i = O) as -> by lia. rewrite S0. by rewrite Z.add_0_l.
  - assert (Hq : max_align reqs k <= q) by (transitivity (placed m i).2; [by eapply P1, list_elem_of_lookup_2|by apply shard_align]).
    pose proof (max_align_range reqs k Hal). split.
    2:{ change (sh_addralign l) with (Z.shiftl 1 q). rewrite Z.shiftl_1_l. replace q with (q - max_align reqs k + max_align reqs k) by lia.
      rewrite Z.pow_add_r by lia. apply Z.mod_mul, Z.pow_nonzero; lia. }
    rewrite Z.add_mod by (apply Z.pow_nonzero; lia). rewrite Q3, Z.add_0_r, Z.mod_mod by (apply Z.pow_nonzero; lia).
    replace q with (max_align reqs k + (q - max_align reqs k)) in T2 by lia. rewrite Z.pow_add_r in T2 by lia.
    apply Z.mod_divide in T2; [|apply Z.neq_mul_0; split; apply Z.pow_nonzero; lia]. apply Z.mod_divide; [apply Z.pow_nonzero; lia|].
    destruct T2 as [c ->]. exists (c * 2 ^ (q - max_align reqs k)). lia.
Qed.

(** Fragments do not overlap. *)
Lemma located_apart k k' j j' i i' a a' o o' : located k j i a o -> located k' j' i' a' o' -> k <> k' -> o + zlen k <= o' \/ o' + zlen k' <= o.
Proof.
  intros [_ [A1 A2] A3 (off & A4 & A5) _ A6 _] [_ [B1 B2] B3 (off' & B4 & B5) _ B6 _] Hne. destruct (Nat.lt_trichotomy i i') as [Hi|[<-|Hi]].
  - left. pose proof (starts_mono (S i) i' ltac:(lia)). lia.
  - destruct (placed_ok i) as [_ _ _ P4]. destruct (Nat.lt_trichotomy a a') as [Ha|[<-|Ha]].
    + left. specialize (P4 _ _ _ _ _ _ Ha A3 A4 B4). lia.
    + congruence.
    + right. specialize (P4 _ _ _ _ _ _ Ha B3 B4 A4). lia.
  - right. pose proof (starts_mono (S i') i ltac:(lia)). lia.
Qed.

(** A fragment that is not alive stays so. *)
Lemma dead_frag j k : keys m !! j = Some (Key k) -> live k = false -> exists f, frag_at (l_table l) j = Some f /\ is_alive f = false.
Proof.
  intros Hk Hl. assert (Hj : (j < Z.to_nat nbuckets)%nat) by (rewrite <- (proj1 (to_length _ _ _ HT)); by eapply lookup_lt_Some).
  destruct (slot_shard j Hj) as (i & Hi & Hij). destruct (to_frag _ _ _ HT j k Hk) as (f & Hf & Fp & Fa). exists f. rewrite (layout_frag j i Hij Hi).
  destruct (assign_shard_ok i m) as (_ & _ & _ & A4). rewrite A4.
  - rewrite Hf. simpl. rewrite Fa, Hl, andb_false_r. split; [done|congruence].
  - intros off (a & x & Ha & Ex & _). apply list_elem_of_lookup_2 in Ha. destruct (shard_key_align i x Ha) as (k' & _ & _ & Hl' & Hk' & _). rewrite Ex in Hk'. congruence.
Qed.

(** ** Writing *)

Lemma write_frags_ok i js buf : (forall j, j ∈ js -> in_shard i j) -> NoDup js -> (i < 16)%nat -> sh_size l < 2 ^ 32 -> zlen buf = sh_size l ->
  exists buf', write_frags (l_table l) js buf = Some buf' /\ zlen buf' = zlen buf /\
    (forall j k a o, j ∈ js -> located k j i a o -> has_code buf' o k) /\
    (forall lo code, (forall j k a o, j ∈ js -> located k j i a o -> clear lo (lo + zlen code) o (zlen k)) -> has_code buf lo code -> has_code buf' lo code).
Proof.
  intros Hjs Hn' Hi Hsz. destruct layout_keys as [Hk _]. revert buf. induction js as [|j js IH]; intros buf Hl.
  { exists buf. split; [done|]. split; [done|]. split; [by intros j k a o ?%elem_of_nil|by intros lo code _]. }
  apply NoDup_cons in Hn' as [Hj Hn']. specialize (IH ltac:(intros x Hx; apply Hjs; by constructor) Hn'). cbn [write_frags].
  assert (Hskip : write_frag (l_table l) j buf = Some buf -> (forall k a o, located k j i a o -> False) -> exists buf', write_frag (l_table l) j buf ≫= write_frags (l_table l) js = Some buf' /\ zlen buf' = zlen buf /\
    (forall j' k a o, j' ∈ j :: js -> located k j' i a o -> has_code buf' o k) /\
    (forall lo code, (forall j' k a o, j' ∈ j :: js -> located k j' i a o -> clear lo (lo + zlen code) o (zlen k)) -> has_code buf lo code -> has_code buf' lo code)).
  { intros -> Hno. destruct (IH buf Hl) as (b & E & L & C & K). cbn [mbind option_bind]. exists b. split; [done|]. split; [done|]. split.
    - intros j' k a o [->|Hj']%elem_of_cons Hlo; [by destruct (Hno _ _ _ Hlo)|by eapply C].
    - intros lo code Hc. apply K. intros j' k a o Hj' Hlo. apply (Hc j' k a o); [by constructor|done]. }
  destruct (keys m !! j) as [[| |k]|] eqn:Ek.
  1,2,4: apply Hskip; [unfold write_frag; by rewrite Hk, Ek|]; intros k a o [Hlk _ _ _ _ _ _]; congruence.
  destruct (live k) eqn:El.
  2:{ destruct (dead_frag j k Ek El) as (f & Hf & Ha). apply Hskip; [unfold write_frag; rewrite Hk, Ek, Hf; cbn [mbind option_bind]; by rewrite Ha|].
      intros k' a o [_ _ _ _ Hlf _ _]. rewrite Hf in Hlf. injection Hlf as ->. done. }
  clear Hskip. destruct (live_located k j Ek El Hsz) as (i' & a & o & Hlo). pose proof Hlo as [_ [Hij Hi'] _ _ Hf [R1 R2] _].
  assert (i' = i) as -> by (apply (in_shard_unique i' i j Hij), Hjs; by constructor). destruct starts_ok as (_ & _ & S1). destruct (S1 i Hi) as (T1 & _ & _).
  pose proof (starts_mono (S i) 16 ltac:(lia)) as Hmono. rewrite <- size_starts in Hmono.
  destruct (poke_some o k buf) as (b & Eb & Lb & Cb & Kb); [lia|lia|]. unfold write_frag. rewrite Hk, Ek, Hf. cbn [mbind option_bind is_alive f_offset]. rewrite Eb. cbn [mbind option_bind].
  destruct (IH b ltac:(by rewrite Lb)) as (b' & -> & L & C & K). exists b'. split; [done|]. split; [by rewrite L|]. split.
  - intros j' k' a' o' [->|Hj']%elem_of_cons Hlo'; [|by eapply C]. assert (k' = k) as -> by (pose proof (lo_key _ _ _ _ _ Hlo'); congruence).
    assert (o' = o) as -> by (pose proof (lo_frag _ _ _ _ _ Hlo'); congruence). apply K; [|done]. intros j2 k2 a2 o2 Hj2 Hlo2.
    assert (k2 <> k) by (intros ->; apply Hj; rewrite (to_once _ _ _ HT j j2 k Ek (lo_key _ _ _ _ _ Hlo2)); done).
    destruct (located_apart _ _ _ _ _ _ _ _ _ _ Hlo2 Hlo ltac:(done)); unfold clear; lia.
  - intros lo code Hc Hh. apply K; [intros j2 k2 a2 o2 Hj2; apply (Hc j2); by constructor|]. apply Kb; [|done]. apply (Hc j k a o); [by constructor|done].
Qed.

(** No fragment of the shard covers the byte. *)
Definition uncovered (i : nat) (x : Z) : Prop := forall j k a o, located k j i a o -> x < o \/ o + zlen k <= x.

Lemma write_shard_ok i buf : (i < 16)%nat -> sh_size l < 2 ^ 32 -> zlen buf = sh_size l ->
  exists buf', write_shard l i buf = Some buf' /\ zlen buf' = zlen buf /\
    (forall j k a o, located k j i a o -> has_code buf' o k) /\
    (forall x, nth i starts 0 <= x < nth (S i) starts 0 -> uncovered i x -> has_code buf' x [0]) /\
    (forall lo code, clear lo (lo + zlen code) (nth i starts 0) (nth (S i) starts 0 - nth i starts 0) -> has_code buf lo code -> has_code buf' lo code).
Proof.
  intros Hi Hsz Hl. destruct starts_ok as (_ & _ & S1). destruct (S1 i Hi) as (T1 & _ & T3). pose proof (size_bound i) as Hb.
  pose proof (starts_mono (S i) 16 ltac:(lia)) as Hmono. rewrite <- size_starts in Hmono. unfold write_shard. fold size starts.
  set (s0 := nth i starts 0) in *. set (s1 := nth (S i) starts 0) in *.
  assert (Lz : zlen (replicate (Z.to_nat (s1 - s0)) (0 : Z)) = s1 - s0) by (unfold zlen; rewrite length_replicate; lia).
  destruct (poke_some s0 (replicate (Z.to_nat (s1 - s0)) 0) buf) as (b & -> & Lb & Cb & Kb); [done|lia|]. cbn [mbind option_bind].
  destruct (write_frags_ok i (seq (size * i) size) b) as (b' & -> & L & C & K); [by intros j Hj%elem_of_seq|apply NoDup_seq|done|done|by rewrite Lb|].
  exists b'. split; [done|]. split; [by rewrite L|]. split; [|split].
  - intros j k a o Hlo. eapply C; [|exact Hlo]. rewrite elem_of_seq. apply Hlo.
  - intros x Hx Hu. apply K.
    + intros j k a o _ Hlo. destruct (Hu j k a o Hlo); unfold clear, zlen in *; simpl; lia.
    + apply has_code_byte; [lia|]. replace x with (s0 + (x - s0)) by lia. rewrite (has_code_at b s0 _ (x - s0) Cb) by lia. apply lookup_replicate. split; [done|lia].
  - intros lo code Hc Hh. apply K.
    + intros j k a o _ Hlo. destruct (lo_range _ _ _ _ _ Hlo) as [R1 R2]. fold s0 s1 in R1, R2. pose proof (zlen_nonneg k). unfold clear in *. lia.
    + apply Kb; [|done]. by rewrite Lz.
Qed.

(** The shards can be written in any order. *)
Lemma write_shards_ok todo buf : NoDup todo -> (forall i, i ∈ todo -> (i < 16)%nat) -> sh_size l < 2 ^ 32 -> zlen buf = sh_size l ->
  exists buf', write_shards l todo buf = Some buf' /\ zlen buf' = zlen buf /\
    (forall i j k a o, i ∈ todo -> located k j i a o -> has_code buf' o k) /\
    (forall i x, i ∈ todo -> nth i starts 0 <= x < nth (S i) starts 0 -> uncovered i x -> has_code buf' x [0]) /\
    (forall lo code, (forall i, i ∈ todo -> clear lo (lo + zlen code) (nth i starts 0) (nth (S i) starts 0 - nth i starts 0)) -> has_code buf lo code -> has_code buf' lo code).
Proof.
  intros Hn' Hlt Hsz. revert buf. induction todo as [|i todo IH]; intros buf Hl.
  { exists buf. split; [done|]. split; [done|]. split; [by intros i j k a o ?%elem_of_nil|]. split; [by intros i x ?%elem_of_nil|by intros lo code _]. }
  apply NoDup_cons in Hn' as [Hi Hn']. pose proof (Hlt i ltac:(by constructor)) as Hi16. cbn [write_shards].
  destruct (write_shard_ok i buf Hi16 Hsz Hl) as (b & -> & Lb & Cb & Zb & Kb). cbn [mbind option_bind].
  destruct (IH Hn' ltac:(intros x Hx; apply Hlt; by constructor) b ltac:(by rewrite Lb)) as (b' & -> & L & C & Z' & K). exists b'. split; [done|]. split; [by rewrite L|].
  assert (Hclear : forall i' lo hi, i' ∈ todo -> nth i starts 0 <= lo -> hi <= nth (S i) starts 0 -> clear lo hi (nth i' starts 0) (nth (S i') starts 0 - nth i' starts 0)).
  { intros i' lo hi Hi' H1 H2. pose proof (Hlt i' ltac:(by constructor)). assert (i <> i') by (intros ->; done). destruct (Nat.lt_ge_cases i i').
    - pose proof (starts_mono (S i) i' ltac:(lia)). unfold clear. lia.
    - pose proof (starts_mono (S i') i ltac:(lia)). unfold clear. lia. }
  split; [|split].
  - intros i' j k a o [->|Hi']%elem_of_cons Hlo; [|by eapply C]. apply K; [|by eapply Cb]. intros i' Hi'. destruct (lo_range _ _ _ _ _ Hlo). by apply Hclear.
  - intros i' x [->|Hi']%elem_of_cons Hx Hu; [|by eapply Z']. apply K; [|by apply Zb]. intros i' Hi'. apply Hclear; [done|lia|change (zlen [0]) with 1; lia].
  - intros lo code Hc Hh. apply K; [intros i' Hi'; apply Hc; by constructor|]. apply Kb; [apply Hc; by constructor|done].
Qed.

Lemma in_some_shard x : 0 <= x < sh_size l -> exists i, (i < 16)%nat /\ nth i starts 0 <= x < nth (S i) starts 0.
Proof.
  intros Hx. destruct starts_ok as (S0 & _ & _). rewrite size_starts in Hx. assert (H : forall c, (c <= 16)%nat -> x < nth c starts 0 -> exists i, (i < 16)%nat /\ nth i starts 0 <= x < nth (S i) starts 0).
  { induction c as [|c IH]; intros Hc Hlt; [rewrite S0 in Hlt; lia|]. destruct (Z.lt_ge_cases x (nth c starts 0)); [apply IH; lia|]. exists c. split; [lia|done]. }
  apply (H 16%nat); [lia|apply Hx].
Qed.

(** The section holds the fragments that are alive, and zeros. *)
Lemma write_to_ok buf : sh_size l < 2 ^ 32 -> zlen buf = sh_size l -> exists buf', write_to l buf = Some buf' /\ zlen buf' = sh_size l /\
  (forall k j i a o, located k j i a o -> has_code buf' o k) /\
  (forall x, 0 <= x < sh_size l -> (forall k j i a o, located k j i a o -> x < o \/ o + zlen k <= x) -> buf' !! Z.to_nat x = Some 0).
Proof.
  intros Hsz Hl. destruct (write_shards_ok shards buf) as (b & E & L & C & Z' & _); [apply NoDup_seq|by intros i Hi%elem_of_seq; lia|done|done|].
  exists b. split; [exact E|]. split; [lia|]. split.
  - intros k j i a o Hlo. eapply C; [|exact Hlo]. unfold shards. rewrite elem_of_seq. destruct (lo_shard _ _ _ _ _ Hlo). lia.
  - intros x Hx Hu. destruct (in_some_shard x Hx) as (i & Hi & Hxi). apply has_code_byte; [lia|]. apply (Z' i x); [unfold shards; rewrite elem_of_seq; lia|done|].
    intros j k a o. apply Hu.
Qed.
End Layout.

(** ** The order of the fragments *)

Lemma stable_sort_map {A B} (f : A -> B) (less : B -> B -> bool) (l : list A) :
  map f (stable_sort (fun a b => less (f a) (f b)) l) = stable_sort less (map f l).
Proof.
  induction l as [|x l IH]; [done|]. cbn [stable_sort foldr map]. fold (stable_sort (fun a b => less (f a) (f b)) l) (stable_sort less (map f l)). rewrite <- IH. clear IH.
  induction (stable_sort (fun a b => less (f a) (f b)) l) as [|y s IHs]; [done|]. cbn [insert_sorted map]. destruct (less (f y) (f x)); [|done].
  cbn [map]. by rewrite IHs.
Qed.

Lemma frag_less_spec a b : frag_less a b = true <-> a.2 < b.2 \/ a.2 = b.2 /\ (zlen a.1 < zlen b.1 \/ zlen a.1 = zlen b.1 /\ str_ltb a.1 b.1 = true).
Proof. unfold frag_less. rewrite orb_true_iff, !andb_true_iff, orb_true_iff, andb_true_iff, !Z.ltb_lt, !Z.eqb_eq. done. Qed.

Lemma frag_less_false a b : frag_less a b = false <-> b.2 < a.2 \/ b.2 = a.2 /\ (zlen b.1 < zlen a.1 \/ zlen b.1 = zlen a.1 /\ str_ltb a.1 b.1 = false).
Proof.
  rewrite <- not_true_iff_false, frag_less_spec. destruct (str_ltb a.1 b.1); split; intros; lia.
Qed.

Lemma frag_less_asym a b : frag_less a b = true -> frag_less b a = false.
Proof.
  rewrite frag_less_spec, frag_less_false. intros [|[? [|[? H]]]]; [by left|right; split; [done|by left]|]. right. split; [done|]. right. split; [done|]. by apply str_ltb_asym.
Qed.

Lemma frag_nless_trans a b c : frag_less b a = false -> frag_less c b = false -> frag_less c a = false.
Proof.
  rewrite !frag_less_false. intros H1 H2. destruct H1 as [|[E1 H1]], H2 as [|[E2 H2]]; try (left; lia). right. split; [lia|].
  destruct H1 as [|[L1 H1]], H2 as [|[L2 H2]]; try (left; lia). right. split; [lia|]. by apply (str_nltb_trans _ b.1).
Qed.

Lemma frag_less_total a b : frag_less a b = false -> frag_less b a = false -> a = b.
Proof.
  rewrite !frag_less_false. intros H1 H2. destruct H1 as [|[E1 H1]], H2 as [|[E2 H2]]; [lia..|]. destruct H1 as [|[L1 H1]], H2 as [|[L2 H2]]; [lia..|].
  destruct a as [k p], b as [k' p']. cbn [fst snd] in *. f_equal; [by apply str_ltb_total|done].
Qed.

(** Two tables with equal pieces. *)
Definition same_pieces (reqs1 reqs2 : list (bytes * Z)) (live1 live2 : bytes -> bool) : Prop :=
  forall k, (k ∈ map fst reqs1 <-> k ∈ map fst reqs2) /\ (k ∈ map fst reqs1 -> max_align reqs1 k = max_align reqs2 k /\ live1 k = live2 k).

Lemma shard_pieces reqs live m i k p : table_of reqs live m -> (i < 16)%nat -> (k, p) ∈ map key_align (shard_frags m i) <->
  k ∈ map fst reqs /\ p = max_align reqs k /\ live k = true /\ shard_of nbuckets (start_idx nbuckets (hash_string k)) = Z.of_nat i.
Proof.
  intros HT Hi. rewrite list_elem_of_fmap. split.
  - intros ([[k' f] j] & E & Hin). apply shard_frags_in in Hin as (Hj & Hk & Hf & Ha). destruct (to_frag _ _ _ HT j k' Hk) as (f' & Hf' & Fp & Fa). assert (f' = f) as -> by congruence.
    unfold key_align in E. cbn [fst snd] in E. injection E as -> ->. destruct (to_key _ _ _ HT j k' Hk) as [K1 K2]. split; [done|]. split; [done|]. split; [congruence|].
    rewrite <- K2. by apply shard_of_slot.
  - intros (Hk & -> & Hl & Hs). destruct (to_all _ _ _ HT k Hk) as [j Hj]. destruct (to_key _ _ _ HT j k Hj) as [_ K2]. destruct (to_frag _ _ _ HT j k Hj) as (f & Hf & Fp & Fa).
    exists (k, f, j). unfold key_align. cbn [fst snd]. split; [by rewrite Fp|]. apply shard_frags_in. split; [|split; [done|split; [done|congruence]]]. apply shard_of_slot. congruence.
Qed.

Lemma sorted_same reqs1 reqs2 live1 live2 m1 m2 i : table_of reqs1 live1 m1 -> table_of reqs2 live2 m2 -> same_pieces reqs1 reqs2 live1 live2 -> (i < 16)%nat ->
  map key_align (sorted_frags m1 i) = map key_align (sorted_frags m2 i).
Proof.
  intros T1 T2 Hsame Hi. pose proof (fun reqs live m T => shard_keys_nodup reqs live m T i) as Hnd. unfold sorted_frags in *.
  pose proof (Hnd _ _ _ T1) as N1. pose proof (Hnd _ _ _ T2) as N2. rewrite !(stable_sort_map key_align frag_less) in *.
  apply (StronglySorted_unique_strong (fun a b => frag_less b a = false)).
  - intros a b _ _ H1 H2. by apply frag_less_total.
  - apply stable_sort_sorted; [intros a b; apply frag_less_asym|intros a b c; apply frag_nless_trans].
  - apply stable_sort_sorted; [intros a b; apply frag_less_asym|intros a b c; apply frag_nless_trans].
  - apply NoDup_Permutation; [by apply (NoDup_fmap_1 fst)|by apply (NoDup_fmap_1 fst)|]. intros [k p]. rewrite !stable_sort_perm.
    rewrite (shard_pieces _ _ _ _ _ _ T1 Hi), (shard_pieces _ _ _ _ _ _ T2 Hi). destruct (Hsame k) as [S1 S2]. split.
    + intros (A & -> & B & C). destruct (S2 A) as [S3 S4]. rewrite <- S1, <- S4. done.
    + intros (A & -> & B & C). apply S1 in A. destruct (S2 A) as [S3 S4]. rewrite S4. done.
Qed.

(** ** Equal pieces give equal sections *)

Section Same.
Context (reqs1 reqs2 : list (bytes * Z)) (live1 live2 : bytes -> bool) (m1 m2 : table).
Context (Hal1 : aligned reqs1) (Hal2 : aligned reqs2) (Hfit1 : fits reqs1) (Hfit2 : fits reqs2).
Context (T1 : table_of reqs1 live1 m1) (T2 : table_of reqs2 live2 m2) (Hsame : same_pieces reqs1 reqs2 live1 live2).

Lemma same_placed i : (i < 16)%nat -> placed m1 i = placed m2 i.
Proof. intros Hi. unfold placed. by rewrite (sorted_same _ _ _ _ _ _ i T1 T2 Hsame Hi). Qed.

Lemma same_layout : shard_offsets (assign_offsets m1) = shard_offsets (assign_offsets m2) /\ sh_size (assign_offsets m1) = sh_size (assign_offsets m2) /\
  sh_addralign (assign_offsets m1) = sh_addralign (assign_offsets m2).
Proof.
  unfold assign_offsets. cbn [shard_offsets sh_size sh_addralign].
  assert (E1 : map (fun i => (placed m1 i).1.2) shards = map (fun i => (placed m2 i).1.2) shards).
  { apply map_ext_in. intros i Hi%list_elem_of_In. unfold shards in Hi. apply elem_of_seq in Hi. by rewrite same_placed by lia. }
  assert (E2 : map (fun i => (placed m1 i).2) shards = map (fun i => (placed m2 i).2) shards).
  { apply map_ext_in. intros i Hi%list_elem_of_In. unfold shards in Hi. apply elem_of_seq in Hi. by rewrite same_placed by lia. }
  by rewrite E1, E2.
Qed.

Lemma same_located k j i a o : sh_size (assign_offsets m1) < 2 ^ 32 -> located reqs1 m1 k j i a o -> live1 k = true ->
  exists j', located reqs2 m2 k j' i a o.
Proof.
  intros Hsz L Hl. destruct same_layout as (Es & Ez & _). destruct (to_key _ _ _ T1 j k (lo_key _ _ _ _ _ _ _ L)) as [Hin K1]. destruct (Hsame k) as [S1 S2].
  destruct (S2 Hin) as [S3 S4]. destruct (to_all _ _ _ T2 k) as [j' Hj']; [by apply S1|]. exists j'.
  destruct (live_located reqs2 live2 m2 Hal2 Hfit2 T2 k j' Hj') as (i' & a' & o' & L'); [congruence|by rewrite <- Ez|].
  destruct (to_key _ _ _ T2 j' k Hj') as [_ K2]. pose proof L as [_ [A1 A1'] A2 (off & A3 & A4) _ _ _]. pose proof L' as [_ [B1 B1'] B2 (off' & B3 & B4) _ _ _].
  assert (i' = i) as ->. { apply shard_of_slot in A1, B1. rewrite K1 in A1. rewrite K2 in B1. lia. }
  assert (a' = a) as ->.
  { rewrite (sorted_same _ _ _ _ _ _ i T1 T2 Hsame A1') in A2. pose proof (shard_keys_nodup reqs2 live2 m2 T2 i) as Hnd. apply (NoDup_lookup _ _ _ k Hnd).
    - change ((fst <$> map key_align (sorted_frags m2 i)) !! a' = Some k). rewrite list_lookup_fmap. by rewrite B2.
    - change ((fst <$> map key_align (sorted_frags m2 i)) !! a = Some k). rewrite list_lookup_fmap. by rewrite A2. }
  rewrite (same_placed i A1') in A3. assert (off' = off) as -> by congruence. rewrite <- Es in B4. assert (o' = o) as -> by congruence. exact L'.
Qed.
End Same.

Lemma covered_dec reqs live m x : aligned reqs -> fits reqs -> table_of reqs live m -> sh_size (assign_offsets m) < 2 ^ 32 ->
  (exists k j i a o, located reqs m k j i a o /\ o <= x < o + zlen k) \/ ~ (exists k j i a o, located reqs m k j i a o /\ o <= x < o + zlen k).
Proof.
  intros Hal Hf T Hsz.
  set (covers := fun j => match keys m !! j, frag_at (l_table (assign_offsets m)) j with Some (Key k), Some f => live k && (f_offset f <=? x) && (x <? f_offset f + zlen k) | _, _ => false end).
  destruct (existsb covers (seq 0 (length (keys m)))) eqn:E.
  - left. apply existsb_exists in E as (j & _ & Hj). unfold covers in Hj. destruct (keys m !! j) as [[| |k]|] eqn:Ek; try done. destruct (frag_at _ j) as [f|] eqn:Ef; [|done].
    apply andb_true_iff in Hj as [Hj H2]. apply andb_true_iff in Hj as [Hl H1]. apply Z.leb_le in H1. apply Z.ltb_lt in H2.
    destruct (live_located reqs live m Hal Hf T k j Ek Hl Hsz) as (i & a & o & Hlo). exists k, j, i, a, o. split; [done|]. pose proof (lo_frag _ _ _ _ _ _ _ Hlo) as Ef'. rewrite Ef in Ef'. by injection Ef' as ->.
  - right. intros (k & j & i & a & o & Hlo & Hx). rewrite <- not_true_iff_false in E. apply E, existsb_exists. exists j. pose proof (lo_key _ _ _ _ _ _ _ Hlo) as Ek. split.
    + apply in_seq. apply lookup_lt_Some in Ek. lia.
    + unfold covers. rewrite Ek, (lo_frag _ _ _ _ _ _ _ Hlo). cbn [f_offset].
      assert (live k = true) as ->.
      { pose proof (lo_at _ _ _ _ _ _ _ Hlo) as A2. apply list_elem_of_lookup_2 in A2. apply list_elem_of_fmap in A2 as (y & Ey & Hy).
        destruct (shard_key_align reqs live m T i y Hy) as (k' & E' & _ & Hl & _). rewrite E' in Ey. by injection Ey as ->. }
      apply andb_true_iff. split; [apply andb_true_iff; split; [done|apply Z.leb_le; lia]|apply Z.ltb_lt; lia].
Qed.

Lemma same_pieces_sym reqs1 reqs2 live1 live2 : same_pieces reqs1 reqs2 live1 live2 -> same_pieces reqs2 reqs1 live2 live1.
Proof. intros H k. destruct (H k) as [H1 H2]. split; [by symmetry|]. intros Hk. destruct (H2 (proj2 H1 Hk)). done. Qed.

Lemma located_live reqs live m k j i a o : table_of reqs live m -> located reqs m k j i a o -> live k = true.
Proof.
  intros T [Hk _ A2 _ _ _ _]. apply list_elem_of_lookup_2 in A2. apply list_elem_of_fmap in A2 as (x & E & Hx). destruct (shard_key_align reqs live m T i x Hx) as (k' & E' & _ & Hl & _).
  rewrite E' in E. injection E as ->. done.
Qed.

Lemma write_to_same reqs1 reqs2 live1 live2 m1 m2 buf1 buf2 : aligned reqs1 -> aligned reqs2 -> fits reqs1 -> fits reqs2 -> table_of reqs1 live1 m1 -> table_of reqs2 live2 m2 ->
  same_pieces reqs1 reqs2 live1 live2 -> sh_size (assign_offsets m1) < 2 ^ 32 -> zlen buf1 = sh_size (assign_offsets m1) -> zlen buf2 = sh_size (assign_offsets m2) ->
  write_to (assign_offsets m1) buf1 = write_to (assign_offsets m2) buf2.
Proof.
  intros Hal1 Hal2 Hf1 Hf2 T1 T2 Hsame Hsz L1 L2. destruct (same_layout _ _ _ _ m1 m2 T1 T2 Hsame) as (_ & Ez & _).
  destruct (write_to_ok reqs1 live1 m1 Hal1 Hf1 T1 buf1 Hsz L1) as (b1 & -> & B1 & C1 & Z1).
  destruct (write_to_ok reqs2 live2 m2 Hal2 Hf2 T2 buf2 ltac:(by rewrite <- Ez) L2) as (b2 & -> & B2 & C2 & Z2). f_equal.
  apply list_eq. intros x. destruct (Z.lt_ge_cases (Z.of_nat x) (sh_size (assign_offsets m1))) as [Hx|Hx].
  2:{ rewrite !lookup_ge_None_2; [done|unfold zlen in *; lia|unfold zlen in *; lia]. }
  destruct (covered_dec reqs1 live1 m1 (Z.of_nat x) Hal1 Hf1 T1 Hsz) as [(k & j & i & a & o & Hlo & Ho)|Hno].
  - destruct (same_located _ _ _ _ m1 m2 Hal2 Hf2 T1 T2 Hsame k j i a o Hsz Hlo) as [j' Hlo']; [by eapply located_live|].
    pose proof (has_code_at b1 o k (Z.of_nat x - o) (C1 _ _ _ _ _ Hlo) ltac:(lia)) as E1. pose proof (has_code_at b2 o k (Z.of_nat x - o) (C2 _ _ _ _ _ Hlo') ltac:(lia)) as E2.
    replace (Z.to_nat (o + (Z.of_nat x - o))) with x in E1, E2 by lia. congruence.
  - replace x with (Z.to_nat (Z.of_nat x)) by lia. rewrite Z1, Z2; [done|lia| |lia|].
    + intros k j i a o Hlo. destruct (same_located _ _ _ _ m2 m1 Hal1 Hf1 T2 T1 (same_pieces_sym _ _ _ _ Hsame) k j i a o ltac:(by rewrite <- Ez) Hlo) as [j' Hlo']; [by eapply located_live|].
      destruct (Z.lt_ge_cases (Z.of_nat x) o); [by left|]. right. destruct (Z.lt_ge_cases (Z.of_nat x) (o + zlen k)); [|lia]. exfalso. apply Hno. by exists k, j', i, a, o.
    + intros k j i a o Hlo. destruct (Z.lt_ge_cases (Z.of_nat x) o); [by left|]. right. destruct (Z.lt_ge_cases (Z.of_nat x) (o + zlen k)); [|lia]. exfalso. apply Hno. by exists k, j, i, a, o.
Qed.

(** ** Any schedule *)

(** A complete insertion, and the buckets of the fragments that garbage collection reaches. *)
Record merging (reqs : list (bytes * Z)) (s : table * list inserter) (l : list nat) : Prop := {
  mg_run : rtc insertion (start_insertions reqs) s;
  mg_done : all_inserted s;
  mg_marks : forall i, i ∈ l -> exists k, keys s.1 !! i = Some (Key k) }.

Definition marked (s : table * list inserter) (l : list nat) (k : bytes) : bool := existsb (fun i => bool_decide (keys s.1 !! i = Some (Key k))) l.
Definition section_of (s : table * list inserter) (l : list nat) : layout := assign_offsets (mark_frags l s.1).

Lemma merging_table reqs s l : aligned reqs -> merging reqs s l -> table_of reqs (fun k => alive || marked s l k) (mark_frags l s.1).
Proof. intros Hal [H1 H2 H3]. destruct (inserted_table reqs s Hal H1 H2) as [T _]. by apply (mark_table reqs (fun _ => alive)). Qed.

Lemma max_align_perm reqs1 reqs2 k : reqs1 ≡ₚ reqs2 -> max_align reqs1 k = max_align reqs2 k.
Proof.
  unfold max_align. induction 1 as [|[k' p] l l' _ IH|[k1 p1] [k2 p2] l|l1 l2 l3 _ IH1 _ IH2]; cbn [foldr]; [done|by rewrite IH| |by rewrite IH1]. repeat case_decide; lia.
Qed.

Lemma perm_pieces reqs1 reqs2 live1 live2 : reqs1 ≡ₚ reqs2 -> (forall k, live1 k = live2 k) -> same_pieces reqs1 reqs2 live1 live2.
Proof.
  intros Hp Hl k. split; [|intros _; split; [by apply max_align_perm|done]]. change (map fst reqs1) with (fst <$> reqs1). change (map fst reqs2) with (fst <$> reqs2). by rewrite Hp.
Qed.

Lemma marked_keys reqs s l : aligned reqs -> merging reqs s l -> keys (mark_frags l s.1) = keys s.1.
Proof. intros Hal [H1 H2 H3]. destruct (inserted_table reqs s Hal H1 H2) as [T _]. by apply (mark_table reqs (fun _ => alive)). Qed.

(** The final fragment of a key. *)
Lemma final_frag reqs s l k j : aligned reqs -> fits reqs -> merging reqs s l -> sh_size (section_of s l) < 2 ^ 32 -> keys s.1 !! j = Some (Key k) ->
  exists f, frag_at (l_table (section_of s l)) j = Some f /\ is_alive f = alive || marked s l k /\
    (is_alive f = true -> exists i a, located reqs (mark_frags l s.1) k j i a (f_offset f)).
Proof.
  intros Hal Hfit M Hsz Hk. pose proof (merging_table _ _ _ Hal M) as T. assert (Hk' : keys (mark_frags l s.1) !! j = Some (Key k)) by (by rewrite (marked_keys _ _ _ Hal M)).
  destruct (alive || marked s l k) eqn:El.
  - destruct (live_located reqs _ _ Hal Hfit T k j Hk' El Hsz) as (i & a & o & Hlo). exists (mkFrag o (max_align reqs k) true). split; [apply Hlo|]. split; [done|].
    intros _. exists i, a. exact Hlo.
  - destruct (dead_frag reqs _ _ T j k Hk' El) as (f & Hf & Ha). exists f. split; [exact Hf|]. split; [done|]. congruence.
Qed.

(** C13: the merged section is a function of the pieces and of what garbage collection
    reaches: two complete insertions of the same pieces, by any threads in any order and with
    any interleaving of their accesses to the table, give the same size and alignment, the
    same offset for every fragment and the same bytes. *)
Theorem merged_any_schedule reqs1 reqs2 s1 s2 l1 l2 : aligned reqs1 -> fits reqs1 -> reqs1 ≡ₚ reqs2 -> merging reqs1 s1 l1 -> merging reqs2 s2 l2 ->
  (forall k, marked s1 l1 k = marked s2 l2 k) -> sh_size (section_of s1 l1) < 2 ^ 32 ->
  sh_size (section_of s1 l1) = sh_size (section_of s2 l2) /\ sh_addralign (section_of s1 l1) = sh_addralign (section_of s2 l2) /\
  (forall k j1 j2, keys s1.1 !! j1 = Some (Key k) -> keys s2.1 !! j2 = Some (Key k) -> exists f1 f2,
     frag_at (l_table (section_of s1 l1)) j1 = Some f1 /\ frag_at (l_table (section_of s2 l2)) j2 = Some f2 /\
     is_alive f1 = is_alive f2 /\ (is_alive f1 = true -> f_offset f1 = f_offset f2)) /\
  (forall buf1 buf2, zlen buf1 = sh_size (section_of s1 l1) -> zlen buf2 = sh_size (section_of s2 l2) ->
     write_to (section_of s1 l1) buf1 = write_to (section_of s2 l2) buf2).
Proof.
  intros Hal1 Hf1 Hp M1 M2 Hm Hsz. assert (Hal2 : aligned reqs2) by (unfold aligned in *; by rewrite <- Hp).
  assert (Hf2 : fits reqs2) by (unfold fits in *; rewrite <- (space_perm (map fst reqs1)); [done|]; change (fst <$> reqs1 ≡ₚ fst <$> reqs2); by rewrite Hp).
  pose proof (merging_table _ _ _ Hal1 M1) as T1. pose proof (merging_table _ _ _ Hal2 M2) as T2.
  assert (Hsame : same_pieces reqs1 reqs2 (fun k => alive || marked s1 l1 k) (fun k => alive || marked s2 l2 k)) by (apply perm_pieces; [done|]; intros k; by rewrite Hm).
  destruct (same_layout _ _ _ _ _ _ T1 T2 Hsame) as (_ & Ez & Ea). split; [exact Ez|]. split; [exact Ea|]. split.
  - intros k j1 j2 K1 K2. destruct (final_frag _ _ _ _ _ Hal1 Hf1 M1 Hsz K1) as (f1 & F1 & A1 & L1).
    assert (Hsz2 : sh_size (section_of s2 l2) < 2 ^ 32) by (unfold section_of in *; lia). destruct (final_frag _ _ _ _ _ Hal2 Hf2 M2 Hsz2 K2) as (f2 & F2 & A2 & L2).
    exists f1, f2. split; [done|]. split; [done|]. split; [by rewrite A1, A2, Hm|]. intros A. destruct (L1 A) as (i & a & Hlo).
    destruct (same_located _ _ _ _ _ _ Hal2 Hf2 T1 T2 Hsame _ _ _ _ _ Hsz Hlo) as [j' Hlo']; [congruence|].
    assert (j' = j2) as ->. { apply (to_once _ _ _ T2 _ _ k (lo_key _ _ _ _ _ _ _ Hlo')). by rewrite (marked_keys _ _ _ Hal2 M2). }
    pose proof (lo_frag _ _ _ _ _ _ _ Hlo') as F2'. unfold section_of in F2. rewrite F2 in F2'. by injection F2' as ->.
  - intros buf1 buf2 B1 B2. by apply (write_to_same reqs1 reqs2 _ _ _ _ buf1 buf2 Hal1 Hal2 Hf1 Hf2 T1 T2 Hsame).
Qed.

(** ** Every byte of an input section is in the output *)

(** The pieces of the sections in the order in which they are inserted by one thread. *)
Definition requests_of (recs : list MergeableSection) : list (bytes * Z) := concat (map (fun m => map (fun s => (s, m_p2align m)) (strings m)) recs).

(** The bucket of [fragments[i]] of the section number [c]. *)
Definition fragment_slot (recs : list MergeableSection) (s : table * list inserter) (c i : nat) : option nat :=
  (fun t => Z.to_nat (t_idx (in_map t))) <$> s.2 !! (length (requests_of (take c recs)) + i)%nat.

Lemma requests_at recs c m i p : recs !! c = Some m -> strings m !! i = Some p -> requests_of recs !! (length (requests_of (take c recs)) + i)%nat = Some (p, m_p2align m).
Proof.
  intros Hc Hi. assert (E : requests_of recs = requests_of (take c recs) ++ map (fun s => (s, m_p2align m)) (strings m) ++ requests_of (drop (S c) recs)).
  { rewrite <- (take_drop_middle recs c m Hc) at 1. unfold requests_of. by rewrite map_app, concat_app. }
  rewrite E. rewrite lookup_app_r by lia.
  rewrite Nat.add_comm, Nat.add_sub. rewrite lookup_app_l; [|rewrite length_map; by eapply lookup_lt_Some].
  change (((fun s => (s, m_p2align m)) <$> strings m) !! i = Some (p, m_p2align m)). rewrite list_lookup_fmap. by rewrite Hi.
Qed.

Lemma split_section_pieces relocatable merge unique sec m : 0 <= sh_entsize sec -> split_section relocatable merge unique sec = Some (Some m) ->
  pieces_of (contents sec) (strings m) /\ frag_offsets m = piece_offsets 0 (strings m) /\ m_p2align m = sec_p2align sec.
Proof.
  intros He. unfold split_section. destruct (negb (sec_alive sec) || has_relsec sec); [done|]. destruct (negb (has_flag (sh_flags sec) "MERGE")); [done|]. cbv zeta.
  destruct (contents sec) as [|b data] eqn:Ec; [intros [= <-]; done|]. destruct (has_flag (sh_flags sec) "STRINGS").
  - intros (l & Hl & [= <-])%bind_Some. cbn [strings frag_offsets m_p2align]. split; [|done]. eapply split_strings_pieces; [|exact Hl]. destruct (Z.eqb_spec (sh_entsize sec) 0); lia.
  - destruct (Z.eqb_spec (sh_entsize sec) 0); [done|]. destruct (negb _); [done|]. intros (l & Hl & [= <-])%bind_Some. cbn [strings frag_offsets m_p2align]. split; [|done].
    eapply split_records_pieces; [|exact Hl]. lia.
Qed.

(** A section that is merged. *)
Definition mergeable (relocatable merge : bool) (unique : bytes -> bool) (sec : InputSection) (m : MergeableSection) : Prop :=
  split_section relocatable merge unique sec = Some (Some m) /\ 0 <= sh_entsize sec /\ 0 <= sec_p2align sec < 31 /\ zlen (contents sec) < 2 ^ 32.

(** C12: sections are split and their pieces inserted into an output section, by any schedule.
    Then for every offset in a section get_fragment gives a fragment that is alive if it was
    from the start or has been reached; and if it is, the output has the whole piece at its
    offset, aligned as its section asks for, the byte of the section is where get_fragment
    says, and both a symbol with this value and a relocation against the section symbol,
    redirected to the fragment, have the address of this byte. *)
Theorem merged_pieces_kept relocatable merge unique secs recs s l buf sh_addr :
  Forall2 (mergeable relocatable merge unique) secs recs -> fits (requests_of recs) -> merging (requests_of recs) s l ->
  sh_size (section_of s l) < 2 ^ 32 -> zlen buf = sh_size (section_of s l) ->
  exists buf', write_to (section_of s l) buf = Some buf' /\ zlen buf' = sh_size (section_of s l) /\
  forall c sec m x, secs !! c = Some sec -> recs !! c = Some m -> 0 <= x < zlen (contents sec) ->
    exists i d j f piece, get_fragment m x = Some (i, d) /\ strings m !! i = Some piece /\ fragment_slot recs s c i = Some j /\
      frag_at (l_table (section_of s l)) j = Some f /\ is_alive f = alive || marked s l piece /\
      (is_alive f = true -> has_code buf' (f_offset f) piece /\ buf' !! Z.to_nat (f_offset f + d) = contents sec !! Z.to_nat x /\
         f_offset f mod 2 ^ sec_p2align sec = 0 /\ sh_addralign (section_of s l) mod 2 ^ sec_p2align sec = 0 /\
         (forall shndx, shndx <> shn "ABS" -> shndx <> shn "COMMON" -> shndx <> shn "UNDEF" ->
            attach_symbol (Some m) shndx x = Some (Some (i, d)) /\ symbol_get_addr sh_addr d f = u64 (sh_addr + (f_offset f + d))) /\
         forall st_value r_addend, st_value + r_addend = x -> exists v, redirect_reloc m st_value r_addend = Some (i, v) /\
           u64 (symbol_get_addr sh_addr v f + r_addend) = u64 (sh_addr + (f_offset f + d))).
Proof.
  intros Hsec Hfit M Hsz Hbuf. assert (Hal : aligned (requests_of recs)).
  { apply Forall_forall. intros [k p] Hin. unfold requests_of in Hin. apply list_elem_of_In, in_concat in Hin as (ps & Hps & Hin). apply in_map_iff in Hps as (m & <- & Hm).
    apply in_map_iff in Hin as (piece & [= _ <-] & _). apply list_elem_of_In, list_elem_of_lookup in Hm as [c Hc].
    destruct (Forall2_lookup_r _ _ _ _ _ Hsec Hc) as (sec & _ & H1 & H2 & H3 & H4). by destruct (split_section_pieces _ _ _ _ _ H2 H1) as (_ & _ & ->). }
  pose proof (merging_table _ _ _ Hal M) as T. destruct (write_to_ok _ _ _ Hal Hfit T buf Hsz Hbuf) as (buf' & W & L & C & _). exists buf'. split; [exact W|]. split; [exact L|].
  intros c sec m x Hs Hm Hx. destruct (Forall2_lookup_lr _ _ _ _ _ _ Hsec Hs Hm) as (H1 & H2 & H3 & H4). destruct (split_section_pieces _ _ _ _ _ H2 H1) as (P1 & P2 & P3).
  destruct (get_fragment_at m (contents sec) x P1 P2 H4 Hx) as (i & piece & d & G & Hi & Hd & Hxd & Hb).
  destruct (inserted_table _ _ Hal (mg_run _ _ _ M) (mg_done _ _ _ M)) as [_ Hreq]. pose proof (requests_at _ _ _ _ _ Hm Hi) as Hr. destruct (Hreq _ _ _ Hr) as (t & Ht & Hk).
  destruct (final_frag _ _ _ _ _ Hal Hfit M Hsz Hk) as (f & Hf & Ha & Hlo). exists i, d, (Z.to_nat (t_idx (in_map t))), f, piece.
  split; [done|]. split; [done|]. split; [unfold fragment_slot; by rewrite Ht|]. split; [done|]. split; [done|]. intros Hal'. destruct (Hlo Hal') as (i' & a & Hl').
  pose proof (C _ _ _ _ _ Hl') as Hcode. split; [exact Hcode|]. split; [rewrite (has_code_at buf' (f_offset f) piece d Hcode Hd); exact Hb|].
  destruct (lo_align _ _ _ _ _ _ _ Hl') as [A1 A2]. pose proof (max_align_ge _ _ _ (list_elem_of_lookup_2 _ _ _ Hr)) as Hle. rewrite P3 in Hle.
  assert (Hdiv : forall y, y mod 2 ^ max_align (requests_of recs) piece = 0 -> y mod 2 ^ sec_p2align sec = 0).
  { intros y Hy. apply Z.mod_divide in Hy as [z ->]; [|apply Z.pow_nonzero; pose proof (max_align_range _ piece Hal); lia]. apply Z.mod_divide; [apply Z.pow_nonzero; lia|].
    exists (z * 2 ^ (max_align (requests_of recs) piece - sec_p2align sec)). rewrite <- Z.mul_assoc, <- Z.pow_add_r by lia. do 2 f_equal. lia. }
  split; [by apply Hdiv|]. split; [by apply Hdiv|]. split.
  { intros shndx N1 N2 N3. unfold attach_symbol. rewrite !(proj2 (Z.eqb_neq _ _)) by done. cbn [orb]. destruct (strings m) as [|w ws] eqn:Ew; [done|]. rewrite G. split; [done|].
    unfold symbol_get_addr, frag_get_addr. rewrite Hal'. unfold u64, wrap. rewrite Zplus_mod_idemp_l. f_equal. lia. }
  intros st_value r_addend E. exists (d - r_addend). unfold redirect_reloc. rewrite E, G. split; [done|].
  unfold symbol_get_addr, frag_get_addr. rewrite Hal'. unfold u64, wrap. rewrite Zplus_mod_idemp_l, <- Z.add_assoc, Zplus_mod_idemp_l. f_equal. lia.
Qed.
End Insertions.
End Merged.

(** ** Examples *)

(** A schedule as a list of threads and failures of the compare-and-swap. *)
Fixpoint run_insertions (nbuckets : Z) (alive : bool) (l : list (nat * bool)) (s : table * list inserter) : option (table * list inserter) :=
  match l with
  | [] => Some s
  | c :: l => insert_at nbuckets alive c s ≫= run_insertions nbuckets alive l
  end.

Lemma run_insertions_steps nbuckets alive l s s' : run_insertions nbuckets alive l s = Some s' -> rtc (insertion nbuckets alive) s s'.
Proof.
  revert s. induction l as [|c l IH]; intros s; cbn [run_insertions]; [by intros [= ->]|]. intros (s1 & H1 & H2)%bind_Some.
  apply rtc_l with s1; [by exists c|]. by apply IH.
Qed.

(** Two sections with the strings a, bc and bc, and bd: the first needs no alignment, the
    second one of four. Fragments are alive when garbage collection reaches them. *)
Definition example_sec : InputSection := mkInputSection true false (Z.lor (shf "MERGE") (shf "STRINGS")) 1 (bs ".rodata.str1.4") 1 2 [98; 99; 0; 98; 100; 0].
Definition example_sections : list InputSection :=
  [mkInputSection true false (Z.lor (shf "MERGE") (shf "STRINGS")) 1 (bs ".rodata.str1.1") 1 0 [97; 0; 98; 99; 0];
   example_sec].
Definition example_rec : MergeableSection := mkMergeable (bs ".rodata.str", Z.lor (shf "MERGE") (shf "STRINGS"), 1) 2 [[98; 99; 0]; [98; 100; 0]] [0; 3].
Definition example_recs : list MergeableSection :=
  [mkMergeable (bs ".rodata.str", Z.lor (shf "MERGE") (shf "STRINGS"), 1) 0 [[97; 0]; [98; 99; 0]] [0; 2];
   example_rec].
Definition length_hash (k : bytes) : Z := zlen k.
Definition example_reqs : list (bytes * Z) := requests_of example_recs.
Definition example_start : table * list inserter := start_insertions 2048 length_hash example_reqs.

(** One thread after the other, and all at once. *)
Definition alone (i : nat) (k : nat) : list (nat * bool) := replicate k (i, false).
Definition schedule1 : list (nat * bool) := alone 0 6 ++ alone 1 6 ++ alone 2 3 ++ alone 3 7.
Definition schedule2 : list (nat * bool) :=
  [(3%nat, false); (2%nat, false); (3%nat, false); (2%nat, false)] ++ alone 3 4 ++
  [(2%nat, false); (2%nat, false); (2%nat, true); (2%nat, false); (1%nat, false); (1%nat, false); (2%nat, false); (1%nat, false)] ++ alone 2 2 ++
  alone 1 3 ++ alone 2 2 ++ alone 0 6.
Definition example_run (l : list (nat * bool)) : table * list inserter :=
  match run_insertions 2048 false l example_start with Some s => s | None => example_start end.
Definition example1 := example_run schedule1.
Definition example2 := example_run schedule2.

(** The buckets of a and bc. *)
Definition example_marks (s : table * list inserter) : list nat := map (fun t => Z.to_nat (t_idx (in_map t))) (take 2 s.2).

(** The fragments get other buckets, and the marks are for the same keys. *)
Example example_buckets : map (fun t => t_idx (in_map t)) example1.2 = [2; 3; 3; 4] /\ map (fun t => t_idx (in_map t)) example2.2 = [2; 4; 4; 3].
Proof. vm_compute. done. Qed.

Lemma example_merging l s : example_run l = s -> is_Some (run_insertions 2048 false l example_start) -> forallb (fun t => match in_raise t with Raised => true | _ => false end) s.2 = true ->
  forallb (fun i => match keys s.1 !! i with Some (Key _) => true | _ => false end) (example_marks s) = true -> merging 2048 length_hash false example_reqs s (example_marks s).
Proof.
  intros <- [s' E] H1 H2. unfold example_run in *. rewrite E in *. split.
  - by apply run_insertions_steps in E.
  - intros t Ht. rewrite forallb_forall in H1. apply list_elem_of_In in Ht. specialize (H1 t Ht). by destruct (in_raise t).
  - intros i Hi. rewrite forallb_forall in H2. apply list_elem_of_In in Hi. specialize (H2 i Hi). destruct (keys s'.1 !! i) as [[| |k]|]; try done. by exists k.
Qed.

Lemma example_merging1 : merging 2048 length_hash false example_reqs example1 (example_marks example1).
Proof. apply (example_merging schedule1); [done|by vm_compute; eexists|vm_compute; done|vm_compute; done]. Qed.
Lemma example_merging2 : merging 2048 length_hash false example_reqs example2 (example_marks example2).
Proof. apply (example_merging schedule2); [done|by vm_compute; eexists|vm_compute; done|vm_compute; done]. Qed.

Lemma example_aligned : aligned example_reqs.
Proof. repeat constructor; vm_compute; discriminate. Qed.

Lemma example_marked k : marked example1 (example_marks example1) k = marked example2 (example_marks example2) k.
Proof.
  unfold marked. assert (E1 : map (fun i => keys example1.1 !! i) (example_marks example1) = [Some (Key [97; 0]); Some (Key [98; 99; 0])]) by (vm_compute; done).
  assert (E2 : map (fun i => keys example2.1 !! i) (example_marks example2) = [Some (Key [97; 0]); Some (Key [98; 99; 0])]) by (vm_compute; done).
  assert (H : forall (m : table) l, existsb (fun i => bool_decide (keys m !! i = Some (Key k))) l = existsb (fun b => bool_decide (b = Some (Key k))) (map (fun i => keys m !! i) l)).
  { intros m l. induction l as [|i l IH]; [done|]. cbn [existsb map]. by rewrite IH. }
  by rewrite !H, E1, E2.
Qed.

Lemma example_size : sh_size (section_of 2048 example1 (example_marks example1)) = 8.
Proof. vm_compute. reflexivity. Qed.
Lemma example_size2 : sh_size (section_of 2048 example2 (example_marks example2)) = 8.
Proof. vm_compute. reflexivity. Qed.
Lemma example_fits : sh_size (section_of 2048 example1 (example_marks example1)) < 2 ^ 32.
Proof. rewrite example_size. lia. Qed.
Lemma example_len1 : zlen (replicate 8 7) = sh_size (section_of 2048 example1 (example_marks example1)).
Proof. rewrite example_size. reflexivity. Qed.
Lemma example_len2 : zlen (replicate 8 9) = sh_size (section_of 2048 example2 (example_marks example2)).
Proof. rewrite example_size2. reflexivity. Qed.

Lemma merged_any_schedule_witness :
  merging 2048 length_hash false example_reqs example1 (example_marks example1) /\ merging 2048 length_hash false example_reqs example2 (example_marks example2) /\
  map (fun t => t_idx (in_map t)) example1.2 <> map (fun t => t_idx (in_map t)) example2.2 /\
  sh_addralign (section_of 2048 example1 (example_marks example1)) = sh_addralign (section_of 2048 example2 (example_marks example2)) /\
  write_to 2048 (section_of 2048 example1 (example_marks example1)) (replicate 8 7) = write_to 2048 (section_of 2048 example2 (example_marks example2)) (replicate 8 9).
Proof.
  destruct (merged_any_schedule 2048 length_hash false 11 ltac:(lia) eq_refl example_reqs example_reqs example1 example2 (example_marks example1) (example_marks example2) example_aligned)
    as (_ & E2 & _ & E4); [vm_compute; reflexivity|reflexivity|exact example_merging1|exact example_merging2|exact example_marked|exact example_fits|].
  split; [exact example_merging1|]. split; [exact example_merging2|]. split; [destruct example_buckets as [-> ->]; discriminate|]. split; [exact E2|].
  exact (E4 _ _ example_len1 example_len2).
Defined.

Lemma example_split : Forall2 (mergeable false false (fun _ => false)) example_sections example_recs.
Proof. repeat constructor; vm_compute; done. Qed.

(** The string bc of the second section, at its second byte. *)
Lemma merged_pieces_kept_witness : exists buf', write_to 2048 (section_of 2048 example1 (example_marks example1)) (replicate 8 7) = Some buf' /\
  exists i d j f piece, get_fragment example_rec 1 = Some (i, d) /\
    fragment_slot example_recs example1 1 i = Some j /\ frag_at (l_table (section_of 2048 example1 (example_marks example1))) j = Some f /\
    is_alive f = marked example1 (example_marks example1) piece /\ (is_alive f = true -> buf' !! Z.to_nat (f_offset f + d) = Some 99 /\ f_offset f mod 4 = 0).
Proof.
  destruct (merged_pieces_kept 2048 length_hash false 11 ltac:(lia) eq_refl false false (fun _ => false) example_sections example_recs example1 (example_marks example1) (replicate 8 7) 0x1000
    example_split) as (buf' & W & _ & H); [vm_compute; done|exact example_merging1|exact example_fits|exact example_len1|].
  exists buf'. split; [exact W|]. assert (Hx : 0 <= 1 < zlen (contents example_sec)) by (split; [discriminate|reflexivity]).
  destruct (H 1%nat example_sec example_rec 1 eq_refl eq_refl Hx) as (i & d & j & f & piece & G & _ & F & Fa & Al & K).
  exists i, d, j, f, piece. split; [exact G|]. split; [exact F|]. split; [exact Fa|]. split; [exact Al|]. intros A. destruct (K A) as (_ & B & C & _). split; [exact B|exact C].
Defined.

Example example_output : write_to 2048 (section_of 2048 example1 (example_marks example1)) (replicate 8 7) = Some [97; 0; 0; 0; 98; 99; 0; 0].
Proof. vm_compute. done. Qed.
