(* ===== verification/Leaders.v ===== *)
(** * Election of leaders

    Identical code folding groups sections in a concurrent hash map whose values are atomic
    pointers: a section inserts itself with its key or, when the key is there, lowers the
    pointer to itself with a compare-and-swap loop if its priority is smaller
    ([update_leader] of src/elf/icf.cc after the [emplace] of [merge_leaf_nodes] and of
    [icf_sections]). The operation is a state machine per section; the map of the library
    inserts atomically, as it documents. The theorem of this file: however the threads
    interleave, once all are done every key has the section of the least priority. *)

From S2P Require Import Prelude.
Local Open Scope list_scope.
Local Open Scope Z_scope.

Section Vote.
Context {K I : Type} `{Countable K} `{EqDecision I} (key : I -> K) (prio : I -> Z).

(** Before [emplace], before [leader.load()], in the loop with the value that was read, and
    after it. *)
Inductive phase := Emplace | Load | Compare (cur : I) | Elected.

Record voter := mkVoter { v_sec : I; v_phase : phase }.

(** One step; [spurious]: the weak compare-and-swap fails without a reason. [None]: the
    operation is over, or there is no pointer. *)
Definition advance (spurious : bool) (m : gmap K I) (t : voter) : option (gmap K I * voter) :=
  let isec := v_sec t in
  match v_phase t with
  | Emplace =>
      match m !! key isec with
      | None => Some (<[key isec := isec]> m, mkVoter isec Elected)
      | Some _ => Some (m, mkVoter isec Load)
      end
  | Load => cur ← m !! key isec; Some (m, mkVoter isec (Compare cur))
  | Compare cur =>
      if prio isec <? prio cur then
        leader ← m !! key isec;
        if spurious || negb (bool_decide (leader = cur)) then Some (m, mkVoter isec (Compare leader))
        else Some (<[key isec := isec]> m, mkVoter isec Elected)
      else Some (m, mkVoter isec Elected)
  | Elected => None
  end.

(** A step of one of the threads. *)
Definition advance_at (c : nat * bool) (s : gmap K I * list voter) : option (gmap K I * list voter) :=
  t ← s.2 !! c.1; '(m, t') ← advance c.2 s.1 t; Some (m, <[c.1 := t']> s.2).

Definition step (s s' : gmap K I * list voter) : Prop := exists c, advance_at c s = Some s'.

Definition candidates (l : list I) : gmap K I * list voter := (∅, map (fun i => mkVoter i Emplace) l).

(** All threads are done. *)
Definition elected (l : list I) (m : gmap K I) : Prop :=
  exists ts, rtc step (candidates l) (m, ts) /\ forall t, t ∈ ts -> v_phase t = Elected.

(** The same one section after the other. *)
Definition vote (m : gmap K I) (isec : I) : gmap K I :=
  match m !! key isec with
  | None => <[key isec := isec]> m
  | Some cur => if prio isec <? prio cur then <[key isec := isec]> m else m
  end.
Definition elect (l : list I) : gmap K I := foldl vote ∅ l.

(** ** Invariant *)

(** The pointer for the key of a thread is at most what the thread has seen. *)
Definition at_most (m : gmap K I) (k : K) (p : Z) : Prop := exists i, m !! k = Some i /\ prio i <= p.

Definition voter_inv (m : gmap K I) (t : voter) : Prop :=
  match v_phase t with
  | Emplace => True
  | Load => is_Some (m !! key (v_sec t))
  | Compare cur => at_most m (key (v_sec t)) (prio cur)
  | Elected => at_most m (key (v_sec t)) (prio (v_sec t))
  end.

Record vote_inv (l : list I) (s : gmap K I * list voter) : Prop := {
  vi_secs : map v_sec s.2 = l;
  vi_own : forall k i, s.1 !! k = Some i -> i ∈ l /\ key i = k;
  vi_voters : forall t, t ∈ s.2 -> voter_inv s.1 t }.

(** The pointers only go down. *)
Definition lower (m m' : gmap K I) : Prop := forall k p, at_most m k p -> at_most m' k p.

Lemma lower_refl m : lower m m.
Proof. by intros k p. Qed.

Lemma lower_insert m i : (forall cur, m !! key i = Some cur -> prio i <= prio cur) -> lower m (<[key i := i]> m).
Proof.
  intros Hi k p (j & Hj & Hp). destruct (decide (key i = k)) as [<-|Hk]; [|exists j; by rewrite lookup_insert_ne].
  exists i. rewrite lookup_insert_eq. split; [done|]. specialize (Hi j Hj). lia.
Qed.

Lemma lower_inv m m' t : lower m m' -> voter_inv m t -> voter_inv m' t.
Proof.
  intros Hl. unfold voter_inv. destruct (v_phase t) as [| |cur|]; [done| |apply Hl|apply Hl].
  intros [i Hi]. destruct (Hl (key (v_sec t)) (prio i)) as (j & Hj & _); [by exists i|by exists j].
Qed.

Lemma advance_spec spurious m t m' t' : advance spurious m t = Some (m', t') -> voter_inv m t ->
  v_sec t' = v_sec t /\ voter_inv m' t' /\ lower m m' /\ (m' = m \/ m' = <[key (v_sec t) := v_sec t]> m).
Proof.
  unfold advance. destruct t as [i p]. cbn [v_sec v_phase]. destruct p as [| |cur|]; intros E Hinv; [| | |done].
  - destruct (m !! key i) as [cur|] eqn:Em.
    + injection E as <- <-. split; [done|]. split; [by exists cur|]. split; [apply lower_refl|by left].
    + injection E as <- <-. split; [done|]. split; [exists i; cbn [v_sec]; by rewrite lookup_insert_eq|]. split; [apply lower_insert; congruence|by right].
  - destruct (m !! key i) as [cur|] eqn:Em; [|done]. injection E as <- <-. split; [done|]. split; [by exists cur|]. split; [apply lower_refl|by left].
  - destruct Hinv as (j & Hj & Hp). cbn [v_sec] in Hj. destruct (Z.ltb_spec (prio i) (prio cur)).
    + rewrite Hj in E. cbn [mbind option_bind] in E. destruct (spurious || negb (bool_decide (j = cur))) eqn:Es.
      * injection E as <- <-. split; [done|]. split; [by exists j|]. split; [apply lower_refl|by left].
      * injection E as <- <-. apply orb_false_iff in Es as [_ Es%negb_false_iff%bool_decide_eq_true]. subst j. split; [done|].
        split; [exists i; cbn [v_sec]; by rewrite lookup_insert_eq|]. split; [|by right]. apply lower_insert. intros c Hc. rewrite Hj in Hc. injection Hc as <-. lia.
    + injection E as <- <-. split; [done|]. split; [exists j; cbn [v_sec]; split; [done|lia]|]. split; [apply lower_refl|by left].
Qed.

Lemma advance_at_inv l c s s' : advance_at c s = Some s' -> vote_inv l s -> vote_inv l s'.
Proof.
  intros E [I1 I2 I3]. unfold advance_at in E. destruct (s.2 !! c.1) as [t|] eqn:Et; [|done]. cbn [mbind option_bind] in E.
  destruct (advance c.2 s.1 t) as [[m' t']|] eqn:Ea; [|done]. injection E as <-. pose proof (list_elem_of_lookup_2 _ _ _ Et) as Hin.
  destruct (advance_spec _ _ _ _ _ Ea (I3 t Hin)) as (E1 & E2 & E3 & E4). split; cbn [fst snd].
  - rewrite <- I1. change (v_sec <$> <[c.1 := t']> s.2 = v_sec <$> s.2). rewrite list_fmap_insert, E1. apply list_insert_id. by rewrite list_lookup_fmap, Et.
  - intros k i Hk. destruct E4 as [->| ->]; [by apply I2|]. destruct (decide (key (v_sec t) = k)) as [<-|Hne]; [|rewrite lookup_insert_ne in Hk by done; by apply I2].
    rewrite lookup_insert_eq in Hk. injection Hk as <-. split; [|done]. rewrite <- I1. change (v_sec t ∈ v_sec <$> s.2). by apply list_elem_of_fmap_2.
  - intros u Hu. apply list_elem_of_lookup in Hu as [j Hj]. apply list_lookup_insert_Some in Hj as [(<- & <- & _)|[_ Hj]]; [done|].
    apply (lower_inv s.1); [done|]. apply I3. by apply list_elem_of_lookup_2 in Hj.
Qed.

Lemma steps_inv l s s' : rtc step s s' -> vote_inv l s -> vote_inv l s'.
Proof. induction 1 as [|s1 s2 s3 [c E] _ IH]; [done|]. intros Hi. apply IH. by apply (advance_at_inv l c s1). Qed.

Lemma candidates_inv l : vote_inv l (candidates l).
Proof.
  split; cbn [candidates fst snd].
  - rewrite map_map. apply map_id.
  - intros k i Hk. by rewrite lookup_empty in Hk.
  - intros t Ht. apply list_elem_of_fmap in Ht as (i & -> & _). done.
Qed.

(** ** Elections *)

(** [i] has the least priority among the candidates with its key. *)
Record least (l : list I) (i : I) : Prop := {
  ls_in : i ∈ l;
  ls_least : forall j, j ∈ l -> key j = key i -> prio i <= prio j }.

Lemma elected_least l m i : elected l m -> i ∈ l -> exists j, m !! key i = Some j /\ key j = key i /\ least l j.
Proof.
  intros (ts & Hr & Hd) Hi. pose proof (steps_inv l _ _ Hr (candidates_inv l)) as [I1 I2 I3]. cbn [fst snd] in *.
  assert (Hall : forall x, x ∈ l -> at_most m (key x) (prio x)).
  { intros x Hx. rewrite <- I1 in Hx. apply list_elem_of_fmap in Hx as (t & -> & Ht). specialize (I3 t Ht). unfold voter_inv in I3. by rewrite (Hd t Ht) in I3. }
  destruct (Hall i Hi) as (j & Hj & _). destruct (I2 _ _ Hj) as [Hjl Hjk]. exists j. split; [done|]. split; [done|]. split; [done|].
  intros x Hx Hk. destruct (Hall x Hx) as (j' & Hj' & Hp). rewrite Hk, Hjk, Hj in Hj'. by injection Hj' as <-.
Qed.

Lemma elected_only l m k j : elected l m -> m !! k = Some j -> j ∈ l /\ key j = k.
Proof. intros (ts & Hr & _) Hk. pose proof (steps_inv l _ _ Hr (candidates_inv l)) as [_ I2 _]. by apply I2. Qed.

(** With distinct priorities the result does not depend on the schedule. *)
Lemma elected_unique l m1 m2 : (forall i j, i ∈ l -> j ∈ l -> prio i = prio j -> i = j) -> elected l m1 -> elected l m2 -> m1 = m2.
Proof.
  intros Hp E1 E2. apply map_eq. intros k. assert (G : forall m m' j, elected l m -> elected l m' -> m !! k = Some j -> m' !! k = Some j).
  { intros m m' j Em Em' Hj. destruct (elected_only _ _ _ _ Em Hj) as [Hl <-]. destruct (elected_least _ _ _ Em Hl) as (j1 & A1 & A2 & [A3 A4]).
    destruct (elected_least _ _ _ Em' Hl) as (j2 & B1 & B2 & [B3 B4]). rewrite Hj in A1. injection A1 as <-. rewrite B1. f_equal. apply Hp; [done|done|].
    specialize (A4 j2 B3 B2). specialize (B4 j Hl (eq_sym B2)). lia. }
  destruct (m1 !! k) as [j|] eqn:Ej; [symmetry; by apply (G m1 m2)|]. destruct (m2 !! k) as [j|] eqn:Ej'; [|done]. by rewrite (G m2 m1 j) in Ej.
Qed.

(** ** One section after the other *)

Lemma step_mid m m' t t' a b : advance false m t = Some (m', t') -> step (m, a ++ t :: b) (m', a ++ t' :: b).
Proof.
  intros E. exists (length a, false). unfold advance_at. cbn [fst snd]. rewrite list_lookup_middle by done. cbn [mbind option_bind]. rewrite E. cbn [mbind option_bind].
  do 2 f_equal. replace (length a) with (length a + 0)%nat by lia. by rewrite insert_app_r.
Qed.

Lemma vote_steps m i a b : rtc step (m, a ++ mkVoter i Emplace :: b) (vote m i, a ++ mkVoter i Elected :: b).
Proof.
  unfold vote. destruct (m !! key i) as [cur|] eqn:Em.
  - eapply rtc_l; [apply (step_mid m m _ (mkVoter i Load)); unfold advance; cbn [v_sec v_phase]; by rewrite Em|].
    eapply rtc_l; [apply (step_mid m m _ (mkVoter i (Compare cur))); unfold advance; cbn [v_sec v_phase]; by rewrite Em|].
    apply rtc_once, step_mid. unfold advance. cbn [v_sec v_phase]. destruct (_ <? _); [|done]. rewrite Em. cbn [mbind option_bind]. by rewrite bool_decide_true.
  - apply rtc_once, step_mid. unfold advance. cbn [v_sec v_phase]. by rewrite Em.
Qed.

Lemma elect_steps l : forall m a, rtc step (m, a ++ map (fun i => mkVoter i Emplace) l) (foldl vote m l, a ++ map (fun i => mkVoter i Elected) l).
Proof.
  induction l as [|i l IH]; intros m a; [apply rtc_refl|]. cbn [map foldl]. etrans; [apply vote_steps|].
  specialize (IH (vote m i) (a ++ [mkVoter i Elected])). rewrite <- !app_assoc in IH. exact IH.
Qed.

Lemma elect_elected l : elected l (elect l).
Proof.
  exists (map (fun i => mkVoter i Elected) l). split; [apply (elect_steps l ∅ [])|]. intros t Ht. by apply list_elem_of_fmap in Ht as (i & -> & _).
Qed.
End Vote.
