(* ===== verification/IcfRounds.v ===== *)
(** * The rounds of identical code folding

    [propagate], [count_num_classes] and the two loops of [icf_sections] (src/elf/icf.cc):
    the digest of every node of a graph is recomputed from the digests of its successors
    until the number of different digests stops growing, for which the source omits the
    proof. The hash function is an argument; the theorem assumes that it has no collision
    among the strings that the rounds hash. It says that the loops end and that two nodes end
    up with the same digest if and only if their unfoldings into trees are equal, which is
    stated as the greatest relation that respects labels and edges. *)

From S2P Require Import Prelude Buffers.
Local Open Scope list_scope.
Local Open Scope Z_scope.

Definition HASH_SIZE : nat := 16.

(** [digests[0]], [digests[1]], [slot] and [converged], with the counter of the rounds. *)
Record rounds := mkRounds {
  digests0 : list bytes;
  digests1 : list bytes;
  slot : bool;
  converged : list bool;
  round : nat }.

Definition front (r : rounds) : list bytes := if slot r then digests1 r else digests0 r.
Definition back (r : rounds) : list bytes := if slot r then digests0 r else digests1 r.

(** [digest_final]: the first bytes of the hash of what was passed to [update]. A bit of
    [converged] can get lost, since [BitVector::set] is not atomic and eight nodes share
    a byte: [lost k i] says that this happens to the node [i] in round [k]. *)
Section Rounds.
Context (digest : bytes -> bytes) (lost : nat -> nat -> bool).
Context (digests2 : list bytes) (edges edge_indices : list Z).

(** [edges.subspan(begin, end - begin)] *)
Definition node_edges (num_digests i : nat) : option (list Z) :=
  begin_ ← edge_indices !! i;
  end_ ← (if (i + 1 =? num_digests)%nat then Some (zlen edges) else edge_indices !! (i + 1)%nat);
  slice edges begin_ end_.

(** The new digest of a node, its bit of [converged], and whether it counts as changed. *)
Definition propagate_node (r : rounds) (i : nat) : option (bytes * bool * bool) :=
  c ← converged r !! i;
  if c : bool then d ← back r !! i; Some (d, true, false)
  else
    base ← digests2 !! i;
    es ← node_edges (length (digests0 r)) i;
    ds ← mapM (fun j => front r !! Z.to_nat j) es;
    let d := digest (base ++ concat ds) in
    old ← front r !! i;
    if bool_decide (old = d) then Some (d, negb (lost (round r) i), false) else Some (d, false, true).

Definition propagate (r : rounds) : option (rounds * Z) :=
  l ← mapM (propagate_node r) (seq 0 (length (digests0 r)));
  let ds := map (fun x => x.1.1) l in
  let conv := map (fun x => x.1.2) l in
  let r := if slot r then mkRounds ds (digests1 r) false conv (S (round r)) else mkRounds (digests0 r) ds true conv (S (round r)) in
  Some (r, zlen (List.filter (fun x => x.2) l)).

Fixpoint propagate_times (n : nat) (r : rounds) : option rounds :=
  match n with O => Some r | S n => '(r, _) ← propagate r; propagate_times n r end.

(** The number of neighbours in the sorted vector that differ. *)
Fixpoint differing (l : list bytes) : Z :=
  match l with
  | x :: l => match l with y :: _ => (if bool_decide (x = y) then 0 else 1) + differing l | [] => 0 end
  | [] => 0
  end.
Definition count_num_classes (l : list bytes) : Z := differing (stable_sort str_ltb l).

(** The two loops. *)
Fixpoint shallow_rounds (fuel : nat) (num_changed : Z) (r : rounds) : option rounds :=
  match fuel with
  | O => None
  | S fuel => '(r, n) ← propagate r; if n =? num_changed then Some r else shallow_rounds fuel n r
  end.

Fixpoint deep_rounds (fuel : nat) (num_classes : Z) (r : rounds) : option rounds :=
  match fuel with
  | O => None
  | S fuel =>
      r ← propagate_times 10 r;
      let n := count_num_classes (front r) in
      if n =? num_classes then Some r else deep_rounds fuel n r
  end.

Definition start_rounds : rounds :=
  mkRounds digests2 (replicate (length digests2) (replicate HASH_SIZE 0)) false (replicate (length digests2) false) 0.

(** [digests[slot]] after the loops. *)
Definition final_digests (fuel : nat) : option (list bytes) :=
  r ← shallow_rounds fuel (-1) start_rounds;
  r ← deep_rounds fuel (-1) r;
  Some (front r).
End Rounds.

(** ** Classes

    The number of different strings of a list, as the size of its set. *)

Definition distinct (l : list bytes) : nat := size (list_to_set l : gset bytes).

Lemma distinct_perm l l' : l ≡ₚ l' -> distinct l = distinct l'.
Proof. intros H. unfold distinct. f_equal. apply leibniz_equiv. by rewrite H. Qed.

Lemma distinct_cons x l : distinct (x :: l) = if bool_decide (x ∈ l) then distinct l else S (distinct l).
Proof.
  unfold distinct. rewrite list_to_set_cons. case_bool_decide as Hx.
  - f_equal. apply leibniz_equiv. rewrite <- (elem_of_list_to_set (C := gset bytes)) in Hx. set_solver.
  - rewrite size_union; [by rewrite size_singleton|]. rewrite <- (elem_of_list_to_set (C := gset bytes)) in Hx. set_solver.
Qed.

Lemma differing_sorted l : StronglySorted (fun a b => str_ltb b a = false) l -> l <> [] -> differing l + 1 = Z.of_nat (distinct l).
Proof.
  induction 1 as [|x l Hs IH Hx]; [done|]. intros _. destruct l as [|y l]; [rewrite distinct_cons, bool_decide_false by set_solver; done|]. cbn [differing]. rewrite distinct_cons.
  specialize (IH ltac:(done)). cbn [differing] in IH. case_bool_decide as E1.
  - subst y. rewrite bool_decide_true by left. lia.
  - rewrite bool_decide_false; [lia|]. intros Hin. apply E1. inversion_clear Hs as [|? ? _ Hy]. inversion_clear Hx as [|? ? Hxy _].
    apply elem_of_cons in Hin as [->|Hin]; [done|]. apply str_ltb_total; [|done]. rewrite Forall_forall in Hy. by apply Hy.
Qed.

Lemma count_num_classes_distinct l : l <> [] -> count_num_classes l + 1 = Z.of_nat (distinct l).
Proof.
  intros Hl. unfold count_num_classes. rewrite <- (distinct_perm (stable_sort str_ltb l) l) by apply stable_sort_perm. apply differing_sorted.
  - apply stable_sort_sorted; [apply str_ltb_asym|]. intros x y z H1 H2. by apply (str_nltb_trans x y z).
  - intros E. apply Hl. apply Permutation_nil. rewrite <- E. apply stable_sort_perm.
Qed.

Lemma distinct_map_cons {A} (f : A -> bytes) x l : distinct (map f (x :: l)) = if bool_decide (f x ∈ map f l) then distinct (map f l) else S (distinct (map f l)).
Proof. apply distinct_cons. Qed.

(** A finer partition has at least as many classes, and if it has as many it is the same. *)
Lemma finer_distinct {A} (f g : A -> bytes) l : (forall x y, x ∈ l -> y ∈ l -> f x = f y -> g x = g y) ->
  (distinct (map g l) <= distinct (map f l))%nat /\
  (distinct (map g l) = distinct (map f l) -> forall x y, x ∈ l -> y ∈ l -> g x = g y -> f x = f y).
Proof.
  induction l as [|z l IH]; intros H; [split; [done|]; intros _ x y Hx; by apply elem_of_nil in Hx|].
  destruct IH as [IH1 IH2]; [intros x y Hx Hy; apply H; by right|].
  assert (Hfg : f z ∈ map f l -> g z ∈ map g l).
  { intros (y & E & Hy)%list_elem_of_fmap. apply list_elem_of_fmap. exists y. split; [|done]. apply H; [left|by right|done]. }
  rewrite !distinct_map_cons. destruct (decide (f z ∈ map f l)) as [Hf|Hf].
  - rewrite !bool_decide_true by auto. split; [done|]. intros E. specialize (IH2 E). apply list_elem_of_fmap in Hf as (w & Ew & Hw).
    assert (Hz : forall y, y ∈ l -> g z = g y -> f z = f y).
    { intros y Hy Eg. rewrite Ew. apply IH2; [done|done|]. rewrite <- Eg. symmetry. apply H; [left|by right|done]. }
    intros x y [->|Hx]%elem_of_cons [->|Hy]%elem_of_cons Eg; [done|by apply Hz|symmetry; by apply Hz|by apply IH2].
  - rewrite (bool_decide_false (f z ∈ _)) by done. destruct (decide (g z ∈ map g l)) as [Hg|Hg].
    + rewrite bool_decide_true by done. split; [lia|]. intros E. lia.
    + rewrite bool_decide_false by done. split; [lia|]. intros E. assert (E' : distinct (map g l) = distinct (map f l)) by lia. specialize (IH2 E').
      assert (Hz : forall y, y ∈ l -> g z <> g y) by (intros y Hy Eg; apply Hg; rewrite Eg; by apply list_elem_of_fmap_2).
      intros x y [->|Hx]%elem_of_cons [->|Hy]%elem_of_cons Eg; [done|by destruct (Hz y Hy)|by destruct (Hz x Hx)|by apply IH2].
Qed.

(** ** The digests of the rounds *)

Section Graph.
Context (digest : bytes -> bytes) (n : nat) (text : nat -> bytes) (adj : nat -> list nat).

(** [D k i] is the digest of the node [i] after [k] rounds, of the string [hashed k i]. *)
Fixpoint D (k i : nat) : bytes :=
  match k with O => digest (text i) | S k => digest (digest (text i) ++ concat (map (D k) (adj i))) end.

Definition hashed (k i : nat) : bytes :=
  match k with O => text i | S k => digest (text i) ++ concat (map (D k) (adj i)) end.

Lemma D_hashed k i : D k i = digest (hashed k i).
Proof. by destruct k. Qed.

(** No two different strings among those of the first [K] rounds have the same digest, and
    no node is described by a string that a round hashes. *)
Record collision_free (K : nat) : Prop := {
  cf_inj : forall k l i j, (k <= K)%nat -> (l <= K)%nat -> (i < n)%nat -> (j < n)%nat ->
    digest (hashed k i) = digest (hashed l j) -> hashed k i = hashed l j;
  cf_fresh : forall k i j, (k < K)%nat -> (i < n)%nat -> (j < n)%nat -> text i <> hashed (S k) j }.

Context (Hlen : forall x, length (digest x) = HASH_SIZE) (Hadj : forall i, (i < n)%nat -> Forall (fun j => j < n)%nat (adj i)).

Lemma length_D k i : length (D k i) = HASH_SIZE.
Proof. rewrite D_hashed. apply Hlen. Qed.

Lemma concat_digests k l a b : concat (map (D k) a) = concat (map (D l) b) -> map (D k) a = map (D l) b.
Proof.
  revert b. induction a as [|i a IH]; intros [|j b]; cbn [map concat]; intros E; [done|..].
  - apply (f_equal length) in E. rewrite length_app, length_D in E. unfold HASH_SIZE in E. simpl in E. lia.
  - apply (f_equal length) in E. rewrite length_app, length_D in E. unfold HASH_SIZE in E. simpl in E. lia.
  - apply app_inj_1 in E as [-> E]; [|by rewrite !length_D]. f_equal. by apply IH.
Qed.

Lemma hashed_S_inj k l i j : hashed (S k) i = hashed (S l) j -> D 0 i = D 0 j /\ map (D k) (adj i) = map (D l) (adj j).
Proof. cbn [hashed]. intros E. apply app_inj_1 in E as [E1 E2]; [|by rewrite !Hlen]. split; [done|by apply concat_digests]. Qed.

Section Collisions.
Context (K : nat) (Hcf : collision_free K).

Lemma D_S_inj k l i j : (S k <= K)%nat -> (S l <= K)%nat -> (i < n)%nat -> (j < n)%nat -> D (S k) i = D (S l) j ->
  D 0 i = D 0 j /\ map (D k) (adj i) = map (D l) (adj j).
Proof. intros H1 H2 H3 H4 E. rewrite !D_hashed in E. apply (cf_inj K Hcf) in E; [|done..]. by apply hashed_S_inj. Qed.

(** A digest that did not change will not change any more. *)
Lemma settled k : forall i, (S k <= K)%nat -> (i < n)%nat -> D (S k) i = D k i -> D (S (S k)) i = D (S k) i.
Proof.
  induction k as [|k IH]; intros i Hk Hi E.
  - exfalso. rewrite !D_hashed in E. apply (cf_inj K Hcf) in E; [|lia..]. by apply (cf_fresh K Hcf 0 i i); [lia|..].
  - assert (E' : map (D (S k)) (adj i) = map (D k) (adj i)) by (apply (D_S_inj (S k) k i i); [lia|lia|done|done|done]).
    cbn [D]. do 3 f_equal. apply map_ext_in. intros c Hc. apply (IH c); [lia| |].
    + specialize (Hadj i Hi). rewrite Forall_forall in Hadj. apply Hadj. by apply list_elem_of_In.
    + exact (ext_in_map E' c Hc).
Qed.

(** The partition of a round refines that of the round before. *)
Lemma refines k i j : (S k <= K)%nat -> (i < n)%nat -> (j < n)%nat -> D (S k) i = D (S k) j -> D k i = D k j.
Proof.
  revert i j. induction k as [|k IH]; intros i j Hk Hi Hj E; [by apply (D_S_inj 0 0 i j)|].
  destruct (D_S_inj (S k) (S k) i j) as [E0 E1]; [done|done|done|done|done|]. cbn [D] in E0 |- *. rewrite E0. do 3 f_equal.
  assert (Hf : Forall (fun c => c < n)%nat (adj i)) by auto. assert (Hg : Forall (fun c => c < n)%nat (adj j)) by auto. revert E1 Hf Hg. clear E E0.
  generalize (adj i) (adj j). induction l as [|a l IHl]; intros [|b l'] E1 Hf Hg; try done. cbn [map] in *. injection E1 as Ea El. inversion_clear Hf. inversion_clear Hg.
  f_equal; [apply IH; [lia|done|done|done]|by apply IHl].
Qed.

Lemma refines_le k m i j : (k <= m <= K)%nat -> (i < n)%nat -> (j < n)%nat -> D m i = D m j -> D k i = D k j.
Proof.
  intros [Hk Hm] Hi Hj. induction Hk as [|m Hk IH]; [done|]. intros E. apply IH; [lia|]. by apply refines.
Qed.

(** When two rounds have as many classes, the classes no longer change. *)
Definition classes (k : nat) : nat := distinct (map (D k) (seq 0 n)).

Lemma in_nodes i : i ∈ seq 0 n <-> (i < n)%nat.
Proof. rewrite elem_of_seq. lia. Qed.

Lemma classes_grow k m : (k <= m <= K)%nat -> (classes k <= classes m)%nat.
Proof. intros H. apply finer_distinct. intros x y Hx%in_nodes Hy%in_nodes. by apply (refines_le k m). Qed.

Lemma classes_stable k m i j : (k <= m <= K)%nat -> classes k = classes m -> (i < n)%nat -> (j < n)%nat -> D k i = D k j -> D m i = D m j.
Proof.
  intros H Hc Hi Hj. apply (proj2 (finer_distinct (D m) (D k) (seq 0 n) ltac:(intros x y Hx%in_nodes Hy%in_nodes; by apply (refines_le k m))) Hc); by apply in_nodes.
Qed.

Lemma classes_bound k : (classes k <= n)%nat.
Proof.
  unfold classes. rewrite <- (length_seq n 0) at 2. generalize (seq 0 n). intros l. induction l as [|x l IH]; [done|]. rewrite distinct_map_cons.
  case_bool_decide; simpl; lia.
Qed.

(** ** Nodes with equal trees

    A relation that respects the descriptions and the edges; the nodes that the greatest such
    relation identifies have equal unfoldings. *)

Definition respects (R : nat -> nat -> Prop) : Prop :=
  forall i j, (i < n)%nat -> (j < n)%nat -> R i j -> text i = text j /\ Forall2 R (adj i) (adj j).

Definition similar (i j : nat) : Prop := exists R, respects R /\ R i j.

Lemma similar_digest k i j : (i < n)%nat -> (j < n)%nat -> similar i j -> D k i = D k j.
Proof.
  intros Hi Hj (R & HR & Hij). revert i j Hi Hj Hij. induction k as [|k IH]; intros i j Hi Hj Hij; destruct (HR i j Hi Hj Hij) as [Ht Ha]; cbn [D]; [by rewrite Ht|].
  rewrite Ht. do 3 f_equal. pose proof (Hadj i Hi) as Fi. pose proof (Hadj j Hj) as Fj. revert Fi Fj. induction Ha as [|a b l l' Hab Hl IHl]; intros Fi Fj; [done|].
  inversion_clear Fi. inversion_clear Fj. cbn [map]. f_equal; [by apply IH|by apply IHl].
Qed.

Lemma map_eq_Forall2 k l l' : map (D k) l = map (D k) l' -> Forall2 (fun a b => D k a = D k b) l l'.
Proof. revert l'. induction l as [|a l IH]; intros [|b l'] E; cbn [map] in E; try done. injection E as Ea El. constructor; [done|by apply IH]. Qed.

Lemma Forall2_nodes (P Q : nat -> nat -> Prop) l l' : Forall (fun c => c < n)%nat l -> Forall (fun c => c < n)%nat l' ->
  (forall a b, (a < n)%nat -> (b < n)%nat -> P a b -> Q a b) -> Forall2 P l l' -> Forall2 Q l l'.
Proof. intros Hl Hl' H HP. induction HP as [|a b l l' Hab HP IH]; [constructor|]. inversion_clear Hl. inversion_clear Hl'. constructor; [by apply H|by apply IH]. Qed.

(** The final digests identify exactly the similar nodes. *)
Lemma stable_similar k m i j : (k < m <= K)%nat -> classes k = classes m -> (i < n)%nat -> (j < n)%nat -> D m i = D m j <-> similar i j.
Proof.
  intros Hk Hc Hi Hj. split; [|by apply similar_digest]. intros E. exists (fun i j => D m i = D m j). split; [|done]. clear i j Hi Hj E.
  intros i j Hi Hj E. destruct m as [|m]; [lia|]. destruct (D_S_inj m m i j) as [E0 E1]; [lia|lia|done|done|done|]. split.
  - assert (G : hashed 0 i = hashed 0 j); [|exact G]. apply (cf_inj K Hcf); [lia|lia|done|done|exact E0].
  - apply (Forall2_nodes (fun a b => D m a = D m b)); [auto|auto| |by apply map_eq_Forall2].
    intros a b Ha Hb Eab. apply (classes_stable k (S m)); [lia|done|done|done|]. apply (refines_le k m); [lia|done|done|done].
Qed.
End Collisions.
End Graph.

(** ** The loops *)

Lemma mapM_map {A B} (f : A -> option B) (g : A -> B) l : (forall x, x ∈ l -> f x = Some (g x)) -> mapM f l = Some (map g l).
Proof.
  intros H. induction l as [|x l IH]; [done|]. cbn [mapM map]. rewrite (H x) by left. cbn [mbind option_bind].
  rewrite IH by (intros y Hy; apply H; by right). done.
Qed.

Lemma lookup_map_seq {A} (f : nat -> A) n i : (i < n)%nat -> map f (seq 0 n) !! i = Some (f i).
Proof. intros Hi. change (map f (seq 0 n)) with (f <$> seq 0 n). rewrite list_lookup_fmap, lookup_seq_lt by done. done. Qed.

Section Run.
Context (digest : bytes -> bytes) (lost : nat -> nat -> bool) (n : nat) (text : nat -> bytes) (adj : nat -> list nat) (edges edge_indices : list Z).
Context (Hlen : forall x, length (digest x) = HASH_SIZE) (Hadj : forall i, (i < n)%nat -> Forall (fun j => j < n)%nat (adj i)).
Context (Hedges : forall i, (i < n)%nat -> node_edges edges edge_indices n i = Some (map Z.of_nat (adj i))).
Context (K : nat) (Hcf : collision_free digest n text adj K).
Let D := D digest text adj.
Let digests2 := map (fun i => digest (text i)) (seq 0 n).
Let propagate := propagate digest lost digests2 edges edge_indices.

(** After [k] rounds; the nodes whose bit is set will not change. *)
Record at_round (k : nat) (r : rounds) : Prop := {
  ar_front : front r = map (D k) (seq 0 n);
  ar_back : length (back r) = n;
  ar_converged : length (converged r) = n;
  ar_settled : forall i, converged r !! i = Some true -> back r !! i = Some (D k i) /\ D (S k) i = D k i }.

Definition unsettled (k : nat) : Z := zlen (List.filter (fun i => negb (bool_decide (D k i = D (S k) i))) (seq 0 n)).

Lemma length_digests0 k r : at_round k r -> length (digests0 r) = n.
Proof.
  intros [H1 H2 _ _]. unfold front, back in *. destruct (slot r); [done|]. by rewrite H1, length_map, length_seq.
Qed.

Lemma propagate_node_round k r i : at_round k r -> (i < n)%nat -> exists c,
  propagate_node digest lost digests2 edges edge_indices r i = Some (D (S k) i, c, negb (bool_decide (D k i = D (S k) i))) /\ (c = true -> D (S k) i = D k i).
Proof.
  intros Ha Hi. pose proof (length_digests0 _ _ Ha) as H0. destruct Ha as [H1 H2 H3 H4]. unfold propagate_node.
  destruct (lookup_lt_is_Some_2 (converged r) i) as [c Ec]; [lia|]. rewrite Ec. cbn [mbind option_bind]. destruct c.
  - destruct (H4 i Ec) as [-> E]. exists true. cbn [mbind option_bind]. rewrite E. by rewrite bool_decide_true.
  - unfold digests2. rewrite lookup_map_seq by done. cbn [mbind option_bind]. rewrite H0, Hedges by done. cbn [mbind option_bind].
    rewrite (mapM_map _ (fun j => D k (Z.to_nat j))).
    2:{ intros j (c & -> & Hc)%list_elem_of_fmap. rewrite Nat2Z.id, H1. apply lookup_map_seq. specialize (Hadj i Hi). rewrite Forall_forall in Hadj. by apply Hadj. }
    cbn [mbind option_bind]. rewrite H1, lookup_map_seq by done. cbn [mbind option_bind].
    assert (E : digest (digest (text i) ++ concat (map (fun j => D k (Z.to_nat j)) (map Z.of_nat (adj i)))) = D (S k) i).
    { unfold D. cbn [IcfRounds.D]. do 3 f_equal. rewrite map_map. apply map_ext. intros c. by rewrite Nat2Z.id. }
    rewrite E. case_bool_decide as Eq; [|by exists false]. eexists. split; [reflexivity|]. by rewrite Eq.
Qed.

Lemma choose_bits k r : at_round k r -> exists c : nat -> bool, forall i, (i < n)%nat ->
  propagate_node digest lost digests2 edges edge_indices r i = Some (D (S k) i, c i, negb (bool_decide (D k i = D (S k) i))) /\ (c i = true -> D (S k) i = D k i).
Proof.
  intros Ha. exists (fun i => match propagate_node digest lost digests2 edges edge_indices r i with Some (_, c, _) => c | None => false end).
  intros i Hi. destruct (propagate_node_round k r i Ha Hi) as (c & E & Hc). rewrite E. by split.
Qed.

Lemma zlen_filter_map {A B} (f : A -> B) p (l : list A) : zlen (List.filter p (map f l)) = zlen (List.filter (fun x => p (f x)) l).
Proof. unfold zlen. induction l as [|x l IH]; [done|]. cbn [map List.filter]. destruct (p (f x)); cbn [length]; lia. Qed.

Lemma propagate_round k r : at_round k r -> (S k <= K)%nat -> exists r', propagate r = Some (r', unsettled k) /\ at_round (S k) r'.
Proof.
  intros Ha Hk. destruct (choose_bits k r Ha) as [c Hc]. unfold propagate, IcfRounds.propagate. rewrite (length_digests0 _ _ Ha).
  rewrite (mapM_map _ (fun i => (D (S k) i, c i, negb (bool_decide (D k i = D (S k) i))))) by (intros i Hi%in_nodes; by apply Hc).
  cbn [mbind option_bind]. rewrite zlen_filter_map, !map_map. cbn [fst snd]. fold (unsettled k). eexists. split; [reflexivity|].
  assert (Hset : forall i, map c (seq 0 n) !! i = Some true -> (i < n)%nat /\ D (S k) i = D k i).
  { intros i E. change (map c (seq 0 n)) with (c <$> seq 0 n) in E. apply list_lookup_fmap_Some in E as (j & E & Hj). apply lookup_seq in Hj as [-> Hj]. split; [done|]. by apply Hc. }
  assert (Hb : forall i, map c (seq 0 n) !! i = Some true -> front r !! i = Some (D (S k) i) /\ D (S (S k)) i = D (S k) i).
  { intros i [Hi E]%Hset. rewrite (ar_front _ _ Ha), lookup_map_seq by done. split; [by rewrite E|]. by apply (settled digest n text adj Hlen Hadj K Hcf). }
  assert (Hf : length (front r) = n) by (rewrite (ar_front _ _ Ha); by rewrite length_map, length_seq).
  unfold front in Hb, Hf. destruct (slot r) eqn:Es; (split; unfold front, back; cbn [slot digests0 digests1 converged]; [done|done|by rewrite length_map, length_seq|done]).
Qed.

Lemma start_round : at_round 0 (start_rounds digests2).
Proof.
  split; unfold front, back; cbn [start_rounds slot digests0 digests1 converged].
  - done.
  - unfold digests2. by rewrite length_replicate, length_map, length_seq.
  - unfold digests2. by rewrite length_replicate, length_map, length_seq.
  - intros i E. by apply lookup_replicate in E as [? _].
Qed.

Lemma unsettled_down k : (S k <= K)%nat -> unsettled (S k) <= unsettled k.
Proof.
  intros Hk. unfold unsettled, zlen. assert (G : forall l, Forall (fun i => i < n)%nat l -> (length (List.filter (fun i => negb (bool_decide (D (S k) i = D (S (S k)) i))) l) <=
    length (List.filter (fun i => negb (bool_decide (D k i = D (S k) i))) l))%nat).
  { induction 1 as [|i l Hi Hl IH]; [done|]. cbn [List.filter]. destruct (decide (D k i = D (S k) i)) as [E|E].
    - rewrite !bool_decide_true; [done|done|]. symmetry. by apply (settled digest n text adj Hlen Hadj K Hcf).
    - rewrite (bool_decide_false (D k i = _)) by done. cbn [negb length]. destruct (negb _); cbn [length]; lia. }
  apply inj_le, G, Forall_forall. intros i Hi. by apply in_nodes.
Qed.

Lemma unsettled_range k : 0 <= unsettled k <= Z.of_nat n.
Proof.
  unfold unsettled, zlen. split; [lia|]. apply inj_le. rewrite <- (length_seq n 0) at 2. generalize (seq 0 n). intros l. induction l as [|x l IH]; [done|].
  cbn [List.filter]. destruct (negb _); cbn [length]; lia.
Qed.

Let shallow := shallow_rounds digest lost digests2 edges edge_indices.
Let deep := deep_rounds digest lost digests2 edges edge_indices.

Lemma shallow_ends m : forall fuel k r N, 0 <= N <= Z.of_nat m -> unsettled k <= N -> (m < fuel)%nat -> (k + m + 1 <= K)%nat -> at_round k r ->
  exists r' k', shallow fuel N r = Some r' /\ at_round k' r' /\ (k' <= k + m + 1)%nat.
Proof.
  induction m as [|m IH]; intros fuel k r N HN Hu Hf HK Ha; (destruct fuel as [|fuel]; [lia|]); destruct (propagate_round k r Ha ltac:(lia)) as (r' & E & Ha');
    unfold shallow; cbn [shallow_rounds]; fold propagate; rewrite E; cbn [mbind option_bind]; pose proof (unsettled_range k) as [Hu0 _]; destruct (Z.eqb_spec (unsettled k) N) as [<-|Hne].
  - exists r', (S k). split; [done|]. split; [done|lia].
  - lia.
  - exists r', (S k). split; [done|]. split; [done|lia].
  - destruct (IH fuel (S k) r' (unsettled k)) as (r2 & k2 & E2 & A2 & L2); [lia|apply unsettled_down; lia|lia|lia|done|]. exists r2, k2. split; [exact E2|]. split; [done|lia].
Qed.

Lemma times_round m : forall k r, at_round k r -> (k + m <= K)%nat -> exists r', propagate_times digest lost digests2 edges edge_indices m r = Some r' /\ at_round (k + m) r'.
Proof.
  induction m as [|m IH]; intros k r Ha HK; [exists r; split; [done|by rewrite Nat.add_0_r]|]. destruct (propagate_round k r Ha ltac:(lia)) as (r1 & E1 & A1).
  cbn [propagate_times]. fold propagate. rewrite E1. cbn [mbind option_bind]. destruct (IH (S k) r1 A1 ltac:(lia)) as (r2 & E2 & A2). exists r2. split; [done|].
  by replace (k + S m)%nat with (S k + m)%nat by lia.
Qed.

Definition counted (k : nat) : Z := count_num_classes (map (D k) (seq 0 n)).

Lemma classes_pos k : (0 < n)%nat -> (0 < classes digest n text adj k)%nat.
Proof.
  intros Hn. unfold classes, distinct. fold D. destruct (size _) eqn:E; [|lia]. apply size_empty_inv in E.
  assert (Hin : D k 0 ∈ (list_to_set (map (D k) (seq 0 n)) : gset bytes)); [|set_solver].
  apply elem_of_list_to_set. change (map (D k) (seq 0 n)) with (D k <$> seq 0 n). apply list_elem_of_fmap_2. by apply in_nodes.
Qed.

Lemma counted_spec k : counted k = Z.max 0 (Z.of_nat (classes digest n text adj k) - 1).
Proof.
  pose proof (classes_bound digest n text adj k). unfold counted. destruct (decide (n = 0%nat)) as [E|Hn]; [replace (seq 0 n) with (@nil nat) by (by rewrite E); cbn; lia|].
  pose proof (classes_pos k ltac:(lia)).
  assert (E : count_num_classes (map (D k) (seq 0 n)) + 1 = Z.of_nat (classes digest n text adj k)); [|lia].
  apply count_num_classes_distinct. intros E. apply Hn. apply (f_equal length) in E. by rewrite length_map, length_seq in E.
Qed.

Lemma counted_classes k m : counted k = counted m -> classes digest n text adj k = classes digest n text adj m.
Proof.
  rewrite !counted_spec. pose proof (classes_bound digest n text adj k). pose proof (classes_bound digest n text adj m).
  destruct (decide (n = 0%nat)) as [E|Hn]; [lia|]. pose proof (classes_pos k). pose proof (classes_pos m). lia.
Qed.

Lemma counted_range k : 0 <= counted k <= Z.of_nat n.
Proof. rewrite counted_spec. pose proof (classes_bound digest n text adj k). lia. Qed.

Lemma counted_grow k m : (k <= m <= K)%nat -> counted k <= counted m.
Proof. intros H. rewrite !counted_spec. pose proof (classes_grow digest n text adj Hlen Hadj K Hcf k m H). lia. Qed.

Definition finished (r : rounds) (k : nat) : Prop := at_round (k + 10) r /\ (k + 10 <= K)%nat /\ classes digest n text adj k = classes digest n text adj (k + 10).

Lemma deep_again m : forall fuel k r, at_round k r -> Z.of_nat n <= counted k + Z.of_nat m -> (m < fuel)%nat -> (k + 10 * (m + 1) <= K)%nat ->
  exists r' k', deep fuel (counted k) r = Some r' /\ finished r' k'.
Proof.
  induction m as [|m IH]; intros fuel k r Ha Hc Hf HK; (destruct fuel as [|fuel]; [lia|]); destruct (times_round 10 k r Ha ltac:(lia)) as (r' & E & Ha');
    unfold deep; cbn [deep_rounds]; rewrite E; cbn [mbind option_bind]; rewrite (ar_front _ _ Ha'); fold (counted (k + 10));
    pose proof (counted_grow k (k + 10) ltac:(lia)); pose proof (counted_range (k + 10)); (destruct (Z.eqb_spec (counted (k + 10)) (counted k)) as [Eq|Hne];
    [exists r', k; split; [done|]; split; [done|]; split; [lia|]; by apply counted_classes|]).
  - lia.
  - apply (IH fuel (k + 10)%nat r'); [done|lia|lia|lia].
Qed.

Lemma deep_ends fuel k r : at_round k r -> (n + 1 < fuel)%nat -> (k + 10 * (n + 2) <= K)%nat -> exists r' k', deep fuel (-1) r = Some r' /\ finished r' k'.
Proof.
  intros Ha Hf HK. destruct fuel as [|fuel]; [lia|]. destruct (times_round 10 k r Ha ltac:(lia)) as (r' & E & Ha').
  unfold deep. cbn [deep_rounds]. rewrite E. cbn [mbind option_bind]. rewrite (ar_front _ _ Ha'). fold (counted (k + 10)).
  pose proof (counted_range (k + 10)). destruct (Z.eqb_spec (counted (k + 10)) (-1)); [lia|]. apply (deep_again n fuel (k + 10)%nat r'); [done|lia|lia|lia].
Qed.

(** Enough rounds for the hypothesis on collisions, and enough fuel for the loops. *)
Lemma final_digests_similar fuel : (11 * n + 22 <= K)%nat -> (n + 2 < fuel)%nat ->
  exists ds, final_digests digest lost digests2 edges edge_indices fuel = Some ds /\ length ds = n /\
    forall i j, (i < n)%nat -> (j < n)%nat -> ds !! i = ds !! j <-> similar n text adj i j.
Proof.
  intros HK Hf. assert (exists r1 k1, shallow fuel (-1) (start_rounds digests2) = Some r1 /\ at_round k1 r1 /\ (k1 <= n + 2)%nat) as (r1 & k1 & E1 & A1 & L1).
  { destruct fuel as [|fuel]; [lia|]. destruct (propagate_round 0 _ start_round ltac:(lia)) as (r' & E & Ha). unfold shallow. cbn [shallow_rounds]. fold propagate. rewrite E. cbn [mbind option_bind].
    pose proof (unsettled_range 0). destruct (Z.eqb_spec (unsettled 0) (-1)); [lia|].
    destruct (shallow_ends n fuel 1%nat r' (unsettled 0)) as (r2 & k2 & E2 & A2 & L2); [lia|apply unsettled_down; lia|lia|lia|done|]. exists r2, k2. split; [exact E2|]. split; [done|lia]. }
  destruct (deep_ends fuel k1 r1 A1) as (r2 & k2 & E2 & A2 & B2 & C2); [lia|lia|].
  unfold final_digests. fold shallow. rewrite E1. cbn [mbind option_bind]. fold deep. rewrite E2. cbn [mbind option_bind]. exists (front r2). split; [done|].
  rewrite (ar_front _ _ A2). split; [by rewrite length_map, length_seq|]. intros i j Hi Hj. rewrite !lookup_map_seq by done.
  rewrite <- (stable_similar digest n text adj Hlen Hadj K Hcf k2 (k2 + 10) i j); [|lia|done|done|done]. fold D. split; [by intros [= E]|by intros ->].
Qed.
End Run.
