(* ===== verification/Icf.v ===== *)
(** * Identical code folding (src/elf/icf.cc)

    [uniquify_cies], [is_eligible], [is_leaf], the early merge of leaves, [compute_digest],
    [gather_sections], [gather_edges] and [icf_sections] with the election of leaders
    (Leaders) and the rounds (IcfRounds). Records hold what the pass reads of sections, of
    their exception handling records and of symbols; an address of the host is what the
    digest contains of a pointer. The theorems are in IcfMerge: whatever the schedule and whichever bits the
    racing updates of [converged] lose, sections get the same leader exactly if they have
    equal contents, flags, records and relocations, up to leaders; and replacing sections by
    their leaders does not change what a relocation refers to, unless two imported symbols
    have the same value. *)

From S2P Require Import Prelude Buffers Enums ElfConst Glob GcSections Leaders IcfRounds.
Local Open Scope list_scope.
Local Open Scope Z_scope.

(** ** Data

    A section is known by its file and its index there. [r_addend] is what [get_addend]
    returns for the relocation, [fde_contents] and [fde_rels] what [get_contents] and
    [get_rels] return. *)

Definition sid : Type := nat * nat.

Record ElfRel := mkRel { r_offset : Z; r_type : Z; r_addend : Z; r_sym : nat }.
Record CieRecord := mkCie { cie_contents : bytes; cie_offset : Z; cie_rels : list ElfRel }.
Record FdeRecord := mkFde { cie_idx : nat; fde_offset : Z; fde_contents : bytes; fde_rels : list ElfRel }.
Record InputSection := mkSection {
  sh_type : Z; sh_flags : Z; sh_size : Z; name : bytes; contents : bytes; rels : list ElfRel; fdes : list FdeRecord;
  address_significant : bool; is_alive : bool; shndx : Z }.

(** What [Symbol::origin] points to; [sym_file] says whether [file] is set, and [sym_dso] that
    it is a shared library. *)
Inductive origin := ISEC (x : sid) | FRAG (f : Z) | OTHER.
Record Symbol := mkSymbol { sym_file : bool; sym_dso : bool; sym_origin : origin; sym_value : Z }.

(** [symbols] has the addresses of the symbols. *)
Record ObjectFile := mkFile { file_priority : Z; sections : list (option InputSection); cies : list CieRecord; symbols : list Z }.

(** [address] is that of the section object; [word] and [type_size] are the sizes of
    [r_offset] and [r_type], [is_big] is the byte order of the target. *)
Record Context := mkContext {
  objs : list ObjectFile; syms : gmap Z Symbol; address : sid -> Z;
  icf_all : bool; ignore_data_address_equality : bool; word : nat; type_size : nat; is_big : bool }.

Section Pass.
Context (ctx : Context).

Definition section_at (x : sid) : option InputSection := f ← objs ctx !! x.1; s ← sections f !! x.2; s.

(** The sections that are alive, in the order of the loops over files and sections. *)
Definition file_sections (i : nat) (f : ObjectFile) : list sid :=
  omap (fun p => match p.2 with Some s => if is_alive s then Some (i, p.1) else None | None => None end) (imap pair (sections f)).
Definition live_sections : list (list sid) := imap file_sections (objs ctx).

(** [InputSection::get_priority] *)
Definition get_priority (x : sid) : Z :=
  match objs ctx !! x.1, section_at x with
  | Some f, Some s => Z.lor (Z.shiftl (file_priority f) 32) (shndx s)
  | _, _ => 0
  end.

(** ** Common information entries *)

Definition file_symbol (f : ObjectFile) (r : ElfRel) : option Z := symbols f !! r_sym r.

Definition cie_rel_equals (f : ObjectFile) (c : CieRecord) (f' : ObjectFile) (c' : CieRecord) (p : ElfRel * ElfRel) : bool :=
  (wrap (8 * Z.of_nat (word ctx)) (r_offset p.1 - cie_offset c) =? wrap (8 * Z.of_nat (word ctx)) (r_offset p.2 - cie_offset c')) &&
  (r_type p.1 =? r_type p.2) && bool_decide (file_symbol f p.1 = file_symbol f' p.2) && (r_addend p.1 =? r_addend p.2).

(** [CieRecord::equals] *)
Definition cie_equals (a b : ObjectFile * CieRecord) : bool :=
  bool_decide (cie_contents a.2 = cie_contents b.2) && (length (cie_rels a.2) =? length (cie_rels b.2))%nat &&
  forallb (cie_rel_equals a.1 a.2 b.1 b.2) (zip (cie_rels a.2) (cie_rels b.2)).

(** The inner loop of [uniquify_cies]: the index of the first equal one, or a new index. *)
Definition cie_index (seen : list (ObjectFile * CieRecord)) (a : ObjectFile * CieRecord) : nat * list (ObjectFile * CieRecord) :=
  match list_find (fun b => cie_equals a b = true) seen with
  | Some (i, _) => (i, seen)
  | None => (length seen, seen ++ [a])
  end.

Fixpoint uniquify_list (seen : list (ObjectFile * CieRecord)) (l : list (ObjectFile * CieRecord)) : list nat :=
  match l with
  | [] => []
  | a :: l => let '(i, seen) := cie_index seen a in i :: uniquify_list seen l
  end.

(** The entries of all files in the order of the loops, and [icf_idx] of one of them. *)
Definition all_cies : list (ObjectFile * CieRecord) := concat (map (fun f => map (pair f) (cies f)) (objs ctx)).
Definition cies_before (f : nat) : nat := sum_list_with (fun f => length (cies f)) (take f (objs ctx)).
Definition icf_cie_idx (f i : nat) : option nat := uniquify_list [] all_cies !! (cies_before f + i)%nat.

(** ** Eligible sections *)

Definition is_eligible (isec : InputSection) : bool :=
  let is_alloc := negb (Z.land (sh_flags isec) (shf "ALLOC") =? 0) in
  let is_exec := negb (Z.land (sh_flags isec) (shf "EXECINSTR") =? 0) || ignore_data_address_equality ctx in
  let is_relro := bool_decide (name isec = bs ".data.rel.ro") || has_prefix (name isec) ".data.rel.ro." in
  let is_readonly := (Z.land (sh_flags isec) (shf "WRITE") =? 0) || is_relro in
  let is_bss := sh_type isec =? sht "NOBITS" in
  let is_empty := sh_size isec =? 0 in
  let is_init := (sh_type isec =? sht "INIT_ARRAY") || bool_decide (name isec = bs ".init") in
  let is_fini := (sh_type isec =? sht "FINI_ARRAY") || bool_decide (name isec = bs ".fini") in
  let is_enumerable := is_c_identifier (name isec) in
  let is_addr_taken := negb (icf_all ctx) && address_significant isec in
  is_alloc && is_exec && is_readonly && negb is_bss && negb is_empty && negb is_init && negb is_fini && negb is_enumerable && negb is_addr_taken.

Definition is_leaf (isec : InputSection) : bool :=
  bool_decide (rels isec = []) && forallb (fun fde => (length (fde_rels fde) <=? 1)%nat) (fdes isec).

(** [icf_leaf] and [icf_eligible], which are set for sections that are alive. *)
Definition icf_leaf (x : sid) : bool :=
  match section_at x with Some s => is_alive s && is_eligible s && is_leaf s | None => false end.
Definition icf_eligible (x : sid) : bool :=
  match section_at x with Some s => is_alive s && is_eligible s && negb (is_leaf s) | None => false end.

(** What [LeafEq] compares. *)
Definition leaf_key (x : sid) : bytes * list bytes :=
  match section_at x with Some s => (contents s, map (fun fde => drop 8 (fde_contents fde)) (fdes s)) | None => ([], []) end.

(** [merge_leaf_nodes] elects a leader for every group of equal leaves. *)
Definition leaves : list sid := List.filter icf_leaf (concat live_sections).
Definition leaf_leader (lm : gmap (bytes * list bytes) sid) (x : sid) : option sid := if icf_leaf x then lm !! leaf_key x else None.

(** ** Digests

    [lm] is the map of the leaves. What [compute_digest] hashes is a string; [None]: the
    code would access an element that does not exist. *)

Context (lm : gmap (bytes * list bytes) sid).

Definition hash_int (n : nat) (x : Z) : bytes := le_store n x.
Definition hash_field (n : nat) (x : Z) : bytes := host (is_big ctx) (le_store n x).
Definition hash_string (s : bytes) : bytes := hash_int 8 (zlen s) ++ s.

(** The cases of [hash_symbol]. *)
Inductive target :=
| Undefined (s : Z)
| Fragment (f : Z)
| Absolute
| Leaf (leader : sid)
| Eligible (x : sid)
| Section_ (x : sid).

Definition classify (s : Z) (sym : Symbol) : target :=
  if negb (sym_file sym) then Undefined s else
  match sym_origin sym with
  | FRAG f => Fragment f
  | OTHER => Absolute
  | ISEC x => match leaf_leader lm x with Some l => Leaf l | None => if icf_eligible x then Eligible x else Section_ x end
  end.

Definition target_bytes (t : target) : bytes :=
  match t with
  | Undefined s => 49 :: hash_int 8 s
  | Fragment f => 50 :: hash_int 8 f
  | Absolute => [51]
  | Leaf l => 52 :: hash_int 8 (address ctx l)
  | Eligible _ => [53]
  | Section_ x => 54 :: hash_int 8 (address ctx x)
  end.

(** [isec.file.symbols[rel.r_sym]] *)
Definition rel_symbol (f : ObjectFile) (r : ElfRel) : option (Z * Symbol) := s ← file_symbol f r; sym ← syms ctx !! s; Some (s, sym).

Definition hash_symbol (f : ObjectFile) (r : ElfRel) : option bytes :=
  '(s, sym) ← rel_symbol f r; Some (target_bytes (classify s sym) ++ hash_int 8 (sym_value sym)).

Definition hash_fde_rel (f : ObjectFile) (fde : FdeRecord) (r : ElfRel) : option bytes :=
  sym ← hash_symbol f r;
  Some (sym ++ hash_field (type_size ctx) (r_type r) ++ hash_int (word ctx) (r_offset r - fde_offset fde) ++ hash_int 8 (r_addend r)).

(** [subspan(1)] needs a first relocation, [substr(8)] eight bytes. *)
Definition hash_fde (file : nat) (f : ObjectFile) (fde : FdeRecord) : option bytes :=
  idx ← icf_cie_idx file (cie_idx fde);
  _ ← (if (8 <=? length (fde_contents fde))%nat then Some tt else None);
  rs ← match fde_rels fde with [] => None | _ :: rels => mapM (hash_fde_rel f fde) rels end;
  Some (hash_int 4 (Z.of_nat idx) ++ hash_string (drop 8 (fde_contents fde)) ++ hash_int 8 (zlen (fde_rels fde)) ++ concat rs).

Definition hash_rel (f : ObjectFile) (r : ElfRel) : option bytes :=
  sym ← hash_symbol f r;
  Some (hash_field (word ctx) (r_offset r) ++ hash_field (type_size ctx) (r_type r) ++ hash_int 8 (r_addend r) ++ sym).

Definition digest_text (x : sid) : option bytes :=
  f ← objs ctx !! x.1;
  isec ← section_at x;
  fs ← mapM (hash_fde x.1 f) (fdes isec);
  rs ← mapM (hash_rel f) (rels isec);
  Some (hash_string (contents isec) ++ hash_field (word ctx) (sh_flags isec) ++ hash_int 8 (zlen (fdes isec)) ++ hash_int 8 (zlen (rels isec)) ++ concat fs ++ concat rs).

(** ** The graph

    Vectors that are filled in blocks, each from its own start. *)

Fixpoint block_starts (wrap : Z -> Z) (k : Z) (counts : list Z) : list Z :=
  match counts with [] => [] | c :: counts => k :: block_starts wrap (wrap (k + c)) counts end.

(** [for (...) vec[idx++] = x;] *)
Fixpoint fill {A} (idx : nat) (block : list A) (vec : list A) : list A :=
  match block with [] => vec | x :: block => fill (S idx) block (<[idx := x]> vec) end.

Definition fill_blocks {A} (starts : list Z) (blocks : list (list A)) (vec : list A) : list A :=
  foldl (fun vec p => fill (Z.to_nat p.1) p.2 vec) vec (zip starts blocks).

(** [starts.back() + counts.back()] *)
Definition total (starts counts : list Z) : Z := default 0 (last starts) + default 0 (last counts).

Definition gather_sections : list (option sid) :=
  let blocks := map (List.filter icf_eligible) live_sections in
  let num_sections := map zlen blocks in
  let section_indices := block_starts (fun x => x) 0 num_sections in
  fill_blocks section_indices (map (map Some) blocks) (replicate (Z.to_nat (total section_indices num_sections)) None).

(** The vertices. [icf_idx] of a section is its place. *)
Definition nodes : list sid := omap (fun x => x) gather_sections.
Definition icf_idx (x : sid) : option nat := fst <$> list_find (fun y => y = x) nodes.

(** The loop that counts edges, and the one that stores them. *)
Definition counts_edge (f : ObjectFile) (r : ElfRel) : option bool :=
  '(_, sym) ← rel_symbol f r;
  Some (match sym_origin sym with FRAG _ => false | OTHER => false | ISEC x => icf_eligible x end).

Definition edge_of (f : ObjectFile) (r : ElfRel) : option (option nat) :=
  '(_, sym) ← rel_symbol f r;
  match sym_origin sym with ISEC x => if icf_eligible x then i ← icf_idx x; Some (Some i) else Some None | _ => Some None end.

Definition num_edges (x : sid) : option Z :=
  f ← objs ctx !! x.1; isec ← section_at x;
  l ← mapM (counts_edge f) (rels isec); Some (zlen (List.filter (fun b => b) l)).
Definition node_adj (x : sid) : option (list nat) :=
  f ← objs ctx !! x.1; isec ← section_at x;
  l ← mapM (edge_of f) (rels isec); Some (omap (fun e => e) l).

(** [edges] and [edge_indices]. *)
Definition gather_edges : option (list Z * list Z) :=
  match nodes with
  | [] => Some ([], [])
  | _ =>
      counts ← mapM num_edges nodes;
      blocks ← mapM node_adj nodes;
      let edge_indices := block_starts u32 0 counts in
      Some (fill_blocks edge_indices (map (map Z.of_nat) blocks) (replicate (Z.to_nat (total edge_indices counts)) 0), edge_indices)
  end.

(** ** The pass

    [digest] is [digest_final] of a string: the first sixteen bytes of its SHA-256. *)

Definition icf_digests (digest : bytes -> bytes) (lost : nat -> nat -> bool) (fuel : nat) : option (list bytes) :=
  texts ← mapM digest_text nodes;
  '(edges, edge_indices) ← gather_edges;
  final_digests digest lost (map digest texts) edges edge_indices fuel.

(** The key under which a section votes for the leader of its group. *)
Definition digest_key (ds : list bytes) (x : sid) : bytes := default [] (i ← icf_idx x; ds !! i).

(** [leader] after the pass; [gm] is the map of the groups. *)
Definition leader (ds : list bytes) (gm : gmap bytes sid) (x : sid) : option sid :=
  if icf_leaf x then lm !! leaf_key x else if icf_eligible x then gm !! digest_key ds x else None.

Definition is_killed_by_icf (ds : list bytes) (gm : gmap bytes sid) (x : sid) : bool :=
  match leader ds gm x with Some l => negb (bool_decide (l = x)) | None => false end.
End Pass.

(** The pass with the threads one after the other: the leaders of all sections. *)
Definition icf_sections (ctx : Context) (digest : bytes -> bytes) (fuel : nat) : option (list (sid * sid)) :=
  if decide (objs ctx = []) then Some [] else
  let lm := elect (leaf_key ctx) (get_priority ctx) (leaves ctx) in
  ds ← icf_digests ctx lm digest (fun _ _ => false) fuel;
  let gm := elect (digest_key ctx ds) (get_priority ctx) (nodes ctx) in
  Some (omap (fun x => l ← leader ctx lm ds gm x; Some (x, l)) (concat (live_sections ctx))).

(** ** Vectors filled in blocks *)

Lemma fill_spec {A} (block : list A) : forall idx vec, (idx + length block <= length vec)%nat -> fill idx block vec = take idx vec ++ block ++ drop (idx + length block) vec.
Proof.
  induction block as [|x block IH]; intros idx vec H; cbn [fill length] in *; [by rewrite Nat.add_0_r, app_nil_l, take_drop|].
  rewrite IH by (rewrite length_insert; lia). assert (Hi : (idx < length vec)%nat) by lia.
  rewrite insert_take_drop by done. assert (Ht : length (take idx vec) = idx) by (rewrite length_take; lia).
  rewrite (app_assoc (take idx vec) [x] (drop (S idx) vec) : take idx vec ++ x :: drop (S idx) vec = _).
  assert (Hl : length (take idx vec ++ [x]) = S idx) by (rewrite length_app, Ht; simpl; lia).
  rewrite <- Hl at 1. rewrite take_app_length. rewrite drop_app_ge by lia. rewrite Hl, drop_drop. rewrite <- app_assoc. cbn [app].
  do 4 f_equal. lia.
Qed.

Lemma length_fill {A} (block : list A) : forall idx vec, length (fill idx block vec) = length vec.
Proof. induction block as [|x block IH]; intros idx vec; [done|]. cbn [fill]. by rewrite IH, length_insert. Qed.

Definition sum_len {A} (blocks : list (list A)) : Z := zlen (concat blocks).

Lemma fill_blocks_concat {A} wrap (blocks : list (list A)) : forall k vec, 0 <= k -> k + sum_len blocks <= zlen vec -> (forall x, 0 <= x <= k + sum_len blocks -> wrap x = x) ->
  fill_blocks (block_starts wrap k (map zlen blocks)) blocks vec = take (Z.to_nat k) vec ++ concat blocks ++ drop (Z.to_nat (k + sum_len blocks)) vec.
Proof.
  unfold fill_blocks, sum_len. induction blocks as [|b blocks IH]; intros k vec Hk Hv Hw; cbn [map block_starts zip zip_with foldl concat] in *.
  - change (zlen (@nil A)) with 0. by rewrite Z.add_0_r, app_nil_l, take_drop.
  - rewrite zlen_app in *. pose proof (zlen_nonneg b). pose proof (zlen_nonneg (concat blocks)). rewrite (Hw (k + zlen b)) by lia.
    cbn [fst snd]. assert (Hf : fill (Z.to_nat k) b vec = take (Z.to_nat k) vec ++ b ++ drop (Z.to_nat k + length b) vec) by (apply fill_spec; unfold zlen in *; lia).
    assert (Hl : length (fill (Z.to_nat k) b vec) = length vec) by apply length_fill.
    change (foldl (fun vec p => fill (Z.to_nat p.1) p.2 vec) (fill (Z.to_nat k) b vec) (zip (block_starts wrap (k + zlen b) (map zlen blocks)) blocks)) with
      (fill_blocks (block_starts wrap (k + zlen b) (map zlen blocks)) blocks (fill (Z.to_nat k) b vec)).
    unfold fill_blocks. rewrite IH; [|lia|unfold zlen in *; lia|intros x Hx; apply Hw; lia].
    assert (E1 : take (Z.to_nat (k + zlen b)) (fill (Z.to_nat k) b vec) = take (Z.to_nat k) vec ++ b).
    { rewrite Hf, app_assoc. apply take_app_length'. rewrite length_app, length_take. unfold zlen in *. lia. }
    assert (E2 : drop (Z.to_nat (k + zlen b + zlen (concat blocks))) (fill (Z.to_nat k) b vec) = drop (Z.to_nat (k + (zlen b + zlen (concat blocks)))) vec).
    { rewrite Hf. rewrite !drop_app_ge; [|unfold zlen in *; rewrite ?length_take; lia..]. rewrite drop_drop. f_equal. rewrite length_take. unfold zlen in *. lia. }
    by rewrite E1, E2, <- !app_assoc.
Qed.

Lemma last_start wrap counts : forall k, counts <> [] -> Forall (fun c => 0 <= c) counts -> (forall x, k <= x <= k + foldr Z.add 0 counts -> wrap x = x) ->
  total (block_starts wrap k counts) counts = k + foldr Z.add 0 counts.
Proof.
  induction counts as [|c counts IH]; intros k Hn Hc Hw; [done|]. inversion_clear Hc as [|? ? H1 H2]. cbn [block_starts foldr] in *.
  assert (H3 : 0 <= foldr Z.add 0 counts) by (clear - H2; induction H2; cbn [foldr]; lia).
  destruct counts as [|c' counts]; [unfold total; cbn; lia|]. rewrite (Hw (k + c)) by lia.
  change (total (k :: block_starts wrap (k + c) (c' :: counts)) (c :: c' :: counts)) with (total (block_starts wrap (k + c) (c' :: counts)) (c' :: counts)).
  rewrite IH; [lia|done|done|]. intros x Hx. apply Hw. lia.
Qed.

Lemma sum_len_foldr {A} (blocks : list (list A)) : foldr Z.add 0 (map zlen blocks) = sum_len blocks.
Proof. unfold sum_len. induction blocks as [|b blocks IH]; [done|]. cbn [map foldr concat]. rewrite zlen_app. lia. Qed.

(** All of it: the blocks one after the other. *)
Lemma fill_all {A} wrap (blocks : list (list A)) (d : A) : (forall x, 0 <= x <= sum_len blocks -> wrap x = x) ->
  let starts := block_starts wrap 0 (map zlen blocks) in
  fill_blocks starts blocks (replicate (Z.to_nat (total starts (map zlen blocks))) d) = concat blocks.
Proof.
  intros Hw starts. destruct (decide (blocks = [])) as [->|Hn]; [done|].
  assert (Ht : total starts (map zlen blocks) = sum_len blocks).
  { unfold starts. rewrite last_start; [by rewrite sum_len_foldr|by destruct blocks| |rewrite sum_len_foldr; intros x Hx; apply Hw; lia].
    apply Forall_forall. intros c (b & -> & _)%list_elem_of_fmap. apply zlen_nonneg. }
  pose proof (zlen_nonneg (concat blocks)) as Hp. rewrite Ht. unfold starts. rewrite fill_blocks_concat; [|lia|unfold zlen; rewrite length_replicate; unfold sum_len in *; lia|intros x Hx; apply Hw; lia].
  rewrite Z.add_0_l. rewrite take_0, drop_ge by (rewrite length_replicate; lia). by rewrite app_nil_r.
Qed.

(** ** The vertices *)

Lemma omap_Some_id {A} (l : list A) : omap (fun x => x) (map Some l) = l.
Proof. induction l as [|x l IH]; [done|]. cbn. by rewrite IH. Qed.

Section Gather.
Context (ctx : Context).

Lemma in_live x : x ∈ concat (live_sections ctx) <-> exists s, section_at ctx x = Some s /\ is_alive s = true.
Proof.
  unfold live_sections, section_at. rewrite list_elem_of_In, in_concat. split.
  - intros (l & Hl & Hx). apply list_elem_of_In in Hl, Hx. apply elem_of_lookup_imap in Hl as (i & f & -> & Hf). unfold file_sections in Hx.
    apply list_elem_of_omap in Hx as ([j s] & Hp & E). apply elem_of_lookup_imap in Hp as (j' & s' & [= <- <-] & Hs). cbn [fst snd] in E.
    destruct s as [s|]; [|done]. destruct (is_alive s) eqn:Ea; [|done]. injection E as <-. cbn [fst snd]. rewrite Hf. cbn [mbind option_bind]. rewrite Hs. by exists s.
  - destruct x as [i j]. cbn [fst snd]. intros (s & E & Ha). destruct (objs ctx !! i) as [f|] eqn:Ef; [|done]. cbn [mbind option_bind] in E.
    destruct (sections f !! j) as [o|] eqn:Es; [|done]. cbn [mbind option_bind] in E. subst o. exists (file_sections i f). split.
    + apply list_elem_of_In. apply elem_of_lookup_imap. by exists i, f.
    + apply list_elem_of_In. unfold file_sections. apply list_elem_of_omap. exists (j, Some s). split; [apply elem_of_lookup_imap; by exists j, (Some s)|]. cbn [fst snd]. by rewrite Ha.
Qed.

Lemma file_sections_spec i f x : x ∈ file_sections i f -> x.1 = i.
Proof.
  unfold file_sections. intros ([j s] & _ & E)%list_elem_of_omap. cbn [fst snd] in E. destruct s as [s|]; [|done]. destruct (is_alive s); [|done]. by injection E as <-.
Qed.

Lemma file_sections_nodup i f : NoDup (file_sections i f).
Proof.
  unfold file_sections. generalize (sections f). intros l. assert (G : forall k, NoDup (omap (fun p => match p.2 with Some s => if is_alive s then Some (i, p.1) else None | None => None end)
    (imap (fun j s => ((k + j)%nat, s)) l)) /\ forall x, x ∈ omap (fun p => match p.2 with Some s => if is_alive s then Some (i, p.1) else None | None => None end)
    (imap (fun j s => ((k + j)%nat, s)) l) -> (k <= x.2)%nat).
  { induction l as [|s l IH]; intros k; [split; [constructor|intros x Hx; by apply elem_of_nil in Hx]|]. rewrite imap_cons. cbn [omap list_omap fst snd].
    destruct (IH (S k)) as [I1 I2]. rewrite (imap_ext (fun j s => ((S k + j)%nat, s)) ((fun j s => ((k + j)%nat, s)) ∘ S)) in I1, I2 by (intros; cbn; f_equal; lia).
    destruct s as [s|]; [|split; [exact I1|intros x Hx; specialize (I2 x Hx); lia]]. destruct (is_alive s); [|split; [exact I1|intros x Hx; specialize (I2 x Hx); lia]].
    rewrite Nat.add_0_r. split.
    - constructor; [|exact I1]. intros Hx. specialize (I2 _ Hx). cbn [snd] in I2. lia.
    - intros x [->|Hx]%elem_of_cons; [done|]. specialize (I2 x Hx). lia. }
  destruct (G 0%nat) as [G1 _]. exact G1.
Qed.

Lemma live_nodup : NoDup (concat (live_sections ctx)).
Proof.
  unfold live_sections. generalize (objs ctx). intros l. assert (G : forall k, NoDup (concat (imap (fun i f => file_sections (k + i) f) l)) /\
    forall x, x ∈ concat (imap (fun i f => file_sections (k + i) f) l) -> (k <= x.1)%nat).
  { induction l as [|f l IH]; intros k; [split; [constructor|intros x Hx; by apply elem_of_nil in Hx]|]. rewrite imap_cons. cbn [concat].
    destruct (IH (S k)) as [I1 I2]. rewrite (imap_ext (fun i f => file_sections (S k + i) f) ((fun i f => file_sections (k + i) f) ∘ S)) in I1, I2 by (intros; cbn; f_equal; lia).
    rewrite Nat.add_0_r. split.
    - apply NoDup_app. split; [apply file_sections_nodup|]. split; [|exact I1]. intros x H1%file_sections_spec H2. specialize (I2 x H2). lia.
    - intros x [H1%file_sections_spec|H2]%elem_of_app; [lia|]. specialize (I2 x H2). lia. }
  destruct (G 0%nat) as [G1 _]. exact G1.
Qed.

Lemma filter_blocks {A} (p : A -> bool) l : List.filter p (concat l) = concat (map (List.filter p) l).
Proof. induction l as [|b l IH]; [done|]. cbn [concat map]. by rewrite List.filter_app, IH. Qed.

Lemma nodes_filter : nodes ctx = List.filter (icf_eligible ctx) (concat (live_sections ctx)).
Proof.
  unfold nodes, gather_sections. set (blocks := map (List.filter (icf_eligible ctx)) (live_sections ctx)).
  assert (E : map zlen blocks = map zlen (map (map Some) blocks)) by (rewrite !map_map; apply map_ext; intros b; unfold zlen; by rewrite length_map).
  rewrite E, fill_all by done. rewrite <- concat_map, omap_Some_id. unfold blocks. by rewrite filter_blocks.
Qed.

Lemma eligible_alive x : icf_eligible ctx x = true -> exists s, section_at ctx x = Some s /\ is_alive s = true.
Proof.
  unfold icf_eligible. destruct (section_at ctx x) as [s|]; [|done]. intros H. exists s. split; [done|]. by apply andb_true_iff in H as [[H _]%andb_true_iff _].
Qed.

Lemma in_nodes_icf x : x ∈ nodes ctx <-> icf_eligible ctx x = true.
Proof.
  rewrite nodes_filter, list_elem_of_In, filter_In. split; [by intros [_ H]|]. intros H. split; [|done]. apply list_elem_of_In, in_live. by apply eligible_alive.
Qed.

Lemma nodes_nodup : NoDup (nodes ctx).
Proof. rewrite nodes_filter. apply NoDup_ListNoDup, List.NoDup_filter, NoDup_ListNoDup, live_nodup. Qed.

Lemma icf_idx_spec x i : icf_idx ctx x = Some i <-> nodes ctx !! i = Some x.
Proof.
  unfold icf_idx. destruct (list_find (fun y => y = x) (nodes ctx)) as [[j y]|] eqn:E; cbn [fmap option_fmap option_map fst].
  - apply list_find_Some in E as (Hj & -> & _). split; [by intros [= <-]|]. intros Hi. f_equal. by apply (NoDup_lookup (nodes ctx) j i x nodes_nodup).
  - split; [done|]. intros Hi. apply list_find_None in E. rewrite Forall_forall in E. destruct (E x); [by apply list_elem_of_lookup_2 in Hi|done].
Qed.

(** ** The edges *)

(** The eligible sections that a section refers to, in the order of its relocations. *)
Definition eligible_target (f : ObjectFile) (r : ElfRel) : option sid :=
  match rel_symbol ctx f r with
  | Some (_, sym) => match sym_origin sym with ISEC x => if icf_eligible ctx x then Some x else None | _ => None end
  | None => None
  end.

Definition callees (x : sid) : list sid :=
  match objs ctx !! x.1, section_at ctx x with Some f, Some s => omap (eligible_target f) (rels s) | _, _ => [] end.

Definition place (x : sid) : nat := default O (icf_idx ctx x).

Lemma place_node x : icf_eligible ctx x = true -> icf_idx ctx x = Some (place x) /\ nodes ctx !! place x = Some x /\ (place x < length (nodes ctx))%nat.
Proof.
  intros H%in_nodes_icf. apply list_elem_of_lookup in H as [i Hi]. pose proof (proj2 (icf_idx_spec x i) Hi) as E. unfold place. rewrite E. cbn [default].
  split; [done|]. split; [done|]. by apply lookup_lt_Some in Hi.
Qed.

(** The symbols of the relocations exist. *)
Definition rels_ok (x : sid) : Prop := exists f s, objs ctx !! x.1 = Some f /\ section_at ctx x = Some s /\ Forall (fun r => is_Some (rel_symbol ctx f r)) (rels s).

Lemma omap_eq {A B} (g : A -> option B) x l : omap g (x :: l) = match g x with Some y => y :: omap g l | None => omap g l end.
Proof. done. Qed.

Lemma mapM_cons {A B} (g : A -> option B) x l : mapM g (x :: l) = (y ← g x; ys ← mapM g l; Some (y :: ys)).
Proof. done. Qed.

Lemma edges_of x : rels_ok x -> node_adj ctx x = Some (map place (callees x)) /\ num_edges ctx x = Some (zlen (callees x)).
Proof.
  intros (f & s & Ef & Es & Hr). unfold node_adj, num_edges, callees. rewrite Ef, Es. cbn [mbind option_bind].
  assert (G : exists es cs, mapM (edge_of ctx f) (rels s) = Some es /\ mapM (counts_edge ctx f) (rels s) = Some cs /\
    omap (fun e => e) es = map place (omap (eligible_target f) (rels s)) /\ zlen (List.filter (fun b : bool => b) cs) = zlen (omap (eligible_target f) (rels s))).
  2:{ destruct G as (es & cs & -> & -> & G1 & G2). cbn [mbind option_bind]. by rewrite G1, G2. }
  induction Hr as [|r l [[p sym] Hs] Hl (es & cs & E1 & E2 & E3 & E4)]; [by exists [], []|].
  assert (Ht : eligible_target f r = match sym_origin sym with ISEC y => if icf_eligible ctx y then Some y else None | _ => None end) by (unfold eligible_target; by rewrite Hs).
  assert (He : edge_of ctx f r = Some (place <$> eligible_target f r) /\ counts_edge ctx f r = Some (bool_decide (is_Some (eligible_target f r)))).
  { unfold edge_of, counts_edge. rewrite Ht, Hs. cbn [mbind option_bind]. destruct (sym_origin sym) as [y|y|]; [|done|done].
    destruct (icf_eligible ctx y) eqn:Ey; [|done]. by destruct (place_node y Ey) as (-> & _ & _). }
  destruct He as [He Hc]. exists ((place <$> eligible_target f r) :: es), (bool_decide (is_Some (eligible_target f r)) :: cs).
  rewrite !mapM_cons, He, Hc, E1, E2. split; [done|]. split; [done|]. rewrite !omap_eq. destruct (eligible_target f r) as [y|]; [|by split].
  split; [by cbn; f_equal|]. rewrite bool_decide_true by done. cbn [List.filter]. unfold zlen in *. cbn [length]. lia.
Qed.

Lemma callees_eligible x y : y ∈ callees x -> icf_eligible ctx y = true.
Proof.
  unfold callees. destruct (objs ctx !! x.1) as [f|]; [|intros H; by apply elem_of_nil in H]. destruct (section_at ctx x) as [s|]; [|intros H; by apply elem_of_nil in H].
  intros (r & _ & E)%list_elem_of_omap. unfold eligible_target in E. destruct (rel_symbol ctx f r) as [[p sym]|]; [|done]. destruct (sym_origin sym) as [z|z|]; [|done..].
  destruct (icf_eligible ctx z) eqn:Ez; [|done]. by injection E as <-.
Qed.

Definition node_at (i : nat) : sid := default ((0%nat, 0%nat) : sid) (nodes ctx !! i).
Definition adj (i : nat) : list nat := map place (callees (node_at i)).

Lemma node_at_place x : icf_eligible ctx x = true -> node_at (place x) = x.
Proof. intros H. unfold node_at. destruct (place_node x H) as (_ & -> & _). done. Qed.

Lemma node_at_lookup i : (i < length (nodes ctx))%nat -> nodes ctx !! i = Some (node_at i) /\ icf_eligible ctx (node_at i) = true /\ place (node_at i) = i.
Proof.
  intros Hi. destruct (lookup_lt_is_Some_2 _ _ Hi) as [x Ex]. assert (E : node_at i = x) by (unfold node_at; by rewrite Ex). rewrite E. split; [done|]. split.
  - apply in_nodes_icf. by apply list_elem_of_lookup_2 in Ex.
  - unfold place. by rewrite (proj2 (icf_idx_spec x i) Ex).
Qed.

Lemma adj_in i : (i < length (nodes ctx))%nat -> Forall (fun j => j < length (nodes ctx))%nat (adj i).
Proof.
  intros _. apply Forall_forall. intros j (y & -> & Hy)%list_elem_of_fmap. apply callees_eligible in Hy. by apply place_node.
Qed.
End Gather.
