(* ===== verification/IcfMerge.v ===== *)
(** * Which sections identical code folding merges

    The specification of src/elf/icf.cc and the proof that the model of Icf meets it. What
    [compute_digest] hashes is a prefix code of what it looks at, the two passes over the
    relocations store exactly the calls between eligible sections, and the rounds of
    IcfRounds then compute the greatest relation that respects both. The theorems hold for
    every schedule of the threads that elect leaders. *)

From S2P Require Import Prelude Buffers Enums ElfConst Glob GcSections Leaders IcfRounds Icf.
Local Open Scope list_scope.
Local Open Scope Z_scope.

(** ** Strings that determine what they describe *)

(** [u] and [v] are equal exactly if [P], and where they end can be seen. *)
Definition faithful (u v : bytes) (P : Prop) : Prop := (P -> u = v) /\ forall s t, u ++ s = v ++ t -> P /\ s = t.

(** ** Mergeable sections

    The information that a digest has of two sections, when [R] relates the eligible
    sections that are to become one. *)

Section Spec.
Context (ctx : Context) (lm : gmap (bytes * list bytes) sid).

Definition same_class (R : sid -> sid -> Prop) (t u : target) : Prop :=
  match t, u with
  | Undefined a, Undefined b => a = b
  | Fragment a, Fragment b => a = b
  | Absolute, Absolute => True
  | Leaf a, Leaf b => a = b
  | Eligible a, Eligible b => R a b
  | Section_ a, Section_ b => a = b
  | _, _ => False
  end.

Definition same_symbol (R : sid -> sid -> Prop) (s t : Z * Symbol) : Prop :=
  same_class R (classify ctx lm s.1 s.2) (classify ctx lm t.1 t.2) /\ sym_value s.2 = sym_value t.2.

Definition rel_same_symbol (R : sid -> sid -> Prop) (f : ObjectFile) (r : ElfRel) (f' : ObjectFile) (r' : ElfRel) : Prop :=
  exists s t, rel_symbol ctx f r = Some s /\ rel_symbol ctx f' r' = Some t /\ same_symbol R s t.

Definition same_rel (R : sid -> sid -> Prop) (f f' : ObjectFile) (r r' : ElfRel) : Prop :=
  r_offset r = r_offset r' /\ r_type r = r_type r' /\ r_addend r = r_addend r' /\ rel_same_symbol R f r f' r'.

(** Where the relocation is in the record. *)
Definition fde_rel_offset (fde : FdeRecord) (r : ElfRel) : Z := wrap (8 * Z.of_nat (word ctx)) (r_offset r - fde_offset fde).

(** Eligible sections that a record of exception handling refers to are not compared. *)
Definition same_fde_rel (f f' : ObjectFile) (fde fde' : FdeRecord) (r r' : ElfRel) : Prop :=
  rel_same_symbol (fun _ _ => True) f r f' r' /\ r_type r = r_type r' /\ fde_rel_offset fde r = fde_rel_offset fde' r' /\ r_addend r = r_addend r'.

Definition same_fde (f f' : ObjectFile) (fde fde' : FdeRecord) : Prop :=
  (exists c c', cies f !! cie_idx fde = Some c /\ cies f' !! cie_idx fde' = Some c' /\ cie_equals ctx (f, c) (f', c') = true) /\
  drop 8 (fde_contents fde) = drop 8 (fde_contents fde') /\ length (fde_rels fde) = length (fde_rels fde') /\
  Forall2 (same_fde_rel f f' fde fde') (drop 1 (fde_rels fde)) (drop 1 (fde_rels fde')).

Definition same_section (R : sid -> sid -> Prop) (x y : sid) : Prop :=
  exists f s f' s', objs ctx !! x.1 = Some f /\ section_at ctx x = Some s /\ objs ctx !! y.1 = Some f' /\ section_at ctx y = Some s' /\
    contents s = contents s' /\ sh_flags s = sh_flags s' /\ Forall2 (same_fde f f') (fdes s) (fdes s') /\ Forall2 (same_rel R f f') (rels s) (rels s').

(** There is a way of pairing eligible sections in which the two are paired, and the paired
    ones are the same but for paired sections that they call. *)
Definition mergeable (x y : sid) : Prop :=
  exists R : sid -> sid -> Prop,
    (forall a b, icf_eligible ctx a = true -> icf_eligible ctx b = true -> R a b -> same_section R a b) /\ R x y.

(** ** Inputs that the reader of object files makes *)

Record rel_ok (f : ObjectFile) (r : ElfRel) : Prop := {
  ro_symbol : is_Some (rel_symbol ctx f r);
  ro_offset : is_u (8 * Z.of_nat (word ctx)) (r_offset r);
  ro_type : is_u (8 * Z.of_nat (type_size ctx)) (r_type r);
  ro_addend : is_s 64 (r_addend r) }.

Record fde_ok (f : ObjectFile) (fde : FdeRecord) : Prop := {
  fo_cie : is_Some (cies f !! cie_idx fde);
  fo_contents : 8 <= zlen (fde_contents fde) < 2 ^ 64;
  fo_first : fde_rels fde <> [];
  fo_count : zlen (fde_rels fde) < 2 ^ 64;
  fo_rels : Forall (rel_ok f) (fde_rels fde) }.

Record section_ok (x : sid) : Prop := {
  so_ok : exists f s, objs ctx !! x.1 = Some f /\ section_at ctx x = Some s /\ zlen (contents s) < 2 ^ 64 /\
    is_u (8 * Z.of_nat (word ctx)) (sh_flags s) /\ zlen (fdes s) < 2 ^ 64 /\ zlen (rels s) < 2 ^ 64 /\
    Forall (fde_ok f) (fdes s) /\ Forall (rel_ok f) (rels s) }.

Record context_ok : Prop := {
  co_sections : forall x, icf_eligible ctx x = true -> section_ok x;
  co_address : forall x y, is_Some (section_at ctx x) -> is_Some (section_at ctx y) -> address ctx x = address ctx y -> x = y;
  co_address_range : forall x, is_Some (section_at ctx x) -> is_u 64 (address ctx x);
  co_symbols : forall s sym, syms ctx !! s = Some sym -> is_u 64 s /\ is_u 64 (sym_value sym) /\
    match sym_origin sym with ISEC x => sym_file sym = true /\ is_Some (section_at ctx x) | FRAG f => is_u 64 f | OTHER => True end;
  co_cies : zlen (all_cies ctx) < 2 ^ 32;
  co_edges : sum_len (map (callees ctx) (nodes ctx)) < 2 ^ 32 }.
End Spec.

(** ** Prefix codes *)

Lemma faithful_iff u v P Q : (P <-> Q) -> faithful u v P -> faithful u v Q.
Proof. intros H [F1 F2]. split; [intros HQ; by apply F1, H|]. intros s t E. destruct (F2 s t E) as [HP Et]. split; [by apply H|done]. Qed.

Lemma faithful_eq u v P : faithful u v P -> u = v <-> P.
Proof. intros [F1 F2]. split; [|done]. intros ->. by destruct (F2 [] []). Qed.

Lemma faithful_app u v u' v' P Q : faithful u v P -> (P -> faithful u' v' Q) -> faithful (u ++ u') (v ++ v') (P /\ Q).
Proof.
  intros [F1 F2] G. split; [intros [HP HQ]; destruct (G HP) as [G1 _]; by rewrite F1, G1|]. intros s t. rewrite <- !app_assoc. intros E0. destruct (F2 _ _ E0) as [HP E].
  destruct (G HP) as [_ G2]. destruct (G2 s t E). done.
Qed.

Lemma faithful_app' u v u' v' P Q : faithful u v P -> faithful u' v' Q -> faithful (u ++ u') (v ++ v') (P /\ Q).
Proof. intros F G. apply faithful_app; [done|]. by intros _. Qed.

Lemma faithful_length u v P : length u = length v -> (u = v <-> P) -> faithful u v P.
Proof. intros Hl H. split; [apply H|]. intros s t E. apply app_inj_1 in E as [E Et]; [|done]. split; [by apply H|done]. Qed.

Lemma le_store_inj n x y : le_store n x = le_store n y <-> wrap (8 * Z.of_nat n) x = wrap (8 * Z.of_nat n) y.
Proof.
  split; intros E; [by rewrite <- !le_load_store, E|]. rewrite <- (le_store_wrap n (8 * Z.of_nat n) x), <- (le_store_wrap n (8 * Z.of_nat n) y) by lia. by rewrite E.
Qed.

Lemma faithful_int n x y P : (wrap (8 * Z.of_nat n) x = wrap (8 * Z.of_nat n) y <-> P) -> faithful (hash_int n x) (hash_int n y) P.
Proof. intros H. apply faithful_length; unfold hash_int; [by rewrite !length_le_store|]. by rewrite le_store_inj. Qed.

Lemma faithful_u n x y : is_u (8 * Z.of_nat n) x -> is_u (8 * Z.of_nat n) y -> faithful (hash_int n x) (hash_int n y) (x = y).
Proof. intros Hx Hy. apply faithful_int. by rewrite !wrap_small. Qed.

Lemma faithful_field ctx n x y : is_u (8 * Z.of_nat n) x -> is_u (8 * Z.of_nat n) y -> faithful (hash_field ctx n x) (hash_field ctx n y) (x = y).
Proof.
  intros Hx Hy. apply faithful_length; unfold hash_field; [by rewrite !length_host, !length_le_store|]. split; [|by intros ->].
  intros E. apply (f_equal (host (is_big ctx))) in E. rewrite !host_host in E. apply le_store_inj in E. by rewrite !wrap_small in E.
Qed.

Lemma faithful_len {A B} (l : list A) (l' : list B) : zlen l < 2 ^ 64 -> zlen l' < 2 ^ 64 -> faithful (hash_int 8 (zlen l)) (hash_int 8 (zlen l')) (length l = length l').
Proof.
  intros H H'. eapply faithful_iff; [|apply faithful_u; (split; [apply zlen_nonneg|done])]. unfold zlen. lia.
Qed.

Lemma faithful_string a b : zlen a < 2 ^ 64 -> zlen b < 2 ^ 64 -> faithful (hash_string a) (hash_string b) (a = b).
Proof.
  intros Ha Hb. eapply faithful_iff; [|apply faithful_app; [by apply faithful_len|]; intros Hl; by apply (faithful_length a b (a = b))].
  split; [by intros [_ E]|by intros ->].
Qed.

Lemma faithful_concat {A B} (f : A -> option bytes) (g : B -> option bytes) (P : A -> B -> Prop) l : forall l' us vs,
  mapM f l = Some us -> mapM g l' = Some vs -> length l = length l' ->
  (forall a b u v, a ∈ l -> b ∈ l' -> f a = Some u -> g b = Some v -> faithful u v (P a b)) -> faithful (concat us) (concat vs) (Forall2 P l l').
Proof.
  induction l as [|a l IH]; intros [|b l'] us vs Eu Ev Hl H; try done.
  - injection Eu as <-. injection Ev as <-. split; [done|]. intros s t E. by split; [constructor|].
  - rewrite mapM_cons in Eu. rewrite mapM_cons in Ev. destruct (f a) as [u|] eqn:Ea; [|done]. destruct (g b) as [v|] eqn:Eb; [|done]. cbn [mbind option_bind] in *.
    destruct (mapM f l) as [us'|] eqn:Eus; [|done]. destruct (mapM g l') as [vs'|] eqn:Evs; [|done]. injection Eu as <-. injection Ev as <-. cbn [concat].
    eapply faithful_iff; [|apply faithful_app'; [apply (H a b u v); [left|left|done|done]|apply (IH l' us' vs'); [done|done|by injection Hl|]]].
    + split; [by intros [? ?]; constructor|intros HF; by inversion HF].
    + intros a' b' u' v' Ha Hb. apply H; by right.
Qed.

(** ** Common information entries *)

Section Cies.
Context (ctx : Context).

(** What [CieRecord::equals] compares. *)
Definition rel_key (f : ObjectFile) (c : CieRecord) (r : ElfRel) : Z * Z * option Z * Z :=
  (wrap (8 * Z.of_nat (word ctx)) (r_offset r - cie_offset c), r_type r, file_symbol f r, r_addend r).
Definition cie_key (a : ObjectFile * CieRecord) : bytes * list (Z * Z * option Z * Z) :=
  (cie_contents a.2, map (rel_key a.1 a.2) (cie_rels a.2)).

Lemma cie_equals_key a b : cie_equals ctx a b = true <-> cie_key a = cie_key b.
Proof.
  destruct a as [f c], b as [f' c']. unfold cie_equals, cie_key. cbn [fst snd]. rewrite !andb_true_iff, bool_decide_eq_true, Nat.eqb_eq.
  assert (G : forall l l' : list ElfRel, length l = length l' /\ forallb (cie_rel_equals ctx f c f' c') (zip l l') = true <-> map (rel_key f c) l = map (rel_key f' c') l').
  { induction l as [|r l IH]; intros [|r' l']; try (split; [by intros [? _]|done]). cbn [length zip zip_with map forallb]. rewrite andb_true_iff.
    assert (Hr : cie_rel_equals ctx f c f' c' (r, r') = true <-> rel_key f c r = rel_key f' c' r').
    { unfold cie_rel_equals, rel_key. cbn [fst snd]. rewrite !andb_true_iff, !Z.eqb_eq, bool_decide_eq_true. split; [intros [[[-> ->] ->] ->]; done|by intros [= -> -> -> ->]]. }
    specialize (IH l'). rewrite Hr. split.
    - intros (Hl & Hk & Hf). f_equal; [done|]. apply IH. split; [by injection Hl|done].
    - intros E. apply cons_eq_inj in E as [Hk Hl]. apply IH in Hl as [Hl1 Hl2]. split; [by f_equal|]. done. }
  specialize (G (cie_rels c) (cie_rels c')). split.
  - intros [[-> Hl] Hf]. f_equal. by apply G.
  - intros E. injection E as Ec Er. apply G in Er as [? ?]. done.
Qed.

(** [i] is the place of an entry equal to [a]. *)
Definition index_of (seen : list (ObjectFile * CieRecord)) (a : ObjectFile * CieRecord) (i : nat) : Prop :=
  exists b, seen !! i = Some b /\ cie_key b = cie_key a.

Lemma cie_index_spec seen a i seen' : NoDup (map cie_key seen) -> cie_index ctx seen a = (i, seen') ->
  NoDup (map cie_key seen') /\ index_of seen' a i /\ seen `prefix_of` seen' /\ (length seen' <= S (length seen))%nat.
Proof.
  intros Hn. unfold cie_index. destruct (list_find _ seen) as [[j b]|] eqn:E; intros [= <- <-].
  - apply list_find_Some in E as (Hj & Hb & _). apply cie_equals_key in Hb. split; [done|]. split; [by exists b|]. split; [done|lia].
  - apply list_find_None in E. split; [|split; [exists a; split; [|done]; by rewrite list_lookup_middle|split; [by exists [a]|rewrite length_app; simpl; lia]]].
    rewrite map_app. apply NoDup_app. split; [done|]. split; [|apply NoDup_singleton]. intros k Hk Hk'. cbn [map] in Hk'. apply list_elem_of_singleton in Hk' as ->.
    apply list_elem_of_fmap in Hk as (b & Eb & Hb). rewrite Forall_forall in E. apply (E b Hb). by apply cie_equals_key.
Qed.

Lemma index_of_prefix seen seen' a i : seen `prefix_of` seen' -> index_of seen a i -> index_of seen' a i.
Proof. intros [k ->] (b & Hb & E). exists b. split; [|done]. by apply lookup_app_l_Some. Qed.

(** Every entry gets the place of the first entry that is equal to it. *)
Lemma uniquify_list_spec l : forall seen, NoDup (map cie_key seen) ->
  exists seen', NoDup (map cie_key seen') /\ seen `prefix_of` seen' /\ (length seen' <= length seen + length l)%nat /\
    forall p a, l !! p = Some a -> exists i, uniquify_list ctx seen l !! p = Some i /\ index_of seen' a i.
Proof.
  induction l as [|a l IH]; intros seen Hn; [exists seen; split; [done|]; split; [done|]; split; [simpl; lia|]; intros p a Hp; by rewrite lookup_nil in Hp|].
  cbn [uniquify_list]. destruct (cie_index ctx seen a) as [i seen1] eqn:E. destruct (cie_index_spec _ _ _ _ Hn E) as (N1 & I1 & P1 & L1).
  destruct (IH seen1 N1) as (seen2 & N2 & P2 & L2 & H2). exists seen2. split; [done|]. split; [by trans seen1|]. split; [simpl; lia|].
  intros [|p] b Hp; cbn in Hp; [|by apply H2]. injection Hp as <-. exists i. split; [done|]. by apply (index_of_prefix seen1).
Qed.

Lemma lookup_concat_before {A} (l : list (list A)) : forall i b j x, l !! i = Some b -> b !! j = Some x -> concat l !! (sum_list_with length (take i l) + j)%nat = Some x.
Proof.
  induction l as [|c l IH]; intros [|i] b j x Hb Hj; cbn in Hb; [done..| |].
  - injection Hb as ->. cbn. by apply lookup_app_l_Some.
  - cbn [take sum_list_with concat]. rewrite lookup_app_r by lia. replace (length c + sum_list_with length (take i l) + j - length c)%nat with (sum_list_with length (take i l) + j)%nat by lia.
    by apply (IH i b).
Qed.

Lemma all_cies_lookup n f i c : objs ctx !! n = Some f -> cies f !! i = Some c -> all_cies ctx !! (cies_before ctx n + i)%nat = Some (f, c).
Proof.
  intros Hf Hc. unfold all_cies, cies_before. pose proof (lookup_concat_before (map (fun f => map (pair f) (cies f)) (objs ctx)) n (map (pair f) (cies f)) i (f, c)) as G.
  assert (E : sum_list_with length (take n (map (fun f => map (pair f) (cies f)) (objs ctx))) = sum_list_with (fun f => length (cies f)) (take n (objs ctx))).
  { rewrite <- (fmap_take _ n (objs ctx) : map _ (take n (objs ctx)) = _). generalize (take n (objs ctx)). induction l as [|g l IH]; [done|]. cbn [map sum_list_with]. by rewrite length_map, IH. }
  rewrite E in G. apply G.
  - change (((fun f => map (pair f) (cies f)) <$> objs ctx) !! n = Some (map (pair f) (cies f))). by rewrite list_lookup_fmap, Hf.
  - change ((pair f <$> cies f) !! i = Some (f, c)). by rewrite list_lookup_fmap, Hc.
Qed.

(** The numbers of two entries are equal exactly if the entries are. *)
Lemma icf_cie_idx_spec n f i c n' f' i' c' : objs ctx !! n = Some f -> cies f !! i = Some c -> objs ctx !! n' = Some f' -> cies f' !! i' = Some c' ->
  exists k k', icf_cie_idx ctx n i = Some k /\ icf_cie_idx ctx n' i' = Some k' /\ (k = k' <-> cie_equals ctx (f, c) (f', c') = true) /\
    (k < length (all_cies ctx))%nat /\ (k' < length (all_cies ctx))%nat.
Proof.
  intros Hf Hc Hf' Hc'. destruct (uniquify_list_spec (all_cies ctx) []) as (seen & N & _ & L & H); [constructor|].
  destruct (H _ _ (all_cies_lookup n f i c Hf Hc)) as (k & Ek & b & Hb & Kb). destruct (H _ _ (all_cies_lookup n' f' i' c' Hf' Hc')) as (k' & Ek' & b' & Hb' & Kb').
  exists k, k'. split; [done|]. split; [done|]. apply lookup_lt_Some in Hb as Lk. apply lookup_lt_Some in Hb' as Lk'. cbn [length] in L. split; [|lia].
  rewrite cie_equals_key, <- Kb, <- Kb'. split; [intros <-; rewrite Hb in Hb'; by injection Hb' as <-|]. intros E. apply (NoDup_lookup _ k k' (cie_key b) N).
  - change ((cie_key <$> seen) !! k = Some (cie_key b)). by rewrite list_lookup_fmap, Hb.
  - change ((cie_key <$> seen) !! k' = Some (cie_key b)). by rewrite list_lookup_fmap, Hb', E.
Qed.
End Cies.

(** ** What is hashed *)

Section Texts.
Context (ctx : Context) (lm : gmap (bytes * list bytes) sid) (Hok : context_ok ctx).
Context (Hlm : forall k l, lm !! k = Some l -> is_Some (section_at ctx l)).

Definition any (x y : sid) : Prop := True.

Definition target_ok (t : target) : Prop :=
  match t with Undefined s => is_u 64 s | Fragment f => is_u 64 f | Leaf x | Section_ x => is_Some (section_at ctx x) | _ => True end.

Lemma leaf_leader_spec x l : leaf_leader ctx lm x = Some l <-> icf_leaf ctx x = true /\ lm !! leaf_key ctx x = Some l.
Proof. unfold leaf_leader. destruct (icf_leaf ctx x); split; [by split|by intros [_ ?]|done|by intros [? _]]. Qed.

Lemma classify_ok s sym : syms ctx !! s = Some sym -> target_ok (classify ctx lm s sym).
Proof.
  intros E. destruct (co_symbols ctx Hok s sym E) as (H1 & H2 & H3). unfold classify. destruct (sym_file sym); [|done]. cbn [negb].
  destruct (sym_origin sym) as [x|g|]; [destruct H3 as [_ H3]|exact H3|done]. destruct (leaf_leader ctx lm x) as [l|] eqn:El.
  - apply leaf_leader_spec in El as [_ El]. by apply Hlm in El.
  - by destruct (icf_eligible ctx x).
Qed.

Lemma faithful_address x y : is_Some (section_at ctx x) -> is_Some (section_at ctx y) -> faithful (hash_int 8 (address ctx x)) (hash_int 8 (address ctx y)) (x = y).
Proof.
  intros Hx Hy. eapply faithful_iff; [|apply (faithful_u 8); by apply (co_address_range ctx Hok)]. split; [by apply (co_address ctx Hok)|by intros ->].
Qed.

Lemma faithful_cons a u v P : faithful u v P -> faithful (a :: u) (a :: v) P.
Proof. intros [F1 F2]. split; [intros HP; by rewrite F1|]. intros s t [= E]. by apply F2. Qed.

Lemma faithful_ne a b u v : a <> b -> faithful (a :: u) (b :: v) False.
Proof. intros H. split; [done|]. intros s t [= E _]. by destruct H. Qed.

Lemma faithful_target t u : target_ok t -> target_ok u -> faithful (target_bytes ctx t) (target_bytes ctx u) (same_class any t u).
Proof.
  intros Ht Hu. destruct t, u; cbn [target_bytes same_class target_ok] in *; try (by apply faithful_ne); apply faithful_cons;
    [by apply (faithful_u 8)|by apply (faithful_u 8)| |by apply faithful_address| |by apply faithful_address]; (split; [done|by intros s0 t0 E]).
Qed.

Lemma faithful_symbol f r f' r' u v : hash_symbol ctx lm f r = Some u -> hash_symbol ctx lm f' r' = Some v -> faithful u v (rel_same_symbol ctx lm any f r f' r').
Proof.
  unfold hash_symbol, rel_same_symbol. destruct (rel_symbol ctx f r) as [[s sym]|] eqn:Es; [|done]. destruct (rel_symbol ctx f' r') as [[s' sym']|] eqn:Es'; [|done].
  cbn [mbind option_bind]. intros [= <-] [= <-]. assert (G : forall f r s sym, rel_symbol ctx f r = Some (s, sym) -> syms ctx !! s = Some sym).
  { intros g q p z. unfold rel_symbol. destruct (file_symbol g q) as [p'|]; [|done]. cbn [mbind option_bind]. destruct (syms ctx !! p') as [z'|] eqn:E; [|done]. cbn [mbind option_bind]. by intros [= <- <-]. }
  apply G in Es, Es'. eapply faithful_iff; [|apply faithful_app'; [apply faithful_target; by apply classify_ok|apply (faithful_u 8)]].
  - split; [intros H; by exists (s, sym), (s', sym')|]. intros (? & ? & [= <-] & [= <-] & H). exact H.
  - by apply (co_symbols ctx Hok s).
  - by apply (co_symbols ctx Hok s').
Qed.

Lemma wrap_signed x y : is_s 64 x -> is_s 64 y -> wrap 64 x = wrap 64 y -> x = y.
Proof. intros Hx Hy E. rewrite <- (swrap_small 64 x), <- (swrap_small 64 y) by (lia || done). rewrite <- (swrap_wrap 64 x), <- (swrap_wrap 64 y) by lia. by rewrite E. Qed.

Lemma faithful_addend r r' : is_s 64 (r_addend r) -> is_s 64 (r_addend r') -> faithful (hash_int 8 (r_addend r)) (hash_int 8 (r_addend r')) (r_addend r = r_addend r').
Proof. intros H H'. apply (faithful_int 8). split; [by apply wrap_signed|by intros ->]. Qed.

Lemma faithful_rel f r f' r' u v : rel_ok ctx f r -> rel_ok ctx f' r' -> hash_rel ctx lm f r = Some u -> hash_rel ctx lm f' r' = Some v ->
  faithful u v (same_rel ctx lm any f f' r r').
Proof.
  intros [_ A2 A3 A4] [_ B2 B3 B4]. unfold hash_rel. destruct (hash_symbol ctx lm f r) as [a|] eqn:Ea; [|done]. destruct (hash_symbol ctx lm f' r') as [b|] eqn:Eb; [|done].
  cbn [mbind option_bind]. intros E1 E2. apply (inj Some) in E1, E2. subst u v. apply faithful_app'; [by apply faithful_field|]. apply faithful_app'; [by apply faithful_field|]. apply faithful_app'; [by apply faithful_addend|by apply faithful_symbol].
Qed.

Lemma faithful_fde_rel f fde r f' fde' r' u v : rel_ok ctx f r -> rel_ok ctx f' r' -> hash_fde_rel ctx lm f fde r = Some u -> hash_fde_rel ctx lm f' fde' r' = Some v ->
  faithful u v (same_fde_rel ctx lm f f' fde fde' r r').
Proof.
  intros [_ A2 A3 A4] [_ B2 B3 B4]. unfold hash_fde_rel. destruct (hash_symbol ctx lm f r) as [a|] eqn:Ea; [|done]. destruct (hash_symbol ctx lm f' r') as [b|] eqn:Eb; [|done].
  cbn [mbind option_bind]. intros E1 E2. apply (inj Some) in E1, E2. subst u v. apply faithful_app'; [by apply faithful_symbol|]. apply faithful_app'; [by apply faithful_field|].
  apply faithful_app'; [by apply faithful_int|by apply faithful_addend].
Qed.

Lemma zlen_drop8 (l : bytes) : 8 <= zlen l < 2 ^ 64 -> zlen (drop 8 l) < 2 ^ 64.
Proof. unfold zlen. rewrite length_drop. lia. Qed.

Lemma faithful_fde x f fde y f' fde' u v : objs ctx !! x = Some f -> objs ctx !! y = Some f' -> fde_ok ctx f fde -> fde_ok ctx f' fde' ->
  hash_fde ctx lm x f fde = Some u -> hash_fde ctx lm y f' fde' = Some v -> faithful u v (same_fde ctx lm f f' fde fde').
Proof.
  intros Hx Hy [[c Hc] A2 A3 A4 A5] [[c' Hc'] B2 B3 B4 B5]. unfold hash_fde. destruct (icf_cie_idx_spec ctx x f _ c y f' _ c' Hx Hc Hy Hc') as (k & k' & -> & -> & Hk & Lk & Lk').
  cbn [mbind option_bind]. rewrite !(proj2 (Nat.leb_le _ _)) by (unfold zlen in *; lia). cbn [mbind option_bind].
  destruct (fde_rels fde) as [|r rs] eqn:Er; [done|]. destruct (fde_rels fde') as [|r' rs'] eqn:Er'; [done|]. inversion_clear A5 as [|? ? _ A6]. inversion_clear B5 as [|? ? _ B6].
  destruct (mapM _ rs) as [us|] eqn:Eu; [|done]. destruct (mapM (hash_fde_rel ctx lm f' fde') rs') as [vs|] eqn:Ev; [|done]. cbn [mbind option_bind]. intros E1 E2. apply (inj Some) in E1, E2. subst u v.
  pose proof (co_cies ctx Hok) as Hn. unfold zlen in Hn. unfold same_fde. rewrite Er, Er'. cbn [drop].
  apply faithful_app'; [eapply faithful_iff; [|apply (faithful_u 4); unfold is_u; simpl; lia]|].
  { rewrite Nat2Z.inj_iff, Hk. split; [intros E; by exists c, c'|]. intros (? & ? & E & E' & H). rewrite Hc in E. rewrite Hc' in E'. injection E as <-. by injection E' as <-. }
  apply faithful_app'; [by apply faithful_string; apply zlen_drop8|]. apply faithful_app; [by apply faithful_len|]. intros Hl.
  apply (faithful_concat (hash_fde_rel ctx lm f fde) (hash_fde_rel ctx lm f' fde')); [done|done|by injection Hl|].
  intros a b p q Ha Hb. rewrite Forall_forall in A6, B6. apply faithful_fde_rel; [by apply A6|by apply B6].
Qed.

Lemma faithful_text x y u v : section_ok ctx x -> section_ok ctx y -> digest_text ctx lm x = Some u -> digest_text ctx lm y = Some v ->
  faithful u v (same_section ctx lm any x y).
Proof.
  intros [(f & s & Ef & Es & A1 & A2 & A3 & A4 & A5 & A6)] [(f' & s' & Ef' & Es' & B1 & B2 & B3 & B4 & B5 & B6)]. unfold digest_text. rewrite Ef, Ef', Es, Es'. cbn [mbind option_bind].
  destruct (mapM (hash_fde ctx lm x.1 f) (fdes s)) as [fu|] eqn:Fu; [|done]. destruct (mapM (hash_rel ctx lm f) (rels s)) as [ru|] eqn:Ru; [|done].
  destruct (mapM (hash_fde ctx lm y.1 f') (fdes s')) as [fv|] eqn:Fv; [|done]. destruct (mapM (hash_rel ctx lm f') (rels s')) as [rv|] eqn:Rv; [|done].
  cbn [mbind option_bind]. intros E1 E2. apply (inj Some) in E1, E2. subst u v. rewrite Forall_forall in A5, B5. rewrite Forall_forall in A6, B6.
  eapply faithful_iff; cycle 1.
  - apply faithful_app'; [by apply faithful_string|]. apply faithful_app'; [by apply faithful_field|]. apply faithful_app; [by apply faithful_len|]. intros Hf.
    apply faithful_app; [by apply faithful_len|]. intros Hr. apply faithful_app'.
    + apply (faithful_concat (hash_fde ctx lm x.1 f) (hash_fde ctx lm y.1 f') (same_fde ctx lm f f') (fdes s) (fdes s')); [done|done|done|].
      intros a b p q Ha Hb. apply faithful_fde; [done|done|by apply A5|by apply B5].
    + apply (faithful_concat (hash_rel ctx lm f) (hash_rel ctx lm f') (same_rel ctx lm any f f') (rels s) (rels s')); [done|done|done|].
      intros a b p q Ha Hb. apply faithful_rel; [by apply A6|by apply B6].
  - split.
    + intros (H1 & H2 & H3 & H4 & H5 & H6). by exists f, s, f', s'.
    + intros (? & ? & ? & ? & G1 & G2 & G3 & G4 & H1 & H2 & H3 & H4). rewrite Ef in G1. rewrite Es in G2. rewrite Ef' in G3. rewrite Es' in G4.
      injection G1 as <-. injection G2 as <-. injection G3 as <-. injection G4 as <-. split; [done|]. split; [done|]. split; [by apply Forall2_length in H3|]. split; [by apply Forall2_length in H4|]. done.
Qed.

Lemma symbol_defined f r : rel_ok ctx f r -> is_Some (hash_symbol ctx lm f r).
Proof. intros [[[s sym] E] _ _ _]. unfold hash_symbol. rewrite E. by eexists. Qed.

Lemma text_defined x : section_ok ctx x -> is_Some (digest_text ctx lm x).
Proof.
  intros [(f & s & Ef & Es & A1 & A2 & A3 & A4 & A5 & A6)]. unfold digest_text. rewrite Ef, Es. cbn [mbind option_bind].
  assert (is_Some (mapM (hash_fde ctx lm x.1 f) (fdes s))) as [fs ->].
  { apply mapM_is_Some. eapply Forall_impl; [exact A5|]. intros fde [[c Hc] B1 B2 B3 B4]. change (is_Some (hash_fde ctx lm x.1 f fde)). unfold hash_fde.
    destruct (icf_cie_idx_spec ctx x.1 f _ c x.1 f _ c Ef Hc Ef Hc) as (k & _ & -> & _). cbn [mbind option_bind]. rewrite (proj2 (Nat.leb_le _ _)) by (unfold zlen in *; lia). cbn [mbind option_bind].
    destruct (fde_rels fde) as [|r rs]; [done|]. inversion_clear B4 as [|? ? _ B5]. assert (is_Some (mapM (hash_fde_rel ctx lm f fde) rs)) as [us ->]; [|by eexists].
    apply mapM_is_Some. eapply Forall_impl; [exact B5|]. intros q [b Hb]%symbol_defined. change (is_Some (hash_fde_rel ctx lm f fde q)). unfold hash_fde_rel. rewrite Hb. by eexists. }
  assert (is_Some (mapM (hash_rel ctx lm f) (rels s))) as [rs ->]; [|by eexists].
  apply mapM_is_Some. eapply Forall_impl; [exact A6|]. intros q [b Hb]%symbol_defined. change (is_Some (hash_rel ctx lm f q)). unfold hash_rel. rewrite Hb. by eexists.
Qed.

(** ** Calls *)

Lemma no_leaf_is_eligible x : icf_eligible ctx x = true -> icf_leaf ctx x = false.
Proof. unfold icf_eligible, icf_leaf. destruct (section_at ctx x) as [s|]; [|done]. destruct (is_leaf s); [|by rewrite andb_false_r]. by rewrite andb_false_r. Qed.

Lemma eligible_class f r s sym : rel_symbol ctx f r = Some (s, sym) ->
  match classify ctx lm s sym with Eligible x => eligible_target ctx f r = Some x | _ => eligible_target ctx f r = None end.
Proof.
  intros E. assert (Hs : syms ctx !! s = Some sym).
  { revert E. unfold rel_symbol. destruct (file_symbol f r) as [p'|]; [|done]. cbn [mbind option_bind]. destruct (syms ctx !! p') as [z'|] eqn:E; [|done]. cbn [mbind option_bind]. by intros [= <- <-]. }
  destruct (co_symbols ctx Hok s sym Hs) as (_ & _ & H3). unfold classify, eligible_target. rewrite E. destruct (sym_origin sym) as [x|g|]; [|by destruct (sym_file sym)..].
  destruct H3 as [-> _]. cbn [negb]. unfold leaf_leader. destruct (icf_eligible ctx x) eqn:Ex; [by rewrite no_leaf_is_eligible|]. by destruct (icf_leaf ctx x), (lm !! leaf_key ctx x).
Qed.

Definition opt_rel (R : sid -> sid -> Prop) (a b : option sid) : Prop :=
  match a, b with Some x, Some y => R x y | None, None => True | _, _ => False end.

Lemma same_class_split R t u : same_class R t u <-> same_class any t u /\ match t, u with Eligible a, Eligible b => R a b | _, _ => True end.
Proof. destruct t, u; cbn; unfold any; tauto. Qed.

Lemma same_rel_split R f f' r r' : same_rel ctx lm R f f' r r' <-> same_rel ctx lm any f f' r r' /\ opt_rel R (eligible_target ctx f r) (eligible_target ctx f' r').
Proof.
  assert (G : rel_same_symbol ctx lm R f r f' r' <-> rel_same_symbol ctx lm any f r f' r' /\ opt_rel R (eligible_target ctx f r) (eligible_target ctx f' r')).
  { unfold rel_same_symbol. split.
    - intros ([s sym] & [s' sym'] & Es & Es' & Hc & Hv). cbn [fst snd] in *. pose proof (eligible_class f r s sym Es) as C. pose proof (eligible_class f' r' s' sym' Es') as C'.
      apply same_class_split in Hc as [Hc Hr]. split; [by exists (s, sym), (s', sym')|].
      destruct (classify ctx lm s sym), (classify ctx lm s' sym'); try done; by rewrite C, C'.
    - intros [([s sym] & [s' sym'] & Es & Es' & Hc & Hv) Ho]. cbn [fst snd] in *. pose proof (eligible_class f r s sym Es) as C. pose proof (eligible_class f' r' s' sym' Es') as C'.
      exists (s, sym), (s', sym'). split; [done|]. split; [done|]. split; [|done]. apply same_class_split. split; [done|]. cbn [fst snd].
      destruct (classify ctx lm s sym), (classify ctx lm s' sym'); try done. by rewrite C, C' in Ho. }
  unfold same_rel. rewrite G. tauto.
Qed.

Lemma Forall2_omap R f f' l l' : Forall2 (fun r r' => opt_rel R (eligible_target ctx f r) (eligible_target ctx f' r')) l l' ->
  Forall2 R (omap (eligible_target ctx f) l) (omap (eligible_target ctx f') l').
Proof.
  induction 1 as [|r r' l l' Hr Hl IH]; [constructor|]. rewrite !omap_eq. destruct (eligible_target ctx f r), (eligible_target ctx f' r'); try done. by constructor.
Qed.

Lemma omap_Forall2 R f f' l l' : Forall2 (same_rel ctx lm any f f') l l' -> Forall2 R (omap (eligible_target ctx f) l) (omap (eligible_target ctx f') l') ->
  Forall2 (same_rel ctx lm R f f') l l'.
Proof.
  induction 1 as [|r r' l l' Hr Hl IH]; [by constructor|]. rewrite !omap_eq. pose proof (proj1 (same_rel_split any f f' r r') Hr) as [_ Ho].
  destruct (eligible_target ctx f r) as [a|] eqn:Ea, (eligible_target ctx f' r') as [b|] eqn:Eb; try done; intros H.
  - inversion_clear H. constructor; [|by apply IH]. apply same_rel_split. by rewrite Ea, Eb.
  - constructor; [|by apply IH]. apply same_rel_split. by rewrite Ea, Eb.
Qed.

(** A section is described by its text and by its calls. *)
Lemma same_section_split R x y : same_section ctx lm R x y <-> same_section ctx lm any x y /\ Forall2 R (callees ctx x) (callees ctx y).
Proof.
  split.
  - intros (f & s & f' & s' & Ef & Es & Ef' & Es' & H1 & H2 & H3 & H4). split.
    + exists f, s, f', s'. do 7 (split; [done|]). eapply Forall2_impl; [exact H4|]. intros r r' H. by apply same_rel_split in H as [? ?].
    + unfold callees. rewrite Ef, Es, Ef', Es'. apply Forall2_omap. eapply Forall2_impl; [exact H4|]. intros r r' H. by apply same_rel_split in H as [? ?].
  - intros [(f & s & f' & s' & Ef & Es & Ef' & Es' & H1 & H2 & H3 & H4) HR]. exists f, s, f', s'. do 7 (split; [done|]). unfold callees in HR. rewrite Ef, Es, Ef', Es' in HR.
    by apply omap_Forall2.
Qed.
End Texts.

(** ** The stored graph *)

Section Graph.
Context (ctx : Context).

Lemma lookup_block_starts wrap counts : forall k i, (i < length counts)%nat -> (forall x, k <= x <= k + foldr Z.add 0 counts -> wrap x = x) -> Forall (fun c => 0 <= c) counts ->
  block_starts wrap k counts !! i = Some (k + foldr Z.add 0 (take i counts)).
Proof.
  induction counts as [|c counts IH]; intros k i Hi Hw Hc; [simpl in Hi; lia|]. inversion_clear Hc as [|? ? H1 H2]. cbn [foldr] in Hw.
  assert (H3 : 0 <= foldr Z.add 0 counts) by (clear - H2; induction H2; cbn [foldr]; lia).
  destruct i as [|i]; cbn [block_starts take foldr]; [cbn; f_equal; lia|]. cbn [lookup list_lookup]. rewrite (Hw (k + c)) by lia.
  change (list_lookup i (block_starts wrap (k + c) counts)) with (block_starts wrap (k + c) counts !! i).
  rewrite IH; [f_equal; lia|simpl in Hi; lia|intros x Hx; apply Hw; lia|done].
Qed.

Lemma slice_concat (blocks : list (list Z)) i b : blocks !! i = Some b ->
  slice (concat blocks) (sum_len (take i blocks)) (sum_len (take (S i) blocks)) = Some b.
Proof.
  intros Hi. rewrite (take_S_r _ _ _ Hi). pose proof (take_drop_middle blocks i b Hi) as E. unfold sum_len. rewrite concat_app. cbn [concat]. rewrite app_nil_r, zlen_app.
  assert (Ec : concat blocks = concat (take i blocks) ++ b ++ concat (drop (S i) blocks)) by (rewrite <- E at 1; by rewrite concat_app).
  unfold slice. rewrite Ec. pose proof (zlen_nonneg (concat (take i blocks))). pose proof (zlen_nonneg b). pose proof (zlen_nonneg (concat (drop (S i) blocks))).
  rewrite !zlen_app. rewrite !(proj2 (Z.leb_le _ _)) by lia. cbn [andb]. f_equal. unfold zlen. rewrite Nat2Z.id, drop_app_length.
  replace (Z.to_nat _) with (length b) by lia. apply take_app_length.
Qed.

Lemma zlen_map {A B} (f : A -> B) l : zlen (map f l) = zlen l.
Proof. unfold zlen. by rewrite length_map. Qed.

(** The edges of the vertices are stored one vertex after the other, and can be read back. *)
Lemma gather_edges_spec : Forall (rels_ok ctx) (nodes ctx) -> sum_len (map (callees ctx) (nodes ctx)) < 2 ^ 32 ->
  exists edges edge_indices, gather_edges ctx = Some (edges, edge_indices) /\
    forall i, (i < length (nodes ctx))%nat -> node_edges edges edge_indices (length (nodes ctx)) i = Some (map Z.of_nat (adj ctx i)).
Proof.
  intros Hr Hsum. unfold gather_edges. destruct (nodes ctx) as [|x0 l0] eqn:En; [exists [], []; split; [done|]; intros i Hi; simpl in Hi; lia|]. rewrite <- En in *. clear x0 l0 En.
  set (blocks := map (fun x => map Z.of_nat (map (place ctx) (callees ctx x))) (nodes ctx)).
  rewrite Forall_forall in Hr. rewrite (mapM_map (num_edges ctx) (fun x => zlen (callees ctx x))) by (intros x Hx; by apply edges_of, Hr).
  rewrite (mapM_map (node_adj ctx) (fun x => map (place ctx) (callees ctx x))) by (intros x Hx; by apply edges_of, Hr). cbn [mbind option_bind].
  assert (Ec : map (fun x => zlen (callees ctx x)) (nodes ctx) = map zlen blocks) by (unfold blocks; rewrite map_map; apply map_ext; intros x; by rewrite !zlen_map).
  assert (Eb : map (map Z.of_nat) (map (fun x => map (place ctx) (callees ctx x)) (nodes ctx)) = blocks) by (unfold blocks; by rewrite map_map).
  assert (Es : forall l, sum_len (map (fun x => map Z.of_nat (map (place ctx) (callees ctx x))) l) = sum_len (map (callees ctx) l)).
  { unfold sum_len. induction l as [|x l IH]; [done|]. cbn [map concat]. rewrite !zlen_app, !zlen_map. by rewrite IH. }
  assert (Hs : 0 <= sum_len blocks < 2 ^ 32) by (unfold blocks; rewrite Es; split; [apply zlen_nonneg|done]).
  assert (Hw : forall x, 0 <= x <= sum_len blocks -> u32 x = x) by (intros x Hx; apply wrap_small; unfold is_u; lia).
  rewrite Ec, Eb, fill_all by done. eexists _, _. split; [reflexivity|]. intros i Hi.
  assert (Hst : forall j, (j < length blocks)%nat -> block_starts u32 0 (map zlen blocks) !! j = Some (sum_len (take j blocks))).
  { intros j Hj. rewrite lookup_block_starts; [|by rewrite length_map|rewrite sum_len_foldr; intros x Hx; apply Hw; lia|apply Forall_forall; intros c (b & -> & _)%list_elem_of_fmap; apply zlen_nonneg].
    rewrite Z.add_0_l, <- sum_len_foldr. do 2 f_equal. symmetry. by apply (fmap_take zlen j blocks). }
  assert (Hl : length blocks = length (nodes ctx)) by (unfold blocks; by rewrite length_map).
  assert (Hb : blocks !! i = Some (map Z.of_nat (adj ctx i))).
  { destruct (node_at_lookup ctx i Hi) as (Hx & _ & _). unfold blocks. change (((fun x => map Z.of_nat (map (place ctx) (callees ctx x))) <$> nodes ctx) !! i = Some (map Z.of_nat (adj ctx i))).
    by rewrite list_lookup_fmap, Hx. }
  unfold node_edges. rewrite (Hst i) by lia. cbn [mbind option_bind]. destruct (Nat.eqb_spec (i + 1) (length (nodes ctx))) as [E|E].
  - cbn [mbind option_bind]. rewrite <- (slice_concat blocks i _ Hb). f_equal. unfold sum_len. do 2 f_equal. symmetry. apply firstn_all2. lia.
  - rewrite (Hst (i + 1)%nat) by lia. cbn [mbind option_bind]. rewrite Nat.add_1_r. by apply slice_concat.
Qed.
End Graph.

(** ** Mergeable sections are the similar vertices *)

Section Merge.
Context (ctx : Context) (lm : gmap (bytes * list bytes) sid) (Hok : context_ok ctx).
Context (Hlm : forall k l, lm !! k = Some l -> is_Some (section_at ctx l)).

Definition node_text (i : nat) : bytes := default [] (digest_text ctx lm (node_at ctx i)).

Lemma node_text_eq x y : icf_eligible ctx x = true -> icf_eligible ctx y = true ->
  node_text (place ctx x) = node_text (place ctx y) <-> same_section ctx lm any x y.
Proof.
  intros Hx Hy. unfold node_text. rewrite !node_at_place by done. destruct (text_defined ctx lm x) as [u Eu]; [by apply (co_sections ctx Hok)|].
  destruct (text_defined ctx lm y) as [v Ev]; [by apply (co_sections ctx Hok)|]. rewrite Eu, Ev. apply faithful_eq.
  apply (faithful_text ctx lm Hok Hlm); [by apply (co_sections ctx Hok)|by apply (co_sections ctx Hok)|done|done].
Qed.

Lemma node_eligible i : (i < length (nodes ctx))%nat -> icf_eligible ctx (node_at ctx i) = true.
Proof. intros Hi. by apply node_at_lookup. Qed.

Lemma place_node_at i : (i < length (nodes ctx))%nat -> place ctx (node_at ctx i) = i.
Proof. intros Hi. by apply node_at_lookup. Qed.

Lemma place_lt x : icf_eligible ctx x = true -> (place ctx x < length (nodes ctx))%nat.
Proof. intros H. by apply place_node. Qed.

Lemma mergeable_similar x y : icf_eligible ctx x = true -> icf_eligible ctx y = true ->
  mergeable ctx lm x y <-> similar (length (nodes ctx)) node_text (adj ctx) (place ctx x) (place ctx y).
Proof.
  intros Hx Hy. split.
  - intros (R & HR & Hxy). exists (fun i j => R (node_at ctx i) (node_at ctx j)). split; [|by rewrite !node_at_place].
    intros i j Hi Hj Hij. pose proof (node_eligible i Hi) as Ei. pose proof (node_eligible j Hj) as Ej. apply (HR _ _ Ei Ej) in Hij.
    apply (same_section_split ctx lm Hok) in Hij as [Ht Hc]. split.
    + rewrite <- (place_node_at i), <- (place_node_at j) by done. by apply node_text_eq.
    + unfold adj. apply Forall2_fmap. assert (Fi : Forall (fun a => icf_eligible ctx a = true) (callees ctx (node_at ctx i))) by (apply Forall_forall; intros a; apply callees_eligible).
      assert (Fj : Forall (fun a => icf_eligible ctx a = true) (callees ctx (node_at ctx j))) by (apply Forall_forall; intros a; apply callees_eligible).
      revert Fi Fj. induction Hc as [|a b l l' Hab Hl IH]; intros Fi Fj; [constructor|]. inversion_clear Fi. inversion_clear Fj. constructor; [by rewrite !node_at_place|by apply IH].
  - intros (R & HR & Hxy). exists (fun a b => R (place ctx a) (place ctx b)). split; [|done]. intros a b Ha Hb Hab.
    apply (same_section_split ctx lm Hok). destruct (HR _ _ (place_lt a Ha) (place_lt b Hb) Hab) as [Ht Hc]. split; [by apply node_text_eq|].
    unfold adj in Hc. rewrite !node_at_place in Hc by done. exact (proj1 (Forall2_fmap (place ctx) (place ctx) R _ _) Hc).
Qed.


Lemma nodes_rels_ok : Forall (rels_ok ctx) (nodes ctx).
Proof.
  apply Forall_forall. intros x Hx%in_nodes_icf. destruct (co_sections ctx Hok x Hx) as [(f & s & Ef & Es & _ & _ & _ & _ & _ & H)]. exists f, s. split; [done|]. split; [done|].
  eapply Forall_impl; [exact H|]. by intros r [? _ _ _].
Qed.

(** The digests that the pass ends with tell mergeable sections from others. *)
Lemma icf_digests_spec digest lost fuel : (forall x, length (digest x) = HASH_SIZE) ->
  collision_free digest (length (nodes ctx)) node_text (adj ctx) (11 * length (nodes ctx) + 22) -> (length (nodes ctx) + 2 < fuel)%nat ->
  exists ds, icf_digests ctx lm digest lost fuel = Some ds /\
    (forall x, icf_eligible ctx x = true -> ds !! place ctx x = Some (digest_key ctx ds x)) /\
    (forall x y, icf_eligible ctx x = true -> icf_eligible ctx y = true -> digest_key ctx ds x = digest_key ctx ds y <-> mergeable ctx lm x y).
Proof.
  intros Hlen Hcf Hf. set (n := length (nodes ctx)) in *.
  assert (Ht : mapM (digest_text ctx lm) (nodes ctx) = Some (map node_text (seq 0 n))).
  { rewrite (mapM_map _ (fun x => node_text (place ctx x))).
    - f_equal. apply list_eq_same_length with n; [by rewrite length_map, length_seq|by rewrite length_map|]. intros i a b Hi Ha Hb.
      destruct (node_at_lookup ctx i Hi) as (Hn & _ & Hp). change (((fun x => node_text (place ctx x)) <$> nodes ctx) !! i = Some a) in Ha.
      rewrite list_lookup_fmap, Hn in Ha. cbn in Ha. injection Ha as <-. rewrite lookup_map_seq in Hb by done. injection Hb as <-. by rewrite Hp.
    - intros x Hx%in_nodes_icf. unfold node_text. rewrite node_at_place by done. by destruct (text_defined ctx lm x (co_sections ctx Hok x Hx)) as [u ->]. }
  destruct (gather_edges_spec ctx nodes_rels_ok (co_edges ctx Hok)) as (edges & edge_indices & Eg & Hedges).
  destruct (final_digests_similar digest lost n node_text (adj ctx) edges edge_indices Hlen (adj_in ctx) Hedges _ Hcf fuel ltac:(lia) Hf) as (ds & Ed & Ld & Hd).
  exists ds. unfold icf_digests. rewrite Ht, Eg. cbn [mbind option_bind]. rewrite map_map. split; [exact Ed|].
  assert (Hk : forall x, icf_eligible ctx x = true -> ds !! place ctx x = Some (digest_key ctx ds x)).
  { intros x Hx. unfold digest_key. destruct (place_node ctx x Hx) as (-> & _ & Hl). cbn [mbind option_bind]. fold n in Hl. rewrite <- Ld in Hl.
    by destruct (lookup_lt_is_Some_2 _ _ Hl) as [d ->]. }
  split; [exact Hk|]. intros x y Hx Hy. rewrite mergeable_similar by done. fold n. rewrite <- Hd by (by apply place_lt). rewrite !Hk by done. split; [by intros ->|by intros [= ->]].
Qed.
End Merge.

(** ** Leaders *)

Section Leader.
Context (ctx : Context) (lm : gmap (bytes * list bytes) sid) (ds : list bytes) (gm : gmap bytes sid).
Context (Hlm : elected (leaf_key ctx) (get_priority ctx) (leaves ctx) lm) (Hgm : elected (digest_key ctx ds) (get_priority ctx) (nodes ctx) gm).

Definition icf_folds (x : sid) : bool := icf_leaf ctx x || icf_eligible ctx x.

Lemma in_leaves x : x ∈ leaves ctx <-> icf_leaf ctx x = true.
Proof.
  unfold leaves. rewrite list_elem_of_In, filter_In. split; [by intros [_ H]|]. intros H. split; [|done]. apply list_elem_of_In, in_live.
  unfold icf_leaf in H. destruct (section_at ctx x) as [s|]; [|done]. exists s. split; [done|]. by apply andb_true_iff in H as [[H _]%andb_true_iff _].
Qed.

Lemma leaf_leaders k l : lm !! k = Some l -> is_Some (section_at ctx l).
Proof.
  intros H. destruct (elected_only _ _ _ _ _ _ Hlm H) as [Hl _]. apply in_leaves in Hl. unfold icf_leaf in Hl. by destruct (section_at ctx l).
Qed.

Lemma leaf_leads x : icf_leaf ctx x = true -> exists l, leader ctx lm ds gm x = Some l /\ icf_leaf ctx l = true /\ leaf_key ctx l = leaf_key ctx x /\
  forall y, icf_leaf ctx y = true -> leaf_key ctx y = leaf_key ctx l -> get_priority ctx l <= get_priority ctx y.
Proof.
  intros Hx. destruct (elected_least _ _ _ _ x Hlm) as (l & Hl & Hk & [Hin Hle]); [by apply in_leaves|]. exists l. unfold leader. rewrite Hx. split; [done|].
  split; [by apply in_leaves|]. split; [done|]. intros y Hy. apply Hle. by apply in_leaves.
Qed.

Lemma node_leads x : icf_eligible ctx x = true -> exists l, leader ctx lm ds gm x = Some l /\ icf_eligible ctx l = true /\ digest_key ctx ds l = digest_key ctx ds x /\
  forall y, icf_eligible ctx y = true -> digest_key ctx ds y = digest_key ctx ds l -> get_priority ctx l <= get_priority ctx y.
Proof.
  intros Hx. destruct (elected_least _ _ _ _ x Hgm) as (l & Hl & Hk & [Hin Hle]); [by apply in_nodes_icf|]. exists l. unfold leader. rewrite (no_leaf_is_eligible ctx x Hx), Hx.
  split; [done|]. split; [by apply in_nodes_icf|]. split; [done|]. intros y Hy. apply Hle. by apply in_nodes_icf.
Qed.

Lemma leader_leaf x y : icf_leaf ctx x = true -> icf_leaf ctx y = true -> leader ctx lm ds gm x = leader ctx lm ds gm y <-> leaf_key ctx x = leaf_key ctx y.
Proof.
  intros Hx Hy. split; [|intros E; unfold leader; by rewrite Hx, Hy, E]. destruct (leaf_leads x Hx) as (l & -> & _ & <- & _). destruct (leaf_leads y Hy) as (l' & -> & _ & <- & _). by intros [= ->].
Qed.

Lemma leader_node x y : icf_eligible ctx x = true -> icf_eligible ctx y = true ->
  leader ctx lm ds gm x = leader ctx lm ds gm y <-> digest_key ctx ds x = digest_key ctx ds y.
Proof.
  intros Hx Hy. split; [|intros E; unfold leader; by rewrite !no_leaf_is_eligible, Hx, Hy, E by done].
  destruct (node_leads x Hx) as (l & -> & _ & <- & _). destruct (node_leads y Hy) as (l' & -> & _ & <- & _). by intros [= ->].
Qed.

Lemma leader_folds x l : leader ctx lm ds gm x = Some l -> icf_folds x = true.
Proof. unfold leader, icf_folds. destruct (icf_leaf ctx x); [done|]. by destruct (icf_eligible ctx x). Qed.

Lemma leader_kind x l : leader ctx lm ds gm x = Some l -> icf_leaf ctx l = icf_leaf ctx x /\ icf_eligible ctx l = icf_eligible ctx x.
Proof.
  intros E. pose proof (leader_folds x l E) as Hf. unfold icf_folds in Hf. destruct (icf_eligible ctx x) eqn:Ex.
  - destruct (node_leads x Ex) as (l' & E' & He & _). rewrite E in E'. injection E' as <-. by rewrite He, !no_leaf_is_eligible.
  - rewrite orb_false_r in Hf. destruct (leaf_leads x Hf) as (l' & E' & He & _). rewrite E in E'. injection E' as <-. rewrite He, Hf. split; [done|].
    destruct (icf_eligible ctx l) eqn:El; [|done]. by rewrite no_leaf_is_eligible in He.
Qed.

(** A leader leads itself, and has the least priority of its group. *)
Lemma leader_least x : icf_folds x = true -> exists l, leader ctx lm ds gm x = Some l /\ leader ctx lm ds gm l = Some l /\
  forall y, leader ctx lm ds gm y = Some l -> get_priority ctx l <= get_priority ctx y.
Proof.
  intros Hf. unfold icf_folds in Hf. apply orb_true_iff in Hf as [Hx|Hx].
  - destruct (leaf_leads x Hx) as (l & E & Hl & Hk & Hle). exists l. split; [done|]. assert (El : leader ctx lm ds gm l = Some l) by (rewrite <- E; by apply leader_leaf). split; [done|].
    intros y Ey. destruct (leader_kind y l Ey) as [Hy _]. rewrite Hl in Hy. symmetry in Hy. apply Hle; [done|]. apply leader_leaf; [done|done|]. by rewrite Ey, El.
  - destruct (node_leads x Hx) as (l & E & Hl & Hk & Hle). exists l. split; [done|]. assert (El : leader ctx lm ds gm l = Some l) by (rewrite <- E; by apply leader_node). split; [done|].
    intros y Ey. destruct (leader_kind y l Ey) as [_ Hy]. rewrite Hl in Hy. symmetry in Hy. apply Hle; [done|]. apply leader_node; [done|done|]. by rewrite Ey, El.
Qed.
End Leader.

(** ** The pass *)

(** What the theorems ask of the hash function. *)
Record hash_ok (ctx : Context) (lm : gmap (bytes * list bytes) sid) (digest : bytes -> bytes) : Prop := {
  ho_length : forall x, length (digest x) = HASH_SIZE;
  ho_collisions : collision_free digest (length (nodes ctx)) (node_text ctx lm) (adj ctx) (11 * length (nodes ctx) + 22) }.

(** What a symbol's address is relative to once references to folded sections go to their
    leaders. A function of a shared library is reached through slots of its own, so it is
    its own destination; a symbol of an object file without a section is a number. *)
Inductive place :=
| In_fragment (f : Z)
| In_section (x : sid)
| Imported (s : Z)
| Unresolved (s : Z)
| Number.

Definition destination (lead : sid -> option sid) (t : Z * Symbol) : place :=
  match sym_origin t.2 with
  | FRAG f => In_fragment f
  | ISEC x => In_section (default x (lead x))
  | OTHER => if negb (sym_file t.2) then Unresolved t.1 else if sym_dso t.2 then Imported t.1 else Number
  end.







(** C10: identical code folding is exact. However the threads interleave in the two elections
    of leaders, and whichever bits of [converged] the racing updates lose, the pass returns
    (the rounds end within the fuel), and: every section that takes part has a leader, which
    is its own leader and has the least priority of all that have it; two sections that are
    vertices of the graph have the same leader if and only if they can be paired so that
    paired sections have equal contents, flags and records and the same relocations, up to
    paired sections that they call, also in cycles; two leaves have the same leader if and
    only if their contents and records are equal; and a leaf never gets the leader of a
    vertex. *)
Theorem icf_exact ctx lm digest lost fuel :
  context_ok ctx -> elected (leaf_key ctx) (get_priority ctx) (leaves ctx) lm -> hash_ok ctx lm digest -> (length (nodes ctx) + 2 < fuel)%nat ->
  exists ds, icf_digests ctx lm digest lost fuel = Some ds /\
    forall gm, elected (digest_key ctx ds) (get_priority ctx) (nodes ctx) gm ->
      (forall x, icf_folds ctx x = true -> exists l, leader ctx lm ds gm x = Some l /\ leader ctx lm ds gm l = Some l /\
        forall y, leader ctx lm ds gm y = Some l -> get_priority ctx l <= get_priority ctx y) /\
      (forall x y, icf_eligible ctx x = true -> icf_eligible ctx y = true -> leader ctx lm ds gm x = leader ctx lm ds gm y <-> mergeable ctx lm x y) /\
      (forall x y, icf_leaf ctx x = true -> icf_leaf ctx y = true -> leader ctx lm ds gm x = leader ctx lm ds gm y <-> leaf_key ctx x = leaf_key ctx y) /\
      (forall x y, icf_leaf ctx x = true -> icf_eligible ctx y = true -> leader ctx lm ds gm x <> leader ctx lm ds gm y).
Proof.
  intros Hok Hlm [Hlen Hcf] Hf. destruct (icf_digests_spec ctx lm Hok (leaf_leaders ctx lm Hlm) digest lost fuel Hlen Hcf Hf) as (ds & Ed & _ & Hds).
  exists ds. split; [done|]. intros gm Hgm. split; [by apply leader_least|]. split; [|split; [by apply leader_leaf|]].
  - intros x y Hx Hy. by rewrite leader_node, Hds.
  - intros x y Hx Hy E. destruct (node_leads ctx lm ds gm Hgm y Hy) as (l & El & Hl & _). rewrite El in E. destruct (leader_kind ctx lm ds gm Hlm Hgm x l E) as [_ H].
    rewrite Hl in H. by rewrite (no_leaf_is_eligible ctx x) in Hx.
Qed.


(** ** A sample

    Two functions that call each other, one that calls itself, equal leaves, and a function
    that calls a leaf and has a record of exception handling with a data area. *)

(** A hash function that can be evaluated. *)
Definition mix (s : bytes) : bytes := le_store 16 (foldl (fun h b => Z.land (1000003 * (h + b + 1)) 0xffffffffffffffff) 0 s).

Definition call (sym : nat) : ElfRel := mkRel 1 4 (-4) sym.
Definition func (name_ : string) (text : bytes) (rels_ : list ElfRel) (fdes_ : list FdeRecord) (i : Z) : InputSection :=
  mkSection (sht "PROGBITS") (shf "ALLOC" + shf "EXECINSTR") (zlen text) (bs name_) text rels_ fdes_ false true i.
Definition jump : bytes := [233; 0; 0; 0; 0].

Definition sample_file (fde_sym : nat) : ObjectFile :=
  mkFile 10000
    [None;
     Some (func ".text.a" jump [call 2] [] 1);
     Some (func ".text.b" jump [call 1] [] 2);
     Some (func ".text.c" jump [call 3] [] 3);
     Some (func ".text.x" [195] [] [] 4);
     Some (func ".text.y" [195] [] [] 5);
     Some (func ".text.d" jump [call 5; call 8] [mkFde 0 24 [20; 0; 0; 0; 28; 0; 0; 0; 0; 0; 0; 0] [mkRel 32 2 0 6; mkRel 40 2 0 fde_sym]] 6);
     Some (mkSection (sht "PROGBITS") (shf "ALLOC") 1 (bs ".gcc_except_table") [1] [] [] false true 7)]
    [mkCie [16; 0; 0; 0; 0; 0; 0; 0; 1] 0 []]
    [0; 8; 16; 24; 32; 40; 48; 56; 64].

Definition sample : Context :=
  mkContext [sample_file 7] (list_to_map (map (fun i => (8 * Z.of_nat i, mkSymbol true false (ISEC (0%nat, i)) 0)) (seq 1 7) ++
      [(0, mkSymbol true true OTHER 0x1000); (64, mkSymbol true true OTHER 0x2000)]))
    (fun x => 4096 + 64 * (100 * Z.of_nat x.1 + Z.of_nat x.2)) true false 8 4 false.

Definition sample_lm : gmap (bytes * list bytes) sid := elect (leaf_key sample) (get_priority sample) (leaves sample).

(** The strings of the rounds in a table: those of the rounds after the one with the digests
    [prev], and whether two of all have the same digest. *)
Section Table.
Context (digest : bytes -> bytes) (texts : list bytes) (adjs : list (list nat)).

Definition next_strings (prev : list bytes) : list bytes :=
  map (fun p => digest p.1 ++ concat (map (fun j => nth j prev []) p.2)) (zip texts adjs).
Fixpoint unroll (m : nat) (prev : list bytes) : list (list bytes) :=
  match m with O => [] | S m => let l := next_strings prev in l :: unroll m (map digest l) end.

Definition check_collisions (K : nat) : bool :=
  let later := concat (unroll K (map digest texts)) in
  let table := map (fun x => (x, le_load (digest x))) (texts ++ later) in
  forallb (fun a => forallb (fun b => if a.2 =? b.2 then bool_decide (a.1 = b.1) else true) table) table &&
  forallb (fun t => forallb (fun s => negb (bool_decide (t = s))) later) texts.

Context (n : nat) (text : nat -> bytes) (adj : nat -> list nat).
Context (Ht : texts = map text (seq 0 n)) (Ha : adjs = map adj (seq 0 n)) (Hadj : forall i, (i < n)%nat -> Forall (fun j => j < n)%nat (adj i)).

Lemma zip_map {A B C} (f : A -> B) (g : A -> C) l : zip (map f l) (map g l) = map (fun x => (f x, g x)) l.
Proof. induction l as [|x l IH]; [done|]. cbn [map zip zip_with]. by rewrite <- IH. Qed.

Lemma next_strings_hashed k : next_strings (map (D digest text adj k) (seq 0 n)) = map (hashed digest text adj (S k)) (seq 0 n).
Proof.
  unfold next_strings. rewrite Ht, Ha, zip_map, map_map. apply map_ext_in. intros i [_ Hi]%in_seq. cbn [fst snd hashed]. do 2 f_equal. apply map_ext_in. intros j Hj.
  specialize (Hadj i Hi). rewrite Forall_forall in Hadj. specialize (Hadj j (proj2 (list_elem_of_In _ _) Hj)).
  apply nth_lookup_Some. by apply lookup_map_seq.
Qed.

Lemma unroll_hashed m : forall k j, (j < m)%nat -> unroll m (map (D digest text adj k) (seq 0 n)) !! j = Some (map (hashed digest text adj (S (k + j))) (seq 0 n)).
Proof.
  induction m as [|m IH]; intros k j Hj; [lia|]. cbn [unroll]. rewrite next_strings_hashed. destruct j as [|j]; [by rewrite Nat.add_0_r|].
  assert (E : map digest (map (hashed digest text adj (S k)) (seq 0 n)) = map (D digest text adj (S k)) (seq 0 n)) by (rewrite map_map; apply map_ext; intros i; by rewrite <- D_hashed).
  rewrite E. cbn [lookup list_lookup]. replace (k + S j)%nat with (S k + j)%nat by lia. apply (IH (S k) j). lia.
Qed.

Lemma in_later K k i : (k < K)%nat -> (i < n)%nat -> In (hashed digest text adj (S k) i) (concat (unroll K (map digest texts))).
Proof.
  intros Hk Hi. apply in_concat. exists (map (hashed digest text adj (S k)) (seq 0 n)). split; [|apply in_map, in_seq; lia]. apply list_elem_of_In, (list_elem_of_lookup_2 _ k).
  rewrite Ht, map_map. exact (unroll_hashed K 0 k Hk).
Qed.

Lemma in_all K k i : (k <= K)%nat -> (i < n)%nat -> In (hashed digest text adj k i) (texts ++ concat (unroll K (map digest texts))).
Proof.
  intros Hk Hi. apply in_or_app. destruct k as [|k]; [left; rewrite Ht; apply in_map, in_seq; lia|right; apply in_later; lia].
Qed.

Lemma check_collisions_ok K : check_collisions K = true -> collision_free digest n text adj K.
Proof.
  unfold check_collisions. intros [H1 H2]%andb_true_iff. rewrite forallb_forall in H1, H2. split.
  - intros k l i j Hk Hl Hi Hj E. specialize (H1 _ (in_map (fun x => (x, le_load (digest x))) _ _ (in_all K k i Hk Hi))). rewrite forallb_forall in H1.
    specialize (H1 _ (in_map (fun x => (x, le_load (digest x))) _ _ (in_all K l j Hl Hj))). cbn [fst snd] in H1. rewrite E, Z.eqb_refl in H1. by apply bool_decide_eq_true in H1.
  - intros k i j Hk Hi Hj E. assert (Ii : In (text i) texts) by (rewrite Ht; apply in_map, in_seq; lia). specialize (H2 _ Ii). rewrite forallb_forall in H2.
    specialize (H2 _ (in_later K k j Hk Hj)). by rewrite bool_decide_true in H2.
Qed.
End Table.

Lemma sample_nodes : nodes sample = [(0, 1); (0, 2); (0, 3); (0, 6)]%nat.
Proof. vm_compute. reflexivity. Qed.

Definition sample_texts : list bytes := Eval vm_compute in map (node_text sample sample_lm) (seq 0 4).

Lemma sample_hash : hash_ok sample sample_lm mix.
Proof.
  split; [intros x; apply length_le_store|]. rewrite sample_nodes. apply (check_collisions_ok mix sample_texts [[1%nat]; [0%nat]; [2%nat]; []]).
  - vm_compute. reflexivity.
  - vm_compute. reflexivity.
  - intros i Hi. pose proof (adj_in sample i) as G. rewrite sample_nodes in G. by apply G.
  - vm_compute. reflexivity.
Qed.

Lemma sample_section x s : section_at sample x = Some s -> x.1 = 0%nat /\ (x.2 < 8)%nat.
Proof.
  destruct x as [[|i] j]; cbn [fst snd]; [|by destruct i]. intros H. split; [done|]. destruct (decide (j < 8)%nat) as [|Hj]; [done|]. exfalso.
  unfold section_at in H. cbn [fst snd objs sample lookup list_lookup mbind option_bind] in H. change (sections (sample_file 7) !! j ≫= id = Some s) in H.
  rewrite lookup_ge_None_2 in H by (simpl; lia). done.
Qed.

Lemma icf_sample_ok : context_ok sample.
Proof.
  split.
  - intros x Hx. apply in_nodes_icf in Hx. rewrite sample_nodes in Hx. repeat (apply elem_of_cons in Hx as [->|Hx]); [| | | |by apply elem_of_nil in Hx];
      split; eexists _, _; (split; [reflexivity|]); (split; [reflexivity|]); (do 4 (split; [vm_compute; by split|])); split; repeat constructor; try (vm_compute; by split || by eexists || done); by eexists.
  - intros x y [s [H1 H2]%sample_section] [s' [H3 H4]%sample_section]. cbn [address sample]. destruct x as [i j], y as [i' j']. cbn [fst snd] in *. subst. intros E. f_equal. lia.
  - intros x [s [H1 H2]%sample_section]. cbn [address sample]. unfold is_u. rewrite H1. lia.
  - intros s sym E. apply elem_of_list_to_map_2 in E. repeat (apply elem_of_cons in E as [[= -> ->]|E]); [..|by apply elem_of_nil in E];
      (split; [by vm_compute|]); (split; [by vm_compute|]); first [done|split; [done|by eexists]].
  - vm_compute. reflexivity.
  - vm_compute. reflexivity.
Qed.


Lemma sample_leaves : elected (leaf_key sample) (get_priority sample) (leaves sample) sample_lm.
Proof. apply elect_elected. Qed.

(** The digests of the sample when every other update of [converged] is lost. *)
Definition sample_lost (k i : nat) : bool := Nat.even (k + i).
Definition sample_digests : option (list bytes) := icf_digests sample sample_lm mix sample_lost 60.

Lemma icf_exact_witness : exists ds, sample_digests = Some ds /\
  forall gm, elected (digest_key sample ds) (get_priority sample) (nodes sample) gm ->
    (forall x y, icf_eligible sample x = true -> icf_eligible sample y = true -> leader sample sample_lm ds gm x = leader sample sample_lm ds gm y <-> mergeable sample sample_lm x y) /\
    leader sample sample_lm ds gm (0, 4)%nat = leader sample sample_lm ds gm (0, 5)%nat.
Proof.
  destruct (icf_exact sample sample_lm mix sample_lost 60 icf_sample_ok sample_leaves sample_hash) as (ds & Ed & H); [rewrite sample_nodes; simpl; lia|].
  exists ds. split; [exact Ed|]. intros gm Hgm. destruct (H gm Hgm) as (_ & H1 & H2 & _). split; [exact H1|]. apply H2; vm_compute; reflexivity.
Defined.


(** ** What the header of the source does not say *)

Definition folded (ctx : Context) : option (list (sid * sid)) := List.filter (fun p => negb (bool_decide (p.1 = p.2))) <$> icf_sections ctx mix 60.

Lemma sample_folded : folded sample = Some [((0, 2), (0, 1)); ((0, 3), (0, 1)); ((0, 5), (0, 4))]%nat.
Proof. vm_compute. reflexivity. Qed.

Definition one_file (secs : list (option InputSection)) (cies_ : list CieRecord) (syms_ : list Symbol) (all_data : bool) : Context :=
  mkContext [mkFile 10000 (None :: secs) cies_ (map (fun i => 8 * Z.of_nat i) (seq 0 (length syms_)))] (list_to_map (imap (fun i s => (8 * Z.of_nat i, s)) syms_))
    (fun x => 4096 + 64 * (100 * Z.of_nat x.1 + Z.of_nat x.2)) true all_data 8 4 false.

(** Calls of two imported functions, which have no section, differ in nothing but the values
    of the symbols: with equal values the callers are folded. *)
Example imports_with_equal_values : folded (one_file
  [Some (func ".text.f" jump [call 0] [] 1); Some (func ".text.g" jump [call 1] [] 2)] [] [mkSymbol true true OTHER 0x1000; mkSymbol true true OTHER 0x1000] false) = Some [((0, 2), (0, 1))]%nat.
Proof. vm_compute. reflexivity. Qed.

(** The callers above do not reach the same function. *)
Example imports_have_other_destinations lead :
  destination lead (0, mkSymbol true true OTHER 0x1000) <> destination lead (8, mkSymbol true true OTHER 0x1000).
Proof. discriminate. Qed.

(** Leaves are folded although their flags differ (here SHF_GNU_RETAIN). *)
Example leaves_with_different_flags : folded (one_file
  [Some (func ".text.f" [195] [] [] 1);
   Some (mkSection (sht "PROGBITS") (shf "ALLOC" + shf "EXECINSTR" + 0x200000) 1 (bs ".text.g") [195] [] [] false true 2)] [] [] false) = Some [((0, 2), (0, 1))]%nat.
Proof. vm_compute. reflexivity. Qed.

(** With --ignore-data-address-equality the data areas of exception handling are vertices.
    A record refers to one, but this is not an edge: the areas below have different
    contents, and the functions are folded. *)
Definition data_area (name_ : string) (byte : Z) (i : Z) : InputSection :=
  mkSection (sht "PROGBITS") (shf "ALLOC") 5 (bs name_) [byte; 0; 0; 0; 0] [call 0] [] false true i.
Definition with_area (name_ : string) (area : nat) (i : Z) : InputSection :=
  func name_ jump [call 0] [mkFde 0 24 [20; 0; 0; 0; 28; 0; 0; 0; 0; 0; 0; 0] [mkRel 32 2 0 0; mkRel 40 2 0 area]] i.

Example records_with_different_data_areas : folded (one_file
  [Some (with_area ".text.f" 1 1); Some (with_area ".text.g" 2 2); Some (data_area ".gcc_except_table.f" 1 3); Some (data_area ".gcc_except_table.g" 2 4)]
  [mkCie [16; 0; 0; 0; 0; 0; 0; 0; 1] 0 []] [mkSymbol true true OTHER 0; mkSymbol true false (ISEC (0, 3)%nat) 0; mkSymbol true false (ISEC (0, 4)%nat) 0] true) = Some [((0, 2), (0, 1))]%nat.
Proof. vm_compute. reflexivity. Qed.
