(* ===== verification/FileType.v ===== *)
(** * File types

    [get_file_type] of src/common/filetype.h with its checked accessors of ELF files,
    [get_elf_data], [get_elf_span], [get_elf_string], [get_elf_shdrs], and [is_gcc_lto_obj].
    The structures of ELF are the layouts of ElfTypes, read on a little-endian host. The
    theorem says what the classification is and that on any bytes it does not access anything
    outside of the file, except for a truncated Mach-O header. *)

From S2P Require Import Prelude Buffers Results Integers Layout Enums ElfConst ElfTypes Glob.
Local Open Scope list_scope.
Local Open Scope Z_scope.

Inductive FileType :=
| UNKNOWN | EMPTY | ELF_OBJ | ELF_DSO | MACH_OBJ | MACH_EXE | MACH_DYLIB | MACH_BUNDLE | MACH_UNIVERSAL
| AR | THIN_AR | TAPI | TEXT | GCC_LTO_OBJ | LLVM_BITCODE.

#[export] Instance FileType_eq_dec : EqDecision FileType.
Proof. solve_decision. Defined.

(** [isprint] in the C locale. *)
Definition isprint (c : Z) : bool := (32 <=? c) && (c <=? 126).
Definition is_text_file (data : bytes) : bool := (4 <=? zlen data) && forallb isprint (take 4 data).

(** ** Checked accessors *)

Definition get_elf_data (data : bytes) (offset size : Z) : option bytes :=
  if (zlen data <? offset) || (zlen data - offset <? size) then None else slice data offset (offset + size).

(** The structures of a span are at multiples of their size. *)
Definition get_elf_span (l : layout) (data : bytes) (offset size : Z) : option bytes :=
  if negb (size mod Z.of_nat (sizeof l) =? 0) then None else get_elf_data data offset size.

Definition get_elf_string (strtab : bytes) (offset : Z) : option bytes :=
  if zlen strtab <? offset then None else
  let str := drop (Z.to_nat offset) strtab in
  len ← find [0] str; Some (take len str).

(** [*(T * )(data + off)] *)
Definition load_struct (l : layout) (data : bytes) (off : Z) : result (list (string * value)) :=
  b ← accessed (slice data off (off + Z.of_nat (sizeof l)));
  accessed (decode little l b).

Definition member_of (s : list (string * value)) (n : string) : Z :=
  match list_find (fun p => p.1 = n) s with Some (_, (_, VInt x)) => x | _ => 0 end.

Section Elf.
Context (m : machine).
Let Ehdr := ElfEhdr m.
Let Shdr := ElfShdr m.
Let Sym := ElfSym little m.

(** Where the section headers are and how many. *)
Definition get_elf_shdrs (data : bytes) : result (option (Z * Z)) :=
  if zlen data <? Z.of_nat (sizeof Ehdr) then Returns None else
  ehdr ← load_struct Ehdr data 0;
  let shoff := member_of ehdr "e_shoff" in
  if zlen data <? shoff then Returns None else
  let remain := zlen data - shoff in
  if ((member_of ehdr "e_shnum" =? 0) || (member_of ehdr "e_shstrndx" =? constant SHN "SHN_XINDEX")) && (remain <? Z.of_nat (sizeof Shdr)) then Returns None else
  num_sections ← (if negb (member_of ehdr "e_shnum" =? 0) then Returns (member_of ehdr "e_shnum")
                  else sh_begin ← load_struct Shdr data shoff; Returns (member_of sh_begin "sh_size"));
  if remain / Z.of_nat (sizeof Shdr) <? num_sections then Returns None else
  Returns (Some (shoff, num_sections)).

Definition shdr_at (data : bytes) (shdrs : Z * Z) (i : Z) : result (list (string * value)) :=
  load_struct Shdr data (shdrs.1 + i * Z.of_nat (sizeof Shdr)).

Definition skip (type : Z) : bool :=
  (type =? constant STT "STT_NOTYPE") || (type =? constant STT "STT_FILE") || (type =? constant STT "STT_SECTION").

(** [while (i < elf_syms->size() && skip(elf_syms[i].st_type)) i++;] *)
Fixpoint skip_syms (fuel : nat) (syms : bytes) (i : Z) : result Z :=
  match fuel with
  | O => Returns i
  | S fuel =>
      if i <? zlen syms / Z.of_nat (sizeof Sym) then
        sym ← load_struct Sym syms (i * Z.of_nat (sizeof Sym));
        if skip (member_of sym "st_type") then skip_syms fuel syms (i + 1) else Returns i
      else Returns i
  end.

(** The symbol table of a section: whether the first symbol that is not skipped is a
    common symbol of GCC, [None] where the accessors fail. *)
Definition lto_symbol (data : bytes) (shdrs : Z * Z) (sec : list (string * value)) : result bool :=
  match get_elf_span Sym data (member_of sec "sh_offset") (member_of sec "sh_size") with
  | None => Returns false
  | Some syms =>
      let n := zlen syms / Z.of_nat (sizeof Sym) in
      i ← skip_syms (Z.to_nat n) syms 1;
      if negb (i <? n) then Returns false else
      sym ← load_struct Sym syms (i * Z.of_nat (sizeof Sym));
      if negb (member_of sym "st_shndx" =? constant SHN "SHN_COMMON") then Returns false else
      if shdrs.2 <=? member_of sec "sh_link" then Returns false else
      str ← shdr_at data shdrs (member_of sec "sh_link");
      match get_elf_data data (member_of str "sh_offset") (member_of str "sh_size") with
      | None => Returns false
      | Some strtab =>
          match get_elf_string strtab (member_of sym "st_name") with
          | None => Returns false
          | Some name => Returns (starts_with name (bs "__gnu_lto_"))
          end
      end
  end.

(** The loop over the sections; [plugin] is [!ctx.arg.plugin.empty()]. *)
Fixpoint scan_sections (plugin : bool) (data shstrtab : bytes) (shdrs : Z * Z) (n : nat) (k : Z) : result bool :=
  match n with
  | O => Returns false
  | S n =>
      sec ← shdr_at data shdrs k;
      let rest :=
        if negb (member_of sec "sh_type" =? constant SHT "SHT_SYMTAB") then scan_sections plugin data shstrtab shdrs n (k + 1)
        else lto_symbol data shdrs sec in
      if plugin then
        match get_elf_string shstrtab (member_of sec "sh_name") with
        | None => Returns false
        | Some name => if starts_with name (bs ".gnu.lto_.symtab.") then Returns true else rest
        end
      else rest
  end.

Definition is_gcc_lto_obj (plugin : bool) (data : bytes) : result bool :=
  if zlen data <? Z.of_nat (sizeof Ehdr) then Returns false else
  ehdr ← load_struct Ehdr data 0;
  r ← get_elf_shdrs data;
  match r with
  | None => Returns false
  | Some shdrs =>
      shstrtab_idx ← (if member_of ehdr "e_shstrndx" =? constant SHN "SHN_XINDEX"
                      then s ← shdr_at data shdrs 0; Returns (member_of s "sh_link")
                      else Returns (member_of ehdr "e_shstrndx"));
      if shdrs.2 <=? shstrtab_idx then Returns false else
      str ← shdr_at data shdrs shstrtab_idx;
      match get_elf_data data (member_of str "sh_offset") (member_of str "sh_size") with
      | None => Returns false
      | Some shstrtab => scan_sections plugin data shstrtab shdrs (Z.to_nat shdrs.2) 0
      end
  end.
End Elf.

(** ** Classification *)

Definition ident (data : bytes) (i : Z) : result Z := accessed (read_le 1 data i).

Definition elf_type (plugin : bool) (data : bytes) (m32 m64 : machine) : result FileType :=
  ehdr ← load_struct (ElfEhdr m32) data 0;
  if member_of ehdr "e_type" =? constant ET "ET_REL" then
    class ← ident data (constant EI "EI_CLASS");
    lto ← (if class =? constant ELFCLASS "ELFCLASS32" then is_gcc_lto_obj m32 plugin data else is_gcc_lto_obj m64 plugin data);
    Returns (if lto : bool then GCC_LTO_OBJ else ELF_OBJ)
  else if member_of ehdr "e_type" =? constant ET "ET_DYN" then Returns ELF_DSO
  else Returns UNKNOWN.

Definition get_file_type (plugin : bool) (data : bytes) : result FileType :=
  if bool_decide (data = []) then Returns EMPTY else
  if starts_with data (127 :: bs "ELF") then
    _ ← check (negb (zlen data <? Z.of_nat (sizeof (ElfEhdr I386))));
    byte_order ← ident data (constant EI "EI_DATA");
    if byte_order =? constant ELFDATA "ELFDATA2LSB" then elf_type plugin data I386 X86_64 else elf_type plugin data M68K SPARC64
  else if starts_with data [0xcf; 0xfa; 0xed; 0xfe] then
    filetype ← accessed (read_le 4 data 12);
    Returns (if filetype =? 1 then MACH_OBJ else if filetype =? 2 then MACH_EXE else if filetype =? 6 then MACH_DYLIB
             else if filetype =? 8 then MACH_BUNDLE else UNKNOWN)
  else if starts_with data (bs "!<arch>" ++ [10]) then Returns AR
  else if starts_with data (bs "!<thin>" ++ [10]) then Returns THIN_AR
  else if starts_with data (bs "--- !tapi-tbd") then Returns TAPI
  else if starts_with data [0xca; 0xfe; 0xba; 0xbe] then Returns MACH_UNIVERSAL
  else if is_text_file data then Returns TEXT
  else if starts_with data [0xde; 0xc0; 0x17; 0x0b] then Returns LLVM_BITCODE
  else if starts_with data (bs "BC" ++ [0xc0; 0xde]) then Returns LLVM_BITCODE
  else Returns UNKNOWN.

(** ** Structures are read inside of the file *)

(** A member that holds an unsigned number or bytes. *)
Definition readable (mb : member) : Prop :=
  match mb with MInt _ f => f ∈ typedefs /\ it_signed (if_type f) = false | MBytes _ _ => True | MBits _ l => Forall (fun p => 0 <= p.2) l end.

Definition nonnegative (s : list (string * value)) : Prop := Forall (fun p => match p.2 with VInt x => 0 <= x | VBytes _ => True end) s.

Lemma decode_readable l b : Forall readable l -> all_bytes b -> length b = sizeof l -> exists s, decode little l b = Some s /\ nonnegative s.
Proof.
  intros Hl. revert b. induction Hl as [|mb l Hm Hl IH]; intros b Hb Hlen; [by exists []; split; [|constructor]|].
  simpl. change (sizeof (mb :: l)) with (member_size mb + sizeof l)%nat in Hlen. rewrite decide_True by lia.
  destruct (IH (drop (member_size mb) b)) as (s' & -> & Hs'); [by apply Forall_drop|rewrite length_drop; lia|].
  assert (exists s, decode_member little mb (take (member_size mb) b) = Some s /\ nonnegative s) as (s & -> & Hs).
  { assert (Hb' : all_bytes (take (member_size mb) b)) by (by apply Forall_take). destruct mb as [n f|n k|u k]; simpl in *.
    - destruct Hm as [Hf Ht]. rewrite (read_int_spec little f _ Hf Hb') by (rewrite length_take; lia). eexists. split; [reflexivity|].
      repeat constructor. simpl. unfold spec_read. set (x := le_load _). 
      unfold it_conv. rewrite Ht. apply wrap_range. unfold it_bits. lia.
    - eexists. split; [reflexivity|]. by repeat constructor.
    - eexists. split; [reflexivity|]. generalize (le_load (take u b)). induction Hm as [|[n w] k Hw _ IHk]; intros x; [constructor|].
      simpl. destruct n; [|apply IHk]. constructor; [|apply IHk]. simpl. exact (proj1 (wrap_range _ x Hw)). }
  eexists. split; [reflexivity|]. by apply Forall_app.
Qed.

Lemma member_nonneg s n : nonnegative s -> 0 <= member_of s n.
Proof.
  intros Hs. unfold member_of. destruct (list_find _ s) as [[i [n' v]]|] eqn:E; [|done]. apply list_find_Some in E as (E & _ & _).
  apply (Forall_lookup_1 _ _ _ _ Hs) in E. destruct v; [exact E|done].
Qed.

#[local] Arguments sizeof : simpl never.

Section ElfSafe.
Context (m : machine).

Lemma word_readable n : readable (MInt n (Word m)) /\ readable (MInt n (U32 m)) /\ readable (MInt n (U16 m)) /\ readable (MInt n (U64 m)).
Proof. unfold Word, U64, U32, U16, readable. destruct (is_le _), (is_64 _); repeat split; cbn; set_solver. Qed.

Lemma sym_bits_readable : readable (sym_info little) /\ readable (sym_other little m).
Proof. split; [|destruct m]; cbn; repeat (apply Forall_cons; split); try apply Forall_nil; simpl; lia || done. Qed.

#[local] Opaque readable.

Lemma structs_readable : Forall readable (ElfEhdr m) /\ Forall readable (ElfShdr m) /\ Forall readable (ElfSym little m).
Proof.
  split; [|split].
  - repeat (apply Forall_cons; split); try apply word_readable; done.
  - repeat (apply Forall_cons; split); try apply word_readable; done.
  - assert (forall n, readable (MInt n ul16) /\ readable (MInt n ul32) /\ readable (MInt n ul64)) as Hu by (intros n; repeat split; cbn; set_solver).
    unfold ElfSym, ElfSym_special, ElfSym64, ElfSym32. pose proof sym_bits_readable as [H1 H2]. pose proof word_readable as Hw.
    assert (Forall readable [MInt "st_name" ul32; sym_info little; sym_other little m; MInt "st_shndx" ul16; MInt "st_value" ul64; MInt "st_size" ul64])
      by (repeat (apply Forall_cons; split); try apply Hu; try assumption; apply Forall_nil; done).
    destruct m; try done; destruct (is_64 _); repeat (apply Forall_cons; split); try apply Hw; try assumption; apply Forall_nil; done.
Qed.

Lemma load_struct_defined l data off : Forall readable l -> all_bytes data -> 0 <= off -> off + Z.of_nat (sizeof l) <= zlen data ->
  succeeds nonnegative (load_struct l data off).
Proof.
  intros Hl Hd H1 H2. unfold load_struct. rewrite (slice_some _ _ _ H1) by lia. simpl.
  destruct (decode_readable l (window data off (off + Z.of_nat (sizeof l)))) as (s & -> & Hs); [done|by apply window_all| |done].
  pose proof (length_window data off (off + Z.of_nat (sizeof l)) H1 ltac:(lia) H2) as E. unfold zlen in E. lia.
Qed.

Lemma get_elf_data_all data offset size b : all_bytes data -> 0 <= offset -> 0 <= size -> get_elf_data data offset size = Some b -> all_bytes b.
Proof.
  intros Hd H1 H2. unfold get_elf_data. destruct (Z.ltb_spec (zlen data) offset); [done|]. destruct (Z.ltb_spec (zlen data - offset) size); [done|].
  simpl. rewrite slice_some by lia. intros [= <-]. by apply window_all.
Qed.

Lemma sizes_pos : 0 < Z.of_nat (sizeof (ElfShdr m)) /\ 0 < Z.of_nat (sizeof (ElfSym little m)).
Proof. destruct m; vm_compute; done. Qed.

Abbreviation no_error := (succeeds (fun _ => True)).

(** The headers of the span are in the file. *)
Record shdrs_in (data : bytes) (shdrs : Z * Z) : Prop := {
  si_from : 0 <= shdrs.1;
  si_count : 0 <= shdrs.2;
  si_to : shdrs.1 + shdrs.2 * Z.of_nat (sizeof (ElfShdr m)) <= zlen data }.

Lemma shdr_at_defined data shdrs i : all_bytes data -> shdrs_in data shdrs -> 0 <= i < shdrs.2 -> succeeds nonnegative (shdr_at m data shdrs i).
Proof.
  intros Hd [H1 H2 H3] Hi. pose proof sizes_pos as [Hp _]. apply load_struct_defined; [apply structs_readable|done|nia|nia].
Qed.

Lemma get_elf_shdrs_defined data ehdr : all_bytes data -> load_struct (ElfEhdr m) data 0 = Returns ehdr -> nonnegative ehdr ->
  succeeds (fun r => match r with
    | Some shdrs => shdrs_in data shdrs /\ (member_of ehdr "e_shstrndx" = constant SHN "SHN_XINDEX" -> succeeds nonnegative (shdr_at m data shdrs 0))
    | None => True end) (get_elf_shdrs m data).
Proof.
  intros Hd He Hn. unfold get_elf_shdrs. case_bool; [done|]. rewrite He. simpl. pose proof (member_nonneg _ "e_shoff" Hn) as H0. case_bool; [done|].
  destruct (((_ =? _) || _) && _) eqn:Eg; [done|]. apply andb_false_iff in Eg. pose proof sizes_pos as [Hp _].
  assert (Hsh : member_of ehdr "e_shnum" = 0 \/ member_of ehdr "e_shstrndx" = constant SHN "SHN_XINDEX" -> Z.of_nat (sizeof (ElfShdr m)) <= zlen data - member_of ehdr "e_shoff").
  { intros Hc. destruct Eg as [Eg|Eg]; [|lia]. apply orb_false_iff in Eg as [E1 E2]. lia. }
  apply (outcome_bind _ (fun x => 0 <= x)).
  - destruct (Z.eqb_spec (member_of ehdr "e_shnum") 0) as [E0|_]; simpl; [|by apply member_nonneg].
    eapply outcome_bind; [apply (load_struct_defined (ElfShdr m) data (member_of ehdr "e_shoff")); [apply structs_readable|done|done|lia]|].
    intros s Hs. by apply member_nonneg.
  - intros num Hnum. case_bool; [done|]. split.
    + split; [done|done|]. cbn [fst snd]. pose proof (Z.mul_div_le (zlen data - member_of ehdr "e_shoff") _ Hp). nia.
    + intros Hx. apply load_struct_defined; [apply structs_readable|done|simpl; lia|]. cbn [fst]. lia.
Qed.

Lemma skip_syms_defined fuel syms i : all_bytes syms -> 0 <= i -> succeeds (fun j => i <= j) (skip_syms m fuel syms i).
Proof.
  intros Hs. revert i. induction fuel as [|fuel IH]; intros i Hi; simpl; [lia|]. case_bool; [|simpl; lia]. pose proof sizes_pos as [_ Hp].
  pose proof (Z.mul_div_le (zlen syms) _ Hp).
  eapply outcome_bind; [apply (load_struct_defined (ElfSym little m)); [apply structs_readable|done|nia|nia]|].
  intros sym _. case_bool; [|simpl; lia]. eapply outcome_impl; [apply IH; lia|]. simpl. lia.
Qed.

Lemma lto_symbol_defined data shdrs sec : all_bytes data -> shdrs_in data shdrs -> nonnegative sec -> no_error (lto_symbol m data shdrs sec).
Proof.
  intros Hd Hi Hs. unfold lto_symbol, get_elf_span. destruct (negb _) eqn:Em; [done|].
  destruct (get_elf_data _ _ _) as [syms|] eqn:Eg; [|done]. apply get_elf_data_all in Eg; try done; try by apply member_nonneg.
  eapply outcome_bind; [by apply skip_syms_defined|]. intros i Hi1. simpl in Hi1. destruct (Z.ltb_spec i (zlen syms / Z.of_nat (sizeof (ElfSym little m)))); [|done]. simpl.
  pose proof sizes_pos as [_ Hp]. pose proof (Z.mul_div_le (zlen syms) _ Hp).
  eapply outcome_bind; [apply (load_struct_defined (ElfSym little m)); [apply structs_readable|done|nia|nia]|]. intros sym _.
  case_bool; [done|]. case_bool; [done|]. eapply outcome_bind.
  - apply shdr_at_defined; [done|done|]. split; [by apply member_nonneg|lia].
  - intros str _. destruct (get_elf_data _ _ _); [|done]. by destruct (get_elf_string _ _).
Qed.

Lemma scan_sections_defined plugin data shstrtab shdrs n k : all_bytes data -> shdrs_in data shdrs -> 0 <= k -> k + Z.of_nat n <= shdrs.2 ->
  no_error (scan_sections m plugin data shstrtab shdrs n k).
Proof.
  intros Hd Hi. revert k. induction n as [|n IH]; intros k Hk Hn; [done|]. cbn [scan_sections].
  eapply outcome_bind; [apply shdr_at_defined; [done|done|lia]|]. intros sec Hs.
  assert (Hr : no_error (if negb (member_of sec "sh_type" =? constant SHT "SHT_SYMTAB") then scan_sections m plugin data shstrtab shdrs n (k + 1) else lto_symbol m data shdrs sec)).
  { destruct (negb _); [apply IH; lia|by apply lto_symbol_defined]. }
  cbv zeta. destruct plugin; [|done]. destruct (get_elf_string _ _); [|done]. by destruct (starts_with _ _).
Qed.

Lemma is_gcc_lto_obj_defined plugin data : all_bytes data -> no_error (is_gcc_lto_obj m plugin data).
Proof.
  intros Hd. unfold is_gcc_lto_obj. case_bool; [done|].
  pose proof (load_struct_defined (ElfEhdr m) data 0 (proj1 structs_readable) Hd ltac:(lia) ltac:(lia)) as He.
  destruct (load_struct _ _ _) as [ehdr| |] eqn:Ee; [|done..]. change (nonnegative ehdr) in He. cbn [mbind result_bind].
  eapply outcome_bind; [by apply (get_elf_shdrs_defined data ehdr)|]. intros [shdrs|] Hsh; [|done]. destruct Hsh as [Hi Hx].
  apply (outcome_bind _ (fun x => 0 <= x)).
  - destruct (Z.eqb_spec (member_of ehdr "e_shstrndx") (constant SHN "SHN_XINDEX")); [|by apply member_nonneg].
    eapply outcome_bind; [by apply Hx|]. intros s Hs. by apply member_nonneg.
  - intros idx Hidx. case_bool; [done|]. eapply outcome_bind; [apply shdr_at_defined; [done|done|lia]|].
    intros str _. destruct (get_elf_data _ _ _); [|done]. apply scan_sections_defined; [done|done|done|]. destruct Hi. lia.
Qed.
End ElfSafe.

(** ** The classification *)

(** Neither side of two equivalences holds. *)
Ltac neither := split; split; [discriminate|let H := fresh in intros [H _]; discriminate H|discriminate|let H := fresh in intros [H _]; discriminate H].

Lemma elf_type_defined plugin data m32 m64 : all_bytes data -> Z.of_nat (sizeof (ElfEhdr m32)) <= zlen data -> 52 <= zlen data ->
  succeeds (fun _ => True) (elf_type plugin data m32 m64).
Proof.
  intros Hd H1 H2. unfold elf_type. eapply outcome_bind; [apply load_struct_defined; [apply structs_readable|done|lia|lia]|]. intros ehdr _.
  case_bool; [|by case_bool]. apply (outcome_bind _ (fun _ => True)).
  { unfold ident, read_le. replace (in_buf 1 data _) with true; [done|]. symmetry. apply in_buf_true. change (constant EI "EI_CLASS") with 4. lia. }
  intros class _. apply (outcome_bind _ (fun _ => True)); [|done]. case_bool; by apply is_gcc_lto_obj_defined.
Qed.

(** on any bytes [get_file_type] ends without an access outside of the file, except when
    the file has the magic number of Mach-O but not the 16 bytes up to its type; it reports
    a file that is too small exactly for an ELF magic number in less than 52 bytes. *)
Theorem get_file_type_defined plugin data : all_bytes data ->
  (get_file_type plugin data = Undefined <-> starts_with data [0xcf; 0xfa; 0xed; 0xfe] = true /\ zlen data < 16) /\
  (get_file_type plugin data = Fatal <-> starts_with data (127 :: bs "ELF") = true /\ zlen data < 52).
Proof.
  intros Hd. unfold get_file_type. destruct data as [|c data0]; [neither|]. set (data := c :: data0) in *. rewrite bool_decide_false by done.
  destruct (starts_with data (127 :: bs "ELF")) eqn:E1.
  - assert (starts_with data [0xcf; 0xfa; 0xed; 0xfe] = false) as ->.
    { revert E1. unfold data. cbn [starts_with]. destruct (Z.eqb_spec 127 c) as [<-|]; done. }
    change (Z.of_nat (sizeof (ElfEhdr I386))) with 52. destruct (Z.ltb_spec (zlen data) 52) as [Hl|Hl]; simpl; [split; split; try done; intros []; done|].
    assert (Hs : succeeds (fun _ => True) (byte_order ← ident data (constant EI "EI_DATA");
      if byte_order =? constant ELFDATA "ELFDATA2LSB" then elf_type plugin data I386 X86_64 else elf_type plugin data M68K SPARC64)).
    { apply (outcome_bind _ (fun _ => True)).
      - unfold ident, read_le. replace (in_buf 1 data _) with true; [done|]. symmetry. apply in_buf_true. change (constant EI "EI_DATA") with 5. lia.
      - intros b _. case_bool; apply elf_type_defined; done. }
    destruct (_ ≫= _); simpl in Hs; try done. split; split; try done; intros []; try done. lia.
  - destruct (starts_with data [0xcf; 0xfa; 0xed; 0xfe]) eqn:E2.
    + unfold read_le. destruct (in_buf 4 data 12) eqn:Eb; simpl.
      * apply in_buf_true in Eb. split; split; try done; intros []; try done. lia.
      * split; split; try done; [|intros []; done]. intros _. split; [done|]. apply Z.nle_gt. intros Hz.
        assert (in_buf 4 data 12 = true) by (apply in_buf_true; lia). congruence.
    + repeat (case_bool; [neither|]). neither.
Qed.

Lemma get_file_type_defined_witness :
  get_file_type false (bs "!<arch>" ++ [10]) = Returns AR /\
  (get_file_type false [0xcf; 0xfa; 0xed; 0xfe] = Undefined <-> starts_with [0xcf; 0xfa; 0xed; 0xfe] [0xcf; 0xfa; 0xed; 0xfe] = true /\ zlen [0xcf; 0xfa; 0xed; 0xfe] < 16) /\
  (get_file_type false [0xcf; 0xfa; 0xed; 0xfe] = Fatal <-> starts_with [0xcf; 0xfa; 0xed; 0xfe] (127 :: bs "ELF") = true /\ zlen [0xcf; 0xfa; 0xed; 0xfe] < 52).
Proof.
  split; [vm_compute; reflexivity|]. apply (get_file_type_defined false [0xcf; 0xfa; 0xed; 0xfe]). decided.
Defined.
