(* ===== verification/Archive.v ===== *)
(** * Archives

    The readers of .a files (src/common/archive-file.h): [parse_ar_num], the accessors of
    [ArHdr] with [read_name], [read_fat_archive_members], [read_thin_archive_members],
    [parse_darwin_archive_symtab] and [read_archive_file], with [MappedFile::slice]. The
    specification is a writer of archives as ar produces them, with short names, names in
    the string table of System V and names in front of the contents as in BSD. The theorems
    say that every reader inverts the writer, that on arbitrary bytes the reader of regular
    archives ends without an access outside of the file, and that the reader of thin
    archives, whose loop does not advance past a member, never returns one. *)

From S2P Require Import Prelude Buffers Results FileType Glob.
Local Open Scope list_scope.
Local Open Scope Z_scope.

(** ** Numbers *)

(** [while (!str.empty() && str.back() == ' ') str.remove_suffix(1);] *)
Fixpoint skip_spaces (l : bytes) : bytes :=
  match l with c :: l' => if c =? 32 then skip_spaces l' else l | [] => [] end.
Definition strip (str : bytes) : bytes := reverse (skip_spaces (reverse str)).

Fixpoint ar_digits (str : bytes) (val : Z) : option Z :=
  match str with
  | [] => Some val
  | c :: str => if (c <? 48) || (57 <? c) then None
                else if (UINT64_MAX - (c - 48)) / 10 <? val then None
                else ar_digits str (u64 (val * 10 + (c - 48)))
  end.

Definition parse_ar_num (str : bytes) : option Z :=
  let str := strip str in if bool_decide (str = []) then None else ar_digits str 0.

(** ** Headers *)

Record ArHdr := {
  ar_name : bytes;
  ar_date : bytes;
  ar_uid : bytes;
  ar_gid : bytes;
  ar_mode : bytes;
  ar_size : bytes;
  ar_fmag : bytes }.

(** The cast [*(ArHdr * )data] of 60 bytes. *)
Definition load_hdr (l : bytes) : ArHdr :=
  {| ar_name := window l 0 16; ar_date := window l 16 28; ar_uid := window l 28 34; ar_gid := window l 34 40;
     ar_mode := window l 40 48; ar_size := window l 48 58; ar_fmag := window l 58 60 |}.

Definition hdr_starts_with (h : ArHdr) (s : string) : bool := starts_with (ar_name h) (bs s).
Definition is_strtab (h : ArHdr) : bool := hdr_starts_with h "// ".
Definition is_symtab (h : ArHdr) : bool := hdr_starts_with h "/ " || hdr_starts_with h "/SYM64/ ".
Definition has_valid_fmag (h : ArHdr) : bool := bool_decide (ar_fmag h = [96; 10]).
Definition get_size (h : ArHdr) : option Z := parse_ar_num (ar_size h).

Definition get_bsd_name_len (h : ArHdr) : option Z :=
  if hdr_starts_with h "#1/" then parse_ar_num (drop 3 (ar_name h)) else None.
Definition get_sysv_name_offset (h : ArHdr) : option Z :=
  if hdr_starts_with h "/" then parse_ar_num (drop 1 (ar_name h)) else None.

(** [if (size_t pos = name.find('\0'); pos != npos) name = name.substr(0, pos);] *)
Definition until (s name : bytes) : bytes := match find s name with Some pos => take pos name | None => name end.

(** The name with the number of bytes that it takes of the body. *)
Definition read_name (h : ArHdr) (strtab body : bytes) : option (bytes * Z) :=
  if hdr_starts_with h "#1/" then
    namelen ← get_bsd_name_len h;
    if zlen body <? namelen then None
    else Some (until [0] (take (Z.to_nat namelen) body), namelen)
  else if hdr_starts_with h "/" then
    offset ← get_sysv_name_offset h;
    if zlen strtab <=? offset then None
    else let name := drop (Z.to_nat offset) strtab in
         pos ← find (bs "/" ++ [10]) name; Some (take pos name, 0)
  else Some (until (bs "/") (ar_name h), 0).

Definition is_darwin_symtab_name (name : bytes) : bool :=
  bool_decide (name ∈ map bs ["__.SYMDEF"; "__.SYMDEF SORTED"; "__.SYMDEF_64"; "__.SYMDEF_64 SORTED"]).
Definition is_darwin_symtab_64 (name : bytes) : bool := bool_decide (name ∈ map bs ["__.SYMDEF_64"; "__.SYMDEF_64 SORTED"]).

(** ** Reading members *)

(** [if ((data - begin) % 2) data++;] *)
Definition align2 (data : Z) : Z := if data mod 2 =? 0 then data else data + 1.

(** The header at [data], where its body begins, and its size. *)
Definition read_header (contents : bytes) (data : Z) : result (ArHdr * Z * Z) :=
  let end_ := zlen contents in
  _ ← check (60 <=? end_ - data);
  l ← accessed (slice contents data (data + 60));
  let hdr := load_hdr l in
  _ ← check (has_valid_fmag hdr);
  let body := data + 60 in
  size ← required (get_size hdr);
  _ ← check (size <=? end_ - body);
  Returns (hdr, body, size).

(** [MappedFile::slice]: a member is a part of the archive. *)
Record child := { c_name : bytes; c_start : Z; c_size : Z }.

Record reader (M : Type) := mkReader { r_data : Z; r_strtab : bytes; r_vec : list M }.
Arguments mkReader {M}.
Arguments r_data {M}.
Arguments r_strtab {M}.
Arguments r_vec {M}.

Section Fat.
Context (contents : bytes).

Definition fat_step (s : reader child) : result (reader child + list child) :=
  if negb (r_data s <? zlen contents) then Returns (inr (r_vec s)) else
  let data := align2 (r_data s) in
  if data =? zlen contents then Returns (inr (r_vec s)) else
  '(hdr, body, size) ← read_header contents data;
  view ← accessed (slice contents body (body + size));
  let data := body + size in
  if is_strtab hdr then Returns (inl (mkReader data view (r_vec s))) else
  if is_symtab hdr then Returns (inl (mkReader data (r_strtab s) (r_vec s))) else
  '(name, name_size) ← required (read_name hdr (r_strtab s) view);
  _ ← check (name_size <=? size);
  if is_darwin_symtab_name name then Returns (inl (mkReader data (r_strtab s) (r_vec s))) else
  Returns (inl (mkReader data (r_strtab s) (r_vec s ++ [{| c_name := name; c_start := body + name_size; c_size := size - name_size |}]))).

Definition read_fat_archive_members (fuel : nat) : option (result (list child)) := loop fat_step fuel (mkReader 8 [] []).
End Fat.

(** ** Thin archives

    [std::filesystem] on POSIX names: [parent_path] and [operator/] with a relative name. *)

Fixpoint skip_while (p : Z -> bool) (l : bytes) : bytes :=
  match l with c :: l' => if p c then skip_while p l' else l | [] => [] end.

Definition parent_path (path : bytes) : bytes :=
  let dir := reverse (skip_while (fun c => negb (c =? 47)) (reverse path)) in
  let stripped := reverse (skip_while (Z.eqb 47) (reverse dir)) in
  if bool_decide (stripped = []) then dir else stripped.

Definition join_path (dir name : bytes) : bytes :=
  match last dir with
  | None => name
  | Some c => if c =? 47 then dir ++ name else dir ++ [47] ++ name
  end.

Definition member_path (mf_name name : bytes) : bytes :=
  if starts_with name (bs "/") then name else join_path (parent_path mf_name) name.

(** [opens] says which paths the system can open; [MappedFile::must_open] fails on others. *)
Section Thin.
Context (opens : bytes -> bool) (mf_name contents : bytes).

Definition thin_step (s : reader bytes) : result (reader bytes + list bytes) :=
  if negb (r_data s <? zlen contents) then Returns (inr (r_vec s)) else
  let data := align2 (r_data s) in
  if data =? zlen contents then Returns (inr (r_vec s)) else
  '(hdr, body, size) ← read_header contents data;
  view ← accessed (slice contents body (body + size));
  if is_strtab hdr then Returns (inl (mkReader (body + size) view (r_vec s))) else
  if is_symtab hdr then Returns (inl (mkReader (body + size) (r_strtab s) (r_vec s))) else
  _ ← check (hdr_starts_with hdr "#1/" || hdr_starts_with hdr "/");
  '(name, name_size) ← required (read_name hdr (r_strtab s) view);
  if is_darwin_symtab_name name then Returns (inl (mkReader (body + size) (r_strtab s) (r_vec s))) else
  let path := member_path mf_name name in
  _ ← check (opens path);
  Returns (inl (mkReader data (r_strtab s) (r_vec s ++ [path]))).

Definition read_thin_archive_members (fuel : nat) : option (result (list bytes)) := loop thin_step fuel (mkReader 8 [] []).
End Thin.

(** ** The table of contents of Darwin *)

Record ArchiveSymbolInfo := { a_name : bytes; member_idx : Z }.
Inductive ArchiveIndexStatus := OK | NO_DARWIN_SYMTAB | EMPTY_DARWIN_SYMTAB.

Record ArchiveMemberInfo := mkMember {
  m_name : bytes;
  m_path : bytes;
  header_offset : Z;
  data_offset : Z;
  data_size : Z;
  m_is_thin : bool }.

(** [read_u32] and [read_u64] on a little-endian host. *)
Definition read_word (n : nat) (buf : bytes) : result Z :=
  if zlen buf <? Z.of_nat n then Fatal else Returns (le_load (take n buf)).

(** [member_map.emplace] keeps the first member at an offset. *)
Definition member_map (members : list ArchiveMemberInfo) : gmap Z Z :=
  foldr (fun m g => <[(header_offset m.2) := m.1]> g) ∅ (zip (seqZ 0 (zlen members)) members).

(** [data.remove_prefix(n)] and [data.substr(n)] for [n] at most its size, as after every
    use of [read_word]. *)
Definition remove_prefix (n : Z) (data : bytes) : bytes := drop (Z.to_nat n) data.

Fixpoint read_ranlibs (w : nat) (mmap : gmap Z Z) (strtab : bytes) (n : nat) (ranlib_data : bytes) (symbols : list ArchiveSymbolInfo) : result (list ArchiveSymbolInfo) :=
  match n with
  | O => Returns symbols
  | S n =>
      strx ← read_word w ranlib_data;
      off ← read_word w (remove_prefix (Z.of_nat w) ranlib_data);
      let ranlib_data := remove_prefix (2 * Z.of_nat w) ranlib_data in
      _ ← check (strx <? zlen strtab);
      let symname := remove_prefix strx strtab in
      len ← required (find [0] symname);
      idx ← required (mmap !! off);
      read_ranlibs w mmap strtab n ranlib_data (symbols ++ [{| a_name := take len symname; member_idx := idx |}])
  end.

Definition parse_darwin_archive_symtab (members : list ArchiveMemberInfo) (name data : bytes) : result (list ArchiveSymbolInfo) :=
  let w := if is_darwin_symtab_64 name then 8%nat else 4%nat in
  let ent_size := 2 * Z.of_nat w in
  ranlib_bytes ← read_word w data;
  let data := remove_prefix (Z.of_nat w) data in
  _ ← check (negb (negb (ranlib_bytes mod ent_size =? 0) || (zlen data <? ranlib_bytes)));
  let ranlib_data := take (Z.to_nat ranlib_bytes) data in
  let data := remove_prefix ranlib_bytes data in
  strtab_bytes ← read_word w data;
  let data := remove_prefix (Z.of_nat w) data in
  _ ← check (strtab_bytes <=? zlen data);
  read_ranlibs w (member_map members) (take (Z.to_nat strtab_bytes) data) (Z.to_nat (ranlib_bytes / ent_size)) ranlib_data [].

(** ** Reading an archive with its table of contents *)

Record indexer := mkIndexer { x_data : Z; x_strtab : bytes; symtab_name : bytes; symtab_data : bytes; x_members : list ArchiveMemberInfo }.

Section Index.
Context (mf_name contents : bytes) (is_thin : bool).

Definition index_step (s : indexer) : result (indexer + indexer) :=
  if negb (x_data s <? zlen contents) then Returns (inr s) else
  let header_offset := align2 (x_data s) in
  if header_offset =? zlen contents then Returns (inr s) else
  '(hdr, body, size) ← read_header contents header_offset;
  view ← accessed (slice contents body (body + size));
  let data := body + size in
  if is_strtab hdr then Returns (inl (mkIndexer data view (symtab_name s) (symtab_data s) (x_members s))) else
  if is_symtab hdr then Returns (inl (mkIndexer data (x_strtab s) (symtab_name s) (symtab_data s) (x_members s))) else
  '(name, name_size) ← required (read_name hdr (x_strtab s) view);
  _ ← check (name_size <=? size);
  if is_darwin_symtab_name name then
    Returns (inl (mkIndexer data (x_strtab s) name (remove_prefix name_size view) (x_members s)))
  else
  let member := if is_thin then mkMember name (member_path mf_name name) header_offset 0 0 true
                else mkMember name [] header_offset (body + name_size) (size - name_size) false in
  Returns (inl (mkIndexer data (x_strtab s) (symtab_name s) (symtab_data s) (x_members s ++ [member]))).

(** The status with the members and symbols. *)
Definition finish_index (s : indexer) : result (ArchiveIndexStatus * option (list ArchiveMemberInfo * list ArchiveSymbolInfo)) :=
  if bool_decide (symtab_name s = []) then Returns (NO_DARWIN_SYMTAB, None) else
  symbols ← parse_darwin_archive_symtab (x_members s) (symtab_name s) (symtab_data s);
  Returns (if bool_decide (symbols = []) then EMPTY_DARWIN_SYMTAB else OK, Some (x_members s, symbols)).

Definition index_members (fuel : nat) : option (result (ArchiveIndexStatus * option (list ArchiveMemberInfo * list ArchiveSymbolInfo))) :=
  r ← loop index_step fuel (mkIndexer 8 [] [] [] []);
  Some (r ≫= finish_index).
End Index.

Definition read_archive_file (plugin : bool) (mf_name contents : bytes) (fuel : nat) : option (result (ArchiveIndexStatus * option (list ArchiveMemberInfo * list ArchiveSymbolInfo))) :=
  match get_file_type plugin contents with
  | Returns t => index_members mf_name contents (bool_decide (t = THIN_AR)) fuel
  | Fatal => Some Fatal
  | Undefined => Some Undefined
  end.

(** [ArchiveFileInfo::get_member]: a path to open or a part of the archive. *)
Definition get_member (members : list ArchiveMemberInfo) (idx : nat) : option (bytes + child) :=
  member ← members !! idx;
  Some (if m_is_thin member then inl (m_path member)
        else inr {| c_name := m_name member; c_start := data_offset member; c_size := data_size member |}).

Definition read_archive_members (plugin : bool) (opens : bytes -> bool) (mf_name contents : bytes) (fuel : nat) : option (result (list (bytes + child))) :=
  match get_file_type plugin contents with
  | Returns AR => r ← read_fat_archive_members contents fuel; Some (r ≫= fun vec => Returns (map inr vec))
  | Returns THIN_AR => r ← read_thin_archive_members opens mf_name contents fuel; Some (r ≫= fun vec => Returns (map inl vec))
  | Returns _ | Undefined => Some Undefined
  | Fatal => Some Fatal
  end.

(** ** The readers stay inside of the file *)

Lemma ar_digits_nonneg str val n : 0 <= val -> ar_digits str val = Some n -> 0 <= n.
Proof.
  revert val. induction str as [|c str IH]; intros val Hv; simpl; [by intros [= <-]|].
  destruct (_ || _); [done|]. destruct (_ <? _); [done|]. apply IH. apply (wrap_range 64). lia.
Qed.

Lemma parse_ar_num_nonneg str n : parse_ar_num str = Some n -> 0 <= n.
Proof. unfold parse_ar_num. case_bool_decide; [done|]. by apply ar_digits_nonneg. Qed.

Lemma align2_spec d : d <= align2 d <= d + 1 /\ align2 d mod 2 = 0.
Proof. unfold align2. case_bool; dlia. Qed.

Lemma read_header_defined contents data : 0 <= data ->
  defined (fun r => r.1.2 = data + 60 /\ 0 <= r.2 /\ data + 60 + r.2 <= zlen contents) (read_header contents data).
Proof.
  intros Hd. unfold read_header. cbv zeta. eapply outcome_bind; [apply defined_check|]. intros _ H1%Z.leb_le.
  rewrite slice_some by lia. simpl. eapply outcome_bind; [apply defined_check|]. intros _ _.
  eapply outcome_bind; [apply (defined_required (fun n => 0 <= n)); apply parse_ar_num_nonneg|]. intros size Hs.
  eapply outcome_bind; [apply defined_check|]. intros _ H2%Z.leb_le. simpl in *. lia.
Qed.

Lemma read_name_size h strtab body name n : read_name h strtab body = Some (name, n) -> 0 <= n.
Proof.
  unfold read_name. destruct (hdr_starts_with h "#1/").
  - destruct (get_bsd_name_len h) as [k|] eqn:E; [|done]. simpl. destruct (_ <? _); [done|]. intros [= _ <-].
    unfold get_bsd_name_len in E. destruct (hdr_starts_with _ _); [by apply parse_ar_num_nonneg in E|done].
  - destruct (hdr_starts_with h "/"); [|by intros [= _ <-]]. destruct (get_sysv_name_offset h); [|done]. simpl.
    destruct (_ <=? _); [done|]. destruct (find _ _); [|done]. by intros [= _ <-].
Qed.

(** A member that is a part of the archive. *)
Definition child_in (contents : bytes) (c : child) : Prop := 0 <= c_start c /\ 0 <= c_size c /\ c_start c + c_size c <= zlen contents.

Definition remaining (contents : bytes) (data : Z) : nat := Z.to_nat (zlen contents - data).

Lemma fat_step_defined contents s : 0 <= r_data s -> Forall (child_in contents) (r_vec s) ->
  defined (fun r => match r with
    | inl s' => (0 <= r_data s' /\ Forall (child_in contents) (r_vec s')) /\ (remaining contents (r_data s') < remaining contents (r_data s))%nat
    | inr vec => Forall (child_in contents) vec end) (fat_step contents s).
Proof.
  intros Hd Hv. unfold fat_step. destruct (Z.ltb_spec (r_data s) (zlen contents)) as [Hlt|]; [|done]. cbn [negb].
  pose proof (align2_spec (r_data s)) as [Ha _]. case_bool; [done|].
  eapply outcome_bind; [apply read_header_defined; lia|]. intros [[hdr body] size] (Hb & Hs & Hle). cbn [fst snd] in *. subst body.
  rewrite slice_some by lia. cbn [accessed mbind result_bind].
  assert (Hm : (remaining contents (align2 (r_data s) + 60 + size) < remaining contents (r_data s))%nat) by (unfold remaining; lia).
  destruct (is_strtab hdr); [simpl; split; [split; [lia|done]|done]|]. destruct (is_symtab hdr); [simpl; split; [split; [lia|done]|done]|].
  eapply outcome_bind; [apply (defined_required (fun p => 0 <= p.2)); intros [nm k]; apply read_name_size|]. intros [name k] Hk. cbn [snd] in Hk.
  eapply outcome_bind; [apply defined_check|]. intros _ Hc%Z.leb_le.
  destruct (is_darwin_symtab_name name); simpl; (split; [split; [lia|]|done]); [done|].
  apply Forall_app. split; [done|]. apply Forall_singleton. split; [simpl; lia|]. split; simpl; lia.
Qed.

(** What the table of contents promises: a member for every symbol. *)
Definition symbol_in (members : list ArchiveMemberInfo) (y : ArchiveSymbolInfo) : Prop := 0 <= member_idx y < zlen members.

Definition member_in (contents : bytes) (m : ArchiveMemberInfo) : Prop :=
  m_is_thin m = true \/ (0 <= data_offset m /\ 0 <= data_size m /\ data_offset m + data_size m <= zlen contents).

Lemma index_step_defined mf_name contents is_thin s : 0 <= x_data s -> Forall (member_in contents) (x_members s) ->
  defined (fun r => match r with
    | inl s' => (0 <= x_data s' /\ Forall (member_in contents) (x_members s')) /\ (remaining contents (x_data s') < remaining contents (x_data s))%nat
    | inr s' => Forall (member_in contents) (x_members s') end) (index_step mf_name contents is_thin s).
Proof.
  intros Hd Hv. unfold index_step. destruct (Z.ltb_spec (x_data s) (zlen contents)) as [Hlt|]; [|done]. cbn [negb].
  pose proof (align2_spec (x_data s)) as [Ha _]. case_bool; [done|].
  eapply outcome_bind; [apply read_header_defined; lia|]. intros [[hdr body] size] (Hb & Hs & Hle). cbn [fst snd] in *. subst body.
  rewrite slice_some by lia. cbn [accessed mbind result_bind].
  assert (Hm : (remaining contents (align2 (x_data s) + 60 + size) < remaining contents (x_data s))%nat) by (unfold remaining; lia).
  destruct (is_strtab hdr); [simpl; split; [split; [lia|done]|done]|]. destruct (is_symtab hdr); [simpl; split; [split; [lia|done]|done]|].
  eapply outcome_bind; [apply (defined_required (fun p => 0 <= p.2)); intros [nm k]; apply read_name_size|]. intros [name k] Hk. cbn [snd] in Hk.
  eapply outcome_bind; [apply defined_check|]. intros _ Hc%Z.leb_le.
  destruct (is_darwin_symtab_name name); simpl; (split; [split; [lia|]|done]); [done|].
  apply Forall_app. split; [done|]. apply Forall_singleton. destruct is_thin; [by left|right]. simpl. lia.
Qed.

Lemma member_map_in members off idx : member_map members !! off = Some idx ->
  0 <= idx < zlen members /\ exists m, members !! Z.to_nat idx = Some m /\ header_offset m = off.
Proof.
  unfold member_map, zlen. intros H.
  assert (G : exists m, (idx, m) ∈ zip (seqZ 0 (Z.of_nat (length members))) members /\ header_offset m = off).
  { revert H. generalize (zip (seqZ 0 (Z.of_nat (length members))) members). intros l. induction l as [|[i m] l IH]; simpl; [done|].
    rewrite lookup_insert_Some. intros [[E1 E2]|[_ H]].
    - subst. exists m. split; [left|done].
    - destruct (IH H) as (m' & Hm & E). exists m'. split; [by right|done]. }
  destruct G as (m & Hm & E). apply list_elem_of_lookup in Hm as [j Hj]. apply lookup_zip_with_Some in Hj as (a & b & Eq & Ha & Hb).
  injection Eq as <- <-. apply lookup_seqZ in Ha as [-> Hj]. split; [lia|]. exists m. split; [|done]. replace (Z.to_nat (0 + Z.of_nat j)) with j by lia. done.
Qed.

Lemma read_ranlibs_defined members w strtab n data symbols : Forall (symbol_in members) symbols ->
  defined (Forall (symbol_in members)) (read_ranlibs w (member_map members) strtab n data symbols).
Proof.
  revert data symbols. induction n as [|n IH]; intros data symbols Hs; [done|]. cbn [read_ranlibs].
  assert (Hw : forall d, defined (fun _ => True) (read_word w d)) by (intros d; unfold read_word; by case_bool).
  eapply outcome_bind; [apply Hw|]. intros strx _. eapply outcome_bind; [apply Hw|]. intros off _. cbv zeta.
  eapply outcome_bind; [apply defined_check|]. intros _ _. eapply outcome_bind; [by apply (defined_required (fun _ => True))|]. intros len _.
  eapply outcome_bind; [apply (defined_required (fun idx => 0 <= idx < zlen members)); intros idx E; by apply member_map_in in E as [? _]|].
  intros idx Hidx. apply IH. apply Forall_app. split; [done|]. by apply Forall_singleton.
Qed.

Lemma finish_index_defined contents s : Forall (member_in contents) (x_members s) ->
  defined (fun r => match r.2 with Some (members, symbols) => Forall (member_in contents) members /\ Forall (symbol_in members) symbols | None => r.1 = NO_DARWIN_SYMTAB end) (finish_index s).
Proof.
  intros Hv. unfold finish_index. case_bool_decide; [done|]. eapply (outcome_bind _ (Forall (symbol_in (x_members s)))); [|by intros symbols Hs].
  assert (Hw : forall w d, defined (fun _ => True) (read_word w d)) by (intros w d; unfold read_word; by case_bool).
  unfold parse_darwin_archive_symtab. eapply outcome_bind; [apply Hw|]. intros rb _. cbv zeta. eapply outcome_bind; [apply defined_check|]. intros _ _.
  eapply outcome_bind; [apply Hw|]. intros sb _. eapply outcome_bind; [apply defined_check|]. intros _ _. by apply read_ranlibs_defined.
Qed.

(** C19: on any bytes the readers of regular archives end within as many rounds as there are
    bytes and never access anything outside of the file: they report a corrupted archive, or
    all members are parts of the file and all symbols belong to a member. *)
Theorem archive_readers_safe plugin mf_name contents t : get_file_type plugin contents = Returns t ->
  let fuel := S (length contents) in
  (exists r, read_fat_archive_members contents fuel = Some r /\ defined (Forall (child_in contents)) r) /\
  (exists r, read_archive_file plugin mf_name contents fuel = Some r /\
     defined (fun r => match r.2 with Some (members, symbols) => Forall (member_in contents) members /\ Forall (symbol_in members) symbols
                       | None => r.1 = NO_DARWIN_SYMTAB end) r).
Proof.
  intros Ht fuel. assert (Hf : (remaining contents 8 < fuel)%nat) by (unfold remaining, fuel, zlen; lia). split.
  - apply (loop_defined _ (fun s => 0 <= r_data s /\ Forall (child_in contents) (r_vec s)) _ (fun s => remaining contents (r_data s))).
    + intros s [H1 H2]. by apply fat_step_defined.
    + by split.
    + done.
  - unfold read_archive_file. rewrite Ht. unfold index_members.
    destruct (loop_defined (index_step mf_name contents (bool_decide (t = THIN_AR))) (fun s => 0 <= x_data s /\ Forall (member_in contents) (x_members s))
      (fun s => Forall (member_in contents) (x_members s)) (fun s => remaining contents (x_data s))) with (n := fuel) (s := mkIndexer 8 [] [] [] []) as (r & -> & Hr).
    + intros s [H1 H2]. by apply index_step_defined.
    + by split.
    + done.
    + eexists. split; [reflexivity|]. eapply outcome_bind; [exact Hr|]. intros s. by apply finish_index_defined.
Qed.

(** ** Thin archives are never read *)

Lemma thin_step_vec opens mf_name contents s :
  match thin_step opens mf_name contents s with
  | Returns (inr vec) => vec = r_vec s
  | Returns (inl s') => r_vec s' = r_vec s \/ forall v, exists v', thin_step opens mf_name contents (mkReader (r_data s') (r_strtab s') v) = Returns (inl (mkReader (r_data s') (r_strtab s') v'))
  | _ => True
  end.
Proof.
  unfold thin_step at 1. destruct (Z.ltb_spec (r_data s) (zlen contents)) as [Hlt|]; [|done]. cbn [negb]. 
  pose proof (align2_spec (r_data s)) as [Ha Hp]. destruct (Z.eqb_spec (align2 (r_data s)) (zlen contents)); [done|].
  destruct (read_header contents (align2 (r_data s))) as [[[hdr body] size]| |] eqn:Eh; [|done..]. cbn [mbind result_bind].
  destruct (accessed (slice contents body (body + size))) as [view| |] eqn:Ev; [|done..]. cbn [mbind result_bind].
  destruct (is_strtab hdr) eqn:E1; [by left|]. destruct (is_symtab hdr) eqn:E2; [by left|].
  destruct (hdr_starts_with hdr "#1/" || hdr_starts_with hdr "/") eqn:E3; [|done]. cbn [check mbind result_bind].
  destruct (read_name hdr (r_strtab s) view) as [[name k]|] eqn:E4; [|done]. cbn [required mbind result_bind].
  destruct (is_darwin_symtab_name name) eqn:E5; [by left|]. destruct (opens (member_path mf_name name)) eqn:E6; [|done]. cbn [check mbind result_bind r_vec r_data r_strtab].
  right. intros v. eexists. unfold thin_step. cbn [r_data r_strtab r_vec]. destruct (Z.ltb_spec (align2 (r_data s)) (zlen contents)); [|lia]. cbn [negb].
  assert (align2 (align2 (r_data s)) = align2 (r_data s)) as Hi. { revert Hp. generalize (align2 (r_data s)). intros x Hx. unfold align2. by rewrite Hx. }
  rewrite Hi. destruct (Z.eqb_spec (align2 (r_data s)) (zlen contents)); [done|]. rewrite Eh. cbn [mbind result_bind]. rewrite Ev. cbn [mbind result_bind].
  rewrite E1, E2, E3. cbn [check mbind result_bind]. rewrite E4. cbn [required mbind result_bind]. rewrite E5, E6. reflexivity.
Qed.

(** Once a step repeats whatever has been collected, the loop does not end. *)
Lemma thin_stuck opens mf_name contents d st :
  (forall v, exists v', thin_step opens mf_name contents (mkReader d st v) = Returns (inl (mkReader d st v'))) ->
  forall fuel v, loop (thin_step opens mf_name contents) fuel (mkReader d st v) = None.
Proof.
  intros H. induction fuel as [|fuel IH]; intros v; [done|]. simpl. destruct (H v) as [v' ->]. apply IH.
Qed.

Lemma thin_loop_vec opens mf_name contents fuel s vec : loop (thin_step opens mf_name contents) fuel s = Some (Returns vec) -> vec = r_vec s.
Proof.
  revert s. induction fuel as [|fuel IH]; intros s; [done|]. simpl. pose proof (thin_step_vec opens mf_name contents s) as Hs.
  destruct (thin_step opens mf_name contents s) as [[s'|vec']| |]; [|by intros [= <-]|done..].
  destruct s' as [d st v]. simpl in Hs. destruct Hs as [E|H]; [intros ->%IH; exact E|]. by rewrite thin_stuck.
Qed.

(** ** The format

    A specification of archives as ar writes them. Numbers are decimal and fields are padded
    with spaces. *)

Fixpoint dec (fuel : nat) (n : Z) : bytes :=
  match fuel with O => [] | S fuel => (if n <? 10 then [] else dec fuel (n / 10)) ++ [48 + n mod 10] end.
Definition decimal (n : Z) : bytes := dec 20 n.
Definition padded (w : nat) (s : bytes) : bytes := s ++ replicate (w - length s) 32.

(** A header with the given name field; [meta] is the date, the owner and the mode. *)
Definition ar_header (name meta : bytes) (size : Z) : bytes := padded 16 name ++ meta ++ padded 10 (decimal size) ++ [96; 10].
Definition even_pad (l : bytes) : bytes := if zlen l mod 2 =? 0 then l else l ++ [10].
Definition write_member (meta name body : bytes) : bytes := ar_header name meta (zlen body) ++ even_pad body.

(** The three ways to store a name. *)
Inductive entry :=
| Short (name data : bytes)
| Sysv (name data : bytes)
| Bsd (name : bytes) (pad : nat) (data : bytes).

Definition entry_name (e : entry) : bytes := match e with Short n _ | Sysv n _ | Bsd n _ _ => n end.
Definition entry_data (e : entry) : bytes := match e with Short _ d | Sysv _ d | Bsd _ _ d => d end.
Definition entry_body (e : entry) : bytes := match e with Short _ d | Sysv _ d => d | Bsd n p d => n ++ replicate p 0 ++ d end.
Definition prefix_len (e : entry) : Z := match e with Bsd n p _ => zlen n + Z.of_nat p | _ => 0 end.

(** What an entry adds to the string table, and its name field when the table is [k] long. *)
Definition entry_strings (e : entry) : bytes := match e with Sysv n _ => n ++ [47; 10] | _ => [] end.
Definition entry_field (k : Z) (e : entry) : bytes :=
  match e with
  | Short n _ => n ++ [47]
  | Sysv _ _ => 47 :: decimal k
  | Bsd n p _ => [35; 49; 47] ++ decimal (zlen n + Z.of_nat p)
  end.

Fixpoint write_entries (meta : bytes) (k : Z) (l : list entry) : bytes :=
  match l with
  | [] => []
  | e :: l => write_member meta (entry_field k e) (entry_body e) ++ write_entries meta (k + zlen (entry_strings e)) l
  end.

Definition string_table (l : list entry) : bytes := concat (map entry_strings l).
Definition optional (meta name : bytes) (body : option bytes) : bytes := match body with Some b => write_member meta name b | None => [] end.

(** The tables that precede the members: the symbol table of System V, the table of contents
    of Darwin (an entry of its own), the string table. *)
Definition before_members (meta : bytes) (symtab : option bytes) (toc : option entry) (l : list entry) : bytes :=
  bs "!<arch>" ++ [10] ++ optional meta [47] symtab ++ match toc with Some e => write_entries meta 0 [e] | None => [] end ++
  (if bool_decide (string_table l = []) then [] else write_member meta [47; 47] (string_table l)).
Definition archive (meta : bytes) (symtab : option bytes) (toc : option entry) (l : list entry) : bytes :=
  before_members meta symtab toc l ++ write_entries meta 0 l.

(** Names that the three ways can store. A short name [#1] would read as a BSD name. *)
Definition storable (e : entry) : Prop :=
  match e with
  | Short n _ => n <> [] /\ n <> [35; 49] /\ (length n < 16)%nat /\ 47 ∉ n
  | Sysv n _ => forall a b, n <> (a ++ [47; 10] ++ b)
  | Bsd n p _ => (0 ∉ n) /\ zlen n + Z.of_nat p < 10 ^ 13
  end.

Record entry_ok (e : entry) : Prop := {
  eo_storable : storable e;
  eo_size : zlen (entry_body e) < 10 ^ 10 }.

Definition meta_ok (meta : bytes) : Prop := length meta = 32%nat.

(** *** Numbers *)

Lemma ar_digits_app a b v : ar_digits (a ++ b) v = ar_digits a v ≫= ar_digits b.
Proof.
  revert v. induction a as [|c a IH]; intros v; [done|]. simpl. destruct (_ || _); [done|]. destruct (_ <? _); [done|]. apply IH.
Qed.

Lemma ar_digits_dec k n : 0 <= n < 2 ^ 64 -> n < 10 ^ Z.of_nat k -> ar_digits (dec k n) 0 = Some n.
Proof.
  revert n. induction k as [|k IH]; intros n Hn Hk; [simpl in Hk; simpl; f_equal; lia|].
  rewrite Nat2Z.inj_succ, Z.pow_succ_r in Hk by lia. cbn [dec]. rewrite ar_digits_app.
  assert (E : ar_digits (if n <? 10 then [] else dec k (n / 10)) 0 = Some (n / 10)).
  { destruct (Z.ltb_spec n 10); [simpl; f_equal; symmetry; apply Z.div_small; lia|]. apply IH; [|apply Z.div_lt_upper_bound; lia].
    split; [apply Z.div_pos; lia|]. eapply Z.le_lt_trans; [apply Z.div_le_upper_bound with (q := n); lia|lia]. }
  rewrite E. cbn [mbind option_bind ar_digits]. pose proof (Z.mod_pos_bound n 10 ltac:(lia)). pose proof (Z.div_mod n 10 ltac:(lia)).
  destruct (Z.ltb_spec (48 + n mod 10) 48); [lia|]. destruct (Z.ltb_spec 57 (48 + n mod 10)); [lia|]. cbn [orb].
  replace (48 + n mod 10 - 48) with (n mod 10) by lia.
  destruct (Z.ltb_spec ((UINT64_MAX - n mod 10) / 10) (n / 10)) as [Hlt|_].
  - exfalso. apply Z.lt_nge in Hlt. apply Hlt. apply Z.div_le_lower_bound; [lia|]. unfold UINT64_MAX. lia.
  - f_equal. transitivity (u64 n); [f_equal; lia|]. by apply wrap_small.
Qed.

Lemma dec_last k n : 0 <= n -> (0 < k)%nat -> exists l c, dec k n = l ++ [c] /\ c <> 32.
Proof. intros Hn Hk. destruct k as [|k]; [lia|]. cbn [dec]. eexists _, _. split; [reflexivity|]. pose proof (Z.mod_pos_bound n 10). lia. Qed.

Lemma skip_spaces_replicate n l : skip_spaces (replicate n 32 ++ l) = skip_spaces l.
Proof. induction n; simpl; auto. Qed.

Lemma strip_padded s l c : s = l ++ [c] -> c <> 32 -> forall n, strip (s ++ replicate n 32) = s.
Proof.
  intros -> Hc n. unfold strip. rewrite reverse_app, reverse_replicate, skip_spaces_replicate, reverse_app. simpl.
  destruct (Z.eqb_spec c 32); [done|]. by rewrite reverse_cons, reverse_involutive.
Qed.

Lemma parse_decimal n k : 0 <= n < 2 ^ 64 -> parse_ar_num (decimal n ++ replicate k 32) = Some n.
Proof.
  intros Hn. unfold parse_ar_num, decimal. destruct (dec_last 20 n) as (l & c & E & Hc); [lia|lia|].
  rewrite (strip_padded _ _ _ E Hc). rewrite bool_decide_false; [apply ar_digits_dec; [done|]|rewrite E; by destruct l].
  eapply Z.lt_le_trans; [apply Hn|]. vm_compute. discriminate.
Qed.

Lemma length_dec k n m : 0 <= n < 10 ^ Z.of_nat m -> (0 < m)%nat -> (length (dec k n) <= m)%nat.
Proof.
  revert n m. induction k as [|k IH]; intros n m Hn Hm; [simpl; lia|]. cbn [dec]. rewrite length_app. cbn [length].
  destruct (Z.ltb_spec n 10); [simpl; lia|]. destruct m as [|[|m]]; [lia|simpl in Hn; lia|]. rewrite Nat2Z.inj_succ, Z.pow_succ_r in Hn by lia.
  assert (Hd : 0 <= n / 10 < 10 ^ Z.of_nat (S m)) by (split; [apply Z.div_pos; lia|apply Z.div_lt_upper_bound; lia]).
  specialize (IH (n / 10) (S m) Hd). lia.
Qed.

(** *** Headers and members *)

Lemma length_padded w s : (length s <= w)%nat -> length (padded w s) = w.
Proof. intros. unfold padded. rewrite length_app, length_replicate. lia. Qed.

Lemma window_app_at a b c n : zlen b = n -> window (a ++ b ++ c) (zlen a) (zlen a + n) = b.
Proof.
  intros <-. unfold window, zlen. rewrite Nat2Z.id, drop_app_length. replace (Z.to_nat _) with (length b) by lia. apply take_app_length.
Qed.

Lemma window_at a b c from to : zlen a = from -> zlen b = to - from -> window (a ++ b ++ c) from to = b.
Proof. intros <- Hb. rewrite <- (window_app_at a b c _ eq_refl) at 2. f_equal. lia. Qed.

(** A member at a place of the file. *)
Record field_ok (name meta : bytes) (size : Z) : Prop := {
  fo_name : (length name <= 16)%nat;
  fo_meta : meta_ok meta;
  fo_size : 0 <= size < 10 ^ 10 }.

Lemma length_decimal_size size : 0 <= size < 10 ^ 10 -> (length (decimal size) <= 10)%nat.
Proof. intros H. apply (length_dec 20 size 10); [exact H|lia]. Qed.

Lemma zlen_ar_header name meta size : field_ok name meta size -> zlen (ar_header name meta size) = 60.
Proof.
  intros [H1 H2 H3%length_decimal_size]. unfold zlen, ar_header. rewrite !length_app, !length_padded, H2 by done. done.
Qed.

Lemma load_ar_header name meta size : field_ok name meta size -> let h := load_hdr (ar_header name meta size) in
  ar_name h = padded 16 name /\ get_size h = Some size /\ has_valid_fmag h = true.
Proof.
  intros Hf h. pose proof Hf as [H1 H2 H3]. pose proof (length_decimal_size _ H3) as H4. unfold h, load_hdr, get_size, has_valid_fmag, ar_header. cbn [ar_name ar_size ar_fmag].
  pose proof (length_padded 16 name H1) as L1. pose proof (length_padded 10 _ H4) as L2. unfold meta_ok in H2.
  split; [|split].
  - change (padded 16 name ++ _) with ([] ++ padded 16 name ++ meta ++ padded 10 (decimal size) ++ [96; 10]). apply window_at; [done|]. unfold zlen. lia.
  - rewrite (app_assoc (padded 16 name)). rewrite window_at; [|unfold zlen; rewrite length_app; lia|unfold zlen; lia]. unfold padded. apply parse_decimal. lia.
  - rewrite (app_assoc meta), (app_assoc (padded 16 name)). rewrite <- (app_nil_r [96; 10]). rewrite window_at; [done| |done]. unfold zlen. rewrite !length_app. lia.
Qed.

(** A member starts and ends at even offsets. *)
Lemma zlen_even_pad l : zlen (even_pad l) = align2 (zlen l).
Proof. unfold even_pad, align2. case_bool; [done|]. by rewrite zlen_app. Qed.

Lemma read_header_size pre name meta size tail : field_ok name meta size -> size <= zlen tail ->
  read_header (pre ++ ar_header name meta size ++ tail) (zlen pre) = Returns (load_hdr (ar_header name meta size), zlen pre + 60, size).
Proof.
  intros Hf Ht. pose proof (zlen_ar_header _ _ _ Hf) as Hl. destruct (load_ar_header _ _ _ Hf) as (_ & Hs & Hm). pose proof (fo_size _ _ _ Hf).
  set (contents := pre ++ _). assert (Hz : zlen contents = zlen pre + 60 + zlen tail) by (unfold contents; rewrite !zlen_app, Hl; lia).
  pose proof (zlen_nonneg pre). unfold read_header. cbv zeta. destruct (Z.leb_spec 60 (zlen contents - zlen pre)); [|lia]. cbn [check mbind result_bind].
  rewrite slice_some by lia. cbn [accessed mbind result_bind].
  assert (window contents (zlen pre) (zlen pre + 60) = ar_header name meta size) as -> by (by apply window_app_at).
  rewrite Hm. cbn [check mbind result_bind]. rewrite Hs. cbn [required mbind result_bind].
  destruct (Z.leb_spec size (zlen contents - (zlen pre + 60))); [done|lia].
Qed.

Lemma read_header_at pre name meta body rest : field_ok name meta (zlen body) ->
  read_header (pre ++ write_member meta name body ++ rest) (zlen pre) = Returns (load_hdr (ar_header name meta (zlen body)), zlen pre + 60, zlen body).
Proof.
  intros Hf. unfold write_member. rewrite <- app_assoc. apply read_header_size; [done|]. rewrite zlen_app, zlen_even_pad.
  pose proof (align2_spec (zlen body)). pose proof (zlen_nonneg rest). lia.
Qed.

Lemma slice_body pre name meta body rest : field_ok name meta (zlen body) ->
  slice (pre ++ write_member meta name body ++ rest) (zlen pre + 60) (zlen pre + 60 + zlen body) = Some body.
Proof.
  intros Hf. pose proof (zlen_ar_header _ _ _ Hf) as Hl. pose proof (zlen_nonneg pre). pose proof (zlen_nonneg body).
  assert (E : exists tail, pre ++ write_member meta name body ++ rest = (pre ++ ar_header name meta (zlen body)) ++ body ++ tail).
  { unfold write_member, even_pad. case_bool; eexists; by rewrite <- !app_assoc. }
  destruct E as [tail ->]. rewrite slice_some; [|lia|lia|]; [f_equal; apply window_at; rewrite ?zlen_app; lia|].
  rewrite !zlen_app. pose proof (zlen_nonneg tail). lia.
Qed.

Lemma after_member pre name meta body : field_ok name meta (zlen body) -> zlen pre mod 2 = 0 ->
  align2 (zlen pre + 60 + zlen body) = zlen (pre ++ write_member meta name body) /\ zlen (pre ++ write_member meta name body) mod 2 = 0.
Proof.
  intros Hf Hp. unfold write_member. rewrite !zlen_app, zlen_even_pad, (zlen_ar_header _ _ _ Hf). generalize (zlen body). intros b.
  unfold align2. repeat case_bool; dlia.
Qed.

(** *** Names *)

Lemma find_char_none c n : c ∉ n -> find [c] n = None.
Proof.
  induction n as [|d n IH]; intros Hc; [done|]. cbn [find starts_with]. apply not_elem_of_cons in Hc as [H1 H2].
  destruct (Z.eqb_spec c d); [done|]. cbn [andb]. by rewrite IH.
Qed.

Lemma find_char c n t : c ∉ n -> find [c] (n ++ c :: t) = Some (length n).
Proof.
  induction n as [|d n IH]; intros Hc; cbn [app find starts_with]; [by rewrite Z.eqb_refl|]. apply not_elem_of_cons in Hc as [H1 H2].
  destruct (Z.eqb_spec c d); [done|]. cbn [andb]. by rewrite IH.
Qed.

Lemma find_end n t : (forall a b, n <> (a ++ [47; 10] ++ b)) -> find [47; 10] (n ++ [47; 10] ++ t) = Some (length n).
Proof.
  induction n as [|c n IH]; intros Hn; [done|]. cbn [app find].
  assert (E : starts_with (c :: n ++ [47; 10] ++ t) [47; 10] = false).
  { cbn [starts_with app]. destruct (Z.eqb_spec 47 c) as [<-|]; [|done]. destruct n as [|d n]; cbn [app]; [done|].
    destruct (Z.eqb_spec 10 d) as [<-|]; [|done]. by destruct (Hn [] n). }
  cbn [app] in E. rewrite E. cbn [app] in IH. rewrite IH; [done|]. intros a b E'. apply (Hn (c :: a) b). by rewrite E'.
Qed.

Lemma until_padded n p : 0 ∉ n -> until [0] (n ++ replicate p 0) = n.
Proof.
  intros Hn. unfold until. destruct p as [|p]; [cbn [replicate]; by rewrite app_nil_r, find_char_none|]. cbn [replicate]. rewrite find_char by done. apply take_app_length.
Qed.

Lemma dec_head k n : 0 <= n -> exists c l, dec (S k) n = c :: l /\ 48 <= c <= 57.
Proof.
  revert n. induction k as [|k IH]; intros n Hn.
  - cbn [dec]. exists (48 + n mod 10), []. pose proof (Z.mod_pos_bound n 10). split; [by destruct (_ <? _)|lia].
  - destruct (IH (n / 10)) as (c & l & E & Hc); [apply Z.div_pos; lia|]. cbn [dec] in *. destruct (Z.ltb_spec n 10).
    + exists (48 + n mod 10), []. pose proof (Z.mod_pos_bound n 10). split; [done|lia].
    + rewrite E. by exists c, (l ++ [48 + n mod 10]).
Qed.

Lemma decimal_head n : 0 <= n -> exists c l, decimal n = c :: l /\ 48 <= c <= 57.
Proof. apply dec_head. Qed.

(** The character of a path. *)
Abbreviation slash := (Ascii.ascii_of_nat 47).

(** What a header with the name field of an entry is taken for. *)
Record named (h : ArHdr) (strtab : bytes) (e : entry) : Prop := {
  nd_name : read_name h strtab (entry_body e) = Some (entry_name e, prefix_len e);
  nd_strtab : is_strtab h = false;
  nd_symtab : is_symtab h = false }.

Lemma named_short h strtab n d : storable (Short n d) -> ar_name h = padded 16 (n ++ [47]) -> named h strtab (Short n d).
Proof.
  intros (H1 & H2 & H3 & H4) Hh. unfold padded in Hh. destruct n as [|a n]; [done|].
  assert (Ha : (47 =? a) = false) by (destruct (Z.eqb_spec 47 a) as [<-|]; [destruct H4; left|done]).
  assert (Hb : hdr_starts_with h "#1/" = false).
  { unfold hdr_starts_with. rewrite Hh. change (bs "#1/") with [35; 49; 47]. cbn [app starts_with]. destruct (Z.eqb_spec 35 a) as [<-|]; [|done].
    destruct n as [|b n]; [done|]. cbn [app]. destruct (Z.eqb_spec 49 b) as [<-|]; [|done]. destruct n as [|c n]; [done|]. cbn [app].
    destruct (Z.eqb_spec 47 c) as [<-|]; [|done]. destruct H4. set_solver. }
  assert (Hc : forall t, hdr_starts_with h (String slash t) = false).
  { intros t. unfold hdr_starts_with. rewrite Hh. change (bs (String slash t)) with (47 :: bs t). cbn [app starts_with]. by rewrite Ha. }
  split; unfold is_strtab, is_symtab; rewrite ?Hc; [|done|done].
  unfold read_name. rewrite Hb, Hc, Hh. cbn [entry_body entry_name prefix_len]. do 2 f_equal. unfold until.
  rewrite <- app_assoc. change (bs "/") with [47]. change ([47] ++ ?x) with (47 :: x). rewrite (find_char 47 (a :: n)) by done. apply (take_app_length (a :: n)).
Qed.

Lemma named_sysv h strtab pre post n d : storable (Sysv n d) -> zlen pre < 2 ^ 64 -> strtab = pre ++ (n ++ [47; 10]) ++ post ->
  ar_name h = padded 16 (47 :: decimal (zlen pre)) -> named h strtab (Sysv n d).
Proof.
  intros H1 H2 -> Hh. destruct (decimal_head (zlen pre) (zlen_nonneg _)) as (c & l & E & Hc). unfold padded in Hh. simpl in H1.
  assert (Hd : forall x t, x <> c -> starts_with (ar_name h) (47 :: x :: t) = false).
  { intros x t Hx. rewrite Hh, E. cbn [app starts_with]. destruct (Z.eqb_spec x c); done. }
  split.
  - unfold read_name, hdr_starts_with. rewrite Hh. cbn [app]. change (starts_with (47 :: _) (bs "#1/")) with false. cbn iota.
    change (starts_with (47 :: _) (bs "/")) with true. cbn iota. unfold get_sysv_name_offset, hdr_starts_with. rewrite Hh. cbn [app].
    change (starts_with (47 :: _) (bs "/")) with true. cbn iota. change (drop 1 (47 :: ?x)) with x. rewrite parse_decimal by (split; [apply zlen_nonneg|done]).
    cbn [mbind option_bind]. destruct (Z.leb_spec (zlen (pre ++ (n ++ [47; 10]) ++ post)) (zlen pre)) as [Hle|_].
    { rewrite !zlen_app in Hle. change (zlen [47; 10]) with 2 in Hle. pose proof (zlen_nonneg n). pose proof (zlen_nonneg post). lia. }
    assert (drop (Z.to_nat (zlen pre)) (pre ++ (n ++ [47; 10]) ++ post) = n ++ [47; 10] ++ post) as -> by (unfold zlen; by rewrite Nat2Z.id, drop_app_length, <- app_assoc).
    cbv zeta. change (bs "/" ++ [10]) with [47; 10]. rewrite find_end by done. cbn [mbind option_bind].
    by rewrite take_app_length.
  - unfold is_strtab, hdr_starts_with. apply (Hd 47). lia.
  - unfold is_symtab, hdr_starts_with. apply orb_false_iff. split; [apply (Hd 32)|apply (Hd 83)]; lia.
Qed.

Lemma named_bsd h strtab n p d : storable (Bsd n p d) -> ar_name h = padded 16 ([35; 49; 47] ++ decimal (zlen n + Z.of_nat p)) -> named h strtab (Bsd n p d).
Proof.
  intros [H1 H2] Hh. pose proof (zlen_nonneg n). unfold padded in Hh. rewrite <- app_assoc in Hh.
  assert (Hb : hdr_starts_with h "#1/" = true) by (unfold hdr_starts_with; by rewrite Hh).
  assert (Hs : forall t, hdr_starts_with h (String slash t) = false) by (intros t; unfold hdr_starts_with; by rewrite Hh).
  split; unfold is_strtab, is_symtab; rewrite ?Hs; [|done|done].
  unfold read_name. rewrite Hb. unfold get_bsd_name_len. rewrite Hb, Hh. change (drop 3 ([35; 49; 47] ++ ?x)) with x. rewrite parse_decimal by lia.
  cbn [mbind option_bind entry_body entry_name prefix_len]. rewrite (app_assoc n).
  assert (Hz : zlen (n ++ replicate p 0) = zlen n + Z.of_nat p) by (rewrite zlen_app; unfold zlen; rewrite length_replicate; lia).
  rewrite zlen_app, Hz. pose proof (zlen_nonneg d). destruct (Z.ltb_spec (zlen n + Z.of_nat p + zlen d) (zlen n + Z.of_nat p)); [lia|].
  rewrite <- Hz. unfold zlen. rewrite Nat2Z.id, take_app_length. by rewrite until_padded.
Qed.

(** An entry whose strings are at [zlen pre] of the string table. *)
Lemma named_entry h strtab pre post e : storable e -> zlen pre < 2 ^ 64 -> strtab = pre ++ entry_strings e ++ post \/ entry_strings e = [] ->
  ar_name h = padded 16 (entry_field (zlen pre) e) -> named h strtab e.
Proof.
  intros Hs Hp Ht Hh. destruct e as [n d|n d|n p d].
  - by apply named_short.
  - destruct Ht as [Ht|Ht]; [by apply (named_sysv _ _ pre post)|]. exfalso. simpl in Ht. by destruct n.
  - by apply named_bsd.
Qed.

Lemma entry_field_ok meta k e : meta_ok meta -> entry_ok e -> 0 <= k < 10 ^ 15 -> field_ok (entry_field k e) meta (zlen (entry_body e)).
Proof.
  intros Hm [H1 H2] Hk. split; [|done|pose proof (zlen_nonneg (entry_body e)); lia]. destruct e as [n d|n d|n p d]; simpl in H1; cbn [entry_field].
  - rewrite length_app. simpl. lia.
  - pose proof (length_dec 20 k 15 Hk ltac:(lia)). unfold decimal. cbn [length]. lia.
  - pose proof (zlen_nonneg n). pose proof (length_dec 20 (zlen n + Z.of_nat p) 13 ltac:(lia) ltac:(lia)). unfold decimal. rewrite length_app. cbn [length]. lia.
Qed.

(** *** Reading what was written *)

(** The reader is at a member. *)
Record at_member (contents : bytes) (d : Z) (pre name meta body rest : bytes) : Prop := {
  am_contents : contents = pre ++ write_member meta name body ++ rest;
  am_align : align2 d = zlen pre;
  am_field : field_ok name meta (zlen body) }.

Lemma zlen_write_member meta name body : field_ok name meta (zlen body) -> zlen (write_member meta name body) = 60 + align2 (zlen body).
Proof. intros Hf. unfold write_member. by rewrite zlen_app, zlen_even_pad, (zlen_ar_header _ _ _ Hf). Qed.

Lemma at_member_reads contents d pre name meta body rest : at_member contents d pre name meta body rest ->
  (d <? zlen contents) = true /\ (zlen pre =? zlen contents) = false /\
  read_header contents (zlen pre) = Returns (load_hdr (ar_header name meta (zlen body)), zlen pre + 60, zlen body) /\
  slice contents (zlen pre + 60) (zlen pre + 60 + zlen body) = Some body.
Proof.
  intros [-> Ha Hf]. pose proof (zlen_write_member _ _ _ Hf) as Hl. pose proof (align2_spec d) as [Hd _]. pose proof (align2_spec (zlen body)) as [Hb _].
  pose proof (zlen_nonneg body). pose proof (zlen_nonneg rest). rewrite !zlen_app, Hl.
  split; [apply Z.ltb_lt; lia|]. split; [apply Z.eqb_neq; lia|]. split; [by apply read_header_at|by apply slice_body].
Qed.

Definition next_data (pre body : bytes) : Z := zlen pre + 60 + zlen body.

Section Reads.
Context (contents : bytes) (d : Z) (pre name meta body rest : bytes) (H : at_member contents d pre name meta body rest).
Let h := load_hdr (ar_header name meta (zlen body)).

Lemma fat_reads strtab vec : fat_step contents (mkReader d strtab vec) =
  if is_strtab h then Returns (inl (mkReader (next_data pre body) body vec)) else
  if is_symtab h then Returns (inl (mkReader (next_data pre body) strtab vec)) else
  '(name, name_size) ← required (read_name h strtab body);
  _ ← check (name_size <=? zlen body);
  if is_darwin_symtab_name name then Returns (inl (mkReader (next_data pre body) strtab vec)) else
  Returns (inl (mkReader (next_data pre body) strtab (vec ++ [{| c_name := name; c_start := zlen pre + 60 + name_size; c_size := zlen body - name_size |}]))).
Proof.
  destruct (at_member_reads _ _ _ _ _ _ _ H) as (E1 & E2 & E3 & E4). unfold fat_step. cbn [r_data r_strtab r_vec].
  rewrite E1, (am_align _ _ _ _ _ _ _ H), E2, E3. cbn [negb mbind result_bind]. rewrite E4. reflexivity.
Qed.

Lemma index_reads mf_name strtab sname sdata ms : index_step mf_name contents false (mkIndexer d strtab sname sdata ms) =
  if is_strtab h then Returns (inl (mkIndexer (next_data pre body) body sname sdata ms)) else
  if is_symtab h then Returns (inl (mkIndexer (next_data pre body) strtab sname sdata ms)) else
  '(name, name_size) ← required (read_name h strtab body);
  _ ← check (name_size <=? zlen body);
  if is_darwin_symtab_name name then Returns (inl (mkIndexer (next_data pre body) strtab name (remove_prefix name_size body) ms)) else
  Returns (inl (mkIndexer (next_data pre body) strtab sname sdata (ms ++ [mkMember name [] (zlen pre) (zlen pre + 60 + name_size) (zlen body - name_size) false]))).
Proof.
  destruct (at_member_reads _ _ _ _ _ _ _ H) as (E1 & E2 & E3 & E4). unfold index_step. cbn [x_data x_strtab symtab_name symtab_data x_members].
  rewrite E1, (am_align _ _ _ _ _ _ _ H), E2, E3. cbn [negb mbind result_bind]. rewrite E4. reflexivity.
Qed.
End Reads.

(** Where the headers of the members are. *)
Fixpoint places (start : Z) (l : list entry) : list Z :=
  match l with [] => [] | e :: l => start :: places (start + 60 + align2 (zlen (entry_body e))) l end.

Definition child_of (h : Z) (e : entry) : child := {| c_name := entry_name e; c_start := h + 60 + prefix_len e; c_size := zlen (entry_data e) |}.
Definition info_of (h : Z) (e : entry) : ArchiveMemberInfo := mkMember (entry_name e) [] h (h + 60 + prefix_len e) (zlen (entry_data e)) false.

Lemma entry_sizes e : 0 <= prefix_len e /\ zlen (entry_body e) = prefix_len e + zlen (entry_data e).
Proof.
  destruct e as [n d|n d|n p d]; cbn [prefix_len entry_body entry_data]; [split; lia|split; lia|]. pose proof (zlen_nonneg n).
  split; [lia|]. rewrite !zlen_app. unfold zlen. rewrite length_replicate. lia.
Qed.

(** Members as the two readers see them: neither a table, nor a table of contents of Darwin. *)
Record member_ok (e : entry) : Prop := {
  mo_entry : entry_ok e;
  mo_name : is_darwin_symtab_name (entry_name e) = false }.

Lemma at_end d n : align2 d = n -> d <= n.
Proof. pose proof (align2_spec d). lia. Qed.

Section Entries.
Context (contents meta : bytes) (Hmeta : meta_ok meta).

(** The readers before the members [l], whose strings begin at [zlen strs] of the table. *)
Record before (d : Z) (pre strs strtab : bytes) (l : list entry) : Prop := {
  bf_contents : contents = pre ++ write_entries meta (zlen strs) l;
  bf_align : align2 d = zlen pre;
  bf_even : zlen pre mod 2 = 0;
  bf_strtab : strtab = strs ++ string_table l;
  bf_size : zlen strtab < 10 ^ 15 }.

Lemma before_cons d pre strs strtab e l : before d pre strs strtab (e :: l) -> entry_ok e ->
  at_member contents d pre (entry_field (zlen strs) e) meta (entry_body e) (write_entries meta (zlen strs + zlen (entry_strings e)) l) /\
  named (load_hdr (ar_header (entry_field (zlen strs) e) meta (zlen (entry_body e)))) strtab e /\
  zlen (pre ++ write_member meta (entry_field (zlen strs) e) (entry_body e)) = zlen pre + 60 + align2 (zlen (entry_body e)) /\
  before (next_data pre (entry_body e)) (pre ++ write_member meta (entry_field (zlen strs) e) (entry_body e)) (strs ++ entry_strings e) strtab l.
Proof.
  intros [B1 B2 B3 B4 B5] He. assert (Hk : 0 <= zlen strs < 10 ^ 15).
  { split; [apply zlen_nonneg|]. subst strtab. rewrite zlen_app in B5. pose proof (zlen_nonneg (string_table (e :: l))). lia. }
  pose proof (entry_field_ok meta (zlen strs) e Hmeta He Hk) as Hf. destruct (after_member pre _ _ _ Hf B3) as [A1 A2].
  split; [|split; [|split]].
  - split; [exact B1|done|done].
  - apply (named_entry _ _ strs (string_table l)); [apply He|lia|left; subst strtab; done|]. by destruct (load_ar_header _ _ _ Hf).
  - rewrite zlen_app, (zlen_write_member _ _ _ Hf). lia.
  - split; [|done|done| |done].
    + rewrite B1. cbn [write_entries]. by rewrite zlen_app, <- !app_assoc.
    + subst strtab. unfold string_table. cbn [map concat]. by rewrite <- app_assoc.
Qed.

Lemma before_nil d pre strs strtab : before d pre strs strtab [] -> align2 d = zlen contents.
Proof. intros [-> E _ _ _]. cbn [write_entries]. by rewrite app_nil_r. Qed.

Lemma fat_entries l : forall d pre strs strtab vec n, before d pre strs strtab l -> Forall member_ok l -> (length l < n)%nat ->
  loop (fat_step contents) n (mkReader d strtab vec) = Some (Returns (vec ++ zip_with child_of (places (zlen pre) l) l)).
Proof.
  induction l as [|e l IH]; intros d pre strs strtab vec n Hb Hl Hn; (destruct n as [|n]; [simpl in Hn; lia|]).
  - apply before_nil in Hb. cbn [loop]. unfold fat_step. cbn [r_data r_vec]. rewrite Hb, Z.eqb_refl. cbn [places zip_with]. rewrite app_nil_r. by destruct (negb _).
  - inversion_clear Hl as [|? ? [He Hd] Hl']. destruct (before_cons _ _ _ _ _ _ Hb He) as (A & [N1 N2 N3] & Z & B).
    cbn [loop]. rewrite (fat_reads _ _ _ _ _ _ _ A), N2, N3, N1. cbn [required mbind result_bind].
    pose proof (entry_sizes e) as [S1 S2]. pose proof (zlen_nonneg (entry_data e)). destruct (Z.leb_spec (prefix_len e) (zlen (entry_body e))); [|lia].
    cbn [check mbind result_bind]. rewrite Hd. rewrite (IH _ _ _ _ _ n B Hl') by (simpl in Hn; lia). rewrite <- app_assoc. do 3 f_equal.
    cbn [places zip_with app]. rewrite Z. unfold child_of at 2. do 2 f_equal. lia.
Qed.

Lemma index_entries mf_name l : forall d pre strs strtab sname sdata ms n, before d pre strs strtab l -> Forall member_ok l -> (length l < n)%nat ->
  exists d' strtab', loop (index_step mf_name contents false) n (mkIndexer d strtab sname sdata ms) =
    Some (Returns (mkIndexer d' strtab' sname sdata (ms ++ zip_with info_of (places (zlen pre) l) l))).
Proof.
  induction l as [|e l IH]; intros d pre strs strtab sname sdata ms n Hb Hl Hn; (destruct n as [|n]; [simpl in Hn; lia|]).
  - apply before_nil in Hb. exists d, strtab. cbn [loop]. unfold index_step. cbn [x_data x_strtab symtab_name symtab_data x_members]. rewrite Hb, Z.eqb_refl.
    cbn [places zip_with]. rewrite app_nil_r. by destruct (negb _).
  - inversion_clear Hl as [|? ? [He Hd] Hl']. destruct (before_cons _ _ _ _ _ _ Hb He) as (A & [N1 N2 N3] & Z & B).
    cbn [loop]. rewrite (index_reads _ _ _ _ _ _ _ A), N2, N3, N1. cbn [required mbind result_bind].
    pose proof (entry_sizes e) as [S1 S2]. pose proof (zlen_nonneg (entry_data e)). destruct (Z.leb_spec (prefix_len e) (zlen (entry_body e))); [|lia].
    cbn [check mbind result_bind]. rewrite Hd.
    edestruct (IH (next_data pre (entry_body e))) as (d' & strtab' & E); [exact B|done|simpl in Hn; apply Nat.succ_lt_mono, Hn|].
    exists d', strtab'. rewrite E. rewrite <- app_assoc. do 4 f_equal.
    cbn [places zip_with app]. rewrite Z. unfold info_of at 2. do 2 f_equal. lia.
Qed.
End Entries.

(** *** The tables before the members *)

Record aligned_at (contents : bytes) (d : Z) (pre : bytes) : Prop := {
  al_align : align2 d = zlen pre;
  al_even : zlen pre mod 2 = 0 }.

Lemma aligned_next contents d pre meta name body rest : at_member contents d pre name meta body rest -> aligned_at contents d pre ->
  aligned_at contents (next_data pre body) (pre ++ write_member meta name body).
Proof. intros [_ _ Hf] [_ He]. destruct (after_member pre name meta body Hf He). by split. Qed.

(** [body] passes from [s] to [s'] in at most [k] rounds. *)
Definition passes {S R} (body : S -> result (S + R)) (k : nat) (s s' : S) : Prop :=
  exists j, (j <= k)%nat /\ forall n, loop body (j + n) s = loop body n s'.

Lemma passes_refl {S R} (body : S -> result (S + R)) k s : passes body k s s.
Proof. exists O. split; [lia|done]. Qed.

Lemma passes_step {S R} (body : S -> result (S + R)) s s' : body s = Returns (inl s') -> passes body 1 s s'.
Proof. intros E. exists 1%nat. split; [done|]. intros n. cbn [Nat.add loop]. by rewrite E. Qed.

Lemma passes_trans {S R} (body : S -> result (S + R)) k1 k2 s1 s2 s3 : passes body k1 s1 s2 -> passes body k2 s2 s3 -> passes body (k1 + k2) s1 s3.
Proof.
  intros (j1 & H1 & E1) (j2 & H2 & E2). exists (j1 + j2)%nat. split; [lia|]. intros n. by rewrite <- Nat.add_assoc, E1, E2.
Qed.

Lemma passes_loop {S R} (body : S -> result (S + R)) k s s' m r : passes body k s s' -> (forall n, (m < n)%nat -> loop body n s' = Some r) ->
  forall n, (k + m < n)%nat -> loop body n s = Some r.
Proof. intros (j & Hj & E) H n Hn. replace n with (j + (n - j))%nat by lia. rewrite E. apply H. lia. Qed.

Section Tables.
Context {S R : Type} (step : S -> result (S + R)) (mk : Z -> bytes -> S) (contents meta : bytes) (Hmeta : meta_ok meta).

(** How a reader treats the two tables. *)
Record skips_tables : Prop := {
  sk_symtab : forall d pre name body rest strtab, at_member contents d pre name meta body rest ->
    let h := load_hdr (ar_header name meta (zlen body)) in is_strtab h = false -> is_symtab h = true ->
    step (mk d strtab) = Returns (inl (mk (next_data pre body) strtab));
  sk_strtab : forall d pre name body rest strtab, at_member contents d pre name meta body rest ->
    let h := load_hdr (ar_header name meta (zlen body)) in is_strtab h = true ->
    step (mk d strtab) = Returns (inl (mk (next_data pre body) body)) }.
Context (Hskip : skips_tables).

Lemma pass_symtab d pre symtab rest strtab : contents = pre ++ optional meta [47] symtab ++ rest -> aligned_at contents d pre ->
  (forall b, symtab = Some b -> zlen b < 10 ^ 10) ->
  exists d', passes step 1 (mk d strtab) (mk d' strtab) /\ aligned_at contents d' (pre ++ optional meta [47] symtab).
Proof.
  intros Hc Ha Hb. destruct symtab as [b|]; [|exists d; rewrite app_nil_r; split; [apply passes_refl|done]]. cbn [optional] in *.
  assert (Hf : field_ok [47] meta (zlen b)) by (split; [simpl; lia|done|split; [apply zlen_nonneg|by apply Hb]]).
  assert (A : at_member contents d pre [47] meta b rest) by (split; [done|apply Ha|done]). destruct (load_ar_header _ _ _ Hf) as (En & _).
  exists (next_data pre b). split; [|by apply (aligned_next _ d _ _ _ _ rest)]. apply passes_step, (sk_symtab Hskip _ _ _ _ _ _ A).
  - unfold is_strtab, hdr_starts_with. by rewrite En.
  - unfold is_symtab, hdr_starts_with. by rewrite En.
Qed.

Lemma pass_strtab d pre table rest : contents = pre ++ (if bool_decide (table = []) then [] else write_member meta [47; 47] table) ++ rest -> aligned_at contents d pre ->
  zlen table < 10 ^ 10 ->
  exists d', passes step 1 (mk d []) (mk d' table) /\ aligned_at contents d' (pre ++ (if bool_decide (table = []) then [] else write_member meta [47; 47] table)).
Proof.
  intros Hc Ha Hb. case_bool_decide as E; [subst table; exists d; rewrite app_nil_r; split; [apply passes_refl|done]|].
  assert (Hf : field_ok [47; 47] meta (zlen table)) by (split; [simpl; lia|done|split; [apply zlen_nonneg|done]]).
  assert (A : at_member contents d pre [47; 47] meta table rest) by (split; [done|apply Ha|done]). destruct (load_ar_header _ _ _ Hf) as (En & _).
  exists (next_data pre table). split; [|by apply (aligned_next _ d _ _ _ _ rest)]. apply passes_step, (sk_strtab Hskip _ _ _ _ _ _ A).
  unfold is_strtab, hdr_starts_with. by rewrite En.
Qed.
End Tables.

Lemma fat_skips contents meta vec : skips_tables (fat_step contents) (fun d st => mkReader d st vec) contents meta.
Proof.
  split.
  - intros d pre name body rest strtab A h H1 H2. rewrite (fat_reads _ _ _ _ _ _ _ A). fold h. by rewrite H1, H2.
  - intros d pre name body rest strtab A h H1. rewrite (fat_reads _ _ _ _ _ _ _ A). fold h. by rewrite H1.
Qed.

Lemma index_skips contents meta mf_name sname sdata ms : skips_tables (index_step mf_name contents false) (fun d st => mkIndexer d st sname sdata ms) contents meta.
Proof.
  split.
  - intros d pre name body rest strtab A h H1 H2. rewrite (index_reads _ _ _ _ _ _ _ A). fold h. by rewrite H1, H2.
  - intros d pre name body rest strtab A h H1. rewrite (index_reads _ _ _ _ _ _ _ A). fold h. by rewrite H1.
Qed.

(** A table of contents is an entry with one of the names of Darwin; its name is not in the
    string table, which follows. *)
Record toc_ok (e : entry) : Prop := {
  tc_entry : entry_ok e;
  tc_name : is_darwin_symtab_name (entry_name e) = true;
  tc_strings : entry_strings e = [] }.

Section Toc.
Context (contents meta : bytes) (Hmeta : meta_ok meta) (d : Z) (pre rest : bytes) (toc : option entry).
Context (Hc : contents = pre ++ match toc with Some e => write_entries meta 0 [e] | None => [] end ++ rest) (Ha : aligned_at contents d pre)
  (Ht : forall e, toc = Some e -> toc_ok e).
Let pre' := pre ++ match toc with Some e => write_entries meta 0 [e] | None => [] end.

Lemma toc_cases : (exists e, toc = Some e) \/ toc = None.
Proof. destruct toc; eauto. Qed.

Lemma toc_at e : toc = Some e -> at_member contents d pre (entry_field 0 e) meta (entry_body e) rest /\
  named (load_hdr (ar_header (entry_field 0 e) meta (zlen (entry_body e)))) [] e /\ pre' = pre ++ write_member meta (entry_field 0 e) (entry_body e) /\
  (prefix_len e <=? zlen (entry_body e)) = true.
Proof.
  intros E. unfold pre'. destruct (Ht e E) as [T1 T2 T3]. pose proof (entry_field_ok meta 0 e Hmeta T1 ltac:(lia)) as Hf. subst toc. cbn [write_entries] in *.
  rewrite app_nil_r in *. split; [|split; [|split; [done|]]].
  - split; [done|apply Ha|done].
  - apply (named_entry _ _ [] []); [apply T1|done|by right|]. by destruct (load_ar_header _ _ _ Hf).
  - pose proof (entry_sizes e). pose proof (zlen_nonneg (entry_data e)). apply Z.leb_le. lia.
Qed.

Lemma pass_toc_fat vec : exists d', passes (fat_step contents) 1 (mkReader d [] vec) (mkReader d' [] vec) /\ aligned_at contents d' pre'.
Proof.
  destruct toc_cases as [[e E]|E]; [|exists d; unfold pre'; rewrite E, app_nil_r; split; [apply passes_refl|done]].
  destruct (toc_at e E) as (A & [N1 N2 N3] & Ep & Hle). exists (next_data pre (entry_body e)). split; [|rewrite Ep; by apply (aligned_next _ d _ _ _ _ rest)].
  apply passes_step. rewrite (fat_reads _ _ _ _ _ _ _ A), N2, N3, N1. cbn [required mbind result_bind]. rewrite Hle. cbn [check mbind result_bind].
  by rewrite (tc_name e (Ht e E)).
Qed.

Lemma pass_toc_index mf_name ms : exists d', passes (index_step mf_name contents false) 1 (mkIndexer d [] [] [] ms)
  (mkIndexer d' [] (from_option entry_name [] toc) (from_option entry_data [] toc) ms) /\ aligned_at contents d' pre'.
Proof.
  destruct toc_cases as [[e E]|E]; [|exists d; unfold pre'; rewrite E, app_nil_r; split; [apply passes_refl|done]].
  destruct (toc_at e E) as (A & [N1 N2 N3] & Ep & Hle). exists (next_data pre (entry_body e)). split; [|rewrite Ep; by apply (aligned_next _ d _ _ _ _ rest)].
  apply passes_step. rewrite (index_reads _ _ _ _ _ _ _ A), N2, N3, N1. cbn [required mbind result_bind]. rewrite Hle. cbn [check mbind result_bind].
  rewrite (tc_name e (Ht e E)). rewrite E. do 3 f_equal. cbn [from_option]. unfold remove_prefix.
  destruct e as [n b|n b|n p b]; [done|done|]. cbn [prefix_len entry_body entry_data]. rewrite app_assoc.
  replace (Z.to_nat (zlen n + Z.of_nat p)) with (length (n ++ replicate p 0)) by (rewrite length_app, length_replicate; unfold zlen; lia). apply drop_app_length.
Qed.
End Toc.

(** *** Whole archives *)

Record archive_ok (meta : bytes) (symtab : option bytes) (toc : option entry) (l : list entry) : Prop := {
  ao_meta : meta_ok meta;
  ao_symtab : forall b, symtab = Some b -> zlen b < 10 ^ 10;
  ao_toc : forall e, toc = Some e -> toc_ok e;
  ao_members : Forall member_ok l;
  ao_strings : zlen (string_table l) < 10 ^ 10 }.

(** The part of the file has the name and the contents of the entry. *)
Definition child_is (contents : bytes) (e : entry) (c : child) : Prop :=
  c_name c = entry_name e /\ 0 <= c_start c /\ c_size c = zlen (entry_data e) /\ window contents (c_start c) (c_start c + c_size c) = entry_data e.

Lemma entry_split e : exists p, entry_body e = p ++ entry_data e /\ zlen p = prefix_len e.
Proof.
  destruct e as [n d|n d|n p d]; cbn [entry_body entry_data prefix_len]; [by exists []|by exists []|]. exists (n ++ replicate p 0). split; [apply app_assoc|].
  rewrite zlen_app. unfold zlen. by rewrite length_replicate.
Qed.

Lemma places_bound contents meta l : meta_ok meta -> Forall member_ok l -> forall d pre strs strtab, before contents meta d pre strs strtab l ->
  Forall (fun o => o <= zlen contents) (places (zlen pre) l).
Proof.
  intros Hm. induction 1 as [|e l [He Hn] Hl IH]; intros d pre strs strtab Hb; [constructor|].
  destruct (before_cons _ _ Hm _ _ _ _ _ _ Hb He) as (A & _ & Z & B). cbn [places]. constructor; [|rewrite <- Z; by apply (IH _ _ _ _ B)].
  rewrite (am_contents _ _ _ _ _ _ _ A), zlen_app. pose proof (zlen_nonneg (write_member meta (entry_field (zlen strs) e) (entry_body e) ++ write_entries meta (zlen strs + zlen (entry_strings e)) l)). lia.
Qed.

Lemma children_are contents meta l : meta_ok meta -> Forall member_ok l -> forall d pre strs strtab, before contents meta d pre strs strtab l ->
  Forall2 (child_is contents) l (zip_with child_of (places (zlen pre) l) l).
Proof.
  intros Hm. induction 1 as [|e l [He Hn] Hl IH]; intros d pre strs strtab Hb; [constructor|].
  destruct (before_cons _ _ Hm _ _ _ _ _ _ Hb He) as (A & _ & Z & B). cbn [places zip_with]. constructor; [|rewrite <- Z; by apply (IH _ _ _ _ B)].
  destruct (entry_split e) as (p & Ep & Lp). pose proof (zlen_nonneg pre). pose proof (zlen_nonneg p). split; [done|]. split; [simpl; lia|]. split; [done|].
  destruct A as [-> _ Hf]. cbn [child_of c_start c_size]. unfold write_member, even_pad. rewrite Ep.
  assert (E : forall b : bool, exists tail, (if b then p ++ entry_data e else (p ++ entry_data e) ++ [10]) = p ++ entry_data e ++ tail).
  { intros []; [exists []|exists [10]]; rewrite ?app_nil_r, <- ?app_assoc; done. }
  destruct (E (zlen (p ++ entry_data e) mod 2 =? 0)) as [tail ->].
  match goal with |- window (?a ++ (?b ++ ?x ++ ?y ++ ?t) ++ ?r) _ _ = _ => replace (a ++ (b ++ x ++ y ++ t) ++ r) with ((a ++ b ++ x) ++ y ++ (t ++ r)) by (by rewrite <- !app_assoc) end.
  apply window_at; [|lia]. rewrite <- Ep, !zlen_app, (zlen_ar_header _ _ _ Hf). lia.
Qed.

Section Whole.
Context (meta : bytes) (symtab : option bytes) (toc : option entry) (l : list entry) (Hok : archive_ok meta symtab toc l).
Let file := archive meta symtab toc l.
Let pre1 := bs "!<arch>" ++ [10].
Let pre2 := pre1 ++ optional meta [47] symtab.
Let pre3 := pre2 ++ match toc with Some e => write_entries meta 0 [e] | None => [] end.
Let table := if bool_decide (string_table l = []) then [] else write_member meta [47; 47] (string_table l).

Lemma before_eq : before_members meta symtab toc l = pre3 ++ table.
Proof. unfold before_members, pre3, pre2, pre1. by rewrite <- !app_assoc. Qed.

Lemma file_eq : file = pre3 ++ table ++ write_entries meta 0 l.
Proof. unfold file, archive. by rewrite before_eq, <- app_assoc. Qed.

Lemma start_aligned : aligned_at file 8 pre1.
Proof. by split. Qed.

Lemma members_before d : aligned_at file d (pre3 ++ table) -> before file meta d (before_members meta symtab toc l) [] (string_table l) l.
Proof. intros [H1 H2]. rewrite before_eq. split; [by rewrite file_eq, <- app_assoc|done|done|done|]. pose proof (ao_strings _ _ _ _ Hok). lia. Qed.

Lemma pass_tables_fat vec : exists d', passes (fat_step file) 3 (mkReader 8 [] vec) (mkReader d' (string_table l) vec) /\ aligned_at file d' (pre3 ++ table).
Proof.
  destruct Hok as [H1 H2 H3 H4 H5].
  destruct (pass_symtab _ _ file meta H1 (fat_skips _ _ vec) 8 pre1 symtab (match toc with Some e => write_entries meta 0 [e] | None => [] end ++ table ++ write_entries meta 0 l) []) as (d1 & P1 & A1);
    [rewrite file_eq; unfold pre3, pre2; by rewrite <- !app_assoc|apply start_aligned|done|].
  destruct (pass_toc_fat file meta H1 d1 pre2 (table ++ write_entries meta 0 l) toc) with (vec := vec) as (d2 & P2 & A2);
    [rewrite file_eq; unfold pre3; by rewrite <- !app_assoc|done|done|].
  destruct (pass_strtab _ _ file meta H1 (fat_skips _ _ vec) d2 pre3 (string_table l) (write_entries meta 0 l)) as (d3 & P3 & A3); [apply file_eq|done|done|].
  exists d3. split; [|done]. exact (passes_trans _ _ _ _ _ _ (passes_trans _ _ _ _ _ _ P1 P2) P3).
Qed.

Lemma pass_tables_index mf_name ms : exists d', passes (index_step mf_name file false) 3 (mkIndexer 8 [] [] [] ms)
  (mkIndexer d' (string_table l) (from_option entry_name [] toc) (from_option entry_data [] toc) ms) /\ aligned_at file d' (pre3 ++ table).
Proof.
  destruct Hok as [H1 H2 H3 H4 H5].
  destruct (pass_symtab _ _ file meta H1 (index_skips _ _ mf_name [] [] ms) 8 pre1 symtab (match toc with Some e => write_entries meta 0 [e] | None => [] end ++ table ++ write_entries meta 0 l) []) as (d1 & P1 & A1);
    [rewrite file_eq; unfold pre3, pre2; by rewrite <- !app_assoc|apply start_aligned|done|].
  destruct (pass_toc_index file meta H1 d1 pre2 (table ++ write_entries meta 0 l) toc) with (mf_name := mf_name) (ms := ms) as (d2 & P2 & A2);
    [rewrite file_eq; unfold pre3; by rewrite <- !app_assoc|done|done|].
  destruct (pass_strtab _ _ file meta H1 (index_skips _ _ mf_name (from_option entry_name [] toc) (from_option entry_data [] toc) ms) d2 pre3 (string_table l) (write_entries meta 0 l)) as (d3 & P3 & A3); [apply file_eq|done|done|].
  exists d3. split; [|done]. exact (passes_trans _ _ _ _ _ _ (passes_trans _ _ _ _ _ _ P1 P2) P3).
Qed.

Lemma file_type plugin : get_file_type plugin file = Returns AR.
Proof. unfold file, archive, before_members. unfold get_file_type. by rewrite bool_decide_false. Qed.

Lemma fat_children : Forall2 (child_is file) l (zip_with child_of (places (zlen (before_members meta symtab toc l)) l) l).
Proof.
  destruct (pass_tables_fat []) as (d & P & A). pose proof (members_before d A) as B.
  exact (children_are file meta l (ao_meta _ _ _ _ Hok) (ao_members _ _ _ _ Hok) _ _ _ _ B).
Qed.

Lemma places_in_file o : o ∈ places (zlen (before_members meta symtab toc l)) l -> o <= zlen file.
Proof.
  destruct (pass_tables_fat []) as (d & P & A). pose proof (members_before d A) as B.
  pose proof (places_bound file meta l (ao_meta _ _ _ _ Hok) (ao_members _ _ _ _ Hok) _ _ _ _ B) as H. rewrite Forall_forall in H. apply H.
Qed.

Lemma fat_whole : exists vec, Forall2 (child_is file) l vec /\ forall fuel, (length l + 3 < fuel)%nat -> read_fat_archive_members file fuel = Some (Returns vec).
Proof.
  destruct (pass_tables_fat []) as (d & P & A). pose proof (members_before d A) as B. exists (zip_with child_of (places (zlen (before_members meta symtab toc l)) l) l). split.
  - exact fat_children.
  - intros fuel Hf. apply (passes_loop _ _ _ _ (length l) _ P); [|lia]. intros n Hn.
    apply (fat_entries file meta (ao_meta _ _ _ _ Hok) l _ _ _ _ [] n B (ao_members _ _ _ _ Hok) Hn).
Qed.
End Whole.

(** *** The table of contents *)

(** The table of Darwin with numbers of [w] bytes, for members at [offs]. *)
Definition sym_strings (symbols : list ArchiveSymbolInfo) : bytes := concat (map (fun y => a_name y ++ [0]) symbols).

Fixpoint ranlibs (w : nat) (offs : list Z) (k : Z) (symbols : list ArchiveSymbolInfo) : bytes :=
  match symbols with
  | [] => []
  | y :: symbols => le_store w k ++ le_store w (default 0 (offs !! Z.to_nat (member_idx y))) ++ ranlibs w offs (k + zlen (a_name y) + 1) symbols
  end.

Definition toc_data (w : nat) (offs : list Z) (symbols : list ArchiveSymbolInfo) : bytes :=
  le_store w (2 * Z.of_nat w * zlen symbols) ++ ranlibs w offs 0 symbols ++ le_store w (zlen (sym_strings symbols)) ++ sym_strings symbols.

Definition word_of (name : bytes) : nat := if is_darwin_symtab_64 name then 8%nat else 4%nat.

Definition symbol_ok (n : Z) (y : ArchiveSymbolInfo) : Prop := (0 ∉ a_name y) /\ 0 <= member_idx y < n.

Lemma zlen_ranlibs w offs k symbols : zlen (ranlibs w offs k symbols) = 2 * Z.of_nat w * zlen symbols.
Proof.
  revert k. induction symbols as [|y symbols IH]; intros k; [unfold zlen; simpl; lia|]. cbn [ranlibs]. rewrite !zlen_app, IH.
  unfold zlen. rewrite !length_le_store. cbn [length]. lia.
Qed.

Lemma read_word_app w x t : 0 <= x < 2 ^ (8 * Z.of_nat w) -> read_word w (le_store w x ++ t) = Returns x /\ remove_prefix (Z.of_nat w) (le_store w x ++ t) = t.
Proof.
  intros Hx. assert (Hl : length (le_store w x) = w) by apply length_le_store. split.
  - unfold read_word. rewrite zlen_app. unfold zlen at 1. rewrite Hl. pose proof (zlen_nonneg t). case_bool; [lia|].
    rewrite <- Hl at 1. rewrite take_app_length, le_load_store. f_equal. by apply wrap_small.
  - unfold remove_prefix. rewrite Nat2Z.id. rewrite <- Hl at 1. apply drop_app_length.
Qed.

Lemma member_map_lookup members i m : NoDup (map header_offset members) -> members !! i = Some m -> member_map members !! header_offset m = Some (Z.of_nat i).
Proof.
  intros Hn Hi. unfold member_map.
  assert (G : forall l : list (Z * ArchiveMemberInfo), NoDup (map (fun p => header_offset p.2) l) -> forall k, (k, m) ∈ l ->
    foldr (fun m g => <[(header_offset m.2) := m.1]> g) (∅ : gmap Z Z) l !! header_offset m = Some k).
  { induction l as [|[k' m'] l IH]; intros Hd k Hk; [by apply elem_of_nil in Hk|]. cbn [map] in Hd. apply NoDup_cons in Hd as [Hd1 Hd2]. cbn [foldr fst snd].
    apply elem_of_cons in Hk as [[= <- <-]|Hk]; [by rewrite lookup_insert_eq|]. rewrite lookup_insert_ne; [by apply IH|].
    intros E. apply Hd1. cbn [snd]. rewrite E. apply list_elem_of_fmap. exists (k, m). by split. }
  apply G.
  - replace (map (fun p => header_offset p.2) (zip (seqZ 0 (zlen members)) members)) with (map header_offset members); [done|].
    rewrite <- (map_map snd header_offset). f_equal. symmetry. apply (snd_zip (seqZ 0 (zlen members))). rewrite length_seqZ. unfold zlen. lia.
  - apply list_elem_of_lookup. exists i. rewrite lookup_zip_with, Hi. apply lookup_lt_Some in Hi. 
    assert (seqZ 0 (zlen members) !! i = Some (Z.of_nat i)) as -> by (apply lookup_seqZ; unfold zlen; lia). done.
Qed.

Lemma read_ranlibs_exact w members offs : NoDup (map header_offset members) -> map header_offset members = offs -> Forall (fun o => 0 <= o < 2 ^ (8 * Z.of_nat w)) offs ->
  forall symbols pre acc, Forall (symbol_ok (zlen members)) symbols -> zlen pre + zlen (sym_strings symbols) < 2 ^ (8 * Z.of_nat w) ->
  read_ranlibs w (member_map members) (pre ++ sym_strings symbols) (length symbols) (ranlibs w offs (zlen pre) symbols) acc = Returns (acc ++ symbols).
Proof.
  intros Hn Ho Hr. induction symbols as [|y symbols IH]; intros pre acc Hs Hz; [cbn [length read_ranlibs]; by rewrite app_nil_r|].
  inversion_clear Hs as [|? ? [Hy1 Hy2] Hs']. cbn [length read_ranlibs ranlibs]. unfold sym_strings in *. cbn [map concat] in *.
  set (rest := concat (map _ symbols)) in *. rewrite !zlen_app in Hz. pose proof (zlen_nonneg pre). pose proof (zlen_nonneg (a_name y)). pose proof (zlen_nonneg rest). change (zlen [0]) with 1 in Hz.
  destruct (lookup_lt_is_Some_2 members (Z.to_nat (member_idx y))) as [m Em]; [unfold zlen in Hy2; lia|].
  assert (Eo : offs !! Z.to_nat (member_idx y) = Some (header_offset m)) by (rewrite <- Ho; change (map header_offset members) with (header_offset <$> members); by rewrite list_lookup_fmap, Em).
  rewrite Eo. change (default 0 (Some ?x)) with x. pose proof (Forall_lookup_1 _ _ _ _ Hr Eo) as Hoff. cbn beta in Hoff.
  destruct (read_word_app w (zlen pre) (le_store w (header_offset m) ++ ranlibs w offs (zlen pre + zlen (a_name y) + 1) symbols)) as [-> E1]; [lia|].
  cbn [mbind result_bind]. rewrite E1. destruct (read_word_app w (header_offset m) (ranlibs w offs (zlen pre + zlen (a_name y) + 1) symbols) Hoff) as [-> E2].
  cbn [mbind result_bind]. cbv zeta. assert (E3 : remove_prefix (2 * Z.of_nat w) (le_store w (zlen pre) ++ le_store w (header_offset m) ++ ranlibs w offs (zlen pre + zlen (a_name y) + 1) symbols) = ranlibs w offs (zlen pre + zlen (a_name y) + 1) symbols).
  { unfold remove_prefix in *. replace (Z.to_nat (2 * Z.of_nat w)) with (Z.to_nat (Z.of_nat w) + Z.to_nat (Z.of_nat w))%nat by lia. by rewrite <- drop_drop, E1, E2. }
  rewrite E3. assert (E4 : remove_prefix (zlen pre) (pre ++ (a_name y ++ [0]) ++ rest) = a_name y ++ 0 :: rest) by (unfold remove_prefix, zlen; by rewrite Nat2Z.id, drop_app_length, <- app_assoc).
  rewrite E4. destruct (Z.ltb_spec (zlen pre) (zlen (pre ++ (a_name y ++ [0]) ++ rest))) as [_|Hle]; [|rewrite !zlen_app in Hle; change (zlen [0]) with 1 in Hle; lia].
  cbn [check mbind result_bind]. rewrite find_char by done. cbn [required mbind result_bind]. rewrite (member_map_lookup members _ m Hn Em).
  cbn [required mbind result_bind]. rewrite take_app_length. specialize (IH (pre ++ a_name y ++ [0]) (acc ++ [y]) Hs').
  rewrite !zlen_app in IH. change (zlen [0]) with 1 in IH. rewrite <- !app_assoc in IH. rewrite <- (app_assoc (a_name y)).
  replace (zlen pre + zlen (a_name y) + 1) with (zlen pre + (zlen (a_name y) + 1)) by lia. replace (Z.of_nat (Z.to_nat (member_idx y))) with (member_idx y) by lia.
  destruct y as [n i]. cbn [a_name member_idx] in *. cbn [app] in IH |- *. apply IH. lia.
Qed.

Lemma places_sorted start l : Forall (fun o => start <= o) (places start l) /\ NoDup (places start l).
Proof.
  revert start. induction l as [|e l IH]; intros start; [split; constructor|]. cbn [places].
  destruct (IH (start + 60 + align2 (zlen (entry_body e)))) as [H1 H2]. pose proof (align2_spec (zlen (entry_body e))). pose proof (zlen_nonneg (entry_body e)). split.
  - constructor; [lia|]. eapply Forall_impl; [exact H1|]. simpl. lia.
  - constructor; [|done]. intros Hin. rewrite Forall_forall in H1. specialize (H1 _ Hin). simpl in H1. lia.
Qed.

Lemma length_places start l : length (places start l) = length l.
Proof. revert start. induction l; intros; simpl; auto. Qed.

Lemma info_offsets offs l : length offs = length l -> map header_offset (zip_with info_of offs l) = offs.
Proof. revert l. induction offs as [|o offs IH]; intros [|e l] H; simpl in *; try done. f_equal. apply IH. lia. Qed.

Lemma parse_toc w name members offs symbols : word_of name = w -> map header_offset members = offs -> NoDup offs ->
  Forall (fun o => 0 <= o < 2 ^ (8 * Z.of_nat w)) offs -> Forall (symbol_ok (zlen members)) symbols -> zlen (toc_data w offs symbols) < 2 ^ (8 * Z.of_nat w) ->
  parse_darwin_archive_symtab members name (toc_data w offs symbols) = Returns symbols.
Proof.
  intros Hw Ho Hn Hr Hs Hz. unfold parse_darwin_archive_symtab. fold (word_of name). rewrite Hw. cbv zeta.
  assert (Hp : (0 < w)%nat) by (subst w; unfold word_of; destruct (is_darwin_symtab_64 name); lia).
  unfold toc_data in *. rewrite !zlen_app, zlen_ranlibs in Hz. pose proof (zlen_nonneg symbols). pose proof (zlen_nonneg (sym_strings symbols)).
  pose proof (zlen_nonneg (le_store w (2 * Z.of_nat w * zlen symbols))). pose proof (zlen_nonneg (le_store w (zlen (sym_strings symbols)))).
  set (t := sym_strings symbols) in *. set (rl := ranlibs w offs 0 symbols). assert (Lr : zlen rl = 2 * Z.of_nat w * zlen symbols) by apply zlen_ranlibs.
  destruct (read_word_app w (2 * Z.of_nat w * zlen symbols) (rl ++ le_store w (zlen t) ++ t)) as [-> E1]; [nia|]. cbn [mbind result_bind]. rewrite E1.
  rewrite Z.mul_comm, Z_mod_mult, Z.eqb_refl, <- (Z.mul_comm (2 * Z.of_nat w)). cbn [negb orb]. rewrite zlen_app, Lr.
  pose proof (zlen_nonneg (le_store w (zlen t) ++ t)). destruct (Z.ltb_spec (2 * Z.of_nat w * zlen symbols + zlen (le_store w (zlen t) ++ t)) (2 * Z.of_nat w * zlen symbols)); [lia|].
  cbn [negb check mbind result_bind].
  assert (E3 : remove_prefix (2 * Z.of_nat w * zlen symbols) (rl ++ le_store w (zlen t) ++ t) = le_store w (zlen t) ++ t) by (unfold remove_prefix; rewrite <- Lr; unfold zlen at 1; by rewrite Nat2Z.id, drop_app_length).
  rewrite E3. destruct (read_word_app w (zlen t) t) as [-> E2]; [nia|]. cbn [mbind result_bind].
  rewrite E2, Z.leb_refl. cbn [check mbind result_bind].
  rewrite Z.mul_comm, Z.div_mul by lia. unfold zlen at 1 2 3. rewrite !Nat2Z.id. rewrite (firstn_all t).
  replace (Z.to_nat (Z.of_nat (length symbols) * (2 * Z.of_nat w))) with (length rl) by (unfold zlen in Lr; lia). rewrite take_app_length.
  apply (read_ranlibs_exact w members offs ltac:(by rewrite Ho) Ho Hr symbols [] [] Hs). unfold zlen at 1. simpl. fold t. nia.
Qed.

(** ** Properties *)

(** C17: the reader of regular archives inverts the writer: with or without a symbol table of
    System V and a table of contents of Darwin, and however names are stored, it returns the
    members in order, each with its name and, as a part of the file, its contents. *)
Theorem read_fat_archive_members_exact meta symtab toc l : archive_ok meta symtab toc l ->
  let file := archive meta symtab toc l in
  exists vec, Forall2 (child_is file) l vec /\
    forall plugin opens mf_name fuel, (length l + 3 < fuel)%nat -> read_archive_members plugin opens mf_name file fuel = Some (Returns (map inr vec)).
Proof.
  intros Hok file. destruct (fat_whole _ _ _ _ Hok) as (vec & H1 & H2). exists vec. split; [done|]. intros plugin opens mf_name fuel Hf.
  unfold read_archive_members, file. rewrite (file_type _ _ _ _ plugin), (H2 _ Hf). done.
Qed.

(** C18: when the table of contents of Darwin, in either word size, lists symbols with the
    offsets of the headers of their members, [read_archive_file] returns the list and the
    members, and [get_member] gives the part of the file with the contents of the member. *)
Theorem read_archive_file_exact meta symtab e l symbols : archive_ok meta symtab (Some e) l ->
  let file := archive meta symtab (Some e) l in
  let w := word_of (entry_name e) in
  entry_data e = toc_data w (places (zlen (before_members meta symtab (Some e) l)) l) symbols ->
  zlen file < 2 ^ (8 * Z.of_nat w) -> zlen (entry_data e) < 2 ^ (8 * Z.of_nat w) -> Forall (symbol_ok (zlen l)) symbols ->
  exists members,
    (forall plugin mf_name fuel, (length l + 3 < fuel)%nat ->
       read_archive_file plugin mf_name file fuel = Some (Returns (if bool_decide (symbols = []) then EMPTY_DARWIN_SYMTAB else OK, Some (members, symbols)))) /\
    forall i x, l !! i = Some x -> exists c, get_member members i = Some (inr c) /\ child_is file x c.
Proof.
  intros Hok file w Ed Hf Hz Hs. pose proof (tc_name e (ao_toc _ _ _ _ Hok e eq_refl)) as Hn.
  set (pre := before_members meta symtab (Some e) l) in *. set (offs := places (zlen pre) l) in *. exists (zip_with info_of offs l).
  assert (Hlen : length offs = length l) by apply length_places. split.
  - intros plugin mf_name fuel Hfuel. unfold read_archive_file. assert (get_file_type plugin file = Returns AR) as -> by apply file_type. rewrite bool_decide_false by done.
    destruct (pass_tables_index _ _ _ _ Hok mf_name []) as (d & P & A). pose proof (members_before _ _ _ _ Hok d A) as B.
    fold file in P. destruct (index_entries file meta (ao_meta _ _ _ _ Hok) mf_name l _ _ _ _ (entry_name e) (entry_data e) [] (S (length l)) B (ao_members _ _ _ _ Hok) ltac:(lia)) as (d' & st & E).
    unfold index_members. rewrite (passes_loop _ _ _ _ (length l) _ P (fun n Hlt => loop_more _ _ _ _ _ E Hlt) fuel) by lia.
    cbn [mbind option_bind result_bind app]. do 2 f_equal. unfold finish_index. cbn [symtab_name symtab_data x_members].
    rewrite bool_decide_false by (intros E0; revert Hn; rewrite E0; vm_compute; discriminate). fold pre offs. rewrite Ed.
    rewrite (parse_toc w (entry_name e) _ offs symbols); [done|done|by apply info_offsets|apply places_sorted| | |by rewrite <- Ed].
    + apply Forall_forall. intros o Ho. split.
      * destruct (places_sorted (zlen pre) l) as [H1 _]. rewrite Forall_forall in H1. specialize (H1 _ Ho). simpl in H1. pose proof (zlen_nonneg pre). lia.
      * eapply Z.le_lt_trans; [|exact Hf]. apply (places_in_file _ _ _ _ Hok o Ho).
    + assert (zlen (zip_with info_of offs l) = zlen l) as -> by (unfold zlen; rewrite length_zip_with; lia). done.
  - intros i x Hi. destruct (lookup_lt_is_Some_2 offs i) as [o Ho]; [rewrite Hlen; by apply lookup_lt_Some in Hi|].
    exists (child_of o x). split.
    + unfold get_member. rewrite lookup_zip_with, Ho, Hi. done.
    + pose proof (fat_children _ _ _ _ Hok) as Hc. fold file pre offs in Hc. apply (Forall2_lookup_lr _ _ _ i x (child_of o x) Hc Hi). by rewrite lookup_zip_with, Ho, Hi.
Qed.

(** C20: [read_thin_archive_members] never returns a member, whatever the file: a call that
    returns found none. For a thin archive whose first member can be opened the loop does
    not end, since nothing advances it past the member. *)
Theorem thin_archives_unreadable opens mf_name :
  (forall contents fuel vec, read_thin_archive_members opens mf_name contents fuel = Some (Returns vec) -> vec = []) /\
  (forall meta n strs size headers, meta_ok meta -> storable (Sysv n []) -> is_darwin_symtab_name n = false -> opens (member_path mf_name n) = true ->
     let table := n ++ [47; 10] ++ strs in
     zlen table < 10 ^ 10 -> 0 <= size < 10 ^ 10 -> size <= zlen headers ->
     forall fuel, read_thin_archive_members opens mf_name (bs "!<thin>" ++ [10] ++ write_member meta [47; 47] table ++ ar_header (47 :: decimal 0) meta size ++ headers) fuel = None).
Proof.
  split; [intros contents fuel vec; apply thin_loop_vec|]. intros meta n strs size headers Hm Hn Hd Ho table Ht Hs Hh fuel.
  set (magic := bs "!<thin>" ++ [10]). rewrite (app_assoc (bs "!<thin>")). fold magic. set (contents := magic ++ _).
  assert (Hf : field_ok [47; 47] meta (zlen table)) by (split; [simpl; lia|done|split; [apply zlen_nonneg|done]]).
  assert (A : at_member contents 8 magic [47; 47] meta table (ar_header (47 :: decimal 0) meta size ++ headers)) by (by split).
  destruct (at_member_reads _ _ _ _ _ _ _ A) as (E1 & E2 & E3 & E4). destruct (load_ar_header _ _ _ Hf) as (En & _).
  set (pre := magic ++ write_member meta [47; 47] table).
  destruct (after_member magic _ _ _ Hf eq_refl) as [A1 A2]. fold pre in A1, A2. fold (next_data magic table) in A1.
  assert (Hf2 : field_ok (47 :: decimal 0) meta size) by (split; [vm_compute; lia|done|done]). destruct (load_ar_header _ _ _ Hf2) as (En2 & _).
  assert (Ec : contents = pre ++ ar_header (47 :: decimal 0) meta size ++ headers) by (unfold contents, pre; by rewrite <- app_assoc).
  assert (Hz : zlen contents = zlen pre + 60 + zlen headers) by (rewrite Ec, !zlen_app, (zlen_ar_header _ _ _ Hf2); lia).
  destruct fuel as [|fuel]; [done|]. unfold read_thin_archive_members. cbn [loop]. unfold thin_step at 1. cbn [r_data r_strtab r_vec].
  rewrite E1, (am_align _ _ _ _ _ _ _ A), E2, E3. cbn [negb mbind result_bind]. rewrite E4. cbn [accessed mbind result_bind].
  unfold is_strtab at 1, hdr_starts_with at 1. rewrite En. change (starts_with (padded 16 [47; 47]) (bs "// ")) with true. cbn iota. fold (next_data magic table).
  assert (Hstep : forall d v, d <= zlen pre -> align2 d = zlen pre -> exists v', thin_step opens mf_name contents (mkReader d table v) = Returns (inl (mkReader (zlen pre) table v'))).
  { intros d v Hle Ha. eexists. unfold thin_step. cbn [r_data r_strtab r_vec]. pose proof (zlen_nonneg headers).
    destruct (Z.ltb_spec d (zlen contents)); [|lia]. cbn [negb]. rewrite Ha. destruct (Z.eqb_spec (zlen pre) (zlen contents)); [lia|].
    rewrite Ec at 1. rewrite (read_header_size _ _ _ _ _ Hf2 Hh). cbn [mbind result_bind]. pose proof (zlen_nonneg pre). rewrite slice_some by lia. cbn [accessed mbind result_bind].
    set (view := window contents _ _). destruct (named_sysv (load_hdr (ar_header (47 :: decimal 0) meta size)) table [] strs n view) as [N1 N2 N3]; [done|done|unfold table; by rewrite <- app_assoc|done|].
    cbn [entry_body entry_name prefix_len] in N1. rewrite N2, N3, N1. unfold hdr_starts_with. rewrite En2. change (_ || starts_with (padded 16 (47 :: decimal 0)) (bs "/")) with true.
    cbn [check required mbind result_bind]. rewrite Hd, Ho. reflexivity. }
  assert (Hi : align2 (zlen pre) = zlen pre) by (unfold align2; by rewrite A2).
  destruct fuel as [|fuel]; [done|]. cbn [loop]. destruct (Hstep (next_data magic table) [] (at_end _ _ A1) A1) as [v1 ->].
  apply thin_stuck. intros v. by apply Hstep.
Qed.

(** ** Examples *)

Definition example_meta : bytes := replicate 32 32.
Definition example_entries : list entry :=
  [Short (bs "a.o") [1; 2; 3]; Sysv (bs "a_rather_long_name.o") (bs "text"); Bsd (bs "x.o") 1 [7]].
Definition example_symbols : list ArchiveSymbolInfo :=
  [{| a_name := bs "main"; member_idx := 0 |}; {| a_name := bs "f"; member_idx := 2 |}].
Definition example_toc : entry := Bsd (bs "__.SYMDEF SORTED") 4 (toc_data 4 [202; 266; 330] example_symbols).

Lemma no_newline n : 10 ∉ n -> forall a b, n <> (a ++ [47; 10] ++ b).
Proof. intros H a b ->. apply H. rewrite !elem_of_app. right. left. right. left. Qed.

Ltac concrete := lazymatch goal with
  | |- _ ∉ _ => apply (bool_decide_unpack _); vm_compute; exact I
  | |- _ <> _ => discriminate
  | |- _ => vm_compute; reflexivity || lia
  end.

Lemma example_ok : archive_ok example_meta None (Some example_toc) example_entries.
Proof.
  split; [concrete|discriminate| | |concrete].
  - intros e [= <-]. split; [split; [split; concrete|concrete]|concrete|concrete].
  - unfold example_entries. apply Forall_cons. split; [|apply Forall_cons; split; [|apply Forall_singleton]].
    + split; [split; [|concrete]|concrete]. split; [concrete|]. split; [concrete|]. split; concrete.
    + split; [split; [|concrete]|concrete]. refine (no_newline _ _). concrete.
    + split; [split; [|concrete]|concrete]. split; concrete.
Qed.

Lemma read_fat_archive_members_exact_witness : exists vec, Forall2 (child_is (archive example_meta None (Some example_toc) example_entries)) example_entries vec /\
  read_archive_members false (fun _ => false) [] (archive example_meta None (Some example_toc) example_entries) 7 = Some (Returns (map inr vec)).
Proof.
  destruct (read_fat_archive_members_exact example_meta None (Some example_toc) example_entries example_ok) as (vec & H1 & H2).
  exists vec. split; [exact H1|]. apply H2. vm_compute. lia.
Defined.

Lemma example_symbols_ok : Forall (symbol_ok (zlen example_entries)) example_symbols.
Proof. apply Forall_cons. split; [|apply Forall_singleton]; (split; [concrete|vm_compute; split; congruence]). Qed.

Lemma read_archive_file_exact_witness : exists members,
  read_archive_file false [] (archive example_meta None (Some example_toc) example_entries) 7 = Some (Returns (OK, Some (members, example_symbols))) /\
  exists c, get_member members 2 = Some (inr c) /\ child_is (archive example_meta None (Some example_toc) example_entries) (Bsd (bs "x.o") 1 [7]) c.
Proof.
  destruct (read_archive_file_exact example_meta None example_toc example_entries example_symbols example_ok) as (members & H1 & H2);
    [vm_compute; reflexivity|vm_compute; reflexivity|vm_compute; reflexivity|exact example_symbols_ok|].
  exists members. split; [apply (H1 false [] 7%nat); vm_compute; lia|]. exact (H2 2%nat _ eq_refl).
Defined.

Lemma archive_readers_safe_witness : get_file_type false (bs "!<arch>" ++ [10; 65]) = Returns AR /\
  exists r, read_fat_archive_members (bs "!<arch>" ++ [10; 65]) 10 = Some r /\ defined (Forall (child_in (bs "!<arch>" ++ [10; 65]))) r.
Proof.
  split; [vm_compute; reflexivity|]. destruct (archive_readers_safe false [] (bs "!<arch>" ++ [10; 65]) AR) as [H _]; [vm_compute; reflexivity|]. exact H.
Defined.

Lemma thin_archives_unreadable_witness :
  read_thin_archive_members (fun _ => true) [] (bs "!<thin>" ++ [10] ++ write_member example_meta [47; 47] (bs "a.o" ++ [47; 10] ++ []) ++ ar_header (47 :: decimal 0) example_meta 0 ++ []) 100 = None.
Proof.
  destruct (thin_archives_unreadable (fun _ => true) []) as [_ H]. apply (H example_meta (bs "a.o") [] 0 []);
    [concrete|refine (no_newline _ _); concrete|concrete|reflexivity|concrete|split; [discriminate|reflexivity]|discriminate].
Defined.

(** A member of a thin archive whose file is larger than what follows in the archive. *)
Example thin_too_large : read_thin_archive_members (fun _ => true) [] (bs "!<thin>" ++ [10] ++ write_member example_meta [47; 47] (bs "a.o" ++ [47; 10]) ++ ar_header (47 :: decimal 0) example_meta 1000) 10 = Some Fatal.
Proof. vm_compute. reflexivity. Qed.

(** The short name that reads as a long one. *)
Example short_name_lost : read_fat_archive_members (archive example_meta None None [Short (bs "#1") [1; 2]]) 10 = Some Fatal.
Proof. vm_compute. reflexivity. Qed.
