(* ===== verification/Dynstr.v ===== *)
(** * Strings of the dynamic section (DynstrSection and the end of DynsymSection::finalize
    of src/elf/output-chunks.cc)

    .dynstr holds the strings that [add_string] collects and, in one piece, the names of
    the dynamic symbols. *)

From S2P Require Import Prelude Buffers.
Local Open Scope list_scope.
Local Open Scope Z_scope.

Record DynstrSection := mkDynstr { dynstr_size : Z; strings : gmap bytes Z; dynsym_offset : Z }.

Definition new_dynstr : DynstrSection := mkDynstr 0 ∅ (-1).
Definition keep (d : DynstrSection) : DynstrSection := mkDynstr 1 (strings d) (dynsym_offset d).

Definition add_string (str : bytes) (d : DynstrSection) : Z * DynstrSection :=
  let size := if dynstr_size d =? 0 then 1 else dynstr_size d in
  match str with
  | [] => (0, mkDynstr size (strings d) (dynsym_offset d))
  | _ =>
      match strings d !! str with
      | Some off => (off, mkDynstr size (strings d) (dynsym_offset d))
      | None => (size, mkDynstr (size + (zlen str + 1)) (<[str := size]> (strings d)) (dynsym_offset d))
      end
  end.

(** [None]: the assertion fails. *)
Definition find_string (str : bytes) (d : DynstrSection) : option Z :=
  match str with [] => Some 0 | _ => strings d !! str end.

Definition names_size (names : list bytes) : Z := foldr (fun s n => zlen s + 1 + n) 0 names.

(** What [DynsymSection::finalize] does here; [names] are those of the symbols after the
    null symbol. *)
Definition reserve_names (names : list bytes) (d : DynstrSection) : DynstrSection :=
  mkDynstr (dynstr_size d + names_size names) (strings d) (dynstr_size d).

(** [copy_buf]. The hash table's elements come in some order. *)
Definition write_string (off : Z) (s buf : bytes) : option bytes := poke off (s ++ [0]) buf.

Fixpoint write_strings (l : list (bytes * Z)) (buf : bytes) : option bytes :=
  match l with
  | [] => Some buf
  | (s, off) :: l => write_string off s buf ≫= write_strings l
  end.

Fixpoint write_names (off : Z) (names : list bytes) (buf : bytes) : option bytes :=
  match names with
  | [] => Some buf
  | s :: names => write_string off s buf ≫= write_names (off + (zlen s + 1)) names
  end.

Definition dynstr_copy_buf (order : list (bytes * Z)) (names : list bytes) (d : DynstrSection) (buf : bytes) : option bytes :=
  buf ← poke 0 [0] buf; buf ← write_strings order buf; write_names (dynsym_offset d) names buf.

(** ** Every string has bytes of its own *)

Fixpoint name_offsets (off : Z) (names : list bytes) : list (bytes * Z) :=
  match names with
  | [] => []
  | s :: names => (s, off) :: name_offsets (off + (zlen s + 1)) names
  end.

(** Two strings with their final NULs. *)
Definition apart (p q : bytes * Z) : Prop := p.2 + zlen p.1 + 1 <= q.2 \/ q.2 + zlen q.1 + 1 <= p.2.

(** The strings so far; [names] once they have been reserved. *)
Record dynstr_ok (names : list bytes) (d : DynstrSection) : Prop := {
  do_size : 0 <= dynstr_size d;
  do_strings : forall s off, strings d !! s = Some off -> s <> [] /\ 1 <= off /\ off + zlen s + 1 <= dynstr_size d;
  do_apart : forall s off s' off', s <> s' -> strings d !! s = Some off -> strings d !! s' = Some off' -> apart (s, off) (s', off');
  do_names : names = [] \/ 1 <= dynsym_offset d /\ dynsym_offset d + names_size names <= dynstr_size d;
  do_clear : forall s off, strings d !! s = Some off -> names = [] \/ off + zlen s + 1 <= dynsym_offset d \/ dynsym_offset d + names_size names <= off }.

Lemma names_size_nonneg names : 0 <= names_size names.
Proof. induction names as [|s names IH]; [done|]. cbn [names_size foldr]. fold (names_size names). pose proof (zlen_nonneg s). lia. Qed.

Lemma new_dynstr_ok : dynstr_ok [] new_dynstr.
Proof. split; try done; by left. Qed.

Lemma keep_ok : dynstr_ok [] (keep new_dynstr).
Proof. split; try done; by left. Qed.

Lemma add_string_ok names str d : dynstr_ok names d -> let '(off, d') := add_string str d in
  dynstr_ok names d' /\ 1 <= dynstr_size d' /\ find_string str d' = Some off /\ dynsym_offset d' = dynsym_offset d /\
  forall s o, find_string s d = Some o -> find_string s d' = Some o.
Proof.
  intros [H1 H2 H3 H4 H5]. unfold add_string. set (size := if dynstr_size d =? 0 then 1 else dynstr_size d).
  assert (Hs : 1 <= size /\ dynstr_size d <= size) by (unfold size; destruct (Z.eqb_spec (dynstr_size d) 0); lia).
  assert (Old : dynstr_ok names (mkDynstr size (strings d) (dynsym_offset d))).
  { split; cbn [dynstr_size strings dynsym_offset]; [lia| |done| |done].
    - intros s off E. destruct (H2 s off E) as (E1 & E2 & E3). split; [done|lia].
    - destruct H4 as [H4|H4]; [by left|right; lia]. }
  destruct str as [|c str]; [split; [exact Old|]; simpl; repeat split; (done || lia)|]. set (w := c :: str) in *.
  destruct (strings d !! w) as [off|] eqn:E; [split; [exact Old|]; simpl; repeat split; (done || lia)|].
  pose proof (zlen_nonneg w). cbn [dynstr_size dynsym_offset]. split; [|split; [lia|]].
  - split; cbn [dynstr_size strings dynsym_offset]; [lia| | | |].
    + intros s off Hl. apply lookup_insert_Some in Hl as [[<- <-]|[_ Hl]]; [split; [done|lia]|]. destruct (H2 s off Hl) as (E1 & E2 & E3). split; [done|lia].
    + intros s off s' off' Hne Hl Hl'. apply lookup_insert_Some in Hl as [[<- <-]|[_ Hl]]; apply lookup_insert_Some in Hl' as [[<- <-]|[_ Hl']]; [done| | |by apply H3].
      * destruct (H2 s' off' Hl') as (_ & _ & ?). right. simpl. lia.
      * destruct (H2 s off Hl) as (_ & _ & ?). left. simpl. lia.
    + destruct H4 as [H4|H4]; [by left|right; lia].
    + intros s off Hl. apply lookup_insert_Some in Hl as [[<- <-]|[_ Hl]]; [|by apply (H5 s)]. destruct H4 as [H4|[H4 H6]]; [by left|]. right. right. lia.
  - split; [unfold find_string; simpl; by rewrite lookup_insert_eq|]. split; [done|]. intros s o Hf. unfold find_string in *. destruct s as [|b s]; [done|]. cbn [strings].
    destruct (decide (w = b :: s)) as [Ew|Ew]; [exfalso; rewrite Ew in E; congruence|]. by rewrite lookup_insert_ne.
Qed.

(** Reserving once, when the section has its first byte. *)
Lemma reserve_names_ok names d : dynstr_ok [] d -> 1 <= dynstr_size d -> dynstr_ok names (reserve_names names d).
Proof.
  intros [H1 H2 H3 _ _] Hs. pose proof (names_size_nonneg names). split; cbn [reserve_names dynstr_size strings dynsym_offset]; [lia| |done| |].
  - intros s off E. destruct (H2 s off E) as (E1 & E2 & E3). split; [done|lia].
  - right. lia.
  - intros s off E. destruct (H2 s off E) as (E1 & E2 & E3). right. left. lia.
Qed.

(** ** What the loader reads *)

(** The NUL-terminated string at an offset. *)
Definition cstr (buf : bytes) (off : Z) : option bytes := fst <$> take_cstr (drop (Z.to_nat off) buf).

Lemma cstr_code buf off s : has_code buf off (s ++ [0]) -> Forall (fun c => c <> 0) s -> cstr buf off = Some s.
Proof.
  intros (H1 & H2 & H3) Hs. unfold cstr. unfold window in H3. rewrite <- (take_drop (Z.to_nat (off + zlen (s ++ [0]) - off)) (drop (Z.to_nat off) buf)), H3.
  rewrite <- app_assoc. simpl. by rewrite take_cstr_app.
Qed.

(** Writes to places of their own all last. *)
Definition put_ok (n : Z) (p : bytes * Z) : Prop := 0 <= p.2 /\ p.2 + zlen p.1 + 1 <= n.

Lemma zlen_cstr (s : bytes) : zlen (s ++ [0]) = zlen s + 1.
Proof. by rewrite zlen_app. Qed.

Lemma write_strings_ok l buf : Forall (put_ok (zlen buf)) l -> (forall i j p q, i <> j -> l !! i = Some p -> l !! j = Some q -> apart p q) ->
  exists buf', write_strings l buf = Some buf' /\ zlen buf' = zlen buf /\ (forall p, p ∈ l -> has_code buf' p.2 (p.1 ++ [0])) /\
    forall lo code, (forall p, p ∈ l -> clear lo (lo + zlen code) p.2 (zlen p.1 + 1)) -> has_code buf lo code -> has_code buf' lo code.
Proof.
  revert buf. induction l as [|[s off] l IH]; intros buf Hb Ha.
  { exists buf. split; [done|]. split; [done|]. split; [by intros p Hp%elem_of_nil|done]. }
  apply Forall_cons in Hb as [[H1 H2] Hb]. cbn [fst snd] in *. cbn [write_strings]. unfold write_string.
  destruct (poke_some off (s ++ [0]) buf) as (b & -> & L & C & K); [done|rewrite zlen_cstr; lia|]. cbn [mbind option_bind].
  destruct (IH b) as (b' & -> & L' & C' & K').
  - by rewrite L.
  - intros i j p q Hij Hp Hq. apply (Ha (S i) (S j)); [lia|done|done].
  - exists b'. split; [done|]. split; [by rewrite L'|]. split.
    + intros p [->|Hp]%elem_of_cons; [|by apply C']. apply K'; [|exact C]. intros q [j Hq]%list_elem_of_lookup.
      pose proof (Ha O (S j) (s, off) q ltac:(done) eq_refl Hq) as D. unfold apart, clear in *. simpl in *. rewrite zlen_cstr. lia.
    + intros lo code Hc Hh. apply K'; [intros p Hp; apply Hc; by constructor|]. apply K; [|done]. rewrite zlen_cstr. apply (Hc (s, off)). by constructor.
Qed.

Lemma write_names_strings off names buf : write_names off names buf = write_strings (name_offsets off names) buf.
Proof.
  revert off buf. induction names as [|s names IH]; intros off buf; [done|]. cbn [write_names name_offsets write_strings].
  destruct (write_string off s buf); [|done]. cbn [mbind option_bind]. apply IH.
Qed.

Lemma write_strings_app l1 l2 buf : write_strings (l1 ++ l2) buf = write_strings l1 buf ≫= write_strings l2.
Proof.
  revert buf. induction l1 as [|[s off] l1 IH]; intros buf; [done|]. cbn [app write_strings].
  destruct (write_string off s buf); [|done]. cbn [mbind option_bind]. apply IH.
Qed.

Lemma name_offsets_range off names p : p ∈ name_offsets off names -> off <= p.2 /\ p.2 + zlen p.1 + 1 <= off + names_size names.
Proof.
  revert off. induction names as [|s names IH]; intros off; cbn [name_offsets]; [by intros ?%elem_of_nil|].
  cbn [names_size foldr]. fold (names_size names). pose proof (names_size_nonneg names). pose proof (zlen_nonneg s).
  intros [->|Hp]%elem_of_cons; [simpl; lia|]. specialize (IH _ Hp). lia.
Qed.

Lemma name_offsets_apart off names i j p q : i <> j -> name_offsets off names !! i = Some p -> name_offsets off names !! j = Some q -> apart p q.
Proof.
  revert off i j. induction names as [|s names IH]; intros off i j Hij; [done|]. destruct i as [|i], j as [|j]; cbn [name_offsets lookup list_lookup].
  - done.
  - intros [= <-] Hq%list_elem_of_lookup_2%name_offsets_range. left. simpl. lia.
  - intros Hq%list_elem_of_lookup_2%name_offsets_range [= <-]. right. simpl. lia.
  - apply IH. lia.
Qed.

Definition copied_strings (order : list (bytes * Z)) (names : list bytes) (d : DynstrSection) : list (bytes * Z) :=
  order ++ name_offsets (dynsym_offset d) names.

Lemma copied_apart order names d : dynstr_ok names d -> order ≡ₚ map_to_list (strings d) ->
  let l := copied_strings order names d in
  (forall p, p ∈ l -> 1 <= p.2 /\ p.2 + zlen p.1 + 1 <= dynstr_size d) /\
  forall i j p q, i <> j -> l !! i = Some p -> l !! j = Some q -> apart p q.
Proof.
  intros [H1 H2 H3 H4 H5] Ho l. assert (Hin : forall p, p ∈ order -> strings d !! p.1 = Some p.2).
  { intros [s o] Hp. rewrite Ho in Hp. by apply elem_of_map_to_list in Hp. }
  assert (Hnd : NoDup (map fst order)).
  { change (NoDup (order.*1)). rewrite Ho. apply NoDup_fst_map_to_list. }
  assert (Hcross : forall p q, p ∈ order -> q ∈ name_offsets (dynsym_offset d) names -> apart p q).
  { intros [s o] q Hp Hq. pose proof (name_offsets_range _ _ _ Hq) as Hr. pose proof (Hin _ Hp) as Hs. simpl in Hs. unfold apart. simpl.
    destruct (H5 s o Hs) as [->|[H|H]]; [by apply elem_of_nil in Hq|lia|lia]. }
  split.
  - intros p [Hp|Hp]%elem_of_app.
    + destruct (H2 p.1 p.2 (Hin p Hp)) as (_ & ? & ?). lia.
    + apply name_offsets_range in Hp as Hr. destruct H4 as [->|H4]; [by apply elem_of_nil in Hp|]. lia.
  - intros i j p q Hij Hi Hj. unfold l, copied_strings in Hi, Hj. apply lookup_app_Some in Hi as [Hi|[Hi' Hi]]; apply lookup_app_Some in Hj as [Hj|[Hj' Hj]].
    + destruct p as [s o], q as [s' o']. apply (H3 s o s' o').
      * intros ->. apply Hij. apply (NoDup_lookup _ _ _ s' Hnd); rewrite list_lookup_fmap; [by rewrite Hi|by rewrite Hj].
      * apply (Hin (s, o)). by eapply list_elem_of_lookup_2.
      * apply (Hin (s', o')). by eapply list_elem_of_lookup_2.
    + apply Hcross; by eapply list_elem_of_lookup_2.
    + destruct (Hcross q p ltac:(by eapply list_elem_of_lookup_2) ltac:(by eapply list_elem_of_lookup_2)); [by right|by left].
    + eapply (name_offsets_apart _ _ (i - length order) (j - length order)); [lia|done|done].
Qed.

(** Every string and name can be read at its offset, whatever the order. *)
Lemma dynstr_copied order names d buf : dynstr_ok names d -> 1 <= dynstr_size d -> order ≡ₚ map_to_list (strings d) -> zlen buf = dynstr_size d ->
  exists buf', dynstr_copy_buf order names d buf = Some buf' /\ zlen buf' = dynstr_size d /\ has_code buf' 0 [0] /\
    (forall s off, strings d !! s = Some off -> has_code buf' off (s ++ [0])) /\
    (forall s off, (s, off) ∈ name_offsets (dynsym_offset d) names -> has_code buf' off (s ++ [0])).
Proof.
  intros Hd Hs Ho Hl. destruct (copied_apart order names d Hd Ho) as [Hr Ha]. unfold dynstr_copy_buf.
  destruct (poke_some 0 [0] buf) as (b & -> & L & C & _); [done|simpl; unfold zlen in *; simpl; lia|]. cbn [mbind option_bind].
  destruct (write_strings_ok (copied_strings order names d) b) as (b' & E & L' & C' & K').
  { apply Forall_forall. intros p Hp. destruct (Hr p Hp). split; lia. }
  { exact Ha. }
  exists b'. unfold copied_strings in E. rewrite write_strings_app in E. apply bind_Some in E as (b1 & -> & E). cbn [mbind option_bind].
  rewrite write_names_strings, E. split; [done|]. split; [lia|]. split.
  - apply K'; [|done]. intros p Hp. destruct (Hr p Hp). right. left. unfold zlen. simpl. lia.
  - split.
    + intros s off Hso. apply (C' (s, off)). unfold copied_strings. rewrite elem_of_app, Ho, elem_of_map_to_list. by left.
    + intros s off Hso. apply (C' (s, off)). unfold copied_strings. rewrite elem_of_app. by right.
Qed.

(** The string at the offset that [find_string] gives. *)
Lemma find_string_cstr order names d buf buf' s off : dynstr_ok names d -> 1 <= dynstr_size d -> order ≡ₚ map_to_list (strings d) -> zlen buf = dynstr_size d ->
  dynstr_copy_buf order names d buf = Some buf' -> find_string s d = Some off -> Forall (fun c => c <> 0) s -> cstr buf' off = Some s.
Proof.
  intros Hd Hs Ho Hl E Hf Hn. destruct (dynstr_copied order names d buf Hd Hs Ho Hl) as (b & E' & _ & C0 & C & _). assert (b = buf') as -> by congruence.
  destruct s as [|c s]; [injection Hf as <-; by apply cstr_code|]. apply cstr_code; [|done]. by apply C.
Qed.
