(* ===== verification/VersionSections.v ===== *)
(** * Symbol versions (VersymSection, VerneedSection and VerdefSection of
    src/elf/output-chunks.cc; SharedFile::read_verdef of src/elf/input-files.cc)

    .gnu.version has a number for every dynamic symbol; .gnu.version_r says which versions
    of which files the numbers of imported symbols stand for, .gnu.version_d which versions
    the file itself defines. The specification is what a dynamic loader reads there. *)

From S2P Require Import Prelude Buffers HashTable Dynstr.
Local Open Scope list_scope.
Local Open Scope Z_scope.

Definition VER_NDX_LAST_RESERVED : Z := 1.
Definition VER_FLG_BASE : Z := 1.
Definition VERSYM_HIDDEN : Z := 0x8000.

Record SharedFile := mkShared { soname : bytes; version_strings : list bytes }.

(** A dynamic symbol: the shared file that defines it, by index, its version in that file
    or in the output, and its index in .dynsym. *)
Record VerSymbol := mkVerSym { ver_dso : option nat; ver_idx : Z; dynsym_index : nat }.

Section Versions.
(** The byte order of the target, and the shared files. *)
Context (big : bool) (files : list SharedFile).

Definition soname_of (s : VerSymbol) : bytes := default [] (f ← ver_dso s; soname <$> files !! f).

(** [Symbol::get_version]; [None]: an index out of range. *)
Definition get_version (s : VerSymbol) : option bytes :=
  match ver_dso s with Some f => f ← files !! f; version_strings f !! Z.to_nat (ver_idx s) | None => Some [] end.

(** ** .gnu.version_r *)

Definition is_versioned (s : VerSymbol) : bool := bool_decide (is_Some (ver_dso s)) && (VER_NDX_LAST_RESERVED <? ver_idx s).

Definition need_less (a b : VerSymbol) : bool :=
  str_ltb (soname_of a) (soname_of b) || (negb (str_ltb (soname_of b) (soname_of a)) && (ver_idx a <? ver_idx b)).

Definition need_symbols (dynsym : list VerSymbol) : list VerSymbol := stable_sort need_less (List.filter is_versioned dynsym).

(** The state of [construct]: the buffer, the pointers into it, the last version number,
    .dynstr and .gnu.version. *)
Record need_state := mkNeed {
  need_buf : bytes; ptr : Z; verneed : option Z; aux : option Z; veridx : Z; need_info : Z;
  need_dynstr : DynstrSection; versym : list Z }.

Definition VERNEED_SIZE : Z := 16.
Definition VERNAUX_SIZE : Z := 16.

Definition start_group (s : VerSymbol) (st : need_state) : option need_state :=
  let p := ptr st in
  buf ← match verneed st with Some v => assign big 4 (p - v) (v + 12) (need_buf st) | None => Some (need_buf st) end;
  buf ← assign big 2 1 p buf;
  file ← find_string (soname_of s) (need_dynstr st);
  buf ← assign big 4 file (p + 4) buf;
  buf ← assign big 4 VERNEED_SIZE (p + 8) buf;
  Some (mkNeed buf (p + VERNEED_SIZE) (Some p) None (veridx st) (need_info st + 1) (need_dynstr st) (versym st)).

Definition add_entry (s : VerSymbol) (st : need_state) : option need_state :=
  let p := ptr st in
  v ← verneed st;
  buf ← modify big 2 (fun cnt => cnt + 1) (v + 2) (need_buf st);
  buf ← match aux st with Some a => assign big 4 VERNAUX_SIZE (a + 12) buf | None => Some buf end;
  verstr ← get_version s;
  buf ← assign big 4 (elf_hash verstr) p buf;
  let idx := u16 (veridx st + 1) in
  buf ← assign big 2 idx (p + 6) buf;
  let '(name, dynstr) := add_string verstr (need_dynstr st) in
  buf ← assign big 4 name (p + 8) buf;
  Some (mkNeed buf (p + VERNAUX_SIZE) (Some v) (Some p) idx (need_info st) dynstr (versym st)).

(** [versym->contents[idx] = ver]; [None]: an index out of range. *)
Definition set_versym (i : nat) (ver : Z) (l : list Z) : option (list Z) :=
  if bool_decide (i < length l)%nat then Some (<[i := u16 ver]> l) else None.

Definition need_symbol (prev : option VerSymbol) (s : VerSymbol) (st : need_state) : option need_state :=
  st ← match prev with
       | Some p =>
           if negb (bool_decide (ver_dso p = ver_dso s)) then start_group s st ≫= add_entry s
           else if negb (ver_idx p =? ver_idx s) then add_entry s st else Some st
       | None => start_group s st ≫= add_entry s
       end;
  l ← set_versym (dynsym_index s) (veridx st) (versym st);
  Some (mkNeed (need_buf st) (ptr st) (verneed st) (aux st) (veridx st) (need_info st) (need_dynstr st) l).

Fixpoint need_loop (prev : option VerSymbol) (syms : list VerSymbol) (st : need_state) : option need_state :=
  match syms with
  | [] => Some st
  | s :: syms => need_symbol prev s st ≫= need_loop (Some s) syms
  end.

(** The symbols of .dynsym: [None] if there are none, otherwise those after the null
    symbol. *)
Abbreviation dynsym_symbols := (option (list VerSymbol)) (only parsing).

(** [contents.resize(symbols.size(), 1); contents[0] = 0]; without symbols the second
    statement is out of range. *)
Definition resize_versym (dynsym : dynsym_symbols) (l : list Z) : option (list Z) :=
  match dynsym with
  | None => None
  | Some syms => let n := S (length syms) in Some (<[0%nat := 0]> (take n l ++ replicate (n - length l) 1))
  end.

(** If no symbol has a version the section stays empty. *)
Definition verneed_construct (num_definitions : Z) (dynsym : dynsym_symbols) (d : DynstrSection) (l : list Z) : option need_state :=
  let syms := need_symbols (default [] dynsym) in
  match syms with
  | [] => Some (mkNeed [] 0 None None 0 0 d l)
  | _ =>
      l ← resize_versym dynsym l;
      let buf := replicate (length syms * 32) 0 in
      st ← need_loop None syms
             (mkNeed buf 0 None None (u16 (VER_NDX_LAST_RESERVED + num_definitions)) 0 d l);
      Some (mkNeed (take (Z.to_nat (ptr st)) (need_buf st)) (ptr st) (verneed st) (aux st) (veridx st) (need_info st) (need_dynstr st) (versym st))
  end.

(** ** .gnu.version_d *)

Record def_state := mkDef { def_buf : bytes; def_ptr : Z; verdef : option Z; def_info : Z; def_dynstr : DynstrSection }.

Definition VERDEF_SIZE : Z := 20.
Definition VERDAUX_SIZE : Z := 8.

Definition write_def (verstr : bytes) (idx flags : Z) (st : def_state) : option def_state :=
  let p := def_ptr st in
  buf ← match verdef st with Some v => assign big 4 (p - v) (v + 16) (def_buf st) | None => Some (def_buf st) end;
  buf ← assign big 2 1 p buf;
  buf ← assign big 2 flags (p + 2) buf;
  buf ← assign big 2 idx (p + 4) buf;
  buf ← assign big 2 1 (p + 6) buf;
  buf ← assign big 4 (elf_hash verstr) (p + 8) buf;
  buf ← assign big 4 VERDEF_SIZE (p + 12) buf;
  let '(name, dynstr) := add_string verstr (def_dynstr st) in
  buf ← assign big 4 name (p + VERDEF_SIZE) buf;
  Some (mkDef buf (p + VERDEF_SIZE + VERDAUX_SIZE) (Some p) (def_info st + 1) dynstr).

Fixpoint write_defs (idx : Z) (defs : list bytes) (st : def_state) : option def_state :=
  match defs with
  | [] => Some st
  | verstr :: defs => write_def verstr idx 0 st ≫= write_defs (idx + 1) defs
  end.

Fixpoint copy_versions (syms : list VerSymbol) (l : list Z) : option (list Z) :=
  match syms with
  | [] => Some l
  | s :: syms => set_versym (dynsym_index s) (ver_idx s) l ≫= copy_versions syms
  end.

(** [basename] is the soname or the name of the output. *)
Definition verdef_construct (basename : bytes) (definitions : list bytes) (dynsym : dynsym_symbols) (d : DynstrSection) (l : list Z) :
    option (def_state * list Z) :=
  match definitions with
  | [] => Some (mkDef [] 0 None 0 d, l)
  | _ =>
      l ← resize_versym dynsym l;
      let buf := replicate (28 * (length definitions + 1)) 0 in
      st ← write_def basename 1 VER_FLG_BASE (mkDef buf 0 None 0 d);
      st ← write_defs 2 definitions st;
      l ← copy_versions (default [] dynsym) l; Some (st, l)
  end.

(** The two in the order of [link]. *)
Definition construct_versions (basename : bytes) (definitions : list bytes) (dynsym : dynsym_symbols) (d : DynstrSection) : option (def_state * need_state) :=
  '(def, l) ← verdef_construct basename definitions dynsym d [];
  st ← verneed_construct (zlen definitions) dynsym (def_dynstr def) l; Some (def, st).

(** ** The loader *)

Definition fetch (n : nat) (off : Z) (buf : bytes) : option Z :=
  if in_buf n buf off then Some (le_load (host big (take n (drop (Z.to_nat off) buf)))) else None.

Record need := mkEntry { need_file : Z; need_hash : Z; need_other : Z; need_name : Z }.

Fixpoint load_auxs (fuel : nat) (file off : Z) (buf : bytes) : option (list need) :=
  match fuel with
  | O => None
  | S fuel =>
      hash ← fetch 4 off buf; other ← fetch 2 (off + 6) buf; name ← fetch 4 (off + 8) buf; next ← fetch 4 (off + 12) buf;
      rest ← if next =? 0 then Some [] else load_auxs fuel file (off + next) buf;
      Some (mkEntry file hash other name :: rest)
  end.

Fixpoint load_needs (fuel : nat) (off : Z) (buf : bytes) : option (list need) :=
  match fuel with
  | O => None
  | S fuel =>
      file ← fetch 4 (off + 4) buf; a ← fetch 4 (off + 8) buf; next ← fetch 4 (off + 12) buf;
      l ← load_auxs (length buf) file (off + a) buf;
      rest ← if next =? 0 then Some [] else load_needs fuel (off + next) buf; Some (l ++ rest)
  end.

Definition load_verneed (buf : bytes) : option (list need) :=
  match buf with [] => Some [] | _ => load_needs (length buf) 0 buf end.

Record def := mkDefinition { def_ndx : Z; def_flags : Z; def_hash : Z; def_name : Z }.

Fixpoint load_defs (fuel : nat) (off : Z) (buf : bytes) : option (list def) :=
  match fuel with
  | O => None
  | S fuel =>
      flags ← fetch 2 (off + 2) buf; ndx ← fetch 2 (off + 4) buf; hash ← fetch 4 (off + 8) buf; a ← fetch 4 (off + 12) buf;
      next ← fetch 4 (off + 16) buf; name ← fetch 4 (off + a) buf;
      rest ← if next =? 0 then Some [] else load_defs fuel (off + next) buf;
      Some (mkDefinition ndx flags hash name :: rest)
  end.

Definition load_verdef (buf : bytes) : option (list def) :=
  match buf with [] => Some [] | _ => load_defs (length buf) 0 buf end.

(** What a number in .gnu.version means; [None]: the tables are inconsistent. *)
Inductive version := Local | Global | Needs (file version : bytes) | Defines (version : bytes) (hidden : bool).

Definition load_version (needs : list need) (defs : list def) (dynstr : bytes) (v : Z) : option version :=
  let ndx := Z.land v 0x7fff in
  if ndx =? 0 then Some Local else if ndx =? 1 then Some Global
  else match List.find (fun e => need_other e =? ndx) needs with
       | Some e =>
           file ← cstr dynstr (need_file e); name ← cstr dynstr (need_name e);
           if elf_hash name =? need_hash e then Some (Needs file name) else None
       | None =>
           e ← List.find (fun e => def_ndx e =? ndx) defs; name ← cstr dynstr (def_name e);
           if elf_hash name =? def_hash e then Some (Defines name (negb (Z.land v VERSYM_HIDDEN =? 0))) else None
       end.

(** What the number of a symbol has to mean. Without version definitions every symbol
    without a version is global. *)
Definition version_of (definitions : list bytes) (s : VerSymbol) : option version :=
  if is_versioned s then Needs (soname_of s) <$> get_version s
  else match definitions with
       | [] => Some Global
       | _ =>
           let ndx := Z.land (ver_idx s) 0x7fff in
           if ndx =? 0 then Some Local else if ndx =? 1 then Some Global
           else v ← definitions !! Z.to_nat (ndx - 2); Some (Defines v (negb (Z.land (ver_idx s) VERSYM_HIDDEN =? 0)))
       end.

(** ** Encodings *)

Definition field (n : nat) (x : Z) : bytes := host big (le_store n x).

Lemma length_field n x : length (field n x) = n.
Proof. unfold field. by rewrite length_host, length_le_store. Qed.

Lemma zlen_field n x : zlen (field n x) = Z.of_nat n.
Proof. unfold zlen. by rewrite length_field. Qed.

Lemma field_zero n : field n 0 = replicate n 0.
Proof.
  unfold field. assert (E : le_store n 0 = replicate n 0) by (induction n as [|n IH]; [done|]; simpl; by rewrite Zdiv_0_l, IH).
  rewrite E. unfold host. destruct big; [by rewrite reverse_replicate|done].
Qed.

Lemma modify_at n f off buf a x c : buf = a ++ field n x ++ c -> off = zlen a -> is_u (8 * Z.of_nat n) x ->
  modify big n f off buf = Some (a ++ field n (f x) ++ c).
Proof.
  intros -> -> Hx. unfold modify. replace (in_buf n (a ++ field n x ++ c) (zlen a)) with true.
  2:{ symmetry. apply in_buf_true. rewrite !zlen_app, zlen_field. pose proof (zlen_nonneg a). pose proof (zlen_nonneg c). lia. }
  unfold zlen at 2. rewrite Nat2Z.id, drop_app_length.
  replace (take n (field n x ++ c)) with (field n x) by (rewrite <- (length_field n x) at 2; by rewrite take_app_length).
  unfold field at 1. rewrite host_host, le_load_store, wrap_small by done. apply (poke_list a (field n x) (field n (f x))). by rewrite !length_field.
Qed.

Lemma assign_at n x off buf a y c : buf = a ++ y ++ c -> off = zlen a -> length y = n -> assign big n x off buf = Some (a ++ field n x ++ c).
Proof.
  intros -> -> Hy. unfold assign, modify. replace (in_buf n (a ++ y ++ c) (zlen a)) with true.
  2:{ symmetry. apply in_buf_true. rewrite !zlen_app. unfold zlen. lia. }
  apply (poke_list a y (field n x)). by rewrite length_field.
Qed.

Lemma fetch_at n x off buf a c : buf = a ++ field n x ++ c -> off = zlen a -> is_u (8 * Z.of_nat n) x -> fetch n off buf = Some x.
Proof.
  intros -> -> Hx. unfold fetch. replace (in_buf n (a ++ field n x ++ c) (zlen a)) with true.
  2:{ symmetry. apply in_buf_true. rewrite !zlen_app, zlen_field. pose proof (zlen_nonneg a). pose proof (zlen_nonneg c). lia. }
  unfold zlen. rewrite Nat2Z.id, drop_app_length.
  replace (take n (field n x ++ c)) with (field n x) by (rewrite <- (length_field n x) at 2; by rewrite take_app_length).
  unfold field. by rewrite host_host, le_load_store, wrap_small.
Qed.

(** A group of .gnu.version_r: its file and its entries (hash, number, name). *)
Record aux_entry := mkAuxEntry { ae_hash : Z; ae_other : Z; ae_name : Z }.
Record group := mkGroup { g_file : Z; g_auxs : list aux_entry }.

Definition enc_aux (next : Z) (e : aux_entry) : bytes :=
  field 4 (ae_hash e) ++ field 2 0 ++ field 2 (ae_other e) ++ field 4 (ae_name e) ++ field 4 next.
Definition enc_head (next cnt : Z) (file : Z) : bytes :=
  field 2 1 ++ field 2 cnt ++ field 4 file ++ field 4 VERNEED_SIZE ++ field 4 next.

(** Entries that others follow, and all of them. *)
Definition chained_auxs (l : list aux_entry) : bytes := concat (map (enc_aux VERNAUX_SIZE) l).
Definition enc_auxs (l : list aux_entry) : bytes :=
  match last l with Some e => chained_auxs (removelast l) ++ enc_aux 0 e | None => [] end.
Definition enc_group (next : Z) (g : group) : bytes := enc_head next (zlen (g_auxs g)) (g_file g) ++ enc_auxs (g_auxs g).
Definition group_size (g : group) : Z := 16 + 16 * zlen (g_auxs g).
Definition chained_groups (gs : list group) : bytes := concat (map (fun g => enc_group (group_size g) g) gs).
Definition enc_groups (gs : list group) (g : group) : bytes := chained_groups gs ++ enc_group 0 g.

Lemma zlen_enc_aux next e : zlen (enc_aux next e) = 16.
Proof. unfold enc_aux. rewrite !zlen_app, !zlen_field. done. Qed.
Lemma zlen_enc_head next cnt file : zlen (enc_head next cnt file) = 16.
Proof. unfold enc_head. rewrite !zlen_app, !zlen_field. done. Qed.
Lemma zlen_chained l : zlen (chained_auxs l) = 16 * zlen l.
Proof. induction l as [|e l IH]; [done|]. unfold chained_auxs. cbn [map concat]. fold (chained_auxs l). rewrite zlen_app, zlen_enc_aux, IH. unfold zlen. simpl. lia. Qed.
Lemma enc_auxs_snoc l e : enc_auxs (l ++ [e]) = chained_auxs l ++ enc_aux 0 e.
Proof. unfold enc_auxs. by rewrite last_snoc, removelast_last. Qed.
Lemma zlen_enc_auxs l : zlen (enc_auxs l) = 16 * zlen l.
Proof. destruct l as [|e l _] using rev_ind; [done|]. rewrite enc_auxs_snoc, zlen_app, zlen_chained, zlen_enc_aux, zlen_app. unfold zlen. simpl. lia. Qed.
Lemma zlen_enc_group next g : zlen (enc_group next g) = group_size g.
Proof. unfold enc_group, group_size. by rewrite zlen_app, zlen_enc_head, zlen_enc_auxs. Qed.
Lemma chained_auxs_snoc l e : chained_auxs (l ++ [e]) = chained_auxs l ++ enc_aux VERNAUX_SIZE e.
Proof. unfold chained_auxs. rewrite map_app, concat_app. simpl. by rewrite app_nil_r. Qed.
Lemma chained_groups_snoc gs g : chained_groups (gs ++ [g]) = chained_groups gs ++ enc_group (group_size g) g.
Proof. unfold chained_groups. rewrite map_app, concat_app. simpl. by rewrite app_nil_r. Qed.

Lemma zeros_split n m k : (n + m = k)%nat -> replicate k 0 = replicate n 0 ++ replicate m (0 : Z).
Proof. intros <-. apply replicate_add. Qed.

Lemma zlen_zeros n : zlen (replicate n (0 : Z)) = Z.of_nat n.
Proof. unfold zlen. by rewrite length_replicate. Qed.

(** The buffer while it is filled: groups that are finished, the current one, and space. *)
Record represents (st : need_state) (gs : list group) (g : group) (space : nat) : Prop := {
  rp_buf : need_buf st = enc_groups gs g ++ replicate space 0;
  rp_ptr : ptr st = zlen (enc_groups gs g);
  rp_need : verneed st = Some (zlen (chained_groups gs));
  rp_aux : aux st = match g_auxs g with [] => None | _ => Some (ptr st - 16) end }.

(** Lengths of concatenations. *)
Ltac by_len := unfold enc_groups, enc_group, enc_head, enc_aux; rewrite ?zlen_app, ?zlen_field, ?zlen_zeros, ?zlen_chained, ?zlen_enc_aux; lia.

Lemma first_group s st file space : verneed st = None -> ptr st = 0 -> need_buf st = replicate (16 + space) 0 ->
  find_string (soname_of s) (need_dynstr st) = Some file ->
  exists st', start_group s st = Some st' /\ represents st' [] (mkGroup file []) space /\ veridx st' = veridx st /\ need_info st' = need_info st + 1 /\
    need_dynstr st' = need_dynstr st /\ versym st' = versym st.
Proof.
  intros Hv Hp Hb Hf. unfold start_group. rewrite Hv, Hp, Hb, Hf. cbn [mbind option_bind].
  rewrite (assign_at 2 1 0 _ [] (replicate 2 0) (replicate (14 + space) 0)) by done. cbn [mbind option_bind].
  rewrite (assign_at 4 file (0 + 4) _ (field 2 1 ++ replicate 2 0) (replicate 4 0) (replicate (8 + space) 0)); [|by rewrite <- app_assoc|by_len|done].
  cbn [mbind option_bind].
  rewrite (assign_at 4 VERNEED_SIZE (0 + 8) _ (field 2 1 ++ replicate 2 0 ++ field 4 file) (replicate 4 0) (replicate (4 + space) 0)); [|by rewrite <- !app_assoc|by_len|done].
  cbn [mbind option_bind]. eexists. split; [reflexivity|]. split; [|done]. split; cbn [need_buf ptr verneed aux g_auxs].
  - unfold enc_groups, enc_group, enc_head. cbn [chained_groups map concat g_auxs g_file]. change (zlen []) with 0. rewrite !field_zero, <- !app_assoc. done.
  - unfold enc_groups. rewrite zlen_app, zlen_enc_group. done.
  - done.
  - done.
Qed.

(** The next group: the current one is chained to it. *)
Lemma next_group s st gs g file space : represents st gs g (16 + space) -> find_string (soname_of s) (need_dynstr st) = Some file ->
  exists st', start_group s st = Some st' /\ represents st' (gs ++ [g]) (mkGroup file []) space /\ veridx st' = veridx st /\
    need_info st' = need_info st + 1 /\ need_dynstr st' = need_dynstr st /\ versym st' = versym st.
Proof.
  intros [Hb Hp Hv _] Hf. unfold start_group. rewrite Hv, Hb, Hf. cbn [mbind option_bind].
  set (A := chained_groups gs) in *. assert (Ep : ptr st = zlen A + group_size g) by (rewrite Hp; unfold enc_groups; by rewrite zlen_app, zlen_enc_group).
  set (H := field 2 1 ++ field 2 (zlen (g_auxs g)) ++ field 4 (g_file g) ++ field 4 VERNEED_SIZE).
  assert (EG : forall n, enc_group n g = H ++ field 4 n ++ enc_auxs (g_auxs g)) by (intros n; unfold enc_group, enc_head, H; by rewrite <- !app_assoc).
  assert (LH : zlen H = 12) by (unfold H; by rewrite !zlen_app, !zlen_field).
  rewrite (assign_at 4 (ptr st - zlen A) (zlen A + 12) _ (A ++ H) (field 4 0) (enc_auxs (g_auxs g) ++ replicate (16 + space) 0));
    [|unfold enc_groups; fold A; rewrite EG, <- !app_assoc; done|rewrite zlen_app; lia|apply length_field]. cbn [mbind option_bind].
  replace (ptr st - zlen A) with (group_size g) by lia. set (B := A ++ enc_group (group_size g) g).
  assert (LB : zlen B = ptr st) by (unfold B; rewrite zlen_app, zlen_enc_group; lia).
  assert (EB : (A ++ H) ++ field 4 (group_size g) ++ enc_auxs (g_auxs g) ++ replicate (16 + space) 0 = B ++ replicate (16 + space) 0)
    by (unfold B; rewrite EG, <- !app_assoc; done). rewrite EB. clear EB.
  rewrite (assign_at 2 1 (ptr st) _ B (replicate 2 0) (replicate (14 + space) 0)); [|done|done|done]. cbn [mbind option_bind].
  rewrite (assign_at 4 file (ptr st + 4) _ (B ++ field 2 1 ++ replicate 2 0) (replicate 4 0) (replicate (8 + space) 0)); [|by rewrite <- !app_assoc|by_len|done].
  cbn [mbind option_bind].
  rewrite (assign_at 4 VERNEED_SIZE (ptr st + 8) _ (B ++ field 2 1 ++ replicate 2 0 ++ field 4 file) (replicate 4 0) (replicate (4 + space) 0)); [|by rewrite <- !app_assoc|by_len|done].
  cbn [mbind option_bind]. eexists. split; [reflexivity|]. split; [|done].
  assert (EC : chained_groups (gs ++ [g]) = B) by apply chained_groups_snoc.
  split; cbn [need_buf ptr verneed aux g_auxs]; unfold enc_groups; rewrite ?EC.
  - unfold enc_group, enc_head. cbn [g_auxs g_file]. change (zlen []) with 0. rewrite !field_zero, <- !app_assoc. done.
  - rewrite zlen_app, zlen_enc_group, LB. done.
  - by rewrite LB.
  - done.
Qed.

Lemma enc_head_count next cnt file : enc_head next cnt file = field 2 1 ++ field 2 cnt ++ field 4 file ++ field 4 VERNEED_SIZE ++ field 4 next.
Proof. done. Qed.

(** Another entry of the current group. *)
Lemma next_entry s st gs g space verstr : represents st gs g (16 + space) -> get_version s = Some verstr -> zlen (g_auxs g) < 2 ^ 16 - 1 ->
  let '(name, dynstr) := add_string verstr (need_dynstr st) in
  exists st', add_entry s st = Some st' /\
    represents st' gs (mkGroup (g_file g) (g_auxs g ++ [mkAuxEntry (elf_hash verstr) (u16 (veridx st + 1)) name])) space /\
    veridx st' = u16 (veridx st + 1) /\ need_info st' = need_info st /\ need_dynstr st' = dynstr /\ versym st' = versym st.
Proof.
  intros [Hb Hp Hv Ha] Hver Hlen. destruct (add_string verstr (need_dynstr st)) as [name dynstr] eqn:Ed. unfold add_entry. rewrite Hv, Hb. cbn [mbind option_bind].
  set (A := chained_groups gs) in *. set (l := g_auxs g) in *. assert (Ep : ptr st = zlen A + 16 + 16 * zlen l) by (rewrite Hp; unfold enc_groups; rewrite zlen_app, zlen_enc_group; unfold group_size; fold l A; lia).
  pose proof (zlen_nonneg l).
  rewrite (modify_at 2 _ (zlen A + 2) _ (A ++ field 2 1) (zlen l) (field 4 (g_file g) ++ field 4 VERNEED_SIZE ++ field 4 0 ++ enc_auxs l ++ replicate (16 + space) 0));
    [|unfold enc_groups, enc_group, enc_head; fold A l; by rewrite <- !app_assoc|by_len|unfold is_u; simpl; lia]. cbn [mbind option_bind].
  set (B := A ++ enc_head 0 (zlen l + 1) (g_file g)). assert (LB : zlen B = zlen A + 16) by (unfold B; rewrite zlen_app, zlen_enc_head; done).
  match goal with |- context [aux st] => idtac end.
  assert (EB : (A ++ field 2 1) ++ field 2 (zlen l + 1) ++ field 4 (g_file g) ++ field 4 VERNEED_SIZE ++ field 4 0 ++ enc_auxs l ++ replicate (16 + space) 0 =
    B ++ enc_auxs l ++ replicate (16 + space) 0) by (unfold B, enc_head; rewrite <- !app_assoc; done). rewrite EB. clear EB.
  assert (E2 : match aux st with Some a => assign big 4 VERNAUX_SIZE (a + 12) (B ++ enc_auxs l ++ replicate (16 + space) 0) | None => Some (B ++ enc_auxs l ++ replicate (16 + space) 0) end =
    Some (B ++ chained_auxs l ++ replicate (16 + space) 0)).
  { rewrite Ha. destruct l as [|e l' _] using rev_ind; [done|]. replace (match l' ++ [e] with [] => None | _ => Some (ptr st - 16) end) with (Some (ptr st - 16)) by (by destruct l').
    rewrite enc_auxs_snoc, chained_auxs_snoc. set (C := field 4 (ae_hash e) ++ field 2 0 ++ field 2 (ae_other e) ++ field 4 (ae_name e)).
    assert (LC : zlen C = 12) by (unfold C; by rewrite !zlen_app, !zlen_field). assert (EE : forall n, enc_aux n e = C ++ field 4 n) by (intros n; unfold enc_aux, C; by rewrite <- !app_assoc).
    rewrite !EE. rewrite (assign_at 4 VERNAUX_SIZE _ _ (B ++ chained_auxs l' ++ C) (field 4 0) (replicate (16 + space) 0)); [by rewrite <- !app_assoc|by rewrite <- !app_assoc| |apply length_field].
    rewrite Ep, !zlen_app, zlen_chained, LB, LC. unfold zlen. simpl. lia. }
  rewrite E2. clear E2. rewrite Hver. cbn [mbind option_bind]. rewrite Ed.
  set (D := B ++ chained_auxs l). assert (LD : zlen D = ptr st) by (unfold D; rewrite zlen_app, zlen_chained, LB; lia).
  rewrite (assign_at 4 (elf_hash verstr) (ptr st) _ D (replicate 4 0) (replicate (12 + space) 0)); [|unfold D; by rewrite <- app_assoc|done|done]. cbn [mbind option_bind].
  rewrite (assign_at 2 (u16 (veridx st + 1)) (ptr st + 6) _ (D ++ field 4 (elf_hash verstr) ++ replicate 2 0) (replicate 2 0) (replicate (8 + space) 0)); [|by rewrite <- !app_assoc|by_len|done].
  cbn [mbind option_bind].
  rewrite (assign_at 4 name (ptr st + 8) _ (D ++ field 4 (elf_hash verstr) ++ replicate 2 0 ++ field 2 (u16 (veridx st + 1))) (replicate 4 0) (replicate (4 + space) 0)); [|by rewrite <- !app_assoc|by_len|done].
  cbn [mbind option_bind]. eexists. split; [reflexivity|]. split; [|done].
  assert (Lz : zlen (l ++ [mkAuxEntry (elf_hash verstr) (u16 (veridx st + 1)) name]) = zlen l + 1) by (rewrite zlen_app; done).
  split; cbn [need_buf ptr verneed aux g_auxs g_file].
  - unfold enc_groups, enc_group. cbn [g_auxs g_file]. rewrite Lz, enc_auxs_snoc. fold A. unfold D, B, enc_aux. cbn [ae_hash ae_other ae_name]. rewrite !field_zero, <- !app_assoc. done.
  - unfold enc_groups. rewrite zlen_app, zlen_enc_group. unfold group_size. cbn [g_auxs]. rewrite Lz. fold A. unfold VERNAUX_SIZE. lia.
  - done.
  - destruct l; simpl; f_equal; unfold VERNAUX_SIZE; lia.
Qed.

(** ** What the loop has written *)

Definition entries (gs : list group) : list (Z * aux_entry) := concat (map (fun g => map (pair (g_file g)) (g_auxs g)) gs).

Lemma entries_snoc gs g : entries (gs ++ [g]) = entries gs ++ map (pair (g_file g)) (g_auxs g).
Proof. unfold entries. rewrite map_app, concat_app. simpl. by rewrite app_nil_r. Qed.

Lemma entries_fresh gs file : entries (gs ++ [mkGroup file []]) = entries gs.
Proof. rewrite entries_snoc. simpl. apply app_nil_r. Qed.

Lemma entries_add gs file l e : entries (gs ++ [mkGroup file (l ++ [e])]) = entries (gs ++ [mkGroup file l]) ++ [(file, e)].
Proof. rewrite !entries_snoc. cbn [g_file g_auxs]. rewrite map_app. by rewrite app_assoc. Qed.

(** The entry is about the file and the version of the symbol. *)
Record describes (d : DynstrSection) (s : VerSymbol) (p : Z * aux_entry) : Prop := {
  ds_file : find_string (soname_of s) d = Some p.1;
  ds_version : exists verstr, get_version s = Some verstr /\ ae_hash p.2 = elf_hash verstr /\ find_string verstr d = Some (ae_name p.2) }.

Definition extends (d d' : DynstrSection) : Prop := forall s o, find_string s d = Some o -> find_string s d' = Some o.

Lemma describes_extends d d' s p : extends d d' -> describes d s p -> describes d' s p.
Proof. intros Hx [H1 (v & H2 & H3 & H4)]. split; [by apply Hx|]. exists v. split; [done|]. split; [done|]. by apply Hx. Qed.

Lemma describes_same d p s e : ver_dso p = ver_dso s -> ver_idx p = ver_idx s -> describes d p e -> describes d s e.
Proof.
  intros H1 H2 [E1 (v & E2 & E3 & E4)]. unfold soname_of, get_version in *. rewrite H1 in *. rewrite H2 in *. split; [done|]. by exists v.
Qed.

(** The symbols that are done, the entries and .gnu.version, which was [l] before. *)
Record known (base : Z) (l : list Z) (did : list VerSymbol) (st : need_state) (es : list (Z * aux_entry)) : Prop := {
  kn_others : forall i p, es !! i = Some p -> ae_other p.2 = base + 1 + Z.of_nat i;
  kn_last : veridx st = base + zlen es;
  kn_count : zlen es <= zlen did;
  kn_syms : forall s, s ∈ did -> exists p, p ∈ es /\ describes (need_dynstr st) s p /\ versym st !! dynsym_index s = Some (ae_other p.2);
  kn_used : forall p, p ∈ es -> exists s, s ∈ did /\ describes (need_dynstr st) s p;
  kn_rest : forall i, (forall s, s ∈ did -> dynsym_index s <> i) -> versym st !! i = l !! i;
  kn_length : length (versym st) = length l }.

Lemma u16_small x : 0 <= x < 2 ^ 16 -> u16 x = x.
Proof. apply wrap_small. Qed.

Lemma set_versym_ok i v l : (i < length l)%nat -> 0 <= v < 2 ^ 16 -> set_versym i v l = Some (<[i := v]> l).
Proof. intros H1 H2. unfold set_versym. rewrite bool_decide_eq_true_2 by done. by rewrite u16_small. Qed.

Definition with_versym (l : list Z) (st : need_state) : need_state :=
  mkNeed (need_buf st) (ptr st) (verneed st) (aux st) (veridx st) (need_info st) (need_dynstr st) l.

(** A symbol gets the number of the last entry. *)
Lemma known_symbol base l did st es s p : known base l did st es -> last es = Some p -> describes (need_dynstr st) s p ->
  (forall x, x ∈ did -> dynsym_index x <> dynsym_index s) -> (dynsym_index s < length l)%nat -> 0 <= base -> base + zlen es < 2 ^ 15 ->
  exists v, set_versym (dynsym_index s) (veridx st) (versym st) = Some v /\ known base l (did ++ [s]) (with_versym v st) es.
Proof.
  intros [K1 K2 K3 K4 K5 K6 K7] Hlast Hd Hn Hi H0 Hb. pose proof (zlen_nonneg es).
  assert (Hp : ae_other p.2 = veridx st).
  { rewrite last_lookup in Hlast. rewrite (K1 _ _ Hlast), K2. apply lookup_lt_Some in Hlast. unfold zlen. lia. }
  rewrite set_versym_ok by (rewrite ?K7; lia). exists (<[dynsym_index s := veridx st]> (versym st)).
  split; [done|]. split; cbn [with_versym veridx versym need_dynstr]; try done.
  - rewrite zlen_app. unfold zlen in *. simpl. lia.
  - intros x [Hx|Hx]%elem_of_app.
    + destruct (K4 x Hx) as (q & Hq & Dq & Vq). exists q. split; [done|]. split; [done|]. rewrite list_lookup_insert_ne; [done|]. intros E. by apply (Hn x Hx).
    + apply list_elem_of_singleton in Hx as ->. exists p. split; [rewrite last_lookup in Hlast; by eapply list_elem_of_lookup_2|]. split; [done|].
      rewrite list_lookup_insert_eq by lia. by rewrite Hp.
  - intros q Hq. destruct (K5 q Hq) as (x & Hx & Dx). exists x. split; [|done]. apply elem_of_app. by left.
  - intros i Hix. rewrite list_lookup_insert_ne; [|apply Hix; apply elem_of_app; right; by constructor]. apply K6. intros x Hx. apply Hix. apply elem_of_app. by left.
  - by rewrite length_insert.
Qed.

(** A new entry and its first symbol. *)
Lemma known_entry base l did st st' es s p : known base l did st es -> extends (need_dynstr st) (need_dynstr st') -> veridx st' = veridx st + 1 ->
  versym st' = versym st -> ae_other p.2 = veridx st' -> describes (need_dynstr st') s p ->
  (forall x, x ∈ did -> dynsym_index x <> dynsym_index s) -> (dynsym_index s < length l)%nat -> 0 <= base -> base + zlen es + 1 < 2 ^ 15 ->
  exists v, set_versym (dynsym_index s) (veridx st') (versym st') = Some v /\ known base l (did ++ [s]) (with_versym v st') (es ++ [p]).
Proof.
  intros [K1 K2 K3 K4 K5 K6 K7] Hx Hv Hl Hp Hd Hn Hi H0 Hb. pose proof (zlen_nonneg es). rewrite Hl.
  rewrite set_versym_ok by (rewrite ?K7; lia). exists (<[dynsym_index s := veridx st']> (versym st)). split; [done|].
  split; cbn [with_versym veridx versym need_dynstr].
  - intros i q Hq. apply lookup_snoc in Hq as [Hq|[-> ->]]; [by apply K1|]. rewrite Hp, Hv, K2. unfold zlen. lia.
  - rewrite zlen_app. unfold zlen in *. simpl. lia.
  - rewrite !zlen_app. unfold zlen in *. simpl. lia.
  - intros x [Hxin|Hxin]%elem_of_app.
    + destruct (K4 x Hxin) as (q & Hq & Dq & Vq). exists q. split; [apply elem_of_app; by left|]. split; [by eapply describes_extends|].
      rewrite list_lookup_insert_ne; [done|]. intros E. by apply (Hn x Hxin).
    + apply list_elem_of_singleton in Hxin as ->. exists p. split; [apply elem_of_app; right; by constructor|]. split; [done|].
      rewrite list_lookup_insert_eq by lia. by rewrite Hp.
  - intros q [Hq|Hq]%elem_of_app.
    + destruct (K5 q Hq) as (x & Hxin & Dx). exists x. split; [apply elem_of_app; by left|by eapply describes_extends].
    + apply list_elem_of_singleton in Hq as ->. exists s. split; [apply elem_of_app; right; by constructor|done].
  - intros i Hix. rewrite list_lookup_insert_ne; [|apply Hix; apply elem_of_app; right; by constructor]. apply K6. intros x Hxin. apply Hix. apply elem_of_app. by left.
  - by rewrite length_insert.
Qed.

(** ** The loop *)

Record loop_inv (names : list bytes) (d0 : DynstrSection) (base : Z) (l : list Z) (did : list VerSymbol) (prev : VerSymbol) (st : need_state)
    (gs : list group) (g : group) (space : nat) : Prop := {
  li_rep : represents st gs g space;
  li_known : known base l did st (entries (gs ++ [g]));
  li_last : exists p, last (entries (gs ++ [g])) = Some p /\ describes (need_dynstr st) prev p;
  li_file : find_string (soname_of prev) (need_dynstr st) = Some (g_file g);
  li_dynstr : dynstr_ok names (need_dynstr st);
  li_size : 1 <= dynstr_size (need_dynstr st);
  li_extends : extends d0 (need_dynstr st);
  li_offset : dynsym_offset (need_dynstr st) = dynsym_offset d0;
  li_groups : Forall (fun g => g_auxs g <> []) (gs ++ [g]);
  li_info : need_info st = zlen gs + 1 }.

(** What a symbol needs: its version and the name of its file in .dynstr. *)
Record need_ok (d : DynstrSection) (n : nat) (s : VerSymbol) : Prop := {
  no_version : is_Some (get_version s);
  no_file : is_Some (find_string (soname_of s) d);
  no_index : (dynsym_index s < n)%nat }.

Lemma dynstr_extends_trans d1 d2 d3 : extends d1 d2 -> extends d2 d3 -> extends d1 d3.
Proof. intros H1 H2 s o H. by apply H2, H1. Qed.

(** An entry for a symbol in a group of its file. *)
Lemma entry_step names d0 base l did st gs file es s space : represents st gs (mkGroup file es) (16 + space) ->
  known base l did st (entries (gs ++ [mkGroup file es])) -> find_string (soname_of s) (need_dynstr st) = Some file ->
  dynstr_ok names (need_dynstr st) -> extends d0 (need_dynstr st) -> dynsym_offset (need_dynstr st) = dynsym_offset d0 ->
  Forall (fun g => g_auxs g <> []) gs -> need_info st = zlen gs + 1 ->
  need_ok d0 (length l) s -> (forall x, x ∈ did -> dynsym_index x <> dynsym_index s) -> 0 <= base -> base + zlen did + 1 < 2 ^ 15 ->
  exists st1 v g', add_entry s st = Some st1 /\ set_versym (dynsym_index s) (veridx st1) (versym st1) = Some v /\
    loop_inv names d0 base l (did ++ [s]) s (with_versym v st1) gs g' space.
Proof.
  intros R K Hf Hok Hext Hoff Hg Hinfo [[verstr Hv] _ Hi] Hn H0 Hb. pose proof (kn_count _ _ _ _ _ K) as Hc. pose proof (kn_last _ _ _ _ _ K) as Hl.
  set (E := entries (gs ++ [mkGroup file es])) in *. pose proof (zlen_nonneg E).
  assert (Hes : zlen es <= zlen E). { unfold E. rewrite entries_snoc, zlen_app. cbn [g_auxs]. pose proof (zlen_nonneg (entries gs)). unfold zlen in *. rewrite length_map. lia. }
  pose proof (next_entry s st gs (mkGroup file es) space verstr R Hv ltac:(cbn [g_auxs]; lia)) as N.
  pose proof (add_string_ok names verstr (need_dynstr st) Hok) as A. destruct (add_string verstr (need_dynstr st)) as [name dynstr].
  destruct N as (st1 & E1 & R1 & V1 & I1 & D1 & S1). destruct A as (A1 & A2 & A3 & A4 & A5). cbn [g_file g_auxs] in R1.
  rewrite u16_small in R1, V1 by lia. set (e := mkAuxEntry (elf_hash verstr) (veridx st + 1) name) in *.
  assert (Hd : describes (need_dynstr st1) s (file, e)).
  { rewrite D1. split; [by apply A5|]. exists verstr. done. }
  destruct (known_entry base l did st st1 E s (file, e) K) as (v & Ev & K1); try done; [by rewrite D1|lia|].
  exists st1, v, (mkGroup file (es ++ [e])). split; [done|]. split; [done|].
  assert (EE : entries (gs ++ [mkGroup file (es ++ [e])]) = E ++ [(file, e)]) by apply entries_add.
  split; rewrite ?EE; cbn [with_versym need_dynstr need_info g_file].
  - destruct R1 as [B1 B2 B3 B4]. by split.
  - done.
  - exists (file, e). by rewrite last_snoc.
  - apply Hd.
  - by rewrite D1.
  - by rewrite D1.
  - rewrite D1. by eapply dynstr_extends_trans.
  - by rewrite D1, A4.
  - apply Forall_app. split; [done|]. repeat constructor. cbn [g_auxs]. by destruct es.
  - by rewrite I1.
Qed.

Lemma loop_inv_symbol names d0 base l did p s st gs g space : loop_inv names d0 base l did p st gs g (32 + space) ->
  need_ok d0 (length l) s -> (forall x, x ∈ did -> dynsym_index x <> dynsym_index s) -> 0 <= base -> base + zlen did + 1 < 2 ^ 15 ->
  exists st' gs' g' space', need_symbol (Some p) s st = Some st' /\ (space <= space')%nat /\ loop_inv names d0 base l (did ++ [s]) s st' gs' g' space'.
Proof.
  intros I Hs Hn H0 Hb. pose proof I as [R K (q & Hq & Dq) Hf Hok Hsz Hext Hoff Hg Hinfo]. pose proof (kn_count _ _ _ _ _ K) as Hc. unfold need_symbol.
  case_bool_decide as Ed; cbn [negb].
  - destruct (Z.eqb_spec (ver_idx p) (ver_idx s)) as [Ev|Ev]; cbn [negb mbind option_bind].
    + pose proof (describes_same _ _ _ _ Ed Ev Dq) as Ds.
      destruct (known_symbol base l did st _ s q K Hq Ds Hn (no_index _ _ _ Hs) H0 ltac:(lia)) as (v & -> & K1). cbn [mbind option_bind].
      exists (with_versym v st), gs, g, (32 + space)%nat. split; [done|]. split; [lia|]. split; cbn [with_versym need_dynstr need_info]; try done.
      * destruct R as [B1 B2 B3 B4]. by split.
      * by exists q.
      * unfold soname_of in *. by rewrite <- Ed.
    + assert (Hf' : find_string (soname_of s) (need_dynstr st) = Some (g_file g)) by (unfold soname_of in *; by rewrite <- Ed).
      destruct g as [file es]. apply Forall_app in Hg as [Hg _].
      destruct (entry_step names d0 base l did st gs file es s (16 + space) R K Hf' Hok Hext Hoff Hg Hinfo Hs Hn H0 Hb) as (st1 & v & g' & -> & E2 & I').
      cbn [mbind option_bind]. rewrite E2. cbn [mbind option_bind]. exists (with_versym v st1), gs, g', (16 + space)%nat. split; [done|]. split; [lia|done].
  - destruct (no_file _ _ _ Hs) as [file Hfile]. apply Hext in Hfile as Hfile'.
    destruct (next_group s st gs g file (16 + space) R Hfile') as (st1 & -> & R1 & V1 & I1 & D1 & S1). cbn [mbind option_bind].
    assert (K1 : known base l did st1 (entries ((gs ++ [g]) ++ [mkGroup file []]))).
    { rewrite entries_fresh. destruct K as [K1 K2 K3 K4 K5 K6 K7]. split; rewrite ?V1, ?D1, ?S1; done. }
    destruct (entry_step names d0 base l did st1 (gs ++ [g]) file [] s space R1 K1) as (st2 & v & g' & -> & E2 & I'); rewrite ?D1; try done.
    { rewrite I1, Hinfo, zlen_app. done. }
    cbn [mbind option_bind]. rewrite E2. cbn [mbind option_bind]. exists (with_versym v st2), (gs ++ [g]), g', space. done.
Qed.

(** The first symbol. *)
Lemma loop_inv_first names d0 base l s st space : verneed st = None -> ptr st = 0 -> need_buf st = replicate (32 + space) 0 -> veridx st = base ->
  need_info st = 0 -> need_dynstr st = d0 -> versym st = l -> dynstr_ok names d0 -> need_ok d0 (length l) s -> 0 <= base -> base + 1 < 2 ^ 15 ->
  exists st' g', need_symbol None s st = Some st' /\ loop_inv names d0 base l [s] s st' [] g' space.
Proof.
  intros H1 H2 H3 H4 H5 H6 H7 Hok Hs H0 Hb. destruct (no_file _ _ _ Hs) as [file Hfile]. unfold need_symbol. rewrite <- H6 in Hfile.
  destruct (first_group s st file (16 + space) H1 H2 H3 Hfile) as (st1 & -> & R1 & V1 & I1 & D1 & S1). cbn [mbind option_bind].
  assert (K1 : known base l [] st1 (entries ([] ++ [mkGroup file []]))).
  { split; cbn [entries]; try done; try (by intros x ?%elem_of_nil).
    - rewrite V1, H4. unfold zlen. simpl. lia.
    - intros i _. by rewrite S1, H7.
    - by rewrite S1, H7. }
  rewrite H6 in D1.
  destruct (entry_step names d0 base l [] st1 [] file [] s space R1 K1) as (st2 & v & g' & -> & E2 & I'); rewrite ?D1; try done;
    try (by rewrite <- H6); try (by rewrite I1, H5); try (by intros x ?%elem_of_nil); try (unfold zlen; simpl; lia).
  - by intros x o.
  - cbn [mbind option_bind]. rewrite E2. cbn [mbind option_bind]. by exists (with_versym v st2), g'.
Qed.

Lemma need_loop_ok names d0 base l did p syms st gs g space : loop_inv names d0 base l did p st gs g (32 * length syms + space) ->
  Forall (need_ok d0 (length l)) syms -> NoDup (map dynsym_index (did ++ syms)) -> 0 <= base -> base + zlen (did ++ syms) < 2 ^ 15 ->
  exists st' gs' g' p' space', need_loop (Some p) syms st = Some st' /\ loop_inv names d0 base l (did ++ syms) p' st' gs' g' space'.
Proof.
  revert did p st gs g space. induction syms as [|s syms IH]; intros did p st gs g space I Hs Hn H0 Hb.
  - exists st, gs, g, p, (0 + space)%nat. rewrite app_nil_r. split; [done|exact I].
  - apply Forall_cons in Hs as [Hs Hss]. cbn [need_loop].
    assert (Hfresh : forall x, x ∈ did -> dynsym_index x <> dynsym_index s).
    { intros x Hx E. rewrite map_app in Hn. apply NoDup_app in Hn as (_ & Hn & _). apply (Hn (dynsym_index s)); [|by constructor].
      rewrite <- E. by apply list_elem_of_fmap_2. }
    assert (Hlen : zlen (did ++ s :: syms) = zlen did + 1 + zlen syms) by (rewrite zlen_app; unfold zlen; simpl; lia). pose proof (zlen_nonneg syms).
    replace (32 * length (s :: syms) + space)%nat with (32 + (32 * length syms + space))%nat in I by (simpl; lia).
    destruct (loop_inv_symbol names d0 base l did p s st gs g _ I Hs Hfresh H0 ltac:(lia)) as (st1 & gs1 & g1 & sp1 & -> & Hsp & I1).
    cbn [mbind option_bind].
    replace (did ++ s :: syms) with ((did ++ [s]) ++ syms) in * by (by rewrite <- app_assoc).
    replace sp1 with (32 * length syms + (sp1 - 32 * length syms))%nat in I1 by lia.
    apply (IH _ s st1 gs1 g1 _ I1 Hss); (done || lia).
Qed.

(** ** What the loader reads *)

Record aux_ok (e : aux_entry) : Prop := {
  ao_hash : is_u 32 (ae_hash e); ao_other : is_u 16 (ae_other e); ao_name : is_u 32 (ae_name e) }.
Definition group_ok (g : group) : Prop := is_u 32 (g_file g) /\ g_auxs g <> [] /\ Forall aux_ok (g_auxs g) /\ group_size g < 2 ^ 32.

Definition as_need (p : Z * aux_entry) : need := mkEntry p.1 (ae_hash p.2) (ae_other p.2) (ae_name p.2).

Lemma enc_auxs_cons e l : enc_auxs (e :: l) = enc_aux (match l with [] => 0 | _ => VERNAUX_SIZE end) e ++ enc_auxs l.
Proof.
  destruct l as [|x l _] using rev_ind; [unfold enc_auxs; simpl; by rewrite app_nil_r|].
  rewrite app_comm_cons, !enc_auxs_snoc. replace (match l ++ [x] with [] => 0 | _ => VERNAUX_SIZE end) with VERNAUX_SIZE by (by destruct l).
  unfold chained_auxs. cbn [map concat]. by rewrite <- app_assoc.
Qed.

Lemma load_auxs_ok l fuel file off buf A C : l <> [] -> buf = A ++ enc_auxs l ++ C -> off = zlen A -> (length l <= fuel)%nat -> Forall aux_ok l ->
  load_auxs fuel file off buf = Some (map (fun e => as_need (file, e)) l).
Proof.
  revert fuel off A. induction l as [|e l IH]; intros fuel off A Hl Hb Ho Hf Hok; [done|]. destruct fuel as [|fuel]; [simpl in Hf; lia|].
  apply Forall_cons in Hok as [[Oh Oo On] Hok]. rewrite enc_auxs_cons in Hb. set (next := match l with [] => 0 | _ => VERNAUX_SIZE end) in *.
  unfold enc_aux in Hb. rewrite <- !app_assoc in Hb. cbn [load_auxs].
  rewrite (fetch_at 4 (ae_hash e) off _ A _ Hb Ho Oh). cbn [mbind option_bind].
  rewrite (fetch_at 2 (ae_other e) (off + 6) buf (A ++ field 4 (ae_hash e) ++ field 2 0) (field 4 (ae_name e) ++ field 4 next ++ enc_auxs l ++ C)); [|by rewrite Hb, <- !app_assoc|subst off; by_len|exact Oo].
  cbn [mbind option_bind].
  rewrite (fetch_at 4 (ae_name e) (off + 8) buf (A ++ field 4 (ae_hash e) ++ field 2 0 ++ field 2 (ae_other e)) (field 4 next ++ enc_auxs l ++ C)); [|by rewrite Hb, <- !app_assoc|subst off; by_len|exact On].
  cbn [mbind option_bind].
  rewrite (fetch_at 4 next (off + 12) buf (A ++ field 4 (ae_hash e) ++ field 2 0 ++ field 2 (ae_other e) ++ field 4 (ae_name e)) (enc_auxs l ++ C)); [|by rewrite Hb, <- !app_assoc|subst off; by_len|unfold next; destruct l; vm_compute; (split; [discriminate|reflexivity])].
  cbn [mbind option_bind]. unfold next in *. destruct l as [|x l]; [reflexivity|]. change (VERNAUX_SIZE =? 0) with false. cbv iota.
  rewrite (IH fuel (off + VERNAUX_SIZE) (A ++ enc_aux VERNAUX_SIZE e)); [reflexivity|done| | |simpl in *; lia|done].
  - rewrite Hb. unfold enc_aux. by rewrite <- !app_assoc.
  - rewrite zlen_app, zlen_enc_aux, Ho. done.
Qed.

Lemma load_group g next fuel off buf A C : buf = A ++ enc_group next g ++ C -> off = zlen A -> group_ok g -> is_u 32 next ->
  load_needs (S fuel) off buf = (rest ← if next =? 0 then Some [] else load_needs fuel (off + next) buf;
    Some (map (fun e => as_need (g_file g, e)) (g_auxs g) ++ rest)).
Proof.
  intros Hb Ho (Of & On & Oa & _) Hn. unfold enc_group, enc_head in Hb. rewrite <- !app_assoc in Hb. cbn [load_needs].
  set (cnt := field 2 (zlen (g_auxs g))) in *.
  rewrite (fetch_at 4 (g_file g) (off + 4) buf (A ++ field 2 1 ++ cnt) (field 4 VERNEED_SIZE ++ field 4 next ++ enc_auxs (g_auxs g) ++ C)); [|by rewrite Hb, <- !app_assoc|subst off cnt; by_len|exact Of].
  cbn [mbind option_bind].
  rewrite (fetch_at 4 VERNEED_SIZE (off + 8) buf (A ++ field 2 1 ++ cnt ++ field 4 (g_file g)) (field 4 next ++ enc_auxs (g_auxs g) ++ C)); [|by rewrite Hb, <- !app_assoc|subst off cnt; by_len|done].
  cbn [mbind option_bind].
  rewrite (fetch_at 4 next (off + 12) buf (A ++ field 2 1 ++ cnt ++ field 4 (g_file g) ++ field 4 VERNEED_SIZE) (enc_auxs (g_auxs g) ++ C)); [|by rewrite Hb, <- !app_assoc|subst off cnt; by_len|exact Hn].
  cbn [mbind option_bind].
  rewrite (load_auxs_ok (g_auxs g) (length buf) (g_file g) _ buf (A ++ field 2 1 ++ cnt ++ field 4 (g_file g) ++ field 4 VERNEED_SIZE ++ field 4 next) C); [done|done|by rewrite Hb, <- !app_assoc| | |done].
  - subst off cnt. unfold VERNEED_SIZE. by_len.
  - assert (Hl : zlen buf = zlen A + 16 + 16 * zlen (g_auxs g) + zlen C) by (rewrite Hb; subst cnt; rewrite !zlen_app, !zlen_field, zlen_enc_auxs; lia).
    pose proof (zlen_nonneg A). pose proof (zlen_nonneg C). unfold zlen in *. lia.
Qed.

Lemma load_needs_ok gs g fuel off buf A C : buf = A ++ enc_groups gs g ++ C -> off = zlen A -> Forall group_ok (gs ++ [g]) -> (length gs < fuel)%nat ->
  load_needs fuel off buf = Some (map as_need (entries (gs ++ [g]))).
Proof.
  assert (Hm : forall x rest, map as_need (map (pair (g_file x)) (g_auxs x) ++ rest) = map (fun e => as_need (g_file x, e)) (g_auxs x) ++ map as_need rest)
    by (intros x rest; by rewrite map_app, map_map).
  revert fuel off A. induction gs as [|x gs IH]; intros fuel off A Hb Ho Hok Hf; (destruct fuel as [|fuel]; [lia|]).
  - apply Forall_cons in Hok as [Hg _]. rewrite (load_group g 0 fuel off buf A C Hb Ho Hg) by done. cbn [Z.eqb mbind option_bind].
    unfold entries. cbn [app map concat]. by rewrite Hm.
  - apply Forall_cons in Hok as [Hx Hok]. unfold enc_groups, chained_groups in Hb. cbn [map concat] in Hb. fold (chained_groups gs) in Hb.
    pose proof Hx as (_ & _ & _ & Hsz). assert (Hpos : 16 <= group_size x) by (unfold group_size; pose proof (zlen_nonneg (g_auxs x)); lia).
    rewrite (load_group x (group_size x) fuel off buf A (enc_groups gs g ++ C)); [|rewrite Hb; unfold enc_groups; by rewrite <- !app_assoc|done|done|unfold is_u; lia].
    destruct (Z.eqb_spec (group_size x) 0); [lia|].
    rewrite (IH fuel (off + group_size x) (A ++ enc_group (group_size x) x)); [|rewrite Hb; unfold enc_groups; by rewrite <- !app_assoc|by rewrite zlen_app, zlen_enc_group, Ho|done|simpl in Hf; lia].
    cbn [mbind option_bind]. unfold entries. cbn [app map concat]. by rewrite Hm.
Qed.

Lemma load_verneed_ok gs g : Forall group_ok (gs ++ [g]) -> load_verneed (enc_groups gs g) = Some (map as_need (entries (gs ++ [g]))).
Proof.
  intros Hok. set (buf := enc_groups gs g). assert (Hl : 16 * Z.of_nat (S (length gs)) <= zlen buf).
  { unfold buf, enc_groups. rewrite zlen_app, zlen_enc_group. assert (16 * Z.of_nat (length gs) <= zlen (chained_groups gs)).
    { clear. induction gs as [|x gs IH]; [done|]. unfold chained_groups. cbn [map concat]. fold (chained_groups gs). rewrite zlen_app, zlen_enc_group.
      unfold group_size. pose proof (zlen_nonneg (g_auxs x)). simpl length. lia. }
    unfold group_size. pose proof (zlen_nonneg (g_auxs g)). lia. }
  unfold load_verneed. destruct buf as [|b0 buf'] eqn:Eb; [unfold zlen in Hl; simpl in Hl; lia|]. rewrite <- Eb.
  apply (load_needs_ok gs g _ 0 buf [] []); [unfold buf; by rewrite app_nil_r|done|done|]. rewrite <- Eb in Hl. unfold zlen in Hl. lia.
Qed.

Lemma elf_hash_u32 name : is_u 32 (elf_hash name).
Proof.
  destruct name as [|c name _] using rev_ind; [by unfold is_u|]. unfold elf_hash. rewrite foldl_app. cbn [foldl]. cbv zeta.
  match goal with |- is_u 32 (Z.land ?a (u32 ?b)) => set (x := a); set (y := b) end.
  assert (E : Z.land x (u32 y) = wrap 32 (Z.land x (u32 y))); [|rewrite E; apply wrap_range; lia].
  unfold u32. rewrite !wrap_land by lia. rewrite <- Z.land_assoc. f_equal. rewrite <- !Z.land_assoc. by rewrite Z.land_diag.
Qed.

(** ** .gnu.version_d: writing and loading *)

Definition enc_def (next : Z) (e : def) : bytes :=
  field 2 1 ++ field 2 (def_flags e) ++ field 2 (def_ndx e) ++ field 2 1 ++ field 4 (def_hash e) ++ field 4 VERDEF_SIZE ++ field 4 next ++
    field 4 (def_name e) ++ field 4 0.
Definition chained_defs (l : list def) : bytes := concat (map (enc_def 28) l).
Definition enc_defs (l : list def) : bytes :=
  match last l with Some e => chained_defs (removelast l) ++ enc_def 0 e | None => [] end.

Lemma zlen_enc_def next e : zlen (enc_def next e) = 28.
Proof. unfold enc_def. rewrite !zlen_app, !zlen_field. done. Qed.
Lemma zlen_chained_defs l : zlen (chained_defs l) = 28 * zlen l.
Proof. induction l as [|e l IH]; [done|]. unfold chained_defs. cbn [map concat]. fold (chained_defs l). rewrite zlen_app, zlen_enc_def, IH. unfold zlen. simpl. lia. Qed.
Lemma enc_defs_snoc l e : enc_defs (l ++ [e]) = chained_defs l ++ enc_def 0 e.
Proof. unfold enc_defs. by rewrite last_snoc, removelast_last. Qed.
Lemma chained_defs_snoc l e : chained_defs (l ++ [e]) = chained_defs l ++ enc_def 28 e.
Proof. unfold chained_defs. rewrite map_app, concat_app. simpl. by rewrite app_nil_r. Qed.
Lemma zlen_enc_defs l : zlen (enc_defs l) = 28 * zlen l.
Proof. destruct l as [|e l _] using rev_ind; [done|]. rewrite enc_defs_snoc, zlen_app, zlen_chained_defs, zlen_enc_def, zlen_app. unfold zlen. simpl. lia. Qed.
Lemma enc_defs_cons e l : enc_defs (e :: l) = enc_def (match l with [] => 0 | _ => 28 end) e ++ enc_defs l.
Proof.
  destruct l as [|x l _] using rev_ind; [unfold enc_defs; simpl; by rewrite app_nil_r|].
  rewrite app_comm_cons, !enc_defs_snoc. replace (match l ++ [x] with [] => 0 | _ => 28 end) with 28 by (by destruct l).
  unfold chained_defs. cbn [map concat]. by rewrite <- app_assoc.
Qed.

(** The buffer while it is filled. *)
Record def_rep (st : def_state) (l : list def) (space : nat) : Prop := {
  dr_buf : def_buf st = enc_defs l ++ replicate space 0;
  dr_ptr : def_ptr st = 28 * zlen l;
  dr_last : verdef st = match l with [] => None | _ => Some (def_ptr st - 28) end;
  dr_info : def_info st = zlen l }.

(** The last definition is chained to the place after it. *)
Lemma chain_defs st l space : def_rep st l space ->
  match verdef st with Some v => assign big 4 (def_ptr st - v) (v + 16) (def_buf st) | None => Some (def_buf st) end = Some (chained_defs l ++ replicate space 0).
Proof.
  intros [Hb Hp Hl _]. rewrite Hl, Hb. destruct l as [|e l _] using rev_ind; [done|].
  replace (match l ++ [e] with [] => None | _ => Some (def_ptr st - 28) end) with (Some (def_ptr st - 28)) by (by destruct l).
  rewrite enc_defs_snoc, chained_defs_snoc. replace (def_ptr st - (def_ptr st - 28)) with 28 by lia.
  set (H := field 2 1 ++ field 2 (def_flags e) ++ field 2 (def_ndx e) ++ field 2 1 ++ field 4 (def_hash e) ++ field 4 VERDEF_SIZE).
  assert (EE : forall n, enc_def n e = H ++ field 4 n ++ field 4 (def_name e) ++ field 4 0) by (intros n; unfold enc_def, H; by rewrite <- !app_assoc).
  assert (LH : zlen H = 16) by (unfold H; by rewrite !zlen_app, !zlen_field). rewrite !EE.
  rewrite (assign_at 4 28 (def_ptr st - 28 + 16) _ (chained_defs l ++ H) (field 4 0) (field 4 (def_name e) ++ field 4 0 ++ replicate space 0));
    [by rewrite <- !app_assoc|by rewrite <- !app_assoc| |apply length_field].
  rewrite Hp, !zlen_app, zlen_chained_defs, LH. unfold zlen. simpl. lia.
Qed.

Lemma write_def_ok verstr idx flags st l space : def_rep st l (28 + space) ->
  let '(name, dynstr) := add_string verstr (def_dynstr st) in
  exists st', write_def verstr idx flags st = Some st' /\ def_rep st' (l ++ [mkDefinition idx flags (elf_hash verstr) name]) space /\ def_dynstr st' = dynstr.
Proof.
  intros R. pose proof R as [_ Hp _ Hi]. destruct (add_string verstr (def_dynstr st)) as [name dynstr] eqn:Ed. unfold write_def. rewrite (chain_defs _ _ _ R), Ed. cbn [mbind option_bind].
  set (D := chained_defs l). assert (LD : zlen D = def_ptr st) by (unfold D; rewrite zlen_chained_defs; lia). set (p := def_ptr st) in *. assert (ED : chained_defs l = D) by done. clearbody D.
  rewrite (assign_at 2 1 p _ D (replicate 2 0) (replicate (26 + space) 0)); [|done|done|done]. cbn [mbind option_bind].
  rewrite (assign_at 2 flags (p + 2) _ (D ++ field 2 1) (replicate 2 0) (replicate (24 + space) 0)); [|by rewrite <- !app_assoc|by_len|done]. cbn [mbind option_bind].
  rewrite (assign_at 2 idx (p + 4) _ (D ++ field 2 1 ++ field 2 flags) (replicate 2 0) (replicate (22 + space) 0)); [|by rewrite <- !app_assoc|by_len|done]. cbn [mbind option_bind].
  rewrite (assign_at 2 1 (p + 6) _ (D ++ field 2 1 ++ field 2 flags ++ field 2 idx) (replicate 2 0) (replicate (20 + space) 0)); [|by rewrite <- !app_assoc|by_len|done]. cbn [mbind option_bind].
  set (H := D ++ field 2 1 ++ field 2 flags ++ field 2 idx ++ field 2 1). assert (LH : zlen H = p + 8) by (unfold H; by_len).
  rewrite (assign_at 4 (elf_hash verstr) (p + 8) _ H (replicate 4 0) (replicate (16 + space) 0)); [|unfold H; by rewrite <- !app_assoc|done|done]. cbn [mbind option_bind].
  rewrite (assign_at 4 VERDEF_SIZE (p + 12) _ (H ++ field 4 (elf_hash verstr)) (replicate 4 0) (replicate (12 + space) 0)); [|by rewrite <- !app_assoc|by_len|done]. cbn [mbind option_bind].
  rewrite (assign_at 4 name (p + VERDEF_SIZE) _ (H ++ field 4 (elf_hash verstr) ++ field 4 VERDEF_SIZE ++ replicate 4 0) (replicate 4 0) (replicate (4 + space) 0));
    [|by rewrite <- !app_assoc|unfold VERDEF_SIZE at 1; by_len|done].
  cbn [mbind option_bind]. eexists. split; [reflexivity|]. split; [|done].
  assert (Lz : zlen (l ++ [mkDefinition idx flags (elf_hash verstr) name]) = zlen l + 1) by (rewrite zlen_app; done).
  split; cbn [def_buf def_ptr verdef def_info].
  - rewrite enc_defs_snoc, ED. unfold H, enc_def. cbn [def_flags def_ndx def_hash def_name]. rewrite !field_zero, <- !app_assoc. done.
  - rewrite Lz. unfold VERDEF_SIZE, VERDAUX_SIZE. lia.
  - destruct l; simpl; f_equal; unfold VERDEF_SIZE, VERDAUX_SIZE; lia.
  - rewrite Lz. lia.
Qed.

(** The definition with the number [idx] is [verstr]. *)
Record defines (d : DynstrSection) (idx : Z) (verstr : bytes) (e : def) : Prop := {
  df_ndx : def_ndx e = idx; df_hash : def_hash e = elf_hash verstr; df_name : find_string verstr d = Some (def_name e) }.

Lemma defines_extends d d' idx verstr e : extends d d' -> defines d idx verstr e -> defines d' idx verstr e.
Proof. intros Hx [H1 H2 H3]. split; [done|done|by apply Hx]. Qed.

(** .dynstr before and after strings are added. *)
Record dynstr_step (names : list bytes) (d d' : DynstrSection) : Prop := {
  dt_ok : dynstr_ok names d'; dt_size : 1 <= dynstr_size d'; dt_extends : extends d d'; dt_offset : dynsym_offset d' = dynsym_offset d }.

Lemma dynstr_step_trans names d1 d2 d3 : dynstr_step names d1 d2 -> dynstr_step names d2 d3 -> dynstr_step names d1 d3.
Proof. intros [A1 A2 A3 A4] [B1 B2 B3 B4]. split; [done|done|by eapply dynstr_extends_trans|congruence]. Qed.

Lemma dynstr_step_refl names d : dynstr_ok names d -> 1 <= dynstr_size d -> dynstr_step names d d.
Proof. intros H1 H2. split; [done|done|by intros s o|done]. Qed.

Lemma write_def_step names verstr idx flags st l space : def_rep st l (28 + space) -> dynstr_ok names (def_dynstr st) ->
  exists st' e, write_def verstr idx flags st = Some st' /\ def_rep st' (l ++ [e]) space /\ dynstr_step names (def_dynstr st) (def_dynstr st') /\
    defines (def_dynstr st') idx verstr e /\ def_flags e = flags.
Proof.
  intros R Hd. pose proof (write_def_ok verstr idx flags st l space R) as W. pose proof (add_string_ok names verstr _ Hd) as S.
  destruct (add_string verstr (def_dynstr st)) as [name dynstr]. destruct W as (st' & W1 & W2 & W3), S as (S1 & S2 & S3 & S4 & S5).
  exists st', (mkDefinition idx flags (elf_hash verstr) name). rewrite W3. by split_and!.
Qed.

Lemma write_defs_step names verstrs idx st l space : def_rep st l (28 * length verstrs + space) -> dynstr_ok names (def_dynstr st) -> 1 <= dynstr_size (def_dynstr st) ->
  exists st' es, write_defs idx verstrs st = Some st' /\ def_rep st' (l ++ es) space /\ dynstr_step names (def_dynstr st) (def_dynstr st') /\
    length es = length verstrs /\ Forall (fun e => def_flags e = 0) es /\
    forall i verstr, verstrs !! i = Some verstr -> exists e, es !! i = Some e /\ defines (def_dynstr st') (idx + Z.of_nat i) verstr e.
Proof.
  revert idx st l. induction verstrs as [|w ws IH]; intros idx st l R Hd Hs.
  { exists st, []. rewrite app_nil_r. split; [done|]. split; [done|]. split; [by apply dynstr_step_refl|]. done. }
  replace (28 * length (w :: ws) + space)%nat with (28 + (28 * length ws + space))%nat in R by (simpl; lia). cbn [write_defs].
  destruct (write_def_step names w idx 0 st l _ R Hd) as (st1 & e & -> & R1 & S1 & D1 & F1). cbn [mbind option_bind].
  destruct (IH (idx + 1) st1 (l ++ [e]) R1) as (st2 & es & -> & R2 & S2 & L2 & F2 & D2); [apply S1|apply S1|].
  exists st2, (e :: es). rewrite <- app_assoc in R2. split; [done|]. split; [exact R2|]. split; [by eapply dynstr_step_trans|].
  split; [simpl; by rewrite L2|]. split; [by constructor|]. intros [|i] v Hv.
  - injection Hv as <-. exists e. split; [done|]. rewrite Z.add_0_r. eapply defines_extends; [|exact D1]. apply S2.
  - destruct (D2 i v Hv) as (x & Hx & Dx). exists x. split; [done|]. replace (idx + Z.of_nat (S i)) with (idx + 1 + Z.of_nat i) by lia. done.
Qed.

Record def_ok (e : def) : Prop := {
  dk_flags : is_u 16 (def_flags e); dk_ndx : is_u 16 (def_ndx e); dk_hash : is_u 32 (def_hash e); dk_name : is_u 32 (def_name e) }.

Lemma load_defs_ok l fuel off buf A C : l <> [] -> buf = A ++ enc_defs l ++ C -> off = zlen A -> (length l <= fuel)%nat -> Forall def_ok l ->
  load_defs fuel off buf = Some l.
Proof.
  revert fuel off A. induction l as [|e l IH]; intros fuel off A Hl Hb Ho Hf Hok; [done|]. destruct fuel as [|fuel]; [simpl in Hf; lia|].
  apply Forall_cons in Hok as [[Of On Oh Oa] Hok]. rewrite enc_defs_cons in Hb. set (next := match l with [] => 0 | _ => 28 end) in *.
  pose proof Hb as Hb0. unfold enc_def in Hb. rewrite <- !app_assoc in Hb. set (H := field 2 1). assert (LH : zlen H = 2) by apply zlen_field. cbn [load_defs].
  rewrite (fetch_at 2 (def_flags e) (off + 2) buf (A ++ H) (field 2 (def_ndx e) ++ H ++ field 4 (def_hash e) ++ field 4 VERDEF_SIZE ++ field 4 next ++ field 4 (def_name e) ++ field 4 0 ++ enc_defs l ++ C));
    [|by rewrite Hb, <- !app_assoc|subst off; by_len|exact Of]. cbn [mbind option_bind].
  rewrite (fetch_at 2 (def_ndx e) (off + 4) buf (A ++ H ++ field 2 (def_flags e)) (H ++ field 4 (def_hash e) ++ field 4 VERDEF_SIZE ++ field 4 next ++ field 4 (def_name e) ++ field 4 0 ++ enc_defs l ++ C));
    [|by rewrite Hb, <- !app_assoc|subst off; by_len|exact On]. cbn [mbind option_bind].
  set (P := A ++ H ++ field 2 (def_flags e) ++ field 2 (def_ndx e) ++ H). assert (LP : zlen P = off + 8) by (subst P off; by_len).
  assert (HP : buf = P ++ field 4 (def_hash e) ++ field 4 VERDEF_SIZE ++ field 4 next ++ field 4 (def_name e) ++ field 4 0 ++ enc_defs l ++ C)
    by (rewrite Hb; unfold P; by rewrite <- !app_assoc).
  rewrite (fetch_at 4 (def_hash e) (off + 8) buf P (field 4 VERDEF_SIZE ++ field 4 next ++ field 4 (def_name e) ++ field 4 0 ++ enc_defs l ++ C));
    [|done|done|exact Oh]. cbn [mbind option_bind].
  rewrite (fetch_at 4 VERDEF_SIZE (off + 12) buf (P ++ field 4 (def_hash e)) (field 4 next ++ field 4 (def_name e) ++ field 4 0 ++ enc_defs l ++ C));
    [|by rewrite HP, <- !app_assoc|by_len|done]. cbn [mbind option_bind].
  rewrite (fetch_at 4 next (off + 16) buf (P ++ field 4 (def_hash e) ++ field 4 VERDEF_SIZE) (field 4 (def_name e) ++ field 4 0 ++ enc_defs l ++ C));
    [|by rewrite HP, <- !app_assoc|by_len|unfold next; destruct l; vm_compute; (split; [discriminate|reflexivity])]. cbn [mbind option_bind].
  rewrite (fetch_at 4 (def_name e) (off + VERDEF_SIZE) buf (P ++ field 4 (def_hash e) ++ field 4 VERDEF_SIZE ++ field 4 next) (field 4 0 ++ enc_defs l ++ C));
    [|by rewrite HP, <- !app_assoc|unfold VERDEF_SIZE at 1; by_len|exact Oa]. cbn [mbind option_bind].
  unfold next in *. destruct l as [|x l]; [by destruct e|]. change (28 =? 0) with false. cbv iota.
  rewrite (IH fuel (off + 28) (A ++ enc_def 28 e)); [by destruct e|done| | |simpl in *; lia|done].
  - rewrite Hb0. by rewrite <- !app_assoc.
  - rewrite zlen_app, zlen_enc_def, Ho. done.
Qed.

Lemma load_verdef_ok l : Forall def_ok l -> load_verdef (enc_defs l) = Some l.
Proof.
  intros Hok. unfold load_verdef. destruct l as [|e l]; [done|]. assert (Hl := zlen_enc_defs (e :: l)).
  destruct (enc_defs (e :: l)) as [|b0 buf'] eqn:Eb; [unfold zlen in Hl; simpl in Hl; lia|]. rewrite <- Eb in *.
  apply (load_defs_ok _ _ 0 _ [] []); [done|by rewrite app_nil_r|done| |done]. unfold zlen in Hl. lia.
Qed.

(** ** .gnu.version_r as a whole *)

Lemma need_symbols_perm dynsym : need_symbols dynsym ≡ₚ List.filter is_versioned dynsym.
Proof. apply stable_sort_perm. Qed.

Lemma need_symbols_in s dynsym : s ∈ need_symbols dynsym <-> s ∈ dynsym /\ is_versioned s = true.
Proof. rewrite need_symbols_perm. rewrite !list_elem_of_In, filter_In. done. Qed.

Lemma need_symbols_length dynsym : (length (need_symbols dynsym) <= length dynsym)%nat.
Proof. rewrite need_symbols_perm. apply List.filter_length_le. Qed.

Lemma need_symbols_nodup dynsym : NoDup (map dynsym_index dynsym) -> NoDup (map dynsym_index (need_symbols dynsym)).
Proof.
  change (NoDup (dynsym_index <$> dynsym) -> NoDup (dynsym_index <$> need_symbols dynsym)). rewrite need_symbols_perm. induction dynsym as [|s l IH]; [done|]. rewrite fmap_cons, NoDup_cons. intros [H1 H2].
  cbn [List.filter]. destruct (is_versioned s); [|by apply IH]. rewrite fmap_cons, NoDup_cons. split; [|by apply IH].
  intros (x & E & Hx)%list_elem_of_fmap. apply H1. rewrite E. apply list_elem_of_fmap_2. rewrite !list_elem_of_In, filter_In in *. by destruct Hx.
Qed.

(** What .gnu.version and the entries in .gnu.version_r say, in terms of .dynstr. *)
Record needs_written (base : Z) (l : list Z) (dynsym : list VerSymbol) (st : need_state) (es : list (Z * aux_entry)) : Prop := {
  nw_others : forall i p, es !! i = Some p -> ae_other p.2 = base + 1 + Z.of_nat i;
  nw_count : zlen es <= zlen dynsym;
  nw_syms : forall s, s ∈ dynsym -> is_versioned s = true ->
    exists p, p ∈ es /\ describes (need_dynstr st) s p /\ versym st !! dynsym_index s = Some (ae_other p.2);
  nw_used : forall p, p ∈ es -> exists s, s ∈ dynsym /\ is_versioned s = true /\ describes (need_dynstr st) s p;
  nw_rest : forall i, (forall s, s ∈ dynsym -> is_versioned s = true -> dynsym_index s <> i) -> versym st !! i = l !! i;
  nw_length : length (versym st) = length l }.

Lemma find_string_bound names d s off : dynstr_ok names d -> find_string s d = Some off -> 1 <= dynstr_size d -> 0 <= off < dynstr_size d.
Proof.
  intros [_ H _ _ _] Hf Hs. destruct s as [|c s]; [injection Hf as <-; lia|]. destruct (H _ _ Hf) as (_ & H1 & H2). pose proof (zlen_nonneg (c :: s)). lia.
Qed.

Lemma auxs_in_entries g gs e : g ∈ gs -> e ∈ g_auxs g -> (g_file g, e) ∈ entries gs.
Proof.
  intros Hg He. unfold entries. apply list_elem_of_In, in_concat. exists (map (pair (g_file g)) (g_auxs g)). split; [|by apply in_map, list_elem_of_In].
  apply (in_map (fun g => map (pair (g_file g)) (g_auxs g))). by apply list_elem_of_In.
Qed.

Lemma auxs_length g gs : g ∈ gs -> (length (g_auxs g) <= length (entries gs))%nat.
Proof.
  intros [l1 [l2 ->]]%list_elem_of_split. unfold entries. rewrite map_app, concat_app. cbn [map concat]. rewrite !length_app, length_map. lia.
Qed.

(** The fields are wide enough. *)
Lemma groups_ok names base l did st gs : known base l did st (entries gs) -> dynstr_ok names (need_dynstr st) -> 1 <= dynstr_size (need_dynstr st) ->
  dynstr_size (need_dynstr st) < 2 ^ 32 -> Forall (fun g => g_auxs g <> []) gs -> 0 <= base -> base + zlen did < 2 ^ 15 -> Forall group_ok gs.
Proof.
  intros K Hd Hs Hs' Hne H0 Hb. apply Forall_forall. intros g Hg. rewrite Forall_forall in Hne. pose proof (auxs_length g gs Hg) as Hlen.
  assert (Hf : forall e, e ∈ g_auxs g -> is_u 32 (g_file g) /\ aux_ok e).
  { intros e He. pose proof (auxs_in_entries g gs e Hg He) as Hin. destruct (kn_used _ _ _ _ _ K _ Hin) as (s & _ & [E1 (v & _ & E2 & E3)]). cbn [fst snd] in *.
    pose proof (find_string_bound _ _ _ _ Hd E1 Hs). pose proof (find_string_bound _ _ _ _ Hd E3 Hs). split; [unfold is_u; lia|].
    split; [rewrite E2; apply elf_hash_u32| |unfold is_u; lia]. apply list_elem_of_lookup in Hin as [i Hi].
    pose proof (kn_others _ _ _ _ _ K _ _ Hi) as E4. cbn [snd] in E4. pose proof (kn_count _ _ _ _ _ K). apply lookup_lt_Some in Hi. unfold is_u, zlen in *. lia. }
  split; [|split; [by apply Hne|split]].
  - destruct (g_auxs g) as [|e es] eqn:E; [by destruct (Hne g Hg)|]. apply (Hf e). by constructor.
  - apply Forall_forall. intros e He. by apply Hf.
  - pose proof (kn_count _ _ _ _ _ K). unfold group_size, zlen in *. lia.
Qed.

Lemma verneed_ok names nd syms d l : NoDup (map dynsym_index syms) -> length l = S (length syms) -> l !! O = Some 0 ->
  (forall s, s ∈ syms -> is_versioned s = true -> need_ok d (length l) s) ->
  dynstr_ok names d -> 1 <= dynstr_size d -> 0 <= nd -> 1 + nd + zlen syms < 2 ^ 15 -> need_symbols syms <> [] ->
  exists st es, need_loop None (need_symbols syms) (mkNeed (replicate (length (need_symbols syms) * 32) 0) 0 None None (u16 (VER_NDX_LAST_RESERVED + nd)) 0 d l) = Some st /\
    needs_written (1 + nd) l syms st es /\ dynstr_step names d (need_dynstr st) /\
    (dynstr_size (need_dynstr st) < 2 ^ 32 -> load_verneed (take (Z.to_nat (ptr st)) (need_buf st)) = Some (map as_need es)).
Proof.
  intros Hn Hl Hl0 Hok Hd Hs H0 Hb Hne. pose proof (need_symbols_in) as Hin. pose proof (need_symbols_nodup _ Hn) as Hn'. pose proof (need_symbols_length syms) as Hlen.
  assert (HF : Forall (need_ok d (length l)) (need_symbols syms)) by (apply Forall_forall; intros s Hs'; apply Hin in Hs' as [? ?]; by apply Hok).
  specialize (Hin). destruct (need_symbols syms) as [|s ss] eqn:E; [done|]. apply Forall_cons in HF as [Hs1 HF]. cbn [need_loop]. unfold VER_NDX_LAST_RESERVED.
  assert (1 <= zlen syms) by (unfold zlen; simpl in Hlen; lia). rewrite u16_small by lia.
  destruct (loop_inv_first names d (1 + nd) l s (mkNeed (replicate (length (s :: ss) * 32) 0) 0 None None (1 + nd) 0 d l) (32 * length ss)) as (st1 & g1 & -> & I1);
    try done; [cbn [need_buf]; f_equal; simpl; lia|lia|lia|]. cbn [mbind option_bind].
  replace (32 * length ss)%nat with (32 * length ss + 0)%nat in I1 by lia.
  destruct (need_loop_ok names d (1 + nd) l [s] s ss st1 [] g1 0 I1 HF) as (st & gs & g & p & sp & -> & I); [exact Hn'|lia|unfold zlen in *; simpl in *; lia|].
  destruct I as [R K _ _ I1' I2 I3 I4 I5 _]. exists st, (entries (gs ++ [g])). split; [done|]. split; [|split; [by split|]].
  - change ([s] ++ ss) with (s :: ss) in K. rewrite <- E in K. destruct K as [K1 K2 K3 K4 K5 K6 K7]. split; try done.
    + rewrite E in K3. unfold zlen in *. lia.
    + intros x Hx Hv. apply K4, Hin. done.
    + intros q Hq. destruct (K5 q Hq) as (x & Hx%Hin & Dx). exists x. split; [apply Hx|]. split; [apply Hx|done].
    + intros i Hi. apply K6. intros x [Hx Hv]%Hin. by apply Hi.
  - intros Hsz. destruct R as [Rb Rp _ _]. rewrite Rb, Rp. unfold zlen. rewrite Nat2Z.id, take_app_length. apply load_verneed_ok.
    eapply groups_ok; [exact K|exact I1'|done|done|done|lia|]. unfold zlen in *. change ([s] ++ ss) with (s :: ss). lia.
Qed.

(** ** .gnu.version *)

Lemma resize_fresh syms : resize_versym (Some syms) [] = Some (0 :: replicate (length syms) 1).
Proof. done. Qed.

Lemma resize_same syms l : length l = S (length syms) -> l !! O = Some 0 -> resize_versym (Some syms) l = Some l.
Proof.
  intros Hl H0. unfold resize_versym. rewrite <- Hl, firstn_all, Nat.sub_diag. simpl. rewrite app_nil_r. by rewrite list_insert_id.
Qed.

Lemma copy_versions_ok syms l : NoDup (map dynsym_index syms) -> Forall (fun s => (dynsym_index s < length l)%nat /\ is_u 16 (ver_idx s)) syms ->
  exists l', copy_versions syms l = Some l' /\ length l' = length l /\ (forall s, s ∈ syms -> l' !! dynsym_index s = Some (ver_idx s)) /\
    forall i, (forall s, s ∈ syms -> dynsym_index s <> i) -> l' !! i = l !! i.
Proof.
  revert l. induction syms as [|s syms IH]; intros l Hn Hs.
  { exists l. split; [done|]. split; [done|]. split; [by intros s ?%elem_of_nil|done]. }
  apply Forall_cons in Hs as [[H1 H2] Hs]. cbn [map] in Hn. apply NoDup_cons in Hn as [Hn1 Hn]. cbn [copy_versions].
  rewrite set_versym_ok by done. cbn [mbind option_bind].
  destruct (IH (<[dynsym_index s := ver_idx s]> l) Hn) as (l' & -> & L & C & K); [by rewrite length_insert|]. rewrite length_insert in L.
  assert (Hout : forall x, x ∈ syms -> dynsym_index x <> dynsym_index s) by (intros x Hx Ex; apply Hn1; rewrite <- Ex; by apply list_elem_of_fmap_2).
  exists l'. split; [done|]. split; [done|]. split.
  - intros x [->|Hx]%elem_of_cons; [|by apply C]. rewrite K by done. by apply list_lookup_insert_eq.
  - intros i Hi. rewrite K by (intros x Hx; apply Hi; by constructor). apply list_lookup_insert_ne. apply Hi. by constructor.
Qed.

(** ** The whole *)

Record versions_input (names : list bytes) (definitions : list bytes) (syms : list VerSymbol) (d : DynstrSection) : Prop := {
  vi_index : map dynsym_index syms = seq 1 (length syms);
  vi_idx : Forall (fun s => is_u 16 (ver_idx s)) syms;
  vi_version : Forall (fun s => is_Some (version_of definitions s)) syms;
  vi_soname : Forall (fun s => is_versioned s = true -> is_Some (find_string (soname_of s) d)) syms;
  vi_used : definitions <> [] \/ need_symbols syms <> [];
  vi_count : 1 + zlen definitions + zlen syms < 2 ^ 15;
  vi_nul : Forall (fun s => Forall (fun c => c <> 0) (soname_of s) /\ forall v, get_version s = Some v -> Forall (fun c => c <> 0) v) syms;
  vi_nul_def : Forall (Forall (fun c => c <> 0)) definitions;
  vi_dynstr : dynstr_ok names d;
  vi_size : 1 <= dynstr_size d }.

(** The state between the two: a definition for every number, .gnu.version as far as it is
    known. *)
Record defs_written (names : list bytes) (definitions : list bytes) (syms : list VerSymbol) (d : DynstrSection) (st : def_state) (l : list Z) (es : list def) : Prop := {
  dw_buf : def_buf st = enc_defs es;
  dw_info : def_info st = zlen es;
  dw_step : dynstr_step names d (def_dynstr st);
  dw_length : length es = match definitions with [] => O | _ => S (length definitions) end;
  dw_flags : Forall (fun e => is_u 16 (def_flags e)) es;
  dw_base : forall e, es !! O = Some e -> def_ndx e = 1 /\ is_u 32 (def_hash e) /\ exists s, find_string s (def_dynstr st) = Some (def_name e);
  dw_defs : forall i v, definitions !! i = Some v -> exists e, es !! S i = Some e /\ defines (def_dynstr st) (2 + Z.of_nat i) v e;
  dw_versym : l = match definitions with [] => [] | _ => 0 :: map ver_idx syms end }.

Lemma index_lookup syms i s : map dynsym_index syms = seq 1 (length syms) -> syms !! i = Some s -> dynsym_index s = S i.
Proof.
  intros E Hi. pose proof (lookup_lt_Some _ _ _ Hi) as Hlt. assert (H : map dynsym_index syms !! i = Some (dynsym_index s)) by (rewrite list_lookup_fmap; by rewrite Hi).
  rewrite E in H. rewrite lookup_seq_lt in H by done. injection H as <-. done.
Qed.

Lemma verdef_ok names basename definitions syms d : versions_input names definitions syms d ->
  exists st l es, verdef_construct basename definitions (Some syms) d [] = Some (st, l) /\ defs_written names definitions syms d st l es.
Proof.
  intros [I1 I2 I3 I4 _ I6 _ _ I9 I10]. destruct definitions as [|w ws] eqn:Ed.
  { exists (mkDef [] 0 None 0 d), [], []. split; [done|]. split; try done. by apply dynstr_step_refl. }
  rewrite <- Ed in *. assert (Hnd : NoDup (map dynsym_index syms)) by (rewrite I1; apply NoDup_seq).
  assert (Hc : exists l', copy_versions syms (0 :: replicate (length syms) 1) = Some l' /\ l' = 0 :: map ver_idx syms).
  { destruct (copy_versions_ok syms (0 :: replicate (length syms) 1) Hnd) as (l' & E & L & C & K).
    { apply Forall_forall. intros s Hs. split; [|by rewrite Forall_forall in I2; apply I2]. simpl. rewrite length_replicate.
      apply list_elem_of_lookup in Hs as [i Hi]. rewrite (index_lookup syms i s I1 Hi). apply lookup_lt_Some in Hi. lia. }
    exists l'. split; [done|]. simpl in L. rewrite length_replicate in L. apply list_eq. intros [|i].
    - rewrite K; [done|]. intros s Hs. apply list_elem_of_lookup in Hs as [i Hi]. by rewrite (index_lookup syms i s I1 Hi).
    - change (l' !! S i = (ver_idx <$> syms) !! i). rewrite list_lookup_fmap. destruct (syms !! i) as [s|] eqn:Hi.
      + simpl. rewrite <- (C s) by (by eapply list_elem_of_lookup_2). by rewrite (index_lookup syms i s I1 Hi).
      + simpl. apply lookup_ge_None. apply lookup_ge_None in Hi. lia. }
  destruct Hc as (l' & Hc & ->). unfold verdef_construct. rewrite Ed. cbn [mbind option_bind]. rewrite resize_fresh, <- Ed. cbn [mbind option_bind].
  set (st0 := mkDef (replicate (28 * (length definitions + 1)) 0) 0 None 0 d).
  assert (R0 : def_rep st0 [] (28 + (28 * length definitions + 0))) by (split; [unfold st0; cbn [def_buf]; change (enc_defs []) with (@nil Z); cbn [app]; f_equal; lia|done..]).
  destruct (write_def_step names basename 1 VER_FLG_BASE st0 [] _ R0 I9) as (st1 & e & -> & R1 & S1 & D1 & F1). cbn [mbind option_bind].
  destruct (write_defs_step names definitions 2 st1 _ 0 R1) as (st2 & es & -> & R2 & S2 & L2 & F2 & D2); [apply S1|apply S1|]. cbn [mbind option_bind].
  change (default [] (Some syms)) with syms. rewrite Hc. cbn [mbind option_bind]. exists st2, (0 :: map ver_idx syms), (e :: es). split; [done|]. destruct R2 as [R2 _ _ R3]. split.
  - rewrite R2. by rewrite app_nil_r.
  - done.
  - by eapply dynstr_step_trans.
  - simpl. rewrite L2. by rewrite Ed.
  - constructor; [rewrite F1; done|]. apply Forall_forall. intros x Hx. rewrite Forall_forall in F2. by rewrite (F2 x Hx).
  - intros x [= <-]. destruct (defines_extends _ _ _ _ _ (dt_extends _ _ _ S2) D1) as [N1 N2 N3]. split; [done|]. split; [rewrite N2; apply elf_hash_u32|]. by exists basename.
  - exact D2.
  - by rewrite Ed.
Qed.

(** What .gnu.version is before the versions of other files. *)
Definition own_versions (definitions : list bytes) (syms : list VerSymbol) : list Z :=
  0 :: map (fun s => match definitions with [] => 1 | _ => ver_idx s end) syms.

Lemma resize_own definitions syms :
  resize_versym (Some syms) (match definitions with [] => [] | _ => 0 :: map ver_idx syms end) = Some (own_versions definitions syms).
Proof.
  destruct definitions as [|w ws]; [|rewrite resize_same; [done|simpl; by rewrite length_map|done]].
  rewrite resize_fresh. unfold own_versions. do 2 f_equal. induction syms as [|s syms IH]; [done|]. simpl. by f_equal.
Qed.

(** .gnu.version_r and .gnu.version, when some symbol has a version or not. *)
Lemma verneed_construct_ok names definitions syms d st l es : versions_input names definitions syms d -> defs_written names definitions syms d st l es ->
  let l0 := own_versions definitions syms in
  exists nst ns, verneed_construct (zlen definitions) (Some syms) (def_dynstr st) l = Some nst /\
    needs_written (1 + zlen definitions) l0 syms nst ns /\ dynstr_step names (def_dynstr st) (need_dynstr nst) /\
    (dynstr_size (need_dynstr nst) < 2 ^ 32 -> load_verneed (need_buf nst) = Some (map as_need ns)).
Proof.
  intros [I1 I2 I3 I4 I5 I6 I7 _ I9 I10] W l0. pose proof W as [_ _ Ws _ _ _ _ Wv]. unfold verneed_construct. change (default [] (Some syms)) with syms. cbv zeta.
  assert (Hnd : NoDup (map dynsym_index syms)) by (rewrite I1; apply NoDup_seq). pose proof (zlen_nonneg definitions).
  destruct (need_symbols syms) as [|s ss] eqn:E.
  - assert (Hno : forall s, s ∈ syms -> is_versioned s = true -> False).
    { intros s Hs Hv. assert (Hin : s ∈ need_symbols syms) by (by apply need_symbols_in). rewrite E in Hin. by apply elem_of_nil in Hin. }
    exists (mkNeed [] 0 None None 0 0 (def_dynstr st) l), []. split; [done|]. split; [|split; [apply dynstr_step_refl; apply Ws|done]].
    assert (El : l = l0) by (destruct definitions as [|w ws]; [by destruct I5|exact Wv]). rewrite El. split; cbn [versym need_dynstr]; try done.
    + apply zlen_nonneg.
    + intros s Hs Hv. by destruct (Hno s Hs Hv).
    + intros p Hp. by apply elem_of_nil in Hp.
  - rewrite Wv, resize_own, <- E. cbn [mbind option_bind]. fold l0.
    destruct (verneed_ok names (zlen definitions) syms (def_dynstr st) l0 Hnd) as (nst & ns & -> & N1 & N2 & N3).
    + unfold l0. simpl. by rewrite length_map.
    + done.
    + intros x Hx Hv. rewrite Forall_forall in I3, I4. split.
      * specialize (I3 x Hx). unfold version_of in I3. rewrite Hv in I3. by apply fmap_is_Some in I3.
      * destruct (I4 x Hx Hv) as [o Ho]. exists o. by apply (dt_extends _ _ _ Ws).
      * apply list_elem_of_lookup in Hx as [i Hi]. rewrite (index_lookup syms i x I1 Hi). apply lookup_lt_Some in Hi. unfold l0. simpl. rewrite length_map. lia.
    + apply Ws.
    + apply Ws.
    + lia.
    + lia.
    + by rewrite E.
    + cbn [mbind option_bind]. eexists _, ns. split; [reflexivity|]. split; [|by split]. destruct N1 as [N1 N2' N4 N5 N6 N7]. by split.
Qed.

(** ** What the numbers mean *)

Lemma find_at {A} (f : A -> bool) l k x : l !! k = Some x -> f x = true -> (forall j y, l !! j = Some y -> f y = true -> j = k) -> List.find f l = Some x.
Proof.
  revert k. induction l as [|y l IH]; intros k Hk Hx Hu; [done|]. cbn [List.find]. destruct (f y) eqn:E.
  - assert (k = O) as -> by (symmetry; by apply (Hu O y)). by injection Hk as ->.
  - destruct k as [|k]; [injection Hk as ->; congruence|]. apply (IH k); [done|done|]. intros j z Hj Hz. specialize (Hu (S j) z Hj Hz). lia.
Qed.

Lemma find_absent {A} (f : A -> bool) l : (forall y, y ∈ l -> f y = false) -> List.find f l = None.
Proof.
  induction l as [|y l IH]; intros H; [done|]. cbn [List.find]. rewrite H by constructor. apply IH. intros z Hz. apply H. by constructor.
Qed.

(** A copy of .dynstr. *)
Definition dynstr_copy (names : list bytes) (d : DynstrSection) (dyn : bytes) : Prop :=
  exists order buf, order ≡ₚ map_to_list (strings d) /\ zlen buf = dynstr_size d /\ dynstr_copy_buf order names d buf = Some dyn.

Lemma dynstr_copy_cstr names d dyn s off : dynstr_ok names d -> 1 <= dynstr_size d -> dynstr_copy names d dyn -> find_string s d = Some off ->
  Forall (fun c => c <> 0) s -> cstr dyn off = Some s.
Proof. intros H1 H2 (order & buf & H3 & H4 & H5). by eapply find_string_cstr. Qed.

Lemma land_small v : 0 <= v < 2 ^ 15 -> Z.land v 0x7fff = v.
Proof. intros H. change 0x7fff with (Z.ones 15). rewrite Z.land_ones by lia. by apply Z.mod_small. Qed.

Lemma needs_find base l syms st ns k p : needs_written base l syms st ns -> ns !! k = Some p ->
  List.find (fun e => need_other e =? ae_other p.2) (map as_need ns) = Some (as_need p).
Proof.
  intros W Hk. pose proof (nw_others _ _ _ _ _ W) as Ho. apply (find_at _ _ k).
  - change ((as_need <$> ns) !! k = Some (as_need p)). rewrite list_lookup_fmap. by rewrite Hk.
  - apply Z.eqb_refl.
  - intros j y Hj Hy. change ((as_need <$> ns) !! j = Some y) in Hj. rewrite list_lookup_fmap in Hj. apply fmap_Some in Hj as (q & Hq & ->).
    apply Z.eqb_eq in Hy. cbn [as_need need_other] in Hy. rewrite (Ho _ _ Hk), (Ho _ _ Hq) in Hy. lia.
Qed.

Lemma needs_absent base l syms st ns v : needs_written base l syms st ns -> v <= base -> List.find (fun e => need_other e =? v) (map as_need ns) = None.
Proof.
  intros W Hv. apply find_absent. intros y Hy. apply list_elem_of_fmap in Hy as (q & -> & Hq). apply list_elem_of_lookup in Hq as [j Hj].
  cbn [as_need need_other]. apply Z.eqb_neq. rewrite (nw_others _ _ _ _ _ W _ _ Hj). lia.
Qed.

(** An imported symbol. *)
Lemma load_needed names nd l syms st ns defs dyn s : needs_written (1 + nd) l syms st ns -> dynstr_ok names (need_dynstr st) -> 1 <= dynstr_size (need_dynstr st) ->
  dynstr_copy names (need_dynstr st) dyn -> 0 <= nd -> 1 + nd + zlen syms < 2 ^ 15 -> s ∈ syms -> is_versioned s = true ->
  Forall (fun c => c <> 0) (soname_of s) -> (forall v, get_version s = Some v -> Forall (fun c => c <> 0) v) ->
  exists v, versym st !! dynsym_index s = Some v /\ load_version (map as_need ns) defs dyn v = Needs (soname_of s) <$> get_version s.
Proof.
  intros W Hd Hs Hc H0 Hb Hin Hv Z1 Z2. destruct (nw_syms _ _ _ _ _ W s Hin Hv) as (p & Hp & [D1 (w & D2 & D3 & D4)] & Hl). exists (ae_other p.2). split; [done|].
  apply list_elem_of_lookup in Hp as [k Hk]. pose proof (nw_others _ _ _ _ _ W _ _ Hk) as Ho. pose proof (nw_count _ _ _ _ _ W) as Hct.
  apply lookup_lt_Some in Hk as Hlt. unfold zlen in Hct, Hb. unfold load_version. rewrite land_small by lia. cbv zeta.
  destruct (Z.eqb_spec (ae_other p.2) 0); [lia|]. destruct (Z.eqb_spec (ae_other p.2) 1); [lia|]. rewrite (needs_find _ _ _ _ _ _ _ W Hk).
  cbn [as_need need_file need_name need_hash]. rewrite (dynstr_copy_cstr _ _ _ _ _ Hd Hs Hc D1 Z1). cbn [mbind option_bind].
  rewrite (dynstr_copy_cstr _ _ _ _ _ Hd Hs Hc D4 (Z2 w D2)). cbn [mbind option_bind]. by rewrite D3, Z.eqb_refl, D2.
Qed.

(** A symbol with the version [ver_idx]. *)
Lemma load_own names definitions l syms st ns defs d dyn s : needs_written (1 + zlen definitions) l syms st ns -> dynstr_ok names d -> 1 <= dynstr_size d ->
  dynstr_copy names d dyn -> definitions <> [] -> is_versioned s = false -> is_Some (version_of definitions s) -> Forall (Forall (fun c => c <> 0)) definitions ->
  is_u 16 (ver_idx s) -> (forall e, defs !! O = Some e -> def_ndx e = 1) -> length defs = S (length definitions) ->
  (forall i v, definitions !! i = Some v -> exists e, defs !! S i = Some e /\ defines d (2 + Z.of_nat i) v e) ->
  load_version (map as_need ns) defs dyn (ver_idx s) = version_of definitions s.
Proof.
  intros W Hd Hs Hc Hne Hv Hsome Hz Hu Hbase Hlen Hdefs. unfold load_version. unfold version_of in *. rewrite Hv in *. destruct definitions as [|w ws] eqn:Ed; [done|].
  rewrite <- Ed in *. cbv zeta in *. set (ndx := Z.land (ver_idx s) 0x7fff) in *.
  assert (Hn : 0 <= ndx) by (apply Z.land_nonneg; left; apply Hu). destruct (Z.eqb_spec ndx 0) as [|N0]; [done|]. destruct (Z.eqb_spec ndx 1) as [|N1]; [done|].
  destruct (definitions !! Z.to_nat (ndx - 2)) as [v|] eqn:El; [|by destruct Hsome]. destruct (Hdefs _ _ El) as (e & He & [E1 E2 E3]).
  apply lookup_lt_Some in El as Hlt. rewrite (needs_absent _ _ _ _ _ _ W) by (unfold zlen; lia).
  rewrite (find_at _ defs (S (Z.to_nat (ndx - 2))) e); [|done|apply Z.eqb_eq; lia|].
  - cbn [mbind option_bind]. rewrite (dynstr_copy_cstr _ _ _ v _ Hd Hs Hc E3); [cbn [mbind option_bind]; by rewrite E2, Z.eqb_refl|]. rewrite Forall_forall in Hz. apply Hz. by eapply list_elem_of_lookup_2.
  - intros [|j] y Hj Hy; apply Z.eqb_eq in Hy; [rewrite (Hbase y Hj) in Hy; lia|]. apply lookup_lt_Some in Hj as Hj'.
    destruct (definitions !! j) as [v'|] eqn:Ej; [|apply lookup_ge_None in Ej; lia]. destruct (Hdefs _ _ Ej) as (e' & He' & [E1' _ _]).
    assert (y = e') as -> by congruence. lia.
Qed.

Lemma defs_ok names definitions syms d st l es d' : defs_written names definitions syms d st l es -> dynstr_step names (def_dynstr st) d' ->
  dynstr_size d' < 2 ^ 32 -> 1 + zlen definitions < 2 ^ 15 -> Forall def_ok es.
Proof.
  intros [_ _ _ W4 W5 W6 W7 _] [S1 S2 S3 _] Hsz Hb. assert (Hname : forall w o, find_string w (def_dynstr st) = Some o -> is_u 32 o).
  { intros w o Hf%S3. pose proof (find_string_bound _ _ _ _ S1 Hf S2). unfold is_u. lia. }
  apply Forall_forall. intros e He. rewrite Forall_forall in W5. pose proof (W5 e He). apply list_elem_of_lookup in He as [[|i] Hi].
  - destruct (W6 e Hi) as (E1 & E2 & w & E3). split; [done|by rewrite E1|done|by eapply Hname].
  - apply lookup_lt_Some in Hi as Hlt. destruct (definitions !! i) as [v|] eqn:Ei.
    + destruct (W7 i v Ei) as (x & Hx & [X1 X2 X3]). assert (x = e) as -> by congruence. apply lookup_lt_Some in Ei. unfold zlen in Hb.
      split; [done|unfold is_u; lia|rewrite X2; apply elf_hash_u32|by eapply Hname].
    + apply lookup_ge_None in Ei. destruct definitions; simpl in *; lia.
Qed.

(** C16: after [VerdefSection::construct] and [VerneedSection::construct] the loader, given any
    copy of .dynstr, finds through .gnu.version, .gnu.version_r and .gnu.version_d exactly the
    version of every dynamic symbol: an imported symbol needs its version of its file's
    soname, an exported one has the version it was given, hidden or not, and the others are
    global or local. Neither construction fails. *)
Theorem versions_visible names basename definitions syms d : versions_input names definitions syms d ->
  exists def st, construct_versions basename definitions (Some syms) d = Some (def, st) /\
    length (versym st) = S (length syms) /\ versym st !! O = Some 0 /\ dynstr_step names d (need_dynstr st) /\
    (dynstr_size (need_dynstr st) < 2 ^ 32 -> forall dyn, dynstr_copy names (need_dynstr st) dyn ->
     exists needs defs, load_verneed (need_buf st) = Some needs /\ load_verdef (def_buf def) = Some defs /\ def_info def = zlen defs /\
       forall i s, syms !! i = Some s -> exists v, versym st !! S i = Some v /\ load_version needs defs dyn v = version_of definitions s).
Proof.
  intros I. destruct (verdef_ok names basename definitions syms d I) as (def & l & es & E & W). unfold construct_versions. rewrite E. cbn [mbind option_bind].
  destruct (verneed_construct_ok names definitions syms d def l es I W) as (st & ns & -> & N & S & L). cbn [mbind option_bind]. exists def, st. split; [done|].
  pose proof (vi_index _ _ _ _ I) as Hidx. assert (H0 : versym st !! O = own_versions definitions syms !! O).
  { apply (nw_rest _ _ _ _ _ N). intros s Hs _. apply list_elem_of_lookup in Hs as [i Hi]. by rewrite (index_lookup _ _ _ Hidx Hi). }
  split; [rewrite (nw_length _ _ _ _ _ N); unfold own_versions; simpl; by rewrite length_map|]. split; [exact H0|].
  split; [eapply dynstr_step_trans; [apply W|exact S]|]. intros Hsz dyn Hc. pose proof (vi_count _ _ _ _ I) as Hct.
  pose proof (zlen_nonneg syms). pose proof (zlen_nonneg definitions). exists (map as_need ns), es. split; [by apply L|].
  split; [rewrite (dw_buf _ _ _ _ _ _ _ W); apply load_verdef_ok; eapply defs_ok; [exact W|exact S|done|lia]|]. split; [apply W|].
  intros i s Hi. pose proof (index_lookup _ _ _ Hidx Hi) as Ei. apply list_elem_of_lookup_2 in Hi as Hin. pose proof (vi_nul _ _ _ _ I) as Hz. rewrite Forall_forall in Hz.
  destruct (Hz s Hin) as [Z1 Z2]. destruct (is_versioned s) eqn:Ev.
  - rewrite <- Ei. unfold version_of at 1. rewrite Ev. eapply load_needed; [exact N|apply S|apply S|exact Hc|done|done|done|done|done|done].
  - assert (Hown : versym st !! Datatypes.S i = own_versions definitions syms !! Datatypes.S i).
    { apply (nw_rest _ _ _ _ _ N). intros x Hx Hvx Exi. apply list_elem_of_lookup in Hx as [j Hj]. pose proof (index_lookup _ _ _ Hidx Hj). assert (j = i) as -> by lia. congruence. }
    rewrite Hown. exists (match definitions with [] => 1 | _ => ver_idx s end). split.
    + change (((fun s => match definitions with [] => 1 | _ => ver_idx s end) <$> syms) !! i = Some (match definitions with [] => 1 | _ => ver_idx s end)).
      rewrite list_lookup_fmap. by rewrite Hi.
    + destruct definitions as [|w ws] eqn:Ed; [unfold version_of; by rewrite Ev|]. rewrite <- Ed in *.
      pose proof (vi_idx _ _ _ _ I) as Hu. pose proof (vi_version _ _ _ _ I) as Hv. rewrite Forall_forall in Hu, Hv.
      eapply (load_own names definitions _ syms st ns es); [exact N|apply S|apply S|exact Hc|by rewrite Ed|done|by apply Hv|apply I|by apply Hu| | |].
      * intros e He. by apply (dw_base _ _ _ _ _ _ _ W).
      * rewrite (dw_length _ _ _ _ _ _ _ W). by rewrite Ed.
      * intros j v Hj. destruct (dw_defs _ _ _ _ _ _ _ W j v Hj) as (e & He & De). exists e. split; [done|]. eapply defines_extends; [apply S|exact De].
Qed.
End Versions.

(** Two files with two versions each; five symbols: two that need a version, one that is
    defined hidden, one global, one of a file without a version. *)
Definition example_files : list SharedFile :=
  [mkShared [108; 105; 98; 99] [[]; [108; 105; 98; 99]; [86; 49]; [86; 50]]; mkShared [108; 105; 98; 109] [[]; [108; 105; 98; 109]; [86; 49]]].
Definition example_symbols : list VerSymbol :=
  [mkVerSym (Some 1%nat) 2 1; mkVerSym None 0x8002 2; mkVerSym (Some 0%nat) 3 3; mkVerSym None 1 4; mkVerSym (Some 0%nat) 1 5].
Definition example_names : list bytes := [[97]; [98]; [99]; [100]; [101]].
Definition example_dynstr : DynstrSection :=
  reserve_names example_names (add_string [108; 105; 98; 109] (add_string [108; 105; 98; 99] (keep new_dynstr)).2).2.

Lemma add_string_dynstr_ok names str d : dynstr_ok names d -> dynstr_ok names (add_string str d).2.
Proof. intros H%(add_string_ok _ str). destruct (add_string str d). by destruct H. Qed.

Lemma example_input : versions_input example_files example_names [[68; 49]] example_symbols example_dynstr.
Proof.
  split; try done.
  - repeat constructor; vm_compute; discriminate.
  - repeat constructor; (eexists; vm_compute; reflexivity).
  - repeat constructor; intros _; (eexists; vm_compute; reflexivity).
  - by left.
  - repeat constructor; try (intros v [= <-]); repeat constructor; vm_compute; discriminate.
  - repeat constructor; discriminate.
  - unfold example_dynstr. apply reserve_names_ok; [|done].
    by apply add_string_dynstr_ok, add_string_dynstr_ok, keep_ok.
Qed.

Lemma versions_visible_witness : exists def st, construct_versions false example_files [111] [[68; 49]] (Some example_symbols) example_dynstr = Some (def, st) /\
  dynstr_size (need_dynstr st) < 2 ^ 32 /\
  (forall dyn, dynstr_copy example_names (need_dynstr st) dyn -> exists needs defs, load_verneed false (need_buf st) = Some needs /\ load_verdef false (def_buf def) = Some defs /\
     def_info def = zlen defs /\ forall i s, example_symbols !! i = Some s ->
       exists v, versym st !! S i = Some v /\ load_version needs defs dyn v = version_of example_files [[68; 49]] s).
Proof.
  destruct (versions_visible false example_files example_names [111] [[68; 49]] example_symbols example_dynstr example_input) as (def & st & E & _ & _ & _ & H).
  exists def, st. split; [exact E|]. assert (Hsz : dynstr_size (need_dynstr st) < 2 ^ 32).
  { assert (Ec : (dynstr_size ∘ need_dynstr ∘ snd) <$> construct_versions false example_files [111] [[68; 49]] (Some example_symbols) example_dynstr = Some 32)
      by (vm_compute; reflexivity).
    rewrite E in Ec. change (Some (dynstr_size (need_dynstr st)) = Some 32) in Ec. assert (dynstr_size (need_dynstr st) = 32) as -> by congruence. reflexivity. }
  split; [exact Hsz|]. exact (H Hsz).
Defined.

(** What the symbols' versions are. *)
Example example_versions : map (version_of example_files [[68; 49]]) example_symbols =
  [Some (Needs [108; 105; 98; 109] [86; 49]); Some (Defines [68; 49] true); Some (Needs [108; 105; 98; 99] [86; 50]); Some Global; Some Global].
Proof. vm_compute. reflexivity. Qed.
