(* ===== verification/RiscvIsa.v ===== *)
(** * The RISC-V instructions the ELF linker writes and relocates

    What the instruction set manual says of the formats whose immediates
    src/elf/arch-riscv.cc fills in, and of the instructions of its PLT and of calls and
    address computations: their encodings and their effect on a machine with registers
    and a byte memory, with 32 or 64 bits. It is the specification against which [Riscv]
    is proved; nothing in this file is code of the linker. *)

From S2P Require Import Prelude Bits.
Local Open Scope list_scope.
Local Open Scope Z_scope.

(** ** Immediates *)

Definition field (w hi lo at_ : Z) : Z := Z.shiftl (bits w hi lo) at_.

Definition imm_i (w : Z) : Z := swrap 12 (bits w 31 20).
Definition imm_s (w : Z) : Z := swrap 12 (Z.lor (field w 31 25 5) (field w 11 7 0)).
Definition imm_b (w : Z) : Z :=
  swrap 13 (Z.lor (field w 31 31 12) (Z.lor (field w 7 7 11) (Z.lor (field w 30 25 5) (field w 11 8 1)))).
Definition imm_u (w : Z) : Z := swrap 32 (field w 31 12 12).
Definition imm_j (w : Z) : Z :=
  swrap 21 (Z.lor (field w 31 31 20) (Z.lor (field w 19 12 12) (Z.lor (field w 20 20 11) (field w 30 21 1)))).
(** Compressed branches and jumps, bit by bit. *)
Definition imm_cb (w : Z) : Z :=
  swrap 9 (Z.lor (field w 12 12 8) (Z.lor (field w 6 6 7) (Z.lor (field w 5 5 6) (Z.lor (field w 2 2 5) (Z.lor
    (field w 11 11 4) (Z.lor (field w 10 10 3) (Z.lor (field w 4 4 2) (field w 3 3 1)))))))).
Definition imm_cj (w : Z) : Z :=
  swrap 12 (Z.lor (field w 12 12 11) (Z.lor (field w 8 8 10) (Z.lor (field w 10 10 9) (Z.lor (field w 9 9 8) (Z.lor
    (field w 6 6 7) (Z.lor (field w 7 7 6) (Z.lor (field w 2 2 5) (Z.lor (field w 11 11 4) (Z.lor (field w 5
    5 3) (Z.lor (field w 4 4 2) (field w 3 3 1))))))))))).

Definition rd (w : Z) : Z := bits w 11 7.
Definition rs1 (w : Z) : Z := bits w 19 15.
Definition rs2 (w : Z) : Z := bits w 24 20.
Definition funct3 (w : Z) : Z := bits w 14 12.
Definition opcode (w : Z) : Z := bits w 6 0.

(** ** Instructions *)

Inductive instr :=
| Lui (rd imm : Z)
| Auipc (rd imm : Z)
| Jal (rd off : Z)
| Jalr (rd rs1 off : Z)
| Load (size : nat) (rd rs1 off : Z)
| Addi (rd rs1 imm : Z)
| Srli (rd rs1 shamt : Z)
| Add (rd rs1 rs2 : Z)
| Sub (rd rs1 rs2 : Z).

Section Isa.
Context (xlen : Z) (big : bool).

(** LW and, with 64 bits, LD. *)
Definition load_size (f : Z) : option nat :=
  if f =? 2 then Some 4%nat else if (f =? 3) && (xlen =? 64) then Some 8%nat else None.

Definition decode32 (w : Z) : option instr :=
  let op := opcode w in
  let f := funct3 w in
  if op =? 0x37 then Some (Lui (rd w) (imm_u w))
  else if op =? 0x17 then Some (Auipc (rd w) (imm_u w))
  else if op =? 0x6f then Some (Jal (rd w) (imm_j w))
  else if (op =? 0x67) && (f =? 0) then Some (Jalr (rd w) (rs1 w) (imm_i w))
  else if op =? 0x03 then size ← load_size f; Some (Load size (rd w) (rs1 w) (imm_i w))
  else if (op =? 0x13) && (f =? 0) then Some (Addi (rd w) (rs1 w) (imm_i w))
  else if (op =? 0x13) && (f =? 5) && (bits w 31 26 =? 0) && ((xlen =? 64) || (bits w 25 25 =? 0))
  then Some (Srli (rd w) (rs1 w) (bits w 25 20))
  else if (op =? 0x33) && (f =? 0) && (bits w 31 25 =? 0) then Some (Add (rd w) (rs1 w) (rs2 w))
  else if (op =? 0x33) && (f =? 0) && (bits w 31 25 =? 0x20) then Some (Sub (rd w) (rs1 w) (rs2 w))
  else None.

(** C.J, with 32 bits C.JAL, and C.NOP. *)
Definition decode16 (w : Z) : option instr :=
  if bits w 1 0 =? 1 then
    if bits w 15 13 =? 5 then Some (Jal 0 (imm_cj w))
    else if (bits w 15 13 =? 1) && (xlen =? 32) then Some (Jal 1 (imm_cj w))
    else if w =? 1 then Some (Addi 0 0 0) else None
  else None.

(** The instruction at a place, and its length. *)
Definition decode (lo16 w32 : Z) : option (instr * Z) :=
  if bits lo16 1 0 =? 3 then i ← decode32 w32; Some (i, 4) else i ← decode16 lo16; Some (i, 2).

(** ** The machine *)

Record machine_state := mkState { pc : Z; regs : Z -> Z; mem : Z -> Z }.

Definition wx (x : Z) : Z := wrap xlen x.

Definition peek (n : nat) (m : Z -> Z) (a : Z) : bytes := map (fun i => m (wx (a + i))) (seqZ 0 (Z.of_nat n)).
(** Instructions are little-endian, data in the order of the machine. *)
Definition fetch (n : nat) (m : Z -> Z) (a : Z) : Z := le_load (peek n m a).
Definition load (n : nat) (m : Z -> Z) (a : Z) : Z := (if big then be_load else le_load) (peek n m a).

Definition get_reg (s : machine_state) (r : Z) : Z := if r =? 0 then 0 else regs s r.
Definition set_reg (s : machine_state) (r v next : Z) : machine_state :=
  mkState next (fun k => if (k =? r) && negb (k =? 0) then wx v else regs s k) (mem s).

Definition exec (i : instr) (len : Z) (s : machine_state) : machine_state :=
  let next := wx (pc s + len) in
  match i with
  | Lui rd imm => set_reg s rd imm next
  | Auipc rd imm => set_reg s rd (pc s + imm) next
  | Jal rd off => set_reg s rd next (wx (pc s + off))
  | Jalr rd rs1 off => set_reg s rd next (wx (Z.land (wx (get_reg s rs1 + off)) (-2)))
  | Load n rd rs1 off => set_reg s rd (swrap (8 * Z.of_nat n) (load n (mem s) (wx (get_reg s rs1 + off)))) next
  | Addi rd rs1 imm => set_reg s rd (get_reg s rs1 + imm) next
  | Srli rd rs1 shamt => set_reg s rd (Z.shiftr (get_reg s rs1) shamt) next
  | Add rd rs1 rs2 => set_reg s rd (get_reg s rs1 + get_reg s rs2) next
  | Sub rd rs1 rs2 => set_reg s rd (get_reg s rs1 - get_reg s rs2) next
  end.

Definition step (s : machine_state) : option machine_state :=
  '(i, len) ← decode (fetch 2 (mem s) (pc s)) (fetch 4 (mem s) (pc s)); Some (exec i len s).

Fixpoint run (n : nat) (s : machine_state) : option machine_state :=
  match n with
  | O => Some s
  | S n => step s ≫= run n
  end.

(** Bytes are in memory at an address. *)
Definition holds (m : Z -> Z) (a : Z) (code : bytes) : Prop :=
  forall i b, code !! i = Some b -> m (wx (a + Z.of_nat i)) = b.
End Isa.

(** ** Assembling words from fields *)

Lemma bits_join v h k k' l : k' = k + 1 -> 0 <= l <= k -> k' <= h ->
  Z.lor (Z.shiftl (bits v h k') k') (Z.shiftl (bits v k l) l) = Z.shiftl (bits v h l) l.
Proof.
  intros -> ? ?. apply Z.bits_inj'. intros i Hi. rewrite Z.lor_spec, !Z.shiftl_spec by lia.
  assert (T : forall a b, 0 <= b <= a -> Z.testbit (bits v a b) (i - b) = (b <=? i) && (i <=? a) && Z.testbit v i).
  { intros a b Hab. destruct (Z.lt_ge_cases i b).
    - rewrite Z.testbit_neg_r by lia. destruct (Z.leb_spec b i); [lia|done].
    - rewrite bits_testbit by lia. replace (i - b + b) with i by lia.
      destruct (Z.leb_spec b i), (Z.leb_spec (i - b) (a - b)), (Z.leb_spec i a); try lia; done. }
  rewrite !T by lia. destruct (Z.leb_spec (k + 1) i), (Z.leb_spec i h), (Z.leb_spec l i), (Z.leb_spec i k); try lia; simpl;
    by rewrite ?orb_false_r.
Qed.

Lemma bits_land a b hi lo : 0 <= lo <= hi -> bits (Z.land a b) hi lo = Z.land (bits a hi lo) (bits b hi lo).
Proof.
  intros. apply Z.bits_inj'. intros i Hi. rewrite Z.land_spec, !bits_testbit, Z.land_spec by lia.
  by destruct (i <=? hi - lo).
Qed.

(** A field that a mask keeps. *)
Lemma land_ones_bits v hi lo : 0 <= lo <= hi -> Z.land (bits v hi lo) (Z.ones (hi - lo + 1)) = bits v hi lo.
Proof. intros. rewrite Z.land_ones by lia. apply Z.mod_small. apply bits_range. lia. Qed.

Lemma bit_bits v p : 0 <= p -> bit v p = bits v p p.
Proof. intros. unfold bit, bits. rewrite Z.sub_diag. done. Qed.

(** The value that all fields of an immediate together denote. *)
Lemma bits_value v h l w : 0 <= l <= h -> w = h + 1 -> v mod 2 ^ l = 0 -> - 2 ^ h <= v < 2 ^ h -> swrap w (Z.shiftl (bits v h l) l) = v.
Proof.
  intros Hl -> Hm Hv. assert (E : Z.shiftl (bits v h l) l = wrap (h + 1) v).
  { pose proof (pow2_pos l). pose proof (pow2_pos (h - l + 1)).
    rewrite bits_spec, Z.shiftl_mul_pow2 by lia. unfold wrap. assert (Hd : v = 2 ^ l * (v / 2 ^ l)) by (apply Z.div_exact; lia).
    rewrite Hd at 2. replace (h + 1) with (l + (h - l + 1)) by lia. rewrite (Z.pow_add_r 2 l) by lia.
    rewrite Z.mul_mod_distr_l by lia. lia. }
  rewrite E, swrap_wrap by lia. apply swrap_small; [lia|]. unfold is_s. by replace (h + 1 - 1) with h by lia.
Qed.
