(* ===== verification/Riscv.v ===== *)
(** * RISC-V (src/elf/arch-riscv.cc)

    The encoders of immediates, relaxation ([shrink_section], the adjustment of symbols
    and [copy_contents_riscv]), the application of relocations and the PLT. Code and
    tables are proved against the instructions of [RiscvIsa]. *)

From S2P Require Import Prelude Buffers Integers Bits Enums ElfConst ElfTypes Got InputSections RiscvIsa.
Local Open Scope list_scope.
Local Open Scope Z_scope.

(** ** Immediates of instructions

    [val] is a [u32]. *)

Definition itype (val : Z) : Z := u32 (Z.shiftl (u32 val) 20).
Definition stype (val : Z) : Z := Z.lor (u32 (Z.shiftl (bits (u32 val) 11 5) 25)) (u32 (Z.shiftl (bits (u32 val) 4 0) 7)).
Definition btype (val : Z) : Z :=
  let val := u32 val in
  u32 (Z.lor (Z.shiftl (bit val 12) 31) (Z.lor (Z.shiftl (bits val 10 5) 25)
    (Z.lor (Z.shiftl (bits val 4 1) 8) (Z.shiftl (bit val 11) 7)))).
Definition utype (val : Z) : Z := Z.land (u32 (u32 val + 0x800)) 0xfffff000.
Definition jtype (val : Z) : Z :=
  let val := u32 val in
  u32 (Z.lor (Z.shiftl (bit val 20) 31) (Z.lor (Z.shiftl (bits val 10 1) 21)
    (Z.lor (Z.shiftl (bit val 11) 20) (Z.shiftl (bits val 19 12) 12)))).
Definition cbtype (val : Z) : Z :=
  let val := u32 val in
  u32 (Z.lor (Z.shiftl (bit val 8) 12) (Z.lor (Z.shiftl (bit val 4) 11) (Z.lor (Z.shiftl (bit val 3) 10)
    (Z.lor (Z.shiftl (bit val 7) 6) (Z.lor (Z.shiftl (bit val 6) 5) (Z.lor (Z.shiftl (bit val 2) 4)
      (Z.lor (Z.shiftl (bit val 1) 3) (Z.shiftl (bit val 5) 2)))))))).
Definition cjtype (val : Z) : Z :=
  let val := u32 val in
  u32 (Z.lor (Z.shiftl (bit val 11) 12) (Z.lor (Z.shiftl (bit val 4) 11) (Z.lor (Z.shiftl (bit val 9) 10)
    (Z.lor (Z.shiftl (bit val 8) 9) (Z.lor (Z.shiftl (bit val 10) 8) (Z.lor (Z.shiftl (bit val 6) 7)
      (Z.lor (Z.shiftl (bit val 7) 6) (Z.lor (Z.shiftl (bit val 3) 5) (Z.lor (Z.shiftl (bit val 2) 4)
        (Z.lor (Z.shiftl (bit val 1) 3) (Z.shiftl (bit val 5) 2))))))))))).

(** [*(ul32 * )loc &= mask; *(ul32 * )loc |= insn] *)
Definition put32 (mask insn w : Z) : Z := Z.lor (Z.land w mask) insn.
Definition put16 (mask insn w : Z) : Z := u16 (Z.lor (Z.land w mask) insn).

Definition IMASK : Z := 0x000fffff.
Definition SMASK : Z := 0x01fff07f.
Definition UMASK : Z := 0x00000fff.
Definition CBMASK : Z := 0xe383.
Definition CJMASK : Z := 0xe003.
(** 0b111111'11111'00000'111'11111'1111111 has 31 digits. *)
Definition RS1MASK : Z := 0x7ff07fff.

Definition write_itype (val w : Z) : Z := put32 IMASK (itype val) w.
Definition write_stype (val w : Z) : Z := put32 SMASK (stype val) w.
Definition write_btype (val w : Z) : Z := put32 SMASK (btype val) w.
Definition write_utype (val w : Z) : Z := put32 UMASK (utype val) w.
Definition write_jtype (val w : Z) : Z := put32 UMASK (jtype val) w.
Definition write_cbtype (val w : Z) : Z := put16 CBMASK (cbtype val) w.
Definition write_cjtype (val w : Z) : Z := put16 CJMASK (cjtype val) w.

Definition get_rd (val : Z) : Z := bits val 11 7.
Definition set_rs1 (rs1 w : Z) : Z := put32 RS1MASK (u32 (Z.shiftl rs1 15)) w.
Definition is_int12 (val : Z) : bool := sign_extend (u64 val) 11 =? val.

(** *** What they encode *)

Lemma itype_fields val : itype val = Z.shiftl (bits val 11 0) 20.
Proof.
  unfold itype, u32. apply Z.bits_inj'. intros i Hi. rewrite wrap_testbit, !Z.shiftl_spec by lia.
  destruct (Z.lt_ge_cases i 20); [rewrite !Z.testbit_neg_r by lia; apply andb_false_r|].
  rewrite wrap_testbit, bits_testbit, Z.add_0_r by lia.
  destruct (Z.ltb_spec i 32), (Z.ltb_spec (i - 20) 32), (Z.leb_spec (i - 20) (11 - 0)); try lia; done.
Qed.

Lemma utype_fields val : utype val = Z.shiftl (bits (val + 0x800) 31 12) 12.
Proof.
  unfold utype. replace (u32 (u32 val + 0x800)) with (u32 (val + 0x800)) by (symmetry; apply Z.add_mod_idemp_l; done).
  change 0xfffff000 with (Z.shiftl (Z.ones 20) 12). apply Z.bits_inj'. intros i Hi. unfold u32.
  rewrite Z.land_spec, !Z.shiftl_spec, wrap_testbit by lia.
  destruct (Z.lt_ge_cases i 12); [rewrite !(Z.testbit_neg_r _ (i - 12)) by lia; apply andb_false_r|].
  rewrite bits_testbit by lia. replace (i - 12 + 12) with i by lia.
  rewrite (Z.testbit_ones 20) by lia.
  destruct (Z.ltb_spec i 32), (Z.leb_spec 0 (i - 12)), (Z.ltb_spec (i - 12) 20), (Z.leb_spec (i - 12) (31 - 12)); try lia; simpl;
    by rewrite ?andb_true_r, ?andb_false_r.
Qed.

Ltac keep_field :=
  rewrite bits_land by lia;
  match goal with |- context [Z.land (bits ?w ?hi ?lo) (bits ?m ?hi ?lo)] =>
    let v := eval vm_compute in (bits m hi lo) in change (bits m hi lo) with v;
    let o := eval vm_compute in (Z.ones (hi - lo + 1)) in
    first [ unify v 0; rewrite Z.land_0_r | change v with (Z.ones (hi - lo + 1)); rewrite land_ones_bits by lia ]
  end.

(** Evaluate the fields of a word that was assembled from a masked word and fields. *)
Ltac put_fields :=
  unfold write_itype, write_stype, write_btype, write_utype, write_jtype, write_cbtype, write_cjtype, put32, put16,
    stype, btype, jtype, cbtype, cjtype, u16, u32; cbv zeta;
  rewrite ?itype_fields, ?utype_fields; rewrite ?bit_bits by lia;
  rewrite ?bits_wrap by lia; rewrite ?bits_lor by lia; rewrite ?bits_wrap by lia; rewrite ?bits_lor by lia;
  repeat first [ rewrite bits_field_in by lia | rewrite bits_field_out by lia | rewrite bits_small by lia | rewrite bits_full by lia ];
  repeat keep_field; rewrite ?Z.lor_0_r, ?Z.lor_0_l.

Lemma imm_i_write val w : imm_i (write_itype val w) = swrap 12 (bits val 11 0).
Proof. unfold imm_i. put_fields. done. Qed.

Lemma imm_s_write val w : imm_s (write_stype val w) = swrap 12 (bits val 11 0).
Proof.
  unfold imm_s, field. put_fields. rewrite (bits_join val 11 4 5 0) by lia. by rewrite Z.shiftl_0_r.
Qed.

Lemma imm_b_write val w : imm_b (write_btype val w) = swrap 13 (Z.shiftl (bits val 12 1) 1).
Proof.
  unfold imm_b, field. put_fields. rewrite !Z.lor_assoc.
  rewrite (bits_join val 12 11 12 11), (bits_join val 12 10 11 5) by lia. by rewrite (bits_join val 12 4 5 1) by lia.
Qed.

Lemma imm_u_write val w : imm_u (write_utype val w) = swrap 32 (Z.shiftl (bits (val + 0x800) 31 12) 12).
Proof. unfold imm_u, field. put_fields. done. Qed.

Lemma imm_j_write val w : imm_j (write_jtype val w) = swrap 21 (Z.shiftl (bits val 20 1) 1).
Proof.
  unfold imm_j, field. put_fields. rewrite !Z.lor_assoc.
  rewrite (bits_join val 20 19 20 12), (bits_join val 20 11 12 11) by lia. by rewrite (bits_join val 20 10 11 1) by lia.
Qed.

Lemma imm_cb_write val w : imm_cb (write_cbtype val w) = swrap 9 (Z.shiftl (bits val 8 1) 1).
Proof.
  unfold imm_cb, field. put_fields. rewrite !Z.lor_assoc.
  rewrite (bits_join val 8 7 8 7), (bits_join val 8 6 7 6), (bits_join val 8 5 6 5), (bits_join val 8 4 5 4),
    (bits_join val 8 3 4 3), (bits_join val 8 2 3 2) by lia. by rewrite (bits_join val 8 1 2 1) by lia.
Qed.

Lemma imm_cj_write val w : imm_cj (write_cjtype val w) = swrap 12 (Z.shiftl (bits val 11 1) 1).
Proof.
  unfold imm_cj, field. put_fields. rewrite !Z.lor_assoc.
  rewrite (bits_join val 11 10 11 10), (bits_join val 11 9 10 9), (bits_join val 11 8 9 8), (bits_join val 11 7 8 7),
    (bits_join val 11 6 7 6), (bits_join val 11 5 6 5), (bits_join val 11 4 5 4), (bits_join val 11 3 4 3),
    (bits_join val 11 2 3 2) by lia. by rewrite (bits_join val 11 1 2 1) by lia.
Qed.

(** The parts that are not immediates. *)
Lemma put32_other mask insn w : Z.land insn mask = 0 -> Z.land (put32 mask insn w) mask = Z.land w mask.
Proof. intros E. unfold put32. by rewrite Z.land_lor_distr_l, E, <- Z.land_assoc, Z.land_diag, Z.lor_0_r. Qed.

Lemma land_shiftl_0 x k n mask : 0 <= n -> is_u n x -> 0 <= k -> Z.land (Z.shiftl (Z.ones n) k) mask = 0 -> Z.land (Z.shiftl x k) mask = 0.
Proof.
  intros Hn Hx Hk E. apply Z.bits_inj'. intros i Hi. apply (f_equal (fun z => Z.testbit z i)) in E.
  rewrite Z.land_spec, Z.shiftl_spec, Z.bits_0 in * by lia. destruct (Z.lt_ge_cases (i - k) 0).
  { by rewrite Z.testbit_neg_r. }
  rewrite Z.testbit_ones in E by lia. destruct (Z.lt_ge_cases (i - k) n).
  - destruct (Z.leb_spec 0 (i - k)), (Z.ltb_spec (i - k) n); try lia. simpl in E. rewrite E. apply andb_false_r.
  - by rewrite (is_u_testbit n) by (done || lia).
Qed.

Ltac land_pieces :=
  rewrite ?Z.land_lor_distr_l;
  repeat match goal with |- context [Z.land (Z.shiftl (bits ?v ?h ?l) ?k) ?m] =>
    rewrite (land_shiftl_0 (bits v h l) k (h - l + 1) m) by (first [apply bits_range; lia|lia|reflexivity]) end;
  done.

Lemma u32_pieces v h l k : 0 <= l <= h -> 0 <= k -> k + (h - l) < 32 -> u32 (Z.shiftl (bits v h l) k) = Z.shiftl (bits v h l) k.
Proof.
  intros. apply wrap_small. rewrite Z.shiftl_mul_pow2 by lia. pose proof (bits_range v h l ltac:(lia)) as Hb. unfold is_u in *.
  pose proof (pow2_pos k). assert (2 ^ (h - l + 1) * 2 ^ k <= 2 ^ 32) by (rewrite <- Z.pow_add_r by lia; apply Z.pow_le_mono_r; lia). nia.
Qed.

Lemma u32_lor a b : u32 (Z.lor a b) = Z.lor (u32 a) (u32 b).
Proof. unfold u32. rewrite !wrap_land by lia. apply Z.land_lor_distr_l. Qed.

Ltac insn_mask :=
  unfold stype, btype, jtype, cbtype, cjtype; cbv zeta; rewrite ?itype_fields, ?utype_fields; rewrite ?u32_lor; rewrite ?bit_bits by lia;
  repeat match goal with |- context [bits (u32 ?v) ?h ?l] => change (u32 v) with (wrap 32 v); rewrite (bits_wrap 32 v h l) by lia end;
  rewrite ?u32_pieces by lia; land_pieces.

Lemma insn_masks val : Z.land (itype val) IMASK = 0 /\ Z.land (stype val) SMASK = 0 /\ Z.land (btype val) SMASK = 0 /\
  Z.land (utype val) UMASK = 0 /\ Z.land (jtype val) UMASK = 0 /\ Z.land (cbtype val) CBMASK = 0 /\ Z.land (cjtype val) CJMASK = 0.
Proof. repeat match goal with |- _ /\ _ => split end; insn_mask. Qed.

Lemma put16_other mask insn w : Z.land (Z.ones 16) mask = mask -> Z.land insn mask = 0 -> Z.land (put16 mask insn w) mask = Z.land w mask.
Proof.
  intros Hm E. unfold put16, u16. rewrite wrap_land, <- Z.land_assoc, Hm by lia. by apply put32_other.
Qed.

Lemma low_range val : - 2 ^ 11 <= val < 2 ^ 11 -> swrap 12 (bits val 11 0) = val.
Proof. intros H. rewrite <- (Z.shiftl_0_r (bits val 11 0)). apply bits_value; [lia|lia|apply Z.mod_1_r|done]. Qed.

Lemma bits_mod val h : 0 <= h -> bits val h 0 = wrap (h + 1) val.
Proof. intros. rewrite bits_spec, Z.pow_0_r, Z.div_1_r by lia. unfold wrap. by rewrite Z.sub_0_r. Qed.

(** The upper and the lower part of a value: [utype] rounds up when the lower part is
    negative. *)
Lemma lo_part val : swrap 12 (bits val 11 0) = val - 4096 * ((val + 2048) / 4096).
Proof. rewrite bits_mod by lia. unfold swrap. case_bool; dlia. Qed.

Lemma hi_part val : Z.shiftl (bits (val + 0x800) 31 12) 12 = 4096 * (((val + 2048) / 4096) mod 2 ^ 20).
Proof. rewrite bits_spec, Z.shiftl_mul_pow2 by lia. change (31 - 12 + 1) with 20. change (2 ^ 12) with 4096. apply Z.mul_comm. Qed.

Lemma wrap_swrap_add n x y : 0 <= n -> wrap n (swrap n x + y) = wrap n (x + y).
Proof.
  intros. unfold wrap. rewrite <- Zplus_mod_idemp_l. change (swrap n x mod 2 ^ n) with (wrap n (swrap n x)).
  rewrite wrap_swrap by lia. apply Zplus_mod_idemp_l.
Qed.

Lemma hi_lo_wrap val : wrap 32 (swrap 32 (Z.shiftl (bits (val + 0x800) 31 12) 12) + swrap 12 (bits val 11 0)) = wrap 32 val.
Proof.
  rewrite lo_part, hi_part. generalize ((val + 2048) / 4096). intros q.
  rewrite wrap_swrap_add by lia.
  rewrite (Z.mod_eq q) by done. unfold wrap.
  replace (4096 * (q - 2 ^ 20 * (q / 2 ^ 20)) + (val - 4096 * q)) with (val + (- (q / 2 ^ 20)) * 2 ^ 32) by lia.
  by rewrite Z.mod_add.
Qed.

Lemma hi_lo_value val : - 2 ^ 31 - 0x800 <= val < 2 ^ 31 - 0x800 ->
  swrap 32 (Z.shiftl (bits (val + 0x800) 31 12) 12) + swrap 12 (bits val 11 0) = val.
Proof.
  intros H. rewrite lo_part, hi_part. assert (Hq : - 2 ^ 19 <= (val + 2048) / 4096 < 2 ^ 19) by dlia.
  set (q := (val + 2048) / 4096) in *. clearbody q. assert (swrap 32 (4096 * (q mod 2 ^ 20)) = 4096 * q) as ->; [|lia].
  clear H. unfold swrap. case_bool; dlia.
Qed.

(** ** Theorem on immediates *)

(** C39: every format encodes its immediate so that the processor decodes it to the value,
    for all values that the format can represent and an even displacement; the upper part
    of an address and the lower part in an I- or S-type instruction add up to it, exactly
    within 2 GiB less 2 KiB and always modulo 2^32; and the other bits stay as they are. *)
Theorem immediates_roundtrip (val w w' : Z) :
  (- 2 ^ 11 <= val < 2 ^ 11 -> imm_i (write_itype val w) = val /\ imm_s (write_stype val w) = val) /\
  (val mod 2 = 0 ->
    (- 2 ^ 12 <= val < 2 ^ 12 -> imm_b (write_btype val w) = val) /\
    (- 2 ^ 20 <= val < 2 ^ 20 -> imm_j (write_jtype val w) = val) /\
    (- 2 ^ 8 <= val < 2 ^ 8 -> imm_cb (write_cbtype val w) = val) /\
    (- 2 ^ 11 <= val < 2 ^ 11 -> imm_cj (write_cjtype val w) = val)) /\
  (- 2 ^ 31 - 2 ^ 11 <= val < 2 ^ 31 - 2 ^ 11 ->
    imm_u (write_utype val w) + imm_i (write_itype val w') = val /\ imm_u (write_utype val w) + imm_s (write_stype val w') = val) /\
  wrap 32 (imm_u (write_utype val w) + imm_i (write_itype val w')) = wrap 32 val /\
  wrap 32 (imm_u (write_utype val w) + imm_s (write_stype val w')) = wrap 32 val /\
  Z.land (write_itype val w) IMASK = Z.land w IMASK /\ Z.land (write_stype val w) SMASK = Z.land w SMASK /\
  Z.land (write_btype val w) SMASK = Z.land w SMASK /\ Z.land (write_utype val w) UMASK = Z.land w UMASK /\
  Z.land (write_jtype val w) UMASK = Z.land w UMASK /\ Z.land (write_cbtype val w) CBMASK = Z.land w CBMASK /\
  Z.land (write_cjtype val w) CJMASK = Z.land w CJMASK.
Proof.
  destruct (insn_masks val) as (M1 & M2 & M3 & M4 & M5 & M6 & M7).
  rewrite imm_i_write, imm_s_write, imm_b_write, imm_j_write, imm_cb_write, imm_cj_write, imm_u_write.
  rewrite !imm_i_write, !imm_s_write. split; [intros H; by rewrite low_range|]. split.
  { intros He. repeat split; intros H; apply bits_value; (done || lia). }
  split; [intros H; by rewrite hi_lo_value by lia|]. split; [apply hi_lo_wrap|]. split; [apply hi_lo_wrap|].
  repeat match goal with |- _ /\ _ => split end; (by apply put32_other) || (by apply put16_other).
Qed.

Lemma immediates_roundtrip_witness :
  imm_i (write_itype (-4) 0x13) = -4 /\ imm_b (write_btype (-4096) 0x63) = -4096 /\
  imm_u (write_utype 0x7fffe800 0x17) + imm_i (write_itype 0x7fffe800 0x13) = 0x7fffe800.
Proof.
  destruct (immediates_roundtrip (-4) 0x13 0x13) as (H & _). destruct (immediates_roundtrip (-4096) 0x63 0x13) as (_ & H1 & _).
  destruct (immediates_roundtrip 0x7fffe800 0x17 0x13) as (_ & _ & H2 & _).
  split; [apply H; lia|]. split; [by apply H1|apply H2; lia].
Defined.

(** [set_rs1] also clears the sign bit of the immediate. *)
Lemma set_rs1_spec r w : 0 <= r < 32 -> rs1 (set_rs1 r w) = r /\ bits (set_rs1 r w) 31 31 = 0 /\ bits (set_rs1 r w) 30 20 = bits w 30 20 /\
  bits (set_rs1 r w) 14 0 = bits w 14 0.
Proof.
  intros Hr. unfold set_rs1. assert (E : u32 (Z.shiftl r 15) = Z.shiftl (bits r 4 0) 15).
  { rewrite bits_mod by lia. unfold wrap. rewrite Z.mod_small by lia. apply wrap_small. rewrite Z.shiftl_mul_pow2 by lia. unfold is_u. lia. }
  rewrite E. unfold rs1. repeat split; put_fields; try done. rewrite bits_mod by lia. unfold wrap. by rewrite Z.mod_small by lia.
Qed.

(** ** Relaxation *)

Definition R_RISCV_NONE : Z := Eval vm_compute in constant R_RISCV "R_RISCV_NONE".
Definition R_RISCV_BRANCH : Z := Eval vm_compute in constant R_RISCV "R_RISCV_BRANCH".
Definition R_RISCV_JAL : Z := Eval vm_compute in constant R_RISCV "R_RISCV_JAL".
Definition R_RISCV_CALL : Z := Eval vm_compute in constant R_RISCV "R_RISCV_CALL".
Definition R_RISCV_CALL_PLT : Z := Eval vm_compute in constant R_RISCV "R_RISCV_CALL_PLT".
Definition R_RISCV_GOT_HI20 : Z := Eval vm_compute in constant R_RISCV "R_RISCV_GOT_HI20".
Definition R_RISCV_TLS_GOT_HI20 : Z := Eval vm_compute in constant R_RISCV "R_RISCV_TLS_GOT_HI20".
Definition R_RISCV_TLS_GD_HI20 : Z := Eval vm_compute in constant R_RISCV "R_RISCV_TLS_GD_HI20".
Definition R_RISCV_PCREL_HI20 : Z := Eval vm_compute in constant R_RISCV "R_RISCV_PCREL_HI20".
Definition R_RISCV_PCREL_LO12_I : Z := Eval vm_compute in constant R_RISCV "R_RISCV_PCREL_LO12_I".
Definition R_RISCV_PCREL_LO12_S : Z := Eval vm_compute in constant R_RISCV "R_RISCV_PCREL_LO12_S".
Definition R_RISCV_HI20 : Z := Eval vm_compute in constant R_RISCV "R_RISCV_HI20".
Definition R_RISCV_LO12_I : Z := Eval vm_compute in constant R_RISCV "R_RISCV_LO12_I".
Definition R_RISCV_LO12_S : Z := Eval vm_compute in constant R_RISCV "R_RISCV_LO12_S".
Definition R_RISCV_TPREL_HI20 : Z := Eval vm_compute in constant R_RISCV "R_RISCV_TPREL_HI20".
Definition R_RISCV_TPREL_LO12_I : Z := Eval vm_compute in constant R_RISCV "R_RISCV_TPREL_LO12_I".
Definition R_RISCV_TPREL_LO12_S : Z := Eval vm_compute in constant R_RISCV "R_RISCV_TPREL_LO12_S".
Definition R_RISCV_TPREL_ADD : Z := Eval vm_compute in constant R_RISCV "R_RISCV_TPREL_ADD".
Definition R_RISCV_ADD8 : Z := Eval vm_compute in constant R_RISCV "R_RISCV_ADD8".
Definition R_RISCV_ADD16 : Z := Eval vm_compute in constant R_RISCV "R_RISCV_ADD16".
Definition R_RISCV_ADD32 : Z := Eval vm_compute in constant R_RISCV "R_RISCV_ADD32".
Definition R_RISCV_ADD64 : Z := Eval vm_compute in constant R_RISCV "R_RISCV_ADD64".
Definition R_RISCV_SUB8 : Z := Eval vm_compute in constant R_RISCV "R_RISCV_SUB8".
Definition R_RISCV_SUB16 : Z := Eval vm_compute in constant R_RISCV "R_RISCV_SUB16".
Definition R_RISCV_SUB32 : Z := Eval vm_compute in constant R_RISCV "R_RISCV_SUB32".
Definition R_RISCV_SUB64 : Z := Eval vm_compute in constant R_RISCV "R_RISCV_SUB64".
Definition R_RISCV_ALIGN : Z := Eval vm_compute in constant R_RISCV "R_RISCV_ALIGN".
Definition R_RISCV_RVC_BRANCH : Z := Eval vm_compute in constant R_RISCV "R_RISCV_RVC_BRANCH".
Definition R_RISCV_RVC_JUMP : Z := Eval vm_compute in constant R_RISCV "R_RISCV_RVC_JUMP".
Definition R_RISCV_RELAX : Z := Eval vm_compute in constant R_RISCV "R_RISCV_RELAX".
Definition R_RISCV_SUB6 : Z := Eval vm_compute in constant R_RISCV "R_RISCV_SUB6".
Definition R_RISCV_SET6 : Z := Eval vm_compute in constant R_RISCV "R_RISCV_SET6".
Definition R_RISCV_SET8 : Z := Eval vm_compute in constant R_RISCV "R_RISCV_SET8".
Definition R_RISCV_SET16 : Z := Eval vm_compute in constant R_RISCV "R_RISCV_SET16".
Definition R_RISCV_SET32 : Z := Eval vm_compute in constant R_RISCV "R_RISCV_SET32".
Definition R_RISCV_32_PCREL : Z := Eval vm_compute in constant R_RISCV "R_RISCV_32_PCREL".
Definition R_RISCV_PLT32 : Z := Eval vm_compute in constant R_RISCV "R_RISCV_PLT32".
Definition R_RISCV_32 : Z := Eval vm_compute in constant R_RISCV "R_RISCV_32".
Definition R_RISCV_64 : Z := Eval vm_compute in constant R_RISCV "R_RISCV_64".

Definition INT32_MAX : Z := 2 ^ 31 - 1.

Section Relax.
Context (m : machine) (ctx : Context) (syms : gmap Z Symbol) (undef_weak internal : Z -> bool).

Definition sym_addr (s : Z) : option Z := sym ← syms !! s; get_addr m ctx false false sym.

(** [compute_distance]; [undef_weak] tells about [esym()] of a symbol. *)
Definition compute_distance (isec : Section_) (r : ElfRel) : option Z :=
  sym ← syms !! r_sym r;
  if is_absolute sym then Some INT32_MAX
  else if undef_weak (r_sym r) then Some INT32_MAX
  else S ← sym_addr (r_sym r); Some (i64 (S + r_addend r - (section_addr isec + r_offset r))).

(** What an iteration of the loop of [shrink_section] adds to [delta]; [next] are the
    relocations that follow; [tp_addr] is that of [Got]'s context. *)
Definition shrink_align (isec : Section_) (r : ElfRel) (delta : Z) : option Z :=
  let loc := u64 (section_addr isec + r_offset r - delta) in
  let next_loc := u64 (loc + r_addend r) in
  alignment ← bit_ceil (u64 (r_addend r + 1));
  if alignment <=? Z.shiftl 1 (p2align isec) then Some (i64 (next_loc - align_to loc alignment)) else None.

Definition fits (bits val : Z) : bool := sign_extend (u64 val) bits =? val.

Definition shrink_call (use_rvc : bool) (contents : bytes) (isec : Section_) (r : ElfRel) : option Z :=
  dist ← compute_distance isec r;
  if Z.odd dist then Some 0
  else
    w ← read_le 4 contents (r_offset r + 4);
    let rd := get_rd w in
    if (rd =? 0) && fits 11 dist && use_rvc then Some 6
    else if (rd =? 1) && fits 11 dist && use_rvc && negb (is_64 (target_of m)) then Some 6
    else if fits 20 dist then Some 4 else Some 0.

Definition shrink_one (relax use_rvc : bool) (contents : bytes) (isec : Section_) (r : ElfRel) (next : list ElfRel) (delta : Z) :
    option Z :=
  let t := rel_type r in
  if t =? R_RISCV_ALIGN then shrink_align isec r delta
  else if negb relax || match next with [] => true | n :: _ => negb (rel_type n =? R_RISCV_RELAX) end then Some 0
  else if internal (r_sym r) then Some 0
  else if (t =? R_RISCV_CALL) || (t =? R_RISCV_CALL_PLT) then shrink_call use_rvc contents isec r
  else if t =? R_RISCV_HI20 then
    S ← sym_addr (r_sym r); Some (if is_int12 (i64 (S + r_addend r)) then 4 else 0)
  else if (t =? R_RISCV_TPREL_HI20) || (t =? R_RISCV_TPREL_ADD) then
    S ← sym_addr (r_sym r); Some (if fits 11 (i64 (S + r_addend r - tp_addr ctx)) then 4 else 0)
  else Some 0.

(** The loop: [r_deltas] from the current relocation on; the last one is what the size of
    the section is reduced by. *)
Fixpoint shrink_loop (relax use_rvc : bool) (contents : bytes) (isec : Section_) (rels : list ElfRel) (delta : Z) : option (list Z) :=
  match rels with
  | [] => Some [delta]
  | r :: next =>
      d ← shrink_one relax use_rvc contents isec r next delta;
      l ← shrink_loop relax use_rvc contents isec next (delta + d); Some (delta :: l)
  end.

Definition shrink_section (relax use_rvc : bool) (contents : bytes) (isec : Section_) : option (list Z) :=
  shrink_loop relax use_rvc contents isec (section_rels isec) 0.
End Relax.

(** [isec.sh_size -= delta] *)
Definition shrunk_size (sh_size : Z) (r_deltas : list Z) : Z := u64 (sh_size - default 0 (last r_deltas)).

(** [std::lower_bound] on the offsets, which [sort_relocations] has sorted. *)
Fixpoint lower_bound (rels : list ElfRel) (val : Z) : nat :=
  match rels with
  | [] => O
  | r :: rels => if r_offset r <? val then S (lower_bound rels val) else O
  end.

(** The new [value] of a symbol of the section. *)
Definition fix_value (rels : list ElfRel) (r_deltas : list Z) (value : Z) : Z :=
  match r_deltas with
  | [] => value
  | _ => u64 (value - default 0 (r_deltas !! lower_bound rels value))
  end.

(** The loop of [copy_contents_riscv]; [None]: the assertion fails or memcpy leaves the
    section. *)
Fixpoint copy_loop (contents : bytes) (rels : list ElfRel) (r_deltas : list Z) (pos : Z) : option bytes :=
  match rels, r_deltas with
  | r :: rels, d :: ((d' :: _) as r_deltas) =>
      let delta := d' - d in
      if delta =? 0 then copy_loop contents rels r_deltas pos
      else if delta <? 0 then None
      else
        part ← slice contents pos (r_offset r);
        rest ← copy_loop contents rels r_deltas (r_offset r + delta); Some (part ++ rest)
  | _, _ => slice contents pos (zlen contents)
  end.

Definition copy_contents_riscv (contents : bytes) (rels : list ElfRel) (r_deltas : list Z) : option bytes :=
  match r_deltas with
  | [] => Some contents
  | _ => copy_loop contents rels r_deltas 0
  end.

(** *** What relaxation should do

    [l] are the ranges of bytes that are deleted: an offset and a length. *)

Definition deleted (l : list (Z * Z)) (p : Z) : bool := existsb (fun q => (q.1 <=? p) && (p <? q.1 + q.2)) l.
(** How far a place moves. *)
Definition shift (l : list (Z * Z)) (p : Z) : Z := foldr (fun q n => (if q.1 <? p then q.2 else 0) + n) 0 l.
Definition total (l : list (Z * Z)) : Z := foldr (fun q n => q.2 + n) 0 l.

Fixpoint ranges_ok (pos size : Z) (l : list (Z * Z)) : Prop :=
  match l with
  | [] => pos <= size
  | (o, n) :: l => pos <= o /\ 0 < n /\ ranges_ok (o + n) size l
  end.

(** The ranges that a list of [r_deltas] describes. *)
Fixpoint removals (rels : list ElfRel) (r_deltas : list Z) : list (Z * Z) :=
  match rels, r_deltas with
  | r :: rels, d :: ((d' :: _) as r_deltas) =>
      if d' - d =? 0 then removals rels r_deltas else (r_offset r, d' - d) :: removals rels r_deltas
  | _, _ => []
  end.

Lemma ranges_after pos size l o n : ranges_ok pos size l -> (o, n) ∈ l -> pos <= o /\ 0 < n /\ o + n <= size.
Proof.
  revert pos. induction l as [|[o' n'] l IH]; intros pos; simpl; [intros _ H; by apply elem_of_nil in H|].
  intros (H1 & H2 & H3) [[= -> ->]|H]%elem_of_cons.
  - split; [done|]. split; [done|]. clear -H3. revert H3. generalize (o' + n'). induction l as [|[o n] l IH]; intros pos; simpl; [done|].
    intros (H1 & H2 & H3). specialize (IH _ H3). lia.
  - destruct (IH _ H3 H) as (? & ? & ?). lia.
Qed.

Lemma ranges_bound pos size l : ranges_ok pos size l -> pos <= size.
Proof.
  revert pos. induction l as [|[o n] l IH]; intros pos; simpl; [done|]. intros (H1 & H2 & H3). specialize (IH _ H3). lia.
Qed.

Lemma shift_before pos size l p : ranges_ok pos size l -> p <= pos -> shift l p = 0.
Proof.
  revert pos. induction l as [|[o n] l IH]; intros pos; simpl; [done|]. intros (H1 & H2 & H3) Hp.
  destruct (Z.ltb_spec o p); [lia|]. rewrite (IH _ H3); lia.
Qed.

Lemma deleted_before pos size l p : ranges_ok pos size l -> p < pos -> deleted l p = false.
Proof.
  revert pos. induction l as [|[o n] l IH]; intros pos; simpl; [done|]. intros (H1 & H2 & H3) Hp.
  destruct (Z.leb_spec o p); [lia|]. apply (IH _ H3). lia.
Qed.

Lemma shift_bound pos size l p : ranges_ok pos size l -> deleted l p = false -> pos <= p -> 0 <= shift l p <= p - pos.
Proof.
  revert pos. induction l as [|[o n] l IH]; intros pos; simpl; [lia|]. intros (H1 & H2 & H3) Hd Hp.
  apply orb_false_iff in Hd as [Hd Hd']. destruct (Z.ltb_spec o p) as [Ho|Ho].
  - destruct (Z.leb_spec o p), (Z.ltb_spec p (o + n)); try lia; try done. specialize (IH _ H3 Hd'). lia.
  - rewrite (shift_before _ _ _ _ H3) by lia. lia.
Qed.

Lemma slice_ok contents from to : 0 <= from <= to -> to <= zlen contents -> exists part, slice contents from to = Some part /\
  zlen part = to - from /\ forall p, from <= p < to -> part !! Z.to_nat (p - from) = contents !! Z.to_nat p.
Proof.
  intros H1 H2. unfold slice. destruct (Z.leb_spec 0 from), (Z.leb_spec from to), (Z.leb_spec to (zlen contents)); try lia.
  eexists. split; [done|]. unfold zlen in *. split; [rewrite length_take, length_drop; lia|].
  intros p Hp. rewrite lookup_take_lt, lookup_drop by lia. f_equal. lia.
Qed.

(** [copy_contents_riscv] keeps exactly the other bytes, in order. *)
Record copied (contents : bytes) (l : list (Z * Z)) (pos : Z) (buf : bytes) : Prop := {
  cp_length : zlen buf = zlen contents - pos - total l;
  cp_kept : forall p, pos <= p < zlen contents -> deleted l p = false ->
    buf !! Z.to_nat (p - pos - shift l p) = contents !! Z.to_nat p;
  cp_only : forall j, 0 <= j < zlen buf -> exists p, pos <= p < zlen contents /\ deleted l p = false /\ j = p - pos - shift l p }.

Lemma copy_loop_ok contents rels r_deltas pos : length r_deltas = S (length rels) -> 0 <= pos ->
  ranges_ok pos (zlen contents) (removals rels r_deltas) ->
  exists buf, copy_loop contents rels r_deltas pos = Some buf /\ copied contents (removals rels r_deltas) pos buf.
Proof.
  revert r_deltas pos. induction rels as [|r rels IH]; intros [|d [|d' ds]] pos Hl Hp; try done.
  - cbn [copy_loop removals]. intros Hr. destruct (slice_ok contents pos (zlen contents)) as (buf & -> & El & Hb); [simpl in Hr; lia|lia|].
    exists buf. split; [done|]. split; simpl; [lia| |].
    + intros p H _. rewrite <- Hb by lia. do 2 f_equal. lia.
    + intros j Hj. exists (pos + j). split; [lia|]. split; [done|lia].
  - cbn [copy_loop removals]. destruct (Z.eqb_spec (d' - d) 0) as [E|E]; [by apply IH; [simpl in *; lia|]|].
    set (n := d' - d) in *. intros (H1 & H2 & H3). destruct (Z.ltb_spec n 0); [lia|].
    pose proof (ranges_bound _ _ _ H3) as Hb. destruct (slice_ok contents pos (r_offset r)) as (part & -> & El & Hpart); [lia|lia|].
    destruct (IH (d' :: ds) (r_offset r + n)) as (rest & -> & Hc); [simpl in *; lia|lia|done|]. cbn [mbind option_bind].
    exists (part ++ rest). split; [done|]. set (l := removals rels (d' :: ds)) in *. destruct Hc as [C1 C2 C3]. split.
    + rewrite zlen_app, C1, El. simpl. lia.
    + intros p Hp' Hd. cbn [deleted existsb fst snd shift foldr] in *. apply orb_false_iff in Hd as [Hd Hd'].
      fold (deleted l p) in Hd'. fold (shift l p). destruct (Z.ltb_spec (r_offset r) p) as [Ho|Ho].
      * destruct (Z.leb_spec (r_offset r) p), (Z.ltb_spec p (r_offset r + n)); try lia; try done.
        pose proof (shift_bound _ _ _ p H3 Hd' ltac:(lia)). unfold zlen in El.
        rewrite lookup_app_r by lia. rewrite <- (C2 p) by (done || lia). f_equal. lia.
      * rewrite (shift_before _ _ _ _ H3) by lia. destruct (Z.leb_spec (r_offset r) p), (Z.ltb_spec p (r_offset r + n)); try lia; try done.
        unfold zlen in El. rewrite lookup_app_l by lia. rewrite <- Hpart by lia. f_equal. lia.
    + intros j Hj. rewrite zlen_app in Hj. cbn [deleted existsb fst snd shift foldr]. destruct (Z.lt_ge_cases j (zlen part)) as [Hj'|Hj'].
      * exists (pos + j). fold (deleted l (pos + j)). fold (shift l (pos + j)). destruct (Z.leb_spec (r_offset r) (pos + j)); [lia|].
        destruct (Z.ltb_spec (r_offset r) (pos + j)); [lia|]. rewrite (shift_before _ _ _ _ H3) by lia. split; [lia|]. split; [|lia].
        apply (deleted_before _ _ _ _ H3). lia.
      * destruct (C3 (j - zlen part)) as (p & Hp' & Hd & Ej); [lia|]. exists p. fold (deleted l p). fold (shift l p). rewrite Hd.
        destruct (Z.leb_spec (r_offset r) p), (Z.ltb_spec p (r_offset r + n)), (Z.ltb_spec (r_offset r) p); lia.
Qed.

Lemma fix_value_ok rels r_deltas v : length r_deltas = S (length rels) -> StronglySorted (fun a b => r_offset a <= r_offset b) rels ->
  default 0 (r_deltas !! lower_bound rels v) = default 0 (head r_deltas) + shift (removals rels r_deltas) v.
Proof.
  revert r_deltas. induction rels as [|r rels IH]; intros [|d [|d' ds]] Hl Hs; try done; [simpl; lia|].
  apply StronglySorted_inv in Hs as [Hs Hr]. cbn [lower_bound removals]. specialize (IH (d' :: ds) ltac:(simpl in *; lia) Hs).
  set (l := removals rels (d' :: ds)) in *. destruct (Z.ltb_spec (r_offset r) v) as [Hv|Hv].
  - change ((d :: d' :: ds) !! S (lower_bound rels v)) with ((d' :: ds) !! lower_bound rels v). rewrite IH. simpl.
    destruct (Z.eqb_spec (d' - d) 0); [lia|]. cbn [shift foldr fst snd]. fold (shift l v). destruct (Z.ltb_spec (r_offset r) v); lia.
  - assert (Hz : shift l v = 0).
    { clear IH Hl. unfold l. clear l. revert d' ds. induction Hr as [|r' rels Hr' _ IHr]; intros d' ds; [done|].
      cbn [removals]. apply StronglySorted_inv in Hs as [Hs _]. destruct ds as [|d'' ds]; [done|].
      destruct (d'' - d' =? 0); [by apply IHr|]. cbn [shift foldr fst snd]. fold (shift (removals rels (d'' :: ds)) v).
      rewrite IHr by done. destruct (Z.ltb_spec (r_offset r') v); lia. }
    simpl. destruct (d' - d =? 0); [by rewrite Hz, Z.add_0_r|]. cbn [shift foldr fst snd]. fold (shift l v). rewrite Hz.
    destruct (Z.ltb_spec (r_offset r) v); lia.
Qed.

(** *** What [shrink_section] removes *)

(** The bytes of instructions that a relocation covers. *)
Definition span (r : ElfRel) : Z :=
  let t := rel_type r in
  if t =? R_RISCV_ALIGN then r_addend r
  else if (t =? R_RISCV_CALL) || (t =? R_RISCV_CALL_PLT) then 8
  else if (t =? R_RISCV_HI20) || (t =? R_RISCV_TPREL_HI20) || (t =? R_RISCV_TPREL_ADD) then 4 else 0.

Fixpoint spans (rels : list ElfRel) : list (Z * Z) :=
  match rels with
  | [] => []
  | r :: rels => if span r =? 0 then spans rels else (r_offset r, span r) :: spans rels
  end.

Section Shrink.
Context (m : machine) (ctx : Context) (syms : gmap Z Symbol) (undef_weak internal : Z -> bool).
Context (relax use_rvc : bool) (contents : bytes) (isec : Section_) (u : Z).

(** Instructions are aligned to two bytes, or to four if no file has compressed
    instructions, and so are the section and its NOPs; relocations are sorted and their
    instructions do not overlap; the section is as aligned as its contents ask for. *)
Record relaxable : Prop := {
  rx_unit : u = 4 \/ u = 2;
  rx_rvc : use_rvc = true -> u = 2;
  rx_addr : 0 <= section_addr isec /\ section_addr isec mod u = 0 /\ section_addr isec + zlen contents < 2 ^ 62;
  rx_p2align : 0 <= p2align isec < 62;
  rx_sorted : StronglySorted (fun a b => r_offset a <= r_offset b) (section_rels isec);
  rx_spans : ranges_ok 0 (zlen contents) (spans (section_rels isec));
  rx_align : Forall (fun r => rel_type r = R_RISCV_ALIGN -> r_offset r mod u = 0 /\ 0 <= r_offset r <= zlen contents /\
    exists k, 0 <= k <= p2align isec /\ 2 * u <= 2 ^ k /\ r_addend r = 2 ^ k - u) (section_rels isec);
  rx_symbols : Forall (fun r => is_Some (sym_addr m ctx syms (r_sym r))) (section_rels isec) }.

Abbreviation shrink_one := (shrink_one m ctx syms undef_weak internal relax use_rvc contents isec).
Abbreviation shrink_loop := (shrink_loop m ctx syms undef_weak internal relax use_rvc contents isec).

(** One iteration at a place with [delta] bytes removed in front of it. *)
Record shrinks (r : ElfRel) (next : list ElfRel) (delta d : Z) : Prop := {
  sh_one : shrink_one r next delta = Some d;
  sh_range : 0 <= d <= span r;
  sh_unit : d mod u = 0;
  sh_align : rel_type r = R_RISCV_ALIGN -> forall k, 0 <= k -> r_addend r = 2 ^ k - u ->
    (section_addr isec + r_offset r + r_addend r - (delta + d)) mod 2 ^ k = 0 }.

Lemma u64_small x : 0 <= x < 2 ^ 64 -> u64 x = x.
Proof. apply wrap_small. Qed.

Lemma i64_small x : 0 <= x < 2 ^ 63 -> i64 x = x.
Proof. intros H. apply swrap_small; [lia|]. unfold is_s. simpl. lia. Qed.

Lemma bit_ceil_nops k : 0 <= k < 62 -> u = 4 \/ u = 2 -> 2 * u <= 2 ^ k -> bit_ceil (2 ^ k - u + 1) = Some (2 ^ k).
Proof.
  intros Hk Hu H2. pose proof (pow2_lt_64 k ltac:(lia)) as Hlt. set (v := 2 ^ k - u + 1) in *.
  assert (Hv : is_u 64 v) by (unfold is_u; lia). pose proof (bit_ceil_spec v Hv) as H.
  assert (H63 : 2 ^ k <= 2 ^ 63) by (apply Z.pow_le_mono_r; lia).
  destruct (bit_ceil v) as [r|]; [|lia]. destruct H as (k' & Hk' & -> & Hle & Hlt'). f_equal.
  destruct (Z.lt_trichotomy k' k) as [Hc|[->|Hc]]; [|done|].
  - assert (2 ^ k' * 2 <= 2 ^ k) by (replace (2 ^ k' * 2) with (2 ^ (k' + 1)) by (rewrite Z.pow_add_r by lia; lia);
      apply Z.pow_le_mono_r; lia). lia.
  - assert (2 ^ k * 2 <= 2 ^ k') by (replace (2 ^ k * 2) with (2 ^ (k + 1)) by (rewrite Z.pow_add_r by lia; lia); apply Z.pow_le_mono_r; lia). lia.
Qed.

Lemma mod_pow2_unit k : 0 <= k -> u = 4 \/ u = 2 -> u <= 2 ^ k -> 2 ^ k mod u = 0.
Proof.
  intros Hk Hu H. apply Z.mod_divide; [lia|]. assert (exists j, u = 2 ^ j /\ 0 <= j) as (j & -> & Hj)
    by (destruct Hu as [-> | ->]; [by exists 2|by exists 1]).
  exists (2 ^ (k - j)). assert (j <= k) by (destruct (Z.le_gt_cases j k); [done|]; pose proof (Z.pow_lt_mono_r 2 k j ltac:(lia) ltac:(lia) ltac:(lia)); lia).
  rewrite <- Z.pow_add_r by lia. f_equal. lia.
Qed.

Lemma mod_sub_mult a b k : 0 <= k -> u = 4 \/ u = 2 -> u <= 2 ^ k -> a mod u = 0 -> b mod 2 ^ k = 0 -> (b - a) mod u = 0.
Proof.
  intros Hk Hu H2 Ha Hb. rewrite Zminus_mod, Ha, Z.sub_0_r, Z.mod_mod by lia. apply Z.mod_divide; [lia|].
  pose proof (pow2_pos k Hk). etransitivity; [apply Z.mod_divide; [lia|by apply (mod_pow2_unit k)]|]. apply Z.mod_divide; lia.
Qed.

(** The next instruction is aligned, and no more than the NOPs is removed. *)
Lemma align_padding loc k : 0 <= loc < 2 ^ 62 -> loc mod u = 0 -> 0 <= k < 62 -> u = 4 \/ u = 2 -> 2 * u <= 2 ^ k ->
  let a := align_to loc (2 ^ k) in loc <= a <= loc + (2 ^ k - u) /\ a mod 2 ^ k = 0 /\ (a - loc) mod u = 0.
Proof.
  intros Hl Hu0 Hk Hu H2 a. assert (Hb : 2 ^ k <= 2 ^ 62) by (apply Z.pow_le_mono_r; lia).
  destruct (align_to_fits loc k) as [H1 Hm]; [unfold is_u; lia|lia|lia|]. fold a in H1, Hm.
  pose proof (mod_sub_mult loc a k ltac:(lia) Hu ltac:(lia) Hu0 Hm) as Hd. split; [|by split]. split; [lia|].
  apply Z.mod_divide in Hd as [q Hq]; [|lia]. pose proof (mod_pow2_unit k ltac:(lia) Hu ltac:(lia)) as Hp.
  apply Z.mod_divide in Hp as [q' Hq']; [|lia]. rewrite Hq' in *. assert (q < q') by nia. nia.
Qed.

Lemma shrink_align_ok r delta : relaxable -> r ∈ section_rels isec -> rel_type r = R_RISCV_ALIGN ->
  0 <= delta <= r_offset r -> delta mod u = 0 -> exists d, shrink_align isec r delta = Some d /\ 0 <= d <= r_addend r /\ d mod u = 0 /\
    forall k, 0 <= k -> r_addend r = 2 ^ k - u -> (section_addr isec + r_offset r + r_addend r - (delta + d)) mod 2 ^ k = 0.
Proof.
  intros [Hu _ (Ha1 & Ha2 & Ha3) Hp _ _ Hal _] Hr Ht Hd Hdu. rewrite Forall_forall in Hal. destruct (Hal r Hr Ht) as (Ho & Hb & Hk).
  unfold shrink_align. set (loc := section_addr isec + r_offset r - delta).
  assert (Hloc : loc mod u = 0).
  { unfold loc. rewrite Zminus_mod, Hdu, Z.sub_0_r, Z.mod_mod by lia. rewrite Zplus_mod, Ha2, Ho. by apply Z.mod_0_l; lia. }
  rewrite (u64_small loc) by (unfold loc; lia). rewrite Z.shiftl_1_l. destruct Hk as (k & Hk & H2 & E).
  pose proof (Z.pow_le_mono_r 2 k 61 ltac:(lia) ltac:(lia)) as H61. pose proof (pow2_pos k ltac:(lia)).
  rewrite E, (u64_small (2 ^ k - u + 1)), (bit_ceil_nops k) by lia. cbn [mbind option_bind].
  destruct (Z.leb_spec (2 ^ k) (2 ^ p2align isec)) as [_|Hc].
  2:{ pose proof (Z.pow_le_mono_r 2 k (p2align isec) ltac:(lia) ltac:(lia)). lia. }
  destruct (align_padding loc k) as ((A1 & A2) & A3 & A4); [unfold loc; lia|done|lia|done|done|].
  set (a := align_to loc (2 ^ k)) in *. rewrite (u64_small (loc + (2 ^ k - u))) by (unfold loc in *; lia).
  exists (loc + (2 ^ k - u) - a). split; [f_equal; apply i64_small; lia|]. split; [lia|]. split.
  + replace (loc + (2 ^ k - u) - a) with (2 ^ k - u - (a - loc)) by lia. rewrite Zminus_mod, A4, Z.sub_0_r, Z.mod_mod by lia.
    rewrite Zminus_mod, Z.mod_same, Z.sub_0_r, Z.mod_mod by lia. apply mod_pow2_unit; (done || lia).
  + intros k' Hk' Ek'. assert (k' = k) as -> by (apply (Z.pow_inj_r 2); lia).
    replace (section_addr isec + r_offset r + (2 ^ k - u) - (delta + (loc + (2 ^ k - u) - a))) with a by (unfold loc; lia). done.
Qed.

Lemma read_le_ok n buf off : 0 <= off -> off + Z.of_nat n <= zlen buf -> is_Some (read_le n buf off).
Proof.
  intros H1 H2. unfold read_le, in_buf. destruct (Z.leb_spec 0 off), (Z.leb_spec (off + Z.of_nat n) (zlen buf)); try lia. done.
Qed.

Lemma shrink_call_ok r : relaxable -> is_Some (sym_addr m ctx syms (r_sym r)) -> 0 <= r_offset r -> r_offset r + 8 <= zlen contents ->
  exists d, shrink_call m ctx syms undef_weak use_rvc contents isec r = Some d /\ 0 <= d <= 8 /\ d mod u = 0.
Proof.
  intros [Hu Hrvc _ _ _ _ _ _] [S HS] H1 H2. unfold shrink_call, compute_distance.
  assert (exists sym, syms !! r_sym r = Some sym) as [sym Hs].
  { unfold sym_addr in HS. destruct (syms !! r_sym r); [by eexists|done]. }
  rewrite Hs, HS. cbn [mbind option_bind].
  destruct (read_le_ok 4 contents (r_offset r + 4)) as [w Hw]; [lia|lia|].
  set (dist := if is_absolute sym then _ else _).
  assert (exists x, dist = Some x) as [x ->] by (unfold dist; repeat case_match; by eexists). cbn [mbind option_bind]. rewrite Hw. cbn [mbind option_bind].
  assert (U : u = 2 -> 6 mod u = 0 /\ 4 mod u = 0) by (by intros ->).
  assert (U4 : 4 mod u = 0 /\ 0 mod u = 0) by (by destruct Hu as [-> | ->]).
  destruct use_rvc eqn:Er; [destruct (U (Hrvc eq_refl)) as [U1 U2]|]; repeat case_match; eexists; (split; [done|]); (split; [lia|]); try tauto.
  all: by rewrite ?andb_false_r in *.
Qed.

Lemma shrink_one_ok r next delta : relaxable -> r ∈ section_rels isec -> 0 <= delta -> delta mod u = 0 ->
  (span r <> 0 -> delta <= r_offset r /\ r_offset r + span r <= zlen contents) -> exists d, shrinks r next delta d.
Proof.
  intros HR Hr Hd Hdu Hb. pose proof (rx_symbols HR) as HS. rewrite Forall_forall in HS. pose proof (HS r Hr) as [S HSr].
  pose proof (rx_unit HR) as Hu. assert (U : 4 mod u = 0 /\ 0 mod u = 0) by (by destruct Hu as [-> | ->]).
  destruct (Z.eqb_spec (rel_type r) R_RISCV_ALIGN) as [Et|Et].
  - assert (Esp : span r = r_addend r) by (unfold span; by rewrite Et). pose proof (rx_align HR) as Hal. rewrite Forall_forall in Hal.
    destruct (Hal r Hr Et) as (_ & _ & k & _ & Hk & Ek). destruct (Hb ltac:(lia)) as [H1 H2].
    destruct (shrink_align_ok r delta HR Hr Et) as (d & E & Hdr & Hdu' & Hal'); [lia|done|]. exists d. split; [|lia|done|done].
    unfold Riscv.shrink_one. cbv zeta. by rewrite Et.
  - assert (exists d, shrink_one r next delta = Some d /\ 0 <= d <= span r /\ d mod u = 0) as (d & E & Hd1 & Hd2); [|by exists d].
    apply Z.eqb_neq in Et. unfold Riscv.shrink_one, span in *. cbv zeta in *. rewrite Et in *.
    assert (Z0 : forall b, 0 <= b -> exists d, Some 0 = Some d /\ 0 <= d <= b /\ d mod u = 0) by (intros b Hb'; exists 0; split; [done|split; [lia|tauto]]).
    assert (Z4 : forall c : bool, exists d, Some (if c then 4 else 0) = Some d /\ 0 <= d <= 4 /\ d mod u = 0).
    { intros c. exists (if c then 4 else 0). split; [done|]. destruct c; (split; [lia|tauto]). }
    destruct (negb relax || _); [apply Z0; repeat case_match; lia|]. destruct (internal (r_sym r)); [apply Z0; repeat case_match; lia|].
    destruct ((rel_type r =? R_RISCV_CALL) || (rel_type r =? R_RISCV_CALL_PLT)).
    + destruct (Hb ltac:(lia)) as [H1 H2]. apply shrink_call_ok; [done|by eexists|lia|lia].
    + rewrite HSr. cbn [mbind option_bind]. destruct (rel_type r =? R_RISCV_HI20); [apply Z4|].
      destruct ((rel_type r =? R_RISCV_TPREL_HI20) || (rel_type r =? R_RISCV_TPREL_ADD)) eqn:Eb; rewrite ?orb_false_l, ?Eb; [apply Z4|by apply Z0].
Qed.

(** The whole loop: the deltas in front of the relocations, and ranges that lie within
    the instructions. *)
Lemma ranges_weaken pos pos' size l : ranges_ok pos' size l -> pos <= pos' -> ranges_ok pos size l.
Proof. destruct l as [|[o n] l]; simpl; [lia|]. intros (H1 & H2 & H3) H. repeat split; (lia || done). Qed.

Definition site (rels : list ElfRel) (l : list Z) : Prop :=
  forall i r, rels !! i = Some r -> exists delta d, l !! i = Some delta /\ l !! S i = Some (delta + d) /\
    0 <= delta /\ delta mod u = 0 /\ shrinks r (drop (S i) rels) delta d.

(** *** Where things end up *)

Lemma shift_low l v : (forall q, q ∈ l -> v <= q.1) -> shift l v = 0.
Proof.
  induction l as [|[o n] l IH]; intros H; [done|]. cbn [shift foldr fst snd]. fold (shift l v).
  rewrite IH by (intros q Hq; apply H; by constructor). specialize (H (o, n) ltac:(constructor)). simpl in H.
  destruct (Z.ltb_spec o v); lia.
Qed.

Lemma removals_offset rels l q : q ∈ removals rels l -> exists r, r ∈ rels /\ q.1 = r_offset r.
Proof.
  revert l. induction rels as [|r rels IH]; intros [|d [|d' l]] H; try (by apply elem_of_nil in H). cbn [removals] in H.
  destruct (d' - d =? 0).
  - destruct (IH _ H) as (r' & Hr & E). exists r'. split; [by constructor|done].
  - apply elem_of_cons in H as [->|H]; [exists r; split; [constructor|done]|].
    destruct (IH _ H) as (r' & Hr & E). exists r'. split; [by constructor|done].
Qed.

Lemma spans_elem rels r : r ∈ rels -> span r <> 0 -> (r_offset r, span r) ∈ spans rels.
Proof.
  induction 1 as [r rels|r r' rels _ IH]; intros Hs; cbn [spans].
  - apply Z.eqb_neq in Hs. rewrite Hs. constructor.
  - destruct (span r' =? 0); [by apply IH|]. constructor. by apply IH.
Qed.

(** The [r_deltas] are the distances by which the places of relocations move. *)
Definition moves (rels : list ElfRel) (l : list Z) (delta0 : Z) : Prop :=
  let R := removals rels l in
  forall i r, rels !! i = Some r ->
    (span r <> 0 \/ deleted R (r_offset r) = false -> l !! i = Some (delta0 + shift R (r_offset r))) /\
    (span r <> 0 -> l !! S i = Some (delta0 + shift R (r_offset r + span r))).

Lemma shrink_loop_ok rels delta pos : relaxable -> (forall r, r ∈ rels -> r ∈ section_rels isec) ->
  0 <= delta <= pos -> delta mod u = 0 -> StronglySorted (fun a b => r_offset a <= r_offset b) rels ->
  ranges_ok pos (zlen contents) (spans rels) ->
  exists l, shrink_loop rels delta = Some l /\ head l = Some delta /\ length l = S (length rels) /\ site rels l /\
    ranges_ok pos (zlen contents) (removals rels l) /\ moves rels l delta.
Proof.
  intros HR. revert delta pos. induction rels as [|r rels IH]; intros delta pos Hin Hd Hdu Hso Hs.
  { exists [delta]. repeat split; try done; intros i r Hi; done. }
  apply StronglySorted_inv in Hso as [Hso Hr0]. rewrite Forall_forall in Hr0.
  assert (Hb : span r <> 0 -> pos <= r_offset r /\ 0 < span r /\ ranges_ok (r_offset r + span r) (zlen contents) (spans rels)).
  { intros Hz. cbn [spans] in Hs. destruct (Z.eqb_spec (span r) 0); [done|]. simpl in Hs. tauto. }
  destruct (shrink_one_ok r rels delta HR) as (d & [E Hr Hu Hal]); [apply Hin; constructor|lia|done| |].
  { intros Hz. destruct (Hb Hz) as (H1 & H2 & H3). split; [lia|]. by apply ranges_bound in H3. }
  assert (Hdu' : (delta + d) mod u = 0) by (rewrite Zplus_mod, Hdu, Hu; apply Z.mod_0_l; pose proof (rx_unit HR); lia).
  assert (exists pos', 0 <= delta + d <= pos' /\ ranges_ok pos' (zlen contents) (spans rels) /\ pos <= pos' /\
    (d <> 0 -> pos <= r_offset r /\ r_offset r + d <= pos') /\ (span r <> 0 -> pos' = r_offset r + span r)) as (pos' & Hd' & Hs' & Hle & Hd0 & Hpos').
  { destruct (Z.eq_dec (span r) 0) as [Hz|Hz].
    - exists pos. cbn [spans] in Hs. rewrite Hz in Hs. split; [lia|]. split; [done|]. lia.
    - destruct (Hb Hz) as (H1 & H2 & H3). exists (r_offset r + span r). split; [lia|]. split; [done|]. lia. }
  destruct (IH (delta + d) pos') as (l & El & Eh & Elen & Hsite & Hrng & Hmv); [intros x Hx; apply Hin; by constructor|done..|].
  exists (delta :: l). cbn [Riscv.shrink_loop]. rewrite E. cbn [mbind option_bind]. rewrite El. split; [done|]. split; [done|].
  split; [simpl; by rewrite Elen|]. destruct l as [|d' l]; [done|]. injection Eh as ->. set (R' := removals rels (delta + d :: l)) in *.
  assert (ER : removals (r :: rels) (delta :: delta + d :: l) = (if d =? 0 then [] else [(r_offset r, d)]) ++ R').
  { cbn [removals]. fold R'. replace (delta + d - delta) with d by lia. by destruct (d =? 0). }
  assert (Esh : forall v, shift (removals (r :: rels) (delta :: delta + d :: l)) v = (if r_offset r <? v then d else 0) + shift R' v).
  { intros v. rewrite ER. destruct (Z.eqb_spec d 0) as [->|Hz]; [by destruct (_ <? _)|done]. }
  assert (Hlow : shift R' (r_offset r) = 0).
  { apply shift_low. intros q Hq. destruct (removals_offset _ _ _ Hq) as (x & Hx & ->). by apply Hr0. }
  split; [|split].
  - intros [|i] x Hx; [|by apply (Hsite i x)]. injection Hx as <-. exists delta, d. by repeat split; (lia || done).
  - rewrite ER. destruct (Z.eqb_spec d 0) as [Hz|Hz].
    + by eapply ranges_weaken.
    + destruct (Hd0 Hz) as [H1 H2]. simpl. split; [done|]. split; [lia|]. by eapply ranges_weaken.
  - unfold moves. cbv zeta. intros [|i] x Hx.
    + injection Hx as <-. rewrite !Esh, Hlow. split; intros Hz.
      * rewrite Z.ltb_irrefl, !Z.add_0_r. done.
      * cbn [lookup list_lookup]. rewrite (shift_before pos' (zlen contents) R' (r_offset r + span r)); [|done|].
        -- destruct (Z.ltb_spec (r_offset r) (r_offset r + span r)); [apply (f_equal Some); lia|]. destruct (Hb Hz). lia.
        -- rewrite (Hpos' Hz). done.
    + change ((r :: rels) !! S i) with (rels !! i) in Hx.
      change ((delta :: delta + d :: l) !! S i) with ((delta + d :: l) !! i).
      change ((delta :: delta + d :: l) !! S (S i)) with ((delta + d :: l) !! S i).
      destruct (Hmv i x Hx) as [M1 M2]. fold R' in M1, M2. assert (Hxin : x ∈ rels) by (by eapply list_elem_of_lookup_2). pose proof (Hr0 x Hxin) as Hox.
      assert (Hbx : span x <> 0 -> pos' <= r_offset x /\ 0 < span x).
      { intros Hz. pose proof (ranges_after _ _ _ _ _ Hs' (spans_elem _ _ Hxin Hz)). lia. }
      rewrite !Esh. split; intros Hz.
      * assert (Hz' : span x <> 0 \/ deleted R' (r_offset x) = false).
        { destruct Hz as [Hz|Hz]; [by left|right]. rewrite ER in Hz. destruct (d =? 0); [done|]. simpl in Hz. by apply orb_false_iff in Hz as [_ Hz]. }
        rewrite (M1 Hz'). apply (f_equal Some).
        destruct (Z.ltb_spec (r_offset r) (r_offset x)); [lia|].
        assert (d = 0); [|lia]. destruct (Z.eq_dec d 0) as [|Hd1]; [done|exfalso]. destruct (Hd0 Hd1) as [_ H1].
        destruct Hz as [Hz|Hz]; [destruct (Hbx Hz); lia|]. rewrite ER in Hz. apply Z.eqb_neq in Hd1 as Hd2. rewrite Hd2 in Hz. simpl in Hz.
        apply orb_false_iff in Hz as [Hz _]. destruct (Z.leb_spec (r_offset r) (r_offset x)), (Z.ltb_spec (r_offset x) (r_offset r + d)); try lia; done.
      * rewrite (M2 Hz). apply (f_equal Some). destruct (Hbx Hz). destruct (Z.ltb_spec (r_offset r) (r_offset x + span x)); lia.
Qed.

(** No removed range surrounds the place. *)
Definition inside (l : list (Z * Z)) (v : Z) : bool := existsb (fun q => (q.1 <? v) && (v <? q.1 + q.2)) l.

Lemma shift_inside pos size l p : ranges_ok pos size l -> inside l p = false -> pos <= p -> 0 <= shift l p <= p - pos.
Proof.
  revert pos. induction l as [|[o n] l IH]; intros pos; simpl; [lia|]. intros (H1 & H2 & H3) Hd Hp.
  apply orb_false_iff in Hd as [Hd Hd']. destruct (Z.ltb_spec o p) as [Ho|Ho].
  - destruct (Z.ltb_spec p (o + n)); [done|]. specialize (IH _ H3 Hd'). lia.
  - rewrite (shift_before _ _ _ _ H3) by lia. lia.
Qed.

Lemma removals_site rels l q : length l = S (length rels) -> site rels l -> q ∈ removals rels l -> exists r, r ∈ rels /\ q.1 = r_offset r /\ 0 < q.2 <= span r.
Proof.
  revert l. induction rels as [|r rels IH]; intros [|d [|d' l]] Hl Hs H; try (by apply elem_of_nil in H); try done.
  assert (Hs' : site rels (d' :: l)) by (intros i x Hx; by apply (Hs (S i))).
  destruct (Hs O r eq_refl) as (a & b & [= <-] & [= Eb] & _ & _ & [_ Hr _ _]). cbn [removals] in H.
  assert (Hrec : q ∈ removals rels (d' :: l) -> exists r', r' ∈ r :: rels /\ q.1 = r_offset r' /\ 0 < q.2 <= span r').
  { intros Hq. destruct (IH (d' :: l)) as (r' & Hr' & E); [simpl in *; lia|done..|]. exists r'. split; [by constructor|done]. }
  destruct (Z.eqb_spec (d' - d) 0); [by apply Hrec|]. apply elem_of_cons in H as [->|H]; [|by apply Hrec].
  exists r. split; [constructor|]. split; [done|]. simpl. lia.
Qed.

Lemma removals_total rels d l : length l = length rels -> total (removals rels (d :: l)) = default 0 (last (d :: l)) - d.
Proof.
  revert d l. induction rels as [|r rels IH]; intros d [|d' l] Hl; try done; [simpl; lia|].
  cbn [removals]. change (last (d :: d' :: l)) with (last (d' :: l)). specialize (IH d' l ltac:(simpl in *; lia)).
  destruct (Z.eqb_spec (d' - d) 0); [lia|]. cbn [total foldr snd]. fold (total (removals rels (d' :: l))). lia.
Qed.

Lemma total_bound pos size l : ranges_ok pos size l -> 0 <= total l <= size - pos.
Proof.
  revert pos. induction l as [|[o n] l IH]; intros pos; simpl; [lia|]. intros (H1 & H2 & H3). specialize (IH _ H3). lia.
Qed.

Lemma mod_weaken a b k n : 0 <= k <= n -> a mod 2 ^ n = b mod 2 ^ n -> a mod 2 ^ k = b mod 2 ^ k.
Proof.
  intros H E. assert (Hd : (2 ^ k | 2 ^ n)) by (exists (2 ^ (n - k)); rewrite <- Z.pow_add_r by lia; f_equal; lia).
  by rewrite <- (Z.mod_mod_divide a _ _ Hd), <- (Z.mod_mod_divide b _ _ Hd), E.
Qed.

(** The deltas and the contents of a relaxed section. *)
Record relaxed (l : list Z) (buf : bytes) : Prop := {
  rd_shrink : shrink_section m ctx syms undef_weak internal relax use_rvc contents isec = Some l;
  rd_copy : copy_contents_riscv contents (section_rels isec) l = Some buf;
  rd_head : head l = Some 0;
  rd_length : length l = S (length (section_rels isec));
  rd_site : site (section_rels isec) l;
  rd_ranges : ranges_ok 0 (zlen contents) (removals (section_rels isec) l);
  rd_moves : moves (section_rels isec) l 0;
  rd_copied : copied contents (removals (section_rels isec) l) 0 buf }.

Lemma relaxed_ok : relaxable -> exists l buf, relaxed l buf.
Proof.
  intros HR. pose proof (rx_unit HR) as Hunit. pose proof (rx_addr HR) as (Ha1 & _ & Ha3).
  destruct (shrink_loop_ok (section_rels isec) 0 0) as (l & El & Eh & Hl & Hsite & Hrng & Hmv);
    [done|done|lia|by apply Z.mod_0_l; lia|apply HR..|].
  destruct (copy_loop_ok contents (section_rels isec) l 0 Hl ltac:(lia) Hrng) as (buf & Ebuf & Hc).
  exists l, buf. split; try done. destruct l; [done|]. exact Ebuf.
Qed.

(** C9: under [relaxable] a section can be shrunk and copied; the new contents are the
    bytes outside of the removed ranges, each at its place less the bytes removed in front
    of it and nothing else, and their number is the new size; every removed range begins
    at a relocation and lies within the instructions it covers; symbols and the places
    of relocations move by the bytes removed in front of them; and the instruction after
    the NOPs of an R_RISCV_ALIGN is aligned wherever the section is placed. *)
Theorem relaxation_keeps_code : relaxable ->
  exists l buf, shrink_section m ctx syms undef_weak internal relax use_rvc contents isec = Some l /\
    copy_contents_riscv contents (section_rels isec) l = Some buf /\
    let R := removals (section_rels isec) l in
    zlen buf = shrunk_size (zlen contents) l /\
    (forall p, 0 <= p < zlen contents -> deleted R p = false -> buf !! Z.to_nat (p - shift R p) = contents !! Z.to_nat p) /\
    (forall j, 0 <= j < zlen buf -> exists p, 0 <= p < zlen contents /\ deleted R p = false /\ j = p - shift R p) /\
    (forall q, q ∈ R -> exists r, r ∈ section_rels isec /\ q.1 = r_offset r /\ 0 < q.2 <= span r) /\
    (forall v, 0 <= v <= zlen contents -> inside R v = false -> fix_value (section_rels isec) l v = v - shift R v) /\
    (forall i r, section_rels isec !! i = Some r -> span r <> 0 \/ deleted R (r_offset r) = false ->
      l !! i = Some (shift R (r_offset r))) /\
    (forall r addr k, r ∈ section_rels isec -> rel_type r = R_RISCV_ALIGN -> 0 <= k <= p2align isec -> r_addend r = 2 ^ k - u ->
      addr mod 2 ^ p2align isec = section_addr isec mod 2 ^ p2align isec ->
      (addr + (r_offset r + r_addend r - shift R (r_offset r + r_addend r))) mod 2 ^ k = 0).
Proof.
  intros HR. pose proof (rx_addr HR) as (Ha1 & _ & Ha3).
  destruct (relaxed_ok HR) as (l & buf & [El Ebuf Eh Hl Hsite Hrng Hmv [C1 C2 C3]]).
  destruct l as [|d0 l0]; [done|]. injection Eh as ->. set (l := 0 :: l0) in *. set (R := removals (section_rels isec) l) in *.
  pose proof (total_bound _ _ _ Hrng) as Ht.
  assert (Htot : total R = default 0 (last l)) by (unfold R, l; rewrite removals_total by (simpl in Hl; lia); lia).
  exists l, buf. split; [done|]. split; [done|]. cbv zeta. fold R. repeat match goal with |- _ /\ _ => split end.
  - rewrite C1. unfold shrunk_size. rewrite <- Htot, u64_small; lia.
  - intros p Hp Hd. rewrite <- (C2 p) by done. do 2 f_equal. lia.
  - intros j Hj. destruct (C3 j Hj) as (p & H1 & H2 & H3). exists p. repeat split; (done || lia).
  - intros q Hq. by apply (removals_site (section_rels isec) l).
  - intros v Hv Hi. unfold fix_value, l at 1. rewrite (fix_value_ok _ _ _ Hl) by apply HR. fold R. simpl.
    pose proof (shift_inside _ _ _ v Hrng Hi ltac:(lia)). apply u64_small. lia.
  - intros i r Hi Hs. destruct (Hmv i r Hi) as [M _]. by rewrite M.
  - intros r addr k Hr Ht' Hk Ek Haddr. apply list_elem_of_lookup in Hr as [i Hi]. destruct (Hsite i r Hi) as (a & d & E1 & E2 & _ & _ & [_ _ _ Hal]).
    destruct (Hmv i r Hi) as [_ M2]. fold R in M2. assert (Esp : span r = r_addend r) by (unfold span; by rewrite Ht').
    pose proof (rx_align HR) as Hra. rewrite Forall_forall in Hra. destruct (Hra r) as (_ & _ & k' & _ & Hk' & Ek'); [by eapply list_elem_of_lookup_2|done|].
    rewrite Esp in M2. rewrite (M2 ltac:(lia)) in E2. injection E2 as E2.
    assert (shift R (r_offset r + r_addend r) = a + d) as -> by lia. specialize (Hal Ht' k ltac:(lia) Ek).
    pose proof (mod_weaken _ _ k _ Hk Haddr) as Hw.
    rewrite Zplus_mod, Hw, <- Zplus_mod, <- Hal. f_equal. lia.
Qed.
End Shrink.

(** ** A sample

    A call that JAL can reach, NOPs in front of an instruction that is to be aligned to
    eight bytes, and the address of a symbol in two parts: four bytes are removed from the
    call and two from the NOPs. Symbol 7 is the place of the upper part. *)
Definition sample_text : bytes :=
  [0x97; 0x02; 0x00; 0x00; 0xe7; 0x80; 0x02; 0x00; 0x13; 0x00; 0x00; 0x00; 0x01; 0x00; 0x82; 0x80;
   0x97; 0x07; 0x00; 0x00; 0x93; 0x87; 0x07; 0x00].
Definition sample_rels : list ElfRel :=
  [mkElfRel 0 R_RISCV_CALL 2 0; mkElfRel 0 R_RISCV_RELAX 2 0; mkElfRel 8 R_RISCV_ALIGN 4 6;
   mkElfRel 16 R_RISCV_PCREL_HI20 2 0; mkElfRel 20 R_RISCV_PCREL_LO12_I 7 0].
Definition riscv_symbols (label : Z) : gmap Z Symbol := <[7 := sample_symbol sample_isec label "STT_NOTYPE" false (-1)]> sample_symbols.
Definition sample_code : Section_ := mkSection 4096 false true 8 3 0 sample_rels.

Lemma sample_relaxable : relaxable RV64LE sample_ctx (riscv_symbols 16) true sample_text sample_code 2.
Proof.
  assert (Ha : Forall (fun r => rel_type r = R_RISCV_ALIGN -> r_offset r = 8 /\ r_addend r = 6) sample_rels) by (repeat constructor; done).
  split; [by right|done|decided|decided| |vm_compute; repeat split; done| |].
  - repeat constructor; by apply Z.leb_le.
  - apply (Forall_impl _ _ _ Ha). intros r H Ht. destruct (H Ht) as [-> ->]. split; [done|]. split; [decided|]. exists 3. decided.
  - repeat constructor; done.
Qed.

Lemma relaxation_keeps_code_witness :
  exists l buf, shrink_section RV64LE sample_ctx (riscv_symbols 16) (fun _ => false) (fun _ => false) true true sample_text sample_code = Some l /\
    copy_contents_riscv sample_text sample_rels l = Some buf /\ zlen buf = 18 /\ l !! 2%nat = Some 4.
Proof.
  destruct (relaxation_keeps_code RV64LE sample_ctx (riscv_symbols 16) (fun _ => false) (fun _ => false) true true sample_text sample_code 2
    sample_relaxable) as (l & buf & E1 & E2 & E3 & _). exists l, buf. split; [done|]. split; [done|].
  vm_compute in E1. injection E1 as <-. split; [|done]. rewrite E3. by vm_compute.
Defined.
