(* ===== verification/RiscvReloc.v ===== *)
(** * Relocations of RISC-V (src/elf/arch-riscv.cc)

    The application of relocations to sections that were relaxed ([Riscv]). *)

From S2P Require Import Prelude Buffers Integers Bits Enums ElfConst ElfTypes Got InputSections RiscvIsa Riscv.
Local Open Scope list_scope.
Local Open Scope Z_scope.

Section Apply.
Context (m : machine) (ctx : Context) (opt : options) (syms : gmap Z Symbol) (got : GotSection) (undef_weak : Z -> bool).
(** [in_section]: [sym.get_input_section() == this]. *)
Context (in_section : Z -> bool) (contents : bytes) (isec : Section_) (r_deltas : list Z).

Definition big_endian : bool := negb (is_le (target_of m)).

Definition get_r_delta (idx : nat) : option Z := match r_deltas with [] => Some 0 | _ => r_deltas !! idx end.

Record apply_state := mkApply { out : bytes; dynrels : list ElfRel; range_errors : list ElfRel }.

Definition with_out (f : bytes -> option bytes) (st : apply_state) : option apply_state :=
  buf ← f (out st); Some (mkApply buf (dynrels st) (range_errors st)).

(** [check] *)
Definition check_range (r : ElfRel) (val lo hi : Z) (st : apply_state) : apply_state :=
  if (val <? lo) || (hi <=? val) then mkApply (out st) (dynrels st) (range_errors st ++ [r]) else st.

(** Instructions. *)
Definition insn32 (f : Z -> Z) (off : Z) : bytes -> option bytes := modify false 4 f off.
Definition insn16 (f : Z -> Z) (off : Z) : bytes -> option bytes := modify false 2 f off.
(** Data. *)
Definition data (n : nat) (f : Z -> Z) (off : Z) : bytes -> option bytes := modify big_endian n f off.

Definition absolute (r : ElfRel) (sym : Symbol) (S P off : Z) (st : apply_state) : option apply_state :=
  '(w, rel) ← apply_absrel m ctx opt isec r sym S P (get_dyn_absrel_action ctx sym);
  buf ← match w with Some x => assign big_endian (Z.to_nat (word_size m)) x off (out st) | None => Some (out st) end;
  Some (mkApply buf (dynrels st ++ match rel with Some d => [d] | None => [] end) (range_errors st)).

Definition apply_call (r : ElfRel) (removed dist off : Z) (st : apply_state) : option apply_state :=
  w ← read_le 4 contents (r_offset r + 4);
  let rd := get_rd w in
  if removed =? 4 then with_out (fun b => assign false 4 (Z.lor (Z.shiftl rd 7) 0x6f) off b ≫= insn32 (write_jtype dist) off) st
  else if (removed =? 6) && (rd =? 0) then with_out (fun b => assign false 2 0xa001 off b ≫= insn16 (write_cjtype dist) off) st
  else if (removed =? 6) && (rd =? 1) then
    if is_64 (target_of m) then None else with_out (fun b => assign false 2 0x2001 off b ≫= insn16 (write_cjtype dist) off) st
  else if negb (removed =? 0) then None
  else
    let val := if undef_weak (r_sym r) then 0 else dist in
    with_out (fun b => insn32 (write_utype val) off b ≫= insn32 (write_itype val) (off + 4))
      (check_range r (i64 val) (- 2 ^ 31) (2 ^ 31) st).

(** The NOPs of R_RISCV_ALIGN. *)
Fixpoint write_nops (fuel : nat) (i padding off : Z) (buf : bytes) : option bytes :=
  match fuel with
  | O => Some buf
  | S fuel =>
      if i <=? padding - 4 then assign false 4 0x13 (off + i) buf ≫= write_nops fuel (i + 4) padding off
      else if i <? padding then assign false 2 1 (off + i) buf else Some buf
  end.

Definition apply_align (r : ElfRel) (removed off : Z) (buf : bytes) : option bytes :=
  let padding := r_addend r - removed in
  if Z.odd padding then None else write_nops (Z.to_nat padding) 0 padding off buf.

(** Sets the low six bits. *)
Definition six (old x : Z) : Z := Z.lor (Z.land old 0xc0) (Z.land x 0x3f).

(** The cases of the [switch] in groups. The branches: how far they reach, their size and
    the function that changes them. *)
Definition branch_update (t dist : Z) : option (Z * nat * (Z -> Z)) :=
  if t =? R_RISCV_BRANCH then Some (12, 4%nat, write_btype dist)
  else if t =? R_RISCV_JAL then Some (20, 4%nat, write_jtype dist)
  else if t =? R_RISCV_RVC_BRANCH then Some (8, 2%nat, write_cbtype dist)
  else if t =? R_RISCV_RVC_JUMP then Some (11, 2%nat, write_cjtype dist) else None.

(** Other instructions; the upper parts of relative addresses are replaced by values. *)
Definition low_update (itype : bool) (val : Z) (base : option Z) (w : Z) : Z :=
  let w := if itype then write_itype val w else write_stype val w in
  match base with Some rs1 => set_rs1 rs1 w | None => w end.

Definition insn_update (t : Z) (a : SymbolAux) (A P dist val tp : Z) : option (Z -> Z) :=
  if t =? R_RISCV_GOT_HI20 then Some (fun _ => get_got_addr m got a + A - P)
  else if t =? R_RISCV_TLS_GOT_HI20 then Some (fun _ => get_gottp_addr m got a + A - P)
  else if t =? R_RISCV_TLS_GD_HI20 then Some (fun _ => get_tlsgd_addr m got a + A - P)
  else if t =? R_RISCV_PCREL_HI20 then Some (fun _ => dist)
  else if (t =? R_RISCV_LO12_I) || (t =? R_RISCV_LO12_S)
  then Some (low_update (t =? R_RISCV_LO12_I) val (if is_int12 (i64 val) then Some 0 else None))
  else if (t =? R_RISCV_TPREL_LO12_I) || (t =? R_RISCV_TPREL_LO12_S)
  then Some (low_update (t =? R_RISCV_TPREL_LO12_I) tp (if fits 11 (i64 tp) then Some 4 else None)) else None.

Definition data_update (t dist val : Z) : option (nat * (Z -> Z)) :=
  if t =? R_RISCV_ADD16 then Some (2%nat, fun w => w + val)
  else if t =? R_RISCV_ADD32 then Some (4%nat, fun w => w + val)
  else if t =? R_RISCV_ADD64 then Some (8%nat, fun w => w + val)
  else if t =? R_RISCV_SUB16 then Some (2%nat, fun w => w - val)
  else if t =? R_RISCV_SUB32 then Some (4%nat, fun w => w - val)
  else if t =? R_RISCV_SUB64 then Some (8%nat, fun w => w - val)
  else if t =? R_RISCV_SUB6 then Some (1%nat, fun w => six w (w - val))
  else if t =? R_RISCV_SET6 then Some (1%nat, fun w => six w val)
  else if t =? R_RISCV_SET8 then Some (1%nat, fun _ => val)
  else if t =? R_RISCV_SET16 then Some (2%nat, fun _ => val)
  else if t =? R_RISCV_SET32 then Some (4%nat, fun _ => val)
  else if (t =? R_RISCV_PLT32) || (t =? R_RISCV_32_PCREL) then Some (4%nat, fun _ => dist)
  else if (t =? R_RISCV_32) && is_64 (target_of m) then Some (4%nat, fun _ => val) else None.

(** [lui] and what the linker may remove. *)
Definition apply_lui (r : ElfRel) (checked : bool) (removed val off : Z) (st : apply_state) : option apply_state :=
  if removed =? 4 then Some st
  else if removed =? 0
  then with_out (insn32 (write_utype val) off) (if checked then check_range r (i64 val) (- 2 ^ 31) (2 ^ 31) st else st)
  else None.

Definition apply_type (r : ElfRel) (sym : Symbol) (S off P dist val tp removed : Z) (st : apply_state) : option apply_state :=
  let t := rel_type r in
  match branch_update t dist, insn_update t (aux sym) (r_addend r) P dist val tp, data_update t dist val with
  | Some (k, n, f), _, _ => with_out (modify false n f off) (check_range r (i64 dist) (- 2 ^ k) (2 ^ k) st)
  | _, Some f, _ => with_out (insn32 f off) st
  | _, _, Some (n, f) => with_out (data n f off) st
  | _, _, _ =>
      if t =? R_RISCV_32 then absolute r sym S P off st
      else if t =? R_RISCV_64 then if is_64 (target_of m) then absolute r sym S P off st else None
      else if (t =? R_RISCV_CALL) || (t =? R_RISCV_CALL_PLT) then apply_call r removed dist off st
      else if (t =? R_RISCV_PCREL_LO12_I) || (t =? R_RISCV_PCREL_LO12_S) then Some st
      else if t =? R_RISCV_HI20 then apply_lui r true removed val off st
      else if t =? R_RISCV_TPREL_HI20 then apply_lui r false removed tp off st
      else if t =? R_RISCV_TPREL_ADD then if (removed =? 0) || (removed =? 4) then Some st else None
      (* loc += S + A; loc -= S + A *)
      else if (t =? R_RISCV_ADD8) || (t =? R_RISCV_SUB8) then Some st
      else if t =? R_RISCV_ALIGN then with_out (apply_align r removed off) st
      else None
  end.

Definition apply_one (r : ElfRel) (delta removed : Z) (st : apply_state) : option apply_state :=
  if (rel_type r =? R_NONE) || (rel_type r =? R_RISCV_RELAX) then Some st else
  sym ← syms !! r_sym r; S ← get_addr m ctx false false sym;
  let off := r_offset r - delta in
  let A := r_addend r in
  let P := u64 (section_addr isec + off) in
  apply_type r sym S off P (u64 (S + A - P)) (u64 (S + A)) (u64 (S + A - tp_addr ctx)) removed st.

Fixpoint apply_loop (i : nat) (rels : list ElfRel) (st : apply_state) : option apply_state :=
  match rels with
  | [] => Some st
  | r :: rels =>
      d ← get_r_delta i; d' ← get_r_delta (S i);
      st ← apply_one r d (d' - d) st; apply_loop (S i) rels st
  end.

(** The second loop: the lower parts of relative addresses, from the values that the first
    loop stored in place of the instructions with the upper parts. *)
Definition apply_lo (r : ElfRel) (d : Z) (buf : bytes) : option bytes :=
  let t := rel_type r in
  if (t =? R_RISCV_PCREL_LO12_I) || (t =? R_RISCV_PCREL_LO12_S) then
    sym ← syms !! r_sym r;
    if negb (in_section (r_sym r)) then None else
    val ← read_le 4 buf (value sym);
    insn32 (if t =? R_RISCV_PCREL_LO12_I then write_itype val else write_stype val) (r_offset r - d) buf
  else Some buf.

(** The third loop restores those instructions. *)
Definition stores_value (r : ElfRel) : bool :=
  let t := rel_type r in
  (t =? R_RISCV_GOT_HI20) || (t =? R_RISCV_PCREL_HI20) || (t =? R_RISCV_TLS_GOT_HI20) || (t =? R_RISCV_TLS_GD_HI20).

Definition apply_hi (r : ElfRel) (d : Z) (buf : bytes) : option bytes :=
  if stores_value r then
    val ← read_le 4 buf (r_offset r - d);
    insn ← slice contents (r_offset r) (r_offset r + 4);
    poke (r_offset r - d) insn buf ≫= insn32 (write_utype val) (r_offset r - d)
  else Some buf.

Fixpoint fix_loop (fix_one : ElfRel -> Z -> bytes -> option bytes) (i : nat) (rels : list ElfRel) (buf : bytes) : option bytes :=
  match rels with
  | [] => Some buf
  | r :: rels => d ← get_r_delta i; buf ← fix_one r d buf; fix_loop fix_one (S i) rels buf
  end.

Definition apply_reloc_alloc (base : bytes) : option apply_state :=
  st ← apply_loop 0 (section_rels isec) (mkApply base [] []);
  buf ← fix_loop apply_lo 0 (section_rels isec) (out st);
  buf ← fix_loop apply_hi 0 (section_rels isec) buf;
  Some (mkApply buf (dynrels st) (range_errors st)).
End Apply.

(** ** What a relocation leaves alone *)

Lemma write_nops_keeps lo hi fuel i padding off buf buf' : write_nops fuel i padding off buf = Some buf' -> 0 <= lo -> 0 <= i ->
  i mod 2 = 0 -> padding mod 2 = 0 -> clear lo hi off padding -> keeps lo hi buf buf'.
Proof.
  revert i buf. induction fuel as [|fuel IH]; intros i buf; cbn [write_nops]; [by intros [= <-]|].
  intros H Hlo Hi Him Hpm Hc. destruct (Z.leb_spec i (padding - 4)).
  - apply bind_Some in H as (buf1 & H1 & H2). apply (keeps_trans _ _ _ buf1).
    + eapply modify_keeps; [done|done|]. apply (clear_part _ _ _ _ _ _ Hc); simpl; lia.
    + apply (IH (i + 4) buf1); try done; [lia|]. by rewrite Zplus_mod, Him.
  - destruct (Z.ltb_spec i padding); [|by injection H as <-].
    eapply modify_keeps; [done|done|]. apply (clear_part _ _ _ _ _ _ Hc); simpl; dlia.
Qed.

(** The bytes of the input that a relocation is about; the first loop and the others
    write to those that are left of them. *)
Definition among (t : Z) (l : list Z) : bool := existsb (Z.eqb t) l.
Definition width (r : ElfRel) : Z :=
  let t := rel_type r in
  if negb (span r =? 0) then span r
  else if among t [R_RISCV_64; R_RISCV_ADD64; R_RISCV_SUB64] then 8
  else if among t [R_RISCV_ADD16; R_RISCV_SUB16; R_RISCV_SET16; R_RISCV_RVC_BRANCH; R_RISCV_RVC_JUMP] then 2
  else if among t [R_RISCV_SUB6; R_RISCV_SET6; R_RISCV_SET8] then 1
  else if among t [R_NONE; R_RISCV_RELAX; R_RISCV_ADD8; R_RISCV_SUB8; R_RISCV_ALIGN] then 0 else 4.

(** The width of a relocation whose type a test has determined. *)
Ltac this_width :=
  repeat match goal with
  | H : (_ || _) = true |- _ => apply orb_true_iff in H as [H|H]
  | H : (_ && _) = true |- _ => apply andb_true_iff in H as [H _]
  end;
  match goal with H : (rel_type ?r =? _) = true |- _ => apply Z.eqb_eq in H; unfold width, span; rewrite H end; vm_compute; reflexivity.

(** Splits a chain of tests into its cases. *)
Ltac tests H :=
  repeat match type of H with (if ?c then _ else _) = _ => destruct c eqn:? end; lazymatch type of H with None = _ => discriminate H | _ => idtac end.

Section Frames.
Context (m : machine) (ctx : Context) (opt : options) (syms : gmap Z Symbol) (got : GotSection) (undef_weak : Z -> bool).
Context (in_section : Z -> bool) (contents : bytes) (isec : Section_) (r_deltas : list Z).

Lemma word_size_rv : word_size m = if is_64 (target_of m) then 8 else 4.
Proof. done. Qed.

Lemma with_out_some f st st' : with_out f st = Some st' -> f (out st) = Some (out st').
Proof. unfold with_out. destruct (f (out st)); [by intros [= <-]|done]. Qed.

Lemma out_check r v a b st : out (check_range r v a b st) = out st.
Proof. unfold check_range. by case_match. Qed.

Lemma with_out_keeps lo hi off w big n f st st' : with_out (modify big n f off) st = Some st' -> 0 <= lo -> clear lo hi off w -> w = Z.of_nat n ->
  keeps lo hi (out st) (out st').
Proof. intros H%with_out_some Hlo Hc ->. by apply (modify_keeps _ _ _ _ _ _ _ _ H). Qed.

Lemma absolute_keeps lo hi r sym S P off w st st' : absolute m ctx opt isec r sym S P off st = Some st' -> 0 <= lo -> clear lo hi off w -> w = word_size m ->
  keeps lo hi (out st) (out st').
Proof.
  unfold absolute. intros H Hlo Hc ->. apply bind_Some in H as ([wd rel] & _ & H). apply bind_Some in H as (buf & H1 & [= <-]). simpl.
  destruct wd; [|by injection H1 as <-]. apply (modify_keeps _ _ _ _ _ _ _ _ H1); [done|].
  rewrite Z2Nat.id; [done|]. rewrite word_size_rv. by case_match.
Qed.

Lemma call_keeps lo hi r removed dist off st st' : apply_call m undef_weak contents r removed dist off st = Some st' -> 0 <= lo ->
  clear lo hi off (8 - removed) -> keeps lo hi (out st) (out st').
Proof.
  unfold apply_call. intros H Hlo Hc. apply bind_Some in H as (wd & _ & H). cbv zeta in H.
  assert (Two : forall n w1 w2 o2 st1, (forall b, w1 b = Some (out st') -> True) ->
    with_out (fun b => assign false n w2 off b ≫= w1) st1 = Some st' -> Z.of_nat n <= 8 - removed ->
    (forall b b', w1 b = Some b' -> keeps lo hi b b') -> o2 = off -> keeps lo hi (out st1) (out st')).
  { intros n w1 w2 o2 st1 _ H1%with_out_some Hn Hw _. apply bind_Some in H1 as (b & Hb & H1). apply (keeps_trans _ _ _ b); [|by apply Hw].
    eapply modify_keeps; [done|done|]. by apply (clear_part _ _ _ _ _ _ Hc); lia. }
  destruct (Z.eqb_spec removed 4) as [->|H4].
  { eapply Two; try done. intros b b' Hb. eapply modify_keeps; [done|done|done]. }
  destruct (Z.eqb_spec removed 6) as [->|H6]; cbn [andb] in H.
  { destruct (get_rd wd =? 0); [|destruct (get_rd wd =? 1); [destruct (is_64 _); [done|]|done]].
    all: eapply Two; try done; intros b b' Hb; eapply modify_keeps; done. }
  destruct (Z.eqb_spec removed 0) as [->|H0]; [|done]. cbn [negb] in H.
  apply with_out_some in H. rewrite out_check in H. apply bind_Some in H as (b & H1 & H2). apply (keeps_trans _ _ _ b).
  - eapply modify_keeps; [done|done|]. apply (clear_part _ _ _ _ _ _ Hc); simpl; lia.
  - eapply modify_keeps; [done|done|]. apply (clear_part _ _ _ _ _ _ Hc); simpl; lia.
Qed.

Lemma branch_width r dist k n f : branch_update (rel_type r) dist = Some (k, n, f) -> span r = 0 /\ width r = Z.of_nat n.
Proof. unfold branch_update. intros H. tests H; injection H as <- <- <-; (split; [|this_width]); this_width. Qed.

Lemma insn_width r a A P dist val tp f : insn_update m got (rel_type r) a A P dist val tp = Some f -> span r = 0 /\ width r = 4.
Proof. unfold insn_update. intros H. tests H; clear H; (split; this_width). Qed.

Lemma data_width r dist val n f : data_update m (rel_type r) dist val = Some (n, f) -> span r = 0 /\ width r = Z.of_nat n.
Proof. unfold data_update. intros H. tests H; injection H as <- <-; (split; this_width). Qed.

Lemma lui_keeps lo hi r c removed val off st st' : apply_lui r c removed val off st = Some st' -> 0 <= lo ->
  clear lo hi off (4 - removed) -> keeps lo hi (out st) (out st').
Proof.
  unfold apply_lui. intros H Hlo Hc. destruct (removed =? 4); [by injection H as <-|]. destruct (Z.eqb_spec removed 0) as [->|]; [|done].
  apply (with_out_keeps lo hi _ 4) in H; [|done..]. destruct c; [by rewrite out_check in H|done].
Qed.

Lemma type_keeps lo hi r sym S off P dist val tp removed st st' :
  apply_type m ctx opt got undef_weak contents isec r sym S off P dist val tp removed st = Some st' -> 0 <= lo ->
  (span r = 0 -> removed = 0) -> clear lo hi off (width r - removed) -> keeps lo hi (out st) (out st').
Proof.
  unfold apply_type. cbv zeta. intros H Hlo Hz Hc.
  destruct (branch_update _ _) as [[[k n] f]|] eqn:Eb.
  { destruct (branch_width _ _ _ _ _ Eb) as [E1 E2]. rewrite (Hz E1), E2, Z.sub_0_r in Hc. rewrite <- (out_check r (i64 dist) (- 2 ^ k) (2 ^ k)).
    by apply (with_out_keeps lo hi _ _ _ _ _ _ _ H Hlo Hc). }
  destruct (insn_update _ _ _ _ _ _ _ _ _) as [f|] eqn:Ei.
  { destruct (insn_width _ _ _ _ _ _ _ _ Ei) as [E1 E2]. rewrite (Hz E1), E2, Z.sub_0_r in Hc. by apply (with_out_keeps lo hi _ _ _ _ _ _ _ H Hlo Hc). }
  destruct (data_update _ _ _ _) as [[n f]|] eqn:Ed.
  { destruct (data_width _ _ _ _ _ Ed) as [E1 E2]. rewrite (Hz E1), E2, Z.sub_0_r in Hc. by apply (with_out_keeps lo hi _ _ _ _ _ _ _ H Hlo Hc). }
  assert (Hw : forall n, width r = n -> span r = 0 -> clear lo hi off n) by (intros n E1 E2; by rewrite (Hz E2), E1, Z.sub_0_r in Hc).
  tests H; try (by injection H as <-).
  - apply (absolute_keeps lo hi _ _ _ _ _ 4 _ _ H Hlo); [apply Hw; this_width|]. rewrite word_size_rv. destruct (is_64 (target_of m)) eqn:E; [|done].
    exfalso. unfold data_update in Ed. assert (Et : rel_type r = R_RISCV_32) by (by apply Z.eqb_eq). rewrite Et, E in Ed. discriminate Ed.
  - apply (absolute_keeps lo hi _ _ _ _ _ 8 _ _ H Hlo); [apply Hw; this_width|]. rewrite word_size_rv. by case_match.
  - assert (E : width r = 8) by this_width. rewrite E in Hc. by apply (call_keeps lo hi _ _ _ _ _ _ H).
  - assert (E : width r = 4) by this_width. rewrite E in Hc. by apply (lui_keeps lo hi _ _ _ _ _ _ _ H).
  - assert (E : width r = 4) by this_width. rewrite E in Hc. by apply (lui_keeps lo hi _ _ _ _ _ _ _ H).
  - assert (E : rel_type r = R_RISCV_ALIGN) by (by apply Z.eqb_eq). assert (E1 : r_addend r = 0 \/ width r = r_addend r).
    { destruct (Z.eq_dec (r_addend r) 0) as [|Hn]; [by left|right]. unfold width, span. rewrite E. cbn [Z.eqb].
      change (R_RISCV_ALIGN =? R_RISCV_ALIGN) with true. cbn iota. apply Z.eqb_neq in Hn as ->. done. }
    apply with_out_some in H. unfold apply_align in H. cbv zeta in H. destruct (Z.odd _) eqn:Eo; [done|].
    assert (Hp : clear lo hi off (r_addend r - removed)).
    { destruct E1 as [E1| <-]; [|done]. assert (Es : span r = 0) by (unfold span; by rewrite E). rewrite (Hz Es), E1. by left. }
    eapply write_nops_keeps; try done. rewrite Zmod_odd, Eo. done.
Qed.

Lemma one_keeps lo hi r d removed st st' : apply_one m ctx opt syms got undef_weak contents isec r d removed st = Some st' -> 0 <= lo ->
  (span r = 0 -> removed = 0) -> clear lo hi (r_offset r - d) (width r - removed) -> keeps lo hi (out st) (out st').
Proof.
  unfold apply_one. cbv zeta. intros H. destruct (_ || _); [by injection H as <-|].
  apply bind_Some in H as (sym & _ & H). apply bind_Some in H as (S & _ & H). intros. by eapply type_keeps.
Qed.

Lemma check_errors r v a b st : exists l, range_errors (check_range r v a b st) = range_errors st ++ l.
Proof. unfold check_range. case_match; [by exists [r]|exists []; by rewrite app_nil_r]. Qed.

Lemma with_out_errors f st st' : with_out f st = Some st' -> range_errors st' = range_errors st.
Proof. unfold with_out. destruct (f _); [by intros [= <-]|done]. Qed.

Lemma one_errors r d removed st st' : apply_one m ctx opt syms got undef_weak contents isec r d removed st = Some st' ->
  exists l, range_errors st' = range_errors st ++ l.
Proof.
  assert (Z0 : forall st', range_errors st' = range_errors st -> exists l, range_errors st' = range_errors st ++ l).
  { intros s E. exists []. by rewrite app_nil_r. }
  unfold apply_one. cbv zeta. intros H. destruct (_ || _); [injection H as <-; by apply Z0|].
  apply bind_Some in H as (sym & _ & H). apply bind_Some in H as (S & _ & H). unfold apply_type in H.
  destruct (branch_update _ _) as [[[k n] f]|]; [apply with_out_errors in H; rewrite H; apply check_errors|].
  destruct (insn_update _ _ _ _ _ _ _ _ _); [apply Z0; by apply with_out_errors in H|].
  destruct (data_update _ _ _ _) as [[n f]|]; [apply Z0; by apply with_out_errors in H|].
  assert (Ha : forall off, absolute m ctx opt isec r sym S (u64 (section_addr isec + off)) off st = Some st' -> range_errors st' = range_errors st).
  { intros off Ho. unfold absolute in Ho. apply bind_Some in Ho as ([wd rel] & _ & Ho). by apply bind_Some in Ho as (buf & _ & [= <-]). }
  assert (Hl : forall c v off, apply_lui r c removed v off st = Some st' -> exists l, range_errors st' = range_errors st ++ l).
  { intros c v off Ho. unfold apply_lui in Ho. destruct (removed =? 4); [injection Ho as <-; by apply Z0|]. destruct (removed =? 0); [|done].
    apply with_out_errors in Ho. rewrite Ho. destruct c; [apply check_errors|by apply Z0]. }
  tests H; try (injection H as <-; by apply Z0); try (apply Z0; by apply (Ha _ H)); try (by apply (Hl _ _ _ H)); [|apply Z0; by apply with_out_errors in H].
  unfold apply_call in H. apply bind_Some in H as (wd & _ & H). cbv zeta in H. tests H; apply with_out_errors in H; rewrite H; try apply check_errors; by apply Z0.
Qed.

Abbreviation apply_one := (apply_one m ctx opt syms got undef_weak contents isec).
Abbreviation apply_loop := (apply_loop m ctx opt syms got undef_weak contents isec r_deltas).
Abbreviation get_r_delta := (get_r_delta r_deltas).

(** A range that no relocation of the list but the [k]-th one writes to. *)
Definition spares (lo hi : Z) (i : nat) (rels : list ElfRel) (k : nat) : Prop :=
  forall j r d d', j <> k -> rels !! j = Some r -> get_r_delta (i + j) = Some d -> get_r_delta (S (i + j)) = Some d' ->
    (span r = 0 -> d' = d) /\ clear lo hi (r_offset r - d) (width r - (d' - d)).

Lemma spares_tail lo hi i r rels k : spares lo hi i (r :: rels) (S k) -> spares lo hi (S i) rels k.
Proof. intros H j x d d' Hj Hx E1 E2. apply (H (S j)); [lia|done|by rewrite Nat.add_succ_r..]. Qed.

Lemma loop_keeps lo hi i rels st st' : apply_loop i rels st = Some st' -> 0 <= lo -> spares lo hi i rels (length rels) ->
  keeps lo hi (out st) (out st') /\ exists l, range_errors st' = range_errors st ++ l.
Proof.
  intros H Hlo. revert i st H. induction rels as [|r rels IH]; intros i st H Hs.
  { injection H as <-. split; [done|]. exists []. by rewrite app_nil_r. }
  cbn [RiscvReloc.apply_loop] in H. apply bind_Some in H as (d & Hd & H). apply bind_Some in H as (d' & Hd' & H). apply bind_Some in H as (st1 & H1 & H).
  destruct (Hs O r d d') as [E1 E2]; [done|done|by rewrite Nat.add_0_r..|].
  destruct (IH (S i) st1 H (spares_tail _ _ _ _ _ _ Hs)) as [K [l El]]. destruct (one_errors _ _ _ _ _ H1) as [l' El']. split.
  - apply (keeps_trans _ _ _ (out st1)); [|done]. apply (one_keeps lo hi _ _ _ _ _ H1 Hlo); [|done]. intros Hz. specialize (E1 Hz). lia.
  - exists (l' ++ l). by rewrite El, El', app_assoc.
Qed.

(** The step of the first loop that decides what is in the range. *)
Lemma loop_site lo hi i rels st st' k r : apply_loop i rels st = Some st' -> 0 <= lo -> rels !! k = Some r -> spares lo hi i rels k ->
  exists d d' st1 st2, get_r_delta (i + k) = Some d /\ get_r_delta (S (i + k)) = Some d' /\ keeps lo hi (out st) (out st1) /\
    apply_one r d (d' - d) st1 = Some st2 /\ keeps lo hi (out st2) (out st') /\ exists l, range_errors st' = range_errors st2 ++ l.
Proof.
  intros H Hlo. revert i st k H. induction rels as [|x rels IH]; intros i st k H Hk Hs; [done|].
  cbn [RiscvReloc.apply_loop] in H. apply bind_Some in H as (d & Hd & H). apply bind_Some in H as (d' & Hd' & H). apply bind_Some in H as (st1 & H1 & H).
  destruct k as [|k].
  - injection Hk as ->. destruct (loop_keeps lo hi (S i) rels st1 st' H Hlo) as [K El].
    { intros j x e e' _ Hx E1 E2. apply (Hs (S j)); [done|done|by rewrite Nat.add_succ_r..]. }
    rewrite Nat.add_0_r. by exists d, d', st, st1.
  - destruct (IH (S i) st1 k H Hk (spares_tail _ _ _ _ _ _ Hs)) as (e & e' & s1 & s2 & E1 & E2 & K1 & E3 & K2 & El).
    exists e, e', s1, s2. rewrite Nat.add_succ_r. split; [done|]. split; [done|]. split; [|done]. apply (keeps_trans _ _ _ (out st1)); [|done].
    destruct (Hs O x d d') as [Z1 Z2]; [done|done|by rewrite Nat.add_0_r..|]. apply (one_keeps lo hi _ _ _ _ _ H1 Hlo); [|done].
    intros Hz. specialize (Z1 Hz). lia.
Qed.

(** The loops that change instructions in place, of the relocations of some types. *)
Definition is_lo (r : ElfRel) : bool := (rel_type r =? R_RISCV_PCREL_LO12_I) || (rel_type r =? R_RISCV_PCREL_LO12_S).

Definition frames (acts : ElfRel -> bool) (fix_one : ElfRel -> Z -> bytes -> option bytes) : Prop :=
  forall lo hi r d buf buf', fix_one r d buf = Some buf' -> 0 <= lo -> (acts r = true -> clear lo hi (r_offset r - d) (width r)) -> keeps lo hi buf buf'.

Lemma lo_width r : is_lo r = true -> span r = 0 /\ width r = 4.
Proof. unfold is_lo. intros H. split; this_width. Qed.

Lemma hi_width r : stores_value r = true -> span r = 0 /\ width r = 4.
Proof. unfold stores_value. cbv zeta. intros H. split; this_width. Qed.

Lemma lo_frames : frames is_lo (apply_lo syms in_section).
Proof.
  intros lo hi r d buf buf' H Hlo Hc. unfold apply_lo in H. cbv zeta in H. fold (is_lo r) in H. destruct (is_lo r) eqn:Et; [|by injection H as <-].
  apply bind_Some in H as (sym & _ & H). destruct (negb _); [done|]. apply bind_Some in H as (val & _ & H).
  eapply modify_keeps; [exact H|done|]. destruct (lo_width r Et) as [_ E]. rewrite E in Hc. by apply Hc.
Qed.

Lemma hi_frames : frames stores_value (apply_hi contents).
Proof.
  intros lo hi r d buf buf' H Hlo Hc. unfold apply_hi in H. destruct (stores_value r) eqn:Et; [|by injection H as <-].
  apply bind_Some in H as (val & _ & H). apply bind_Some in H as (insn & Hs & H). apply bind_Some in H as (b & H1 & H2).
  destruct (hi_width r Et) as [_ E]. specialize (Hc eq_refl). rewrite E in Hc. apply (keeps_trans _ _ _ b); [|by eapply modify_keeps].
  eapply poke_keeps; [done|done|]. unfold slice in Hs. destruct (_ && _) eqn:Eb; [|done]. injection Hs as <-.
  rewrite !andb_true_iff, !Z.leb_le in Eb. unfold clear, zlen in *. rewrite length_take, length_drop. lia.
Qed.

Lemma fix_keeps acts f lo hi i rels buf buf' : frames acts f -> fix_loop r_deltas f i rels buf = Some buf' -> 0 <= lo ->
  (forall j r d, rels !! j = Some r -> get_r_delta (i + j) = Some d -> acts r = true -> clear lo hi (r_offset r - d) (width r)) -> keeps lo hi buf buf'.
Proof.
  intros Hf H Hlo. revert i buf H. induction rels as [|r rels IH]; intros i buf H Hs; [by injection H as <-|].
  cbn [fix_loop] in H. apply bind_Some in H as (d & Hd & H). apply bind_Some in H as (b & H1 & H). apply (keeps_trans _ _ _ b).
  - eapply Hf; [done|done|]. apply (Hs O); [done|by rewrite Nat.add_0_r].
  - apply (IH (S i) b H). intros j x e Hx He. apply (Hs (S j)); [done|by rewrite Nat.add_succ_r].
Qed.

(** The step for one relocation, and the loop in front of it and after it. *)
Lemma fix_at f rels i buf buf' k r : fix_loop r_deltas f i rels buf = Some buf' -> rels !! k = Some r ->
  exists d buf1 buf2, get_r_delta (i + k) = Some d /\ fix_loop r_deltas f i (take k rels) buf = Some buf1 /\ f r d buf1 = Some buf2 /\
    fix_loop r_deltas f (S (i + k)) (drop (S k) rels) buf2 = Some buf'.
Proof.
  revert i buf k. induction rels as [|x rels IH]; intros i buf k H Hk; [done|].
  cbn [fix_loop] in H. apply bind_Some in H as (d & Hd & H). apply bind_Some in H as (b & H1 & H). destruct k as [|k].
  - injection Hk as ->. exists d, buf, b. by rewrite Nat.add_0_r.
  - destruct (IH (S i) b k H Hk) as (e & b1 & b2 & E1 & K1 & E2 & K2). exists e, b1, b2. rewrite Nat.add_succ_r. cbn [take fix_loop].
    rewrite Hd. cbn [mbind option_bind]. rewrite H1. done.
Qed.

(** What is in a range that only the [k]-th relocation may write to, before and after. *)
Lemma fix_site acts f lo hi rels buf buf' k r : frames acts f -> fix_loop r_deltas f 0 rels buf = Some buf' -> rels !! k = Some r -> 0 <= lo ->
  (forall j x d, j <> k -> rels !! j = Some x -> get_r_delta j = Some d -> acts x = true -> clear lo hi (r_offset x - d) (width x)) ->
  forall buf1 buf2, fix_loop r_deltas f 0 (take k rels) buf = Some buf1 -> fix_loop r_deltas f (S k) (drop (S k) rels) buf2 = Some buf' ->
  keeps lo hi buf buf1 /\ keeps lo hi buf2 buf'.
Proof.
  intros Hf H Hk Hlo Hs buf1 buf2 H1 H2. split.
  - apply (fix_keeps _ _ _ _ _ _ _ _ Hf H1 Hlo). intros j x d Hx Hd. apply (Hs j).
    + intros ->. by rewrite lookup_take_ge in Hx.
    + by apply lookup_take_Some in Hx as [Hx _].
    + done.
  - apply (fix_keeps _ _ _ _ _ _ _ _ Hf H2 Hlo). intros j x d Hx Hd. rewrite lookup_drop in Hx. by apply (Hs (S k + j)%nat); [lia|..].
Qed.
End Frames.

(** ** Where instructions are after relaxation *)

Lemma shift_diff pos size l x y : ranges_ok pos size l -> inside l y = false -> x <= y -> 0 <= shift l y - shift l x <= y - x.
Proof.
  revert pos x. induction l as [|[o n] l IH]; intros pos x; simpl; [lia|]. intros (H1 & H2 & H3) Hd Hxy.
  apply orb_false_iff in Hd as [Hd Hd']. destruct (Z.ltb_spec o y) as [Ho|Ho].
  - destruct (Z.ltb_spec y (o + n)); [done|]. specialize (IH _ x H3 Hd' Hxy). destruct (Z.ltb_spec o x); [lia|].
    rewrite (shift_before _ _ _ x H3) in * by lia.
    pose proof (shift_inside _ _ _ y H3 Hd' ltac:(lia)). lia.
  - destruct (Z.ltb_spec o x); [lia|]. rewrite !(shift_before _ _ _ _ H3) by lia. lia.
Qed.

Lemma shift_flat l x y : x <= y -> (forall q, q ∈ l -> ~ x <= q.1 < y) -> shift l y = shift l x.
Proof.
  intros Hxy. induction l as [|[o n] l IH]; intros H; [done|]. cbn [shift foldr fst snd]. fold (shift l x). fold (shift l y).
  rewrite IH by (intros q Hq; apply H; by constructor). pose proof (H (o, n) ltac:(constructor)) as Ho. simpl in Ho.
  destruct (Z.ltb_spec o y), (Z.ltb_spec o x); lia.
Qed.

Lemma inside_false l v : (forall q, q ∈ l -> ~ q.1 < v < q.1 + q.2) -> inside l v = false.
Proof.
  induction l as [|q l IH]; intros H; [done|]. simpl. rewrite (IH ltac:(intros q' Hq; apply H; by constructor)), orb_false_r.
  pose proof (H q ltac:(constructor)). destruct (Z.ltb_spec q.1 v), (Z.ltb_spec v (q.1 + q.2)); try done. lia.
Qed.

Lemma deleted_false l v : (forall q, q ∈ l -> ~ q.1 <= v < q.1 + q.2) -> deleted l v = false.
Proof.
  induction l as [|q l IH]; intros H; [done|]. simpl. fold (deleted l v). rewrite (IH ltac:(intros q' Hq; apply H; by constructor)), orb_false_r.
  pose proof (H q ltac:(constructor)). destruct (Z.leb_spec q.1 v), (Z.ltb_spec v (q.1 + q.2)); try done. lia.
Qed.

(** No other relocation is about bytes of the [k]-th one. *)
Definition apart (rels : list ElfRel) (k : nat) : Prop :=
  forall j r x, j <> k -> rels !! k = Some r -> rels !! j = Some x ->
    width x = 0 \/ r_offset x + width x <= r_offset r \/ r_offset r + width r <= r_offset x.

(** So it is for all that the linker may shrink. *)
Record separate (rels : list ElfRel) : Prop := {
  se_apart : forall k r, rels !! k = Some r -> span r <> 0 -> apart rels k;
  se_width : forall r, r ∈ rels -> 0 <= width r }.

Lemma width_span r : span r <> 0 -> width r = span r.
Proof. intros H%Z.eqb_neq. unfold width. by rewrite H. Qed.

Lemma removals_index rels l q : q ∈ removals rels l -> exists k r d d', rels !! k = Some r /\ l !! k = Some d /\ l !! S k = Some d' /\
  q = (r_offset r, d' - d) /\ d' - d <> 0.
Proof.
  revert l. induction rels as [|r rels IH]; intros [|d [|d' l]] H; try (by apply elem_of_nil in H). cbn [removals] in H.
  assert (Hrec : q ∈ removals rels (d' :: l) -> exists k x e e', (r :: rels) !! k = Some x /\ (d :: d' :: l) !! k = Some e /\
    (d :: d' :: l) !! S k = Some e' /\ q = (r_offset x, e' - e) /\ e' - e <> 0).
  { intros (k & x & e & e' & Hk & E)%IH. by exists (S k), x, e, e'. }
  destruct (Z.eqb_spec (d' - d) 0); [by apply Hrec|]. apply elem_of_cons in H as [->|H]; [|by apply Hrec]. by exists O, r, d, d'.
Qed.

Section Relaxed.
Context (m : machine) (ctx : Context) (syms : gmap Z Symbol) (undef_weak internal : Z -> bool).
Context (relax use_rvc : bool) (contents : bytes) (isec : Section_) (u : Z) (l : list Z) (base : bytes).
Context (HR : relaxed m ctx syms undef_weak internal relax use_rvc contents isec u l base) (HS : separate (section_rels isec)).

Abbreviation rels := (section_rels isec).
Abbreviation R := (removals rels l).

(** A removed range is part of an instruction or sequence that the linker may shrink. *)
Lemma removed_from q : q ∈ R -> exists k r d d', rels !! k = Some r /\ l !! k = Some d /\ l !! S k = Some d' /\
  q = (r_offset r, d' - d) /\ 0 < d' - d <= span r /\ apart rels k.
Proof.
  intros Hq. destruct (removals_index _ _ _ Hq) as (k & r & d & d' & Hk & E1 & E2 & -> & Hn). exists k, r, d, d'.
  destruct (rd_site _ _ _ _ _ _ _ _ _ _ _ _ HR k r Hk) as (e & n & F1 & F2 & _ & _ & Hd%sh_range).
  assert (d' - d = n) as E by (rewrite E1 in F1; rewrite E2 in F2; injection F1; injection F2; lia).
  repeat split; try done; try lia. apply (se_apart _ HS k r Hk). lia.
Qed.

Lemma placed j x : rels !! j = Some x -> 0 < width x ->
  inside R (r_offset x) = false /\ inside R (r_offset x + width x) = false /\
  l !! j = Some (shift R (r_offset x)) /\ l !! S j = Some (shift R (r_offset x + width x)).
Proof.
  intros Hj Hw.
  assert (Hq : forall q, q ∈ R -> q.1 = r_offset x /\ q.2 <= width x /\ span x <> 0 \/ r_offset x + width x <= q.1 \/ q.1 + q.2 <= r_offset x).
  { intros q Hq. destruct (removed_from q Hq) as (k & r & d & d' & Hk & _ & _ & -> & Hs & Ha). cbn [fst snd]. destruct (Nat.eq_dec j k) as [->|Hjk].
    - rewrite Hj in Hk. injection Hk as <-. left. rewrite width_span by lia. lia.
    - right. pose proof (Ha j r x Hjk Hk Hj) as D. rewrite (width_span r) in D by lia. lia. }
  assert (I1 : inside R (r_offset x) = false) by (apply inside_false; intros q H; destruct (Hq q H) as [D|D]; lia).
  assert (I2 : inside R (r_offset x + width x) = false) by (apply inside_false; intros q H; destruct (Hq q H) as [D|D]; lia).
  split; [done|]. split; [done|]. destruct (rd_moves _ _ _ _ _ _ _ _ _ _ _ _ HR j x Hj) as [M1 M2]. rewrite !Z.add_0_l in *.
  destruct (Z.eq_dec (span x) 0) as [Hz|Hz].
  - assert (D : deleted R (r_offset x) = false) by (apply deleted_false; intros q H; destruct (Hq q H) as [D|D]; lia).
    rewrite M1 by (by right). split; [done|]. destruct (rd_site _ _ _ _ _ _ _ _ _ _ _ _ HR j x Hj) as (e & d & E1 & E2 & _ & _ & Hd).
    rewrite E2. apply (f_equal Some). pose proof (sh_range _ _ _ _ _ _ _ _ _ _ _ _ _ _ Hd). assert (d = 0) as -> by lia.
    assert (e = shift R (r_offset x)) as -> by (specialize (M1 (or_intror D)); congruence).
    rewrite (shift_flat R (r_offset x) (r_offset x + width x)); [lia|lia|]. intros q Hin. destruct (Hq q Hin) as [D'|D']; [lia|].
    destruct (removed_from q Hin) as (k & r & d0 & d1 & _ & _ & _ & -> & Hp & _). cbn [fst snd] in *. lia.
  - rewrite M1 by (by left). rewrite width_span by done. by rewrite M2.
Qed.

(** What remains of two relocations that are apart. *)
Lemma still_apart lo hi k r j x d d' e e' : rels !! k = Some r -> rels !! j = Some x -> j <> k -> apart rels k -> 0 < width r ->
  l !! k = Some d -> l !! S k = Some d' -> l !! j = Some e -> l !! S j = Some e' ->
  lo = r_offset r - d -> hi = r_offset r + width r - d' ->
  (span x = 0 -> e' = e) /\ clear lo hi (r_offset x - e) (width x - (e' - e)).
Proof.
  intros Hk Hj Hjk Ha Hw E1 E2 E3 E4 -> ->.
  assert (exists dx, e' = e + dx /\ 0 <= dx <= span x) as (dx & -> & Hd).
  { destruct (rd_site _ _ _ _ _ _ _ _ _ _ _ _ HR j x Hj) as (e0 & dx & F1 & F2 & _ & _ & H). exists dx. split; [congruence|apply H]. }
  split; [lia|].
  pose proof (se_width _ HS x ltac:(by eapply list_elem_of_lookup_2)) as Hwx.
  destruct (Z.eq_dec (width x) 0) as [Hz|Hz]; [left; lia|]. right.
  destruct (placed k r Hk Hw) as (I1 & I2 & P1 & P2). destruct (placed j x Hj ltac:(lia)) as (I3 & I4 & P3 & P4).
  rewrite E1 in P1. rewrite E2 in P2. rewrite E3 in P3. rewrite E4 in P4. injection P1 as P1. injection P2 as P2. injection P3 as P3. injection P4 as P4.
  pose proof (rd_ranges _ _ _ _ _ _ _ _ _ _ _ _ HR) as Hrng. destruct (Ha j r x Hjk Hk Hj) as [?|[Hc|Hc]]; [lia| |].
  - pose proof (shift_diff _ _ _ _ _ Hrng I1 Hc). right. lia.
  - pose proof (shift_diff _ _ _ _ _ Hrng I3 Hc). left. lia.
Qed.

(** Instructions of which nothing is removed are copied. *)
Lemma kept_window j x e : rels !! j = Some x -> 0 < width x -> 0 <= r_offset x -> r_offset x + width x <= zlen contents ->
  l !! j = Some e -> l !! S j = Some e ->
  0 <= r_offset x - e /\ window base (r_offset x - e) (r_offset x - e + width x) = window contents (r_offset x) (r_offset x + width x).
Proof.
  intros Hj Hw Ho Hb E1 E2. destruct (placed j x Hj Hw) as (I1 & I2 & P1 & P2). assert (e = shift R (r_offset x)) as -> by congruence.
  assert (Hq : forall q, q ∈ R -> r_offset x + width x <= q.1 \/ q.1 + q.2 <= r_offset x).
  { intros q Hq. destruct (removed_from q Hq) as (k & r & d & d' & Hk & F1 & F2 & -> & Hs & Ha). cbn [fst snd]. destruct (Nat.eq_dec j k) as [->|Hjk].
    - exfalso. rewrite E1 in F1. rewrite E2 in F2. injection F1 as F1. injection F2 as F2. lia.
    - pose proof (Ha j r x Hjk Hk Hj) as D. rewrite (width_span r) in D by lia. lia. }
  pose proof (shift_inside _ _ _ _ (rd_ranges _ _ _ _ _ _ _ _ _ _ _ _ HR) I1 Ho) as Hsh. split; [lia|]. unfold window. apply list_eq. intros i.
  replace (r_offset x - shift R (r_offset x) + width x - (r_offset x - shift R (r_offset x))) with (width x) by lia.
  replace (r_offset x + width x - r_offset x) with (width x) by lia.
  destruct (Nat.lt_ge_cases i (Z.to_nat (width x))) as [Hi|Hi]; [|by rewrite !lookup_take_ge].
  rewrite !lookup_take_lt, !lookup_drop by done.
  replace (Z.to_nat (r_offset x) + i)%nat with (Z.to_nat (r_offset x + Z.of_nat i)) by lia.
  rewrite <- (cp_kept _ _ _ _ (rd_copied _ _ _ _ _ _ _ _ _ _ _ _ HR) (r_offset x + Z.of_nat i)).
  - f_equal. rewrite (shift_flat _ (r_offset x) (r_offset x + Z.of_nat i)); [lia|lia|]. intros q Hin. pose proof (Hq q Hin).
    destruct (removed_from q Hin) as (k & r & d & d' & _ & _ & _ & -> & Hs & _). cbn [fst snd] in *. lia.
  - lia.
  - apply deleted_false. intros q Hin. pose proof (Hq q Hin). lia.
Qed.
End Relaxed.

(** ** Instructions that were written *)

Lemma masked a b M hi lo : 0 <= lo <= hi -> Z.land a M = Z.land b M -> bits M hi lo = Z.ones (hi - lo + 1) -> bits a hi lo = bits b hi lo.
Proof.
  intros H E EM. apply (f_equal (fun z => bits z hi lo)) in E. rewrite !bits_land, EM, !land_ones_bits in E by lia. done.
Qed.

Ltac keep_with L := eapply masked; [lia|apply L|reflexivity].

Lemma write_utype_keeps v w : opcode (write_utype v w) = opcode w /\ rd (write_utype v w) = rd w.
Proof. split; keep_with put32_other; apply (insn_masks v). Qed.
Lemma write_jtype_keeps v w : opcode (write_jtype v w) = opcode w /\ rd (write_jtype v w) = rd w.
Proof. split; keep_with put32_other; apply (insn_masks v). Qed.
Lemma write_itype_keeps v w : opcode (write_itype v w) = opcode w /\ rd (write_itype v w) = rd w /\ funct3 (write_itype v w) = funct3 w /\
  rs1 (write_itype v w) = rs1 w.
Proof. repeat match goal with |- _ /\ _ => split end; keep_with put32_other; apply (insn_masks v). Qed.
Lemma write_stype_keeps v w : opcode (write_stype v w) = opcode w /\ funct3 (write_stype v w) = funct3 w /\
  rs1 (write_stype v w) = rs1 w /\ rs2 (write_stype v w) = rs2 w.
Proof. repeat match goal with |- _ /\ _ => split end; keep_with put32_other; apply (insn_masks v). Qed.

Section Code.
Context (xlen : Z) (big : bool).

Lemma decode32_u32 w : decode32 xlen (u32 w) = decode32 xlen w.
Proof.
  unfold decode32, opcode, funct3, rd, rs1, rs2, imm_u, imm_j, imm_i, field, u32. by rewrite !bits_wrap by lia.
Qed.

Lemma decode_auipc w x i : decode32 xlen w = Some (Auipc x i) -> opcode w = 0x17 /\ rd w = x.
Proof.
  unfold decode32. cbv zeta. intros H. repeat match type of H with (if ?c then _ else _) = _ => destruct c eqn:? end; try done.
  - injection H as <- _. split; [by apply Z.eqb_eq|done].
  - by apply bind_Some in H as (n & _ & H).
Qed.

Lemma decode_jalr w r x i : decode32 xlen w = Some (Jalr r x i) -> opcode w = 0x67 /\ funct3 w = 0 /\ rd w = r /\ rs1 w = x.
Proof.
  unfold decode32. cbv zeta. intros H. repeat match type of H with (if ?c then _ else _) = _ => destruct c eqn:? end; try done.
  - injection H as <- <- _. match goal with H : (_ && _) = true |- _ => apply andb_true_iff in H as [H1%Z.eqb_eq H2%Z.eqb_eq] end. done.
  - by apply bind_Some in H as (n & _ & H).
Qed.

Lemma auipc_written w x i v : decode32 xlen w = Some (Auipc x i) ->
  decode32 xlen (write_utype v w) = Some (Auipc x (imm_u (write_utype v w))) /\ bits (write_utype v w) 1 0 = 3.
Proof.
  intros [E1 E2]%decode_auipc. destruct (write_utype_keeps v w) as [K1 K2]. split.
  - unfold decode32. cbv zeta. by rewrite K1, K2, E1, E2.
  - change (bits (write_utype v w) 1 0) with (bits (write_utype v w) (0 + 1) (0 + 0)). rewrite <- (bits_sub _ 6 0 1 0) by lia.
    change (bits (write_utype v w) 6 0) with (opcode (write_utype v w)). by rewrite K1, E1.
Qed.

Lemma jalr_written w r x i v : decode32 xlen w = Some (Jalr r x i) ->
  decode32 xlen (write_itype v w) = Some (Jalr r x (imm_i (write_itype v w))) /\ bits (write_itype v w) 1 0 = 3.
Proof.
  intros (E1 & E2 & E3 & E4)%decode_jalr. destruct (write_itype_keeps v w) as (K1 & K2 & K3 & K4). split.
  - unfold decode32. cbv zeta. by rewrite K1, K2, K3, K4, E1, E2, E3, E4.
  - change (bits (write_itype v w) 1 0) with (bits (write_itype v w) (0 + 1) (0 + 0)). rewrite <- (bits_sub _ 6 0 1 0) by lia.
    change (bits (write_itype v w) 6 0) with (opcode (write_itype v w)). by rewrite K1, E1.
Qed.

Lemma jal_written r v : 0 <= r < 32 -> let w := write_jtype v (Z.lor (Z.shiftl r 7) 0x6f) in
  decode32 xlen w = Some (Jal r (imm_j w)) /\ bits w 1 0 = 3.
Proof.
  intros Hr w. destruct (write_jtype_keeps v (Z.lor (Z.shiftl r 7) 0x6f)) as [K1 K2]. fold w in K1, K2.
  assert (E : opcode (Z.lor (Z.shiftl r 7) 0x6f) = 0x6f /\ rd (Z.lor (Z.shiftl r 7) 0x6f) = r).
  { assert (H : forall r, 0 <= r < 32 -> (opcode (Z.lor (Z.shiftl r 7) 0x6f) =? 0x6f) && (rd (Z.lor (Z.shiftl r 7) 0x6f) =? r) = true)
      by (apply (forall_range (fun r => (opcode (Z.lor (Z.shiftl r 7) 0x6f) =? 0x6f) && (rd (Z.lor (Z.shiftl r 7) 0x6f) =? r)) 32); by vm_compute).
    specialize (H r Hr). by apply andb_true_iff in H as [H1%Z.eqb_eq H2%Z.eqb_eq]. }
  destruct E as [E1 E2]. split.
  - unfold decode32. cbv zeta. by rewrite K1, K2, E1, E2.
  - change (bits w 1 0) with (bits w (0 + 1) (0 + 0)). rewrite <- (bits_sub _ 6 0 1 0) by lia.
    change (bits w 6 0) with (opcode w). by rewrite K1, E1.
Qed.

Lemma decode16_u16 w : decode16 xlen (u16 w) = if bits w 1 0 =? 1 then
    if bits w 15 13 =? 5 then Some (Jal 0 (imm_cj w))
    else if (bits w 15 13 =? 1) && (xlen =? 32) then Some (Jal 1 (imm_cj w))
    else if u16 w =? 1 then Some (Addi 0 0 0) else None
  else None.
Proof. unfold decode16, imm_cj, field, u16. by rewrite !bits_wrap by lia. Qed.

Lemma cj_written w v : w = 0xa001 \/ w = 0x2001 /\ xlen = 32 ->
  decode16 xlen (u16 (write_cjtype v w)) = Some (Jal (if w =? 0xa001 then 0 else 1) (imm_cj (write_cjtype v w))) /\
  bits (write_cjtype v w) 1 0 = 1.
Proof.
  intros Hw. assert (K : forall hi lo, 0 <= lo <= hi -> bits CJMASK hi lo = Z.ones (hi - lo + 1) -> bits (write_cjtype v w) hi lo = bits w hi lo).
  { intros hi lo H. eapply masked; [done|]. apply put16_other; [done|apply (insn_masks v)]. }
  pose proof (K 1 0 ltac:(lia) eq_refl) as K1. pose proof (K 15 13 ltac:(lia) eq_refl) as K2.
  rewrite decode16_u16, K1, K2. by destruct Hw as [-> |[-> ->]].
Qed.

Lemma split_at_nth {A} (l : list A) k x : l !! k = Some x -> l = take k l ++ x :: drop (S k) l.
Proof. intros H. symmetry. by apply take_drop_middle. Qed.

(** Memory that holds code. *)
Lemma peek_window memory addr code off n : holds xlen memory addr code -> 0 <= off -> off + Z.of_nat n <= zlen code ->
  peek xlen n memory (addr + off) = window code off (off + Z.of_nat n).
Proof.
  intros H Ho Hn. unfold peek, window. apply list_eq. intros i. unfold zlen in Hn.
  destruct (Nat.lt_ge_cases i n) as [Hi|Hi].
  - rewrite lookup_take_lt, lookup_drop by lia. destruct (lookup_lt_is_Some_2 code (Z.to_nat off + i)) as [b Hb]; [lia|]. rewrite Hb.
    rewrite list_lookup_fmap. rewrite lookup_seqZ_lt by lia. simpl. apply (f_equal Some).
    rewrite <- (H _ _ Hb). do 2 f_equal. lia.
  - rewrite !lookup_ge_None_2; [done|..]; rewrite ?length_take, ?length_drop, ?length_map, ?length_seqZ; lia.
Qed.

Lemma take_le_store n k x : (n <= k)%nat -> take n (le_store k x) = le_store n x.
Proof. revert k x. induction n as [|n IH]; intros [|k] x H; try done; [lia|]. simpl. by rewrite IH by lia. Qed.

Lemma window_sub code lo hi hi' : hi' <= hi -> window code lo hi' = take (Z.to_nat (hi' - lo)) (window code lo hi).
Proof. intros H. unfold window. rewrite take_take. f_equal. lia. Qed.

Lemma step32 s addr code off w i : holds xlen (mem s) addr code -> pc s = addr + off -> 0 <= off -> off + 4 <= zlen code ->
  window code off (off + 4) = le_store 4 w -> bits w 1 0 = 3 -> decode32 xlen w = Some i -> step xlen big s = Some (exec xlen big i 4 s).
Proof.
  intros Hh Hpc H0 H1 Hw Hb Hd. unfold step, fetch. rewrite Hpc, !(peek_window _ _ _ _ _ Hh) by (simpl; lia).
  change (off + Z.of_nat 4) with (off + 4). rewrite (window_sub code off (off + 4)), Hw by (simpl; lia).
  replace (Z.to_nat (off + Z.of_nat 2 - off)) with 2%nat by lia. rewrite take_le_store, !le_load_store by lia.
  unfold decode. change (8 * Z.of_nat 2) with 16. change (8 * Z.of_nat 4) with 32. rewrite bits_wrap, Hb by lia. cbn [Z.eqb Pos.eqb].
  change (wrap 32 w) with (u32 w). by rewrite decode32_u32, Hd.
Qed.

Lemma step16 s addr code off w i : holds xlen (mem s) addr code -> pc s = addr + off -> 0 <= off -> off + 2 <= zlen code ->
  window code off (off + 2) = le_store 2 w -> bits w 1 0 = 1 -> decode16 xlen (u16 w) = Some i -> step xlen big s = Some (exec xlen big i 2 s).
Proof.
  intros Hh Hpc H0 H1 Hw Hb Hd. unfold step. unfold fetch at 1. rewrite Hpc, (peek_window _ _ _ _ _ Hh) by (simpl; lia).
  change (off + Z.of_nat 2) with (off + 2). rewrite Hw, le_load_store. unfold decode. change (8 * Z.of_nat 2) with 16.
  rewrite bits_wrap, Hb by lia. cbn [Z.eqb Pos.eqb]. change (wrap 16 w) with (u16 w). by rewrite Hd.
Qed.
End Code.

Section Calls.
Context (m : machine) (undef_weak : Z -> bool) (contents : bytes).

Definition jal_insn (rd dist : Z) : Z := write_jtype dist (Z.lor (Z.shiftl rd 7) 0x6f).
Definition cj_insn (rd dist : Z) : Z := write_cjtype dist (if rd =? 0 then 0xa001 else 0x2001).

(** The code that a call becomes. *)
Inductive call_code (r : ElfRel) (w1 removed dist off : Z) (st st' : apply_state) : Prop :=
| CodeJal : removed = 4 -> window (out st') off (off + 4) = le_store 4 (jal_insn (get_rd w1) dist) -> call_code r w1 removed dist off st st'
| CodeCj : removed = 6 -> get_rd w1 = 0 \/ get_rd w1 = 1 /\ is_64 (target_of m) = false ->
    window (out st') off (off + 2) = le_store 2 (cj_insn (get_rd w1) dist) -> call_code r w1 removed dist off st st'
| CodePair val : removed = 0 -> val = (if undef_weak (r_sym r) then 0 else dist) ->
    range_errors st' = range_errors (check_range r (i64 val) (- 2 ^ 31) (2 ^ 31) st) ->
    window (out st') off (off + 4) = le_store 4 (write_utype val (le_load (window (out st) off (off + 4)))) ->
    window (out st') (off + 4) (off + 8) = le_store 4 (write_itype val (le_load (window (out st) (off + 4) (off + 8)))) ->
    call_code r w1 removed dist off st st'.

Lemma get_rd_range w : 0 <= get_rd w < 32.
Proof. apply (bits_range w 11 7). lia. Qed.

Lemma jal_template r : 0 <= r < 32 -> u32 (Z.lor (Z.shiftl r 7) 0x6f) = Z.lor (Z.shiftl r 7) 0x6f.
Proof.
  intros H. apply Z.eqb_eq. revert r H.
  by apply (forall_range (fun r => u32 (Z.lor (Z.shiftl r 7) 0x6f) =? Z.lor (Z.shiftl r 7) 0x6f) 32).
Qed.

Lemma modify_in_buf big n f off buf buf' : modify big n f off buf = Some buf' -> 0 <= off.
Proof. intros (H & _)%modify_poke%poke_ok. done. Qed.

Lemma assign_modify n c f off buf buf1 buf2 : assign false n c off buf = Some buf1 -> modify false n f off buf1 = Some buf2 ->
  window buf2 off (off + Z.of_nat n) = le_store n (f (wrap (8 * Z.of_nat n) c)).
Proof. intros H1%window_modify H2%window_modify. by rewrite H2, H1, le_load_store. Qed.

Lemma call_written r removed dist off st st' w1 : apply_call m undef_weak contents r removed dist off st = Some st' ->
  read_le 4 contents (r_offset r + 4) = Some w1 -> call_code r w1 removed dist off st st'.
Proof.
  unfold apply_call. intros H Hw. rewrite Hw in H. cbn [mbind option_bind] in H. cbv zeta in H.
  destruct (Z.eqb_spec removed 4) as [->|H4].
  { apply with_out_some in H. apply bind_Some in H as (b & H1 & H2). apply CodeJal; [done|].
    pose proof (assign_modify _ _ _ _ _ _ _ H1 H2) as E. cbv beta in E. change (8 * Z.of_nat 4) with 32 in E. change (wrap 32) with u32 in E.
    rewrite jal_template in E by apply get_rd_range. exact E. }
  destruct (Z.eqb_spec removed 6) as [->|H6]; cbn [andb] in H.
  { assert (Hc : get_rd w1 = 0 \/ get_rd w1 = 1 /\ is_64 (target_of m) = false).
    { destruct (Z.eqb_spec (get_rd w1) 0); [by left|]. destruct (Z.eqb_spec (get_rd w1) 1); [|done]. right. by destruct (is_64 _). }
    apply CodeCj; [done|done|]. unfold cj_insn.
    destruct (get_rd w1 =? 0); [|destruct (get_rd w1 =? 1); [destruct (is_64 _); [done|]|done]].
    all: apply with_out_some in H; apply bind_Some in H as (b & H1 & H2); exact (assign_modify _ _ _ _ _ _ _ H1 H2). }
  destruct (Z.eqb_spec removed 0) as [->|H0]; [|done]. cbn [negb] in H.
  pose proof (with_out_errors _ _ _ H) as Herr. apply with_out_some in H. rewrite out_check in H. apply bind_Some in H as (b & H1 & H2).
  eapply CodePair; [done|done|done| |].
  - pose proof (modify_in_buf _ _ _ _ _ _ H1) as Hoff.
    destruct (modify_keeps off (off + 4) _ _ _ _ _ _ H2 Hoff) as [_ K]; [right; left; lia|].
    rewrite K. exact (window_modify _ _ _ _ _ H1).
  - pose proof (modify_in_buf _ _ _ _ _ _ H1) as Hoff. pose proof (window_modify _ _ _ _ _ H2) as E. replace (off + 8) with (off + 4 + 4) by lia.
    change (Z.of_nat 4) with 4 in E. rewrite E. do 3 f_equal.
    destruct (modify_keeps (off + 4) (off + 4 + 4) _ _ _ _ _ _ H1 ltac:(lia)) as [_ K]; [right; right; simpl; lia|]. exact K.
Qed.

(** Immediates of addresses, which are kept modulo 2^64. *)
Lemma bits_cong n a b hi lo : wrap n a = wrap n b -> 0 <= lo <= hi -> hi < n -> bits a hi lo = bits b hi lo.
Proof. intros E H1 H2. by rewrite <- (bits_wrap n a), <- (bits_wrap n b), E by lia. Qed.

Lemma u64_wrap32 D c : wrap 32 (u64 D + c) = wrap 32 (D + c).
Proof.
  unfold u64, wrap. rewrite <- (Zplus_mod_idemp_l (D mod 2 ^ 64)), (Z.mod_mod_divide D (2 ^ 64) (2 ^ 32)) by (by exists (2 ^ 32)).
  apply Zplus_mod_idemp_l.
Qed.

Lemma imm_j_dist D w : - 2 ^ 20 <= D < 2 ^ 20 -> D mod 2 = 0 -> imm_j (write_jtype (u64 D) w) = D.
Proof. intros H1 H2. rewrite imm_j_write. unfold u64. rewrite bits_wrap by lia. apply bits_value; (done || lia). Qed.

Lemma imm_cj_dist D w : - 2 ^ 11 <= D < 2 ^ 11 -> D mod 2 = 0 -> imm_cj (write_cjtype (u64 D) w) = D.
Proof. intros H1 H2. rewrite imm_cj_write. unfold u64. rewrite bits_wrap by lia. apply bits_value; (done || lia). Qed.

Lemma hi_lo_dist D w w' : - 2 ^ 31 - 0x800 <= D < 2 ^ 31 - 0x800 -> imm_u (write_utype (u64 D) w) + imm_i (write_itype (u64 D) w') = D.
Proof.
  intros H. rewrite imm_u_write, imm_i_write. rewrite (bits_cong 32 (u64 D + 0x800) (D + 0x800)) by (apply u64_wrap32 || lia).
  unfold u64. rewrite bits_wrap by lia. by apply hi_lo_value.
Qed.

(** What a call does: [x] is the register that a pair of instructions uses. *)
Record called (xlen : Z) (s s' : machine_state) (x rd target link : Z) : Prop := {
  cl_pc : pc s' = wx xlen target;
  cl_link : rd <> 0 -> regs s' rd = wx xlen link;
  cl_regs : forall q, q <> rd -> q <> x -> regs s' q = regs s q;
  cl_mem : mem s' = mem s }.

Lemma wx_wx xlen x : 0 <= xlen -> wx xlen (wx xlen x) = wx xlen x.
Proof. intros. unfold wx. apply wrap_wrap. lia. Qed.

Lemma wx_add xlen a b : 0 <= xlen -> wx xlen (wx xlen a + b) = wx xlen (a + b).
Proof. intros. unfold wx, wrap. apply Zplus_mod_idemp_l. Qed.

Lemma wx_even xlen a : 0 < xlen -> a mod 2 = 0 -> Z.land (wx xlen a) (-2) = wx xlen a.
Proof.
  intros Hx Ha. assert (E : Z.testbit (wx xlen a) 0 = false).
  { unfold wx. rewrite wrap_testbit by lia. rewrite Z.bit0_odd. rewrite Zmod_odd in Ha. destruct (Z.odd a); [done|apply andb_false_r]. }
  apply Z.bits_inj'. intros i Hi. rewrite Z.land_spec. change (-2) with (Z.lnot 1). rewrite Z.lnot_spec by lia.
  destruct (Z.eq_dec i 0) as [->|Hn]; [by rewrite E|]. rewrite (Z.bits_above_log2 1) by (simpl; lia). apply andb_true_r.
Qed.

Lemma window_bound buf off n w : window buf off (off + Z.of_nat n) = le_store n w -> (0 < n)%nat -> 0 <= off -> off + Z.of_nat n <= zlen buf.
Proof.
  intros H%(f_equal (@length _)) Hn Ho. unfold window in H. rewrite length_take, length_drop, length_le_store in H. unfold zlen. lia.
Qed.

Lemma call_code_bound r w1 removed dist off st st' : call_code r w1 removed dist off st st' -> 0 <= off -> off + (8 - removed) <= zlen (out st').
Proof.
  intros H Ho. destruct H as [ -> H| -> _ H|val -> _ _ _ H].
  - pose proof (window_bound _ _ 4 _ H). lia.
  - pose proof (window_bound _ _ 2 _ H). lia.
  - replace (off + 8) with (off + 4 + Z.of_nat 4) in H by lia. pose proof (window_bound _ _ 4 _ H). lia.
Qed.

Lemma call_runs xlen big r w0 w1 x i0 i1 removed addr off D st st' s : xlen = (if is_64 (target_of m) then 64 else 32) ->
  call_code r w1 removed (u64 D) off st st' ->
  decode32 xlen w0 = Some (Auipc x i0) -> decode32 xlen w1 = Some (Jalr (get_rd w1) x i1) -> x <> 0 ->
  holds xlen (mem s) addr (out st') -> pc s = addr + off -> 0 <= addr -> 0 <= off -> off + (8 - removed) <= zlen (out st') ->
  addr + zlen (out st') <= 2 ^ xlen ->
  (removed = 0 -> window (out st) off (off + 4) = le_store 4 w0 /\ window (out st) (off + 4) (off + 8) = le_store 4 w1 /\
    (undef_weak (r_sym r) = false -> - 2 ^ 31 <= D < 2 ^ 31 - 0x800)) ->
  (removed = 4 -> - 2 ^ 20 <= D < 2 ^ 20) -> (removed = 6 -> - 2 ^ 11 <= D < 2 ^ 11) -> D mod 2 = 0 -> (addr + off) mod 2 = 0 ->
  exists n s', run xlen big n s = Some s' /\
    called xlen s s' x (get_rd w1) (if (removed =? 0) && undef_weak (r_sym r) then addr + off else addr + off + D) (addr + off + (8 - removed)).
Proof.
  intros Exlen Hc Hd0 Hd1 Hx Hmem Hpc Ha Hoff Hlen Hwrap H0 H4 H6 He Hpe.
  assert (Hxl : 0 < xlen) by (subst; by case_match). pose proof (get_rd_range w1) as Hrd.
  destruct Hc as [ -> Hw| -> Hrd1 Hw|val -> Eval _ Hw0 Hw1].
  - destruct (jal_written xlen (get_rd w1) (u64 D) Hrd) as [J1 J2]. exists 1%nat. eexists. cbn [run].
    rewrite (step32 xlen big s addr (out st') off _ _ Hmem Hpc Hoff ltac:(lia) Hw J2 J1). cbn [mbind option_bind]. split; [done|].
    rewrite imm_j_dist by auto. split; simpl.
    + rewrite Hpc. done.
    + intros Hn. rewrite Z.eqb_refl. apply Z.eqb_neq in Hn as ->. simpl. rewrite Hpc, wx_wx by lia. done.
    + intros q Hq _. apply Z.eqb_neq in Hq as ->. done.
    + done.
  - assert (Hcj := cj_written xlen (if get_rd w1 =? 0 then 0xa001 else 0x2001) (u64 D)). destruct Hcj as [J1 J2].
    { destruct Hrd1 as [->|[-> E]]; [by left|right]. split; [done|]. by rewrite Exlen, E. }
    assert (Erd : (if (if get_rd w1 =? 0 then 0xa001 else 0x2001) =? 0xa001 then 0 else 1) = get_rd w1) by (by destruct Hrd1 as [->|[-> _]]).
    rewrite Erd in J1. exists 1%nat. eexists. cbn [run].
    rewrite (step16 xlen big s addr (out st') off _ _ Hmem Hpc Hoff ltac:(lia) Hw J2 J1). cbn [mbind option_bind]. split; [done|].
    rewrite imm_cj_dist by auto. split; simpl.
    + rewrite Hpc. done.
    + intros Hn. rewrite Z.eqb_refl. apply Z.eqb_neq in Hn as ->. simpl. rewrite Hpc, wx_wx by lia. done.
    + intros q Hq _. apply Z.eqb_neq in Hq as ->. done.
    + done.
  - destruct (H0 eq_refl) as (E0 & E1 & HD). rewrite E0, le_load_store in Hw0. rewrite E1, le_load_store in Hw1.
    change (8 * Z.of_nat 4) with 32 in *. change (wrap 32) with u32 in *. cbn [Z.eqb andb].
    rewrite <- decode32_u32 in Hd0, Hd1. destruct (auipc_written xlen _ _ _ val Hd0) as [A1 A2]. destruct (jalr_written xlen _ _ _ _ val Hd1) as [J1 J2].
    set (V := if undef_weak (r_sym r) then 0 else D). assert (EV : val = u64 V) by (rewrite Eval; unfold V; by destruct (undef_weak _)).
    assert (Esum : imm_u (write_utype val (u32 w0)) + imm_i (write_itype val (u32 w1)) = V).
    { rewrite EV. apply hi_lo_dist. unfold V. destruct (undef_weak _); [lia|specialize (HD eq_refl); lia]. }
    exists 2%nat. eexists. cbn [run].
    rewrite (step32 xlen big s addr (out st') off _ _ Hmem Hpc Hoff ltac:(lia) Hw0 A2 A1). cbn [mbind option_bind].
    set (s1 := exec _ _ _ _ _). assert (Hpc1 : pc s1 = addr + (off + 4)).
    { simpl. rewrite Hpc. unfold wx. rewrite wrap_small; [lia|]. unfold is_u. lia. }
    assert (Hmem1 : holds xlen (mem s1) addr (out st')) by done.
    replace (off + 8) with (off + 4 + 4) in Hw1 by lia.
    rewrite (step32 xlen big s1 addr (out st') (off + 4) _ _ Hmem1 Hpc1 ltac:(lia) ltac:(lia) Hw1 J2 J1). cbn [mbind option_bind]. split; [done|].
    apply Z.eqb_neq in Hx as Hx'.
    assert (Hreg : get_reg s1 x = wx xlen (addr + off + imm_u (write_utype val (u32 w0)))).
    { unfold get_reg. rewrite Hx'. unfold s1. simpl. rewrite Z.eqb_refl, Hx'. simpl. by rewrite Hpc. }
    fold s1. cbn [exec]. rewrite Hreg, wx_add, <- Z.add_assoc, Esum by lia.
    assert (HV : (addr + off + V) mod 2 = 0) by (unfold V; rewrite Zplus_mod, Hpe; destruct (undef_weak _); [done|by rewrite He]).
    rewrite wx_even by (done || lia). split.
    + simpl. rewrite !wx_wx by lia. unfold V. destruct (undef_weak _); [by rewrite Z.add_0_r|done].
    + intros Hn. cbn [set_reg regs]. rewrite Z.eqb_refl. apply Z.eqb_neq in Hn as ->. cbn [andb negb]. rewrite wx_wx, Hpc1 by lia. f_equal. lia.
    + intros q Hq Hqx. cbn [set_reg regs]. apply Z.eqb_neq in Hq as ->. cbn [andb]. unfold s1. simpl. by apply Z.eqb_neq in Hqx as ->.
    + done.
Qed.

Lemma window_within buf buf' a b c d : window buf a b = window buf' a b -> 0 <= a <= c -> d <= b -> window buf c d = window buf' c d.
Proof.
  intros H Hc Hd.
  assert (E : forall l, window l c d = take (Z.to_nat (d - c)) (drop (Z.to_nat (c - a)) (window l a b))).
  { intros l. unfold window. rewrite skipn_firstn_comm, take_take, drop_drop. f_equal; [lia|]. f_equal. lia. }
  by rewrite !E, H.
Qed.

Lemma call_code_keeps r w1 removed dist off st st' st'' : call_code r w1 removed dist off st st' -> 0 <= off ->
  keeps off (off + (8 - removed)) (out st') (out st'') -> range_errors st'' = range_errors st' -> call_code r w1 removed dist off st st''.
Proof.
  intros H Ho [_ K] E.
  assert (W : forall a b, off <= a -> b <= off + (8 - removed) -> window (out st'') a b = window (out st') a b).
  { intros a b Ha Hb. apply (window_within _ _ _ _ _ _ K); lia. }
  destruct H as [ -> H| -> H1 H|val -> Ev H1 H2 H3].
  - apply CodeJal; [done|]. by rewrite W by lia.
  - apply CodeCj; [done|done|]. by rewrite W by lia.
  - apply (CodePair _ _ _ _ _ _ _ val); rewrite ?E, ?W by lia; done.
Qed.
End Calls.

Lemma read_window n buf off w : read_le n buf off = Some w -> all_bytes buf ->
  0 <= off /\ off + Z.of_nat n <= zlen buf /\ window buf off (off + Z.of_nat n) = le_store n w.
Proof.
  unfold read_le. destruct (in_buf _ _ _) eqn:E; [|done]. apply in_buf_true in E as [H1 H2]. intros [= <-] Hb. split; [done|]. split; [done|].
  unfold window. replace (off + Z.of_nat n - off) with (Z.of_nat n) by lia. rewrite Nat2Z.id. rewrite le_store_load; [done| |].
  - apply Forall_take. by apply Forall_drop.
  - rewrite length_take, length_drop. unfold zlen in H2. lia.
Qed.

Section Final.
(** The section when it was relaxed, and what it became. *)
Context (m : machine) (ctx0 : Context) (syms0 : gmap Z Symbol) (undef_weak internal : Z -> bool).
Context (relax use_rvc : bool) (contents : bytes) (isec0 : Section_) (u : Z) (l : list Z) (base : bytes).
Context (HR : relaxed m ctx0 syms0 undef_weak internal relax use_rvc contents isec0 u l base) (HS : separate (section_rels isec0)).
(** The section and the symbols in the final layout. *)
Context (ctx : Context) (opt : options) (syms : gmap Z Symbol) (got : GotSection) (in_section : Z -> bool) (isec : Section_).
Context (st : apply_state) (Hrels : section_rels isec = section_rels isec0) (Hbytes : all_bytes contents).
Context (Happly : apply_reloc_alloc m ctx opt syms got undef_weak in_section contents isec l base = Some st).

Abbreviation rels := (section_rels isec0).

Lemma delta_lookup i : get_r_delta l i = l !! i.
Proof. destruct l; [|done]. by pose proof (rd_head _ _ _ _ _ _ _ _ _ _ _ _ HR). Qed.

Lemma delta_some i : (i <= length rels)%nat -> exists d, l !! i = Some d.
Proof. intros H. apply lookup_lt_is_Some_2. rewrite (rd_length _ _ _ _ _ _ _ _ _ _ _ _ HR). lia. Qed.

(** The three loops at one place. *)
Lemma apply_inv : exists st1 buf2, apply_loop m ctx opt syms got undef_weak contents isec l 0 rels (mkApply base [] []) = Some st1 /\
  fix_loop l (apply_lo syms in_section) 0 rels (out st1) = Some buf2 /\ fix_loop l (apply_hi contents) 0 rels buf2 = Some (out st) /\
  range_errors st = range_errors st1.
Proof.
  unfold apply_reloc_alloc in Happly. rewrite Hrels in Happly. apply bind_Some in Happly as (st1 & E1 & H).
  apply bind_Some in H as (buf2 & E2 & H). apply bind_Some in H as (buf3 & E3 & [= <-]). by exists st1, buf2.
Qed.

Lemma clear_of k r j x d d' e e' : rels !! k = Some r -> rels !! j = Some x -> j <> k -> apart rels k -> 0 < width r ->
  l !! k = Some d -> l !! S k = Some d' -> l !! j = Some e -> l !! S j = Some e' ->
  (span x = 0 -> e' = e) /\ clear (r_offset r - d) (r_offset r + width r - d') (r_offset x - e) (width x - (e' - e)).
Proof. intros. eapply (still_apart m ctx0 syms0 undef_weak internal relax use_rvc contents isec0 u l base HR HS (r_offset r - d) (r_offset r + width r - d') k r j x d d' e e'); done. Qed.

Lemma spares_site k r d d' : rels !! k = Some r -> apart rels k -> 0 < width r -> l !! k = Some d -> l !! S k = Some d' ->
  spares l (r_offset r - d) (r_offset r + width r - d') 0 rels k.
Proof.
  intros Hk Ha Hw E1 E2 j x e e' Hj Hx E3 E4. rewrite delta_lookup in E3, E4. by apply (clear_of k r j x d d' e e').
Qed.

Lemma clear_site k r d d' j x e : rels !! k = Some r -> apart rels k -> 0 < width r -> l !! k = Some d -> l !! S k = Some d' -> j <> k ->
  rels !! j = Some x -> get_r_delta l (0 + j) = Some e -> span x = 0 -> clear (r_offset r - d) (r_offset r + width r - d') (r_offset x - e) (width x).
Proof.
  intros Hk Ha Hw E1 E2 Hj Hx E3 Hz. rewrite delta_lookup in E3. destruct (delta_some (S j)) as [e' E4]; [apply lookup_lt_Some in Hx; lia|].
  destruct (clear_of k r j x d d' e e') as [Z1 Z2]; try done. by rewrite (Z1 Hz), Z.sub_diag, Z.sub_0_r in Z2.
Qed.

Lemma place_nonneg k r d : rels !! k = Some r -> 0 < width r -> 0 <= r_offset r -> l !! k = Some d -> 0 <= r_offset r - d.
Proof.
  intros Hk Hw Ho E. destruct (placed _ _ _ _ _ _ _ _ _ _ _ _ HR HS k r Hk Hw) as (I & _ & P & _). assert (d = shift (removals rels l) (r_offset r)) as -> by congruence.
  pose proof (shift_inside _ _ _ _ (rd_ranges _ _ _ _ _ _ _ _ _ _ _ _ HR) I Ho). lia.
Qed.

Definition is_call (r : ElfRel) : Prop := rel_type r = R_RISCV_CALL \/ rel_type r = R_RISCV_CALL_PLT.

Lemma call_span r : is_call r -> span r = 8 /\ width r = 8.
Proof. unfold width, span. by intros [-> | ->]. Qed.

Lemma one_call r d removed sa sb sym S : is_call r -> syms !! r_sym r = Some sym -> get_addr m ctx false false sym = Some S ->
  apply_one m ctx opt syms got undef_weak contents isec r d removed sa = Some sb ->
  apply_call m undef_weak contents r removed (u64 (S + r_addend r - u64 (section_addr isec + (r_offset r - d)))) (r_offset r - d) sa = Some sb.
Proof.
  intros Hc Hs HS' H. unfold apply_one, apply_type in H. destruct Hc as [E|E]; rewrite E, Hs in H; cbn [mbind option_bind] in H; rewrite HS' in H; exact H.
Qed.

(** The code of a call after all loops. *)
Lemma call_final k r d d' sym S w1 : rels !! k = Some r -> is_call r -> l !! k = Some d -> l !! Datatypes.S k = Some d' ->
  syms !! r_sym r = Some sym -> get_addr m ctx false false sym = Some S -> read_le 4 contents (r_offset r + 4) = Some w1 -> 0 <= r_offset r ->
  0 <= r_offset r - d /\ exists sa st2, keeps (r_offset r - d) (r_offset r - d + (8 - (d' - d))) base (out sa) /\
    call_code m undef_weak r w1 (d' - d) (u64 (S + r_addend r - u64 (section_addr isec + (r_offset r - d)))) (r_offset r - d) sa st2 /\
    out st2 = out st /\ (range_errors st = [] -> range_errors st2 = []).
Proof.
  intros Hk Hc E1 E2 Hs HS' Hw1 Ho. destruct (call_span r Hc) as [Hspan Hwid]. pose proof (se_apart _ HS k r Hk ltac:(lia)) as Ha.
  pose proof (place_nonneg k r d Hk ltac:(lia) Ho E1) as Hoff. split; [done|].
  destruct apply_inv as (st1 & buf2 & L1 & L2 & L3 & Eerr). set (off := r_offset r - d) in *.
  replace (off + (8 - (d' - d))) with (r_offset r + width r - d') by (unfold off; lia).
  destruct (loop_site _ _ _ _ _ _ _ _ _ off (r_offset r + width r - d') 0 rels _ st1 k r L1 Hoff Hk) as (e & e' & sa & sb & F1 & F2 & K1 & H1 & K2 & [le Hle]).
  { apply spares_site; (done || lia). }
  rewrite delta_lookup in F1, F2. assert (e = d) as -> by (simpl in F1; congruence). assert (e' = d') as -> by (simpl in F2; congruence).
  assert (Hfix : forall acts f b b', frames acts f -> (forall x, acts x = true -> span x = 0 /\ width x = 4) ->
    fix_loop l f 0 rels b = Some b' -> keeps off (r_offset r + width r - d') b b').
  { intros acts f b b' Hf Hz0 Hl. apply (fix_keeps _ acts f off _ 0 rels b b' Hf Hl Hoff). intros j x e Hx Hj [Hz _]%Hz0.
    destruct (Nat.eq_dec j k) as [->|Hjk].
    - exfalso. assert (x = r) by congruence. subst x. lia.
    - by eapply clear_site; try done; lia. }
  pose proof (one_call r d (d' - d) sa sb sym S Hc Hs HS' H1) as Hcall. pose proof (call_written _ _ _ _ _ _ _ _ _ _ Hcall Hw1) as Hcode.
  exists sa, (mkApply (out st) [] (range_errors sb)). split; [exact K1|]. split; [|split; [done|]].
  - apply (call_code_keeps _ _ _ _ _ _ _ _ _ _ Hcode Hoff); [|done]. fold off. replace (off + (8 - (d' - d))) with (r_offset r + width r - d') by (unfold off; lia).
    apply (keeps_trans _ _ _ (out st1)); [exact K2|]. apply (keeps_trans _ _ _ buf2); [apply (Hfix _ _ _ _ (lo_frames _ _) lo_width L2)|apply (Hfix _ _ _ _ (hi_frames _) hi_width L3)].
  - intros He. simpl. rewrite Eerr, Hle in He. by apply app_eq_nil in He as [He _].
Qed.

(** *** Relative addresses *)

(** What the upper part of an address is about. *)
Definition hi_target (r : ElfRel) (sym : Symbol) (S : Z) : Z :=
  let t := rel_type r in
  if t =? R_RISCV_GOT_HI20 then get_got_addr m got (aux sym) + r_addend r
  else if t =? R_RISCV_TLS_GOT_HI20 then get_gottp_addr m got (aux sym) + r_addend r
  else if t =? R_RISCV_TLS_GD_HI20 then get_tlsgd_addr m got (aux sym) + r_addend r
  else S + r_addend r.

Lemma one_hi r d removed sa sb sym S : stores_value r = true -> syms !! r_sym r = Some sym -> get_addr m ctx false false sym = Some S ->
  apply_one m ctx opt syms got undef_weak contents isec r d removed sa = Some sb ->
  window (out sb) (r_offset r - d) (r_offset r - d + 4) = le_store 4 (hi_target r sym S - u64 (section_addr isec + (r_offset r - d))).
Proof.
  intros Hv Hs HS' H. unfold stores_value in Hv. cbv zeta in Hv. rewrite !orb_true_iff, !Z.eqb_eq in Hv.
  unfold apply_one, apply_type, hi_target in *.
  destruct Hv as [[[E|E]|E]|E]; rewrite E, Hs in H; cbn [mbind option_bind] in H; rewrite HS' in H; rewrite E; cbn [mbind option_bind] in H;
    apply with_out_some in H; apply window_modify in H; change (Z.of_nat 4) with 4 in H; refine (eq_trans H _); try done.
  exact (le_store_wrap 4 64 _ ltac:(simpl; lia)).
Qed.

Lemma one_lo r d removed sa sb : is_lo r = true ->
  apply_one m ctx opt syms got undef_weak contents isec r d removed sa = Some sb -> out sb = out sa.
Proof.
  intros Hv H. unfold is_lo in Hv. rewrite orb_true_iff, !Z.eqb_eq in Hv. unfold apply_one, apply_type in H.
  destruct Hv as [E|E]; rewrite E in H; cbn [mbind option_bind] in H; apply bind_Some in H as (sym & _ & H); apply bind_Some in H as (S & _ & H);
    by injection H as <-.
Qed.

Lemma not_both r : is_lo r = true -> stores_value r = true -> False.
Proof.
  unfold is_lo, stores_value. cbv zeta. rewrite !orb_true_iff, !Z.eqb_eq. intros [E|E]; rewrite E; intros [[[H|H]|H]|H]; discriminate H.
Qed.

(** An instruction that is not removed: its place and what all loops do to others. *)
Record in_place (k : nat) (r : ElfRel) (d w : Z) : Prop := {
  ip_at : rels !! k = Some r;
  ip_delta : l !! k = Some d;
  ip_span : span r = 0 /\ width r = 4;
  ip_apart : apart rels k;
  ip_word : read_le 4 contents (r_offset r) = Some w }.

Abbreviation at_ r d := (r_offset r - d).

Lemma in_place_next k r d w : in_place k r d w -> l !! S k = Some d.
Proof.
  intros [Hk E [Hz _] _ _]. destruct (rd_site _ _ _ _ _ _ _ _ _ _ _ _ HR k r Hk) as (e & n & F1 & F2 & _ & _ & Hn%sh_range). rewrite F2. f_equal.
  assert (e = d) by congruence. lia.
Qed.

Lemma in_place_base k r d w : in_place k r d w -> 0 <= at_ r d /\ window base (at_ r d) (at_ r d + 4) = le_store 4 w.
Proof.
  intros H. pose proof (in_place_next k r d w H) as E2. destruct H as [Hk E [_ Hw] _ Hword].
  destruct (read_window _ _ _ _ Hword Hbytes) as (Ho & Hlen & W). change (Z.of_nat 4) with 4 in *.
  destruct (kept_window _ _ _ _ _ _ _ _ _ _ _ _ HR HS k r d Hk ltac:(lia) Ho ltac:(lia) E E2) as [Hoff K]. split; [done|]. by rewrite Hw, W in K.
Qed.

Lemma in_place_clear k r d w j x e : in_place k r d w -> j <> k -> rels !! j = Some x -> get_r_delta l j = Some e -> span x = 0 ->
  clear (at_ r d) (at_ r d + 4) (r_offset x - e) (width x).
Proof.
  intros H Hj Hx He Hz. pose proof (in_place_next k r d w H) as E2. destruct H as [Hk E [_ Hw] Ha _].
  replace (at_ r d + 4) with (r_offset r + width r - d) by lia. by apply (clear_site k r d d j x e); try done; lia.
Qed.

Lemma in_place_spares k r d w : in_place k r d w -> spares l (at_ r d) (at_ r d + 4) 0 rels k.
Proof.
  intros H. pose proof (in_place_next k r d w H) as E2. destruct H as [Hk E [_ Hw] Ha _].
  replace (at_ r d + 4) with (r_offset r + width r - d) by lia. by apply spares_site; try done; lia.
Qed.

(** A loop leaves an instruction alone that is not of its types. *)
Lemma fix_other acts f k r d w n b b' : frames acts f -> (forall x, acts x = true -> span x = 0 /\ width x = 4) -> in_place k r d w ->
  acts r = false -> fix_loop l f 0 (take n rels) b = Some b' -> keeps (at_ r d) (at_ r d + 4) b b'.
Proof.
  intros Hf Hz H Hno Hl. destruct (in_place_base k r d w H) as [Hoff _]. apply (fix_keeps l acts f _ _ _ _ _ _ Hf Hl Hoff).
  intros j x e Hx He Hact. apply lookup_take_Some in Hx as [Hx _]. destruct (Nat.eq_dec j k) as [->|Hjk].
  - exfalso. pose proof (ip_at _ _ _ _ H). congruence.
  - apply (in_place_clear k r d w j x e H Hjk Hx He). by apply Hz.
Qed.

Lemma read_of buf off w : 0 <= off -> window buf off (off + 4) = le_store 4 w -> read_le 4 buf off = Some (u32 w).
Proof.
  intros Ho W. pose proof (window_bound buf off 4 w W ltac:(lia) Ho) as Hb. unfold read_le. replace (in_buf 4 buf off) with true by (symmetry; by apply in_buf_true).
  apply (f_equal le_load) in W. rewrite le_load_store in W. change (u32 w) with (wrap (8 * Z.of_nat 4) w).
  rewrite <- W. unfold window. apply (f_equal Some). do 2 f_equal. lia.
Qed.

(** The two instructions of a relative address after all loops. *)
Lemma pair_final h k rh rk dh dk wh wk symh symk S : in_place h rh dh wh -> in_place k rk dk wk -> stores_value rh = true -> is_lo rk = true ->
  syms !! r_sym rh = Some symh -> get_addr m ctx false false symh = Some S -> syms !! r_sym rk = Some symk -> value symk = at_ rh dh ->
  let v := hi_target rh symh S - u64 (section_addr isec + at_ rh dh) in
  window (out st) (at_ rh dh) (at_ rh dh + 4) = le_store 4 (write_utype (u32 v) (u32 wh)) /\
  window (out st) (at_ rk dk) (at_ rk dk + 4) =
    le_store 4 (if rel_type rk =? R_RISCV_PCREL_LO12_I then write_itype (u32 v) (u32 wk) else write_stype (u32 v) (u32 wk)).
Proof.
  intros Hh Hk Hhi Hlo Hs HS' Hsk Hv v. destruct apply_inv as (st1 & buf2 & L1 & L2 & L3 & _).
  destruct (in_place_base _ _ _ _ Hh) as [Oh Bh]. destruct (in_place_base _ _ _ _ Hk) as [Ok Bk].
  assert (Hl : forall i r d e w, in_place i r d w -> get_r_delta l i = Some e -> e = d).
  { intros i r d e w H He. rewrite delta_lookup in He. pose proof (ip_delta _ _ _ _ H). congruence. }
  assert (Hno1 : is_lo rh = false) by (destruct (is_lo rh) eqn:E; [by destruct (not_both rh)|done]).
  assert (Hno2 : stores_value rk = false) by (destruct (stores_value rk) eqn:E; [by destruct (not_both rk)|done]).
  (* the first loop *)
  destruct (loop_site _ _ _ _ _ _ _ _ _ _ _ 0 rels _ st1 h rh L1 Oh (ip_at _ _ _ _ Hh) (in_place_spares _ _ _ _ Hh)) as (e & e' & sa & sb & F1 & _ & _ & H1 & [_ K1] & _).
  rewrite (Hl _ _ _ _ _ Hh F1) in H1. rewrite (one_hi _ _ _ _ _ _ _ Hhi Hs HS' H1) in K1. fold v in K1. clear e e' sa sb F1 H1.
  destruct (loop_site _ _ _ _ _ _ _ _ _ _ _ 0 rels _ st1 k rk L1 Ok (ip_at _ _ _ _ Hk) (in_place_spares _ _ _ _ Hk)) as (e & e' & sa & sb & F1 & _ & [_ Ka] & H1 & [_ Kb] & _).
  rewrite (one_lo _ _ _ _ _ Hlo H1), Ka in Kb. cbn [out] in Kb. rewrite Bk in Kb. clear e e' sa sb F1 H1 Ka.
  (* the second loop *)
  destruct (fix_at _ _ _ _ _ _ k rk L2 (ip_at _ _ _ _ Hk)) as (e & b1 & b2 & F1 & M1 & H1 & M2). rewrite (Hl _ _ _ _ _ Hk F1) in H1.
  destruct (fix_other _ _ _ _ _ _ _ _ _ (lo_frames _ _) lo_width Hh Hno1 M1) as [_ Kh1]. rewrite K1 in Kh1.
  rewrite <- (firstn_all rels) in L2. destruct (fix_other _ _ _ _ _ _ _ _ _ (lo_frames _ _) lo_width Hh Hno1 L2) as [_ Kh2]. rewrite K1 in Kh2.
  rewrite firstn_all in L2.
  destruct (fix_site _ is_lo _ (at_ rk dk) (at_ rk dk + 4) _ _ _ k rk (lo_frames _ _) L2 (ip_at _ _ _ _ Hk) Ok) with (3 := M2) (2 := M1) as [[_ Kk1] [_ Kk2]].
  { intros j x d Hj Hx Hd Hact. apply (in_place_clear k rk dk wk j x d Hk Hj Hx Hd). by apply lo_width. }
  rewrite Kb in Kk1. unfold apply_lo in H1. cbv zeta in H1. fold (is_lo rk) in H1. rewrite Hlo, Hsk in H1. cbn [mbind option_bind] in H1.
  destruct (negb _); [done|]. rewrite Hv, (read_of b1 _ v Oh Kh1) in H1. cbn [mbind option_bind] in H1. apply window_modify in H1.
  change (Z.of_nat 4) with 4 in H1. rewrite Kk1, le_load_store in H1. change (wrap (8 * Z.of_nat 4) wk) with (u32 wk) in H1. rewrite H1 in Kk2.
  clear e b1 b2 F1 M1 M2 H1 Kh1 Kk1.
  (* the third loop *)
  destruct (fix_at _ _ _ _ _ _ h rh L3 (ip_at _ _ _ _ Hh)) as (e & b1 & b2 & F1 & M1 & H1 & M2). rewrite (Hl _ _ _ _ _ Hh F1) in H1.
  destruct (fix_site _ stores_value _ (at_ rh dh) (at_ rh dh + 4) _ _ _ h rh (hi_frames _) L3 (ip_at _ _ _ _ Hh) Oh) with (3 := M2) (2 := M1) as [[_ Kh1] [_ Kh3]].
  { intros j x d Hj Hx Hd Hact. apply (in_place_clear h rh dh wh j x d Hh Hj Hx Hd). by apply hi_width. }
  rewrite <- (firstn_all rels) in L3. destruct (fix_other _ _ _ _ _ _ _ _ _ (hi_frames _) hi_width Hk Hno2 L3) as [_ Kk3].
  rewrite Kk3, Kk2, Kh3. split; [|by destruct (rel_type rk =? R_RISCV_PCREL_LO12_I)].
  rewrite Kh2 in Kh1. unfold apply_hi in H1. rewrite Hhi, (read_of b1 _ v Oh Kh1) in H1. cbn [mbind option_bind] in H1.
  apply bind_Some in H1 as (insn & Hi & H1). apply bind_Some in H1 as (b & H1 & H2). apply window_modify in H2. change (Z.of_nat 4) with 4 in H2.
  rewrite H2. destruct (read_window _ _ _ _ (ip_word _ _ _ _ Hh) Hbytes) as (Ho & Hlen & W). change (Z.of_nat 4) with 4 in *.
  assert (insn = le_store 4 wh) as ->.
  { rewrite <- W. unfold slice in Hi. destruct (_ && _); [|done]. by injection Hi as <-. }
  apply window_poke in H1. unfold zlen in H1. rewrite length_le_store in H1. change (Z.of_nat 4) with 4 in H1. by rewrite H1, le_load_store.
Qed.
End Final.

(** ** Calls reach their targets *)

Definition xlen_of (m : machine) : Z := if is_64 (target_of m) then 64 else 32.

(** How far the code that a call became can jump; the rounding of [utype] takes 2 KiB off
    the range that is checked. *)
Definition in_reach (removed D : Z) : Prop :=
  (removed = 0 -> D < 2 ^ 31 - 0x800) /\ (removed = 4 -> - 2 ^ 20 <= D < 2 ^ 20) /\ (removed = 6 -> - 2 ^ 11 <= D < 2 ^ 11).

Section CallTheorem.
Context (m : machine) (ctx0 ctx : Context) (syms0 syms : gmap Z Symbol) (undef_weak internal in_section : Z -> bool).
Context (relax use_rvc : bool) (contents : bytes) (isec0 isec : Section_) (u : Z) (opt : options) (got : GotSection).

Lemma call_pair_base k r d l base w0 w1 sa : relaxed m ctx0 syms0 undef_weak internal relax use_rvc contents isec0 u l base ->
  separate (section_rels isec0) -> all_bytes contents -> section_rels isec0 !! k = Some r -> is_call r -> l !! k = Some d -> l !! S k = Some d ->
  read_le 4 contents (r_offset r) = Some w0 -> read_le 4 contents (r_offset r + 4) = Some w1 ->
  keeps (r_offset r - d) (r_offset r - d + 8) base sa ->
  window sa (r_offset r - d) (r_offset r - d + 4) = le_store 4 w0 /\ window sa (r_offset r - d + 4) (r_offset r - d + 8) = le_store 4 w1.
Proof.
  intros HR HS Hb Hk Hc E1 E2 Hw0 Hw1 [_ K]. destruct (call_span r Hc) as [_ Hwid].
  destruct (read_window _ _ _ _ Hw0 Hb) as (Ho & _ & W0). destruct (read_window _ _ _ _ Hw1 Hb) as (_ & Hlen & W1).
  change (Z.of_nat 4) with 4 in *.
  destruct (kept_window _ _ _ _ _ _ _ _ _ _ _ _ HR HS k r d Hk ltac:(lia) Ho ltac:(lia) E1 E2) as [Hoff W]. rewrite Hwid, <- K in W.
  rewrite (window_join contents (r_offset r) (r_offset r + 4)), W0 in W by lia.
  replace (r_offset r + 8) with (r_offset r + 4 + 4) in W by lia. rewrite W1 in W.
  rewrite (window_join sa _ (r_offset r - d + 4)) in W by lia.
  apply app_inj_1 in W; [done|]. rewrite length_le_store. apply (f_equal (@length _)) in W. rewrite !length_app, !length_le_store in W.
  unfold window in *. rewrite !length_take, !length_drop in *. lia.
Qed.

Lemma relaxed_of l base : relaxable m ctx0 syms0 use_rvc contents isec0 u ->
  shrink_section m ctx0 syms0 undef_weak internal relax use_rvc contents isec0 = Some l ->
  copy_contents_riscv contents (section_rels isec0) l = Some base ->
  relaxed m ctx0 syms0 undef_weak internal relax use_rvc contents isec0 u l base.
Proof.
  intros HR E1 E2. destruct (relaxed_ok m ctx0 syms0 undef_weak internal relax use_rvc contents isec0 u HR) as (l' & base' & H).
  assert (l' = l) as -> by (pose proof (rd_shrink _ _ _ _ _ _ _ _ _ _ _ _ H); congruence).
  assert (base' = base) as -> by (pose proof (rd_copy _ _ _ _ _ _ _ _ _ _ _ _ H); congruence). done.
Qed.

Lemma i64_id x : is_s 64 x -> i64 x = x.
Proof. intros. by apply swrap_small. Qed.

Lemma wx_target P T : wx (xlen_of m) (P + i64 (T - P)) = wx (xlen_of m) T.
Proof.
  unfold wx, xlen_of, i64. assert (H : forall n, 0 <= n <= 64 -> wrap n (P + swrap 64 (T - P)) = wrap n T).
  { intros n Hn. rewrite Z.add_comm, <- (wrap_wrap n 64), wrap_swrap_add, wrap_wrap by lia. f_equal. lia. }
  apply H. by case_match.
Qed.

Lemma check_low r v a b st : range_errors (check_range r v a b st) = [] -> a <= v < b.
Proof.
  unfold check_range. destruct (Z.ltb_spec v a), (Z.leb_spec b v); simpl; try lia; intros Hn; by apply app_eq_nil in Hn as [_ Hn].
Qed.

Lemma fix_value_at l base k r d : relaxable m ctx0 syms0 use_rvc contents isec0 u ->
  relaxed m ctx0 syms0 undef_weak internal relax use_rvc contents isec0 u l base -> separate (section_rels isec0) ->
  section_rels isec0 !! k = Some r -> 0 < width r -> 0 <= r_offset r -> r_offset r <= zlen contents -> l !! k = Some d ->
  fix_value (section_rels isec0) l (r_offset r) = r_offset r - d.
Proof.
  intros HRx HR HS Hk Hw Ho Hle Hd. destruct (placed _ _ _ _ _ _ _ _ _ _ _ _ HR HS k r Hk Hw) as (I & _ & P & _).
  assert (d = shift (removals (section_rels isec0) l) (r_offset r)) as E by congruence.
  pose proof (rd_head _ _ _ _ _ _ _ _ _ _ _ _ HR) as Eh. pose proof (rd_length _ _ _ _ _ _ _ _ _ _ _ _ HR) as El.
  unfold fix_value. destruct l as [|d0 l0] eqn:Heq; [done|]. rewrite <- Heq in *. rewrite (fix_value_ok _ _ _ El) by apply HRx.
  rewrite Eh. cbn [default]. rewrite <- E. pose proof (shift_inside _ _ _ _ (rd_ranges _ _ _ _ _ _ _ _ _ _ _ _ HR) I Ho) as Hs.
  rewrite <- E in Hs. pose proof (rx_addr _ _ _ _ _ _ _ HRx) as (A1 & _ & A2). simpl. apply u64_small. lia.
Qed.

Lemma pair_wrap n T P w w' (c : bool) : 0 <= n <= 32 ->
  wrap n (P + imm_u (write_utype (T - P) w) + (if c then imm_i (write_itype (T - P) w') else imm_s (write_stype (T - P) w'))) = wrap n T.
Proof.
  intros Hn. assert (E : wrap 32 (imm_u (write_utype (T - P) w) + (if c then imm_i (write_itype (T - P) w') else imm_s (write_stype (T - P) w'))) = wrap 32 (T - P)).
  { rewrite imm_u_write. destruct c; rewrite ?imm_i_write, ?imm_s_write; apply hi_lo_wrap. }
  set (x := imm_u _) in *. set (y := if c then _ else _) in *. clearbody x y.
  apply (f_equal (wrap n)) in E. rewrite !wrap_wrap in E by lia. unfold wrap in *.
  replace (P + x + y) with (P + (x + y)) by lia. rewrite Zplus_mod, E, <- Zplus_mod. f_equal. lia.
Qed.

Lemma pair_exact T P w w' (c : bool) : - 2 ^ 31 - 2 ^ 11 <= i64 (T - P) < 2 ^ 31 - 2 ^ 11 ->
  imm_u (write_utype (T - P) w) + (if c then imm_i (write_itype (T - P) w') else imm_s (write_stype (T - P) w')) = i64 (T - P).
Proof.
  intros H. assert (E : wrap 64 (T - P) = wrap 64 (i64 (T - P))) by (unfold i64; by rewrite wrap_swrap).
  assert (E' : wrap 32 (T - P + 0x800) = wrap 32 (i64 (T - P) + 0x800)).
  { rewrite <- (u64_wrap32 (T - P)), <- (u64_wrap32 (i64 (T - P))). unfold u64. by rewrite E. }
  rewrite imm_u_write, (bits_cong 32 _ _ _ _ E') by lia. destruct c; rewrite ?imm_i_write, ?imm_s_write, (bits_cong 64 _ _ _ _ E) by lia; by apply hi_lo_value.
Qed.

(** The values of relative addresses are read as 32 bits. *)
Lemma write_utype_u32 v w : write_utype (u32 v) w = write_utype v w.
Proof. unfold write_utype, utype. f_equal. f_equal. f_equal. unfold u32. by rewrite wrap_wrap. Qed.
Lemma write_itype_u32 v w : write_itype (u32 v) w = write_itype v w.
Proof. unfold write_itype, itype, u32. by rewrite wrap_wrap. Qed.
Lemma write_stype_u32 v w : write_stype (u32 v) w = write_stype v w.
Proof. unfold write_stype, stype, u32. by rewrite wrap_wrap. Qed.

(** C4: relaxed or not, every call of a section that was shrunk, copied and relocated
    without an error jumps to S + A and leaves the address of the next instruction in the
    link register, and changes no other register than the one that the pair of
    instructions uses; a call of an undefined weak symbol that was not relaxed is an
    infinite loop. The distance in the final layout has to be in reach of the code. *)
Theorem relaxed_calls_reach l base st : relaxable m ctx0 syms0 use_rvc contents isec0 u -> separate (section_rels isec0) -> all_bytes contents ->
  shrink_section m ctx0 syms0 undef_weak internal relax use_rvc contents isec0 = Some l ->
  copy_contents_riscv contents (section_rels isec0) l = Some base -> section_rels isec = section_rels isec0 ->
  apply_reloc_alloc m ctx opt syms got undef_weak in_section contents isec l base = Some st -> range_errors st = [] ->
  0 <= section_addr isec -> section_addr isec + zlen (out st) <= 2 ^ xlen_of m ->
  forall big k r d d' sym S w0 w1 x rd i0 i1 s,
  section_rels isec0 !! k = Some r -> is_call r -> l !! k = Some d -> l !! Datatypes.S k = Some d' ->
  syms !! r_sym r = Some sym -> get_addr m ctx false false sym = Some S ->
  read_le 4 contents (r_offset r) = Some w0 -> read_le 4 contents (r_offset r + 4) = Some w1 ->
  decode32 (xlen_of m) w0 = Some (Auipc x i0) -> decode32 (xlen_of m) w1 = Some (Jalr rd x i1) -> x <> 0 ->
  let P := section_addr isec + (r_offset r - d) in
  let T := S + r_addend r in
  in_reach (d' - d) (i64 (T - P)) -> P mod 2 = 0 -> i64 (T - P) mod 2 = 0 ->
  holds (xlen_of m) (mem s) (section_addr isec) (out st) -> pc s = P ->
  exists n s', run (xlen_of m) big n s = Some s' /\
    called (xlen_of m) s s' x rd (if (d' - d =? 0) && undef_weak (r_sym r) then P else T) (P + (8 - (d' - d))).
Proof.
  intros HRx HS Hb E1 E2 Hrels Happly Herr Ha Hwrap big k r d d' sym S w0 w1 x rd i0 i1 s Hk Hc D1 D2 Hs HS' Hw0 Hw1 I0 I1 Hx P T (R0 & R4 & R6) HP HD Hmem Hpc.
  pose proof (relaxed_of l base HRx E1 E2) as HR. destruct (read_window _ _ _ _ Hw0 Hb) as (Ho & _ & _).
  assert (rd = get_rd w1) as -> by (by apply decode_jalr in I1 as (_ & _ & <- & _)).
  destruct (call_final _ _ _ _ _ _ _ _ _ _ _ _ HR HS ctx opt syms got in_section isec st Hrels Happly k r d d' sym S w1 Hk Hc D1 D2 Hs HS' Hw1 Ho)
    as (Hoff & sa & st2 & K & Hcode & Eout & Herr2).
  pose proof (call_code_bound _ _ _ _ _ _ _ _ _ Hcode Hoff) as Hlen. rewrite <- Eout in Hmem, Hwrap.
  assert (Hx64 : 2 ^ xlen_of m <= 2 ^ 64) by (unfold xlen_of; by case_match).
  assert (EP : u64 P = P) by (apply u64_small; pose proof (zlen_nonneg (out st2)); destruct Hcode; unfold P; lia).
  set (D := i64 (T - P)) in *. assert (ED : u64 (S + r_addend r - u64 P) = u64 D).
  { rewrite EP. unfold D, u64, i64. by rewrite wrap_swrap. }
  fold P in Hcode. rewrite ED in Hcode.
  destruct (call_runs m undef_weak (xlen_of m) big r w0 w1 x i0 i1 (d' - d) (section_addr isec) (r_offset r - d) D sa st2 s) as (n & s' & Hrun & Hcalled); try done.
  - intros H0. assert (d' = d) as -> by lia. rewrite H0 in K.
    destruct (call_pair_base k r d l base w0 w1 (out sa) HR HS Hb Hk Hc D1 D2 Hw0 Hw1 K) as [W0 W1]. split; [done|]. split; [done|].
    intros Hu. destruct Hcode as [?|?|val _ Ev Ee _ _]; [lia..|]. rewrite Hu in Ev. subst val. specialize (Herr2 Herr). rewrite Ee in Herr2.
    apply check_low in Herr2. assert (i64 (u64 D) = D) as E by (unfold i64, u64; rewrite swrap_wrap by lia; apply swrap_small; [done|apply swrap_range; done]).
    rewrite E in Herr2. specialize (R0 ltac:(lia)). lia.
  - exists n, s'. split; [done|]. destruct Hcalled as [C1 C2 C3 C4]. split; try done. rewrite C1. destruct (_ && _); [done|].
    fold P. unfold D. apply wx_target.
Qed.

(** C7: the two instructions that form the address of a symbol, of its slot in the GOT or
    of its thread-local storage relative to the program counter, wherever relaxation put
    them: the first keeps its register and the second everything but its immediate, and
    P plus both immediates is the address, if its distance is representable or the machine
    has 32 bits. The label that the second refers to is the place of the first. *)
Theorem relative_addresses l base st : relaxable m ctx0 syms0 use_rvc contents isec0 u -> separate (section_rels isec0) -> all_bytes contents ->
  shrink_section m ctx0 syms0 undef_weak internal relax use_rvc contents isec0 = Some l ->
  copy_contents_riscv contents (section_rels isec0) l = Some base -> section_rels isec = section_rels isec0 ->
  apply_reloc_alloc m ctx opt syms got undef_weak in_section contents isec l base = Some st ->
  0 <= section_addr isec -> section_addr isec + zlen (out st) <= 2 ^ 64 ->
  forall h k rh rk dh dk wh wk symh symk S x i0,
  in_place contents isec0 l h rh dh wh -> in_place contents isec0 l k rk dk wk -> stores_value rh = true -> is_lo rk = true ->
  syms !! r_sym rh = Some symh -> get_addr m ctx false false symh = Some S ->
  syms !! r_sym rk = Some symk -> value symk = fix_value (section_rels isec0) l (r_offset rh) ->
  decode32 (xlen_of m) wh = Some (Auipc x i0) ->
  let P := section_addr isec + (r_offset rh - dh) in
  let T := hi_target m got rh symh S in
  let itype := rel_type rk =? R_RISCV_PCREL_LO12_I in
  exists hi lo, window (out st) (r_offset rh - dh) (r_offset rh - dh + 4) = le_store 4 hi /\
    window (out st) (r_offset rk - dk) (r_offset rk - dk + 4) = le_store 4 lo /\
    decode32 (xlen_of m) hi = Some (Auipc x (imm_u hi)) /\
    Z.land lo (if itype then IMASK else SMASK) = Z.land (u32 wk) (if itype then IMASK else SMASK) /\
    (xlen_of m = 32 \/ - 2 ^ 31 - 2 ^ 11 <= i64 (T - P) < 2 ^ 31 - 2 ^ 11 ->
      wx (xlen_of m) (P + imm_u hi + (if itype then imm_i lo else imm_s lo)) = wx (xlen_of m) T).
Proof.
  intros HRx HS Hb E1 E2 Hrels Happly Ha Hwrap h k rh rk dh dk wh wk symh symk S x i0 Hh Hk Hhi Hlo Hs HS' Hsk Hv I0 P T itype.
  pose proof (relaxed_of l base HRx E1 E2) as HR. destruct (read_window _ _ _ _ (ip_word _ _ _ _ _ _ _ Hh) Hb) as (Ho & Hlen & _).
  pose proof (ip_span _ _ _ _ _ _ _ Hh) as [_ Hw4].
  rewrite (fix_value_at l base h rh dh HRx HR HS (ip_at _ _ _ _ _ _ _ Hh) ltac:(lia) Ho ltac:(lia) (ip_delta _ _ _ _ _ _ _ Hh)) in Hv.
  destruct (pair_final m ctx0 syms0 undef_weak internal relax use_rvc contents isec0 u l base HR HS ctx opt syms got in_section isec st Hrels Hb Happly
    h k rh rk dh dk wh wk symh symk S Hh Hk Hhi Hlo Hs HS' Hsk Hv) as [Wh Wk]. fold P T itype in Wh, Wk.
  destruct (in_place_base m ctx0 syms0 undef_weak internal relax use_rvc contents isec0 u l base HR HS Hb h rh dh wh Hh) as [Oh _].
  pose proof (window_bound _ _ 4 _ Wh ltac:(lia) Oh) as Hbd.
  assert (EP : u64 P = P) by (apply u64_small; unfold P; lia). rewrite EP in Wh, Wk.
  rewrite write_utype_u32 in Wh. rewrite write_itype_u32, write_stype_u32 in Wk.
  eexists _, _. split; [exact Wh|]. split; [exact Wk|]. rewrite <- decode32_u32 in I0. split; [by destruct (auipc_written (xlen_of m) _ _ _ (T - P) I0) as [? _]|].
  split; [destruct itype; apply put32_other; apply (insn_masks (T - P))|]. intros Hr.
  assert (Eimm : (if itype then imm_i (if itype then write_itype (T - P) (u32 wk) else write_stype (T - P) (u32 wk))
      else imm_s (if itype then write_itype (T - P) (u32 wk) else write_stype (T - P) (u32 wk))) =
    (if itype then imm_i (write_itype (T - P) (u32 wk)) else imm_s (write_stype (T - P) (u32 wk)))) by (by destruct itype).
  rewrite Eimm. destruct Hr as [E32|Hr].
  - unfold wx. rewrite E32. by apply pair_wrap.
  - rewrite <- Z.add_assoc, pair_exact by done. apply wx_target.
Qed.
End CallTheorem.

(** *** The sample *)

Definition sample_apply (l : list Z) (base : bytes) : option apply_state :=
  apply_reloc_alloc RV64LE sample_ctx (mkOptions true true) (riscv_symbols 10) (new_got RV64LE 16384 sample_symbols) (fun _ => false) (fun _ => true)
    sample_text sample_code l base.

Definition memory_of (addr : Z) (code : bytes) : Z -> Z := fun a => if a <? addr then 0 else default 0 (code !! Z.to_nat (a - addr)).

Lemma memory_holds xlen addr code : 0 <= addr -> addr + zlen code <= 2 ^ xlen -> holds xlen (memory_of addr code) addr code.
Proof.
  intros Ha Hl i b Hi. apply lookup_lt_Some in Hi as Hlt. unfold zlen in Hl. unfold wx. rewrite wrap_small by (unfold is_u; lia). unfold memory_of.
  destruct (Z.ltb_spec (addr + Z.of_nat i) addr); [lia|]. replace (Z.to_nat (addr + Z.of_nat i - addr)) with i by lia. by rewrite Hi.
Qed.

Lemma sample_separate : separate sample_rels.
Proof.
  split.
  - intros [|[|[|[|[|k]]]]] r [= <-] Hs [|[|[|[|[|j]]]]] r' x Hjk [= <-] [= <-]; try done; vm_compute; intuition (try done; try lia).
  - intros r Hr. repeat (apply elem_of_cons in Hr as [->|Hr]; [by vm_compute|]). by apply elem_of_nil in Hr.
Qed.

Definition sample_deltas : list Z :=
  Eval vm_compute in default [] (shrink_section RV64LE sample_ctx (riscv_symbols 16) (fun _ => false) (fun _ => false) true true sample_text sample_code).
Definition sample_base : bytes := Eval vm_compute in default [] (copy_contents_riscv sample_text sample_rels sample_deltas).
Definition sample_final : apply_state := Eval vm_compute in default (mkApply [] [] []) (sample_apply sample_deltas sample_base).
Definition sample_machine : machine_state := mkState 4096 (fun _ => 0) (memory_of 4096 (out sample_final)).

Lemma relaxed_calls_reach_witness : exists n s',
  sample_apply sample_deltas sample_base = Some sample_final /\ run 64 false n sample_machine = Some s' /\ pc s' = 8208 /\ regs s' 1 = 4100.
Proof.
  destruct (relaxed_calls_reach RV64LE sample_ctx sample_ctx (riscv_symbols 16) (riscv_symbols 10) (fun _ => false) (fun _ => false)
    (fun _ => true) true true sample_text sample_code sample_code 2 (mkOptions true true) (new_got RV64LE 16384 sample_symbols)
    sample_deltas sample_base sample_final sample_relaxable sample_separate ltac:(decided) eq_refl eq_refl eq_refl eq_refl eq_refl ltac:(decided) ltac:(decided)
    false 0%nat (mkElfRel 0 R_RISCV_CALL 2 0) 0 4 (default (sample_symbol TAG_ABS 0 "STT_OBJECT" true 1) (sample_symbols !! 2)) 8208 0x297 0x280e7 5 1 0 0 sample_machine)
    as (n & s' & Hrun & Hc); try reflexivity.
  - by left.
  - done.
  - split; [|split]; vm_compute; intros; (discriminate || (split; done)).
  - by apply memory_holds.
  - exists n, s'. split; [reflexivity|]. split; [exact Hrun|]. split; [exact (cl_pc _ _ _ _ _ _ _ Hc)|exact (cl_link _ _ _ _ _ _ _ Hc ltac:(done))].
Defined.

Lemma sample_in_place k r d w : sample_rels !! k = Some r -> sample_deltas !! k = Some d -> span r = 0 /\ width r = 4 -> (3 <= k)%nat ->
  read_le 4 sample_text (r_offset r) = Some w -> in_place sample_text sample_code sample_deltas k r d w.
Proof.
  intros Hk Hd Hs Hge Hw. split; try done. intros j r' x Hjk Hr Hx.
  revert Hk Hr Hx. destruct k as [|[|[|[|[|k]]]]]; try lia; intros [= <-] [= <-]; destruct j as [|[|[|[|[|j]]]]]; intros [= <-]; vm_compute; intuition (try done; try lia).
Qed.

Lemma relative_addresses_witness : exists hi lo,
  window (out sample_final) 10 14 = le_store 4 hi /\ window (out sample_final) 14 18 = le_store 4 lo /\
  wx 64 (4106 + imm_u hi + imm_i lo) = 8208.
Proof.
  destruct (relative_addresses RV64LE sample_ctx sample_ctx (riscv_symbols 16) (riscv_symbols 10) (fun _ => false) (fun _ => false)
    (fun _ => true) true true sample_text sample_code sample_code 2 (mkOptions true true) (new_got RV64LE 16384 (riscv_symbols 10))
    sample_deltas sample_base sample_final sample_relaxable sample_separate ltac:(decided) eq_refl eq_refl eq_refl eq_refl ltac:(decided) ltac:(decided)
    3%nat 4%nat (mkElfRel 16 R_RISCV_PCREL_HI20 2 0) (mkElfRel 20 R_RISCV_PCREL_LO12_I 7 0) 6 6 0x797 0x78793
    (default (sample_symbol TAG_ABS 0 "STT_OBJECT" true 1) (sample_symbols !! 2)) (sample_symbol sample_isec 10 "STT_NOTYPE" false (-1)) 8208 15 0)
    as (hi & lo & H1 & H2 & _ & _ & H3); try reflexivity.
  1-2: apply sample_in_place; [reflexivity|reflexivity|by vm_compute|lia|reflexivity].
  exists hi, lo. split; [exact H1|]. split; [exact H2|]. etransitivity; [apply H3; right; vm_compute; split; done|reflexivity].
Defined.
