(* ===== verification/RiscvData.v ===== *)
(** * Sections of RISC-V that are not loaded, and .eh_frame (src/elf/arch-riscv.cc, and
    get_tombstone and get_fragment of src/elf/mold.h)

    Differences of labels are stored by several relocations at one place, because
    relaxation changes them. The theorem compares the code with a table of the psABI and
    with a relation that says which address or tombstone a relocation stands for. *)

From S2P Require Import Prelude Buffers Integers Bits Enums ElfConst ElfTypes Got InputSections Riscv RiscvReloc.
Local Open Scope list_scope.
Local Open Scope Z_scope.

(** ** Fragments and tombstones *)

(** A section that was split into fragments: where they begin, and their addresses in the
    output. *)
Record MergeableSection := mkMergeable { frag_offsets : list Z; frag_addrs : list Z }.

(** [std::upper_bound] *)
Fixpoint upper_bound (l : list Z) (val : Z) : nat :=
  match l with
  | [] => O
  | x :: l => if val <? x then O else S (upper_bound l val)
  end.

(** The fragment that an offset is in, and the offset in it. *)
Definition fragment_at (sec : MergeableSection) (offset : Z) : option (Z * Z) :=
  match upper_bound (frag_offsets sec) offset with
  | O => None
  | S idx => addr ← frag_addrs sec !! idx; start ← frag_offsets sec !! idx; Some (addr, offset - start)
  end.

Section Nonalloc.
Context (m : machine) (ctx : Context) (syms : gmap Z Symbol).
(** [record_undef_error]; the section and the value of a symbol that stands for a section
    with fragments. *)
Context (undef_error : ElfRel -> bool) (section_of : Z -> option (MergeableSection * Z)) (sec_name : bytes).

(** [None] of the inner option: there is no fragment. *)
Definition get_fragment (r : ElfRel) : option (option (Z * Z)) :=
  match section_of (r_sym r) with
  | None => Some None
  | Some (sec, st_value) => f ← fragment_at sec (st_value + r_addend r); Some (Some f)
  end.

Definition starts_with (s p : bytes) : bool := bool_decide (take (length p) s = p).

Definition get_tombstone (sym : Symbol) (frag : bool) : option Z :=
  if frag then None
  else match sym_origin sym with
       | TAG_ISEC (Some isec) =>
           if isec_alive isec then None
           else if negb (starts_with sec_name (bs ".debug")) then None
           else if bool_decide (is_Some (icf_leader isec)) && bool_decide (sec_name = bs ".debug_line") then None
           else Some (if bool_decide (sec_name = bs ".debug_loc") || bool_decide (sec_name = bs ".debug_ranges") then 1 else 0)
       | _ => None
       end.

(** ** The words

    What a relocation does to the bytes at its place; [None]: fatal error. *)
Definition nonalloc_update (t val : Z) (tombstone : option Z) : option (nat * (Z -> Z)) :=
  if t =? R_RISCV_32 then Some (4%nat, fun _ => val)
  else if t =? R_RISCV_64 then Some (8%nat, fun _ => default val tombstone)
  else if t =? R_RISCV_ADD8 then Some (1%nat, fun w => w + val)
  else if t =? R_RISCV_ADD16 then Some (2%nat, fun w => w + val)
  else if t =? R_RISCV_ADD32 then Some (4%nat, fun w => w + val)
  else if t =? R_RISCV_ADD64 then Some (8%nat, fun w => w + val)
  else if t =? R_RISCV_SUB8 then Some (1%nat, fun w => w - val)
  else if t =? R_RISCV_SUB16 then Some (2%nat, fun w => w - val)
  else if t =? R_RISCV_SUB32 then Some (4%nat, fun w => w - val)
  else if t =? R_RISCV_SUB64 then Some (8%nat, fun w => w - val)
  else if t =? R_RISCV_SUB6 then Some (1%nat, fun w => six w (w - val))
  else if t =? R_RISCV_SET6 then Some (1%nat, fun w => six w val)
  else if t =? R_RISCV_SET8 then Some (1%nat, fun _ => val)
  else if t =? R_RISCV_SET16 then Some (2%nat, fun _ => val)
  else if t =? R_RISCV_SET32 then Some (4%nat, fun _ => val)
  else None.

(** S + A *)
Definition nonalloc_value (r : ElfRel) (sym : Symbol) : option (Z * bool) :=
  f ← get_fragment r;
  match f with
  | Some (addr, addend) => Some (u64 (addr + addend), true)
  | None => S ← get_addr m ctx false false sym; Some (u64 (S + r_addend r), false)
  end.

Definition nonalloc_one (r : ElfRel) : option (option (nat * (Z -> Z))) :=
  if (rel_type r =? R_NONE) || undef_error r then Some None
  else
    sym ← syms !! r_sym r;
    '(val, frag) ← nonalloc_value r sym;
    u ← nonalloc_update (rel_type r) val (get_tombstone sym frag); Some (Some u).

Fixpoint nonalloc_loop (rels : list ElfRel) (buf : bytes) : option bytes :=
  match rels with
  | [] => Some buf
  | r :: rels =>
      u ← nonalloc_one r;
      buf ← match u with Some (n, f) => data m n f (r_offset r) buf | None => Some buf end;
      nonalloc_loop rels buf
  end.

Definition apply_reloc_nonalloc (rels : list ElfRel) (base : bytes) : option bytes := nonalloc_loop rels base.

(** [EhFrameSection::apply_reloc]; [val] is S + A. *)
Definition eh_update (t val pcrel : Z) : option (option (nat * (Z -> Z))) :=
  if t =? R_NONE then Some None
  else if t =? R_RISCV_ADD32 then Some (Some (4%nat, fun w => w + val))
  else if t =? R_RISCV_SUB8 then Some (Some (1%nat, fun w => w - val))
  else if t =? R_RISCV_SUB16 then Some (Some (2%nat, fun w => w - val))
  else if t =? R_RISCV_SUB32 then Some (Some (4%nat, fun w => w - val))
  else if t =? R_RISCV_SUB6 then Some (Some (1%nat, fun w => six w (w - val)))
  else if t =? R_RISCV_SET6 then Some (Some (1%nat, fun w => six w val))
  else if t =? R_RISCV_SET8 then Some (Some (1%nat, fun _ => val))
  else if t =? R_RISCV_SET16 then Some (Some (2%nat, fun _ => val))
  else if t =? R_RISCV_SET32 then Some (Some (4%nat, fun _ => val))
  else if t =? R_RISCV_32_PCREL then Some (Some (4%nat, fun _ => pcrel))
  else None.

Definition eh_apply_reloc (sh_addr : Z) (r : ElfRel) (offset val : Z) (buf : bytes) : option bytes :=
  u ← eh_update (rel_type r) val (u64 (val - sh_addr - offset));
  match u with Some (n, f) => data m n f offset buf | None => Some buf end.
End Nonalloc.

(** ** Words after all relocations *)

Section Words.
Context (m : machine) (ctx : Context) (syms : gmap Z Symbol).
Context (undef_error : ElfRel -> bool) (section_of : Z -> option (MergeableSection * Z)) (sec_name : bytes).

Abbreviation big := (big_endian m).

Definition data_word (n : nat) (buf : bytes) (p : Z) : Z := le_load (host big (window buf p (p + Z.of_nat n))).

Lemma data_word_store n f off buf buf' : data m n f off buf = Some buf' -> data_word n buf' off = wrap (8 * Z.of_nat n) (f (data_word n buf off)).
Proof.
  intros H%modify_poke%window_poke. unfold zlen in H. rewrite length_host, length_le_store in H. unfold data_word at 1. by rewrite H, host_host, le_load_store.
Qed.

Lemma data_word_keeps n k f off p buf buf' : data m n f off buf = Some buf' -> 0 <= p -> clear p (p + Z.of_nat k) off (Z.of_nat n) ->
  data_word k buf' p = data_word k buf p.
Proof. intros H Hp Hc. unfold data_word. destruct (modify_keeps p (p + Z.of_nat k) _ _ _ _ _ _ H Hp Hc) as [_ K]. by rewrite K. Qed.

Abbreviation update_of := (nonalloc_one m ctx syms undef_error section_of sec_name).

(** *** What the psABI says

    The relocations for data by their numbers in the psABI: bytes at the place, bits of the
    field, and how the field changes. *)
Inductive data_op := Set_ | Add | Sub.

Definition psabi_data : list (Z * (nat * Z * data_op)) :=
  [(1, (4%nat, 32, Set_)); (2, (8%nat, 64, Set_));
   (33, (1%nat, 8, Add)); (34, (2%nat, 16, Add)); (35, (4%nat, 32, Add)); (36, (8%nat, 64, Add));
   (37, (1%nat, 8, Sub)); (38, (2%nat, 16, Sub)); (39, (4%nat, 32, Sub)); (40, (8%nat, 64, Sub));
   (52, (1%nat, 6, Sub)); (53, (1%nat, 6, Set_)); (54, (1%nat, 8, Set_)); (55, (2%nat, 16, Set_)); (56, (4%nat, 32, Set_))].

Definition psabi_reloc (t : Z) : option (nat * Z * data_op) := snd <$> List.find (fun p => p.1 =? t) psabi_data.

Definition field_op (op : data_op) (old v : Z) : Z := match op with Set_ => v | Add => old + v | Sub => old - v end.

(** The low [w] bits change, the others stay. *)
Definition set_field (w : Z) (op : data_op) (v old : Z) : Z := old / 2 ^ w * 2 ^ w + field_op op old v mod 2 ^ w.

Definition ignored (r : ElfRel) : bool := (rel_type r =? 0) || undef_error r.

(** The address that a relocation refers to: in the output copy of the piece that contains
    the place, or relative to the symbol. *)
Inductive denotes (r : ElfRel) : Z -> Prop :=
| In_piece sec st_value i start addr :
    section_of (r_sym r) = Some (sec, st_value) -> frag_offsets sec !! i = Some start -> frag_addrs sec !! i = Some addr ->
    start <= st_value + r_addend r -> (forall next, frag_offsets sec !! S i = Some next -> st_value + r_addend r < next) ->
    denotes r (addr + (st_value + r_addend r - start))
| Of_symbol sym S :
    section_of (r_sym r) = None -> syms !! r_sym r = Some sym -> get_addr m ctx false false sym = Some S -> denotes r (S + r_addend r).

(** What debug information says of removed code: 0, or 1 where 0 ends a list; but line
    numbers of code that identical code folding removed are those of its leader. *)
Definition ends_at_zero : Prop := sec_name = bs ".debug_loc" \/ sec_name = bs ".debug_ranges".

Inductive tombstone (r : ElfRel) (v : Z) : Prop :=
| Removed sym isec rest :
    section_of (r_sym r) = None -> syms !! r_sym r = Some sym -> sym_origin sym = TAG_ISEC (Some isec) -> isec_alive isec = false ->
    sec_name = bs ".debug" ++ rest -> ~ (icf_leader isec <> None /\ sec_name = bs ".debug_line") ->
    (ends_at_zero /\ v = 1 \/ ~ ends_at_zero /\ v = 0) -> tombstone r v.

(** The value of a relocation; only those of eight bytes store tombstones. *)
Definition written (r : ElfRel) (v : Z) : Prop :=
  rel_type r = 2 /\ tombstone r v \/ (rel_type r = 2 -> forall t, ~ tombstone r t) /\ denotes r v.

(** The word at [p] before and after the relocations, one after the other. *)
Inductive evaluates (p : Z) : list ElfRel -> Z -> Z -> Prop :=
| Ev_nil x : evaluates p [] x x
| Ev_other r rels x y : ignored r = true \/ r_offset r <> p -> evaluates p rels x y -> evaluates p (r :: rels) x y
| Ev_apply r rels k w op v x y : ignored r = false -> r_offset r = p -> psabi_reloc (rel_type r) = Some (k, w, op) -> written r v ->
    evaluates p rels (set_field w op v x) y -> evaluates p (r :: rels) x y.

(** Every relocation is about the word at the place or about other bytes. *)
Definition word_place (n : nat) (p : Z) (rels : list ElfRel) : Prop :=
  forall r k w op, r ∈ rels -> ignored r = false -> psabi_reloc (rel_type r) = Some (k, w, op) ->
    r_offset r = p /\ k = n \/ clear p (p + Z.of_nat n) (r_offset r) (Z.of_nat k).

(** *** The code agrees *)

Lemma ignored_eq r : (rel_type r =? R_NONE) || undef_error r = ignored r.
Proof. done. Qed.

Lemma six_field x y : is_u 8 x -> wrap 8 (six x y) = x / 2 ^ 6 * 2 ^ 6 + y mod 2 ^ 6.
Proof.
  intros Hx. unfold six. change 0x3f with (Z.ones 6). rewrite Z.land_ones by lia.
  assert (E : Z.land x 0xc0 = x / 2 ^ 6 * 2 ^ 6).
  { apply Z.bits_inj'. intros i Hi. rewrite <- Z.shiftr_div_pow2, <- Z.shiftl_mul_pow2 by lia. rewrite Z.land_spec. change 0xc0 with (Z.shiftl 3 6).
    rewrite !Z.shiftl_spec by lia. destruct (Z.ltb_spec i 6); [rewrite (Z.testbit_neg_r 3), (Z.testbit_neg_r (Z.shiftr x 6)) by lia; apply andb_false_r|]. rewrite Z.shiftr_spec by lia. replace (i - 6 + 6) with i by lia.
    destruct (Z.ltb_spec i 8) as [H8|H8].
    - assert (Hc : i = 6 \/ i = 7) by lia. destruct Hc as [-> | ->]; apply andb_true_r.
    - by rewrite (is_u_testbit 8 x i) by (done || lia). }
  rewrite E. pose proof (Z.mod_pos_bound y (2 ^ 6) ltac:(lia)). rewrite lor_low by (unfold is_u; lia). apply wrap_small. unfold is_u in *.
  pose proof (Z.div_mod x (2 ^ 6) ltac:(lia)). pose proof (Z.div_lt_upper_bound x (2 ^ 6) 4 ltac:(lia) ltac:(lia)). pose proof (Z.div_pos x (2 ^ 6) ltac:(lia) ltac:(lia)). lia.
Qed.

Lemma whole_field w op v x : is_u w x -> 0 <= w -> wrap w (field_op op x v) = set_field w op v x.
Proof. intros Hx Hw. unfold set_field, wrap, is_u in *. rewrite Z.div_small by lia. lia. Qed.

Lemma field_op_wrap w op v v' x : 0 <= w -> wrap w v = wrap w v' -> set_field w op v x = set_field w op v' x.
Proof.
  unfold wrap. intros Hw E. unfold set_field. f_equal. destruct op; cbn [field_op]; [done|by rewrite <- Zplus_mod_idemp_r, E, Zplus_mod_idemp_r|by rewrite <- Zminus_mod_idemp_r, E, Zminus_mod_idemp_r].
Qed.

Lemma psabi_cases t k w op : psabi_reloc t = Some (k, w, op) -> (t, (k, w, op)) ∈ psabi_data.
Proof.
  unfold psabi_reloc. destruct (List.find _ _) as [[t' q]|] eqn:E; [|done]. apply List.find_some in E as [Hin Ht]. cbn [fst] in Ht. apply Z.eqb_eq in Ht as ->.
  cbn. intros [= ->]. by apply list_elem_of_In.
Qed.

(** Every case of the [switch] is the one of the psABI. *)
Lemma update_psabi t k w op val tomb : psabi_reloc t = Some (k, w, op) ->
  exists f, nonalloc_update t val tomb = Some (k, f) /\ (0 < k)%nat /\ 0 <= w <= 64 /\
    forall x, is_u (8 * Z.of_nat k) x -> wrap (8 * Z.of_nat k) (f x) = set_field w op (if t =? 2 then default val tomb else val) x.
Proof.
  intros H%psabi_cases. unfold psabi_data in H.
  repeat (apply elem_of_cons in H as [[= -> -> -> ->]|H]; [eexists; split; [reflexivity|]; split; [lia|]; split; [lia|]; intros x Hx; first [exact (whole_field _ Set_ _ x Hx ltac:(lia))|exact (whole_field _ Add _ x Hx ltac:(lia))|exact (whole_field _ Sub _ x Hx ltac:(lia))|by apply six_field]|]).
  by apply elem_of_nil in H.
Qed.

Lemma update_none t val tomb : psabi_reloc t = None -> nonalloc_update t val tomb = None.
Proof.
  unfold psabi_reloc, psabi_data. cbn [List.find fst]. rewrite !(Z.eqb_sym _ t). intros H. unfold nonalloc_update.
  change R_RISCV_32 with 1. change R_RISCV_64 with 2. change R_RISCV_ADD8 with 33. change R_RISCV_ADD16 with 34. change R_RISCV_ADD32 with 35. change R_RISCV_ADD64 with 36.
  change R_RISCV_SUB8 with 37. change R_RISCV_SUB16 with 38. change R_RISCV_SUB32 with 39. change R_RISCV_SUB64 with 40. change R_RISCV_SUB6 with 52. change R_RISCV_SET6 with 53.
  change R_RISCV_SET8 with 54. change R_RISCV_SET16 with 55. change R_RISCV_SET32 with 56. repeat (destruct (t =? _); [done|]). done.
Qed.

Definition sorted_pieces : Prop := forall i sec st_value, section_of i = Some (sec, st_value) -> StronglySorted Z.lt (frag_offsets sec).

Lemma piece_upper_bound offs v : forall i start, StronglySorted Z.lt offs -> offs !! i = Some start -> start <= v -> (forall next, offs !! S i = Some next -> v < next) -> upper_bound offs v = S i.
Proof.
  induction offs as [|x offs IH]; intros i start Hs Hi Hle Hn; [done|]. apply StronglySorted_inv in Hs as [Hs Hx]. cbn [upper_bound]. destruct i as [|i].
  - injection Hi as ->. destruct (Z.ltb_spec v start); [lia|]. f_equal. destruct offs as [|y offs]; [done|]. cbn. specialize (Hn y eq_refl). by destruct (Z.ltb_spec v y); [|lia].
  - cbn in Hi. assert (x < start) by (rewrite Forall_forall in Hx; apply Hx; by apply list_elem_of_lookup_2 in Hi). destruct (Z.ltb_spec v x); [lia|]. f_equal. by apply (IH i start).
Qed.

Lemma denotes_value r v sym : sorted_pieces -> syms !! r_sym r = Some sym -> denotes r v ->
  nonalloc_value m ctx section_of r sym = Some (u64 v, bool_decide (is_Some (section_of (r_sym r)))).
Proof.
  intros Hso Hsym. unfold nonalloc_value, get_fragment. destruct 1 as [sec st_value i start addr Hsec Hst Had Hle Hn|sym' S Hsec Hsym' HS].
  - rewrite Hsec. cbn [mbind option_bind]. unfold fragment_at. rewrite (piece_upper_bound _ _ i start) by (done || by eapply Hso). rewrite Had. cbn [mbind option_bind]. by rewrite Hst.
  - rewrite Hsym in Hsym'. injection Hsym' as <-. rewrite Hsec. cbn [mbind option_bind]. by rewrite HS.
Qed.

Lemma section_name_prefix s p : starts_with s p = true <-> exists rest, s = p ++ rest.
Proof.
  unfold starts_with. rewrite bool_decide_eq_true. split; [intros E; exists (drop (length p) s); rewrite <- E at 1; by rewrite take_drop|]. intros [rest ->]. apply take_app_length.
Qed.

Lemma tombstone_spec r sym v : section_of (r_sym r) = None -> syms !! r_sym r = Some sym -> get_tombstone sec_name sym false = Some v <-> tombstone r v.
Proof.
  intros Hsec Hsym. unfold get_tombstone. split.
  - intros E. destruct (sym_origin sym) as [|[isec|]| |] eqn:Eo; try done. destruct (isec_alive isec) eqn:Ea; [done|].
    destruct (starts_with sec_name (bs ".debug")) eqn:Ed; [|done]. cbn [negb] in E. apply section_name_prefix in Ed as [rest Ed].
    destruct (bool_decide (is_Some (icf_leader isec)) && bool_decide (sec_name = bs ".debug_line")) eqn:El; [done|]. injection E as <-.
    apply (Removed r _ sym isec rest); [done|done|done|done|done| |].
    + intros [H1 H2]. apply andb_false_iff in El as [El|El]; [|by rewrite bool_decide_true in El]. rewrite bool_decide_true in El; [done|]. by apply not_eq_None_Some.
    + destruct (_ || _) eqn:Ez; [left|right]; (split; [|done]); unfold ends_at_zero.
      * apply orb_true_iff in Ez as [H%bool_decide_eq_true|H%bool_decide_eq_true]; [by left|by right].
      * apply orb_false_iff in Ez as [H1%bool_decide_eq_false H2%bool_decide_eq_false]. by intros [?|?].
  - destruct 1 as [sym' isec rest _ Hsym' Ho Ha Hd Hl Hv]. rewrite Hsym in Hsym'. injection Hsym' as <-. rewrite Ho, Ha.
    rewrite (proj2 (section_name_prefix sec_name (bs ".debug")) (ex_intro _ rest Hd)). cbn [negb].
    assert (bool_decide (is_Some (icf_leader isec)) && bool_decide (sec_name = bs ".debug_line") = false) as ->.
    { apply andb_false_iff. destruct (decide (sec_name = bs ".debug_line")) as [E|E]; [left|right; by apply bool_decide_eq_false]. apply bool_decide_eq_false. intros H. apply Hl. split; [by apply not_eq_None_Some|done]. }
    destruct Hv as [[[E|E] ->]|[Hn ->]]; [by rewrite (bool_decide_true (sec_name = _))|by rewrite (bool_decide_true (sec_name = bs ".debug_ranges")), orb_true_r|].
    unfold ends_at_zero in Hn. rewrite !bool_decide_false; [done|tauto|tauto].
Qed.

Lemma tombstone_piece r v : tombstone r v -> section_of (r_sym r) = None.
Proof. by destruct 1. Qed.

(** A tombstone is stored for a symbol whose address is computed all the same. *)
Lemma written_some r sym v : syms !! r_sym r = Some sym -> denotes r v -> exists v', written r v'.
Proof.
  intros Hsym Hv. destruct (decide (rel_type r = 2)) as [Et|Et]; [|exists v; right; by split]. destruct (section_of (r_sym r)) as [q|] eqn:Es.
  - exists v. right. split; [|done]. intros _ t Ht%tombstone_piece. congruence.
  - destruct (get_tombstone sec_name sym false) as [t|] eqn:Eg; [exists t; left; split; [done|]; by apply (tombstone_spec r sym)|].
    exists v. right. split; [|done]. intros _ t Ht. apply (tombstone_spec r sym) in Ht; [congruence|done|done].
Qed.

(** What a supported relocation does is what the psABI says. *)
Lemma one_psabi r sym v0 k w op : sorted_pieces -> ignored r = false -> syms !! r_sym r = Some sym -> denotes r v0 -> psabi_reloc (rel_type r) = Some (k, w, op) ->
  exists f, update_of r = Some (Some (k, f)) /\ (0 < k)%nat /\
    forall v x, written r v -> is_u (8 * Z.of_nat k) x -> wrap (8 * Z.of_nat k) (f x) = set_field w op v x.
Proof.
  intros Hso Hi Hsym Hv0 Hp. unfold nonalloc_one. rewrite ignored_eq, Hi, Hsym. cbn [mbind option_bind]. rewrite (denotes_value r v0 sym) by done. cbn [mbind option_bind].
  set (frag := bool_decide _). destruct (update_psabi (rel_type r) k w op (u64 v0) (get_tombstone sec_name sym frag) Hp) as (f & -> & Hk & Hw & Hf). cbn [mbind option_bind].
  exists f. split; [done|]. split; [done|]. intros v x Hv Hx. rewrite Hf by done. apply field_op_wrap; [lia|]. destruct Hv as [[Et Ht]|[Hn Hv]].
  - rewrite Et, Z.eqb_refl. pose proof (tombstone_piece _ _ Ht) as Es. unfold frag. rewrite bool_decide_false by (rewrite Es; by intros [? ?]).
    apply (tombstone_spec r sym v Es Hsym) in Ht. by rewrite Ht.
  - assert (E : u64 v = u64 v0) by (pose proof (denotes_value r v sym Hso Hsym Hv) as E; rewrite (denotes_value r v0 sym Hso Hsym Hv0) in E; by injection E).
    assert (Ew : wrap w (u64 v0) = wrap w v) by (rewrite <- E; unfold u64; by rewrite wrap_wrap by lia). destruct (Z.eqb_spec (rel_type r) 2) as [Et|Et]; [|done].
    destruct (get_tombstone sec_name sym frag) as [t|] eqn:Eg; [|done]. exfalso. destruct (section_of (r_sym r)) as [q|] eqn:Es.
    + unfold frag in Eg. rewrite bool_decide_true in Eg by (by eexists). done.
    + unfold frag in Eg. rewrite bool_decide_false in Eg by (by intros [? ?]). apply (Hn Et t). by apply (tombstone_spec r sym).
Qed.

(** Relocations that the code supports, at places in the section. *)
Record reloc_ok (size : Z) (r : ElfRel) : Prop := {
  rk_symbol : is_Some (syms !! r_sym r);
  rk_address : exists v, denotes r v;
  rk_place : exists k w op, psabi_reloc (rel_type r) = Some (k, w, op) /\ 0 <= r_offset r /\ r_offset r + Z.of_nat k <= size }.

Definition relocs_ok (size : Z) (rels : list ElfRel) : Prop := forall r, r ∈ rels -> ignored r = false -> reloc_ok size r.

Lemma update_ignored r : ignored r = true -> update_of r = Some None.
Proof. intros H. unfold nonalloc_one. by rewrite ignored_eq, H. Qed.

Lemma data_word_range n buf p : all_bytes buf -> is_u (8 * Z.of_nat n) (data_word n buf p).
Proof.
  intros H. unfold data_word. set (l := host big (window buf p (p + Z.of_nat n))).
  assert (Hb : all_bytes (window buf p (p + Z.of_nat n))) by (unfold window; by apply Forall_take, Forall_drop).
  assert (Hl : all_bytes l) by (unfold l, host; destruct big; [by apply reverse_bytes|done]).
  apply (is_u_mono (8 * Z.of_nat (length l))); [|by apply le_load_range]. unfold l. rewrite length_host. unfold window. rewrite length_take. lia.
Qed.

Lemma clear_other n k p off : (0 < n)%nat -> (0 < k)%nat -> clear p (p + Z.of_nat n) off (Z.of_nat k) -> off <> p.
Proof. unfold clear. lia. Qed.

Lemma evaluates_other p r rels x y : ignored r = true \/ r_offset r <> p -> evaluates p (r :: rels) x y <-> evaluates p rels x y.
Proof. intros H. split; [inversion_clear 1; [done|destruct H; congruence]|by apply Ev_other]. Qed.

Lemma loop_evaluates n p size rels : (0 < n)%nat -> 0 <= p -> sorted_pieces -> forall base buf, relocs_ok size rels -> word_place n p rels -> is_u (8 * Z.of_nat n) (data_word n base p) ->
  nonalloc_loop m ctx syms undef_error section_of sec_name rels base = Some buf -> forall y, evaluates p rels (data_word n base p) y <-> data_word n buf p = y.
Proof.
  intros Hn Hp Hso. induction rels as [|r rels IH]; intros base buf Hok Hw Hx H y.
  { injection H as ->. split; [by inversion_clear 1|]. intros <-. constructor. }
  cbn [nonalloc_loop] in H. apply bind_Some in H as (u & Hu & H). apply bind_Some in H as (b & Hb & H).
  assert (Hok' : relocs_ok size rels) by (intros q Hq; apply Hok; by right). assert (Hw' : word_place n p rels) by (intros q k w op Hq; apply (Hw q k w op); by right).
  destruct (ignored r) eqn:Ei.
  { rewrite update_ignored in Hu by done. injection Hu as <-. injection Hb as <-. rewrite evaluates_other by (by left). by apply IH. }
  destruct (Hok r ltac:(left) Ei) as [[sym Hsym] [v0 Hv0] (k & w & op & Hk & _)]. destruct (one_psabi r sym v0 k w op Hso Ei Hsym Hv0 Hk) as (f & Ef & Hk0 & Hf).
  rewrite Ef in Hu. injection Hu as <-. destruct (Hw r k w op ltac:(left) Ei Hk) as [[Ep ->]|Hc].
  - rewrite Ep in Hb. pose proof (data_word_store _ _ _ _ _ Hb) as Eb. assert (Hx' : is_u (8 * Z.of_nat n) (data_word n b p)) by (rewrite Eb; apply wrap_range; lia).
    rewrite <- (IH b buf Hok' Hw' Hx' H y). split.
    + inversion_clear 1 as [|? ? ? ? Ho He|? ? k' w' op' v ? ? _ _ Hk' Hv He]; [destruct Ho; congruence|]. rewrite Hk in Hk'. injection Hk' as <- <- <-. by rewrite Eb, (Hf v).
    + intros He. destruct (written_some r sym v0 Hsym Hv0) as [v Hv]. apply (Ev_apply p r rels n w op v); [done|done|done|done|]. by rewrite <- (Hf v), <- Eb.
  - pose proof (clear_other n k p (r_offset r) Hn Hk0 Hc) as Hne. rewrite evaluates_other by (by right). rewrite <- (data_word_keeps _ _ _ _ _ _ _ Hb Hp Hc) in *. by apply (IH b).
Qed.

Lemma nonalloc_returns rels : forall base, sorted_pieces -> relocs_ok (zlen base) rels ->
  exists buf, nonalloc_loop m ctx syms undef_error section_of sec_name rels base = Some buf /\ zlen buf = zlen base.
Proof.
  induction rels as [|r rels IH]; intros base Hso Hok; [by exists base|]. cbn [nonalloc_loop].
  assert (Hok' : relocs_ok (zlen base) rels) by (intros q Hq; apply Hok; by right). destruct (ignored r) eqn:Ei; [rewrite update_ignored by done; cbn [mbind option_bind]; by apply IH|].
  destruct (Hok r ltac:(left) Ei) as [[sym Hsym] [v0 Hv0] (k & w & op & Hk & H1 & H2)]. destruct (one_psabi r sym v0 k w op Hso Ei Hsym Hv0 Hk) as (f & -> & _ & _). cbn [mbind option_bind].
  assert (exists b, data m k f (r_offset r) base = Some b /\ zlen b = zlen base) as (b & -> & Hl) by (by apply modify_some). cbn [mbind option_bind]. rewrite <- Hl in *. destruct (IH b Hso Hok') as (buf & -> & E). exists buf. split; [done|]. lia.
Qed.

Lemma loop_fatal r rels : r ∈ rels -> ignored r = false -> psabi_reloc (rel_type r) = None -> forall base, nonalloc_loop m ctx syms undef_error section_of sec_name rels base = None.
Proof.
  intros Hin Hi Hp. induction rels as [|q rels IH]; intros base; [by apply elem_of_nil in Hin|]. cbn [nonalloc_loop]. apply elem_of_cons in Hin as [<-|Hin].
  - assert (E : update_of r = None); [|by rewrite E]. unfold nonalloc_one. rewrite ignored_eq, Hi. destruct (syms !! r_sym r) as [sym|]; [|done]. cbn [mbind option_bind].
    destruct (nonalloc_value m ctx section_of r sym) as [[val frag]|]; [|done]. cbn [mbind option_bind]. by rewrite update_none.
  - destruct (update_of q) as [u|]; [|done]. cbn [mbind option_bind]. destruct (match u with Some (n, f) => _ | None => _ end) as [b|]; [|done]. cbn [mbind option_bind]. by apply IH.
Qed.

Lemma evaluates_two p r1 r2 k w op1 op2 v1 v2 x : ignored r1 = false -> ignored r2 = false -> r_offset r1 = p -> r_offset r2 = p ->
  psabi_reloc (rel_type r1) = Some (k, w, op1) -> psabi_reloc (rel_type r2) = Some (k, w, op2) -> written r1 v1 -> written r2 v2 ->
  evaluates p [r1; r2] x (set_field w op2 v2 (set_field w op1 v1 x)).
Proof. intros. apply (Ev_apply p r1 [r2] k w op1 v1); [done..|]. apply (Ev_apply p r2 [] k w op2 v2); [done..|]. constructor. Qed.

Lemma field_difference w op v1 v2 x : 0 <= w -> set_field w Sub v2 (set_field w op v1 x) = x / 2 ^ w * 2 ^ w + (field_op op x v1 - v2) mod 2 ^ w.
Proof.
  intros Hw. pose proof (Z.pow_pos_nonneg 2 w ltac:(lia) Hw) as H2. unfold set_field at 1. cbn [field_op]. unfold set_field.
  pose proof (Z.mod_pos_bound (field_op op x v1) (2 ^ w) H2). rewrite Z.div_add_l, (Z.div_small (_ mod _)), Z.add_0_r by lia. f_equal.
  rewrite <- (Zminus_mod_idemp_l (field_op op x v1)). replace (x / 2 ^ w * 2 ^ w + field_op op x v1 mod 2 ^ w - v2) with (field_op op x v1 mod 2 ^ w - v2 + x / 2 ^ w * 2 ^ w) by lia.
  apply Z_mod_plus_full.
Qed.

Lemma psabi_sizes t k w op : psabi_reloc t = Some (k, w, op) -> (0 < k)%nat /\ 0 <= w.
Proof. intros H. destruct (update_psabi t k w op 0 None H) as (_ & _ & Hk & Hw & _). lia. Qed.

(** C40: relocating a section that is not loaded does what the RISC-V psABI says. It returns
    when every relocation is one for data, its symbol has an address and its place is in
    the section; a relocation of another type is a fatal error. After it every word is the
    result of the relocations at its place in their order: each sets its field to, or adds
    to or subtracts from it, modulo its width and keeping the other bits, the address of
    its symbol plus the addend (the copy of the piece of a string section that contains
    the place) or, for an eight-byte reference from debug information to removed code, the
    tombstone. So two relocations with opposite signs leave the difference of two labels. *)
Theorem nonalloc_words (rels : list ElfRel) (base : bytes) :
  all_bytes base -> sorted_pieces ->
  (forall r, r ∈ rels -> ignored r = false -> psabi_reloc (rel_type r) = None -> apply_reloc_nonalloc m ctx syms undef_error section_of sec_name rels base = None) /\
  (relocs_ok (zlen base) rels ->
   exists buf, apply_reloc_nonalloc m ctx syms undef_error section_of sec_name rels base = Some buf /\ zlen buf = zlen base /\
    (forall p n, (0 < n)%nat -> 0 <= p -> word_place n p rels -> forall y, evaluates p rels (data_word n base p) y <-> data_word n buf p = y) /\
    (forall r1 r2 k w op v1 v2, rels = [r1; r2] -> ignored r1 = false -> ignored r2 = false -> r_offset r2 = r_offset r1 ->
      psabi_reloc (rel_type r1) = Some (k, w, op) -> psabi_reloc (rel_type r2) = Some (k, w, Sub) -> written r1 v1 -> written r2 v2 ->
      data_word k buf (r_offset r1) = data_word k base (r_offset r1) / 2 ^ w * 2 ^ w + (field_op op (data_word k base (r_offset r1)) v1 - v2) mod 2 ^ w)).
Proof.
  intros Hb Hso. split; [intros r Hin Hi Hp; by apply (loop_fatal r)|]. intros Hok. destruct (nonalloc_returns rels base Hso Hok) as (buf & E & Hl). exists buf. split; [done|]. split; [done|].
  assert (Hev : forall p n, (0 < n)%nat -> 0 <= p -> word_place n p rels -> forall y, evaluates p rels (data_word n base p) y <-> data_word n buf p = y).
  { intros p n Hn Hp Hw. apply (loop_evaluates n p (zlen base)); [done|done|done|done|done|by apply data_word_range|done]. }
  split; [exact Hev|]. intros r1 r2 k w op v1 v2 -> I1 I2 Ho P1 P2 W1 W2. destruct (psabi_sizes _ _ _ _ P1) as [Hk Hw]. rewrite <- field_difference with (v2 := v2) by done.
  destruct (Hok r1 ltac:(left) I1) as [_ _ (k' & w' & op' & _ & Hp & _)]. apply Hev; [done|done| |by apply (evaluates_two _ r1 r2 k w op Sub)].
  intros q k1 w1 op1 Hq _ Hq'. left. apply elem_of_cons in Hq as [->|Hq]; [|apply list_elem_of_singleton in Hq as ->]; (split; [done|congruence]).
Qed.
End Words.

(** *** A sample: the size of a function as the difference of two labels, and the address of
    a function that was removed, in .debug_ranges; a reference into a string section *)

Definition data_symbols : gmap Z Symbol :=
  list_to_map [(1, sample_symbol TAG_ABS 0x2040 "STT_NOTYPE" false (-1)); (2, sample_symbol TAG_ABS 0x2004 "STT_NOTYPE" false (-1));
    (3, sample_symbol TAG_ABS 0 "STT_SECTION" false (-1)); (4, sample_symbol (TAG_ISEC (Some (mkInputSection false None (bs ".text.f") 0))) 0 "STT_FUNC" false (-1))].
Definition data_rels : list ElfRel := [mkElfRel 4 R_RISCV_ADD32 1 0; mkElfRel 4 R_RISCV_SUB32 2 0; mkElfRel 8 R_RISCV_64 4 16; mkElfRel 0 R_RISCV_32 3 5].
Definition data_strings : MergeableSection := mkMergeable [0; 6] [0x5000; 0x4000].
Definition data_section_of (i : Z) : option (MergeableSection * Z) := if i =? 3 then Some (data_strings, 4) else None.

Abbreviation sample_denotes := (denotes RV64LE sample_ctx data_symbols data_section_of).

Lemma data_section_sorted : sorted_pieces data_section_of.
Proof. intros i sec st. unfold data_section_of. destruct (i =? 3); [|done]. intros [= <- <-]. by repeat constructor. Qed.

Lemma data_denotes : sample_denotes (mkElfRel 4 R_RISCV_ADD32 1 0) (0x2040 + 0) /\ sample_denotes (mkElfRel 4 R_RISCV_SUB32 2 0) (0x2004 + 0) /\
  sample_denotes (mkElfRel 8 R_RISCV_64 4 16) (0 + 16) /\ sample_denotes (mkElfRel 0 R_RISCV_32 3 5) (0x4000 + (4 + 5 - 6)).
Proof.
  split; [|split; [|split]].
  - by eapply Of_symbol.
  - by eapply Of_symbol.
  - by eapply Of_symbol.
  - by apply (In_piece RV64LE sample_ctx data_symbols data_section_of (mkElfRel 0 R_RISCV_32 3 5) data_strings 4 1 6 0x4000).
Qed.

Lemma data_rels_ok : relocs_ok RV64LE sample_ctx data_symbols (fun _ => false) data_section_of 16 data_rels.
Proof.
  destruct data_denotes as (D1 & D2 & D3 & D4). intros r Hr _. unfold data_rels in Hr.
  repeat (apply elem_of_cons in Hr as [->|Hr]; [split; [by eexists|by eexists|by eexists _, _, _]|]). by apply elem_of_nil in Hr.
Qed.

Lemma nonalloc_words_witness : exists buf,
  apply_reloc_nonalloc RV64LE sample_ctx data_symbols (fun _ => false) data_section_of (bs ".debug_ranges") data_rels (repeat 0 16) = Some buf /\
  data_word RV64LE 4 buf 4 = 0x3c /\ data_word RV64LE 8 buf 8 = 1 /\ data_word RV64LE 4 buf 0 = 0x4003.
Proof.
  destruct (nonalloc_words RV64LE sample_ctx data_symbols (fun _ => false) data_section_of (bs ".debug_ranges") data_rels (repeat 0 16)) as [_ H];
    [by repeat constructor|apply data_section_sorted|].
  destruct (H data_rels_ok) as (buf & E & _ & Hw & _). exists buf. split; [exact E|]. destruct data_denotes as (D1 & D2 & D3 & D4).
  assert (Hp : forall n p, (p = 0 /\ n = 4%nat) \/ (p = 4 /\ n = 4%nat) \/ (p = 8 /\ n = 8%nat) -> word_place (fun _ => false) n p data_rels).
  { intros n p Hnp r k w op Hr _. unfold data_rels in Hr. repeat (apply elem_of_cons in Hr as [->|Hr]; [intros [= <- <- <-]; unfold clear; cbn [r_offset]; lia|]). by apply elem_of_nil in Hr. }
  split; [|split]; apply Hw; try lia; try (apply Hp; lia).
  - eapply Ev_apply; [done|done|done|right; split; [done|exact D1]|]. eapply Ev_apply; [done|done|done|right; split; [done|exact D2]|]. apply Ev_other; [by right|]. apply Ev_other; [by right|]. constructor.
  - apply Ev_other; [by right|]. apply Ev_other; [by right|].
    eapply (Ev_apply _ _ _ _ _ _ _ _ _ 8 64 Set_ 1); [done|done|done|left; split; [done|]|apply Ev_other; [by right|]; constructor].
    eapply (Removed _ _ _ _ 1 _ _ (bs "_ranges")); [done|done|done|done|by vm_compute|by intros [? _]|left; split; [by right|done]].
  - do 3 (apply Ev_other; [by right|]). eapply Ev_apply; [done|done|done|right; split; [done|exact D4]|]. constructor.
Defined.
