(* ===== verification/Plt.v ===== *)
(** * Procedure linkage tables (PltSection, PltGotSection, GotPltSection and RelPltSection
    of src/elf/output-chunks.cc, scan_relocations of src/elf/passes.cc)

    What the code of a table does depends on the architecture, which [PltCode] stands for. *)

From S2P Require Import Prelude Buffers Enums ElfConst ElfTypes Got InputSections Riscv RiscvReloc.
Local Open Scope list_scope.
Local Open Scope Z_scope.

(** ** Allocation *)

Record PltSections := mkPlt { plt_syms : list Z; pltgot_syms : list Z; plt_symtab : gmap Z Symbol; plt_dynsym : list Z }.

Definition set_plt_idx (i : Z) (a : SymbolAux) : SymbolAux :=
  mkAux (got_idx a) (gottp_idx a) (tlsgd_idx a) (tlsdesc_idx a) i (pltgot_idx a) (opd_idx a) (dynsym_idx a).
Definition set_pltgot_idx (i : Z) (a : SymbolAux) : SymbolAux :=
  mkAux (got_idx a) (gottp_idx a) (tlsgd_idx a) (tlsdesc_idx a) (plt_idx a) i (opd_idx a) (dynsym_idx a).

Definition has_got (sym : Symbol) : bool := negb (got_idx (aux sym) =? -1).

(** [None]: an assertion fails. *)
Definition plt_add_symbol (s : Z) (st : PltSections) : option PltSections :=
  sym ← plt_symtab st !! s;
  if has_plt sym then None
  else Some (mkPlt (plt_syms st ++ [s]) (pltgot_syms st) (set_aux (set_plt_idx (zlen (plt_syms st))) s (plt_symtab st)) (plt_dynsym st ++ [s])).

Definition pltgot_add_symbol (s : Z) (st : PltSections) : option PltSections :=
  sym ← plt_symtab st !! s;
  if has_plt sym || negb (has_got sym) then None
  else Some (mkPlt (plt_syms st) (pltgot_syms st ++ [s]) (set_aux (set_pltgot_idx (zlen (pltgot_syms st))) s (plt_symtab st)) (plt_dynsym st)).

(** The part of the loop of [scan_relocations] that is about these tables. *)
Definition add_plt_symbol (st : PltSections) (p : Z * Z) : option PltSections :=
  let '(s, flags) := p in
  if needs flags NEEDS_CPLT then plt_add_symbol s st
  else if needs flags NEEDS_PLT then if needs flags NEEDS_GOT then pltgot_add_symbol s st else plt_add_symbol s st
  else Some st.

Fixpoint add_plt_symbols (syms : list (Z * Z)) (st : PltSections) : option PltSections :=
  match syms with
  | [] => Some st
  | p :: syms => add_plt_symbol st p ≫= add_plt_symbols syms
  end.

(** ** Sizes and contents *)

Section Plt.
Context (m : machine) (ctx : Context) (gotplt_addr : Z).

Definition HDR_SIZE : Z := (if bool_decide (m = PPC64V2) then 2 else 3) * word_size m.
Definition ENTRY_SIZE : Z := (if bool_decide (m = PPC64V1) then 3 else 1) * word_size m.

Definition get_gotplt_addr (sym : Symbol) : Z := u64 (gotplt_addr + HDR_SIZE + plt_idx (aux sym) * ENTRY_SIZE).

Definition gotplt_size (st : PltSections) : Z := HDR_SIZE + zlen (plt_syms st) * ENTRY_SIZE.
Definition plt_section_size (st : PltSections) : Z :=
  match plt_syms st with [] => 0 | _ => to_plt_offset m (zlen (plt_syms st)) end.
Definition pltgot_section_size (st : PltSections) : Z := zlen (pltgot_syms st) * pltgot_size (target_of m).
Definition relplt_count (st : PltSections) : Z := zlen (plt_syms st).

(** [buf[i + 3] = ctx.plt->shdr.sh_addr] *)
Fixpoint gotplt_entries (n : nat) (i : Z) (buf : list Z) : option (list Z) :=
  match n with
  | O => Some buf
  | S n => store m buf (i + 3) (plt_addr ctx) ≫= gotplt_entries n (i + 1)
  end.

(** The words of .got.plt; the loader fills it on PPC64. *)
Definition gotplt_copy_buf (st : PltSections) (buf : list Z) : option (list Z) :=
  if bool_decide (m ∈ [PPC64V1; PPC64V2]) then Some buf
  else
    buf ← store m buf 0 (default 0 (dynamic_addr ctx)); buf ← store m buf 1 0; buf ← store m buf 2 0;
    gotplt_entries (length (plt_syms st)) 0 buf.

Definition relplt_rel (st : PltSections) (s : Z) : option ElfRel :=
  sym ← plt_symtab st !! s;
  let addr := if bool_decide (m = SPARC64) then get_plt_addr m ctx sym else get_gotplt_addr sym in
  Some (new_rel m addr (R_JUMP_SLOT (target_of m)) (dynsym_idx (aux sym)) 0).

Definition relplt_copy_buf (st : PltSections) : option (list ElfRel) := mapM (relplt_rel st) (plt_syms st).
End Plt.

(** ** The code *)

(** What an architecture provides: functions that write the header and the entries at a
    place of a buffer, given the addresses of .got.plt and .plt or those of a slot and of
    an entry. They write the same bytes whatever was there. *)
Class PltCode (m : machine) := {
  write_plt_header : Z -> Z -> Z -> bytes -> option bytes;
  write_plt_entry : Z -> Z -> Z -> bytes -> option bytes;
  write_pltgot_entry : Z -> Z -> Z -> bytes -> option bytes;
  header_code : Z -> Z -> bytes;
  entry_code : Z -> Z -> bytes;
  pltgot_code : Z -> Z -> bytes;
  write_plt_header_ok gotplt plt off buf : write_plt_header gotplt plt off buf = poke off (header_code gotplt plt) buf;
  write_plt_entry_ok slot entry off buf : write_plt_entry slot entry off buf = poke off (entry_code slot entry) buf;
  write_pltgot_entry_ok slot entry off buf : write_pltgot_entry slot entry off buf = poke off (pltgot_code slot entry) buf;
  header_length gotplt plt : zlen (header_code gotplt plt) = plt_hdr_size (target_of m);
  entry_length slot entry : plt_size (target_of m) = Some (zlen (entry_code slot entry));
  pltgot_length slot entry : zlen (pltgot_code slot entry) = pltgot_size (target_of m) }.

Section CopyBuf.
Context (m : machine) `{PltCode m} (ctx : Context) (gotplt_addr : Z) (got : GotSection).

Fixpoint plt_entries (i : Z) (l : list Z) (symtab : gmap Z Symbol) (buf : bytes) : option bytes :=
  match l with
  | [] => Some buf
  | s :: l =>
      sym ← symtab !! s;
      write_plt_entry (get_gotplt_addr m gotplt_addr sym) (get_plt_addr m ctx sym) (to_plt_offset m i) buf ≫= plt_entries (i + 1) l symtab
  end.

Definition plt_copy_buf (st : PltSections) (buf : bytes) : option bytes :=
  write_plt_header gotplt_addr (plt_addr ctx) 0 buf ≫= plt_entries 0 (plt_syms st) (plt_symtab st).

Fixpoint pltgot_entries (i : Z) (l : list Z) (symtab : gmap Z Symbol) (buf : bytes) : option bytes :=
  match l with
  | [] => Some buf
  | s :: l =>
      sym ← symtab !! s;
      write_pltgot_entry (get_got_addr m got (aux sym)) (get_plt_addr m ctx sym) (i * pltgot_size (target_of m)) buf ≫= pltgot_entries (i + 1) l symtab
  end.

Definition pltgot_copy_buf (st : PltSections) (buf : bytes) : option bytes := pltgot_entries 0 (pltgot_syms st) (plt_symtab st) buf.
End CopyBuf.

(** ** Every symbol has an entry at its index *)

Record indexed (st : PltSections) : Prop := {
  ix_plt : forall i s, plt_syms st !! i = Some s -> exists sym, plt_symtab st !! s = Some sym /\ plt_idx (aux sym) = Z.of_nat i;
  ix_pltgot : forall i s, pltgot_syms st !! i = Some s -> exists sym, plt_symtab st !! s = Some sym /\ plt_idx (aux sym) = -1 /\
    pltgot_idx (aux sym) = Z.of_nat i /\ has_got sym = true }.

Lemma set_aux_self f s syms sym : syms !! s = Some sym ->
  exists sym', set_aux f s syms !! s = Some sym' /\ aux sym' = f (aux sym).
Proof. intros E. eexists. unfold set_aux. rewrite lookup_alter_eq, E. split; [reflexivity|done]. Qed.

Lemma set_aux_other f s z syms : z <> s -> set_aux f s syms !! z = syms !! z.
Proof. intros Hz. by apply lookup_alter_ne. Qed.

(** Symbols in the tables keep their indices when another symbol is added. *)
Lemma has_plt_old st i s sym : indexed st -> plt_syms st !! i = Some s \/ pltgot_syms st !! i = Some s -> plt_symtab st !! s = Some sym -> has_plt sym = true.
Proof.
  intros [H1 H2] H E. unfold has_plt. destruct H as [H|H].
  - destruct (H1 i s H) as (sym' & E' & Hi). assert (sym' = sym) as -> by congruence. destruct (Z.eqb_spec (plt_idx (aux sym)) (-1)); [lia|done].
  - destruct (H2 i s H) as (sym' & E' & _ & Hi & _). assert (sym' = sym) as -> by congruence. destruct (Z.eqb_spec (pltgot_idx (aux sym)) (-1)); [lia|].
    apply orb_true_r.
Qed.

Lemma plt_add_indexed s st st' : indexed st -> plt_add_symbol s st = Some st' -> indexed st'.
Proof.
  intros I H. unfold plt_add_symbol in H. apply bind_Some in H as (sym & E & H). destruct (has_plt sym) eqn:Hp; [done|]. injection H as <-.
  assert (Hne : forall i z, plt_syms st !! i = Some z \/ pltgot_syms st !! i = Some z -> z <> s).
  { intros i z Hz ->. pose proof (has_plt_old st i s sym I Hz E). congruence. }
  split; cbn [plt_syms pltgot_syms plt_symtab].
  - intros i z [Hz|[-> ->]]%lookup_snoc.
    + rewrite set_aux_other by (apply (Hne i); by left). by apply (ix_plt st I).
    + destruct (set_aux_self (set_plt_idx (zlen (plt_syms st))) s (plt_symtab st) sym E) as (sym' & E' & Ea). exists sym'. split; [done|]. by rewrite Ea.
  - intros i z Hz. rewrite set_aux_other by (apply (Hne i); by right). by apply (ix_pltgot st I).
Qed.

Lemma pltgot_add_indexed s st st' : indexed st -> pltgot_add_symbol s st = Some st' -> indexed st'.
Proof.
  intros I H. unfold pltgot_add_symbol in H. apply bind_Some in H as (sym & E & H). destruct (has_plt sym || _) eqn:Hp; [done|]. injection H as <-.
  apply orb_false_iff in Hp as [Hp Hg]. apply negb_false_iff in Hg.
  assert (Hne : forall i z, plt_syms st !! i = Some z \/ pltgot_syms st !! i = Some z -> z <> s).
  { intros i z Hz ->. pose proof (has_plt_old st i s sym I Hz E). congruence. }
  split; cbn [plt_syms pltgot_syms plt_symtab].
  - intros i z Hz. rewrite set_aux_other by (apply (Hne i); by left). by apply (ix_plt st I).
  - intros i z [Hz|[-> ->]]%lookup_snoc.
    + rewrite set_aux_other by (apply (Hne i); by right). by apply (ix_pltgot st I).
    + destruct (set_aux_self (set_pltgot_idx (zlen (pltgot_syms st))) s (plt_symtab st) sym E) as (sym' & E' & Ea). exists sym'. split; [done|].
      unfold has_got in *. rewrite Ea. simpl. unfold has_plt in Hp. apply orb_false_iff in Hp as [Hp _]. apply negb_false_iff, Z.eqb_eq in Hp. done.
Qed.

Lemma add_plt_indexed p st st' : indexed st -> add_plt_symbol st p = Some st' -> indexed st'.
Proof.
  intros I H. unfold add_plt_symbol in H. destruct p as [s flags]. destruct (needs flags NEEDS_CPLT); [by apply (plt_add_indexed s st)|].
  destruct (needs flags NEEDS_PLT); [|by injection H as <-].
  destruct (needs flags NEEDS_GOT); [by apply (pltgot_add_indexed s st)|by apply (plt_add_indexed s st)].
Qed.

Lemma add_plt_symbols_indexed syms st st' : indexed st -> add_plt_symbols syms st = Some st' -> indexed st'.
Proof.
  revert st. induction syms as [|p syms IH]; intros st I H; [by injection H as <-|].
  cbn [add_plt_symbols] in H. apply bind_Some in H as (st1 & H1 & H). apply (IH st1); [|done]. by apply (add_plt_indexed p st).
Qed.

(** Requests succeed when every symbol is there once, has no entry yet and has a slot in
    .got if it asks for one. *)
Definition fresh (st : PltSections) (p : Z * Z) : Prop :=
  exists sym, plt_symtab st !! p.1 = Some sym /\ has_plt sym = false /\ (needs p.2 NEEDS_GOT = true -> has_got sym = true).

Lemma fresh_other st st' p z : fresh st p -> p.1 <> z -> (forall y, y <> z -> plt_symtab st' !! y = plt_symtab st !! y) -> fresh st' p.
Proof. intros (sym & E & H) Hne Hz. exists sym. by rewrite Hz. Qed.

(** Where a request puts its symbol. *)
Definition wants_plt (flags : Z) : bool := needs flags NEEDS_CPLT || needs flags NEEDS_PLT && negb (needs flags NEEDS_GOT).
Definition wants_pltgot (flags : Z) : bool := negb (needs flags NEEDS_CPLT) && needs flags NEEDS_PLT && needs flags NEEDS_GOT.

Lemma add_plt_fresh st p : fresh st p -> exists st', add_plt_symbol st p = Some st' /\
  plt_syms st' = plt_syms st ++ (if wants_plt p.2 then [p.1] else []) /\
  pltgot_syms st' = pltgot_syms st ++ (if wants_pltgot p.2 then [p.1] else []) /\
  forall y, y <> p.1 -> plt_symtab st' !! y = plt_symtab st !! y.
Proof.
  destruct p as [s flags]. intros (sym & E & Hp & Hg). cbn [fst snd] in *. unfold add_plt_symbol, wants_plt, wants_pltgot.
  assert (P : plt_add_symbol s st = Some (mkPlt (plt_syms st ++ [s]) (pltgot_syms st) (set_aux (set_plt_idx (zlen (plt_syms st))) s (plt_symtab st)) (plt_dynsym st ++ [s])))
    by (unfold plt_add_symbol; rewrite E; cbn [mbind option_bind]; by rewrite Hp).
  destruct (needs flags NEEDS_CPLT); [|destruct (needs flags NEEDS_PLT); [destruct (needs flags NEEDS_GOT)|]]; cbn [andb orb negb].
  - eexists. split; [exact P|]. simpl. rewrite app_nil_r. split; [done|]. split; [done|]. intros y Hy. by apply set_aux_other.
  - eexists. split; [unfold pltgot_add_symbol; rewrite E; cbn [mbind option_bind]; rewrite Hp, (Hg eq_refl); reflexivity|]. simpl. rewrite app_nil_r.
    split; [done|]. split; [done|]. intros y Hy. by apply set_aux_other.
  - eexists. split; [exact P|]. simpl. rewrite app_nil_r. split; [done|]. split; [done|]. intros y Hy. by apply set_aux_other.
  - exists st. by rewrite !app_nil_r.
Qed.

Definition listed_in (want : Z -> bool) (syms : list (Z * Z)) : list Z := map fst (List.filter (fun p => want p.2) syms).

Lemma add_plt_symbols_ok syms st : indexed st -> NoDup (map fst syms) -> Forall (fresh st) syms -> exists st', add_plt_symbols syms st = Some st' /\
  indexed st' /\ plt_syms st' = plt_syms st ++ listed_in wants_plt syms /\ pltgot_syms st' = pltgot_syms st ++ listed_in wants_pltgot syms.
Proof.
  intros I Hn Hf. assert (exists st', add_plt_symbols syms st = Some st' /\ plt_syms st' = plt_syms st ++ listed_in wants_plt syms /\
    pltgot_syms st' = pltgot_syms st ++ listed_in wants_pltgot syms) as (st' & E & H); [|exists st'; split; [done|]; split; [by apply (add_plt_symbols_indexed syms st)|done]].
  clear I. revert st Hf. induction syms as [|p syms IH]; intros st Hf; [exists st; unfold listed_in; simpl; by rewrite !app_nil_r|].
  apply Forall_cons in Hf as [Hp Hf]. simpl in Hn. apply NoDup_cons in Hn as [Hnp Hn]. destruct (add_plt_fresh st p Hp) as (st1 & E1 & L1 & L2 & Ho).
  destruct (IH Hn st1) as (st' & E & L3 & L4).
  { apply Forall_forall. intros q Hq. rewrite Forall_forall in Hf. apply (fresh_other st st1 q p.1 (Hf q Hq)); [|done].
    intros Heq. apply Hnp. rewrite <- Heq. by apply list_elem_of_fmap_2. }
  exists st'. cbn [add_plt_symbols]. rewrite E1. split; [done|]. rewrite L3, L4, L1, L2. unfold listed_in. simpl.
  destruct (wants_plt p.2), (wants_pltgot p.2); simpl; by rewrite <- !app_assoc.
Qed.

(** ** What the sections contain *)

Section Contents.
Context (m : machine) (ctx : Context) (gotplt_addr : Z).

Context `{PltCode m} (size : Z) (Hsize : plt_size (target_of m) = Some size) (Hpos : 0 < size) (Hhdr : 0 <= plt_hdr_size (target_of m)).

Lemma plt_offset i : to_plt_offset m i = plt_hdr_size (target_of m) + i * size.
Proof. unfold to_plt_offset. by rewrite Hsize. Qed.

Lemma entry_size slot entry : zlen (entry_code slot entry) = size.
Proof. pose proof (entry_length slot entry) as E. rewrite Hsize in E. by injection E as <-. Qed.

(** What an entry is about. *)
Definition entry_at (sym : Symbol) : bytes := entry_code (get_gotplt_addr m gotplt_addr sym) (get_plt_addr m ctx sym).

Lemma plt_entries_ok l i symtab buf : 0 <= i -> (forall s, s ∈ l -> is_Some (symtab !! s)) ->
  plt_hdr_size (target_of m) + (i + zlen l) * size <= zlen buf ->
  exists buf', plt_entries m ctx gotplt_addr i l symtab buf = Some buf' /\ zlen buf' = zlen buf /\
    (forall j s sym, l !! j = Some s -> symtab !! s = Some sym -> has_code buf' (to_plt_offset m (i + Z.of_nat j)) (entry_at sym)) /\
    (forall lo code, lo + zlen code <= to_plt_offset m i -> has_code buf lo code -> has_code buf' lo code).
Proof.
  revert i buf. induction l as [|s l IH]; intros i buf Hi Hs Hlen; [by exists buf|].
  destruct (Hs s ltac:(constructor)) as [sym Hsym]. cbn [plt_entries]. rewrite Hsym. cbn [mbind option_bind]. rewrite write_plt_entry_ok.
  assert (Hl : zlen (s :: l) = 1 + zlen l) by (unfold zlen; simpl; lia). pose proof (zlen_nonneg l). rewrite Hl in Hlen.
  destruct (poke_some (to_plt_offset m i) (entry_at sym) buf) as (b1 & E1 & L1 & C1 & K1).
  { rewrite plt_offset. nia. } { unfold entry_at. rewrite plt_offset, entry_size. nia. }
  unfold entry_at in E1. rewrite E1. cbn [mbind option_bind].
  destruct (IH (i + 1) b1) as (b2 & E2 & L2 & C2 & K2); [lia|intros z Hz; apply Hs; by constructor|rewrite L1; nia|].
  exists b2. split; [done|]. split; [lia|]. split.
  - intros [|j] z sym' Hz Hz'.
    + injection Hz as <-. assert (sym' = sym) as -> by congruence. replace (i + Z.of_nat 0) with i by lia. apply K2; [|done].
      unfold entry_at. rewrite entry_size, !plt_offset. nia.
    + replace (i + Z.of_nat (S j)) with (i + 1 + Z.of_nat j) by lia. by apply (C2 j z).
  - intros lo code Hlo Hc. apply K2; [rewrite plt_offset in *; nia|]. apply K1; [|done]. right. left. exact Hlo.
Qed.

(** The header and every entry are where the addresses of symbols say. *)
Lemma plt_copy_buf_ok st buf : indexed st -> zlen buf = plt_hdr_size (target_of m) + zlen (plt_syms st) * size ->
  exists buf', plt_copy_buf m ctx gotplt_addr st buf = Some buf' /\ zlen buf' = zlen buf /\ has_code buf' 0 (header_code gotplt_addr (plt_addr ctx)) /\
    forall i s sym, plt_syms st !! i = Some s -> plt_symtab st !! s = Some sym -> has_code buf' (to_plt_offset m (plt_idx (aux sym))) (entry_at sym).
Proof.
  intros I Hlen. pose proof (zlen_nonneg (plt_syms st)). unfold plt_copy_buf. rewrite write_plt_header_ok.
  destruct (poke_some 0 (header_code gotplt_addr (plt_addr ctx)) buf) as (b1 & E1 & L1 & C1 & _); [done|rewrite header_length; nia|].
  rewrite E1. cbn [mbind option_bind]. destruct (plt_entries_ok (plt_syms st) 0 (plt_symtab st) b1) as (b2 & E2 & L2 & C2 & K2).
  - done.
  - intros s [i Hi]%list_elem_of_lookup. destruct (ix_plt st I i s Hi) as (sym & E & _). by eexists.
  - rewrite L1, Hlen. lia.
  - exists b2. split; [done|]. split; [lia|]. split.
    + apply K2; [|done]. rewrite header_length, plt_offset. lia.
    + intros i s sym Hi Hs. destruct (ix_plt st I i s Hi) as (sym' & Hs' & Ei). assert (sym' = sym) as -> by congruence. rewrite Ei. by apply (C2 i s).
Qed.

(** The words of .got.plt. *)
Lemma store_some buf i x : 0 <= i < zlen buf -> store m buf i x = Some (<[Z.to_nat i := word m x]> buf).
Proof. intros Hi. unfold store. destruct (Z.leb_spec 0 i), (Z.ltb_spec i (zlen buf)); try lia. done. Qed.

Lemma gotplt_entries_ok n i buf : 0 <= i -> i + 3 + Z.of_nat n <= zlen buf -> exists buf', gotplt_entries m ctx n i buf = Some buf' /\ zlen buf' = zlen buf /\
  (forall j, i + 3 <= j < i + 3 + Z.of_nat n -> buf' !! Z.to_nat j = Some (word m (plt_addr ctx))) /\
  (forall j, 0 <= j < i + 3 -> buf' !! Z.to_nat j = buf !! Z.to_nat j).
Proof.
  revert i buf. induction n as [|n IH]; intros i buf Hi Hl.
  - exists buf. repeat split; try done. intros j Hj. lia.
  - cbn [gotplt_entries]. rewrite store_some by lia. cbn [mbind option_bind]. set (b1 := <[_ := _]> buf).
    assert (L1 : zlen b1 = zlen buf) by (unfold zlen, b1; by rewrite length_insert).
    destruct (IH (i + 1) b1) as (b2 & E2 & L2 & C2 & K2); [lia|lia|]. exists b2. split; [done|]. split; [lia|]. split.
    + intros j Hj. destruct (Z.eq_dec j (i + 3)) as [->|Hne]; [|apply C2; lia]. rewrite K2 by lia. unfold b1. apply list_lookup_insert_eq. unfold zlen in Hl. lia.
    + intros j Hj. rewrite K2 by lia. unfold b1. apply list_lookup_insert_ne. lia.
Qed.

Lemma gotplt_copy_buf_ok st buf : m ∉ [PPC64V1; PPC64V2] -> zlen buf = 3 + zlen (plt_syms st) -> exists buf', gotplt_copy_buf m ctx st buf = Some buf' /\
  zlen buf' = zlen buf /\ buf' !! 0%nat = Some (word m (default 0 (dynamic_addr ctx))) /\
  forall i, 0 <= i < zlen (plt_syms st) -> buf' !! Z.to_nat (i + 3) = Some (word m (plt_addr ctx)).
Proof.
  intros Hm Hl. pose proof (zlen_nonneg (plt_syms st)). unfold gotplt_copy_buf. rewrite bool_decide_eq_false_2 by done.
  rewrite store_some by lia. cbn [mbind option_bind]. set (b1 := <[_ := _]> buf). assert (L1 : zlen b1 = zlen buf) by (unfold zlen, b1; by rewrite length_insert).
  rewrite store_some by lia. cbn [mbind option_bind]. set (b2 := <[_ := _]> b1). assert (L2 : zlen b2 = zlen buf) by (unfold zlen, b2; by rewrite length_insert).
  rewrite store_some by lia. cbn [mbind option_bind]. set (b3 := <[_ := _]> b2). assert (L3 : zlen b3 = zlen buf) by (unfold zlen, b3; by rewrite length_insert).
  destruct (gotplt_entries_ok (length (plt_syms st)) 0 b3) as (b4 & E4 & L4 & C4 & K4); [done|unfold zlen in *; lia|].
  exists b4. split; [done|]. split; [lia|]. split.
  - change 0%nat with (Z.to_nat 0). rewrite K4 by lia. unfold b3, b2. rewrite !list_lookup_insert_ne by lia. apply list_lookup_insert_eq. unfold zlen in Hl. lia.
  - intros i Hi. apply C4. unfold zlen in Hi. lia.
Qed.

Lemma relplt_copy_buf_ok st : indexed st -> exists l, relplt_copy_buf m ctx gotplt_addr st = Some l /\ zlen l = zlen (plt_syms st) /\
  forall i s sym, plt_syms st !! i = Some s -> plt_symtab st !! s = Some sym -> m <> SPARC64 ->
    l !! i = Some (new_rel m (get_gotplt_addr m gotplt_addr sym) (R_JUMP_SLOT (target_of m)) (dynsym_idx (aux sym)) 0).
Proof.
  intros I. unfold relplt_copy_buf. set (f := relplt_rel m ctx gotplt_addr st).
  destruct (mapM f (plt_syms st)) as [l|] eqn:E.
  - apply mapM_Some in E. exists l. split; [done|]. split; [unfold zlen; by rewrite (Forall2_length _ _ _ E)|].
    intros i s sym Hi Hs Hm. destruct (Forall2_lookup_l _ _ _ _ _ E Hi) as (r & Hr & Ef). rewrite Hr. unfold f, relplt_rel in Ef. rewrite Hs in Ef.
    cbn [mbind option_bind] in Ef. rewrite bool_decide_eq_false_2 in Ef by done. by rewrite <- Ef.
  - exfalso. apply mapM_None, Exists_exists in E as (s & [i Hi]%list_elem_of_lookup & En). destruct (ix_plt st I i s Hi) as (sym & Hs & _).
    unfold f, relplt_rel in En. rewrite Hs in En. done.
Qed.
End Contents.
