(* ===== verification/RiscvPlt.v ===== *)
(** * The PLT of RISC-V (src/elf/arch-riscv.cc)

    The functions that write the code of .plt and .plt.got, as an instance of
    [Plt.PltCode], and what the code does when it runs. *)

From S2P Require Import Prelude Buffers Integers Bits Enums ElfConst ElfTypes Got InputSections RiscvIsa Riscv RiscvReloc Plt.
Local Open Scope list_scope.
Local Open Scope Z_scope.

(** ** Writing *)

(** [memcpy] from a table of [ul32]. *)
Definition words (ws : list Z) : bytes := concat (map (le_store 4) ws).

Definition header_insn (is64 : bool) : list Z :=
  if is64
  then [0x00000397; 0x41c30333; 0x0003be03; 0xfd430313; 0x00038293; 0x00135313; 0x0082b283; 0x000e0067]
  else [0x00000397; 0x41c30333; 0x0003ae03; 0xfd430313; 0x00038293; 0x00235313; 0x0042a283; 0x000e0067].

Definition plt_entry (is64 : bool) : list Z :=
  if is64 then [0x00000e17; 0x000e3e03; 0x000e0367; 0x00000013] else [0x00000e17; 0x000e2e03; 0x000e0367; 0x00000013].

Definition riscv_plt_header (is64 : bool) (gotplt plt off : Z) (buf : bytes) : option bytes :=
  let val := u64 (gotplt - plt) in
  buf ← poke off (words (header_insn is64)) buf;
  buf ← insn32 (write_utype val) off buf;
  buf ← insn32 (write_itype val) (off + 8) buf;
  insn32 (write_itype val) (off + 16) buf.

(** [write_plt_entry] and [write_pltgot_entry] *)
Definition riscv_plt_entry (is64 : bool) (slot plt off : Z) (buf : bytes) : option bytes :=
  let val := u64 (slot - plt) in
  buf ← poke off (words (plt_entry is64)) buf;
  buf ← insn32 (write_utype val) off buf;
  insn32 (write_itype val) (off + 4) buf.

(** What they write. *)
Definition patched_header (is64 : bool) (gotplt plt : Z) : list Z :=
  let val := u64 (gotplt - plt) in
  alter (write_itype val) 4%nat (alter (write_itype val) 2%nat (alter (write_utype val) 0%nat (header_insn is64))).
Definition patched_entry (is64 : bool) (slot plt : Z) : list Z :=
  let val := u64 (slot - plt) in alter (write_itype val) 1%nat (alter (write_utype val) 0%nat (plt_entry is64)).

Lemma words_app a b : words (a ++ b) = words a ++ words b.
Proof. unfold words. by rewrite map_app, concat_app. Qed.

Lemma words_length ws : zlen (words ws) = 4 * zlen ws.
Proof. induction ws as [|w ws IH]; [done|]. unfold words. cbn [map concat]. rewrite zlen_app. fold (words ws). rewrite IH. unfold zlen. rewrite length_le_store. simpl. lia. Qed.

(** Changing an instruction of a table that was just copied. *)
Lemma patch f k w ws off buf : ws !! k = Some w -> is_u 32 w ->
  poke off (words ws) buf ≫= insn32 f (off + 4 * Z.of_nat k) = poke off (words (alter f k ws)) buf.
Proof.
  intros Hk Hw. pose proof (take_drop_middle ws k w Hk) as Ews. set (p := take k ws) in *. set (q := drop (S k) ws) in *.
  assert (Hp : length p = k) by (unfold p; rewrite length_take; apply lookup_lt_Some in Hk; lia).
  assert (Ea : alter f k ws = p ++ f w :: q) by (rewrite <- Ews, <- Hp at 1; rewrite <- (Nat.add_0_r (length p)) at 1; by rewrite alter_app_r).
  assert (L : length (words (alter f k ws)) = length (words ws)).
  { apply Nat2Z.inj. change (zlen (words (alter f k ws)) = zlen (words ws)). rewrite !words_length. unfold zlen. by rewrite length_alter. }
  unfold poke at 1 2. rewrite L. destruct (in_buf (length (words ws)) buf off) eqn:E; [|done]. apply in_buf_true in E as [H1 H2]. cbn [mbind option_bind].
  set (a := take (Z.to_nat off) buf). set (c := drop _ buf). rewrite Ea, <- Ews, !words_app.
  change (words (w :: q)) with (le_store 4 w ++ words q). change (words (f w :: q)) with (le_store 4 (f w) ++ words q).
  assert (Hz : off + 4 * Z.of_nat k = zlen (a ++ words p)).
  { rewrite zlen_app, words_length. unfold a, zlen in *. rewrite length_take, Hp. lia. }
  rewrite Hz. unfold insn32. rewrite <- !app_assoc, (app_assoc a). rewrite modify_list by apply length_le_store.
  rewrite le_load_store. rewrite wrap_small by exact Hw. by rewrite <- !app_assoc.
Qed.

Lemma patch_bind f k w ws off o buf (g : bytes -> option bytes) : ws !! k = Some w -> is_u 32 w -> o = off + 4 * Z.of_nat k ->
  poke off (words ws) buf ≫= (fun b => insn32 f o b ≫= g) = poke off (words (alter f k ws)) buf ≫= g.
Proof. intros Hk Hw ->. rewrite <- (patch f k w ws off buf Hk Hw). by destruct (poke off (words ws) buf). Qed.

Ltac table_side := first [lia|by repeat match goal with b : bool |- _ => destruct b end|
  unfold is_u; repeat match goal with b : bool |- _ => destruct b end; lia].

Lemma riscv_plt_header_ok is64 gotplt plt off buf :
  riscv_plt_header is64 gotplt plt off buf = poke off (words (patched_header is64 gotplt plt)) buf.
Proof.
  unfold riscv_plt_header, patched_header. cbv zeta. set (val := u64 (gotplt - plt)).
  rewrite (patch_bind _ 0 0x397) by table_side.
  rewrite (patch_bind _ 2 (if is64 then 0x3be03 else 0x3ae03)) by table_side.
  replace (off + 16) with (off + 4 * Z.of_nat 4) by lia. apply (patch _ 4 0x38293); table_side.
Qed.

Lemma riscv_plt_entry_ok is64 slot plt off buf :
  riscv_plt_entry is64 slot plt off buf = poke off (words (patched_entry is64 slot plt)) buf.
Proof.
  unfold riscv_plt_entry, patched_entry. cbv zeta. set (val := u64 (slot - plt)).
  rewrite (patch_bind _ 0 0xe17) by table_side.
  replace (off + 4) with (off + 4 * Z.of_nat 1) by lia. apply (patch _ 1 (if is64 then 0xe3e03 else 0xe2e03)); table_side.
Qed.

Lemma riscv_sizes m : is_riscv m = true -> plt_hdr_size (target_of m) = 32 /\ plt_size (target_of m) = Some 16 /\ pltgot_size (target_of m) = 16 /\
  (is_64 (target_of m) = true -> word_size m = 8) /\ (is_64 (target_of m) = false -> word_size m = 4).
Proof. by destruct m. Qed.

Lemma riscv_header_length m : is_riscv m = true -> forall gotplt plt,
  zlen (words (patched_header (is_64 (target_of m)) gotplt plt)) = plt_hdr_size (target_of m).
Proof. intros Hm gotplt plt. destruct (riscv_sizes m Hm) as (-> & _). rewrite words_length. by destruct (is_64 _). Qed.

Lemma riscv_entry_length m : is_riscv m = true -> forall slot plt,
  zlen (words (patched_entry (is_64 (target_of m)) slot plt)) = 16.
Proof. intros Hm slot plt. rewrite words_length. by destruct (is_64 _). Qed.

Lemma riscv_plt_length m : is_riscv m = true -> forall slot plt,
  plt_size (target_of m) = Some (zlen (words (patched_entry (is_64 (target_of m)) slot plt))).
Proof. intros Hm slot plt. rewrite riscv_entry_length by done. apply (riscv_sizes m Hm). Qed.

Lemma riscv_pltgot_length m : is_riscv m = true -> forall slot plt,
  zlen (words (patched_entry (is_64 (target_of m)) slot plt)) = pltgot_size (target_of m).
Proof. intros Hm slot plt. rewrite riscv_entry_length by done. symmetry. apply (riscv_sizes m Hm). Qed.

#[export]
Instance riscv_plt_code (m : machine) (Hm : is_riscv m = true) : PltCode m := {|
  write_plt_header := riscv_plt_header (is_64 (target_of m));
  write_plt_entry := riscv_plt_entry (is_64 (target_of m));
  write_pltgot_entry := riscv_plt_entry (is_64 (target_of m));
  header_code gotplt plt := words (patched_header (is_64 (target_of m)) gotplt plt);
  entry_code slot plt := words (patched_entry (is_64 (target_of m)) slot plt);
  pltgot_code slot plt := words (patched_entry (is_64 (target_of m)) slot plt);
  write_plt_header_ok := riscv_plt_header_ok _;
  write_plt_entry_ok := riscv_plt_entry_ok _;
  write_pltgot_entry_ok := riscv_plt_entry_ok _;
  header_length := riscv_header_length m Hm;
  entry_length := riscv_plt_length m Hm;
  pltgot_length := riscv_pltgot_length m Hm |}.

(** ** Running *)

Section Run.
Context (xlen : Z) (big : bool).

Lemma words_lookup ws k w : ws !! k = Some w -> window (words ws) (4 * Z.of_nat k) (4 * Z.of_nat k + 4) = le_store 4 w.
Proof.
  intros Hk. pose proof (take_drop_middle ws k w Hk) as Ews. assert (Hp : length (take k ws) = k) by (rewrite length_take; apply lookup_lt_Some in Hk; lia).
  rewrite <- Ews, words_app. change (words (w :: drop (S k) ws)) with (le_store 4 w ++ words (drop (S k) ws)). unfold window.
  assert (L : Z.to_nat (4 * Z.of_nat k) = length (words (take k ws))).
  { apply Nat2Z.inj. change (Z.of_nat (Z.to_nat (4 * Z.of_nat k)) = zlen (words (take k ws))). rewrite words_length. unfold zlen. rewrite Hp. lia. }
  rewrite L, drop_app_length. replace (Z.to_nat (4 * Z.of_nat k + 4 - 4 * Z.of_nat k)) with (length (le_store 4 w)) by (rewrite length_le_store; lia).
  apply take_app_length.
Qed.

(** One instruction of a table in memory. *)
Lemma step_word s a ws k w i : holds xlen (mem s) a (words ws) -> ws !! k = Some w -> pc s = a + 4 * Z.of_nat k -> bits w 1 0 = 3 ->
  decode32 xlen w = Some i -> step xlen big s = Some (exec xlen big i 4 s).
Proof.
  intros Hh Hk Hpc Hb Hd. apply (step32 xlen big s a (words ws) (4 * Z.of_nat k) w i); try done; [lia| |by apply words_lookup].
  rewrite words_length. apply lookup_lt_Some in Hk. unfold zlen. lia.
Qed.

Lemma load_written w n v : opcode w = 0x03 -> load_size xlen (funct3 w) = Some n ->
  decode32 xlen (write_itype v w) = Some (Load n (rd w) (rs1 w) (imm_i (write_itype v w))) /\ bits (write_itype v w) 1 0 = 3.
Proof.
  intros E1 E2. destruct (write_itype_keeps v w) as (K1 & K2 & K3 & K4). split.
  - unfold decode32. cbv zeta. by rewrite K1, K2, K3, K4, E1, E2.
  - change (bits (write_itype v w) 1 0) with (bits (write_itype v w) (0 + 1) (0 + 0)). rewrite <- (bits_sub _ 6 0 1 0) by lia.
    change (bits (write_itype v w) 6 0) with (opcode (write_itype v w)). by rewrite K1, E1.
Qed.

Lemma addi_written w v : opcode w = 0x13 -> funct3 w = 0 ->
  decode32 xlen (write_itype v w) = Some (Addi (rd w) (rs1 w) (imm_i (write_itype v w))) /\ bits (write_itype v w) 1 0 = 3.
Proof.
  intros E1 E2. destruct (write_itype_keeps v w) as (K1 & K2 & K3 & K4). split.
  - unfold decode32. cbv zeta. by rewrite K1, K2, K3, K4, E1, E2.
  - change (bits (write_itype v w) 1 0) with (bits (write_itype v w) (0 + 1) (0 + 0)). rewrite <- (bits_sub _ 6 0 1 0) by lia.
    change (bits (write_itype v w) 6 0) with (opcode (write_itype v w)). by rewrite K1, E1.
Qed.

(** Code without jumps. *)
Definition straight (i : instr) : bool := match i with Jal _ _ | Jalr _ _ _ => false | _ => true end.

Definition decoded (w : Z) (i : instr) : Prop := decode32 xlen w = Some i /\ bits w 1 0 = 3.

Definition execs (l : list instr) (s : machine_state) : machine_state := foldl (fun s i => exec xlen big i 4 s) s l.

Lemma exec_straight i s n : straight i = true -> pc s = n -> 0 <= n + 4 < 2 ^ xlen -> pc (exec xlen big i 4 s) = n + 4 /\ mem (exec xlen big i 4 s) = mem s.
Proof.
  intros Hi <- Hn. assert (E : wx xlen (pc s + 4) = pc s + 4) by (apply wrap_small; exact Hn). by destruct i; try done; simpl.
Qed.

Lemma run_straight l ws k s a : holds xlen (mem s) a (words ws) -> Forall2 decoded (take (length l) (drop k ws)) l -> forallb straight l = true ->
  pc s = a + 4 * Z.of_nat k -> 0 <= a -> a + 4 * Z.of_nat (k + length l) < 2 ^ xlen ->
  run xlen big (length l) s = Some (execs l s) /\ pc (execs l s) = a + 4 * Z.of_nat (k + length l) /\ mem (execs l s) = mem s.
Proof.
  revert k s. induction l as [|i l IH]; intros k s Hh Hd Hs Hpc Ha Hb; [by rewrite Nat.add_0_r|].
  simpl in Hs. apply andb_true_iff in Hs as [Hi Hs]. cbn [length] in *. destruct (drop k ws) as [|w ws'] eqn:Ed; [by apply Forall2_length in Hd|].
  cbn [take] in Hd. apply Forall2_cons in Hd as [[Hw1 Hw2] Hd].
  assert (Hk : ws !! k = Some w) by (rewrite <- (Nat.add_0_r k), <- lookup_drop, Ed; done).
  assert (Hdrop : drop (S k) ws = ws') by (rewrite (drop_S ws w k Hk) in Ed; by injection Ed).
  cbn [run execs foldl]. rewrite (step_word s a ws k w i Hh Hk Hpc Hw2 Hw1). cbn [mbind option_bind]. fold (execs l (exec xlen big i 4 s)).
  destruct (exec_straight i s _ Hi Hpc ltac:(lia)) as [P M]. destruct (IH (S k) (exec xlen big i 4 s)) as (E1 & E2 & E3).
  - by rewrite M.
  - by rewrite Hdrop.
  - done.
  - rewrite P. lia.
  - done.
  - lia.
  - split; [exact E1|]. rewrite E2, E3, M. split; [lia|done].
Qed.

Lemma run_then n k s s' : run xlen big n s = Some s' -> run xlen big (n + k) s = run xlen big k s'.
Proof.
  revert s. induction n as [|n IH]; intros s H; [by injection H as ->|]. cbn [run Nat.add] in *. apply bind_Some in H as (s1 & -> & H). simpl. by apply IH.
Qed.
End Run.

(** ** What the code does *)

Lemma u32_u64 v : u32 (u64 v) = u32 v.
Proof. apply wrap_wrap. lia. Qed.

Lemma write_utype_u64 v w : write_utype (u64 v) w = write_utype v w.
Proof. unfold write_utype, utype. by rewrite u32_u64. Qed.
Lemma write_itype_u64 v w : write_itype (u64 v) w = write_itype v w.
Proof. unfold write_itype, itype. by rewrite u32_u64. Qed.

Section Execution.
Context (m : machine) (Hm : is_riscv m = true) (big : bool).
Abbreviation xlen := (xlen_of m).
Abbreviation is64 := (is_64 (target_of m)).

(** A distance that the two parts can represent. *)
Definition in_pair (D : Z) : Prop := xlen = 32 \/ - 2 ^ 31 - 2 ^ 11 <= i64 D < 2 ^ 31 - 2 ^ 11.

Lemma pair_address P T w w' : in_pair (T - P) ->
  wx xlen (wx xlen (P + imm_u (write_utype (u64 (T - P)) w)) + imm_i (write_itype (u64 (T - P)) w')) = wx xlen T.
Proof.
  intros Hr. rewrite write_utype_u64, write_itype_u64, wx_add by (unfold xlen_of; by case_match). destruct Hr as [E32|Hr].
  - unfold wx. rewrite E32. exact (pair_wrap 32 T P w w' true ltac:(lia)).
  - rewrite <- Z.add_assoc. pose proof (pair_exact T P w w' true Hr) as E. cbn iota in E. rewrite E. apply wx_target.
Qed.

Lemma xlen_cases : xlen = 32 /\ is64 = false \/ xlen = 64 /\ is64 = true.
Proof. unfold xlen_of. destruct (is_64 _); [by right|by left]. Qed.

(** The word of data at an address. *)
Definition word_bytes : nat := if is64 then 8%nat else 4%nat.
Definition word_at (mm : Z -> Z) (a : Z) : Z := wx xlen (RiscvIsa.load xlen big word_bytes mm (wx xlen a)).

Lemma load_wx mm a : wx xlen (swrap (8 * Z.of_nat word_bytes) (RiscvIsa.load xlen big word_bytes mm (wx xlen a))) = word_at mm a.
Proof.
  unfold word_at. unfold wx at 1 3. replace (8 * Z.of_nat word_bytes) with xlen; [apply wrap_swrap|]; unfold word_bytes, xlen_of; by destruct (is_64 _).
Qed.

Lemma wx_small a : 0 <= a < 2 ^ xlen -> wx xlen a = a.
Proof. apply wrap_small. Qed.

Lemma wx_land v : v mod 2 = 0 -> wx xlen (Z.land (wx xlen v) (-2)) = wx xlen v.
Proof. intros Hv. rewrite wx_even by (done || (unfold xlen_of; by case_match)). apply wx_wx. unfold xlen_of. by case_match. Qed.

Lemma wx_parity v : (wx xlen v) mod 2 = v mod 2.
Proof.
  unfold wx, wrap. destruct xlen_cases as [[-> _]|[-> _]]; (rewrite Z.mod_mod_divide; [done|]); [by exists (2 ^ 31)|by exists (2 ^ 63)].
Qed.

(** An entry jumps to what its slot contains. *)
Record entry_ran (s s' : machine_state) (v : Z) : Prop := {
  er_pc : pc s' = v;
  er_t1 : regs s' 6 = pc s + 12;
  er_t3 : regs s' 28 = v;
  er_regs : forall q, q <> 6 -> q <> 28 -> regs s' q = regs s q;
  er_mem : mem s' = mem s }.

Lemma entry_runs s b slot entry v : holds xlen (mem s) (b + entry) (words (patched_entry is64 slot entry)) -> pc s = b + entry ->
  0 <= b + entry -> b + entry + 16 <= 2 ^ xlen -> in_pair (slot - entry) -> v = word_at (mem s) (b + slot) -> v mod 2 = 0 ->
  exists s', run xlen big 3 s = Some s' /\ entry_ran s s' v.
Proof.
  intros Hh Hpc H0 H1 Hr Ev Hv. set (e := b + entry) in *. set (D := u64 (slot - entry)).
  assert (ED : D = u64 ((b + slot) - e)) by (unfold D, e; f_equal; lia).
  assert (Hr' : in_pair (b + slot - e)) by (unfold e; by replace (b + slot - (b + entry)) with (slot - entry) by lia).
  set (w1 := if is64 then 0xe3e03 else 0xe2e03).
  assert (Hw0 : patched_entry is64 slot entry !! 0%nat = Some (write_utype D 0xe17)) by (unfold D, patched_entry; by destruct is64).
  assert (Hw1 : patched_entry is64 slot entry !! 1%nat = Some (write_itype D w1)) by (unfold D, patched_entry, w1; by destruct is64).
  assert (Hw2 : patched_entry is64 slot entry !! 2%nat = Some 0xe0367) by (unfold patched_entry; by destruct is64).
  destruct (auipc_written xlen 0xe17 28 0 D) as [D0 B0]; [by vm_compute|].
  assert (Hls : opcode w1 = 0x03 /\ load_size xlen (funct3 w1) = Some word_bytes /\ rd w1 = 28 /\ rs1 w1 = 28).
  { unfold w1, word_bytes. destruct xlen_cases as [[-> ->]|[-> ->]]; by vm_compute. }
  destruct Hls as (L1 & L2 & L3 & L4). destruct (load_written xlen w1 word_bytes D L1 L2) as [D1 B1]. rewrite L3, L4 in D1.
  assert (D2 : decode32 xlen 0xe0367 = Some (Jalr 6 28 0)) by (by vm_compute).
  set (l := [Auipc 28 (imm_u (write_utype D 0xe17)); Load word_bytes 28 28 (imm_i (write_itype D w1))]).
  destruct (run_straight xlen big l (patched_entry is64 slot entry) 0 s e Hh) as (E1 & P2 & M2); [|done|lia|done|simpl; lia|].
  { change (length l) with 2%nat. rewrite drop_0, (take_S_r _ _ _ Hw1), (take_S_r _ _ _ Hw0). repeat constructor; done. }
  set (s2 := execs xlen big l s) in *. change 3%nat with (2 + 1)%nat. rewrite (run_then xlen big 2 1 s s2 E1). cbn [run].
  assert (R2 : regs s2 28 = v).
  { unfold s2, l, execs. cbn [foldl exec set_reg regs]. unfold get_reg. cbn [Z.eqb Pos.eqb exec set_reg regs mem andb negb].
    rewrite Hpc, ED, pair_address, load_wx by done. done. }
  rewrite <- M2 in Hh. change (e + 4 * Z.of_nat (0 + length l)) with (e + 8) in P2.
  rewrite (step_word xlen big s2 e _ 2 _ _ Hh Hw2 ltac:(lia) eq_refl D2). cbn [mbind option_bind]. eexists. split; [reflexivity|].
  assert (Ewv : wx xlen v = v) by (rewrite Ev; unfold word_at; apply wx_wx; unfold xlen_of; by case_match).
  split.
  - cbn [exec set_reg pc]. unfold get_reg. cbn [Z.eqb Pos.eqb]. rewrite R2, Z.add_0_r, wx_land by done. done.
  - cbn [exec set_reg regs Z.eqb Pos.eqb andb negb]. rewrite wx_wx by (unfold xlen_of; by case_match). rewrite P2, Hpc.
    replace (e + 8 + 4) with (e + 12) by lia. apply wx_small. lia.
  - cbn [exec set_reg regs Z.eqb Pos.eqb andb negb]. done.
  - intros q Hq1 Hq2. cbn [exec set_reg regs]. apply Z.eqb_neq in Hq1 as ->. cbn [andb]. unfold s2, l, execs. cbn [foldl exec set_reg regs].
    apply Z.eqb_neq in Hq2 as ->. done.
  - done.
Qed.

(** The header calls the resolver with the link map in t0 and the offset of the slot after
    the reserved ones in t1. *)
Record header_ran (s s' : machine_state) (resolver link_map offset : Z) : Prop := {
  hr_pc : pc s' = resolver;
  hr_t0 : regs s' 5 = link_map;
  hr_t1 : regs s' 6 = offset;
  hr_regs : forall q, q <> 5 -> q <> 6 -> q <> 7 -> q <> 28 -> regs s' q = regs s q;
  hr_mem : mem s' = mem s }.

Lemma xlen_nonneg : 0 <= xlen.
Proof. unfold xlen_of. by case_match. Qed.

Lemma header_table D : let ws := alter (write_itype D) 4%nat (alter (write_itype D) 2%nat (alter (write_utype D) 0%nat (header_insn is64))) in
  let w2 := if is64 then 0x3be03 else 0x3ae03 in
  ws !! 0%nat = Some (write_utype D 0x397) /\ ws !! 1%nat = Some 0x41c30333 /\ ws !! 2%nat = Some (write_itype D w2) /\ ws !! 3%nat = Some 0xfd430313 /\
  ws !! 4%nat = Some (write_itype D 0x38293) /\ ws !! 5%nat = Some (if is64 then 0x135313 else 0x235313) /\
  ws !! 6%nat = Some (if is64 then 0x82b283 else 0x42a283) /\ ws !! 7%nat = Some 0xe0067.
Proof. cbv zeta. unfold header_insn. by destruct is64. Qed.

Lemma header_decodes D : let w2 := if is64 then 0x3be03 else 0x3ae03 in
  (decode32 xlen (write_utype D 0x397) = Some (Auipc 7 (imm_u (write_utype D 0x397))) /\ bits (write_utype D 0x397) 1 0 = 3) /\
  decode32 xlen 0x41c30333 = Some (Sub 6 6 28) /\
  (decode32 xlen (write_itype D w2) = Some (Load word_bytes 28 7 (imm_i (write_itype D w2))) /\ bits (write_itype D w2) 1 0 = 3) /\
  decode32 xlen 0xfd430313 = Some (Addi 6 6 (-44)) /\
  (decode32 xlen (write_itype D 0x38293) = Some (Addi 5 7 (imm_i (write_itype D 0x38293))) /\ bits (write_itype D 0x38293) 1 0 = 3) /\
  decode32 xlen (if is64 then 0x135313 else 0x235313) = Some (Srli 6 6 (if is64 then 1 else 2)) /\
  decode32 xlen (if is64 then 0x82b283 else 0x42a283) = Some (Load word_bytes 5 5 (word_size m)) /\
  decode32 xlen 0xe0067 = Some (Jalr 0 28 0).
Proof.
  intros w2. assert (Hls : opcode w2 = 0x03 /\ load_size xlen (funct3 w2) = Some word_bytes /\ rd w2 = 28 /\ rs1 w2 = 7).
  { unfold w2, word_bytes. destruct xlen_cases as [[-> ->]|[-> ->]]; by vm_compute. }
  destruct Hls as (L1 & L2 & L3 & L4). pose proof (load_written xlen w2 word_bytes D L1 L2) as HD. rewrite L3, L4 in HD.
  pose proof (addi_written xlen 0x38293 D eq_refl eq_refl) as HA.
  split; [by apply (auipc_written xlen 0x397 7 0 D)|]. split; [by vm_compute|]. split; [exact HD|]. split; [by vm_compute|].
  split; [exact HA|]. unfold word_bytes, word_size. split; [|split; [|by vm_compute]]; destruct xlen_cases as [[-> ->]|[-> ->]]; by vm_compute.
Qed.

Ltac wx_simpl := rewrite ?wx_wx, ?wx_add by apply xlen_nonneg.

Lemma header_runs s b gotplt plt i resolver link_map : holds xlen (mem s) (b + plt) (words (patched_header is64 gotplt plt)) -> pc s = b + plt ->
  0 <= b + plt -> 0 <= i -> b + plt + 48 + 16 * i <= 2 ^ xlen -> in_pair (gotplt - plt) -> regs s 6 = b + plt + 44 + 16 * i -> regs s 28 = b + plt ->
  resolver = word_at (mem s) (b + gotplt) -> resolver mod 2 = 0 -> link_map = word_at (mem s) (b + gotplt + word_size m) ->
  exists s', run xlen big 8 s = Some s' /\ header_ran s s' resolver link_map (word_size m * i).
Proof.
  intros Hh Hpc H0 Hi H1 Hr R6 R28 Er Hre El. set (h := b + plt) in *. set (D := u64 (gotplt - plt)).
  assert (ED : D = u64 ((b + gotplt) - h)) by (unfold D, h; f_equal; lia).
  assert (Hr' : in_pair (b + gotplt - h)) by (unfold h; by replace (b + gotplt - (b + plt)) with (gotplt - plt) by lia).
  change (patched_header is64 gotplt plt) with
    (alter (write_itype D) 4%nat (alter (write_itype D) 2%nat (alter (write_utype D) 0%nat (header_insn is64)))) in Hh.
  destruct (header_table D) as (W0 & W1 & W2 & W3 & W4 & W5 & W6 & W7). destruct (header_decodes D) as ((D0 & B0) & D1 & (D2 & B2) & D3 & (D4 & B4) & D5 & D6 & D7).
  set (ws := alter _ 4%nat _) in *. set (w2 := if is64 then 0x3be03 else 0x3ae03) in *.
  set (l := [Auipc 7 (imm_u (write_utype D 0x397)); Sub 6 6 28; Load word_bytes 28 7 (imm_i (write_itype D w2)); Addi 6 6 (-44);
    Addi 5 7 (imm_i (write_itype D 0x38293)); Srli 6 6 (if is64 then 1 else 2); Load word_bytes 5 5 (word_size m)]).
  destruct (run_straight xlen big l ws 0 s h Hh) as (E1 & P2 & M2); [|done|lia|done|simpl; lia|].
  { change (length l) with 7%nat. rewrite drop_0, (take_S_r _ _ _ W6), (take_S_r _ _ _ W5), (take_S_r _ _ _ W4), (take_S_r _ _ _ W3), (take_S_r _ _ _ W2), (take_S_r _ _ _ W1), (take_S_r _ _ _ W0).
    repeat constructor; try done; by destruct is64. }
  set (s7 := execs xlen big l s) in *. change 8%nat with (7 + 1)%nat. rewrite (run_then xlen big 7 1 s s7 E1). cbn [run].
  rewrite <- M2 in Hh. change (h + 4 * Z.of_nat (0 + length l)) with (h + 28) in P2.
  rewrite (step_word xlen big s7 h ws 7 _ _ Hh W7 ltac:(lia) eq_refl D7). cbn [mbind option_bind]. eexists. split; [reflexivity|].
  assert (Ex7 : forall w', wx xlen (wx xlen (h + imm_u (write_utype D 0x397)) + imm_i (write_itype D w')) = wx xlen (b + gotplt))
    by (intros w'; rewrite ED; by apply pair_address).
  assert (Erw : wx xlen resolver = resolver) by (rewrite Er; unfold word_at; by wx_simpl).
  assert (R28' : regs s7 28 = resolver).
  { unfold s7, l, execs. cbn [foldl exec set_reg regs]. unfold get_reg. cbn [Z.eqb Pos.eqb exec set_reg regs mem andb negb]. by rewrite Hpc, Ex7, load_wx. }
  split.
  - cbn [exec set_reg pc]. unfold get_reg. cbn [Z.eqb Pos.eqb]. by rewrite R28', Z.add_0_r, wx_land.
  - cbn [exec set_reg regs Z.eqb Pos.eqb andb negb]. unfold s7, l, execs. cbn [foldl exec set_reg regs]. unfold get_reg.
    cbn [Z.eqb Pos.eqb exec set_reg regs mem andb negb]. rewrite Hpc, Ex7, load_wx, El. unfold word_at. by wx_simpl.
  - cbn [exec set_reg regs Z.eqb Pos.eqb andb negb]. unfold s7, l, execs. cbn [foldl exec set_reg regs]. unfold get_reg.
    cbn [Z.eqb Pos.eqb exec set_reg regs mem andb negb]. rewrite R6, R28. wx_simpl. replace (h + 44 + 16 * i - h + -44) with (16 * i) by lia.
    rewrite (wx_small (16 * i)) by lia. unfold word_size. destruct is64; rewrite Z.shiftr_div_pow2 by lia.
    + replace (16 * i / 2 ^ 1) with (8 * i) by (replace (16 * i) with (8 * i * 2) by lia; symmetry; by apply Z.div_mul). apply wx_small. lia.
    + replace (16 * i / 2 ^ 2) with (4 * i) by (replace (16 * i) with (4 * i * 4) by lia; symmetry; by apply Z.div_mul). apply wx_small. lia.
  - intros q Q5 Q6 Q7 Q28. cbn [exec set_reg regs]. unfold s7, l, execs. cbn [foldl exec set_reg regs].
    apply Z.eqb_neq in Q5 as ->, Q6 as ->, Q7 as ->, Q28 as ->. cbn [andb]. by rewrite andb_negb_r.
  - exact M2.
Qed.
End Execution.

(** ** The sections together *)

Lemma holds_sub xlen mm a code off part : holds xlen mm a code -> has_code code off part -> holds xlen mm (a + off) part.
Proof.
  intros H (H1 & H2 & H3) i x Hi. assert (Hc : code !! (Z.to_nat off + i)%nat = Some x).
  { rewrite <- H3 in Hi. unfold window in Hi. apply lookup_take_Some in Hi as [Hi _]. by rewrite lookup_drop in Hi. }
  rewrite <- (H _ _ Hc). do 2 f_equal. lia.
Qed.

Lemma header_after_entry s0 s1 s2 v resolver link_map offset : entry_ran s0 s1 v -> header_ran s1 s2 resolver link_map offset ->
  header_ran s0 s2 resolver link_map offset.
Proof.
  intros [_ _ _ E4 E5] [H1 H2 H3 H4 H5]. split; try done; [|congruence]. intros q Q5 Q6 Q7 Q28. by rewrite H4, E4.
Qed.

Section Sections.
Context (m : machine) (Hm : is_riscv m = true) (big : bool) (ctx : Context) (gotplt_addr : Z).
Abbreviation xlen := (xlen_of m).
Abbreviation gotplt_addr_of := (get_gotplt_addr m gotplt_addr).

(** A symbol's entry, slot and relocation. *)
Record plt_symbol (st : PltSections) (words_ : list Z) (rels : list ElfRel) (i : nat) (sym : Symbol) : Prop := {
  ps_entry : get_plt_addr m ctx sym = plt_addr ctx + 32 + 16 * Z.of_nat i;
  ps_slot : gotplt_addr_of sym = gotplt_addr + (Z.of_nat i + 3) * word_size m;
  ps_word : words_ !! Z.to_nat (Z.of_nat i + 3) = Some (word m (plt_addr ctx));
  ps_rel : rels !! i = Some (new_rel m (gotplt_addr_of sym) (R_JUMP_SLOT (target_of m)) (dynsym_idx (aux sym)) 0) }.

(** What a call of the entry does at the address [b] where the file is loaded. *)
Definition plt_runs (code : bytes) (i : nat) (sym : Symbol) : Prop :=
  forall b s, 0 <= b -> b + plt_addr ctx + zlen code <= 2 ^ xlen -> (b + plt_addr ctx) mod 2 = 0 ->
    in_pair m (gotplt_addr - plt_addr ctx) -> in_pair m (gotplt_addr_of sym - get_plt_addr m ctx sym) ->
    holds xlen (mem s) (b + plt_addr ctx) code -> pc s = b + get_plt_addr m ctx sym ->
    (forall f, word_at m big (mem s) (b + gotplt_addr_of sym) = f -> f mod 2 = 0 -> exists s', run xlen big 3 s = Some s' /\ entry_ran s s' f) /\
    (word_at m big (mem s) (b + gotplt_addr_of sym) = b + plt_addr ctx ->
     forall resolver link_map, word_at m big (mem s) (b + gotplt_addr) = resolver -> resolver mod 2 = 0 ->
       word_at m big (mem s) (b + gotplt_addr + word_size m) = link_map ->
       exists s', run xlen big 11 s = Some s' /\ header_ran s s' resolver link_map (word_size m * Z.of_nat i)).

Lemma plt_runs_ok code i sym : 0 <= plt_addr ctx -> get_plt_addr m ctx sym = plt_addr ctx + 32 + 16 * Z.of_nat i ->
  has_code code 0 (words (patched_header (is_64 (target_of m)) gotplt_addr (plt_addr ctx))) ->
  has_code code (32 + 16 * Z.of_nat i) (words (patched_entry (is_64 (target_of m)) (gotplt_addr_of sym) (get_plt_addr m ctx sym))) ->
  plt_runs code i sym.
Proof.
  intros Hp He C1 C2 b s Hb Hlen Hev I1 I2 Hh Hpc. pose proof (holds_sub _ _ _ _ _ _ Hh C1) as H1. pose proof (holds_sub _ _ _ _ _ _ Hh C2) as H2.
  rewrite Z.add_0_r in H1. replace (b + plt_addr ctx + (32 + 16 * Z.of_nat i)) with (b + get_plt_addr m ctx sym) in H2 by lia.
  destruct C2 as (_ & L2 & _). rewrite riscv_entry_length in L2 by done.
  assert (Hrun : forall f, word_at m big (mem s) (b + gotplt_addr_of sym) = f -> f mod 2 = 0 -> exists s', run xlen big 3 s = Some s' /\ entry_ran s s' f).
  { intros f Hf Hfe. apply (entry_runs m big s b (gotplt_addr_of sym) (get_plt_addr m ctx sym) f H2 Hpc); try done; lia. }
  split; [exact Hrun|]. intros Hslot resolver link_map Hr Hre Hl. destruct (Hrun _ Hslot Hev) as (s1 & R1 & E1). pose proof E1 as [P1 T1 T3 _ M1].
  destruct (header_runs m big s1 b gotplt_addr (plt_addr ctx) (Z.of_nat i) resolver link_map) as (s2 & R2 & E2); rewrite ?M1; try done; try lia.
  exists s2. split; [|by apply (header_after_entry s s1 s2 (b + plt_addr ctx))]. change 11%nat with (3 + 8)%nat. by rewrite (run_then xlen big 3 8 s s1 R1).
Qed.

Lemma not_ppc64 : (m ∉ [PPC64V1; PPC64V2]) /\ m <> SPARC64.
Proof. destruct m; try done; split; try done; rewrite !elem_of_cons; intros [H|[H|H]]; try done; by apply elem_of_nil in H. Qed.

Lemma riscv_HDR : HDR_SIZE m = 3 * word_size m /\ ENTRY_SIZE m = word_size m /\ 0 < word_size m <= 8.
Proof. by destruct m. Qed.

(** C5: .plt, .got.plt and .rela.plt of RISC-V together, for any requests: every symbol
    that needs an entry gets one, at its address, with a slot and a relocation at the same
    index. Running the entry, wherever the file is loaded, jumps to the address in the slot
    with no other registers than t1 and t3 changed. As long as the slot contains what the
    linker put there, the address of .plt, it reaches the resolver of the first word of
    .got.plt, with the second word in t0 and the offset of the slot in t1, which is the
    index of the relocation times the size of a word. *)
Theorem lazy_binding (symtab0 : gmap Z Symbol) (dynsym0 : list Z) (reqs : list (Z * Z)) :
  let st0 := mkPlt [] [] symtab0 dynsym0 in
  let n := zlen (listed_in wants_plt reqs) in
  NoDup (map fst reqs) -> Forall (fresh st0) reqs -> 0 < n ->
  0 <= plt_addr ctx -> plt_addr ctx + 32 + 16 * n <= 2 ^ 64 -> 0 <= gotplt_addr -> gotplt_addr + (3 + n) * word_size m <= 2 ^ 64 ->
  exists st code words_ rels, add_plt_symbols reqs st0 = Some st /\
    @plt_copy_buf m (riscv_plt_code m Hm) ctx gotplt_addr st (repeat 0 (Z.to_nat (plt_section_size m st))) = Some code /\
    gotplt_copy_buf m ctx st (repeat 0 (Z.to_nat (gotplt_size m st / word_size m))) = Some words_ /\
    relplt_copy_buf m ctx gotplt_addr st = Some rels /\
    forall i s, listed_in wants_plt reqs !! i = Some s -> exists sym, plt_symtab st !! s = Some sym /\
      plt_symbol st words_ rels i sym /\ plt_runs code i sym.
Proof.
  intros st0 n Hn Hf Hpos Hp1 Hp2 Hg1 Hg2. destruct (add_plt_symbols_ok reqs st0) as (st & Est & I & L1 & _); [split; intros i s Hi; done|done|done|].
  simpl in L1. assert (En : zlen (plt_syms st) = n) by (by rewrite L1). destruct (riscv_sizes m Hm) as (S1 & S2 & _ & _). destruct riscv_HDR as (S3 & S4 & S5).
  assert (Hsz : plt_section_size m st = 32 + 16 * n).
  { unfold plt_section_size, to_plt_offset. rewrite S1, S2. destruct (plt_syms st) eqn:E; [unfold zlen in En; simpl in En; lia|]. rewrite En. lia. }
  assert (Hgz : gotplt_size m st / word_size m = 3 + n) by (unfold gotplt_size; rewrite S3, S4, En; replace (3 * word_size m + n * word_size m) with ((3 + n) * word_size m) by lia; apply Z.div_mul; lia).
  set (code0 := repeat 0 (Z.to_nat (plt_section_size m st))). assert (Lc : zlen code0 = 32 + 16 * n) by (unfold code0, zlen; rewrite repeat_length; lia).
  set (words0 := repeat 0 (Z.to_nat (gotplt_size m st / word_size m))). assert (Lw : zlen words0 = 3 + n) by (unfold words0, zlen; rewrite repeat_length; lia).
  pose (riscv_plt_code m Hm) as PC.
  destruct (@plt_copy_buf_ok m ctx gotplt_addr PC 16 S2 ltac:(lia) ltac:(lia) st code0 I ltac:(rewrite S1; lia)) as (code & Ec & Lc' & C1 & C2).
  destruct (gotplt_copy_buf_ok m ctx st words0 (proj1 not_ppc64) ltac:(lia)) as (ws & Ew & _ & _ & W).
  destruct (relplt_copy_buf_ok m ctx gotplt_addr st I) as (rels & Er & _ & Hrel).
  exists st, code, ws, rels. split; [done|]. split; [exact Ec|]. split; [exact Ew|]. split; [exact Er|]. rewrite <- L1.
  intros i s Hi. destruct (ix_plt st I i s Hi) as (sym & Hsym & Hidx). exists sym. split; [done|].
  assert (Hin : 0 <= Z.of_nat i < n) by (apply lookup_lt_Some in Hi; unfold zlen in En; lia).
  assert (He : get_plt_addr m ctx sym = plt_addr ctx + 32 + 16 * Z.of_nat i).
  { unfold get_plt_addr. rewrite Hidx. destruct (Z.eqb_spec (Z.of_nat i) (-1)); [lia|]. simpl. unfold to_plt_offset. rewrite S1, S2. rewrite u64_small; lia. }
  split.
  - split; [done| | |apply (Hrel i s sym Hi Hsym); apply not_ppc64].
    + unfold get_gotplt_addr. rewrite S3, S4, Hidx. rewrite u64_small; nia.
    + apply W. lia.
  - apply plt_runs_ok; [done|done|exact C1|]. pose proof (C2 i s sym Hi Hsym) as C. rewrite Hidx in C. unfold to_plt_offset in C. rewrite S1, S2 in C.
    replace (32 + Z.of_nat i * 16) with (32 + 16 * Z.of_nat i) in C by lia. exact C.
Qed.
End Sections.

(** *** A sample: two imported functions, the second of which is called *)

Definition plt_symbols : gmap Z Symbol :=
  list_to_map [(1, sample_symbol TAG_ABS 0 "STT_FUNC" true 1); (2, sample_symbol TAG_ABS 0 "STT_FUNC" true 2)].
Definition plt_requests : list (Z * Z) := [(1, NEEDS_PLT); (2, NEEDS_PLT)].
Definition plt_tables : PltSections := default (mkPlt [] [] ∅ []) (add_plt_symbols plt_requests (mkPlt [] [] plt_symbols [])).
Definition plt_code : bytes :=
  default [] (@plt_copy_buf RV64LE (riscv_plt_code RV64LE eq_refl) sample_ctx 12288 plt_tables (repeat 0 64)).
(** .got.plt as the loader leaves it: the resolver, the link map and the slots. *)
Definition plt_memory (a : Z) : Z :=
  if a <? 12288 then memory_of 4096 plt_code a
  else memory_of 12288 (le_store 8 65536 ++ le_store 8 77824 ++ le_store 8 0 ++ le_store 8 4096 ++ le_store 8 4096) a.

Lemma lazy_binding_witness : exists s', run 64 false 11 (mkState 4144 (fun _ => 0) plt_memory) = Some s' /\
  pc s' = 65536 /\ regs s' 5 = 77824 /\ regs s' 6 = 8.
Proof.
  destruct (lazy_binding RV64LE eq_refl false sample_ctx 12288 plt_symbols [] plt_requests) as (st & code & ws & rels & E1 & E2 & _ & _ & H).
  1: decided.
  1: by repeat constructor; eexists; (split; [reflexivity|]); vm_compute.
  1-5: by vm_compute.
  destruct (H 1%nat 2 eq_refl) as (sym & Es & _ & Hrun). clear H.
  assert (Est : st = plt_tables) by (unfold plt_tables; by rewrite E1). subst st. clear E1.
  assert (Ec : code = plt_code) by (transitivity (default [] (Some code)); [done|rewrite <- E2; by vm_compute]). subst code. clear E2.
  vm_compute in Es. injection Es as <-.
  destruct (Hrun 0 (mkState 4144 (fun _ => 0) plt_memory)) as [_ Hlazy].
  - done.
  - by vm_compute.
  - done.
  - by right; vm_compute.
  - by right; vm_compute.
  - intros i x Hx. unfold mem, plt_memory. assert (Hi : (i < 64)%nat) by (apply lookup_lt_Some in Hx; by vm_compute in Hx).
    change (0 + plt_addr sample_ctx) with 4096. unfold wx. rewrite wrap_small by (unfold is_u; change (2 ^ xlen_of RV64LE) with (2 ^ 64); lia).
    destruct (Z.ltb_spec (4096 + Z.of_nat i) 12288); [|lia].
    pose proof (memory_holds 64 4096 plt_code ltac:(done) ltac:(by vm_compute) i x Hx) as Hmem. unfold wx in Hmem.
    by rewrite wrap_small in Hmem by (unfold is_u; lia).
  - done.
  - assert (X1 : word_at RV64LE false plt_memory (0 + 12288) = 65536) by (vm_compute; reflexivity).
    assert (X2 : word_at RV64LE false plt_memory (0 + 12288 + word_size RV64LE) = 77824) by (vm_compute; reflexivity).
    destruct (Hlazy ltac:(by vm_compute) 65536 77824 X1 eq_refl X2) as (s' & R & [C1 C2 C3 _ _]). exists s'.
    split; [exact R|]. split; [exact C1|]. split; [exact C2|exact C3].
Defined.
