(* ===== verification/RiscvScan.v ===== *)
(** * Scanning the relocations of RISC-V (scan_relocations and riscv_resize_sections of
    src/elf/arch-riscv.cc)

    The first pass over a section decides what its symbols need; the section is shrunk and
    later relocated. The theorem: what the first pass accepts the others can handle. *)

From S2P Require Import Prelude Buffers Integers Bits Enums ElfConst ElfTypes Got InputSections Riscv RiscvReloc Plt.
Local Open Scope list_scope.
Local Open Scope Z_scope.

(** ** Scanning *)

Section Scan.
Context (m : machine) (ctx : Context) (opt : options) (syms : gmap Z Symbol) (is_protected : Z -> bool).
(** [record_undef_error] *)
Context (undef_error : ElfRel -> bool) (isec : Section_).

Definition check_tlsle (r : ElfRel) (st : scan_state) : scan_state :=
  if shared ctx then error r Recompile st else st.

(** Relocations that need nothing. *)
Definition no_needs : list Z :=
  [R_RISCV_BRANCH; R_RISCV_JAL; R_RISCV_PCREL_HI20; R_RISCV_PCREL_LO12_I; R_RISCV_PCREL_LO12_S; R_RISCV_LO12_I;
   R_RISCV_LO12_S; R_RISCV_ADD8; R_RISCV_ADD16; R_RISCV_ADD32; R_RISCV_ADD64; R_RISCV_SUB8; R_RISCV_SUB16;
   R_RISCV_SUB32; R_RISCV_SUB64; R_RISCV_ALIGN; R_RISCV_RVC_BRANCH; R_RISCV_RVC_JUMP; R_RISCV_RELAX; R_RISCV_SUB6;
   R_RISCV_SET6; R_RISCV_SET8; R_RISCV_SET16; R_RISCV_SET32].

(** The [switch]; [None] is a fatal error. *)
Definition scan_type (r : ElfRel) (sym : Symbol) (st : scan_state) : option scan_state :=
  let t := rel_type r in
  if t =? R_RISCV_32 then
    if is_64 (target_of m) then scan_absrel m ctx opt syms is_protected isec st r
    else scan_dyn_absrel m ctx opt syms is_protected isec st r
  else if t =? R_RISCV_HI20 then scan_absrel m ctx opt syms is_protected isec st r
  else if t =? R_RISCV_64 then
    if is_64 (target_of m) then scan_dyn_absrel m ctx opt syms is_protected isec st r else None
  else if among t [R_RISCV_CALL; R_RISCV_CALL_PLT; R_RISCV_PLT32] then
    Some (if is_imported sym then add_flag (r_sym r) NEEDS_PLT st else st)
  else if t =? R_RISCV_GOT_HI20 then Some (add_flag (r_sym r) NEEDS_GOT st)
  else if t =? R_RISCV_TLS_GOT_HI20 then Some (add_flag (r_sym r) NEEDS_GOTTP st)
  else if t =? R_RISCV_TLS_GD_HI20 then Some (add_flag (r_sym r) NEEDS_TLSGD st)
  else if t =? R_RISCV_32_PCREL then scan_pcrel m ctx opt syms is_protected isec st r
  else if among t [R_RISCV_TPREL_HI20; R_RISCV_TPREL_LO12_I; R_RISCV_TPREL_LO12_S; R_RISCV_TPREL_ADD] then Some (check_tlsle r st)
  else if among t no_needs then Some st
  else Some (error r UnknownRelocation st).

Definition scan_one (st : scan_state) (r : ElfRel) : option scan_state :=
  if (rel_type r =? R_NONE) || undef_error r then Some st
  else
    sym ← syms !! r_sym r;
    scan_type r sym (if is_ifunc sym then add_flag (r_sym r) (Z.lor NEEDS_GOT NEEDS_PLT) st else st).

Fixpoint scan_loop (rels : list ElfRel) (st : scan_state) : option scan_state :=
  match rels with
  | [] => Some st
  | r :: rels => scan_one st r ≫= scan_loop rels
  end.

(** Also the [reldyn_offset] of the section, counted in relocations. *)
Definition scan_relocations (st : scan_state) : option (Z * scan_state) :=
  st' ← scan_loop (section_rels isec) st; Some (num_dynrel st, st').
End Scan.

(** ** All sections (riscv_resize_sections)

    An input section with the flags that decide whether it is code; where a symbol of the
    file is defined: its section if it has one, and whether the file is its owner. *)
Record code_section := mkCode { code_alive : bool; code_alloc : bool; code_isec : Section_; code_contents : bytes }.

Definition is_resizable (o : option code_section) : bool :=
  match o with Some c => code_alive c && code_alloc c && execinstr (code_isec c) | None => false end.

Section Resize.
Context (m : machine) (ctx : Context) (syms : gmap Z Symbol) (undef_weak internal : Z -> bool) (relax use_rvc : bool).

(** The [r_deltas] of every section of a file, which are empty at first. *)
Definition resize_one (o : option code_section) : option (list Z) :=
  match o with
  | Some c =>
      if is_resizable o then shrink_section m ctx syms undef_weak internal relax use_rvc (code_contents c) (code_isec c)
      else Some []
  | None => Some []
  end.

Definition resize_files (files : list (list (option code_section))) : option (list (list (list Z))) := mapM (mapM resize_one) files.
End Resize.

(** The symbols of a file; [None]: an index out of range. *)
Definition fix_symbol (secs : list (option code_section)) (deltas : list (list Z)) (mine : bool) (isec : option nat) (value : Z) :
    option Z :=
  match isec with
  | Some i =>
      if negb mine then Some value
      else
        o ← secs !! i; d ← deltas !! i;
        match o with Some c => Some (fix_value (section_rels (code_isec c)) d value) | None => Some value end
  | None => Some value
  end.

(** ** What scanning accepts *)

Lemma among_elem t l : among t l = true <-> t ∈ l.
Proof.
  unfold among. rewrite existsb_exists. split.
  - intros (x & Hx & E%Z.eqb_eq). subst. by apply list_elem_of_In.
  - intros H. exists t. split; [by apply list_elem_of_In|apply Z.eqb_refl].
Qed.

(** The type is one of a list that a test names. *)
Ltac each_type E := rewrite among_elem in E; repeat (apply elem_of_cons in E as [E|E]); [rewrite E..|by apply elem_of_nil in E].

Section Accepted.
Context (m : machine) (ctx : Context) (opt : options) (syms : gmap Z Symbol) (is_protected : Z -> bool).
Context (undef_error : ElfRel -> bool) (isec : Section_).

Definition supported (t : Z) : bool :=
  among t [R_RISCV_32; R_RISCV_HI20; R_RISCV_CALL; R_RISCV_CALL_PLT; R_RISCV_PLT32; R_RISCV_GOT_HI20; R_RISCV_TLS_GOT_HI20;
           R_RISCV_TLS_GD_HI20; R_RISCV_32_PCREL; R_RISCV_TPREL_HI20; R_RISCV_TPREL_LO12_I; R_RISCV_TPREL_LO12_S; R_RISCV_TPREL_ADD]
  || (t =? R_RISCV_64) && is_64 (target_of m) || among t no_needs || (t =? R_NONE).

(** What a symbol needs because of a relocation. *)
Definition needed (r : ElfRel) (sym : Symbol) : list Z :=
  let t := rel_type r in
  (if is_ifunc sym then [NEEDS_GOT; NEEDS_PLT] else []) ++
  (if t =? R_RISCV_GOT_HI20 then [NEEDS_GOT] else if t =? R_RISCV_TLS_GOT_HI20 then [NEEDS_GOTTP]
   else if t =? R_RISCV_TLS_GD_HI20 then [NEEDS_TLSGD]
   else if among t [R_RISCV_CALL; R_RISCV_CALL_PLT; R_RISCV_PLT32] && is_imported sym then [NEEDS_PLT] else []).

Abbreviation scan_type := (scan_type m ctx opt syms is_protected isec).
Abbreviation scan_one := (scan_one m ctx opt syms is_protected undef_error isec).
Abbreviation scan_loop := (scan_loop m ctx opt syms is_protected undef_error isec).

Lemma scan_rel_errors r a st x : x ∈ errors st -> x ∈ errors (scan_rel m ctx opt is_protected isec r a st).
Proof.
  intros Hx. destruct a; cbn [scan_rel]; unfold copyrel, dynrel, check_textrel; repeat case_match; cbn [errors add_flag error count_dynrel count_ifunc set_textrel];
    rewrite ?elem_of_app; tauto.
Qed.

Lemma scan_with_errors act r st st' x : scan_with m ctx opt syms is_protected act isec st r = Some st' -> x ∈ errors st -> x ∈ errors st'.
Proof. unfold scan_with. intros H Hx. apply bind_Some in H as (sym & _ & [= <-]). by apply scan_rel_errors. Qed.

Lemma scan_with_flags act r st st' : scan_with m ctx opt syms is_protected act isec st r = Some st' -> flags_le (flags st) (flags st').
Proof. unfold scan_with. intros H. apply bind_Some in H as (sym & _ & [= <-]). apply scan_rel_flags. Qed.

(** The state only grows. *)
Record grows (st st' : scan_state) : Prop := {
  gr_errors : forall x, x ∈ errors st -> x ∈ errors st';
  gr_flags : flags_le (flags st) (flags st') }.

Lemma grows_refl st : grows st st.
Proof. done. Qed.
Lemma grows_trans st1 st2 st3 : grows st1 st2 -> grows st2 st3 -> grows st1 st3.
Proof. intros [E1 F1] [E2 F2]. split; [auto|by transitivity (flags st2)]. Qed.
Lemma add_flag_grows s flag st : grows st (add_flag s flag st).
Proof. split; [done|apply add_flag_le]. Qed.
Lemma error_grows r e st : grows st (error r e st).
Proof. split; [|done]. intros x Hx. cbn [errors error]. rewrite elem_of_app. by left. Qed.
Lemma scan_with_grows act r st st' : scan_with m ctx opt syms is_protected act isec st r = Some st' -> grows st st'.
Proof. intros H. split; [intros x; by apply (scan_with_errors act r)|by apply (scan_with_flags act r)]. Qed.

Lemma add_flag_has s flag st bit : needs flag bit = true -> flagged (flags (add_flag s flag st)) s bit = true.
Proof. intros H. by rewrite add_flag_flagged, bool_decide_eq_true_2, H, orb_true_r. Qed.

Lemma scan_type_grows r sym st st' : scan_type r sym st = Some st' -> grows st st'.
Proof.
  unfold RiscvScan.scan_type. cbv zeta. intros H. tests H; try (by apply scan_with_grows in H); injection H as <-; try done; try apply add_flag_grows.
  - destruct (is_imported sym); [apply add_flag_grows|done].
  - unfold check_tlsle. destruct (shared ctx); [apply error_grows|done].
  - apply error_grows.
Qed.

Lemma scan_type_known r sym st st' : scan_type r sym st = Some st' -> supported (rel_type r) = true \/ (r, UnknownRelocation) ∈ errors st'.
Proof.
  unfold RiscvScan.scan_type. cbv zeta. intros H.
  assert (K : forall t, (rel_type r =? t) = true -> supported t = true -> supported (rel_type r) = true) by (intros t ->%Z.eqb_eq; done).
  tests H; try (left; eapply K; [eassumption|reflexivity]); clear K.
  - left. match goal with E : (rel_type r =? R_RISCV_64) = true, E' : is_64 _ = true |- _ => apply Z.eqb_eq in E as ->; unfold supported; by rewrite E' end.
  - left. match goal with E : among _ _ = true |- _ => each_type E; reflexivity end.
  - left. match goal with E : among _ [R_RISCV_TPREL_HI20; _; _; _] = true |- _ => each_type E; reflexivity end.
  - left. match goal with E : among _ no_needs = true |- _ => unfold supported; rewrite E; by rewrite !orb_true_r end.
  - right. injection H as <-. cbn [errors error]. rewrite elem_of_app. right. by constructor.
Qed.

(** A type that needs a flag is tested for, and the flag is set. *)
Definition type_needs (r : ElfRel) (sym : Symbol) : option Z :=
  let t := rel_type r in
  if t =? R_RISCV_GOT_HI20 then Some NEEDS_GOT else if t =? R_RISCV_TLS_GOT_HI20 then Some NEEDS_GOTTP
  else if t =? R_RISCV_TLS_GD_HI20 then Some NEEDS_TLSGD
  else if among t [R_RISCV_CALL; R_RISCV_CALL_PLT; R_RISCV_PLT32] && is_imported sym then Some NEEDS_PLT else None.

Lemma scan_type_needs r sym st st' n : scan_type r sym st = Some st' -> type_needs r sym = Some n -> flagged (flags st') (r_sym r) n = true.
Proof.
  unfold type_needs. cbv zeta. intros H Hn. tests Hn; injection Hn as <-.
  1-3: match goal with E : (rel_type ?x =? _) = true |- _ => apply Z.eqb_eq in E; unfold RiscvScan.scan_type in H; cbv zeta in H; rewrite E in H end;
    injection H as <-; by apply add_flag_has.
  match goal with E : _ && _ = true |- _ => apply andb_true_iff in E as [E Ei]; unfold RiscvScan.scan_type in H; cbv zeta in H; rewrite Ei in H;
    rewrite among_elem in E; repeat (apply elem_of_cons in E as [E|E]); [rewrite E in H..|by apply elem_of_nil in E] end.
  all: injection H as <-; by apply add_flag_has.
Qed.

Lemma scan_one_ok r st st' : scan_one st r = Some st' -> undef_error r = false -> grows st st' /\
  (supported (rel_type r) = true \/ (r, UnknownRelocation) ∈ errors st') /\
  forall sym n, rel_type r <> R_NONE -> syms !! r_sym r = Some sym -> n ∈ needed r sym -> flagged (flags st') (r_sym r) n = true.
Proof.
  unfold RiscvScan.scan_one. intros H U. rewrite U, orb_false_r in H. destruct (Z.eqb_spec (rel_type r) R_NONE) as [E|E].
  { injection H as <-. split; [done|]. split; [left; by rewrite E|done]. }
  apply bind_Some in H as (sym & Hs & H). pose proof (scan_type_grows _ _ _ _ H) as G. split.
  { destruct (is_ifunc sym); [|done]. eapply grows_trans; [apply add_flag_grows|done]. }
  split; [by eapply scan_type_known|]. intros sym' n _ Hs' Hn. assert (sym' = sym) as -> by congruence.
  unfold needed in Hn. cbv zeta in Hn. apply elem_of_app in Hn as [Hn|Hn].
  - destruct (is_ifunc sym); [|by apply elem_of_nil in Hn]. apply (gr_flags _ _ G). apply add_flag_has. set_unfold in Hn.
    by destruct Hn as [->|[->|?]].
  - apply (scan_type_needs r sym _ st' n H). unfold type_needs. cbv zeta. repeat case_match; set_solver.
Qed.

Lemma scan_loop_grows rels st st' : scan_loop rels st = Some st' -> grows st st'.
Proof.
  revert st. induction rels as [|r rels IH]; intros st H; [by injection H as <-|]. cbn [RiscvScan.scan_loop] in H.
  apply bind_Some in H as (st1 & H1 & H). eapply grows_trans; [|by eapply IH]. unfold RiscvScan.scan_one in H1.
  destruct (_ || _); [by injection H1 as <-|]. apply bind_Some in H1 as (sym & _ & H1). pose proof (scan_type_grows _ _ _ _ H1) as G.
  destruct (is_ifunc sym); [|done]. eapply grows_trans; [apply add_flag_grows|done].
Qed.

Lemma scan_loop_ok rels st st' r : scan_loop rels st = Some st' -> r ∈ rels -> undef_error r = false ->
  (supported (rel_type r) = true \/ (r, UnknownRelocation) ∈ errors st') /\
  forall sym n, rel_type r <> R_NONE -> syms !! r_sym r = Some sym -> n ∈ needed r sym -> flagged (flags st') (r_sym r) n = true.
Proof.
  intros H Hr U. revert st H. induction Hr as [r rels|r r' rels Hr IH]; intros st H; cbn [RiscvScan.scan_loop] in H; apply bind_Some in H as (st1 & H1 & H).
  - destruct (scan_one_ok _ _ _ H1 U) as (_ & K & N). pose proof (scan_loop_grows _ _ _ H) as [G1 G2]. split.
    + destruct K as [K|K]; [by left|right; by apply G1].
    + intros sym n Ht Hs Hn. apply G2. by apply (N sym).
  - by apply (IH U st1).
Qed.
End Accepted.

(** ** Relocating what was accepted *)

Section Returns.
Context (m : machine) (Hm : is_riscv m = true) (ctx : Context) (opt : options) (syms : gmap Z Symbol) (got : GotSection) (undef_weak : Z -> bool).
Context (contents : bytes) (isec : Section_).

(** A step that succeeds and keeps the size of the contents. *)
Definition returns (st : apply_state) (o : option apply_state) : Prop := exists st', o = Some st' /\ zlen (out st') = zlen (out st).

Lemma with_out_returns f st : (exists b, f (out st) = Some b /\ zlen b = zlen (out st)) -> returns st (with_out f st).
Proof. intros (b & E & L). unfold with_out, returns. rewrite E. by eexists. Qed.

Lemma check_returns f r v a b st : returns (check_range r v a b st) (with_out f (check_range r v a b st)) -> returns st (with_out f (check_range r v a b st)).
Proof. unfold returns. by rewrite out_check. Qed.

Lemma modify_returns big n f off st : 0 <= off -> off + Z.of_nat n <= zlen (out st) -> returns st (with_out (modify big n f off) st).
Proof. intros H1 H2. apply with_out_returns. by apply modify_some. Qed.

Lemma modify2_returns big n f off big' n' f' off' st : 0 <= off -> off + Z.of_nat n <= zlen (out st) -> 0 <= off' -> off' + Z.of_nat n' <= zlen (out st) ->
  returns st (with_out (fun b => modify big n f off b ≫= modify big' n' f' off') st).
Proof.
  intros H1 H2 H3 H4. apply with_out_returns. destruct (modify_some big n f off (out st) H1 H2) as (b & E & L). rewrite E. cbn [mbind option_bind].
  destruct (modify_some big' n' f' off' b H3) as (b' & E' & L'); [by rewrite L|]. exists b'. split; [done|]. by rewrite L'.
Qed.

(** What may have been removed of a relocation's bytes. *)
Definition is_call_type (t : Z) : bool := (t =? R_RISCV_CALL) || (t =? R_RISCV_CALL_PLT).
Definition is_lui_type (t : Z) : bool := among t [R_RISCV_HI20; R_RISCV_TPREL_HI20; R_RISCV_TPREL_ADD].
Record removal_ok (r : ElfRel) (removed : Z) : Prop := {
  ro_range : 0 <= removed;
  ro_none : span r = 0 -> removed = 0;
  ro_call : is_call_type (rel_type r) = true -> exists w, read_le 4 contents (r_offset r + 4) = Some w /\
    (removed = 0 \/ removed = 4 \/ removed = 6 /\ (get_rd w = 0 \/ get_rd w = 1 /\ is_64 (target_of m) = false));
  ro_lui : is_lui_type (rel_type r) = true -> removed = 0 \/ removed = 4;
  ro_align : rel_type r = R_RISCV_ALIGN -> Z.odd (r_addend r - removed) = false }.

Lemma call_returns r removed dist off st : removal_ok r removed -> is_call_type (rel_type r) = true ->
  0 <= off -> off + (8 - removed) <= zlen (out st) -> returns st (apply_call m undef_weak contents r removed dist off st).
Proof.
  intros R T H1 H2. destruct (ro_call _ _ R T) as (w & Ew & Hr). unfold apply_call. rewrite Ew. cbn [mbind option_bind]. cbv zeta.
  destruct Hr as [-> | [-> | [-> Hrd]]].
  - cbn [Z.eqb negb andb]. apply check_returns, modify2_returns; rewrite ?out_check; simpl; lia.
  - apply modify2_returns; simpl; lia.
  - cbn [Z.eqb Pos.eqb andb]. destruct (Z.eqb_spec (get_rd w) 0); [apply modify2_returns; simpl; lia|].
    destruct Hrd as [|[-> ->]]; [done|]. apply modify2_returns; simpl; lia.
Qed.

Lemma write_nops_some fuel i padding off buf : 0 <= i -> Z.even i = true -> Z.even padding = true -> 0 <= off -> off + padding <= zlen buf ->
  exists buf', write_nops fuel i padding off buf = Some buf' /\ zlen buf' = zlen buf.
Proof.
  revert i buf. induction fuel as [|fuel IH]; intros i buf Hi Hie Hpe Ho Hb; [by exists buf|]. cbn [write_nops].
  destruct (Z.leb_spec i (padding - 4)).
  - destruct (modify_some false 4 (fun _ => 0x13) (off + i) buf) as (b & E & L); [lia|simpl; lia|]. unfold assign. rewrite E. cbn [mbind option_bind].
    destruct (IH (i + 4) b) as (b' & E' & L'); [lia|by rewrite Z.even_add, Hie|done|done|by rewrite L|]. exists b'. split; [done|]. by rewrite L'.
  - destruct (Z.ltb_spec i padding); [|by exists buf]. apply modify_some; [lia|]. simpl.
    apply Z.even_spec in Hie as [a ->]. apply Z.even_spec in Hpe as [b ->]. lia.
Qed.

Lemma lui_returns r c removed val off st : removed = 0 \/ removed = 4 -> 0 <= off -> off + (4 - removed) <= zlen (out st) ->
  returns st (apply_lui r c removed val off st).
Proof.
  intros [-> | ->] H1 H2; unfold apply_lui; cbn [Z.eqb Pos.eqb]; [|by exists st].
  destruct c; [apply check_returns|]; apply modify_returns; rewrite ?out_check; simpl; lia.
Qed.

Lemma irelative_riscv : is_Some (R_IRELATIVE (target_of m)).
Proof. destruct m; try done; by eexists. Qed.

Lemma absolute_returns r sym S P off st : is_Some (get_addr m ctx true false sym) -> 0 <= off -> off + word_size m <= zlen (out st) ->
  returns st (absolute m ctx opt isec r sym S P off st).
Proof.
  intros [a Ea] H1 H2. unfold absolute. destruct irelative_riscv as [t Et].
  assert (exists w rel, apply_absrel m ctx opt isec r sym S P (get_dyn_absrel_action ctx sym) = Some (w, rel)) as (w & rel & E).
  { pose proof (word_action_cases ctx false sym) as W. unfold word_action in W. unfold word_sized in W.
    destruct (get_dyn_absrel_action ctx sym); try (exfalso; revert W; decided); cbn [apply_absrel]; cbv zeta;
      unfold apply_dynrel; rewrite ?Et, ?Ea; repeat case_match; by eexists _, _. }
  rewrite E. cbn [mbind option_bind]. destruct w as [x|]; [|by eexists].
  destruct (modify_some (big_endian m) (Z.to_nat (word_size m)) (fun _ => x) off (out st) H1) as (b & Eb & L).
  { rewrite Z2Nat.id; [done|]. rewrite word_size_rv. by case_match. }
  unfold assign. rewrite Eb. by eexists.
Qed.

(** No test has recognized the type. *)
Ltac contradict_type T :=
  first [by rewrite T in *
        |match goal with H : branch_update _ _ = None |- _ => rewrite T in H; discriminate H end
        |match goal with H : insn_update _ _ _ _ _ _ _ _ _ = None |- _ => rewrite T in H; discriminate H end
        |match goal with H : data_update _ _ _ _ = None |- _ => rewrite T in H; discriminate H end
        |match goal with H : _ = false |- _ => rewrite T in H; discriminate H end].
Ltac splits_goal := repeat match goal with |- returns _ (if ?c then _ else _) => destruct c eqn:? end.

Lemma type_returns r sym S off P dist val tp removed st : supported m (rel_type r) = true -> rel_type r <> R_NONE -> rel_type r <> R_RISCV_RELAX ->
  is_Some (get_addr m ctx true false sym) -> removal_ok r removed -> (0 < width r -> 0 <= off /\ off + (width r - removed) <= zlen (out st)) ->
  returns st (apply_type m ctx opt got undef_weak contents isec r sym S off P dist val tp removed st).
Proof.
  intros Hsup Hn Hx Ha R Hb. unfold apply_type. cbv zeta.
  assert (Hw : forall n, width r = n -> 0 < n -> span r = 0 -> 0 <= off /\ off + n <= zlen (out st)).
  { intros n E1 Hp E2. rewrite (ro_none _ _ R E2), E1, Z.sub_0_r in Hb. by apply Hb. }
  destruct (branch_update _ _) as [[[k n] f]|] eqn:Eb.
  { destruct (branch_width _ _ _ _ _ Eb) as [E1 E2]. assert (0 < Z.of_nat n) by (unfold branch_update in Eb; tests Eb; injection Eb as _ <- _; lia).
    destruct (Hw _ E2) as [H1 H2]; [done|done|]. apply check_returns, modify_returns; rewrite ?out_check; done. }
  destruct (insn_update _ _ _ _ _ _ _ _ _) as [f|] eqn:Ei.
  { destruct (insn_width _ _ _ _ _ _ _ _ _ _ Ei) as [E1 E2]. destruct (Hw _ E2) as [H1 H2]; [done|done|]. by apply modify_returns. }
  destruct (data_update _ _ _ _) as [[n f]|] eqn:Ed.
  { destruct (data_width _ _ _ _ _ _ Ed) as [E1 E2]. assert (0 < Z.of_nat n) by (unfold data_update in Ed; tests Ed; injection Ed as <- _; lia).
    destruct (Hw _ E2) as [H1 H2]; [done|done|]. by apply modify_returns. }
  splits_goal; try (by exists st).
  - assert (Eis : is_64 (target_of m) = false).
    { destruct (is_64 (target_of m)) eqn:E; [|done]. unfold data_update in Ed. assert (T : rel_type r = R_RISCV_32) by (by apply Z.eqb_eq). by rewrite T, E in Ed. }
    destruct (Hw 4) as [H1 H2]; [this_width|done|this_width|]. apply absolute_returns; [done|done|]. by rewrite word_size_rv, Eis.
  - match goal with E : is_64 _ = true |- _ => rename E into Eis end.
    destruct (Hw 8) as [H1 H2]; [this_width|done|this_width|]. apply absolute_returns; [done|done|]. by rewrite word_size_rv, Eis.
  - exfalso. match goal with E : (rel_type r =? R_RISCV_64) = true, E' : is_64 _ = false |- _ => apply Z.eqb_eq in E; unfold supported in Hsup; by rewrite E, E' in Hsup end.
  - match goal with E : (_ || _) = true |- _ => rename E into T end. assert (Ew : width r = 8) by this_width.
    rewrite Ew in Hb. destruct Hb as [H1 H2]; [done|]. by apply call_returns.
  - assert (Ew : width r = 4) by this_width. rewrite Ew in Hb. destruct Hb as [H1 H2]; [done|]. apply lui_returns; [|done|done].
    apply (ro_lui _ _ R). unfold is_lui_type. match goal with E : (rel_type r =? _) = true |- _ => by apply Z.eqb_eq in E as -> end.
  - assert (Ew : width r = 4) by this_width. rewrite Ew in Hb. destruct Hb as [H1 H2]; [done|]. apply lui_returns; [|done|done].
    apply (ro_lui _ _ R). unfold is_lui_type. match goal with E : (rel_type r =? R_RISCV_TPREL_HI20) = true |- _ => by apply Z.eqb_eq in E as -> end.
  - exfalso. match goal with E : (rel_type r =? R_RISCV_TPREL_ADD) = true, E' : (_ || _) = false |- _ => apply Z.eqb_eq in E; apply orb_false_iff in E' as [E1 E2];
      destruct (ro_lui _ _ R) as [-> | ->]; [unfold is_lui_type; by rewrite E|done|done] end.
  - match goal with E : (rel_type r =? R_RISCV_ALIGN) = true |- _ => apply Z.eqb_eq in E; rename E into T end.
    pose proof (ro_align _ _ R T) as Ho. apply with_out_returns. unfold apply_align. cbv zeta. rewrite Ho.
    assert (Esp : span r = r_addend r) by (unfold span; by rewrite T). pose proof (ro_range _ _ R).
    destruct (Z.le_gt_cases (r_addend r - removed) 0) as [Hp|Hp].
    + replace (Z.to_nat (r_addend r - removed)) with O by lia. by exists (out st).
    + rewrite width_span, Esp in Hb by lia. destruct Hb as [H1 H2]; [lia|]. apply write_nops_some; try done. by rewrite <- Z.negb_odd, Ho.
  - exfalso. unfold supported in Hsup. rewrite !orb_true_iff in Hsup. destruct Hsup as [[[Hsup|Hsup]|Hsup]|Hsup].
    + rewrite among_elem in Hsup. repeat (apply elem_of_cons in Hsup as [Hsup|Hsup]); [..|by apply elem_of_nil in Hsup]. all: contradict_type Hsup.
    + apply andb_true_iff in Hsup as [Hsup%Z.eqb_eq E]. contradict_type Hsup.
    + unfold no_needs in Hsup. rewrite among_elem in Hsup. repeat (apply elem_of_cons in Hsup as [Hsup|Hsup]); [..|by apply elem_of_nil in Hsup]. all: contradict_type Hsup.
    + by apply Z.eqb_eq in Hsup.
Qed.
End Returns.

(** ** From scanning to relocating *)

Section Whole.
Context (m : machine) (ctx0 : Context) (syms0 : gmap Z Symbol) (undef_weak internal : Z -> bool).
Context (relax use_rvc : bool) (contents : bytes) (isec0 : Section_) (u : Z).

Abbreviation rels := (section_rels isec0).

Lemma shrink_call_cases r d : shrink_call m ctx0 syms0 undef_weak use_rvc contents isec0 r = Some d ->
  (d = 0 \/ d = 4) \/ d = 6 /\ exists w, read_le 4 contents (r_offset r + 4) = Some w /\ (get_rd w = 0 \/ get_rd w = 1 /\ is_64 (target_of m) = false).
Proof.
  unfold shrink_call. intros H. apply bind_Some in H as (dist & _ & H). destruct (Z.odd dist); [injection H as <-; lia|].
  apply bind_Some in H as (w & Ew & H). cbv zeta in H. destruct (Z.eqb_spec (get_rd w) 0).
  - cbn [andb] in H. destruct (fits 11 dist && use_rvc); [injection H as <-; right; split; [done|]; exists w; tauto|].
    replace (get_rd w =? 1) with false in H by (symmetry; apply Z.eqb_neq; lia). cbn [andb] in H. destruct (fits 20 dist); injection H as <-; lia.
  - cbn [andb] in H. destruct (Z.eqb_spec (get_rd w) 1); cbn [andb] in H.
    + destruct (fits 11 dist && use_rvc && negb (is_64 _)) eqn:E.
      * injection H as <-. right. split; [done|]. exists w. apply andb_true_iff in E as [_ E%negb_true_iff]. tauto.
      * destruct (fits 20 dist); injection H as <-; lia.
    + destruct (fits 20 dist); injection H as <-; lia.
Qed.

Lemma removal_shrink r next delta d : relaxable m ctx0 syms0 use_rvc contents isec0 u -> r ∈ rels ->
  shrinks m ctx0 syms0 undef_weak internal relax use_rvc contents isec0 u r next delta d -> removal_ok m contents r d.
Proof.
  intros HR Hr [E Hd Hu _]. pose proof (rx_unit _ _ _ _ _ _ _ HR) as Hunit.
  assert (Hs : span r <> 0 -> 0 <= r_offset r /\ r_offset r + span r <= zlen contents).
  { intros Hz. pose proof (ranges_after _ _ _ _ _ (rx_spans _ _ _ _ _ _ _ HR) (spans_elem _ _ Hr Hz)). simpl in *. lia. }
  unfold shrink_one in E. cbv zeta in E. split.
  - lia.
  - lia.
  - intros T. assert (Es : span r = 8) by (unfold is_call_type in T; this_width). destruct (Hs ltac:(lia)) as [H1 H2].
    assert (exists w, read_le 4 contents (r_offset r + 4) = Some w) as [w Ew].
    { unfold read_le. rewrite (proj2 (in_buf_true 4 contents (r_offset r + 4))) by (simpl; lia). by eexists. }
    exists w. split; [done|]. destruct (Z.eqb_spec (rel_type r) R_RISCV_ALIGN) as [Ea|_]; [by rewrite Ea in T|].
    destruct (_ || _); [injection E as <-; by left|]. destruct (internal _); [injection E as <-; by left|].
    unfold is_call_type in T. rewrite T in E. apply shrink_call_cases in E as [E|(-> & w' & Ew' & Hrd)]; [tauto|].
    right. right. split; [done|]. by assert (w = w') as -> by congruence.
  - intros T. destruct (Z.eqb_spec (rel_type r) R_RISCV_ALIGN) as [Ea|_]; [by rewrite Ea in T|].
    destruct (_ || _); [injection E as <-; by left|]. destruct (internal _); [injection E as <-; by left|].
    tests E; try (injection E as <-; by left).
    + match goal with X : (_ || _) = true |- _ => apply orb_true_iff in X as [X|X]; apply Z.eqb_eq in X; by rewrite X in T end.
    + apply bind_Some in E as (S & _ & E). destruct (is_int12 _); injection E as <-; tauto.
    + apply bind_Some in E as (S & _ & E). destruct (fits _ _); injection E as <-; tauto.
  - intros T. pose proof (rx_align _ _ _ _ _ _ _ HR) as Ha. rewrite Forall_forall in Ha. destruct (Ha r Hr T) as (_ & _ & k & Hk & Hk2 & ->).
    assert (Z.even (2 ^ k) = true). { rewrite Z.even_pow; [done|]. destruct (Z.eq_dec k 0) as [E0|]; [rewrite E0 in Hk2; simpl in Hk2|]; lia. }
    assert (exists a, d = u * a) as [a ->] by (exists (d / u); pose proof (Z_div_mod_eq_full d u); lia).
    rewrite <- Z.negb_even, !Z.even_sub, H, Z.even_mul. by destruct Hunit as [-> | ->].
Qed.

(** The sections as they are when they are relocated. *)
Context (l : list Z) (base : bytes) (HR : relaxed m ctx0 syms0 undef_weak internal relax use_rvc contents isec0 u l base) (HS : separate rels).

(** What is left of the bytes of a relocation lies in the section. *)
Lemma place_left j x d d' : rels !! j = Some x -> 0 < width x -> 0 <= r_offset x -> r_offset x + width x <= zlen contents ->
  l !! j = Some d -> l !! S j = Some d' -> 0 <= r_offset x - d /\ r_offset x - d + (width x - (d' - d)) <= zlen base.
Proof.
  intros Hj Hw Ho Hb E1 E2. destruct (placed _ _ _ _ _ _ _ _ _ _ _ _ HR HS j x Hj Hw) as (I1 & I2 & P1 & P2).
  pose proof (rd_ranges _ _ _ _ _ _ _ _ _ _ _ _ HR) as Hrng. set (R := removals rels l) in *.
  assert (d = shift R (r_offset x)) as -> by congruence. assert (d' = shift R (r_offset x + width x)) as -> by congruence.
  pose proof (shift_inside _ _ _ _ Hrng I1 Ho). split; [lia|].
  assert (Iz : inside R (zlen contents) = false).
  { apply inside_false. intros [o n] Hq. pose proof (ranges_after _ _ _ _ _ Hrng Hq). simpl. lia. }
  pose proof (shift_diff _ _ _ _ _ Hrng Iz Hb). rewrite (cp_length _ _ _ _ (rd_copied _ _ _ _ _ _ _ _ _ _ _ _ HR)). fold R.
  assert (shift R (zlen contents) = total R); [|lia].
  assert (Hlt : forall q, q ∈ R -> q.1 < zlen contents) by (intros [o n] Hq; pose proof (ranges_after _ _ _ _ _ Hrng Hq); simpl; lia).
  clear -Hlt. induction R as [|q R IH]; [done|]. cbn [shift total foldr]. fold (shift R (zlen contents)) (total R).
  pose proof (Hlt q ltac:(constructor)). destruct (Z.ltb_spec q.1 (zlen contents)); [|lia].
  rewrite IH; [done|]. intros q' Hq. apply Hlt. by constructor.
Qed.

Context (ctx : Context) (opt : options) (syms : gmap Z Symbol) (got : GotSection) (in_section : Z -> bool) (isec : Section_).
Context (Hm : is_riscv m = true) (Hrx : relaxable m ctx0 syms0 use_rvc contents isec0 u) (Hrels : section_rels isec = rels).

(** What relocating needs besides: supported types, symbols with addresses, places in the
    section, and labels of the same section for the lower parts of relative addresses. *)
Record relocatable (r : ElfRel) : Prop := {
  rl_type : supported m (rel_type r) = true;
  rl_symbol : exists sym, syms !! r_sym r = Some sym /\ is_Some (get_addr m ctx false false sym) /\ is_Some (get_addr m ctx true false sym);
  rl_place : 0 < width r -> 0 <= r_offset r /\ r_offset r + width r <= zlen contents;
  rl_label : is_lo r = true -> in_section (r_sym r) = true /\ exists sym, syms !! r_sym r = Some sym /\ 0 <= value sym /\ value sym + 4 <= zlen base }.

Context (Hrel : forall r, r ∈ rels -> relocatable r).

Lemma get_delta i d : l !! i = Some d -> get_r_delta l i = Some d.
Proof. intros H. unfold get_r_delta. by destruct l. Qed.

Lemma one_returns j r d d' st : rels !! j = Some r -> l !! j = Some d -> l !! S j = Some d' -> zlen (out st) = zlen base ->
  returns st (apply_one m ctx opt syms got undef_weak contents isec r d (d' - d) st).
Proof.
  intros Hj E1 E2 L. assert (Hin : r ∈ rels) by (by eapply list_elem_of_lookup_2). destruct (Hrel r Hin) as [Ht (sym & Hs & [S HS1] & HS2) Hp _].
  unfold apply_one. destruct (Z.eqb_spec (rel_type r) R_NONE); [by exists st|]. destruct (Z.eqb_spec (rel_type r) R_RISCV_RELAX); [by exists st|]. cbn [orb].
  rewrite Hs. cbn [mbind option_bind]. rewrite HS1. cbn [mbind option_bind]. cbv zeta. apply type_returns; try done.
  - destruct (rd_site _ _ _ _ _ _ _ _ _ _ _ _ HR j r Hj) as (e & k & F1 & F2 & _ & _ & Hsh). replace (d' - d) with k.
    + by apply (removal_shrink r (drop (Datatypes.S j) rels) e k Hrx Hin).
    + rewrite E1 in F1. rewrite E2 in F2. injection F1; injection F2; lia.
  - intros Hw. rewrite L. destruct (Hp Hw). by apply (place_left j).
Qed.

Lemma loop_returns i rs st : drop i rels = rs -> zlen (out st) = zlen base -> returns st (apply_loop m ctx opt syms got undef_weak contents isec l i rs st).
Proof.
  revert i st. induction rs as [|r rs IH]; intros i st Hd L; [by exists st|]. cbn [apply_loop].
  assert (Hj : rels !! i = Some r) by (by rewrite <- (Nat.add_0_r i), <- lookup_drop, Hd).
  destruct (rd_site _ _ _ _ _ _ _ _ _ _ _ _ HR i r Hj) as (d & n & E1 & E2 & _). rewrite (get_delta i d E1), (get_delta (S i) _ E2). cbn [mbind option_bind].
  destruct (one_returns i r d (d + n) st Hj E1 E2 L) as (st1 & -> & L1). cbn [mbind option_bind].
  destruct (IH (S i) st1) as (st2 & E & L2); [by rewrite (drop_S _ _ _ Hj) in Hd; injection Hd|by rewrite L1|].
  exists st2. split; [done|]. by rewrite L2.
Qed.

Lemma fix_returns f : (forall j r d buf, rels !! j = Some r -> l !! j = Some d -> zlen buf = zlen base -> exists buf', f r d buf = Some buf' /\ zlen buf' = zlen buf) ->
  forall i rs buf, drop i rels = rs -> zlen buf = zlen base -> exists buf', fix_loop l f i rs buf = Some buf' /\ zlen buf' = zlen buf.
Proof.
  intros Hf i rs. revert i. induction rs as [|r rs IH]; intros i buf Hd L; [by exists buf|]. cbn [fix_loop].
  assert (Hj : rels !! i = Some r) by (by rewrite <- (Nat.add_0_r i), <- lookup_drop, Hd).
  destruct (rd_site _ _ _ _ _ _ _ _ _ _ _ _ HR i r Hj) as (d & k & E1 & _). rewrite (get_delta i d E1). cbn [mbind option_bind].
  destruct (Hf i r d buf Hj E1 L) as (b & -> & L1). cbn [mbind option_bind].
  destruct (IH (S i) b) as (b' & E & L2); [by rewrite (drop_S _ _ _ Hj) in Hd; injection Hd|by rewrite L1|]. exists b'. split; [done|]. by rewrite L2.
Qed.

(** Four bytes of which nothing was removed. *)
Lemma word_left j r d : rels !! j = Some r -> l !! j = Some d -> span r = 0 -> width r = 4 ->
  0 <= r_offset r - d /\ r_offset r - d + 4 <= zlen base /\ 0 <= r_offset r /\ r_offset r + 4 <= zlen contents.
Proof.
  intros Hj E1 Es Ew. destruct (rd_site _ _ _ _ _ _ _ _ _ _ _ _ HR j r Hj) as (e & k & F1 & F2 & _ & _ & [_ Hk _ _]).
  assert (k = 0) as -> by lia. assert (e = d) as -> by congruence.
  destruct (rl_place _ (Hrel r ltac:(by eapply list_elem_of_lookup_2))) as [H1 H2]; [lia|].
  pose proof (place_left j r d (d + 0) Hj ltac:(lia) H1 H2 E1 F2) as [H3 H4]. lia.
Qed.

Lemma lo_returns j r d buf : rels !! j = Some r -> l !! j = Some d -> zlen buf = zlen base ->
  exists buf', apply_lo syms in_section r d buf = Some buf' /\ zlen buf' = zlen buf.
Proof.
  intros Hj E1 L. unfold apply_lo. cbv zeta. fold (is_lo r). destruct (is_lo r) eqn:El; [|by exists buf].
  destruct (lo_width r El) as [Es Ew]. destruct (word_left j r d Hj E1 Es Ew) as (H1 & H2 & _).
  destruct (rl_label _ (Hrel r ltac:(by eapply list_elem_of_lookup_2)) El) as (-> & sym & Hs & H3 & H4).
  rewrite Hs. cbn [mbind option_bind negb]. unfold read_le. rewrite (proj2 (in_buf_true 4 buf (value sym))) by (rewrite L; simpl; lia). cbn [mbind option_bind].
  apply modify_some; [done|]. rewrite L. simpl. lia.
Qed.

Lemma hi_returns j r d buf : rels !! j = Some r -> l !! j = Some d -> zlen buf = zlen base ->
  exists buf', apply_hi contents r d buf = Some buf' /\ zlen buf' = zlen buf.
Proof.
  intros Hj E1 L. unfold apply_hi. destruct (stores_value r) eqn:El; [|by exists buf].
  destruct (hi_width r El) as [Es Ew]. destruct (word_left j r d Hj E1 Es Ew) as (H1 & H2 & H3 & H4).
  unfold read_le. rewrite (proj2 (in_buf_true 4 buf (r_offset r - d))) by (rewrite L; simpl; lia). cbn [mbind option_bind].
  unfold slice. destruct (Z.leb_spec 0 (r_offset r)), (Z.leb_spec (r_offset r) (r_offset r + 4)), (Z.leb_spec (r_offset r + 4) (zlen contents)); try lia.
  cbn [andb mbind option_bind]. set (insn := take (Z.to_nat (r_offset r + 4 - r_offset r)) (drop (Z.to_nat (r_offset r)) contents)). assert (Li : zlen insn = 4).
  { unfold insn, zlen in *. rewrite length_take, length_drop. lia. }
  destruct (poke_some (r_offset r - d) insn buf) as (b & -> & L1 & _); [done|lia|]. cbn [mbind option_bind].
  destruct (modify_some false 4 (write_utype (le_load (take 4 (drop (Z.to_nat (r_offset r - d)) buf)))) (r_offset r - d) b) as (b' & E & L2); [done|rewrite L1, L; simpl; lia|].
  exists b'. split; [exact E|]. by rewrite L2.
Qed.

Lemma apply_returns : exists st, apply_reloc_alloc m ctx opt syms got undef_weak in_section contents isec l base = Some st /\ zlen (out st) = zlen base.
Proof.
  unfold apply_reloc_alloc. rewrite Hrels. destruct (loop_returns 0 rels (mkApply base [] []) eq_refl eq_refl) as (st & -> & L). cbn [mbind option_bind].
  cbn [out] in L. destruct (fix_returns _ lo_returns 0%nat rels (out st) eq_refl L) as (b1 & -> & L1). cbn [mbind option_bind].
  destruct (fix_returns _ hi_returns 0%nat rels b1 eq_refl ltac:(by rewrite L1)) as (b2 & -> & L2). cbn [mbind option_bind].
  eexists. split; [reflexivity|]. cbn [out]. by rewrite L2, L1.
Qed.
End Whole.

(** ** The theorem *)

Section Theorem_.
Context (m : machine) (ctx0 ctx1 ctx : Context) (opt : options) (syms0 syms1 syms : gmap Z Symbol) (is_protected : Z -> bool) (undef_error : ElfRel -> bool).
Context (undef_weak internal in_section : Z -> bool) (relax use_rvc : bool) (contents : bytes) (isec0 isec1 isec : Section_) (u : Z) (got : GotSection).

(** C8: when scanning the relocations of a section of code ends without a fatal error and
    without an unknown relocation, the section can be shrunk and copied, and relocating the
    copy returns without a fatal error or a failed assertion and without leaving the
    section, provided that symbols have addresses, the places lie in the section and the
    labels of lower parts of relative addresses in the copy; and scanning has given every
    symbol the flags that its relocations need: of a slot in .got for each way to address
    it, and of a PLT entry for calls of imported symbols. *)
Theorem scanned_relocations_apply st0 n st1 : is_riscv m = true -> relaxable m ctx0 syms0 use_rvc contents isec0 u -> separate (section_rels isec0) ->
  section_rels isec1 = section_rels isec0 -> section_rels isec = section_rels isec0 ->
  scan_relocations m ctx1 opt syms1 is_protected undef_error isec1 st0 = Some (n, st1) ->
  (forall r, r ∈ section_rels isec0 -> undef_error r = false /\ ((r, UnknownRelocation) ∉ errors st1) /\
    (exists sym, syms !! r_sym r = Some sym /\ is_Some (get_addr m ctx false false sym) /\ is_Some (get_addr m ctx true false sym)) /\
    (0 < width r -> 0 <= r_offset r /\ r_offset r + width r <= zlen contents)) ->
  exists l base, shrink_section m ctx0 syms0 undef_weak internal relax use_rvc contents isec0 = Some l /\
    copy_contents_riscv contents (section_rels isec0) l = Some base /\ n = num_dynrel st0 /\
    (forall r sym bit, r ∈ section_rels isec0 -> rel_type r <> R_NONE -> syms1 !! r_sym r = Some sym -> bit ∈ needed r sym ->
      flagged (flags st1) (r_sym r) bit = true) /\
    ((forall r, r ∈ section_rels isec0 -> is_lo r = true ->
        in_section (r_sym r) = true /\ (exists sym, syms !! r_sym r = Some sym /\ 0 <= value sym /\ value sym + 4 <= zlen base)) ->
      exists st, apply_reloc_alloc m ctx opt syms got undef_weak in_section contents isec l base = Some st /\ zlen (out st) = zlen base).
Proof.
  intros Hm Hrx HS H1 H2 Hscan H. unfold scan_relocations in Hscan. rewrite H1 in Hscan. apply bind_Some in Hscan as (st' & Hscan & [= <- ->]).
  destruct (relaxed_ok m ctx0 syms0 undef_weak internal relax use_rvc contents isec0 u Hrx) as (l & base & HR). exists l, base.
  split; [apply HR|]. split; [apply HR|]. split; [done|]. split.
  - intros r sym bit Hr Ht Hs Hb. destruct (H r Hr) as (U & _). destruct (scan_loop_ok _ _ _ _ _ _ _ _ _ _ _ Hscan Hr U) as [_ N]. by apply (N sym).
  - intros Hlab. apply (apply_returns m ctx0 syms0 undef_weak internal relax use_rvc contents isec0 u l base HR HS); try done. intros r Hr.
    destruct (H r Hr) as (U & Hu & Hs & Hp). split; try done; [|by apply Hlab].
    by destruct (scan_loop_ok _ _ _ _ _ _ _ _ _ _ _ Hscan Hr U) as [[Hk|Hk] _].
Qed.
End Theorem_.

(** *** The sample of [RiscvReloc] *)

Lemma scanned_relocations_apply_witness : exists st, scan_relocations RV64LE sample_ctx (mkOptions true true) (riscv_symbols 16) (fun _ => false) (fun _ => false) sample_code (new_scan ∅) = Some st /\
  flagged (flags st.2) 1 NEEDS_PLT = false /\ is_Some (sample_apply sample_deltas sample_base).
Proof.
  destruct (scan_relocations RV64LE sample_ctx (mkOptions true true) (riscv_symbols 16) (fun _ => false) (fun _ => false) sample_code (new_scan ∅)) as [[n st]|] eqn:E.
  2: exfalso; by vm_compute in E.
  exists (n, st). split; [done|]. split; [vm_compute in E; by injection E as <- <-|].
  destruct (scanned_relocations_apply RV64LE sample_ctx sample_ctx sample_ctx (mkOptions true true) (riscv_symbols 16) (riscv_symbols 16) (riscv_symbols 10) (fun _ => false) (fun _ => false)
    (fun _ => false) (fun _ => false) (fun _ => true) true true sample_text sample_code sample_code sample_code 2 (new_got RV64LE 16384 sample_symbols)
    (new_scan ∅) n st eq_refl sample_relaxable sample_separate eq_refl eq_refl E) as (l & base & Hl & Hb & _ & _ & H).
  - intros r Hr. split; [done|]. split; [|split].
    + vm_compute in E. injection E as _ <-. apply not_elem_of_nil.
    + repeat (apply elem_of_cons in Hr as [->|Hr]; [eexists; split; [reflexivity|]; split; eexists; reflexivity|]). by apply elem_of_nil in Hr.
    + intros _. repeat (apply elem_of_cons in Hr as [->|Hr]; [by vm_compute|]). by apply elem_of_nil in Hr.
  - assert (l = sample_deltas) as -> by (vm_compute in Hl; by injection Hl as <-).
    assert (base = sample_base) as -> by (vm_compute in Hb; by injection Hb as <-).
    destruct H as (st' & Es & _).
    + intros r Hr Hlo. repeat (apply elem_of_cons in Hr as [->|Hr]; [first [by vm_compute in Hlo|split; [done|]; eexists; split; [reflexivity|]; by vm_compute]|]). by apply elem_of_nil in Hr.
    + exists st'. exact Es.
Defined.
